(* ===== verification/_CoqProject ===== *)
-Q . S2P
Prelude.v
KphMsg.v
FileStream.v
FastLock.v
Event.v
Rundown.v
QueuedLock.v
QueuedLockProof.v
WakeEvent.v
Barrier.v
CidTable.v
AvlTree.v
Hashtable.v
CircBuf.v
StringRef.v
Numbers.v
Format.v
Unicode.v
FreeList.v
RefObject.v
AutoPool.v
WorkQueue.v
WorkQueueProof.v
HandleTable.v
HandleHeap.v
HandleSpec.v
