(* ===== verification/Prelude.v ===== *)
(** * A verification library for the System Informer run-time core

    System Informer (Process Hacker) is a process viewer for Windows, a kernel driver that serves
    it, and a run-time library both build on. This development models parts of the library under
    [src/phlib], of the message format shared with the driver under [src/kphlib], and of the
    driver under [src/KSystemInformer], and proves that they do what they are for. What the driver
    and the library call of the operating system is a parameter throughout.

    ** The files

    - [Prelude]: integers of fixed width ([u8], [u16], [u32], [u64], [signed] and the wrapping
      operations [+₃₂] etc.), undefined behaviour ([ub]: [None] is undefined), byte buffers and
      bounded writes, lists linked through an index ([links]), shared automation.
    - [KphMsg] (kphlib/kphmsg.c, kphmsgdyn.c): the 4096-byte messages between driver and client:
      header, validation, and the table of dynamic fields with their claims and lookups.
    - [FileStream] (phlib/filestream.c): buffered streams over a file object. [FileOps] is the
      system's file interface, [FileLaws] its behaviour for a disk file, [MemFile] an instance.
    - [FastLock] (phlib/fastlock.c): the reader-writer lock, as a step relation of any number of
      threads over one lock word and two kernel semaphores ([Semaphores], [SemaphoreLaws]).
    - [Event] (phlib/sync.c): events, as steps of threads over the event word and a kernel event
      ([KernelEvents], [KernelEventLaws]), and once-initialization. [Rundown] (phlib/sync.c):
      rundown protection, whose waiter sleeps on an event of [Event].
    - [QueuedLock] (phlib/queuedlock.c): exclusive and shared locks on one word, whose waiters queue
      in blocks on their stacks and sleep on keyed events ([KeyedEvents], [KeyedEventLaws]);
      [QueuedLockProof] has the invariant of all interleavings and the theorems.
    - [WakeEvent] (phlib/queuedlock.c): wake events, which chain the same wait blocks; its invariant
      leaves open what the threads do between their calls. [Barrier] (phlib/sync.c): barriers, whose
      waiters sleep on a wake event.
    - [RefObject] (phlib/ref.c, ref.h, refp.h): reference-counted objects and the list of deletions
      that are left to a work item. [AutoPool] (phlib/ref.c): auto-dereference pools and variables
      that hold references, over any counting of references ([References]).
    - [WorkQueue] (phlib/workqueue.c): work queues, as steps of clients and of the worker threads
      that they start; [WorkQueueProof] has the theorems.
    - [CidTable] (KSystemInformer/cid_table.c, with the reference counts of kphobject.c and the
      pool functions of alloc.c): a sparse array of objects by process or thread id.
    - [AvlTree] (phlib/avltree.c): balanced trees as pointer programs over a heap of links.
    - [Hashtable] (phlib/basesup.c): hash tables of entries chained by index, and the simple hash
      table on top of them.
    - [CircBuf] (phlib/circbuf_i.h, circbuf_h.h): circular buffers of items of any type.
    - [StringRef] (phlib/basesup.c): counted strings: searching, comparing, splitting, trimming, with
      and without 128-bit instructions. [Numbers] (phlib/basesup.c, data.c): parsing integers,
      hexadecimal dumps, powers. [Format] (phlib/format.c, format_i.h): text from lists of elements,
      in a string that grows or a buffer that does not; one section over the macros that differ.
    - [Unicode] (phlib/basesup.c): the incremental decoder, the encoder, conversion to ASCII.
    - [FreeList] (phlib/basesup.c): allocation from the process heap and free lists; the interface
      [Allocator] with [AllocatorLaws], against which handle tables are proved.
    - [HandleTable] (phlib/handle.c, handle.h, handlep.h): handle tables: three levels of entries,
      two free lists, handles, enumeration. [HandleHeap] makes the free lists of [handle.c] and the
      heap an [Allocator]; [HandleSpec] states what a table promises along sequences of calls.

    Each file has one [Module] of its own name; a definition has the name of the C function, type
    or constant it models, and a helper that stands for a loop or a branch of a function says so.
    A function that only computes is a Gallina function; one that writes takes and returns the
    state it writes; one that can leave defined behaviour (an access outside a block, a failed
    assertion, a call into freed memory) returns [ub]; one that runs with others is a step function
    of a thread ([FastLock], [Event], [Rundown], [QueuedLock], [WakeEvent], [Barrier], [RefObject],
    [WorkQueue]). NULL is 0 or [None], an out-parameter a component of the result.

    ** The theorems

    Refinement: a data structure against its abstract contents, for every sequence of operations:
    messages against lists of fields ([msg_add_refines], [msg_get_refines]), streams against a file
    with a position ([stream_simulates]), the id table and the handle table against maps
    ([cid_get_entry], [handle_table_refines_map]), trees against sorted lists
    ([avl_refines_sorted_list]), hash tables against lists of distinct entries
    ([hashtable_refines_list]), circular buffers against histories
    ([circular_buffer_refines_history]), formatting against the text of each element
    ([format_writes_text]). These include that no operation accesses memory it must not, and
    that the invariants of the representation hold in between.

    Function by function: the results of additions, removals, searches, neighbours, enumerations,
    reads and rundowns, on every branch; the order in which handles are used again.

    Concurrency: mutual exclusion, no lost wake-ups, no failed wait and quiescence of the lock
    ([FastLock]); a wait returns only when the event is set, and none sleeps on after that ([Event]);
    one thread initializes and the others see it done ([init_once_safe]); a rundown excludes later
    users, waits for earlier ones and completes ([Rundown]); queued locks exclude, never touch a wait
    block whose frame is gone, and leave nobody asleep when the lock is free ([QueuedLockProof]);
    lookups in the id table through a root that others have replaced since
    ([cid_stale_root]); wake events lose no wake-up and outlive no frame ([wake_event_sound]), unless
    a wait times out ([timed_wait_stalls]); barriers keep their phases apart and do not deadlock
    ([barrier_separates_phases], [barrier_no_deadlock]). No call on an object touches one that is
    gone ([object_calls_defined]), its count is that of its references
    ([object_references_counted]), and deferred deletions are done ([deferred_deletes_complete])
    except in one interleaving ([deferred_delete_stalls]). Items of a work queue are run once and in
    order ([work_queue_runs_in_order]); none is left behind if threads do not leave items alone
    ([work_queue_drains]), which those of the global queue can ([work_item_stranded]); deletion ends
    ([work_queue_deletion_completes]). A pool releases what was added to it ([auto_pool_releases]).

    Round trips and equivalences: a message field reads back as written, a text decodes to what was
    encoded, integers and bytes parse back from their text, the decoder of arbitrary units is one
    reference decoding, the searches with and without wide instructions are the plain ones, the
    power-of-two rounding is doubling. The searches for a character are that only where the C
    library's search that the code starts with stays in its memory ([searches_are_reference]). Bounds: buffers ([format_to_buffer_bounded],
    [time_span_fits]), the 47-slot stack of the tree enumeration, the overflows the code does have.
    Termination: enumerations of the tables, and every run of a queue that is to be deleted, by a
    rank of its threads that each step lowers.

    Where the code does not do what it is meant to, the theorem states what it does; the file that
    holds it says so.

    ** Bounds and fuel

    Loops that are not structural take fuel, and a theorem about each says that the fuel given is
    enough: the number of entries of a table for its enumeration, the number of links of a tree for
    a search, the size of a buffer for a conversion, two turns of the allocation loop of a handle
    table. The lock is proved for up to 1023 threads (its counts have ten bits), events for fewer than
    2^15 - 1 (their count has fifteen), queued locks for fewer than 2^31 - 1, hash tables below
    2^31 entries (signed indices), handle tables at their own limit of 2^24 handles, objects for fewer
    than 2^31 - 1 threads and 2^31 references, work queues for fewer than 2^31 items and threads
    together, pools for fewer than 2^31 objects, barriers for targets below 2^31.

    ** Assumptions

    - File positions are integers without a width, and the laws of a file have no faults; the
      failures of a flush have theorems of their own.
    - The interleaving of the threads of [FastLock], [Event], [Rundown], [QueuedLock], [WakeEvent],
      [Barrier], [RefObject] and [WorkQueue] is sequentially consistent; their exchanges are
      interlocked operations. In [WorkQueue] a critical section of QueueLock is one step, and the
      condition variable and the rundown protection of a queue are taken at their promise; what an
      item does is outside, a call that it makes is that of a client. The block that an object is
      created in is not in use. Delete procedures leave the pools of their thread alone in
      [auto_pool_releases] ([drain_drops] says what happens otherwise). The calls of the other components run one after another; a call of the
      id table that takes the table's lock is one step, and a handle-table call is one step, with
      the answer of its try-lock left open.
    - The heap, the pool, the semaphores and the events follow their documented interfaces
      ([HeapLaws], [PoolLaws], [SemaphoreLaws], [KernelEventLaws], [KeyedEventLaws]); the upper-case
      table of the system is a function of a unit; allocation in [AvlTree], [Hashtable] and [FileStream] does not
      fail (it raises, which ends the call), in [CidTable] and [HandleTable] it can.
    - Comparison and hash functions of trees and tables are parameters with the laws of an order and
      an equivalence; callbacks do not change the structure they are called from.

    ** Not modelled

    The user interface (SystemInformer, treenew.c, guisup.c, graph.c, emenu.c, the plugins), the
    wrappers of system calls and their parsing of results (native.c, util.c, hndlinfo.c, svcsup.c,
    lsasup.c, the informers of the driver), and the tools, whose behaviour is the system's; of the
    run-time library still: condition variables, the file pool, string objects and builders, lists,
    arrays and callbacks, floating-point text, sizes and multibyte strings in formats, settings. The conversions between UTF-8 and UTF-16 are
    compiled to calls of the system library. Vendored code (tools/thirdparty) and the headers of
    the system interface (phnt) are not the program's own.
*)

From Stdlib Require Export ZArith Lia.
From stdpp Require Export prelude gmap relations.


Global Set Default Goal Selector "!".
Global Open Scope Z_scope.

(** ** Fixed-width integers

    Every C integer is a [Z]; the width is written out where the code can wrap. *)

Definition u8 (x : Z) : Z := x mod 2 ^ 8.
Definition u16 (x : Z) : Z := x mod 2 ^ 16.
Definition u32 (x : Z) : Z := x mod 2 ^ 32.
Definition u64 (x : Z) : Z := x mod 2 ^ 64.

(** Two's complement reading of a bit pattern: the value of a [w]-bit signed integer. *)
Definition signed (w x : Z) : Z :=
  let y := x mod 2 ^ w in if y <? 2 ^ (w - 1) then y else y - 2 ^ w.

Definition in_width (w x : Z) : Prop := 0 <= x < 2 ^ w.

(** Bit field of [k] bits at bit [s]: [(v >> s) & (2^k - 1)]. *)
Definition bit_field (s k v : Z) : Z := Z.land (Z.shiftr v s) (Z.ones k).

Declare Scope ksi_scope.
Delimit Scope ksi_scope with ksi.
Notation "a +₁₆ b" := (u16 (a + b)) (at level 50, left associativity) : ksi_scope.
Notation "a +₃₂ b" := (u32 (a + b)) (at level 50, left associativity) : ksi_scope.
Notation "a -₃₂ b" := (u32 (a - b)) (at level 50, left associativity) : ksi_scope.
Notation "a +₆₄ b" := (u64 (a + b)) (at level 50, left associativity) : ksi_scope.
Notation "a -₆₄ b" := (u64 (a - b)) (at level 50, left associativity) : ksi_scope.
Global Open Scope ksi_scope.

Create HintDb width discriminated.

Lemma u8_id x : in_width 8 x -> u8 x = x.
Proof. intros. by apply Z.mod_small. Qed.

Lemma u16_id x : in_width 16 x -> u16 x = x.
Proof. intros. by apply Z.mod_small. Qed.

Lemma u32_id x : in_width 32 x -> u32 x = x.
Proof. intros. by apply Z.mod_small. Qed.

Lemma u64_id x : in_width 64 x -> u64 x = x.
Proof. intros. by apply Z.mod_small. Qed.

Lemma u16_range x : 0 <= u16 x < 2 ^ 16.
Proof. by apply Z.mod_pos_bound. Qed.

Lemma u32_range x : 0 <= u32 x < 2 ^ 32.
Proof. by apply Z.mod_pos_bound. Qed.

Lemma u64_range x : 0 <= u64 x < 2 ^ 64.
Proof. by apply Z.mod_pos_bound. Qed.

Lemma bit_field_eq s k v :
  0 <= s -> 0 <= k -> bit_field s k v = (v / 2 ^ s) mod 2 ^ k.
Proof. intros. unfold bit_field. by rewrite Z.land_ones, Z.shiftr_div_pow2. Qed.

Lemma land_bit a n : 0 <= n -> Z.land a (2 ^ n) = if Z.testbit a n then 2 ^ n else 0.
Proof.
  intros Hn. apply Z.bits_inj'. intros m Hm. rewrite Z.land_spec, Z.pow2_bits_eqb by done. destruct (Z.eqb_spec n m) as [<-|Hne].
  - destruct (Z.testbit a n); [by rewrite Z.pow2_bits_true|by rewrite Z.bits_0].
  - rewrite andb_false_r. destruct (Z.testbit a n); [by rewrite Z.pow2_bits_false|by rewrite Z.bits_0].
Qed.

Lemma setbit_add a n : 0 <= n -> Z.setbit a n = if Z.testbit a n then a else a + 2 ^ n.
Proof.
  intros Hn. rewrite Z.setbit_spec'. pose proof (land_bit a n Hn) as Hb.
  pose proof (Z.add_lor_land a (2 ^ n)) as Ha. rewrite Hb in Ha. destruct (Z.testbit a n); lia.
Qed.

(** A pointer whose low [k] bits are clear, with flags in them. *)
Lemma testbit_low a r n k : a mod 2 ^ k = 0 -> 0 <= n < k -> Z.testbit (a + r) n = Z.testbit r n.
Proof.
  intros Ha Hn. rewrite <- (Z.mod_pow2_bits_low (a + r) k n), <- (Z.mod_pow2_bits_low r k n) by lia.
  by rewrite Zplus_mod, Ha, Z.add_0_l, Zmod_mod.
Qed.

Lemma lor_low a r k : 0 <= k -> a mod 2 ^ k = 0 -> 0 <= r < 2 ^ k -> Z.lor a r = a + r.
Proof.
  intros Hk Ha Hr. assert (Hl : Z.land a r = 0).
  { rewrite <- (Z.mod_small r (2 ^ k)), <- Z.land_ones, (Z.land_comm r), Z.land_assoc, Z.land_ones, Ha by lia. apply Z.land_0_l. }
  pose proof (Z.add_lor_land a r). lia.
Qed.

Lemma ldiff_low v k : 0 <= k -> Z.ldiff v (Z.ones k) = v - v mod 2 ^ k.
Proof. intros. rewrite Z.ldiff_ones_r, Z.shiftl_mul_pow2, Z.shiftr_div_pow2 by lia. pose proof (Z.div_mod v (2 ^ k)). lia. Qed.

Lemma signed_id w x : 0 < w -> 0 <= x < 2 ^ (w - 1) -> signed w x = x.
Proof.
  intros Hw Hx. unfold signed. cbv zeta.
  assert (2 ^ (w - 1) < 2 ^ w) by (apply Z.pow_lt_mono_r; lia).
  rewrite Z.mod_small by lia. by replace (x <? _) with true by lia.
Qed.

#[export] Hint Resolve u8_id u16_id u32_id u64_id : width.

(** [width] discharges a goal about wrapped values whose argument is known to fit. *)
Ltac width :=
  repeat match goal with
  | |- context [u8 ?x] => rewrite (u8_id x) by (unfold in_width; lia)
  | |- context [u16 ?x] => rewrite (u16_id x) by (unfold in_width; lia)
  | |- context [u32 ?x] => rewrite (u32_id x) by (unfold in_width; lia)
  | |- context [u64 ?x] => rewrite (u64_id x) by (unfold in_width; lia)
  end.

(** ** NTSTATUS

    A status is the 32-bit pattern of the code; [NT_SUCCESS] is [(NTSTATUS)(s) >= 0]. *)

Definition NT_SUCCESS (s : Z) : bool := s <? 0x80000000.

Definition STATUS_SUCCESS : Z := 0.
Definition STATUS_PENDING : Z := 0x103.
Definition STATUS_INFO_LENGTH_MISMATCH : Z := 0xC0000004.
Definition STATUS_INVALID_INFO_CLASS : Z := 0xC0000003.
Definition STATUS_INVALID_PARAMETER : Z := 0xC000000D.
Definition STATUS_END_OF_FILE : Z := 0xC0000011.
Definition STATUS_NO_MEMORY : Z := 0xC0000017.
Definition STATUS_ALREADY_COMMITTED : Z := 0xC0000021.
Definition STATUS_REVISION_MISMATCH : Z := 0xC0000059.
Definition STATUS_INTEGER_OVERFLOW : Z := 0xC0000095.
Definition STATUS_INSUFFICIENT_RESOURCES : Z := 0xC000009A.
Definition STATUS_INTERNAL_ERROR : Z := 0xC00000E5.
Definition STATUS_INVALID_PARAMETER_2 : Z := 0xC00000F0.
Definition STATUS_INVALID_PARAMETER_3 : Z := 0xC00000F1.
Definition STATUS_NOT_FOUND : Z := 0xC0000225.
Definition STATUS_HEAP_CORRUPTION : Z := 0xC0000374.
Definition STATUS_INVALID_MESSAGE : Z := 0xC0000702.
Definition STATUS_CONTEXT_MISMATCH : Z := 0xC0000719.

(** ** Undefined behaviour

    [ub A] is the type of a computation the language may give no meaning to: [None] stands for an
    access outside an object (or a NULL dereference), [Some] for a defined result. The monad
    notation is stdpp's option monad. *)

Abbreviation ub A := (option A) (only parsing).

(** ** Byte blocks: [memcpy] into and out of a list of bytes *)

Definition read_at {A} (l : list A) (off n : nat) : list A := take n (drop off l).

Definition write_at {A} (l : list A) (off : nat) (bs : list A) : list A :=
  take off l ++ bs ++ drop (off + length bs) l.

(** Checked versions: [None] when the block would leave the list. *)
Definition load_block {A} (l : list A) (off n : nat) : ub (list A) :=
  if decide (off + n <= length l)%nat then Some (read_at l off n) else None.

Definition store_block {A} (l : list A) (off : nat) (bs : list A) : ub (list A) :=
  if decide (off + length bs <= length l)%nat then Some (write_at l off bs) else None.

Section blocks.
Context {A : Type}.
Implicit Types (l bs : list A) (off n : nat).

Lemma length_write_at l off bs :
  (off + length bs <= length l)%nat -> length (write_at l off bs) = length l.
Proof. intros. unfold write_at. rewrite !length_app, length_take, length_drop. lia. Qed.

Lemma length_read_at l off n :
  (off + n <= length l)%nat -> length (read_at l off n) = n.
Proof. intros. unfold read_at. rewrite length_take, length_drop. lia. Qed.

Lemma read_write_same l off bs n :
  (off + length bs <= length l)%nat -> n = length bs ->
  read_at (write_at l off bs) off n = bs.
Proof.
  intros ? ->. unfold read_at, write_at.
  rewrite drop_app_length' by (rewrite length_take; lia). by rewrite take_app_length.
Qed.

Lemma read_write_before l off bs off' n :
  (off' + n <= off)%nat -> (off <= length l)%nat ->
  read_at (write_at l off bs) off' n = read_at l off' n.
Proof.
  intros. unfold read_at, write_at.
  rewrite drop_app_le by (rewrite length_take; lia).
  rewrite take_app_le by (rewrite length_drop, length_take; lia).
  rewrite skipn_firstn_comm, take_take. f_equal. lia.
Qed.

Lemma read_write_after l off bs off' n :
  (off + length bs <= off')%nat -> (off <= length l)%nat ->
  read_at (write_at l off bs) off' n = read_at l off' n.
Proof.
  intros. unfold read_at, write_at.
  rewrite drop_app_ge by (rewrite length_take; lia).
  rewrite drop_app_ge by (rewrite length_take; lia).
  rewrite drop_drop, length_take. do 2 f_equal. lia.
Qed.

Lemma store_block_Some l off bs :
  (off + length bs <= length l)%nat -> store_block l off bs = Some (write_at l off bs).
Proof. intros. unfold store_block. by rewrite decide_True. Qed.

Lemma load_block_Some l off n :
  (off + n <= length l)%nat -> load_block l off n = Some (read_at l off n).
Proof. intros. unfold load_block. by rewrite decide_True. Qed.
End blocks.

Create HintDb blocks discriminated.
#[export] Hint Resolve length_write_at length_read_at : blocks.

(** Lengths of the list combinators, then linear arithmetic. *)
Ltac lens :=
  repeat first [rewrite length_app | rewrite length_take | rewrite length_drop
               | rewrite length_replicate | rewrite length_insert]; simpl; try lia.

(** Reading past the end gives what there is. *)
Lemma read_at_all {A} (l : list A) o n m :
  (length l <= o + n)%nat -> (n <= m)%nat -> read_at l o m = read_at l o n.
Proof.
  intros. unfold read_at. rewrite !take_ge; [done|rewrite length_drop; lia..].
Qed.

Lemma length_read_at_min {A} (l : list A) o n :
  length (read_at l o n) = (n `min` (length l - o))%nat.
Proof. unfold read_at. by rewrite length_take, length_drop. Qed.

Lemma write_at_nil {A} (l : list A) o : write_at l o [] = l.
Proof. unfold write_at. simpl. rewrite Nat.add_0_r. apply take_drop. Qed.

(** Two writes one after the other, and a write of one element. *)
Lemma write_at_app {A} (l a b : list A) o : (o + length (a ++ b) <= length l)%nat ->
  write_at (write_at l o a) (o + length a) b = write_at l o (a ++ b).
Proof.
  intros Hl. rewrite length_app in Hl. unfold write_at. rewrite (app_assoc (take o l) a), length_app.
  assert (Hp : length (take o l ++ a) = (o + length a)%nat) by lens.
  rewrite take_app_length' by done. rewrite drop_app_ge by lia. rewrite Hp, drop_drop, <- !app_assoc. do 4 f_equal. lia.
Qed.

Lemma insert_write_at {A} (l : list A) i x : (i < length l)%nat -> <[i := x]> l = write_at l i [x].
Proof. intros Hi. unfold write_at. rewrite insert_take_drop by done. simpl. by rewrite Nat.add_1_r. Qed.

(** A file write at byte [p]: a gap is filled with zeros, nothing is written for no bytes. *)
Definition pad (c : list Z) (p : nat) : list Z := c ++ replicate (p - length c) 0.

Definition pwrite (c : list Z) (p : nat) (bs : list Z) : list Z :=
  match bs with [] => c | _ => write_at (pad c p) p bs end.

Lemma lookup_read_at {A} (l : list A) off n i :
  read_at l off n !! i = if decide (i < n)%nat then l !! (off + i)%nat else None.
Proof.
  unfold read_at. case_decide.
  - by rewrite lookup_take_lt, lookup_drop by lia.
  - rewrite lookup_take_ge; [done|lia].
Qed.

Lemma read_at_read_at {A} (l : list A) o n i m :
  (i + m <= n)%nat -> read_at (read_at l o n) i m = read_at l (o + i) m.
Proof.
  intros. apply list_eq. intros j. rewrite !lookup_read_at. case_decide; [|done].
  rewrite decide_True by lia. f_equal. lia.
Qed.

Lemma pwrite_eq c p bs : bs <> [] -> pwrite c p bs = write_at (pad c p) p bs.
Proof. by destruct bs. Qed.

Lemma length_pad c p : length (pad c p) = (length c `max` p)%nat.
Proof. unfold pad. lens. Qed.

Lemma lookup_pad c p i :
  pad c p !! i =
  if decide (i < length c)%nat then c !! i else if decide (i < p)%nat then Some 0 else None.
Proof.
  unfold pad. repeat case_decide.
  - by apply lookup_app_l.
  - rewrite lookup_app_r by lia. apply lookup_replicate. split; [done|lia].
  - apply lookup_ge_None. lens.
Qed.

Lemma lookup_pwrite c p bs i :
  bs <> [] ->
  pwrite c p bs !! i =
  if decide (i < p)%nat then (if decide (i < length c)%nat then c !! i else Some 0)
  else if decide (i < p + length bs)%nat then bs !! (i - p)%nat else c !! i.
Proof.
  intros Hbs. rewrite pwrite_eq by done. unfold write_at. pose proof (length_pad c p).
  destruct (decide (i < p)%nat) as [Hi|Hi].
  { rewrite lookup_app_l by lens. rewrite lookup_take_lt, lookup_pad by done. by repeat case_decide. }
  rewrite lookup_app_r by lens. rewrite length_take, Nat.min_l by lia.
  destruct (decide (i < p + length bs)%nat); [apply lookup_app_l; lia|].
  rewrite lookup_app_r, lookup_drop, lookup_pad by lia.
  replace (p + length bs + (i - p - length bs))%nat with i by lia.
  repeat case_decide; try done; try lia. symmetry. apply lookup_ge_None. lia.
Qed.

Lemma length_pwrite c p bs :
  bs <> [] -> length (pwrite c p bs) = (length c `max` (p + length bs))%nat.
Proof. intros. rewrite pwrite_eq by done. unfold write_at. pose proof (length_pad c p). lens. Qed.

Lemma pwrite_nil c p : pwrite c p [] = c.
Proof. done. Qed.

(** Two writes one after the other are one write. *)
Lemma pwrite_app c p a b : pwrite (pwrite c p a) (p + length a) b = pwrite c p (a ++ b).
Proof.
  destruct (decide (a = [])) as [->|Ha]; [by rewrite Nat.add_0_r|].
  destruct (decide (b = [])) as [->|Hb]; [by rewrite pwrite_nil, app_nil_r|].
  apply list_eq. intros i. assert (a ++ b <> []) by (by destruct a).
  assert (length a <> 0%nat) by (by destruct a).
  rewrite !lookup_pwrite, length_pwrite, length_app by done.
  repeat case_decide; try done; try lia.
  - by rewrite lookup_app_l by lia.
  - rewrite lookup_app_r by lia. f_equal. lia.
Qed.

Lemma read_pwrite c p bs : read_at (pwrite c p bs) p (length bs) = bs.
Proof.
  destruct (decide (bs = [])) as [->|Hbs]; [done|]. apply list_eq. intros i.
  rewrite lookup_read_at. case_decide as Hi.
  - rewrite lookup_pwrite by done. rewrite decide_False, decide_True by lia. f_equal. lia.
  - symmetry. apply lookup_ge_None. lia.
Qed.

Lemma read_at_app {A} (l : list A) off n m :
  read_at l off n ++ read_at l (off + n) m = read_at l off (n + m).
Proof. unfold read_at. by rewrite <- drop_drop, take_take_drop. Qed.

(** ** Lists linked through an index

    [nxt] gives the index stored in a node; [nil] ends the list. *)
Section links.
Context (nil : Z).
Implicit Types (nxt : Z -> option Z) (l : list Z).

Fixpoint links nxt (i : Z) (l : list Z) : Prop :=
  match l with
  | [] => i = nil
  | j :: l => i = j /\ j <> nil /\ exists n, nxt j = Some n /\ links nxt n l
  end.

Lemma links_frame nxt nxt' i l : (forall j, j ∈ l -> nxt' j = nxt j) -> links nxt i l -> links nxt' i l.
Proof.
  revert i. induction l as [|j l IH]; intros i Hf; simpl; [done|]. intros (-> & Hj & n & Hn & Hl).
  split; [done|]. split; [done|]. exists n. split; [rewrite Hf; [done|by left]|]. apply IH; [|done]. intros x Hx. apply Hf. by right.
Qed.

Lemma links_head nxt i l : links nxt i l -> i = nil <-> l = [].
Proof. destruct l as [|j l]; [done|]. by intros (-> & Hj & _). Qed.

Lemma links_unique nxt i l l' : links nxt i l -> links nxt i l' -> l = l'.
Proof.
  revert i l'. induction l as [|j l IH]; intros i [|j' l']; simpl; [done|by intros -> (<- & ? & _)|by intros (<- & ? & _) ->|].
  intros (-> & _ & n & Hn & Hl) (<- & _ & n' & Hn' & Hl'). f_equal. apply (IH n); [done|]. congruence.
Qed.

(** The last node of a list, linked to another list. *)
Lemma links_snoc_app nxt i l x l' : links nxt i (l ++ x :: l') ->
  exists n, nxt x = Some n /\ links nxt n l'.
Proof.
  revert i. induction l as [|j l IH]; intros i; simpl.
  - intros (_ & _ & n & Hn & Hl). by exists n.
  - intros (_ & _ & n & Hn & Hl). by apply (IH n).
Qed.

(** The last node of a list is made to lead to another list. *)
Lemma links_join nxt nxt' i l x f l' : links nxt i (l ++ [x]) -> (forall j, j ∈ l -> nxt' j = nxt j) -> nxt' x = Some f -> links nxt' f l' ->
  links nxt' i (l ++ x :: l').
Proof.
  intros Hl Hf Hx Hl'. revert i Hl. induction l as [|j l IH]; intros i; simpl.
  - intros (-> & Hj & _). eauto.
  - intros (-> & Hj & n & Hn & Hl). split; [done|]. split; [done|]. exists n. split; [rewrite Hf; [done|by left]|].
    apply IH; [|done]. intros y Hy. apply Hf. by right.
Qed.
End links.

Lemma lookup_cases {A} (l : list A) t x i y : <[t := x]> l !! i = Some y -> i = t /\ x = y \/ i <> t /\ l !! i = Some y.
Proof. intros [(-> & -> & _)|[Hne Hi]]%list_lookup_insert_Some; [by left|right; by split]. Qed.

(** ** Totals over the threads of a system *)

Section tally.
Context {P : Type} (w : P -> Z) (w_nonneg : forall p, 0 <= w p).

Fixpoint tally (ts : list P) : Z := match ts with [] => 0 | p :: ts => w p + tally ts end.

Lemma tally_nonneg ts : 0 <= tally ts.
Proof using w_nonneg. induction ts as [|p ts IH]; simpl; [lia|]. pose proof (w_nonneg p). lia. Qed.

Lemma tally_insert ts t p p' : ts !! t = Some p -> tally (<[t := p']> ts) = tally ts - w p + w p'.
Proof.
  revert t. induction ts as [|q ts IH]; intros [|t] Ht; simpl in *; simplify_eq; [lia|]. rewrite (IH t Ht). lia.
Qed.

Lemma tally_lookup ts t p : ts !! t = Some p -> w p <= tally ts.
Proof using w_nonneg.
  revert t. induction ts as [|q ts IH]; intros [|t] Ht; simpl in *; simplify_eq.
  - pose proof (tally_nonneg ts). lia.
  - pose proof (IH t Ht). pose proof (w_nonneg q). lia.
Qed.

Lemma tally_two ts t t' p p' : t <> t' -> ts !! t = Some p -> ts !! t' = Some p' -> w p + w p' <= tally ts.
Proof using w_nonneg.
  revert t t'. induction ts as [|q ts IH]; intros [|t] [|t'] Hne Ht Ht'; simpl in *; simplify_eq.
  - pose proof (tally_lookup ts t' p' Ht'). lia.
  - pose proof (tally_lookup ts t p Ht). lia.
  - pose proof (IH t t' ltac:(lia) Ht Ht'). pose proof (w_nonneg q). lia.
Qed.

Lemma tally_pos ts : 0 < tally ts -> exists t p, ts !! t = Some p /\ 0 < w p.
Proof using w_nonneg.
  induction ts as [|q ts IH]; simpl; [lia|]. intros Hpos. destruct (decide (0 < w q)); [by exists 0%nat, q|].
  destruct IH as (t & p & ? & ?); [pose proof (w_nonneg q); lia|]. by exists (S t), p.
Qed.

Lemma tally_replicate n p : w p = 0 -> tally (replicate n p) = 0.
Proof. intros Hp. induction n as [|n IH]; simpl; [done|]. by rewrite IH, Hp. Qed.

Lemma tally_le ts : (forall p, w p <= 1) -> tally ts <= Z.of_nat (length ts).
Proof. intros Hp. induction ts as [|p ts IH]; simpl; [lia|]. pose proof (Hp p). lia. Qed.
End tally.

(** ** Automation *)

(** Split every boolean test of the goal, keeping the facts as arithmetic. *)
Ltac split_ifs :=
  repeat match goal with
  | |- context [if decide ?P then _ else _] => destruct (decide P)
  | |- context [if ?b then _ else _] =>
      lazymatch b with
      | context [if _ then _ else _] => fail
      | _ => let E := fresh "E" in destruct b eqn:E
      end
  end.

(** Turn boolean comparisons of the context into arithmetic facts. *)
Ltac to_prop :=
  repeat match goal with
  | H : (_ || _)%bool = true |- _ => apply orb_true_iff in H
  | H : (_ || _)%bool = false |- _ => apply orb_false_iff in H as [? ?]
  | H : (_ && _)%bool = true |- _ => apply andb_true_iff in H as [? ?]
  | H : (_ && _)%bool = false |- _ => apply andb_false_iff in H
  | H : negb _ = true |- _ => apply negb_true_iff in H
  | H : negb _ = false |- _ => apply negb_false_iff in H
  | H : (_ =? _) = true |- _ => apply Z.eqb_eq in H
  | H : (_ =? _) = false |- _ => apply Z.eqb_neq in H
  | H : (_ <? _) = true |- _ => apply Z.ltb_lt in H
  | H : (_ <? _) = false |- _ => apply Z.ltb_ge in H
  | H : (_ <=? _) = true |- _ => apply Z.leb_le in H
  | H : (_ <=? _) = false |- _ => apply Z.leb_gt in H
  end.
