(* ===== verification/KphMsg.v ===== *)
(** * Kernel messages: [kphlib/kphmsg.c] and [kphlib/kphmsgdyn.c]

    The messages the driver and the client exchange. A message is a fixed 4096-byte block: a
    header, a per-message payload, and a dynamic area described by a table of at most eight
    entries, filled from the end of the table towards the end of the block. The table entries
    hold byte offsets from the start of the message; the bytes before the dynamic buffer
    (header, payload, table) are the record's own fields, the rest is [Dyn_Buffer]. *)

From S2P Require Import Prelude.

Module KphMsg.

(** ** Data *)

(** Enumerations of [kphmsg.h]. The message ids of the driver start right after
    [MaxKphMsgClientAllowed]; 152 of them precede [MaxKphMsg]. *)
Definition InvalidKphMsg : Z := 0.
Definition MaxKphMsgClientAllowed : Z := 0x40000000.
Definition KphMsgProcessCreate : Z := MaxKphMsgClientAllowed + 1.
Definition MaxKphMsg : Z := MaxKphMsgClientAllowed + 153.
Definition KphMsgUnhandled : Z := -1.

Definition InvalidKphMsgField : Z := 0.
Definition KphMsgFieldFileName : Z := 1.
Definition KphMsgFieldCommandLine : Z := 2.
Definition KphMsgFieldObjectName : Z := 4.
Definition KphMsgFieldStackTrace : Z := 5.
Definition MaxKphMsgField : Z := 17.

Definition InvalidKphMsgType : Z := 0.
Definition KphMsgTypeUnicodeString : Z := 1.
Definition KphMsgTypeAnsiString : Z := 2.
Definition KphMsgTypeStackTrace : Z := 3.
Definition KphMsgTypeSizedBuffer : Z := 4.
Definition MaxKphMsgType : Z := 5.

Definition KPH_MESSAGE_VERSION : Z := 4.
Definition KPH_MESSAGE_MIN_SIZE : Z := 356.
Definition sizeof_KPH_MESSAGE : Z := 0x1000.
Definition KPH_MESSAGE_ENTRIES : nat := 8.
Definition sizeof_PVOID : Z := 8.

Record KPH_MESSAGE_DYNAMIC_TABLE_ENTRY := {
  entry_FieldId : Z;
  entry_TypeId : Z;
  entry_Offset : Z;
  entry_Length : Z;
}.

Record KPH_MESSAGE := {
  Header_Version : Z;
  Header_Size : Z;
  Header_MessageId : Z;
  Header_TimeStamp : Z;
  Payload : list Z;
  Dyn_Count : Z;
  Dyn_Entries : list KPH_MESSAGE_DYNAMIC_TABLE_ENTRY;
  Dyn_Buffer : list Z;
}.

Definition zero_entry : KPH_MESSAGE_DYNAMIC_TABLE_ENTRY :=
  {| entry_FieldId := 0; entry_TypeId := 0; entry_Offset := 0; entry_Length := 0 |}.

(** The two string types differ in their character type only; [str_Buffer] is the memory the
    pointer designates. *)
Record COUNTED_STRING := { str_Length : Z; str_Buffer : list Z }.

Record KPHM_STACK_TRACE := { st_Count : Z; st_Frames : list Z }.
Record KPHM_SIZED_BUFFER := { sb_Size : Z; sb_Buffer : list Z }.

(** What the getters return: lengths, and a pointer that is NULL ([None]) or an offset from the
    start of the message. *)
Record STRING_REF := { ref_Length : Z; ref_MaximumLength : Z; ref_Buffer : option Z }.
Record STACK_TRACE_REF := { stref_Count : Z; stref_Frames : option Z }.
Record SIZED_BUFFER_REF := { sbref_Size : Z; sbref_Buffer : option Z }.

(** ** [kphmsg.c] *)

(** [Message] is the memory before the call: only the first [KPH_MESSAGE_MIN_SIZE] bytes are
    zeroed. [now] is the value [KphMsgQuerySystemTime] reads. *)
Definition KphMsgInit (Message : KPH_MESSAGE) (now MessageId : Z) : KPH_MESSAGE := {|
  Header_Version := KPH_MESSAGE_VERSION;
  Header_Size := KPH_MESSAGE_MIN_SIZE;
  Header_MessageId := MessageId;
  Header_TimeStamp := now;
  Payload := replicate (length (Payload Message)) 0;
  Dyn_Count := 0;
  Dyn_Entries := replicate KPH_MESSAGE_ENTRIES zero_entry;
  Dyn_Buffer := Dyn_Buffer Message;
|}.

Definition KphMsgValidate (Message : KPH_MESSAGE) : Z :=
  if negb (Header_Version Message =? KPH_MESSAGE_VERSION) then STATUS_REVISION_MISMATCH
  else if (Header_Size Message <? KPH_MESSAGE_MIN_SIZE)
          || (sizeof_KPH_MESSAGE <? Header_Size Message) then STATUS_INVALID_MESSAGE
  else if negb (Header_MessageId Message =? KphMsgUnhandled)
          && ((Header_MessageId Message <=? InvalidKphMsg)
              || (MaxKphMsg <=? Header_MessageId Message)) then STATUS_INVALID_MESSAGE
  else STATUS_SUCCESS.

(** ** [kphmsgdyn.c] *)

(** [ntintsafe.h]: checked 16-bit arithmetic. *)
Definition RtlUShortAdd (usAugend usAddend : Z) : Z * Z :=
  if usAugend <=? u16 (usAugend + usAddend) then (STATUS_SUCCESS, u16 (usAugend + usAddend))
  else (STATUS_INTEGER_OVERFLOW, 0xffff).

Definition RtlUShortSub (usMinuend usSubtrahend : Z) : Z * Z :=
  if usSubtrahend <=? usMinuend then (STATUS_SUCCESS, u16 (usMinuend - usSubtrahend))
  else (STATUS_INTEGER_OVERFLOW, 0xffff).

(** The loop runs [i] over [0 .. Count-1]; an index past the array is undefined behaviour. *)
Fixpoint find_entry_from (Message : KPH_MESSAGE) (FieldId : Z) (fuel i : nat) : ub (option nat) :=
  match fuel with
  | O => Some None
  | S fuel =>
      e ← Dyn_Entries Message !! i;
      if entry_FieldId e =? FieldId then Some (Some i)
      else find_entry_from Message FieldId fuel (S i)
  end.

Definition KphpMsgDynFindEntry (Message : KPH_MESSAGE) (FieldId : Z) : ub (option nat) :=
  find_entry_from Message FieldId (Z.to_nat (Dyn_Count Message)) 0.

Definition set_table (Message : KPH_MESSAGE) (Size Count : Z)
    (Entries : list KPH_MESSAGE_DYNAMIC_TABLE_ENTRY) : KPH_MESSAGE := {|
  Header_Version := Header_Version Message;
  Header_Size := Size;
  Header_MessageId := Header_MessageId Message;
  Header_TimeStamp := Header_TimeStamp Message;
  Payload := Payload Message;
  Dyn_Count := Count;
  Dyn_Entries := Entries;
  Dyn_Buffer := Dyn_Buffer Message;
|}.

Definition set_buffer (Message : KPH_MESSAGE) (Buffer : list Z) : KPH_MESSAGE := {|
  Header_Version := Header_Version Message;
  Header_Size := Header_Size Message;
  Header_MessageId := Header_MessageId Message;
  Header_TimeStamp := Header_TimeStamp Message;
  Payload := Payload Message;
  Dyn_Count := Dyn_Count Message;
  Dyn_Entries := Dyn_Entries Message;
  Dyn_Buffer := Buffer;
|}.

(** The message after the call, the status, and the claimed entry ([*Entry], an index). *)
Definition KphpMsgDynClaimEntry (Message : KPH_MESSAGE) (FieldId TypeId Length : Z)
    : ub (KPH_MESSAGE * Z * option nat) :=
  if (FieldId <=? InvalidKphMsgField) || (MaxKphMsgField <=? FieldId) then
    Some (Message, STATUS_INVALID_PARAMETER_2, None)
  else if (TypeId <=? InvalidKphMsgType) || (MaxKphMsgType <=? TypeId) then
    Some (Message, STATUS_INVALID_PARAMETER_3, None)
  else
    let status := KphMsgValidate Message in
    if negb (NT_SUCCESS status) then Some (Message, status, None)
    else if Z.of_nat KPH_MESSAGE_ENTRIES <=? Dyn_Count Message then
      Some (Message, STATUS_INSUFFICIENT_RESOURCES, None)
    else
      found ← KphpMsgDynFindEntry Message FieldId;
      match found with
      | Some _ => Some (Message, STATUS_ALREADY_COMMITTED, None)
      | None =>
          let '(status, offset) := RtlUShortAdd (Header_Size Message) Length in
          if negb (NT_SUCCESS status) then Some (Message, status, None)
          else if sizeof_KPH_MESSAGE <? offset then
            Some (Message, STATUS_INSUFFICIENT_RESOURCES, None)
          else
            let offset := Header_Size Message in
            let i := Z.to_nat (Dyn_Count Message) in
            let claimed := {| entry_FieldId := FieldId; entry_TypeId := TypeId;
                              entry_Offset := offset; entry_Length := Length |} in
            _ ← Dyn_Entries Message !! i;
            Some (set_table Message (u16 (Header_Size Message + Length))
                    (u8 (Dyn_Count Message + 1)) (<[i := claimed]> (Dyn_Entries Message)),
                  STATUS_SUCCESS, Some i)
      end.

Definition KphpMsgDynLookupEntry (Message : KPH_MESSAGE) (FieldId TypeId : Z)
    : ub (Z * option KPH_MESSAGE_DYNAMIC_TABLE_ENTRY) :=
  let status := KphMsgValidate Message in
  if negb (NT_SUCCESS status) then Some (status, None)
  else
    found ← KphpMsgDynFindEntry Message FieldId;
    match found with
    | None => Some (STATUS_NOT_FOUND, None)
    | Some i =>
        entry ← Dyn_Entries Message !! i;
        if negb (entry_TypeId entry =? TypeId) then Some (STATUS_CONTEXT_MISMATCH, None)
        else if Header_Size Message <=? entry_Offset entry then Some (STATUS_HEAP_CORRUPTION, None)
        else Some (STATUS_SUCCESS, Some entry)
    end.

Definition KphMsgDynClear (Message : KPH_MESSAGE) : KPH_MESSAGE :=
  set_table Message KPH_MESSAGE_MIN_SIZE 0 (replicate KPH_MESSAGE_ENTRIES zero_entry).

(** The guard is written as the source has it: a non-empty table returns at once. *)
Definition KphMsgDynClearLast (Message : KPH_MESSAGE) : ub KPH_MESSAGE :=
  if negb (Dyn_Count Message =? 0) then Some Message
  else
    let Count := u8 (Dyn_Count Message - 1) in
    let i := Z.to_nat Count in
    entry ← Dyn_Entries Message !! i;
    Some (set_table Message (u16 (Header_Size Message - entry_Length entry)) Count
            (<[i := zero_entry]> (Dyn_Entries Message))).

Definition KphMsgDynRemaining (Message : KPH_MESSAGE) : Z :=
  let '(status, remaining) := RtlUShortSub sizeof_KPH_MESSAGE (Header_Size Message) in
  if negb (NT_SUCCESS status) then 0 else remaining.

(** [RtlCopyMemory(Add2Ptr(Message, Offset), ...)]: the destination lies in the dynamic buffer
    (offsets below [KPH_MESSAGE_MIN_SIZE] would hit the fields in front of it). *)
Definition copy_to_message (Message : KPH_MESSAGE) (Offset : Z) (bytes : list Z) : ub KPH_MESSAGE :=
  if Offset <? KPH_MESSAGE_MIN_SIZE then None
  else
    b ← store_block (Dyn_Buffer Message) (Z.to_nat (Offset - KPH_MESSAGE_MIN_SIZE)) bytes;
    Some (set_buffer Message b).

Definition KphMsgDynAddUnicodeString (Message : KPH_MESSAGE) (FieldId : Z) (String : COUNTED_STRING)
    : ub (KPH_MESSAGE * Z) :=
  '(m, status, entry) ←
    KphpMsgDynClaimEntry Message FieldId KphMsgTypeUnicodeString (str_Length String);
  if negb (NT_SUCCESS status) then Some (m, status)
  else
    i ← entry; e ← Dyn_Entries m !! i;
    src ← load_block (str_Buffer String) 0 (Z.to_nat (str_Length String));
    m ← copy_to_message m (entry_Offset e) src;
    Some (m, STATUS_SUCCESS).

Definition KphMsgDynAddAnsiString (Message : KPH_MESSAGE) (FieldId : Z) (String : COUNTED_STRING)
    : ub (KPH_MESSAGE * Z) :=
  '(m, status, entry) ←
    KphpMsgDynClaimEntry Message FieldId KphMsgTypeAnsiString (str_Length String);
  if negb (NT_SUCCESS status) then Some (m, status)
  else
    i ← entry; e ← Dyn_Entries m !! i;
    src ← load_block (str_Buffer String) 0 (Z.to_nat (str_Length String));
    m ← copy_to_message m (entry_Offset e) src;
    Some (m, STATUS_SUCCESS).

(** [StackTrace->Count * sizeof(PVOID)] is passed through a USHORT parameter to the claim, and
    in full to the copy. [st_Frames] is the memory of the frames, as bytes. *)
Definition KphMsgDynAddStackTrace (Message : KPH_MESSAGE) (FieldId : Z)
    (StackTrace : KPHM_STACK_TRACE) : ub (KPH_MESSAGE * Z) :=
  '(m, status, entry) ←
    KphpMsgDynClaimEntry Message FieldId KphMsgTypeStackTrace
      (u16 (st_Count StackTrace * sizeof_PVOID));
  if negb (NT_SUCCESS status) then Some (m, status)
  else
    i ← entry; e ← Dyn_Entries m !! i;
    src ← load_block (st_Frames StackTrace) 0 (Z.to_nat (st_Count StackTrace * sizeof_PVOID));
    m ← copy_to_message m (entry_Offset e) src;
    Some (m, STATUS_SUCCESS).

Definition KphMsgDynAddSizedBuffer (Message : KPH_MESSAGE) (FieldId : Z)
    (SizedBuffer : KPHM_SIZED_BUFFER) : ub (KPH_MESSAGE * Z) :=
  '(m, status, entry) ←
    KphpMsgDynClaimEntry Message FieldId KphMsgTypeSizedBuffer (sb_Size SizedBuffer);
  if negb (NT_SUCCESS status) then Some (m, status)
  else
    i ← entry; e ← Dyn_Entries m !! i;
    src ← load_block (sb_Buffer SizedBuffer) 0 (Z.to_nat (sb_Size SizedBuffer));
    m ← copy_to_message m (entry_Offset e) src;
    Some (m, STATUS_SUCCESS).

Definition KphMsgDynGetUnicodeString (Message : KPH_MESSAGE) (FieldId : Z) : ub (Z * STRING_REF) :=
  '(status, entry) ← KphpMsgDynLookupEntry Message FieldId KphMsgTypeUnicodeString;
  if negb (NT_SUCCESS status) then
    Some (status, {| ref_Length := 0; ref_MaximumLength := 0; ref_Buffer := None |})
  else
    e ← entry;
    Some (STATUS_SUCCESS, {| ref_Length := entry_Length e; ref_MaximumLength := entry_Length e;
                             ref_Buffer := Some (entry_Offset e) |}).

Definition KphMsgDynGetAnsiString (Message : KPH_MESSAGE) (FieldId : Z) : ub (Z * STRING_REF) :=
  '(status, entry) ← KphpMsgDynLookupEntry Message FieldId KphMsgTypeAnsiString;
  if negb (NT_SUCCESS status) then
    Some (status, {| ref_Length := 0; ref_MaximumLength := 0; ref_Buffer := None |})
  else
    e ← entry;
    Some (STATUS_SUCCESS, {| ref_Length := entry_Length e; ref_MaximumLength := entry_Length e;
                             ref_Buffer := Some (entry_Offset e) |}).

Definition KphMsgDynGetStackTrace (Message : KPH_MESSAGE) (FieldId : Z) : ub (Z * STACK_TRACE_REF) :=
  '(status, entry) ← KphpMsgDynLookupEntry Message FieldId KphMsgTypeStackTrace;
  if negb (NT_SUCCESS status) then Some (status, {| stref_Count := 0; stref_Frames := None |})
  else
    e ← entry;
    Some (STATUS_SUCCESS, {| stref_Count := u16 (entry_Length e / sizeof_PVOID);
                             stref_Frames := Some (entry_Offset e) |}).

Definition KphMsgDynGetSizedBuffer (Message : KPH_MESSAGE) (FieldId : Z) : ub (Z * SIZED_BUFFER_REF) :=
  '(status, entry) ← KphpMsgDynLookupEntry Message FieldId KphMsgTypeSizedBuffer;
  if negb (NT_SUCCESS status) then Some (status, {| sbref_Size := 0; sbref_Buffer := None |})
  else
    e ← entry;
    Some (STATUS_SUCCESS, {| sbref_Size := entry_Length e; sbref_Buffer := Some (entry_Offset e) |}).

(** ** Specification

    What the dynamic area stores, seen from outside: an ordered list of at most eight distinct
    fields, each with its type and its bytes, within a budget of [4096 - 356] bytes. *)

Definition field : Type := Z * Z * list Z.
Definition field_id (x : field) : Z := x.1.1.
Definition field_type (x : field) : Z := x.1.2.
Definition field_bytes (x : field) : list Z := x.2.

Fixpoint fields_size (fs : list field) : Z :=
  match fs with [] => 0 | x :: fs => Z.of_nat (length (field_bytes x)) + fields_size fs end.

Fixpoint fields_find (fs : list field) (f : Z) : option (field * list field) :=
  match fs with
  | [] => None
  | x :: fs => if field_id x =? f then Some (x, x :: fs) else fields_find fs f
  end.

(** Adding [len] bytes as field [f]: the status, and the fields afterwards. *)
Definition spec_status (fs : list field) (f len : Z) : Z :=
  let size := KPH_MESSAGE_MIN_SIZE + fields_size fs + len in
  if (f <=? InvalidKphMsgField) || (MaxKphMsgField <=? f) then STATUS_INVALID_PARAMETER_2
  else if (length fs =? KPH_MESSAGE_ENTRIES)%nat then STATUS_INSUFFICIENT_RESOURCES
  else if bool_decide (is_Some (fields_find fs f)) then STATUS_ALREADY_COMMITTED
  else if 0xffff <? size then STATUS_INTEGER_OVERFLOW
  else if sizeof_KPH_MESSAGE <? size then STATUS_INSUFFICIENT_RESOURCES
  else STATUS_SUCCESS.

Definition spec_add (fs : list field) (f t : Z) (bytes : list Z) : Z * list field :=
  let status := spec_status fs f (Z.of_nat (length bytes)) in
  (status, if NT_SUCCESS status then fs ++ [(f, t, bytes)] else fs).

(** Getting a field: a field after which (itself included) the message holds no byte is reported
    as corrupt, because the lookup insists that its offset is below the message size. *)
Definition spec_get (fs : list field) (f t : Z) : Z * option (list Z) :=
  match fields_find fs f with
  | None => (STATUS_NOT_FOUND, None)
  | Some (x, suffix) =>
      if negb (field_type x =? t) then (STATUS_CONTEXT_MISMATCH, None)
      else if fields_size suffix =? 0 then (STATUS_HEAP_CORRUPTION, None)
      else (STATUS_SUCCESS, Some (field_bytes x))
  end.

(** ** Representation *)

Definition live (m : KPH_MESSAGE) : list KPH_MESSAGE_DYNAMIC_TABLE_ENTRY :=
  take (Z.to_nat (Dyn_Count m)) (Dyn_Entries m).

Fixpoint contiguous (off : Z) (es : list KPH_MESSAGE_DYNAMIC_TABLE_ENTRY) (fin : Z) : Prop :=
  match es with
  | [] => off = fin
  | e :: es => entry_Offset e = off /\ 0 <= entry_Length e /\
               contiguous (off + entry_Length e) es fin
  end.

(** The well-formedness invariant: a valid header, and live entries that tile the bytes between
    the end of the table and [Header.Size]. *)
Record msg_wf (m : KPH_MESSAGE) : Prop := {
  wf_valid : KphMsgValidate m = STATUS_SUCCESS;
  wf_entries : length (Dyn_Entries m) = KPH_MESSAGE_ENTRIES;
  wf_buffer : Z.of_nat (length (Dyn_Buffer m)) = sizeof_KPH_MESSAGE - KPH_MESSAGE_MIN_SIZE;
  wf_count : 0 <= Dyn_Count m <= 8;
  wf_layout : contiguous KPH_MESSAGE_MIN_SIZE (live m) (Header_Size m);
  wf_distinct : NoDup (entry_FieldId <$> live m);
}.

(** Bytes of the dynamic buffer at a message offset. *)
Definition dyn_bytes (m : KPH_MESSAGE) (off len : Z) : list Z :=
  read_at (Dyn_Buffer m) (Z.to_nat (off - KPH_MESSAGE_MIN_SIZE)) (Z.to_nat len).

Definition entry_field (m : KPH_MESSAGE) (e : KPH_MESSAGE_DYNAMIC_TABLE_ENTRY) : field :=
  (entry_FieldId e, entry_TypeId e, dyn_bytes m (entry_Offset e) (entry_Length e)).

Definition fields_of (m : KPH_MESSAGE) : list field := entry_field m <$> live m.

(** ** Lemmas *)

Lemma contiguous_le off es fin : contiguous off es fin -> off <= fin.
Proof.
  revert off. induction es as [|e es IH]; simpl; intros off H; [lia|].
  destruct H as (_ & ? & H). apply IH in H. lia.
Qed.

Lemma contiguous_snoc off es fin e :
  contiguous off es fin -> entry_Offset e = fin -> 0 <= entry_Length e ->
  contiguous off (es ++ [e]) (fin + entry_Length e).
Proof.
  revert off. induction es as [|e' es IH]; simpl; intros off H He Hl.
  - subst. auto.
  - destruct H as (? & ? & H). auto.
Qed.

Lemma contiguous_lookup off es fin i e :
  contiguous off es fin -> es !! i = Some e ->
  off <= entry_Offset e /\ 0 <= entry_Length e /\ entry_Offset e + entry_Length e <= fin.
Proof.
  revert off i. induction es as [|e' es IH]; intros off i H Hi; [done|].
  destruct H as (? & ? & H). destruct i as [|i]; simplify_eq/=.
  - apply contiguous_le in H. lia.
  - destruct (IH _ _ H Hi) as (? & ? & ?). lia.
Qed.

Lemma valid_size m :
  KphMsgValidate m = STATUS_SUCCESS ->
  KPH_MESSAGE_MIN_SIZE <= Header_Size m <= sizeof_KPH_MESSAGE.
Proof. unfold KphMsgValidate. split_ifs; to_prop; try discriminate. lia. Qed.

Lemma wf_size m :
  msg_wf m -> KPH_MESSAGE_MIN_SIZE <= Header_Size m <= sizeof_KPH_MESSAGE.
Proof. intros []. by apply valid_size. Qed.

Lemma length_live m : msg_wf m -> length (live m) = Z.to_nat (Dyn_Count m).
Proof.
  intros []. unfold live. rewrite length_take, wf_entries0. unfold KPH_MESSAGE_ENTRIES. lia.
Qed.

Lemma length_fields m : msg_wf m -> length (fields_of m) = Z.to_nat (Dyn_Count m).
Proof. intros. unfold fields_of. rewrite length_fmap. by apply length_live. Qed.

(** An entry of the table lies inside the dynamic buffer. *)
Lemma wf_entry_bounds m i e :
  msg_wf m -> live m !! i = Some e ->
  KPH_MESSAGE_MIN_SIZE <= entry_Offset e /\ 0 <= entry_Length e /\
  entry_Offset e + entry_Length e <= Header_Size m.
Proof. intros [] Hi. by eapply contiguous_lookup. Qed.

Lemma length_dyn_bytes m off len :
  msg_wf m -> KPH_MESSAGE_MIN_SIZE <= off -> 0 <= len -> off + len <= sizeof_KPH_MESSAGE ->
  Z.of_nat (length (dyn_bytes m off len)) = len.
Proof. intros [] ???. unfold dyn_bytes. rewrite length_read_at; lia. Qed.

Lemma fields_size_contiguous m off es fin :
  msg_wf m -> KPH_MESSAGE_MIN_SIZE <= off -> fin <= sizeof_KPH_MESSAGE ->
  contiguous off es fin -> fields_size (entry_field m <$> es) = fin - off.
Proof.
  intros Hwf. revert off.
  induction es as [|e es IH]; intros off ? ? H; rewrite ?fmap_cons; cbn [fields_size contiguous] in *.
  { simpl. lia. }
  destruct H as (? & ? & H). pose proof (contiguous_le _ _ _ H).
  rewrite (IH (off + entry_Length e)) by (done || lia).
  unfold entry_field, field_bytes; simpl. rewrite length_dyn_bytes by (done || lia). lia.
Qed.

Lemma fields_size_wf m : msg_wf m -> fields_size (fields_of m) = Header_Size m - KPH_MESSAGE_MIN_SIZE.
Proof.
  intros Hwf. pose proof (wf_size m Hwf). apply fields_size_contiguous; try done; [lia|apply Hwf].
Qed.

Lemma find_entry_from_spec m f n i :
  (i + n <= length (Dyn_Entries m))%nat ->
  find_entry_from m f n i =
  Some ((λ p, (i + p.1)%nat) <$> list_find (λ e, entry_FieldId e = f) (take n (drop i (Dyn_Entries m)))).
Proof.
  revert i. induction n as [|n IH]; intros i Hi; simpl.
  { done. }
  destruct (lookup_lt_is_Some_2 (Dyn_Entries m) i) as [e He]; [lia|].
  rewrite He, (drop_S _ _ _ He); simpl.
  destruct (Z.eqb_spec (entry_FieldId e) f) as [Hf|Hf].
  - rewrite decide_True by done. simpl. do 2 f_equal. lia.
  - rewrite decide_False by done. rewrite IH by lia.
    destruct (list_find _ _) as [[j e']|]; simpl; do 2 f_equal. lia.
Qed.

Lemma find_entry_spec m f :
  msg_wf m ->
  KphpMsgDynFindEntry m f = Some (fst <$> list_find (λ e, entry_FieldId e = f) (live m)).
Proof.
  intros []. unfold KphpMsgDynFindEntry. rewrite find_entry_from_spec.
  - rewrite drop_0. unfold live. by destruct (list_find _ _) as [[]|].
  - rewrite wf_entries0. unfold KPH_MESSAGE_ENTRIES. lia.
Qed.

Lemma fields_find_fmap m es f :
  fields_find (entry_field m <$> es) f =
  (λ p, (entry_field m p.2, entry_field m <$> drop p.1 es)) <$>
    list_find (λ e, entry_FieldId e = f) es.
Proof.
  induction es as [|e es IH]; [done|]. rewrite fmap_cons. cbn [fields_find list_find].
  change (field_id (entry_field m e)) with (entry_FieldId e).
  destruct (Z.eqb_spec (entry_FieldId e) f) as [Hf|Hf].
  - by rewrite decide_True by done.
  - rewrite decide_False, IH by done. by destruct (list_find _ es) as [[]|].
Qed.

(** The fields not touched by a write at the end of the used area keep their bytes. *)
Lemma entry_field_write m es b fin off bs :
  contiguous off es fin -> KPH_MESSAGE_MIN_SIZE <= off ->
  (Z.to_nat (fin - KPH_MESSAGE_MIN_SIZE) <= length (Dyn_Buffer m))%nat ->
  Dyn_Buffer b = write_at (Dyn_Buffer m) (Z.to_nat (fin - KPH_MESSAGE_MIN_SIZE)) bs ->
  entry_field b <$> es = entry_field m <$> es.
Proof.
  intros H Hoff Hlen Hb. apply list_eq. intros i. rewrite !list_lookup_fmap.
  destruct (es !! i) as [e|] eqn:He; [|done]. simpl. f_equal. unfold entry_field. f_equal.
  destruct (contiguous_lookup _ _ _ _ _ H He) as (? & ? & ?).
  unfold dyn_bytes. rewrite Hb. apply read_write_before; lia.
Qed.

Lemma is_Some_fields_find m f :
  is_Some (fields_find (fields_of m) f) <->
  is_Some (list_find (λ e, entry_FieldId e = f) (live m)).
Proof. unfold fields_of. rewrite fields_find_fmap. by rewrite fmap_is_Some. Qed.

(** The message after a successful claim. *)
Definition claimed_message (m : KPH_MESSAGE) (f t len : Z) : KPH_MESSAGE :=
  set_table m (Header_Size m + len) (Dyn_Count m + 1)
    (<[Z.to_nat (Dyn_Count m) := {| entry_FieldId := f; entry_TypeId := t;
         entry_Offset := Header_Size m; entry_Length := len |}]> (Dyn_Entries m)).

Lemma claim_spec m f t len :
  msg_wf m -> InvalidKphMsgType < t < MaxKphMsgType -> 0 <= len < 2 ^ 16 ->
  KphpMsgDynClaimEntry m f t len =
  let st := spec_status (fields_of m) f len in
  Some (if NT_SUCCESS st then (claimed_message m f t len, st, Some (Z.to_nat (Dyn_Count m)))
        else (m, st, None)).
Proof.
  intros Hwf Ht Hlen. pose proof (wf_size m Hwf) as Hs. pose proof (wf_count m Hwf) as Hc.
  unfold KphpMsgDynClaimEntry, spec_status. cbv zeta. rewrite (wf_valid m Hwf).
  destruct (_ || _) eqn:E1; [done|].
  replace ((t <=? _) || _) with false by (symmetry; apply orb_false_iff; lia).
  rewrite length_fields by done. cbn [negb NT_SUCCESS STATUS_SUCCESS Z.ltb Z.compare].
  unfold KPH_MESSAGE_ENTRIES, KPH_MESSAGE_MIN_SIZE, sizeof_KPH_MESSAGE in *.
  destruct (Z.leb_spec (Z.of_nat 8) (Dyn_Count m)) as [Hfull|Hroom].
  { replace (Z.to_nat (Dyn_Count m) =? 8)%nat with true by (symmetry; apply Nat.eqb_eq; lia). done. }
  replace (Z.to_nat (Dyn_Count m) =? 8)%nat with false by (symmetry; apply Nat.eqb_neq; lia).
  rewrite find_entry_spec by done. cbn [mbind option_bind].
  rewrite (bool_decide_ext _ _ (is_Some_fields_find m f)).
  destruct (list_find _ (live m)) as [[i e]|] eqn:Hf; cbn [fmap option_fmap option_map fst].
  { rewrite bool_decide_true by eauto. done. }
  rewrite bool_decide_false by (intros [? ?]; done).
  rewrite fields_size_wf by done. unfold KPH_MESSAGE_MIN_SIZE, RtlUShortAdd, u16.
  destruct (Z.ltb_spec 0xffff (356 + (Header_Size m - 356) + len)) as [Hov|Hok].
  { replace ((Header_Size m + len) mod 2 ^ 16) with (Header_Size m + len - 2 ^ 16).
    - replace (Header_Size m <=? _) with false by lia. done.
    - apply Z.mod_unique with 1; lia. }
  rewrite Z.mod_small by lia. replace (Header_Size m <=? _) with true by lia.
  cbn [negb NT_SUCCESS STATUS_SUCCESS Z.ltb Z.compare].
  replace (356 + (Header_Size m - 356) + len) with (Header_Size m + len) by lia.
  destruct (Z.ltb_spec 0x1000 (Header_Size m + len)) as [Hbig|Hfit]; [done|].
  destruct (lookup_lt_is_Some_2 (Dyn_Entries m) (Z.to_nat (Dyn_Count m))) as [e0 ->].
  { rewrite (wf_entries m Hwf). unfold KPH_MESSAGE_ENTRIES. lia. }
  cbn. unfold claimed_message. width. done.
Qed.

Lemma spec_status_success fs f len :
  NT_SUCCESS (spec_status fs f len) = true ->
  spec_status fs f len = STATUS_SUCCESS /\ fields_find fs f = None /\
  (length fs =? KPH_MESSAGE_ENTRIES)%nat = false /\
  KPH_MESSAGE_MIN_SIZE + fields_size fs + len <= sizeof_KPH_MESSAGE.
Proof.
  unfold spec_status. cbv zeta. split_ifs; try discriminate. to_prop. intros _. repeat split; try lia.
  apply bool_decide_eq_false in E1. by apply eq_None_not_Some.
Qed.

Lemma live_claimed m f t len b :
  msg_wf m -> Dyn_Count m < 8 ->
  live (set_buffer (claimed_message m f t len) b) =
  live m ++ [{| entry_FieldId := f; entry_TypeId := t;
                entry_Offset := Header_Size m; entry_Length := len |}].
Proof.
  intros Hwf Hc. pose proof (wf_count m Hwf). pose proof (wf_entries m Hwf) as He.
  unfold live, KPH_MESSAGE_ENTRIES in *; simpl.
  replace (Z.to_nat (Dyn_Count m + 1)) with (S (Z.to_nat (Dyn_Count m))) by lia.
  erewrite take_S_r by (apply list_lookup_insert_eq; lia). f_equal. apply take_insert_ge. lia.
Qed.

Lemma fields_find_None_notin m f :
  fields_find (fields_of m) f = None -> f ∉ entry_FieldId <$> live m.
Proof.
  intros H. unfold fields_of in H. rewrite fields_find_fmap, fmap_None in H.
  intros [e [-> He]]%list_elem_of_fmap. apply list_find_None in H.
  rewrite Forall_forall in H. by apply (H e He).
Qed.

(** A successful claim followed by the copy of [len] bytes. *)
Lemma claimed_wf m f t bytes :
  let len := Z.of_nat (length bytes) in
  let b := write_at (Dyn_Buffer m) (Z.to_nat (Header_Size m - KPH_MESSAGE_MIN_SIZE)) bytes in
  let m' := set_buffer (claimed_message m f t len) b in
  msg_wf m -> NT_SUCCESS (spec_status (fields_of m) f len) = true ->
  msg_wf m' /\ fields_of m' = fields_of m ++ [(f, t, bytes)].
Proof.
  intros len b m' Hwf Hst.
  apply spec_status_success in Hst as (_ & Hnone & Hroom & Hfit).
  pose proof (wf_size m Hwf). pose proof (wf_count m Hwf). pose proof (wf_buffer m Hwf) as Hbuf.
  rewrite fields_size_wf in Hfit by done. rewrite length_fields in Hroom by done.
  apply Nat.eqb_neq in Hroom. unfold KPH_MESSAGE_ENTRIES, sizeof_KPH_MESSAGE, KPH_MESSAGE_MIN_SIZE in *.
  assert (Hlive := live_claimed m f t len b Hwf ltac:(lia)). fold m' in Hlive.
  assert (Hlenb : length b = length (Dyn_Buffer m)) by (apply length_write_at; lia).
  split; [split|].
  - unfold KphMsgValidate. simpl. pose proof (wf_valid m Hwf) as Hv. unfold KphMsgValidate in Hv.
    revert Hv. unfold sizeof_KPH_MESSAGE, KPH_MESSAGE_MIN_SIZE.
    split_ifs; to_prop; try discriminate; try done. lia.
  - simpl. rewrite length_insert. apply Hwf.
  - simpl. by rewrite Hlenb.
  - simpl. lia.
  - rewrite Hlive. apply contiguous_snoc; simpl; [apply Hwf|done|lia].
  - rewrite Hlive, fmap_app. apply NoDup_app. split; [apply Hwf|]. split.
    + intros x Hx ->%list_elem_of_singleton. by apply (fields_find_None_notin m f Hnone).
    + apply NoDup_singleton.
  - unfold fields_of. rewrite Hlive, fmap_app. f_equal.
    + apply (entry_field_write m (live m) m' (Header_Size m) KPH_MESSAGE_MIN_SIZE bytes);
        [apply Hwf|done|unfold KPH_MESSAGE_MIN_SIZE; lia|done].
    + unfold entry_field, dyn_bytes. simpl. do 2 f_equal.
      apply read_write_same; unfold KPH_MESSAGE_MIN_SIZE; lia.
Qed.

(** Claim-and-copy, the common shape of the four [KphMsgDynAdd...] functions. *)
Definition add_bytes (Message : KPH_MESSAGE) (f t len : Z) (mem : list Z) (n : nat)
    : ub (KPH_MESSAGE * Z) :=
  '(m, status, entry) ← KphpMsgDynClaimEntry Message f t len;
  if negb (NT_SUCCESS status) then Some (m, status)
  else
    i ← entry; e ← Dyn_Entries m !! i;
    src ← load_block mem 0 n;
    m ← copy_to_message m (entry_Offset e) src;
    Some (m, STATUS_SUCCESS).

(** What an adding function does with [bytes]: it ends without an access out of bounds, in a
    well-formed message, with the status and the fields of the specification; a message to which
    nothing was added is the same, to the last byte. *)
Definition adds (m : KPH_MESSAGE) (f t : Z) (bytes : list Z) (result : ub (KPH_MESSAGE * Z)) : Prop :=
  exists m' st, result = Some (m', st) /\ msg_wf m' /\
    (st, fields_of m') = spec_add (fields_of m) f t bytes /\ (NT_SUCCESS st = false -> m' = m).

Lemma add_bytes_spec m f t len mem :
  msg_wf m -> InvalidKphMsgType < t < MaxKphMsgType -> 0 <= len < 2 ^ 16 ->
  len <= Z.of_nat (length mem) ->
  adds m f t (take (Z.to_nat len) mem) (add_bytes m f t len mem (Z.to_nat len)).
Proof.
  intros Hwf Ht Hlen Hmem. unfold adds, add_bytes, spec_add. cbv zeta. rewrite claim_spec by done. cbv zeta.
  rewrite length_take. replace (Z.of_nat (Z.to_nat len `min` length mem)) with len by lia.
  destruct (NT_SUCCESS (spec_status (fields_of m) f len)) eqn:Hst; cbn [mbind option_bind]; rewrite Hst.
  2:{ by exists m, (spec_status (fields_of m) f len). }
  cbn [negb]. set (bytes := take (Z.to_nat len) mem).
  assert (Hbl : Z.of_nat (length bytes) = len) by (unfold bytes; rewrite length_take; lia).
  rewrite <- Hbl in Hst. destruct (claimed_wf m f t bytes Hwf Hst) as [Hwf' Hf'].
  apply spec_status_success in Hst as (Hs & _ & Hroom & Hfit). rewrite Hbl in *.
  rewrite fields_size_wf in Hfit by done. rewrite length_fields in Hroom by done.
  apply Nat.eqb_neq in Hroom.
  pose proof (wf_size m Hwf). pose proof (wf_count m Hwf). pose proof (wf_buffer m Hwf).
  unfold KPH_MESSAGE_ENTRIES, sizeof_KPH_MESSAGE, KPH_MESSAGE_MIN_SIZE in *.
  cbn [mbind option_bind]. simpl Dyn_Entries.
  rewrite list_lookup_insert_eq
    by (rewrite (wf_entries m Hwf); unfold KPH_MESSAGE_ENTRIES; lia).
  rewrite load_block_Some by lia. cbn [mbind option_bind entry_Offset].
  change (read_at mem 0 (Z.to_nat len)) with bytes. unfold copy_to_message, KPH_MESSAGE_MIN_SIZE.
  replace (Header_Size m <? 356) with false by lia. simpl Dyn_Buffer.
  rewrite store_block_Some by lia. cbn [mbind option_bind].
  eexists _, _. split; [done|]. rewrite Hs. split; [exact Hwf'|]. split; [by rewrite Hf'|]. done.
Qed.

Lemma contiguous_drop off es fin i e :
  contiguous off es fin -> es !! i = Some e -> contiguous (entry_Offset e) (drop i es) fin.
Proof.
  revert off i. induction es as [|e' es IH]; intros off i H Hi; [done|].
  destruct i as [|i]; simplify_eq/=; [destruct H as (-> & ? & ?); auto|].
  destruct H as (? & ? & H). by eapply IH.
Qed.

Lemma lookup_spec m f t :
  msg_wf m ->
  exists e, KphpMsgDynLookupEntry m f t = Some ((spec_get (fields_of m) f t).1, e) /\
    (spec_get (fields_of m) f t).2 = (λ e, dyn_bytes m (entry_Offset e) (entry_Length e)) <$> e /\
    match e with
    | None => NT_SUCCESS (spec_get (fields_of m) f t).1 = false
    | Some x => (spec_get (fields_of m) f t).1 = STATUS_SUCCESS /\
                KPH_MESSAGE_MIN_SIZE <= entry_Offset x /\ 0 <= entry_Length x /\
                entry_Offset x + entry_Length x <= Header_Size m
    end.
Proof.
  intros Hwf. unfold KphpMsgDynLookupEntry, spec_get. cbv zeta. rewrite (wf_valid m Hwf).
  cbn [negb NT_SUCCESS STATUS_SUCCESS Z.ltb Z.compare].
  rewrite find_entry_spec by done. unfold fields_of. rewrite fields_find_fmap.
  destruct (list_find _ (live m)) as [[i e]|] eqn:Hf; cbn [mbind option_bind fmap option_fmap option_map fst].
  2:{ by exists None. }
  apply list_find_Some in Hf as (Hi & Hfid & _).
  assert (Hi' : Dyn_Entries m !! i = Some e) by (apply lookup_take_Some in Hi; tauto).
  rewrite Hi'. cbn [mbind option_bind snd]. change (field_type (entry_field m e)) with (entry_TypeId e).
  destruct (wf_entry_bounds m i e Hwf Hi) as (? & ? & ?). pose proof (wf_size m Hwf).
  destruct (Z.eqb_spec (entry_TypeId e) t) as [Ht|Ht]; cbn [negb].
  2:{ by exists None. }
  rewrite (fields_size_contiguous m (entry_Offset e) _ (Header_Size m)); [|done|lia|lia|].
  2:{ eapply contiguous_drop; [|done]. apply Hwf. }
  destruct (Z.leb_spec (Header_Size m) (entry_Offset e)); destruct (Z.eqb_spec (Header_Size m - entry_Offset e) 0);
    try lia.
  - by exists None.
  - by exists (Some e).
Qed.

(** The bytes a returned reference designates. *)
Definition string_contents (m : KPH_MESSAGE) (r : STRING_REF) : option (list Z) :=
  off ← ref_Buffer r; Some (dyn_bytes m off (ref_Length r)).
Definition sized_contents (m : KPH_MESSAGE) (r : SIZED_BUFFER_REF) : option (list Z) :=
  off ← sbref_Buffer r; Some (dyn_bytes m off (sbref_Size r)).
Definition stack_contents (m : KPH_MESSAGE) (r : STACK_TRACE_REF) : option (list Z) :=
  off ← stref_Frames r; Some (dyn_bytes m off (stref_Count r * sizeof_PVOID)).

(** The caller's arguments: 16-bit lengths, and buffers that hold at least that much. *)
Definition string_ok (s : COUNTED_STRING) : Prop :=
  0 <= str_Length s < 2 ^ 16 /\ str_Length s <= Z.of_nat (length (str_Buffer s)).
Definition sized_ok (b : KPHM_SIZED_BUFFER) : Prop :=
  0 <= sb_Size b < 2 ^ 16 /\ sb_Size b <= Z.of_nat (length (sb_Buffer b)).
Definition stack_ok (t : KPHM_STACK_TRACE) : Prop :=
  0 <= st_Count t < 2 ^ 16 /\ st_Count t * sizeof_PVOID <= Z.of_nat (length (st_Frames t)).

Definition string_bytes (s : COUNTED_STRING) : list Z := take (Z.to_nat (str_Length s)) (str_Buffer s).
Definition sized_bytes (b : KPHM_SIZED_BUFFER) : list Z := take (Z.to_nat (sb_Size b)) (sb_Buffer b).
Definition stack_bytes (t : KPHM_STACK_TRACE) : list Z :=
  take (Z.to_nat (st_Count t * sizeof_PVOID)) (st_Frames t).

(** One call of an adding function, with its status; and any call that changes a message. *)
Inductive msg_add : KPH_MESSAGE -> Z -> KPH_MESSAGE -> Prop :=
| add_unicode m f s m' st : string_ok s ->
    KphMsgDynAddUnicodeString m f s = Some (m', st) -> msg_add m st m'
| add_ansi m f s m' st : string_ok s ->
    KphMsgDynAddAnsiString m f s = Some (m', st) -> msg_add m st m'
| add_stack m f t m' st : stack_ok t -> st_Count t * sizeof_PVOID < 2 ^ 16 ->
    KphMsgDynAddStackTrace m f t = Some (m', st) -> msg_add m st m'
| add_sized m f b m' st : sized_ok b ->
    KphMsgDynAddSizedBuffer m f b = Some (m', st) -> msg_add m st m'.

Inductive msg_step : KPH_MESSAGE -> KPH_MESSAGE -> Prop :=
| step_add m st m' : msg_add m st m' -> msg_step m m'
| step_clear m : msg_step m (KphMsgDynClear m).

(** A block of memory a message can be initialized in. *)
Definition message_memory (m : KPH_MESSAGE) : Prop :=
  Z.of_nat (length (Dyn_Buffer m)) = sizeof_KPH_MESSAGE - KPH_MESSAGE_MIN_SIZE.

Definition valid_id (id : Z) : Prop :=
  id = KphMsgUnhandled \/ InvalidKphMsg < id < MaxKphMsg.

Lemma init_wf m now id :
  message_memory m -> valid_id id ->
  msg_wf (KphMsgInit m now id) /\ fields_of (KphMsgInit m now id) = [].
Proof.
  intros Hm Hid. split; [split|done]; simpl; try done; [|apply NoDup_nil_2].
  unfold KphMsgValidate. simpl. unfold valid_id, KphMsgUnhandled, InvalidKphMsg in *.
  split_ifs; to_prop; try done.
  all: unfold KPH_MESSAGE_MIN_SIZE, sizeof_KPH_MESSAGE in *; lia.
Qed.

Lemma clear_wf m : msg_wf m -> msg_wf (KphMsgDynClear m) /\ fields_of (KphMsgDynClear m) = [].
Proof.
  intros Hwf. split; [split|done]; simpl; try done; [|apply Hwf|apply NoDup_nil_2].
  pose proof (wf_valid m Hwf) as Hv. revert Hv. unfold KphMsgValidate. simpl.
  split_ifs; to_prop; try discriminate; done.
Qed.

Lemma add_unicode_spec m f s :
  msg_wf m -> string_ok s ->
  adds m f KphMsgTypeUnicodeString (string_bytes s) (KphMsgDynAddUnicodeString m f s).
Proof. intros Hwf [? ?]. by apply add_bytes_spec. Qed.

Lemma add_ansi_spec m f s :
  msg_wf m -> string_ok s ->
  adds m f KphMsgTypeAnsiString (string_bytes s) (KphMsgDynAddAnsiString m f s).
Proof. intros Hwf [? ?]. by apply add_bytes_spec. Qed.

Lemma add_sized_spec m f b :
  msg_wf m -> sized_ok b ->
  adds m f KphMsgTypeSizedBuffer (sized_bytes b) (KphMsgDynAddSizedBuffer m f b).
Proof. intros Hwf [? ?]. by apply add_bytes_spec. Qed.

Lemma add_stack_spec m f t :
  msg_wf m -> stack_ok t -> st_Count t * sizeof_PVOID < 2 ^ 16 ->
  adds m f KphMsgTypeStackTrace (stack_bytes t) (KphMsgDynAddStackTrace m f t).
Proof.
  intros Hwf [? ?] Hov. unfold KphMsgDynAddStackTrace. unfold sizeof_PVOID in *.
  rewrite u16_id by (unfold in_width; lia). apply (add_bytes_spec m f KphMsgTypeStackTrace (st_Count t * 8) (st_Frames t)); (done || lia).
Qed.

(** A trace whose byte count does not fit 16 bits: the claim sees the truncated count, the copy the full one. *)
Lemma add_stack_overflow m f t :
  msg_wf m -> stack_ok t -> 2 ^ 16 <= st_Count t * sizeof_PVOID ->
  let st := spec_status (fields_of m) f (u16 (st_Count t * sizeof_PVOID)) in
  KphMsgDynAddStackTrace m f t = if NT_SUCCESS st then None else Some (m, st).
Proof.
  intros Hwf [Hc Hm] Hbig st. unfold KphMsgDynAddStackTrace.
  rewrite claim_spec; [|done|done|apply u16_range]. cbv zeta. fold st.
  destruct (NT_SUCCESS st) eqn:Hst; cbn [mbind option_bind]; rewrite Hst; [|done]. cbn [negb mbind option_bind].
  apply spec_status_success in Hst as (_ & _ & Hroom & Hfit).
  rewrite length_fields in Hroom by done. apply Nat.eqb_neq in Hroom. simpl Dyn_Entries.
  pose proof (wf_size m Hwf). pose proof (wf_count m Hwf). pose proof (wf_buffer m Hwf).
  unfold sizeof_PVOID, KPH_MESSAGE_ENTRIES, sizeof_KPH_MESSAGE, KPH_MESSAGE_MIN_SIZE in *.
  rewrite list_lookup_insert_eq by (rewrite (wf_entries m Hwf); unfold KPH_MESSAGE_ENTRIES; lia).
  rewrite load_block_Some by lia. cbn [mbind option_bind entry_Offset]. unfold copy_to_message.
  destruct (_ <? _); [done|]. unfold store_block. simpl Dyn_Buffer.
  rewrite decide_False; [done|]. rewrite length_read_at by lia.
  unfold KPH_MESSAGE_MIN_SIZE. lia.
Qed.

Lemma msg_add_fields m st m' :
  msg_wf m -> msg_add m st m' ->
  msg_wf m' /\ exists fs, fields_of m' = fields_of m ++ fs.
Proof.
  intros Hwf H.
  assert (exists f t bytes, msg_wf m' /\ (st, fields_of m') = spec_add (fields_of m) f t bytes) as
    (f & t & bytes & Hwf' & Hs).
  { destruct H as [m f s m' st Ho H|m f s m' st Ho H|m f s m' st Ho Ho2 H|m f s m' st Ho H];
      [destruct (add_unicode_spec m f s Hwf Ho) as (m1 & st1 & H1 & ? & ? & _)
      |destruct (add_ansi_spec m f s Hwf Ho) as (m1 & st1 & H1 & ? & ? & _)
      |destruct (add_stack_spec m f s Hwf Ho Ho2) as (m1 & st1 & H1 & ? & ? & _)
      |destruct (add_sized_spec m f s Hwf Ho) as (m1 & st1 & H1 & ? & ? & _)];
      rewrite H in H1; simplify_eq; eauto. }
  split; [done|]. unfold spec_add in Hs. cbv zeta in Hs. injection Hs as -> ->.
  destruct (NT_SUCCESS _); eauto. exists []. by rewrite app_nil_r.
Qed.

Lemma msg_adds_fields m m' :
  msg_wf m -> rtc (λ m m', exists st, msg_add m st m') m m' ->
  msg_wf m' /\ exists fs, fields_of m' = fields_of m ++ fs.
Proof.
  intros Hwf H. induction H as [m|m m1 m2 [st Hadd] _ IH].
  - split; [done|]. exists []. by rewrite app_nil_r.
  - destruct (msg_add_fields _ _ _ Hwf Hadd) as [Hwf1 [fs1 H1]].
    destruct (IH Hwf1) as [Hwf2 [fs2 H2]]. split; [done|].
    exists (fs1 ++ fs2). by rewrite H2, H1, app_assoc.
Qed.

Lemma fields_find_app fs fs' f :
  fields_find fs f = None -> fields_find (fs ++ fs') f = fields_find fs' f.
Proof.
  induction fs as [|x fs IH]; [done|]. simpl. destruct (_ =? _); [done|]. apply IH.
Qed.

Lemma fields_size_nonneg fs : 0 <= fields_size fs.
Proof. induction fs; simpl; lia. Qed.

(** What a getter returns for the bytes that the specification finds: its status; on failure a null
    reference; on success a reference within the message, to the bytes. *)
Definition gets {R : Type} (m : KPH_MESSAGE) (found : Z * option (list Z)) (null : R) (at_ : R -> option Z) (len : R -> Z) (result : ub (Z * R)) : Prop :=
  exists r, result = Some (found.1, r) /\
  match found.2 with
  | None => NT_SUCCESS found.1 = false /\ r = null
  | Some bytes => found.1 = STATUS_SUCCESS /\
      exists off, at_ r = Some off /\ KPH_MESSAGE_MIN_SIZE <= off /\ 0 <= len r /\ off + len r <= Header_Size m /\ dyn_bytes m off (len r) = bytes
  end.

Definition null_string : STRING_REF := {| ref_Length := 0; ref_MaximumLength := 0; ref_Buffer := None |}.
Definition null_buffer : SIZED_BUFFER_REF := {| sbref_Size := 0; sbref_Buffer := None |}.
Definition null_trace : STACK_TRACE_REF := {| stref_Count := 0; stref_Frames := None |}.

(** The frames of a trace that its bytes hold in full. *)
Definition whole_frames (bytes : list Z) : list Z := take (Z.to_nat (Z.of_nat (length bytes) / sizeof_PVOID * sizeof_PVOID)) bytes.

(** A getter that packs the entry that it looks up. *)
Lemma get_spec {R} m f t (null : R) at_ len (pack : KPH_MESSAGE_DYNAMIC_TABLE_ENTRY -> R) :
  msg_wf m -> (forall e, at_ (pack e) = Some (entry_Offset e)) -> (forall e, len (pack e) = entry_Length e) ->
  gets m (spec_get (fields_of m) f t) null at_ len
    ('(status, entry) ← KphpMsgDynLookupEntry m f t; if negb (NT_SUCCESS status) then Some (status, null) else e ← entry; Some (STATUS_SUCCESS, pack e)).
Proof.
  intros Hwf Hat Hlen. destruct (lookup_spec m f t Hwf) as (e & -> & H2 & H3). destruct (spec_get (fields_of m) f t) as [st found]. cbn [fst snd mbind option_bind] in *. subst found.
  destruct e as [e|]; cbn [fmap option_fmap option_map].
  - destruct H3 as (-> & ? & ? & ?). exists (pack e). split; [done|]. split; [done|]. exists (entry_Offset e). rewrite Hlen. done.
  - rewrite H3. exists null. done.
Qed.

Lemma msg_get_unicode m f :
  msg_wf m -> gets m (spec_get (fields_of m) f KphMsgTypeUnicodeString) null_string ref_Buffer ref_Length (KphMsgDynGetUnicodeString m f).
Proof. intros Hwf. by apply (get_spec m f _ null_string ref_Buffer ref_Length (λ e, {| ref_Length := entry_Length e; ref_MaximumLength := entry_Length e; ref_Buffer := Some (entry_Offset e) |})). Qed.

Lemma msg_get_ansi m f :
  msg_wf m -> gets m (spec_get (fields_of m) f KphMsgTypeAnsiString) null_string ref_Buffer ref_Length (KphMsgDynGetAnsiString m f).
Proof. intros Hwf. by apply (get_spec m f _ null_string ref_Buffer ref_Length (λ e, {| ref_Length := entry_Length e; ref_MaximumLength := entry_Length e; ref_Buffer := Some (entry_Offset e) |})). Qed.

Lemma msg_get_sized m f :
  msg_wf m -> gets m (spec_get (fields_of m) f KphMsgTypeSizedBuffer) null_buffer sbref_Buffer sbref_Size (KphMsgDynGetSizedBuffer m f).
Proof. intros Hwf. by apply (get_spec m f _ null_buffer sbref_Buffer sbref_Size (λ e, {| sbref_Size := entry_Length e; sbref_Buffer := Some (entry_Offset e) |})). Qed.

(** The number of frames is rounded down. *)
Lemma msg_get_stack m f :
  msg_wf m -> let found := spec_get (fields_of m) f KphMsgTypeStackTrace in
  gets m (found.1, whole_frames <$> found.2) null_trace stref_Frames (λ r, stref_Count r * sizeof_PVOID) (KphMsgDynGetStackTrace m f).
Proof.
  intros Hwf found. subst found. unfold KphMsgDynGetStackTrace. destruct (lookup_spec m f KphMsgTypeStackTrace Hwf) as (e & -> & H2 & H3). pose proof (wf_size m Hwf) as Hs. pose proof (wf_buffer m Hwf) as Hb.
  destruct (spec_get (fields_of m) f KphMsgTypeStackTrace) as [st found]. cbn [fst snd mbind option_bind] in *. subst found.
  destruct e as [e|]; cbn [fmap option_fmap option_map]; [|rewrite H3; by exists null_trace].
  destruct H3 as (-> & Hoff & Hl & Hend). eexists. split; [done|]. split; [done|]. exists (entry_Offset e). cbn [stref_Frames stref_Count]. unfold sizeof_KPH_MESSAGE, KPH_MESSAGE_MIN_SIZE, sizeof_PVOID in *.
  pose proof (Z.div_mod (entry_Length e) 8 ltac:(lia)). pose proof (Z.mod_pos_bound (entry_Length e) 8 ltac:(lia)). rewrite u16_id by (unfold in_width; lia).
  split; [done|]. split; [done|]. split; [lia|]. split; [lia|]. unfold whole_frames, sizeof_PVOID. rewrite length_dyn_bytes by (try exact Hwf; unfold sizeof_KPH_MESSAGE, KPH_MESSAGE_MIN_SIZE; lia).
  unfold dyn_bytes, read_at. rewrite take_take. f_equal. lia.
Qed.

(** ** Properties *)

(** C9: On a well-formed message the functions that add a Unicode string, an ANSI string, a sized
    buffer or a stack trace of less than 2^16 bytes run without an out-of-bounds access, keep the message well
    formed, and implement [spec_add]: the returned status is the one the specification prescribes
    for every combination of bad field, full table, duplicate, overflow and lack of room; on
    success the stored fields grow by exactly the caller's bytes, and on failure the whole message
    is unchanged. A stack trace of 2^16 bytes or more is judged by its byte count modulo 2^16: it
    fails with the status of a trace of that size and changes nothing, or is accepted, and then
    the copy runs out of the message ([msg_stack_trace_overflow]). *)
Theorem msg_add_refines m f s b t :
  msg_wf m -> string_ok s -> sized_ok b -> stack_ok t ->
  adds m f KphMsgTypeUnicodeString (string_bytes s) (KphMsgDynAddUnicodeString m f s) /\
  adds m f KphMsgTypeAnsiString (string_bytes s) (KphMsgDynAddAnsiString m f s) /\
  adds m f KphMsgTypeSizedBuffer (sized_bytes b) (KphMsgDynAddSizedBuffer m f b) /\
  if st_Count t * sizeof_PVOID <? 2 ^ 16 then adds m f KphMsgTypeStackTrace (stack_bytes t) (KphMsgDynAddStackTrace m f t)
  else
    let st := spec_status (fields_of m) f (u16 (st_Count t * sizeof_PVOID)) in
    KphMsgDynAddStackTrace m f t = if NT_SUCCESS st then None else Some (m, st).
Proof.
  intros. repeat split; [by apply add_unicode_spec|by apply add_ansi_spec|by apply add_sized_spec|].
  destruct (Z.ltb_spec (st_Count t * sizeof_PVOID) (2 ^ 16)); [by apply add_stack_spec|by apply add_stack_overflow].
Qed.

(** C21: On a well-formed message the four getters implement [spec_get]: they return the status the
    specification prescribes, a null reference on failure, and on success a reference inside the
    message whose bytes are the stored field; for a stack trace the count is rounded down, and the
    reference is to the frames that the stored bytes hold in full. *)
Theorem msg_get_refines m f :
  msg_wf m ->
  gets m (spec_get (fields_of m) f KphMsgTypeUnicodeString) null_string ref_Buffer ref_Length (KphMsgDynGetUnicodeString m f) /\
  gets m (spec_get (fields_of m) f KphMsgTypeAnsiString) null_string ref_Buffer ref_Length (KphMsgDynGetAnsiString m f) /\
  gets m (spec_get (fields_of m) f KphMsgTypeSizedBuffer) null_buffer sbref_Buffer sbref_Size (KphMsgDynGetSizedBuffer m f) /\
  let trace := spec_get (fields_of m) f KphMsgTypeStackTrace in
  gets m (trace.1, whole_frames <$> trace.2) null_trace stref_Frames (λ r, stref_Count r * sizeof_PVOID) (KphMsgDynGetStackTrace m f).
Proof. intros Hwf. repeat split; [by apply msg_get_unicode|by apply msg_get_ansi|by apply msg_get_sized|by apply msg_get_stack]. Qed.

(** C22: the getters return what was added, whatever is added to the message afterwards: a
    non-empty Unicode string successfully added to a well-formed message is found by
    [KphMsgDynGetUnicodeString] with the same bytes after any sequence of further additions,
    successful or not. *)
Theorem msg_add_get_roundtrip m0 f s m1 m2 :
  msg_wf m0 -> string_ok s -> 0 < str_Length s ->
  KphMsgDynAddUnicodeString m0 f s = Some (m1, STATUS_SUCCESS) ->
  rtc (λ m m', exists st, msg_add m st m') m1 m2 ->
  exists r, KphMsgDynGetUnicodeString m2 f = Some (STATUS_SUCCESS, r) /\
    string_contents m2 r = Some (string_bytes s).
Proof.
  intros Hwf Hs Hpos Hadd Hsteps.
  destruct (add_unicode_spec m0 f s Hwf Hs) as (m' & st & Hadd' & Hwf1 & Hspec & _).
  rewrite Hadd in Hadd'. simplify_eq. unfold spec_add in Hspec. cbv zeta in Hspec.
  injection Hspec as Hst Hfields.
  assert (Hok : NT_SUCCESS (spec_status (fields_of m0) f (Z.of_nat (length (string_bytes s)))) = true)
    by by rewrite <- Hst.
  rewrite Hok in Hfields. apply spec_status_success in Hok as (_ & Hnone & _).
  destruct (msg_adds_fields _ _ Hwf1 Hsteps) as (Hwf2 & fs & Hf2).
  destruct (msg_get_unicode m2 f Hwf2) as (r & Hget & Hr). destruct (spec_get (fields_of m2) f KphMsgTypeUnicodeString) as [st found] eqn:Hspec.
  cbn [fst snd] in *. exists r. rewrite Hf2, Hfields, <- app_assoc in Hspec. unfold spec_get in Hspec.
  rewrite (fields_find_app _ _ _ Hnone) in Hspec. cbn [app fields_find field_id fst] in Hspec.
  rewrite Z.eqb_refl in Hspec. cbn [field_type fst snd] in Hspec. rewrite Z.eqb_refl in Hspec.
  cbn [negb fields_size field_bytes snd] in Hspec.
  assert (0 < Z.of_nat (length (string_bytes s))).
  { destruct Hs as [? ?]. unfold string_bytes. rewrite length_take. lia. }
  pose proof (fields_size_nonneg fs).
  replace (_ =? 0) with false in Hspec by lia. injection Hspec as <- <-. split; [done|]. destruct Hr as (_ & off & Hoff & _ & _ & _ & Hbytes). unfold string_contents. rewrite Hoff. cbn [mbind option_bind]. by rewrite Hbytes.
Qed.

(** every message reached from [KphMsgInit] by additions and clears is well formed: its
    header validates, its live entries tile the bytes from the end of the table to
    [Header.Size], which never exceeds the 4096-byte block, and no field occurs twice. *)
Theorem msg_reachable_wf mem now id m :
  message_memory mem -> valid_id id -> rtc msg_step (KphMsgInit mem now id) m -> msg_wf m.
Proof.
  intros Hmem Hid. assert (Hwf : msg_wf (KphMsgInit mem now id)) by by apply init_wf.
  revert Hwf. generalize (KphMsgInit mem now id). intros m0 Hwf Hsteps.
  induction Hsteps as [|m0 m1 m2 Hstep _ IH]; [done|]. apply IH.
  destruct Hstep as [m st m' Hadd|m]; [by eapply msg_add_fields|by apply clear_wf].
Qed.

(** [KphMsgDynClearLast], documented to remove the last entry, never does: on a message that
    has entries it changes nothing, and on a message without entries it indexes the table at
    255, out of bounds. *)
Theorem msg_clear_last_never_clears m :
  msg_wf m ->
  KphMsgDynClearLast m = if Dyn_Count m =? 0 then None else Some m.
Proof.
  intros Hwf. unfold KphMsgDynClearLast. destruct (Z.eqb_spec (Dyn_Count m) 0) as [->|]; [|done].
  cbn [negb]. change (u8 (0 - 1)) with 255. rewrite lookup_ge_None_2; [done|].
  rewrite (wf_entries m Hwf). unfold KPH_MESSAGE_ENTRIES. lia.
Qed.

(** the 16-bit truncation in [KphMsgDynAddStackTrace]: on a well-formed message with a free
    entry and an unused field id, a trace of 8192 frames or more whose byte count exceeds the
    buffer but not, truncated to 16 bits, the room left, is accepted, and the copy that follows
    runs past the message. *)
Theorem msg_stack_trace_overflow m f t :
  msg_wf m -> stack_ok t -> 8192 <= st_Count t ->
  NT_SUCCESS (spec_status (fields_of m) f (u16 (st_Count t * sizeof_PVOID))) = true ->
  KphMsgDynAddStackTrace m f t = None.
Proof.
  intros Hwf Ht Hbig Hst. rewrite (add_stack_overflow m f t Hwf Ht) by (unfold sizeof_PVOID; lia). cbv zeta. by rewrite Hst.
Qed.

(** ** Witnesses *)

Definition zero_memory : KPH_MESSAGE := {|
  Header_Version := 0; Header_Size := 0; Header_MessageId := 0; Header_TimeStamp := 0;
  Payload := replicate 240 0; Dyn_Count := 0; Dyn_Entries := [];
  Dyn_Buffer := replicate 3740 0;
|}.

Definition msg0 : KPH_MESSAGE := KphMsgInit zero_memory 7 KphMsgProcessCreate.
Definition hello : COUNTED_STRING := {| str_Length := 4; str_Buffer := [104; 0; 105; 0; 0; 0] |}.
Definition blob : KPHM_SIZED_BUFFER := {| sb_Size := 3; sb_Buffer := [1; 2; 3] |}.
Definition trace1 : KPHM_STACK_TRACE := {| st_Count := 1; st_Frames := replicate 8 9 |}.
Definition long_trace : KPHM_STACK_TRACE :=
  {| st_Count := 8192; st_Frames := replicate (Z.to_nat 65536) 0 |}.

Definition add_hello (m : KPH_MESSAGE) (f : Z) : KPH_MESSAGE :=
  match KphMsgDynAddUnicodeString m f hello with Some (m', _) => m' | None => m end.

Lemma process_create_valid : valid_id KphMsgProcessCreate.
Proof.
  right. unfold InvalidKphMsg, MaxKphMsg, KphMsgProcessCreate, MaxKphMsgClientAllowed. lia.
Qed.

Lemma msg0_wf : msg_wf msg0.
Proof. by apply init_wf; [|apply process_create_valid]. Qed.

Lemma hello_ok : string_ok hello.
Proof. split; simpl; lia. Qed.

Lemma msg_add_refines_witness :
  adds msg0 KphMsgFieldFileName KphMsgTypeUnicodeString [104; 0; 105; 0] (KphMsgDynAddUnicodeString msg0 KphMsgFieldFileName hello).
Proof.
  refine (proj1 (msg_add_refines msg0 KphMsgFieldFileName hello blob trace1 msg0_wf hello_ok _ _)).
  - split; simpl; lia.
  - split; simpl; unfold sizeof_PVOID; lia.
Defined.

(** A message with a trace of one frame. *)
Definition msg1 : KPH_MESSAGE := match KphMsgDynAddStackTrace msg0 KphMsgFieldStackTrace trace1 with Some (m, _) => m | None => msg0 end.
Lemma msg1_wf : msg_wf msg1 /\ spec_get (fields_of msg1) KphMsgFieldStackTrace KphMsgTypeStackTrace = (STATUS_SUCCESS, Some (replicate 8 9)).
Proof.
  destruct (add_stack_spec msg0 KphMsgFieldStackTrace trace1 msg0_wf) as (m & st & H & Hwf & _); [split; simpl; unfold sizeof_PVOID; lia|simpl; unfold sizeof_PVOID; lia|].
  unfold msg1. rewrite H. split; [exact Hwf|]. assert (E : m = msg1) by (unfold msg1; by rewrite H). rewrite E. vm_compute. reflexivity.
Qed.

Lemma msg_get_refines_witness :
  gets msg1 (STATUS_SUCCESS, Some (replicate 8 9)) null_trace stref_Frames (λ r, stref_Count r * sizeof_PVOID) (KphMsgDynGetStackTrace msg1 KphMsgFieldStackTrace).
Proof.
  destruct msg1_wf as [Hwf E]. pose proof (proj2 (proj2 (proj2 (msg_get_refines msg1 KphMsgFieldStackTrace Hwf)))) as H. rewrite E in H. exact H.
Defined.

Lemma msg_add_get_roundtrip_witness :
  exists r, KphMsgDynGetUnicodeString (add_hello (add_hello msg0 1) 2) 1 = Some (STATUS_SUCCESS, r) /\
    string_contents (add_hello (add_hello msg0 1) 2) r = Some [104; 0; 105; 0].
Proof.
  apply (msg_add_get_roundtrip msg0 1 hello (add_hello msg0 1)).
  - exact msg0_wf.
  - exact hello_ok.
  - reflexivity.
  - vm_compute. reflexivity.
  - apply rtc_once. exists STATUS_SUCCESS. apply (add_unicode _ 2 hello); [exact hello_ok|].
    vm_compute. reflexivity.
Defined.

Lemma msg_reachable_wf_witness : msg_wf (KphMsgDynClear (add_hello msg0 1)).
Proof.
  apply (msg_reachable_wf zero_memory 7 KphMsgProcessCreate).
  - reflexivity.
  - exact process_create_valid.
  - eapply rtc_l; [|apply rtc_once, step_clear].
    apply step_add with STATUS_SUCCESS. apply (add_unicode _ 1 hello); [exact hello_ok|].
    vm_compute. reflexivity.
Defined.

Lemma msg_clear_last_never_clears_witness :
  KphMsgDynClearLast msg0 = None /\ KphMsgDynClearLast (add_hello msg0 1) = Some (add_hello msg0 1).
Proof.
  split; [exact (msg_clear_last_never_clears msg0 msg0_wf)|].
  refine (msg_clear_last_never_clears (add_hello msg0 1) _).
  destruct (add_unicode_spec msg0 1 hello msg0_wf hello_ok) as (m' & st & H & Hwf & _).
  unfold add_hello. rewrite H. exact Hwf.
Defined.

Lemma msg_stack_trace_overflow_witness :
  KphMsgDynAddStackTrace msg0 KphMsgFieldStackTrace long_trace = None.
Proof.
  apply (msg_stack_trace_overflow msg0).
  - exact msg0_wf.
  - split; cbn [st_Count st_Frames long_trace]; unfold sizeof_PVOID; rewrite ?length_replicate; lia.
  - cbn [st_Count long_trace]; lia.
  - vm_compute. reflexivity.
Defined.

End KphMsg.
