(* ===== verification/FileStream.v ===== *)
(** * Buffered file streams: [phlib/filestream.c]

    A stream keeps one buffer in front of a file object, used either for data read ahead or for
    pending writes. The file object belongs to the operating system: [FileOps] is the interface
    the code calls, [FileLaws] the documented behaviour of a disk file, against which the
    refinement theorems are proved; [MemFile] is an instance. *)

From S2P Require Import Prelude.

(** ** The operating system's file object *)

Record IO_STATUS_BLOCK := { isb_Status : Z; isb_Information : Z }.

(** One operation per system call the source makes. A file object is threaded as a value of
    type [F]; the first component of a result is the returned status. *)
Class FileOps (F : Type) := {
  NtReadFile : F -> option Z -> Z -> Z * IO_STATUS_BLOCK * list Z * F;
  NtWriteFile : F -> option Z -> list Z -> Z * IO_STATUS_BLOCK * F;
  NtWaitForSingleObject : F -> Z;
  NtSetPositionInformation : F -> Z -> Z * F;
  NtQueryPositionInformation : F -> Z * Z;
  PhGetFileSize : F -> Z * Z;
  NtFlushBuffersFile : F -> Z * F;
  NtSetEndOfFileInformation : F -> Z -> Z * F;
  NtSetAllocationInformation : F -> Z -> Z * F;
  NtLockFile : F -> Z -> Z -> bool -> bool -> Z * IO_STATUS_BLOCK * F;
  NtUnlockFile : F -> Z -> Z -> Z * F;
  NtClose : F -> F;
  (** [PhAllocatePage]: NULL, or a block with whatever it contained. *)
  PhAllocatePage : Z -> option (list Z);
}.

(** The status an operation ends with: a pending one is waited for, and its final status read
    from the I/O status block. This is the code's own idiom around the three system calls. *)
Definition completed {F} `{FileOps F} (status : Z) (isb : IO_STATUS_BLOCK) (f : F) : Z :=
  if status =? STATUS_PENDING then
    let status := NtWaitForSingleObject f in
    if NT_SUCCESS status then isb_Status isb else status
  else status.

(** ** Disk files

    What the documentation promises of a file no other handle changes, when no request fails: a
    read returns the bytes at its position, as many as there are, and reports end-of-file when
    there are none; a write replaces or extends; without an explicit position both start at, and
    advance, the file object's own; pages can be allocated. Whether a request completes at once
    or is pending first is left open ([completed]). *)
Class FileLaws (F : Type) `{FileOps F} := {
  contents : F -> list Z;
  fpos : F -> Z;
  read_law : forall f pos len,
    0 <= len -> 0 <= default (fpos f) pos ->
    let p := default (fpos f) pos in
    let avail := read_at (contents f) (Z.to_nat p) (Z.to_nat len) in
    exists status isb data f', NtReadFile f pos len = (status, isb, data, f') /\
      contents f' = contents f /\
      (pos = None -> fpos f' = p + Z.of_nat (length avail)) /\ data = avail /\
      if decide (avail = [] /\ 0 < len) then completed status isb f' = STATUS_END_OF_FILE
      else completed status isb f' = STATUS_SUCCESS /\
           isb_Information isb = Z.of_nat (length avail);
  write_law : forall f pos bs,
    0 <= default (fpos f) pos ->
    let p := default (fpos f) pos in
    exists status isb f', NtWriteFile f pos bs = (status, isb, f') /\
      completed status isb f' = STATUS_SUCCESS /\ isb_Information isb = Z.of_nat (length bs) /\
      contents f' = pwrite (contents f) (Z.to_nat p) bs /\
      (pos = None -> fpos f' = p + Z.of_nat (length bs));
  set_position_law : forall f p,
    0 <= p -> exists f', NtSetPositionInformation f p = (STATUS_SUCCESS, f') /\
      contents f' = contents f /\ fpos f' = p;
  file_size_law : forall f, PhGetFileSize f = (STATUS_SUCCESS, Z.of_nat (length (contents f)));
  flush_law : forall f, exists f', NtFlushBuffersFile f = (STATUS_SUCCESS, f') /\
    contents f' = contents f /\ fpos f' = fpos f;
  allocate_law : forall n, 0 < n ->
    exists b, PhAllocatePage n = Some b /\ n <= Z.of_nat (length b);
}.

Module FileStream.

Definition PAGE_SIZE : Z := 0x1000.
Definition PH_FILE_STREAM_HANDLE_UNOWNED : Z := 0x1.
Definition PH_FILE_STREAM_UNBUFFERED : Z := 0x2.
Definition PH_FILE_STREAM_ASYNCHRONOUS : Z := 0x4.
Definition PH_FILE_STREAM_OWN_POSITION : Z := 0x8.
Definition PH_FILE_STREAM_APPEND : Z := 0x00010000.
Definition PH_FILE_STREAM_WRITTEN : Z := 0x80000000.

Definition has_flag (flags mask : Z) : bool := negb (Z.land flags mask =? 0).

Inductive PH_SEEK_ORIGIN := SeekStart | SeekCurrent | SeekEnd.

Section stream.
Context {F : Type} `{FileOps F}.

(** [FileHandle] stands for the file object the handle designates; positions are LARGE_INTEGERs,
    the other integers ULONGs. *)
Record PH_FILE_STREAM := {
  FileHandle : F;
  Flags : Z;
  Position : Z;
  Buffer : option (list Z);
  BufferLength : Z;
  ReadPosition : Z;
  ReadLength : Z;
  WritePosition : Z;
}.

Definition set_handle (s : PH_FILE_STREAM) (f : F) (position flags : Z) : PH_FILE_STREAM := {|
  FileHandle := f; Flags := flags; Position := position; Buffer := Buffer s;
  BufferLength := BufferLength s; ReadPosition := ReadPosition s; ReadLength := ReadLength s;
  WritePosition := WritePosition s |}.

Definition set_read (s : PH_FILE_STREAM) (readPosition readLength : Z) : PH_FILE_STREAM := {|
  FileHandle := FileHandle s; Flags := Flags s; Position := Position s; Buffer := Buffer s;
  BufferLength := BufferLength s; ReadPosition := readPosition; ReadLength := readLength;
  WritePosition := WritePosition s |}.

Definition set_write (s : PH_FILE_STREAM) (writePosition : Z) : PH_FILE_STREAM := {|
  FileHandle := FileHandle s; Flags := Flags s; Position := Position s; Buffer := Buffer s;
  BufferLength := BufferLength s; ReadPosition := ReadPosition s; ReadLength := ReadLength s;
  WritePosition := writePosition |}.

Definition set_buffer (s : PH_FILE_STREAM) (b : option (list Z)) : PH_FILE_STREAM := {|
  FileHandle := FileHandle s; Flags := Flags s; Position := Position s; Buffer := b;
  BufferLength := BufferLength s; ReadPosition := ReadPosition s; ReadLength := ReadLength s;
  WritePosition := WritePosition s |}.

(** ** Transfers to and from the file object *)

(** The stream, the status, the bytes placed in the caller's buffer, and [*ReadLength]. *)
Definition PhpReadFileStream (FileStream : PH_FILE_STREAM) (Length : Z)
    : PH_FILE_STREAM * Z * list Z * option Z :=
  let position :=
    if has_flag (Flags FileStream) PH_FILE_STREAM_OWN_POSITION then Some (Position FileStream)
    else None in
  let '(status, isb, data, f) := NtReadFile (FileHandle FileStream) position Length in
  let status := completed status isb f in
  if NT_SUCCESS status then
    (set_handle FileStream f (Position FileStream + isb_Information isb) (Flags FileStream),
     status, data, Some (u32 (isb_Information isb)))
  else (set_handle FileStream f (Position FileStream) (Flags FileStream), status, data, None).

Definition PhpWriteFileStream (FileStream : PH_FILE_STREAM) (bytes : list Z) : PH_FILE_STREAM * Z :=
  let position :=
    if has_flag (Flags FileStream) PH_FILE_STREAM_OWN_POSITION then Some (Position FileStream)
    else None in
  let '(status, isb, f) := NtWriteFile (FileHandle FileStream) position bytes in
  let status := completed status isb f in
  if NT_SUCCESS status then
    (set_handle FileStream f (Position FileStream + isb_Information isb)
       (Z.lor (Flags FileStream) PH_FILE_STREAM_WRITTEN), status)
  else (set_handle FileStream f (Position FileStream) (Flags FileStream), status).

Definition PhpAllocateBufferFileStream (FileStream : PH_FILE_STREAM) : PH_FILE_STREAM * Z :=
  let b := PhAllocatePage (BufferLength FileStream) in
  (set_buffer FileStream b, match b with Some _ => STATUS_SUCCESS | None => STATUS_NO_MEMORY end).

Definition PhpSeekFileStream (FileStream : PH_FILE_STREAM) (Offset : Z) (Origin : PH_SEEK_ORIGIN)
    : PH_FILE_STREAM * Z :=
  let set_pos p := set_handle FileStream (FileHandle FileStream) p (Flags FileStream) in
  let '(s, status) :=
    match Origin with
    | SeekStart => (set_pos Offset, STATUS_SUCCESS)
    | SeekCurrent => (set_pos (Position FileStream + Offset), STATUS_SUCCESS)
    | SeekEnd =>
        let '(status, size) := PhGetFileSize (FileHandle FileStream) in
        if negb (NT_SUCCESS status) then (FileStream, status) else (set_pos (size + Offset), status)
    end in
  if negb (NT_SUCCESS status) then (s, status)
  else if negb (has_flag (Flags s) PH_FILE_STREAM_OWN_POSITION) then
    let '(status, f) := NtSetPositionInformation (FileHandle s) (Position s) in
    (set_handle s f (Position s) (Flags s), status)
  else (s, status).

(** ** Flushing the buffer *)

Definition PhpFlushReadFileStream (FileStream : PH_FILE_STREAM) : PH_FILE_STREAM * Z :=
  let remaining := ReadLength FileStream -₃₂ ReadPosition FileStream in
  let '(s, status) :=
    if negb (remaining =? 0) then
      PhpSeekFileStream FileStream (- signed 32 remaining) SeekCurrent
    else (FileStream, STATUS_SUCCESS) in
  if negb (NT_SUCCESS status) then (s, status) else (set_read s 0 0, status).

Definition PhpFlushWriteFileStream (FileStream : PH_FILE_STREAM) : ub (PH_FILE_STREAM * Z) :=
  b ← Buffer FileStream;
  bytes ← load_block b 0 (Z.to_nat (WritePosition FileStream));
  let '(s, status) := PhpWriteFileStream FileStream bytes in
  if negb (NT_SUCCESS status) then Some (s, status) else Some (set_write s 0, status).

Definition PhFlushFileStream (FileStream : PH_FILE_STREAM) (Full : bool) : ub (PH_FILE_STREAM * Z) :=
  '(s, status) ←
    (if negb (WritePosition FileStream =? 0) then PhpFlushWriteFileStream FileStream
     else Some (FileStream, STATUS_SUCCESS));
  if negb (NT_SUCCESS status) then Some (s, status)
  else
    let '(s, status) :=
      if negb (ReadPosition s =? 0) then PhpFlushReadFileStream s else (s, status) in
    if negb (NT_SUCCESS status) then Some (s, status)
    else if Full && has_flag (Flags s) PH_FILE_STREAM_WRITTEN then
      let '(status, f) := NtFlushBuffersFile (FileHandle s) in
      Some (set_handle s f (Position s) (Flags s), status)
    else Some (s, status).

(** ** Reading and writing *)

(** A read with nothing left in the buffer and no pending writes: a large one is passed through
    and ends the call ([inl]); otherwise the buffer is filled, and either the call ends here or
    the number of unread bytes is known ([inr]). *)
Definition read_refill (FileStream : PH_FILE_STREAM) (Length : Z)
    : ub ((PH_FILE_STREAM * Z * list Z * option Z) + (PH_FILE_STREAM * Z * Z)) :=
  if BufferLength FileStream <=? Length then
    Some (inl (PhpReadFileStream (set_read FileStream 0 0) Length))
  else
    let '(s, status) :=
      match Buffer FileStream with
      | None => PhpAllocateBufferFileStream FileStream
      | Some _ => (FileStream, STATUS_SUCCESS)
      end in
    if negb (NT_SUCCESS status) then Some (inl (s, status, [], None))
    else
      let '(s, status, data, readLength) := PhpReadFileStream s (BufferLength s) in
      b ← Buffer s;
      b ← store_block b 0 data;
      let s := set_buffer s (Some b) in
      if negb (NT_SUCCESS status) then Some (inl (s, status, [], None))
      else
        n ← readLength;
        if n =? 0 then Some (inl (s, status, [], Some n))
        else Some (inr (set_read s 0 n, status, n)).

(** The first half of a buffered read. *)
Definition read_fill (FileStream : PH_FILE_STREAM) (Length : Z)
    : ub ((PH_FILE_STREAM * Z * list Z * option Z) + (PH_FILE_STREAM * Z * Z)) :=
  let availableLength := ReadLength FileStream -₃₂ ReadPosition FileStream in
  if availableLength =? 0 then
    '(s, status) ←
      (if negb (WritePosition FileStream =? 0) then PhpFlushWriteFileStream FileStream
       else Some (FileStream, STATUS_SUCCESS));
    if negb (NT_SUCCESS status) then Some (inl (s, status, [], None))
    else read_refill s Length
  else Some (inr (FileStream, STATUS_SUCCESS, availableLength)).

(** The second half: satisfy the request from the buffer, then from the file object if the last
    fill filled it. *)
Definition read_take (s : PH_FILE_STREAM) (status available Length : Z)
    : ub (PH_FILE_STREAM * Z * list Z * option Z) :=
  let readLength := if Length <? available then Length else available in
  b ← Buffer s;
  bytes ← load_block b (Z.to_nat (ReadPosition s)) (Z.to_nat readLength);
  let s := set_read s (ReadPosition s +₃₂ readLength) (ReadLength s) in
  if (readLength <? Length) && (ReadLength s =? BufferLength s) then
    let '(s, status, data, readLength2) := PhpReadFileStream s (Length -₃₂ readLength) in
    if NT_SUCCESS status then
      n ← readLength2;
      Some (set_read s 0 0, status, bytes ++ data, Some (readLength +₃₂ n))
    else Some (s, status, bytes ++ data, None)
  else Some (s, status, bytes, Some readLength).

Definition PhReadFileStream (FileStream : PH_FILE_STREAM) (Length : Z)
    : ub (PH_FILE_STREAM * Z * list Z * option Z) :=
  if has_flag (Flags FileStream) PH_FILE_STREAM_UNBUFFERED then
    Some (PhpReadFileStream FileStream Length)
  else
    fill ← read_fill FileStream Length;
    match fill with
    | inl result => Some result
    | inr (s, status, available) => read_take s status available Length
    end.

(** The tail of a buffered write: pass a large remainder through, keep a small one. *)
Definition write_rest (s : PH_FILE_STREAM) (status : Z) (bytes : list Z) : ub (PH_FILE_STREAM * Z) :=
  let Length := Z.of_nat (length bytes) in
  if BufferLength s <=? Length then
    let '(s, status) := PhpWriteFileStream s bytes in Some (s, status)
  else if negb (Length =? 0) then
    let '(s, status) :=
      match Buffer s with None => PhpAllocateBufferFileStream s | Some _ => (s, status) end in
    if negb (NT_SUCCESS status) then Some (s, status)
    else
      b ← Buffer s;
      b ← store_block b 0 bytes;
      Some (set_write (set_buffer s (Some b)) Length, status)
  else Some (s, status).

Definition PhWriteFileStream (FileStream : PH_FILE_STREAM) (bytes : list Z) : ub (PH_FILE_STREAM * Z) :=
  if has_flag (Flags FileStream) PH_FILE_STREAM_UNBUFFERED then
    Some (PhpWriteFileStream FileStream bytes)
  else
    let '(s, status) :=
      if WritePosition FileStream =? 0 then PhpFlushReadFileStream FileStream
      else (FileStream, STATUS_SUCCESS) in
    if negb (NT_SUCCESS status) then Some (s, status)
    else if negb (WritePosition s =? 0) then
      let availableLength := BufferLength s -₃₂ WritePosition s in
      let Length := Z.of_nat (length bytes) in
      let writtenLength :=
        if negb (availableLength =? 0) then
          if Length <? availableLength then Length else availableLength
        else 0 in
      s ← (if negb (availableLength =? 0) then
             b ← Buffer s;
             b ← store_block b (Z.to_nat (WritePosition s)) (take (Z.to_nat writtenLength) bytes);
             Some (set_write (set_buffer s (Some b)) (WritePosition s +₃₂ writtenLength))
           else Some s);
      if negb (availableLength =? 0) && (writtenLength =? Length) then Some (s, status)
      else
        let rest := drop (Z.to_nat writtenLength) bytes in
        b ← Buffer s;
        pending ← load_block b 0 (Z.to_nat (WritePosition s));
        let '(s, status) := PhpWriteFileStream s pending in
        if negb (NT_SUCCESS status) then Some (s, status)
        else write_rest (set_write s 0) status rest
    else write_rest s status bytes.

(** ** Position *)

(** The parenthesised difference is a ULONG: it wraps at 32 bits before it is widened. *)
Definition PhGetPositionFileStream (FileStream : PH_FILE_STREAM) : Z :=
  Position FileStream + (ReadPosition FileStream -₃₂ ReadLength FileStream)
    + WritePosition FileStream.

Definition PhSeekFileStream (FileStream : PH_FILE_STREAM) (Offset : Z) (Origin : PH_SEEK_ORIGIN)
    : ub (PH_FILE_STREAM * Z) :=
  if negb (WritePosition FileStream =? 0) then
    '(s, status) ← PhpFlushWriteFileStream FileStream;
    if negb (NT_SUCCESS status) then Some (s, status)
    else Some (PhpSeekFileStream s Offset Origin)
  else if negb (ReadPosition FileStream =? 0) then
    let offset :=
      match Origin with
      | SeekCurrent => Offset - (ReadLength FileStream -₃₂ ReadPosition FileStream)
      | _ => Offset
      end in
    Some (PhpSeekFileStream (set_read FileStream 0 0) offset Origin)
  else Some (PhpSeekFileStream FileStream Offset Origin).

(** [true] when the function raises. *)
Definition PhVerifyFileStream (FileStream : PH_FILE_STREAM) : option Z :=
  if negb (has_flag (Flags FileStream)
             (Z.lor PH_FILE_STREAM_OWN_POSITION PH_FILE_STREAM_ASYNCHRONOUS)) then
    let '(status, CurrentByteOffset) := NtQueryPositionInformation (FileHandle FileStream) in
    if negb (NT_SUCCESS status) then Some status
    else if negb (Position FileStream =? CurrentByteOffset) then Some STATUS_INTERNAL_ERROR
    else None
  else None.

(** ** Pass-through operations *)

Definition PhLockFileStream (FileStream : PH_FILE_STREAM) (Pos Length : Z) (Wait Shared : bool)
    : PH_FILE_STREAM * Z :=
  let '(status, isb, f) := NtLockFile (FileHandle FileStream) Pos Length (negb Wait) (negb Shared) in
  (set_handle FileStream f (Position FileStream) (Flags FileStream),
   if status =? STATUS_PENDING then isb_Status isb else status).

Definition PhUnlockFileStream (FileStream : PH_FILE_STREAM) (Pos Length : Z) : PH_FILE_STREAM * Z :=
  let '(status, f) := NtUnlockFile (FileHandle FileStream) Pos Length in
  (set_handle FileStream f (Position FileStream) (Flags FileStream), status).

Definition PhSetAllocationSizeFileStream (FileStream : PH_FILE_STREAM) (AllocationSize : Z)
    : PH_FILE_STREAM * Z :=
  let '(status, f) := NtSetEndOfFileInformation (FileHandle FileStream) AllocationSize in
  let s := set_handle FileStream f (Position FileStream) (Flags FileStream) in
  if negb (NT_SUCCESS status) then (s, status)
  else
    let '(status, f) := NtSetAllocationInformation (FileHandle s) AllocationSize in
    (set_handle s f (Position s) (Flags s), status).

(** ** Creation and deletion *)

Definition PhCreateFileStream2 (f : F) (flags bufferLength : Z) : PH_FILE_STREAM * Z :=
  ({| FileHandle := f; Flags := flags; Position := 0; Buffer := None;
      BufferLength := if negb (has_flag flags PH_FILE_STREAM_UNBUFFERED) then bufferLength else 0;
      ReadPosition := 0; ReadLength := 0; WritePosition := 0 |}, STATUS_SUCCESS).

(** The file object after the stream object has been deleted. *)
Definition PhpFileStreamDeleteProcedure (FileStream : PH_FILE_STREAM) : ub F :=
  '(s, _) ← PhFlushFileStream FileStream false;
  Some (if negb (has_flag (Flags s) PH_FILE_STREAM_HANDLE_UNOWNED) then NtClose (FileHandle s)
        else FileHandle s).

(** [opened] is the result of [PhCreateFileWin32]. The result is the status and the stream stored
    in [*FileStream], if one is stored. *)
Definition PhCreateFileStream (opened : Z * F) (flags : Z) : ub (Z * option PH_FILE_STREAM) :=
  let '(status, f) := opened in
  if negb (NT_SUCCESS status) then Some (status, None)
  else
    let '(s, status) := PhCreateFileStream2 f flags PAGE_SIZE in
    if negb (NT_SUCCESS status) then Some (status, None)
    else if has_flag flags PH_FILE_STREAM_APPEND then
      '(s, seekStatus) ← PhSeekFileStream s 0 SeekEnd;
      if negb (NT_SUCCESS seekStatus) then
        _ ← PhpFileStreamDeleteProcedure s;
        Some (status, None)
      else Some (status, Some s)
    else Some (status, Some s).

End stream.
Arguments PH_FILE_STREAM F : clear implicits.

(** ** Refinement: a buffered stream is a file with a position *)

Section refinement.
Context {F : Type} `{FileLaws F}.
Implicit Types (s : PH_FILE_STREAM F) (f : F).

(** The stream's idea of the file position agrees with the file object's, where it matters. *)
Definition in_sync s : Prop :=
  has_flag (Flags s) PH_FILE_STREAM_OWN_POSITION = true \/ fpos (FileHandle s) = Position s.

Definition file_of s : list Z := contents (FileHandle s).

(** The first [n] bytes of the buffer. *)
Definition buffered s (n : Z) : list Z :=
  match Buffer s with Some b => read_at b 0 (Z.to_nat n) | None => [] end.

Lemma buffered_0 s : buffered s 0 = [].
Proof. unfold buffered. by destruct (Buffer s). Qed.

(** [stream_rel s c p]: seen through [s] there is a file of contents [c], positioned at [p]. *)
Record stream_rel s (c : list Z) (p : Z) : Prop := {
  rel_mode : has_flag (Flags s) PH_FILE_STREAM_UNBUFFERED = false;
  rel_sync : in_sync s;
  rel_length : 0 < BufferLength s < 2 ^ 31;
  rel_buffer : match Buffer s with
               | Some b => BufferLength s <= Z.of_nat (length b)
               | None => ReadLength s = 0 /\ WritePosition s = 0
               end;
  rel_read : 0 <= ReadPosition s <= ReadLength s /\ ReadLength s <= BufferLength s;
  rel_write : 0 <= WritePosition s <= BufferLength s;
  rel_one : WritePosition s = 0 \/ ReadLength s = 0;
  rel_base : ReadLength s <= Position s;
  rel_position : p = Position s - (ReadLength s - ReadPosition s) + WritePosition s;
  rel_contents : c = pwrite (file_of s) (Z.to_nat (Position s)) (buffered s (WritePosition s));
  rel_ahead : ReadLength s <> 0 ->
    buffered s (ReadLength s) =
      read_at (file_of s) (Z.to_nat (Position s - ReadLength s)) (Z.to_nat (ReadLength s)) /\
    Position s <= Z.of_nat (length (file_of s)) /\
    (ReadLength s < BufferLength s -> Position s = Z.of_nat (length (file_of s)));
}.

(** No read-ahead is left untouched in the buffer. *)
Definition settled s : Prop := ReadPosition s = 0 -> ReadLength s = 0.

Lemma has_flag_lor_written flags mask :
  Z.land PH_FILE_STREAM_WRITTEN mask = 0 ->
  has_flag (Z.lor flags PH_FILE_STREAM_WRITTEN) mask = has_flag flags mask.
Proof. intros Hm. unfold has_flag. by rewrite Z.land_lor_distr_l, Hm, Z.lor_0_r. Qed.

Lemma position_argument s :
  in_sync s ->
  default (fpos (FileHandle s))
    (if has_flag (Flags s) PH_FILE_STREAM_OWN_POSITION then Some (Position s) else None) = Position s.
Proof. intros [->|Hf]; [done|]. by destruct (has_flag _ _). Qed.

(** A raw read in a synchronized stream. *)
Lemma raw_read s len :
  in_sync s -> 0 <= Position s -> 0 <= len < 2 ^ 32 ->
  let avail := read_at (file_of s) (Z.to_nat (Position s)) (Z.to_nat len) in
  exists f', contents f' = file_of s /\
    let s' := set_handle s f' (Position s + Z.of_nat (length avail)) (Flags s) in
    in_sync s' /\
    PhpReadFileStream s len =
      if decide (avail = [] /\ 0 < len) then (s', STATUS_END_OF_FILE, avail, None)
      else (s', STATUS_SUCCESS, avail, Some (Z.of_nat (length avail))).
Proof.
  intros Hsync Hpos Hlen avail. unfold PhpReadFileStream. cbv zeta.
  pose proof (position_argument s Hsync) as Harg.
  set (pos := if has_flag _ _ then _ else _) in *.
  destruct (read_law (FileHandle s) pos len) as (status & isb & data & f' & -> & Hc & Hf & -> & Hres);
    [lia|by rewrite Harg|].
  rewrite Harg in *. change (contents (FileHandle s)) with (file_of s) in *. fold avail in Hres, Hf |- *.
  exists f'. split; [done|].
  assert (length avail <= Z.to_nat len)%nat.
  { unfold avail, read_at. rewrite length_take. lia. }
  split.
  { destruct (has_flag (Flags s) PH_FILE_STREAM_OWN_POSITION) eqn:Hown; [by left|].
    right. simpl. by rewrite Hf. }
  case_decide as Hd.
  - rewrite Hres. destruct Hd as [Hd _]. rewrite Hd. change (Z.of_nat (length [])) with 0.
    by rewrite Z.add_0_r.
  - destruct Hres as [-> ->]. cbn. width. done.
Qed.

(** A raw write in a synchronized stream. *)
Lemma raw_write s bs :
  in_sync s -> 0 <= Position s ->
  exists f', contents f' = pwrite (file_of s) (Z.to_nat (Position s)) bs /\
    let s' := set_handle s f' (Position s + Z.of_nat (length bs))
                (Z.lor (Flags s) PH_FILE_STREAM_WRITTEN) in
    in_sync s' /\ PhpWriteFileStream s bs = (s', STATUS_SUCCESS).
Proof.
  intros Hsync Hpos. unfold PhpWriteFileStream. cbv zeta.
  pose proof (position_argument s Hsync) as Harg.
  set (pos := if has_flag _ _ then _ else _) in *.
  destruct (write_law (FileHandle s) pos bs) as (status & isb & f' & -> & -> & -> & Hc & Hf);
    [by rewrite Harg|]. rewrite Harg in *. exists f'. split; [done|]. split; [|done].
  unfold in_sync. simpl. rewrite has_flag_lor_written by done.
  destruct (has_flag (Flags s) PH_FILE_STREAM_OWN_POSITION) eqn:Hown; [by left|].
  right. by apply Hf.
Qed.

(** A raw seek to a non-negative position. *)
Definition seek_target (c : list Z) (p : Z) (Offset : Z) (Origin : PH_SEEK_ORIGIN) : Z :=
  match Origin with
  | SeekStart => Offset
  | SeekCurrent => p + Offset
  | SeekEnd => Z.of_nat (length c) + Offset
  end.

Lemma raw_seek s Offset Origin :
  0 <= seek_target (file_of s) (Position s) Offset Origin ->
  exists f', contents f' = file_of s /\
    let s' := set_handle s f' (seek_target (file_of s) (Position s) Offset Origin) (Flags s) in
    in_sync s' /\ PhpSeekFileStream s Offset Origin = (s', STATUS_SUCCESS).
Proof.
  intros Hp. unfold PhpSeekFileStream. cbv zeta. rewrite file_size_law.
  set (p := seek_target _ _ _ _) in *.
  assert (E : (match Origin with
    | SeekStart => (set_handle s (FileHandle s) Offset (Flags s), STATUS_SUCCESS)
    | SeekCurrent => (set_handle s (FileHandle s) (Position s + Offset) (Flags s), STATUS_SUCCESS)
    | SeekEnd => if negb (NT_SUCCESS STATUS_SUCCESS) then (s, STATUS_SUCCESS)
        else (set_handle s (FileHandle s) (Z.of_nat (length (contents (FileHandle s))) + Offset)
                (Flags s), STATUS_SUCCESS)
    end) = (set_handle s (FileHandle s) p (Flags s), STATUS_SUCCESS)) by by destruct Origin.
  rewrite E. cbn. destruct (has_flag (Flags s) PH_FILE_STREAM_OWN_POSITION) eqn:Hown; cbn.
  - exists (FileHandle s). split; [done|]. split; [by left|done].
  - destruct (set_position_law (FileHandle s) p Hp) as (f' & -> & Hc & Hf).
    exists f'. split; [done|]. split; [by right|done].
Qed.

(** A stream with an empty buffer. *)
Record clean s : Prop := {
  clean_mode : has_flag (Flags s) PH_FILE_STREAM_UNBUFFERED = false;
  clean_sync : in_sync s;
  clean_length : 0 < BufferLength s < 2 ^ 31;
  clean_buffer : match Buffer s with
                 | Some b => BufferLength s <= Z.of_nat (length b) | None => True end;
  clean_read : ReadPosition s = 0 /\ ReadLength s = 0;
  clean_write : WritePosition s = 0;
  clean_base : 0 <= Position s;
}.

Lemma clean_rel s : clean s -> stream_rel s (file_of s) (Position s).
Proof.
  intros [? ? ? Hb [Hr1 Hr2] Hw ?].
  split; rewrite ?Hr1, ?Hr2, ?Hw; try done; try lia.
  - by destruct (Buffer s).
  - by rewrite buffered_0.
Qed.

Lemma length_buffered s b n :
  Buffer s = Some b -> 0 <= n -> n <= Z.of_nat (length b) ->
  Z.of_nat (length (buffered s n)) = n.
Proof. intros Hb ??. unfold buffered. rewrite Hb, length_read_at; lia. Qed.

Lemma rel_has_buffer s c p :
  stream_rel s c p -> WritePosition s <> 0 \/ ReadLength s <> 0 ->
  exists b, Buffer s = Some b /\ BufferLength s <= Z.of_nat (length b).
Proof. intros [] Hne. destruct (Buffer s) as [b|]; [by exists b|lia]. Qed.

(** Writing [n] buffered bytes out leaves a clean stream. *)
Lemma write_out s n b :
  has_flag (Flags s) PH_FILE_STREAM_UNBUFFERED = false -> in_sync s -> 0 < BufferLength s < 2 ^ 31 ->
  Buffer s = Some b -> BufferLength s <= Z.of_nat (length b) -> 0 <= n <= BufferLength s ->
  ReadLength s = 0 -> ReadPosition s = 0 -> 0 <= Position s ->
  exists s', PhpWriteFileStream s (read_at b 0 (Z.to_nat n)) = (s', STATUS_SUCCESS) /\
    clean (set_write s' 0) /\ file_of s' = pwrite (file_of s) (Z.to_nat (Position s)) (buffered s n) /\
    Position s' = Position s + n.
Proof.
  intros Hmode Hsync Hlen Hb Hbl Hn Hrl Hrp Hpos.
  destruct (raw_write s (read_at b 0 (Z.to_nat n)) Hsync Hpos) as (f' & Hc & Hs' & Hw). cbv zeta in *.
  rewrite length_read_at in Hw, Hs' by lia. rewrite Z2Nat.id in Hw, Hs' by lia.
  eexists. split; [exact Hw|]. split; [|split; [|done]].
  - split; try done; simpl; [by rewrite has_flag_lor_written|by rewrite Hb|lia].
  - unfold file_of at 1. simpl. rewrite Hc. unfold buffered. by rewrite Hb.
Qed.

Lemma flush_write s c p :
  stream_rel s c p -> WritePosition s <> 0 ->
  exists s', PhpFlushWriteFileStream s = Some (s', STATUS_SUCCESS) /\
    clean s' /\ file_of s' = c /\ Position s' = p.
Proof.
  intros Hrel Hw. destruct (rel_has_buffer s c p Hrel ltac:(auto)) as (b & Hb & Hbl).
  destruct Hrel as [? ? ? ? ? ? [?|Hrl] ? -> -> _]; [lia|].
  unfold PhpFlushWriteFileStream. rewrite Hb. cbn [mbind option_bind].
  rewrite load_block_Some by lia. cbn [mbind option_bind].
  destruct (write_out s (WritePosition s) b) as (s' & -> & Hcl & Hf & Hp); try done; try lia.
  cbn. exists (set_write s' 0). split; [done|]. split; [done|]. split; [done|].
  change (Position (set_write s' 0)) with (Position s'). rewrite Hp. lia.
Qed.

Lemma flush_read s c p :
  stream_rel s c p -> WritePosition s = 0 ->
  exists s', PhpFlushReadFileStream s = (s', STATUS_SUCCESS) /\
    clean s' /\ file_of s' = c /\ Position s' = p.
Proof.
  intros [Hm Hsy ? Hb ? ? _ ? -> -> _] Hw. rewrite Hw.
  rewrite buffered_0.
  unfold PhpFlushReadFileStream. cbv zeta. width.
  destruct (Z.eqb_spec (ReadLength s - ReadPosition s) 0) as [Hz|Hz]; cbn [negb].
  - cbn. eexists. split; [done|]. split; [|split; [done|simpl; lia]].
    split; try done; simpl; [by destruct (Buffer s)|lia].
  - rewrite signed_id by lia.
    destruct (raw_seek s (- (ReadLength s - ReadPosition s)) SeekCurrent) as (f' & Hc & Hs' & ->);
      [simpl; lia|]. cbn.
    eexists. split; [done|]. split; [|split; [done|simpl; lia]].
    split; try done; simpl; [by destruct (Buffer s)|lia].
Qed.

(** The buffer is allocated on first use. *)
Lemma ensure_buffer s :
  0 < BufferLength s ->
  match Buffer s with Some b => BufferLength s <= Z.of_nat (length b) | None => True end ->
  exists b, match Buffer s with None => PhpAllocateBufferFileStream s
            | Some _ => (s, STATUS_SUCCESS) end = (set_buffer s (Some b), STATUS_SUCCESS) /\
    BufferLength s <= Z.of_nat (length b) /\ (Buffer s = None \/ Buffer s = Some b).
Proof.
  intros HBL Hb. destruct (Buffer s) as [b|] eqn:Hbs.
  - exists b. split; [|auto]. f_equal. destruct s; simpl in *; by subst.
  - destruct (allocate_law (BufferLength s) HBL) as (b & Hab & Hbl).
    exists b. split; [|auto]. unfold PhpAllocateBufferFileStream. by rewrite Hab.
Qed.

Lemma write_rest_refines s bytes :
  clean s -> Z.of_nat (length bytes) < 2 ^ 32 ->
  exists s', write_rest s STATUS_SUCCESS bytes = Some (s', STATUS_SUCCESS) /\
    stream_rel s' (pwrite (file_of s) (Z.to_nat (Position s)) bytes)
      (Position s + Z.of_nat (length bytes)) /\ settled s'.
Proof.
  intros Hcl Hlen. unfold write_rest. cbv zeta. pose proof Hcl as [? ? ? Hb [Hr1 Hr2] Hw ?].
  destruct (Z.leb_spec (BufferLength s) (Z.of_nat (length bytes))) as [Hbig|Hsmall].
  - destruct (raw_write s bytes) as (f' & Hc & Hs' & ->); [done|done|].
    eexists. split; [done|]. cbv zeta in *.
    set (s' := set_handle _ _ _ _) in *.
    assert (Hcl' : clean s').
    { split; try done; simpl; [by rewrite has_flag_lor_written|lia]. }
    split; [|by intros _].
    apply clean_rel in Hcl'. unfold file_of at 1 in Hcl'. simpl in Hcl'. by rewrite Hc in Hcl'.
  - destruct (Z.eqb_spec (Z.of_nat (length bytes)) 0) as [Hz|Hz]; cbn [negb].
    { assert (bytes = []) as -> by (destruct bytes; simpl in *; [done|lia]).
      exists s. split; [done|]. simpl. rewrite Z.add_0_r. split; [by apply clean_rel|by intros _]. }
    destruct (ensure_buffer s) as (b1 & -> & Hbl & _); [lia|by destruct (Buffer s)|].
    cbn. rewrite store_block_Some by (simpl; lia). cbn.
    eexists. split; [done|]. split; [|by intros _]. split; simpl; rewrite ?Hr1, ?Hr2; try done; try lia.
    + rewrite length_write_at; simpl; lia.
    + unfold file_of, buffered. simpl. f_equal.
      rewrite read_write_same; simpl; try lia; done.
Qed.

(** Appending to the pending writes in the buffer. *)
Lemma buffered_append s b n bytes :
  Buffer s = Some b -> 0 <= n -> n + Z.of_nat (length bytes) <= Z.of_nat (length b) ->
  read_at (write_at b (Z.to_nat n) bytes) 0 (Z.to_nat (n + Z.of_nat (length bytes))) =
  buffered s n ++ bytes.
Proof.
  intros Hb ??. rewrite Z2Nat.inj_add, Nat2Z.id by lia. rewrite <- read_at_app, Nat.add_0_l.
  unfold buffered. rewrite Hb. f_equal; [apply read_write_before|apply read_write_same]; lia.
Qed.

Lemma pwrite_then c p a b :
  0 <= p ->
  pwrite (pwrite c (Z.to_nat p) a) (Z.to_nat (p + Z.of_nat (length a))) b =
  pwrite c (Z.to_nat p) (a ++ b).
Proof. intros. rewrite Z2Nat.inj_add, Nat2Z.id by lia. apply pwrite_app. Qed.

Lemma append_pending s c p b bytes :
  stream_rel s c p -> WritePosition s <> 0 -> Buffer s = Some b ->
  WritePosition s + Z.of_nat (length bytes) <= BufferLength s ->
  stream_rel
    (set_write (set_buffer s (Some (write_at b (Z.to_nat (WritePosition s)) bytes)))
       (WritePosition s + Z.of_nat (length bytes)))
    (pwrite c (Z.to_nat p) bytes) (p + Z.of_nat (length bytes)).
Proof.
  intros [? ? ? Hbuf ? ? [?|Hrl] ? -> -> _] Hw Hb Hfit; [lia|]. rewrite Hb in Hbuf.
  assert (Hp : Position s - (ReadLength s - ReadPosition s) + WritePosition s =
    Position s + Z.of_nat (length (buffered s (WritePosition s)))).
  { rewrite (length_buffered s b) by (done || lia). lia. }
  split; simpl; try done; try lia.
  - rewrite length_write_at; lia.
  - rewrite Hp, pwrite_then by lia. unfold file_of. f_equal. unfold buffered at 2. simpl.
    symmetry. apply buffered_append; (done || lia).
Qed.

(** The middle of a buffered write: the full buffer goes out, then the remainder. *)
Lemma flush_then_rest s c p b rest :
  stream_rel s c p -> WritePosition s <> 0 -> Buffer s = Some b -> Z.of_nat (length rest) < 2 ^ 32 ->
  exists s',
    (pending ← load_block b 0 (Z.to_nat (WritePosition s));
     let '(s, status) := PhpWriteFileStream s pending in
     if negb (NT_SUCCESS status) then Some (s, status)
     else write_rest (set_write s 0) status rest) = Some (s', STATUS_SUCCESS) /\
    stream_rel s' (pwrite c (Z.to_nat p) rest) (p + Z.of_nat (length rest)) /\ settled s'.
Proof.
  intros Hrel Hw Hb Hlen. destruct (rel_has_buffer s c p Hrel ltac:(auto)) as (b' & Hb' & Hbl).
  rewrite Hb in Hb'. simplify_eq.
  destruct Hrel as [? ? ? ? ? ? [?|Hrl] ? -> -> _]; [lia|].
  rewrite load_block_Some by lia. cbn [mbind option_bind].
  destruct (write_out s (WritePosition s) b') as (s1 & -> & Hcl & Hf & Hp); try done; try lia.
  cbn [negb NT_SUCCESS STATUS_SUCCESS Z.ltb Z.compare].
  destruct (write_rest_refines (set_write s1 0) rest Hcl Hlen) as (s' & -> & Hrel' & Hset).
  exists s'. split; [done|]. split; [|done].
  change (file_of (set_write s1 0)) with (file_of s1) in Hrel'.
  change (Position (set_write s1 0)) with (Position s1) in Hrel'. rewrite Hf, Hp in Hrel'.
  replace (Position s - (ReadLength s - ReadPosition s) + WritePosition s)
    with (Position s + WritePosition s) by lia. done.
Qed.

Lemma write_refines s c p bytes :
  stream_rel s c p -> Z.of_nat (length bytes) < 2 ^ 32 ->
  exists s', PhWriteFileStream s bytes = Some (s', STATUS_SUCCESS) /\
    stream_rel s' (pwrite c (Z.to_nat p) bytes) (p + Z.of_nat (length bytes)) /\ settled s'.
Proof.
  intros Hrel Hlen. unfold PhWriteFileStream. rewrite (rel_mode s c p Hrel).
  destruct (Z.eqb_spec (WritePosition s) 0) as [Hz|Hw].
  { destruct (flush_read s c p Hrel Hz) as (s1 & -> & Hcl & <- & <-).
    cbn [negb NT_SUCCESS STATUS_SUCCESS Z.ltb Z.compare].
    rewrite (clean_write s1 Hcl). cbn [negb Z.eqb]. by apply write_rest_refines. }
  cbn [negb NT_SUCCESS STATUS_SUCCESS Z.ltb Z.compare].
  destruct (Z.eqb_spec (WritePosition s) 0) as [?|_]; [done|]. cbn [negb]. cbv zeta.
  destruct (rel_has_buffer s c p Hrel ltac:(auto)) as (b & Hb & Hbl).
  pose proof (rel_write s c p Hrel). pose proof (rel_length s c p Hrel). width.
  rewrite Hb. destruct (Z.eqb_spec (BufferLength s - WritePosition s) 0) as [Hfull|Hroom]; cbn [negb andb].
  { cbn [mbind option_bind]. rewrite Hb. cbn [mbind option_bind].
    change (drop (Z.to_nat 0) bytes) with bytes. by apply flush_then_rest. }
  set (w := if _ <? _ then _ else _).
  assert (Hwle : w = Z.of_nat (length (take (Z.to_nat w) bytes)) /\ WritePosition s + w <= BufferLength s
    /\ w <= Z.of_nat (length bytes) /\ (w <> Z.of_nat (length bytes) -> w = BufferLength s - WritePosition s)).
  { subst w. destruct (Z.ltb_spec (Z.of_nat (length bytes)) (BufferLength s - WritePosition s));
      rewrite length_take; lia. }
  clearbody w. destruct Hwle as (Hw1 & Hw2 & Hw3 & Hw4). cbn [mbind option_bind].
  rewrite store_block_Some by lia. cbn [mbind option_bind].
  rewrite (u32_id (WritePosition s + w)) by (unfold in_width; lia).
  pose proof (append_pending s c p b (take (Z.to_nat w) bytes) Hrel Hw Hb ltac:(lia)) as Hrel1.
  rewrite <- Hw1 in Hrel1. set (s1 := set_write _ _) in *.
  destruct (Z.eqb_spec w (Z.of_nat (length bytes))) as [Hall|Hpart].
  - exists s1. split; [done|]. rewrite Hall, Nat2Z.id, firstn_all in Hrel1. split; [done|].
    intros _. simpl. by destruct (rel_one s c p Hrel).
  - destruct (flush_then_rest s1 _ _ (write_at b (Z.to_nat (WritePosition s)) (take (Z.to_nat w) bytes))
      (drop (Z.to_nat w) bytes) Hrel1) as (s' & Heq & Hrel' & Hset).
    + subst s1. simpl. lia.
    + done.
    + rewrite length_drop. lia.
    + exists s'. split; [exact Heq|]. split; [|done].
      pose proof (rel_base s c p Hrel). pose proof (rel_read s c p Hrel).
      pose proof (rel_position s c p Hrel). rewrite Hw1 in Hrel' at 2.
      rewrite pwrite_then, take_drop, length_drop in Hrel' by lia.
      by replace (p + w + Z.of_nat (length bytes - Z.to_nat w)) with (p + Z.of_nat (length bytes))
        in Hrel' by lia.
Qed.

(** When the bytes read are reported: not when the buffer was full, is used up by this call, and
    the file ends exactly there. *)
Definition read_lost s (available Length : Z) : Prop :=
  available < Length /\ ReadLength s = BufferLength s /\
  Position s = Z.of_nat (length (file_of s)).

Lemma read_take_refines s c p Length :
  stream_rel s c p -> WritePosition s = 0 -> ReadPosition s < ReadLength s -> 0 < Length < 2 ^ 32 ->
  let data := read_at c (Z.to_nat p) (Z.to_nat Length) in
  let available := ReadLength s - ReadPosition s in
  exists s', stream_rel s' c (p + Z.of_nat (length data)) /\ settled s' /\ data <> [] /\
    (read_lost s available Length ->
      read_take s STATUS_SUCCESS available Length = Some (s', STATUS_END_OF_FILE, data, None)) /\
    (~ read_lost s available Length ->
      read_take s STATUS_SUCCESS available Length =
        Some (s', STATUS_SUCCESS, data, Some (Z.of_nat (length data)))).
Proof.
  intros Hrel Hw Hr Hlen data available.
  pose proof (rel_read s c p Hrel).
  destruct (rel_has_buffer s c p Hrel) as (b & Hb & Hbl); [lia|].
  pose proof Hrel as [Hmode Hsync HBL _ Hrd _ _ Hbase -> Hc Hahead].
  rewrite Hw in Hc. unfold buffered in Hc. rewrite Hb in Hc. change (read_at b 0 _) with (@nil Z) in Hc.
  rewrite pwrite_nil in Hc. destruct Hahead as (Hbuf & Hin & Hshort); [lia|].
  unfold read_lost, read_take. cbv zeta. rewrite Hb. cbn [mbind option_bind].
  set (r := if Length <? available then Length else available).
  assert (Hrb : 0 < r <= available /\ (r = Length \/ r = available /\ r < Length)).
  { subst r available. destruct (Z.ltb_spec Length (ReadLength s - ReadPosition s)); lia. }
  rewrite load_block_Some by lia. cbn [mbind option_bind]. width.
  assert (Hbytes : read_at b (Z.to_nat (ReadPosition s)) (Z.to_nat r) =
    read_at c (Z.to_nat (Position s - available)) (Z.to_nat r)).
  { unfold buffered in Hbuf. rewrite Hb in Hbuf.
    rewrite <- (Nat.add_0_l (Z.to_nat (ReadPosition s))),
      <- (read_at_read_at b 0 (Z.to_nat (ReadLength s))) by lia.
    rewrite Hbuf, read_at_read_at, Hc by lia. f_equal. lia. }
  rewrite Hbytes. set (p := Position s - available) in *.
  assert (Hdata : data = read_at c (Z.to_nat p) (Z.to_nat Length)).
  { subst data p available. f_equal. lia. }
  clearbody data. assert (Hp : p = Position s - available) by done.
  assert (Hav : available = ReadLength s - ReadPosition s) by done. clearbody p available.
  replace (Position s - (ReadLength s - ReadPosition s) + WritePosition s) with p in * by lia.
  assert (Hlb : Z.of_nat (length (read_at c (Z.to_nat p) (Z.to_nat r))) = r).
  { rewrite length_read_at; [lia|]. rewrite Hc. lia. }
  assert (Hsame : stream_rel (set_read s (ReadPosition s + r) (ReadLength s)) c (p + r)).
  { destruct Hrel. split; simpl; try done; lia. }
  assert (Hset : settled (set_read s (ReadPosition s + r) (ReadLength s))) by (intros ?; simpl in *; lia).
  destruct Hrb as [Hr0 [HrL|[Hra Hrlt]]].
  { (* the buffer had enough *)
    assert (Hd : data = read_at c (Z.to_nat p) (Z.to_nat r)) by by rewrite Hdata, HrL.
    rewrite Hd, Hlb. eexists. split; [exact Hsame|]. split; [exact Hset|].
    split; [intros Hn; rewrite Hn in Hlb; simpl in Hlb; lia|]. split; [lia|]. intros _.
    by replace (r <? Length) with false by lia. }
  replace (r <? Length) with true by lia. cbn [andb].
  destruct (Z.eqb_spec (ReadLength (set_read s (ReadPosition s + r) (ReadLength s)))
    (BufferLength (set_read s (ReadPosition s + r) (ReadLength s)))) as [Hfull|Hpart]; simpl in Hfull || simpl in Hpart.
  2:{ (* the last fill met the end of the file *)
    assert (Hd : data = read_at c (Z.to_nat p) (Z.to_nat r)).
    { rewrite Hdata. apply read_at_all; [rewrite Hc; lia|lia]. }
    rewrite Hd, Hlb. eexists. split; [exact Hsame|]. split; [exact Hset|].
    split; [intros Hn; rewrite Hn in Hlb; simpl in Hlb; lia|]. split; [lia|]. done. }
  destruct (raw_read (set_read s (ReadPosition s + r) (ReadLength s)) (Length - r))
    as (f' & Hc' & Hsync' & ->); [done|simpl; lia|lia|]. cbv zeta in *.
  change (file_of (set_read s (ReadPosition s + r) (ReadLength s))) with (file_of s) in *.
  change (Position (set_read s (ReadPosition s + r) (ReadLength s))) with (Position s) in *.
  rewrite <- Hc in Hsync', Hc' |- *.
  set (avail := read_at c (Z.to_nat (Position s)) (Z.to_nat (Length - r))) in *.
  assert (Hd : data = read_at c (Z.to_nat p) (Z.to_nat r) ++ avail).
  { rewrite Hdata. subst avail. replace (Z.to_nat (Position s)) with (Z.to_nat p + Z.to_nat r)%nat by lia.
    rewrite read_at_app. f_equal. lia. }
  assert (Hdl : Z.of_nat (length data) = r + Z.of_nat (length avail)).
  { rewrite Hd, length_app. lia. }
  assert (Hal : length avail = (Z.to_nat (Length - r) `min` (length c - Z.to_nat (Position s)))%nat)
    by apply length_read_at_min.
  assert (Hdn : data <> []) by (intros Hn; rewrite Hn in Hdl; simpl in Hdl; lia).
  case_decide as Hend.
  - destruct Hend as [He _]. rewrite He in Hal, Hdl, Hsync' |- *. simpl in Hal, Hdl.
    cbn [NT_SUCCESS STATUS_END_OF_FILE Z.ltb Z.compare Pos.compare Pos.compare_cont].
    eexists. split; [|split; [|split; [exact Hdn|split; [intros _; by rewrite Hd, He|]]]].
    + rewrite Hdl. destruct Hrel. split; simpl; try done; try lia.
      * unfold file_of; simpl. by rewrite Hc', Hw, buffered_0.
      * intros _. unfold file_of, buffered in *; simpl. rewrite Hc', Hb, Z.add_0_r.
        rewrite Hb, <- Hc in Hbuf. rewrite <- Hc in Hin, Hshort. split; [exact Hbuf|lia].
    + intros ?; simpl in *; lia.
    + intros Hno. exfalso. apply Hno. rewrite <- Hc in Hin. repeat split; lia.
  - cbn [NT_SUCCESS STATUS_SUCCESS Z.ltb Z.compare mbind option_bind]. width.
    eexists. split; [|split; [|split; [exact Hdn|split; [|intros _; by rewrite <- Hd, Hdl]]]].
    + rewrite Hdl. destruct Hrel. split; simpl; try done; try lia.
      * by rewrite Hb.
      * unfold file_of; simpl. by rewrite Hc', Hw, buffered_0.
    + done.
    + intros (? & ? & HP). exfalso. apply Hend. split; [|lia].
      apply length_zero_iff_nil. rewrite Hal, HP, Hc. lia.
Qed.

(** The outcome of a read of [Length] bytes on a stream that shows [c] positioned at [p]. *)
Definition read_outcome s c p Length (eof : Prop)
    (result : ub (PH_FILE_STREAM F * Z * list Z * option Z)) : Prop :=
  let data := read_at c (Z.to_nat p) (Z.to_nat Length) in
  exists s', stream_rel s' c (p + Z.of_nat (length data)) /\ settled s' /\
    (eof -> result = Some (s', STATUS_END_OF_FILE, data, None)) /\
    (~ eof -> result = Some (s', STATUS_SUCCESS, data, Some (Z.of_nat (length data)))).

Lemma read_at_min {A} (l : list A) off n :
  read_at l off (n `min` (length l - off)) = read_at l off n.
Proof.
  unfold read_at. destruct (decide (n <= length l - off)%nat) as [|Hn]; [by rewrite Nat.min_l|].
  rewrite Nat.min_r by lia. rewrite !take_ge; [done| |]; rewrite length_drop; lia.
Qed.

Lemma drained s c p :
  stream_rel s c p -> WritePosition s = 0 -> ReadLength s = ReadPosition s ->
  c = file_of s /\ p = Position s.
Proof.
  intros [] Hw Hr. rewrite Hw, buffered_0, pwrite_nil in *. split; [done|lia].
Qed.

(** A read that finds the buffer empty. *)
Lemma read_refill_refines s c p Length :
  stream_rel s c p -> WritePosition s = 0 -> ReadLength s = ReadPosition s -> 0 < Length < 2 ^ 32 ->
  read_outcome s c p Length (read_at c (Z.to_nat p) (Z.to_nat Length) = [])
    (fill ← read_refill s Length;
     match fill with
     | inl result => Some result
     | inr (s, status, available) => read_take s status available Length
     end).
Proof.
  intros Hrel Hw Hr Hlen. destruct (drained s c p Hrel Hw Hr) as [-> ->].
  pose proof Hrel as [Hmode Hsync HBL Hbuf Hrd _ _ Hbase _ _ _].
  unfold read_outcome, read_refill. cbv zeta.
  destruct (Z.leb_spec (BufferLength s) Length) as [Hbig|Hsmall].
  - destruct (raw_read (set_read s 0 0) Length) as (f' & Hc & Hs' & ->); [done|simpl; lia|lia|].
    cbv zeta in *. change (file_of (set_read s 0 0)) with (file_of s) in *.
    change (Position (set_read s 0 0)) with (Position s) in *.
    set (data := read_at _ _ _) in *. cbn [mbind option_bind].
    eexists (set_handle (set_read s 0 0) f' (Position s + Z.of_nat (length data))
               (Flags (set_read s 0 0))).
    split; [|split; [done|]].
    + assert (Hcl : clean (set_handle (set_read s 0 0) f' (Position s + Z.of_nat (length data))
        (Flags (set_read s 0 0)))) by (split; simpl; try done; try lia; by destruct (Buffer s)).
      apply clean_rel in Hcl. unfold file_of at 1 in Hcl. simpl in Hcl. by rewrite Hc in Hcl.
    + split; intros Hd; case_decide as He; try done.
      * exfalso. apply He. split; [done|lia].
      * by destruct Hd, He.
  - destruct (ensure_buffer s) as (b & -> & Hbl & Hold); [lia|by destruct (Buffer s)|].
    cbn [negb NT_SUCCESS STATUS_SUCCESS Z.ltb Z.compare].
    set (s1 := set_buffer s (Some b)).
    assert (Hrel1 : stream_rel s1 (file_of s) (Position s)).
    { destruct Hrel as [? ? ? ? ? ? ? ? ? ? Hah]. split; simpl; try done; try lia.
      - rewrite Hw. unfold buffered. by rewrite pwrite_nil.
      - intros Hne. destruct Hold as [Hn|Hs]; [rewrite Hn in Hbuf; lia|].
        destruct (Hah Hne) as (Hah1 & ? & ?). split; [|done].
        unfold buffered in *. rewrite Hs in Hah1. exact Hah1. }
    destruct (raw_read s1 (BufferLength s1)) as (f' & Hc & Hs' & ->); [done|simpl; lia|simpl; lia|].
    cbv zeta in *. change (file_of s1) with (file_of s) in *.
    change (Position s1) with (Position s) in *. change (BufferLength s1) with (BufferLength s) in *.
    set (data := read_at _ _ (Z.to_nat (BufferLength s))) in *.
    assert (Hdl : length data = (Z.to_nat (BufferLength s) `min`
      (length (file_of s) - Z.to_nat (Position s)))%nat) by apply length_read_at_min.
    assert (Hnil : data = [] <-> read_at (file_of s) (Z.to_nat (Position s)) (Z.to_nat Length) = []).
    { rewrite <- !length_zero_iff_nil, Hdl, length_read_at_min. lia. }
    case_decide as He.
    + destruct He as [He _]. pose proof (proj1 Hnil He) as Hn. rewrite Hn, He.
      rewrite He in Hs'. change (Buffer (set_handle _ _ _ _)) with (Some b).
      cbn [mbind option_bind]. rewrite store_block_Some by (simpl; lia).
      rewrite write_at_nil by lia. cbn.
      eexists. split; [|split; [|split; [done|done]]]; [|intros ?; simpl in *; lia].
      destruct Hrel1 as [? ? ? ? ? ? ? ? ? ? Hah]. simpl in *.
      split; simpl; rewrite ?Z.add_0_r in *; try done; try lia.
      * unfold file_of at 2; simpl. by rewrite Hc, Hw, buffered_0.
      * intros Hne. unfold file_of; simpl. rewrite Hc. by apply Hah.
    + assert (Hne : data <> []) by (intros Hd; apply He; split; [done|lia]).
      change (Buffer (set_handle _ _ _ _)) with (Some b). cbn [mbind option_bind].
      rewrite store_block_Some by (simpl; lia).
      cbn [mbind option_bind negb NT_SUCCESS STATUS_SUCCESS Z.ltb Z.compare].
      assert (0 < Z.of_nat (length data)) by (destruct data; simpl; [done|lia]).
      destruct (Z.eqb_spec (Z.of_nat (length data)) 0) as [|_]; [lia|].
      set (s2 := set_read _ _ _). cbn [mbind option_bind].
      assert (Hrel2 : stream_rel s2 (file_of s) (Position s)).
      { split; simpl; try done; try lia.
        - rewrite length_write_at; simpl; lia.
        - unfold file_of at 2; simpl. by rewrite Hc, Hw, buffered_0, pwrite_nil.
        - intros _. unfold file_of, buffered; simpl. rewrite Hc, Nat2Z.id.
          rewrite read_write_same by (simpl; lia).
          replace (Position s + _ - _) with (Position s) by lia. split; [|lia].
          by rewrite Hdl, read_at_min. }
      destruct (read_take_refines s2 _ _ Length Hrel2) as (s' & Hrel' & Hset & Hd & _ & Hok);
        [done|simpl; lia|done|].
      change (ReadLength s2 - ReadPosition s2) with (Z.of_nat (length data) - 0) in Hok.
      rewrite Z.sub_0_r in Hok. exists s'. split; [done|]. split; [done|].
      split; [done|]. intros _. apply Hok. intros (? & HH & _). simpl in HH. lia.
Qed.

Lemma read_refines s c p Length :
  stream_rel s c p -> settled s -> 0 < Length < 2 ^ 32 ->
  read_outcome s c p Length
    (read_at c (Z.to_nat p) (Z.to_nat Length) = [] \/
     (ReadPosition s < ReadLength s /\ read_lost s (ReadLength s - ReadPosition s) Length))
    (PhReadFileStream s Length).
Proof.
  intros Hrel Hset Hlen. unfold PhReadFileStream, read_fill. cbv zeta.
  rewrite (rel_mode s c p Hrel).
  pose proof (rel_read s c p Hrel). pose proof (rel_length s c p Hrel). width.
  destruct (Z.eqb_spec (ReadLength s - ReadPosition s) 0) as [Hz|Hnz].
  - assert (exists s1, (if negb (WritePosition s =? 0) then PhpFlushWriteFileStream s
        else Some (s, STATUS_SUCCESS)) = Some (s1, STATUS_SUCCESS) /\ stream_rel s1 c p /\
        WritePosition s1 = 0 /\ ReadLength s1 = ReadPosition s1) as (s1 & -> & Hrel1 & Hw1 & Hr1).
    { destruct (Z.eqb_spec (WritePosition s) 0) as [Hw|Hw]; cbn [negb].
      - exists s. split; [done|]. split; [done|]. lia.
      - destruct (flush_write s c p Hrel Hw) as (s1 & -> & Hcl & <- & <-).
        exists s1. split; [done|]. split; [by apply clean_rel|].
        destruct Hcl as [? ? ? ? [-> ->] ? ?]. done. }
    cbn [mbind option_bind negb NT_SUCCESS STATUS_SUCCESS Z.ltb Z.compare].
    destruct (read_refill_refines s1 c p Length Hrel1 Hw1 Hr1 Hlen) as (s' & ? & ? & Heof & Hok).
    exists s'. split; [done|]. split; [done|]. split.
    + intros [Hd|[? _]]; [by apply Heof|lia].
    + intros Hno. apply Hok. tauto.
  - cbn [mbind option_bind].
    assert (Hw : WritePosition s = 0) by (destruct (rel_one s c p Hrel); lia).
    destruct (read_take_refines s c p Length Hrel Hw) as (s' & ? & ? & Hd & Heof & Hok); [lia|done|].
    exists s'. split; [done|]. split; [done|]. split.
    + intros [?|[_ ?]]; [done|by apply Heof].
    + intros Hno. apply Hok. intros Hl. apply Hno. right. split; [lia|done].
Qed.

Lemma seek_refines s c p Offset Origin :
  stream_rel s c p -> settled s -> 0 <= seek_target c p Offset Origin ->
  exists s', PhSeekFileStream s Offset Origin = Some (s', STATUS_SUCCESS) /\
    stream_rel s' c (seek_target c p Offset Origin) /\ settled s'.
Proof.
  intros Hrel Hset Ht. unfold PhSeekFileStream. cbv zeta.
  assert (Hseek : forall s1 off, clean s1 -> file_of s1 = c ->
    seek_target c (Position s1) off Origin = seek_target c p Offset Origin ->
    exists s', PhpSeekFileStream s1 off Origin = (s', STATUS_SUCCESS) /\
      stream_rel s' c (seek_target c p Offset Origin) /\ settled s').
  { intros s1 off Hcl Hf He.
    destruct (raw_seek s1 off Origin) as (f' & Hc & Hs' & Hgo); [by rewrite Hf, He|].
    cbv zeta in *. rewrite Hf, He in *. rewrite Hgo. eexists. split; [done|].
    assert (Hcl' : clean (set_handle s1 f' (seek_target c p Offset Origin) (Flags s1)))
      by (destruct Hcl; split; done).
    split; [|intros _; apply Hcl'].
    apply clean_rel in Hcl'. unfold file_of at 1 in Hcl'. simpl in Hcl'. by rewrite Hc in Hcl'. }
  pose proof (rel_read s c p Hrel). pose proof (rel_length s c p Hrel).
  destruct (Z.eqb_spec (WritePosition s) 0) as [Hw|Hw]; cbn [negb].
  2:{ destruct (flush_write s c p Hrel Hw) as (s1 & -> & Hcl & Hf & Hp).
    cbn [mbind option_bind negb NT_SUCCESS STATUS_SUCCESS Z.ltb Z.compare].
    destruct (Hseek s1 Offset Hcl Hf) as (s' & -> & ?); [by rewrite Hp|]. by exists s'. }
  assert (Hcl : clean (set_read s 0 0)).
  { destruct Hrel. split; simpl; try done; try lia. by destruct (Buffer s). }
  assert (Hf : file_of s = c) by (by rewrite (rel_contents s c p Hrel), Hw, buffered_0, pwrite_nil).
  pose proof (rel_position s c p Hrel) as Hp. rewrite Hw in Hp.
  destruct (Z.eqb_spec (ReadPosition s) 0) as [Hr|Hr]; cbn [negb].
  - assert (s = set_read s 0 0) as Hs.
    { pose proof (Hset Hr) as Hrl. destruct s; simpl in *; by subst. }
    rewrite <- Hs in Hcl. pose proof (Hset Hr) as Hrl. rewrite Hrl, Hr in Hp.
    destruct (Hseek s Offset Hcl Hf) as (s' & -> & ?); [|by exists s'].
    destruct Origin; simpl; lia.
  - width. destruct (Hseek (set_read s 0 0) (match Origin with
      | SeekCurrent => Offset - (ReadLength s - ReadPosition s) | _ => Offset end) Hcl Hf)
      as (s' & -> & ?); [|by exists s'].
    destruct Origin; simpl; lia.
Qed.

Lemma flush_refines s c p Full :
  stream_rel s c p -> settled s ->
  exists s', PhFlushFileStream s Full = Some (s', STATUS_SUCCESS) /\
    stream_rel s' c p /\ settled s' /\ file_of s' = c /\ Position s' = p.
Proof.
  intros Hrel Hset. unfold PhFlushFileStream.
  assert (exists s1, (if negb (WritePosition s =? 0) then PhpFlushWriteFileStream s
     else Some (s, STATUS_SUCCESS)) = Some (s1, STATUS_SUCCESS) /\ stream_rel s1 c p /\ settled s1 /\
     WritePosition s1 = 0) as (s1 & -> & Hrel1 & Hset1 & Hw1).
  { destruct (Z.eqb_spec (WritePosition s) 0) as [Hw|Hw]; cbn [negb]; [by exists s|].
    destruct (flush_write s c p Hrel Hw) as (s1 & -> & Hcl & <- & <-). exists s1. split; [done|].
    split; [by apply clean_rel|]. split; [intros _; apply Hcl|apply Hcl]. }
  cbn [mbind option_bind negb NT_SUCCESS STATUS_SUCCESS Z.ltb Z.compare].
  assert (exists s2, (if negb (ReadPosition s1 =? 0) then PhpFlushReadFileStream s1
     else (s1, STATUS_SUCCESS)) = (s2, STATUS_SUCCESS) /\ clean s2 /\ file_of s2 = c /\
     Position s2 = p) as (s2 & -> & Hcl & Hf & Hp).
  { destruct (Z.eqb_spec (ReadPosition s1) 0) as [Hr|Hr]; cbn [negb].
    - pose proof (Hset1 Hr) as Hrl. exists s1. split; [done|].
      destruct (drained s1 c p Hrel1 Hw1) as [-> ->]; [lia|]. split; [|done].
      destruct Hrel1. split; try done; try lia. by destruct (Buffer s1).
    - by apply flush_read. }
  cbn [negb NT_SUCCESS STATUS_SUCCESS Z.ltb Z.compare].
  destruct (Full && has_flag (Flags s2) PH_FILE_STREAM_WRITTEN).
  - destruct (flush_law (FileHandle s2)) as (f' & -> & Hc & Hfp).
    set (s3 := set_handle _ _ _ _). assert (Hcl3 : clean s3).
    { destruct Hcl as [? Hs ? ? ? ? ?]. split; try done. unfold in_sync in *. subst s3; simpl.
      by rewrite Hfp. }
    assert (Hf3 : file_of s3 = c) by (unfold file_of, s3; simpl; by rewrite Hc).
    exists s3. split; [done|]. split; [|split; [intros _; apply Hcl3|done]].
    change (Position s2) with (Position s3) in Hp. rewrite <- Hp, <- Hf3. by apply clean_rel.
  - exists s2. split; [done|]. split; [|split; [intros _; apply Hcl|done]].
    rewrite <- Hp, <- Hf. by apply clean_rel.
Qed.

(** A flush changes no flag but the "written" one. *)
Lemma flush_owned s s' status :
  PhFlushFileStream s false = Some (s', status) ->
  has_flag (Flags s') PH_FILE_STREAM_HANDLE_UNOWNED = has_flag (Flags s) PH_FILE_STREAM_HANDLE_UNOWNED.
Proof.
  unfold PhFlushFileStream, PhpFlushWriteFileStream, PhpWriteFileStream, PhpFlushReadFileStream,
    PhpSeekFileStream. cbv zeta.
  intros Hf. cbn [andb] in Hf.
  repeat (match type of Hf with
    | context [NtWriteFile ?a ?b ?c] => destruct (NtWriteFile a b c) as [[??]?]
    | context [NtSetPositionInformation ?a ?b] => destruct (NtSetPositionInformation a b) as [??]
    | context [load_block ?a ?b ?c] => destruct (load_block a b c)
    | context [Buffer s] => destruct (Buffer s)
    | context [if ?b then _ else _] => destruct b
    end; cbn [mbind option_bind negb] in Hf); simplify_eq; simpl;
    rewrite ?has_flag_lor_written; done.
Qed.

(** ** Sequences of operations *)

Inductive stream_op :=
  | OpRead (Length : Z)
  | OpWrite (bytes : list Z)
  | OpSeek (Offset : Z) (Origin : PH_SEEK_ORIGIN)
  | OpFlush (Full : bool).

(** What the caller sees: the status and the bytes read. *)
Definition stream_step (s : PH_FILE_STREAM F) (op : stream_op) : ub (PH_FILE_STREAM F * Z * list Z) :=
  match op with
  | OpRead n => '(s, status, data, _) ← PhReadFileStream s n; Some (s, status, data)
  | OpWrite bytes => '(s, status) ← PhWriteFileStream s bytes; Some (s, status, [])
  | OpSeek off org => '(s, status) ← PhSeekFileStream s off org; Some (s, status, [])
  | OpFlush full => '(s, status) ← PhFlushFileStream s full; Some (s, status, [])
  end.

Fixpoint stream_run (s : PH_FILE_STREAM F) (ops : list stream_op)
    : ub (PH_FILE_STREAM F * list (Z * list Z)) :=
  match ops with
  | [] => Some (s, [])
  | op :: ops =>
      '(s, status, data) ← stream_step s op;
      '(s, out) ← stream_run s ops;
      Some (s, (status, data) :: out)
  end.

(** The specification: an unbuffered file with a position. *)
Definition file_step (c : list Z) (p : Z) (op : stream_op) : list Z * Z * list Z :=
  match op with
  | OpRead n =>
      let data := read_at c (Z.to_nat p) (Z.to_nat n) in (c, p + Z.of_nat (length data), data)
  | OpWrite bytes => (pwrite c (Z.to_nat p) bytes, p + Z.of_nat (length bytes), [])
  | OpSeek off org => (c, seek_target c p off org, [])
  | OpFlush _ => (c, p, [])
  end.

Fixpoint file_run (c : list Z) (p : Z) (ops : list stream_op) : list Z * Z * list (list Z) :=
  match ops with
  | [] => (c, p, [])
  | op :: ops =>
      let '(c, p, data) := file_step c p op in
      let '(c, p, out) := file_run c p ops in
      (c, p, data :: out)
  end.

(** Requests are ULONGs and no seek goes below the start of the file. *)
Definition op_ok (c : list Z) (p : Z) (op : stream_op) : Prop :=
  match op with
  | OpRead n => 0 < n < 2 ^ 32
  | OpWrite bytes => Z.of_nat (length bytes) < 2 ^ 32
  | OpSeek off org => 0 <= seek_target c p off org
  | OpFlush _ => True
  end.

Fixpoint ops_ok (c : list Z) (p : Z) (ops : list stream_op) : Prop :=
  match ops with
  | [] => True
  | op :: ops => op_ok c p op /\ let '(c, p, _) := file_step c p op in ops_ok c p ops
  end.

Lemma stream_step_refines s c p op :
  stream_rel s c p -> settled s -> op_ok c p op ->
  let '(c', p', data) := file_step c p op in
  exists s' status, stream_step s op = Some (s', status, data) /\
    (status = STATUS_SUCCESS \/ status = STATUS_END_OF_FILE) /\
    stream_rel s' c' p' /\ settled s'.
Proof.
  intros Hrel Hset Hok. destruct op as [n|bytes|off org|full]; simpl in *.
  - destruct (read_refines s c p n Hrel Hset Hok) as (s' & Hrel' & Hset' & Heof & Hdone).
    set (P := _ \/ _) in *.
    assert (HP : P \/ ~ P).
    { destruct (decide (read_at c (Z.to_nat p) (Z.to_nat n) = [])); [by left; left|].
      subst P. unfold read_lost. destruct (decide (ReadPosition s < ReadLength s));
        destruct (decide (ReadLength s - ReadPosition s < n));
        destruct (decide (ReadLength s = BufferLength s));
        destruct (decide (Position s = Z.of_nat (length (file_of s)))); tauto. }
    destruct HP as [HP|HP].
    + rewrite (Heof HP). exists s', STATUS_END_OF_FILE. auto.
    + rewrite (Hdone HP). exists s', STATUS_SUCCESS. auto.
  - destruct (write_refines s c p bytes Hrel Hok) as (s' & -> & ?). exists s', STATUS_SUCCESS. auto.
  - destruct (seek_refines s c p off org Hrel Hset Hok) as (s' & -> & ?). exists s', STATUS_SUCCESS. auto.
  - destruct (flush_refines s c p full Hrel Hset) as (s' & -> & ? & ? & _). exists s', STATUS_SUCCESS. auto.
Qed.

Lemma stream_run_refines ops : forall s c p,
  stream_rel s c p -> settled s -> ops_ok c p ops ->
  let '(c', p', datas) := file_run c p ops in
  exists s' out, stream_run s ops = Some (s', out) /\ out.*2 = datas /\
    Forall (fun st => st = STATUS_SUCCESS \/ st = STATUS_END_OF_FILE) out.*1 /\
    stream_rel s' c' p' /\ settled s'.
Proof.
  induction ops as [|op ops IH]; intros s c p Hrel Hset Hok; simpl in *.
  { exists s, []. auto. }
  destruct Hok as [Hok Hoks]. pose proof (stream_step_refines s c p op Hrel Hset Hok) as Hst.
  destruct (file_step c p op) as [[c1 p1] data]. destruct Hst as (s1 & st & -> & Hs & Hrel1 & Hset1).
  pose proof (IH s1 c1 p1 Hrel1 Hset1 Hoks) as Hrun.
  destruct (file_run c1 p1 ops) as [[c' p'] datas].
  destruct Hrun as (s' & out & Heq & <- & Hall & ?). cbn [mbind option_bind]. rewrite Heq.
  exists s', ((st, data) :: out). split; [done|]. split; [done|]. split; [by constructor|done].
Qed.

(** A new stream shows the file as it is. *)
Lemma created_rel f flags BL :
  has_flag flags PH_FILE_STREAM_UNBUFFERED = false -> 0 < BL < 2 ^ 31 ->
  has_flag flags PH_FILE_STREAM_OWN_POSITION = true \/ fpos f = 0 ->
  stream_rel (PhCreateFileStream2 f flags BL).1 (contents f) 0 /\
  settled (PhCreateFileStream2 f flags BL).1.
Proof.
  intros Hm HBL Hsy. split; [|done].
  assert (Hcl : clean (PhCreateFileStream2 f flags BL).1)
    by (split; simpl; rewrite ?Hm; try done; lia).
  by apply clean_rel in Hcl.
Qed.

(** ** Properties *)

(** C10: Whatever the mix of reads of at least one byte, writes, seeks to positions that are not negative, and
    flushes, a buffered stream created on a file behaves as the unbuffered file with a position: no access
    leaves the buffer, every call ends with success or end-of-file, every read returns exactly the
    bytes the specification returns, and deleting the stream leaves the specification's contents in
    the file. [op_ok] leaves two kinds of calls out because the claim fails for them: a read of no
    bytes fills the buffer without touching it, and a seek keeps such a buffer, so that the next read
    returns the bytes of the former position ([stream_seek_keeps_untouched_read_ahead]); a seek
    below the start of the file sets Position to a negative number before the file refuses it. *)
Theorem stream_simulates f flags BL ops :
  has_flag flags PH_FILE_STREAM_UNBUFFERED = false -> 0 < BL < 2 ^ 31 ->
  has_flag flags PH_FILE_STREAM_OWN_POSITION = true \/ fpos f = 0 ->
  ops_ok (contents f) 0 ops ->
  let '(c', p', datas) := file_run (contents f) 0 ops in
  exists s' out f', stream_run (PhCreateFileStream2 f flags BL).1 ops = Some (s', out) /\
    out.*2 = datas /\
    Forall (fun st => st = STATUS_SUCCESS \/ st = STATUS_END_OF_FILE) out.*1 /\
    contents f' = c' /\
    PhpFileStreamDeleteProcedure s' =
      Some (if has_flag (Flags s') PH_FILE_STREAM_HANDLE_UNOWNED then f' else NtClose f').
Proof.
  intros Hm HBL Hsy Hok. destruct (created_rel f flags BL Hm HBL Hsy) as [Hrel Hset].
  pose proof (stream_run_refines ops _ _ _ Hrel Hset Hok) as Hrun.
  destruct (file_run (contents f) 0 ops) as [[c' p'] datas].
  destruct Hrun as (s' & out & -> & Hout & Hall & Hrel' & Hset').
  destruct (flush_refines s' c' p' false Hrel' Hset') as (s2 & Hfl & _ & _ & Hc & _).
  exists s', out, (FileHandle s2). do 4 (split; [done|]).
  unfold PhpFileStreamDeleteProcedure. rewrite Hfl. cbn [mbind option_bind].
  rewrite (flush_owned s' s2 _ Hfl). by destruct (has_flag (Flags s') _).
Qed.

(** C40: A read returns the bytes of the file at the stream's position, as many as there are, and
    moves past them; the status is end-of-file, with no length reported, exactly when there are
    none, or when the last fill had filled the buffer, this call empties it, wants more, and the
    file ends there: then bytes that were delivered and consumed are reported as a failure. *)
Theorem stream_read_outcome s c p Length :
  stream_rel s c p -> settled s -> 0 < Length < 2 ^ 32 ->
  let data := read_at c (Z.to_nat p) (Z.to_nat Length) in
  let lost := ReadPosition s < ReadLength s /\ ReadLength s - ReadPosition s < Length /\
              ReadLength s = BufferLength s /\ Position s = Z.of_nat (length (file_of s)) in
  exists s', stream_rel s' c (p + Z.of_nat (length data)) /\ settled s' /\
    (data = [] \/ lost ->
      PhReadFileStream s Length = Some (s', STATUS_END_OF_FILE, data, None)) /\
    (~ (data = [] \/ lost) ->
      PhReadFileStream s Length = Some (s', STATUS_SUCCESS, data, Some (Z.of_nat (length data)))).
Proof. apply read_refines. Qed.

(** [PhGetPositionFileStream] reports the position of the next byte, except while read-ahead
    is pending: the ULONG difference wraps and the report is 4 GB too large. *)
Theorem stream_position_reported s c p :
  stream_rel s c p ->
  PhGetPositionFileStream s = p + (if ReadPosition s <? ReadLength s then 2 ^ 32 else 0).
Proof.
  intros Hrel. pose proof (rel_read s c p Hrel). pose proof (rel_length s c p Hrel).
  rewrite (rel_position s c p Hrel). unfold PhGetPositionFileStream, u32.
  destruct (Z.ltb_spec (ReadPosition s) (ReadLength s)).
  - rewrite <- (Z.mod_add _ 1), Z.mod_small by lia. lia.
  - rewrite Z.mod_small by lia. lia.
Qed.

(** Read-ahead that no read has touched yet (a read of length zero leaves the stream so)
    survives a seek: the next read returns the bytes of the position before the seek. *)
Theorem stream_seek_keeps_untouched_read_ahead s c p Offset Length :
  stream_rel s c p -> ReadPosition s = 0 -> ReadLength s <> 0 -> 0 <= Offset ->
  0 < Length < ReadLength s ->
  exists s' s'' n, PhSeekFileStream s Offset SeekStart = Some (s', STATUS_SUCCESS) /\
    Position s' = Offset /\
    PhReadFileStream s' Length =
      Some (s'', STATUS_SUCCESS, read_at c (Z.to_nat p) (Z.to_nat Length), n).
Proof.
  intros Hrel Hr Hrl Ho Hlen.
  assert (Hw : WritePosition s = 0) by (destruct (rel_one s c p Hrel); done).
  pose proof (rel_read s c p Hrel). pose proof (rel_length s c p Hrel).
  destruct (raw_seek s Offset SeekStart Ho) as (f' & _ & _ & Hgo). simpl in Hgo.
  unfold PhSeekFileStream. rewrite Hw, Hr, Hgo. cbn [negb Z.eqb].
  set (s' := set_handle s f' Offset (Flags s)).
  destruct (rel_has_buffer s c p Hrel) as (b & Hb & Hbl); [auto|].
  exists s', (set_read s' Length (ReadLength s)), (Some Length).
  split; [done|]. split; [done|]. unfold PhReadFileStream.
  change (Flags s') with (Flags s). rewrite (rel_mode s c p Hrel). unfold read_fill.
  change (ReadLength s') with (ReadLength s). change (ReadPosition s') with (ReadPosition s).
  rewrite Hr, Z.sub_0_r. width. destruct (Z.eqb_spec (ReadLength s) 0) as [|_]; [done|].
  cbn [mbind option_bind]. unfold read_take. cbv zeta.
  change (Buffer s') with (Buffer s). change (ReadPosition s') with (ReadPosition s).
  rewrite Hb, Hr. cbn [mbind option_bind]. replace (Length <? ReadLength s) with true by lia.
  rewrite load_block_Some by lia. cbn [mbind option_bind]. rewrite Z.ltb_irrefl. cbn [andb].
  destruct (rel_ahead s c p Hrel Hrl) as (Hbuf & Hin & _).
  unfold buffered in Hbuf. rewrite Hb in Hbuf.
  rewrite (rel_position s c p Hrel), (rel_contents s c p Hrel), Hw, Hr, buffered_0, pwrite_nil.
  assert (Hd : read_at b 0 (Z.to_nat Length) =
    read_at (file_of s) (Z.to_nat (Position s - ReadLength s)) (Z.to_nat Length)).
  { pose proof (read_at_read_at b 0 (Z.to_nat (ReadLength s)) 0 (Z.to_nat Length)) as E1.
    rewrite Hbuf, read_at_read_at in E1 by lia. rewrite !Nat.add_0_r in E1. symmetry. apply E1. lia. }
  replace (Position s - (ReadLength s - 0) + 0) with (Position s - ReadLength s) by lia.
  width. by rewrite <- Hd.
Qed.

End refinement.

(** Properties that hold whatever the file object does. *)
Section any_file.
Context {F : Type} `{FileOps F}.
Implicit Types (s : PH_FILE_STREAM F).

(** A flush whose write fails leaves the pending bytes in the buffer and the position alone,
    so that the same bytes are written by the next flush: nothing is lost on the error path. *)
Theorem stream_failed_flush_keeps_writes s s' status :
  PhpFlushWriteFileStream s = Some (s', status) -> NT_SUCCESS status = false ->
  WritePosition s' = WritePosition s /\ Buffer s' = Buffer s /\ Position s' = Position s /\
  Flags s' = Flags s.
Proof.
  unfold PhpFlushWriteFileStream, PhpWriteFileStream. cbv zeta. intros Hfl Hst.
  destruct (Buffer s) as [b|] eqn:Hb; [|done]. cbn [mbind option_bind] in Hfl.
  destruct (load_block b 0 _) as [bytes|]; [|done]. cbn [mbind option_bind] in Hfl.
  destruct (NtWriteFile _ _ _) as [[status0 isb] f'].
  destruct (NT_SUCCESS (completed status0 isb f')) eqn:Hs; rewrite Hs in Hfl; cbn [negb] in Hfl;
    simplify_eq; by rewrite ?Hs, ?Hb in *.
Qed.

(** Opening a file for appending reports success without a stream when the seek to the end
    fails: [PhCreateFileStream] returns the status of the open, and [*FileStream] is not set. *)
Theorem stream_append_failure_reported_as_success (opened : Z * F) flags :
  NT_SUCCESS opened.1 = true -> has_flag flags PH_FILE_STREAM_APPEND = true ->
  NT_SUCCESS (PhGetFileSize opened.2).1 = false ->
  PhCreateFileStream opened flags = Some (STATUS_SUCCESS, None).
Proof.
  destruct opened as [status f]. cbn [fst snd]. intros Ho Ha Hs. unfold PhCreateFileStream.
  rewrite Ho. cbn. rewrite Ha. unfold PhSeekFileStream, PhpSeekFileStream. cbn.
  destruct (PhGetFileSize f) as [st size]. cbn in Hs. rewrite Hs. cbn. rewrite Hs.
  unfold PhpFileStreamDeleteProcedure, PhFlushFileStream. cbn. by rewrite Hs.
Qed.

End any_file.

(** ** A file in memory *)

(** Contents and position; every request completes at once. *)
#[export] Instance MemFile : FileOps (list Z * Z) := {|
  NtReadFile f pos len :=
    let p := default f.2 pos in
    let data := read_at f.1 (Z.to_nat p) (Z.to_nat len) in
    let status := if decide (data = [] /\ 0 < len) then STATUS_END_OF_FILE else STATUS_SUCCESS in
    (status, Build_IO_STATUS_BLOCK status (Z.of_nat (length data)), data,
     (f.1, p + Z.of_nat (length data)));
  NtWriteFile f pos bs :=
    let p := default f.2 pos in
    (STATUS_SUCCESS, Build_IO_STATUS_BLOCK STATUS_SUCCESS (Z.of_nat (length bs)),
     (pwrite f.1 (Z.to_nat p) bs, p + Z.of_nat (length bs)));
  NtWaitForSingleObject f := STATUS_SUCCESS;
  NtSetPositionInformation f p := (STATUS_SUCCESS, (f.1, p));
  NtQueryPositionInformation f := (STATUS_SUCCESS, f.2);
  PhGetFileSize f := (STATUS_SUCCESS, Z.of_nat (length f.1));
  NtFlushBuffersFile f := (STATUS_SUCCESS, f);
  NtSetEndOfFileInformation f n := (STATUS_SUCCESS, f);
  NtSetAllocationInformation f n := (STATUS_SUCCESS, f);
  NtLockFile f pos len fail excl := (STATUS_SUCCESS, Build_IO_STATUS_BLOCK STATUS_SUCCESS 0, f);
  NtUnlockFile f pos len := (STATUS_SUCCESS, f);
  NtClose f := f;
  PhAllocatePage n := Some (replicate (Z.to_nat n) 0);
|}.

#[export] Program Instance MemFileLaws : FileLaws (list Z * Z) := {|
  contents f := f.1; fpos f := f.2 |}.
Next Obligation.
  intros f pos len Hlen Hpos p avail. eexists _, _, _, _. split; [reflexivity|]. split; [done|].
  split; [by intros ->|]. split; [done|]. fold p. fold avail. by case_decide.
Qed.
Next Obligation. intros f pos bs Hpos p. eexists _, _, _. split; [reflexivity|]. by destruct pos. Qed.
Next Obligation. intros f p Hp. by eexists. Qed.
Next Obligation. done. Qed.
Next Obligation. intros f. by eexists. Qed.
Next Obligation. intros n Hn. eexists. split; [reflexivity|]. rewrite length_replicate. lia. Qed.

(** The same file on a device whose writes fail and whose size cannot be read. *)
Definition BrokenFile : FileOps (list Z * Z) := {|
  NtReadFile := @NtReadFile _ MemFile;
  NtWriteFile f pos bs := (STATUS_INSUFFICIENT_RESOURCES,
    Build_IO_STATUS_BLOCK STATUS_INSUFFICIENT_RESOURCES 0, f);
  NtWaitForSingleObject f := STATUS_SUCCESS;
  NtSetPositionInformation := @NtSetPositionInformation _ MemFile;
  NtQueryPositionInformation := @NtQueryPositionInformation _ MemFile;
  PhGetFileSize f := (STATUS_INSUFFICIENT_RESOURCES, 0);
  NtFlushBuffersFile := @NtFlushBuffersFile _ MemFile;
  NtSetEndOfFileInformation := @NtSetEndOfFileInformation _ MemFile;
  NtSetAllocationInformation := @NtSetAllocationInformation _ MemFile;
  NtLockFile := @NtLockFile _ MemFile;
  NtUnlockFile := @NtUnlockFile _ MemFile;
  NtClose f := f;
  PhAllocatePage := @PhAllocatePage _ MemFile;
|}.

(** ** Witnesses *)

Definition demo_file : list Z * Z := ([10; 11; 12; 13; 14; 15; 16; 17; 18; 19], 0).

Definition demo_created : PH_FILE_STREAM (list Z * Z) := (PhCreateFileStream2 demo_file 0 4).1.

Definition demo_ops : list stream_op :=
  [OpRead 3; OpRead 9; OpSeek 2 SeekStart; OpWrite [1; 2; 3]; OpWrite [4; 5; 6]; OpRead 1;
   OpSeek (-4) SeekCurrent; OpRead 6; OpFlush true].

(** A stream with a four-byte buffer, as [ops] leave it. *)
Definition demo_stream (ops : list stream_op) : PH_FILE_STREAM (list Z * Z) :=
  default demo_created
    (fst <$> stream_run demo_created ops).

Example demo_run :
  snd <$> stream_run demo_created demo_ops =
  Some [(STATUS_SUCCESS, [10; 11; 12]);
        (STATUS_SUCCESS, [13; 14; 15; 16; 17; 18; 19]); (STATUS_SUCCESS, []);
        (STATUS_SUCCESS, []); (STATUS_SUCCESS, []); (STATUS_SUCCESS, [18]); (STATUS_SUCCESS, []);
        (STATUS_SUCCESS, [4; 5; 6; 18; 19]); (STATUS_SUCCESS, [])].
Proof. vm_compute. reflexivity. Qed.

Lemma demo_rel ops :
  ops_ok demo_file.1 0 ops -> let '(c, p, _) := file_run demo_file.1 0 ops in
  stream_rel (demo_stream ops) c p /\ settled (demo_stream ops).
Proof.
  intros Hok. destruct (created_rel demo_file 0 4) as [Hrel Hset]; [done|lia|by right|].
  change (PhCreateFileStream2 demo_file 0 4).1 with demo_created in *.
  pose proof (stream_run_refines ops _ _ _ Hrel Hset Hok) as Hrun. change (contents demo_file) with demo_file.1 in Hrun.
  destruct (file_run _ 0 ops) as [[c p] d]. destruct Hrun as (s' & out & Heq & _ & _ & ? & ?).
  unfold demo_stream. by rewrite Heq.
Qed.

Lemma stream_simulates_witness :
  exists s' out f', stream_run demo_created demo_ops = Some (s', out) /\
    out.*2 = [[10; 11; 12]; [13; 14; 15; 16; 17; 18; 19]; []; []; []; [18]; []; [4; 5; 6; 18; 19]; []] /\
    contents f' = [10; 11; 1; 2; 3; 4; 5; 6; 18; 19].
Proof.
  destruct (stream_simulates demo_file 0 4 demo_ops) as (s' & out & f' & Hrun & Hout & _ & Hc & _);
    [done|lia|by right|by vm_compute|].
  exists s', out, f'. split; [exact Hrun|]. split; [exact Hout|exact Hc].
Defined.

Lemma stream_read_outcome_witness :
  exists s', PhReadFileStream (demo_stream [OpRead 1]) 3 =
    Some (s', STATUS_SUCCESS, [11; 12; 13], Some 3).
Proof.
  destruct (demo_rel [OpRead 1]) as [Hrel Hset]; [by vm_compute|].
  destruct (stream_read_outcome (demo_stream [OpRead 1]) _ _ 3 Hrel Hset) as (s' & _ & _ & _ & Hok);
    [lia|].
  exists s'. apply Hok. intros [?|(_ & Hl & _)]; [done|vm_compute in Hl; done].
Defined.

Lemma stream_position_reported_witness :
  PhGetPositionFileStream (demo_stream [OpRead 1]) = 1 + 2 ^ 32.
Proof.
  destruct (demo_rel [OpRead 1]) as [Hrel _]; [by vm_compute|].
  exact (stream_position_reported (demo_stream [OpRead 1]) _ _ Hrel).
Defined.

(** Reading zero bytes fills the buffer and touches nothing of it. *)
Definition untouched : PH_FILE_STREAM (list Z * Z) :=
  match PhReadFileStream (demo_stream []) 0 with Some (s, _, _, _) => s | None => demo_stream [] end.

Lemma untouched_rel : stream_rel untouched demo_file.1 0.
Proof. split; try done; vm_compute; try (intuition congruence). Qed.

Lemma stream_seek_keeps_untouched_read_ahead_witness :
  exists s' s'' n, PhSeekFileStream untouched 6 SeekStart = Some (s', STATUS_SUCCESS) /\
    Position s' = 6 /\ PhReadFileStream s' 2 = Some (s'', STATUS_SUCCESS, [10; 11], n).
Proof.
  apply (stream_seek_keeps_untouched_read_ahead untouched demo_file.1 0 6 2 untouched_rel);
    vm_compute; done.
Defined.

Lemma stream_failed_flush_keeps_writes_witness :
  let s := demo_stream [OpWrite [1; 2]] in
  exists s', @PhpFlushWriteFileStream _ BrokenFile s = Some (s', STATUS_INSUFFICIENT_RESOURCES) /\
    WritePosition s' = WritePosition s /\ Buffer s' = Buffer s /\ Position s' = Position s /\
    Flags s' = Flags s.
Proof.
  intros s. eexists. split; [vm_compute; reflexivity|].
  apply (@stream_failed_flush_keeps_writes _ BrokenFile s _ STATUS_INSUFFICIENT_RESOURCES);
    vm_compute; reflexivity.
Defined.

Lemma stream_append_failure_reported_as_success_witness :
  @PhCreateFileStream _ BrokenFile (STATUS_SUCCESS, demo_file) PH_FILE_STREAM_APPEND =
    Some (STATUS_SUCCESS, None).
Proof. by apply (@stream_append_failure_reported_as_success _ BrokenFile). Defined.

End FileStream.
