(* ===== verification/FastLock.v ===== *)
(** * The reader-writer lock: [phlib/fastlock.c]

    One word holds the whole state of the lock; threads change it by compare-and-swap and sleep
    on two semaphores created on first use. A thread is a program counter with its locals, a step
    is one access to shared memory or one system call, and the theorems hold for every
    interleaving. The semaphores belong to the kernel: [Semaphores] is the interface the code
    calls and [SemaphoreLaws] its documented behaviour. *)

From S2P Require Import Prelude.

(** ** Kernel semaphores *)

(** [NtCreateSemaphore] is called with initial count 0 and limit MAXLONG only. A wait gives [None]
    while it blocks. *)
Class Semaphores (K HANDLE : Type) := {
  NtCreateSemaphore : K -> K * HANDLE;
  NtReleaseSemaphore : K -> HANDLE -> Z -> K;
  NtWaitForSingleObject : K -> HANDLE -> option (K * Z);
  NtClose : K -> HANDLE -> K;
}.

Definition MAXLONG : Z := 0x7fffffff.
Definition STATUS_WAIT_0 : Z := 0.

Class SemaphoreLaws (K HANDLE : Type) `{Semaphores K HANDLE} := {
  (** The count of a live semaphore. *)
  sem : K -> HANDLE -> option Z;
  create_law : forall k, let '(k', h) := NtCreateSemaphore k in
    sem k h = None /\ sem k' h = Some 0 /\ forall h', h' <> h -> sem k' h' = sem k h';
  release_law : forall k h c n, sem k h = Some c -> 0 < n -> c + n <= MAXLONG ->
    sem (NtReleaseSemaphore k h n) h = Some (c + n) /\
    forall h', h' <> h -> sem (NtReleaseSemaphore k h n) h' = sem k h';
  wait_blocks_law : forall k h, sem k h = Some 0 -> NtWaitForSingleObject k h = None;
  wait_law : forall k h c, sem k h = Some c -> 0 < c ->
    exists k', NtWaitForSingleObject k h = Some (k', STATUS_WAIT_0) /\
      sem k' h = Some (c - 1) /\ forall h', h' <> h -> sem k' h' = sem k h';
  close_law : forall k h h', h' <> h -> sem (NtClose k h) h' = sem k h';
}.

Module FastLock.

Definition PH_LOCK_OWNED : Z := 0x1.
Definition PH_LOCK_EXCLUSIVE_WAKING : Z := 0x2.
Definition PH_LOCK_SHARED_OWNERS_SHIFT : Z := 2.
Definition PH_LOCK_SHARED_OWNERS_MASK : Z := 0x3ff.
Definition PH_LOCK_SHARED_OWNERS_INC : Z := 0x4.
Definition PH_LOCK_SHARED_WAITERS_SHIFT : Z := 12.
Definition PH_LOCK_SHARED_WAITERS_MASK : Z := 0x3ff.
Definition PH_LOCK_SHARED_WAITERS_INC : Z := 0x1000.
Definition PH_LOCK_EXCLUSIVE_WAITERS_SHIFT : Z := 22.
Definition PH_LOCK_EXCLUSIVE_WAITERS_MASK : Z := 0x3ff.
Definition PH_LOCK_EXCLUSIVE_WAITERS_INC : Z := 0x400000.

Definition PH_LOCK_EXCLUSIVE_MASK : Z :=
  Z.lor PH_LOCK_EXCLUSIVE_WAKING
    (Z.shiftl PH_LOCK_EXCLUSIVE_WAITERS_MASK PH_LOCK_EXCLUSIVE_WAITERS_SHIFT).

(** The C conditions [v & mask] and [(v >> s) & mask]. *)
Definition any (v mask : Z) : bool := negb (Z.land v mask =? 0).
Definition field (v shift mask : Z) : Z := Z.land (Z.shiftr v shift) mask.

Section lock.
Context {K HANDLE : Type} `{Semaphores K HANDLE}.

Inductive event := Exclusive | Shared.
#[global] Instance event_eq_dec : EqDecision event.
Proof. solve_decision. Defined.

(** The lock and the kernel its handles live in. *)
Record PH_FAST_LOCK := {
  Value : Z;
  ExclusiveWakeEvent : option HANDLE;
  SharedWakeEvent : option HANDLE;
  kernel : K;
}.

Definition set_value (g : PH_FAST_LOCK) (v : Z) : PH_FAST_LOCK := {|
  Value := v; ExclusiveWakeEvent := ExclusiveWakeEvent g; SharedWakeEvent := SharedWakeEvent g;
  kernel := kernel g |}.
Definition set_kernel (g : PH_FAST_LOCK) (k : K) : PH_FAST_LOCK := {|
  Value := Value g; ExclusiveWakeEvent := ExclusiveWakeEvent g;
  SharedWakeEvent := SharedWakeEvent g; kernel := k |}.
Definition wake_event (g : PH_FAST_LOCK) (e : event) : option HANDLE :=
  match e with Exclusive => ExclusiveWakeEvent g | Shared => SharedWakeEvent g end.
Definition set_event (g : PH_FAST_LOCK) (e : event) (h : option HANDLE) : PH_FAST_LOCK := {|
  Value := Value g;
  ExclusiveWakeEvent := match e with Exclusive => h | Shared => ExclusiveWakeEvent g end;
  SharedWakeEvent := match e with Exclusive => SharedWakeEvent g | Shared => h end;
  kernel := kernel g |}.

Definition PhInitializeFastLock (k : K) : PH_FAST_LOCK := {|
  Value := 0; ExclusiveWakeEvent := None; SharedWakeEvent := None; kernel := k |}.

Definition PhDeleteFastLock (g : PH_FAST_LOCK) : PH_FAST_LOCK :=
  let g := match ExclusiveWakeEvent g with
           | Some h => set_event (set_kernel g (NtClose (kernel g) h)) Exclusive None
           | None => g
           end in
  match SharedWakeEvent g with
  | Some h => set_event (set_kernel g (NtClose (kernel g) h)) Shared None
  | None => g
  end.

Definition PhpGetSpinCount (NumberOfProcessors : Z) : Z :=
  if 1 <? NumberOfProcessors then 4000 else 0.

(** [_InterlockedCompareExchange (&FastLock->Value, new, old) == old]. *)
Definition cas (g : PH_FAST_LOCK) (old new : Z) : PH_FAST_LOCK * bool :=
  if Value g =? old then (set_value g new, true) else (g, false).

(** ** Threads

    One constructor per point of the code at which the next action touches shared state; the
    arguments are the locals still needed ([value], [i], [handle], [sharedWaiters]). *)
Inductive ensure_pc := EnsTest | EnsCreate | EnsPublish (handle : HANDLE).

Inductive pc :=
  | Idle | OwnX | OwnS | Raised
  (* PhfAcquireFastLockExclusive *)
  | XRead (i : Z) | XTry (value i : Z) | XWoken | XClaim (value : Z)
  (* PhfAcquireFastLockShared *)
  | SRead (i : Z) | STry (value i : Z)
  (* the slow path of both: PhpEnsureEventCreated, registration, wait *)
  | Ensure (e : event) (value i : Z) (at_ : ensure_pc)
  | Register (e : event) (value i : Z) | Wait (e : event) (i : Z)
  (* PhfReleaseFastLockExclusive, PhfReleaseFastLockShared *)
  | RXRead | RXTry (value : Z) | RSRead | RSTry (value : Z)
  | SignalX | SignalS (sharedWaiters : Z)
  (* PhfTryAcquireFastLockExclusive, PhfTryAcquireFastLockShared *)
  | TXRead | TXTry (value : Z) | TSRead | TSTry (value : Z).

Variable NumberOfProcessors : Z.

(** [i++; YieldProcessor();] and back to the loop head. *)
Definition again (e : event) (i : Z) : pc :=
  match e with Exclusive => XRead (i +₃₂ 1) | Shared => SRead (i +₃₂ 1) end.

Definition PhpEnsureEventCreated (g : PH_FAST_LOCK) (e : event) (value i : Z) (at_ : ensure_pc)
    : PH_FAST_LOCK * pc :=
  match at_ with
  | EnsTest =>
      match wake_event g e with
      | Some _ => (g, Register e value i)
      | None => (g, Ensure e value i EnsCreate)
      end
  | EnsCreate =>
      let '(k, handle) := NtCreateSemaphore (kernel g) in
      (set_kernel g k, Ensure e value i (EnsPublish handle))
  | EnsPublish handle =>
      match wake_event g e with
      | None => (set_event g e (Some handle), Register e value i)
      | Some _ => (set_kernel g (NtClose (kernel g) handle), Register e value i)
      end
  end.

(** The registration of a waiter, and its wait. A wait on a NULL handle fails. *)
Definition register_waiter (g : PH_FAST_LOCK) (e : event) (value i : Z) : PH_FAST_LOCK * pc :=
  let inc := match e with
             | Exclusive => PH_LOCK_EXCLUSIVE_WAITERS_INC
             | Shared => PH_LOCK_SHARED_WAITERS_INC
             end in
  let '(g, ok) := cas g value (value +₃₂ inc) in (g, if ok then Wait e i else again e i).

Definition wait_for_event (g : PH_FAST_LOCK) (e : event) (i : Z) : option (PH_FAST_LOCK * pc) :=
  match wake_event g e with
  | None => Some (g, Raised)
  | Some h =>
      '(k, status) ← NtWaitForSingleObject (kernel g) h;
      Some (set_kernel g k,
        if negb (status =? STATUS_WAIT_0) then Raised
        else match e with Exclusive => XWoken | Shared => SRead i end)
  end.

Definition PhfAcquireFastLockExclusive (g : PH_FAST_LOCK) (value i : Z) : PH_FAST_LOCK * pc :=
  if negb (any value (Z.lor PH_LOCK_OWNED PH_LOCK_EXCLUSIVE_WAKING)) then
    let '(g, ok) := cas g value (value +₃₂ PH_LOCK_OWNED) in
    (g, if ok then OwnX else again Exclusive i)
  else if PhpGetSpinCount NumberOfProcessors <=? i then (g, Ensure Exclusive value i EnsTest)
  else (g, again Exclusive i).

(** The loop of a woken exclusive waiter. *)
Definition claim_exclusive (g : PH_FAST_LOCK) (value : Z) : PH_FAST_LOCK * pc :=
  let '(g, ok) := cas g value (u32 (value + PH_LOCK_OWNED - PH_LOCK_EXCLUSIVE_WAKING)) in
  (g, if ok then OwnX else XWoken).

Definition PhfAcquireFastLockShared (g : PH_FAST_LOCK) (value i : Z) : PH_FAST_LOCK * pc :=
  if negb (any value (Z.lor (Z.lor PH_LOCK_OWNED
       (Z.shiftl PH_LOCK_SHARED_OWNERS_MASK PH_LOCK_SHARED_OWNERS_SHIFT)) PH_LOCK_EXCLUSIVE_MASK)) then
    let '(g, ok) := cas g value (u32 (value + PH_LOCK_OWNED + PH_LOCK_SHARED_OWNERS_INC)) in
    (g, if ok then OwnS else again Shared i)
  else if any value PH_LOCK_OWNED &&
          (0 <? field value PH_LOCK_SHARED_OWNERS_SHIFT PH_LOCK_SHARED_OWNERS_MASK) &&
          negb (any value PH_LOCK_EXCLUSIVE_MASK) then
    let '(g, ok) := cas g value (value +₃₂ PH_LOCK_SHARED_OWNERS_INC) in
    (g, if ok then OwnS else again Shared i)
  else if PhpGetSpinCount NumberOfProcessors <=? i then (g, Ensure Shared value i EnsTest)
  else (g, again Shared i).

Definition PhfReleaseFastLockExclusive (g : PH_FAST_LOCK) (value : Z) : PH_FAST_LOCK * pc :=
  if negb (field value PH_LOCK_EXCLUSIVE_WAITERS_SHIFT PH_LOCK_EXCLUSIVE_WAITERS_MASK =? 0) then
    let '(g, ok) := cas g value
      (u32 (value - PH_LOCK_OWNED + PH_LOCK_EXCLUSIVE_WAKING - PH_LOCK_EXCLUSIVE_WAITERS_INC)) in
    (g, if ok then SignalX else RXRead)
  else
    let sharedWaiters := field value PH_LOCK_SHARED_WAITERS_SHIFT PH_LOCK_SHARED_WAITERS_MASK in
    let '(g, ok) := cas g value (Z.ldiff value (Z.lor PH_LOCK_OWNED
      (Z.shiftl PH_LOCK_SHARED_WAITERS_MASK PH_LOCK_SHARED_WAITERS_SHIFT))) in
    (g, if ok then if negb (sharedWaiters =? 0) then SignalS sharedWaiters else Idle else RXRead).

Definition PhfReleaseFastLockShared (g : PH_FAST_LOCK) (value : Z) : PH_FAST_LOCK * pc :=
  if 1 <? field value PH_LOCK_SHARED_OWNERS_SHIFT PH_LOCK_SHARED_OWNERS_MASK then
    let '(g, ok) := cas g value (value -₃₂ PH_LOCK_SHARED_OWNERS_INC) in
    (g, if ok then Idle else RSRead)
  else if negb (field value PH_LOCK_EXCLUSIVE_WAITERS_SHIFT PH_LOCK_EXCLUSIVE_WAITERS_MASK =? 0) then
    let '(g, ok) := cas g value
      (u32 (value - PH_LOCK_OWNED + PH_LOCK_EXCLUSIVE_WAKING -
            PH_LOCK_SHARED_OWNERS_INC - PH_LOCK_EXCLUSIVE_WAITERS_INC)) in
    (g, if ok then SignalX else RSRead)
  else
    let '(g, ok) := cas g value (u32 (value - PH_LOCK_OWNED - PH_LOCK_SHARED_OWNERS_INC)) in
    (g, if ok then Idle else RSRead).

Definition PhfTryAcquireFastLockExclusive (g : PH_FAST_LOCK) (value : Z) : PH_FAST_LOCK * bool :=
  if any value (Z.lor PH_LOCK_OWNED PH_LOCK_EXCLUSIVE_WAKING) then (g, false)
  else cas g value (value +₃₂ PH_LOCK_OWNED).

Definition PhfTryAcquireFastLockShared (g : PH_FAST_LOCK) (value : Z) : PH_FAST_LOCK * bool :=
  if any value PH_LOCK_EXCLUSIVE_MASK then (g, false)
  else if negb (any value PH_LOCK_OWNED) then
    cas g value (u32 (value + PH_LOCK_OWNED + PH_LOCK_SHARED_OWNERS_INC))
  else if negb (field value PH_LOCK_SHARED_OWNERS_SHIFT PH_LOCK_SHARED_OWNERS_MASK =? 0) then
    cas g value (value +₃₂ PH_LOCK_SHARED_OWNERS_INC)
  else (g, false).

(** [NtReleaseSemaphore] after the exchange; on a NULL handle the call fails and nothing happens. *)
Definition signal (g : PH_FAST_LOCK) (e : event) (n : Z) : PH_FAST_LOCK :=
  match wake_event g e with
  | Some h => set_kernel g (NtReleaseSemaphore (kernel g) h n)
  | None => g
  end.

(** The next action of a thread inside a call; [None] when it is blocked, or not inside one. *)
Definition next (g : PH_FAST_LOCK) (p : pc) : option (PH_FAST_LOCK * pc) :=
  match p with
  | Idle | OwnX | OwnS | Raised => None
  | XRead i => Some (g, XTry (Value g) i)
  | XTry value i => Some (PhfAcquireFastLockExclusive g value i)
  | XWoken => Some (g, XClaim (Value g))
  | XClaim value => Some (claim_exclusive g value)
  | SRead i => Some (g, STry (Value g) i)
  | STry value i => Some (PhfAcquireFastLockShared g value i)
  | Ensure e value i at_ => Some (PhpEnsureEventCreated g e value i at_)
  | Register e value i => Some (register_waiter g e value i)
  | Wait e i => wait_for_event g e i
  | RXRead => Some (g, RXTry (Value g))
  | RXTry value => Some (PhfReleaseFastLockExclusive g value)
  | RSRead => Some (g, RSTry (Value g))
  | RSTry value => Some (PhfReleaseFastLockShared g value)
  | SignalX => Some (signal g Exclusive 1, Idle)
  | SignalS sharedWaiters => Some (signal g Shared sharedWaiters, Idle)
  | TXRead => Some (g, TXTry (Value g))
  | TXTry value =>
      let '(g, ok) := PhfTryAcquireFastLockExclusive g value in Some (g, if ok then OwnX else Idle)
  | TSRead => Some (g, TSTry (Value g))
  | TSTry value =>
      let '(g, ok) := PhfTryAcquireFastLockShared g value in Some (g, if ok then OwnS else Idle)
  end.

(** The calls a client may make: acquire when it owns nothing, release what it owns. *)
Definition calls (p : pc) : list pc :=
  match p with
  | Idle => [XRead 0; SRead 0; TXRead; TSRead]
  | OwnX => [RXRead]
  | OwnS => [RSRead]
  | _ => []
  end.

(** One step of one thread. *)
Inductive step : PH_FAST_LOCK * list pc -> PH_FAST_LOCK * list pc -> Prop :=
  | step_call g ts t p p' :
      ts !! t = Some p -> p' ∈ calls p -> step (g, ts) (g, <[t := p']> ts)
  | step_next g ts t p g' p' :
      ts !! t = Some p -> next g p = Some (g', p') -> step (g, ts) (g', <[t := p']> ts).

Definition initial (k : K) (n : nat) : PH_FAST_LOCK * list pc :=
  (PhInitializeFastLock k, replicate n Idle).

Definition reachable (k : K) (n : nat) (s : PH_FAST_LOCK * list pc) : Prop :=
  rtc step (initial k n) s.

End lock.
Arguments PH_FAST_LOCK : clear implicits.
Arguments pc : clear implicits.
Arguments ensure_pc : clear implicits.

(** ** The lock word *)

(** The word, from its five fields. *)
Definition enc (o w so sw ew : Z) : Z := o + 2 * w + 4 * so + 4096 * sw + 4194304 * ew.

Definition ranges (o w so sw ew : Z) : Prop :=
  0 <= o <= 1 /\ 0 <= w <= 1 /\ 0 <= so <= 1023 /\ 0 <= sw <= 1023 /\ 0 <= ew <= 1023.

Lemma field_nonneg v s k : 0 <= k -> 0 <= field v s k.
Proof. intros. apply Z.land_nonneg. by right. Qed.

Lemma any_lor v a b : any v (Z.lor a b) = any v a || any v b.
Proof.
  unfold any. rewrite Z.land_lor_distr_r. apply eq_bool_prop_intro.
  rewrite <- negb_andb, !Is_true_true, !negb_true_iff, andb_false_iff, !Z.eqb_neq.
  split.
  - intros Hn. destruct (decide (Z.land v a = 0)) as [E|]; [|auto]. right. intros E'.
    apply Hn. by rewrite E, E'.
  - intros Hor Hz. apply Z.lor_eq_0_iff in Hz. tauto.
Qed.

Lemma land_field v s k :
  0 <= s -> 0 <= k -> Z.land v (Z.shiftl (Z.ones k) s) = 2 ^ s * bit_field s k v.
Proof.
  intros. unfold bit_field. rewrite Z.mul_comm, <- Z.shiftl_mul_pow2 by lia.
  apply Z.bits_inj'. intros n Hn. rewrite Z.land_spec, !Z.shiftl_spec, Z.land_spec by lia.
  destruct (decide (n < s)).
  - rewrite !(Z.testbit_neg_r _ (n - s)) by lia. by rewrite andb_false_r.
  - rewrite Z.shiftr_spec by lia. f_equal. f_equal. lia.
Qed.

Lemma any_field v s k :
  0 <= s -> 0 <= k -> any v (Z.shiftl (Z.ones k) s) = negb (bit_field s k v =? 0).
Proof.
  intros. unfold any. rewrite land_field by done.
  assert (0 < 2 ^ s) by (by apply Z.pow_pos_nonneg).
  destruct (Z.eqb_spec (bit_field s k v) 0) as [->|]; [by rewrite Z.mul_0_r|]. f_equal.
  apply Z.eqb_neq. apply Z.neq_mul_0. split; [lia|done].
Qed.

Lemma ldiff_field v s k :
  0 <= s -> 0 <= k -> Z.ldiff v (Z.shiftl (Z.ones k) s) = v - 2 ^ s * bit_field s k v.
Proof.
  intros. rewrite <- land_field by done. rewrite Z.sub_nocarry_ldiff;
    apply Z.bits_inj'; intros n Hn; rewrite !Z.ldiff_spec, ?Z.land_spec, ?Z.bits_0;
    by destruct (Z.testbit v n), (Z.testbit _ n).
Qed.

Section word.
Context (o w so sw ew : Z) (Hr : ranges o w so sw ew).

Lemma enc_range : in_width 32 (enc o w so sw ew).
Proof. unfold in_width, enc. destruct Hr as (?&?&?&?&?). lia. Qed.

Lemma enc_fields :
  bit_field 0 1 (enc o w so sw ew) = o /\ bit_field 1 1 (enc o w so sw ew) = w /\
  bit_field 2 10 (enc o w so sw ew) = so /\ bit_field 12 10 (enc o w so sw ew) = sw /\
  bit_field 22 10 (enc o w so sw ew) = ew.
Proof.
  destruct Hr as (?&?&?&?&?). unfold enc. rewrite !bit_field_eq by lia.
  change (2 ^ 0) with 1; change (2 ^ 1) with 2; change (2 ^ 2) with 4; change (2 ^ 10) with 1024;
  change (2 ^ 12) with 4096; change (2 ^ 22) with 4194304.
  repeat split; Z.to_euclidean_division_equations; lia.
Qed.

Lemma any_owned : any (enc o w so sw ew) PH_LOCK_OWNED = negb (o =? 0).
Proof.
  change PH_LOCK_OWNED with (Z.shiftl (Z.ones 1) 0). rewrite any_field by lia.
  by destruct enc_fields as [-> _].
Qed.

Lemma any_waking : any (enc o w so sw ew) PH_LOCK_EXCLUSIVE_WAKING = negb (w =? 0).
Proof.
  change PH_LOCK_EXCLUSIVE_WAKING with (Z.shiftl (Z.ones 1) 1). rewrite any_field by lia.
  by destruct enc_fields as (_ & -> & _).
Qed.

Lemma any_shared_owners :
  any (enc o w so sw ew) (Z.shiftl PH_LOCK_SHARED_OWNERS_MASK PH_LOCK_SHARED_OWNERS_SHIFT) =
  negb (so =? 0).
Proof.
  change PH_LOCK_SHARED_OWNERS_MASK with (Z.ones 10). change PH_LOCK_SHARED_OWNERS_SHIFT with 2.
  rewrite any_field by done.
  by destruct enc_fields as (_ & _ & -> & _).
Qed.

Lemma any_exclusive :
  any (enc o w so sw ew) PH_LOCK_EXCLUSIVE_MASK = negb (w =? 0) || negb (ew =? 0).
Proof.
  unfold PH_LOCK_EXCLUSIVE_MASK. rewrite any_lor, any_waking.
  change PH_LOCK_EXCLUSIVE_WAITERS_MASK with (Z.ones 10).
  change PH_LOCK_EXCLUSIVE_WAITERS_SHIFT with 22. rewrite any_field by done.
  by destruct enc_fields as (_ & _ & _ & _ & ->).
Qed.

Lemma field_shared_owners :
  field (enc o w so sw ew) PH_LOCK_SHARED_OWNERS_SHIFT PH_LOCK_SHARED_OWNERS_MASK = so.
Proof. by destruct enc_fields as (_ & _ & ? & _). Qed.

Lemma field_shared_waiters :
  field (enc o w so sw ew) PH_LOCK_SHARED_WAITERS_SHIFT PH_LOCK_SHARED_WAITERS_MASK = sw.
Proof. by destruct enc_fields as (_ & _ & _ & ? & _). Qed.

Lemma field_exclusive_waiters :
  field (enc o w so sw ew) PH_LOCK_EXCLUSIVE_WAITERS_SHIFT PH_LOCK_EXCLUSIVE_WAITERS_MASK = ew.
Proof. by destruct enc_fields as (_ & _ & _ & _ & ?). Qed.

End word.

Lemma free_exclusive o w so sw ew :
  ranges o w so sw ew ->
  Z.ldiff (enc o w so sw ew) (Z.lor PH_LOCK_OWNED
    (Z.shiftl PH_LOCK_SHARED_WAITERS_MASK PH_LOCK_SHARED_WAITERS_SHIFT)) = enc 0 w so 0 ew.
Proof.
  intros Hr. rewrite Z.ldiff_land, Z.lnot_lor, Z.land_assoc, <- !Z.ldiff_land.
  change PH_LOCK_OWNED with (Z.shiftl (Z.ones 1) 0).
  change PH_LOCK_SHARED_WAITERS_MASK with (Z.ones 10). change PH_LOCK_SHARED_WAITERS_SHIFT with 12.
  rewrite !ldiff_field by lia. destruct (enc_fields _ _ _ _ _ Hr) as (-> & _).
  replace (enc o w so sw ew - 2 ^ 0 * o) with (enc 0 w so sw ew) by (unfold enc; lia).
  destruct (enc_fields 0 w so sw ew) as (_ & _ & _ & -> & _); [unfold ranges in *; lia|].
  unfold enc. lia.
Qed.

(** ** Counting threads *)

Inductive kind := KOwnX | KOwnS | KWaitX | KWaitS | KWoken | KSignalX | KSignalS.

Section counting.
Context {HANDLE : Type}.
Implicit Types (p : pc HANDLE) (ts : list (pc HANDLE)) (k : kind).

(** What a thread contributes: it owns the lock until its release has changed the word, and a
    releasing thread holds the permits it has not handed to the semaphore yet. *)
Definition weight k p : Z :=
  match k, p with
  | KOwnX, (OwnX | RXRead | RXTry _) => 1
  | KOwnS, (OwnS | RSRead | RSTry _) => 1
  | KWaitX, Wait Exclusive _ => 1
  | KWaitS, Wait Shared _ => 1
  | KWoken, (XWoken | XClaim _) => 1
  | KSignalX, SignalX => 1
  | KSignalS, SignalS n => Z.max 0 n
  | _, _ => 0
  end.

Fixpoint total k ts : Z :=
  match ts with [] => 0 | p :: ts => weight k p + total k ts end.

Lemma weight_nonneg k p : 0 <= weight k p.
Proof. destruct k, p as [| | | | | | | | | | | |[]| | | | | | | | | |]; simpl; lia. Qed.

Lemma total_nonneg k ts : 0 <= total k ts.
Proof. induction ts as [|p ts IH]; simpl; [lia|]. pose proof (weight_nonneg k p). lia. Qed.

Lemma total_insert k ts t p p' :
  ts !! t = Some p -> total k (<[t := p']> ts) = total k ts - weight k p + weight k p'.
Proof.
  revert t. induction ts as [|q ts IH]; intros [|t] Ht; simpl in *; simplify_eq; [lia|].
  rewrite (IH t Ht). lia.
Qed.

Lemma total_lookup k ts t p : ts !! t = Some p -> weight k p <= total k ts.
Proof.
  revert t. induction ts as [|q ts IH]; intros [|t] Ht; simpl in *; simplify_eq.
  - pose proof (total_nonneg k ts). lia.
  - pose proof (IH t Ht). pose proof (weight_nonneg k q). lia.
Qed.

Lemma total_lookup_two k ts t t' p p' :
  t <> t' -> ts !! t = Some p -> ts !! t' = Some p' -> weight k p + weight k p' <= total k ts.
Proof.
  intros Hne Ht Ht'. pose proof (total_insert k ts t p Raised Ht) as Hi.
  pose proof (total_lookup k (<[t := Raised]> ts) t' p') as Hl.
  rewrite list_lookup_insert_ne in Hl by done. specialize (Hl Ht').
  assert (weight k (@Raised HANDLE) = 0) by by destruct k. lia.
Qed.

Lemma total_length k ts : k <> KSignalS -> total k ts <= Z.of_nat (length ts).
Proof.
  intros Hk. induction ts as [|p ts IH]; simpl; [lia|].
  assert (weight k p <= 1); [|lia].
  destruct k, p as [| | | | | | | | | | | |[]| | | | | | | | | |]; simpl; (done || lia).
Qed.

Lemma total_pos k ts : 0 < total k ts -> exists t p, ts !! t = Some p /\ 0 < weight k p.
Proof.
  induction ts as [|q ts IH]; simpl; [lia|]. intros Hpos.
  destruct (decide (0 < weight k q)); [by exists 0%nat, q|].
  destruct IH as (t & p & ? & ?); [pose proof (weight_nonneg k q); lia|]. by exists (S t), p.
Qed.

Lemma total_idle k n : total k (replicate n (@Idle HANDLE)) = 0.
Proof. induction n as [|n IH]; simpl; [done|]. rewrite IH. by destruct k. Qed.

End counting.

(** ** The invariant of the lock word

    [c] counts the threads, [cx] and [cs] are the counts of the two semaphores. *)
Definition word_inv (v cx cs : Z) (c : kind -> Z) : Prop :=
  exists o w sw ew, ranges o w (c KOwnS) sw ew /\ v = enc o w (c KOwnS) sw ew /\
    w = c KSignalX + cx + c KWoken /\ ew + c KSignalX + cx = c KWaitX /\
    sw + c KSignalS + cs = c KWaitS /\
    (o = 0 /\ c KOwnX = 0 /\ c KOwnS = 0 \/
     o = 1 /\ (c KOwnX = 1 /\ c KOwnS = 0 \/ c KOwnX = 0 /\ 0 < c KOwnS)) /\
    (w = 1 -> o = 0) /\ (0 < ew -> o = 1 \/ w = 1) /\ (0 < sw -> c KOwnX = 1 \/ 0 < ew \/ w = 1).

(** The conditions under which a thread registers as a waiter. *)
Definition must_wait (e : event) (v : Z) : Prop :=
  match e with
  | Exclusive => any v (Z.lor PH_LOCK_OWNED PH_LOCK_EXCLUSIVE_WAKING) = true
  | Shared =>
      any v (Z.lor (Z.lor PH_LOCK_OWNED
        (Z.shiftl PH_LOCK_SHARED_OWNERS_MASK PH_LOCK_SHARED_OWNERS_SHIFT)) PH_LOCK_EXCLUSIVE_MASK)
        = true /\
      any v PH_LOCK_OWNED &&
        (0 <? field v PH_LOCK_SHARED_OWNERS_SHIFT PH_LOCK_SHARED_OWNERS_MASK) &&
        negb (any v PH_LOCK_EXCLUSIVE_MASK) = false
  end.

Section transitions.
Context {HANDLE : Type}.
Implicit Types (p : pc HANDLE).
Context (v cx cs : Z) (c c' : kind -> Z) (p p' : pc HANDLE).
Context (Hinv : word_inv v cx cs c).
Context (Hcx : 0 <= cx) (Hcs : 0 <= cs) (Hc : forall k, weight k p <= c k /\ 0 <= c k).
Context (Hc' : forall k, c' k = c k - weight k p + weight k p').
Context (Hlen : forall k, k <> KSignalS -> c' k <= 1023).

Ltac counts :=
  pose proof (Hc KOwnX); pose proof (Hc KOwnS); pose proof (Hc KWaitX); pose proof (Hc KWaitS);
  pose proof (Hc KWoken); pose proof (Hc KSignalX); pose proof (Hc KSignalS);
  pose proof (Hc' KOwnX); pose proof (Hc' KOwnS); pose proof (Hc' KWaitX); pose proof (Hc' KWaitS);
  pose proof (Hc' KWoken); pose proof (Hc' KSignalX); pose proof (Hc' KSignalS);
  pose proof (Hlen KOwnS ltac:(done)); pose proof (Hlen KWaitX ltac:(done));
  pose proof (Hlen KWaitS ltac:(done)).

Ltac open_word :=
  destruct Hinv as (o & w & sw & ew & Hr & -> & Hw & Hew & Hsw & Hown & Hwo & Hewo & Hswo).

(** Close a transition whose new fields are given: the encoding, then the counts. *)
Ltac close_word o w sw ew :=
  exists o, w, sw, ew; unfold ranges, enc, u32, PH_LOCK_OWNED, PH_LOCK_EXCLUSIVE_WAKING,
    PH_LOCK_SHARED_OWNERS_INC, PH_LOCK_SHARED_WAITERS_INC, PH_LOCK_EXCLUSIVE_WAITERS_INC in *;
  counts; simpl weight in *; rewrite ?Z.mod_small by lia; split_and!; lia.

Ltac weights Hp :=
  pose proof (Hp KOwnX); pose proof (Hp KOwnS); pose proof (Hp KWaitX); pose proof (Hp KWaitS);
  pose proof (Hp KWoken); pose proof (Hp KSignalX); pose proof (Hp KSignalS).

Lemma word_same : (forall k, weight k p = weight k p') -> word_inv v cx cs c'.
Proof.
  intros Hs. assert (E : forall k, c' k = c k) by (intros k; rewrite Hc', Hs; lia).
  unfold word_inv in *. by rewrite !E.
Qed.

Ltac word_tests :=
  repeat first
    [ rewrite any_lor | rewrite any_owned by eassumption | rewrite any_waking by eassumption
    | rewrite any_shared_owners by eassumption | rewrite any_exclusive by eassumption
    | rewrite field_shared_owners by eassumption | rewrite field_shared_waiters by eassumption
    | rewrite field_exclusive_waiters by eassumption ].

Lemma take_exclusive :
  any v (Z.lor PH_LOCK_OWNED PH_LOCK_EXCLUSIVE_WAKING) = false ->
  (forall k, weight k p = 0) -> p' = OwnX -> word_inv (v +₃₂ PH_LOCK_OWNED) cx cs c'.
Proof.
  intros Ht Hp ->. open_word. revert Ht. word_tests. intros Ht.
  weights Hp. close_word 1 0 sw ew.
Qed.

Lemma take_shared :
  any v PH_LOCK_OWNED = false -> any v PH_LOCK_EXCLUSIVE_MASK = false ->
  (forall k, weight k p = 0) -> p' = OwnS ->
  word_inv (u32 (v + PH_LOCK_OWNED + PH_LOCK_SHARED_OWNERS_INC)) cx cs c'.
Proof.
  intros Ho Hx Hp ->. open_word. revert Ho Hx. word_tests. intros Ho Hx.
  weights Hp. close_word 1 0 sw 0.
Qed.

Lemma join_shared :
  any v PH_LOCK_OWNED = true ->
  0 < field v PH_LOCK_SHARED_OWNERS_SHIFT PH_LOCK_SHARED_OWNERS_MASK ->
  any v PH_LOCK_EXCLUSIVE_MASK = false ->
  (forall k, weight k p = 0) -> p' = OwnS -> word_inv (v +₃₂ PH_LOCK_SHARED_OWNERS_INC) cx cs c'.
Proof.
  intros Ho Hf Hx Hp ->. open_word. revert Ho Hf Hx. word_tests. intros Ho Hf Hx.
  weights Hp. close_word 1 0 sw 0.
Qed.

Lemma register_exclusive i :
  must_wait Exclusive v -> (forall k, weight k p = 0) -> p' = Wait Exclusive i ->
  word_inv (v +₃₂ PH_LOCK_EXCLUSIVE_WAITERS_INC) cx cs c'.
Proof.
  unfold must_wait. intros Ht Hp ->. open_word. revert Ht. word_tests. intros Ht.
  weights Hp. close_word o w sw (ew + 1).
Qed.

Lemma register_shared i :
  must_wait Shared v -> (forall k, weight k p = 0) -> p' = Wait Shared i ->
  word_inv (v +₃₂ PH_LOCK_SHARED_WAITERS_INC) cx cs c'.
Proof.
  unfold must_wait. intros [Ht Ht'] Hp ->. open_word. revert Ht Ht'. word_tests. intros Ht Ht'.
  weights Hp. close_word o w (sw + 1) ew.
Qed.

Lemma claim_word value :
  p = XClaim value -> p' = OwnX ->
  word_inv (u32 (v + PH_LOCK_OWNED - PH_LOCK_EXCLUSIVE_WAKING)) cx cs c'.
Proof. intros -> ->. open_word. close_word 1 0 sw ew. Qed.

Lemma release_exclusive_to_exclusive value :
  field v PH_LOCK_EXCLUSIVE_WAITERS_SHIFT PH_LOCK_EXCLUSIVE_WAITERS_MASK <> 0 ->
  p = RXTry value -> p' = SignalX ->
  word_inv (u32 (v - PH_LOCK_OWNED + PH_LOCK_EXCLUSIVE_WAKING - PH_LOCK_EXCLUSIVE_WAITERS_INC))
    cx cs c'.
Proof.
  intros Ht -> ->. open_word. revert Ht. word_tests. intros Ht. close_word 0 1 sw (ew - 1).
Qed.

Lemma release_exclusive_to_shared value :
  field v PH_LOCK_EXCLUSIVE_WAITERS_SHIFT PH_LOCK_EXCLUSIVE_WAITERS_MASK = 0 ->
  let n := field v PH_LOCK_SHARED_WAITERS_SHIFT PH_LOCK_SHARED_WAITERS_MASK in
  p = RXTry value -> p' = (if negb (n =? 0) then SignalS n else Idle) ->
  word_inv (Z.ldiff v (Z.lor PH_LOCK_OWNED
    (Z.shiftl PH_LOCK_SHARED_WAITERS_MASK PH_LOCK_SHARED_WAITERS_SHIFT))) cx cs c'.
Proof.
  intros Ht n -> Hp'. revert Hp'. subst n. open_word. revert Ht. word_tests. intros Ht Hp'.
  rewrite free_exclusive by done.
  assert (forall k, weight k p' = match k with KSignalS => sw | _ => 0 end) as Hp.
  { subst p'. unfold ranges in Hr. destruct (Z.eqb_spec sw 0) as [->|]; intros []; simpl; lia. }
  clear Hp'. weights Hp. close_word 0 w 0 ew.
Qed.

Lemma leave_shared value :
  1 < field v PH_LOCK_SHARED_OWNERS_SHIFT PH_LOCK_SHARED_OWNERS_MASK ->
  p = RSTry value -> p' = Idle -> word_inv (v -₃₂ PH_LOCK_SHARED_OWNERS_INC) cx cs c'.
Proof. intros Ht -> ->. open_word. revert Ht. word_tests. intros Ht. close_word o w sw ew. Qed.

Lemma release_shared_to_exclusive value :
  field v PH_LOCK_SHARED_OWNERS_SHIFT PH_LOCK_SHARED_OWNERS_MASK <= 1 ->
  field v PH_LOCK_EXCLUSIVE_WAITERS_SHIFT PH_LOCK_EXCLUSIVE_WAITERS_MASK <> 0 ->
  p = RSTry value -> p' = SignalX ->
  word_inv (u32 (v - PH_LOCK_OWNED + PH_LOCK_EXCLUSIVE_WAKING - PH_LOCK_SHARED_OWNERS_INC -
    PH_LOCK_EXCLUSIVE_WAITERS_INC)) cx cs c'.
Proof.
  intros Ht Hx -> ->. open_word. revert Ht Hx. word_tests. intros Ht Hx. close_word 0 1 sw (ew - 1).
Qed.

Lemma release_shared_last value :
  field v PH_LOCK_SHARED_OWNERS_SHIFT PH_LOCK_SHARED_OWNERS_MASK <= 1 ->
  field v PH_LOCK_EXCLUSIVE_WAITERS_SHIFT PH_LOCK_EXCLUSIVE_WAITERS_MASK = 0 ->
  p = RSTry value -> p' = Idle ->
  word_inv (u32 (v - PH_LOCK_OWNED - PH_LOCK_SHARED_OWNERS_INC)) cx cs c'.
Proof.
  intros Ht Hx -> ->. open_word. revert Ht Hx. word_tests. intros Ht Hx. close_word 0 0 0 0.
Qed.

(** The semaphores: a permit handed over, and a permit taken. *)
Lemma signal_exclusive : p = SignalX -> p' = Idle -> word_inv v (cx + 1) cs c'.
Proof. intros -> ->. open_word. close_word o w sw ew. Qed.

Lemma signal_shared n : 0 < n -> p = SignalS n -> p' = Idle -> word_inv v cx (cs + n) c'.
Proof. intros ? -> ->. open_word. close_word o w sw ew. Qed.

Lemma woken_exclusive i : 0 < cx -> p = Wait Exclusive i -> p' = XWoken -> word_inv v (cx - 1) cs c'.
Proof. intros ? -> ->. open_word. close_word o w sw ew. Qed.

Lemma woken_shared i : 0 < cs -> p = Wait Shared i -> p' = SRead i -> word_inv v cx (cs - 1) c'.
Proof. intros ? -> ->. open_word. close_word o w sw ew. Qed.

End transitions.

(** ** The invariant *)

Section invariant.
Context {K HANDLE : Type} `{SemaphoreLaws K HANDLE}.
Implicit Types (g : PH_FAST_LOCK K HANDLE) (p : pc HANDLE) (ts : list (pc HANDLE)).

(** The number of permits a wake event holds; none before it is created. *)
Definition permits g (e : event) : Z :=
  match wake_event g e with Some h => default 0 (sem (kernel g) h) | None => 0 end.

(** The semaphore a thread has created and not published yet. *)
Definition private p : option HANDLE :=
  match p with Ensure _ _ _ (EnsPublish h) => Some h | _ => None end.

(** Local facts a thread carries across steps. *)
Definition pc_ok g p : Prop :=
  match p with
  | Ensure e value _ _ => must_wait e value
  | Register e value _ => must_wait e value /\ wake_event g e <> None
  | Wait e _ => wake_event g e <> None
  | SignalX => wake_event g Exclusive <> None
  | SignalS n => wake_event g Shared <> None /\ 0 < n
  | Raised => False
  | _ => True
  end.

Record handles_ok g ts : Prop := {
  live : forall e h, wake_event g e = Some h -> exists n, sem (kernel g) h = Some n /\ 0 <= n;
  distinct : forall h, wake_event g Exclusive = Some h -> wake_event g Shared <> Some h;
  private_live : forall t p h, ts !! t = Some p -> private p = Some h ->
    sem (kernel g) h = Some 0 /\ forall e, wake_event g e <> Some h;
  private_distinct : forall t t' p p' h, ts !! t = Some p -> ts !! t' = Some p' ->
    private p = Some h -> private p' = Some h -> t = t';
}.

Record inv g ts : Prop := {
  inv_pcs : Forall (pc_ok g) ts;
  inv_word : word_inv (Value g) (permits g Exclusive) (permits g Shared) (fun k => total k ts);
  inv_handles : handles_ok g ts;
}.

Lemma pc_ok_mono g g' p :
  (forall e, wake_event g e <> None -> wake_event g' e <> None) -> pc_ok g p -> pc_ok g' p.
Proof.
  intros Hm. destruct p; cbn [pc_ok]; try done; try apply Hm; intros [? ?]; split; auto.
Qed.

Lemma distinct_events g ts e e' h h' :
  handles_ok g ts -> wake_event g e = Some h -> wake_event g e' = Some h' -> e <> e' -> h' <> h.
Proof.
  intros Hk He He' Hne ->. pose proof (distinct g ts Hk). destruct e, e'; naive_solver.
Qed.

Lemma private_insert ts t p' t1 p1 h :
  private p' = None -> <[t := p']> ts !! t1 = Some p1 -> private p1 = Some h ->
  t1 <> t /\ ts !! t1 = Some p1.
Proof.
  intros Hp' Ht1 Hpr. apply list_lookup_insert_Some in Ht1 as [(-> & -> & _)|[? ?]]; [congruence|done].
Qed.

(** A step that leaves handles and kernel alone. *)
Lemma handles_same g g' ts t p' :
  handles_ok g ts -> kernel g' = kernel g -> (forall e, wake_event g' e = wake_event g e) ->
  private p' = None -> handles_ok g' (<[t := p']> ts).
Proof.
  intros [Hl Hd Hp Hpd] Hk He Hp'. split; intros *; rewrite ?Hk, ?He.
  - apply Hl.
  - apply Hd.
  - intros Ht Hpr. destruct (private_insert _ _ _ _ _ _ Hp' Ht Hpr) as [_ Ht'].
    destruct (Hp t0 p h Ht' Hpr) as [? Hne]. split; [done|]. intros e. by rewrite He.
  - intros Ht1 Ht2 Hpr1 Hpr2. destruct (private_insert _ _ _ _ _ _ Hp' Ht1 Hpr1) as [_ Ht1'].
    destruct (private_insert _ _ _ _ _ _ Hp' Ht2 Hpr2) as [_ Ht2']. by eapply Hpd.
Qed.

(** The kernel's semaphores change, but for those of [ts] and the wake events, as said. *)
Lemma handles_kernel g k' ts t p' :
  handles_ok g ts -> private p' = None ->
  (forall e h, wake_event g e = Some h -> exists n, sem k' h = Some n /\ 0 <= n) ->
  (forall t' p h, t' <> t -> ts !! t' = Some p -> private p = Some h -> sem k' h = sem (kernel g) h) ->
  handles_ok (set_kernel g k') (<[t := p']> ts).
Proof.
  intros [Hl Hd Hp Hpd] Hp' Hl' Hs. split; intros *.
  - apply Hl'.
  - apply Hd.
  - intros Ht Hpr. destruct (private_insert _ _ _ _ _ _ Hp' Ht Hpr) as [Hne Ht'].
    destruct (Hp t0 p h Ht' Hpr) as [Hz ?]. split; [|done]. simpl. by rewrite (Hs t0 p h) by done.
  - intros Ht1 Ht2 Hpr1 Hpr2. destruct (private_insert _ _ _ _ _ _ Hp' Ht1 Hpr1) as [_ Ht1'].
    destruct (private_insert _ _ _ _ _ _ Hp' Ht2 Hpr2) as [_ Ht2']. by eapply Hpd.
Qed.

Lemma permits_nonneg g ts e : handles_ok g ts -> 0 <= permits g e.
Proof.
  intros Hk. unfold permits. destruct (wake_event g e) as [h|] eqn:He; [|done].
  destruct (live g ts Hk e h He) as (n & -> & ?). done.
Qed.

(** [PhpEnsureEventCreated]: permits do not change, and the event exists at the end. *)
Lemma ensure_inv g ts t e value i at_ g' p' :
  handles_ok g ts -> ts !! t = Some (Ensure e value i at_) -> must_wait e value ->
  PhpEnsureEventCreated g e value i at_ = (g', p') ->
  handles_ok g' (<[t := p']> ts) /\ Value g' = Value g /\
  (forall e', permits g' e' = permits g e') /\
  (forall e', wake_event g e' <> None -> wake_event g' e' <> None) /\
  pc_ok g' p' /\ (forall k, weight k p' = 0).
Proof.
  intros Hk Ht Hm Hstep. unfold PhpEnsureEventCreated in Hstep. destruct at_ as [| |handle].
  - (* the first test *)
    assert (handles_ok g (<[t := Register e value i]> ts)) by by eapply handles_same.
    assert (handles_ok g (<[t := Ensure e value i EnsCreate]> ts)) by by eapply handles_same.
    destruct (wake_event g e) eqn:He; simplify_eq; split_and!; try done; try (by intros []).
    cbn [pc_ok]. by rewrite He.
  - (* creation *)
    pose proof (create_law (kernel g)) as Hcr. destruct (NtCreateSemaphore (kernel g)) as [k h].
    destruct Hcr as (Hfresh & Hz & Hsame). simplify_eq.
    assert (Hev : forall e' h', wake_event g e' = Some h' -> h' <> h).
    { intros e' h' He' ->. destruct (live g ts Hk e' h He') as (n & Hn & _). congruence. }
    assert (Hpv : forall t' p h', ts !! t' = Some p -> private p = Some h' -> h' <> h).
    { intros t' p h' Ht' Hpr ->. destruct (private_live g ts Hk t' p h Ht' Hpr). congruence. }
    split_and!; try done; try (by intros []).
    + destruct Hk as [Hl Hd Hp Hpd]. split.
      * intros e' h' He'. simpl. rewrite Hsame by eauto. by apply (Hl e').
      * apply Hd.
      * intros t' p h' Ht' Hpr. apply list_lookup_insert_Some in Ht' as [(-> & <- & _)|[_ Ht']];
          simpl in *; simplify_eq.
        { split; [done|]. intros e' He'. by apply (Hev e' h'). }
        rewrite Hsame by eauto. by apply (Hp t' p).
      * intros t1 t2 p1 p2 h' Ht1 Ht2 Hpr1 Hpr2.
        apply list_lookup_insert_Some in Ht1 as [(-> & <- & _)|[_ Ht1]];
          apply list_lookup_insert_Some in Ht2 as [(-> & <- & _)|[_ Ht2]];
          simpl in *; simplify_eq; try done; try (by exfalso; eapply Hpv). by eapply Hpd.
    + intros e'. unfold permits. simpl. change (wake_event (set_kernel g k) e') with (wake_event g e').
      destruct (wake_event g e') as [h'|] eqn:He'; [|done]. rewrite Hsame; [done|by eapply Hev].
  - (* publication *)
    destruct (private_live g ts Hk t _ handle Ht eq_refl) as [Hz Hne].
    destruct (wake_event g e) as [h0|] eqn:He; simplify_eq.
    + assert (Hcl : forall h', h' <> handle -> sem (NtClose (kernel g) handle) h' = sem (kernel g) h')
        by (intros; by apply close_law).
      split_and!; try done; try (by intros []).
      * apply handles_kernel; [done|done| |].
        { intros e' h' He'. rewrite Hcl; [by apply (live g ts Hk e')|]. intros ->. by apply (Hne e'). }
        intros t' p h' Htt Ht' Hpr. apply Hcl. intros ->. apply Htt.
        by apply (private_distinct g ts Hk t' t p _ handle Ht' Ht Hpr).
      * intros e'. unfold permits.
        change (wake_event (set_kernel _ _) e') with (wake_event g e').
        destruct (wake_event g e') as [h'|] eqn:He'; [|done]. simpl. rewrite Hcl; [done|].
        intros ->. by apply (Hne e').
      * simpl. change (wake_event (set_kernel _ _) e) with (wake_event g e). by rewrite He.
    + assert (Hev : forall e', wake_event (set_event g e (Some handle)) e' =
        if decide (e' = e) then Some handle else wake_event g e') by (by intros []; destruct e).
      split_and!; try done; try (by intros []).
      * split; simpl kernel.
        { intros e' h' He'. rewrite Hev in He'. case_decide; simplify_eq; [by exists 0|].
          by apply (live g ts Hk e'). }
        { intros h' HX HS. rewrite Hev in HX, HS. pose proof (Hne Exclusive). pose proof (Hne Shared).
          pose proof (distinct g ts Hk h'). repeat case_decide; simplify_eq; tauto. }
        { intros t' p h' Ht' Hpr. destruct (private_insert ts t (Register e value i) _ _ _ eq_refl Ht' Hpr) as [Htt Ht''].
          destruct (private_live g ts Hk t' p h' Ht'' Hpr) as [? Hne']. split; [done|].
          intros e'. rewrite Hev. case_decide; [|done]. intros [=<-]. apply Htt.
          by apply (private_distinct g ts Hk t' t p _ handle Ht'' Ht Hpr). }
        intros t1 t2 p1 p2 h' Ht1 Ht2 Hp1 Hp2.
        destruct (private_insert ts t (Register e value i) _ _ _ eq_refl Ht1 Hp1) as [_ ?].
        destruct (private_insert ts t (Register e value i) _ _ _ eq_refl Ht2 Hp2) as [_ ?].
        by eapply (private_distinct g ts Hk).
      * intros e'. unfold permits. rewrite Hev. simpl kernel. case_decide; [|done]. subst e'.
        by rewrite He, Hz.
      * intros e' Hn. rewrite Hev. by case_decide.
      * cbn [pc_ok]. rewrite Hev. by rewrite decide_True.
Qed.

Lemma waiters_exist v cx cs (c : kind -> Z) :
  word_inv v cx cs c -> 0 <= cx -> 0 <= cs -> (forall k, 0 <= c k) ->
  (field v PH_LOCK_EXCLUSIVE_WAITERS_SHIFT PH_LOCK_EXCLUSIVE_WAITERS_MASK <> 0 -> 0 < c KWaitX) /\
  (field v PH_LOCK_SHARED_WAITERS_SHIFT PH_LOCK_SHARED_WAITERS_MASK <> 0 -> 0 < c KWaitS).
Proof.
  intros (o & w & sw & ew & Hr & -> & Hw & Hew & Hsw & _) Hx Hs Hc.
  rewrite field_exclusive_waiters, field_shared_waiters by done.
  pose proof (Hc KSignalX). pose proof (Hc KSignalS). unfold ranges in Hr. lia.
Qed.

(** A permit taken from, or given to, a wake event. *)
Lemma kernel_event_inv g ts t p p' e h n n' k' :
  handles_ok g ts -> ts !! t = Some p -> private p' = None ->
  wake_event g e = Some h -> sem (kernel g) h = Some n -> 0 <= n' ->
  sem k' h = Some n' -> (forall h', h' <> h -> sem k' h' = sem (kernel g) h') ->
  handles_ok (set_kernel g k') (<[t := p']> ts) /\
  forall e', permits (set_kernel g k') e' = permits g e' + (if decide (e' = e) then n' - n else 0).
Proof.
  intros Hk Ht Hp' He Hn Hn' Hh Hsame. split.
  - apply handles_kernel; [done|done| |].
    + intros e' h' He'. destruct (decide (e' = e)) as [->|Hne]; [simplify_eq; by exists n'|].
      rewrite Hsame by (by eapply (distinct_events g ts e e')). by apply (live g ts Hk e').
    + intros t' q h' _ Ht' Hq. apply Hsame. intros ->.
      by destruct (private_live g ts Hk t' q h Ht' Hq) as [_ []%(fun f => f e)].
  - intros e'. unfold permits. change (wake_event (set_kernel g k') e') with (wake_event g e').
    simpl kernel. case_decide as Hee.
    + subst e'. rewrite He, Hh, Hn. simpl. lia.
    + destruct (wake_event g e') as [h'|] eqn:He'; [|done].
      rewrite Hsame by (by eapply (distinct_events g ts e e')). lia.
Qed.

(** A waiting thread implies that its event exists. *)
Lemma waiting_event g ts e :
  Forall (pc_ok g) ts ->
  0 < total (match e with Exclusive => KWaitX | Shared => KWaitS end) ts -> wake_event g e <> None.
Proof.
  intros Hall Hpos. destruct (total_pos _ _ Hpos) as (t & p & Ht & Hw).
  pose proof (Forall_lookup_1 _ _ _ _ Hall Ht) as Hok.
  destruct e; destruct p as [| | | | | | | | | | | |[]| | | | | | | | | |]; simpl in Hw; (lia || done).
Qed.

Section one_step.
Context (N : Z) (g : PH_FAST_LOCK K HANDLE) (ts : list (pc HANDLE)) (t : nat) (p : pc HANDLE).
Context (Hinv : inv g ts) (Ht : ts !! t = Some p) (Hlen : (length ts <= 1023)%nat).

Lemma thread_facts p' :
  (forall k, weight k p <= total k ts /\ 0 <= total k ts) /\
  (forall k, total k (<[t := p']> ts) = total k ts - weight k p + weight k p') /\
  (forall k, k <> KSignalS -> total k (<[t := p']> ts) <= 1023) /\
  0 <= permits g Exclusive /\ 0 <= permits g Shared.
Proof.
  split_and!.
  - intros k. split; [by apply total_lookup with t|apply total_nonneg].
  - intros k. by apply total_insert.
  - intros k Hk. pose proof (total_length k (<[t := p']> ts) Hk). rewrite length_insert in *. lia.
  - eapply permits_nonneg, Hinv.
  - eapply permits_nonneg, Hinv.
Qed.

(** A step whose only effect, beside the program counter, is on the word. *)
Lemma word_step v' p' :
  private p' = None -> pc_ok g p' ->
  word_inv v' (permits g Exclusive) (permits g Shared) (fun k => total k (<[t := p']> ts)) ->
  inv (set_value g v') (<[t := p']> ts).
Proof.
  intros Hp Hok Hw. destruct Hinv as [Hpcs _ Hh]. split; [|done|by eapply handles_same].
  apply Forall_insert; [|by eapply pc_ok_mono; [|exact Hok]].
  eapply Forall_impl; [exact Hpcs|]. intros q. by apply pc_ok_mono.
Qed.

(** A failed exchange, or a move that touches nothing shared. *)
Lemma local_step p' :
  private p' = None -> pc_ok g p' -> (forall k, weight k p = weight k p') -> inv g (<[t := p']> ts).
Proof.
  intros Hp Hok Hw. destruct (thread_facts p') as (Hc & Hc' & Hl & Hx & Hs).
  assert (E : g = set_value g (Value g)) by by destruct g. rewrite E. apply word_step; [done|done|].
  eapply word_same; [apply Hinv|exact Hc'|exact Hw].
Qed.

Lemma cas_step old new p1 p2 g' ok :
  cas g old new = (g', ok) ->
  private p1 = None -> (Value g = old -> pc_ok g p1) ->
  (Value g = old -> word_inv new (permits g Exclusive) (permits g Shared) (fun k => total k (<[t := p1]> ts))) ->
  private p2 = None -> pc_ok g p2 -> (forall k, weight k p = weight k p2) ->
  inv g' (<[t := if ok then p1 else p2]> ts).
Proof.
  unfold cas. intros Hcas Hp1 Hok1 Hw1 Hp2 Hok2 Hw2.
  destruct (Z.eqb_spec (Value g) old) as [He|]; injection Hcas as <- <-; [|by apply local_step].
  apply word_step; auto.
Qed.

(** A thread that has found waiters registered in the word finds their event. *)
Lemma waiters_event v :
  Value g = v ->
  (field v PH_LOCK_EXCLUSIVE_WAITERS_SHIFT PH_LOCK_EXCLUSIVE_WAITERS_MASK <> 0 ->
    wake_event g Exclusive <> None) /\
  (field v PH_LOCK_SHARED_WAITERS_SHIFT PH_LOCK_SHARED_WAITERS_MASK <> 0 ->
    wake_event g Shared <> None).
Proof.
  intros <-. destruct (thread_facts p) as (Hc & _ & _ & Hx & Hs).
  destruct (waiters_exist _ _ _ _ (inv_word g ts Hinv) Hx Hs) as [HX HS]; [intros; apply Hc|].
  split; intros Hn.
  - apply (waiting_event g ts Exclusive (inv_pcs g ts Hinv)). by apply HX.
  - apply (waiting_event g ts Shared (inv_pcs g ts Hinv)). by apply HS.
Qed.

(** The operations of the lock. *)
Ltac side := first [done | reflexivity | (intros []; first [done | by match goal with E : p = _ |- _ => rewrite E end])].
Ltac use L p' :=
  destruct (thread_facts p') as (?&?&?&?&?); let Hval := fresh in intros Hval;
  match type of Hval with _ = ?v => subst v end;
  eapply L; [exact (inv_word g ts Hinv)|..]; try eassumption; try side.

(** A step that is one exchange, or nothing. *)
Ltac exchange Hstep L p1 :=
  let g1 := fresh "g1" in let ok := fresh "ok" in let Hcas := fresh "Hcas" in
  destruct (cas _ _ _) as [g1 ok] eqn:Hcas; injection Hstep as <- <-;
  eapply (cas_step _ _ p1); [exact Hcas|try side|try side|use L p1|try side|try side|try side].
Ltac no_exchange Hstep := injection Hstep as <- <-; apply local_step; side.

Lemma acquire_exclusive_inv value i g' p' :
  p = XTry value i -> PhfAcquireFastLockExclusive N g value i = (g', p') ->
  inv g' (<[t := p']> ts).
Proof.
  intros Hp Hstep. unfold PhfAcquireFastLockExclusive in Hstep.
  destruct (any value _) eqn:Ha; cbn [negb] in Hstep.
  - destruct (_ <=? i); no_exchange Hstep.
  - exchange Hstep (@take_exclusive HANDLE) (@OwnX HANDLE).
Qed.

Lemma claim_exclusive_inv value g' p' :
  p = XClaim value -> claim_exclusive g value = (g', p') -> inv g' (<[t := p']> ts).
Proof.
  intros Hp Hstep. unfold claim_exclusive in Hstep. exchange Hstep (@claim_word HANDLE) (@OwnX HANDLE).
Qed.

Lemma try_acquire_exclusive_inv value g' ok :
  p = TXTry value -> PhfTryAcquireFastLockExclusive g value = (g', ok) ->
  inv g' (<[t := if ok then OwnX else Idle]> ts).
Proof.
  intros Hp Hstep. unfold PhfTryAcquireFastLockExclusive in Hstep.
  destruct (any value _) eqn:Ha; [no_exchange Hstep|].
  eapply cas_step; [exact Hstep|side|side|use (@take_exclusive HANDLE) (@OwnX HANDLE)|side|side|side].
Qed.

Lemma acquire_shared_inv value i g' p' :
  p = STry value i -> PhfAcquireFastLockShared N g value i = (g', p') -> inv g' (<[t := p']> ts).
Proof.
  intros Hp Hstep. unfold PhfAcquireFastLockShared in Hstep.
  destruct (any value (Z.lor _ PH_LOCK_EXCLUSIVE_MASK)) eqn:Ha; cbn [negb] in Hstep.
  - destruct (any value PH_LOCK_OWNED && (0 <? _) && _) eqn:Hb.
    + exchange Hstep (@join_shared HANDLE) (@OwnS HANDLE); apply andb_prop in Hb as [Hb ?%negb_true_iff];
        apply andb_prop in Hb as [? ?%Z.ltb_lt]; done.
    + destruct (_ <=? i); no_exchange Hstep.
  - rewrite !any_lor in Ha. apply orb_false_elim in Ha as [Ha1 ?].
    apply orb_false_elim in Ha1 as [? ?]. exchange Hstep (@take_shared HANDLE) (@OwnS HANDLE).
Qed.

Lemma try_acquire_shared_inv value g' ok :
  p = TSTry value -> PhfTryAcquireFastLockShared g value = (g', ok) ->
  inv g' (<[t := if ok then OwnS else Idle]> ts).
Proof.
  intros Hp Hstep. unfold PhfTryAcquireFastLockShared in Hstep.
  destruct (any value PH_LOCK_EXCLUSIVE_MASK) eqn:Ha; [no_exchange Hstep|].
  destruct (any value PH_LOCK_OWNED) eqn:Ho; cbn [negb] in Hstep.
  - destruct (Z.eqb_spec (field value PH_LOCK_SHARED_OWNERS_SHIFT PH_LOCK_SHARED_OWNERS_MASK) 0)
      as [|Hf]; cbn [negb] in Hstep; [no_exchange Hstep|].
    assert (0 < field value PH_LOCK_SHARED_OWNERS_SHIFT PH_LOCK_SHARED_OWNERS_MASK).
    { pose proof (field_nonneg value PH_LOCK_SHARED_OWNERS_SHIFT PH_LOCK_SHARED_OWNERS_MASK
        ltac:(done)). lia. }
    eapply cas_step; [exact Hstep|side|side|use (@join_shared HANDLE) (@OwnS HANDLE)|side|side|side].
  - eapply cas_step; [exact Hstep|side|side|use (@take_shared HANDLE) (@OwnS HANDLE)|side|side|side].
Qed.

Lemma release_exclusive_inv value g' p' :
  p = RXTry value -> PhfReleaseFastLockExclusive g value = (g', p') -> inv g' (<[t := p']> ts).
Proof.
  intros Hp Hstep. unfold PhfReleaseFastLockExclusive in Hstep.
  destruct (Z.eqb_spec (field value PH_LOCK_EXCLUSIVE_WAITERS_SHIFT PH_LOCK_EXCLUSIVE_WAITERS_MASK) 0)
    as [He|He]; cbn [negb] in Hstep.
  - set (n := field value PH_LOCK_SHARED_WAITERS_SHIFT PH_LOCK_SHARED_WAITERS_MASK) in *.
    exchange Hstep (@release_exclusive_to_shared HANDLE) (if negb (n =? 0) then @SignalS HANDLE n else Idle).
    + by destruct (n =? 0).
    + intros Hv. destruct (Z.eqb_spec n 0); cbn [negb]; [done|].
      split; [by apply (waiters_event value Hv)|].
      pose proof (field_nonneg value PH_LOCK_SHARED_WAITERS_SHIFT PH_LOCK_SHARED_WAITERS_MASK ltac:(done)). lia.
  - exchange Hstep (@release_exclusive_to_exclusive HANDLE) (@SignalX HANDLE).
    intros Hv. by apply (waiters_event value Hv).
Qed.

Lemma release_shared_inv value g' p' :
  p = RSTry value -> PhfReleaseFastLockShared g value = (g', p') -> inv g' (<[t := p']> ts).
Proof.
  intros Hp Hstep. unfold PhfReleaseFastLockShared in Hstep.
  destruct (Z.ltb_spec 1 (field value PH_LOCK_SHARED_OWNERS_SHIFT PH_LOCK_SHARED_OWNERS_MASK)).
  { exchange Hstep (@leave_shared HANDLE) (@Idle HANDLE). }
  destruct (Z.eqb_spec (field value PH_LOCK_EXCLUSIVE_WAITERS_SHIFT PH_LOCK_EXCLUSIVE_WAITERS_MASK) 0)
    as [He|He]; cbn [negb] in Hstep.
  - exchange Hstep (@release_shared_last HANDLE) (@Idle HANDLE).
  - exchange Hstep (@release_shared_to_exclusive HANDLE) (@SignalX HANDLE).
    intros Hv. by apply (waiters_event value Hv).
Qed.

Lemma register_inv e value i g' p' :
  p = Register e value i -> register_waiter g e value i = (g', p') -> inv g' (<[t := p']> ts).
Proof.
  intros Hp Hstep. unfold register_waiter in Hstep.
  pose proof (Forall_lookup_1 _ _ _ _ (inv_pcs g ts Hinv) Ht) as Hok. rewrite Hp in Hok.
  destruct Hok as [Hm He]. destruct e.
  - exchange Hstep (@register_exclusive HANDLE) (@Wait HANDLE Exclusive i).
  - exchange Hstep (@register_shared HANDLE) (@Wait HANDLE Shared i).
Qed.

Lemma ensure_step_inv e value i at_ g' p' :
  p = Ensure e value i at_ -> PhpEnsureEventCreated g e value i at_ = (g', p') ->
  inv g' (<[t := p']> ts).
Proof.
  intros Hp Hstep. destruct Hinv as [Hpcs Hword Hh].
  pose proof (Forall_lookup_1 _ _ _ _ Hpcs Ht) as Hok. rewrite Hp in Hok, Ht.
  destruct (ensure_inv g ts t e value i at_ g' p' Hh Ht Hok Hstep) as (Hh' & Hv & Hperm & Hmono & Hok' & Hw).
  split; [|rewrite Hv, !Hperm|done].
  - apply Forall_insert; [|done]. eapply Forall_impl; [exact Hpcs|]. intros q. by apply pc_ok_mono.
  - unfold word_inv in *. rewrite !(total_insert _ ts t _ p' Ht), !Hw. simpl weight.
    by rewrite !Z.sub_0_r, !Z.add_0_r.
Qed.

(** A change of one semaphore's count that moves the word invariant along. *)
Lemma permit_step e h n n' k' p' :
  private p' = None -> pc_ok g p' -> wake_event g e = Some h -> sem (kernel g) h = Some n -> 0 <= n' ->
  sem k' h = Some n' -> (forall h', h' <> h -> sem k' h' = sem (kernel g) h') ->
  word_inv (Value g) (permits g Exclusive + (if decide (Exclusive = e) then n' - n else 0))
    (permits g Shared + (if decide (Shared = e) then n' - n else 0))
    (fun k => total k (<[t := p']> ts)) ->
  inv (set_kernel g k') (<[t := p']> ts).
Proof.
  intros Hp Hok He Hn Hn' Hh Hsame Hword.
  destruct (kernel_event_inv g ts t p p' e h n n' k') as [Hh' Hperm]; try done; [apply Hinv|].
  split; [|by rewrite !Hperm|done].
  apply Forall_insert; [|by eapply pc_ok_mono; [|exact Hok]].
  eapply Forall_impl; [apply Hinv|]. intros q. by apply pc_ok_mono.
Qed.

Lemma event_permits e h n :
  wake_event g e = Some h -> sem (kernel g) h = Some n -> permits g e = n.
Proof. intros He Hn. unfold permits. by rewrite He, Hn. Qed.

Lemma wait_inv e i g' p' :
  p = Wait e i -> wait_for_event g e i = Some (g', p') -> inv g' (<[t := p']> ts).
Proof.
  intros Hp Hstep. unfold wait_for_event in Hstep.
  pose proof (Forall_lookup_1 _ _ _ _ (inv_pcs g ts Hinv) Ht) as Hok. rewrite Hp in Hok.
  cbn [pc_ok] in Hok. destruct (wake_event g e) as [h|] eqn:He; [|done].
  destruct (live g ts (inv_handles g ts Hinv) e h He) as (n & Hn & Hn0).
  destruct (decide (n = 0)) as [->|Hne].
  { by rewrite (wait_blocks_law _ _ Hn) in Hstep. }
  destruct (wait_law (kernel g) h n Hn) as (k' & Hw & Hk' & Hsame); [lia|].
  rewrite Hw in Hstep. cbn in Hstep. injection Hstep as <- <-.
  pose proof (event_permits e h n He Hn) as Hpe.
  apply (permit_step e h n (n - 1)); try done; [by destruct e|by destruct e|lia|].
  replace (n - 1 - n) with (-1) by lia.
  destruct (thread_facts (match e with Exclusive => XWoken | Shared => SRead i end)) as (?&?&?&?&?).
  destruct e; repeat case_decide; try done; rewrite Z.add_0_r.
  - eapply woken_exclusive; [exact (inv_word g ts Hinv)|..]; try eassumption; [lia|done].
  - eapply woken_shared; [exact (inv_word g ts Hinv)|..]; try eassumption; [lia|done].
Qed.

Lemma signal_inv e n :
  p = match e with Exclusive => SignalX | Shared => SignalS n end -> 0 < n ->
  (e = Exclusive -> n = 1) -> inv (signal g e n) (<[t := Idle]> ts).
Proof.
  intros Hp Hn0 He1. pose proof (Forall_lookup_1 _ _ _ _ (inv_pcs g ts Hinv) Ht) as Hok.
  assert (Hev : wake_event g e <> None) by (rewrite Hp in Hok; by destruct e; [|destruct Hok]).
  unfold signal. destruct (wake_event g e) as [h|] eqn:He; [|done].
  destruct (live g ts (inv_handles g ts Hinv) e h He) as (m & Hm & Hm0).
  pose proof (event_permits e h m He Hm) as Hpe.
  destruct (thread_facts Idle) as (Hc&?&Hl&Hx&Hs).
  assert (m + n <= MAXLONG).
  { destruct (inv_word g ts Hinv) as (o & w & sw & ew & Hr & _ & Hw & Hew & Hsw & _).
    pose proof (total_length KWaitX ts ltac:(done)). pose proof (total_length KWaitS ts ltac:(done)).
    pose proof (Hc KWoken). pose proof (Hc KSignalX) as Hcx. pose proof (Hc KSignalS) as Hcs.
    unfold ranges, MAXLONG in *. rewrite Hp in Hcx, Hcs.
    destruct e; simpl weight in Hcx, Hcs; [rewrite He1 in * by done|]; lia. }
  destruct (release_law (kernel g) h m n Hm Hn0) as [Hr Hsame]; [done|].
  apply (permit_step e h m (m + n)); try done; [lia|].
  replace (m + n - m) with n by lia.
  destruct e; repeat case_decide; try done; rewrite Z.add_0_r.
  - rewrite (He1 eq_refl) in *.
    eapply signal_exclusive; [exact (inv_word g ts Hinv)|..]; try eassumption; done.
  - eapply signal_shared; [exact (inv_word g ts Hinv)|..]; try eassumption; done.
Qed.

Lemma next_inv g' p' : next N g p = Some (g', p') -> inv g' (<[t := p']> ts).
Proof.
  pose proof (Forall_lookup_1 _ _ _ _ (inv_pcs g ts Hinv) Ht) as Hok.
  intros Hstep. assert (exists q, p = q) as [q Hp] by eauto. rewrite Hp in Hstep, Hok.
  destruct q as [ | | | |i|v i| |v|i|v i|e v i a|e v i|e i| |v| |v| |n| |v| |v];
    cbn [next] in Hstep; try done;
    try (injection Hstep as <- <-; apply local_step; side); try (injection Hstep as Hstep).
  - by eapply acquire_exclusive_inv.
  - by eapply claim_exclusive_inv.
  - by eapply acquire_shared_inv.
  - by eapply ensure_step_inv.
  - by eapply register_inv.
  - by eapply wait_inv.
  - by eapply release_exclusive_inv.
  - by eapply release_shared_inv.
  - subst g' p'. by apply (signal_inv Exclusive 1).
  - subst g' p'. destruct Hok. by apply (signal_inv Shared n).
  - destruct (PhfTryAcquireFastLockExclusive g v) as [g1 ok] eqn:Ho. injection Hstep as <- <-.
    by eapply try_acquire_exclusive_inv.
  - destruct (PhfTryAcquireFastLockShared g v) as [g1 ok] eqn:Ho. injection Hstep as <- <-.
    by eapply try_acquire_shared_inv.
Qed.

Lemma call_inv p' : p' ∈ calls p -> inv g (<[t := p']> ts).
Proof.
  intros Hcall. assert (exists q, p = q) as [q Hp] by eauto. rewrite Hp in Hcall.
  destruct q; cbn [calls] in Hcall; rewrite ?elem_of_cons, elem_of_nil in Hcall;
    destruct_or? Hcall; try done; rewrite Hcall; apply local_step; side.
Qed.

End one_step.

Lemma reachable_inv N k n s :
  (n <= 1023)%nat -> reachable N k n s -> inv s.1 s.2 /\ length s.2 = n.
Proof.
  intros Hn. unfold reachable. apply (rtc_ind_r (fun s => inv s.1 s.2 /\ length s.2 = n)).
  - split; [|apply length_replicate]. split.
    + apply Forall_replicate. done.
    + exists 0, 0, 0, 0. simpl. rewrite !total_idle. unfold ranges, enc, permits. simpl. lia.
    + split; simpl; try done; try (by intros []).
      * intros t p h [-> _]%lookup_replicate. done.
      * intros t t' p p' h [-> _]%lookup_replicate. done.
  - intros s1 s2 _ Hstep [Hinv Hlen]. destruct Hstep as [g ts t p p' Ht Hc|g ts t p g' p' Ht Hx];
      simpl in *; rewrite length_insert; (split; [|done]).
    + eapply call_inv; try done. lia.
    + eapply next_inv; try done. lia.
Qed.

(** ** Properties *)

(** A thread holds the lock from the exchange that takes it to the exchange that gives it up. *)
Definition holds_exclusive p : bool :=
  match p with OwnX | RXRead | RXTry _ => true | _ => false end.
Definition holds_shared p : bool :=
  match p with OwnS | RSRead | RSTry _ => true | _ => false end.

Lemma holds_weight p :
  (holds_exclusive p = true -> weight KOwnX p = 1) /\ (holds_shared p = true -> weight KOwnS p = 1).
Proof. by destruct p. Qed.

(** C19: Mutual exclusion, for every interleaving of up to 1023 threads: while a thread holds the
    lock exclusively no other thread holds it, exclusively or shared. *)
Theorem lock_mutual_exclusion N k n g ts i j p q :
  (n <= 1023)%nat -> reachable N k n (g, ts) -> i <> j ->
  ts !! i = Some p -> ts !! j = Some q -> holds_exclusive p = true ->
  holds_exclusive q = false /\ holds_shared q = false.
Proof.
  intros Hn Hreach Hij Hi Hj Hp. destruct (reachable_inv N k n _ Hn Hreach) as [[_ Hword _] _].
  destruct Hword as (o & w & sw & ew & _ & _ & _ & _ & _ & Hown & _).
  pose proof (total_lookup_two KOwnX ts i j p q Hij Hi Hj) as Hx.
  pose proof (total_lookup KOwnS ts j q Hj) as Hs.
  pose proof (weight_nonneg KOwnX q). destruct (holds_weight p) as [Hwp _]. destruct (holds_weight q) as [Hwx Hws].
  rewrite (Hwp Hp) in Hx. cbn [fst snd] in *.
  destruct (holds_exclusive q); [pose proof (Hwx eq_refl); lia|].
  destruct (holds_shared q); [pose proof (Hws eq_refl); lia|done].
Qed.

(** A thread that sleeps on its semaphore. *)
Definition blocked g p : Prop := exists e i, p = Wait e i /\ wait_for_event g e i = None.

Lemma not_blocked_permits g ts e i t :
  inv g ts -> ts !! t = Some (Wait e i) -> 0 < permits g e -> ~ blocked g (Wait e i).
Proof.
  intros Hinv Ht Hp (e' & i' & [= <- <-] & Hb). unfold permits in Hp. unfold wait_for_event in Hb.
  destruct (wake_event g e) as [h|] eqn:He; [|lia].
  destruct (live g ts (inv_handles g ts Hinv) e h He) as (m & Hm & _). rewrite Hm in Hp.
  destruct (wait_law (kernel g) h m Hm Hp) as (k' & Hw & _). by rewrite Hw in Hb.
Qed.

(** C20: No wake-up is lost: in no reachable state is every thread idle or asleep with at least
    one asleep. As every other thread outside its owner's hands can step, a sleeping thread is
    always waited on by an owner, a releaser, or a permit that is already there. *)
Theorem lock_no_lost_wakeup N k n g ts :
  (n <= 1023)%nat -> reachable N k n (g, ts) ->
  (forall t p, ts !! t = Some p -> p = Idle \/ blocked g p) -> Forall (eq Idle) ts.
Proof.
  intros Hn Hreach Hall. destruct (reachable_inv N k n _ Hn Hreach) as [Hinv _]. cbn [fst snd] in Hinv.
  assert (Hzero : forall kd, kd <> KWaitX -> kd <> KWaitS -> total kd ts = 0).
  { intros kd HX HS. destruct (Z.eq_dec (total kd ts) 0) as [|Hne]; [done|].
    pose proof (total_nonneg kd ts). destruct (total_pos kd ts) as (t & p & Ht & Hw); [lia|].
    destruct (Hall t p Ht) as [->|(e & i & -> & _)]; [by destruct kd|by destruct kd, e]. }
  assert (Hperm : forall e, 0 < total (match e with Exclusive => KWaitX | Shared => KWaitS end) ts ->
    permits g e = 0).
  { intros e Hpos. destruct (total_pos _ _ Hpos) as (t & p & Ht & Hw).
    pose proof (permits_nonneg g ts e (inv_handles g ts Hinv)).
    destruct (Z.eq_dec (permits g e) 0) as [|Hne]; [done|]. exfalso.
    destruct (Hall t p Ht) as [->|Hb]; [by destruct e|].
    pose proof Hb as (e' & i & -> & _). destruct (decide (e' = e)) as [->|].
    - eapply not_blocked_permits; [exact Hinv|exact Ht|lia|exact Hb].
    - destruct e, e'; (done || simpl in Hw; lia). }
  pose proof (Hperm Exclusive) as HX. pose proof (Hperm Shared) as HS. simpl in HX, HS.
  destruct (inv_word g ts Hinv) as (o & w & sw & ew & Hr & _ & Hw & Hew & Hsw & Hown & _ & Hewo & Hswo).
  pose proof (Hzero KSignalX ltac:(done) ltac:(done)). pose proof (Hzero KWoken ltac:(done) ltac:(done)).
  pose proof (Hzero KSignalS ltac:(done) ltac:(done)). pose proof (Hzero KOwnX ltac:(done) ltac:(done)).
  pose proof (Hzero KOwnS ltac:(done) ltac:(done)). pose proof (total_nonneg KWaitX ts).
  pose proof (total_nonneg KWaitS ts).
  unfold ranges in Hr. assert (total KWaitX ts = 0 /\ total KWaitS ts = 0) as [HzX HzS] by lia.
  apply Forall_lookup_2. intros t p Ht. destruct (Hall t p Ht) as [->|(e & i & -> & _)]; [done|].
  pose proof (total_lookup KWaitX ts t _ Ht). pose proof (total_lookup KWaitS ts t _ Ht).
  destruct e; simpl in *; lia.
Qed.

(** When every call has returned and nothing is held, the word is back to its initial value
    and no permit is left in a semaphore: no acquisition or release leaks into the next use. *)
Theorem lock_quiescent N k n g ts :
  (n <= 1023)%nat -> reachable N k n (g, ts) -> Forall (eq Idle) ts ->
  Value g = 0 /\ permits g Exclusive = 0 /\ permits g Shared = 0.
Proof.
  intros Hn Hreach Hidle. destruct (reachable_inv N k n _ Hn Hreach) as [Hinv _]. cbn [fst snd] in Hinv.
  assert (Hz : forall kd, total kd ts = 0).
  { intros kd. clear -Hidle. induction Hidle as [|p ts <- _ IH]; simpl; [done|].
    rewrite IH. by destruct kd. }
  pose proof (permits_nonneg g ts Exclusive (inv_handles g ts Hinv)).
  pose proof (permits_nonneg g ts Shared (inv_handles g ts Hinv)).
  destruct (inv_word g ts Hinv) as (o & w & sw & ew & Hr & -> & Hw & Hew & Hsw & Hown & _ & Hewo & Hswo).
  rewrite !Hz in *. unfold ranges, enc in *. lia.
Qed.

(** No call raises: a wait is made on an event that exists, and a release that found waiters
    in the word finds their event, so [STATUS_UNSUCCESSFUL] is never raised and no signal is
    dropped on a NULL handle. *)
Theorem lock_never_raises N k n g ts t p :
  (n <= 1023)%nat -> reachable N k n (g, ts) -> ts !! t = Some p ->
  p <> Raised /\
  (p = SignalX -> ExclusiveWakeEvent g <> None) /\
  (forall m, p = SignalS m -> SharedWakeEvent g <> None /\ 0 < m).
Proof.
  intros Hn Hreach Ht. destruct (reachable_inv N k n _ Hn Hreach) as [Hinv _].
  pose proof (Forall_lookup_1 _ _ _ _ (inv_pcs g ts Hinv) Ht) as Hok.
  split_and!; [by intros ->|by intros ->|by intros m ->].
Qed.

End invariant.

(** The bound of 1023 is the lock's: a 1024th shared owner carries into the shared-waiter
    count, and the release of any one of them then frees the word under the other 1023. *)
Theorem lock_shared_owner_overflow {K HANDLE} (g : PH_FAST_LOCK K HANDLE) sw :
  0 <= sw < 1023 -> Value g = enc 1 0 1023 sw 0 ->
  exists g', PhfTryAcquireFastLockShared g (Value g) = (g', true) /\
    Value g' = enc 1 0 0 (sw + 1) 0 /\
    exists g'', PhfReleaseFastLockShared g' (Value g') = (g'', Idle) /\
      any (Value g'') PH_LOCK_OWNED = false.
Proof.
  intros Hsw Hv. unfold PhfTryAcquireFastLockShared, PhfReleaseFastLockShared, cas. rewrite Hv.
  assert (Hr : ranges 1 0 1023 sw 0) by (unfold ranges; lia).
  assert (Hr' : ranges 1 0 0 (sw + 1) 0) by (unfold ranges; lia).
  rewrite any_exclusive, any_owned, field_shared_owners by done. cbn [negb orb Z.eqb].
  rewrite Z.eqb_refl. eexists. split; [reflexivity|].
  assert (E : enc 1 0 1023 sw 0 +₃₂ PH_LOCK_SHARED_OWNERS_INC = enc 1 0 0 (sw + 1) 0).
  { unfold enc, PH_LOCK_SHARED_OWNERS_INC. width. lia. }
  split; [exact E|]. cbn [Value set_value]. rewrite E.
  rewrite field_shared_owners, field_exclusive_waiters by done. cbn [negb Z.eqb Z.ltb Z.compare].
  rewrite Z.eqb_refl. eexists. split; [reflexivity|]. cbn [Value set_value].
  replace (u32 _) with (enc 0 0 1023 sw 0)
    by (unfold enc, PH_LOCK_OWNED, PH_LOCK_SHARED_OWNERS_INC; width; lia).
  rewrite any_owned by (unfold ranges in *; lia). done.
Qed.

(** ** A kernel with counting semaphores *)

#[export] Instance MapSemaphores : Semaphores (gmap positive Z) positive := {|
  NtCreateSemaphore k := let h := fresh (dom k) in (<[h := 0]> k, h);
  NtReleaseSemaphore k h n :=
    match k !! h with
    | Some c => if c + n <=? MAXLONG then <[h := c + n]> k else k
    | None => k
    end;
  NtWaitForSingleObject k h :=
    match k !! h with
    | Some c => if 0 <? c then Some (<[h := c - 1]> k, STATUS_WAIT_0) else None
    | None => Some (k, 0xC0000008)
    end;
  NtClose k h := delete h k;
|}.

#[export] Program Instance MapSemaphoreLaws : SemaphoreLaws (gmap positive Z) positive := {|
  sem k h := k !! h |}.
Next Obligation.
  intros k. simpl. split; [apply not_elem_of_dom, is_fresh|]. split; [apply lookup_insert_eq|].
  intros h' Hne. by apply lookup_insert_ne.
Qed.
Next Obligation.
  intros k h c n Hc Hn Hm. simpl. rewrite Hc. replace (c + n <=? MAXLONG) with true by lia.
  split; [apply lookup_insert_eq|]. intros h' Hne. by apply lookup_insert_ne.
Qed.
Next Obligation. intros k h Hc. simpl. by rewrite Hc. Qed.
Next Obligation.
  intros k h c Hc Hpos. simpl. rewrite Hc. replace (0 <? c) with true by lia.
  eexists. split; [reflexivity|]. split; [apply lookup_insert_eq|].
  intros h' Hne. by apply lookup_insert_ne.
Qed.
Next Obligation. intros k h h' Hne. by apply lookup_delete_ne. Qed.

(** ** Schedules: executable runs *)

Section schedule.
Context {K HANDLE : Type} `{Semaphores K HANDLE}.

(** A schedule names the thread that moves and, for a new call, which of [calls] it makes. *)
Fixpoint run (N : Z) (s : PH_FAST_LOCK K HANDLE * list (pc HANDLE)) (l : list (nat * option nat))
    : option (PH_FAST_LOCK K HANDLE * list (pc HANDLE)) :=
  match l with
  | [] => Some s
  | (t, choice) :: l =>
      p ← s.2 !! t;
      '(g, p') ← match choice with
                 | Some c => p' ← calls p !! c; Some (s.1, p')
                 | None => next N s.1 p
                 end;
      run N (g, <[t := p']> s.2) l
  end.

Lemma run_reachable N k n l s : run N (initial (HANDLE := HANDLE) k n) l = Some s -> reachable N k n s.
Proof.
  unfold reachable. generalize (initial (HANDLE := HANDLE) k n) as s0.
  induction l as [|[t choice] l IH]; intros [g ts] Hrun; simpl in Hrun; [by simplify_eq|].
  destruct (ts !! t) as [p|] eqn:Ht; [|done]. cbn [mbind option_bind] in Hrun.
  destruct choice as [c|].
  - destruct (calls p !! c) as [p'|] eqn:Hc; [|done]. cbn [mbind option_bind] in Hrun.
    eapply rtc_l; [|by apply IH]. eapply step_call; [done|by eapply list_elem_of_lookup_2].
  - destruct (next N g p) as [[g' p']|] eqn:Hx; [|done]. cbn [mbind option_bind] in Hrun.
    eapply rtc_l; [|by apply IH]. by eapply step_next.
Qed.

End schedule.

(** ** Witnesses *)

(** Thread 0 takes the lock; thread 1 asks for it and sleeps; thread 0 releases and signals;
    thread 1 wakes up and takes it. One processor, so no spinning. *)
Definition contended : list (nat * option nat) :=
  [(0, Some 0); (0, None); (0, None);
   (1, Some 0); (1, None); (1, None); (1, None); (1, None); (1, None); (1, None)]%nat.
Definition handed_over : list (nat * option nat) :=
  (contended ++ [(0, Some 0); (0, None); (0, None)])%nat.
Definition acquired : list (nat * option nat) :=
  (handed_over ++ [(0, None); (1, None); (1, None); (1, None)])%nat.

Definition after (l : list (nat * option nat)) : PH_FAST_LOCK (gmap positive Z) positive * list (pc positive) :=
  default (initial ∅ 2) (run 1 (initial ∅ 2) l).

Lemma after_reachable l : bool_decide (is_Some (run 1 (initial ∅ 2) l)) = true ->
  reachable 1 ∅ 2 ((after l).1, (after l).2).
Proof.
  intros [s Hs]%bool_decide_eq_true_1. unfold after. rewrite Hs. destruct s. by apply run_reachable in Hs.
Qed.

Lemma lock_mutual_exclusion_witness :
  (after acquired).2 !! 1%nat = Some OwnX /\ holds_exclusive (@Idle positive) = false.
Proof.
  assert (H1 : (after acquired).2 !! 1%nat = Some OwnX) by (vm_compute; reflexivity).
  assert (H0 : (after acquired).2 !! 0%nat = Some Idle) by (vm_compute; reflexivity).
  split; [exact H1|].
  destruct (lock_mutual_exclusion 1 ∅ 2 (after acquired).1 (after acquired).2 1 0 OwnX Idle) as [Hx _];
    [lia|apply after_reachable; vm_compute; reflexivity|lia|exact H1|exact H0|reflexivity|exact Hx].
Defined.

Definition released : list (nat * option nat) :=
  (acquired ++ [(1, Some 0); (1, None); (1, None)])%nat.

Lemma released_idle : (after released).2 = [Idle; Idle].
Proof. vm_compute. reflexivity. Qed.

Lemma lock_no_lost_wakeup_witness : Forall (eq Idle) (after released).2.
Proof.
  apply (lock_no_lost_wakeup 1 ∅ 2 (after released).1 (after released).2);
    [lia|apply after_reachable; vm_compute; reflexivity|].
  rewrite released_idle. intros [|[|t]] p Ht; left; by simplify_eq/=.
Defined.

Lemma lock_quiescent_witness : Value (after released).1 = 0.
Proof.
  apply (lock_quiescent 1 ∅ 2 (after released).1 (after released).2);
    [lia|apply after_reachable; vm_compute; reflexivity|].
  rewrite released_idle. by repeat constructor.
Defined.

Lemma lock_never_raises_witness : ExclusiveWakeEvent (after handed_over).1 <> None.
Proof.
  destruct (lock_never_raises 1 ∅ 2 (after handed_over).1 (after handed_over).2 0 SignalX) as (_ & Hx & _);
    [lia|apply after_reachable; vm_compute; reflexivity|vm_compute; reflexivity|].
  by apply Hx.
Defined.

Lemma lock_shared_owner_overflow_witness :
  exists g', PhfTryAcquireFastLockShared (set_value (PhInitializeFastLock (HANDLE := positive) tt)
      (enc 1 0 1023 0 0)) (enc 1 0 1023 0 0) = (g', true) /\ Value g' = 0x1001.
Proof.
  destruct (lock_shared_owner_overflow (set_value (PhInitializeFastLock (HANDLE := positive) tt)
    (enc 1 0 1023 0 0)) 0) as (g' & Ht & Hv & _); [lia|reflexivity|].
  exists g'. split; [exact Ht|exact Hv].
Defined.

End FastLock.
