(* ===== verification/Event.v ===== *)
(** * Events and once-initialization: [phlib/sync.c]

    An event is one word, with a set bit and a reference count, and a kernel event that is created
    when the first thread has to sleep and closed with the last reference. Once-initialization is
    a bit of the same word. A thread is a program counter with its locals, a step is one access to
    shared memory or one system call, and the theorems hold for every interleaving. The kernel is
    an interface, [KernelEvents], with its documented behaviour in [KernelEventLaws]. *)

From S2P Require Import Prelude.

(** ** Kernel events

    [NtCreateEvent] makes a notification event that is not signalled. A wait leaves the kernel as it
    is: it answers a status, or [None] while it blocks; it may answer a timeout once that has
    expired. *)
Class KernelEvents (K HANDLE : Type) := {
  NtCreateEvent : K -> K * HANDLE;
  NtSetEvent : K -> HANDLE -> K;
  NtWaitForSingleObject : K -> HANDLE -> bool -> option Z;
  NtClose : K -> HANDLE -> K;
}.

Definition STATUS_WAIT_0 : Z := 0.
Definition STATUS_TIMEOUT : Z := 0x102.
Definition STATUS_INVALID_HANDLE : Z := 0xC0000008.

Class KernelEventLaws (K HANDLE : Type) `{KernelEvents K HANDLE} := {
  (** Whether an open handle's event is signalled. *)
  signalled : K -> HANDLE -> option bool;
  create_law : forall k k' h, NtCreateEvent k = (k', h) ->
    signalled k h = None /\ signalled k' h = Some false /\ forall h', h' <> h -> signalled k' h' = signalled k h';
  set_law : forall k h b, signalled k h = Some b ->
    signalled (NtSetEvent k h) h = Some true /\ forall h', h' <> h -> signalled (NtSetEvent k h) h' = signalled k h';
  wait_law : forall k h expired, NtWaitForSingleObject k h expired =
    match signalled k h with
    | Some true => Some STATUS_WAIT_0
    | Some false => if expired then Some STATUS_TIMEOUT else None
    | None => Some STATUS_INVALID_HANDLE
    end;
  close_law : forall k h, signalled (NtClose k h) h = None /\ forall h', h' <> h -> signalled (NtClose k h) h' = signalled k h';
}.

Module Event.

Definition PH_EVENT_SET_SHIFT : Z := 0.
Definition PH_EVENT_REFCOUNT_SHIFT : Z := 1.
Definition PH_EVENT_REFCOUNT_INC : Z := 2.
Definition PH_EVENT_REFCOUNT_BITS : Z := 15.
Definition PH_INITONCE_INITIALIZING_SHIFT : Z := 31.

Section event.
Context {K HANDLE : Type} `{KernelEvents K HANDLE}.

Record PH_EVENT := { Value : Z; EventHandle : option HANDLE }.

Definition set_Value (e : PH_EVENT) (v : Z) : PH_EVENT := {| Value := v; EventHandle := EventHandle e |}.
Definition set_EventHandle (e : PH_EVENT) (h : option HANDLE) : PH_EVENT := {| Value := Value e; EventHandle := h |}.

Definition PhfInitializeEvent : PH_EVENT := {| Value := PH_EVENT_REFCOUNT_INC; EventHandle := None |}.
Definition PhTestEvent (e : PH_EVENT) : bool := Z.testbit (Value e) PH_EVENT_SET_SHIFT.

(** [None] is a failed assertion. *)
Definition PhfResetEvent (e : PH_EVENT) : ub PH_EVENT :=
  match EventHandle e with
  | Some _ => None
  | None => Some (if PhTestEvent e then set_Value e PH_EVENT_REFCOUNT_INC else e)
  end.

(** Where a thread is in PhfSetEvent ([Set..]) and PhfWaitForEvent ([Wait..]), with its locals; both end
    in PhpDereferenceEvent ([Deref], [CloseEvent], [ClearHandle]). The timeout of a set is NULL and its
    result TRUE. *)
Inductive pc :=
  | SetBit | SetRead | SetSignal (eventHandle : HANDLE)
  | WaitTest (Timeout : option Z) | WaitRead (Timeout : option Z) | WaitRef (Timeout : option Z)
  | WaitHandle (Timeout : option Z) | WaitCreate (Timeout : option Z)
  | WaitPublish (Timeout : option Z) (eventHandle : HANDLE) | WaitDiscard (Timeout : option Z) (eventHandle : HANDLE)
  | WaitReload (Timeout : option Z)
  | WaitCheck (Timeout : option Z) (eventHandle : option HANDLE) | WaitBlock (Timeout : option Z) (eventHandle : option HANDLE)
  | Deref (Timeout : option Z) (eventHandle : option HANDLE) (result : bool)
  | CloseEvent (Timeout : option Z) (eventHandle : HANDLE) (result : bool) | ClearHandle (Timeout : option Z) (result : bool)
  | Return (Timeout : option Z) (result : bool).

Definition PhfSetEvent (e : PH_EVENT) (k : K) (p : pc) : option (PH_EVENT * K * pc) :=
  match p with
  | SetBit =>
      let e' := set_Value e (Z.setbit (Value e) PH_EVENT_SET_SHIFT) in
      Some (e', k, if PhTestEvent e then Return None true else SetRead)
  | SetRead => Some (e, k, match EventHandle e with Some h => SetSignal h | None => Deref None None true end)
  | SetSignal h => Some (e, NtSetEvent k h, Deref None (Some h) true)
  | _ => None
  end.

Definition PhpReferenceEvent (e : PH_EVENT) : PH_EVENT := set_Value e (Value e +₆₄ PH_EVENT_REFCOUNT_INC).

Definition PhpDereferenceEvent (e : PH_EVENT) (k : K) (p : pc) : option (PH_EVENT * K * pc) :=
  match p with
  | Deref Timeout eventHandle result =>
      let value := Value e in
      Some (set_Value e (value -₆₄ PH_EVENT_REFCOUNT_INC), k,
        match eventHandle with
        | Some h => if bit_field PH_EVENT_REFCOUNT_SHIFT PH_EVENT_REFCOUNT_BITS value =? 1 then CloseEvent Timeout h result else Return Timeout result
        | None => Return Timeout result
        end)
  | CloseEvent Timeout h result => Some (e, NtClose k h, ClearHandle Timeout result)
  | ClearHandle Timeout result => Some (set_EventHandle e None, k, Return Timeout result)
  | _ => None
  end.

(** [PhWaitForEvent], inline, and [PhfWaitForEvent]. The wait itself may use up its timeout, if it has
    one; a wait on NULL fails. *)
Definition PhfWaitForEvent (expired : bool) (e : PH_EVENT) (k : K) (p : pc) : option (PH_EVENT * K * pc) :=
  match p with
  | WaitTest Timeout => Some (e, k, if PhTestEvent e then Return Timeout true else WaitRead Timeout)
  | WaitRead Timeout =>
      Some (e, k, if PhTestEvent e then Return Timeout true
                  else if decide (Timeout = Some 0) then Return Timeout false else WaitRef Timeout)
  | WaitRef Timeout => Some (PhpReferenceEvent e, k, WaitHandle Timeout)
  | WaitHandle Timeout => Some (e, k, match EventHandle e with Some h => WaitCheck Timeout (Some h) | None => WaitCreate Timeout end)
  | WaitCreate Timeout => let '(k, h) := NtCreateEvent k in Some (e, k, WaitPublish Timeout h)
  | WaitPublish Timeout h =>
      match EventHandle e with
      | None => Some (set_EventHandle e (Some h), k, WaitCheck Timeout (Some h))
      | Some _ => Some (e, k, WaitDiscard Timeout h)
      end
  | WaitDiscard Timeout h => Some (e, NtClose k h, WaitReload Timeout)
  | WaitReload Timeout => Some (e, k, WaitCheck Timeout (EventHandle e))
  | WaitCheck Timeout h => Some (e, k, if PhTestEvent e then Deref Timeout h true else WaitBlock Timeout h)
  | WaitBlock Timeout h =>
      status ← match h with
               | Some h => NtWaitForSingleObject k h (expired && negb (bool_decide (Timeout = None)))
               | None => Some STATUS_INVALID_HANDLE
               end;
      Some (e, k, Deref Timeout h (status =? STATUS_WAIT_0))
  | _ => None
  end.

(** The next action of a thread; [None] when it is blocked, or has returned. *)
Definition next (expired : bool) (e : PH_EVENT) (k : K) (p : pc) : option (PH_EVENT * K * pc) :=
  match p with
  | SetBit | SetRead | SetSignal _ => PhfSetEvent e k p
  | Deref _ _ _ | CloseEvent _ _ _ | ClearHandle _ _ => PhpDereferenceEvent e k p
  | Return _ _ => None
  | _ => PhfWaitForEvent expired e k p
  end.

End event.
Arguments PH_EVENT : clear implicits.
Arguments pc : clear implicits.

(** ** The word *)

Definition word (s : bool) (c : Z) (i : bool) : Z := Z.b2z s + 2 * c + 2 ^ 31 * Z.b2z i.

Lemma word_facts s c i : 0 <= c < 2 ^ 15 ->
  Z.testbit (word s c i) PH_EVENT_SET_SHIFT = s /\ bit_field PH_EVENT_REFCOUNT_SHIFT PH_EVENT_REFCOUNT_BITS (word s c i) = c /\
  Z.testbit (word s c i) PH_INITONCE_INITIALIZING_SHIFT = i /\ 0 <= word s c i < 2 ^ 33.
Proof.
  intros Hc. unfold word, PH_EVENT_SET_SHIFT, PH_EVENT_REFCOUNT_SHIFT, PH_EVENT_REFCOUNT_BITS, PH_INITONCE_INITIALIZING_SHIFT. rewrite bit_field_eq by lia.
  assert (Hb : forall b : bool, 0 <= Z.b2z b <= 1) by by intros [].
  pose proof (Hb s). pose proof (Hb i). split; [|split; [|split; [|lia]]].
  - rewrite Z.testbit_odd, Z.shiftr_0_r. rewrite <- Z.bit0_odd. replace (Z.b2z s + 2 * c + 2 ^ 31 * Z.b2z i) with (Z.b2z s + 2 * (c + 2 ^ 30 * Z.b2z i)) by lia.
    apply Z.add_b2z_double_bit0.
  - change (2 ^ 1) with 2. change (2 ^ 15) with 32768 in *. change (2 ^ 31) with 2147483648. Z.to_euclidean_division_equations. destruct s, i; cbn [Z.b2z] in *; lia.
  - apply Z.testbit_true || idtac. rewrite Z.testbit_odd, Z.shiftr_div_pow2 by lia.
    replace ((Z.b2z s + 2 * c + 2 ^ 31 * Z.b2z i) / 2 ^ 31) with (Z.b2z i); [by destruct i|]. change (2 ^ 15) with 32768 in *. change (2 ^ 31) with 2147483648.
    Z.to_euclidean_division_equations. destruct s, i; cbn [Z.b2z] in *; lia.
Qed.

Lemma word_set s c i : 0 <= c < 2 ^ 15 -> Z.setbit (word s c i) PH_EVENT_SET_SHIFT = word true c i.
Proof.
  intros Hc. rewrite setbit_add by done. destruct (word_facts s c i Hc) as (-> & _). destruct s; [done|]. unfold word, PH_EVENT_SET_SHIFT. simpl Z.b2z. lia.
Qed.
Lemma word_init s c i : 0 <= c < 2 ^ 15 -> Z.setbit (word s c i) PH_INITONCE_INITIALIZING_SHIFT = word s c true.
Proof.
  intros Hc. rewrite setbit_add by done. destruct (word_facts s c i Hc) as (_ & _ & -> & _). destruct i; [done|]. unfold word, PH_INITONCE_INITIALIZING_SHIFT. simpl Z.b2z. lia.
Qed.
Lemma word_ref s c i : 0 <= c < 2 ^ 15 -> word s c i +₆₄ PH_EVENT_REFCOUNT_INC = word s (c + 1) i.
Proof.
  intros Hc. destruct (word_facts s c i Hc) as (_ & _ & _ & Hr). unfold PH_EVENT_REFCOUNT_INC. rewrite u64_id by (unfold in_width; lia). unfold word. lia.
Qed.
Lemma word_deref s c i : 0 < c < 2 ^ 15 -> word s c i -₆₄ PH_EVENT_REFCOUNT_INC = word s (c - 1) i.
Proof.
  intros Hc. destruct (word_facts s (c - 1) i ltac:(lia)) as (_ & _ & _ & Hr).
  assert (word s c i - PH_EVENT_REFCOUNT_INC = word s (c - 1) i) as -> by (unfold word, PH_EVENT_REFCOUNT_INC; lia). apply u64_id. unfold in_width. lia.
Qed.

(** ** The invariant

    It is about the threads that are inside a call; the others are [None]. *)
Section invariant.
Context {K HANDLE : Type} `{KernelEventLaws K HANDLE}.
Abbreviation PH_EVENT := (PH_EVENT HANDLE).
Abbreviation pc := (pc HANDLE).
Implicit Types (e : PH_EVENT) (k : K) (p : pc) (es : list (option pc)).

Definition initialized e : bool := Z.testbit (Value e) PH_INITONCE_INITIALIZING_SHIFT.

(** The threads that hold a reference. The one that set the event has taken over the first one. *)
Definition holds (o : option pc) : Z :=
  match o with
  | Some (SetRead | SetSignal _ | WaitHandle _ | WaitCreate _ | WaitPublish _ _ | WaitDiscard _ _ | WaitReload _ | WaitCheck _ _ | WaitBlock _ _ | Deref _ _ _) => 1
  | _ => 0
  end.
Definition refs e es : Z := (if PhTestEvent e then 0 else 1) + tally holds es.

(** What a thread has learnt: the event is set, or its timeout may have expired. *)
Definition sound e p : Prop :=
  match p with
  | SetRead | SetSignal _ => PhTestEvent e = true
  | Deref Timeout _ result | CloseEvent Timeout _ result | ClearHandle Timeout result | Return Timeout result =>
      if result then PhTestEvent e = true else Timeout <> None
  | WaitRef Timeout | WaitHandle Timeout => True
  | _ => True
  end.

(** A thread that keeps the first reference alive, or sleeps. While there is one, or the event is not
    set, nobody has closed the kernel event. *)
Definition pending p : Prop := match p with SetRead | SetSignal _ | WaitBlock _ _ => True | _ => False end.
Definition is_open e es : Prop := PhTestEvent e = false \/ exists i p, es !! i = Some (Some p) /\ pending p.

(** A kernel event that no other thread knows of yet. *)
Definition private p : option HANDLE := match p with WaitPublish _ h | WaitDiscard _ h => Some h | _ => None end.

(** A set event whose kernel event is not signalled has a thread that will signal it. *)
Definition will_signal e es (h : HANDLE) : Prop :=
  PhTestEvent e = false \/ exists i p, es !! i = Some (Some p) /\ (p = SetRead \/ p = SetSignal h).

Definition good e k p : Prop :=
  match p with
  | CloseEvent _ _ _ | ClearHandle _ _ => False
  | SetSignal h => EventHandle e = Some h
  | WaitReload _ => EventHandle e <> None
  | WaitCheck _ h => h = EventHandle e /\ h <> None
  | WaitBlock _ h => h = EventHandle e /\ h <> None
  | WaitPublish _ h => signalled k h = Some false /\ EventHandle e <> Some h
  | WaitDiscard _ h => signalled k h = Some false /\ EventHandle e <> Some h /\ EventHandle e <> None
  | _ => True
  end.

Record open_inv e k es : Prop := {
  open_handle : forall h, EventHandle e = Some h ->
    signalled k h = Some false /\ will_signal e es h \/ signalled k h = Some true /\ PhTestEvent e = true;
  open_good : forall i p, es !! i = Some (Some p) -> good e k p;
  open_private : forall i j p q h, i <> j -> es !! i = Some (Some p) -> es !! j = Some (Some q) -> private p = Some h -> private q = Some h -> False;
}.

Record event_inv e k es : Prop := {
  inv_word : Value e = word (PhTestEvent e) (refs e es) (initialized e);
  inv_sound : forall i p, es !! i = Some (Some p) -> sound e p;
  inv_open : is_open e es -> open_inv e k es;
}.

Lemma event_holds_range o : 0 <= holds o <= 1.
Proof. destruct o as [[]|]; simpl; lia. Qed.
Lemma refs_range e es : Z.of_nat (length es) + 1 < 2 ^ 15 -> 0 <= refs e es < 2 ^ 15.
Proof.
  intros Hl. unfold refs. pose proof (tally_nonneg holds (fun o => proj1 (event_holds_range o)) es). pose proof (tally_le holds es (fun o => proj2 (event_holds_range o))).
  destruct (PhTestEvent e); lia.
Qed.

Lemma refs_insert e es t o o' : es !! t = Some o -> refs e (<[t := o']> es) = refs e es - holds o + holds o'.
Proof. intros Ht. unfold refs. rewrite (tally_insert holds es t o o' Ht). lia. Qed.

Lemma refs_pending e es : is_open e es -> 0 < refs e es.
Proof.
  unfold refs. pose proof (tally_nonneg holds (fun o => proj1 (event_holds_range o)) es). intros [->|(i & p & Hi & Hp)]; [lia|].
  pose proof (tally_lookup holds (fun o => proj1 (event_holds_range o)) es i _ Hi) as Hl. destruct (PhTestEvent e), p; simpl in Hp, Hl; lia.
Qed.

(** Two threads hold two references. *)
Lemma refs_others e es t p : is_open e (<[t := None]> es) -> es !! t = Some (Some p) -> holds (Some p) < refs e es.
Proof. intros Ho Ht. apply refs_pending in Ho. rewrite (refs_insert e es t _ _ Ht) in Ho. change (holds None) with 0 in Ho. lia. Qed.

Lemma is_open_insert e e' es t o p' : is_open e' (<[t := Some p']> es) -> es !! t = Some o -> (PhTestEvent e = true -> PhTestEvent e' = true) ->
  pending p' \/ is_open e (<[t := None]> es).
Proof.
  intros [Hs|(i & p & Hi & Hp)] Ht Hmono; [right; left; destruct (PhTestEvent e); [by rewrite Hmono in Hs|done]|].
  apply lookup_cases in Hi as [[-> [= ->]]|[Hne Hi]]; [by left|]. right. right. exists i, p. by rewrite list_lookup_insert_ne.
Qed.
Lemma is_open_remove e es t : is_open e (<[t := None]> es) -> is_open e es.
Proof.
  intros [Hs|(i & p & Hi & Hp)]; [by left|]. apply lookup_cases in Hi as [[-> ?]|[Hne Hi]]; [done|]. right. by exists i, p.
Qed.

(** A step of thread [t]: what has to be shown about the new event, kernel and program counter. *)
Lemma inv_update e k es t o e' k' p' : event_inv e k es -> es !! t = Some o ->
  Value e' = word (PhTestEvent e') (refs e' (<[t := Some p']> es)) (initialized e') ->
  (PhTestEvent e = true -> PhTestEvent e' = true) -> sound e' p' -> (pending p' -> is_open e es) ->
  (is_open e' (<[t := Some p']> es) -> is_open e es -> open_inv e k es ->
    (forall h, EventHandle e' = Some h -> signalled k' h = Some false /\ will_signal e' (<[t := Some p']> es) h \/ signalled k' h = Some true /\ PhTestEvent e' = true) /\
    good e' k' p' /\ (forall j q, j <> t -> es !! j = Some (Some q) -> good e k q -> good e' k' q) /\
    (forall h, private p' = Some h -> (exists p, o = Some p /\ private p = Some h) \/ forall j q, j <> t -> es !! j = Some (Some q) -> private q <> Some h)) ->
  event_inv e' k' (<[t := Some p']> es).
Proof.
  intros [Hw Hs Ho] Ht Hword Hmono Hsound Hpend Hopen. split; [done| |].
  - intros i q [[-> [= ->]]|[Hne Hi]]%lookup_cases; [done|]. pose proof (Hs i q Hi) as Hq. destruct q as [| | | | | | | | | | | | |? ? []|? ? []|? []|? []]; simpl in *; auto.
  - intros Ho'. assert (Hopen0 : is_open e es).
    { destruct (is_open_insert e e' es t o p' Ho' Ht Hmono) as [Hp|Hr]; [by apply Hpend|by eapply is_open_remove]. }
    destruct (Hopen Ho' Hopen0 (Ho Hopen0)) as (Hh & Hg & Hoth & Hpriv). pose proof (Ho Hopen0) as [_ Hg0 Hp0]. split; [done| |].
    + intros i q [[-> [= ->]]|[Hne Hi]]%lookup_cases; [done|]. by apply (Hoth i); [|..|apply (Hg0 i)].
    + assert (Hown : forall i q h, i <> t -> es !! i = Some (Some q) -> private p' = Some h -> private q = Some h -> False).
      { intros i q h Hne Hi Hp' Hq. destruct (Hpriv h Hp') as [(p & -> & Hp)|Hno]; [by eapply (Hp0 t i p q h)|by apply (Hno i q)]. }
      intros i j q q' h Hne [[-> [= ->]]|[Hi Hi']]%lookup_cases [[-> [= ->]]|[Hj Hj']]%lookup_cases Hq Hq'; [done|by apply (Hown j q' h)|by apply (Hown i q h)|by apply (Hp0 i j q q' h)].
Qed.

Lemma will_signal_insert e es t o p' h : will_signal e es h -> es !! t = Some o -> (forall p, o = Some p -> p = SetRead \/ p = SetSignal h -> p' = SetSignal h) ->
  will_signal e (<[t := Some p']> es) h.
Proof.
  intros [Hs|(i & p & Hi & Hp)] Ht Hp'; [by left|]. right. destruct (decide (i = t)) as [->|Hne].
  - exists t, p'. rewrite list_lookup_insert_eq by (by eapply lookup_lt_Some). split; [done|]. right. apply (Hp' p); [congruence|done].
  - exists i, p. by rewrite list_lookup_insert_ne.
Qed.

(** A step that changes nothing shared but, possibly, the count in the word. *)
Lemma inv_local e k es t o v p' : event_inv e k es -> es !! t = Some o -> Z.of_nat (length es) + 1 < 2 ^ 15 ->
  v = word (PhTestEvent e) (refs e es - holds o + holds (Some p')) (initialized e) ->
  sound e p' -> (pending p' -> is_open e es) -> (forall p, o = Some p -> p <> SetRead /\ forall h, p <> SetSignal h) ->
  (is_open e (<[t := Some p']> es) -> open_inv e k es -> good e k p' /\ forall h, private p' = Some h -> exists p, o = Some p /\ private p = Some h) ->
  event_inv (set_Value e v) k (<[t := Some p']> es).
Proof.
  intros Hinv Ht Hlen -> Hsound Hpend Hnset Hopen. rewrite <- (refs_insert e es t o (Some p') Ht).
  pose proof (refs_range e (<[t := Some p']> es)) as Hr. rewrite length_insert in Hr. specialize (Hr Hlen).
  destruct (word_facts (PhTestEvent e) _ (initialized e) Hr) as (Hf1 & _ & Hf3 & _).
  set (e' := set_Value e (word (PhTestEvent e) (refs e (<[t := Some p']> es)) (initialized e))).
  assert (Ht' : PhTestEvent e' = PhTestEvent e) by exact Hf1. assert (Hi' : initialized e' = initialized e) by exact Hf3.
  assert (Hopen' : is_open e' (<[t := Some p']> es) <-> is_open e (<[t := Some p']> es)) by (unfold is_open; by rewrite Ht').
  eapply inv_update; [exact Hinv|exact Ht| |by rewrite Ht'| |done|].
  - unfold refs at 1. rewrite Ht', Hi'. done.
  - destruct p' as [| | | | | | | | | | | | |? ? []|? ? []|? []|? []]; simpl in *; by rewrite ?Ht'.
  - intros Ho'%Hopen' _ Hoi. destruct (Hopen Ho' Hoi) as [Hg Hp]. split; [|split; [|split]].
    + intros h Hh. rewrite Ht'. destruct (open_handle e k es Hoi h Hh) as [[Hs Hw]|?]; [|by right]. left. split; [done|].
      unfold will_signal. rewrite Ht'. eapply will_signal_insert; [exact Hw|exact Ht|]. intros p Hp1 [-> | ->]; destruct (Hnset _ Hp1) as [Hn1 Hn2]; [done|]. by destruct (Hn2 h).
    + destruct p'; simpl in *; done.
    + intros j q _ _ Hgq. destruct q; simpl in *; done.
    + intros h Hh. left. by apply Hp.
Qed.

Lemma inv_pure e k es t p p' : event_inv e k es -> es !! t = Some (Some p) -> Z.of_nat (length es) + 1 < 2 ^ 15 -> holds (Some p') = holds (Some p) ->
  sound e p' -> (pending p' -> is_open e es) -> (p <> SetRead /\ forall h, p <> SetSignal h) ->
  (good e k p -> good e k p') -> (private p' = None \/ private p' = private p) -> event_inv e k (<[t := Some p']> es).
Proof.
  intros Hinv Ht Hlen Hh Hsound Hpend Hnset Hgood Hpriv. replace e with (set_Value e (Value e)) by (by destruct e).
  apply (inv_local e k es t (Some p)); [done|done|done| |done|done|by intros ? [= <-]|].
  - rewrite Hh. rewrite (inv_word e k es Hinv) at 1. f_equal. lia.
  - intros _ Hoi. split; [apply Hgood; by apply (open_good e k es Hoi t)|]. intros h Hp. exists p. split; [done|]. destruct Hpriv as [E|E]; congruence.
Qed.

(** The event as it is, another kernel or program counter. *)
Lemma inv_word_same e k es t p p' : event_inv e k es -> es !! t = Some (Some p) -> holds (Some p') = holds (Some p) ->
  Value e = word (PhTestEvent e) (refs e (<[t := Some p']> es)) (initialized e).
Proof. intros Hinv Ht Hh. rewrite (refs_insert e es t _ _ Ht), Hh. rewrite (inv_word e k es Hinv) at 1. f_equal. lia. Qed.

Ltac pure_step Ht := eapply inv_pure; [done|exact Ht|done|done|simpl|simpl|done|simpl|simpl]; try done; try (by left); try (by right).

Lemma set_step e k es t p e' k' p' : event_inv e k es -> es !! t = Some (Some p) -> Z.of_nat (length es) + 1 < 2 ^ 15 ->
  PhfSetEvent e k p = Some (e', k', p') -> event_inv e' k' (<[t := Some p']> es).
Proof.
  intros Hinv Ht Hlen. pose proof (inv_word _ _ _ Hinv) as Hw. pose proof (refs_range e es Hlen) as Hr.
  pose proof (word_facts (PhTestEvent e) _ (initialized e) Hr) as (Hf1 & _ & Hf3 & _). destruct p as [| |h| | | | | | | | | | | | | |]; simpl; try done.
  - destruct (PhTestEvent e) eqn:Es; intros [= <- <- <-].
    + replace (set_Value e _) with e; [by pure_step Ht|]. destruct e as [v h]. unfold set_Value. cbn [Value EventHandle]. f_equal.
      rewrite setbit_add by done. unfold PhTestEvent in Es. cbn [Value] in Es. by rewrite Es.
    + set (e' := set_Value e _). assert (Hv : Value e' = word true (refs e es) (initialized e)). { cbn [e' set_Value Value]. by rewrite Hw, word_set. }
      destruct (word_facts true _ (initialized e) Hr) as (G1 & _ & G3 & _). rewrite <- Hv in G1, G3.
      assert (Ht' : PhTestEvent e' = true) by exact G1. assert (Hi' : initialized e' = initialized e) by exact G3.
      eapply inv_update; [exact Hinv|exact Ht| |done|done|by left|].
      * rewrite Hv, Ht', Hi'. f_equal. unfold refs. rewrite Es, Ht', (tally_insert holds es t _ _ Ht). simpl. lia.
      * intros _ _ Hoi. split; [|split; [done|split; [by intros j q _ _|done]]]. intros h Hh. left.
        destruct (open_handle e k es Hoi h Hh) as [[Hs _]|[_ ?]]; [|congruence]. split; [done|]. right. exists t, SetRead.
        rewrite list_lookup_insert_eq by (by eapply lookup_lt_Some). split; [done|by left].
  - destruct (EventHandle e) as [h|] eqn:Eh; intros [= <- <- <-].
    + eapply inv_update; [exact Hinv|exact Ht|by eapply inv_word_same|done|by apply (inv_sound _ _ _ Hinv t SetRead)|intros _; right; by exists t, SetRead|].
      intros _ _ Hoi. split; [|split; [done|split; [by intros|done]]]. intros h' Hh'. destruct (open_handle e k es Hoi h' Hh') as [[Hs Hws]|?]; [|by right].
      left. split; [done|]. eapply will_signal_insert; [exact Hws|exact Ht|]. congruence.
    + eapply inv_update; [exact Hinv|exact Ht|by eapply inv_word_same|done|by apply (inv_sound _ _ _ Hinv t SetRead)|done|].
      intros _ _ Hoi. split; [by intros h' Hh'; congruence|]. split; [done|split; [by intros|done]].
  - intros [= <- <- <-]. pose proof (inv_sound _ _ _ Hinv t _ Ht) as Hs. simpl in Hs.
    eapply inv_update; [exact Hinv|exact Ht|by eapply inv_word_same|done|done|done|].
    intros _ _ Hoi. pose proof (open_good _ _ _ Hoi t _ Ht) as Hg. simpl in Hg.
    assert (exists b, signalled k h = Some b) as [b Hb] by (destruct (open_handle e k es Hoi h Hg) as [[? _]|[? _]]; eauto).
    destruct (set_law k h b Hb) as [Hset Hoth]. split; [|split; [done|split; [|done]]].
    + intros h' Hh'. right. assert (h' = h) as -> by congruence. done.
    + intros j q _ _ Hq. destruct q; simpl in *; try done; (split; [rewrite Hoth by (intros ->; tauto); tauto|tauto]).
Qed.

Lemma deref_step e k es t p e' k' p' : event_inv e k es -> es !! t = Some (Some p) -> Z.of_nat (length es) + 1 < 2 ^ 15 ->
  PhpDereferenceEvent e k p = Some (e', k', p') -> event_inv e' k' (<[t := Some p']> es).
Proof.
  intros Hinv Ht Hlen. pose proof (inv_word _ _ _ Hinv) as Hw. pose proof (refs_range e es Hlen) as Hr. pose proof (inv_sound _ _ _ Hinv t _ Ht) as Hs.
  pose proof (word_facts (PhTestEvent e) _ (initialized e) Hr) as (_ & Hf & _). rewrite <- Hw in Hf.
  destruct p as [| | | | | | | | | | | | |T o r|T h r|T r|]; simpl; try done.
  - intros [= <- <- <-]. pose proof (tally_lookup holds (fun o => proj1 (event_holds_range o)) es t _ Ht) as Hl. simpl in Hl.
    assert (Hpos : 0 < refs e es) by (unfold refs; destruct (PhTestEvent e); lia).
    eapply inv_local; [exact Hinv|exact Ht|done| | | |by intros p [= <-]|].
    + rewrite Hw at 1. rewrite word_deref by lia. f_equal. rewrite Hf. destruct o as [h|]; [|simpl; lia]. destruct (_ =? 1); simpl; lia.
    + rewrite Hf. destruct o as [h|]; [|done]. by destruct (_ =? 1).
    + rewrite Hf. destruct o as [h|]; [|done]. by destruct (_ =? 1).
    + rewrite Hf. destruct o as [h|]; [|done]. destruct (Z.eqb_spec (refs e es) 1) as [E1|]; [|done]. intros Ho. exfalso.
      destruct (is_open_insert e e es t _ _ Ho Ht (fun x => x)) as [?|Hn]; [done|]. pose proof (refs_others e es t _ Hn Ht) as Hlt. simpl in Hlt. lia.
  - intros [= <- <- <-]. eapply inv_update; [exact Hinv|exact Ht|by eapply inv_word_same|done|done|done|].
    intros _ _ Hoi. destruct (open_good _ _ _ Hoi t _ Ht).
  - intros [= <- <- <-]. eapply inv_update; [exact Hinv|exact Ht|by apply (inv_word_same e k es t (ClearHandle T r))|done|done|done|].
    intros _ _ Hoi. destruct (open_good _ _ _ Hoi t _ Ht).
Qed.

(** The steps of a wait that touch the handle. *)
Lemma create_step e k es t T k' h : event_inv e k es -> es !! t = Some (Some (WaitCreate T)) -> NtCreateEvent k = (k', h) ->
  event_inv e k' (<[t := Some (WaitPublish T h)]> es).
Proof.
  intros Hinv Ht Hc. destruct (create_law k k' h Hc) as (Hfresh & Hnew & Hoth).
  eapply inv_update; [exact Hinv|exact Ht|by eapply inv_word_same|done|done|done|]. intros _ _ Hoi.
  assert (Hlive : forall h' b, signalled k h' = Some b -> h' <> h) by (intros h' b Hb ->; congruence).
  split; [|split; [|split]].
  - intros h' Hh'. destruct (open_handle e k es Hoi h' Hh') as [[Hs Hw]|[Hs Hw]]; (rewrite Hoth by (by eapply Hlive)); [left|by right].
    split; [done|]. eapply will_signal_insert; [exact Hw|exact Ht|]. by intros p [= <-] [?|?].
  - split; [done|]. intros Hh. destruct (open_handle e k es Hoi h Hh) as [[? _]|[? _]]; congruence.
  - intros j q _ _ Hq. destruct q; simpl in *; try done; (split; [rewrite Hoth; [tauto|apply (Hlive _ false); tauto]|tauto]).
  - intros h' [= <-]. right. intros j q _ Hj Hq. pose proof (open_good e k es Hoi j q Hj) as Hg. destruct q; simpl in *; try done; injection Hq as ->; destruct Hg; congruence.
Qed.

Lemma publish_step e k es t T h : event_inv e k es -> es !! t = Some (Some (WaitPublish T h)) -> EventHandle e = None ->
  event_inv (set_EventHandle e (Some h)) k (<[t := Some (WaitCheck T (Some h))]> es).
Proof.
  intros Hinv Ht Hnone. eapply inv_update; [exact Hinv|exact Ht|by apply (inv_word_same e k es t (WaitPublish T h))|done|done|done|].
  intros _ Ho Hoi. destruct (open_good e k es Hoi t _ Ht) as [Hs _]. split; [|split; [done|split; [|done]]].
  - intros h' [= <-]. left. split; [done|]. destruct Ho as [Hu|(i & q & Hi & Hq)]; [by left|]. right.
    pose proof (open_good e k es Hoi i q Hi) as Hg. destruct q; simpl in Hq, Hg; try done; [|congruence|destruct Hg; congruence].
    exists i, SetRead. rewrite list_lookup_insert_ne by congruence. split; [done|by left].
  - intros j q Hne Hj Hq. pose proof (open_private e k es Hoi t j _ q h (not_eq_sym Hne) Ht Hj eq_refl) as Hpriv.
    destruct q; simpl in *; try done; try congruence; try (destruct Hq as [-> Hq]; by rewrite Hnone in Hq).
Qed.

Lemma discard_step e k es t T h : event_inv e k es -> es !! t = Some (Some (WaitDiscard T h)) -> event_inv e (NtClose k h) (<[t := Some (WaitReload T)]> es).
Proof.
  intros Hinv Ht. destruct (close_law k h) as [_ Hoth]. eapply inv_update; [exact Hinv|exact Ht|by eapply inv_word_same|done|done|done|].
  intros _ _ Hoi. destruct (open_good e k es Hoi t _ Ht) as (Hs & Hne & Hnn). split; [|split; [done|split; [|done]]].
  - intros h' Hh'. rewrite Hoth by congruence. destruct (open_handle e k es Hoi h' Hh') as [[? Hw]|?]; [left|by right]. split; [done|].
    eapply will_signal_insert; [exact Hw|exact Ht|]. by intros p [= <-] [?|?].
  - intros j q Hj Hjq Hq. pose proof (fun h' => open_private e k es Hoi t j _ q h' (not_eq_sym Hj) Ht Hjq) as Hpriv.
    destruct q; simpl in *; try done; (split; [rewrite Hoth; [tauto|intros ->; by eapply Hpriv]|tauto]).
Qed.

Lemma wait_step expired e k es t p e' k' p' : event_inv e k es -> es !! t = Some (Some p) -> Z.of_nat (length es) + 1 < 2 ^ 15 ->
  PhfWaitForEvent expired e k p = Some (e', k', p') -> event_inv e' k' (<[t := Some p']> es).
Proof.
  intros Hinv Ht Hlen. pose proof (inv_word _ _ _ Hinv) as Hw. pose proof (refs_range e es Hlen) as Hr.
  destruct p as [| | |T|T|T|T|T|T h|T h|T|T o|T o| | | |]; simpl; try done.
  - destruct (PhTestEvent e) eqn:Es; intros [= <- <- <-]; by pure_step Ht.
  - destruct (PhTestEvent e) eqn:Es; [intros [= <- <- <-]; by pure_step Ht|].
    destruct (decide (T = Some 0)) as [->|]; intros [= <- <- <-]; by pure_step Ht.
  - intros [= <- <- <-]. eapply inv_local; [exact Hinv|exact Ht|done| |done|done|by intros p [= <-]|by split].
    rewrite Hw at 1. rewrite word_ref by done. f_equal. simpl. lia.
  - destruct (EventHandle e) as [h|] eqn:Eh; intros [= <- <- <-]; by pure_step Ht.
  - destruct (NtCreateEvent k) as [k1 h] eqn:Ec. intros [= <- <- <-]. by eapply create_step.
  - destruct (EventHandle e) as [h'|] eqn:Eh; intros [= <- <- <-]; [|by apply publish_step]. pure_step Ht. intros [? ?]. by rewrite Eh in *.
  - intros [= <- <- <-]. by apply discard_step.
  - intros [= <- <- <-]. by pure_step Ht.
  - destruct (PhTestEvent e) eqn:Es; intros [= <- <- <-]; by pure_step Ht.
  - assert (Hoi : open_inv e k es) by (apply (inv_open _ _ _ Hinv); right; by exists t, (WaitBlock T o)).
    destruct (open_good e k es Hoi t _ Ht) as [-> Hnn]. destruct (EventHandle e) as [h|] eqn:Eh; [|done].
    rewrite wait_law. destruct (open_handle e k es Hoi h Eh) as [[Hs _]|[Hs Hset]]; rewrite Hs; cbn [mbind option_bind].
    + destruct expired; [|done]. destruct (decide (T = None)) as [->|HT]; [by rewrite bool_decide_true|]. rewrite bool_decide_false by done.
      cbn [andb negb mbind option_bind]. intros [= <- <- <-]. by pure_step Ht.
    + intros [= <- <- <-]. by pure_step Ht.
Qed.

Lemma event_step expired e k es t p e' k' p' : event_inv e k es -> es !! t = Some (Some p) -> Z.of_nat (length es) + 1 < 2 ^ 15 ->
  next expired e k p = Some (e', k', p') -> event_inv e' k' (<[t := Some p']> es).
Proof.
  intros Hinv Ht Hlen Hn. destruct p; simpl in Hn; try done; (by eapply set_step) || (by eapply deref_step) || (by eapply (wait_step expired)).
Qed.

(** A thread enters a call, or leaves it. *)
Lemma event_enter e k es t p : event_inv e k es -> es !! t = Some None -> Z.of_nat (length es) + 1 < 2 ^ 15 ->
  p = SetBit \/ (exists T, p = WaitTest T) -> event_inv e k (<[t := Some p]> es).
Proof.
  intros Hinv Ht Hlen Hp. replace e with (set_Value e (Value e)) by (by destruct e).
  eapply inv_local; [exact Hinv|exact Ht|done| | | |done|].
  - rewrite (inv_word _ _ _ Hinv) at 1. f_equal. destruct Hp as [->|[T ->]]; simpl; lia.
  - by destruct Hp as [->|[T ->]].
  - by destruct Hp as [->|[T ->]].
  - intros _ _. by destruct Hp as [->|[T ->]].
Qed.

Lemma event_leave e k es t T r : event_inv e k es -> es !! t = Some (Some (Return T r)) -> event_inv e k (<[t := None]> es).
Proof.
  intros [Hw Hs Ho] Ht. assert (Hr : refs e (<[t := None]> es) = refs e es) by (rewrite (refs_insert e es t _ _ Ht); simpl; lia). split; [by rewrite Hr| |].
  - intros i p [[_ ?]|[_ Hi]]%lookup_cases; [done|by apply (Hs i)].
  - intros Hop. destruct (Ho (is_open_remove _ _ _ Hop)) as [H1 H2 H3]. split.
    + intros h Hh. destruct (H1 h Hh) as [[Hsg [Hw'|(i & p & Hi & Hp)]]|?]; [left|left|by right]; (split; [done|]); [by left|].
      right. exists i, p. rewrite list_lookup_insert_ne; [done|]. intros <-. rewrite Ht in Hi. injection Hi as <-. by destruct Hp.
    + intros i p [[_ ?]|[_ Hi]]%lookup_cases; [done|by apply (H2 i)].
    + intros i j p q h Hne [[_ ?]|[_ Hi]]%lookup_cases [[_ ?]|[_ Hj]]%lookup_cases; [done..|by apply (H3 i j p q h)].
Qed.

(** The bit of the once-initialization is independent of the event. *)
Lemma event_init_bit e k es : event_inv e k es -> Z.of_nat (length es) + 1 < 2 ^ 15 ->
  let e' := set_Value e (Z.setbit (Value e) PH_INITONCE_INITIALIZING_SHIFT) in
  event_inv e' k es /\ PhTestEvent e' = PhTestEvent e /\ initialized e' = true.
Proof.
  intros Hinv Hlen e'. pose proof (refs_range e es Hlen) as Hr. pose proof (inv_word _ _ _ Hinv) as Hw.
  assert (Hv : Value e' = word (PhTestEvent e) (refs e es) true) by (cbn [e' set_Value Value]; rewrite Hw at 1; by apply word_init).
  destruct (word_facts (PhTestEvent e) _ true Hr) as (G1 & _ & G3 & _). rewrite <- Hv in G1, G3.
  assert (Ht' : PhTestEvent e' = PhTestEvent e) by exact G1. assert (Hi' : initialized e' = true) by exact G3. split; [|done].
  destruct Hinv as [_ Hs Ho]. split.
  - rewrite Hv, Ht', Hi'. f_equal. unfold refs. by rewrite Ht'.
  - intros i p Hi. specialize (Hs i p Hi). destruct p as [| | | | | | | | | | | | |? ? []|? ? []|? []|? []]; simpl in *; by rewrite ?Ht'.
  - unfold is_open. rewrite Ht'. intros [H1 H2 H3]%Ho. split; [|by intros i p Hi; specialize (H2 i p Hi); destruct p|done].
    intros h Hh. unfold will_signal. rewrite Ht'. by apply H1.
Qed.

Lemma event_initial k n : event_inv PhfInitializeEvent k (replicate n None).
Proof.
  split.
  - unfold refs. rewrite tally_replicate by done. reflexivity.
  - by intros i p [? _]%lookup_replicate.
  - intros _. split; [done|by intros i p [? _]%lookup_replicate|by intros i j p q h _ [? _]%lookup_replicate].
Qed.

End invariant.

(** ** Threads that use an event

    A client sets the event or waits for it ([Setting], [Waiting]); or, when it is a
    once-initialization, calls [PhfBeginInitOnce], and [PhfEndInitOnce] if it was told to
    initialize. *)
Section system.
Context {K HANDLE : Type} `{KernelEvents K HANDLE}.
Abbreviation PH_EVENT := (PH_EVENT HANDLE).
Abbreviation pc := (pc HANDLE).

Inductive thread :=
  | Idle
  | Setting (p : pc) | Waiting (p : pc)
  | Beginning | BeginWaiting (p : pc) | Initializing | Ending (p : pc).

Definition in_event (th : thread) : option pc :=
  match th with Setting p | Waiting p | BeginWaiting p | Ending p => Some p | _ => None end.
Definition with_pc (th : thread) (p : pc) : thread :=
  match th with Setting _ => Setting p | Waiting _ => Waiting p | BeginWaiting _ => BeginWaiting p | Ending _ => Ending p | th => th end.

(** Answering TRUE makes the caller the initializing thread. *)
Definition PhfBeginInitOnce (e : PH_EVENT) : PH_EVENT * thread :=
  (set_Value e (Z.setbit (Value e) PH_INITONCE_INITIALIZING_SHIFT),
   if negb (Z.testbit (Value e) PH_INITONCE_INITIALIZING_SHIFT) then Initializing else BeginWaiting (WaitTest None)).
Definition PhfEndInitOnce : thread := Ending SetBit.

Inductive call (once : bool) : thread -> thread -> Prop :=
  | call_set : once = false -> call once Idle (Setting SetBit)
  | call_wait Timeout : once = false -> call once Idle (Waiting (WaitTest Timeout))
  | call_begin : once = true -> call once Idle Beginning
  | call_end : once = true -> call once Initializing PhfEndInitOnce.

Definition state : Type := PH_EVENT * K * list thread.

Inductive step (once : bool) : state -> state -> Prop :=
  | step_call e k ts t th th' : ts !! t = Some th -> call once th th' -> step once (e, k, ts) (e, k, <[t := th']> ts)
  | step_begin e k ts t : ts !! t = Some Beginning -> step once (e, k, ts) ((PhfBeginInitOnce e).1, k, <[t := (PhfBeginInitOnce e).2]> ts)
  | step_next e k ts t th p expired e' k' p' : ts !! t = Some th -> in_event th = Some p -> next expired e k p = Some (e', k', p') ->
      step once (e, k, ts) (e', k', <[t := with_pc th p']> ts)
  | step_return e k ts t th Timeout result : ts !! t = Some th -> in_event th = Some (Return Timeout result) -> step once (e, k, ts) (e, k, <[t := Idle]> ts).

Definition reachable (once : bool) (k : K) (n : nat) (s : state) : Prop := rtc (step once) (PhfInitializeEvent, k, replicate n Idle) s.

(** Neither can take a step: outside every call, or asleep. *)
Definition rests (e : PH_EVENT) (k : K) (th : thread) : Prop :=
  th = Idle \/ th = Initializing \/ exists T o, in_event th = Some (WaitBlock T o) /\ next false e k (WaitBlock T o) = None.
Definition asleep (e : PH_EVENT) (k : K) (th : thread) : Prop :=
  exists T o, in_event th = Some (WaitBlock T o) /\ next false e k (WaitBlock T o) = None.

(** A schedule names the thread that moves and, when it is outside a call, the call it makes. *)
Inductive choice := Go | Set_ | Wait_ (Timeout : option Z) | Begin_ | End_ | Leave.

Definition move (once : bool) (s : state) (t : nat) (c : choice) : option state :=
  let '(e, k, ts) := s in
  th ← ts !! t;
  match th, c with
  | Idle, Set_ => if once then None else Some (e, k, <[t := Setting SetBit]> ts)
  | Idle, Wait_ T => if once then None else Some (e, k, <[t := Waiting (WaitTest T)]> ts)
  | Idle, Begin_ => if once then Some (e, k, <[t := Beginning]> ts) else None
  | Initializing, End_ => if once then Some (e, k, <[t := PhfEndInitOnce]> ts) else None
  | Beginning, Go => Some ((PhfBeginInitOnce e).1, k, <[t := (PhfBeginInitOnce e).2]> ts)
  | th, Go => p ← in_event th; '(e', k', p') ← next false e k p; Some (e', k', <[t := with_pc th p']> ts)
  | th, Leave => p ← in_event th; match p with Return _ _ => Some (e, k, <[t := Idle]> ts) | _ => None end
  | _, _ => None
  end.
Fixpoint run (once : bool) (s : state) (l : list (nat * choice)) : option state :=
  match l with [] => Some s | (t, c) :: l => s ← move once s t c; run once s l end.

Lemma event_move_step once s t c s' : move once s t c = Some s' -> step once s s'.
Proof.
  destruct s as [[e k] ts]. unfold move. destruct (ts !! t) as [th|] eqn:Et; [|done]. cbn [mbind option_bind].
  assert (Hgo : forall p, in_event th = Some p -> ('(e', k', p') ← next false e k p; Some (e', k', <[t := with_pc th p']> ts)) = Some s' -> step once (e, k, ts) s').
  { intros p Hp Hm. destruct (next false e k p) as [[[e' k'] p']|] eqn:En; [|done]. injection Hm as <-. by eapply step_next. }
  assert (Hleave : forall p, in_event th = Some p -> match p with Return _ _ => Some (e, k, <[t := Idle]> ts) | _ => None end = Some s' -> step once (e, k, ts) s').
  { intros p Hp Hm. destruct p; try done. injection Hm as <-. by eapply step_return. }
  destruct th, c; intros Hm; try done; try (by eapply Hgo); try (by eapply Hleave); destruct once; try done; injection Hm as <-;
    (by eapply step_begin) || (eapply step_call; [exact Et|by constructor]).
Qed.

Lemma event_run_reachable once k n l s : run once (PhfInitializeEvent, k, replicate n Idle) l = Some s -> reachable once k n s.
Proof.
  unfold reachable. generalize (@PhfInitializeEvent HANDLE, k, replicate n (@Idle)) as s0.
  induction l as [|[t c] l IH]; intros s0 Hrun; simpl in Hrun; [by injection Hrun as ->|].
  destruct (move once s0 t c) as [s1|] eqn:Hm; [|done]. eapply rtc_l; [by eapply event_move_step|by apply IH].
Qed.

End system.
Arguments thread : clear implicits.

Section theorems.
Context {K HANDLE : Type} `{KernelEventLaws K HANDLE}.
Abbreviation PH_EVENT := (PH_EVENT HANDLE).
Abbreviation thread := (thread HANDLE).
Implicit Types (e : PH_EVENT) (k : K) (ts : list thread) (th : thread).

(** The initializing thread, until it has set the event. *)
Definition initializes th : Z := match th with Initializing | Ending SetBit => 1 | _ => 0 end.

Definition once_inv e ts : Prop :=
  tally initializes ts = (if initialized e && negb (PhTestEvent e) then 1 else 0) /\
  (PhTestEvent e = true -> initialized e = true) /\
  (forall t p, ts !! t = Some (BeginWaiting p) -> initialized e = true).

(** The program counters of a set, and of a wait with a timeout. *)
Definition sets (p : pc HANDLE) : Prop :=
  match p with
  | SetBit | SetRead | SetSignal _ | Deref None _ true | CloseEvent None _ true | ClearHandle None true | Return None true => True
  | _ => False
  end.
Definition waits (Timeout : option Z) (p : pc HANDLE) : Prop :=
  match p with
  | SetBit | SetRead | SetSignal _ => False
  | WaitTest T | WaitRead T | WaitRef T | WaitHandle T | WaitCreate T | WaitPublish T _ | WaitDiscard T _ | WaitReload T | WaitCheck T _ | WaitBlock T _
  | Deref T _ _ | CloseEvent T _ _ | ClearHandle T _ | Return T _ => T = Timeout
  end.

(** A client of a once-initialization makes no other call, and waits without a timeout. *)
Definition kind_ok (once : bool) th : Prop :=
  match th with
  | Setting _ | Waiting _ => once = false
  | BeginWaiting p => waits None p
  | Ending p => sets p
  | _ => True
  end.

Ltac cases_of H :=
  repeat match type of H with
  | context [if ?b then _ else _] => destruct b
  | context [match EventHandle ?x with _ => _ end] => destruct (EventHandle x)
  | context [let '(_, _) := NtCreateEvent ?x in _] => destruct (NtCreateEvent x)
  | context [match ?o with Some _ => _ | None => _ end] => destruct o
  | context [(?m ≫= _)] => destruct m; cbn [mbind option_bind] in H
  end; try done; injection H as <- <- <-.

Lemma next_kind expired e k p e' k' p' : next expired e k p = Some (e', k', p') ->
  (sets p -> sets p') /\ (forall T, waits T p -> waits T p').
Proof.
  intros Hn. destruct p as [| |h|T|T|T|T|T|T h|T h|T|T o|T o|T o r|T h r|T r|T r]; simpl in Hn; try done; cases_of Hn; (split; [|intros ? HT; simpl in *; try done; by subst]); simpl; try done.
Qed.

Record state_inv (once : bool) (s : @state K HANDLE) : Prop := {
  state_event : event_inv s.1.1 s.1.2 (in_event <$> s.2);
  state_kind : forall t th, s.2 !! t = Some th -> kind_ok once th;
  state_once : once = true -> once_inv s.1.1 s.2;
}.

Lemma next_bits expired e k es t p e' k' p' : event_inv e k es -> es !! t = Some (Some p) -> Z.of_nat (length es) + 1 < 2 ^ 15 ->
  next expired e k p = Some (e', k', p') ->
  (p' <> SetBit) /\ initialized e' = initialized e /\ (PhTestEvent e' = match p with SetBit => true | _ => PhTestEvent e end).
Proof.
  intros Hinv Ht Hlen Hn. pose proof (inv_word _ _ _ Hinv) as Hw. pose proof (refs_range e es Hlen) as Hr.
  assert (Hsame : Value e' = Value e -> initialized e' = initialized e /\ PhTestEvent e' = PhTestEvent e) by (intros Hv; unfold initialized, PhTestEvent; by rewrite Hv).
  assert (Hword : forall c, 0 <= c < 2 ^ 15 -> Value e' = word (PhTestEvent e) c (initialized e) -> initialized e' = initialized e /\ PhTestEvent e' = PhTestEvent e).
  { intros c Hc Hv. destruct (word_facts (PhTestEvent e) c (initialized e) Hc) as (G1 & _ & G3 & _). rewrite <- Hv in G1, G3. by split. }
  pose proof (tally_lookup holds (fun o => proj1 (event_holds_range o)) es t _ Ht) as Hl.
  destruct p as [| |h|T|T|T|T|T|T h|T h|T|T o|T o|T o r|T h r|T r|]; simpl in Hn, Hl; try done.
  1: { injection Hn as <- <- <-. split; [by destruct (PhTestEvent e)|]. unfold initialized, PhTestEvent. cbn [set_Value Value]. split; [by apply Z.setbit_neq|by apply Z.setbit_eq]. }
  5: { injection Hn as <- <- <-. split; [done|]. apply (Hword (refs e es + 1)); [|cbn; rewrite Hw at 1; by apply word_ref].
       pose proof (refs_range e (<[t := Some (WaitHandle T)]> es)) as Hr'. rewrite length_insert in Hr'. specialize (Hr' Hlen). rewrite (refs_insert e es t _ _ Ht) in Hr'. simpl in Hr'. lia. }
  12: { injection Hn as <- <- <-. split; [by destruct o; [destruct (_ =? 1)|]|]. apply (Hword (refs e es - 1)); [unfold refs in *; destruct (PhTestEvent e); lia|].
        cbn. rewrite Hw at 1. apply word_deref. unfold refs in *. destruct (PhTestEvent e); lia. }
  all: cases_of Hn; (split; [done|by apply Hsame]).
Qed.

(** A thread inside a call is blocked only in its wait. *)
Lemma next_blocked expired e k p : next expired e k p = None -> (exists T o, p = WaitBlock T o) \/ exists T r, p = Return T r.
Proof.
  intros Hn. destruct p as [| |h|T|T|T|T|T|T h|T h|T|T o|T o|T o r|T h r|T r|T r]; [..|by right; exists T, r].
  13: by left; exists T, o.
  all: simpl in Hn; repeat match type of Hn with context [match ?x with _ => _ end] => destruct x end; done.
Qed.

Lemma in_event_insert ts t th : in_event <$> <[t := th]> ts = <[t := in_event th]> (in_event <$> ts).
Proof. by rewrite list_fmap_insert. Qed.
Lemma in_event_lookup ts t th : ts !! t = Some th -> (in_event <$> ts) !! t = Some (in_event th).
Proof. intros Ht. by rewrite list_lookup_fmap, Ht. Qed.
Lemma in_event_with th p p' : in_event th = Some p -> in_event (with_pc th p') = Some p'.
Proof. by destruct th. Qed.

Lemma initializes_range th : 0 <= initializes th <= 1.
Proof. destruct th as [| | | | | |[]]; simpl; lia. Qed.

Lemma once_insert e e' ts t th th' : once_inv e ts -> ts !! t = Some th -> initialized e' = initialized e -> PhTestEvent e' = PhTestEvent e ->
  initializes th' = initializes th -> (forall p, th' = BeginWaiting p -> initialized e = true) -> once_inv e' (<[t := th']> ts).
Proof.
  intros (Ht & Hs & Hb) Hth Ei Es Hw Hbw. unfold once_inv. rewrite Ei, Es, (tally_insert initializes ts t _ _ Hth), Hw, Ht. split; [lia|]. split; [done|].
  intros i p [[_ ->]|[_ Hi]]%lookup_cases; [by eapply Hbw|by eapply Hb].
Qed.

Lemma state_call once e k ts t th th' : state_inv once (e, k, ts) -> Z.of_nat (length ts) + 1 < 2 ^ 15 -> ts !! t = Some th -> call once th th' ->
  state_inv once (e, k, <[t := th']> ts).
Proof.
  intros [He Hk Ho] Hlen Ht Hc. cbn [fst snd] in *. pose proof (in_event_lookup ts t th Ht) as Hi. rewrite <- (length_fmap in_event ts) in Hlen.
  split; cbn [fst snd].
  - rewrite in_event_insert. destruct Hc as [_|T _|_|_]; simpl in *.
    + apply event_enter; [done|done|done|by left].
    + apply event_enter; [done|done|done|right; by exists T].
    + by rewrite list_insert_id.
    + apply event_enter; [done|done|done|by left].
  - intros i th0 [[_ <-]|[_ Hi0]]%lookup_cases; [by destruct Hc|by apply (Hk i)].
  - intros Honce. apply (once_insert e e ts t th th' (Ho Honce) Ht eq_refl eq_refl); destruct Hc; try done. all: congruence.
Qed.

Lemma state_begin once e k ts t : state_inv once (e, k, ts) -> Z.of_nat (length ts) + 1 < 2 ^ 15 -> ts !! t = Some Beginning ->
  state_inv once ((PhfBeginInitOnce e).1, k, <[t := (PhfBeginInitOnce e).2]> ts).
Proof.
  intros [He Hk Ho] Hlen Ht. cbn [fst snd] in *. pose proof (in_event_lookup ts t _ Ht) as Hi. simpl in Hi. pose proof Hlen as Hlen0. rewrite <- (length_fmap in_event ts) in Hlen.
  destruct (event_init_bit e k _ He Hlen) as (He' & Es & Ei). unfold PhfBeginInitOnce. cbn [fst snd].
  change (Z.testbit (Value e) PH_INITONCE_INITIALIZING_SHIFT) with (initialized e). set (e' := set_Value e _) in *.
  split; cbn [fst snd].
  - rewrite in_event_insert. destruct (initialized e); simpl; [apply event_enter; [done|done|done|right; by exists None]|]. by rewrite list_insert_id.
  - intros i th0 [[_ <-]|[_ Hi0]]%lookup_cases; [by destruct (initialized e)|by apply (Hk i)].
  - intros Honce. destruct (Ho Honce) as (Hta & Hset & Hbw). destruct (initialized e) eqn:Ee; simpl.
    + apply (once_insert e e' ts t Beginning); [by apply Ho|done|congruence|done|done|done].
    + assert (Hns : PhTestEvent e = false) by (destruct (PhTestEvent e); [by specialize (Hset eq_refl)|done]).
      split; [|split; [by intros _|by intros i p _]]. rewrite Ei, Es, Hns, (tally_insert initializes ts t _ _ Ht), Hta. simpl. lia.
Qed.

Lemma state_next once e k ts t th p expired e' k' p' : state_inv once (e, k, ts) -> Z.of_nat (length ts) + 1 < 2 ^ 15 -> ts !! t = Some th ->
  in_event th = Some p -> next expired e k p = Some (e', k', p') -> state_inv once (e', k', <[t := with_pc th p']> ts).
Proof.
  intros [He Hk Ho] Hlen Ht Hp Hn. cbn [fst snd] in *. pose proof (in_event_lookup ts t th Ht) as Hi. rewrite Hp in Hi. rewrite <- (length_fmap in_event ts) in Hlen.
  destruct (next_bits expired e k _ t p e' k' p' He Hi Hlen Hn) as (Hp' & Ei & Es). split; cbn [fst snd].
  - rewrite in_event_insert, (in_event_with th p p' Hp). by eapply event_step.
  - intros i th0 [[_ <-]|[_ Hi0]]%lookup_cases; [|by apply (Hk i)]. pose proof (Hk t th Ht) as Hkt.
    destruct (next_kind _ _ _ _ _ _ _ Hn) as [Hks Hkw]. destruct th; simpl in *; simplify_eq; auto.
  - intros Honce. pose proof (Hk t th Ht) as Hkt. destruct (decide (initializes th = 0)) as [Hz|Hnz].
    + apply (once_insert e e' ts t th); [by apply Ho|done|done| | |].
      * rewrite Es. destruct p; try done. destruct th; simpl in *; simplify_eq; done.
      * rewrite Hz. destruct th; simpl in *; try done. by destruct p'.
      * intros q Hq. destruct (Ho Honce) as (_ & _ & Hbw). destruct th; simpl in *; try done. by eapply Hbw.
    + destruct th as [| | | | | |[]]; simpl in *; try done. injection Hp as <-. destruct (Ho Honce) as (Hta & Hset & Hbw).
      pose proof (tally_lookup initializes (fun th => proj1 (initializes_range th)) ts t _ Ht) as Hl. simpl in Hl.
      assert (Hini : initialized e = true) by (destruct (initialized e); [done|simpl in Hta; lia]). assert (Hns : PhTestEvent e = false) by (rewrite Hini in Hta; destruct (PhTestEvent e); [simpl in Hta; lia|done]).
      split; [|split; [by rewrite Ei|intros i q _; by rewrite Ei]]. rewrite Ei, Es, (tally_insert initializes ts t _ _ Ht), Hta, Hini, Hns. by destruct p'.
Qed.

Lemma state_return once e k ts t th T r : state_inv once (e, k, ts) -> ts !! t = Some th -> in_event th = Some (Return T r) -> state_inv once (e, k, <[t := Idle]> ts).
Proof.
  intros [He Hk Ho] Ht Hp. cbn [fst snd] in *. pose proof (in_event_lookup ts t th Ht) as Hi. rewrite Hp in Hi. split; cbn [fst snd].
  - rewrite in_event_insert. by eapply event_leave.
  - intros i th0 [[_ <-]|[_ Hi0]]%lookup_cases; [done|by apply (Hk i)].
  - intros Honce. apply (once_insert e e ts t th); [by apply Ho|done|done|done| |done]. destruct th; simpl in *; simplify_eq; done.
Qed.

Lemma event_step_length once s s' : step once s s' -> length s'.2 = length s.2.
Proof. destruct 1; cbn [snd]; apply length_insert. Qed.

Lemma event_reachable_inv once k n s : Z.of_nat n + 1 < 2 ^ 15 -> reachable once k n s -> state_inv once s /\ length s.2 = n.
Proof.
  intros Hn. unfold reachable. apply (rtc_ind_r (fun s => state_inv once s /\ length s.2 = n)).
  - split; [|apply length_replicate]. split; cbn [fst snd].
    + rewrite fmap_replicate. apply event_initial.
    + by intros t th [-> _]%lookup_replicate.
    + intros _. split; [by rewrite tally_replicate|]. split; [done|]. by intros t p [? _]%lookup_replicate.
  - intros s1 s2 _ Hstep [IH Hl]. pose proof (event_step_length _ _ _ Hstep) as Hl'. split; [|congruence].
    destruct Hstep; cbn [snd] in *; [eapply state_call|eapply state_begin|eapply state_next|eapply state_return]; try done; by rewrite Hl.
Qed.

(** C24: A wait answers TRUE only if the event has been set, and FALSE only if its timeout may have
    expired; and no thread waits on or signals a kernel event that has been closed. For every
    interleaving of fewer than 2^15 threads. *)
Theorem event_wait_sound k n e k' ts : Z.of_nat n + 1 < 2 ^ 15 -> reachable false k n (e, k', ts) ->
  (forall t Timeout result, ts !! t = Some (Waiting (Return Timeout result)) -> if result then PhTestEvent e = true else Timeout <> None) /\
  (forall t Timeout o, ts !! t = Some (Waiting (WaitBlock Timeout o)) -> exists h, o = Some h /\ EventHandle e = Some h /\ is_Some (signalled k' h)) /\
  (forall t h, ts !! t = Some (Setting (SetSignal h)) -> EventHandle e = Some h /\ is_Some (signalled k' h)).
Proof.
  intros Hn Hr. destruct (event_reachable_inv _ _ _ _ Hn Hr) as [[He _ _] _]. cbn [fst snd] in He.
  assert (Hlive : forall t th p, ts !! t = Some th -> in_event th = Some p -> pending p -> open_inv e k' (in_event <$> ts)).
  { intros t th p Ht Hp Hpend. apply (inv_open _ _ _ He). right. exists t, p. by rewrite list_lookup_fmap, Ht, <- Hp. }
  assert (Hh : forall h, open_inv e k' (in_event <$> ts) -> EventHandle e = Some h -> is_Some (signalled k' h)).
  { intros h Hoi Hh. destruct (open_handle _ _ _ Hoi h Hh) as [[-> _]|[-> _]]; by eexists. }
  split; [|split].
  - intros t T r Ht. apply (inv_sound _ _ _ He t (Return T r)). by rewrite list_lookup_fmap, Ht.
  - intros t T o Ht. pose proof (Hlive t _ _ Ht eq_refl I) as Hoi.
    destruct (open_good _ _ _ Hoi t (WaitBlock T o)) as [-> Hnn]; [by rewrite list_lookup_fmap, Ht|].
    destruct (EventHandle e) as [h|] eqn:Eh; [|done]. exists h. split; [done|]. split; [done|]. by apply Hh.
  - intros t h Ht. pose proof (Hlive t _ _ Ht eq_refl I) as Hoi. pose proof (open_good _ _ _ Hoi t (SetSignal h)) as Hg.
    rewrite list_lookup_fmap, Ht in Hg. specialize (Hg eq_refl). simpl in Hg. split; [done|]. by apply Hh.
Qed.

(** Once the event is set, a thread that sleeps has one that is about to wake it. *)
Lemma asleep_woken once k n e k' ts t th : Z.of_nat n + 1 < 2 ^ 15 -> reachable once k n (e, k', ts) -> PhTestEvent e = true ->
  ts !! t = Some th -> asleep e k' th -> exists t' th' p, ts !! t' = Some th' /\ in_event th' = Some p /\ next false e k' p <> None.
Proof.
  intros Hn Hr Hset Ht (T & o & Hp & Hblock). destruct (event_reachable_inv _ _ _ _ Hn Hr) as [[He _ _] _]. cbn [fst snd] in He.
  assert (Hi : (in_event <$> ts) !! t = Some (Some (WaitBlock T o))) by (by rewrite list_lookup_fmap, Ht, <- Hp).
  assert (Hoi : open_inv e k' (in_event <$> ts)) by (apply (inv_open _ _ _ He); right; by exists t, (WaitBlock T o)).
  destruct (open_good _ _ _ Hoi t _ Hi) as [-> Hnn]. destruct (EventHandle e) as [h|] eqn:Eh; [|done].
  destruct (open_handle _ _ _ Hoi h Eh) as [[Hs Hw]|[Hs _]]; [|simpl in Hblock; by rewrite wait_law, Hs in Hblock].
  destruct Hw as [?|(i & p & Hip & Hpp)]; [congruence|]. rewrite list_lookup_fmap in Hip. destruct (ts !! i) as [th'|] eqn:Et'; [|done]. injection Hip as Hip.
  exists i, th', p. split; [done|]. split; [done|]. by destruct Hpp as [-> | ->].
Qed.

(** C25: No wake-up is lost. Once the event is set, it is not possible that every thread is outside
    a call or asleep while one is asleep. *)
Theorem event_no_lost_wakeup k n e k' ts : Z.of_nat n + 1 < 2 ^ 15 -> reachable false k n (e, k', ts) ->
  PhTestEvent e = true -> (forall t th, ts !! t = Some th -> rests e k' th) -> forall t th, ts !! t = Some th -> ~ asleep e k' th.
Proof.
  intros Hn Hr Hset Hrest t th Ht Ha. destruct (asleep_woken _ _ _ _ _ _ _ _ Hn Hr Hset Ht Ha) as (t' & th' & p & Ht' & Hp & Hmove).
  destruct (Hrest t' th' Ht') as [->|[->|(T & o & Hp' & Hb)]]; [done|done|]. rewrite Hp in Hp'. injection Hp' as ->. done.
Qed.

(** C26: Exactly one thread initializes. At most one thread is told to, none is once the event is set or
    while no call has begun, and a thread is told that the initialization is done only after
    [PhfEndInitOnce] has set the event. If no thread can move and one is asleep, the initializing
    thread is still at work. *)
Theorem init_once_safe k n e k' ts : Z.of_nat n + 1 < 2 ^ 15 -> reachable true k n (e, k', ts) ->
  (forall t t', ts !! t = Some Initializing -> ts !! t' = Some Initializing -> t = t') /\
  (forall t, ts !! t = Some Initializing -> initialized e = true /\ PhTestEvent e = false) /\
  (forall t T r, ts !! t = Some (BeginWaiting (Return T r)) -> r = true /\ PhTestEvent e = true) /\
  (forall t th, ts !! t = Some th -> asleep e k' th -> (forall t th, ts !! t = Some th -> rests e k' th) ->
     exists t', ts !! t' = Some Initializing).
Proof.
  intros Hn Hr. destruct (event_reachable_inv _ _ _ _ Hn Hr) as [[He Hk Ho] _]. cbn [fst snd] in *. destruct (Ho eq_refl) as (Hta & Hset & Hbw).
  assert (Hone : forall t, ts !! t = Some Initializing -> tally initializes ts = 1).
  { intros t Ht. pose proof (tally_lookup initializes (fun th => proj1 (initializes_range th)) ts t _ Ht) as Hl. simpl in Hl. rewrite Hta in Hl |- *. by destruct (_ && _). }
  split; [|split; [|split]].
  - intros t t' Ht Ht'. destruct (decide (t = t')) as [|Hne]; [done|]. pose proof (tally_two initializes (fun th => proj1 (initializes_range th)) ts t t' _ _ Hne Ht Ht') as Hl.
    rewrite (Hone t Ht) in Hl. simpl in Hl. lia.
  - intros t Ht. pose proof (Hone t Ht) as H1. rewrite Hta in H1. destruct (initialized e), (PhTestEvent e); done.
  - intros t T r Ht. pose proof (Hk t _ Ht) as HT. simpl in HT. subst T. pose proof (inv_sound _ _ _ He t (Return None r)) as Hs. rewrite list_lookup_fmap, Ht in Hs. specialize (Hs eq_refl). by destruct r.
  - intros t th Ht Ha Hrest. destruct (PhTestEvent e) eqn:Es.
    + destruct (asleep_woken _ _ _ _ _ _ _ _ Hn Hr Es Ht Ha) as (t' & th' & p & Ht' & Hp & Hmove).
      destruct (Hrest t' th' Ht') as [->|[->|(T & o & Hp' & Hb)]]; [done|done|]. rewrite Hp in Hp'. injection Hp' as ->. done.
    + assert (Hini : initialized e = true).
      { destruct Ha as (T & o & Hp & _). pose proof (Hk t th Ht) as Hkt. destruct th; simpl in Hp, Hkt; try done; [by eapply Hbw|]. by injection Hp as ->. }
      rewrite Hini in Hta. simpl in Hta. destruct (tally_pos initializes (fun th => proj1 (initializes_range th)) ts) as (t' & th' & Ht' & Hw); [lia|].
      exists t'. destruct th' as [| | | | | |q]; simpl in Hw; try lia; [done|]. destruct q; try lia. destruct (Hrest t' _ Ht') as [?|[?|(T & o & Hp' & _)]]; done.
Qed.

End theorems.

(** ** A kernel, and runs

    The events that are open, by handle; closed handles are used again. *)
#[global] Instance MapEvents : KernelEvents (gmap positive bool) positive := {|
  NtCreateEvent k := let h := fresh (dom k) in (<[h := false]> k, h);
  NtSetEvent k h := match k !! h with Some _ => <[h := true]> k | None => k end;
  NtWaitForSingleObject k h expired :=
    match k !! h with
    | Some true => Some STATUS_WAIT_0
    | Some false => if expired : bool then Some STATUS_TIMEOUT else None
    | None => Some STATUS_INVALID_HANDLE
    end;
  NtClose k h := delete h k;
|}.

#[global] Program Instance MapEventLaws : KernelEventLaws (gmap positive bool) positive := {| signalled k h := k !! h |}.
Next Obligation.
  intros k k' h. simpl. intros [= <- <-]. split; [apply not_elem_of_dom, is_fresh|]. split; [apply lookup_insert_eq|]. intros h' Hne. by apply lookup_insert_ne.
Qed.
Next Obligation. intros k h b Hb. simpl. rewrite Hb. split; [apply lookup_insert_eq|]. intros h' Hne. by apply lookup_insert_ne. Qed.
Next Obligation. done. Qed.
Next Obligation. intros k h. split; [apply lookup_delete_eq|]. intros h' Hne. by apply lookup_delete_ne. Qed.

Definition go (t : nat) (n : nat) : list (nat * choice) := replicate n (t, Go).

(** Thread 0 sets; thread 1 sleeps; thread 2 has seen the event unset and is about to take its
    reference when the others let go of the last ones. *)
Definition double_close : list (nat * choice) :=
  (1%nat, Wait_ None) :: go 1 7 ++ (2%nat, Wait_ None) :: go 2 2 ++ (0%nat, Set_) :: go 0 4 ++ go 1 2 ++ go 2 4 ++ go 1 1.

(** The last reference does not protect the kernel event. A thread that takes its reference after
    another has found the count at zero reads the handle the other is about to close, and closes it
    again, when it may already belong to somebody else: here thread 2 is about to close a handle that
    thread 1 has closed. *)
Theorem event_closed_twice : exists e k ts h, reachable false (∅ : gmap positive bool) 3 (e, k, ts) /\
  ts !! 2%nat = Some (Waiting (CloseEvent None h true)) /\ ts !! 1%nat = Some (Waiting (ClearHandle None true)) /\ signalled k h = None.
Proof.
  destruct (run false (PhfInitializeEvent, ∅ : gmap positive bool, replicate 3 Idle) double_close) as [[[e k] ts]|] eqn:E; [|by vm_compute in E].
  exists e, k, ts, 1%positive. split; [by eapply event_run_reachable|]. vm_compute in E. by injection E as <- <- <-.
Qed.

Lemma event_wait_sound_witness : exists e k ts, reachable false (∅ : gmap positive bool) 2 (e, k, ts) /\ ts !! 1%nat = Some (Waiting (Return None true)) /\
  ((forall t Timeout result, ts !! t = Some (Waiting (Return Timeout result)) -> if result then PhTestEvent e = true else Timeout <> None) /\
  (forall t Timeout o, ts !! t = Some (Waiting (WaitBlock Timeout o)) -> exists h, o = Some h /\ EventHandle e = Some h /\ is_Some (signalled k h)) /\
  (forall t h, ts !! t = Some (Setting (SetSignal h)) -> EventHandle e = Some h /\ is_Some (signalled k h))).
Proof.
  destruct (run false (PhfInitializeEvent, ∅ : gmap positive bool, replicate 2 Idle) ((1%nat, Wait_ None) :: go 1 7 ++ (0%nat, Set_) :: go 0 4 ++ go 1 4)) as [[[e k] ts]|] eqn:E;
    [|by vm_compute in E].
  pose proof (event_run_reachable _ _ _ _ _ E) as Hr. exists e, k, ts. split; [exact Hr|]. split; [vm_compute in E; by injection E as <- <- <-|].
  apply (event_wait_sound ∅ 2 e k ts); [reflexivity|exact Hr].
Defined.

Lemma event_no_lost_wakeup_witness : exists e k ts, reachable false (∅ : gmap positive bool) 2 (e, k, ts) /\ PhTestEvent e = true /\ length ts = 2%nat /\
  forall t th, ts !! t = Some th -> ~ asleep e k th.
Proof.
  destruct (run false (PhfInitializeEvent, ∅ : gmap positive bool, replicate 2 Idle) ((1%nat, Wait_ None) :: go 1 7 ++ (0%nat, Set_) :: go 0 4 ++ go 1 4 ++ [(0%nat, Leave); (1%nat, Leave)]))
    as [[[e k] ts]|] eqn:E; [|by vm_compute in E].
  pose proof (event_run_reachable _ _ _ _ _ E) as Hr. vm_compute in E. injection E as <- <- <-. eexists _, _, _. split; [exact Hr|]. split; [reflexivity|]. split; [reflexivity|].
  apply (event_no_lost_wakeup ∅ 2 _ _ _ ltac:(reflexivity) Hr); [reflexivity|].
  intros [|[|t]] th Ht; [injection Ht as <-; by left|injection Ht as <-; by left|done].
Defined.

Lemma init_once_safe_witness : exists e k ts, reachable true (∅ : gmap positive bool) 2 (e, k, ts) /\ ts !! 0%nat = Some Initializing /\
  ((forall t t', ts !! t = Some Initializing -> ts !! t' = Some Initializing -> t = t') /\
  (forall t, ts !! t = Some Initializing -> initialized e = true /\ PhTestEvent e = false) /\
  (forall t T r, ts !! t = Some (BeginWaiting (Return T r)) -> r = true /\ PhTestEvent e = true) /\
  (forall t th, ts !! t = Some th -> asleep e k th -> (forall t th, ts !! t = Some th -> rests e k th) ->
     exists t', ts !! t' = Some Initializing)).
Proof.
  destruct (run true (PhfInitializeEvent, ∅ : gmap positive bool, replicate 2 Idle) ((0%nat, Begin_) :: go 0 1 ++ (1%nat, Begin_) :: go 1 8)) as [[[e k] ts]|] eqn:E;
    [|by vm_compute in E].
  pose proof (event_run_reachable _ _ _ _ _ E) as Hr. exists e, k, ts. split; [exact Hr|]. split; [vm_compute in E; by injection E as <- <- <-|].
  apply (init_once_safe ∅ 2 e k ts); [reflexivity|exact Hr].
Defined.

End Event.
