(* ===== verification/Rundown.v ===== *)
(** * Rundown protection: [phlib/sync.c]

    One word counts the users of a resource; a thread that wants to destroy it makes the word point
    to a wait block on its own stack, moves the count there, and sleeps on the block's event until
    the last user has gone. The event is that of [Event], whose invariant the proofs use for the
    threads that have come to it. A thread is a program counter with its locals, a step is one access
    to shared memory or one system call, and the theorems hold for every interleaving with one call
    of PhWaitForRundownProtection. *)

From S2P Require Import Prelude Event.

Module Rundown.

Definition PH_RUNDOWN_ACTIVE : Z := 1.
Definition PH_RUNDOWN_REF_SHIFT : Z := 1.
Definition PH_RUNDOWN_REF_INC : Z := 2.

Section rundown.
Context {K HANDLE : Type} `{KernelEvents K HANDLE}.

(** The address of the wait block on the waiter's stack. *)
Context (waitBlock : Z).

(** Whether the call of PhWaitForRundownProtection is still to come, under way or over; nothing but
    the theorems reads it. When it is over the wait block does not exist any more. *)
Inductive phase := Before | During | After.

Record rundown := {
  Value : Z;  (* Protection->Value *)
  Count : Z; WakeEvent : Event.PH_EVENT HANDLE;  (* the wait block *)
  waiting : phase;
}.

Definition set_Value (g : rundown) (v : Z) : rundown := {| Value := v; Count := Count g; WakeEvent := WakeEvent g; waiting := waiting g |}.
Definition set_Count (g : rundown) (v : Z) : rundown := {| Value := Value g; Count := v; WakeEvent := WakeEvent g; waiting := waiting g |}.
Definition set_WakeEvent (g : rundown) (e : Event.PH_EVENT HANDLE) : rundown := {| Value := Value g; Count := Count g; WakeEvent := e; waiting := waiting g |}.
Definition set_waiting (g : rundown) (w : phase) : rundown := {| Value := Value g; Count := Count g; WakeEvent := WakeEvent g; waiting := w |}.

Definition PhfInitializeRundownProtection : rundown := {| Value := 0; Count := 0; WakeEvent := Event.PhfInitializeEvent; waiting := Before |}.

(** Where a thread is in PhAcquireRundownProtection ([Fast], inline) and PhfAcquireRundownProtection, in
    the two release functions, and in the two wait functions. *)
Inductive thread :=
  | Idle | Holding
  | AcquireFast | AcquireFastTry (value : Z) | AcquireRead | AcquireTry (value : Z)
  | ReleaseFast | ReleaseFastTry (value : Z) | ReleaseRead | ReleaseTry (value : Z)
  | ReleaseDecrement (block : Z) | ReleaseSet (p : Event.pc HANDLE)
  | WaitFast | WaitFastAgain | WaitRead (waitBlockInitialized : bool) | WaitTry (value : Z) (waitBlockInitialized : bool)
  | Sleeping (p : Event.pc HANDLE).

(** [_InterlockedCompareExchangePointer (&Protection->Value, new, old) == old]. *)
Definition cas (g : rundown) (old new : Z) : rundown * bool := if Value g =? old then (set_Value g new, true) else (g, false).

Definition active (value : Z) : bool := negb (Z.land value PH_RUNDOWN_ACTIVE =? 0).

Definition PhAcquireRundownProtection (g : rundown) (value : Z) : rundown * thread :=
  let '(g, ok) := cas g value (value +₆₄ PH_RUNDOWN_REF_INC) in (g, if ok then Holding else AcquireRead).

Definition PhfAcquireRundownProtection (g : rundown) (value : Z) : rundown * thread :=
  if active value then (g, Idle)
  else let '(g, ok) := cas g value (value +₆₄ PH_RUNDOWN_REF_INC) in (g, if ok then Holding else AcquireRead).

Definition PhReleaseRundownProtection (g : rundown) (value : Z) : rundown * thread :=
  let '(g, ok) := cas g value (value -₆₄ PH_RUNDOWN_REF_INC) in (g, if ok then Idle else ReleaseRead).

Definition PhfReleaseRundownProtection (g : rundown) (value : Z) : rundown * thread :=
  if active value then (g, ReleaseDecrement (Z.ldiff value PH_RUNDOWN_ACTIVE))
  else let '(g, ok) := cas g value (value -₆₄ PH_RUNDOWN_REF_INC) in (g, if ok then Idle else ReleaseRead).

(** The rest of it, on the wait block; an access to anything else is undefined. *)
Definition release_decrement (g : rundown) (block : Z) : ub (rundown * thread) :=
  if block =? waitBlock then
    let count := Count g -₆₄ 1 in Some (set_Count g count, if count =? 0 then ReleaseSet Event.SetBit else Idle)
  else None.

(** The exchange of 0 and ACTIVE that begins both wait functions. *)
Definition wait_fast (g : rundown) (otherwise : thread) : rundown * thread :=
  let value := Value g in
  let g := if value =? 0 then set_Value g PH_RUNDOWN_ACTIVE else g in
  if (value =? 0) || (value =? PH_RUNDOWN_ACTIVE) then (set_waiting g After, Idle) else (g, otherwise).

(** The loop of PhfWaitForRundownProtection: reading the word and preparing the wait block, which no
    other thread can see yet; and publishing it. *)
Definition wait_prepare (g : rundown) (waitBlockInitialized : bool) : rundown * thread :=
  let value := Value g in
  let count := Z.shiftr value PH_RUNDOWN_REF_SHIFT in
  let initialize := negb (count =? 0) && negb waitBlockInitialized in
  let g := if initialize then set_WakeEvent g Event.PhfInitializeEvent else g in
  (set_Count g count, WaitTry value (waitBlockInitialized || initialize)).

Definition wait_publish (g : rundown) (value : Z) (waitBlockInitialized : bool) : rundown * thread :=
  let count := Z.shiftr value PH_RUNDOWN_REF_SHIFT in
  let '(g, ok) := cas g value (Z.lor waitBlock PH_RUNDOWN_ACTIVE) in
  if ok then if negb (count =? 0) then (g, Sleeping (Event.WaitTest None)) else (set_waiting g After, Idle)
  else (g, WaitRead waitBlockInitialized).

(** The next action of a thread inside a call; [None] when it is blocked, outside, or undefined. *)
Definition next (expired : bool) (g : rundown) (k : K) (th : thread) : option (rundown * K * thread) :=
  match th with
  | Idle | Holding => None
  | AcquireFast => Some (g, k, AcquireFastTry (Z.ldiff (Value g) PH_RUNDOWN_ACTIVE))
  | AcquireFastTry value => let '(g, th) := PhAcquireRundownProtection g value in Some (g, k, th)
  | AcquireRead => Some (g, k, AcquireTry (Value g))
  | AcquireTry value => let '(g, th) := PhfAcquireRundownProtection g value in Some (g, k, th)
  | ReleaseFast => Some (g, k, ReleaseFastTry (Z.ldiff (Value g) PH_RUNDOWN_ACTIVE))
  | ReleaseFastTry value => let '(g, th) := PhReleaseRundownProtection g value in Some (g, k, th)
  | ReleaseRead => Some (g, k, ReleaseTry (Value g))
  | ReleaseTry value => let '(g, th) := PhfReleaseRundownProtection g value in Some (g, k, th)
  | ReleaseDecrement block => '(g, th) ← release_decrement g block; Some (g, k, th)
  | ReleaseSet (Event.Return _ _) => Some (g, k, Idle)
  | ReleaseSet p => '(e, k, p) ← Event.next expired (WakeEvent g) k p; Some (set_WakeEvent g e, k, ReleaseSet p)
  | WaitFast => let '(g, th) := wait_fast g WaitFastAgain in Some (g, k, th)
  | WaitFastAgain => let '(g, th) := wait_fast g (WaitRead false) in Some (g, k, th)
  | WaitRead waitBlockInitialized => let '(g, th) := wait_prepare g waitBlockInitialized in Some (g, k, th)
  | WaitTry value waitBlockInitialized => let '(g, th) := wait_publish g value waitBlockInitialized in Some (g, k, th)
  | Sleeping (Event.Return _ _) => Some (set_waiting g After, k, Idle)
  | Sleeping p => '(e, k, p) ← Event.next expired (WakeEvent g) k p; Some (set_WakeEvent g e, k, Sleeping p)
  end.

Definition state : Type := rundown * K * list thread.

(** A thread acquires when it is outside, releases what it holds; one thread waits, once. *)
Inductive step : state -> state -> Prop :=
  | step_acquire g k ts t : ts !! t = Some Idle -> step (g, k, ts) (g, k, <[t := AcquireFast]> ts)
  | step_release g k ts t : ts !! t = Some Holding -> step (g, k, ts) (g, k, <[t := ReleaseFast]> ts)
  | step_wait g k ts t : ts !! t = Some Idle -> waiting g = Before -> step (g, k, ts) (set_waiting g During, k, <[t := WaitFast]> ts)
  | step_next g k ts t th expired g' k' th' : ts !! t = Some th -> next expired g k th = Some (g', k', th') -> step (g, k, ts) (g', k', <[t := th']> ts).

Definition reachable (k : K) (n : nat) (s : state) : Prop := rtc step (PhfInitializeRundownProtection, k, replicate n Idle) s.

End rundown.
Arguments rundown : clear implicits.
Arguments thread : clear implicits.

(** ** The word *)

Lemma active_odd v : active v = Z.odd v.
Proof.
  unfold active, PH_RUNDOWN_ACTIVE. change 1 with (Z.ones 1). rewrite Z.land_ones by lia. change (2 ^ 1) with 2. rewrite Zmod_odd. by destruct (Z.odd v).
Qed.

(** The word with the pointer to a wait block, and its parts. *)
Lemma pointer_word b : b mod 2 = 0 -> Z.lor b PH_RUNDOWN_ACTIVE = b + 1 /\ Z.ldiff (b + 1) PH_RUNDOWN_ACTIVE = b /\ Z.odd (b + 1) = true.
Proof.
  intros Hb. assert (Hl : Z.land b 1 = 0) by (change 1 with (Z.ones 1); by rewrite Z.land_ones by lia).
  assert (Hodd : Z.odd (b + 1) = true) by (rewrite Zmod_odd in Hb; rewrite Z.odd_add; by destruct (Z.odd b)).
  unfold PH_RUNDOWN_ACTIVE. split; [|split; [|done]].
  - pose proof (Z.add_lor_land b 1) as Ha. lia.
  - pose proof (Z.add_lor_land b 1) as Ha. replace (b + 1) with (Z.lor b 1) by lia. apply Z.bits_inj'. intros n Hn. rewrite Z.ldiff_spec, Z.lor_spec.
    apply (f_equal (fun z => Z.testbit z n)) in Hl. rewrite Z.land_spec, Z.bits_0 in Hl. destruct (Z.testbit b n), (Z.testbit 1 n); simpl in *; done.
Qed.

Lemma even_clear v : Z.odd v = false -> Z.ldiff v PH_RUNDOWN_ACTIVE = v.
Proof.
  intros Ho. unfold PH_RUNDOWN_ACTIVE. apply Z.bits_inj'. intros n Hn. rewrite Z.ldiff_spec. destruct (decide (n = 0)) as [->|].
  - rewrite Z.bit0_odd, Ho. done.
  - change 1 with (2 ^ 0). rewrite Z.pow2_bits_false by lia. by rewrite andb_true_r.
Qed.

(** ** The invariant *)
Section invariant.
Context {K HANDLE : Type} `{KernelEventLaws K HANDLE}.
Context (waitBlock : Z) (block_even : waitBlock mod 2 = 0) (block_range : 0 < waitBlock < 2 ^ 64).
Abbreviation rundown := (rundown HANDLE).
Abbreviation thread := (thread HANDLE).
Implicit Types (g : rundown) (k : K) (th : thread) (ts : list thread).

(** Who holds the protection: a releasing thread does until it has changed a count. *)
Definition holds th : Z :=
  match th with Holding | ReleaseFast | ReleaseFastTry _ | ReleaseRead | ReleaseTry _ | ReleaseDecrement _ => 1 | _ => 0 end.
Definition prepares th : Z := match th with WaitFast | WaitFastAgain | WaitRead _ | WaitTry _ _ => 1 | _ => 0 end.
Definition sleeps th : Z := match th with Sleeping _ => 1 | _ => 0 end.
Definition in_event th : option (Event.pc HANDLE) := match th with Sleeping p | ReleaseSet p => Some p | _ => None end.

Definition holders ts : Z := tally holds ts.
Definition during g : Z := match waiting g with During => 1 | _ => 0 end.

(** What a thread knows of the shared state. *)
Definition local g th : Prop :=
  match th with
  | AcquireFastTry value | ReleaseFastTry value => Z.odd value = false
  | ReleaseTry value => Z.odd value = true -> value = waitBlock + 1 /\ Value g = waitBlock + 1
  | ReleaseDecrement block => block = waitBlock /\ Value g = waitBlock + 1
  | WaitRead i => i = true -> WakeEvent g = Event.PhfInitializeEvent
  | WaitTry value i => Z.odd value = false /\ Count g = Z.shiftr value PH_RUNDOWN_REF_SHIFT /\
      (Z.shiftr value PH_RUNDOWN_REF_SHIFT <> 0 -> i = true) /\ (i = true -> WakeEvent g = Event.PhfInitializeEvent)
  | Sleeping p => Event.waits None p
  | ReleaseSet p => Event.sets p
  | _ => True
  end.

(** The word counts the holders; or rundown is over without a wait; or the wait block counts them. *)
Inductive mode g k ts : Prop :=
  | mode_counting : Value g = 2 * holders ts -> tally prepares ts = during g -> waiting g <> After ->
      (forall t th, ts !! t = Some th -> in_event th = None) -> mode g k ts
  | mode_closed : Value g = 1 \/ Value g = waitBlock + 1 -> holders ts = 0 -> tally prepares ts = 0 -> waiting g = After ->
      (forall t th, ts !! t = Some th -> in_event th = None) -> mode g k ts
  | mode_blocked : Value g = waitBlock + 1 -> Count g = holders ts -> tally prepares ts = 0 -> tally sleeps ts = during g -> waiting g <> Before ->
      Event.event_inv (WakeEvent g) k (in_event <$> ts) ->
      (waiting g = After \/ Event.PhTestEvent (WakeEvent g) = true \/ (exists t p, ts !! t = Some (ReleaseSet p)) -> holders ts = 0) ->
      (Event.PhTestEvent (WakeEvent g) = false -> holders ts = 0 -> exists t, ts !! t = Some (ReleaseSet Event.SetBit)) -> mode g k ts.

Record rundown_inv (s : @state K HANDLE) : Prop := {
  inv_local : forall t th, s.2 !! t = Some th -> local s.1.1 th;
  inv_mode : mode s.1.1 s.1.2 s.2;
}.

Lemma rundown_holds_range th : 0 <= holds th <= 1.
Proof. destruct th; simpl; lia. Qed.
Lemma prepares_range th : 0 <= prepares th <= 1.
Proof. destruct th; simpl; lia. Qed.
Lemma sleeps_range th : 0 <= sleeps th <= 1.
Proof. destruct th; simpl; lia. Qed.

Lemma holders_insert ts t th th' : ts !! t = Some th -> holders (<[t := th']> ts) = holders ts - holds th + holds th'.
Proof. apply tally_insert. Qed.
Lemma holders_range ts : 0 <= holders ts <= Z.of_nat (length ts).
Proof. split; [apply tally_nonneg, rundown_holds_range|apply tally_le, rundown_holds_range]. Qed.
Lemma holders_lookup ts t th : ts !! t = Some th -> holds th <= holders ts.
Proof. apply tally_lookup, rundown_holds_range. Qed.
Lemma prepares_insert ts t th th' : ts !! t = Some th -> tally prepares (<[t := th']> ts) = tally prepares ts - prepares th + prepares th'.
Proof. apply tally_insert. Qed.
Lemma sleeps_insert ts t th th' : ts !! t = Some th -> tally sleeps (<[t := th']> ts) = tally sleeps ts - sleeps th + sleeps th'.
Proof. apply tally_insert. Qed.

Lemma other_not_preparing ts t t' th th' : tally prepares ts <= 1 -> ts !! t = Some th -> prepares th = 1 -> t' <> t -> ts !! t' = Some th' -> prepares th' = 0.
Proof.
  intros Hs Ht Hp Hne Ht'. pose proof (tally_two prepares (fun th => proj1 (prepares_range th)) ts t t' _ _ (not_eq_sym Hne) Ht Ht') as H2.
  pose proof (prepares_range th'). lia.
Qed.
Lemma none_prepares ts t th : tally prepares ts = 0 -> ts !! t = Some th -> prepares th = 0.
Proof. intros Hs Ht. pose proof (tally_lookup prepares (fun th => proj1 (prepares_range th)) ts t th Ht). pose proof (prepares_range th). lia. Qed.

(** A thread's knowledge survives what the others do. *)
Lemma local_frame g g' th : local g th -> (prepares th = 1 -> Count g' = Count g /\ WakeEvent g' = WakeEvent g) ->
  (Value g = waitBlock + 1 -> Value g' = waitBlock + 1) -> local g' th.
Proof. destruct th; simpl; try done; intros Hl Hp Hv; try (destruct (Hp eq_refl) as [E1 E2]; rewrite ?E1, ?E2); tauto. Qed.

Lemma locals_insert g g' ts t th' : (forall u th, ts !! u = Some th -> local g th) -> local g' th' ->
  (forall u th, u <> t -> ts !! u = Some th -> prepares th = 1 -> Count g' = Count g /\ WakeEvent g' = WakeEvent g) ->
  (Value g = waitBlock + 1 -> Value g' = waitBlock + 1) -> forall u th, <[t := th']> ts !! u = Some th -> local g' th.
Proof.
  intros Hl Hth' Hframe Hv u th [[_ <-]|[Hne Hu]]%lookup_cases; [done|]. eapply local_frame; [by eapply Hl|by eapply Hframe|done].
Qed.

Lemma odd_double z : Z.odd (2 * z) = false.
Proof. rewrite Z.odd_mul. done. Qed.
Lemma shiftr_double z : Z.shiftr (2 * z) PH_RUNDOWN_REF_SHIFT = z.
Proof. unfold PH_RUNDOWN_REF_SHIFT. rewrite Z.shiftr_div_pow2 by lia. change (2 ^ 1) with 2. rewrite Z.mul_comm. by apply Z.div_mul. Qed.
Lemma ldiff_odd v : Z.odd (Z.ldiff v PH_RUNDOWN_ACTIVE) = false.
Proof. unfold PH_RUNDOWN_ACTIVE. rewrite <- Z.bit0_odd, Z.ldiff_spec. by rewrite andb_false_r. Qed.

Lemma in_event_none_insert ts t th' : (forall u th, ts !! u = Some th -> in_event th = None) -> in_event th' = None ->
  forall u th, <[t := th']> ts !! u = Some th -> in_event th = None.
Proof. intros Hn Hth' u th [[_ <-]|[_ Hu]]%lookup_cases; [done|by eapply Hn]. Qed.

(** A step that the word, the block and the event do not notice. *)
Lemma mode_neutral g k ts t th th' : mode g k ts -> ts !! t = Some th -> holds th' = holds th -> prepares th' = prepares th ->
  in_event th = None -> in_event th' = None -> mode g k (<[t := th']> ts).
Proof.
  intros Hm Ht Hh Hp He He'. assert (EH : holders (<[t := th']> ts) = holders ts) by (rewrite (holders_insert ts t _ _ Ht); lia).
  assert (EP : tally prepares (<[t := th']> ts) = tally prepares ts) by (rewrite (prepares_insert ts t _ _ Ht); lia).
  assert (ES : tally sleeps (<[t := th']> ts) = tally sleeps ts) by (rewrite (sleeps_insert ts t _ _ Ht); by destruct th, th'; simpl in *; try lia).
  destruct Hm as [Hv Hpr Hw Hn|Hv Hz Hpr Hw Hn|Hv Hc Hpr Hsl Hw Hev Hdone Hset].
  - apply mode_counting; [by rewrite EH|by rewrite EP|done|by apply in_event_none_insert].
  - apply mode_closed; [done|by rewrite EH|by rewrite EP|done|by apply in_event_none_insert].
  - apply mode_blocked; [done|by rewrite EH|by rewrite EP|by rewrite ES|done| | |].
    + rewrite list_fmap_insert, He', list_insert_id; [done|]. by rewrite list_lookup_fmap, Ht, <- He.
    + rewrite EH. intros [?|[?|(u & p & [[_ Hu]|[_ Hu]]%lookup_cases)]]; apply Hdone; [by left|by right; left| |right; right; by exists u, p]. by rewrite Hu in He'.
    + rewrite EH. intros Hns Hz. destruct (Hset Hns Hz) as (u & Hu). exists u. rewrite list_lookup_insert_ne; [done|]. intros ->. rewrite Ht in Hu. by injection Hu as ->.
Qed.

Lemma neutral_step g k ts t th th' : rundown_inv (g, k, ts) -> ts !! t = Some th -> holds th' = holds th -> prepares th' = prepares th ->
  in_event th = None -> in_event th' = None -> local g th' -> rundown_inv (g, k, <[t := th']> ts).
Proof.
  intros [Hl Hm] Ht Hh Hp He He' Hth'. split; cbn [fst snd] in *; [|by eapply mode_neutral]. by apply (locals_insert g g).
Qed.

Lemma counting_even g k ts : mode g k ts -> Z.odd (Value g) = false ->
  Value g = 2 * holders ts /\ tally prepares ts = during g /\ waiting g <> After /\ forall t th, ts !! t = Some th -> in_event th = None.
Proof.
  intros [Hv Hpr Hw Hn|[Hv|Hv] Hz Hpr Hw Hn|Hv Hc Hpr Hsl Hw Hev Hdone Hset] Ho; rewrite Hv in Ho; [done|done|..];
    destruct (pointer_word waitBlock block_even) as (_ & _ & Hodd); congruence.
Qed.

(** A successful exchange of the word while it counts. *)
Lemma count_step g k ts t th th' v : rundown_inv (g, k, ts) -> ts !! t = Some th -> Value g = v -> Z.odd v = false ->
  prepares th' = prepares th -> in_event th' = None -> (forall g', local g' th') ->
  rundown_inv (set_Value g (v + 2 * (holds th' - holds th)), k, <[t := th']> ts).
Proof.
  intros [Hl Hm] Ht <- Ho Hp He Hth'. cbn [fst snd] in *. destruct (counting_even g k ts Hm Ho) as (Hv & Hpr & Hw & Hn). split; cbn [fst snd].
  - apply (locals_insert g); [done|done|done|]. intros E. rewrite E in Ho. destruct (pointer_word waitBlock block_even) as (_ & _ & Hodd). congruence.
  - apply mode_counting; [cbn [set_Value Value]; rewrite (holders_insert ts t _ _ Ht); lia|rewrite (prepares_insert ts t _ _ Ht), Hpr; unfold during; cbn [set_Value waiting]; lia|done|].
    by apply in_event_none_insert.
Qed.

Lemma acquire_release_step expired g k ts t th g' k' th' : rundown_inv (g, k, ts) -> ts !! t = Some th -> Z.of_nat (length ts) < 2 ^ 62 ->
  match th with AcquireFast | AcquireFastTry _ | AcquireRead | AcquireTry _ | ReleaseFast | ReleaseFastTry _ | ReleaseRead | ReleaseTry _ => True | _ => False end ->
  next waitBlock expired g k th = Some (g', k', th') -> rundown_inv (g', k', <[t := th']> ts).
Proof.
  intros Hinv Ht Hlen Hth Hn. pose proof (inv_local _ Hinv t th Ht) as Hl. cbn [fst snd] in Hl. pose proof (holders_range ts) as Hr. pose proof (holders_lookup ts t th Ht) as Hh.
  assert (Hup : forall v, Value g = v -> Z.odd v = false -> v +₆₄ PH_RUNDOWN_REF_INC = v + 2 * (1 - 0)).
  { intros v <- Ho. destruct (counting_even g k ts (inv_mode _ Hinv) Ho) as (Hv & _). unfold PH_RUNDOWN_REF_INC. rewrite u64_id; [lia|]. unfold in_width. lia. }
  assert (Hdown : forall v, holds th = 1 -> Value g = v -> Z.odd v = false -> v -₆₄ PH_RUNDOWN_REF_INC = v + 2 * (0 - 1)).
  { intros v H1 <- Ho. destruct (counting_even g k ts (inv_mode _ Hinv) Ho) as (Hv & _). unfold PH_RUNDOWN_REF_INC. rewrite u64_id; [lia|]. unfold in_width. lia. }
  destruct th as [| | |v| |v| |v| |v| | | | | | |]; simpl in Hn, Hth, Hl, Hh; try done.
  - injection Hn as <- <- <-. eapply neutral_step; [done|exact Ht|done..|]. apply ldiff_odd.
  - unfold PhAcquireRundownProtection, cas in Hn. destruct (Z.eqb_spec (Value g) v) as [E|]; injection Hn as <- <- <-; [|by eapply neutral_step].
    rewrite (Hup v E Hl). by apply (count_step g k ts t (AcquireFastTry v) Holding v).
  - injection Hn as <- <- <-. by eapply neutral_step.
  - unfold PhfAcquireRundownProtection, cas in Hn. rewrite active_odd in Hn. destruct (Z.odd v) eqn:Eo; [injection Hn as <- <- <-; by eapply neutral_step|].
    destruct (Z.eqb_spec (Value g) v) as [E|]; injection Hn as <- <- <-; [|by eapply neutral_step].
    rewrite (Hup v E Eo). by apply (count_step g k ts t (AcquireTry v) Holding v).
  - injection Hn as <- <- <-. eapply neutral_step; [done|exact Ht|done..|]. apply ldiff_odd.
  - unfold PhReleaseRundownProtection, cas in Hn. destruct (Z.eqb_spec (Value g) v) as [E|]; injection Hn as <- <- <-; [|by eapply neutral_step].
    rewrite (Hdown v eq_refl E Hl). by apply (count_step g k ts t (ReleaseFastTry v) Idle v).
  - injection Hn as <- <- <-. eapply neutral_step; [done|exact Ht|done..|]. simpl. intros Ho.
    assert (E : Value g = waitBlock + 1); [|done]. destruct (inv_mode _ Hinv) as [Hv _ _ _|Hv Hz _ _ _|Hv _ _ _ _ _ _ _]; cbn [fst snd] in *; [|lia|done].
    rewrite Hv, odd_double in Ho. done.
  - unfold PhfReleaseRundownProtection, cas in Hn. rewrite active_odd in Hn. destruct (Z.odd v) eqn:Eo.
    + injection Hn as <- <- <-. destruct (Hl eq_refl) as [-> Hv]. eapply neutral_step; [done|exact Ht|done..|]. simpl. split; [|done]. by apply pointer_word.
    + destruct (Z.eqb_spec (Value g) v) as [E|]; injection Hn as <- <- <-; [|by eapply neutral_step].
      rewrite (Hdown v eq_refl E Eo). by apply (count_step g k ts t (ReleaseTry v) Idle v).
Qed.

Lemma in_event_fmap ts t th : ts !! t = Some th -> (in_event <$> ts) !! t = Some (in_event th).
Proof. intros Ht. by rewrite list_lookup_fmap, Ht. Qed.

(** A mode other than the last has no thread at the event. *)
Lemma blocked_mode g k ts t th : mode g k ts -> ts !! t = Some th -> in_event th <> None \/ Value g = waitBlock + 1 /\ holders ts <> 0 ->
  Value g = waitBlock + 1 /\ Count g = holders ts /\ tally prepares ts = 0 /\ tally sleeps ts = during g /\ waiting g <> Before /\
  Event.event_inv (WakeEvent g) k (in_event <$> ts) /\
  (waiting g = After \/ Event.PhTestEvent (WakeEvent g) = true \/ (exists t p, ts !! t = Some (ReleaseSet p)) -> holders ts = 0) /\
  (Event.PhTestEvent (WakeEvent g) = false -> holders ts = 0 -> exists t, ts !! t = Some (ReleaseSet Event.SetBit)).
Proof.
  intros [Hv Hpr Hw Hn|Hv Hz Hpr Hw Hn|Hv Hc Hpr Hsl Hw Hev Hdone Hset] Ht [He|[HV Hne]]; try done; [by rewrite (Hn t th Ht) in He| |by rewrite (Hn t th Ht) in He].
  destruct (pointer_word waitBlock block_even) as (_ & _ & Hodd). rewrite <- HV, Hv, odd_double in Hodd. done.
Qed.

Lemma decrement_step g k ts t g' th' block : rundown_inv (g, k, ts) -> ts !! t = Some (ReleaseDecrement block) -> Z.of_nat (length ts) + 1 < 2 ^ 15 ->
  release_decrement waitBlock g block = Some (g', th') -> rundown_inv (g', k, <[t := th']> ts).
Proof.
  intros [Hl Hm] Ht Hlen Hd. cbn [fst snd] in *. destruct (Hl t _ Ht) as [-> HV]. pose proof (holders_lookup ts t _ Ht) as Hh. simpl in Hh. pose proof (holders_range ts) as Hr.
  destruct (blocked_mode g k ts t _ Hm Ht) as (_ & Hc & Hpr & Hsl & Hw & Hev & Hdone & Hset); [right; split; [done|lia]|].
  unfold release_decrement in Hd. rewrite Z.eqb_refl, Hc in Hd. rewrite u64_id in Hd by (unfold in_width; lia). injection Hd as <- <-.
  set (th' := if holders ts - 1 =? 0 then ReleaseSet Event.SetBit else Idle).
  assert (Hth' : holds th' = 0 /\ prepares th' = 0 /\ sleeps th' = 0) by (unfold th'; by destruct (_ =? 0)). destruct Hth' as (Hh' & Hp' & Hs').
  assert (EH : holders (<[t := th']> ts) = holders ts - 1) by (rewrite (holders_insert ts t _ _ Ht); simpl; lia).
  split; cbn [fst snd].
  - apply (locals_insert g); [done|by unfold th'; destruct (_ =? 0)| |done]. intros u th _ Hu Hp. rewrite (none_prepares ts u th Hpr Hu) in Hp. done.
  - apply mode_blocked; [done|by rewrite EH|rewrite (prepares_insert ts t _ _ Ht); simpl; lia|rewrite (sleeps_insert ts t _ _ Ht), Hsl; unfold during; simpl; lia|done| | |].
    + pose proof (in_event_fmap ts t _ Ht) as Hi. rewrite list_fmap_insert. unfold th'. destruct (_ =? 0); simpl; [|by rewrite list_insert_id].
      apply Event.event_enter; [done|done|by rewrite length_fmap|by left].
    + rewrite EH. intros [Ha|[Ha|(u & p & [[_ Hu]|[_ Hu]]%lookup_cases)]]; [| |unfold th' in Hu; destruct (Z.eqb_spec (holders ts - 1) 0); [done|done]|].
      * rewrite Hdone in Hh; [lia|by left]. * rewrite Hdone in Hh; [lia|by right; left]. * rewrite Hdone in Hh; [lia|right; right; by exists u, p].
    + rewrite EH. intros _ Hz. exists t. rewrite list_lookup_insert_eq by (by eapply lookup_lt_Some). unfold th'. by rewrite Hz.
Qed.

(** A thread at the event: [wrap] is [ReleaseSet] or [Sleeping]. *)
Lemma event_next_step (wrap : Event.pc HANDLE -> thread) expired g k ts t p e' k' p' : wrap = ReleaseSet \/ wrap = Sleeping ->
  rundown_inv (g, k, ts) -> ts !! t = Some (wrap p) -> Z.of_nat (length ts) + 1 < 2 ^ 15 ->
  Event.next expired (WakeEvent g) k p = Some (e', k', p') -> rundown_inv (set_WakeEvent g e', k', <[t := wrap p']> ts).
Proof.
  intros Hwrap [Hl Hm] Ht Hlen Hn. cbn [fst snd] in *. assert (Hin : forall q, in_event (wrap q) = Some q /\ holds (wrap q) = 0 /\ prepares (wrap q) = 0) by (by destruct Hwrap as [-> | ->]).
  destruct (blocked_mode g k ts t _ Hm Ht) as (HV & Hc & Hpr & Hsl & Hw & Hev & Hdone & Hset); [left; by rewrite (proj1 (Hin p))|].
  pose proof (in_event_fmap ts t _ Ht) as Hi. rewrite (proj1 (Hin p)) in Hi. rewrite <- (length_fmap in_event ts) in Hlen.
  destruct (Event.next_kind _ _ _ _ _ _ _ Hn) as [Hks Hkw]. destruct (Event.next_bits _ _ _ _ _ _ _ _ _ Hev Hi Hlen Hn) as (Hpb & _ & Hbit).
  assert (EH : holders (<[t := wrap p']> ts) = holders ts) by (rewrite (holders_insert ts t _ _ Ht), !(fun q => proj1 (proj2 (Hin q))); lia).
  assert (Hnotset : p = Event.SetBit -> wrap = ReleaseSet).
  { intros ->. destruct Hwrap as [->| ->]; [done|]. by pose proof (Hl t _ Ht). }
  split; cbn [fst snd].
  - apply (locals_insert g); [done| | |done].
    + pose proof (Hl t _ Ht) as Hlt. destruct Hwrap as [-> | ->]; simpl in *; auto.
    + intros u th _ Hu Hp. by rewrite (none_prepares ts u th Hpr Hu) in Hp.
  - apply mode_blocked; [done|by rewrite EH|rewrite (prepares_insert ts t _ _ Ht), !(fun q => proj2 (proj2 (Hin q))), Hpr; done| |done| | |].
    + rewrite (sleeps_insert ts t _ _ Ht), Hsl. unfold during. cbn [set_WakeEvent waiting]. destruct Hwrap as [-> | ->]; simpl; lia.
    + rewrite list_fmap_insert, (proj1 (Hin p')). by eapply Event.event_step.
    + rewrite EH. cbn [set_WakeEvent waiting WakeEvent]. rewrite Hbit. intros [?|[Hb|(u & q & [[_ Hu]|[_ Hu]]%lookup_cases)]]; apply Hdone; [by left| | |right; right; by exists u, q].
      * destruct p; try (by right; left). right; right. exists t, Event.SetBit. by rewrite Ht, Hnotset.
      * right; right. destruct Hwrap as [-> | ->]; [by exists t, p|done].
    + rewrite EH. cbn [set_WakeEvent WakeEvent]. rewrite Hbit. intros Hns Hz. destruct (Hset ltac:(by destruct p) Hz) as (u & Hu). exists u.
      rewrite list_lookup_insert_ne; [done|]. intros ->. rewrite Ht in Hu. destruct Hwrap as [-> | ->]; [|done]. injection Hu as ->. done.
Qed.

(** The last releasing thread leaves; the waiting thread leaves. *)
Lemma release_return_step g k ts t T r : rundown_inv (g, k, ts) -> ts !! t = Some (ReleaseSet (Event.Return T r)) -> rundown_inv (g, k, <[t := Idle]> ts).
Proof.
  intros [Hl Hm] Ht. cbn [fst snd] in *. destruct (blocked_mode g k ts t _ Hm Ht) as (HV & Hc & Hpr & Hsl & Hw & Hev & Hdone & Hset); [by left|].
  pose proof (in_event_fmap ts t _ Ht) as Hi. assert (EH : holders (<[t := Idle]> ts) = holders ts) by (rewrite (holders_insert ts t _ _ Ht); simpl; lia).
  split; cbn [fst snd]; [by apply (locals_insert g g)|].
  apply mode_blocked; [done|by rewrite EH|rewrite (prepares_insert ts t _ _ Ht), Hpr; done|rewrite (sleeps_insert ts t _ _ Ht), Hsl; simpl; lia|done| | |].
  - rewrite list_fmap_insert. by eapply Event.event_leave.
  - rewrite EH. intros _. apply Hdone. right; right. by exists t, (Event.Return T r).
  - rewrite EH. intros Hns Hz. destruct (Hset Hns Hz) as (u & Hu). exists u. rewrite list_lookup_insert_ne; [done|]. intros ->. by rewrite Ht in Hu.
Qed.

Lemma wake_step g k ts t T r : rundown_inv (g, k, ts) -> ts !! t = Some (Sleeping (Event.Return T r)) -> rundown_inv (set_waiting g After, k, <[t := Idle]> ts).
Proof.
  intros [Hl Hm] Ht. cbn [fst snd] in *. destruct (blocked_mode g k ts t _ Hm Ht) as (HV & Hc & Hpr & Hsl & Hw & Hev & Hdone & Hset); [by left|].
  pose proof (in_event_fmap ts t _ Ht) as Hi. assert (EH : holders (<[t := Idle]> ts) = holders ts) by (rewrite (holders_insert ts t _ _ Ht); simpl; lia).
  pose proof (Hl t _ Ht) as HT. simpl in HT. subst T. pose proof (Event.inv_sound _ _ _ Hev t _ Hi) as Hs. assert (Hz : holders ts = 0) by (apply Hdone; right; left; by destruct r).
  pose proof (tally_lookup sleeps (fun th => proj1 (sleeps_range th)) ts t _ Ht) as Hsl1. simpl in Hsl1.
  split; cbn [fst snd].
  - apply (locals_insert g); [done|done| |done]. by intros.
  - apply mode_blocked; cbn [set_waiting Value Count WakeEvent waiting]; [done|by rewrite EH|rewrite (prepares_insert ts t _ _ Ht), Hpr; done| |done| | |].
    + rewrite (sleeps_insert ts t _ _ Ht), Hsl. unfold during in *. cbn. destruct (waiting g); simpl in *; lia.
    + rewrite list_fmap_insert. by eapply Event.event_leave.
    + by rewrite EH.
    + rewrite EH. intros Hns. destruct (Hset Hns Hz) as (u & Hu). intros _. exists u. rewrite list_lookup_insert_ne; [done|]. intros ->. by rewrite Ht in Hu.
Qed.

Lemma preparing_counts g k ts t th : mode g k ts -> ts !! t = Some th -> prepares th = 1 ->
  Value g = 2 * holders ts /\ tally prepares ts = 1 /\ waiting g = During /\ forall t th, ts !! t = Some th -> in_event th = None.
Proof.
  intros Hm Ht Hp. pose proof (tally_lookup prepares (fun th => proj1 (prepares_range th)) ts t th Ht) as Hl.
  destruct Hm as [Hv Hpr Hw Hn|Hv Hz Hpr Hw Hn|Hv Hc Hpr Hsl Hw Hev Hdone Hset]; [|lia|lia]. unfold during in Hpr. destruct (waiting g); [lia|done|done].
Qed.

Lemma closed_step g k ts t th v : rundown_inv (g, k, ts) -> ts !! t = Some th -> prepares th = 1 -> holders ts = 0 -> v = 1 \/ v = waitBlock + 1 ->
  rundown_inv (set_waiting (set_Value g v) After, k, <[t := Idle]> ts).
Proof.
  intros [Hl Hm] Ht Hp Hz Hv. cbn [fst snd] in *. destruct (preparing_counts g k ts t th Hm Ht Hp) as (HV & Hpr & Hw & Hn).
  assert (EH : holders (<[t := Idle]> ts) = 0) by (rewrite (holders_insert ts t _ _ Ht); destruct th; simpl in *; lia).
  split; cbn [fst snd].
  - apply (locals_insert g); [done|done|done|]. intros E. rewrite HV, Hz in E. lia.
  - apply mode_closed; cbn [set_waiting set_Value Value waiting]; [done|done|rewrite (prepares_insert ts t _ _ Ht), Hpr, Hp; done|done|by apply in_event_none_insert].
Qed.

Lemma wait_fast_step g k ts t th otherwise g' th' : rundown_inv (g, k, ts) -> ts !! t = Some th -> prepares th = 1 -> holds th = 0 ->
  prepares otherwise = 1 -> local g otherwise -> wait_fast g otherwise = (g', th') -> rundown_inv (g', k, <[t := th']> ts).
Proof.
  intros Hinv Ht Hp Hh Hpo Hlo Hw. pose proof (inv_mode _ Hinv) as Hm. cbn [fst snd] in Hm. destruct (preparing_counts g k ts t th Hm Ht Hp) as (HV & Hpr & Hwt & Hn).
  unfold wait_fast in Hw. destruct (Z.eqb_spec (Value g) 0) as [E0|]; cbn [orb] in Hw.
  - injection Hw as <- <-. eapply closed_step; [done|exact Ht|done|lia|by left].
  - destruct (Z.eqb_spec (Value g) PH_RUNDOWN_ACTIVE) as [E1|]; [unfold PH_RUNDOWN_ACTIVE in E1; lia|]. injection Hw as <- <-.
    eapply neutral_step; [done|exact Ht|by rewrite Hh; destruct otherwise|by rewrite Hp, Hpo|by apply (Hn t)|by destruct otherwise|done].
Qed.

Lemma wait_prepare_step g k ts t i g' th' : rundown_inv (g, k, ts) -> ts !! t = Some (WaitRead i) -> wait_prepare g i = (g', th') -> rundown_inv (g', k, <[t := th']> ts).
Proof.
  intros [Hl Hm] Ht Hw. cbn [fst snd] in *. destruct (preparing_counts g k ts t _ Hm Ht eq_refl) as (HV & Hpr & Hwt & Hn). pose proof (Hl t _ Ht) as Hi. simpl in Hi.
  unfold wait_prepare in Hw. injection Hw as <- <-. set (c := Z.shiftr (Value g) PH_RUNDOWN_REF_SHIFT). set (b := negb (c =? 0) && negb i).
  set (g' := set_Count (if b then set_WakeEvent g Event.PhfInitializeEvent else g) c).
  assert (Eg : Value g' = Value g /\ waiting g' = waiting g /\ Count g' = c /\ (i || b = true -> WakeEvent g' = Event.PhfInitializeEvent)).
  { unfold g'. destruct b; cbn; [done|]. split; [done|]. split; [done|]. split; [done|]. rewrite orb_false_r. done. }
  destruct Eg as (EV & Ew & Ec & Ee). split; cbn [fst snd].
  - apply (locals_insert g); [done| | |by rewrite EV].
    + simpl. split; [by rewrite HV, odd_double|]. split; [done|]. split; [|done]. intros Hc. unfold b. fold c in Hc. rewrite (proj2 (Z.eqb_neq _ _) Hc). by destruct i.
    + intros u th Hne Hu Hp. rewrite (other_not_preparing ts t u (WaitRead i) th) in Hp; [done|lia|done|done|done|done].
  - apply mode_counting; [by rewrite EV, (holders_insert ts t _ _ Ht), HV; simpl; lia| |by rewrite Ew, Hwt|by apply in_event_none_insert].
    rewrite (prepares_insert ts t _ _ Ht), Hpr. unfold during. by rewrite Ew, Hwt.
Qed.

Lemma no_event_replicate ts : (forall t th, ts !! t = Some th -> in_event th = None) -> in_event <$> ts = replicate (length ts) None.
Proof.
  intros Hn. apply list_eq. intros i. rewrite list_lookup_fmap. destruct (ts !! i) as [th|] eqn:E; simpl.
  - rewrite (Hn i th E). symmetry. apply lookup_replicate. split; [done|by eapply lookup_lt_Some].
  - symmetry. apply lookup_ge_None_2. rewrite length_replicate. by apply lookup_ge_None.
Qed.

Lemma no_sleeper ts : (forall t th, ts !! t = Some th -> in_event th = None) -> tally sleeps ts = 0.
Proof.
  intros Hn. destruct (decide (0 < tally sleeps ts)) as [Hpos|]; [|pose proof (tally_nonneg sleeps (fun th => proj1 (sleeps_range th)) ts); lia].
  destruct (tally_pos sleeps (fun th => proj1 (sleeps_range th)) ts Hpos) as (t & th & Ht & Hw). pose proof (Hn t th Ht) as He. destruct th; simpl in *; try lia; done.
Qed.

Lemma wait_publish_step g k ts t v i g' th' : rundown_inv (g, k, ts) -> ts !! t = Some (WaitTry v i) -> Z.of_nat (length ts) + 1 < 2 ^ 15 ->
  wait_publish waitBlock g v i = (g', th') -> rundown_inv (g', k, <[t := th']> ts).
Proof.
  intros Hinv Ht Hlen Hw. pose proof Hinv as [Hl Hm]. cbn [fst snd] in *. destruct (preparing_counts g k ts t _ Hm Ht eq_refl) as (HV & Hpr & Hwt & Hn).
  pose proof (Hl t _ Ht) as (Hv & Hc & Hi & He). unfold wait_publish, cas in Hw. destruct (pointer_word waitBlock block_even) as (Hptr & _ & Hodd). rewrite Hptr in Hw.
  destruct (Z.eqb_spec (Value g) v) as [E|]; [|injection Hw as <- <-; by eapply neutral_step].
  assert (Ecount : Z.shiftr v PH_RUNDOWN_REF_SHIFT = holders ts) by (rewrite <- E, HV; apply shiftr_double). rewrite Ecount in *.
  destruct (Z.eqb_spec (holders ts) 0) as [Ez|Hnz]; cbn [negb] in Hw; injection Hw as <- <-; [eapply closed_step; [done|exact Ht|done|done|by right]|].
  assert (EH : holders (<[t := Sleeping (Event.WaitTest None)]> ts) = holders ts) by (rewrite (holders_insert ts t _ _ Ht); simpl; lia).
  split; cbn [fst snd].
  - apply (locals_insert g); [done|done|done|]. by intros _.
  - apply mode_blocked; cbn [set_Value Value Count WakeEvent waiting]; [done|by rewrite EH|rewrite (prepares_insert ts t _ _ Ht), Hpr; done| |by rewrite Hwt| | |by rewrite EH].
    + rewrite (sleeps_insert ts t _ _ Ht), (no_sleeper ts Hn). unfold during. cbn. by rewrite Hwt.
    + pose proof (no_event_replicate ts Hn) as Hrep. pose proof (in_event_fmap ts t _ Ht) as Hte. rewrite list_fmap_insert, (He (Hi Hnz)). rewrite Hrep in *.
      apply Event.event_enter; [apply Event.event_initial|done|by rewrite length_replicate|right; by exists None].
    + intros [?|[Hset|(u & p & [[_ Hu]|[_ Hu]]%lookup_cases)]]; [congruence|by rewrite (He (Hi Hnz)) in Hset|done|]. by pose proof (Hn u _ Hu).
Qed.

Lemma next_step expired g k ts t th g' k' th' : rundown_inv (g, k, ts) -> ts !! t = Some th -> Z.of_nat (length ts) + 1 < 2 ^ 15 ->
  next waitBlock expired g k th = Some (g', k', th') -> rundown_inv (g', k', <[t := th']> ts).
Proof.
  intros Hinv Ht Hlen Hn. destruct th as [| | |v| |v| |v| |v|a|p| | |i|v i|p]; try done; try (by eapply acquire_release_step; [done|exact Ht|lia|done|exact Hn]); cbn [next] in Hn.
  - destruct (release_decrement waitBlock g a) as [[g1 th1]|] eqn:Ed; [|done]. injection Hn as <- <- <-. by eapply decrement_step.
  - destruct p; try (by injection Hn as <- <- <-; eapply release_return_step);
      (destruct (Event.next expired (WakeEvent g) k _) as [[[e1 k1] p1]|] eqn:En; [|done]; injection Hn as <- <- <-; by eapply (event_next_step ReleaseSet); [left|..]).
  - destruct (wait_fast g WaitFastAgain) as [g1 th1] eqn:Ew. injection Hn as <- <- <-. eapply (wait_fast_step _ _ _ _ _ _ _ _ Hinv Ht eq_refl eq_refl); [| |exact Ew]; done.
  - destruct (wait_fast g (WaitRead false)) as [g1 th1] eqn:Ew. injection Hn as <- <- <-. eapply (wait_fast_step _ _ _ _ _ _ _ _ Hinv Ht eq_refl eq_refl); [| |exact Ew]; done.
  - destruct (wait_prepare g i) as [g1 th1] eqn:Ew. injection Hn as <- <- <-. by eapply wait_prepare_step.
  - destruct (wait_publish waitBlock g v i) as [g1 th1] eqn:Ew. injection Hn as <- <- <-. by eapply wait_publish_step.
  - destruct p; try (by injection Hn as <- <- <-; eapply wake_step);
      (destruct (Event.next expired (WakeEvent g) k _) as [[[e1 k1] p1]|] eqn:En; [|done]; injection Hn as <- <- <-; by eapply (event_next_step Sleeping); [right|..]).
Qed.

Lemma begin_wait_step g k ts t : rundown_inv (g, k, ts) -> ts !! t = Some Idle -> waiting g = Before -> rundown_inv (set_waiting g During, k, <[t := WaitFast]> ts).
Proof.
  intros [Hl Hm] Ht Hb. cbn [fst snd] in *. destruct Hm as [Hv Hpr Hw Hn|Hv Hz Hpr Hw Hn|Hv Hc Hpr Hsl Hw Hev Hdone Hset]; [|congruence|done].
  split; cbn [fst snd]; [by apply (locals_insert g)|]. apply mode_counting; cbn [set_waiting Value waiting]; [rewrite (holders_insert ts t _ _ Ht); simpl; lia| |done|by apply in_event_none_insert].
  rewrite (prepares_insert ts t _ _ Ht), Hpr. unfold during. by rewrite Hb.
Qed.

Lemma rundown_reachable_inv k n s : Z.of_nat n + 1 < 2 ^ 15 -> reachable waitBlock k n s -> rundown_inv s /\ length s.2 = n.
Proof.
  intros Hn. unfold reachable. apply (rtc_ind_r (fun s => rundown_inv s /\ length s.2 = n)).
  - split; [|apply length_replicate]. split; cbn [fst snd]; [by intros t th [-> _]%lookup_replicate|].
    apply mode_counting; [unfold holders; by rewrite tally_replicate|by rewrite tally_replicate|done|by intros t th [-> _]%lookup_replicate].
  - intros s1 s2 _ Hstep [IH Hlen]. destruct Hstep as [g k1 ts t Ht|g k1 ts t Ht|g k1 ts t Ht Hb|g k1 ts t th expired g' k' th' Ht Hnext]; cbn [snd] in *;
      (split; [|by rewrite length_insert]); [by eapply neutral_step|by eapply neutral_step|by apply begin_wait_step|]. eapply next_step; [done|exact Ht|by rewrite Hlen|exact Hnext].
Qed.

(** C27: When PhWaitForRundownProtection has returned, nobody holds the protection any more, and the word
    refuses every later acquisition. For every interleaving of fewer than 2^15 threads. *)
Theorem rundown_excludes k n g k' ts : Z.of_nat n + 1 < 2 ^ 15 -> reachable waitBlock k n (g, k', ts) -> waiting g = After ->
  (forall t th, ts !! t = Some th -> holds th = 0) /\ forall value, value = Value g -> PhfAcquireRundownProtection g value = (g, Idle).
Proof.
  intros Hn Hr Ha. destruct (rundown_reachable_inv _ _ _ Hn Hr) as [[Hl Hm] _]. cbn [fst snd] in *. destruct (pointer_word waitBlock block_even) as (_ & _ & Hodd).
  assert (Hz : holders ts = 0 /\ Z.odd (Value g) = true).
  { destruct Hm as [Hv Hpr Hw Hno|[Hv|Hv] Hz Hpr Hw Hno|Hv Hc Hpr Hsl Hw Hev Hdone Hset]; [done| | |]; rewrite Hv; (split; [|done]); [done|done|]. apply Hdone. by left. }
  destruct Hz as [Hz Ho]. split.
  - intros t th Ht. pose proof (holders_lookup ts t th Ht). pose proof (rundown_holds_range th). lia.
  - intros v ->. unfold PhfAcquireRundownProtection. by rewrite active_odd, Ho.
Qed.

(** A thread that can take no step by itself: outside, holding, or asleep on the wait block. *)
Definition rests g k th : Prop := th = Idle \/ th = Holding \/ exists p, th = Sleeping p /\ next waitBlock false g k (Sleeping p) = None.

(** C28: The waiting thread is woken: if no thread can move and one is asleep on the wait block, some
    thread still holds the protection. And a release that is about to decrement the count of a wait block finds it
    there: it is the block of the thread that waits, which has not returned, and its count is the number of
    holders. (This is said of the decrement only: the event that the last release sets after it can
    be in a frame that the waiting thread has left, [rundown_writes_dead_frame].) *)
Theorem rundown_completes k n g k' ts : Z.of_nat n + 1 < 2 ^ 15 -> reachable waitBlock k n (g, k', ts) ->
  ((exists t p, ts !! t = Some (Sleeping p)) -> (forall t th, ts !! t = Some th -> rests g k' th) -> exists t, ts !! t = Some Holding) /\
  (forall t block, ts !! t = Some (ReleaseDecrement block) -> block = waitBlock /\ waiting g = During /\ Count g = holders ts).
Proof.
  intros Hn Hr. destruct (rundown_reachable_inv _ _ _ Hn Hr) as [[Hl Hm] Hlen]. cbn [fst snd] in *. split.
  - intros (t & p & Ht) Hrest. destruct (blocked_mode g k' ts t _ Hm Ht) as (HV & Hc & Hpr & Hsl & Hw & Hev & Hdone & Hset); [by left|].
    assert (Hnoset : forall u q, ts !! u <> Some (ReleaseSet q)) by (intros u q Hu; by destruct (Hrest u _ Hu) as [?|[?|(? & ? & _)]]).
    destruct (decide (holders ts = 0)) as [Hz|Hnz].
    + exfalso. destruct (Event.PhTestEvent (WakeEvent g)) eqn:Es; [|destruct (Hset eq_refl Hz) as (u & Hu); by apply (Hnoset u Event.SetBit)].
      destruct (Hrest t _ Ht) as [?|[?|(q & [= <-] & Hb)]]; [done|done|]. pose proof (in_event_fmap ts t _ Ht) as Hi. simpl in Hi.
      assert (Hblock : exists T o, p = Event.WaitBlock T o).
      { destruct (Event.next false (WakeEvent g) k' p) as [[[e1 k1] p1]|] eqn:En; [|destruct (Event.next_blocked _ _ _ _ En) as [?|(T & r & ->)]; [done|by simpl in Hb]].
        exfalso. destruct p; simpl in Hb, En; try done; by rewrite En in Hb. }
      destruct Hblock as (T & o & ->). assert (Hoi : Event.open_inv (WakeEvent g) k' (in_event <$> ts)) by (apply (Event.inv_open _ _ _ Hev); right; by exists t, (Event.WaitBlock T o)).
      destruct (Event.open_good _ _ _ Hoi t _ Hi) as [-> Hnn]. destruct (Event.EventHandle (WakeEvent g)) as [h|] eqn:Eh; [|done].
      destruct (Event.open_handle _ _ _ Hoi h Eh) as [[Hs [?|(u & q & Hu & Hq)]]|[Hs _]]; [congruence| |].
      * rewrite list_lookup_fmap in Hu. destruct (ts !! u) as [th|] eqn:Eu; [|done]. injection Hu as Hu. pose proof (Hl u th Eu) as Hlu.
        destruct th; simpl in Hu, Hlu; try done; injection Hu as ->; [by apply (Hnoset u q)|]. by destruct Hq as [-> | ->].
      * simpl in Hb. by rewrite wait_law, Hs in Hb.
    + destruct (tally_pos holds (fun th => proj1 (rundown_holds_range th)) ts) as (u & th & Hu & Hth); [pose proof (holders_range ts); unfold holders in *; lia|].
      exists u. rewrite Hu. destruct (Hrest u th Hu) as [-> |[-> |(q & -> & _)]]; simpl in Hth; [lia|done|lia].
  - intros t a Ht. destruct (Hl t _ Ht) as [-> HV]. pose proof (holders_lookup ts t _ Ht) as Hh. simpl in Hh.
    destruct (blocked_mode g k' ts t _ Hm Ht) as (_ & Hc & Hpr & Hsl & Hw & Hev & Hdone & Hset); [right; split; [done|lia]|].
    split; [done|]. split; [|done]. destruct (waiting g) eqn:Ew; [done|done|]. rewrite Hdone in Hh; [lia|by left].
Qed.

(** A second call of PhWaitForRundownProtection after one that had to sleep: the word still points to
    the first wait block, which the code takes for a count, and the caller sleeps on an event that
    nobody will set. *)
Lemma second_wait_sleeps g otherBlock : Value g = waitBlock + 1 ->
  exists g', wait_fast g WaitFastAgain = (g, WaitFastAgain) /\ wait_fast g (WaitRead false) = (g, WaitRead false) /\
    wait_prepare g false = (g', WaitTry (waitBlock + 1) true) /\ Count g' = waitBlock / 2 /\ WakeEvent g' = Event.PhfInitializeEvent /\
    wait_publish otherBlock g' (waitBlock + 1) true = (set_Value g' (Z.lor otherBlock PH_RUNDOWN_ACTIVE), Sleeping (Event.WaitTest None)).
Proof.
  intros HV. assert (Hw : forall th, wait_fast g th = (g, th)).
  { intros th. unfold wait_fast, PH_RUNDOWN_ACTIVE. rewrite HV, !(proj2 (Z.eqb_neq _ _)) by lia. done. }
  assert (Hc : Z.shiftr (waitBlock + 1) PH_RUNDOWN_REF_SHIFT = waitBlock / 2).
  { unfold PH_RUNDOWN_REF_SHIFT. rewrite Z.shiftr_div_pow2 by lia. change (2 ^ 1) with 2. Z.to_euclidean_division_equations; lia. }
  assert (Hnz : waitBlock / 2 <> 0) by (Z.to_euclidean_division_equations; lia).
  eexists. rewrite !Hw. split; [done|]. split; [done|]. unfold wait_prepare. rewrite HV, Hc, (proj2 (Z.eqb_neq _ _) Hnz). cbn [negb andb orb]. split; [done|].
  split; [done|]. split; [done|]. unfold wait_publish, cas. rewrite Hc, (proj2 (Z.eqb_neq _ _) Hnz). cbn [set_Count set_WakeEvent Value negb].
  by rewrite HV, Z.eqb_refl.
Qed.

End invariant.

(** ** Runs *)

Section schedule.
Context {K HANDLE : Type} `{KernelEvents K HANDLE} (waitBlock : Z).

(** A schedule names the thread that moves and, when it is outside a call, the call it makes. *)
Inductive choice := Go | Acquire_ | Release_ | Wait_.

Definition move (s : @state K HANDLE) (t : nat) (c : choice) : option (@state K HANDLE) :=
  let '(g, k, ts) := s in
  th ← ts !! t;
  match c, th with
  | Acquire_, Idle => Some (g, k, <[t := AcquireFast]> ts)
  | Release_, Holding => Some (g, k, <[t := ReleaseFast]> ts)
  | Wait_, Idle => match waiting g with Before => Some (set_waiting g During, k, <[t := WaitFast]> ts) | _ => None end
  | Go, th => '(g', k', th') ← next waitBlock false g k th; Some (g', k', <[t := th']> ts)
  | _, _ => None
  end.
Fixpoint run (s : @state K HANDLE) (l : list (nat * choice)) : option (@state K HANDLE) :=
  match l with [] => Some s | (t, c) :: l => s ← move s t c; run s l end.

Lemma rundown_move_step s t c s' : move s t c = Some s' -> step waitBlock s s'.
Proof.
  destruct s as [[g k] ts]. unfold move. destruct (ts !! t) as [th|] eqn:Et; [|done]. cbn [mbind option_bind]. intros Hm. destruct c.
  - destruct (next waitBlock false g k th) as [[[g' k'] th']|] eqn:En; [|done]. injection Hm as <-. by eapply step_next.
  - destruct th; try done. injection Hm as <-. by apply step_acquire.
  - destruct th; try done. injection Hm as <-. by apply step_release.
  - destruct th; try done. destruct (waiting g) eqn:Ew; try done. injection Hm as <-. by apply step_wait.
Qed.

Lemma rundown_run_reachable k n l s : run (PhfInitializeRundownProtection, k, replicate n Idle) l = Some s -> reachable waitBlock k n s.
Proof.
  unfold reachable. generalize (@PhfInitializeRundownProtection HANDLE, k, replicate n (@Idle HANDLE)) as s0.
  induction l as [|[t c] l IH]; intros s0 Hrun; simpl in Hrun; [by injection Hrun as ->|].
  destruct (move s0 t c) as [s1|] eqn:Hm; [|done]. eapply rtc_l; [by eapply rundown_move_step|by apply IH].
Qed.
End schedule.

Definition go (t n : nat) : list (nat * choice) := replicate n (t, Go).

(** Thread 0 acquires, thread 1 begins to wait, thread 0 releases as far as setting the event. *)
Definition last_release : list (nat * choice) := (0%nat, Acquire_) :: go 0 2 ++ (1%nat, Wait_) :: go 1 4 ++ (0%nat, Release_) :: go 0 6.

(** The last release outlives the wait block. The waiting thread sees the event set and returns, and
    its stack frame with the wait block is gone; the releasing thread then still reads the event's
    handle and changes the event's reference count in that frame. *)
Theorem rundown_writes_dead_frame : exists (g : rundown positive) k ts, reachable 0x1000 (∅ : gmap positive bool) 2 (g, k, ts) /\ waiting g = After /\
  exists p g', ts !! 0%nat = Some (ReleaseSet p) /\ next 0x1000 false g k (ReleaseSet p) = Some (g', k, ReleaseSet (Event.Return None true)) /\
    Event.Value (WakeEvent g') <> Event.Value (WakeEvent g).
Proof.
  destruct (run 0x1000 (PhfInitializeRundownProtection, ∅ : gmap positive bool, replicate 2 Idle) (last_release ++ go 1 2 ++ go 0 1)) as [[[g k] ts]|] eqn:E;
    [|by vm_compute in E].
  pose proof (rundown_run_reachable _ _ _ _ _ E) as Hr. exists g, k, ts. split; [exact Hr|]. vm_compute in E. injection E as <- <- <-. split; [done|].
  eexists _, _. split; [done|]. split; [reflexivity|]. by vm_compute.
Qed.

Lemma rundown_excludes_witness : exists (g : rundown positive) k ts, reachable 0x1000 (∅ : gmap positive bool) 2 (g, k, ts) /\ waiting g = After /\
  ((forall t th, ts !! t = Some th -> holds th = 0) /\ forall value, value = Value g -> PhfAcquireRundownProtection g value = (g, Idle)).
Proof.
  destruct (run 0x1000 (PhfInitializeRundownProtection, ∅ : gmap positive bool, replicate 2 Idle) (last_release ++ go 1 2)) as [[[g k] ts]|] eqn:E; [|by vm_compute in E].
  pose proof (rundown_run_reachable _ _ _ _ _ E) as Hr. exists g, k, ts. assert (Ha : waiting g = After) by (vm_compute in E; by injection E as <- <- <-).
  split; [exact Hr|]. split; [exact Ha|]. apply (rundown_excludes 0x1000 ltac:(reflexivity) ltac:(lia) ∅ 2 g k ts); [reflexivity|exact Hr|exact Ha].
Defined.

Lemma rundown_completes_witness : exists (g : rundown positive) k ts, reachable 0x1000 (∅ : gmap positive bool) 2 (g, k, ts) /\ ts !! 1%nat = Some (Sleeping (Event.WaitTest None)) /\
  (((exists t p, ts !! t = Some (Sleeping p)) -> (forall t th, ts !! t = Some th -> rests 0x1000 g k th) -> exists t, ts !! t = Some Holding) /\
  (forall t block, ts !! t = Some (ReleaseDecrement block) -> block = 0x1000 /\ waiting g = During /\ Count g = holders ts)).
Proof.
  destruct (run 0x1000 (PhfInitializeRundownProtection, ∅ : gmap positive bool, replicate 2 Idle) last_release) as [[[g k] ts]|] eqn:E; [|by vm_compute in E].
  pose proof (rundown_run_reachable _ _ _ _ _ E) as Hr. exists g, k, ts. split; [exact Hr|]. split; [vm_compute in E; by injection E as <- <- <-|].
  apply (rundown_completes 0x1000 ltac:(reflexivity) ltac:(lia) ∅ 2 g k ts); [reflexivity|exact Hr].
Defined.

End Rundown.
