(* ===== verification/QueuedLock.v ===== *)
(** * Queued locks: [phlib/queuedlock.c], [queuedlock.h]

    A lock is one word. Under contention it points to a chain of wait blocks, each on the stack of
    the thread that waits; the last block of the chain keeps the number of shared owners, and the
    holder of the TRAVERSING bit completes the links of the chain and takes blocks off its end to
    wake their threads. A thread is a program counter with its locals, a step is one access to
    shared memory or one call of the kernel, and the theorems hold for every interleaving of any
    number of threads: no thread touches a wait block whose frame is gone, an exclusive owner is
    alone, and no thread sleeps on a lock nobody holds. *)

From S2P Require Import Prelude.

(** ** Keyed events

    A wait for a key returns when another thread releases that key, and a release when another thread
    waits. A call that blocks answers [None] and is made again; [thread] identifies the caller. *)
Class KeyedEvents (K : Type) := {
  NtWaitForKeyedEvent : K -> Z -> nat -> K * option Z;
  NtReleaseKeyedEvent : K -> Z -> nat -> K * option Z;
}.

Inductive keyed := KeyedWait | KeyedRelease.
#[global] Instance keyed_eq_dec : EqDecision keyed.
Proof. solve_decision. Defined.

Definition partner (d : keyed) : keyed := match d with KeyedWait => KeyedRelease | KeyedRelease => KeyedWait end.

Definition keyed_call `{KeyedEvents K} (d : keyed) (k : K) (key : Z) (thread : nat) : K * option Z :=
  match d with KeyedWait => NtWaitForKeyedEvent k key thread | KeyedRelease => NtReleaseKeyedEvent k key thread end.

(** [pending k] maps a thread inside a call to the kind of call, its key, and whether its partner has
    come. A call finds a partner, if there is one that has none, and both return; or it blocks. *)
Class KeyedEventLaws (K : Type) `{KeyedEvents K} := {
  pending : K -> gmap nat (keyed * Z * bool);
  enter_law : forall d k key t, pending k !! t = None ->
    (exists t', pending k !! t' = Some (partner d, key, false) /\ (keyed_call d k key t).2 = Some STATUS_SUCCESS /\
       pending (keyed_call d k key t).1 = <[t' := (partner d, key, true)]> (pending k)) \/
    ((forall t', pending k !! t' <> Some (partner d, key, false)) /\ (keyed_call d k key t).2 = None /\
       pending (keyed_call d k key t).1 = <[t := (d, key, false)]> (pending k));
  blocked_law : forall d k key t, pending k !! t = Some (d, key, false) -> keyed_call d k key t = (k, None);
  leave_law : forall d k key t, pending k !! t = Some (d, key, true) ->
    (keyed_call d k key t).2 = Some STATUS_SUCCESS /\ pending (keyed_call d k key t).1 = delete t (pending k);
}.

Module QueuedLock.

Definition PH_QUEUED_LOCK_OWNED : Z := 0x1.
Definition PH_QUEUED_LOCK_WAITERS : Z := 0x2.
Definition PH_QUEUED_LOCK_SHARED_INC : Z := 0x4.
Definition PH_QUEUED_LOCK_SHARED_SHIFT : Z := 2.
Definition PH_QUEUED_LOCK_TRAVERSING : Z := 0x4.
Definition PH_QUEUED_LOCK_MULTIPLE_SHARED : Z := 0x8.
Definition PH_QUEUED_LOCK_FLAGS : Z := 0xf.
Definition PH_QUEUED_WAITER_EXCLUSIVE : Z := 0x1.
Definition PH_QUEUED_WAITER_SPINNING : Z := 0x2.
Definition PH_QUEUED_WAITER_SPINNING_SHIFT : Z := 1.

Definition PhGetQueuedLockSharedOwners (Value : Z) : Z := Z.shiftr Value PH_QUEUED_LOCK_SHARED_SHIFT.
Definition PhGetQueuedLockWaitBlock (Value : Z) : Z := Z.ldiff Value PH_QUEUED_LOCK_FLAGS.

(** [Value & Flag], as a condition. *)
Definition has (v f : Z) : bool := negb (Z.land v f =? 0).

Record PH_QUEUED_WAIT_BLOCK := { Next : Z; Previous : Z; Last : Z; SharedOwners : Z; Flags : Z }.

Definition set_Previous (b : PH_QUEUED_WAIT_BLOCK) (v : Z) : PH_QUEUED_WAIT_BLOCK :=
  {| Next := Next b; Previous := v; Last := Last b; SharedOwners := SharedOwners b; Flags := Flags b |}.
Definition set_Last (b : PH_QUEUED_WAIT_BLOCK) (v : Z) : PH_QUEUED_WAIT_BLOCK :=
  {| Next := Next b; Previous := Previous b; Last := v; SharedOwners := SharedOwners b; Flags := Flags b |}.
Definition set_SharedOwners (b : PH_QUEUED_WAIT_BLOCK) (v : Z) : PH_QUEUED_WAIT_BLOCK :=
  {| Next := Next b; Previous := Previous b; Last := Last b; SharedOwners := v; Flags := Flags b |}.
Definition set_Flags (b : PH_QUEUED_WAIT_BLOCK) (v : Z) : PH_QUEUED_WAIT_BLOCK :=
  {| Next := Next b; Previous := Previous b; Last := Last b; SharedOwners := SharedOwners b; Flags := v |}.

Section lock.
Context {K : Type} `{KeyedEvents K}.

(** PhQueuedLockSpinCount. *)
Context (SpinCount : nat).

(** The word, the wait blocks of the frames that are on the threads' stacks, and the kernel. *)
Record PH_QUEUED_LOCK := { Value : Z; frames : gmap Z PH_QUEUED_WAIT_BLOCK; kernel : K }.

Definition set_value (g : PH_QUEUED_LOCK) (v : Z) : PH_QUEUED_LOCK := {| Value := v; frames := frames g; kernel := kernel g |}.
Definition set_frames (g : PH_QUEUED_LOCK) (m : gmap Z PH_QUEUED_WAIT_BLOCK) : PH_QUEUED_LOCK := {| Value := Value g; frames := m; kernel := kernel g |}.
Definition set_kernel (g : PH_QUEUED_LOCK) (k : K) : PH_QUEUED_LOCK := {| Value := Value g; frames := frames g; kernel := k |}.

Definition PhInitializeQueuedLock (k : K) : PH_QUEUED_LOCK := {| Value := 0; frames := ∅; kernel := k |}.

(** Reading a wait block, and writing one that exists. *)
Definition read (g : PH_QUEUED_LOCK) (a : Z) : ub PH_QUEUED_WAIT_BLOCK := frames g !! a.
Definition update (g : PH_QUEUED_LOCK) (a : Z) (f : PH_QUEUED_WAIT_BLOCK -> PH_QUEUED_WAIT_BLOCK) : ub PH_QUEUED_LOCK :=
  b ← frames g !! a; Some (set_frames g (<[a := f b]> (frames g))).

(** [_InterlockedCompareExchangePointer (&QueuedLock->Value, new, old) == old]. *)
Definition cas (g : PH_QUEUED_LOCK) (old new : Z) : PH_QUEUED_LOCK * bool :=
  if Value g =? old then (set_value g new, true) else (g, false).

(** What follows the optimization or the waking: the thread that has pushed its block blocks on it, or
    the call returns. *)
Inductive cont := ToBlock (exclusive : bool) (waitBlock value : Z) | ToReturn.

(** Inside PhpOptimizeQueuedLockListEx or PhpPrepareToWakeQueuedLock (the walk is the same code in both;
    [wake] tells which), and inside the loop of PhpfWakeQueuedLock. *)
Inductive traversal :=
  | WalkLast (wake : bool) (value firstWaitBlock waitBlock : Z)
  | WalkNext (wake : bool) (value firstWaitBlock waitBlock : Z)
  | WalkPrevious (wake : bool) (value firstWaitBlock previousWaitBlock waitBlock : Z)
  | OptimizeLast (value firstWaitBlock lastWaitBlock : Z)
  | OptimizeClear (value : Z)
  | WakeClear (value : Z)
  | WakeFlags (value firstWaitBlock waitBlock : Z)
  | WakePrevious (value firstWaitBlock waitBlock : Z)
  | UnlinkLast (firstWaitBlock waitBlock previousWaitBlock : Z)
  | UnlinkPrevious (waitBlock : Z)
  | UnlinkTraversing (waitBlock : Z)
  | WakeAll (value waitBlock : Z).

Inductive waking :=
  | WakingRead (waitBlock : Z)
  | WakingReset (waitBlock previousWaitBlock : Z)
  | WakingKey (waitBlock previousWaitBlock : Z).

Inductive locker :=
  | Idle | Owner (exclusive : bool) | Raised
  (* PhAcquireQueuedLockExclusive, PhAcquireQueuedLockShared and the functions they call *)
  | AcquireFast (exclusive : bool) (waitBlock : Z)
  | AcquireRead (exclusive : bool) (waitBlock : Z)
  | AcquireTry (exclusive : bool) (waitBlock value : Z)
  | Traverse (t : traversal) (k : cont)
  | Waking (u : waking) (k : cont)
  | BlockSpin (exclusive : bool) (waitBlock value : Z) (i : nat)
  | BlockReset (exclusive : bool) (waitBlock value : Z)
  | BlockKey (exclusive : bool) (waitBlock value : Z)
  (* PhTryAcquireQueuedLockExclusive *)
  | TryAcquire
  (* PhReleaseQueuedLockExclusive, PhfWakeForReleaseQueuedLock; PhfReleaseQueuedLockExclusive *)
  | ReleaseFast | WakeForRelease (value : Z)
  | ReleaseRead | ReleaseTry (value : Z)
  (* PhReleaseQueuedLockShared, PhfReleaseQueuedLockShared *)
  | ReleaseSharedFast | ReleaseSharedRead | ReleaseSharedTry (value : Z)
  | FindLast (value waitBlock : Z) | FindNext (value waitBlock : Z) | Decrement (value waitBlock : Z)
  | ReleaseLast (value : Z).

Definition resume (k : cont) : locker :=
  match k with ToBlock x w v => BlockSpin x w v SpinCount | ToReturn => Idle end.

(** ** Waking and optimizing *)

(** The heads of the loops of PhpPrepareToWakeQueuedLock and PhpOptimizeQueuedLockListEx, with their
    assertions. *)
Definition wake_test (value : Z) (k : cont) : locker :=
  if has value PH_QUEUED_LOCK_OWNED then Traverse (WakeClear value) k
  else let waitBlock := PhGetQueuedLockWaitBlock value in Traverse (WalkLast true value waitBlock waitBlock) k.

Definition PhpPrepareToWakeQueuedLock (value : Z) (k : cont) : ub locker :=
  if has value PH_QUEUED_LOCK_MULTIPLE_SHARED || negb (has value PH_QUEUED_LOCK_TRAVERSING) then None
  else Some (wake_test value k).

Definition PhpOptimizeQueuedLockListEx (value : Z) (k : cont) : ub locker :=
  if negb (has value PH_QUEUED_LOCK_TRAVERSING) then None
  else if negb (has value PH_QUEUED_LOCK_OWNED) then PhpPrepareToWakeQueuedLock value k
  else let waitBlock := PhGetQueuedLockWaitBlock value in Some (Traverse (WalkLast false value waitBlock waitBlock) k).

(** [while (waitBlock)] in PhpfWakeQueuedLock. *)
Definition PhpfWakeQueuedLock (waitBlock : Z) (k : cont) : locker :=
  if waitBlock =? 0 then resume k else Waking (WakingRead waitBlock) k.

Definition traverse (g : PH_QUEUED_LOCK) (t : traversal) (k : cont) : ub (PH_QUEUED_LOCK * locker) :=
  match t with
  | WalkLast wake value first a =>
      b ← read g a;
      Some (g, Traverse (if Last b =? 0 then WalkNext wake value first a
                         else if wake then WakeFlags value first (Last b) else OptimizeLast value first (Last b)) k)
  | WalkNext wake value first a => b ← read g a; Some (g, Traverse (WalkPrevious wake value first a (Next b)) k)
  | WalkPrevious wake value first previous a =>
      g ← update g a (fun b => set_Previous b previous); Some (g, Traverse (WalkLast wake value first a) k)
  | OptimizeLast value first last =>
      g ← update g first (fun b => set_Last b last); Some (g, Traverse (OptimizeClear value) k)
  | OptimizeClear value =>
      let '(g, ok) := cas g value (value -₆₄ PH_QUEUED_LOCK_TRAVERSING) in
      if ok then Some (g, resume k) else p ← PhpOptimizeQueuedLockListEx (Value g) k; Some (g, p)
  | WakeClear value =>
      let '(g, ok) := cas g value (value -₆₄ PH_QUEUED_LOCK_TRAVERSING) in
      Some (g, if ok then resume k else wake_test (Value g) k)
  | WakeFlags value first a =>
      b ← read g a;
      Some (g, Traverse (if has (Flags b) PH_QUEUED_WAITER_EXCLUSIVE then WakePrevious value first a else WakeAll value a) k)
  | WakePrevious value first a =>
      b ← read g a; Some (g, Traverse (if Previous b =? 0 then WakeAll value a else UnlinkLast first a (Previous b)) k)
  | UnlinkLast first a previous => g ← update g first (fun b => set_Last b previous); Some (g, Traverse (UnlinkPrevious a) k)
  | UnlinkPrevious a => g ← update g a (fun b => set_Previous b 0); Some (g, Traverse (UnlinkTraversing a) k)
  | UnlinkTraversing a => Some (set_value g (Value g -₆₄ PH_QUEUED_LOCK_TRAVERSING), PhpfWakeQueuedLock a k)
  | WakeAll value a =>
      let '(g, ok) := cas g value 0 in
      if ok then Some (g, PhpfWakeQueuedLock a k) else p ← PhpPrepareToWakeQueuedLock (Value g) k; Some (g, p)
  end.

(** [_interlockedbittestandreset (&WaitBlock->Flags, SPINNING_SHIFT)]. *)
Definition reset_spinning (g : PH_QUEUED_LOCK) (a : Z) : ub (PH_QUEUED_LOCK * bool) :=
  b ← read g a;
  g ← update g a (fun b => set_Flags b (Z.clearbit (Flags b) PH_QUEUED_WAITER_SPINNING_SHIFT));
  Some (g, Z.testbit (Flags b) PH_QUEUED_WAITER_SPINNING_SHIFT).

(** The loop of PhpfWakeQueuedLock with PhpUnblockQueuedWaitBlock; [None] inside: the thread blocks. *)
Definition PhpUnblockQueuedWaitBlock (g : PH_QUEUED_LOCK) (t : nat) (u : waking) (k : cont) : ub (option (PH_QUEUED_LOCK * locker)) :=
  match u with
  | WakingRead a => b ← read g a; Some (Some (g, Waking (WakingReset a (Previous b)) k))
  | WakingReset a previous =>
      '(g, spinning) ← reset_spinning g a;
      Some (Some (g, if (spinning : bool) then PhpfWakeQueuedLock previous k else Waking (WakingKey a previous) k))
  | WakingKey a previous =>
      let '(kernel', status) := NtReleaseKeyedEvent (kernel g) a t in
      let g := set_kernel g kernel' in
      Some (Some (g, match status with
                     | Some status => if NT_SUCCESS status then PhpfWakeQueuedLock previous k else Raised
                     | None => Waking (WakingKey a previous) k
                     end))
  end.

(** ** Acquiring *)

(** PhpPushQueuedWaitBlock: the wait block, the new value of the word, and whether to optimize. *)
Definition wait_block (value : Z) (exclusive : bool) (w : Z) (b : PH_QUEUED_WAIT_BLOCK) : PH_QUEUED_WAIT_BLOCK :=
  let flags := if exclusive then Z.lor PH_QUEUED_WAITER_EXCLUSIVE PH_QUEUED_WAITER_SPINNING else PH_QUEUED_WAITER_SPINNING in
  if has value PH_QUEUED_LOCK_WAITERS
  then {| Next := PhGetQueuedLockWaitBlock value; Previous := 0; Last := 0; SharedOwners := 0; Flags := flags |}
  else {| Next := Next b; Previous := 0; Last := w;
          SharedOwners := if exclusive then u32 (PhGetQueuedLockSharedOwners value) else 0; Flags := flags |}.

Definition push_value (value : Z) (exclusive : bool) (w : Z) : Z :=
  if has value PH_QUEUED_LOCK_WAITERS then Z.lor (Z.lor w (Z.land value PH_QUEUED_LOCK_FLAGS)) PH_QUEUED_LOCK_TRAVERSING
  else if exclusive && (1 <? u32 (PhGetQueuedLockSharedOwners value))
  then Z.lor (Z.lor (Z.lor w PH_QUEUED_LOCK_OWNED) PH_QUEUED_LOCK_WAITERS) PH_QUEUED_LOCK_MULTIPLE_SHARED
  else Z.lor (Z.lor w PH_QUEUED_LOCK_OWNED) PH_QUEUED_LOCK_WAITERS.

Definition push_optimize (value : Z) : bool := has value PH_QUEUED_LOCK_WAITERS && negb (has value PH_QUEUED_LOCK_TRAVERSING).

(** The push and what the acquiring functions do after it. *)
Definition PhpPushQueuedWaitBlock (g : PH_QUEUED_LOCK) (exclusive : bool) (w value : Z) : ub (PH_QUEUED_LOCK * locker) :=
  g ← update g w (wait_block value exclusive w);
  let current := push_value value exclusive w in
  let '(g', ok) := cas g value current in
  if ok then
    p ← (if push_optimize value then PhpOptimizeQueuedLockListEx current (ToBlock exclusive w value)
         else Some (BlockSpin exclusive w value SpinCount));
    Some (g', p)
  else Some (g', AcquireTry exclusive w (Value g)).

(** A return from the acquiring functions: the frame goes. *)
Definition acquired (g : PH_QUEUED_LOCK) (w : Z) : PH_QUEUED_LOCK := set_frames g (delete w (frames g)).

(** PhAcquireQueuedLockExclusive and PhAcquireQueuedLockShared. *)
Definition PhAcquireQueuedLock (g : PH_QUEUED_LOCK) (exclusive : bool) (w : Z) : PH_QUEUED_LOCK * locker :=
  if exclusive then
    let g' := set_value g (Z.setbit (Value g) 0) in
    if has (Value g) PH_QUEUED_LOCK_OWNED then (g', AcquireRead true w) else (acquired g' w, Owner true)
  else
    let '(g, ok) := cas g 0 (Z.lor PH_QUEUED_LOCK_OWNED PH_QUEUED_LOCK_SHARED_INC) in
    if ok then (acquired g w, Owner false) else (g, AcquireRead false w).

Definition PhfAcquireQueuedLockExclusive (g : PH_QUEUED_LOCK) (w value : Z) : ub (PH_QUEUED_LOCK * locker) :=
  if negb (has value PH_QUEUED_LOCK_OWNED) then
    let '(g', ok) := cas g value (value +₆₄ PH_QUEUED_LOCK_OWNED) in
    Some (if ok then (acquired g' w, Owner true) else (g', AcquireTry true w (Value g)))
  else PhpPushQueuedWaitBlock g true w value.

Definition PhfAcquireQueuedLockShared (g : PH_QUEUED_LOCK) (w value : Z) : ub (PH_QUEUED_LOCK * locker) :=
  if negb (has value PH_QUEUED_LOCK_WAITERS) &&
     (negb (has value PH_QUEUED_LOCK_OWNED) || (0 <? PhGetQueuedLockSharedOwners value)) then
    let '(g', ok) := cas g value (Z.lor (value +₆₄ PH_QUEUED_LOCK_SHARED_INC) PH_QUEUED_LOCK_OWNED) in
    Some (if ok then (acquired g' w, Owner false) else (g', AcquireTry false w (Value g)))
  else PhpPushQueuedWaitBlock g false w value.

(** PhpBlockOnQueuedWaitBlock, without a timeout. *)
Definition block_spin (g : PH_QUEUED_LOCK) (x : bool) (w value : Z) (i : nat) : ub (PH_QUEUED_LOCK * locker) :=
  match i with
  | O => Some (g, BlockReset x w value)
  | S i => b ← read g w; Some (g, if has (Flags b) PH_QUEUED_WAITER_SPINNING then BlockSpin x w value i else AcquireTry x w value)
  end.

Definition block_reset (g : PH_QUEUED_LOCK) (x : bool) (w value : Z) : ub (PH_QUEUED_LOCK * locker) :=
  '(g, spinning) ← reset_spinning g w; Some (g, if spinning : bool then BlockKey x w value else AcquireTry x w value).

Definition block_key (g : PH_QUEUED_LOCK) (t : nat) (x : bool) (w value : Z) : PH_QUEUED_LOCK * locker :=
  let '(kernel', status) := NtWaitForKeyedEvent (kernel g) w t in
  (set_kernel g kernel', match status with
                         | Some status => if NT_SUCCESS status then AcquireTry x w value else Raised
                         | None => BlockKey x w value
                         end).

(** [value = QueuedLock->Value] at the start of the acquiring functions is this step's. *)
Definition PhTryAcquireQueuedLockExclusive (g : PH_QUEUED_LOCK) : PH_QUEUED_LOCK * bool :=
  (set_value g (Z.setbit (Value g) 0), negb (has (Value g) PH_QUEUED_LOCK_OWNED)).

(** ** Releasing *)

Definition PhReleaseQueuedLockExclusive (g : PH_QUEUED_LOCK) : PH_QUEUED_LOCK * locker :=
  let value := Value g in
  (set_value g (value -₆₄ PH_QUEUED_LOCK_OWNED),
   if Z.land value (Z.lor PH_QUEUED_LOCK_WAITERS PH_QUEUED_LOCK_TRAVERSING) =? PH_QUEUED_LOCK_WAITERS
   then WakeForRelease (value -₆₄ PH_QUEUED_LOCK_OWNED) else Idle).

Definition PhfWakeForReleaseQueuedLock (g : PH_QUEUED_LOCK) (value : Z) : ub (PH_QUEUED_LOCK * locker) :=
  let newValue := value +₆₄ PH_QUEUED_LOCK_TRAVERSING in
  let '(g, ok) := cas g value newValue in
  if ok then p ← PhpPrepareToWakeQueuedLock newValue ToReturn; Some (g, p) else Some (g, Idle).

Definition PhfReleaseQueuedLockExclusive (g : PH_QUEUED_LOCK) (value : Z) : ub (PH_QUEUED_LOCK * locker) :=
  if negb (has value PH_QUEUED_LOCK_OWNED) ||
     negb (has value PH_QUEUED_LOCK_WAITERS || (PhGetQueuedLockSharedOwners value =? 0)) then None
  else if negb (Z.land value (Z.lor PH_QUEUED_LOCK_WAITERS PH_QUEUED_LOCK_TRAVERSING) =? PH_QUEUED_LOCK_WAITERS) then
    let '(g', ok) := cas g value (value -₆₄ PH_QUEUED_LOCK_OWNED) in
    Some (g', if ok then Idle else ReleaseTry (Value g))
  else
    let newValue := u64 (value - PH_QUEUED_LOCK_OWNED + PH_QUEUED_LOCK_TRAVERSING) in
    let '(g', ok) := cas g value newValue in
    if ok then p ← PhpPrepareToWakeQueuedLock newValue ToReturn; Some (g', p) else Some (g', ReleaseTry (Value g)).

Definition PhReleaseQueuedLockShared (g : PH_QUEUED_LOCK) : PH_QUEUED_LOCK * locker :=
  let '(g, ok) := cas g (Z.lor PH_QUEUED_LOCK_OWNED PH_QUEUED_LOCK_SHARED_INC) 0 in (g, if ok then Idle else ReleaseSharedRead).

(** The condition of the first loop of PhfReleaseQueuedLockShared, and what follows it. *)
Definition release_shared_test (value : Z) : locker :=
  if negb (has value PH_QUEUED_LOCK_WAITERS) then ReleaseSharedTry value
  else if has value PH_QUEUED_LOCK_MULTIPLE_SHARED then FindLast value (PhGetQueuedLockWaitBlock value)
  else ReleaseLast value.

(** Its body; its end. *)
Definition release_shared_try (g : PH_QUEUED_LOCK) (value : Z) : ub (PH_QUEUED_LOCK * locker) :=
  if negb (has value PH_QUEUED_LOCK_OWNED) ||
     negb (has value PH_QUEUED_LOCK_WAITERS || (0 <? PhGetQueuedLockSharedOwners value)) then None
  else
    let newValue := if 1 <? PhGetQueuedLockSharedOwners value then value -₆₄ PH_QUEUED_LOCK_SHARED_INC else 0 in
    let '(g', ok) := cas g value newValue in
    Some (g', if ok then Idle else release_shared_test (Value g)).

Definition PhpFindLastQueuedWaitBlock (g : PH_QUEUED_LOCK) (value a : Z) : ub (PH_QUEUED_LOCK * locker) :=
  b ← read g a; Some (g, if Last b =? 0 then FindNext value a else Decrement value (Last b)).

Definition decrement (g : PH_QUEUED_LOCK) (value a : Z) : ub (PH_QUEUED_LOCK * locker) :=
  b ← read g a;
  let count := SharedOwners b -₃₂ 1 in
  g ← update g a (fun b => set_SharedOwners b count);
  Some (g, if 0 <? count then Idle else ReleaseLast value).

Definition release_last (g : PH_QUEUED_LOCK) (value : Z) : ub (PH_QUEUED_LOCK * locker) :=
  let cleared := Z.ldiff value (Z.lor PH_QUEUED_LOCK_OWNED PH_QUEUED_LOCK_MULTIPLE_SHARED) in
  if has value PH_QUEUED_LOCK_TRAVERSING then
    let '(g', ok) := cas g value cleared in Some (g', if ok then Idle else ReleaseLast (Value g))
  else
    let newValue := Z.lor cleared PH_QUEUED_LOCK_TRAVERSING in
    let '(g', ok) := cas g value newValue in
    if ok then p ← PhpPrepareToWakeQueuedLock newValue ToReturn; Some (g', p) else Some (g', ReleaseLast (Value g)).

(** ** Threads *)

(** The next action of thread [t]: undefined, or nothing because the thread is outside every call, or
    done; a call of the kernel that blocks leaves the thread where it is. *)
Definition next_action (g : PH_QUEUED_LOCK) (t : nat) (p : locker) : ub (option (PH_QUEUED_LOCK * locker)) :=
  match p with
  | Idle | Owner _ | Raised => Some None
  | AcquireFast x w => Some (Some (PhAcquireQueuedLock g x w))
  | AcquireRead x w => Some (Some (g, AcquireTry x w (Value g)))
  | AcquireTry x w value => Some <$> (if x then PhfAcquireQueuedLockExclusive g w value else PhfAcquireQueuedLockShared g w value)
  | Traverse tr k => Some <$> traverse g tr k
  | Waking u k => PhpUnblockQueuedWaitBlock g t u k
  | BlockSpin x w value i => Some <$> block_spin g x w value i
  | BlockReset x w value => Some <$> block_reset g x w value
  | BlockKey x w value => Some (Some (block_key g t x w value))
  | TryAcquire => let '(g, ok) := PhTryAcquireQueuedLockExclusive g in Some (Some (g, if ok then Owner true else Idle))
  | ReleaseFast => Some (Some (PhReleaseQueuedLockExclusive g))
  | WakeForRelease value => Some <$> PhfWakeForReleaseQueuedLock g value
  | ReleaseRead => Some (Some (g, ReleaseTry (Value g)))
  | ReleaseTry value => Some <$> PhfReleaseQueuedLockExclusive g value
  | ReleaseSharedFast => Some (Some (PhReleaseQueuedLockShared g))
  | ReleaseSharedRead => Some (Some (g, release_shared_test (Value g)))
  | ReleaseSharedTry value => Some <$> release_shared_try g value
  | FindLast value a => Some <$> PhpFindLastQueuedWaitBlock g value a
  | FindNext value a => b ← read g a; Some (Some (g, FindLast value (Next b)))
  | Decrement value a => Some <$> decrement g value a
  | ReleaseLast value => Some <$> release_last g value
  end.

(** The calls of a thread that owns nothing, with the address of the wait block in the new frame, and of
    an owner. *)
Definition acquire_calls (w : Z) : list locker := [AcquireFast true w; AcquireFast false w; AcquireRead true w; AcquireRead false w].
Definition release_calls (exclusive : bool) : list locker :=
  if exclusive then [ReleaseFast; ReleaseRead] else [ReleaseSharedFast; ReleaseSharedRead].

(** A wait block is aligned to 16 bytes and not at 0, and no two frames are at one place; what is in it
    is not known. *)
Inductive ql_step : PH_QUEUED_LOCK * list locker -> PH_QUEUED_LOCK * list locker -> Prop :=
  | step_acquire g ts t p w b :
      ts !! t = Some Idle -> p ∈ acquire_calls w -> w mod 16 = 0 -> 0 < w < 2 ^ 64 -> frames g !! w = None ->
      ql_step (g, ts) (set_frames g (<[w := b]> (frames g)), <[t := p]> ts)
  | step_try g ts t : ts !! t = Some Idle -> ql_step (g, ts) (g, <[t := TryAcquire]> ts)
  | step_release g ts t x p : ts !! t = Some (Owner x) -> p ∈ release_calls x -> ql_step (g, ts) (g, <[t := p]> ts)
  | step_action g ts t p g' p' : ts !! t = Some p -> next_action g t p = Some (Some (g', p')) -> ql_step (g, ts) (g', <[t := p']> ts).

Definition ql_reachable (k : K) (n : nat) (s : PH_QUEUED_LOCK * list locker) : Prop :=
  rtc ql_step (PhInitializeQueuedLock k, replicate n Idle) s.

End lock.
Arguments PH_QUEUED_LOCK : clear implicits.

(** ** The word

    A word without waiters has the OWNED bit and a count of shared owners; one with waiters has the
    first wait block and the other flags. *)
Inductive lockword := Plain (owned : bool) (shared : Z) | Queue (block : Z) (owned traversing multiple : bool).

Definition enc (W : lockword) : Z :=
  match W with
  | Plain o n => 4 * n + Z.b2z o
  | Queue a o t m => a + (Z.b2z o + 2 + 4 * Z.b2z t + 8 * Z.b2z m)
  end.

Definition block_ok (a : Z) : Prop := a mod 16 = 0 /\ 0 < a < 2 ^ 64.

Definition word_ok (W : lockword) : Prop :=
  match W with
  | Plain o n => 0 <= n < 2 ^ 31 /\ (0 < n -> o = true)
  | Queue a o t m => block_ok a
  end.

Definition owned_bit (W : lockword) : bool := match W with Plain o _ => o | Queue _ o _ _ => o end.
Definition is_queue (W : lockword) : bool := match W with Plain _ _ => false | Queue _ _ _ _ => true end.

Create HintDb words discriminated.

Lemma has_bit v n : 0 <= n -> has v (2 ^ n) = Z.testbit v n.
Proof. intros Hn. unfold has. rewrite land_bit by done. destruct (Z.testbit v n); [|done]. pose proof (Z.pow_pos_nonneg 2 n). by replace (2 ^ n =? 0) with false by lia. Qed.

Lemma queue_bit a o t m n : block_ok a -> 0 <= n < 4 ->
  Z.testbit (enc (Queue a o t m)) n = Z.testbit (Z.b2z o + 2 + 4 * Z.b2z t + 8 * Z.b2z m) n.
Proof. intros [Ha _] Hn. by apply (testbit_low _ _ n 4). Qed.

Lemma plain_bit o c n : 0 <= n < 2 -> Z.testbit (enc (Plain o c)) n = Z.testbit (Z.b2z o) n.
Proof. intros Hn. apply (testbit_low _ _ n 2); [|done]. change (2 ^ 2) with 4. rewrite Z.mul_comm. apply Z_mod_mult. Qed.

Lemma has_owned W : word_ok W -> has (enc W) PH_QUEUED_LOCK_OWNED = owned_bit W.
Proof.
  intros HW. change PH_QUEUED_LOCK_OWNED with (2 ^ 0). rewrite has_bit by done. destruct W as [o c|a o t m].
  - rewrite plain_bit by done. by destruct o.
  - rewrite queue_bit by done. by destruct o, t, m.
Qed.

Lemma has_waiters W : word_ok W -> has (enc W) PH_QUEUED_LOCK_WAITERS = is_queue W.
Proof.
  intros HW. change PH_QUEUED_LOCK_WAITERS with (2 ^ 1). rewrite has_bit by done. destruct W as [o c|a o t m].
  - rewrite plain_bit by done. by destruct o.
  - rewrite queue_bit by done. by destruct o, t, m.
Qed.

Lemma has_traversing a o t m : block_ok a -> has (enc (Queue a o t m)) PH_QUEUED_LOCK_TRAVERSING = t.
Proof. intros. change PH_QUEUED_LOCK_TRAVERSING with (2 ^ 2). rewrite has_bit, queue_bit by done. by destruct o, t, m. Qed.

Lemma has_multiple a o t m : block_ok a -> has (enc (Queue a o t m)) PH_QUEUED_LOCK_MULTIPLE_SHARED = m.
Proof. intros. change PH_QUEUED_LOCK_MULTIPLE_SHARED with (2 ^ 3). rewrite has_bit, queue_bit by done. by destruct o, t, m. Qed.

Lemma nibble_range o t m : 0 <= Z.b2z o + 2 + 4 * Z.b2z t + 8 * Z.b2z m < 2 ^ 4.
Proof. by destruct o, t, m. Qed.

Lemma queue_mod a o t m : block_ok a -> enc (Queue a o t m) mod 2 ^ 4 = Z.b2z o + 2 + 4 * Z.b2z t + 8 * Z.b2z m.
Proof. intros [Ha _]. cbn [enc]. rewrite Zplus_mod. change (a mod 2 ^ 4) with (a mod 16). rewrite Ha, Z.add_0_l, Zmod_mod. apply Z.mod_small, nibble_range. Qed.

Lemma get_block a o t m : block_ok a -> PhGetQueuedLockWaitBlock (enc (Queue a o t m)) = a.
Proof.
  intros Ha. unfold PhGetQueuedLockWaitBlock. change PH_QUEUED_LOCK_FLAGS with (Z.ones 4). rewrite ldiff_low, queue_mod by done. cbn [enc]. lia.
Qed.

Lemma get_owners o c : PhGetQueuedLockSharedOwners (enc (Plain o c)) = c.
Proof. unfold PhGetQueuedLockSharedOwners. rewrite Z.shiftr_div_pow2 by done. cbn [enc]. change (2 ^ PH_QUEUED_LOCK_SHARED_SHIFT) with 4. rewrite Z.mul_comm, Z.div_add_l by done. destruct o; cbn [Z.b2z]; change (1 / 4) with 0; change (0 / 4) with 0; lia. Qed.

Lemma word_range W : word_ok W -> 0 <= enc W < 2 ^ 64.
Proof.
  destruct W as [o c|a o t m]; cbn [word_ok enc].
  - intros [Hc _]. destruct o; cbn [Z.b2z]; lia.
  - intros [Ha Hr]. pose proof (nibble_range o t m). assert (a <= 2 ^ 64 - 16); [|lia].
    change (2 ^ 64) with (16 * 2 ^ 60) in *. apply Z.mod_divide in Ha as [q ->]; [|done]. nia.
Qed.

Lemma enc_inj W W' : word_ok W -> word_ok W' -> enc W = enc W' -> W = W'.
Proof.
  intros HW HW' E. pose proof (has_waiters W HW) as Hq. rewrite E, has_waiters in Hq by done.
  pose proof (has_owned W HW) as Ho. rewrite E, has_owned in Ho by done.
  destruct W as [o c|a o t m], W' as [o' c'|a' o' t' m']; try done; cbn [owned_bit] in Ho; subst o'.
  - pose proof (get_owners o c) as Hc. rewrite E, get_owners in Hc. congruence.
  - pose proof (get_block a o t m HW) as Hb. rewrite E, get_block in Hb by done.
    pose proof (has_traversing a o t m HW) as Ht. rewrite E, has_traversing in Ht by done.
    pose proof (has_multiple a o t m HW) as Hm. rewrite E, has_multiple in Hm by done. congruence.
Qed.

(** The word with the OWNED bit set or cleared. *)
Definition own (o : bool) (W : lockword) : lockword :=
  match W with Plain _ c => Plain o c | Queue a _ t m => Queue a o t m end.

Lemma own_ok W : word_ok W -> word_ok (own true W).
Proof. by destruct W; simpl; [intros []|]. Qed.

Lemma enc_own W : word_ok W -> owned_bit W = false -> enc W +₆₄ PH_QUEUED_LOCK_OWNED = enc (own true W).
Proof.
  intros HW Ho. pose proof (word_range (own true W) (own_ok W HW)). rewrite <- (u64_id (enc (own true W))) by done. f_equal.
  destruct W; simpl in *; subst; unfold PH_QUEUED_LOCK_OWNED; simpl; lia.
Qed.

Lemma enc_disown W : word_ok (own false W) -> owned_bit W = true -> enc W -₆₄ PH_QUEUED_LOCK_OWNED = enc (own false W).
Proof.
  intros HW Ho. pose proof (word_range _ HW). rewrite <- (u64_id (enc (own false W))) by done. f_equal.
  destruct W; simpl in *; subst; unfold PH_QUEUED_LOCK_OWNED; simpl; lia.
Qed.

Lemma enc_setbit W : word_ok W -> Z.setbit (enc W) 0 = enc (own true W).
Proof.
  intros HW. pose proof (has_owned W HW) as Ho. change PH_QUEUED_LOCK_OWNED with (2 ^ 0) in Ho. rewrite has_bit in Ho by done.
  rewrite setbit_add, Ho by done. destruct W as [o c|a o t m]; destruct o; simpl; lia.
Qed.

Lemma enc_traversing a o t m : block_ok a -> enc (Queue a o true m) -₆₄ PH_QUEUED_LOCK_TRAVERSING = enc (Queue a o false m) /\
  enc (Queue a o false m) +₆₄ PH_QUEUED_LOCK_TRAVERSING = enc (Queue a o true m) /\
  enc (Queue a o t m) <> 0.
Proof.
  intros Ha. pose proof (word_range (Queue a o true m) Ha). pose proof (word_range (Queue a o false m) Ha).
  split_and!.
  - rewrite <- (u64_id (enc (Queue a o false m))) by done. f_equal. simpl. unfold PH_QUEUED_LOCK_TRAVERSING. lia.
  - rewrite <- (u64_id (enc (Queue a o true m))) by done. f_equal. simpl. unfold PH_QUEUED_LOCK_TRAVERSING. lia.
  - destruct Ha. cbn [enc]. pose proof (nibble_range o t m). lia.
Qed.

Lemma enc_hand_over a m : block_ok a ->
  u64 (enc (Queue a true false m) - PH_QUEUED_LOCK_OWNED + PH_QUEUED_LOCK_TRAVERSING) = enc (Queue a false true m).
Proof.
  intros Ha. pose proof (word_range (Queue a false true m) Ha). rewrite <- (u64_id (enc (Queue a false true m))) by done. f_equal.
  simpl. unfold PH_QUEUED_LOCK_TRAVERSING, PH_QUEUED_LOCK_OWNED. lia.
Qed.

Lemma enc_share o c : 0 <= c < 2 ^ 31 - 1 -> (0 < c -> o = true) ->
  Z.lor (enc (Plain o c) +₆₄ PH_QUEUED_LOCK_SHARED_INC) PH_QUEUED_LOCK_OWNED = enc (Plain true (c + 1)).
Proof.
  intros Hc Ho. replace (enc (Plain o c) +₆₄ PH_QUEUED_LOCK_SHARED_INC) with (enc (Plain o (c + 1))).
  2: { symmetry. unfold PH_QUEUED_LOCK_SHARED_INC. cbn [enc]. rewrite u64_id; destruct o; unfold in_width; cbn [Z.b2z]; lia. }
  cbn [enc]. assert (H4 : (4 * (c + 1)) mod 2 ^ 2 = 0) by (rewrite Z.mul_comm; apply Z_mod_mult).
  rewrite <- (lor_low _ (Z.b2z o) 2 ltac:(done) H4), <- (lor_low _ (Z.b2z true) 2 ltac:(done) H4), <- Z.lor_assoc by (destruct o; simpl; lia). by destruct o.
Qed.

Lemma enc_unshare c : 1 < c < 2 ^ 31 -> enc (Plain true c) -₆₄ PH_QUEUED_LOCK_SHARED_INC = enc (Plain true (c - 1)).
Proof. intros. unfold PH_QUEUED_LOCK_SHARED_INC. cbn [enc Z.b2z]. rewrite u64_id; unfold in_width; lia. Qed.

Lemma push_queue w x a o t m : block_ok w -> block_ok a -> push_value (enc (Queue a o t m)) x w = enc (Queue w o true m).
Proof.
  intros Hw Ha. unfold push_value. rewrite has_waiters by done. cbn [is_queue].
  change PH_QUEUED_LOCK_FLAGS with (Z.ones 4). rewrite Z.land_ones, queue_mod by done. rewrite <- Z.lor_assoc, (lor_low w _ 4) by
    first [done | apply Hw | by destruct o, t, m].
  cbn [enc]. by destruct o, t, m.
Qed.

Lemma push_plain w x c : block_ok w -> 0 <= c < 2 ^ 31 -> push_value (enc (Plain true c)) x w = enc (Queue w true false (x && (1 <? c))).
Proof.
  intros Hw Hc. unfold push_value. rewrite has_waiters, get_owners by done. cbn [is_queue]. rewrite u32_id by (unfold in_width; lia).
  destruct (x && (1 <? c)); rewrite <- !Z.lor_assoc, (lor_low w _ 4) by first [done | apply Hw]; done.
Qed.

Lemma waiters_untraversed W : word_ok W ->
  (Z.land (enc W) (Z.lor PH_QUEUED_LOCK_WAITERS PH_QUEUED_LOCK_TRAVERSING) =? PH_QUEUED_LOCK_WAITERS) =
  match W with Plain _ _ => false | Queue _ _ t _ => negb t end.
Proof.
  intros HW. rewrite Z.land_lor_distr_r. change PH_QUEUED_LOCK_WAITERS with (2 ^ 1). change PH_QUEUED_LOCK_TRAVERSING with (2 ^ 2).
  rewrite !land_bit by done. destruct W as [o c|a o t m].
  - rewrite (plain_bit o c 1) by done. replace (Z.testbit (Z.b2z o) 1) with false by (by destruct o). by case_match.
  - rewrite !queue_bit by done. by destruct o, t, m.
Qed.

Lemma enc_cleared a o t m : block_ok a ->
  Z.ldiff (enc (Queue a o t m)) (Z.lor PH_QUEUED_LOCK_OWNED PH_QUEUED_LOCK_MULTIPLE_SHARED) = enc (Queue a false t false).
Proof.
  intros Ha. pose proof (Z.lor_ldiff_and (enc (Queue a o t m)) (Z.lor PH_QUEUED_LOCK_OWNED PH_QUEUED_LOCK_MULTIPLE_SHARED)) as Hs.
  pose proof (Z.add_lor_land (Z.ldiff (enc (Queue a o t m)) (Z.lor PH_QUEUED_LOCK_OWNED PH_QUEUED_LOCK_MULTIPLE_SHARED))
                (Z.land (enc (Queue a o t m)) (Z.lor PH_QUEUED_LOCK_OWNED PH_QUEUED_LOCK_MULTIPLE_SHARED))) as Ha'.
  rewrite Hs in Ha'. rewrite Z.ldiff_land, <- Z.land_assoc, (Z.land_comm (Z.lnot _)), <- Z.land_assoc, Z.land_lnot_diag, !Z.land_0_r, Z.add_0_r in Ha'.
  rewrite <- Z.ldiff_land in Ha'.
  assert (Hl : Z.land (enc (Queue a o t m)) (Z.lor PH_QUEUED_LOCK_OWNED PH_QUEUED_LOCK_MULTIPLE_SHARED) = Z.b2z o + 8 * Z.b2z m).
  { rewrite Z.land_lor_distr_r. change PH_QUEUED_LOCK_OWNED with (2 ^ 0). change PH_QUEUED_LOCK_MULTIPLE_SHARED with (2 ^ 3).
    rewrite !land_bit, !queue_bit by done. by destruct o, t, m. }
  rewrite Hl in Ha'. cbn [enc] in *. cbn [Z.b2z]. lia.
Qed.

Lemma enc_cleared_lor a m : block_ok a -> Z.lor (enc (Queue a false false m)) PH_QUEUED_LOCK_TRAVERSING = enc (Queue a false true m).
Proof.
  intros Ha. cbn [enc]. rewrite <- (lor_low a _ 4) by first [done | apply Ha | by destruct m].
  rewrite <- Z.lor_assoc, <- (lor_low a _ 4) by first [done | apply Ha | by destruct m]. by destruct m.
Qed.

End QueuedLock.
