(* ===== verification/QueuedLockProof.v ===== *)
(** * Queued locks: safety, mutual exclusion, and no lost wake-ups

    The invariant of [QueuedLock] and its theorems. Ghost state: the word decoded ([lockword]), the
    list [L] of the wait blocks in the chain from the newest to the oldest, and for every thread the
    list of the blocks it has taken off the chain and not yet woken. *)

From S2P Require Import Prelude QueuedLock.
Import QueuedLock.

Module QueuedLockProof.

#[global] Instance wait_block_inhabited : Inhabited PH_QUEUED_WAIT_BLOCK :=
  populate {| Next := 0; Previous := 0; Last := 0; SharedOwners := 0; Flags := 0 |}.

(** ** Chains of wait blocks *)

Definition tail_of (L : list Z) : Z := default 0 (last L).

(** Every block's Next is the block pushed before it; every block's Previous the one pushed after. *)
Fixpoint nexts (m : gmap Z PH_QUEUED_WAIT_BLOCK) (L : list Z) : Prop :=
  match L with a :: (b :: _) as L' => Next (m !!! a) = b /\ nexts m L' | _ => True end.

Fixpoint prevs (m : gmap Z PH_QUEUED_WAIT_BLOCK) (L : list Z) : Prop :=
  match L with a :: (b :: _) as L' => Previous (m !!! b) = a /\ prevs m L' | _ => True end.

(** From the top: blocks that are not optimized, then one that points to the last block and from which
    on the Previous links are there. *)
Fixpoint optimized (m : gmap Z PH_QUEUED_WAIT_BLOCK) (L : list Z) : Prop :=
  match L with
  | [] => False
  | a :: L' => (Last (m !!! a) = tail_of L /\ prevs m L) \/ (Last (m !!! a) = 0 /\ optimized m L')
  end.

(** The blocks a waker goes through, from [a] along Previous. *)
Fixpoint wake_chain (m : gmap Z PH_QUEUED_WAIT_BLOCK) (a : Z) (c : list Z) : Prop :=
  match c with [] => a = 0 | b :: c => a = b /\ wake_chain m (Previous (m !!! b)) c end.

Definition multiple (W : lockword) : bool := match W with Plain _ _ => false | Queue _ _ _ mu => mu end.
Definition traversed (W : lockword) : bool := match W with Plain _ _ => false | Queue _ _ t _ => t end.

Definition chain_ok (m : gmap Z PH_QUEUED_WAIT_BLOCK) (W : lockword) (L : list Z) : Prop :=
  match W with
  | Plain _ _ => L = []
  | Queue a _ _ mu => head L = Some a /\ nexts m L /\ optimized m L /\ Previous (m !!! a) = 0 /\
      (mu = true -> Last (m !!! tail_of L) = tail_of L /\ forall b, b ∈ L -> Last (m !!! b) = 0 \/ Last (m !!! b) = tail_of L)
  end.

(** ** Threads *)

Definition cont_frame (k : cont) : option Z := match k with ToBlock _ w _ => Some w | ToReturn => None end.

(** The wait block of a thread that has pushed it and not come back. *)
Definition waits (p : locker) : option Z :=
  match p with
  | Traverse _ k | Waking _ k => cont_frame k
  | BlockSpin _ w _ _ | BlockReset _ w _ | BlockKey _ w _ => Some w
  | _ => None
  end.

(** The wait block of a thread in an acquiring function. *)
Definition frame_of (p : locker) : option Z :=
  match p with
  | AcquireFast _ w | AcquireRead _ w | AcquireTry _ w _ => Some w
  | _ => waits p
  end.

Definition holds_exclusive (p : locker) : Z :=
  match p with Owner true | ReleaseFast | ReleaseRead | ReleaseTry _ => 1 | _ => 0 end.
Definition holds_shared (p : locker) : Z :=
  match p with
  | Owner false | ReleaseSharedFast | ReleaseSharedRead | ReleaseSharedTry _ | FindLast _ _ | FindNext _ _ | Decrement _ _ => 1
  | _ => 0
  end.
Definition holds_last (p : locker) : Z := match p with ReleaseLast _ => 1 | _ => 0 end.
Definition traversing (p : locker) : Z := match p with Traverse _ _ => 1 | _ => 0 end.
Definition finding (p : locker) : bool := match p with FindLast _ _ | FindNext _ _ | Decrement _ _ => true | _ => false end.

(** What the word says about the owners: [x] exclusive ones, [s] shared ones, [r] threads that were the
    last shared owner and have yet to release the word; [n] is the count in the last wait block. *)
Definition owners_ok (W : lockword) (x s r n : Z) : Prop :=
  match W with
  | Plain false c => c = 0 /\ x = 0 /\ s = 0 /\ r = 0
  | Plain true c => r = 0 /\ s = c /\ x = if c =? 0 then 1 else 0
  | Queue _ false _ mu => mu = false /\ x = 0 /\ s = 0 /\ r = 0
  | Queue _ true _ false => x + s + r = 1
  | Queue _ true _ true => x = 0 /\ s = n /\ r = if s =? 0 then 1 else 0
  end.

Definition stale (v : Z) : Prop := exists W, word_ok W /\ v = enc W.
Definition queue_word (v : Z) : Prop := exists a o t mu, block_ok a /\ v = enc (Queue a o t mu).
Definition cont_ok (k : cont) : Prop := match k with ToBlock _ _ v => stale v | ToReturn => True end.

Definition spinning (m : gmap Z PH_QUEUED_WAIT_BLOCK) (a : Z) : bool := Z.testbit (Flags (m !!! a)) PH_QUEUED_WAITER_SPINNING_SHIFT.

(** A traverser has read the value [v], when the chain began at [f]; since then only [A] was pushed. *)
Record origin (m : gmap Z PH_QUEUED_WAIT_BLOCK) (W : lockword) (L : list Z) (wake : bool) (v f : Z) (A S : list Z) : Prop := {
  or_traversed : traversed W = true;
  or_multiple : wake = true -> multiple W = false;
  or_block : block_ok f;
  or_value : exists mu, v = enc (Queue f (negb wake) true mu) /\ (wake = true -> mu = false);
  or_chain : L = A ++ f :: S;
  or_fresh : forall a, a ∈ A -> Last (m !!! a) = 0;
  or_first : Previous (m !!! f) = 0;
}.

(** Where a traverser is; [c] is what it has taken off the chain. *)
Definition traversal_ok (m : gmap Z PH_QUEUED_WAIT_BLOCK) (W : lockword) (L c : list Z) (tr : traversal) : Prop :=
  match tr with
  | WalkLast wake v f a => c = [] /\ exists A S U R, origin m W L wake v f A S /\
      f :: S = U ++ a :: R /\ (forall u, u ∈ U -> Last (m !!! u) = 0) /\ prevs m (U ++ [a])
  | WalkNext wake v f a => c = [] /\ exists A S U b R, origin m W L wake v f A S /\
      f :: S = U ++ a :: b :: R /\ (forall u, u ∈ U ++ [a] -> Last (m !!! u) = 0) /\ prevs m (U ++ [a])
  | WalkPrevious wake v f a b => c = [] /\ exists A S U R, origin m W L wake v f A S /\
      f :: S = U ++ a :: b :: R /\ (forall u, u ∈ U ++ [a] -> Last (m !!! u) = 0) /\ prevs m (U ++ [a])
  | OptimizeLast v f b => c = [] /\ exists A S, origin m W L false v f A S /\ b = tail_of L /\ prevs m (f :: S)
  | OptimizeClear v => c = [] /\ exists f A S, origin m W L false v f A S
  | WakeClear v => c = [] /\ traversed W = true /\ multiple W = false /\ exists f, block_ok f /\ v = enc (Queue f true true false)
  | WakeFlags v f a | WakePrevious v f a => c = [] /\ exists A S, origin m W L true v f A S /\ a = tail_of L /\ prevs m (f :: S)
  | WakeAll v a => c = [] /\ exists f A S, origin m W L true v f A S /\ a = tail_of L /\ prevs m (f :: S)
  | UnlinkLast f a b => c = [] /\ exists A S v, origin m W L true v f A (S ++ [a]) /\ last (f :: S) = Some b /\ prevs m (f :: S ++ [a])
  | UnlinkPrevious a => c = [a] /\ traversed W = true /\ multiple W = false
  | UnlinkTraversing a => c = [a] /\ traversed W = true /\ multiple W = false /\ Previous (m !!! a) = 0
  end.

(** Where a waker is; [e] is its call of the kernel, if it is in one. *)
Definition waking_ok (m : gmap Z PH_QUEUED_WAIT_BLOCK) (e : option (keyed * Z * bool)) (c : list Z) (u : waking) : Prop :=
  match u with
  | WakingRead a => a <> 0 /\ wake_chain m a c
  | WakingReset a b => exists c', c = a :: c' /\ wake_chain m b c'
  | WakingKey a b =>
      if decide (e = Some (KeyedRelease, a, true)) then wake_chain m b c
      else spinning m a = false /\ exists c', c = a :: c' /\ wake_chain m b c'
  end.

Definition view (m : gmap Z PH_QUEUED_WAIT_BLOCK) (e : option (keyed * Z * bool)) (W : lockword) (L c : list Z) (p : locker) : Prop :=
  match p with
  | Raised => False
  | Traverse tr k => traversal_ok m W L c tr /\ cont_ok k
  | Waking u k => waking_ok m e c u /\ cont_ok k
  | AcquireTry _ _ v | BlockSpin _ _ v _ | BlockReset _ _ v => c = [] /\ stale v
  | BlockKey _ w v => c = [] /\ stale v /\ spinning m w = false
  | WakeForRelease v => c = [] /\ exists f, block_ok f /\ v = enc (Queue f false false false)
  | ReleaseTry v => c = [] /\ exists W', word_ok W' /\ v = enc W' /\ owned_bit W' = true /\ match W' with Plain _ n => n = 0 | _ => True end
  | ReleaseSharedTry v => c = [] /\ exists n, 0 < n < 2 ^ 31 /\ v = enc (Plain true n)
  | FindLast v a => c = [] /\ queue_word v /\ multiple W = true /\ a ∈ L
  | FindNext v a => c = [] /\ queue_word v /\ multiple W = true /\ a ∈ L /\ a <> tail_of L
  | Decrement v a => c = [] /\ queue_word v /\ multiple W = true /\ a = tail_of L
  | ReleaseLast v => c = [] /\ queue_word v
  | _ => c = []
  end.

(** A block is queued while it is in the chain or in the hands of a waker. *)
Definition queued (L : list Z) (C : nat -> list Z) (a : Z) : Prop := a ∈ L \/ exists t, a ∈ C t.

(** A waiting thread has been woken: its flag was reset for it, or its wait for the key is over. *)
Definition signalled (m : gmap Z PH_QUEUED_WAIT_BLOCK) (e : option (keyed * Z * bool)) (p : locker) (w : Z) : Prop :=
  match p with BlockKey _ _ _ => e = Some (KeyedWait, w, true) | _ => spinning m w = false end.

Definition calling (d : keyed) (key : Z) (p : locker) : Prop :=
  match d, p with
  | KeyedWait, BlockKey _ w _ => w = key
  | KeyedRelease, Waking (WakingKey a _) _ => a = key
  | _, _ => False
  end.

Record tokens_ok (m : gmap Z PH_QUEUED_WAIT_BLOCK) (e : gmap nat (keyed * Z * bool)) (L : list Z) (C : nat -> list Z) (ts : list locker) : Prop := {
  tk_chain : NoDup L;
  tk_wakers : forall t, NoDup (C t);
  tk_apart : forall t a, a ∈ C t -> a ∈ L -> False;
  tk_one : forall t t' a, a ∈ C t -> a ∈ C t' -> t = t';
  tk_outside : forall t, ts !! t = None -> C t = [];
  tk_frame : forall t p w, ts !! t = Some p -> frame_of p = Some w -> block_ok w /\ is_Some (m !! w);
  tk_frames : forall t t' p p' w, ts !! t = Some p -> ts !! t' = Some p' -> frame_of p = Some w -> frame_of p' = Some w -> t = t';
  tk_waiter : forall a, queued L C a -> exists t p, ts !! t = Some p /\ waits p = Some a;
  tk_signal : forall t p w, ts !! t = Some p -> waits p = Some w -> (signalled m (e !! t) p w <-> ~ queued L C w);
  tk_call : forall t d key b, e !! t = Some (d, key, b) -> exists p, ts !! t = Some p /\ calling d key p;
  tk_pair : forall t t' key, e !! t = Some (KeyedWait, key, false) -> e !! t' = Some (KeyedRelease, key, false) -> False;
}.

(** A free lock that nobody traverses and has waiters: somebody is on its way to it. *)
Definition pilot_ok (W : lockword) (L : list Z) (ts : list locker) : Prop :=
  match W with
  | Queue _ false false _ => exists t p, ts !! t = Some p /\ (p = WakeForRelease (enc W) \/ exists w, frame_of p = Some w /\ w ∉ L)
  | _ => True
  end.

Section proof.
Context {K : Type} `{KeyedEventLaws K} (SpinCount : nat).

Record inv (g : PH_QUEUED_LOCK K) (ts : list locker) (W : lockword) (L : list Z) (C : nat -> list Z) : Prop := {
  inv_value : Value g = enc W;
  inv_word : word_ok W;
  inv_chain : chain_ok (frames g) W L;
  inv_owners : owners_ok W (tally holds_exclusive ts) (tally holds_shared ts) (tally holds_last ts) (SharedOwners (frames g !!! tail_of L));
  inv_traverser : tally traversing ts = Z.b2z (traversed W);
  inv_tokens : tokens_ok (frames g) (pending (kernel g)) L C ts;
  inv_views : forall t p, ts !! t = Some p -> view (frames g) (pending (kernel g) !! t) W L (C t) p;
  inv_pilot : pilot_ok W L ts;
  inv_bound : Z.of_nat (length ts) < 2 ^ 31 - 1;
}.
End proof.
(** ** Lemmas on chains *)

Section chains.
Implicit Types (m : gmap Z PH_QUEUED_WAIT_BLOCK) (L A S U R : list Z) (a b : Z).

Lemma tail_of_app A b S : tail_of (A ++ b :: S) = tail_of (b :: S).
Proof. unfold tail_of. rewrite last_app. by destruct (last_is_Some (b :: S)) as [_ [x ->]]. Qed.

Lemma tail_of_cons a b S : tail_of (a :: b :: S) = tail_of (b :: S).
Proof. apply (tail_of_app [a]). Qed.

Lemma tail_of_snoc A b : tail_of (A ++ [b]) = b.
Proof. unfold tail_of. by rewrite last_snoc. Qed.

Lemma tail_of_elem L : L <> [] -> tail_of L ∈ L.
Proof. intros HL. unfold tail_of. destruct (last L) as [x|] eqn:E; [|by apply last_None in E]. simpl. by apply last_Some_elem_of. Qed.

Lemma nexts_ext m m' L : (forall a, a ∈ L -> Next (m' !!! a) = Next (m !!! a)) -> nexts m L -> nexts m' L.
Proof.
  induction L as [|a [|b L] IH]; [done|done|]. intros HE [Ha Hn]. split; [rewrite HE; [done|by left]|]. apply IH; [|done]. intros x Hx. apply HE. by right.
Qed.

Lemma prevs_ext m m' L : (forall a, a ∈ L -> Previous (m' !!! a) = Previous (m !!! a)) -> prevs m L -> prevs m' L.
Proof.
  induction L as [|a [|b L] IH]; [done|done|]. intros HE [Ha Hn]. split; [rewrite HE; [done|set_solver]|]. apply IH; [|done]. intros x Hx. apply HE. by right.
Qed.

Lemma optimized_ext m m' L : (forall a, a ∈ L -> Previous (m' !!! a) = Previous (m !!! a) /\ Last (m' !!! a) = Last (m !!! a)) -> optimized m L -> optimized m' L.
Proof.
  induction L as [|a L IH]; [done|]. intros HE Ho. cbn [optimized] in *. rewrite (proj2 (HE a ltac:(by left))). destruct Ho as [[Hl Hp]|[Hl Ho]].
  - left. split; [done|]. eapply prevs_ext; [|done]. intros x Hx. by apply HE.
  - right. split; [done|]. apply IH; [|done]. intros x Hx. apply HE. by right.
Qed.

Lemma wake_chain_ext m m' c a : (forall x, x ∈ c -> Previous (m' !!! x) = Previous (m !!! x)) -> wake_chain m a c -> wake_chain m' a c.
Proof.
  revert a. induction c as [|b c IH]; intros a HE Hc; [done|]. destruct Hc as [-> Hc]. split; [done|]. rewrite HE by (by left).
  apply IH; [|done]. intros x Hx. apply HE. by right.
Qed.

Lemma nexts_app_r m A S : nexts m (A ++ S) -> nexts m S.
Proof. induction A as [|a A IH]; [done|]. intros Hn. apply IH. simpl in Hn. destruct (A ++ S); [done|apply Hn]. Qed.

Lemma nexts_snoc m A b : nexts m (A ++ [b]) -> nexts m A.
Proof. induction A as [|a [|c A] IH]; [done|done|]. intros [Ha Hn]. split; [done|by apply IH]. Qed.

Lemma nexts_inner m A a b S : nexts m (A ++ a :: b :: S) -> Next (m !!! a) = b.
Proof. intros Hn%nexts_app_r. apply Hn. Qed.

Lemma prevs_app_r m A S : prevs m (A ++ S) -> prevs m S.
Proof. induction A as [|a A IH]; [done|]. intros Hn. apply IH. simpl in Hn. destruct (A ++ S); [done|apply Hn]. Qed.

Lemma prevs_snoc m A b : prevs m (A ++ [b]) -> prevs m A.
Proof. induction A as [|a [|c A] IH]; [done|done|]. intros [Ha Hn]. split; [done|by apply IH]. Qed.

Lemma prevs_join m A a S : prevs m (A ++ [a]) -> prevs m (a :: S) -> prevs m (A ++ a :: S).
Proof.
  induction A as [|b [|c A] IH]; [done| |].
  - intros [Ha _] Hp. split; done.
  - intros [Ha Hn] Hp. split; [done|]. by apply IH.
Qed.

Lemma prevs_inner m A a b S : prevs m (A ++ a :: b :: S) -> Previous (m !!! b) = a.
Proof. intros Hn%prevs_app_r. apply Hn. Qed.

(** Past blocks with a null Last the chain is still optimized from somewhere on. *)
Lemma optimized_drop m A S : tail_of (A ++ S) <> 0 -> (forall a, a ∈ A -> Last (m !!! a) = 0) -> optimized m (A ++ S) -> optimized m S.
Proof.
  induction A as [|a A IH]; intros Ht HA Ho; [done|]. cbn [app optimized] in Ho. destruct Ho as [[Hl _]|[_ Ho]].
  - rewrite HA in Hl by (by left). by destruct Ht.
  - apply IH; [|intros x Hx; apply HA; by right|done]. intros Hz. destruct (A ++ S) as [|b L] eqn:E; [done|].
    apply Ht. change ((a :: A) ++ S) with ([a] ++ A ++ S). by rewrite E, tail_of_app.
Qed.

Lemma optimized_fresh m A S : (forall a, a ∈ A -> Last (m !!! a) = 0) -> optimized m S -> optimized m (A ++ S).
Proof.
  induction A as [|a A IH]; intros HA Ho; [done|]. cbn [app optimized]. right. split; [apply HA; by left|]. apply IH; [|done]. intros x Hx. apply HA. by right.
Qed.

(** At the first block with a Last pointer the walk has found the tail, and all Previous links below. *)
Lemma optimized_here m a S : Last (m !!! a) <> 0 -> optimized m (a :: S) -> Last (m !!! a) = tail_of (a :: S) /\ prevs m (a :: S).
Proof. intros Hl [Hh|[Hz _]]; done. Qed.

Lemma optimized_on m a S : Last (m !!! a) = 0 -> tail_of (a :: S) <> 0 -> optimized m (a :: S) -> exists b S', S = b :: S'.
Proof. intros Hl Ht [[Hh _]|[_ Ho]]; [congruence|]. destruct S as [|b S']; [done|]. by exists b, S'. Qed.

(** The Previous links from the tail of a fully linked chain, down to its first block. *)
Lemma prevs_wake_chain m f S : prevs m (f :: S) -> Previous (m !!! f) = 0 -> wake_chain m (tail_of (f :: S)) (reverse (f :: S)).
Proof.
  revert f. induction S as [|b S IH] using rev_ind; intros f Hp Hf.
  - done.
  - rewrite app_comm_cons, tail_of_snoc, reverse_snoc. cbn [wake_chain]. split; [done|].
    rewrite app_comm_cons in Hp. destruct (last (f :: S)) as [x|] eqn:E; [|by apply last_None in E].
    replace (Previous (m !!! b)) with (tail_of (f :: S)); [by apply IH; [eapply prevs_snoc|]|].
    apply last_Some in E as [S' E]. rewrite E in *. rewrite tail_of_snoc. rewrite <- app_assoc in Hp. symmetry. by apply prevs_inner in Hp.
Qed.
End chains.

(** ** What other threads do to a thread's view *)

Section grown.
Implicit Types (m : gmap Z PH_QUEUED_WAIT_BLOCK) (W : lockword) (L A S U R c : list Z) (a b f v : Z) (tr : traversal).

Record grown m m' W W' L L' : Prop := {
  gr_chain : exists A, L' = A ++ L /\ forall a, a ∈ A -> Last (m' !!! a) = 0;
  gr_links : forall a, a ∈ L -> Previous (m' !!! a) = Previous (m !!! a) /\ Last (m' !!! a) = Last (m !!! a);
  gr_traversed : traversed W' = true;
  gr_multiple : multiple W = false -> multiple W' = false;
}.

Lemma prevs_grown m m' W W' L L' A S : grown m m' W W' L L' -> (forall a, a ∈ S -> a ∈ L) -> prevs m S -> prevs m' S.
Proof. intros HG HS. apply prevs_ext. intros a Ha. by apply (gr_links _ _ _ _ _ _ HG), HS. Qed.

Lemma origin_grown m m' W W' L L' wake v f A S : grown m m' W W' L L' -> origin m W L wake v f A S ->
  exists A', origin m' W' L' wake v f A' S /\ tail_of L' = tail_of L.
Proof.
  intros [(B & -> & HB) Hl Ht Hm] [Ht0 Hm0 Hb Hv -> Hf Hp]. exists (B ++ A). split; [split|]; [done|auto|done|done|by rewrite app_assoc| | |].
  - intros a [Ha|Ha]%elem_of_app; [by apply HB|]. rewrite (proj2 (Hl a ltac:(set_solver))). by apply Hf.
  - by rewrite (proj1 (Hl f ltac:(set_solver))).
  - rewrite app_assoc. by rewrite !tail_of_app.
Qed.

Lemma walk_grown m m' W W' L L' wake v f A S U a R : grown m m' W W' L L' -> origin m W L wake v f A S ->
  f :: S = U ++ a :: R -> prevs m (U ++ [a]) -> prevs m' (U ++ [a]) /\ forall u, u ∈ U ++ [a] -> Last (m' !!! u) = Last (m !!! u).
Proof.
  intros HG HO HE Hp. assert (HL : forall u, u ∈ U ++ [a] -> u ∈ L).
  { rewrite (or_chain _ _ _ _ _ _ _ _ HO), HE. set_solver. }
  split; [eapply (prevs_grown m m' W W' L L' []); done|]. intros u Hu. by apply (gr_links _ _ _ _ _ _ HG), HL.
Qed.

Lemma origin_sub m W L wake v f A S a : origin m W L wake v f A S -> a ∈ f :: S -> a ∈ L.
Proof. intros HO. rewrite (or_chain _ _ _ _ _ _ _ _ HO). set_solver. Qed.

(** The three shapes of a traverser's view: inside the walk, after it, and with no position. *)
Ltac grown_origin HG HO := destruct (origin_grown _ _ _ _ _ _ _ _ _ _ _ HG HO) as (?A' & ?HO' & ?Htail).
Tactic Notation "grown_walk" int_or_var(n) hyp(HG) hyp(HO) hyp(HE) hyp(Hp) :=
  grown_origin HG HO; destruct (walk_grown _ _ _ _ _ _ _ _ _ _ _ _ _ _ HG HO HE Hp) as [?Hp' ?Hlast];
  do n eexists; split_and!; [eassumption|eassumption| |eassumption]; intros ?u ?Hu; rewrite Hlast by set_solver; auto.
Tactic Notation "grown_complete" int_or_var(n) hyp(HG) hyp(HO) :=
  grown_origin HG HO; do n eexists; split_and!; try eassumption; try congruence;
  eapply (prevs_grown _ _ _ _ _ _ [] _ HG); [|eassumption]; intros ? ?; by eapply origin_sub.

Lemma traversal_grown m m' W W' L L' c tr : grown m m' W W' L L' -> (forall a, a ∈ c -> Previous (m' !!! a) = Previous (m !!! a)) ->
  traversal_ok m W L c tr -> traversal_ok m' W' L' c tr.
Proof.
  intros HG Hc. pose proof (gr_traversed _ _ _ _ _ _ HG) as Ht'. pose proof (gr_multiple _ _ _ _ _ _ HG) as Hm'. destruct tr; cbn [traversal_ok].
  - intros (-> & A & S & U & R & HO & HE & HU & Hp). split; [done|]. grown_walk 4 HG HO HE Hp.
  - intros (-> & A & S & U & b & R & HO & HE & HU & Hp). split; [done|]. grown_walk 5 HG HO HE Hp.
  - intros (-> & A & S & U & R & HO & HE & HU & Hp). split; [done|]. grown_walk 4 HG HO HE Hp.
  - intros (-> & A & S & HO & -> & Hp). split; [done|]. grown_complete 2 HG HO.
  - intros (-> & f & A & S & HO). split; [done|]. grown_origin HG HO. by exists f, A', S.
  - intros (-> & Ht & Hm & Hf). by split_and!; [|auto..].
  - intros (-> & A & S & HO & -> & Hp). split; [done|]. grown_complete 2 HG HO.
  - intros (-> & A & S & HO & -> & Hp). split; [done|]. grown_complete 2 HG HO.
  - intros (-> & A & S & v & HO & Hl & Hp). split; [done|]. grown_complete 3 HG HO.
  - intros (-> & Ht & Hm). by split_and!; [|auto..].
  - intros (-> & Ht & Hm & Hp). split_and!; [done|auto..|]. by rewrite Hc by (by left).
  - intros (-> & f & A & S & HO & -> & Hp). split; [done|]. grown_complete 3 HG HO.
Qed.

(** The view of a thread is stable under what others do. *)
Lemma view_stable m m' e W W' L L' c p : view m e W L c p ->
  (forall a, a ∈ c -> Previous (m' !!! a) = Previous (m !!! a) /\ (spinning m a = false -> spinning m' a = false)) ->
  (forall w, frame_of p = Some w -> spinning m w = false -> spinning m' w = false) ->
  (traversing p = 1 -> grown m m' W W' L L') ->
  (finding p = true -> multiple W' = true /\ (forall a, a ∈ L -> a ∈ L') /\ tail_of L' = tail_of L) ->
  view m' e W' L' c p.
Proof.
  intros Hv Hc Hw Ht Hf. destruct p as [ |x| |x w|x w|x w v|tr k|u k|x w v i|x w v|x w v| | |v| |v| | |v|v a|v a|v a|v]; cbn [view] in *; try done.
  - destruct Hv as [Hv Hk]. split; [|done]. eapply traversal_grown; [by apply Ht| |done]. intros a Ha. by apply Hc.
  - destruct Hv as [Hv Hk]. split; [|done]. destruct u as [a|a b|a b]; cbn [waking_ok] in *.
    + destruct Hv as [Ha Hv]. split; [done|]. eapply wake_chain_ext; [|done]. intros y Hy. by apply Hc.
    + destruct Hv as (c' & -> & Hv). exists c'. split; [done|]. eapply wake_chain_ext; [|done]. intros y Hy. apply Hc. by right.
    + case_decide.
      * eapply wake_chain_ext; [|done]. intros y Hy. by apply Hc.
      * destruct Hv as (Hs & c' & -> & Hv). split; [apply Hc; [by left|done]|]. exists c'. split; [done|]. eapply wake_chain_ext; [|done]. intros y Hy. apply Hc. by right.
  - destruct Hv as (Hc0 & Hv & Hs). split_and!; [done|done|by apply Hw].
  - destruct Hv as (Hc0 & Hv & Hm & Ha). destruct (Hf eq_refl) as (? & ? & ?). split_and!; auto.
  - destruct Hv as (Hc0 & Hv & Hm & Ha & Hn). destruct (Hf eq_refl) as (? & ? & ?). split_and!; auto. congruence.
  - destruct Hv as (Hc0 & Hv & Hm & Ha). destruct (Hf eq_refl) as (? & ? & ?). split_and!; auto. congruence.
Qed.
End grown.

(** ** Steps that leave the chain and the kernel alone *)

Section quiet.
Implicit Types (m : gmap Z PH_QUEUED_WAIT_BLOCK) (W : lockword) (L : list Z) (C : nat -> list Z) (ts : list locker) (p : locker).

(** A step writes at most the thread's own frame, when that is not queued, or a frame that did not exist. *)
Definition untouched m m' L C p : Prop :=
  forall a b, m !! a = Some b -> m' !! a = Some b \/ (frame_of p = Some a /\ ~ queued L C a).

Lemma waits_frame p w : waits p = Some w -> frame_of p = Some w.
Proof. by destruct p. Qed.

Lemma queued_kept m m' e L C ts t p a : tokens_ok m e L C ts -> untouched m m' L C p -> ts !! t = Some p -> queued L C a -> m' !! a = m !! a.
Proof.
  intros HT Hu Ht Ha. destruct (tk_waiter _ _ _ _ _ HT a Ha) as (t' & p' & Ht' & Hw%waits_frame).
  destruct (tk_frame _ _ _ _ _ HT _ _ _ Ht' Hw) as [_ [b Hb]]. rewrite Hb. by destruct (Hu a b Hb) as [?|[_ ?]].
Qed.

Lemma frame_kept m m' e L C ts t p t' p' w : tokens_ok m e L C ts -> untouched m m' L C p -> ts !! t = Some p ->
  t' <> t -> ts !! t' = Some p' -> frame_of p' = Some w -> m' !! w = m !! w.
Proof.
  intros HT Hu Ht Hne Ht' Hw. destruct (tk_frame _ _ _ _ _ HT _ _ _ Ht' Hw) as [_ [b Hb]]. rewrite Hb.
  destruct (Hu w b Hb) as [?|[Hf _]]; [done|]. destruct Hne. by apply (tk_frames _ _ _ _ _ HT t' t p' p w).
Qed.

Lemma total_eq m m' a : m' !! a = m !! a -> m' !!! a = m !!! a.
Proof. intros HE. by rewrite !lookup_total_alt, HE. Qed.

(** Which of the thread's next states are allowed, as far as frames and calls go; [e] and [e'] are its
    call of the kernel before and after. *)
Record same_frame m m' (e e' : option (keyed * Z * bool)) L C p p' : Prop := {
  sf_frame : forall w, frame_of p' = Some w -> block_ok w /\ is_Some (m' !! w) /\ (frame_of p = Some w \/ m !! w = None);
  sf_waits : forall w, waits p' = Some w -> waits p = Some w /\ (signalled m' e' p' w <-> signalled m e p w);
  sf_woken : forall w, waits p = Some w -> waits p' = None -> ~ queued L C w;
  sf_calls : forall d key b, e' = Some (d, key, b) -> e = e' /\ (calling d key p -> calling d key p');
}.

Lemma calls_insert (e : gmap nat (keyed * Z * bool)) ts t p p' t' d key : (exists q, ts !! t' = Some q /\ calling d key q) -> ts !! t = Some p ->
  (t' = t -> calling d key p -> calling d key p') -> exists q, <[t := p']> ts !! t' = Some q /\ calling d key q.
Proof.
  intros (q & Ht' & Hq) Ht Hc. destruct (decide (t' = t)) as [->|Hne]; [|exists q; by rewrite list_lookup_insert_ne].
  rewrite Ht in Ht'. injection Ht' as <-. exists p'. split; [by apply list_lookup_insert_eq; eapply lookup_lt_Some|by apply Hc].
Qed.

Lemma tokens_quiet m m' e e' L C ts t p p' : tokens_ok m e L C ts -> ts !! t = Some p -> untouched m m' L C p ->
  same_frame m m' (e !! t) (e' !! t) L C p p' -> (forall t', t' <> t -> e' !! t' = e !! t') -> tokens_ok m' e' L C (<[t := p']> ts).
Proof.
  intros HT Ht Hu [Hf Hw Hk Hc] He. assert (Hlt : (t < length ts)%nat) by (by eapply lookup_lt_Some).
  assert (Hother : forall t' q w, ts !! t' = Some q -> frame_of q = Some w -> frame_of p = Some w \/ m !! w = None -> t' = t).
  { intros t' q w Ht' Hq [Hp|Hp]; [by apply (tk_frames _ _ _ _ _ HT t' t q p w)|].
    destruct (tk_frame _ _ _ _ _ HT _ _ _ Ht' Hq) as [_ [b Hb]]. congruence. }
  split; try apply HT.
  - intros t' Ht'. apply HT. apply lookup_ge_None. rewrite <- (length_insert ts t p'). by apply lookup_ge_None.
  - intros t' q w [(-> & <- & _)|(Hne & Ht')]%list_lookup_insert_Some Hq; [by destruct (Hf w Hq) as (? & ? & _)|].
    split; [by eapply (tk_frame _ _ _ _ _ HT)|]. rewrite (frame_kept m m' e L C ts t p t' q w); try done. by eapply (tk_frame _ _ _ _ _ HT).
  - intros t1 t2 q1 q2 w [(-> & <- & _)|(Hne1 & Ht1)]%list_lookup_insert_Some [(-> & <- & _)|(Hne2 & Ht2)]%list_lookup_insert_Some Hq1 Hq2.
    + done.
    + symmetry. apply (Hother t2 q2 w Ht2 Hq2). by apply Hf.
    + apply (Hother t1 q1 w Ht1 Hq1). by apply Hf.
    + by apply (tk_frames _ _ _ _ _ HT t1 t2 q1 q2 w).
  - intros a Ha. destruct (tk_waiter _ _ _ _ _ HT a Ha) as (t' & q & Ht' & Hq). destruct (decide (t' = t)) as [->|Hne].
    + rewrite Ht in Ht'. injection Ht' as <-. exists t, p'. split; [by apply list_lookup_insert_eq|].
      destruct (waits p') as [w'|] eqn:Hw'; [|by destruct (Hk a Hq eq_refl)]. destruct (Hw w' eq_refl) as [? _]. congruence.
    + exists t', q. by rewrite list_lookup_insert_ne.
  - intros t' q w [(-> & <- & _)|(Hne & Ht')]%list_lookup_insert_Some Hq.
    + destruct (Hw w Hq) as [Hp ->]. by apply (tk_signal _ _ _ _ _ HT).
    + rewrite <- (tk_signal _ _ _ _ _ HT t' q w Ht' Hq), He by congruence. unfold signalled, spinning.
      by rewrite (total_eq m m' w) by (eapply (frame_kept m m'); try done; by apply waits_frame).
  - intros t' d key b Hb. apply (calls_insert e ts t p p').
    + apply (tk_call _ _ _ _ _ HT t' d key b). destruct (decide (t' = t)) as [->|Hne]; [by destruct (Hc d key b Hb) as [-> _]|by rewrite <- He].
    + done.
    + intros -> . by apply (Hc d key b).
  - intros t1 t2 key H1 H2. apply (tk_pair _ _ _ _ _ HT t1 t2 key).
    + destruct (decide (t1 = t)) as [->|Hne]; [by destruct (Hc _ _ _ H1) as [-> _]|by rewrite <- He].
    + destruct (decide (t2 = t)) as [->|Hne]; [by destruct (Hc _ _ _ H2) as [-> _]|by rewrite <- He].
Qed.
End quiet.

Section steps.
Context {K : Type} `{KeyedEventLaws K} (SpinCount : nat).
Implicit Types (g : PH_QUEUED_LOCK K) (W : lockword) (L : list Z) (C : nat -> list Z) (ts : list locker) (p : locker) (e : option (keyed * Z * bool)) (m : gmap Z PH_QUEUED_WAIT_BLOCK).

Lemma owners_count W x s r n n' : (is_queue W = true -> n' = n) -> owners_ok W x s r n -> owners_ok W x s r n'.
Proof. destruct W as [[] c|a [] t []]; cbn [owners_ok is_queue]; intuition congruence. Qed.

Lemma chain_queue m a o t mu L : chain_ok m (Queue a o t mu) L -> exists L', L = a :: L'.
Proof. intros (Hh & _). destruct L; [done|]. injection Hh as ->. by eexists. Qed.

Lemma chain_nonempty m W L : chain_ok m W L -> is_queue W = true -> L <> [].
Proof. destruct W as [|a o t mu]; [done|]. intros [L' ->]%chain_queue _. done. Qed.

Lemma chain_ext m m' W L : (forall a, a ∈ L -> Next (m' !!! a) = Next (m !!! a) /\ Previous (m' !!! a) = Previous (m !!! a) /\ Last (m' !!! a) = Last (m !!! a)) ->
  chain_ok m W L -> chain_ok m' W L.
Proof.
  intros HE. destruct W as [|a o t mu]; [done|]. intros Hc. destruct (chain_queue _ _ _ _ _ _ Hc) as [L' ->]. destruct Hc as (Hh & Hn & Ho & Hp & Hm).
  cbn [chain_ok]. split_and!.
  - done.
  - eapply nexts_ext; [|done]. intros b Hb. by apply HE.
  - eapply optimized_ext; [|done]. intros b Hb. split; by apply HE.
  - rewrite <- Hp. apply HE. by left.
  - intros Hmu. destruct (Hm Hmu) as [Ht Hl]. split.
    + rewrite <- Ht at 2. by apply HE, tail_of_elem.
    + intros b Hb. destruct (HE b Hb) as (_ & _ & ->). by apply Hl.
Qed.

Lemma inv_quiet g g' ts t p p' W W' L C :
  inv g ts W L C -> ts !! t = Some p -> kernel g' = kernel g -> Value g' = enc W' -> word_ok W' ->
  untouched (frames g) (frames g') L C p ->
  same_frame (frames g) (frames g') (pending (kernel g) !! t) (pending (kernel g) !! t) L C p p' ->
  chain_ok (frames g) W' L ->
  owners_ok W' (tally holds_exclusive ts - holds_exclusive p + holds_exclusive p') (tally holds_shared ts - holds_shared p + holds_shared p')
    (tally holds_last ts - holds_last p + holds_last p') (SharedOwners (frames g !!! tail_of L)) ->
  Z.b2z (traversed W) - traversing p + traversing p' = Z.b2z (traversed W') ->
  (traversing p = 0 -> traversed W = true -> traversed W' = true /\ (multiple W = false -> multiple W' = false)) ->
  (forall t' q, t' <> t -> ts !! t' = Some q -> finding q = true -> multiple W' = true) ->
  view (frames g') (pending (kernel g) !! t) W' L (C t) p' ->
  pilot_ok W' L (<[t := p']> ts) ->
  inv g' (<[t := p']> ts) W' L C.
Proof.
  intros HI Ht Hk HV HW Hu Hs Hc Ho Htr Htr' Hfind Hv Hpi. pose proof (inv_tokens _ _ _ _ _ HI) as HT.
  assert (Hkept : forall a, queued L C a -> frames g' !! a = frames g !! a) by (intros a Ha; by eapply queued_kept).
  split; rewrite ?Hk.
  - done.
  - done.
  - eapply chain_ext; [|done]. intros a Ha. by rewrite (total_eq (frames g) (frames g')) by (apply Hkept; by left).
  - rewrite !(tally_insert _ _ _ _ _ Ht). eapply owners_count; [|done]. intros Hq.
    by rewrite (total_eq (frames g) (frames g')) by (apply Hkept; left; by eapply tail_of_elem, chain_nonempty).
  - rewrite (tally_insert _ _ _ _ _ Ht), (inv_traverser _ _ _ _ _ HI). done.
  - by eapply tokens_quiet.
  - intros t' q [(-> & <- & _)|(Hne & Ht')]%list_lookup_insert_Some; [done|].
    eapply view_stable; [by apply (inv_views _ _ _ _ _ HI)| | | |].
    + intros a Ha. unfold spinning. by rewrite (total_eq (frames g) (frames g')) by (apply Hkept; right; by exists t').
    + intros w Hw. unfold spinning. by rewrite (total_eq (frames g) (frames g')) by (by eapply frame_kept).
    + intros Hq. assert (Htw : traversed W = true).
      { pose proof (tally_lookup traversing ltac:(by intros []) ts t' q Ht') as Hle. rewrite (inv_traverser _ _ _ _ _ HI) in Hle. destruct (traversed W); [done|cbn [Z.b2z] in Hle; lia]. }
      assert (Hp0 : traversing p = 0).
      { pose proof (tally_two traversing ltac:(by intros []) ts t t' p q ltac:(done) Ht Ht') as Hle.
        rewrite (inv_traverser _ _ _ _ _ HI), Htw in Hle. cbn [Z.b2z] in Hle. assert (0 <= traversing p) by (by destruct p). lia. }
      destruct (Htr' Hp0 Htw) as [? ?]. split; [exists []; split; [done|set_solver]| |done|done].
      intros a Ha. by rewrite (total_eq (frames g) (frames g')) by (apply Hkept; by left).
    + intros Hq. split_and!; [by eapply Hfind|done|done].
  - done.
  - rewrite length_insert. apply HI.
Qed.

Definition keeps g ts : Prop := exists W L C, inv g ts W L C.

(** A step is defined, and the invariant holds after it. *)
Definition step_ok ts (t : nat) (r : ub (PH_QUEUED_LOCK K * locker)) : Prop :=
  exists g' p', r = Some (g', p') /\ keeps g' (<[t := p']> ts).

Lemma view_alone m e W L c p : view m e W L c p -> match p with Traverse _ _ | Waking _ _ => True | _ => c = [] end.
Proof. destruct p; cbn [view]; intuition. Qed.

Lemma finding_multiple g ts W L C t q : inv g ts W L C -> ts !! t = Some q -> finding q = true -> multiple W = true.
Proof. intros HI Ht Hq. pose proof (inv_views _ _ _ _ _ HI t q Ht) as Hv. destruct q; try done; cbn [view] in Hv; intuition. Qed.

Lemma weights_nonneg p : 0 <= holds_exclusive p /\ 0 <= holds_shared p /\ 0 <= holds_last p /\ 0 <= traversing p.
Proof. destruct p as [ |[]| | | | | | | | | | | | | | | | | | | | | ]; cbn; lia. Qed.

Lemma finding_shared g ts W L C t q : inv g ts W L C -> ts !! t = Some q -> finding q = true -> 1 <= tally holds_shared ts.
Proof.
  intros HI Ht Hq. pose proof (tally_lookup holds_shared ltac:(apply weights_nonneg) ts t q Ht) as Hl.
  by destruct q.
Qed.

Lemma queue_chain g ts W L C : inv g ts W L C -> is_queue W = true -> L <> [].
Proof. intros HI. eapply chain_nonempty, HI. Qed.

(** The pilot is still there unless this thread was it. *)
Lemma pilot_local W L ts t p p' : ts !! t = Some p -> frame_of p' = frame_of p -> p <> WakeForRelease (enc W) -> pilot_ok W L ts -> pilot_ok W L (<[t := p']> ts).
Proof.
  intros Ht Hf Hp. destruct W as [|a [] [] mu]; cbn [pilot_ok]; try done. intros (t' & q & Ht' & Hq). destruct (decide (t' = t)) as [->|Hne].
  - rewrite Ht in Ht'. injection Ht' as <-. destruct Hq as [Hq|(w & Hw & Hl)]; [done|]. exists t, p'. split; [by apply list_lookup_insert_eq; eapply lookup_lt_Some|].
    right. exists w. by rewrite Hf.
  - exists t', q. by rewrite list_lookup_insert_ne.
Qed.

Lemma pilot_owned W L ts : owned_bit W = true \/ traversed W = true \/ is_queue W = false -> pilot_ok W L ts.
Proof. destruct W as [|a [] [] mu]; cbn; intuition congruence. Qed.

Lemma untouched_refl m L C p : untouched m m L C p.
Proof. intros a b Hb. by left. Qed.

Lemma same_frame_refl m (E : gmap nat (keyed * Z * bool)) L C ts t p p' : tokens_ok m E L C ts -> ts !! t = Some p -> frame_of p' = frame_of p -> waits p' = waits p ->
  (forall w, waits p = Some w -> signalled m (E !! t) p' w <-> signalled m (E !! t) p w) ->
  (forall d key, calling d key p -> calling d key p') -> same_frame m m (E !! t) (E !! t) L C p p'.
Proof.
  intros HT Ht Hf Hw Hs Hc. split.
  - intros w Hq. rewrite Hf in Hq. destruct (tk_frame _ _ _ _ _ HT t p w Ht Hq) as [? ?]. by split_and!; [..|left].
  - intros w Hq. rewrite Hw in Hq. split; [done|by apply Hs].
  - intros w Hq Hn. congruence.
  - intros d key b _. split; [done|apply Hc].
Qed.

(** A step that changes nothing but where the thread is. *)
Lemma inv_unmoved g ts t p p' W L C : inv g ts W L C -> ts !! t = Some p ->
  holds_exclusive p' = holds_exclusive p -> holds_shared p' = holds_shared p -> holds_last p' = holds_last p -> traversing p' = traversing p ->
  frame_of p' = frame_of p -> waits p' = waits p ->
  (forall w, waits p = Some w -> signalled (frames g) (pending (kernel g) !! t) p' w <-> signalled (frames g) (pending (kernel g) !! t) p w) ->
  (forall d key, calling d key p -> calling d key p') -> p <> WakeForRelease (enc W) ->
  view (frames g) (pending (kernel g) !! t) W L (C t) p' -> inv g (<[t := p']> ts) W L C.
Proof.
  intros HI Ht Hx Hs Hl Htr Hf Hw Hsig Hc Hp Hv. eapply (inv_quiet g g); try done; try apply HI.
  - apply untouched_refl.
  - eapply same_frame_refl; try done. apply HI.
  - rewrite Hx, Hs, Hl. replace (tally holds_exclusive ts - holds_exclusive p + holds_exclusive p) with (tally holds_exclusive ts) by lia.
    replace (tally holds_shared ts - holds_shared p + holds_shared p) with (tally holds_shared ts) by lia.
    replace (tally holds_last ts - holds_last p + holds_last p) with (tally holds_last ts) by lia. apply HI.
  - rewrite Htr. lia.
  - intros t' q _. by apply (finding_multiple _ _ _ _ _ _ _ HI).
  - by eapply pilot_local; [..|apply HI].
Qed.

Lemma keeps_local g ts t p p' W L C : inv g ts W L C -> ts !! t = Some p ->
  holds_exclusive p' = holds_exclusive p -> holds_shared p' = holds_shared p -> holds_last p' = holds_last p -> traversing p' = traversing p ->
  frame_of p' = frame_of p -> waits p' = waits p ->
  (forall w, waits p = Some w -> signalled (frames g) (pending (kernel g) !! t) p' w <-> signalled (frames g) (pending (kernel g) !! t) p w) ->
  (forall d key, calling d key p -> calling d key p') -> p <> WakeForRelease (enc W) ->
  view (frames g) (pending (kernel g) !! t) W L (C t) p' -> step_ok ts t (Some (g, p')).
Proof. intros. exists g, p'. split; [done|]. exists W, L, C. by eapply (inv_unmoved g ts t p). Qed.

(** The compare-exchange of a well-formed old value. *)
Lemma cas_cases g W W0 n : Value g = enc W -> word_ok W -> word_ok W0 ->
  (W = W0 /\ cas g (enc W0) n = (set_value g n, true)) \/ cas g (enc W0) n = (g, false).
Proof.
  intros HV HW HW0. unfold cas. rewrite HV. destruct (Z.eqb_spec (enc W) (enc W0)) as [E|E]; [left|by right]. split; [by apply enc_inj|done].
Qed.

(** ** Acquiring and releasing the word *)

Lemma not_queued m (E : gmap nat (keyed * Z * bool)) L C ts t p w : tokens_ok m E L C ts -> ts !! t = Some p -> frame_of p = Some w -> waits p = None -> ~ queued L C w.
Proof.
  intros HT Ht Hf Hw Hq. destruct (tk_waiter _ _ _ _ _ HT w Hq) as (t' & q & Ht' & Hq').
  assert (t' = t) as -> by (eapply (tk_frames _ _ _ _ _ HT); [done..|by apply waits_frame|done]). congruence.
Qed.

(** A thread that is in no list: not traversing, not waking, not waiting, not an owner. *)
Record arriving p (w : Z) : Prop := {
  ar_frame : frame_of p = Some w;
  ar_waits : waits p = None;
  ar_weights : holds_exclusive p = 0 /\ holds_shared p = 0 /\ holds_last p = 0 /\ traversing p = 0;
  ar_calls : forall d key, ~ calling d key p;
}.

Lemma untouched_delete m (E : gmap nat (keyed * Z * bool)) L C ts t p w : tokens_ok m E L C ts -> ts !! t = Some p -> arriving p w -> untouched m (delete w m) L C p.
Proof.
  intros HT Ht [Hf Hw _ _] a b Hb. destruct (decide (a = w)) as [->|Hne]; [right|left; by rewrite lookup_delete_ne].
  split; [done|by eapply not_queued].
Qed.

Lemma inv_acquire g ts t p x w W W' L C : inv g ts W L C -> ts !! t = Some p -> arriving p w -> C t = [] ->
  word_ok W' -> owned_bit W' = true -> traversed W' = traversed W -> multiple W' = multiple W -> chain_ok (frames g) W' L ->
  owners_ok W' (tally holds_exclusive ts + holds_exclusive (Owner x)) (tally holds_shared ts + holds_shared (Owner x)) (tally holds_last ts) (SharedOwners (frames g !!! tail_of L)) ->
  step_ok ts t (Some (acquired (set_value g (enc W')) w, Owner x)).
Proof.
  intros HI Ht Ha HC HW' Ho Htr Hm Hc Hown. eexists _, _. split; [done|]. exists W', L, C. destruct (Ha) as [Hf Hw (Hw1 & Hw2 & Hw3 & Hw4) Hcalls].
  eapply (inv_quiet g); try done.
  - eapply untouched_delete; [by apply HI|done|done].
  - split; [done|done|congruence|]. intros d key b _. split; [done|]. intros Hd. by destruct (Hcalls d key).
  - rewrite Hw1, Hw2, Hw3, !Z.sub_0_r. replace (holds_last (Owner x)) with 0 by done. by rewrite Z.add_0_r.
  - rewrite Hw4, Htr. cbn. lia.
  - intros _ Ht'. split; congruence.
  - intros t' q _ Ht' Hq. rewrite Hm. by apply (finding_multiple _ _ _ _ _ _ _ HI Ht').
  - apply pilot_owned. by left.
Qed.

(** An exclusive acquisition of a word that is not owned. *)
Lemma acquire_exclusive g ts t p w W L C : inv g ts W L C -> ts !! t = Some p -> arriving p w -> C t = [] -> owned_bit W = false ->
  step_ok ts t (Some (acquired (set_value g (enc (own true W))) w, Owner true)).
Proof.
  intros HI Ht Ha HC Ho. pose proof (inv_owners _ _ _ _ _ HI) as Hown. pose proof (inv_chain _ _ _ _ _ HI) as Hch.
  eapply inv_acquire; try done.
  - apply own_ok, HI.
  - by destruct W.
  - by destruct W.
  - by destruct W.
  - by destruct W as [|a o tr mu].
  - destruct W as [o c|a o tr mu]; cbn [owned_bit] in Ho; subst o; cbn [own owners_ok holds_exclusive holds_shared] in *.
    + destruct Hown as (-> & -> & -> & ->). done.
    + destruct Hown as (-> & -> & -> & ->). done.
Qed.

Lemma shared_count g ts c o L C : inv g ts (Plain o c) L C -> 0 <= c < 2 ^ 31 - 1.
Proof.
  intros HI. pose proof (inv_owners _ _ _ _ _ HI) as Ho. pose proof (inv_bound _ _ _ _ _ HI).
  assert (0 <= tally holds_shared ts <= Z.of_nat (length ts)).
  { split; [apply tally_nonneg; apply weights_nonneg|]. apply tally_le. intros [ |[]| | | | | | | | | | | | | | | | | | | | | ]; cbn; lia. }
  destruct o; cbn [owners_ok] in Ho; [|lia]. destruct Ho as (_ & Hs & _). lia.
Qed.

Lemma acquire_shared g ts t p w o c L C : inv g ts (Plain o c) L C -> ts !! t = Some p -> arriving p w -> C t = [] -> o = false \/ 0 < c ->
  step_ok ts t (Some (acquired (set_value g (enc (Plain true (c + 1)))) w, Owner false)).
Proof.
  intros HI Ht Ha HC Ho. pose proof (inv_owners _ _ _ _ _ HI) as Hown. pose proof (shared_count _ _ _ _ _ _ HI).
  eapply inv_acquire; try done.
  - cbn. lia.
  - by apply (inv_chain _ _ _ _ _ HI).
  - cbn [owners_ok holds_exclusive holds_shared] in *. destruct o; cbn [owners_ok] in Hown.
    + destruct Ho as [Ho|Ho]; [done|]. destruct Hown as (-> & -> & ->). replace (c =? 0) with false by lia. replace (c + 1 =? 0) with false by lia. done.
    + destruct Hown as (-> & -> & -> & ->). done.
Qed.

Lemma set_value_same g : set_value g (Value g) = g.
Proof. by destruct g. Qed.

Lemma own_owned W : owned_bit W = true -> own true W = W.
Proof. destruct W; cbn; congruence. Qed.

Lemma view_of g ts W L C t p : inv g ts W L C -> ts !! t = Some p -> view (frames g) (pending (kernel g) !! t) W L (C t) p.
Proof. intros HI. apply (inv_views _ _ _ _ _ HI). Qed.

Lemma acquire_fast_ok g ts t x w W L C : inv g ts W L C -> ts !! t = Some (AcquireFast x w) -> step_ok ts t (Some (PhAcquireQueuedLock g x w)).
Proof.
  intros HI Ht. pose proof (view_of _ _ _ _ _ _ _ HI Ht) as HC. cbn [view] in HC. pose proof (inv_word _ _ _ _ _ HI) as HW.
  assert (Ha : arriving (AcquireFast x w) w) by (split; [done|done|done|intros [] key []]). unfold PhAcquireQueuedLock. destruct x.
  - rewrite (inv_value _ _ _ _ _ HI), has_owned, enc_setbit by done. destruct (owned_bit W) eqn:Ho.
    + rewrite own_owned, <- (inv_value _ _ _ _ _ HI), set_value_same by done. by eapply (keeps_local g ts t).
    + by eapply acquire_exclusive.
  - change 0 with (enc (Plain false 0)). destruct (cas_cases g W (Plain false 0) (Z.lor PH_QUEUED_LOCK_OWNED PH_QUEUED_LOCK_SHARED_INC)) as [[-> ->]| ->]; try done; try apply HI.
    + change (Z.lor PH_QUEUED_LOCK_OWNED PH_QUEUED_LOCK_SHARED_INC) with (enc (Plain true (0 + 1))). eapply acquire_shared; try done. by left.
    + by eapply (keeps_local g ts t).
Qed.

Lemma stale_value g ts W L C : inv g ts W L C -> stale (Value g).
Proof. intros HI. exists W. split; apply HI. Qed.

(** A failed exchange in the acquiring loops. *)
Lemma acquire_again g ts t x y w v W L C : inv g ts W L C -> ts !! t = Some (AcquireTry x w v) -> step_ok ts t (Some (g, AcquireTry y w (Value g))).
Proof.
  intros HI Ht. pose proof (view_of _ _ _ _ _ _ _ HI Ht) as [HC _]. eapply (keeps_local g ts t); try done. split; [done|by eapply stale_value].
Qed.

(** ** Starting to traverse *)

Lemma origin_start m a o mu L v wake : chain_ok m (Queue a o true mu) L -> block_ok a -> v = enc (Queue a (negb wake) true mu) -> (wake = true -> mu = false) ->
  exists S, L = a :: S /\ origin m (Queue a o true mu) L wake v a [] S.
Proof.
  intros Hc Ha Hv Hw. destruct (chain_queue _ _ _ _ _ _ Hc) as [S ->]. exists S. split; [done|]. destruct Hc as (_ & _ & _ & Hp & _).
  split; [done|done|done|by exists mu|done|by intros b ?%not_elem_of_nil|done].
Qed.

Lemma walk_start m a o mu L v wake : chain_ok m (Queue a o true mu) L -> block_ok a -> v = enc (Queue a (negb wake) true mu) -> (wake = true -> mu = false) ->
  traversal_ok m (Queue a o true mu) L [] (WalkLast wake v a a).
Proof.
  intros Hc Ha Hv Hw. destruct (origin_start m a o mu L v wake) as (S & -> & HO); try done.
  split; [done|]. exists [], S, [], S. split_and!; [done|done|by intros b ?%not_elem_of_nil|done].
Qed.

Lemma wake_start m a o L k : chain_ok m (Queue a o true false) L -> block_ok a ->
  exists tr, PhpPrepareToWakeQueuedLock (enc (Queue a o true false)) k = Some (Traverse tr k) /\ wake_test (enc (Queue a o true false)) k = Traverse tr k /\
    traversal_ok m (Queue a o true false) L [] tr.
Proof.
  intros Hc Ha. unfold PhpPrepareToWakeQueuedLock. rewrite has_multiple, has_traversing by done. cbn [negb orb].
  unfold wake_test. rewrite has_owned, get_block by done. cbn [owned_bit]. destruct o.
  - eexists. split_and!; [done|done|]. by split_and!; [..|exists a].
  - eexists. split_and!; [done|done|]. by eapply walk_start.
Qed.

Lemma optimize_start m a o mu L k : chain_ok m (Queue a o true mu) L -> block_ok a -> (o = false -> mu = false) ->
  exists tr, PhpOptimizeQueuedLockListEx (enc (Queue a o true mu)) k = Some (Traverse tr k) /\ traversal_ok m (Queue a o true mu) L [] tr.
Proof.
  intros Hc Ha Hm. unfold PhpOptimizeQueuedLockListEx. rewrite has_traversing, has_owned by done. cbn [negb owned_bit]. destruct o; cbn [negb].
  - rewrite get_block by done. eexists. split; [done|]. by eapply walk_start.
  - rewrite (Hm eq_refl) in *. destruct (wake_start m a false L k Hc Ha) as (tr & -> & _ & Htr). by exists tr.
Qed.

(** ** Pushing a wait block *)

(** Writing the thread's own frame before the push. *)
Lemma inv_private g ts t p w b W L C : inv g ts W L C -> ts !! t = Some p -> arriving p w -> C t = [] ->
  view (<[w := b]> (frames g)) (pending (kernel g) !! t) W L (C t) p -> inv (set_frames g (<[w := b]> (frames g))) ts W L C.
Proof.
  intros HI Ht Ha HC Hv. rewrite <- (list_insert_id ts t p Ht). destruct (Ha) as [Hf Hw _ Hcalls].
  destruct (tk_frame _ _ _ _ _ (inv_tokens _ _ _ _ _ HI) t p w Ht Hf) as [Hb Hs].
  eapply (inv_quiet g); try done; try apply HI.
  - intros a c Hc. destruct (decide (a = w)) as [->|Hne]; [right|left; cbn; by rewrite lookup_insert_ne]. split; [done|by eapply not_queued; [apply HI|..]].
  - split; [|congruence|congruence|done]. intros w' Hw'. rewrite Hf in Hw'. injection Hw' as <-. cbn. rewrite lookup_insert_eq. split_and!; [done|done|by left].
  - rewrite !Z.sub_add. apply HI.
  - lia.
  - intros t' q _. by apply (finding_multiple _ _ _ _ _ _ _ HI).
  - rewrite list_insert_id by done. apply HI.
Qed.

Lemma queued_push L C w a : queued (w :: L) C a <-> a = w \/ queued L C a.
Proof. unfold queued. set_solver. Qed.

Lemma tokens_push m (E : gmap nat (keyed * Z * bool)) L C ts t p p' w : tokens_ok m E L C ts -> ts !! t = Some p -> arriving p w -> C t = [] ->
  waits p' = Some w -> (forall x v, p' <> BlockKey x w v) -> spinning m w = true -> tokens_ok m E (w :: L) C (<[t := p']> ts).
Proof.
  intros HT Ht Ha HC Hw' Hk Hs. pose proof Ha as [Hf Hw _ Hcalls]. pose proof (not_queued _ _ _ _ _ _ _ _ HT Ht Hf Hw) as Hnq.
  assert (Hlt : (t < length ts)%nat) by (by eapply lookup_lt_Some).
  assert (Hf' : frame_of p' = Some w) by (by apply waits_frame).
  assert (Hfp : forall t' q w', <[t := p']> ts !! t' = Some q -> frame_of q = Some w' -> exists q', ts !! t' = Some q' /\ frame_of q' = Some w').
  { intros t' q w' [(-> & <- & _)|(Hne & Ht')]%list_lookup_insert_Some Hq; [exists p; split; [done|congruence]|by exists q]. }
  split; try apply HT.
  - constructor; [|apply HT]. intros Hl. apply Hnq. by left.
  - intros t' a Hc [->|Hl]%elem_of_cons; [|by apply (tk_apart _ _ _ _ _ HT t' a)]. apply Hnq. right. by exists t'.
  - intros t' Ht'. apply HT. apply lookup_ge_None. rewrite <- (length_insert ts t p'). by apply lookup_ge_None.
  - intros t' q w' Ht' Hq. destruct (Hfp _ _ _ Ht' Hq) as (q' & ? & ?). by eapply (tk_frame _ _ _ _ _ HT).
  - intros t1 t2 q1 q2 w' Ht1 Ht2 Hq1 Hq2. destruct (Hfp _ _ _ Ht1 Hq1) as (q1' & ? & ?), (Hfp _ _ _ Ht2 Hq2) as (q2' & ? & ?).
    by apply (tk_frames _ _ _ _ _ HT t1 t2 q1' q2' w').
  - intros a [->|Ha']%queued_push; [exists t, p'; split; [by apply list_lookup_insert_eq|done]|].
    destruct (tk_waiter _ _ _ _ _ HT a Ha') as (t' & q & Ht' & Hq). destruct (decide (t' = t)) as [->|Hne]; [congruence|]. exists t', q. by rewrite list_lookup_insert_ne.
  - intros t' q w' [(-> & <- & _)|(Hne & Ht')]%list_lookup_insert_Some Hq; rewrite queued_push.
    + assert (w' = w) as -> by congruence. split; [|intros Hn; destruct Hn; by left]. unfold signalled. destruct p'; try congruence.
      cbn in Hq. injection Hq as ->. by destruct (Hk exclusive value).
    + rewrite (tk_signal _ _ _ _ _ HT t' q w' Ht' Hq). assert (w' <> w); [|tauto]. intros ->. destruct Hne. apply waits_frame in Hq.
      symmetry. by apply (tk_frames _ _ _ _ _ HT t' t q p w).
  - intros t' d key b Hb. apply (calls_insert E ts t p p'); [by apply (tk_call _ _ _ _ _ HT t' d key b)|done|]. intros _ Hd. by destruct (Hcalls d key).
Qed.

Lemma inv_push g ts t p p' w W W' L C : inv g ts W L C -> ts !! t = Some p -> arriving p w -> C t = [] ->
  waits p' = Some w -> (forall x v, p' <> BlockKey x w v) -> spinning (frames g) w = true -> word_ok W' ->
  chain_ok (frames g) W' (w :: L) ->
  owners_ok W' (tally holds_exclusive ts + holds_exclusive p') (tally holds_shared ts + holds_shared p') (tally holds_last ts + holds_last p')
    (SharedOwners (frames g !!! tail_of (w :: L))) ->
  Z.b2z (traversed W) + traversing p' = Z.b2z (traversed W') -> (traversed W' = true \/ owned_bit W' = true) ->
  (is_queue W = true -> multiple W' = multiple W /\ Last (frames g !!! w) = 0) ->
  view (frames g) (pending (kernel g) !! t) W' (w :: L) (C t) p' ->
  inv (set_value g (enc W')) (<[t := p']> ts) W' (w :: L) C.
Proof.
  intros HI Ht Ha HC Hw' Hk Hs HW' Hc Ho Htr Hpi Hq Hv. pose proof (inv_tokens _ _ _ _ _ HI) as HT. destruct (Ha) as [Hf Hw (Hw1 & Hw2 & Hw3 & Hw4) Hcalls].
  split; cbn [Value frames kernel set_value].
  - done.
  - done.
  - done.
  - rewrite !(tally_insert _ _ _ _ _ Ht), Hw1, Hw2, Hw3, !Z.sub_0_r. done.
  - rewrite (tally_insert _ _ _ _ _ Ht), (inv_traverser _ _ _ _ _ HI), Hw4. lia.
  - by eapply tokens_push.
  - intros t' q [(-> & <- & _)|(Hne & Ht')]%list_lookup_insert_Some; [done|].
    eapply view_stable; [by apply (inv_views _ _ _ _ _ HI)|done|done| |].
    + intros Hq1. assert (Htw : traversed W = true).
      { pose proof (tally_lookup traversing ltac:(apply weights_nonneg) ts t' q Ht') as Hle. rewrite (inv_traverser _ _ _ _ _ HI) in Hle. destruct (traversed W); [done|cbn [Z.b2z] in Hle; lia]. }
      destruct Hq as [Hmu Hl]; [by destruct W|]. split; [exists [w]; split; [done|]|done| |congruence].
      * by intros a ->%list_elem_of_singleton.
      * rewrite Htw in Htr. destruct (weights_nonneg p') as (_ & _ & _ & ?). destruct (traversed W'); [done|cbn [Z.b2z] in Htr; lia].
    + intros Hq1. pose proof (finding_multiple _ _ _ _ _ _ _ HI Ht' Hq1) as Hmu. destruct Hq as [Hmu' _]; [by destruct W|].
      split_and!; [congruence|set_solver|]. destruct L as [|a L]; [|apply tail_of_cons]. by destruct (queue_chain _ _ _ _ _ HI); destruct W.
  - apply pilot_owned. tauto.
  - rewrite length_insert. apply HI.
Qed.

Lemma wait_block_fields v x w b : Previous (wait_block v x w b) = 0 /\ Z.testbit (Flags (wait_block v x w b)) PH_QUEUED_WAITER_SPINNING_SHIFT = true.
Proof. unfold wait_block. destruct (has v PH_QUEUED_LOCK_WAITERS), x; done. Qed.

Lemma chain_push m w a o t mu t' L : chain_ok m (Queue a o t mu) L -> Next (m !!! w) = a -> Previous (m !!! w) = 0 -> Last (m !!! w) = 0 -> chain_ok m (Queue w o t' mu) (w :: L).
Proof.
  intros Hc Hn Hp Hl. destruct (chain_queue _ _ _ _ _ _ Hc) as [L' ->]. destruct Hc as (_ & Hnx & Ho & _ & Hm). split_and!.
  - done.
  - by split.
  - right. by split.
  - done.
  - intros Hmu. destruct (Hm Hmu) as [Ht Hb]. rewrite tail_of_cons. split; [done|]. intros b [->|Hb']%elem_of_cons; [by left|by apply Hb].
Qed.

Lemma owners_traversed a o t mu a' t' x s r n : owners_ok (Queue a o t mu) x s r n -> owners_ok (Queue a' o t' mu) x s r n.
Proof. by destruct o, mu. Qed.

Lemma owners_unowned a t mu x s r n : owners_ok (Queue a false t mu) x s r n -> mu = false.
Proof. by intros []. Qed.

Lemma push_queue_ok g ts t x w a o tr mu L C : inv g ts (Queue a o tr mu) L C -> ts !! t = Some (AcquireTry x w (enc (Queue a o tr mu))) ->
  Next (frames g !!! w) = a -> Previous (frames g !!! w) = 0 -> Last (frames g !!! w) = 0 -> spinning (frames g) w = true ->
  exists p', (if push_optimize (enc (Queue a o tr mu)) then PhpOptimizeQueuedLockListEx (enc (Queue w o true mu)) (ToBlock x w (enc (Queue a o tr mu)))
         else Some (BlockSpin x w (enc (Queue a o tr mu)) SpinCount)) = Some p' /\
    keeps (set_value g (enc (Queue w o true mu))) (<[t := p']> ts).
Proof.
  intros HI Ht Hn Hp Hl Hs. pose proof (inv_word _ _ _ _ _ HI) as Ha. cbn in Ha. pose proof (inv_owners _ _ _ _ _ HI) as Ho.
  destruct (view_of _ _ _ _ _ _ _ HI Ht) as [HC Hst].
  assert (Har : arriving (AcquireTry x w (enc (Queue a o tr mu))) w) by (split; [done|done|done|intros [] key []]).
  destruct (tk_frame _ _ _ _ _ (inv_tokens _ _ _ _ _ HI) t _ w Ht eq_refl) as [Hb _].
  pose proof (chain_push _ w a o tr mu true L (inv_chain _ _ _ _ _ HI) Hn Hp Hl) as Hc.
  assert (Htl : tail_of (w :: L) = tail_of L) by (destruct (chain_queue _ _ _ _ _ _ (inv_chain _ _ _ _ _ HI)) as [L' ->]; apply tail_of_cons).
  unfold push_optimize. rewrite has_waiters, has_traversing by done. cbn [is_queue andb]. destruct tr; cbn [negb].
  - eexists. split; [done|]. exists (Queue w o true mu), (w :: L), C. eapply inv_push; try done; rewrite ?Z.add_0_r, ?Htl.
    + by eapply owners_traversed.
    + by left.
  - destruct (optimize_start _ w o mu (w :: L) (ToBlock x w (enc (Queue a o false mu))) Hc Hb) as (tr & -> & Htr); [intros ->; by eapply owners_unowned|].
    eexists. split; [done|]. exists (Queue w o true mu), (w :: L), C. eapply inv_push; try done; rewrite ?Z.add_0_r, ?Htl.
    + by eapply owners_traversed.
    + by left.
    + split; [by rewrite HC|done].
Qed.

Lemma push_plain_ok g ts t x w c L C : inv g ts (Plain true c) L C -> ts !! t = Some (AcquireTry x w (enc (Plain true c))) -> x = true \/ c = 0 ->
  Previous (frames g !!! w) = 0 -> Last (frames g !!! w) = w -> SharedOwners (frames g !!! w) = c -> spinning (frames g) w = true ->
  keeps (set_value g (enc (Queue w true false (x && (1 <? c))))) (<[t := BlockSpin x w (enc (Plain true c)) SpinCount]> ts).
Proof.
  intros HI Ht Hx Hp Hl Hn Hs. pose proof (inv_owners _ _ _ _ _ HI) as Ho. pose proof (inv_chain _ _ _ _ _ HI) as HL. cbn in HL. subst L.
  destruct (view_of _ _ _ _ _ _ _ HI Ht) as [HC Hst].
  assert (Har : arriving (AcquireTry x w (enc (Plain true c))) w) by (split; [done|done|done|intros [] key []]).
  destruct (tk_frame _ _ _ _ _ (inv_tokens _ _ _ _ _ HI) t _ w Ht eq_refl) as [Hb _]. pose proof (shared_count _ _ _ _ _ _ HI) as Hcount.
  exists (Queue w true false (x && (1 <? c))), [w], C. eapply inv_push; try done; rewrite ?Z.add_0_r.
  - split_and!; [done|done|by left|done|]. intros _. split; [done|]. intros b ->%list_elem_of_singleton. by right.
  - change (tail_of [w]) with w. rewrite Hn. cbn [owners_ok] in Ho. destruct Ho as (-> & -> & ->). destruct (x && (1 <? c)) eqn:E; cbn [owners_ok].
    + to_prop. replace (c =? 0) with false by lia. done.
    + assert (c = 0 \/ c = 1) as [-> | ->]; [|done..]. destruct x; cbn [andb] in E; to_prop; lia.
  - by right.
Qed.

Lemma push_ok g ts t x w W0 W L C : inv g ts W L C -> ts !! t = Some (AcquireTry x w (enc W0)) -> word_ok W0 ->
  match W0 with Plain o c => o = true /\ (x = true \/ c = 0) | Queue _ _ _ _ => True end ->
  step_ok ts t (PhpPushQueuedWaitBlock SpinCount g x w (enc W0)).
Proof.
  intros HI Ht HW0 Hx. destruct (view_of _ _ _ _ _ _ _ HI Ht) as [HC Hst].
  destruct (tk_frame _ _ _ _ _ (inv_tokens _ _ _ _ _ HI) t _ w Ht eq_refl) as [Hb [b Hfb]].
  assert (Har : arriving (AcquireTry x w (enc W0)) w) by (split; [done|done|done|intros [] key []]).
  unfold PhpPushQueuedWaitBlock, update. rewrite Hfb. cbn [mbind option_bind].
  destruct (wait_block_fields (enc W0) x w b) as [Hp Hs]. set (b1 := wait_block (enc W0) x w b) in *. set (g1 := set_frames g (<[w := b1]> (frames g))).
  assert (HI1 : inv g1 ts W L C) by (by eapply inv_private).
  assert (Hw1 : frames g1 !!! w = b1) by (cbn; by rewrite lookup_total_insert_eq).
  destruct (cas_cases g1 W W0 (push_value (enc W0) x w)) as [[-> ->]| ->]; [apply HI|apply HI|done| |by eapply acquire_again].
  destruct W0 as [o c|a o tr mu].
  - destruct Hx as [-> Hx]. unfold push_optimize. rewrite has_waiters by done. cbn [is_queue andb mbind option_bind].
    rewrite push_plain by first [done | apply HW0]. eexists _, _. split; [done|]. eapply push_plain_ok; try done; rewrite ?Hw1; unfold spinning; rewrite ?Hw1; try done.
    + unfold b1, wait_block. by rewrite has_waiters by done.
    + unfold b1, wait_block. rewrite has_waiters, get_owners by done. cbn [is_queue SharedOwners]. destruct HW0 as [Hc _]. destruct x; [|by destruct Hx].
      apply u32_id. unfold in_width. lia.
  - assert (Hfields : Next b1 = a /\ Last b1 = 0) by (unfold b1, wait_block; rewrite has_waiters, get_block by done; done). destruct Hfields as [Hn Hl].
    rewrite push_queue by done. destruct (push_queue_ok g1 ts t x w a o tr mu L C) as (p' & -> & Hk); [done|done|by rewrite Hw1..|unfold spinning; by rewrite Hw1|].
    cbn [mbind option_bind]. by eexists _, _.
Qed.

Lemma acquire_try_ok g ts t x w v W L C : inv g ts W L C -> ts !! t = Some (AcquireTry x w v) ->
  step_ok ts t (if x then PhfAcquireQueuedLockExclusive SpinCount g w v else PhfAcquireQueuedLockShared SpinCount g w v).
Proof.
  intros HI Ht. destruct (view_of _ _ _ _ _ _ _ HI Ht) as [HC (W0 & HW0 & ->)].
  assert (Har : arriving (AcquireTry x w (enc W0)) w) by (split; [done|done|done|intros [] key []]). destruct x.
  - unfold PhfAcquireQueuedLockExclusive. rewrite has_owned by done. destruct (owned_bit W0) eqn:Ho; cbn [negb].
    + eapply push_ok; try done. destruct W0; [|done]. split; [done|by left].
    + rewrite enc_own by done. destruct (cas_cases g W W0 (enc (own true W0))) as [[-> ->]| ->]; try done; try apply HI; [by eapply acquire_exclusive|by eapply acquire_again].
  - unfold PhfAcquireQueuedLockShared. rewrite has_waiters, has_owned by done. destruct W0 as [o c|a o tr mu]; cbn [is_queue negb andb owned_bit]; [|by eapply push_ok].
    rewrite get_owners. destruct (negb o || (0 <? c)) eqn:E.
    + destruct (cas_cases g W (Plain o c) (Z.lor (enc (Plain o c) +₆₄ PH_QUEUED_LOCK_SHARED_INC) PH_QUEUED_LOCK_OWNED)) as [[-> ->]| ->]; try done; try apply HI; [|by eapply acquire_again].
      pose proof (shared_count _ _ _ _ _ _ HI). rewrite enc_share by first [done | apply HW0]. eapply acquire_shared; try done. destruct o; to_prop; [right|by left]. destruct E; to_prop; [done|lia].
    + eapply push_ok; try done. to_prop. destruct o; [|done]. split; [done|right]. destruct HW0. lia.
Qed.

(** ** The walk *)

Lemma queued_frame m (E : gmap nat (keyed * Z * bool)) L C ts a : tokens_ok m E L C ts -> queued L C a -> block_ok a /\ exists b, m !! a = Some b.
Proof. intros HT Ha. destruct (tk_waiter _ _ _ _ _ HT a Ha) as (t & p & Ht & Hw%waits_frame). by destruct (tk_frame _ _ _ _ _ HT t p a Ht Hw) as [? [b ?]]; eauto. Qed.

Lemma block_frame g ts W L C a : inv g ts W L C -> a ∈ L -> block_ok a /\ exists b, frames g !! a = Some b /\ frames g !!! a = b.
Proof.
  intros HI Ha. destruct (queued_frame _ _ _ _ _ a (inv_tokens _ _ _ _ _ HI)) as [Hb [b Hf]]; [by left|]. split; [done|]. exists b. split; [done|]. by apply lookup_total_correct.
Qed.

Lemma tail_nonzero g ts W L C : inv g ts W L C -> L <> [] -> tail_of L <> 0.
Proof. intros HI HL. destruct (block_frame _ _ _ _ _ _ HI (tail_of_elem L HL)) as [[_ ?] _]. lia. Qed.

Lemma traversal_step g ts t tr tr' k W L C : inv g ts W L C -> ts !! t = Some (Traverse tr k) -> traversal_ok (frames g) W L (C t) tr' ->
  step_ok ts t (Some (g, Traverse tr' k)).
Proof.
  intros HI Ht Htr. destruct (view_of _ _ _ _ _ _ _ HI Ht) as [_ Hk]. eapply (keeps_local g ts t); try done.
Qed.

Lemma chain_origin g ts W L C wake v f A S : inv g ts W L C -> origin (frames g) W L wake v f A S -> optimized (frames g) L /\ nexts (frames g) L /\ L <> [].
Proof.
  intros HI HO. pose proof (or_traversed _ _ _ _ _ _ _ _ HO) as Ht. pose proof (inv_chain _ _ _ _ _ HI) as Hc. destruct W as [|a o tr mu]; [done|].
  split_and!; [apply Hc..|]. by eapply chain_nonempty.
Qed.

Lemma walk_last_ok g ts t wake v f a k W L C : inv g ts W L C -> ts !! t = Some (Traverse (WalkLast wake v f a) k) ->
  step_ok ts t (traverse SpinCount g (WalkLast wake v f a) k).
Proof.
  intros HI Ht. destruct (view_of _ _ _ _ _ _ _ HI Ht) as [(HC & A & S & U & R & HO & HE & HU & Hp) Hk].
  destruct (chain_origin _ _ _ _ _ _ _ _ _ _ HI HO) as (Hopt & Hn & HL). pose proof (tail_nonzero _ _ _ _ _ HI HL) as Htl.
  pose proof (or_chain _ _ _ _ _ _ _ _ HO) as EL. rewrite HE in EL. rewrite app_assoc in EL. rewrite EL in Hopt, Htl.
  destruct (block_frame _ _ _ _ _ a HI) as (_ & b & Hb & Hbt); [rewrite EL; set_solver|].
  cbn [traverse]. unfold read. rewrite Hb. cbn [mbind option_bind]. eapply traversal_step; try done.
  apply optimized_drop in Hopt; [|done|].
  2: { intros x [Hx|Hx]%elem_of_app; [by apply (or_fresh _ _ _ _ _ _ _ _ HO)|by apply HU]. }
  rewrite tail_of_app in Htl. rewrite <- Hbt. destruct (Z.eqb_spec (Last (frames g !!! a)) 0) as [Hl|Hl].
  - destruct (optimized_on _ _ _ Hl Htl Hopt) as (b' & R' & ->). split; [done|]. exists A, S, U, b', R'. split_and!; [done..| |done].
    intros u [Hu|Hu%list_elem_of_singleton]%elem_of_app; [by apply HU|by subst u].
  - destruct (optimized_here _ _ _ Hl Hopt) as [-> Hpr]. assert (Hpf : prevs (frames g) (f :: S)) by (rewrite HE; by apply prevs_join).
    assert (Et : tail_of (a :: R) = tail_of L) by (by rewrite EL, tail_of_app).
    destruct wake; (split; [done|]); exists A, S; split_and!; done.
Qed.

Lemma walk_next_ok g ts t wake v f a k W L C : inv g ts W L C -> ts !! t = Some (Traverse (WalkNext wake v f a) k) ->
  step_ok ts t (traverse SpinCount g (WalkNext wake v f a) k).
Proof.
  intros HI Ht. destruct (view_of _ _ _ _ _ _ _ HI Ht) as [(HC & A & S & U & b & R & HO & HE & HU & Hp) Hk].
  destruct (chain_origin _ _ _ _ _ _ _ _ _ _ HI HO) as (_ & Hn & HL). pose proof (or_chain _ _ _ _ _ _ _ _ HO) as EL. rewrite HE, app_assoc in EL.
  destruct (block_frame _ _ _ _ _ a HI) as (_ & c & Hb & Hbt); [rewrite EL; set_solver|].
  cbn [traverse]. unfold read. rewrite Hb. cbn [mbind option_bind]. eapply traversal_step; try done.
  rewrite EL in Hn. apply nexts_inner in Hn. rewrite <- Hbt, Hn. split; [done|]. by exists A, S, U, R.
Qed.

Lemma wake_flags_ok g ts t v f a k W L C : inv g ts W L C -> ts !! t = Some (Traverse (WakeFlags v f a) k) ->
  step_ok ts t (traverse SpinCount g (WakeFlags v f a) k).
Proof.
  intros HI Ht. destruct (view_of _ _ _ _ _ _ _ HI Ht) as [(HC & A & S & HO & Ea & Hp) Hk].
  destruct (chain_origin _ _ _ _ _ _ _ _ _ _ HI HO) as (_ & _ & HL). destruct (block_frame _ _ _ _ _ a HI) as (_ & b & Hb & _); [rewrite Ea; by apply tail_of_elem|].
  cbn [traverse]. unfold read. rewrite Hb. cbn [mbind option_bind]. eapply traversal_step; try done.
  destruct (has (Flags b) PH_QUEUED_WAITER_EXCLUSIVE); (split; [done|]); [by exists A, S|by exists f, A, S].
Qed.

Lemma wake_previous_ok g ts t v f a k W L C : inv g ts W L C -> ts !! t = Some (Traverse (WakePrevious v f a) k) ->
  step_ok ts t (traverse SpinCount g (WakePrevious v f a) k).
Proof.
  intros HI Ht. destruct (view_of _ _ _ _ _ _ _ HI Ht) as [(HC & A & S & HO & Ea & Hp) Hk].
  destruct (chain_origin _ _ _ _ _ _ _ _ _ _ HI HO) as (_ & _ & HL). destruct (block_frame _ _ _ _ _ a HI) as (_ & b & Hb & Hbt); [rewrite Ea; by apply tail_of_elem|].
  cbn [traverse]. unfold read. rewrite Hb. cbn [mbind option_bind]. eapply traversal_step; try done.
  rewrite <- Hbt. destruct (Z.eqb_spec (Previous (frames g !!! a)) 0) as [Hz|Hz]; (split; [done|]); [by exists f, A, S|].
  rewrite (or_chain _ _ _ _ _ _ _ _ HO), tail_of_app in Ea. destruct S as [|x S _] using rev_ind.
  - change (a = f) in Ea. subst a. destruct Hz. apply (or_first _ _ _ _ _ _ _ _ HO).
  - rewrite app_comm_cons, tail_of_snoc in Ea. subst x. exists A, S, v. split; [done|].
    destruct (last (f :: S)) as [y|] eqn:El; [|by apply last_None in El]. split; [|done]. f_equal. rewrite app_comm_cons in Hp.
    apply last_Some in El as [S' El]. rewrite El, <- app_assoc in Hp. by apply prevs_inner in Hp.
Qed.

(** ** Writes of the traverser *)

(** Tokens depend on which frames there are, and on the flags in them. *)
Lemma tokens_signals m m' (E : gmap nat (keyed * Z * bool)) L C ts : tokens_ok m E L C ts -> (forall a, is_Some (m !! a) -> is_Some (m' !! a)) ->
  (forall t p w, ts !! t = Some p -> waits p = Some w -> signalled m' (E !! t) p w <-> signalled m (E !! t) p w) -> tokens_ok m' E L C ts.
Proof.
  intros HT Hd Hs. split; try apply HT.
  - intros t p w Ht Hf. destruct (tk_frame _ _ _ _ _ HT t p w Ht Hf) as [? ?]. by split; [|apply Hd].
  - intros t p w Ht Hf. rewrite <- (tk_signal _ _ _ _ _ HT t p w Ht Hf). by apply Hs.
Qed.

Lemma tokens_flags m m' (E : gmap nat (keyed * Z * bool)) L C ts : tokens_ok m E L C ts -> (forall a, is_Some (m !! a) -> is_Some (m' !! a)) ->
  (forall a, spinning m' a = spinning m a) -> tokens_ok m' E L C ts.
Proof. intros HT Hd Hs. eapply tokens_signals; [done|done|]. intros t p w _ _. unfold signalled. destruct p; by rewrite ?Hs. Qed.

Definition same_waiters m m' : Prop := (forall a, is_Some (m !! a) -> is_Some (m' !! a)) /\ (forall a, spinning m' a = spinning m a).

Lemma same_waiters_insert m a b b' : m !! a = Some b -> Flags b' = Flags b -> same_waiters m (<[a := b']> m).
Proof.
  intros Hb Hf. split.
  - intros x Hx. destruct (decide (x = a)) as [->|]; [by rewrite lookup_insert_eq|by rewrite lookup_insert_ne].
  - intros x. unfold spinning. destruct (decide (x = a)) as [->|]; [|by rewrite lookup_total_insert_ne].
    rewrite lookup_total_insert_eq, Hf. by rewrite (lookup_total_correct _ _ _ Hb).
Qed.

(** Only the traverser looks at the links of the chain, and a waker at those of its own blocks. *)
Lemma only_traverser g ts W L C t p t' q : inv g ts W L C -> ts !! t = Some p -> traversing p = 1 -> t' <> t -> ts !! t' = Some q -> traversing q <> 1.
Proof.
  intros HI Ht Hp Hne Ht' Hq. pose proof (tally_two traversing ltac:(apply weights_nonneg) ts t t' p q ltac:(done) Ht Ht') as Hle.
  rewrite (inv_traverser _ _ _ _ _ HI), Hp, Hq in Hle. destruct (traversed W); cbn in Hle; lia.
Qed.

Lemma inv_write g ts t tr tr' k a b b' W L C : inv g ts W L C -> ts !! t = Some (Traverse tr k) -> a ∈ L \/ a ∈ C t ->
  frames g !! a = Some b -> Flags b' = Flags b -> SharedOwners b' = SharedOwners b ->
  chain_ok (<[a := b']> (frames g)) W L -> traversal_ok (<[a := b']> (frames g)) W L (C t) tr' ->
  step_ok ts t (Some (set_frames g (<[a := b']> (frames g)), Traverse tr' k)).
Proof.
  intros HI Ht Ha Hb Hf Hs Hc Htr. destruct (view_of _ _ _ _ _ _ _ HI Ht) as [_ Hk]. eexists _, _. split; [done|]. exists W, L, C.
  pose proof (inv_tokens _ _ _ _ _ HI) as HT. destruct (same_waiters_insert (frames g) a b b' Hb Hf) as [Hd Hsp].
  split; cbn [Value frames kernel set_frames].
  - apply HI.
  - apply HI.
  - done.
  - rewrite !(tally_insert _ _ _ _ _ Ht). cbn. rewrite !Z.sub_0_r, !Z.add_0_r. eapply owners_count; [|apply HI]. intros _.
    destruct (decide (tail_of L = a)) as [->|]; [|by rewrite lookup_total_insert_ne]. by rewrite lookup_total_insert_eq, Hs, (lookup_total_correct _ _ _ Hb).
  - rewrite (tally_insert _ _ _ _ _ Ht), (inv_traverser _ _ _ _ _ HI). cbn. lia.
  - eapply tokens_flags; [|done|done]. eapply tokens_quiet; [done|done|apply untouched_refl| |done]. by eapply same_frame_refl.
  - intros t' q [(-> & <- & _)|(Hne & Ht')]%list_lookup_insert_Some; [by split|].
    eapply view_stable; [by apply (inv_views _ _ _ _ _ HI)| |intros; by rewrite Hsp| |].
    + intros x Hx. rewrite Hsp. split; [|done]. rewrite lookup_total_insert_ne; [done|]. intros ->. destruct Ha as [Ha|Ha]; [by apply (tk_apart _ _ _ _ _ HT t' x)|].
      destruct Hne. symmetry. by apply (tk_one _ _ _ _ _ HT t' t x).
    + intros Hq. by destruct (only_traverser _ _ _ _ _ _ _ _ _ HI Ht eq_refl ltac:(done) Ht').
    + intros Hq. split_and!; [|done|done]. by apply (finding_multiple _ _ _ _ _ _ _ HI Ht').
  - eapply pilot_local; [done|done|done|apply HI].
  - rewrite length_insert. apply HI.
Qed.

Lemma update_insert g a b f : frames g !! a = Some b -> update g a f = Some (set_frames g (<[a := f b]> (frames g))).
Proof. intros Hb. unfold update. by rewrite Hb. Qed.

Lemma prevs_tail m m' a S : (forall x, x ∈ S -> Previous (m' !!! x) = Previous (m !!! x)) -> prevs m (a :: S) -> prevs m' (a :: S).
Proof. destruct S as [|b S]; [done|]. intros HE [Ha Hp]. split; [by rewrite HE by (by left)|]. by eapply prevs_ext. Qed.

Lemma optimized_tail m m' a S : (forall x, x ∈ a :: S -> Last (m' !!! x) = Last (m !!! x)) -> (forall x, x ∈ S -> Previous (m' !!! x) = Previous (m !!! x)) ->
  optimized m (a :: S) -> optimized m' (a :: S).
Proof.
  intros Hl Hp Ho. cbn [optimized] in *. rewrite (Hl a) by (by left). destruct Ho as [[? Hpr]|[? Ho]]; [left|right]; (split; [done|]).
  - by eapply prevs_tail.
  - eapply optimized_ext; [|done]. intros x Hx. split; [by apply Hp|]. apply Hl. by right.
Qed.

Lemma insert_links m a b b' x : m !! a = Some b -> (x = a -> Previous b' = Previous b) -> Previous ((<[a := b']> m) !!! x) = Previous (m !!! x).
Proof. intros Hb Hp. destruct (decide (x = a)) as [->|]; [|by rewrite lookup_total_insert_ne]. rewrite lookup_total_insert_eq, (lookup_total_correct _ _ _ Hb). by apply Hp. Qed.

Lemma insert_last m a b b' x : m !! a = Some b -> (x = a -> Last b' = Last b) -> Last ((<[a := b']> m) !!! x) = Last (m !!! x).
Proof. intros Hb Hp. destruct (decide (x = a)) as [->|]; [|by rewrite lookup_total_insert_ne]. rewrite lookup_total_insert_eq, (lookup_total_correct _ _ _ Hb). by apply Hp. Qed.

Lemma insert_next m a b b' x : m !! a = Some b -> Next b' = Next b -> Next (<[a := b']> m !!! x) = Next (m !!! x).
Proof. intros Hb Hp. destruct (decide (x = a)) as [->|]; [|by rewrite lookup_total_insert_ne]. by rewrite lookup_total_insert_eq, (lookup_total_correct _ _ _ Hb). Qed.

(** Completing one Previous link below blocks that are not optimized. *)
Lemma chain_set_previous m W L X a b c R : chain_ok m W L -> NoDup L -> L = X ++ a :: b :: R -> (forall x, x ∈ X ++ [a] -> Last (m !!! x) = 0) -> tail_of L <> 0 ->
  m !! b = Some c -> chain_ok (<[b := set_Previous c a]> m) W L.
Proof.
  intros Hc Hnd EL HX Htl Hb. destruct W as [|x o tr mu]; [cbn in *; congruence|]. destruct Hc as (Hh & Hn & Ho & Hp & Hm).
  assert (Hfresh : b ∉ X ++ [a] /\ b ∉ R).
  { subst L. replace (X ++ a :: b :: R) with ((X ++ [a]) ++ b :: R) in Hnd by (by rewrite <- app_assoc). apply NoDup_app in Hnd as (_ & Hx & Hr). split; [|by apply NoDup_cons in Hr as [? _]].
    intros Hb'. apply (Hx b Hb'). by left. }
  destruct Hfresh as [HbX HbR]. assert (HL : forall y, Last (<[b := set_Previous c a]> m !!! y) = Last (m !!! y)) by (intros y; by apply (insert_last m b c)).
  split_and!.
  - done.
  - eapply nexts_ext; [|done]. intros y _. by apply (insert_next m b c).
  - subst L. replace (X ++ a :: b :: R) with ((X ++ [a]) ++ b :: R) in * by (by rewrite <- app_assoc). apply optimized_fresh.
    + intros y Hy. rewrite HL. by apply HX.
    + apply optimized_drop in Ho; [|done|done]. eapply optimized_tail; [|by intros y Hy; apply (insert_links m b c); [done|intros ->]|done]. intros y _. apply HL.
  - rewrite (insert_links m b c) by (try done; intros ->; destruct HbX; subst L; destruct X as [|y X]; cbn in Hh; injection Hh as ->; set_solver). done.
  - intros Hmu. destruct (Hm Hmu) as [Ht Hl]. split; [by rewrite HL|]. intros y Hy. rewrite HL. by apply Hl.
Qed.

Lemma walk_previous_ok g ts t wake v f a b k W L C : inv g ts W L C -> ts !! t = Some (Traverse (WalkPrevious wake v f a b) k) ->
  step_ok ts t (traverse SpinCount g (WalkPrevious wake v f a b) k).
Proof.
  intros HI Ht. destruct (view_of _ _ _ _ _ _ _ HI Ht) as [(HC & A & S & U & R & HO & HE & HU & Hp) Hk].
  destruct (chain_origin _ _ _ _ _ _ _ _ _ _ HI HO) as (_ & _ & HL). pose proof (or_chain _ _ _ _ _ _ _ _ HO) as EL. rewrite HE in EL.
  destruct (block_frame _ _ _ _ _ b HI) as (_ & c & Hb & Hbt); [rewrite EL; set_solver|].
  pose proof (tk_chain _ _ _ _ _ (inv_tokens _ _ _ _ _ HI)) as Hnd.
  cbn [traverse]. rewrite (update_insert _ _ _ _ Hb). cbn [mbind option_bind]. eapply inv_write; try done.
  - left. rewrite EL. set_solver.
  - rewrite app_assoc in EL. eapply chain_set_previous; [apply HI|done|done| |by eapply tail_nonzero|done].
    intros x [[Hx|Hx]%elem_of_app|Hx]%elem_of_app; [by apply (or_fresh _ _ _ _ _ _ _ _ HO)|apply HU; set_solver..].
  - assert (HbU : b ∉ U ++ [a]).
    { rewrite EL in Hnd. apply NoDup_app in Hnd as (_ & _ & Hnd). replace (U ++ a :: b :: R) with ((U ++ [a]) ++ b :: R) in Hnd by (by rewrite <- app_assoc).
      apply NoDup_app in Hnd as (_ & Hx & _). intros Hb'. apply (Hx b Hb'). by left. }
    assert (HL' : forall y, Last (<[b := set_Previous c a]> (frames g) !!! y) = Last (frames g !!! y)) by (intros y; by apply (insert_last (frames g) b c)).
    split; [done|]. exists A, S, (U ++ [a]), R. split_and!.
    + destruct HO as [Ht0 Hm0 Hb0 Hv0 HL0 Hf0 Hp0]. split; try done.
      * intros y Hy. rewrite HL'. by apply Hf0.
      * rewrite (insert_links (frames g) b c); [done|done|]. intros ->. destruct HbU. destruct U as [|u U]; injection HE as -> _; set_solver.
    + by rewrite HE, <- app_assoc.
    + intros y Hy. rewrite HL'. by apply HU.
    + rewrite <- app_assoc. apply prevs_join; [|cbn; split; [by rewrite lookup_total_insert_eq|done]].
      eapply prevs_ext; [|done]. intros y Hy. apply (insert_links (frames g) b c); [done|]. by intros ->.
Qed.

Lemma optimize_last_ok g ts t v f b k W L C : inv g ts W L C -> ts !! t = Some (Traverse (OptimizeLast v f b) k) ->
  step_ok ts t (traverse SpinCount g (OptimizeLast v f b) k).
Proof.
  intros HI Ht. destruct (view_of _ _ _ _ _ _ _ HI Ht) as [(HC & A & S & HO & Eb & Hp) Hk].
  pose proof (or_chain _ _ _ _ _ _ _ _ HO) as EL. destruct (block_frame _ _ _ _ _ f HI) as (_ & c & Hc & Hct); [rewrite EL; set_solver|].
  pose proof (inv_chain _ _ _ _ _ HI) as Hch. pose proof (tk_chain _ _ _ _ _ (inv_tokens _ _ _ _ _ HI)) as Hnd.
  assert (HfA : f ∉ A) by (rewrite EL in Hnd; apply NoDup_app in Hnd as (_ & Hx & _); intros Hf; apply (Hx f Hf); by left).
  cbn [traverse]. rewrite (update_insert _ _ _ _ Hc). cbn [mbind option_bind].
  assert (HP : forall y, Previous (<[f := set_Last c b]> (frames g) !!! y) = Previous (frames g !!! y)) by (intros y; by apply (insert_links (frames g) f c)).
  assert (HfL : forall y, y ∈ A -> Last (<[f := set_Last c b]> (frames g) !!! y) = 0).
  { intros y Hy. rewrite lookup_total_insert_ne by (by intros ->). by apply (or_fresh _ _ _ _ _ _ _ _ HO). }
  eapply inv_write; try done.
  - left. rewrite EL. set_solver.
  - pose proof (or_traversed _ _ _ _ _ _ _ _ HO) as Htr. destruct W as [|x o tr mu]; [done|]. destruct Hch as (Hh & Hn & Ho & Hpv & Hm). split_and!.
    + done.
    + eapply nexts_ext; [|done]. intros y _. by apply (insert_next (frames g) f c).
    + rewrite EL. apply optimized_fresh; [done|]. left. rewrite lookup_total_insert_eq. cbn [set_Last Last]. split; [by rewrite Eb, EL, tail_of_app|].
      eapply prevs_ext; [|done]. intros y _. apply HP.
    + by rewrite HP.
    + intros Hmu. destruct (Hm Hmu) as [Htl Hl]. split.
      * destruct (decide (tail_of L = f)) as [E|]; [rewrite <- E, lookup_total_insert_eq; cbn; congruence|by rewrite lookup_total_insert_ne].
      * intros y Hy. destruct (decide (y = f)) as [->|]; [right; rewrite lookup_total_insert_eq; by cbn|]. rewrite lookup_total_insert_ne by done. by apply Hl.
  - split; [done|]. exists f, A, S. destruct HO as [Ht0 Hm0 Hb0 Hv0 HL0 Hf0 Hp0]. split; try done. by rewrite HP.
Qed.

Lemma unlink_previous_ok g ts t a k W L C : inv g ts W L C -> ts !! t = Some (Traverse (UnlinkPrevious a) k) ->
  step_ok ts t (traverse SpinCount g (UnlinkPrevious a) k).
Proof.
  intros HI Ht. destruct (view_of _ _ _ _ _ _ _ HI Ht) as [(HC & Htr & Hm) Hk]. pose proof (inv_tokens _ _ _ _ _ HI) as HT.
  assert (Ha : a ∈ C t) by (rewrite HC; by left). destruct (queued_frame _ _ _ _ _ a HT) as [_ [b Hb]]; [right; by exists t|].
  cbn [traverse]. rewrite (update_insert _ _ _ _ Hb). cbn [mbind option_bind]. eapply inv_write; try done.
  - by right.
  - eapply chain_ext; [|apply HI]. intros x Hx. rewrite lookup_total_insert_ne; [done|]. intros ->. by apply (tk_apart _ _ _ _ _ HT t x).
  - split_and!; [done|done|done|]. by rewrite lookup_total_insert_eq.
Qed.

(** ** The end of a traversal *)

Lemma resume_frame k : frame_of (resume SpinCount k) = cont_frame k /\ waits (resume SpinCount k) = cont_frame k /\ traversing (resume SpinCount k) = 0 /\
  holds_exclusive (resume SpinCount k) = 0 /\ holds_shared (resume SpinCount k) = 0 /\ holds_last (resume SpinCount k) = 0.
Proof. by destruct k. Qed.

Lemma resume_signalled m e k w p : (forall x v, p <> BlockKey x w v) -> cont_frame k = Some w -> waits p = Some w ->
  signalled m e (resume SpinCount k) w <-> signalled m e p w.
Proof. intros Hp Hk Hw. destruct k; [|done]. destruct p; first [done | reflexivity | injection Hw as ->; by edestruct Hp]. Qed.

Lemma resume_view m e W L k : cont_ok k -> view m e W L [] (resume SpinCount k).
Proof. by destruct k. Qed.

(** Clearing TRAVERSING; the thread goes on as [p']. *)
Lemma inv_untraverse g ts t tr p' k a o mu L C : inv g ts (Queue a o true mu) L C -> ts !! t = Some (Traverse tr k) ->
  (p' = resume SpinCount k \/ exists u, p' = Waking u k) ->
  view (frames g) (pending (kernel g) !! t) (Queue a o false mu) L (C t) p' ->
  (o = true \/ exists w, w ∈ C t) -> inv (set_value g (enc (Queue a o false mu))) (<[t := p']> ts) (Queue a o false mu) L C.
Proof.
  intros HI Ht Hp' Hv Hpi. pose proof (inv_tokens _ _ _ _ _ HI) as HT. destruct (view_of _ _ _ _ _ _ _ HI Ht) as [_ Hk].
  destruct (resume_frame k) as (R1 & R2 & R3 & R4 & R5 & R6).
  assert (Hf : frame_of p' = cont_frame k /\ waits p' = cont_frame k /\ traversing p' = 0 /\ holds_exclusive p' = 0 /\ holds_shared p' = 0 /\ holds_last p' = 0)
    by (by destruct Hp' as [->|[u ->]]). destruct Hf as (Hf & Hw & Hp1 & Hp2 & Hp3 & Hp4).
  eapply (inv_quiet g); try done; cbn [traversed Z.b2z traversing frames set_value kernel].
  - apply HI.
  - apply untouched_refl.
  - eapply same_frame_refl; try done; [|by intros [] key].
    intros w Hw'. destruct Hp' as [->|[u ->]]; [|done]. by apply resume_signalled.
  - apply (inv_chain _ _ _ _ _ HI).
  - rewrite Hp2, Hp3, Hp4. cbn [holds_exclusive holds_shared holds_last]. rewrite !Z.sub_0_r, !Z.add_0_r. eapply owners_traversed, HI.
  - intros t' q _. by apply (finding_multiple _ _ _ _ _ _ _ HI).
  - destruct Hpi as [->|[w Hw']]; [done|]. destruct o; [done|]. destruct (tk_waiter _ _ _ _ _ HT w) as (t' & q & Ht' & Hq); [right; by exists t|].
    assert (Hl : w ∉ L) by (intros ?; by apply (tk_apart _ _ _ _ _ HT t w)). destruct (decide (t' = t)) as [->|Hne].
    + rewrite Ht in Ht'. injection Ht' as <-. exists t, p'. split; [by apply list_lookup_insert_eq; eapply lookup_lt_Some|]. right. exists w. by rewrite Hf.
    + exists t', q. rewrite list_lookup_insert_ne by done. split; [done|]. right. exists w. split; [by apply waits_frame|done].
Qed.

Lemma optimize_clear_ok g ts t v k W L C : inv g ts W L C -> ts !! t = Some (Traverse (OptimizeClear v) k) ->
  step_ok ts t (traverse SpinCount g (OptimizeClear v) k).
Proof.
  intros HI Ht. destruct (view_of _ _ _ _ _ _ _ HI Ht) as [(HC & f & A & S & HO) Hk]. destruct HO as [Htr _ Hf (mu & -> & _) EL _ _].
  pose proof (inv_word _ _ _ _ _ HI) as HW. cbn [traverse negb].
  destruct (cas_cases g W (Queue f true true mu) (enc (Queue f true true mu) -₆₄ PH_QUEUED_LOCK_TRAVERSING)) as [[-> ->]| ->]; try done; try apply HI.
  - destruct (enc_traversing f true true mu Hf) as (-> & _). eexists _, _. split; [done|]. eexists _, _, _. eapply inv_untraverse; try done; [by left| |by left].
    rewrite HC. by apply resume_view.
  - rewrite (inv_value _ _ _ _ _ HI). destruct W as [|a o tr mu']; [done|]. cbn [traversed] in Htr. subst tr.
    destruct (optimize_start (frames g) a o mu' L k (inv_chain _ _ _ _ _ HI) HW) as (tr & -> & Htr); [intros ->; eapply owners_unowned, HI|].
    cbn [mbind option_bind]. eapply traversal_step; try done. by rewrite HC.
Qed.

Lemma wake_clear_ok g ts t v k W L C : inv g ts W L C -> ts !! t = Some (Traverse (WakeClear v) k) ->
  step_ok ts t (traverse SpinCount g (WakeClear v) k).
Proof.
  intros HI Ht. destruct (view_of _ _ _ _ _ _ _ HI Ht) as [(HC & Htr & Hmu & f & Hf & ->) Hk].
  pose proof (inv_word _ _ _ _ _ HI) as HW. cbn [traverse].
  destruct (cas_cases g W (Queue f true true false) (enc (Queue f true true false) -₆₄ PH_QUEUED_LOCK_TRAVERSING)) as [[-> ->]| ->]; try done; try apply HI.
  - destruct (enc_traversing f true true false Hf) as (-> & _). eexists _, _. split; [done|]. eexists _, _, _. eapply inv_untraverse; try done; [by left| |by left].
    rewrite HC. by apply resume_view.
  - rewrite (inv_value _ _ _ _ _ HI). destruct W as [|a o tr mu']; [done|]. cbn [traversed multiple] in Htr, Hmu. subst tr mu'.
    destruct (wake_start (frames g) a o L k (inv_chain _ _ _ _ _ HI) HW) as (tr & _ & -> & Htr).
    eapply traversal_step; try done. by rewrite HC.
Qed.

Lemma unlink_traversing_ok g ts t a k W L C : inv g ts W L C -> ts !! t = Some (Traverse (UnlinkTraversing a) k) ->
  step_ok ts t (traverse SpinCount g (UnlinkTraversing a) k).
Proof.
  intros HI Ht. destruct (view_of _ _ _ _ _ _ _ HI Ht) as [(HC & Htr & Hmu & Hp) Hk]. pose proof (inv_word _ _ _ _ _ HI) as HW.
  assert (Ha : a ∈ C t) by (rewrite HC; by left). destruct (queued_frame _ _ _ _ _ a (inv_tokens _ _ _ _ _ HI)) as [[_ Hpos] _]; [right; by exists t|].
  cbn [traverse]. rewrite (inv_value _ _ _ _ _ HI). destruct W as [|b o tr mu]; [done|]. cbn [traversed multiple] in Htr, Hmu. subst tr mu.
  destruct (enc_traversing b o true false HW) as (-> & _). unfold PhpfWakeQueuedLock. replace (a =? 0) with false by lia.
  eexists _, _. split; [done|]. eexists _, _, _. eapply inv_untraverse; try done; [right; by eexists| |right; by exists a].
  split; [|done]. split; [lia|]. rewrite HC. by split.
Qed.

(** ** Taking blocks off the chain *)

(** Thread [t] takes the blocks [l]. *)
Definition take_over C (t : nat) (l : list Z) : nat -> list Z := fun t' => if decide (t' = t) then l else C t'.

Lemma take_over_eq C t l : take_over C t l t = l.
Proof. unfold take_over. by rewrite decide_True. Qed.

Lemma take_over_ne C t l t' : t' <> t -> take_over C t l t' = C t'.
Proof. intros. unfold take_over. by rewrite decide_False. Qed.

Lemma take_over_elem C t l t' a : a ∈ take_over C t l t' <-> (t' = t /\ a ∈ l) \/ (t' <> t /\ a ∈ C t').
Proof. unfold take_over. case_decide; naive_solver. Qed.

Lemma tokens_take m (E : gmap nat (keyed * Z * bool)) L L' l C ts t p : tokens_ok m E L C ts -> ts !! t = Some p -> C t = [] -> L ≡ₚ L' ++ l ->
  tokens_ok m E L' (take_over C t l) ts.
Proof.
  intros HT Ht HC HP. pose proof (tk_chain _ _ _ _ _ HT) as Hnd. rewrite HP in Hnd. apply NoDup_app in Hnd as (Hnd1 & Hdis & Hnd2).
  assert (Hin : forall a, a ∈ L <-> a ∈ L' \/ a ∈ l) by (intros a; by rewrite HP, elem_of_app).
  assert (Hq : forall a, queued L' (take_over C t l) a <-> queued L C a).
  { intros a. unfold queued. setoid_rewrite take_over_elem. rewrite Hin. split.
    - intros [?|(t' & [[-> ?]|[? ?]])]; [by left; left|by left; right|right; by exists t'].
    - intros [[?|?]|(t' & Ha)]; [by left|right; exists t; by left|right; exists t'; right]. split; [|done]. intros ->. rewrite HC in Ha. by apply not_elem_of_nil in Ha. }
  split; try apply HT.
  - done.
  - intros t'. unfold take_over. case_decide; [done|apply HT].
  - intros t' a [[-> Ha]|[Hne Ha]]%take_over_elem Ha'; [by apply (Hdis a)|]. apply (tk_apart _ _ _ _ _ HT t' a Ha). rewrite Hin. by left.
  - intros t1 t2 a [[-> Ha]|[Hne Ha]]%take_over_elem [[-> Ha']|[Hne' Ha']]%take_over_elem; [done| | |by apply (tk_one _ _ _ _ _ HT t1 t2 a)].
    + destruct (tk_apart _ _ _ _ _ HT t2 a Ha'). rewrite Hin. by right.
    + destruct (tk_apart _ _ _ _ _ HT t1 a Ha). rewrite Hin. by right.
  - intros t' Ht'. rewrite take_over_ne by congruence. by apply HT.
  - intros a Ha. apply HT. by apply Hq.
  - intros t' q w Ht' Hq'. rewrite Hq. by apply HT.
Qed.

Lemma owners_single a o t a' t' x s r n n' : owners_ok (Queue a o t false) x s r n -> owners_ok (Queue a' o t' false) x s r n'.
Proof. by destruct o. Qed.

(** A traverser takes blocks off the chain, with at most a write to a block's Last, and goes on as [p']. *)
Lemma inv_unlink g ts t tr p' k m' v W L L' l C : inv g ts (Queue v (owned_bit W) true false) L C -> ts !! t = Some (Traverse tr k) -> C t = [] ->
  word_ok W -> L ≡ₚ L' ++ l ->
  same_waiters (frames g) m' -> (forall a, Previous (m' !!! a) = Previous (frames g !!! a)) ->
  (multiple W = false) -> (is_queue W = false -> W = Plain false 0) -> chain_ok m' W L' ->
  ((exists tr', p' = Traverse tr' k /\ traversed W = true) \/ exists u, p' = Waking u k /\ traversed W = false) ->
  view m' (pending (kernel g) !! t) W L' l p' -> pilot_ok W L' (<[t := p']> ts) ->
  inv {| Value := enc W; frames := m'; kernel := kernel g |} (<[t := p']> ts) W L' (take_over C t l).
Proof.
  intros HI Ht HC HW HP [Hd Hsp] Hpv Hmu Hplain Hch Hp' Hv Hpi. pose proof (inv_tokens _ _ _ _ _ HI) as HT. pose proof (inv_owners _ _ _ _ _ HI) as Ho.
  assert (Hw : frame_of p' = cont_frame k /\ waits p' = cont_frame k /\ holds_exclusive p' = 0 /\ holds_shared p' = 0 /\ holds_last p' = 0)
    by (by destruct Hp' as [(? & -> & _)|(? & -> & _)]). destruct Hw as (Hw1 & Hw2 & Hw3 & Hw4 & Hw5).
  split; cbn [Value frames kernel].
  - done.
  - done.
  - done.
  - rewrite !(tally_insert _ _ _ _ _ Ht), Hw3, Hw4, Hw5. cbn [holds_exclusive holds_shared holds_last]. rewrite !Z.sub_0_r, !Z.add_0_r.
    destruct W as [o c|a o t' mu]; [|cbn [multiple] in Hmu; subst mu; eapply owners_single, Ho]. injection (Hplain eq_refl) as -> ->.
    by destruct Ho as (_ & Hx & Hs & Hr).
  - rewrite (tally_insert _ _ _ _ _ Ht), (inv_traverser _ _ _ _ _ HI). by destruct Hp' as [(? & -> & ->)|(? & -> & ->)].
  - eapply tokens_flags; [|done|done]. eapply tokens_take; [|by apply list_lookup_insert_eq; eapply lookup_lt_Some|done|done].
    eapply tokens_quiet; [done|done|apply untouched_refl| |done]. eapply same_frame_refl; try done; [|by intros [] key].
    by destruct Hp' as [(? & -> & _)|(? & -> & _)].
  - intros t' q [(-> & <- & _)|(Hne & Ht')]%list_lookup_insert_Some; [by rewrite take_over_eq|].
    rewrite take_over_ne by done. eapply view_stable; [by apply (inv_views _ _ _ _ _ HI)| |intros; by rewrite Hsp| |].
    + intros x Hx. by rewrite Hsp.
    + intros Hq. by destruct (only_traverser _ _ _ _ _ _ _ _ _ HI Ht eq_refl ltac:(done) Ht').
    + intros Hq. by pose proof (finding_multiple _ _ _ _ _ _ _ HI Ht' Hq).
  - done.
  - rewrite length_insert. apply HI.
Qed.

Lemma unlink_last_ok g ts t f a b k W L C : inv g ts W L C -> ts !! t = Some (Traverse (UnlinkLast f a b) k) ->
  step_ok ts t (traverse SpinCount g (UnlinkLast f a b) k).
Proof.
  intros HI Ht. destruct (view_of _ _ _ _ _ _ _ HI Ht) as [(HC & A & S & v & HO & Hl & Hp) Hk].
  pose proof (or_chain _ _ _ _ _ _ _ _ HO) as EL. destruct (block_frame _ _ _ _ _ f HI) as (_ & c & Hc & Hct); [rewrite EL; set_solver|].
  pose proof (tk_chain _ _ _ _ _ (inv_tokens _ _ _ _ _ HI)) as Hnd. pose proof (or_traversed _ _ _ _ _ _ _ _ HO) as Htr. pose proof (or_multiple _ _ _ _ _ _ _ _ HO eq_refl) as Hmu.
  assert (HfA : f ∉ A) by (rewrite EL in Hnd; apply NoDup_app in Hnd as (_ & Hx & _); intros Hf; apply (Hx f Hf); by left).
  cbn [traverse]. rewrite (update_insert _ _ _ _ Hc). cbn [mbind option_bind]. eexists _, _. split; [done|].
  destruct W as [|x o tr mu]; [done|]. cbn [traversed multiple] in Htr, Hmu. subst tr mu.
  assert (HP : forall y, Previous ((<[f := set_Last c b]> (frames g)) !!! y) = Previous (frames g !!! y)) by (intros y; by apply (insert_links (frames g) f c)).
  exists (Queue x o true false), (A ++ f :: S), (take_over C t [a]). unfold set_frames. rewrite (inv_value _ _ _ _ _ HI).
  eapply (inv_unlink g ts t _ _ k _ x (Queue x o true false) L (A ++ f :: S) [a]); try done.
  - apply HI.
  - by rewrite EL, <- app_assoc.
  - by apply (same_waiters_insert (frames g) f c).
  - destruct (inv_chain _ _ _ _ _ HI) as (Hh & Hn & Ho & Hpv & _). rewrite EL in Hh, Hn. split_and!; [by destruct A| | |by rewrite HP|done].
    + replace (A ++ f :: S ++ [a]) with ((A ++ f :: S) ++ [a]) in Hn by (by rewrite <- app_assoc). apply nexts_snoc in Hn. eapply nexts_ext; [|done].
      intros y _. by apply (insert_next (frames g) f c).
    + apply optimized_fresh.
      * intros y Hy. rewrite lookup_total_insert_ne by (by intros ->). by apply (or_fresh _ _ _ _ _ _ _ _ HO).
      * left. rewrite lookup_total_insert_eq. cbn [set_Last Last]. split; [unfold tail_of; by rewrite Hl|]. rewrite app_comm_cons in Hp. apply prevs_snoc in Hp.
        eapply prevs_ext; [|done]. intros y _. apply HP.
  - left. by eexists (UnlinkPrevious a).
  - apply pilot_owned. by right; left.
Qed.

Lemma wake_all_ok g ts t v a k W L C : inv g ts W L C -> ts !! t = Some (Traverse (WakeAll v a) k) ->
  step_ok ts t (traverse SpinCount g (WakeAll v a) k).
Proof.
  intros HI Ht. destruct (view_of _ _ _ _ _ _ _ HI Ht) as [(HC & f & A & S & HO & Ea & Hp) Hk].
  pose proof (inv_word _ _ _ _ _ HI) as HW. destruct HO as [Htr Hmu Hf (mu & -> & Hmu') EL _ Hpf]. pose proof (Hmu' eq_refl) as ->.
  cbn [traverse negb]. destruct (cas_cases g W (Queue f false true false) 0) as [[-> ->]| ->]; try done; try apply HI.
  - assert (A = []) as ->.
    { destruct (inv_chain _ _ _ _ _ HI) as (Hh & _). pose proof (tk_chain _ _ _ _ _ (inv_tokens _ _ _ _ _ HI)) as Hnd. rewrite EL in Hh, Hnd. destruct A as [|y A]; [done|].
      injection Hh as ->. apply NoDup_cons in Hnd as [Hnd _]. set_solver. }
    simpl in EL. assert (Ha : a ∈ L) by (rewrite Ea; apply tail_of_elem; by rewrite EL).
    destruct (block_frame _ _ _ _ _ a HI Ha) as [[_ Hpos] _]. unfold PhpfWakeQueuedLock. replace (a =? 0) with false by lia.
    eexists _, _. split; [done|]. exists (Plain false 0), [], (take_over C t (reverse L)).
    eapply (inv_unlink g ts t _ _ k _ f (Plain false 0) L [] (reverse L)); try done.
    + by rewrite reverse_Permutation.
    + right. by eexists.
    + split; [|done]. split; [lia|]. rewrite Ea, EL. by apply prevs_wake_chain.
  - rewrite (inv_value _ _ _ _ _ HI). destruct W as [|b o tr mu]; [done|]. cbn [traversed multiple] in Htr, Hmu. subst tr. rewrite (Hmu eq_refl) in *.
    destruct (wake_start (frames g) b o L k (inv_chain _ _ _ _ _ HI) HW) as (tr & -> & _ & Htr).
    cbn [mbind option_bind]. eapply traversal_step; try done. by rewrite HC.
Qed.

Lemma traverse_ok g ts t tr k W L C : inv g ts W L C -> ts !! t = Some (Traverse tr k) -> step_ok ts t (traverse SpinCount g tr k).
Proof.
  intros HI Ht. destruct tr.
  - by eapply walk_last_ok.
  - by eapply walk_next_ok.
  - by eapply walk_previous_ok.
  - by eapply optimize_last_ok.
  - by eapply optimize_clear_ok.
  - by eapply wake_clear_ok.
  - by eapply wake_flags_ok.
  - by eapply wake_previous_ok.
  - by eapply unlink_last_ok.
  - by eapply unlink_previous_ok.
  - by eapply unlink_traversing_ok.
  - by eapply wake_all_ok.
Qed.

(** ** Waking and blocking *)

(** Frames that differ at most in flags that were reset. *)
Definition same_links m m' : Prop :=
  forall a, Next (m' !!! a) = Next (m !!! a) /\ Previous (m' !!! a) = Previous (m !!! a) /\ Last (m' !!! a) = Last (m !!! a) /\
    SharedOwners (m' !!! a) = SharedOwners (m !!! a) /\ (spinning m a = false -> spinning m' a = false).

Lemma same_links_refl m : same_links m m.
Proof. by intros a. Qed.

Lemma view_links m m' e W L c p : same_links m m' -> view m e W L c p -> (traversing p = 1 -> traversed W = true) -> (finding p = true -> multiple W = true) -> view m' e W L c p.
Proof.
  intros HS Hv Ht Hf. eapply view_stable; [done|..].
  - intros a _. split; apply HS.
  - intros w _. apply HS.
  - intros Hp. split; [exists []; split; [done|set_solver]| |by apply Ht|done]. intros a _. split; apply HS.
  - intros Hp. split_and!; [by apply Hf|done..].
Qed.

Lemma inv_signal g g' ts t p p' W L C C' : inv g ts W L C -> ts !! t = Some p -> Value g' = Value g ->
  holds_exclusive p' = holds_exclusive p -> holds_shared p' = holds_shared p -> holds_last p' = holds_last p -> traversing p' = traversing p ->
  same_links (frames g) (frames g') -> tokens_ok (frames g') (pending (kernel g')) L C' (<[t := p']> ts) ->
  view (frames g') (pending (kernel g') !! t) W L (C' t) p' ->
  (forall t' q, t' <> t -> ts !! t' = Some q -> view (frames g) (pending (kernel g) !! t') W L (C t') q -> view (frames g) (pending (kernel g') !! t') W L (C' t') q) ->
  pilot_ok W L (<[t := p']> ts) -> inv g' (<[t := p']> ts) W L C'.
Proof.
  intros HI Ht HV Hx Hs Hl Htr HS HT Hv Hov Hpi. split.
  - rewrite HV. apply HI.
  - apply HI.
  - eapply chain_ext; [|apply HI]. intros a _. destruct (HS a) as (? & ? & ? & _). done.
  - rewrite !(tally_insert _ _ _ _ _ Ht), Hx, Hs, Hl, !Z.sub_add. eapply owners_count; [|apply HI]. intros _. apply HS.
  - rewrite (tally_insert _ _ _ _ _ Ht), Htr, Z.sub_add. apply HI.
  - done.
  - intros t' q [(-> & <- & _)|(Hne & Ht')]%list_lookup_insert_Some; [done|]. eapply view_links; [done| | |].
    + apply Hov; [congruence|done|]. by apply (inv_views _ _ _ _ _ HI).
    + intros Hq. pose proof (tally_lookup traversing ltac:(apply weights_nonneg) ts t' q Ht') as Hle. rewrite (inv_traverser _ _ _ _ _ HI), Hq in Hle. destruct (traversed W); [done|cbn in Hle; lia].
    + by apply (finding_multiple _ _ _ _ _ _ _ HI Ht').
  - done.
  - rewrite length_insert. apply HI.
Qed.

(** A waker lets go of the first of its blocks when the waiter has been signalled. *)
Lemma tokens_drop m m' (E E' : gmap nat (keyed * Z * bool)) L C ts t a c : tokens_ok m E L C ts -> C t = a :: c ->
  (forall x, is_Some (m !! x) -> is_Some (m' !! x)) ->
  (forall t' p, ts !! t' = Some p -> waits p = Some a -> signalled m' (E' !! t') p a) ->
  (forall t' p w, ts !! t' = Some p -> waits p = Some w -> w <> a -> signalled m' (E' !! t') p w <-> signalled m (E !! t') p w) ->
  (forall t' d key b, E' !! t' = Some (d, key, b) -> exists p, ts !! t' = Some p /\ calling d key p) ->
  (forall t1 t2 key, E' !! t1 = Some (KeyedWait, key, false) -> E' !! t2 = Some (KeyedRelease, key, false) -> False) ->
  tokens_ok m' E' L (take_over C t c) ts.
Proof.
  intros HT HC Hd Hsig Hoth Hcall Hpair. pose proof (tk_wakers _ _ _ _ _ HT t) as Hnd. rewrite HC in Hnd. apply NoDup_cons in Hnd as [Hac Hnd].
  assert (Hsub : forall t' x, x ∈ take_over C t c t' -> x ∈ C t' /\ x <> a).
  { intros t' x [[-> Hx]|[Hne Hx]]%take_over_elem; [rewrite HC; split; [by right|by intros ->]|]. split; [done|]. intros ->.
    destruct Hne. apply (tk_one _ _ _ _ _ HT t' t a); [done|]. rewrite HC. by left. }
  assert (Hq : forall x, queued L (take_over C t c) x <-> queued L C x /\ x <> a).
  { intros x. split.
    - intros [Hx|(t' & Hx)]; [|destruct (Hsub t' x Hx); split; [right; by exists t'|done]]. split; [by left|]. intros ->. apply (tk_apart _ _ _ _ _ HT t a); [|done]. rewrite HC. by left.
    - intros [[Hx|(t' & Hx)] Hne]; [by left|]. right. exists t'. apply take_over_elem. destruct (decide (t' = t)) as [->|]; [left|by right]. split; [done|]. rewrite HC in Hx. set_solver. }
  split; try apply HT; try done.
  - intros t'. unfold take_over. case_decide; [done|apply HT].
  - intros t' x Hx. destruct (Hsub t' x Hx) as [? _]. by apply (tk_apart _ _ _ _ _ HT t').
  - intros t1 t2 x Hx1 Hx2. destruct (Hsub t1 x Hx1) as [? _], (Hsub t2 x Hx2) as [? _]. by apply (tk_one _ _ _ _ _ HT t1 t2 x).
  - intros t' Ht'. destruct (decide (t' = t)) as [->|]; [|rewrite take_over_ne by done; by apply HT]. by rewrite (tk_outside _ _ _ _ _ HT t Ht') in HC.
  - intros t' q w Ht' Hw. destruct (tk_frame _ _ _ _ _ HT t' q w Ht' Hw). split; [done|by apply Hd].
  - intros x [Hx _]%Hq. by apply HT.
  - intros t' q w Ht' Hw. rewrite Hq. destruct (decide (w = a)) as [->|Hne].
    + split; [intros _ [_ ?]; done|intros _; by apply Hsig].
    + rewrite Hoth, (tk_signal _ _ _ _ _ HT t' q w) by done. tauto.
Qed.

Lemma same_links_reset m a b : m !! a = Some b -> same_links m (<[a := set_Flags b (Z.clearbit (Flags b) PH_QUEUED_WAITER_SPINNING_SHIFT)]> m) /\
  spinning (<[a := set_Flags b (Z.clearbit (Flags b) PH_QUEUED_WAITER_SPINNING_SHIFT)]> m) a = false /\
  (forall x, x <> a -> spinning (<[a := set_Flags b (Z.clearbit (Flags b) PH_QUEUED_WAITER_SPINNING_SHIFT)]> m) x = spinning m x).
Proof.
  intros Hb. assert (Hs : spinning (<[a := set_Flags b (Z.clearbit (Flags b) PH_QUEUED_WAITER_SPINNING_SHIFT)]> m) a = false).
  { unfold spinning. rewrite lookup_total_insert_eq. cbn [set_Flags Flags]. apply Z.clearbit_eq. }
  split_and!; [|done|intros x Hx; unfold spinning; by rewrite lookup_total_insert_ne]. intros x. destruct (decide (x = a)) as [->|Hne].
  - rewrite lookup_total_insert_eq, (lookup_total_correct _ _ _ Hb). by split_and!.
  - unfold spinning. by rewrite lookup_total_insert_ne.
Qed.

Lemma is_Some_insert m a b x : is_Some (m !! x) -> is_Some (<[a := b]> m !! x).
Proof. intros Hx. destruct (decide (x = a)) as [->|]; [by rewrite lookup_insert_eq|by rewrite lookup_insert_ne]. Qed.

(** The waker's loop goes on, or is over. *)
Lemma wake_next m e W L a c k : wake_chain m a c -> (forall b, b ∈ c -> b <> 0) -> cont_ok k ->
  view m e W L c (PhpfWakeQueuedLock SpinCount a k) /\ frame_of (PhpfWakeQueuedLock SpinCount a k) = cont_frame k /\ waits (PhpfWakeQueuedLock SpinCount a k) = cont_frame k /\
  traversing (PhpfWakeQueuedLock SpinCount a k) = 0 /\ holds_exclusive (PhpfWakeQueuedLock SpinCount a k) = 0 /\
  holds_shared (PhpfWakeQueuedLock SpinCount a k) = 0 /\ holds_last (PhpfWakeQueuedLock SpinCount a k) = 0 /\
  (forall x w v, PhpfWakeQueuedLock SpinCount a k <> BlockKey x w v).
Proof.
  intros Hc Hnz Hk. unfold PhpfWakeQueuedLock. destruct (Z.eqb_spec a 0) as [->|Ha].
  - destruct c as [|b c]; [|destruct Hc as [<- _]; by destruct (Hnz 0); [left|]]. destruct (resume_frame k) as (? & ? & ? & ? & ? & ?). split_and!; try done; [by apply resume_view|by destruct k].
  - by split_and!.
Qed.

Lemma waking_read_ok g ts t a k W L C : inv g ts W L C -> ts !! t = Some (Waking (WakingRead a) k) ->
  exists g' p', PhpUnblockQueuedWaitBlock SpinCount g t (WakingRead a) k = Some (Some (g', p')) /\ keeps g' (<[t := p']> ts).
Proof.
  intros HI Ht. destruct (view_of _ _ _ _ _ _ _ HI Ht) as [[Ha Hc] Hk]. destruct (C t) as [|b c] eqn:HC; [done|]. destruct Hc as [-> Hc].
  destruct (queued_frame _ _ _ _ _ b (inv_tokens _ _ _ _ _ HI)) as [_ [d Hd]]; [right; exists t; rewrite HC; by left|].
  cbn [PhpUnblockQueuedWaitBlock]. unfold read. rewrite Hd. cbn [mbind option_bind]. rewrite <- (lookup_total_correct _ _ _ Hd).
  destruct (keeps_local g ts t _ (Waking (WakingReset b (Previous (frames g !!! b))) k) W L C HI Ht) as (g' & p' & [= <- <-] & Hkeep); try done.
  - split; [|done]. by exists c.
  - by eexists _, _.
Qed.

Lemma tokens_none m (E : gmap nat (keyed * Z * bool)) L C ts t p : tokens_ok m E L C ts -> ts !! t = Some p -> (forall d key, ~ calling d key p) -> E !! t = None.
Proof.
  intros HT Ht Hp. destruct (E !! t) as [[[d key] b]|] eqn:HE; [|done]. destruct (tk_call _ _ _ _ _ HT t d key b HE) as (q & Hq & Hc).
  rewrite Ht in Hq. injection Hq as <-. by destruct (Hp d key).
Qed.

Lemma same_frame_wake m (E : gmap nat (keyed * Z * bool)) L C ts t u k p' : tokens_ok m E L C ts -> ts !! t = Some (Waking u k) ->
  frame_of p' = cont_frame k -> waits p' = cont_frame k -> (forall x w v, p' <> BlockKey x w v) -> same_frame m m (E !! t) None L C (Waking u k) p'.
Proof.
  intros HT Ht Hf Hw Hnk. split.
  - intros w Hq. rewrite Hf in Hq. destruct (tk_frame _ _ _ _ _ HT t _ w Ht Hq) as [? ?]. by split_and!; [..|left].
  - intros w Hq. rewrite Hw in Hq. split; [done|]. unfold signalled. destruct p'; try done. by edestruct Hnk.
  - intros w Hq Hn. cbn in Hq. congruence.
  - done.
Qed.

Lemma waking_reset_ok g ts t a b k W L C : inv g ts W L C -> ts !! t = Some (Waking (WakingReset a b) k) ->
  exists g' p', PhpUnblockQueuedWaitBlock SpinCount g t (WakingReset a b) k = Some (Some (g', p')) /\ keeps g' (<[t := p']> ts).
Proof.
  intros HI Ht. destruct (view_of _ _ _ _ _ _ _ HI Ht) as [(c & HC & Hc) Hk]. pose proof (inv_tokens _ _ _ _ _ HI) as HT.
  assert (Ha : queued L C a) by (right; exists t; rewrite HC; by left). destruct (queued_frame _ _ _ _ _ a HT Ha) as [_ [d Hd]].
  destruct (same_links_reset (frames g) a d Hd) as (HS & Hsa & Hsx).
  assert (Hspin : Z.testbit (Flags d) PH_QUEUED_WAITER_SPINNING_SHIFT = spinning (frames g) a) by (unfold spinning; by rewrite (lookup_total_correct _ _ _ Hd)).
  cbn [PhpUnblockQueuedWaitBlock]. unfold reset_spinning, read. rewrite Hd. cbn [mbind option_bind]. rewrite (update_insert _ _ _ _ Hd). cbn [mbind option_bind].
  rewrite Hspin. set (m' := <[a := _]> (frames g)) in *. eexists _, _. split; [done|].
  assert (He : pending (kernel g) !! t = None) by (eapply tokens_none; [done|done|intros [] key []]).
  destruct (spinning (frames g) a) eqn:Hs.
  - assert (Hnz : forall x, x ∈ c -> x <> 0).
    { intros x Hx. destruct (queued_frame _ _ _ _ _ x HT) as [[_ ?] _]; [right; exists t; rewrite HC; by right|lia]. }
    destruct (wake_next m' (pending (kernel g) !! t) W L b c k) as (Hv & Hf & Hw & Htr & Hx & Hsh & Hl & Hnk); try done.
    { eapply wake_chain_ext; [|done]. intros x _. apply HS. }
    exists W, L, (take_over C t c). eapply (inv_signal g); try done; cbn [frames kernel set_frames].
    + eapply (tokens_drop (frames g)); [|done|intros x; apply is_Some_insert| | | |by apply (tk_pair _ _ _ _ _ HT)].
      * eapply tokens_quiet; [done|done|apply untouched_refl| |done]. rewrite He at 2. by eapply same_frame_wake.
      * intros t' q Ht' Hq. unfold signalled. destruct q; try done. destruct (decide (t' = t)) as [->|Hne].
        { rewrite list_lookup_insert_eq in Ht' by (by eapply lookup_lt_Some). injection Ht' as Ht'. by destruct (Hnk exclusive waitBlock value). }
        rewrite list_lookup_insert_ne in Ht' by done. destruct (view_of _ _ _ _ _ _ _ HI Ht') as (_ & _ & Hsp). cbn in Hq. injection Hq as ->. congruence.
      * intros t' q w Ht' Hq Hne. unfold signalled. rewrite (Hsx w Hne). by destruct q.
      * intros t' dd key bb Hcall. eapply (calls_insert (pending (kernel g))); [by apply (tk_call _ _ _ _ _ HT t' dd key bb)|done|]. by destruct dd.
    + by rewrite take_over_eq.
    + intros t' q Hne Ht' Hv'. by rewrite take_over_ne.
    + eapply pilot_local; [done|by rewrite Hf|done|apply HI].
  - exists W, L, C. assert (Hsp : forall x, spinning m' x = spinning (frames g) x) by (intros x; destruct (decide (x = a)) as [->|]; [congruence|by apply Hsx]).
    eapply (inv_signal g); try done; cbn [frames kernel set_frames].
    + eapply tokens_flags; [|intros x; apply is_Some_insert|done]. eapply tokens_quiet; [done|done|apply untouched_refl| |done]. eapply same_frame_refl; try done. by intros [] key.
    + split; [|done]. cbn [waking_ok]. rewrite decide_False by (by rewrite He). split; [done|]. exists c. split; [done|]. eapply wake_chain_ext; [|done]. intros x _. apply HS.
    + eapply pilot_local; [done|done|done|apply HI].
Qed.

(** A call that blocks. *)
Lemma tokens_enter m (E : gmap nat (keyed * Z * bool)) L C ts t p d key : tokens_ok m E L C ts -> ts !! t = Some p -> E !! t = None -> calling d key p ->
  (forall t', E !! t' <> Some (partner d, key, false)) -> tokens_ok m (<[t := (d, key, false)]> E) L C ts.
Proof.
  intros HT Ht He Hc Hnp. split; try apply HT.
  - intros t' q w Ht' Hq. rewrite <- (tk_signal _ _ _ _ _ HT t' q w Ht' Hq). destruct (decide (t' = t)) as [->|Hne]; [|by rewrite lookup_insert_ne].
    rewrite lookup_insert_eq, He. by destruct q.
  - intros t' d' key' b. destruct (decide (t' = t)) as [->|Hne]; [rewrite lookup_insert_eq; intros [= <- <- <-]; by exists p|].
    rewrite lookup_insert_ne by done. apply (tk_call _ _ _ _ _ HT).
  - intros t1 t2 key' H1 H2. destruct (decide (t1 = t)) as [->|Hne1].
    + rewrite lookup_insert_eq in H1. injection H1 as -> ->. rewrite lookup_insert_ne in H2; [by apply (Hnp t2)|]. intros ->. by rewrite lookup_insert_eq in H2.
    + rewrite lookup_insert_ne in H1 by done. destruct (decide (t2 = t)) as [->|Hne2].
      * rewrite lookup_insert_eq in H2. injection H2 as -> ->. by apply (Hnp t1).
      * rewrite lookup_insert_ne in H2 by done. by apply (tk_pair _ _ _ _ _ HT t1 t2 key').
Qed.

Lemma pilot_frame W L ts t p p' : ts !! t = Some p -> frame_of p' = frame_of p -> (forall v, p <> WakeForRelease v) -> pilot_ok W L ts -> pilot_ok W L (<[t := p']> ts).
Proof. intros Ht Hf Hp. by eapply pilot_local. Qed.

(** The partner [t'] of the call [d] with the block [a]: matching makes it signalled, or lets it go on. *)
Lemma signalled_match m (E : gmap nat (keyed * Z * bool)) L C ts t' d a q w t1 : tokens_ok m E L C ts -> E !! t' = Some (d, a, false) -> ts !! t1 = Some q -> waits q = Some w -> w <> a ->
  signalled m (<[t' := (d, a, true)]> E !! t1) q w <-> signalled m (E !! t1) q w.
Proof.
  intros HT He Ht1 Hw Hne. destruct (decide (t1 = t')) as [->|Hnt]; [|by rewrite lookup_insert_ne]. rewrite lookup_insert_eq, He.
  destruct q; try done. cbn [signalled]. cbn in Hw. injection Hw as ->. split; congruence.
Qed.

Lemma calls_match m (E : gmap nat (keyed * Z * bool)) L C ts t' d a : tokens_ok m E L C ts -> E !! t' = Some (d, a, false) ->
  forall t1 d1 key b, <[t' := (d, a, true)]> E !! t1 = Some (d1, key, b) -> exists p, ts !! t1 = Some p /\ calling d1 key p.
Proof.
  intros HT He t1 d1 key b. destruct (decide (t1 = t')) as [->|Hnt].
  - rewrite lookup_insert_eq. intros [= <- <- <-]. by apply (tk_call _ _ _ _ _ HT t' d a false).
  - rewrite lookup_insert_ne by done. apply (tk_call _ _ _ _ _ HT).
Qed.

Lemma pair_match m (E : gmap nat (keyed * Z * bool)) L C ts t' d a : tokens_ok m E L C ts ->
  forall t1 t2 key, <[t' := (d, a, true)]> E !! t1 = Some (KeyedWait, key, false) -> <[t' := (d, a, true)]> E !! t2 = Some (KeyedRelease, key, false) -> False.
Proof.
  intros HT t1 t2 key H1 H2. destruct (decide (t1 = t')) as [->|Hne1]; [by rewrite lookup_insert_eq in H1|]. destruct (decide (t2 = t')) as [->|Hne2]; [by rewrite lookup_insert_eq in H2|].
  rewrite lookup_insert_ne in H1, H2 by done. by apply (tk_pair _ _ _ _ _ HT t1 t2 key).
Qed.

(** The release finds the waiter in its call. *)
Lemma tokens_release m (E : gmap nat (keyed * Z * bool)) L C ts t t' a c : tokens_ok m E L C ts -> C t = a :: c -> E !! t' = Some (KeyedWait, a, false) ->
  tokens_ok m (<[t' := (KeyedWait, a, true)]> E) L (take_over C t c) ts.
Proof.
  intros HT HC He. destruct (tk_call _ _ _ _ _ HT t' _ _ _ He) as (q & Ht' & Hq). destruct q; try done. cbn in Hq. subst waitBlock.
  eapply (tokens_drop m); try done.
  - intros t1 q Ht1 Hq. assert (t1 = t') as -> by (eapply (tk_frames _ _ _ _ _ HT); [done|done|by apply waits_frame|done]).
    rewrite lookup_insert_eq. rewrite Ht' in Ht1. injection Ht1 as <-. done.
  - intros t1 q w Ht1 Hq Hne. by eapply signalled_match.
  - by eapply calls_match.
  - by eapply pair_match.
Qed.

Lemma waking_key_ok g ts t a b k W L C : inv g ts W L C -> ts !! t = Some (Waking (WakingKey a b) k) ->
  exists g' p', PhpUnblockQueuedWaitBlock SpinCount g t (WakingKey a b) k = Some (Some (g', p')) /\ keeps g' (<[t := p']> ts).
Proof.
  intros HI Ht. destruct (view_of _ _ _ _ _ _ _ HI Ht) as [Hv Hk]. pose proof (inv_tokens _ _ _ _ _ HI) as HT. cbn [waking_ok] in Hv.
  assert (Hnz : forall x, x ∈ C t -> x <> 0).
  { intros x Hx. destruct (queued_frame _ _ _ _ _ x HT) as [[_ ?] _]; [right; by exists t|lia]. }
  cbn [PhpUnblockQueuedWaitBlock]. change (NtReleaseKeyedEvent (kernel g) a t) with (keyed_call KeyedRelease (kernel g) a t).
  destruct (pending (kernel g) !! t) as [[[d key] m]|] eqn:He.
  - destruct (tk_call _ _ _ _ _ HT t d key m He) as (q & Hq & Hc). rewrite Ht in Hq. injection Hq as <-. destruct d; [done|]. cbn in Hc. subst key. destruct m.
    + rewrite decide_True in Hv by done. pose proof (leave_law KeyedRelease (kernel g) a t He) as [Hst Hp].
      destruct (keyed_call KeyedRelease (kernel g) a t) as [k' st]. cbn [fst snd] in Hst, Hp. subst st. eexists _, _. split; [done|]. change (NT_SUCCESS STATUS_SUCCESS) with true; cbv iota.
      destruct (wake_next (frames g) (pending k' !! t) W L b (C t) k Hv Hnz Hk) as (Hv' & Hf & Hw & Htr & Hx & Hsh & Hl & Hnk).
      exists W, L, C. eapply (inv_signal g); try done; cbn [frames kernel set_kernel].
      * eapply (tokens_quiet (frames g)); [done|done|apply untouched_refl| |intros t' Hne; rewrite Hp; by rewrite lookup_delete_ne].
        rewrite Hp, lookup_delete_eq. by eapply same_frame_wake.
      * intros t' q Hne Ht' Hv2. rewrite Hp. by rewrite lookup_delete_ne.
      * eapply pilot_frame; [done|by rewrite Hf|done|apply HI].
    + rewrite (blocked_law KeyedRelease (kernel g) a t He). eexists _, _. split; [done|]. exists W, L, C. rewrite list_insert_id by done. by destruct g.
  - rewrite decide_False in Hv by done. destruct Hv as (Hs & c & HC & Hch).
    destruct (enter_law KeyedRelease (kernel g) a t He) as [(t' & Ht' & Hst & Hp)|(Hnp & Hst & Hp)]; destruct (keyed_call KeyedRelease (kernel g) a t) as [k' st];
      cbn [fst snd partner] in *; subst st; (eexists _, _; split; [done|]); change (NT_SUCCESS STATUS_SUCCESS) with true; cbv iota.
    + destruct (wake_next (frames g) (pending k' !! t) W L b c k Hch) as (Hv' & Hf & Hw & Htr & Hx & Hsh & Hl & Hnk); [intros x Hx; apply Hnz; rewrite HC; by right|done|].
      assert (Hne : t' <> t) by congruence.
      exists W, L, (take_over C t c). eapply (inv_signal g); try done; cbn [frames kernel set_kernel].
      * rewrite Hp. pose proof (tokens_release _ _ _ _ _ _ _ _ _ HT HC Ht') as HT1. eapply tokens_quiet; [done|done|apply untouched_refl| |done].
        rewrite <- (lookup_insert_ne (pending (kernel g)) t' t (KeyedWait, a, true)) in He by done. rewrite He at 2. by eapply same_frame_wake.
      * by rewrite take_over_eq.
      * intros t1 q Hne1 Ht1 Hv2. rewrite Hp, take_over_ne by done. destruct (decide (t1 = t')) as [->|]; [|by rewrite lookup_insert_ne].
        destruct (tk_call _ _ _ _ _ HT t' _ _ _ Ht') as (q' & Hq' & Hc'). rewrite Ht1 in Hq'. injection Hq' as <-. by destruct q.
      * eapply pilot_frame; [done|by rewrite Hf|done|apply HI].
    + exists W, L, C. eapply (inv_signal g); try done; cbn [frames kernel set_kernel]; rewrite ?list_insert_id by done.
      * rewrite Hp. by eapply tokens_enter.
      * split; [|done]. cbn [waking_ok]. rewrite Hp, lookup_insert_eq, decide_False by done. split; [done|by exists c].
      * intros t1 q Hne1 Ht1 Hv2. rewrite Hp. by rewrite lookup_insert_ne.
      * apply HI.
Qed.

(** A woken thread leaves its wait block. *)
Lemma same_frame_woken m m' e L C p x w v : waits p = Some w -> ~ queued L C w -> block_ok w -> is_Some (m' !! w) -> same_frame m m' e None L C p (AcquireTry x w v).
Proof.
  intros Hw Hq Hb Hs. split; [|done| |done].
  - intros w' [= <-]. by split_and!; [..|left; apply waits_frame].
  - intros w' Hw' _. congruence.
Qed.

Lemma block_spin_ok g ts t x w v i W L C : inv g ts W L C -> ts !! t = Some (BlockSpin x w v i) -> step_ok ts t (block_spin g x w v i).
Proof.
  intros HI Ht. destruct (view_of _ _ _ _ _ _ _ HI Ht) as [HC Hst]. pose proof (inv_tokens _ _ _ _ _ HI) as HT.
  destruct (tk_frame _ _ _ _ _ HT t _ w Ht eq_refl) as [Hb [b Hfb]]. destruct i as [|i]; cbn [block_spin].
  - by eapply (keeps_local g ts t).
  - unfold read. rewrite Hfb. cbn [mbind option_bind]. change PH_QUEUED_WAITER_SPINNING with (2 ^ PH_QUEUED_WAITER_SPINNING_SHIFT). rewrite has_bit by done.
    destruct (Z.testbit (Flags b) PH_QUEUED_WAITER_SPINNING_SHIFT) eqn:Hs; [by eapply (keeps_local g ts t)|].
    assert (Hnq : ~ queued L C w). { apply (tk_signal _ _ _ _ _ HT t _ w Ht eq_refl). unfold signalled, spinning. by rewrite (lookup_total_correct _ _ _ Hfb). }
    assert (He : pending (kernel g) !! t = None) by (eapply tokens_none; [done|done|intros [] key []]).
    eexists _, _. split; [done|]. exists W, L, C. eapply (inv_signal g); try done.
    + eapply tokens_quiet; [done|done|apply untouched_refl| |done]. rewrite He at 2. eapply same_frame_woken; [done|done|done|by eexists].
    + eapply pilot_frame; [done|done|done|apply HI].
Qed.

Lemma block_reset_ok g ts t x w v W L C : inv g ts W L C -> ts !! t = Some (BlockReset x w v) -> step_ok ts t (block_reset g x w v).
Proof.
  intros HI Ht. destruct (view_of _ _ _ _ _ _ _ HI Ht) as [HC Hst]. pose proof (inv_tokens _ _ _ _ _ HI) as HT.
  destruct (tk_frame _ _ _ _ _ HT t _ w Ht eq_refl) as [Hb [b Hfb]].
  assert (He : pending (kernel g) !! t = None) by (eapply tokens_none; [done|done|intros [] key []]).
  unfold block_reset, reset_spinning, read. rewrite Hfb. cbn [mbind option_bind]. rewrite (update_insert _ _ _ _ Hfb). cbn [mbind option_bind].
  destruct (same_links_reset (frames g) w b Hfb) as (HS & Hsa & Hsx). pose proof (tk_signal _ _ _ _ _ HT t _ w Ht eq_refl) as Hsig.
  assert (Hspin : Z.testbit (Flags b) PH_QUEUED_WAITER_SPINNING_SHIFT = spinning (frames g) w) by (unfold spinning; by rewrite (lookup_total_correct _ _ _ Hfb)).
  rewrite Hspin. set (m' := <[w := _]> (frames g)) in *. eexists _, _. split; [done|]. exists W, L, C.
  assert (Hdom : forall a, is_Some (frames g !! a) -> is_Some (m' !! a)) by (intros a; apply is_Some_insert).
  cbn [signalled] in Hsig. destruct (spinning (frames g) w) eqn:Hs; eapply (inv_signal g); try done; cbn [frames kernel set_frames].
  - eapply (tokens_signals (frames g)); [|done|].
    + eapply (tokens_quiet (frames g)); [done|done|apply untouched_refl| |done]. rewrite He. split; [|intros w' [= <-]; split; [done|]|done|done].
      * intros w' [= <-]. by split_and!; [|eexists|left].
      * cbn [signalled]. rewrite Hs. done.
    + intros t' q w' [(-> & <- & _)|(Hne & Ht')]%list_lookup_insert_Some Hq; [done|].
      unfold signalled. rewrite (Hsx w'); [by destruct q|]. intros ->. destruct Hne. by eapply (tk_frames _ _ _ _ _ HT t t'); [done|done|done|apply waits_frame].
  - eapply pilot_frame; [done|done|done|apply HI].
  - assert (Hsp : forall a, spinning m' a = spinning (frames g) a) by (intros a; destruct (decide (a = w)) as [->|]; [congruence|by apply Hsx]).
    eapply tokens_flags; [|done|done]. eapply tokens_quiet; [done|done|apply untouched_refl| |done]. rewrite He at 2. eapply same_frame_woken; [done| |done|by eexists]. by apply Hsig.
  - eapply pilot_frame; [done|done|done|apply HI].
Qed.
(** The wait finds the release in its call: as if it had been in its own already, and then left. *)
Lemma tokens_wait m (E : gmap nat (keyed * Z * bool)) L C ts t r x w v c : tokens_ok m E L C ts -> ts !! t = Some (BlockKey x w v) -> E !! t = None ->
  E !! r = Some (KeyedRelease, w, false) -> C r = w :: c ->
  tokens_ok m (<[r := (KeyedRelease, w, true)]> E) L (take_over C r c) (<[t := AcquireTry x w v]> ts).
Proof.
  intros HT Ht He Hr HC. assert (Hne : r <> t) by congruence. set (E1 := <[r := (KeyedRelease, w, true)]> E).
  assert (HE1 : E1 !! t = None) by (unfold E1; by rewrite lookup_insert_ne).
  assert (HT1 : tokens_ok m (<[t := (KeyedWait, w, true)]> E1) L (take_over C r c) ts).
  { eapply (tokens_drop m); try done.
    - intros t1 q Ht1 Hq. assert (t1 = t) as -> by (eapply (tk_frames _ _ _ _ _ HT); [done|done|by apply waits_frame|done]).
      rewrite Ht in Ht1. injection Ht1 as <-. cbn [signalled]. by rewrite lookup_insert_eq.
    - intros t1 q w' Ht1 Hq Hw'. destruct (decide (t1 = t)) as [->|Hne1].
      + rewrite Ht in Ht1. injection Ht1 as <-. cbn in Hq. congruence.
      + rewrite lookup_insert_ne by done. by eapply signalled_match.
    - intros t1 d key b. destruct (decide (t1 = t)) as [->|Hne1]; [rewrite lookup_insert_eq; intros [= <- <- <-]; by eexists|].
      rewrite lookup_insert_ne by done. by eapply calls_match.
    - intros t1 t2 key H1 H2. destruct (decide (t1 = t)) as [->|Hne1]; [by rewrite lookup_insert_eq in H1|]. destruct (decide (t2 = t)) as [->|Hne2]; [by rewrite lookup_insert_eq in H2|].
      rewrite lookup_insert_ne in H1, H2 by done. by eapply pair_match. }
  destruct (tk_frame _ _ _ _ _ HT t _ w Ht eq_refl) as [Hb Hs].
  eapply tokens_quiet; [done|done|apply untouched_refl| |intros t' Hne'; by rewrite lookup_insert_ne]. rewrite HE1. eapply same_frame_woken; [done| |done|done].
  apply (tk_signal _ _ _ _ _ HT1 t _ w Ht eq_refl). cbn [signalled]. by rewrite lookup_insert_eq.
Qed.

Lemma block_key_ok g ts t x w v W L C : inv g ts W L C -> ts !! t = Some (BlockKey x w v) -> step_ok ts t (Some (block_key g t x w v)).
Proof.
  intros HI Ht. destruct (view_of _ _ _ _ _ _ _ HI Ht) as (HC & Hst & Hs). pose proof (inv_tokens _ _ _ _ _ HI) as HT.
  destruct (tk_frame _ _ _ _ _ HT t _ w Ht eq_refl) as [Hb Hsome]. pose proof (tk_signal _ _ _ _ _ HT t _ w Ht eq_refl) as Hsig.
  unfold block_key. change (NtWaitForKeyedEvent (kernel g) w t) with (keyed_call KeyedWait (kernel g) w t).
  destruct (pending (kernel g) !! t) as [[[d key] m]|] eqn:He.
  - destruct (tk_call _ _ _ _ _ HT t d key m He) as (q & Hq & Hc). rewrite Ht in Hq. injection Hq as <-. destruct d; [|done]. cbn in Hc. subst key. destruct m.
    + destruct (leave_law KeyedWait (kernel g) w t He) as [Hst' Hp]. destruct (keyed_call KeyedWait (kernel g) w t) as [k' st]. cbn [fst snd] in *. subst st.
      change (NT_SUCCESS STATUS_SUCCESS) with true. cbv iota. eexists _, _. split; [done|]. exists W, L, C. eapply (inv_signal g); try done; cbn [frames kernel set_kernel].
      * rewrite Hp. eapply (tokens_quiet (frames g)); [done|done|apply untouched_refl| |intros t' Hne; by rewrite lookup_delete_ne].
        rewrite lookup_delete_eq. eapply same_frame_woken; [done| |done|done]. by apply Hsig.
      * intros t' q Hne Ht' Hv2. rewrite Hp. by rewrite lookup_delete_ne.
      * eapply pilot_frame; [done|done|done|apply HI].
    + rewrite (blocked_law KeyedWait (kernel g) w t He). eexists _, _. split; [done|]. exists W, L, C. rewrite list_insert_id by done. by destruct g.
  - destruct (enter_law KeyedWait (kernel g) w t He) as [(r & Hr & Hst' & Hp)|(Hnp & Hst' & Hp)]; destruct (keyed_call KeyedWait (kernel g) w t) as [k' st];
      cbn [fst snd partner] in *; subst st; (eexists _, _; split; [done|]).
    + change (NT_SUCCESS STATUS_SUCCESS) with true. cbv iota.
      destruct (tk_call _ _ _ _ _ HT r _ _ _ Hr) as (q & Hq & Hc). destruct q; try done. destruct u as [|a|a b]; try done. cbn in Hc. subst a.
      destruct (view_of _ _ _ _ _ _ _ HI Hq) as [Hv Hk]. cbn [waking_ok] in Hv. rewrite decide_False in Hv by congruence. destruct Hv as (_ & c & HCr & Hch).
      assert (Hne : r <> t) by congruence. exists W, L, (take_over C r c). eapply (inv_signal g); try done; cbn [frames kernel set_kernel].
      * rewrite Hp. by apply tokens_wait.
      * rewrite take_over_ne by congruence. by split.
      * intros t1 q Hne1 Ht1 Hv2. rewrite Hp. destruct (decide (t1 = r)) as [->|Hne2].
        -- rewrite Hq in Ht1. injection Ht1 as <-. rewrite lookup_insert_eq, take_over_eq. split; [|done]. cbn [waking_ok]. by rewrite decide_True.
        -- by rewrite lookup_insert_ne, take_over_ne by congruence.
      * eapply pilot_frame; [done|done|done|apply HI].
    + exists W, L, C. eapply (inv_signal g); try done; cbn [frames kernel set_kernel]; rewrite ?list_insert_id by done.
      * rewrite Hp. by eapply tokens_enter.
      * intros t1 q Hne1 Ht1 Hv2. rewrite Hp. by rewrite lookup_insert_ne.
      * apply HI.
Qed.

(** ** Owners *)

(** A thread with no wait block, no frame and no call of the kernel. *)
Record plain_pc p : Prop := {
  pl_frame : frame_of p = None;
  pl_traversing : traversing p = 0;
  pl_calls : forall d key, ~ calling d key p;
}.

Ltac plain_pc := split; [done|done|intros [] key []].

Lemma pl_waits p : plain_pc p -> waits p = None.
Proof. intros [Hf _ _]. by destruct p. Qed.

Lemma inv_owner g ts t p p' W W' L C : inv g ts W L C -> ts !! t = Some p -> plain_pc p -> frame_of p' = None -> word_ok W' -> chain_ok (frames g) W' L ->
  owners_ok W' (tally holds_exclusive ts - holds_exclusive p + holds_exclusive p') (tally holds_shared ts - holds_shared p + holds_shared p')
    (tally holds_last ts - holds_last p + holds_last p') (SharedOwners (frames g !!! tail_of L)) ->
  Z.b2z (traversed W) + traversing p' = Z.b2z (traversed W') ->
  (traversed W = true -> multiple W = false -> multiple W' = false) ->
  (forall t' q, t' <> t -> ts !! t' = Some q -> finding q = true -> multiple W' = true) ->
  view (frames g) (pending (kernel g) !! t) W' L (C t) p' -> pilot_ok W' L (<[t := p']> ts) ->
  inv (set_value g (enc W')) (<[t := p']> ts) W' L C.
Proof.
  intros HI Ht Hp Hf' HW' Hc Ho Htr Hm Hfind Hv Hpi. destruct (Hp) as [Hf Htp Hcalls]. eapply (inv_quiet g); try done.
  - apply untouched_refl.
  - assert (Hw' : waits p' = None) by (by destruct p'). split; [by rewrite Hf'|by rewrite Hw'|by rewrite (pl_waits p Hp)|].
    intros d key b _. split; [done|]. intros Hd. by destruct (Hcalls d key).
  - lia.
  - intros _ Htw. split; [|by apply Hm]. rewrite Htw in Htr. destruct (weights_nonneg p') as (_ & _ & _ & ?). destruct (traversed W'); [done|cbn in Htr; lia].
Qed.

Lemma finding_only_shared g ts W L C t q : inv g ts W L C -> ts !! t = Some q -> finding q = true -> multiple W = true /\ 1 <= tally holds_shared ts.
Proof. intros HI Ht Hq. split; [by eapply finding_multiple|by eapply finding_shared]. Qed.

(** What the word is for an exclusive owner; for a shared owner; for the last one. *)
Lemma tallies_nonneg ts : 0 <= tally holds_exclusive ts /\ 0 <= tally holds_shared ts /\ 0 <= tally holds_last ts.
Proof. split_and!; apply tally_nonneg; apply weights_nonneg. Qed.

Lemma exclusive_word g ts t p W L C : inv g ts W L C -> ts !! t = Some p -> holds_exclusive p = 1 ->
  (W = Plain true 0 \/ exists a tr, W = Queue a true tr false) /\ tally holds_exclusive ts = 1 /\ tally holds_shared ts = 0 /\ tally holds_last ts = 0.
Proof.
  intros HI Ht Hp. pose proof (inv_owners _ _ _ _ _ HI) as Ho. pose proof (tally_lookup holds_exclusive ltac:(apply weights_nonneg) ts t p Ht) as Hle. rewrite Hp in Hle.
  pose proof (tallies_nonneg ts) as (? & ? & ?). destruct W as [[] c|a [] tr []]; cbn [owners_ok] in Ho; try lia.
  - destruct Ho as (? & ? & Hx). destruct (Z.eqb_spec c 0); [|lia]. split_and!; [left; congruence|lia..].
  - split_and!; [right; by eexists _, _|lia..].
Qed.

Lemma shared_word g ts t p W L C : inv g ts W L C -> ts !! t = Some p -> holds_shared p = 1 ->
  (exists c, W = Plain true c /\ 0 < c < 2 ^ 31) \/ (exists a tr mu, W = Queue a true tr mu).
Proof.
  intros HI Ht Hp. pose proof (inv_owners _ _ _ _ _ HI) as Ho. pose proof (tally_lookup holds_shared ltac:(apply weights_nonneg) ts t p Ht) as Hle. rewrite Hp in Hle.
  pose proof (inv_word _ _ _ _ _ HI) as HW. destruct W as [[] c|a [] tr mu]; cbn [owners_ok] in Ho; try lia; [|right; by eexists _, _, _].
  left. exists c. split; [done|]. cbn in HW. lia.
Qed.

Lemma last_word g ts t p W L C : inv g ts W L C -> ts !! t = Some p -> holds_last p = 1 ->
  (exists a tr mu, W = Queue a true tr mu) /\ tally holds_exclusive ts = 0 /\ tally holds_shared ts = 0 /\ tally holds_last ts = 1.
Proof.
  intros HI Ht Hp. pose proof (inv_owners _ _ _ _ _ HI) as Ho. pose proof (tally_lookup holds_last ltac:(apply weights_nonneg) ts t p Ht) as Hle. rewrite Hp in Hle.
  pose proof (tallies_nonneg ts) as (? & ? & ?). destruct W as [[] c|a [] tr []]; cbn [owners_ok] in Ho; try lia; (split; [by eexists _, _, _|]); [|lia].
  destruct Ho as (? & ? & Hr). destruct (Z.eqb_spec (tally holds_shared ts) 0); lia.
Qed.

(** Nobody but shared owners looks for the last block. *)
Lemma nobody_finds g ts W L C : inv g ts W L C -> multiple W = false \/ tally holds_shared ts <= 0 -> forall t' q, ts !! t' = Some q -> finding q = true -> False.
Proof. intros HI Hm t' q Ht' Hq. destruct (finding_only_shared _ _ _ _ _ _ _ HI Ht' Hq). destruct Hm; [congruence|lia]. Qed.

Lemma try_acquire_ok g ts t W L C : inv g ts W L C -> ts !! t = Some TryAcquire ->
  exists p', (let '(g', ok) := PhTryAcquireQueuedLockExclusive g in Some (Some (g', if ok then Owner true else Idle))) = Some (Some (set_value g (enc (own true W)), p')) /\
    keeps (set_value g (enc (own true W))) (<[t := p']> ts).
Proof.
  intros HI Ht. pose proof (view_of _ _ _ _ _ _ _ HI Ht) as HC. cbn [view] in HC. pose proof (inv_word _ _ _ _ _ HI) as HW. pose proof (inv_owners _ _ _ _ _ HI) as Ho.
  unfold PhTryAcquireQueuedLockExclusive. rewrite (inv_value _ _ _ _ _ HI), has_owned, enc_setbit by done. eexists. split; [done|].
  destruct (owned_bit W) eqn:Hown; cbn [negb].
  - rewrite own_owned, <- (inv_value _ _ _ _ _ HI), set_value_same by done. exists W, L, C. by eapply (inv_unmoved g ts t).
  - exists (own true W), L, C. eapply (inv_owner g); try done.
    + plain_pc.
    + by apply own_ok.
    + pose proof (inv_chain _ _ _ _ _ HI). by destruct W.
    + cbn [holds_exclusive holds_shared holds_last]. rewrite !Z.sub_0_r, !Z.add_0_r. destruct W as [o c|a o tr mu]; cbn [owned_bit] in Hown; subst o; cbn [own owners_ok] in *.
      * destruct Ho as (-> & -> & -> & ->). done.
      * destruct Ho as (-> & -> & -> & ->). done.
    + destruct W; cbn; lia.
    + by destruct W.
    + intros t' q _ Ht' Hq. pose proof (finding_multiple _ _ _ _ _ _ _ HI Ht' Hq). by destruct W.
    + apply pilot_owned. left. by destruct W.
Qed.

(** ** Releasing an exclusive lock *)

(** An exclusive owner gives up the word and goes on as [p']. *)
Lemma inv_disown g ts t p p' W L C : inv g ts W L C -> ts !! t = Some p -> plain_pc p -> holds_exclusive p = 1 -> holds_shared p = 0 -> holds_last p = 0 ->
  (p' = Idle \/ p' = WakeForRelease (enc (own false W))) -> C t = [] ->
  (forall a mu, W = Queue a true false mu -> p' = WakeForRelease (enc (own false W))) ->
  (p' = WakeForRelease (enc (own false W)) -> exists a, W = Queue a true false false) ->
  keeps (set_value g (enc (own false W))) (<[t := p']> ts).
Proof.
  intros HI Ht Hp Hx Hs Hl Hp' HC Hpi Hpw. destruct (exclusive_word _ _ _ _ _ _ _ HI Ht Hx) as (HW & Tx & Ts & Tl). pose proof (inv_chain _ _ _ _ _ HI) as Hc.
  assert (Hw : frame_of p' = None /\ holds_exclusive p' = 0 /\ holds_shared p' = 0 /\ holds_last p' = 0 /\ traversing p' = 0) by (by destruct Hp' as [->| ->]).
  destruct Hw as (Hf' & Hx' & Hs' & Hl' & Ht').
  exists (own false W), L, C. eapply (inv_owner g); try done.
  - destruct HW as [->|(a & tr & ->)]; [done|]. apply (inv_word _ _ _ _ _ HI).
  - by destruct HW as [->|(a & tr & ->)].
  - rewrite Tx, Ts, Tl, Hx, Hs, Hl, Hx', Hs', Hl'. by destruct HW as [->|(a & tr & ->)].
  - rewrite Ht'. destruct W; cbn; lia.
  - by destruct W.
  - intros t' q _ Hq Hfq. exfalso. eapply nobody_finds; [done| |done|done]. right. lia.
  - destruct Hp' as [->| ->]; [done|]. destruct (Hpw eq_refl) as [a ->]. cbn [view own]. split; [done|]. exists a. split; [|done]. apply (inv_word _ _ _ _ _ HI).
  - destruct W as [o c|a o [] mu]; try done. cbn [own pilot_ok]. exists t, p'. split; [by apply list_lookup_insert_eq; eapply lookup_lt_Some|]. left.
    destruct HW as [HW|(a' & tr & HW)]; [done|]. injection HW as -> -> <- ->. by apply (Hpi a' false).
Qed.

Lemma release_fast_ok g ts t W L C : inv g ts W L C -> ts !! t = Some ReleaseFast -> step_ok ts t (Some (PhReleaseQueuedLockExclusive g)).
Proof.
  intros HI Ht. pose proof (view_of _ _ _ _ _ _ _ HI Ht) as HC. cbn [view] in HC. pose proof (inv_word _ _ _ _ _ HI) as HW.
  destruct (exclusive_word _ _ _ _ _ _ _ HI Ht eq_refl) as (HWc & _). unfold PhReleaseQueuedLockExclusive. rewrite (inv_value _ _ _ _ _ HI), waiters_untraversed by done.
  assert (Hown : owned_bit W = true /\ word_ok (own false W)) by (destruct HWc as [->|(a & tr & ->)]; split; try done; by cbn in *). destruct Hown as [Hown Hok].
  rewrite enc_disown by done. eexists _, _. split; [done|]. eapply inv_disown; try done.
  - plain_pc.
  - destruct HWc as [->|(a & [] & ->)]; [by left|by left|by right].
  - intros a mu ->. done.
  - destruct HWc as [->|(a & [] & ->)]; [done|done|by exists a].
Qed.

(** Setting TRAVERSING on a word nobody owns: the thread becomes the traverser. *)
Lemma inv_start_waking g ts t p W a L C : inv g ts W L C -> ts !! t = Some p -> plain_pc p -> C t = [] -> (exists o mu, W = Queue a o false mu) ->
  tally holds_exclusive ts - holds_exclusive p = 0 -> tally holds_shared ts - holds_shared p = 0 -> tally holds_last ts - holds_last p = 0 -> tally holds_shared ts = 0 ->
  exists p', PhpPrepareToWakeQueuedLock (enc (Queue a false true false)) ToReturn = Some p' /\ keeps (set_value g (enc (Queue a false true false))) (<[t := p']> ts).
Proof.
  intros HI Ht Hp HC (o & mu & ->) Hx Hs Hl Hns. pose proof (inv_word _ _ _ _ _ HI) as HW.
  assert (Hc : chain_ok (frames g) (Queue a false true false) L) by (destruct (inv_chain _ _ _ _ _ HI) as (? & ? & ? & ? & _); by split_and!).
  destruct (wake_start (frames g) a false L ToReturn Hc HW) as (tr & -> & _ & Htr). eexists. split; [done|].
  exists (Queue a false true false), L, C. eapply (inv_owner g); try done.
  - rewrite Hx, Hs, Hl. done.
  - intros t' q _ Hq Hfq. exfalso. eapply nobody_finds; [done| |done|done]. right. lia.
  - split; [by rewrite HC|done].
Qed.

Lemma wake_for_release_ok g ts t v W L C : inv g ts W L C -> ts !! t = Some (WakeForRelease v) -> step_ok ts t (PhfWakeForReleaseQueuedLock g v).
Proof.
  intros HI Ht. destruct (view_of _ _ _ _ _ _ _ HI Ht) as (HC & f & Hf & ->). pose proof (inv_word _ _ _ _ _ HI) as HW. pose proof (inv_owners _ _ _ _ _ HI) as Ho.
  unfold PhfWakeForReleaseQueuedLock. destruct (enc_traversing f false false false Hf) as (_ & -> & _). unfold cas. rewrite (inv_value _ _ _ _ _ HI).
  destruct (Z.eqb_spec (enc W) (enc (Queue f false false false))) as [E|E].
  - apply enc_inj in E as ->; [|done|done]. cbn [owners_ok] in Ho. destruct Ho as (_ & Hx & Hs & Hl).
    destruct (inv_start_waking g ts t (WakeForRelease (enc (Queue f false false false))) (Queue f false false false) f L C) as (p' & -> & Hk); try done; [plain_pc|by eexists _, _|cbn; lia..|].
    by eexists _, _.
  - eapply (keeps_local g ts t); try done. congruence.
Qed.

Lemma release_read_ok g ts t p W L C : inv g ts W L C -> ts !! t = Some p -> plain_pc p -> C t = [] -> holds_exclusive p = 1 -> holds_shared p = 0 -> holds_last p = 0 ->
  step_ok ts t (Some (g, ReleaseTry (Value g))).
Proof.
  intros HI Ht Hp HC Hx Hs Hl. destruct (exclusive_word _ _ _ _ _ _ _ HI Ht Hx) as (HWc & _). destruct (Hp) as [Hf Htr Hcalls]. eapply (keeps_local g ts t p); try done.
  - by rewrite (pl_waits p Hp).
  - rewrite (pl_waits p Hp). done.
  - intros d key Hd. by destruct (Hcalls d key).
  - by intros ->.
  - split; [done|]. exists W. split_and!; [apply HI|apply HI|..]; by destruct HWc as [->|(a & tr & ->)].
Qed.

Lemma release_try_ok g ts t v W L C : inv g ts W L C -> ts !! t = Some (ReleaseTry v) -> step_ok ts t (PhfReleaseQueuedLockExclusive g v).
Proof.
  intros HI Ht. destruct (view_of _ _ _ _ _ _ _ HI Ht) as (HC & W0 & HW0 & -> & Ho0 & Hpl). pose proof (inv_word _ _ _ _ _ HI) as HW.
  unfold PhfReleaseQueuedLockExclusive. rewrite has_owned, has_waiters, waiters_untraversed, Ho0 by done.
  assert (Has : is_queue W0 || (PhGetQueuedLockSharedOwners (enc W0) =? 0) = true) by (destruct W0; [rewrite get_owners; subst; done|done]). rewrite Has. cbn [negb orb].
  assert (Hagain : step_ok ts t (Some (g, ReleaseTry (Value g)))) by (eapply release_read_ok; try done; plain_pc).
  destruct (exclusive_word _ _ _ _ _ _ _ HI Ht eq_refl) as (HWc & Tx & Ts & Tl).
  destruct (match W0 with Plain _ _ => false | Queue _ _ t _ => negb t end) eqn:Eu; cbn [negb].
  - destruct W0 as [|a o tr mu]; [done|]. cbn [owned_bit] in Ho0. subst o. destruct tr; [done|]. rewrite enc_hand_over by done.
    destruct (cas_cases g W (Queue a true false mu) (enc (Queue a false true mu))) as [[-> ->]| ->]; try done; try apply HI.
    destruct HWc as [HWc|(a' & tr & HWc)]; [done|]. injection HWc as -> <- ->.
    destruct (inv_start_waking g ts t (ReleaseTry (enc (Queue a' true false false))) (Queue a' true false false) a' L C) as (p' & -> & Hk); try done; [plain_pc|by eexists _, _|cbn; lia..|].
    by eexists _, _.
  - assert (Hok : word_ok (own false W0)) by (destruct W0; [subst; done|done]). rewrite enc_disown by done.
    destruct (cas_cases g W W0 (enc (own false W0))) as [[-> ->]| ->]; try done; try apply HI.
    eexists _, _. split; [done|]. eapply inv_disown; try done; [plain_pc|by left|]. intros a mu ->. done.
Qed.

(** ** Releasing a shared lock *)

Record shared_pc p : Prop := {
  sh_plain : plain_pc p;
  sh_shared : holds_shared p = 1;
  sh_others : holds_exclusive p = 0 /\ holds_last p = 0;
}.

Ltac shared_pc := split; [plain_pc|done|done].

Lemma shared_local g ts t p p' W L C : inv g ts W L C -> ts !! t = Some p -> shared_pc p -> shared_pc p' -> view (frames g) (pending (kernel g) !! t) W L (C t) p' -> step_ok ts t (Some (g, p')).
Proof.
  intros HI Ht [Hp Hs [Hx Hl]] [Hp' Hs' [Hx' Hl']] Hv. pose proof (pl_waits p Hp) as Hw. pose proof (pl_waits p' Hp') as Hw'.
  destruct (Hp) as [Hf Htr Hcalls], (Hp') as [Hf' Htr' _].
  eapply (keeps_local g ts t p); [done|done|congruence|congruence|congruence|congruence|congruence|congruence| | | |done].
  - by rewrite Hw.
  - intros d key Hd. by destruct (Hcalls d key).
  - by intros ->.
Qed.

(** A shared owner that has read the word. *)
Lemma shared_test_ok g ts t p W L C : inv g ts W L C -> ts !! t = Some p -> shared_pc p -> C t = [] -> step_ok ts t (Some (g, release_shared_test (Value g))).
Proof.
  intros HI Ht Hsh HC. destruct (Hsh) as [Hp Hs [Hx Hl]]. destruct (Hp) as [Hf Htr Hcalls]. pose proof (inv_word _ _ _ _ _ HI) as HW. pose proof (inv_owners _ _ _ _ _ HI) as Ho.
  unfold release_shared_test. rewrite (inv_value _ _ _ _ _ HI), has_waiters by done.
  destruct (shared_word _ _ _ _ _ _ _ HI Ht Hs) as [(c & -> & Hc)|(a & tr & mu & ->)]; cbn [is_queue negb].
  - eapply shared_local; [done|done|done|shared_pc|]. split; [done|by exists c].
  - rewrite has_multiple, get_block by done. destruct (chain_queue _ _ _ _ _ _ (inv_chain _ _ _ _ _ HI)) as [L' EL]. destruct mu.
    + eapply shared_local; [done|done|done|shared_pc|]. split_and!; [done|by eexists _, _, _, _|done|rewrite EL; by left].
    + eexists _, _. split; [done|]. exists (Queue a true tr false), L, C. rewrite <- (set_value_same g), (inv_value _ _ _ _ _ HI). eapply (inv_owner g); try done.
      * apply HI.
      * cbn [owners_ok holds_exclusive holds_shared holds_last] in *. lia.
      * cbn. lia.
      * intros t' q _. by apply (finding_multiple _ _ _ _ _ _ _ HI).
      * split; [done|]. by eexists _, _, _, _.
Qed.

Lemma release_shared_fast_ok g ts t W L C : inv g ts W L C -> ts !! t = Some ReleaseSharedFast -> step_ok ts t (Some (PhReleaseQueuedLockShared g)).
Proof.
  intros HI Ht. pose proof (view_of _ _ _ _ _ _ _ HI Ht) as HC. cbn [view] in HC. pose proof (inv_owners _ _ _ _ _ HI) as Ho.
  unfold PhReleaseQueuedLockShared. change (Z.lor PH_QUEUED_LOCK_OWNED PH_QUEUED_LOCK_SHARED_INC) with (enc (Plain true 1)).
  destruct (cas_cases g W (Plain true 1) 0) as [[-> ->]| ->]; try done; try apply HI.
  - eexists _, _. split; [done|]. exists (Plain false 0), L, C. change 0 with (enc (Plain false 0)) at 1. eapply (inv_owner g); try done.
    + plain_pc.
    + apply (inv_chain _ _ _ _ _ HI).
    + cbn [owners_ok holds_exclusive holds_shared holds_last] in *. destruct Ho as (-> & -> & ->). done.
    + intros t' q _ Hq Hfq. exfalso. eapply nobody_finds; [done|by left|done|done].
  - by eapply (keeps_local g ts t).
Qed.

Lemma release_shared_try_ok g ts t v W L C : inv g ts W L C -> ts !! t = Some (ReleaseSharedTry v) -> step_ok ts t (release_shared_try g v).
Proof.
  intros HI Ht. destruct (view_of _ _ _ _ _ _ _ HI Ht) as (HC & n & Hn & ->). pose proof (inv_owners _ _ _ _ _ HI) as Ho.
  assert (Hok : word_ok (Plain true n)) by (cbn; lia). unfold release_shared_try. rewrite has_owned, has_waiters, get_owners by done. cbn [owned_bit is_queue negb orb].
  replace (0 <? n) with true by lia. cbn [negb].
  destruct (cas_cases g W (Plain true n) (if 1 <? n then enc (Plain true n) -₆₄ PH_QUEUED_LOCK_SHARED_INC else 0)) as [[-> ->]| ->]; try done; try apply HI.
  - cbn [owners_ok] in Ho. destruct Ho as (Hl & Hs & Hx). eexists _, _. split; [done|].
    replace (if 1 <? n then enc (Plain true n) -₆₄ PH_QUEUED_LOCK_SHARED_INC else 0) with (enc (Plain (1 <? n) (n - 1))).
    2: { destruct (Z.ltb_spec 1 n); [rewrite enc_unshare by lia; done|]. by replace n with 1 by lia. }
    exists (Plain (1 <? n) (n - 1)), L, C. eapply (inv_owner g); try done.
    + plain_pc.
    + cbn. destruct (Z.ltb_spec 1 n); lia.
    + apply (inv_chain _ _ _ _ _ HI).
    + rewrite Hl, Hs, Hx. cbn [holds_exclusive holds_shared holds_last]. destruct (Z.ltb_spec 1 n); cbn [owners_ok].
      * replace (n =? 0) with false by lia. replace (n - 1 =? 0) with false by lia. lia.
      * replace (n =? 0) with false by lia. lia.
    + intros t' q _ Hq Hfq. exfalso. eapply nobody_finds; [done|by left|done|done].
  - eapply shared_test_ok; try done. shared_pc.
Qed.

Lemma chain_multiple g ts W L C : inv g ts W L C -> multiple W = true -> nexts (frames g) L /\ L <> [] /\ Last (frames g !!! tail_of L) = tail_of L /\
  forall b, b ∈ L -> Last (frames g !!! b) = 0 \/ Last (frames g !!! b) = tail_of L.
Proof.
  intros HI Hm. pose proof (inv_chain _ _ _ _ _ HI) as Hc. pose proof (queue_chain _ _ _ _ _ HI) as HL. destruct W as [|a o tr mu]; [done|]. cbn [multiple] in Hm. subst mu.
  destruct Hc as (_ & ? & _ & _ & Hc). destruct (Hc eq_refl). split_and!; auto.
Qed.

Lemma find_last_ok g ts t v a W L C : inv g ts W L C -> ts !! t = Some (FindLast v a) -> step_ok ts t (PhpFindLastQueuedWaitBlock g v a).
Proof.
  intros HI Ht. destruct (view_of _ _ _ _ _ _ _ HI Ht) as (HC & Hv & Hm & Ha). destruct (block_frame _ _ _ _ _ a HI Ha) as (_ & b & Hb & Hbt).
  destruct (chain_multiple _ _ _ _ _ HI Hm) as (_ & HL & Htl & Hlast). pose proof (tail_nonzero _ _ _ _ _ HI HL).
  unfold PhpFindLastQueuedWaitBlock, read. rewrite Hb. cbn [mbind option_bind]. rewrite <- Hbt. destruct (Z.eqb_spec (Last (frames g !!! a)) 0) as [Hz|Hz].
  - eapply shared_local; [done|done|shared_pc|shared_pc|]. split_and!; try done. intros ->. congruence.
  - eapply shared_local; [done|done|shared_pc|shared_pc|]. split_and!; try done. by destruct (Hlast a Ha).
Qed.

Lemma next_in_chain m L a : nexts m L -> a ∈ L -> a <> tail_of L -> Next (m !!! a) ∈ L.
Proof.
  intros Hn Ha Ht. apply list_elem_of_split in Ha as (A & S & ->). destruct S as [|b S]; [by rewrite tail_of_snoc in Ht|]. rewrite (nexts_inner _ _ _ _ _ Hn). set_solver.
Qed.

Lemma find_next_ok g ts t v a W L C : inv g ts W L C -> ts !! t = Some (FindNext v a) ->
  exists b, frames g !! a = Some b /\ step_ok ts t (Some (g, FindLast v (Next b))).
Proof.
  intros HI Ht. destruct (view_of _ _ _ _ _ _ _ HI Ht) as (HC & Hv & Hm & Ha & Hne). destruct (block_frame _ _ _ _ _ a HI Ha) as (_ & b & Hb & Hbt).
  destruct (chain_multiple _ _ _ _ _ HI Hm) as (Hn & _). exists b. split; [done|]. rewrite <- Hbt.
  eapply shared_local; [done|done|shared_pc|shared_pc|]. split_and!; try done. by apply next_in_chain.
Qed.

(** The count in the last block goes down by one owner. *)
Lemma inv_count g ts t v p' a tr b W L C : inv g ts W L C -> W = Queue a true tr true -> ts !! t = Some (Decrement v (tail_of L)) -> frames g !! tail_of L = Some b -> C t = [] -> queue_word v ->
  p' = (if 0 <? SharedOwners b - 1 then Idle else ReleaseLast v) ->
  inv (set_frames g (<[tail_of L := set_SharedOwners b (SharedOwners b - 1)]> (frames g))) (<[t := p']> ts) W L C.
Proof.
  intros HI -> Ht Hb HC Hv ->. pose proof (inv_owners _ _ _ _ _ HI) as Ho. cbn [owners_ok] in Ho. rewrite (lookup_total_correct _ _ _ Hb) in Ho. destruct Ho as (Hx & Hs & Hl).
  pose proof (tally_lookup holds_shared ltac:(apply weights_nonneg) ts t _ Ht) as Hle. cbn [holds_shared] in Hle. pose proof (inv_tokens _ _ _ _ _ HI) as HT.
  set (c := set_SharedOwners b (SharedOwners b - 1)). set (m' := <[tail_of L := c]> (frames g)).
  assert (Hlinks : forall x, Next (m' !!! x) = Next (frames g !!! x) /\ Previous (m' !!! x) = Previous (frames g !!! x) /\ Last (m' !!! x) = Last (frames g !!! x)).
  { intros x. split_and!; [by apply (insert_next _ _ b)|by apply (insert_links _ _ b)|by apply (insert_last _ _ b)]. }
  destruct (same_waiters_insert (frames g) (tail_of L) b c Hb eq_refl) as [Hd Hsp].
  assert (Hp : forall p', p' = (if 0 <? SharedOwners b - 1 then Idle else ReleaseLast v) -> traversing p' = 0 /\ holds_exclusive p' = 0 /\ holds_shared p' = 0 /\ frame_of p' = None /\ waits p' = None)
    by (intros p' ->; by destruct (0 <? SharedOwners b - 1)).
  destruct (Hp _ eq_refl) as (Ptr & Px & Ps & Pf & Pw). split; cbn [Value frames kernel set_frames].
  - apply HI.
  - apply HI.
  - eapply chain_ext; [|apply HI]. intros x _. apply Hlinks.
  - rewrite !(tally_insert _ _ _ _ _ Ht), Px, Ps. cbn [holds_exclusive holds_shared holds_last owners_ok]. unfold m'. rewrite lookup_total_insert_eq. cbn [c set_SharedOwners SharedOwners].
    rewrite Hx, Hs, Hl. replace (tally holds_shared ts =? 0) with false in * by lia. replace (SharedOwners b =? 0) with false by lia.
    destruct (Z.ltb_spec 0 (SharedOwners b - 1)); cbn [holds_last]; split_and!; try lia.
    + replace (SharedOwners b - 1 + 0 =? 0) with false by lia. lia.
    + replace (SharedOwners b - 1 + 0 =? 0) with true by lia. lia.
  - rewrite (tally_insert _ _ _ _ _ Ht), (inv_traverser _ _ _ _ _ HI), Ptr. cbn. lia.
  - eapply tokens_flags; [|done|done]. eapply tokens_quiet; [done|done|apply untouched_refl| |done]. split; [by rewrite Pf|by rewrite Pw|done|].
    intros d key bb _. split; [done|]. by destruct d.
  - intros t' q [(-> & <- & _)|(Hne & Ht')]%list_lookup_insert_Some.
    + by destruct (0 <? SharedOwners b - 1).
    + eapply view_stable; [by apply (inv_views _ _ _ _ _ HI)| |intros; by rewrite Hsp| |].
      * intros x _. rewrite Hsp. split; [apply Hlinks|done].
      * intros Hq. pose proof (tally_lookup traversing ltac:(apply weights_nonneg) ts t' q Ht') as Hlt. rewrite (inv_traverser _ _ _ _ _ HI), Hq in Hlt.
        split; [exists []; split; [done|set_solver]|intros x _; split; apply Hlinks| |done]. cbn in *. by destruct tr.
      * done.
  - done.
  - rewrite length_insert. apply HI.
Qed.

Lemma decrement_ok g ts t v a W L C : inv g ts W L C -> ts !! t = Some (Decrement v a) -> step_ok ts t (decrement g v a).
Proof.
  intros HI Ht. destruct (view_of _ _ _ _ _ _ _ HI Ht) as (HC & Hv & Hm & ->). pose proof (inv_owners _ _ _ _ _ HI) as Ho. pose proof (inv_bound _ _ _ _ _ HI) as Hbound.
  destruct (chain_multiple _ _ _ _ _ HI Hm) as (_ & HL & _). destruct (block_frame _ _ _ _ _ _ HI (tail_of_elem L HL)) as (_ & b & Hb & Hbt).
  assert (HWq : exists x tr, W = Queue x true tr true).
  { destruct W as [|x o tr mu]; [done|]. cbn [multiple] in Hm. subst mu. destruct o; [by eexists _, _|]. by apply owners_unowned in Ho. }
  destruct HWq as (x & tr & EW). rewrite EW in Ho. cbn [owners_ok] in Ho. destruct Ho as (Hx & Hs & Hl). rewrite Hbt in Hs.
  pose proof (tally_lookup holds_shared ltac:(apply weights_nonneg) ts t _ Ht) as Hle. cbn [holds_shared] in Hle.
  pose proof (tally_le holds_shared ts ltac:(intros [ |[]| | | | | | | | | | | | | | | | | | | | | ]; cbn; lia)) as Hlen.
  unfold decrement, read. rewrite Hb. cbn [mbind option_bind]. rewrite (update_insert _ _ _ _ Hb). cbn [mbind option_bind].
  rewrite u32_id by (unfold in_width; lia). eexists _, _. split; [done|]. exists W, L, C. by eapply inv_count.
Qed.

Lemma release_last_ok g ts t v W L C : inv g ts W L C -> ts !! t = Some (ReleaseLast v) -> step_ok ts t (release_last g v).
Proof.
  intros HI Ht. destruct (view_of _ _ _ _ _ _ _ HI Ht) as (HC & a & o & tr & mu & Ha & ->). pose proof (inv_word _ _ _ _ _ HI) as HW.
  destruct (last_word _ _ _ _ _ _ _ HI Ht eq_refl) as (HWq & Tx & Ts & Tl). unfold release_last. rewrite has_traversing, enc_cleared by done.
  assert (Hagain : step_ok ts t (Some (g, ReleaseLast (Value g)))).
  { eapply (keeps_local g ts t); try done. split; [done|]. destruct HWq as (b & t' & mu' & ->). eexists _, _, _, _. split; [|apply HI]. done. }
  destruct tr.
  - destruct (cas_cases g W (Queue a o true mu) (enc (Queue a false true false))) as [[-> ->]| ->]; try done; try apply HI.
    eexists _, _. split; [done|]. exists (Queue a false true false), L, C. eapply (inv_owner g); try done.
    + plain_pc.
    + destruct (inv_chain _ _ _ _ _ HI) as (? & ? & ? & ? & _). by split_and!.
    + rewrite Tx, Ts, Tl. done.
    + intros t' q _ Hq Hfq. exfalso. eapply nobody_finds; [done| |done|done]. right. lia.
  - rewrite enc_cleared_lor by done.
    destruct (cas_cases g W (Queue a o false mu) (enc (Queue a false true false))) as [[-> ->]| ->]; try done; try apply HI.
    destruct (inv_start_waking g ts t (ReleaseLast (enc (Queue a o false mu))) (Queue a o false mu) a L C) as (p' & -> & Hk); try done; [plain_pc|by eexists _, _|cbn; lia..|].
    by eexists _, _.
Qed.

(** ** All steps *)

Lemma action_ok g ts t p W L C : inv g ts W L C -> ts !! t = Some p ->
  exists r, next_action SpinCount g t p = Some r /\ match r with Some (g', p') => keeps g' (<[t := p']> ts) | None => p = Idle \/ exists x, p = Owner x end.
Proof.
  intros HI Ht. assert (Hs : forall r, step_ok ts t r -> exists r', Some <$> r = Some r' /\ match r' with Some (g', p') => keeps g' (<[t := p']> ts) | None => p = Idle \/ exists x, p = Owner x end).
  { intros r (g' & p' & -> & Hk). by eexists. }
  assert (Hs1 : forall g' p', step_ok ts t (Some (g', p')) -> exists r', Some (Some (g', p')) = Some r' /\ match r' with Some (g', p') => keeps g' (<[t := p']> ts) | None => p = Idle \/ exists x, p = Owner x end)
    by (intros g' p'; apply (Hs (Some (g', p')))).
  destruct p as [ |x| |x w|x w|x w v|tr k|u k|x w v i|x w v|x w v| | |v| |v| | |v|v a|v a|v a|v]; cbn [next_action].
  - exists None. split; [done|by left].
  - exists None. split; [done|right; by exists x].
  - by destruct (view_of _ _ _ _ _ _ _ HI Ht).
  - destruct (PhAcquireQueuedLock g x w) as [g' p'] eqn:E. apply Hs1. rewrite <- E. by eapply acquire_fast_ok.
  - apply Hs1. pose proof (view_of _ _ _ _ _ _ _ HI Ht) as HC. cbn [view] in HC. eapply (keeps_local g ts t); try done. split; [done|by eapply stale_value].
  - apply Hs. by eapply acquire_try_ok.
  - apply Hs. by eapply traverse_ok.
  - destruct u as [a|a b|a b].
    + destruct (waking_read_ok _ _ _ _ _ _ _ _ HI Ht) as (g' & p' & -> & Hk). by eexists.
    + destruct (waking_reset_ok _ _ _ _ _ _ _ _ _ HI Ht) as (g' & p' & -> & Hk). by eexists.
    + destruct (waking_key_ok _ _ _ _ _ _ _ _ _ HI Ht) as (g' & p' & -> & Hk). by eexists.
  - apply Hs. by eapply block_spin_ok.
  - apply Hs. by eapply block_reset_ok.
  - destruct (block_key g t x w v) as [g' p'] eqn:E. apply Hs1. rewrite <- E. by eapply block_key_ok.
  - destruct (try_acquire_ok _ _ _ _ _ _ HI Ht) as (p' & -> & Hk). by eexists.
  - destruct (PhReleaseQueuedLockExclusive g) as [g' p'] eqn:E. apply Hs1. rewrite <- E. by eapply release_fast_ok.
  - apply Hs. by eapply wake_for_release_ok.
  - pose proof (view_of _ _ _ _ _ _ _ HI Ht) as HC. cbn [view] in HC. apply Hs1. eapply release_read_ok; try done. plain_pc.
  - apply Hs. by eapply release_try_ok.
  - destruct (PhReleaseQueuedLockShared g) as [g' p'] eqn:E. apply Hs1. rewrite <- E. by eapply release_shared_fast_ok.
  - pose proof (view_of _ _ _ _ _ _ _ HI Ht) as HC. cbn [view] in HC. apply Hs1. eapply shared_test_ok; try done. shared_pc.
  - apply Hs. by eapply release_shared_try_ok.
  - apply Hs. by eapply find_last_ok.
  - destruct (find_next_ok _ _ _ _ _ _ _ _ HI Ht) as (b & Hb & Hk). unfold read. rewrite Hb. cbn [mbind option_bind]. by apply Hs1.
  - apply Hs. by eapply decrement_ok.
  - apply Hs. by eapply release_last_ok.
Qed.

Lemma inv_initial k n : pending k = ∅ -> Z.of_nat n < 2 ^ 31 - 1 -> inv (PhInitializeQueuedLock k) (replicate n Idle) (Plain false 0) [] (fun _ => []).
Proof.
  intros Hk Hn. assert (Hidle : forall t p, replicate n Idle !! t = Some p -> p = Idle) by (by intros t p [-> _]%lookup_replicate).
  split; cbn [Value frames kernel PhInitializeQueuedLock].
  - done.
  - done.
  - done.
  - by rewrite !tally_replicate.
  - by rewrite tally_replicate.
  - rewrite Hk. split; try done.
    + by constructor.
    + intros t. constructor.
    + by intros t a ?%not_elem_of_nil.
    + by intros t t' a ?%not_elem_of_nil.
    + by intros t p w ->%Hidle.
    + by intros t t' p p' w ->%Hidle.
    + by intros a [?%not_elem_of_nil|[t ?%not_elem_of_nil]].
    + by intros t p w ->%Hidle.
  - by intros t p ->%Hidle.
  - done.
  - by rewrite length_replicate.
Qed.

Lemma keeps_step g ts g' ts' : keeps g ts -> ql_step SpinCount (g, ts) (g', ts') -> keeps g' ts'.
Proof.
  intros (W & L & C & HI) Hs. inversion Hs as [? ? t p w b Ht Hp Hw Hr Hf|? ? t Ht|? ? t x p Ht Hp|? ? t p ? p' Ht Hn]; subst.
  - exists W, L, C. pose proof (view_of _ _ _ _ _ _ _ HI Ht) as HC. cbn [view] in HC.
    assert (Har : frame_of p = Some w /\ waits p = None /\ traversing p = 0 /\ holds_exclusive p = 0 /\ holds_shared p = 0 /\ holds_last p = 0 /\ forall m e, view m e W L (C t) p).
    { repeat (apply elem_of_cons in Hp as [-> |Hp]; [done|]). by apply not_elem_of_nil in Hp. }
    destruct Har as (Hfp & Hwp & Htp & Hx & Hsh & Hl & Hv). eapply (inv_quiet g); try done; try apply HI.
    + intros a c Hc. left. cbn. rewrite lookup_insert_ne; [done|]. intros ->. congruence.
    + split; [|by rewrite Hwp|done|].
      * intros w' Hw'. rewrite Hfp in Hw'. injection Hw' as <-. cbn. rewrite lookup_insert_eq. split_and!; [done|by eexists|by right].
      * intros d key bb _. split; [done|]. by destruct d.
    + rewrite Hx, Hsh, Hl. cbn [holds_exclusive holds_shared holds_last]. rewrite !Z.sub_0_r, !Z.add_0_r. apply HI.
    + rewrite Htp. cbn. lia.
    + intros t' q _. by apply (finding_multiple _ _ _ _ _ _ _ HI).
    + destruct W as [|a [] [] mu]; try done. destruct (inv_pilot _ _ _ _ _ HI) as (t' & q & Ht' & Hq). exists t', q. rewrite list_lookup_insert_ne; [by split|].
      intros ->. rewrite Ht in Ht'. injection Ht' as <-. by destruct Hq as [?|(? & ? & _)].
  - exists W, L, C. pose proof (view_of _ _ _ _ _ _ _ HI Ht) as HC. cbn [view] in HC. by eapply (inv_unmoved g' ts t Idle).
  - exists W, L, C. pose proof (view_of _ _ _ _ _ _ _ HI Ht) as HC. cbn [view] in HC.
    destruct x; repeat (apply elem_of_cons in Hp as [-> |Hp]; [by eapply (inv_unmoved g' ts t)|]); by apply not_elem_of_nil in Hp.
  - destruct (action_ok _ _ _ _ _ _ _ HI Ht) as (r & Hr & Hk). rewrite Hn in Hr. injection Hr as <-. done.
Qed.

Lemma reachable_keeps k n g ts : pending k = ∅ -> Z.of_nat n < 2 ^ 31 - 1 -> ql_reachable SpinCount k n (g, ts) -> keeps g ts.
Proof.
  intros Hk Hn. unfold ql_reachable. apply (rtc_ind_r (fun s => keeps s.1 s.2)).
  - exists (Plain false 0), [], (fun _ => []). by apply inv_initial.
  - intros [g1 ts1] [g2 ts2] _ Hs IH. by eapply keeps_step.
Qed.

(** ** The theorems *)

(** The thread's next step is defined, and is missing only outside every call. *)
Definition safe_step g t p : Prop :=
  p <> Raised /\
  match next_action SpinCount g t p with None => False | Some None => p = Idle \/ exists x, p = Owner x | Some (Some _) => True end.

(** C1: No thread is ever in an undefined state. Whatever the interleaving, no step touches a wait block
    whose frame is gone, no assertion of the code fails, no exception is raised, and every thread inside
    a call has a next step (which may be a call of the kernel that blocks). *)
Theorem queued_lock_safe k n g ts : pending k = ∅ -> Z.of_nat n < 2 ^ 31 - 1 -> ql_reachable SpinCount k n (g, ts) ->
  forall t p, ts !! t = Some p -> safe_step g t p.
Proof.
  intros Hk Hn Hr t p Ht. destruct (reachable_keeps _ _ _ _ Hk Hn Hr) as (W & L & C & HI). split.
  - intros ->. apply (view_of _ _ _ _ _ _ _ HI Ht).
  - destruct (action_ok _ _ _ _ _ _ _ HI Ht) as (r & -> & Hp). by destruct r.
Qed.

(** C2: Mutual exclusion: while a thread holds the lock exclusively (from its acquisition to the step that
    gives up the word), no other thread holds it, exclusively or shared, or is on the way out of a shared
    hold. *)
Theorem queued_lock_mutual_exclusion k n g ts : pending k = ∅ -> Z.of_nat n < 2 ^ 31 - 1 -> ql_reachable SpinCount k n (g, ts) ->
  forall t p t' q, ts !! t = Some p -> holds_exclusive p = 1 -> t' <> t -> ts !! t' = Some q ->
  holds_exclusive q = 0 /\ holds_shared q = 0 /\ holds_last q = 0.
Proof.
  intros Hk Hn Hr t p t' q Ht Hp Hne Ht'. destruct (reachable_keeps _ _ _ _ Hk Hn Hr) as (W & L & C & HI).
  destruct (exclusive_word _ _ _ _ _ _ _ HI Ht Hp) as (_ & Tx & Ts & Tl). destruct (weights_nonneg q) as (? & ? & ? & _).
  pose proof (tally_two holds_exclusive ltac:(apply weights_nonneg) ts t t' _ _ ltac:(done) Ht Ht').
  pose proof (tally_lookup holds_shared ltac:(apply weights_nonneg) ts t' _ Ht'). pose proof (tally_lookup holds_last ltac:(apply weights_nonneg) ts t' _ Ht'). lia.
Qed.

(** A thread in a call of the kernel that does not return. *)
Definition asleep g t p : Prop :=
  match p with
  | BlockKey _ w _ => keyed_call KeyedWait (kernel g) w t = (kernel g, None)
  | Waking (WakingKey a _) _ => keyed_call KeyedRelease (kernel g) a t = (kernel g, None)
  | _ => False
  end.

Definition ql_rests g t p : Prop := p = Idle \/ (exists x, p = Owner x) \/ asleep g t p.

Lemma asleep_pending d g ts t key W L C p : inv g ts W L C -> ts !! t = Some p -> calling d key p -> keyed_call d (kernel g) key t = (kernel g, None) ->
  pending (kernel g) !! t = Some (d, key, false).
Proof.
  intros HI Ht Hc Ha. destruct (pending (kernel g) !! t) as [[[d' key'] b]|] eqn:He.
  - destruct (tk_call _ _ _ _ _ (inv_tokens _ _ _ _ _ HI) _ _ _ _ He) as (q & Hq & Hc'). rewrite Ht in Hq. injection Hq as <-.
    assert (d' = d /\ key' = key) as [-> ->]. { destruct d, d', p; try done; [|destruct u; try done]; cbn in Hc, Hc'; by subst. }
    destruct b; [|done]. destruct (leave_law d (kernel g) key t He) as [Hst _]. by rewrite Ha in Hst.
  - destruct (enter_law d (kernel g) key t He) as [(t' & _ & Hst & _)|(_ & _ & Hp)]; [by rewrite Ha in Hst|].
    rewrite Ha in Hp. cbn [fst] in Hp. rewrite Hp, lookup_insert_eq in He. done.
Qed.

(** A block whose waker is in its release is that of a thread in its wait, and one of the two can go on. *)
Lemma no_sleeping_waker g ts W L C t a b k : inv g ts W L C -> (forall t p, ts !! t = Some p -> ql_rests g t p) -> ts !! t = Some (Waking (WakingKey a b) k) -> False.
Proof.
  intros HI Hrest Ht. pose proof (inv_tokens _ _ _ _ _ HI) as HT. destruct (Hrest t _ Ht) as [?|[[??]|Ha]]; [done..|]. cbn [asleep] in Ha.
  pose proof (asleep_pending KeyedRelease _ _ _ a _ _ _ _ HI Ht eq_refl Ha) as He.
  destruct (view_of _ _ _ _ _ _ _ HI Ht) as [Hv _]. cbn [waking_ok] in Hv. rewrite decide_False in Hv by congruence. destruct Hv as (Hs & c & HC & _).
  assert (Hq : queued L C a) by (right; exists t; rewrite HC; by left). destruct (tk_waiter _ _ _ _ _ HT a Hq) as (t' & q & Ht' & Hw).
  pose proof (tk_signal _ _ _ _ _ HT t' q a Ht' Hw) as Hsig. destruct (Hrest t' q Ht') as [->|[[x ->]|Ha']]; [done..|].
  destruct q; try done; [apply (proj1 Hsig); done|]. cbn in Hw. injection Hw as ->.
  apply (tk_pair _ _ _ _ _ HT t' t a); [|done]. by eapply (asleep_pending KeyedWait).
Qed.

(** When everybody rests, nobody has taken a block off the chain. *)
Lemma resting_chains g ts W L C : inv g ts W L C -> (forall t p, ts !! t = Some p -> ql_rests g t p) -> forall t a, a ∈ C t -> False.
Proof.
  intros HI Hrest t a Ha. destruct (ts !! t) as [p|] eqn:Ht; [|rewrite (tk_outside _ _ _ _ _ (inv_tokens _ _ _ _ _ HI) t Ht) in Ha; by apply not_elem_of_nil in Ha].
  pose proof (view_alone _ _ _ _ _ _ (view_of _ _ _ _ _ _ _ HI Ht)) as HC. destruct (Hrest t p Ht) as [->|[[x ->]|Hs]]; [rewrite HC in Ha; by apply not_elem_of_nil in Ha..|].
  destruct p; try done; [|rewrite HC in Ha; by apply not_elem_of_nil in Ha]. destruct u; try done. by eapply no_sleeping_waker.
Qed.

Lemma resting_weight (f : locker -> Z) g ts : (forall p, 0 <= f p) -> f Idle = 0 -> (forall t p, ts !! t = Some p -> ql_rests g t p) ->
  (forall t p, asleep g t p -> f p = 0) -> 0 < tally f ts -> exists t x, ts !! t = Some (Owner x).
Proof.
  intros Hf Hidle Hrest Ha Hpos. destruct (tally_pos f Hf ts Hpos) as (t & p & Ht & Hp). destruct (Hrest t p Ht) as [->|[[x ->]|Hs]]; [lia|by exists t, x|]. rewrite (Ha t p Hs) in Hp. lia.
Qed.

(** C3: No lost wake-ups. When every thread inside a call is asleep in the kernel, the lock has an owner
    that is outside every call; so a thread does not sleep on a lock that nobody holds, whatever
    happened between its decision to wait and its wait. *)
Theorem queued_lock_no_lost_wakeup k n g ts : pending k = ∅ -> Z.of_nat n < 2 ^ 31 - 1 -> ql_reachable SpinCount k n (g, ts) ->
  (exists t p, ts !! t = Some p /\ asleep g t p) -> (forall t p, ts !! t = Some p -> ql_rests g t p) -> exists t x, ts !! t = Some (Owner x).
Proof.
  intros Hk Hn Hr (t & p & Ht & Ha) Hrest. destruct (reachable_keeps _ _ _ _ Hk Hn Hr) as (W & L & C & HI). pose proof (inv_tokens _ _ _ _ _ HI) as HT.
  assert (Hsleep : forall x w v t, ts !! t = Some (BlockKey x w v) -> w ∉ L -> False).
  { intros x w v t1 Ht1 Hw. destruct (Hrest t1 _ Ht1) as [?|[[??]|Ha1]]; [done..|]. pose proof (asleep_pending KeyedWait _ _ _ w _ _ _ _ HI Ht1 eq_refl Ha1) as He.
    assert (Hnq : ~ queued L C w) by (intros [?|[t2 Hc]]; [done|by eapply resting_chains]). apply (tk_signal _ _ _ _ _ HT t1 _ w Ht1 eq_refl) in Hnq. cbn [signalled] in Hnq. congruence. }
  assert (HL : L <> []).
  { intros ->. destruct p; try done; [destruct u; try done; by eapply no_sleeping_waker|]. eapply Hsleep; [done|]. by intros ?%not_elem_of_nil. }
  destruct W as [o c|a o tr mu]; [by pose proof (inv_chain _ _ _ _ _ HI)|].
  assert (Hfree : tr = true \/ o = true).
  { destruct tr, o; try (by left); try (by right). exfalso. destruct (inv_pilot _ _ _ _ _ HI) as (t1 & q & Ht1 & Hq). destruct (Hrest t1 q Ht1) as [->|[[x ->]|Ha1]]; try by destruct Hq as [?|(? & ? & _)].
    destruct Hq as [->|(w & Hf & Hw)]; [done|]. destruct q; try done; [destruct u; try done; by eapply no_sleeping_waker|]. injection Hf as ->. by eapply Hsleep. }
  destruct Hfree as [-> | ->].
  - apply (resting_weight traversing g ts); [apply weights_nonneg|done|done|by intros t1 []|]. rewrite (inv_traverser _ _ _ _ _ HI). done.
  - pose proof (inv_owners _ _ _ _ _ HI) as Ho. pose proof (tallies_nonneg ts) as (? & ? & ?).
    apply (resting_weight (fun p => holds_exclusive p + holds_shared p + holds_last p) g ts).
    + intros q. destruct (weights_nonneg q) as (? & ? & ? & _). lia.
    + done.
    + done.
    + by intros t1 [].
    + assert (Hsum : tally (fun p => holds_exclusive p + holds_shared p + holds_last p) ts = tally holds_exclusive ts + tally holds_shared ts + tally holds_last ts)
        by (clear; induction ts as [|q ts IH]; cbn [tally]; lia).
      rewrite Hsum. destruct mu; cbn [owners_ok] in Ho; [|lia]. destruct Ho as (_ & _ & Hl). destruct (Z.eqb_spec (tally holds_shared ts) 0); lia.
Qed.

End steps.

(** ** A kernel with keyed events, and runs of the lock *)

Section runs.
Abbreviation ktable := (gmap nat (keyed * Z * bool)) (only parsing).

Definition find_partner (k : ktable) (d : keyed) (key : Z) : option nat :=
  fst <$> head (filter (fun x => x.2 = (partner d, key, false)) (map_to_list k)).

Definition table_call (d : keyed) (k : ktable) (key : Z) (t : nat) : ktable * option Z :=
  match k !! t with
  | Some (_, _, true) => (delete t k, Some STATUS_SUCCESS)
  | Some (_, _, false) => (k, None)
  | None => match find_partner k d key with
            | Some t' => (<[t' := (partner d, key, true)]> k, Some STATUS_SUCCESS)
            | None => (<[t := (d, key, false)]> k, None)
            end
  end.

#[export] Instance TableEvents : KeyedEvents ktable := {| NtWaitForKeyedEvent := table_call KeyedWait; NtReleaseKeyedEvent := table_call KeyedRelease |}.

Lemma keyed_call_table d k key t : keyed_call d k key t = table_call d k key t.
Proof. by destruct d. Qed.

Lemma find_partner_Some k d key t : find_partner k d key = Some t -> k !! t = Some (partner d, key, false).
Proof.
  unfold find_partner. intros ([t' x] & Hh & ->)%fmap_Some. destruct (filter _ _) as [|y l] eqn:E; [done|]. injection Hh as ->.
  assert (Hy : (t', x) ∈ (t', x) :: l) by (by left). rewrite <- E in Hy. apply list_elem_of_filter in Hy as [Hx Hin]. cbn in Hx. subst x. by apply elem_of_map_to_list.
Qed.

Lemma find_partner_None k d key t : find_partner k d key = None -> k !! t <> Some (partner d, key, false).
Proof.
  unfold find_partner. intros Hf Ht. destruct (filter _ _) as [|y l] eqn:E; [|done]. apply elem_of_map_to_list in Ht.
  assert (Hy : (t, (partner d, key, false)) ∈ filter (fun x : nat * (keyed * Z * bool) => x.2 = (partner d, key, false)) (map_to_list k)) by (by apply list_elem_of_filter).
  rewrite E in Hy. by apply not_elem_of_nil in Hy.
Qed.

#[export] Program Instance TableEventLaws : KeyedEventLaws ktable := {| pending := fun k => k |}.
Next Obligation.
  intros d k key t Ht. cbv beta in Ht. rewrite !keyed_call_table. unfold table_call. rewrite Ht. destruct (find_partner k d key) as [t'|] eqn:E.
  - left. exists t'. by split; [apply find_partner_Some|].
  - right. split; [|done]. intros t'. by apply find_partner_None.
Qed.
Next Obligation. intros d k key t Ht. cbv beta in Ht. rewrite !keyed_call_table. unfold table_call. by rewrite Ht. Qed.
Next Obligation. intros d k key t Ht. cbv beta in Ht. rewrite !keyed_call_table. unfold table_call. by rewrite Ht. Qed.

(** What a scheduler may do: a thread acts, or begins a call, through the inline function or not. *)
Inductive ql_choice := QlGo | QlAcquire (exclusive inline_ : bool) (w : Z) | QlRelease (inline_ : bool).

Definition empty_block : PH_QUEUED_WAIT_BLOCK := {| Next := 0; Previous := 0; Last := 0; SharedOwners := 0; Flags := 0 |}.

Definition ql_move (s : PH_QUEUED_LOCK ktable * list locker) (t : nat) (c : ql_choice) : option (PH_QUEUED_LOCK ktable * list locker) :=
  let '(g, ts) := s in
  p ← ts !! t;
  match c, p with
  | QlGo, _ => r ← next_action 0 g t p; '(g', p') ← r; Some (g', <[t := p']> ts)
  | QlAcquire x fast w, Idle =>
      if (w mod 16 =? 0) && (0 <? w) && (w <? 2 ^ 64) then
        match frames g !! w with
        | None => Some (set_frames g (<[w := empty_block]> (frames g)), <[t := if fast then AcquireFast x w else AcquireRead x w]> ts)
        | Some _ => None
        end
      else None
  | QlRelease fast, Owner x =>
      Some (g, <[t := if x then if fast then ReleaseFast else ReleaseRead else if fast then ReleaseSharedFast else ReleaseSharedRead]> ts)
  | _, _ => None
  end.

Fixpoint ql_run (s : PH_QUEUED_LOCK ktable * list locker) (l : list (nat * ql_choice)) : option (PH_QUEUED_LOCK ktable * list locker) :=
  match l with [] => Some s | (t, c) :: l => s' ← ql_move s t c; ql_run s' l end.

Lemma ql_move_step s t c s' : ql_move s t c = Some s' -> ql_step 0 s s'.
Proof.
  destruct s as [g ts]. unfold ql_move. intros Hm. destruct (ts !! t) as [p|] eqn:Ht; [|done]. cbn [mbind option_bind] in Hm. destruct c as [|x fast w|fast].
  - destruct (next_action 0 g t p) as [[[g' p']|]|] eqn:Hn; try done. injection Hm as <-. by eapply step_action.
  - destruct p; try done. destruct ((w mod 16 =? 0) && (0 <? w) && (w <? 2 ^ 64)) eqn:E; [|done]. to_prop. destruct (frames g !! w) eqn:Hf; [done|]. injection Hm as <-.
    apply step_acquire; [done| |done|lia|done]. destruct x, fast; cbn; set_solver.
  - destruct p; try done. injection Hm as <-. eapply step_release; [done|]. destruct exclusive, fast; cbn; set_solver.
Qed.

Lemma ql_run_reachable n l s : ql_run (PhInitializeQueuedLock ∅, replicate n Idle) l = Some s -> ql_reachable 0 ∅ n s.
Proof.
  unfold ql_reachable. generalize (PhInitializeQueuedLock (∅ : ktable), replicate n Idle). induction l as [|[t c] l IH]; intros s0 Hs; cbn [ql_run] in Hs; [by injection Hs as ->|].
  destruct (ql_move s0 t c) as [s1|] eqn:Hm; [|done]. eapply rtc_l; [by eapply ql_move_step|by apply IH].
Qed.

Definition ql_go (t n : nat) : list (nat * ql_choice) := replicate n (t, QlGo).

(** Thread 0 owns the lock; thread 1 sleeps on its wait block. *)
Definition contended : list (nat * ql_choice) := (0%nat, QlAcquire true true 16) :: ql_go 0 1 ++ (1%nat, QlAcquire true true 32) :: ql_go 1 6.

(** Thread 0 releases it and wakes thread 1, which acquires it. *)
Definition handed_over : list (nat * ql_choice) := contended ++ (0%nat, QlRelease true) :: ql_go 0 9 ++ ql_go 1 3.

Example contended_state : snd <$> ql_run (PhInitializeQueuedLock ∅, replicate 2 Idle) contended = Some [Owner true; BlockKey true 32 1].
Proof. vm_compute. reflexivity. Qed.

Example handed_over_state : snd <$> ql_run (PhInitializeQueuedLock ∅, replicate 2 Idle) handed_over = Some [Idle; Owner true].
Proof. vm_compute. reflexivity. Qed.
End runs.

Lemma queued_lock_safe_witness : exists g ts, ql_reachable 0 (∅ : gmap nat (keyed * Z * bool)) 2 (g, ts) /\ ts !! 1%nat = Some (BlockKey true 32 1) /\
  safe_step 0 g 1 (BlockKey true 32 1).
Proof.
  destruct (ql_run (PhInitializeQueuedLock ∅, replicate 2 Idle) contended) as [[g ts]|] eqn:E; [|by vm_compute in E].
  pose proof (ql_run_reachable _ _ _ E) as Hr. exists g, ts. assert (Ht : ts !! 1%nat = Some (BlockKey true 32 1)) by (vm_compute in E; by injection E as <- <-).
  split; [exact Hr|]. split; [exact Ht|]. apply (queued_lock_safe 0 ∅ 2 g ts); [reflexivity|lia|exact Hr|exact Ht].
Defined.

Lemma queued_lock_mutual_exclusion_witness : exists g ts, ql_reachable 0 (∅ : gmap nat (keyed * Z * bool)) 2 (g, ts) /\ ts !! 1%nat = Some (Owner true) /\
  holds_exclusive Idle = 0 /\ holds_shared Idle = 0 /\ holds_last Idle = 0.
Proof.
  destruct (ql_run (PhInitializeQueuedLock ∅, replicate 2 Idle) handed_over) as [[g ts]|] eqn:E; [|by vm_compute in E].
  pose proof (ql_run_reachable _ _ _ E) as Hr. exists g, ts. assert (Ht : ts !! 1%nat = Some (Owner true) /\ ts !! 0%nat = Some Idle) by (vm_compute in E; by injection E as <- <-).
  destruct Ht as [Ht Ht0]. split; [exact Hr|]. split; [exact Ht|].
  apply (queued_lock_mutual_exclusion 0 ∅ 2 g ts) with 1%nat (Owner true) 0%nat; [reflexivity|lia|exact Hr|exact Ht|reflexivity|lia|exact Ht0].
Defined.

Lemma queued_lock_no_lost_wakeup_witness : exists g ts, ql_reachable 0 (∅ : gmap nat (keyed * Z * bool)) 2 (g, ts) /\ ts !! 1%nat = Some (BlockKey true 32 1) /\
  exists t x, ts !! t = Some (Owner x).
Proof.
  destruct (ql_run (PhInitializeQueuedLock ∅, replicate 2 Idle) contended) as [[g ts]|] eqn:E; [|by vm_compute in E].
  pose proof (ql_run_reachable _ _ _ E) as Hr. exists g, ts. vm_compute in E. injection E as <- <-.
  split; [exact Hr|]. split; [reflexivity|].
  eapply (queued_lock_no_lost_wakeup 0 ∅ 2 _ _); [reflexivity|lia|exact Hr| |].
  - exists 1%nat, (BlockKey true 32 1). split; [reflexivity|]. vm_compute. reflexivity.
  - intros [|[|t]] p Hp; cbn in Hp; [injection Hp as <-|injection Hp as <-|discriminate].
    + right. left. by exists true.
    + right. right. vm_compute. reflexivity.
Defined.


End QueuedLockProof.
