(* ===== verification/WakeEvent.v ===== *)
(** * Wake events: [phlib/queuedlock.c], [queuedlock.h]

    A wake event is a word that points to a chain of wait blocks, each on the stack of a thread that
    has announced that it may wait. Setting the event takes the whole chain and unblocks every block
    on it. A thread that has queued its block and then decides not to wait must set the event, and
    must not leave before somebody has unblocked its block. The wait blocks and the keyed events are
    those of [QueuedLock]. A thread is a program counter with its locals, a step is one access to
    shared memory or one call of the kernel; what a client of the event does between the calls is
    left open, so that the invariant serves every client ([Barrier] is one). Without timeouts no wake-up
    is lost ([wake_event_sound]); a thread that takes its own block off the chain after a timeout
    never returns ([timed_wait_stalls]). *)

From S2P Require Import Prelude QueuedLock QueuedLockProof.

(** The end of a wait with a timeout, which returns STATUS_TIMEOUT: a thread comes back from a wait in
    which nobody has released its key. [None]: the thread is not in such a wait. *)
Class KeyedTimeouts (K : Type) := { ExpireKeyedWait : K -> Z -> nat -> option K }.

Definition STATUS_TIMEOUT : Z := 0x102.

Class KeyedTimeoutLaws (K : Type) `{KeyedEventLaws K} `{KeyedTimeouts K} := {
  expire_law : forall k key t, pending k !! t = Some (KeyedWait, key, false) ->
    exists k', ExpireKeyedWait k key t = Some k' /\ pending k' = delete t (pending k);
  expire_none : forall k key t, pending k !! t <> Some (KeyedWait, key, false) -> ExpireKeyedWait k key t = None;
}.

Module WakeEvent.
Import QueuedLock.

Section event.
Context {K : Type} `{KeyedEvents K}.

(** PhQueuedLockSpinCount. *)
Context (SpinCount : nat).

(** The event is a word, as a queued lock is. *)
Abbreviation PH_WAKE_EVENT := (PH_QUEUED_LOCK K).

Definition PhInitializeWakeEvent (k : K) : PH_WAKE_EVENT := PhInitializeQueuedLock k.

(** Why a thread blocks on its block: to cancel a wait, or to wait, with a timeout or without. *)
Inductive purpose := Cancel | Wait (timed : bool).

(** Where a thread is. [w] is its own wait block, [own] the same or NULL in PhfSetWakeEvent; [Queued] is
    between PhfQueueWakeEvent and what the client does next, [Done] after the last call that uses the
    block. *)
Inductive pc :=
  | QueueRead (w : Z) | QueueTry (w value : Z) | Queued (w : Z)
  | SetTest (own : Z) | SetPop (own : Z)
  | SetNext (own waitBlock : Z) | SetReset (own waitBlock nextWaitBlock : Z) | SetKey (own waitBlock nextWaitBlock : Z)
  | SetCheck (own : Z)
  | BlockSpin (w : Z) (why : purpose) (i : nat) | BlockReset (w : Z) (why : purpose) | BlockKey (w : Z) (why : purpose)
  | Done (own : Z) | Raised.

Definition set_Next (b : PH_QUEUED_WAIT_BLOCK) (v : Z) : PH_QUEUED_WAIT_BLOCK :=
  {| Next := v; Previous := Previous b; Last := Last b; SharedOwners := SharedOwners b; Flags := Flags b |}.

(** PhfQueueWakeEvent up to the loop; one turn of the loop. The block is the thread's own until the
    exchange succeeds. *)
Definition PhfQueueWakeEvent (g : PH_WAKE_EVENT) (w : Z) : ub (PH_WAKE_EVENT * pc) :=
  g ← update g w (fun b => set_Flags b PH_QUEUED_WAITER_SPINNING); Some (g, QueueTry w (Value g)).

Definition queue_try (g : PH_WAKE_EVENT) (w value : Z) : ub (PH_WAKE_EVENT * pc) :=
  g ← update g w (fun b => set_Next b value);
  let '(g', ok) := cas g value w in Some (g', if ok then Queued w else QueueTry w (Value g)).

(** PhSetWakeEvent (inline) and the exchange at the start of PhfSetWakeEvent. *)
Definition PhSetWakeEvent (g : PH_WAKE_EVENT) (own : Z) : pc :=
  if negb (Value g =? 0) || negb (own =? 0) then SetPop own else Done own.

(** [while (waitBlock)], and what follows the loop. *)
Definition set_loop (own waitBlock : Z) : pc :=
  if negb (waitBlock =? 0) then SetNext own waitBlock else if negb (own =? 0) then SetCheck own else Done own.

Definition PhfSetWakeEvent (g : PH_WAKE_EVENT) (own : Z) : PH_WAKE_EVENT * pc := (set_value g 0, set_loop own (Value g)).

Definition unblock_next (g : PH_WAKE_EVENT) (own a : Z) : ub (PH_WAKE_EVENT * pc) :=
  b ← read g a; Some (g, SetReset own a (Next b)).

(** PhpUnblockQueuedWaitBlock. *)
Definition set_reset (g : PH_WAKE_EVENT) (own a next : Z) : ub (PH_WAKE_EVENT * pc) :=
  '(g, spinning) ← reset_spinning g a; Some (g, if (spinning : bool) then set_loop own next else SetKey own a next).

Definition set_key (g : PH_WAKE_EVENT) (t : nat) (own a next : Z) : PH_WAKE_EVENT * pc :=
  let '(kernel', status) := NtReleaseKeyedEvent (kernel g) a t in
  (set_kernel g kernel', match status with
                         | Some status => if NT_SUCCESS status then set_loop own next else Raised
                         | None => SetKey own a next
                         end).

Definition set_check (g : PH_WAKE_EVENT) (own : Z) : ub (PH_WAKE_EVENT * pc) :=
  b ← read g own; Some (g, if has (Flags b) PH_QUEUED_WAITER_SPINNING then BlockReset own Cancel else Done own).

(** PhfWaitForWakeEvent, after PhpBlockOnQueuedWaitBlock has returned; the other caller has no use for the
    status. *)
Definition PhfWaitForWakeEvent (w : Z) (why : purpose) (status : Z) : pc :=
  match why with
  | Cancel => Done w
  | Wait _ => if negb (status =? STATUS_SUCCESS) then SetTest w else Done w
  end.

(** PhpBlockOnQueuedWaitBlock. *)
Definition PhpBlockOnQueuedWaitBlock (w : Z) (why : purpose) (Spin : bool) : pc := BlockSpin w why (if Spin then SpinCount else 0%nat).

Definition block_spin (g : PH_WAKE_EVENT) (w : Z) (why : purpose) (i : nat) : ub (PH_WAKE_EVENT * pc) :=
  match i with
  | O => Some (g, BlockReset w why)
  | S i => b ← read g w;
           Some (g, if has (Flags b) PH_QUEUED_WAITER_SPINNING then BlockSpin w why i else PhfWaitForWakeEvent w why STATUS_SUCCESS)
  end.

Definition block_reset (g : PH_WAKE_EVENT) (w : Z) (why : purpose) : ub (PH_WAKE_EVENT * pc) :=
  '(g, spinning) ← reset_spinning g w;
  Some (g, if (spinning : bool) then BlockKey w why else PhfWaitForWakeEvent w why STATUS_SUCCESS).

Definition block_status (w : Z) (why : purpose) (status : option Z) : pc :=
  match status with
  | Some status => if NT_SUCCESS status then PhfWaitForWakeEvent w why status else Raised
  | None => BlockKey w why
  end.

Definition block_key (g : PH_WAKE_EVENT) (t : nat) (w : Z) (why : purpose) : PH_WAKE_EVENT * pc :=
  let '(kernel', status) := NtWaitForKeyedEvent (kernel g) w t in (set_kernel g kernel', block_status w why status).

(** The next step of thread [t]: [None] is undefined, [Some None] a thread that is not in a call. *)
Definition next (g : PH_WAKE_EVENT) (t : nat) (p : pc) : ub (option (PH_WAKE_EVENT * pc)) :=
  match p with
  | Queued _ | Done _ | Raised => Some None
  | QueueRead w => Some <$> PhfQueueWakeEvent g w
  | QueueTry w value => Some <$> queue_try g w value
  | SetTest own => Some (Some (g, PhSetWakeEvent g own))
  | SetPop own => Some (Some (PhfSetWakeEvent g own))
  | SetNext own a => Some <$> unblock_next g own a
  | SetReset own a next => Some <$> set_reset g own a next
  | SetKey own a next => Some (Some (set_key g t own a next))
  | SetCheck own => Some <$> set_check g own
  | BlockSpin w why i => Some <$> block_spin g w why i
  | BlockReset w why => Some <$> block_reset g w why
  | BlockKey w why => Some (Some (block_key g t w why))
  end.

(** A wait whose timeout has expired. *)
Definition expire `{KeyedTimeouts K} (g : PH_WAKE_EVENT) (t : nat) (p : pc) : option (PH_WAKE_EVENT * pc) :=
  match p with
  | BlockKey w (Wait true) => kernel' ← ExpireKeyedWait (kernel g) w t; Some (set_kernel g kernel', block_status w (Wait true) (Some STATUS_TIMEOUT))
  | _ => None
  end.

(** A new frame with a wait block in it, and its end. *)
Definition enter_frame (g : PH_WAKE_EVENT) (w : Z) (b : PH_QUEUED_WAIT_BLOCK) : PH_WAKE_EVENT := set_frames g (<[w := b]> (frames g)).
Definition leave_frame (g : PH_WAKE_EVENT) (w : Z) : PH_WAKE_EVENT := set_frames g (delete w (frames g)).

(** Any number of threads that use one event; with [timeouts] they may wait with a timeout. *)
Definition state : Type := PH_WAKE_EVENT * list (option pc).

Inductive step `{KeyedTimeouts K} (timeouts : bool) : state -> state -> Prop :=
  | step_queue g ps t w b : ps !! t = Some None -> w mod 16 = 0 -> 0 < w < 2 ^ 64 -> frames g !! w = None ->
      step timeouts (g, ps) (enter_frame g w b, <[t := Some (QueueRead w)]> ps)
  | step_cancel g ps t w : ps !! t = Some (Some (Queued w)) -> step timeouts (g, ps) (g, <[t := Some (SetTest w)]> ps)
  | step_wait g ps t w timed Spin : ps !! t = Some (Some (Queued w)) -> (timed = true -> timeouts = true) ->
      step timeouts (g, ps) (g, <[t := Some (PhpBlockOnQueuedWaitBlock w (Wait timed) Spin)]> ps)
  | step_set g ps t : ps !! t = Some None -> step timeouts (g, ps) (g, <[t := Some (SetTest 0)]> ps)
  | step_leave g ps t own : ps !! t = Some (Some (Done own)) -> step timeouts (g, ps) (leave_frame g own, <[t := None]> ps)
  | step_next g ps t p g' p' : ps !! t = Some (Some p) -> next g t p = Some (Some (g', p')) -> step timeouts (g, ps) (g', <[t := Some p']> ps)
  | step_expire g ps t p g' p' : ps !! t = Some (Some p) -> expire g t p = Some (g', p') -> step timeouts (g, ps) (g', <[t := Some p']> ps).

Definition reachable `{KeyedTimeouts K} (timeouts : bool) (k : K) (n : nat) (s : state) : Prop :=
  rtc (step timeouts) (PhInitializeWakeEvent k, replicate n None) s.

End event.

(** A thread outside the kernel. *)
Ltac not_calling := let d := fresh in let Hc := fresh in intros d ? Hc; by destruct d.

(** ** The invariant

    Every queued block is on the chain of the event or on the chain a setter has taken, and is the block
    of a thread that has not left; a block that is on neither has been signalled. *)
Section invariant.
Context {K : Type} `{KeyedEventLaws K}.
Abbreviation PH_WAKE_EVENT := (PH_QUEUED_LOCK K).
Abbreviation blocks := (gmap Z PH_QUEUED_WAIT_BLOCK).
Implicit Types (g : PH_WAKE_EVENT) (m : blocks) (e : option (keyed * Z * bool)) (L c : list Z) (C : nat -> list Z) (p : pc) (ps : list (option pc)).

(** The thread's own block, or 0; the same once it is queued. *)
Definition own_block p : Z :=
  match p with
  | QueueRead w | QueueTry w _ | Queued w | BlockSpin w _ _ | BlockReset w _ | BlockKey w _ => w
  | SetTest w | SetPop w | SetNext w _ | SetReset w _ _ | SetKey w _ _ | SetCheck w | Done w => w
  | Raised => 0
  end.
Definition waits p : Z := match p with QueueRead _ | QueueTry _ _ => 0 | _ => own_block p end.

Definition nxt m (a : Z) : option Z := Next <$> m !! a.
Definition spin m (a : Z) : bool := match m !! a with Some b => Z.testbit (Flags b) PH_QUEUED_WAITER_SPINNING_SHIFT | None => false end.

(** Somebody has unblocked the thread's block. *)
Definition signalled m e p (w : Z) : Prop :=
  match p with BlockKey _ _ => e = Some (KeyedWait, w, true) | Done _ => True | _ => spin m w = false end.

(** The chain in the hands of a setter; a block whose thread has been released is not on it any more. *)
Definition hand m e p c : Prop :=
  match p with
  | SetNext _ a => a <> 0 /\ links 0 (nxt m) a c
  | SetReset _ a next => a <> 0 /\ exists c', c = a :: c' /\ links 0 (nxt m) next c'
  | SetKey _ a next => exists c', links 0 (nxt m) next c' /\ (if decide (e = Some (KeyedRelease, a, true)) then c = c' else a <> 0 /\ c = a :: c' /\ spin m a = false)
  | _ => c = []
  end.

Definition purpose_ok (why : purpose) : Prop := why <> Wait true.

Definition local m p : Prop :=
  (own_block p <> 0 -> block_ok (own_block p) /\ is_Some (m !! own_block p)) /\
  match p with
  | QueueRead w | Queued w | SetCheck w => w <> 0
  | QueueTry w _ => w <> 0 /\ spin m w = true
  | BlockSpin w why _ | BlockReset w why => w <> 0 /\ purpose_ok why
  | BlockKey w why => w <> 0 /\ purpose_ok why /\ spin m w = false
  | Raised => False
  | _ => True
  end.

Definition calls (d : keyed) (key : Z) p : Prop :=
  match d, p with KeyedWait, BlockKey w _ => w = key | KeyedRelease, SetKey _ a _ => a = key | _, _ => False end.

(** A setter has taken the chain since the thread queued its block, which is not on the event's any more. *)
Definition settled p : Prop :=
  match p with
  | SetNext _ _ | SetReset _ _ _ | SetKey _ _ _ | SetCheck _ | Done _ => True
  | BlockSpin _ why _ | BlockReset _ why | BlockKey _ why => why = Cancel
  | _ => False
  end.

Definition queued L C (a : Z) : Prop := a ∈ L \/ exists t, a ∈ C t.

Record apart L C : Prop := {
  apart_chain : NoDup L;
  apart_hand : forall t, NoDup (C t);
  apart_hands : forall t t' a, a ∈ C t -> a ∈ C t' -> t = t';
  apart_both : forall t a, a ∈ C t -> a ∉ L;
}.

Record inv g ps L C : Prop := {
  inv_chain : links 0 (nxt (frames g)) (Value g) L;
  inv_hand : forall t p, ps !! t = Some (Some p) -> hand (frames g) (pending (kernel g) !! t) p (C t);
  inv_outside : forall t, (forall p, ps !! t <> Some (Some p)) -> C t = [];
  inv_apart : apart L C;
  inv_local : forall t p, ps !! t = Some (Some p) -> local (frames g) p;
  inv_own : forall t t' p p', ps !! t = Some (Some p) -> ps !! t' = Some (Some p') -> own_block p = own_block p' -> own_block p <> 0 -> t = t';
  inv_waiter : forall a, queued L C a -> a <> 0 /\ exists t p, ps !! t = Some (Some p) /\ waits p = a;
  inv_signal : forall t p, ps !! t = Some (Some p) -> waits p <> 0 -> queued L C (waits p) <-> ~ signalled (frames g) (pending (kernel g) !! t) p (waits p);
  inv_settled : forall t p, ps !! t = Some (Some p) -> settled p -> own_block p ∉ L;
  inv_call : forall t d key b, pending (kernel g) !! t = Some (d, key, b) -> exists p, ps !! t = Some (Some p) /\ calls d key p;
  inv_pair : forall t t' a, pending (kernel g) !! t = Some (KeyedWait, a, false) -> pending (kernel g) !! t' <> Some (KeyedRelease, a, false);
}.

Definition keeps g ps : Prop := exists L C, inv g ps L C.

(** *** Chains *)

Definition give C (t : nat) (c : list Z) (u : nat) : list Z := if decide (u = t) then c else C u.

Lemma give_eq C t c : give C t c t = c.
Proof. unfold give. by rewrite decide_True. Qed.
Lemma give_ne C t c u : u <> t -> give C t c u = C u.
Proof. intros. unfold give. by rewrite decide_False. Qed.

Lemma apart_push L C w : apart L C -> ~ queued L C w -> apart (w :: L) C.
Proof.
  intros [H1 H2 H3 H4] Hw. split; [|done|done|].
  - constructor; [|done]. intros ?. apply Hw. by left.
  - intros t a Ha [-> |?]%elem_of_cons; [|by eapply H4]. apply Hw. right. by exists t.
Qed.

Lemma apart_pop L C t : apart L C -> C t = [] -> apart [] (give C t L).
Proof.
  intros [H1 H2 H3 H4] Ht. split.
  - constructor.
  - intros u. destruct (decide (u = t)) as [->|]; [by rewrite give_eq|by rewrite give_ne].
  - intros u u' a. destruct (decide (u = t)) as [->|], (decide (u' = t)) as [->|]; rewrite ?give_eq, ?give_ne by done; try done.
    + intros ? Ha'. by destruct (H4 u' a Ha').
    + intros Ha ?. by destruct (H4 u a Ha).
    + by apply H3.
  - intros u a _. by apply not_elem_of_nil.
Qed.

Lemma apart_drop L C t a c : apart L C -> C t = a :: c -> apart L (give C t c).
Proof.
  intros [H1 H2 H3 H4] Ht. assert (Hsub : forall u x, x ∈ give C t c u -> x ∈ C u).
  { intros u x. destruct (decide (u = t)) as [->|]; [|by rewrite give_ne]. rewrite give_eq, Ht. intros. by right. }
  split; [done| |by intros u u' x ?%Hsub ?%Hsub; apply (H3 u u' x)|by intros u x ?%Hsub; apply (H4 u x)].
  intros u. destruct (decide (u = t)) as [->|]; [|by rewrite give_ne]. rewrite give_eq. specialize (H2 t). rewrite Ht in H2. by apply NoDup_cons in H2 as [_ ?].
Qed.

Lemma queued_pop L C t a : C t = [] -> queued [] (give C t L) a <-> queued L C a.
Proof.
  intros Ht. split.
  - intros [?%not_elem_of_nil|[u Hu]]; [done|]. destruct (decide (u = t)) as [->|]; [rewrite give_eq in Hu; by left|rewrite give_ne in Hu by done; right; by exists u].
  - intros [Ha|[u Hu]]; [right; exists t; by rewrite give_eq|]. right. exists u. rewrite give_ne; [done|]. intros ->. rewrite Ht in Hu. by apply not_elem_of_nil in Hu.
Qed.

Lemma queued_drop L C t a c x : apart L C -> C t = a :: c -> queued L (give C t c) x <-> queued L C x /\ x <> a.
Proof.
  intros [H1 H2 H3 H4] Ht. assert (Ha : a ∈ C t) by (rewrite Ht; by left). assert (Hc : a ∉ c) by (specialize (H2 t); rewrite Ht in H2; by apply NoDup_cons in H2 as [? _]). split.
  - intros [Hx|[u Hu]].
    + split; [by left|]. intros ->. by apply (H4 t a).
    + destruct (decide (u = t)) as [->|]; [rewrite give_eq in Hu|rewrite give_ne in Hu by done].
      * split; [right; exists t; rewrite Ht; by right|]. by intros ->.
      * split; [right; by exists u|]. intros ->. by destruct (H3 u t a Hu Ha).
  - intros [[Hx|[u Hu]] Hne]; [by left|]. right. exists u. destruct (decide (u = t)) as [->|]; [|by rewrite give_ne].
    rewrite give_eq. rewrite Ht in Hu. by apply elem_of_cons in Hu as [?|?].
Qed.

Lemma wake_queued_push L C w x : queued (w :: L) C x <-> x = w \/ queued L C x.
Proof. unfold queued. rewrite elem_of_cons. tauto. Qed.

(** *** Frames *)

Lemma nxt_eq m m' a : m' !! a = m !! a -> nxt m' a = nxt m a.
Proof. unfold nxt. by intros ->. Qed.
Lemma spin_eq m m' a : m' !! a = m !! a -> spin m' a = spin m a.
Proof. unfold spin. by intros ->. Qed.

Lemma hand_frame m m' e p c : (forall a, a ∈ c -> nxt m' a = nxt m a /\ (spin m a = false -> spin m' a = false)) -> hand m e p c -> hand m' e p c.
Proof.
  intros Hf. destruct p; try done.
  - intros [Ha Hl]. split; [done|]. eapply links_frame; [|done]. intros. by apply Hf.
  - intros (Ha & c' & -> & Hl). split; [done|]. exists c'. split; [done|]. eapply links_frame; [|done]. intros. apply Hf. by right.
  - intros (c' & Hl & Hc). exists c'. case_decide as Hd.
    + subst c'. split; [|done]. eapply links_frame; [|done]. intros. by apply Hf.
    + destruct Hc as (Ha & -> & Hs). split; [|split_and!; [done..|apply Hf; [by left|done]]]. eapply links_frame; [|done]. intros. apply Hf. by right.
Qed.

Lemma wake_local_frame m m' p : m' !! own_block p = m !! own_block p -> local m p -> local m' p.
Proof. unfold local. intros E. rewrite E. intros [Ho Hl]. split; [done|]. destruct p; try done; cbn [own_block] in E; by rewrite (spin_eq _ _ _ E). Qed.

Lemma local_zero m m' p : own_block p = 0 -> local m p -> local m' p.
Proof. intros Ez [_ Hl]. split; [done|]. destruct p; cbn [own_block] in Ez; subst; try done; by destruct Hl. Qed.

Lemma waits_own p : waits p <> 0 -> waits p = own_block p.
Proof. by destruct p. Qed.

Lemma signalled_frame m m' e p w : m' !! w = m !! w -> signalled m' e p w <-> signalled m e p w.
Proof. intros E. destruct p; cbn [signalled]; rewrite ?(spin_eq _ _ _ E); done. Qed.

Definition town (o : option pc) : Z := match o with Some p => own_block p | None => 0 end.
Definition twaits (o : option pc) : Z := match o with Some p => waits p | None => 0 end.

Lemma insert_cases ps t o u p : <[t := o]> ps !! u = Some (Some p) -> u = t /\ o = Some p \/ u <> t /\ ps !! u = Some (Some p).
Proof. intros [[-> E]|[Hne Hu]]%lookup_cases; [by left|by right]. Qed.

(** Another thread's block is not the one at [w], when [w] is the thread's own or in no frame. *)
Lemma other_block g ps L C t o w u q : inv g ps L C -> ps !! t = Some o -> w = 0 \/ town o = w \/ frames g !! w = None ->
  u <> t -> ps !! u = Some (Some q) -> own_block q <> 0 -> own_block q <> w.
Proof.
  intros HI Ht Hw Hne Hu Hq <-. destruct Hw as [?|[E|E]]; [done| |].
  - destruct o as [p|]; [|done]. cbn [town] in E. apply Hne. symmetry. apply (inv_own _ _ _ _ HI t u p q Ht Hu E). by rewrite E.
  - destruct (inv_local _ _ _ _ HI u q Hu) as [Ho _]. destruct (Ho Hq) as [_ [b Hb]]. congruence.
Qed.

(** A step that changes at most the thread's own block, and not whether it has been signalled. *)
Lemma wake_inv_quiet g ps L C t o p' m' : inv g ps L C -> ps !! t = Some o ->
  own_block p' = 0 \/ town o = own_block p' \/ frames g !! own_block p' = None ->
  (forall a, a <> own_block p' -> m' !! a = frames g !! a) ->
  (queued L C (own_block p') -> nxt m' (own_block p') = nxt (frames g) (own_block p') /\ (spin (frames g) (own_block p') = false -> spin m' (own_block p') = false)) ->
  waits p' = twaits o ->
  (forall p, o = Some p -> waits p' <> 0 -> signalled m' (pending (kernel g) !! t) p' (waits p') <-> signalled (frames g) (pending (kernel g) !! t) p (waits p')) ->
  hand m' (pending (kernel g) !! t) p' (C t) -> local m' p' -> (settled p' -> own_block p' ∉ L) ->
  (forall d key b, pending (kernel g) !! t = Some (d, key, b) -> calls d key p') ->
  inv (set_frames g m') (<[t := Some p']> ps) L C.
Proof.
  intros HI Ht Hown Hm Hq Hw Hs Hhand Hloc Hset Hcall.
  assert (Hlt : (t < length ps)%nat) by (by eapply lookup_lt_Some).
  assert (Hf : forall a, queued L C a -> nxt m' a = nxt (frames g) a /\ (spin (frames g) a = false -> spin m' a = false)).
  { intros a Ha. destruct (decide (a = own_block p')) as [->|Hne]; [by apply Hq|]. rewrite (nxt_eq _ _ _ (Hm a Hne)), (spin_eq _ _ _ (Hm a Hne)). done. }
  assert (Hothers : forall u q, u <> t -> ps !! u = Some (Some q) -> own_block q <> 0 -> m' !! own_block q = frames g !! own_block q).
  { intros u q Hne Hu Hz. apply Hm. by apply (other_block g ps L C t o (own_block p') u q). }
  split; cbn [set_frames frames kernel Value].
  - eapply links_frame; [|apply HI]. intros a Ha. apply Hf. by left.
  - intros u q [[-> [= ->]]|[Hne Hu]]%insert_cases; [done|]. eapply hand_frame; [|by apply HI]. intros a Ha. apply Hf. right. by exists u.
  - intros u Hu. destruct (decide (u = t)) as [->|Hne].
    + exfalso. apply (Hu p'). by rewrite list_lookup_insert_eq.
    + apply (inv_outside _ _ _ _ HI). intros q Hq'. apply (Hu q). by rewrite list_lookup_insert_ne.
  - apply HI.
  - intros u q [[-> [= ->]]|[Hne Hu]]%insert_cases; [done|]. pose proof (inv_local _ _ _ _ HI u q Hu) as Hl.
    destruct (decide (own_block q = 0)) as [Ez|Hz]; [|by eapply wake_local_frame; [eapply Hothers|]].
    by eapply local_zero.
  - intros u u' q q' Hu Hu' E Hz. apply insert_cases in Hu as [[-> [= <-]]|[Hne Hu]], Hu' as [[-> [= <-]]|[Hne' Hu']]; [done| | |by eapply (inv_own _ _ _ _ HI)].
    + exfalso. apply (other_block g ps L C t o (own_block p') u' q' HI Ht Hown Hne' Hu'); congruence.
    + exfalso. apply (other_block g ps L C t o (own_block p') u q HI Ht Hown Hne Hu); congruence.
  - intros a Ha. destruct (inv_waiter _ _ _ _ HI a Ha) as (Hz & u & q & Hu & Hqw). split; [done|]. destruct (decide (u = t)) as [->|Hne].
    + exists t, p'. rewrite list_lookup_insert_eq by done. split; [done|]. rewrite Hw. rewrite Ht in Hu. injection Hu as ->. done.
    + exists u, q. by rewrite list_lookup_insert_ne.
  - intros u q [[-> [= ->]]|[Hne Hu]]%insert_cases Hz.
    + destruct o as [p|]; [|done]. rewrite (Hs p eq_refl Hz), Hw. cbn [twaits] in *. apply (inv_signal _ _ _ _ HI t p Ht). by rewrite <- Hw.
    + rewrite (inv_signal _ _ _ _ HI u q Hu Hz), (signalled_frame (frames g) m'); [done|]. rewrite (waits_own q Hz). apply (Hothers u); [done..|]. by rewrite <- (waits_own q Hz).
  - intros u q [[-> [= ->]]|[Hne Hu]]%insert_cases; [done|by apply (inv_settled _ _ _ _ HI u q)].
  - intros u d key b Hp. destruct (decide (u = t)) as [->|Hne].
    + exists p'. rewrite list_lookup_insert_eq by done. split; [done|by eapply Hcall].
    + rewrite list_lookup_insert_ne by done. by apply (inv_call _ _ _ _ HI u d key b).
  - apply HI.
Qed.

Lemma set_frames_id g : set_frames g (frames g) = g.
Proof. by destruct g. Qed.

(** A thread that is not in the kernel. *)
Lemma not_pending g ps L C t o : inv g ps L C -> ps !! t = Some o -> (forall p, o = Some p -> forall d key, ~ calls d key p) -> pending (kernel g) !! t = None.
Proof.
  intros HI Ht Hn. destruct (pending (kernel g) !! t) as [[[d key] b]|] eqn:E; [|done].
  destruct (inv_call _ _ _ _ HI _ _ _ _ E) as (p & Hp & Hc). rewrite Ht in Hp. injection Hp as ->. by destruct (Hn p eq_refl d key).
Qed.

(** A step of the thread alone. *)
Lemma wake_inv_step g ps L C t p p' : inv g ps L C -> ps !! t = Some (Some p) -> (forall d key, ~ calls d key p) ->
  own_block p' = own_block p -> waits p' = waits p ->
  (waits p <> 0 -> signalled (frames g) None p' (waits p) <-> signalled (frames g) None p (waits p)) ->
  hand (frames g) None p' (C t) -> local (frames g) p' -> (settled p' -> own_block p' ∉ L) -> inv g (<[t := Some p']> ps) L C.
Proof.
  intros HI Ht Hc Ho Hw Hs Hh Hl Hset. rewrite <- (set_frames_id g) at 1. pose proof (not_pending _ _ _ _ _ _ HI Ht ltac:(by intros ? [= <-])) as E.
  eapply wake_inv_quiet; try done; rewrite ?E; try done.
  - right. left. by rewrite Ho.
  - intros q [= <-]. rewrite Hw. apply Hs.
Qed.

(** *** Steps *)

(** The thread is in a wait it has decided on. *)
Definition waiting p : bool := match p with BlockSpin _ (Wait _) _ | BlockReset _ (Wait _) | BlockKey _ (Wait _) => true | _ => false end.

(** What a step of a call does to the chain of the event: it pushes the thread's block, or takes the chain,
    or leaves it. *)
Definition chain_step p p' L L' : Prop :=
  own_block p' = own_block p /\ (waiting p' = true -> waiting p = true) /\
  match p with
  | QueueTry w _ => p' = Queued w /\ L' = w :: L \/ L' = L
  | SetPop _ => L' = []
  | SetTest w => L' = L /\ (p' = SetPop w \/ L = [])
  | _ => L' = L
  end.

Definition moves ps (t : nat) p L (r : PH_WAKE_EVENT * pc) : Prop :=
  exists L' C', inv r.1 (<[t := Some r.2]> ps) L' C' /\ chain_step p r.2 L L'.

Lemma zero_not_queued g ps L C : inv g ps L C -> 0 ∉ L.
Proof. intros HI Hz. by destruct (inv_waiter _ _ _ _ HI 0 ltac:(by left)). Qed.

Lemma spin_has m a b : m !! a = Some b -> has (Flags b) PH_QUEUED_WAITER_SPINNING = spin m a.
Proof. intros E. unfold spin. rewrite E. change PH_QUEUED_WAITER_SPINNING with (2 ^ 1). by rewrite has_bit. Qed.

Lemma own_frame g ps L C t p : inv g ps L C -> ps !! t = Some (Some p) -> own_block p <> 0 -> is_Some (frames g !! own_block p).
Proof. intros HI Ht Hz. by apply (inv_local _ _ _ _ HI t p Ht). Qed.

Lemma update_Some g a b (f : PH_QUEUED_WAIT_BLOCK -> PH_QUEUED_WAIT_BLOCK) : frames g !! a = Some b -> update g a f = Some (set_frames g (<[a := f b]> (frames g))).
Proof. unfold update. by intros ->. Qed.

Lemma not_waiting_own g ps L C t p : inv g ps L C -> ps !! t = Some (Some p) -> waits p = 0 -> ~ queued L C (own_block p) \/ own_block p = 0.
Proof.
  intros HI Ht Hw. destruct (decide (own_block p = 0)) as [|Hz]; [by right|left]. intros Hq. destruct (inv_waiter _ _ _ _ HI _ Hq) as (_ & u & q & Hu & E).
  assert (Hqz : waits q <> 0) by congruence. rewrite (waits_own q Hqz) in E. assert (u = t) as -> by (apply (inv_own _ _ _ _ HI u t q p Hu Ht E); congruence).
  rewrite Ht in Hu. injection Hu as <-. congruence.
Qed.

Lemma queue_read_ok g ps L C t w : inv g ps L C -> ps !! t = Some (Some (QueueRead w)) ->
  exists r, PhfQueueWakeEvent g w = Some r /\ moves ps t (QueueRead w) L r.
Proof.
  intros HI Ht. destruct (inv_local _ _ _ _ HI t _ Ht) as [Ho Hz]. cbn [own_block] in *. destruct (Ho Hz) as (Hb & b & Eb).
  unfold PhfQueueWakeEvent. rewrite (update_Some _ _ _ _ Eb). cbn [mbind option_bind]. eexists. split; [done|]. exists L, C. split; [|done]. cbn [fst snd].
  pose proof (not_pending _ _ _ _ _ _ HI Ht ltac:(intros ? [= <-]; not_calling)) as E.
  destruct (not_waiting_own _ _ _ _ _ _ HI Ht eq_refl) as [Hnq|?]; [|done].
  eapply wake_inv_quiet; try done; cbn [own_block] in *; rewrite ?E; try done.
  - by right; left.
  - intros a Ha. by rewrite lookup_insert_ne.
  - by rewrite (inv_hand _ _ _ _ HI t _ Ht).
  - split; cbn [own_block]; [intros _; split; [done|]; rewrite lookup_insert_eq; by eexists|]. split; [done|]. unfold spin. by rewrite lookup_insert_eq.
Qed.

Lemma queue_try_ok g ps L C t w value : inv g ps L C -> ps !! t = Some (Some (QueueTry w value)) ->
  exists r, queue_try g w value = Some r /\ moves ps t (QueueTry w value) L r.
Proof.
  intros HI Ht. destruct (inv_local _ _ _ _ HI t _ Ht) as [Ho [Hz Hsp]]. cbn [own_block] in *. destruct (Ho Hz) as (Hb & b & Eb).
  pose proof (not_pending _ _ _ _ _ _ HI Ht ltac:(intros ? [= <-]; not_calling)) as E.
  destruct (not_waiting_own _ _ _ _ _ _ HI Ht eq_refl) as [Hnq|?]; [|done]. cbn [own_block] in Hnq.
  assert (HC : C t = []) by apply (inv_hand _ _ _ _ HI t _ Ht). assert (Hlt : (t < length ps)%nat) by (by eapply lookup_lt_Some).
  unfold queue_try. rewrite (update_Some _ _ _ _ Eb). cbn [mbind option_bind].
  set (m' := <[w := set_Next b value]> (frames g)). assert (Hm : forall a, a <> w -> m' !! a = frames g !! a) by (intros a Ha; by apply lookup_insert_ne).
  assert (Ew : m' !! w = Some (set_Next b value)) by apply lookup_insert_eq.
  assert (Hsp' : spin m' w = true) by (rewrite <- Hsp; unfold spin; by rewrite Ew, Eb).
  assert (Hquiet : forall p', p' = QueueTry w (Value g) -> inv (set_frames g m') (<[t := Some p']> ps) L C).
  { intros p' ->. eapply wake_inv_quiet; try done; cbn [own_block] in *; rewrite ?E; try done. by right; left. }
  unfold cas. cbn [set_frames Value]. destruct (Z.eqb_spec (Value g) value) as [<-|].
  2: { eexists. split; [done|]. exists L, C. split; [by apply Hquiet|]. split_and!; [done..|by right]. }
  eexists. split; [done|]. exists (w :: L), C. cbn [fst snd set_value set_frames frames kernel]. split; [|split_and!; [done..|by left]].
  specialize (Hquiet _ eq_refl). destruct Hquiet as [Q1 Q2 Q3 Q4 Q5 Q6 Q7 Q8 Q9 Q10 Q11]. cbn [set_frames frames kernel Value] in *.
  assert (Hother : forall u q, <[t := Some (Queued w)]> ps !! u = Some (Some q) -> u = t /\ q = Queued w \/ u <> t /\ <[t := Some (QueueTry w (Value g))]> ps !! u = Some (Some q)).
  { intros u q [[-> [= <-]]|[Hne Hu]]%insert_cases; [by left|]. right. by rewrite list_lookup_insert_ne. }
  assert (Hfresh : forall u q, u <> t -> <[t := Some (QueueTry w (Value g))]> ps !! u = Some (Some q) -> own_block q <> w).
  { intros u q Hne Hu E'. assert (u = t); [|done]. apply (Q6 u t q (QueueTry w (Value g))); [done|by rewrite list_lookup_insert_eq|done|congruence]. }
  split; cbn [set_value set_frames frames kernel Value].
  - cbn [links]. split; [done|]. split; [done|]. exists (Value g). split; [unfold nxt; by rewrite Ew|done].
  - intros u q [[-> ->]|[Hne Hu]]%Hother; [done|by apply Q2].
  - intros u Hu. apply Q3. intros q Hq. destruct (decide (u = t)) as [->|]; [apply (Hu (Queued w)); by rewrite list_lookup_insert_eq|].
    apply (Hu q). rewrite list_lookup_insert_ne in Hq by done. by rewrite list_lookup_insert_ne.
  - by apply apart_push.
  - intros u q [[-> ->]|[Hne Hu]]%Hother; [|by apply (Q5 u)]. split; cbn [own_block]; [|done]. intros _. split; [done|]. rewrite Ew. by eexists.
  - intros u u' q q' [[-> ->]|[Hne Hu]]%Hother [[-> ->]|[Hne' Hu']]%Hother E' Hz'; cbn [own_block] in *; [done|..|by eapply Q6].
    + by destruct (Hfresh u' q').
    + by destruct (Hfresh u q).
  - intros a [-> |Ha]%wake_queued_push.
    + split; [done|]. exists t, (Queued w). by rewrite list_lookup_insert_eq.
    + destruct (Q7 a Ha) as (Hna & u & q & Hu & Hq). split; [done|]. exists u, q. split; [|done].
      apply insert_cases in Hu as [[-> [= <-]]|[Hne Hu]]; [cbn [waits] in Hq; congruence|by rewrite list_lookup_insert_ne].
  - intros u q [[-> ->]|[Hne Hu]]%Hother Hzq; rewrite wake_queued_push.
    + cbn [waits own_block signalled]. rewrite Hsp'. by split; [|left].
    + rewrite <- (Q8 u q Hu Hzq). split; [intros [E'|?]; [|done]|by right]. exfalso. apply (Hfresh u q Hne Hu). by rewrite <- waits_own.
  - intros u q [[-> ->]|[Hne Hu]]%Hother Hs; [done|]. intros [E'|?]%elem_of_cons; [by apply (Hfresh u q)|by apply (Q9 u q)].
  - intros u d key b' Hp. destruct (Q10 u d key b' Hp) as (q & Hu & Hq). apply insert_cases in Hu as [[-> [= <-]]|[Hne Hu]]; [by destruct d|].
    exists q. by rewrite list_lookup_insert_ne.
  - apply Q11.
Qed.

(** A step of the thread alone, as a move. *)
Lemma moves_alone g ps L C t p p' : inv g ps L C -> ps !! t = Some (Some p) -> (forall d key, ~ calls d key p) ->
  waits p' = waits p -> chain_step p p' L L ->
  (waits p <> 0 -> signalled (frames g) None p' (waits p) <-> signalled (frames g) None p (waits p)) ->
  hand (frames g) None p' (C t) -> local (frames g) p' -> (settled p' -> own_block p' ∉ L) -> moves ps t p L (g, p').
Proof. intros HI Ht Hc Hw Hs Hsig Hh Hl Hset. exists L, C. split; [|done]. cbn [fst snd]. eapply wake_inv_step; try done. apply Hs. Qed.

Lemma set_test_ok g ps L C t own : inv g ps L C -> ps !! t = Some (Some (SetTest own)) -> moves ps t (SetTest own) L (g, PhSetWakeEvent g own).
Proof.
  intros HI Ht. pose proof (inv_hand _ _ _ _ HI t _ Ht) as HC. cbn [hand] in HC. pose proof (inv_local _ _ _ _ HI t _ Ht) as Hl.
  unfold PhSetWakeEvent. destruct (Z.eqb_spec (Value g) 0) as [E|E], (Z.eqb_spec own 0) as [->|Ho]; cbn [negb orb];
    (eapply moves_alone; try done; [by not_calling|..]).
  3-5: by split_and!; [done..|left].
  - split_and!; try done. right. apply (links_head _ _ _ _ (inv_chain _ _ _ _ HI)), E.
  - intros _. apply (zero_not_queued _ _ _ _ HI).
Qed.

Lemma set_loop_hand m own a c : links 0 (nxt m) a c -> hand m None (set_loop own a) c.
Proof.
  intros Hl. unfold set_loop. destruct (Z.eqb_spec a 0) as [->|Hz]; cbn [negb]; [|done].
  assert (c = []) as -> by by apply (links_head _ _ _ _ Hl). by destruct (negb _).
Qed.

Lemma set_loop_same own a : own_block (set_loop own a) = own /\ waits (set_loop own a) = own /\ waiting (set_loop own a) = false /\
  settled (set_loop own a) /\ (own <> 0 -> forall m e, signalled m e (set_loop own a) own <-> spin m own = false).
Proof. unfold set_loop. by destruct (Z.eqb_spec a 0), (Z.eqb_spec own 0). Qed.

Lemma set_loop_local m p own a : local m p -> own_block p = own -> local m (set_loop own a).
Proof.
  intros [Ho _] <-. unfold set_loop. destruct (Z.eqb_spec a 0), (Z.eqb_spec (own_block p) 0); cbn [negb]; split; cbn [own_block]; done.
Qed.

Lemma set_pop_ok g ps L C t own : inv g ps L C -> ps !! t = Some (Some (SetPop own)) -> moves ps t (SetPop own) L (PhfSetWakeEvent g own).
Proof.
  intros HI Ht. assert (HC : C t = []) by apply (inv_hand _ _ _ _ HI t _ Ht). assert (Hlt : (t < length ps)%nat) by (by eapply lookup_lt_Some).
  pose proof (inv_local _ _ _ _ HI t _ Ht) as Hl. pose proof (not_pending _ _ _ _ _ _ HI Ht ltac:(intros ? [= <-]; not_calling)) as E.
  destruct (set_loop_same own (Value g)) as (So & Sw & Sg & Ss & Ssig).
  exists [], (give C t L). cbn [fst snd PhfSetWakeEvent]. split; [|split_and!; [done|by rewrite Sg|done]].
  split; cbn [set_value frames kernel Value].
  - done.
  - intros u q [[-> [= <-]]|[Hne Hu]]%insert_cases; [rewrite give_eq, E; apply set_loop_hand, HI|rewrite give_ne by done; by apply HI].
  - intros u Hu. destruct (decide (u = t)) as [->|Hne]; [by destruct (Hu (set_loop own (Value g))); rewrite list_lookup_insert_eq|].
    rewrite give_ne by done. apply (inv_outside _ _ _ _ HI). intros q Hq. apply (Hu q). by rewrite list_lookup_insert_ne.
  - apply apart_pop; [apply HI|done].
  - intros u q [[-> [= <-]]|[Hne Hu]]%insert_cases; [by eapply set_loop_local|by apply (inv_local _ _ _ _ HI u)].
  - intros u u' q q' [[-> [= <-]]|[Hne Hu]]%insert_cases [[-> [= <-]]|[Hne' Hu']]%insert_cases; [done|..|by eapply (inv_own _ _ _ _ HI)].
    + rewrite So. intros Eo Hz. by apply (inv_own _ _ _ _ HI t u' _ q' Ht Hu').
    + rewrite So. intros Eo Hz. by apply (inv_own _ _ _ _ HI u t q _ Hu Ht).
  - intros a Ha%queued_pop; [|done]. destruct (inv_waiter _ _ _ _ HI a Ha) as (Hz & u & q & Hu & Hq). split; [done|]. destruct (decide (u = t)) as [->|Hne].
    + exists t, (set_loop own (Value g)). rewrite list_lookup_insert_eq by done. split; [done|]. rewrite Sw. rewrite Ht in Hu. injection Hu as <-. done.
    + exists u, q. by rewrite list_lookup_insert_ne.
  - intros u q [[-> [= <-]]|[Hne Hu]]%insert_cases Hz; rewrite queued_pop by done; [|by apply (inv_signal _ _ _ _ HI u q)].
    rewrite Sw in *. rewrite Ssig by done. apply (inv_signal _ _ _ _ HI t _ Ht). done.
  - intros u q _ _. by apply not_elem_of_nil.
  - intros u d key b Hp. destruct (inv_call _ _ _ _ HI u d key b Hp) as (q & Hu & Hq). exists q. split; [|done]. rewrite list_lookup_insert_ne; [done|]. intros ->. congruence.
  - apply HI.
Qed.

Lemma hand_queued g ps L C t a : inv g ps L C -> a ∈ C t -> a <> 0 /\ exists u q, ps !! u = Some (Some q) /\ waits q = a /\ own_block q = a /\ is_Some (frames g !! a) /\
  ~ signalled (frames g) (pending (kernel g) !! u) q a.
Proof.
  intros HI Ha. assert (Hq : queued L C a) by (right; by exists t). destruct (inv_waiter _ _ _ _ HI a Hq) as (Hz & u & q & Hu & Hw). split; [done|].
  assert (Hwz : waits q <> 0) by congruence. pose proof (waits_own q Hwz) as Ho. exists u, q. split_and!; [done|done|congruence|..].
  - rewrite <- Hw, Ho. eapply own_frame; [done..|congruence].
  - rewrite <- Hw in Hq |- *. by apply (inv_signal _ _ _ _ HI u q Hu Hwz).
Qed.

Lemma set_next_ok g ps L C t own a : inv g ps L C -> ps !! t = Some (Some (SetNext own a)) -> exists r, unblock_next g own a = Some r /\ moves ps t (SetNext own a) L r.
Proof.
  intros HI Ht. destruct (inv_hand _ _ _ _ HI t _ Ht) as [Ha Hl]. destruct (C t) as [|x c] eqn:HC; [done|]. destruct Hl as (<- & _ & n & Hn & Hl).
  unfold unblock_next, read. unfold nxt in Hn. destruct (frames g !! a) as [b|] eqn:Eb; [|done]. injection Hn as <-. cbn [mbind option_bind]. eexists. split; [done|].
  eapply moves_alone; try done; [by not_calling| |apply (inv_local _ _ _ _ HI t _ Ht)|intros _; by apply (inv_settled _ _ _ _ HI t _ Ht)].
  rewrite HC. cbn [hand]. split; [done|]. by exists c.
Qed.

Lemma set_check_ok g ps L C t own : inv g ps L C -> ps !! t = Some (Some (SetCheck own)) -> exists r, set_check g own = Some r /\ moves ps t (SetCheck own) L r.
Proof.
  intros HI Ht. pose proof (inv_local _ _ _ _ HI t _ Ht) as Hl. pose proof Hl as [Ho Hz]. cbn [own_block] in *. destruct (Ho Hz) as (Hb & b & Eb).
  unfold set_check, read. rewrite Eb. cbn [mbind option_bind]. eexists. split; [done|]. rewrite (spin_has _ _ _ Eb).
  pose proof (inv_settled _ _ _ _ HI t _ Ht I) as Hset. pose proof (inv_hand _ _ _ _ HI t _ Ht) as HC.
  destruct (spin (frames g) own) eqn:Es; (eapply moves_alone; try done); by not_calling.
Qed.

(** Clearing the SPINNING bit of a block that exists. *)
Definition clear_spin (b : PH_QUEUED_WAIT_BLOCK) : PH_QUEUED_WAIT_BLOCK := set_Flags b (Z.clearbit (Flags b) PH_QUEUED_WAITER_SPINNING_SHIFT).

Lemma reset_spinning_Some g a b : frames g !! a = Some b ->
  reset_spinning g a = Some (set_frames g (<[a := clear_spin b]> (frames g)), spin (frames g) a).
Proof. intros E. unfold reset_spinning, read. rewrite E. cbn [mbind option_bind]. rewrite (update_Some _ _ _ _ E). unfold spin. by rewrite E. Qed.

Lemma clear_spin_effect m a b : m !! a = Some b ->
  (forall x, nxt (<[a := clear_spin b]> m) x = nxt m x) /\ spin (<[a := clear_spin b]> m) a = false /\
  (forall x, x <> a -> <[a := clear_spin b]> m !! x = m !! x).
Proof.
  intros E. split_and!.
  - intros x. unfold nxt. destruct (decide (x = a)) as [->|]; [by rewrite lookup_insert_eq, E|by rewrite lookup_insert_ne].
  - unfold spin. rewrite lookup_insert_eq. cbn [clear_spin set_Flags Flags]. apply Z.clearbit_eq.
  - intros x Hx. by apply lookup_insert_ne.
Qed.

Lemma spin_cleared m a b x : m !! a = Some b -> spin m x = false -> spin (<[a := clear_spin b]> m) x = false.
Proof.
  intros E Hx. destruct (clear_spin_effect m a b E) as (_ & Ea & Hne). destruct (decide (x = a)) as [->|]; [done|]. by rewrite (spin_eq _ _ _ (Hne x ltac:(done))).
Qed.

(** PhpBlockOnQueuedWaitBlock: the thread finds its block unblocked, or goes on to wait. *)
Lemma wake_block_reset_ok g ps L C t w why : inv g ps L C -> ps !! t = Some (Some (BlockReset w why)) -> exists r, block_reset g w why = Some r /\ moves ps t (BlockReset w why) L r.
Proof.
  intros HI Ht. pose proof (inv_local _ _ _ _ HI t _ Ht) as Hl. pose proof Hl as [Ho [Hz Hp]]. cbn [own_block] in *. destruct (Ho Hz) as (Hb & b & Eb).
  unfold block_reset. rewrite (reset_spinning_Some _ _ _ Eb). cbn [mbind option_bind]. eexists. split; [done|].
  pose proof (not_pending _ _ _ _ _ _ HI Ht ltac:(intros ? [= <-]; not_calling)) as E. assert (HC : C t = []) by apply (inv_hand _ _ _ _ HI t _ Ht).
  destruct (clear_spin_effect _ _ _ Eb) as (En & Es & Hm). pose proof (inv_settled _ _ _ _ HI t _ Ht) as Hset. cbn [settled own_block] in Hset.
  assert (Hq : spin (frames g) w = false -> ~ queued L C w). { intros Hs Hq. by apply (inv_signal _ _ _ _ HI t _ Ht) in Hq. }
  exists L, C. destruct (spin (frames g) w) eqn:Esp; cbn [fst snd].
  - split; [|split_and!; [done| |done]; by destruct why]. eapply wake_inv_quiet; try done; rewrite ?E; try done; cbn [own_block waits].
    + by right; left.
    + intros p [= <-] _. cbn [signalled]. by rewrite Esp.
    + split; cbn [own_block]; [|done]. intros _. split; [done|]. rewrite lookup_insert_eq. by eexists.
  - assert (Ed : PhfWaitForWakeEvent w why STATUS_SUCCESS = Done w) by (by destruct why). rewrite Ed. split; [|done].
    eapply wake_inv_quiet; try done; rewrite ?E; try done; cbn [own_block waits].
    + by right; left.
    + intros p [= <-] _. cbn [signalled]. by rewrite Esp.
    + split; cbn [own_block]; [|done]. intros _. split; [done|]. rewrite lookup_insert_eq. by eexists.
    + intros _ Hin. apply (Hq eq_refl). by left.
Qed.

Lemma wake_block_spin_ok g ps L C t w why i : inv g ps L C -> ps !! t = Some (Some (BlockSpin w why i)) -> exists r, block_spin g w why i = Some r /\ moves ps t (BlockSpin w why i) L r.
Proof.
  intros HI Ht. pose proof (inv_local _ _ _ _ HI t _ Ht) as Hl. pose proof Hl as [Ho [Hz Hp]]. cbn [own_block] in *. destruct (Ho Hz) as (Hb & b & Eb).
  pose proof (inv_hand _ _ _ _ HI t _ Ht) as HC. pose proof (inv_settled _ _ _ _ HI t _ Ht) as Hset. cbn [settled own_block] in Hset.
  destruct i as [|i]; cbn [block_spin]; [|unfold read; rewrite Eb; cbn [mbind option_bind]; rewrite (spin_has _ _ _ Eb)]; (eexists; split; [done|]).
  - eapply moves_alone; try done. by not_calling.
  - destruct (spin (frames g) w) eqn:Es.
    + eapply moves_alone; try done. by not_calling.
    + assert (Ed : PhfWaitForWakeEvent w why STATUS_SUCCESS = Done w) by (by destruct why). rewrite Ed.
      eapply moves_alone; try done; [by not_calling|]. intros _ Hin. assert (Hq : queued L C w) by (by left). by apply (inv_signal _ _ _ _ HI t _ Ht) in Hq.
Qed.

(** *** Unblocking *)

(** The setter has unblocked the first block of its chain [c'], and goes on with the rest. [m] and [k] may
    have changed for that block and its thread. *)
Lemma unblock_ok g ps L C t own a next c' b g' : inv g ps L C -> ps !! t = Some (Some (SetReset own a next)) -> frames g !! a = Some b ->
  spin (frames g) a = true -> C t = a :: c' -> links 0 (nxt (frames g)) next c' -> g' = set_frames g (<[a := clear_spin b]> (frames g)) ->
  moves ps t (SetReset own a next) L (g', set_loop own next).
Proof.
  intros HI Ht Eb Esp HC Hl ->. assert (Hlt : (t < length ps)%nat) by (by eapply lookup_lt_Some).
  destruct (clear_spin_effect _ _ _ Eb) as (En & Es & Hm). destruct (set_loop_same own next) as (So & Sw & Sg & Ss & Ssig).
  pose proof (not_pending _ _ _ _ _ _ HI Ht ltac:(intros ? [= <-]; not_calling)) as E.
  assert (Hloc : forall p, local (frames g) p -> own_block p <> a \/ (forall v, p <> QueueTry a v) -> local (<[a := clear_spin b]> (frames g)) p).
  { intros p Hp Hor. destruct (decide (own_block p = a)) as [Ea|Hne]; [|eapply wake_local_frame; [by apply Hm|done]]. destruct Hp as [Ho Hr]. split.
    - intros Hz. split; [by apply Ho|]. rewrite Ea, lookup_insert_eq. by eexists.
    - destruct p; try done; cbn [own_block] in Ea; subst; [by destruct Hor as [?|Hv]; [|destruct (Hv value)]|]. destruct Hr as (? & ? & Hs). split_and!; [done..|]. by eapply spin_cleared. }
  destruct (hand_queued _ _ _ _ t a HI ltac:(rewrite HC; by left)) as (Haz & v & q & Hv & Hqw & Hqo & _ & Hqs).
  assert (Howner : forall u p, ps !! u = Some (Some p) -> own_block p = a -> u = v /\ p = q).
  { intros u p Hu Ea. assert (u = v) as -> by (eapply (inv_own _ _ _ _ HI u v p q); try done; congruence). split; [done|]. congruence. }
  exists L, (give C t c'). cbn [fst snd]. split; [|split_and!; [done|by rewrite Sg|done]]. split; cbn [set_frames frames kernel Value].
  - eapply links_frame; [|apply HI]. intros x _. apply En.
  - intros u p [[-> [= <-]]|[Hne Hu]]%insert_cases; [rewrite give_eq, E; apply set_loop_hand; eapply links_frame; [|done]; intros; apply En|].
    rewrite give_ne by done. eapply hand_frame; [|by apply HI]. intros x Hx. split; [apply En|by apply spin_cleared].
  - intros u Hu. destruct (decide (u = t)) as [->|Hne]; [by destruct (Hu (set_loop own next)); rewrite list_lookup_insert_eq|].
    rewrite give_ne by done. apply (inv_outside _ _ _ _ HI). intros p Hp. apply (Hu p). by rewrite list_lookup_insert_ne.
  - eapply apart_drop; [apply HI|done].
  - intros u p [[-> [= <-]]|[Hne Hu]]%insert_cases.
    + eapply set_loop_local; [apply Hloc; [apply (inv_local _ _ _ _ HI t _ Ht)|by right]|done].
    + apply Hloc; [by apply (inv_local _ _ _ _ HI u)|]. destruct (decide (own_block p = a)) as [Ea|]; [right|by left]. intros y ->.
      destruct (Howner u _ Hu Ea) as [-> <-]. cbn in Hqw. congruence.
  - intros u u' p p' [[-> [= <-]]|[Hne Hu]]%insert_cases [[-> [= <-]]|[Hne' Hu']]%insert_cases; [done|..|by eapply (inv_own _ _ _ _ HI)].
    + rewrite So. intros Eo Hz. by apply (inv_own _ _ _ _ HI t u' _ p' Ht Hu').
    + rewrite So. intros Eo Hz. by apply (inv_own _ _ _ _ HI u t p _ Hu Ht).
  - intros x Hx. eapply queued_drop in Hx as [Hx Hxa]; [|apply HI|done]. destruct (inv_waiter _ _ _ _ HI x Hx) as (Hz & u & p & Hu & Hp). split; [done|].
    destruct (decide (u = t)) as [->|Hne].
    + exists t, (set_loop own next). rewrite list_lookup_insert_eq by done. split; [done|]. rewrite Sw. rewrite Ht in Hu. injection Hu as <-. done.
    + exists u, p. by rewrite list_lookup_insert_ne.
  - assert (Hkey : forall u p, ps !! u = Some (Some p) -> waits p <> 0 -> queued L (give C t c') (waits p) <->
        ~ signalled (<[a := clear_spin b]> (frames g)) (pending (kernel g) !! u) p (waits p)).
    { intros u p Hu Hz. rewrite (queued_drop L C t a c') by (apply HI || done). rewrite (inv_signal _ _ _ _ HI u p Hu Hz).
      destruct (decide (waits p = a)) as [Ea|Hne]; [|rewrite (signalled_frame (frames g) _ _ p (waits p) (Hm _ Hne)); tauto].
      rewrite Ea. split; [by intros []|]. intros Hs. exfalso. apply Hs.
      destruct (Howner u p Hu ltac:(by rewrite <- (waits_own p Hz))) as [-> ->]. destruct q; try done. cbn in Hqo, Hqs. subst.
      destruct (inv_local _ _ _ _ HI v _ Hv) as [_ (_ & _ & Hsp)]. congruence. }
    intros u p [[-> [= <-]]|[Hne Hu]]%insert_cases Hz; [|by apply Hkey]. specialize (Hkey t _ Ht). rewrite Sw in *. cbn [waits own_block] in Hkey.
    rewrite Ssig by done. by apply Hkey.
  - intros u p [[-> [= <-]]|[Hne Hu]]%insert_cases Hs; [|by apply (inv_settled _ _ _ _ HI u p)]. rewrite So. by apply (inv_settled _ _ _ _ HI t _ Ht).
  - intros u d key bb Hp. destruct (inv_call _ _ _ _ HI u d key bb Hp) as (p & Hu & Hq). exists p. split; [|done]. rewrite list_lookup_insert_ne; [done|]. intros ->. congruence.
  - apply HI.
Qed.

Lemma set_reset_ok g ps L C t own a next : inv g ps L C -> ps !! t = Some (Some (SetReset own a next)) ->
  exists r, set_reset g own a next = Some r /\ moves ps t (SetReset own a next) L r.
Proof.
  intros HI Ht. destruct (inv_hand _ _ _ _ HI t _ Ht) as (Hza & c' & HC & Hl).
  destruct (hand_queued _ _ _ _ t a HI ltac:(rewrite HC; by left)) as (Haz & v & q & Hv & Hqw & Hqo & [b Eb] & Hqs).
  unfold set_reset. rewrite (reset_spinning_Some _ _ _ Eb). cbn [mbind option_bind]. eexists. split; [done|].
  destruct (spin (frames g) a) eqn:Esp; [by eapply unblock_ok|].
  pose proof (not_pending _ _ _ _ _ _ HI Ht ltac:(intros ? [= <-]; not_calling)) as E.
  destruct (clear_spin_effect _ _ _ Eb) as (En & Es & Hm).
  assert (Hid : clear_spin b = b).
  { unfold spin in Esp. rewrite Eb in Esp. destruct b as [? ? ? ? f]. unfold clear_spin, set_Flags. cbn in *. f_equal. apply Z.bits_inj'. intros n Hn.
    destruct (decide (n = PH_QUEUED_WAITER_SPINNING_SHIFT)) as [->|Hne]; [by rewrite Z.clearbit_eq|by rewrite Z.clearbit_neq by lia]. }
  rewrite Hid, (insert_id (frames g) a b Eb), set_frames_id. eapply moves_alone; try done; [by not_calling|apply (inv_hand _ _ _ _ HI t _ Ht)||idtac..].
  - cbn [hand]. exists c'. split; [done|]. by rewrite decide_False.
  - apply (inv_local _ _ _ _ HI t _ Ht).
  - intros _. by apply (inv_settled _ _ _ _ HI t _ Ht).
Qed.

(** *** The kernel *)

Lemma hand_pend m e e' p c : (forall own a next, p = SetKey own a next -> e = Some (KeyedRelease, a, true) <-> e' = Some (KeyedRelease, a, true)) -> hand m e p c -> hand m e' p c.
Proof.
  intros He. destruct p; try done. intros (c' & Hl & Hc). exists c'. split; [done|]. specialize (He _ _ _ eq_refl).
  repeat case_decide; try done; tauto.
Qed.

Lemma signalled_pend m e e' p w : (forall why, p = BlockKey w why -> e = Some (KeyedWait, w, true) <-> e' = Some (KeyedWait, w, true)) ->
  (forall w' why, p = BlockKey w' why -> w' = w) -> signalled m e p w <-> signalled m e' p w.
Proof. intros He Hw. destruct p; try done. cbn [signalled]. rewrite (Hw _ _ eq_refl) in *. by apply (He why). Qed.

(** A step that changes the kernel, and with it at most what is queued. *)
Lemma inv_kernel g ps L C C' t p p' k' : inv g ps L C -> ps !! t = Some (Some p) -> own_block p' = own_block p -> waits p' = waits p ->
  local (frames g) p' -> (settled p' -> own_block p' ∉ L) -> (forall u, C u = [] -> C' u = []) -> apart L C' -> (forall a, queued L C' a -> queued L C a) ->
  (forall u q, <[t := Some p']> ps !! u = Some (Some q) -> hand (frames g) (pending k' !! u) q (C' u)) ->
  (forall u q, <[t := Some p']> ps !! u = Some (Some q) -> waits q <> 0 -> queued L C' (waits q) <-> ~ signalled (frames g) (pending k' !! u) q (waits q)) ->
  (forall u d key b, pending k' !! u = Some (d, key, b) -> exists q, <[t := Some p']> ps !! u = Some (Some q) /\ calls d key q) ->
  (forall u u' a, pending k' !! u = Some (KeyedWait, a, false) -> pending k' !! u' <> Some (KeyedRelease, a, false)) ->
  inv (set_kernel g k') (<[t := Some p']> ps) L C'.
Proof.
  intros HI Ht Ho Hw Hl Hset Hout Hap Hq Hh Hsig Hc Hp. assert (Hlt : (t < length ps)%nat) by (by eapply lookup_lt_Some).
  split; cbn [set_kernel frames kernel Value]; try done.
  - apply HI.
  - intros u Hu. apply Hout, (inv_outside _ _ _ _ HI). intros q Hq'. destruct (decide (u = t)) as [->|Hne].
    + apply (Hu p'). by rewrite list_lookup_insert_eq.
    + apply (Hu q). by rewrite list_lookup_insert_ne.
  - intros u q [[-> [= <-]]|[Hne Hu]]%insert_cases; [done|by apply (inv_local _ _ _ _ HI u)].
  - intros u u' q q' [[-> [= <-]]|[Hne Hu]]%insert_cases [[-> [= <-]]|[Hne' Hu']]%insert_cases; [done|..|by eapply (inv_own _ _ _ _ HI)].
    + rewrite Ho. by apply (inv_own _ _ _ _ HI t u' p q').
    + rewrite Ho. intros E Hz. by apply (inv_own _ _ _ _ HI u t q p).
  - intros a Ha%Hq. destruct (inv_waiter _ _ _ _ HI a Ha) as (Hz & u & q & Hu & Hqw). split; [done|]. destruct (decide (u = t)) as [->|Hne].
    + exists t, p'. rewrite list_lookup_insert_eq by done. split; [done|]. rewrite Hw. rewrite Ht in Hu. by injection Hu as ->.
    + exists u, q. by rewrite list_lookup_insert_ne.
  - intros u q [[-> [= <-]]|[Hne Hu]]%insert_cases; [done|by apply (inv_settled _ _ _ _ HI u)].
Qed.

Lemma set_kernel_id g : set_kernel g (kernel g) = g.
Proof. by destruct g. Qed.

Lemma moves_still g ps L C t p k' : inv g ps L C -> ps !! t = Some (Some p) -> chain_step p p L L -> k' = kernel g -> moves ps t p L (set_kernel g k', p).
Proof. intros HI Ht Hc ->. exists L, C. cbn [fst snd]. rewrite set_kernel_id, list_insert_id by done. done. Qed.

Lemma pending_call g ps L C t p d key d' key' b : inv g ps L C -> ps !! t = Some (Some p) -> calls d key p -> pending (kernel g) !! t = Some (d', key', b) -> d' = d /\ key' = key.
Proof.
  intros HI Ht Hc E. destruct (inv_call _ _ _ _ HI _ _ _ _ E) as (q & Hq & Hc'). rewrite Ht in Hq. injection Hq as <-. destruct d, d', p; try done; cbn in *; by subst.
Qed.

(** The call blocks. *)
Lemma block_in_kernel g ps L C t p d key k' : inv g ps L C -> ps !! t = Some (Some p) -> calls d key p -> pending (kernel g) !! t = None ->
  (forall t', pending (kernel g) !! t' <> Some (partner d, key, false)) -> pending k' = <[t := (d, key, false)]> (pending (kernel g)) ->
  inv (set_kernel g k') (<[t := Some p]> ps) L C.
Proof.
  intros HI Ht Hc E Hno Hk. pose proof (list_insert_id ps t (Some p) Ht) as Hid. eapply inv_kernel; try done; rewrite ?Hid; try apply HI; try done.
  - by apply (inv_local _ _ _ _ HI t).
  - by apply (inv_settled _ _ _ _ HI t).
  - intros u q Hu. eapply hand_pend; [|by apply (inv_hand _ _ _ _ HI u)]. intros own a next ->. rewrite Hk. destruct (decide (u = t)) as [->|]; [|by rewrite lookup_insert_ne].
    by rewrite lookup_insert_eq, E.
  - intros u q Hu Hz. rewrite (inv_signal _ _ _ _ HI u q Hu Hz). destruct (decide (u = t)) as [->|]; [|by rewrite Hk, lookup_insert_ne].
    rewrite (signalled_pend _ (pending (kernel g) !! t) (pending k' !! t)); [done| |by intros w' why ->]. intros why ->. by rewrite Hk, lookup_insert_eq, E.
  - intros u d' key' b. rewrite Hk. destruct (decide (u = t)) as [->|]; [rewrite lookup_insert_eq; intros [= <- <- <-]; by exists p|].
    rewrite lookup_insert_ne by done. apply (inv_call _ _ _ _ HI).
  - intros u u' a. rewrite Hk. destruct (decide (u = t)) as [->|], (decide (u' = t)) as [->|]; rewrite ?lookup_insert_eq, ?lookup_insert_ne by done.
    + by intros [= -> -> ] [=].
    + intros [= -> ->]. apply (Hno u').
    + intros Hu [= -> ->]. by apply (Hno u).
    + apply (inv_pair _ _ _ _ HI).
Qed.

(** A setter in its release meets the thread in its wait; the thread in its wait meets the setter; the
    thread comes back from its wait. *)
Lemma setter_meets g ps L C t own a next c' v k' : inv g ps L C -> ps !! t = Some (Some (SetKey own a next)) -> pending (kernel g) !! t = None ->
  C t = a :: c' -> links 0 (nxt (frames g)) next c' -> pending (kernel g) !! v = Some (KeyedWait, a, false) ->
  pending k' = <[v := (KeyedWait, a, true)]> (pending (kernel g)) -> inv (set_kernel g k') (<[t := Some (set_loop own next)]> ps) L (give C t c').
Proof.
  intros HI Ht E HC Hlinks Hv Hk. destruct (set_loop_same own next) as (So & Sw & Sg & Ss & Ssig).
  destruct (inv_call _ _ _ _ HI _ _ _ _ Hv) as (q & Hq & Hcq). destruct q; try done. cbn [calls] in Hcq. subst w.
  assert (Hvt : v <> t) by (intros ->; congruence). assert (Haz : a <> 0) by (by apply (hand_queued _ _ _ _ t a HI); rewrite HC; left).
  assert (Hown : forall u q, ps !! u = Some (Some q) -> u <> v -> own_block q <> a).
  { intros u q Hu Hne Ea. apply Hne. symmetry. apply (inv_own _ _ _ _ HI v u (BlockKey a why) q Hq Hu); cbn [own_block]; congruence. }
  pose proof (Hown t _ Ht ltac:(done)) as Hoa. cbn [own_block] in Hoa.
  pose proof (fun x => queued_drop L C t a c' x (inv_apart _ _ _ _ HI) HC) as Hdrop.
  eapply inv_kernel; try done; rewrite ?So, ?Sw; try done.
  - eapply set_loop_local; [apply (inv_local _ _ _ _ HI t _ Ht)|done].
  - intros _. by apply (inv_settled _ _ _ _ HI t _ Ht).
  - intros u Hu. rewrite give_ne; [done|]. intros ->. congruence.
  - eapply apart_drop; [apply HI|done].
  - by intros x [? _]%Hdrop.
  - intros u q [[-> [= <-]]|[Hne Hu]]%insert_cases; [rewrite give_eq, Hk, lookup_insert_ne, E by done; by apply set_loop_hand|]. rewrite give_ne by done.
    eapply hand_pend; [|by apply (inv_hand _ _ _ _ HI u)]. intros o x n ->. rewrite Hk, lookup_insert_ne; [done|]. intros ->. congruence.
  - intros u q [[-> [= <-]]|[Hne Hu]]%insert_cases Hz; rewrite Hdrop.
    + rewrite Sw in *. rewrite Ssig by done. pose proof (inv_signal _ _ _ _ HI t _ Ht Hz) as Hs. cbn [waits own_block signalled] in Hs. tauto.
    + rewrite (inv_signal _ _ _ _ HI u q Hu Hz). destruct (decide (u = v)) as [->|Hnv].
      * rewrite Hq in Hu. injection Hu as <-. cbn [waits own_block signalled]. rewrite Hk, lookup_insert_eq. by split; [intros [? ?]|].
      * pose proof (Hown u q Hu Hnv) as Ho. rewrite <- (waits_own q Hz) in Ho. rewrite Hk, lookup_insert_ne by done. tauto.
  - intros u d key b. rewrite Hk. intros [[<- [= <- <- <-]]|[Hne Hu]]%lookup_insert_Some.
    + exists (BlockKey a why). by rewrite list_lookup_insert_ne.
    + destruct (inv_call _ _ _ _ HI _ _ _ _ Hu) as (q & Hq' & Hc). exists q. rewrite list_lookup_insert_ne; [done|]. intros ->. congruence.
  - intros u u' x. rewrite Hk. intros [[_ ?]|[_ Hu]]%lookup_insert_Some [[_ ?]|[_ Hu']]%lookup_insert_Some; try done. by apply (inv_pair _ _ _ _ HI u u' x).
Qed.

Lemma waiter_meets g ps L C t w why v k' : inv g ps L C -> ps !! t = Some (Some (BlockKey w why)) -> pending (kernel g) !! t = None ->
  pending (kernel g) !! v = Some (KeyedRelease, w, false) -> pending k' = <[v := (KeyedRelease, w, true)]> (pending (kernel g)) ->
  exists C', inv (set_kernel g k') (<[t := Some (Done w)]> ps) L C'.
Proof.
  intros HI Ht E Hv Hk. destruct (inv_call _ _ _ _ HI _ _ _ _ Hv) as (q & Hq & Hcq). destruct q; try done. cbn [calls] in Hcq. subst waitBlock.
  assert (Hvt : v <> t) by (intros ->; congruence). destruct (inv_hand _ _ _ _ HI v _ Hq) as (c' & Hlinks & HC). rewrite decide_False in HC by congruence.
  destruct HC as (Hz & HC & Hsp). assert (HCt : C t = []) by apply (inv_hand _ _ _ _ HI t _ Ht). pose proof (inv_local _ _ _ _ HI t _ Ht) as [Hlo _].
  assert (Hown : forall u q, ps !! u = Some (Some q) -> u <> t -> own_block q <> w).
  { intros u q Hu Hne Ea. apply Hne. symmetry. apply (inv_own _ _ _ _ HI t u (BlockKey w why) q Ht Hu); cbn [own_block]; congruence. }
  pose proof (fun x => queued_drop L C v w c' x (inv_apart _ _ _ _ HI) HC) as Hdrop. exists (give C v c').
  eapply inv_kernel; try done.
  - intros _. apply (apart_both _ _ (inv_apart _ _ _ _ HI) v w). rewrite HC. by left.
  - intros u Hu. rewrite give_ne; [done|]. intros ->. congruence.
  - eapply apart_drop; [apply HI|done].
  - by intros x [? _]%Hdrop.
  - intros u q [[-> [= <-]]|[Hne Hu]]%insert_cases; [by rewrite give_ne|]. destruct (decide (u = v)) as [->|Hnv].
    + rewrite Hq in Hu. injection Hu as <-. rewrite give_eq, Hk, lookup_insert_eq. cbn [hand]. exists c'. by rewrite decide_True.
    + rewrite give_ne, Hk, lookup_insert_ne by done. by apply (inv_hand _ _ _ _ HI).
  - intros u q [[-> [= <-]]|[Hne Hu]]%insert_cases Hzq; rewrite Hdrop.
    + cbn [waits own_block signalled]. split; [by intros [? ?]|by intros []].
    + rewrite (inv_signal _ _ _ _ HI u q Hu Hzq). pose proof (Hown u q Hu Hne) as Ho. rewrite <- (waits_own q Hzq) in Ho. destruct (decide (u = v)) as [->|Hnv].
      * rewrite Hq in Hu. injection Hu as <-. cbn [signalled]. tauto.
      * rewrite Hk, lookup_insert_ne by done. tauto.
  - intros u d key b. rewrite Hk. intros [[<- [= <- <- <-]]|[Hne Hu]]%lookup_insert_Some.
    + eexists. rewrite list_lookup_insert_ne by done. by split.
    + destruct (inv_call _ _ _ _ HI _ _ _ _ Hu) as (q & Hq' & Hc). exists q. rewrite list_lookup_insert_ne; [done|]. intros ->. congruence.
  - intros u u' x. rewrite Hk. intros [[_ ?]|[_ Hu]]%lookup_insert_Some [[_ ?]|[_ Hu']]%lookup_insert_Some; try done. by apply (inv_pair _ _ _ _ HI u u' x).
Qed.

Lemma released_leaves g ps L C t w why k' : inv g ps L C -> ps !! t = Some (Some (BlockKey w why)) ->
  pending (kernel g) !! t = Some (KeyedWait, w, true) -> pending k' = delete t (pending (kernel g)) -> inv (set_kernel g k') (<[t := Some (Done w)]> ps) L C.
Proof.
  intros HI Ht E Hk. pose proof (inv_local _ _ _ _ HI t _ Ht) as [Hlo (Hz & _)]. assert (HC : C t = []) by apply (inv_hand _ _ _ _ HI t _ Ht).
  assert (Hnq : ~ queued L C w). { intros Hq. apply (inv_signal _ _ _ _ HI t _ Ht Hz) in Hq. by apply Hq. }
  eapply inv_kernel; try done; try apply HI.
  - intros _ ?. apply Hnq. by left.
  - intros u q [[-> [= <-]]|[Hne Hu]]%insert_cases; [done|]. rewrite Hk, lookup_delete_ne by done. by apply (inv_hand _ _ _ _ HI).
  - intros u q [[-> [= <-]]|[Hne Hu]]%insert_cases Hzq.
    + cbn [waits own_block signalled]. tauto.
    + rewrite Hk, lookup_delete_ne by done. by apply (inv_signal _ _ _ _ HI).
  - intros u d key b. rewrite Hk. intros [Hne Hu]%lookup_delete_Some. rewrite list_lookup_insert_ne by done. by apply (inv_call _ _ _ _ HI u d key b).
  - intros u u' x. rewrite Hk. intros [_ Hu]%lookup_delete_Some [_ Hu']%lookup_delete_Some. by apply (inv_pair _ _ _ _ HI u u' x).
Qed.

Lemma set_key_ok g ps L C t own a next : inv g ps L C -> ps !! t = Some (Some (SetKey own a next)) -> moves ps t (SetKey own a next) L (set_key g t own a next).
Proof.
  intros HI Ht. pose proof (inv_local _ _ _ _ HI t _ Ht) as Hl. destruct (inv_hand _ _ _ _ HI t _ Ht) as (c' & Hlinks & HC).
  destruct (set_loop_same own next) as (So & Sw & Sg & Ss & Ssig). assert (Hlt : (t < length ps)%nat) by (by eapply lookup_lt_Some).
  assert (Hstep : forall g', inv g' (<[t := Some (set_loop own next)]> ps) L (give C t c') -> moves ps t (SetKey own a next) L (g', set_loop own next)).
  { intros g' Hg. exists L, (give C t c'). cbn [fst snd]. split; [done|]. split_and!; [done|by rewrite Sg|done]. }
  assert (Hloc : local (frames g) (set_loop own next)) by (by eapply set_loop_local).
  assert (Hset : settled (set_loop own next) -> own_block (set_loop own next) ∉ L) by (intros _; rewrite So; by apply (inv_settled _ _ _ _ HI t _ Ht)).
  unfold set_key. change (NtReleaseKeyedEvent (kernel g) a t) with (keyed_call KeyedRelease (kernel g) a t).
  destruct (pending (kernel g) !! t) as [[[d key] []]|] eqn:E; [destruct (pending_call _ _ _ _ _ _ KeyedRelease a _ _ _ HI Ht eq_refl E) as [-> ->]..|].
  - destruct (leave_law _ _ _ _ E) as [Hst Hk]. destruct (keyed_call _ _ _ _) as [k' st]. cbn [fst snd] in *. subst st. cbn [NT_SUCCESS STATUS_SUCCESS Z.ltb Z.compare].
    rewrite decide_True in HC by done. apply Hstep.
    assert (HCg : forall u, give C t c' u = C u) by (intros u; destruct (decide (u = t)) as [->|]; [by rewrite give_eq, HC|by rewrite give_ne]).
    assert (Hqg : forall x, queued L (give C t c') x <-> queued L C x) by (intros x; unfold queued; by setoid_rewrite HCg).
    eapply inv_kernel; try done; rewrite ?So, ?Sw; try done.
    + intros u. by rewrite HCg.
    + destruct (inv_apart _ _ _ _ HI) as [H1 H2 H3 H4]. split; [done|..]; intros u; rewrite ?HCg; [done| |by apply H4]. intros u' x. rewrite HCg. by apply H3.
    + intros x. by rewrite Hqg.
    + intros u q Hu. rewrite HCg. apply insert_cases in Hu as [[-> [= <-]]|[Hne Hu]]; [rewrite Hk, lookup_delete_eq, HC; by apply set_loop_hand|].
      rewrite Hk, lookup_delete_ne by done. by apply (inv_hand _ _ _ _ HI).
    + intros u q Hu Hz. rewrite Hqg. apply insert_cases in Hu as [[-> [= <-]]|[Hne Hu]]; [|rewrite Hk, lookup_delete_ne by done; by apply (inv_signal _ _ _ _ HI)].
      rewrite Sw in *. rewrite Ssig by done. apply (inv_signal _ _ _ _ HI t _ Ht). done.
    + intros u d key b. rewrite Hk. intros [Hne Hu]%lookup_delete_Some. rewrite list_lookup_insert_ne by done. by apply (inv_call _ _ _ _ HI u d key b).
    + intros u u' x. rewrite Hk. intros [_ Hu]%lookup_delete_Some [_ Hu']%lookup_delete_Some. by apply (inv_pair _ _ _ _ HI u u' x).
  - rewrite (blocked_law _ _ _ _ E). by apply (moves_still g ps L C).
  - rewrite decide_False in HC by done. destruct HC as (Haz & HC & Hsp). pose proof (enter_law KeyedRelease (kernel g) a t E) as He.
    destruct (keyed_call _ _ _ _) as [k' st]. cbn [fst snd] in *. destruct He as [(v & Hv & -> & Hk)|(Hno & -> & Hk)].
    + cbn [NT_SUCCESS STATUS_SUCCESS Z.ltb Z.compare]. apply Hstep. by apply (setter_meets g ps L C t own a next c' v k').
    + exists L, C. cbn [fst snd]. split; [by apply (block_in_kernel g ps L C t _ KeyedRelease a k')|done].
Qed.

Lemma wake_block_key_ok g ps L C t w why : inv g ps L C -> ps !! t = Some (Some (BlockKey w why)) -> moves ps t (BlockKey w why) L (block_key g t w why).
Proof.
  intros HI Ht. pose proof (inv_local _ _ _ _ HI t _ Ht) as Hl. assert (HC : C t = []) by apply (inv_hand _ _ _ _ HI t _ Ht).
  assert (Ed : PhfWaitForWakeEvent w why STATUS_SUCCESS = Done w) by (by destruct why).
  assert (Hstep : forall g' C', inv g' (<[t := Some (Done w)]> ps) L C' -> moves ps t (BlockKey w why) L (g', Done w)) by (intros g' C' Hg; by exists L, C').
  unfold block_key. change (NtWaitForKeyedEvent (kernel g) w t) with (keyed_call KeyedWait (kernel g) w t).
  destruct (pending (kernel g) !! t) as [[[d key] []]|] eqn:E; [destruct (pending_call _ _ _ _ _ _ KeyedWait w _ _ _ HI Ht eq_refl E) as [-> ->]..|].
  - destruct (leave_law _ _ _ _ E) as [Hst Hk]. destruct (keyed_call _ _ _ _) as [k' st]. cbn [fst snd] in *. subst st.
    cbn [block_status NT_SUCCESS STATUS_SUCCESS Z.ltb Z.compare]. fold STATUS_SUCCESS. rewrite Ed. apply (Hstep _ C). by eapply released_leaves.
  - rewrite (blocked_law _ _ _ _ E). cbn [block_status]. by apply (moves_still g ps L C).
  - pose proof (enter_law KeyedWait (kernel g) w t E) as He. destruct (keyed_call _ _ _ _) as [k' st]. cbn [fst snd] in *. destruct He as [(v & Hv & -> & Hk)|(Hno & -> & Hk)].
    + cbn [block_status NT_SUCCESS STATUS_SUCCESS Z.ltb Z.compare]. fold STATUS_SUCCESS. rewrite Ed. destruct (waiter_meets _ _ _ _ _ _ _ _ k' HI Ht E Hv Hk) as (C' & HI'). by apply (Hstep _ C').
    + cbn [block_status]. exists L, C. cbn [fst snd]. split; [by apply (block_in_kernel g ps L C t _ KeyedWait w k')|done].
Qed.

(** Every step of a call is defined and keeps the invariant. *)
Lemma wake_next_ok g ps L C t p : inv g ps L C -> ps !! t = Some (Some p) ->
  match next g t p with
  | None => False
  | Some None => (exists w, p = Queued w) \/ (exists own, p = Done own)
  | Some (Some r) => moves ps t p L r
  end.
Proof.
  intros HI Ht.
  assert (Hs : forall (o : option (PH_WAKE_EVENT * pc)), (exists r, o = Some r /\ moves ps t p L r) ->
    match Some <$> o with None => False | Some None => (exists w, p = Queued w) \/ (exists own, p = Done own) | Some (Some r) => moves ps t p L r end) by (by intros o (r & -> & Hr)).
  destruct p; cbn [next].
  - apply Hs. by eapply queue_read_ok.
  - apply Hs. by eapply queue_try_ok.
  - left. by eexists.
  - by eapply set_test_ok.
  - by eapply set_pop_ok.
  - apply Hs. by eapply set_next_ok.
  - apply Hs. by eapply set_reset_ok.
  - by eapply set_key_ok.
  - apply Hs. by eapply set_check_ok.
  - apply Hs. by eapply wake_block_spin_ok.
  - apply Hs. by eapply wake_block_reset_ok.
  - by eapply wake_block_key_ok.
  - right. by eexists.
  - by destruct (inv_local _ _ _ _ HI t _ Ht).
Qed.

(** *** What the client does *)

Lemma inv_enter g ps L C t w b : inv g ps L C -> ps !! t = Some None -> block_ok w -> frames g !! w = None ->
  inv (enter_frame g w b) (<[t := Some (QueueRead w)]> ps) L C.
Proof.
  intros HI Ht Hw Hf. pose proof (not_pending _ _ _ _ _ _ HI Ht ltac:(by intros ? [=])) as E. assert (Hz : w <> 0) by (destruct Hw; lia).
  assert (Hnq : ~ queued L C w).
  { intros Hq. destruct (inv_waiter _ _ _ _ HI w Hq) as (_ & u & q & Hu & Ew). assert (Hqz : waits q <> 0) by congruence.
    rewrite (waits_own q Hqz) in Ew. destruct (own_frame _ _ _ _ _ _ HI Hu ltac:(congruence)) as [b' Hb']. congruence. }
  eapply wake_inv_quiet; try done; rewrite ?E; try done; cbn [own_block].
  - by right; right.
  - intros a Ha. by rewrite lookup_insert_ne.
  - cbn [hand]. apply (inv_outside _ _ _ _ HI). intros q Hq. congruence.
  - split; cbn [own_block]; [|done]. intros _. split; [done|]. rewrite lookup_insert_eq. by eexists.
Qed.

Lemma inv_begin_set g ps L C t : inv g ps L C -> ps !! t = Some None -> inv g (<[t := Some (SetTest 0)]> ps) L C.
Proof.
  intros HI Ht. pose proof (not_pending _ _ _ _ _ _ HI Ht ltac:(by intros ? [=])) as E. rewrite <- (set_frames_id g) at 1.
  eapply wake_inv_quiet; try done; rewrite ?E; try done; cbn [own_block]; [by left|..].
  cbn [hand]. apply (inv_outside _ _ _ _ HI). intros q Hq. congruence.
Qed.

Lemma inv_cancel g ps L C t w : inv g ps L C -> ps !! t = Some (Some (Queued w)) -> inv g (<[t := Some (SetTest w)]> ps) L C.
Proof.
  intros HI Ht. eapply wake_inv_step; try done; [by not_calling|apply (inv_hand _ _ _ _ HI t _ Ht)|].
  split; [|done]. apply (inv_local _ _ _ _ HI t _ Ht).
Qed.

Lemma inv_wait g ps L C t w i : inv g ps L C -> ps !! t = Some (Some (Queued w)) -> inv g (<[t := Some (BlockSpin w (Wait false) i)]> ps) L C.
Proof.
  intros HI Ht. pose proof (inv_local _ _ _ _ HI t _ Ht) as [Ho Hz].
  eapply wake_inv_step; try done; [by not_calling|apply (inv_hand _ _ _ _ HI t _ Ht)].
Qed.

(** A thread leaves its frame, or a call that had none. *)
Lemma inv_leave g ps L C t own m' : inv g ps L C -> ps !! t = Some (Some (Done own)) -> (forall a, a <> own -> m' !! a = frames g !! a) ->
  inv (set_frames g m') (<[t := None]> ps) L C.
Proof.
  intros HI Ht Hm. pose proof (not_pending _ _ _ _ _ _ HI Ht ltac:(intros ? [= <-]; not_calling)) as E.
  assert (Hnq : own <> 0 -> ~ queued L C own) by (intros Hz Hq; by apply (inv_signal _ _ _ _ HI t _ Ht Hz) in Hq).
  assert (Heq : forall a, a <> 0 -> queued L C a -> m' !! a = frames g !! a).
  { intros a Hz Hq. destruct (decide (a = own)) as [->|]; [|by apply Hm]. by destruct (Hnq Hz). }
  assert (Hother : forall u q, u <> t -> ps !! u = Some (Some q) -> own_block q <> 0 -> m' !! own_block q = frames g !! own_block q).
  { intros u q Hne Hu Hz. apply Hm. intros Eo. apply Hne. by apply (inv_own _ _ _ _ HI u t q (Done own)). }
  split; cbn [set_frames frames kernel Value].
  - eapply links_frame; [|apply HI]. intros a Ha. apply nxt_eq, Heq; [|by left]. apply (inv_waiter _ _ _ _ HI). by left.
  - intros u q [[-> [=]]|[Hne Hu]]%insert_cases. eapply hand_frame; [|by apply HI]. intros a Ha. assert (Hq : queued L C a) by (right; by exists u).
    pose proof (Heq a (proj1 (inv_waiter _ _ _ _ HI a Hq)) Hq) as Ea. by rewrite (nxt_eq _ _ _ Ea), (spin_eq _ _ _ Ea).
  - intros u Hu. destruct (decide (u = t)) as [->|Hne]; [apply (inv_hand _ _ _ _ HI t _ Ht)|]. apply (inv_outside _ _ _ _ HI). intros q Hq. apply (Hu q). by rewrite list_lookup_insert_ne.
  - apply HI.
  - intros u q [[-> [=]]|[Hne Hu]]%insert_cases. pose proof (inv_local _ _ _ _ HI u q Hu) as Hl. destruct (decide (own_block q = 0)); [by eapply local_zero|by eapply wake_local_frame; [eapply Hother|]].
  - intros u u' q q' [[-> [=]]|[Hne Hu]]%insert_cases [[-> [=]]|[Hne' Hu']]%insert_cases. by eapply (inv_own _ _ _ _ HI).
  - intros a Ha. destruct (inv_waiter _ _ _ _ HI a Ha) as (Hz & u & q & Hu & Hq). split; [done|]. exists u, q. rewrite list_lookup_insert_ne; [done|]. intros <-.
    rewrite Ht in Hu. injection Hu as <-. cbn [waits own_block] in Hq. subst. by destruct (Hnq Hz).
  - intros u q [[-> [=]]|[Hne Hu]]%insert_cases Hz. rewrite (inv_signal _ _ _ _ HI u q Hu Hz), (signalled_frame (frames g) m'); [done|].
    rewrite (waits_own q Hz). apply (Hother u); [done..|]. by rewrite <- (waits_own q Hz).
  - intros u q [[-> [=]]|[Hne Hu]]%insert_cases. by apply (inv_settled _ _ _ _ HI u).
  - intros u d key b Hp. destruct (inv_call _ _ _ _ HI u d key b Hp) as (q & Hu & Hq). exists q. split; [|done]. rewrite list_lookup_insert_ne; [done|]. intros ->. congruence.
  - apply HI.
Qed.

Lemma wake_inv_initial k n : pending k = ∅ -> inv (PhInitializeWakeEvent k) (replicate n None) [] (fun _ => []).
Proof.
  intros Hk. assert (Hn : forall t p, replicate n (@None pc) !! t <> Some (Some p)) by (by intros t p [? _]%lookup_replicate).
  split; cbn; try done; try (by intros ? ? ?%Hn); rewrite ?Hk.
  - split; [constructor|intros; constructor|by intros t t' a ?%not_elem_of_nil|by intros t a ?%not_elem_of_nil].
  - by intros t t' p p' ?%Hn.
  - by intros a [?%not_elem_of_nil|[? ?%not_elem_of_nil]].
  - done.
  - done.
Qed.

(** *** Rest *)

(** A thread in a call of the kernel that does not return. *)
Definition asleep g (t : nat) p : Prop :=
  match p with
  | BlockKey w _ => keyed_call KeyedWait (kernel g) w t = (kernel g, None)
  | SetKey _ a _ => keyed_call KeyedRelease (kernel g) a t = (kernel g, None)
  | _ => False
  end.

Lemma wake_asleep_pending g ps L C t p d key : inv g ps L C -> ps !! t = Some (Some p) -> calls d key p -> asleep g t p -> pending (kernel g) !! t = Some (d, key, false).
Proof.
  intros HI Ht Hc Ha. assert (Ha' : keyed_call d (kernel g) key t = (kernel g, None)) by (destruct d, p; try done; cbn in Hc, Ha; by subst).
  destruct (pending (kernel g) !! t) as [[[d' key'] b]|] eqn:E.
  - destruct (pending_call _ _ _ _ _ _ _ _ _ _ _ HI Ht Hc E) as [-> ->]. destruct b; [|done]. destruct (leave_law _ _ _ _ E) as [Hst _]. by rewrite Ha' in Hst.
  - destruct (enter_law d (kernel g) key t E) as [(v & _ & Hst & _)|(_ & _ & Hp)]; [by rewrite Ha' in Hst|].
    rewrite Ha' in Hp. cbn [fst] in Hp. rewrite Hp, lookup_insert_eq in E. done.
Qed.

(** When all the threads in calls sleep, each sleeps in a wait, and its block is on the event. *)
Lemma resting_queued g ps L C : inv g ps L C -> (forall t p, ps !! t = Some (Some p) -> asleep g t p) ->
  forall t p, ps !! t = Some (Some p) -> exists w, p = BlockKey w (Wait false) /\ w ∈ L.
Proof.
  intros HI Hrest.
  assert (Hno : forall t own a n, ps !! t <> Some (Some (SetKey own a n))).
  { intros t own a n Ht. pose proof (wake_asleep_pending _ _ _ _ _ _ KeyedRelease a HI Ht eq_refl (Hrest t _ Ht)) as E.
    destruct (inv_hand _ _ _ _ HI t _ Ht) as (c' & _ & HC). rewrite decide_False in HC by congruence. destruct HC as (_ & HC & Hsp).
    destruct (hand_queued _ _ _ _ t a HI ltac:(rewrite HC; by left)) as (_ & v & q & Hv & _ & Hqo & _ & Hqs).
    pose proof (Hrest v q Hv) as Hqa. destruct q; try done; cbn [own_block] in Hqo; subst.
    by apply (inv_pair _ _ _ _ HI v t a (wake_asleep_pending _ _ _ _ _ _ KeyedWait a HI Hv eq_refl Hqa)). }
  intros t p Ht. pose proof (Hrest t p Ht) as Ha. destruct p; try done; [by destruct (Hno _ _ _ _ Ht)|].
  destruct (inv_local _ _ _ _ HI t _ Ht) as [_ (Hz & Hp & _)]. pose proof (wake_asleep_pending _ _ _ _ _ _ KeyedWait w HI Ht eq_refl Ha) as E.
  assert (Hq : queued L C w) by (apply (inv_signal _ _ _ _ HI t _ Ht Hz); cbn [signalled waits own_block]; congruence).
  assert (HL : w ∈ L).
  { destruct Hq as [?|[u Hu]]; [done|]. destruct (ps !! u) as [[q|]|] eqn:Eu; [|rewrite (inv_outside _ _ _ _ HI u) in Hu by congruence; by apply not_elem_of_nil in Hu..].
    pose proof (inv_hand _ _ _ _ HI u q Eu) as HC. pose proof (Hrest u q Eu) as Hqa. destruct q; try done; [by destruct (Hno _ _ _ _ Eu)|].
    cbn [hand] in HC. rewrite HC in Hu. by apply not_elem_of_nil in Hu. }
  exists w. split; [|done]. destruct why as [|[]]; [|by destruct Hp|done]. by destruct (inv_settled _ _ _ _ HI t _ Ht eq_refl).
Qed.

End invariant.

(** ** Threads that share an event *)
Section clients.
Context {K : Type} `{KeyedTimeoutLaws K}.
Context (SpinCount : nat).
Implicit Types (g : PH_QUEUED_LOCK K) (p : pc) (ps : list (option pc)).

Lemma wake_keeps_step g ps g' ps' : keeps g ps -> step SpinCount false (g, ps) (g', ps') -> keeps g' ps'.
Proof.
  intros (L & C & HI) Hs. inversion Hs as [? ? t w b Ht Hm Hr Hf|? ? t w Ht|? ? t w timed Spin Ht Htm|? ? t Ht|? ? t o Ht|? ? t p ? p' Ht Hn|? ? t p ? p' Ht Hn]; subst.
  - exists L, C. by apply inv_enter.
  - exists L, C. by eapply inv_cancel.
  - exists L, C. destruct timed; [by specialize (Htm eq_refl)|]. by apply inv_wait.
  - exists L, C. by apply inv_begin_set.
  - exists L, C. eapply inv_leave; [done..|]. intros a Ha. by rewrite lookup_delete_ne.
  - pose proof (wake_next_ok _ _ _ _ _ _ HI Ht) as Hok. rewrite Hn in Hok. destruct Hok as (L' & C' & HI' & _). by exists L', C'.
  - exfalso. destruct p as [| | | | | | | | | | |w [|[]]| |]; try done. by destruct (inv_local _ _ _ _ HI t _ Ht) as [_ (_ & [] & _)].
Qed.

Lemma wake_reachable_keeps k n g ps : pending k = ∅ -> reachable SpinCount false k n (g, ps) -> keeps g ps.
Proof.
  intros Hk. apply (rtc_ind_r (fun s => keeps s.1 s.2)).
  - exists [], (fun _ => []). by apply wake_inv_initial.
  - intros [g1 ps1] [g2 ps2] _ Hs IH. by eapply wake_keeps_step.
Qed.

(** C17: A wake event whose waits have no timeout is sound for every interleaving of its calls: no step
    touches a wait block whose frame is gone and none raises, a thread that cancels its wait included;
    and when all the threads in calls are asleep, each is in a wait and its block is still on the chain
    of the event, so that the next PhSetWakeEvent wakes it: no wake-up is lost. *)
Theorem wake_event_sound k n g ps : pending k = ∅ -> reachable SpinCount false k n (g, ps) ->
  (forall t p, ps !! t = Some (Some p) -> p <> Raised /\ next g t p <> None) /\
  ((forall t p, ps !! t = Some (Some p) -> asleep g t p) -> forall t p, ps !! t = Some (Some p) ->
    exists w L, p = BlockKey w (Wait false) /\ links 0 (nxt (frames g)) (Value g) L /\ w ∈ L).
Proof.
  intros Hk Hr. destruct (wake_reachable_keeps _ _ _ _ Hk Hr) as (L & C & HI). split.
  - intros t p Ht. split; [intros ->; by destruct (inv_local _ _ _ _ HI t _ Ht)|]. intros E. pose proof (wake_next_ok _ _ _ _ _ _ HI Ht) as Hok. by rewrite E in Hok.
  - intros Hrest t p Ht. destruct (resting_queued _ _ _ _ HI Hrest t p Ht) as (w & -> & Hw). exists w, L. split_and!; [done|apply HI|done].
Qed.

(** *** A wait that times out *)

(** What holds of the threads whatever timeouts there are: calls of the kernel are those of threads that
    are in them, and nobody else's block is in a thread's frame. *)
Record owned g ps : Prop := {
  ow_calls : forall u d key b, pending (kernel g) !! u = Some (d, key, b) -> exists p, ps !! u = Some (Some p) /\ calls d key p;
  ow_block : forall u p, ps !! u = Some (Some p) -> own_block p <> 0 -> is_Some (frames g !! own_block p);
  ow_apart : forall u v p q, ps !! u = Some (Some p) -> ps !! v = Some (Some q) -> own_block p = own_block q -> own_block p <> 0 -> u = v;
}.

(** Thread [t] is to unblock its own block, whose SPINNING bit it has reset itself before it slept: it will
    release the key of the block, or has released it and sleeps. *)
Definition own_release g ps (t : nat) (w next : Z) : Prop :=
  w <> 0 /\ spin (frames g) w = false /\ is_Some (frames g !! w) /\
  (ps !! t = Some (Some (SetReset w w next)) \/
   ps !! t = Some (Some (SetKey w w next)) /\ (pending (kernel g) !! t = None \/ pending (kernel g) !! t = Some (KeyedRelease, w, false))).

Lemma set_loop_own own a : own_block (set_loop own a) = own.
Proof. unfold set_loop. by destruct (negb _); [|destruct (Z.eqb_spec own 0)]. Qed.

Lemma block_status_own w why st : own_block (block_status w why st) = w \/ own_block (block_status w why st) = 0.
Proof. destruct st as [st|]; [|by left]. cbn [block_status]. destruct (NT_SUCCESS st); [|by right]. left. destruct why; [done|]. cbn. by destruct (negb _). Qed.

Lemma wait_own w why st : own_block (PhfWaitForWakeEvent w why st) = w.
Proof. destruct why; [done|]. cbn. by destruct (negb _). Qed.
(** A step of a call, as far as others are concerned. *)
Lemma next_effect g (t : nat) p g' p' : next g t p = Some (Some (g', p')) ->
  (own_block p' = own_block p \/ own_block p' = 0) /\
  (forall a, is_Some (frames g !! a) -> is_Some (frames g' !! a) /\ (a <> own_block p -> spin (frames g) a = false -> spin (frames g') a = false)) /\
  (kernel g' = kernel g /\ (forall d key, ~ calls d key p) \/
   exists d key, calls d key p /\ kernel g' = (keyed_call d (kernel g) key t).1 /\ ((keyed_call d (kernel g) key t).2 = None -> p' = p)).
Proof.
  assert (Hupd : forall a f g1 g2, update g1 a f = Some g2 -> kernel g2 = kernel g1 /\
    forall x, is_Some (frames g1 !! x) -> is_Some (frames g2 !! x) /\ (x <> a -> spin (frames g1) x = false -> spin (frames g2) x = false)).
  { intros a f g1 g2 Hu. unfold update in Hu. destruct (frames g1 !! a) as [b|]; [|done]. injection Hu as <-. split; [done|]. cbn [set_frames frames]. intros x Hx.
    destruct (decide (x = a)) as [->|Hne]; [rewrite lookup_insert_eq; by split; [eexists|]|]. rewrite lookup_insert_ne by done. split; [done|]. intros _. by rewrite (spin_eq _ _ x (lookup_insert_ne _ _ _ _ (not_eq_sym Hne))). }
  assert (Hres : forall a g1 g2 b, reset_spinning g1 a = Some (g2, b) -> kernel g2 = kernel g1 /\
    forall x, is_Some (frames g1 !! x) -> is_Some (frames g2 !! x) /\ (spin (frames g1) x = false -> spin (frames g2) x = false)).
  { intros a g1 g2 b Hr. destruct (frames g1 !! a) as [c|] eqn:Ec; [|unfold reset_spinning, read in Hr; by rewrite Ec in Hr]. rewrite (reset_spinning_Some _ _ _ Ec) in Hr. injection Hr as <- _. split; [done|].
    cbn [set_frames frames]. intros x Hx. split; [|by apply spin_cleared]. destruct (decide (x = a)) as [->|]; [by rewrite lookup_insert_eq|by rewrite lookup_insert_ne]. }
  intros Hn. destruct p; cbn [next own_block] in *; try done.
  - unfold PhfQueueWakeEvent in Hn. destruct (update _ _ _) as [g1|] eqn:E; [|done]. injection Hn as <- <-. destruct (Hupd _ _ _ _ E). split_and!; [by left|done|left; split; [done|not_calling]].
  - unfold queue_try in Hn. destruct (update _ _ _) as [g1|] eqn:E; [|done]. destruct (Hupd _ _ _ _ E) as [Ek Ef]. unfold cas in Hn. cbn [mbind option_bind] in Hn.
    destruct (Value g1 =? value); injection Hn as <- <-; split_and!; try (by left); try done; left; (split; [done|not_calling]).
  - injection Hn as <- <-. split_and!; [left; unfold PhSetWakeEvent; by destruct (_ || _)|done|left; split; [done|not_calling]].
  - injection Hn as <- <-. split_and!; [left; apply set_loop_own|done|left; split; [done|not_calling]].
  - unfold unblock_next in Hn. destruct (read _ _); [|done]. injection Hn as <- <-. split_and!; [by left|done|left; split; [done|not_calling]].
  - unfold set_reset in Hn. destruct (reset_spinning g waitBlock) as [[g1 b]|] eqn:E; [|done]. injection Hn as <- <-. destruct (Hres _ _ _ _ E) as [Ek Ef].
    split_and!; [left; destruct b; [apply set_loop_own|done]|intros x Hx; split; [|intros _]; by apply Ef|left; split; [done|not_calling]].
  - unfold set_key in Hn. change (NtReleaseKeyedEvent (kernel g) waitBlock t) with (keyed_call KeyedRelease (kernel g) waitBlock t) in Hn.
    destruct (keyed_call _ _ _ _) as [k' st] eqn:E. injection Hn as <- <-. split_and!; [|done|right; exists KeyedRelease, waitBlock; rewrite E; by split_and!; [..|intros [= ->]]].
    destruct st as [st|]; [|by left]. destruct (NT_SUCCESS st); [left; apply set_loop_own|by right].
  - unfold set_check in Hn. destruct (read _ _); [|done]. injection Hn as <- <-. split_and!; [left; by destruct (has _ _)|done|left; split; [done|not_calling]].
  - destruct i as [|i]; cbn [block_spin] in Hn; [injection Hn as <- <-; split_and!; [by left|done|left; split; [done|not_calling]]|].
    destruct (read g w); [|done]. injection Hn as <- <-. split_and!; [left; destruct (has _ _); [done|apply wait_own]|done|left; split; [done|not_calling]].
  - unfold block_reset in Hn. destruct (reset_spinning g w) as [[g1 b]|] eqn:E; [|done]. injection Hn as <- <-. destruct (Hres _ _ _ _ E) as [Ek Ef].
    split_and!; [left; destruct b; [done|apply wait_own]|intros x Hx; split; [|intros _]; by apply Ef|left; split; [done|not_calling]].
  - unfold block_key in Hn. change (NtWaitForKeyedEvent (kernel g) w t) with (keyed_call KeyedWait (kernel g) w t) in Hn.
    destruct (keyed_call _ _ _ _) as [k' st] eqn:E. injection Hn as <- <-. split_and!; [apply block_status_own|done|right; exists KeyedWait, w; rewrite E; by split_and!; [..|intros [= ->]]].
Qed.

(** A call of the kernel by thread [u], which was in no other call. *)
Lemma call_effect (k : K) d key (u : nat) : (forall d' key' b, pending k !! u = Some (d', key', b) -> d' = d /\ key' = key) ->
  (forall v d' key' b, pending (keyed_call d k key u).1 !! v = Some (d', key', b) ->
     (exists b', pending k !! v = Some (d', key', b')) \/ v = u /\ d' = d /\ key' = key) /\
  (forall t w, t <> u -> pending k !! t = Some (KeyedRelease, w, false) -> (d = KeyedWait -> key <> w) ->
     pending (keyed_call d k key u).1 !! t = Some (KeyedRelease, w, false)) /\
  (is_Some (pending (keyed_call d k key u).1 !! u) -> (keyed_call d k key u).2 = None).
Proof.
  intros Hu. destruct (pending k !! u) as [[[d' key'] []]|] eqn:E; [destruct (Hu _ _ _ eq_refl) as [-> ->]..|].
  - destruct (leave_law _ _ _ _ E) as [Hst ->]. split_and!.
    + intros v d' key' b [_ Hv]%lookup_delete_Some. left. by exists b.
    + intros t w Hne Ht _. by rewrite lookup_delete_ne.
    + rewrite lookup_delete_eq. by intros [? ?].
  - rewrite (blocked_law _ _ _ _ E). cbn [fst snd]. split_and!; [|done|done]. intros v d' key' b Hv. left. by exists b.
  - destruct (enter_law d k key u E) as [(t' & Ht' & Hst & ->)|(_ & Hst & ->)]; rewrite Hst; split_and!.
    + intros v d' key' b [[<- [= <- <- <-]]|[_ Hv]]%lookup_insert_Some; left; [by exists false|by exists b].
    + intros t w Hne Ht Hw. rewrite lookup_insert_ne; [done|]. intros ->. rewrite Ht in Ht'. destruct d; [|done]. injection Ht' as ->. by apply Hw.
    + rewrite lookup_insert_ne; [|intros ->; congruence]. rewrite E. by intros [? ?].
    + intros v d' key' b [[<- [= <- <- <-]]|[_ Hv]]%lookup_insert_Some; [by right|left; by exists b].
    + intros t w Hne Ht _. by rewrite lookup_insert_ne.
    + done.
Qed.

(** A thread that begins, ends or decides what to do, with what it does to the frames. *)
Lemma owned_put g ps (t : nat) o (o' : option pc) m' : owned g ps -> ps !! t = Some o -> (forall p d key, o = Some p -> ~ calls d key p) ->
  (forall u p, u <> t -> ps !! u = Some (Some p) -> own_block p <> 0 -> is_Some (m' !! own_block p)) ->
  (forall p', o' = Some p' -> own_block p' <> 0 -> is_Some (m' !! own_block p') /\ forall u p, u <> t -> ps !! u = Some (Some p) -> own_block p <> own_block p') ->
  owned (set_frames g m') (<[t := o']> ps).
Proof.
  intros [O1 O2 O3] Ht Hno Hm Ho'. split; cbn [set_frames frames kernel].
  - intros u d key b Hu. destruct (O1 u d key b Hu) as (p & Hp & Hc). exists p. split; [|done]. rewrite list_lookup_insert_ne; [done|]. intros <-. rewrite Ht in Hp. injection Hp as ->. by destruct (Hno p d key eq_refl).
  - intros u p [[-> ->]|[Hne Hu]]%insert_cases Hz; [by apply Ho'|by eapply Hm].
  - intros u v p q [[-> Ep]|[Hnu Hu]]%insert_cases [[-> Eq]|[Hnv Hv]]%insert_cases E Hz; [done|..|by eapply O3].
    + exfalso. destruct (Ho' p Ep Hz) as [_ Hd]. by destruct (Hd v q Hnv Hv).
    + exfalso. rewrite E in Hz. destruct (Ho' q Eq Hz) as [_ Hd]. by destruct (Hd u p Hnu Hu).
Qed.

(** A step of a call. *)
Lemma owned_next g ps (t : nat) p g' p' : owned g ps -> ps !! t = Some (Some p) -> next g t p = Some (Some (g', p')) -> owned g' (<[t := Some p']> ps).
Proof.
  intros [O1 O2 O3] Ht Hn. assert (Hlt : (t < length ps)%nat) by (by eapply lookup_lt_Some). destruct (next_effect _ _ _ _ _ Hn) as (Ho & Hf & Hk). split.
  - destruct Hk as [[-> Hnc]|(d & key & Hcall & -> & Hkn)]; intros v d' key' b Hv.
    + destruct (O1 v d' key' b Hv) as (q & Hq & Hcq). exists q. rewrite list_lookup_insert_ne; [done|]. intros <-. rewrite Ht in Hq. injection Hq as <-. by destruct (Hnc d' key').
    + assert (Hmatch : forall d' key' b, pending (kernel g) !! t = Some (d', key', b) -> d' = d /\ key' = key).
      { intros d1 key1 b1 Hd. destruct (O1 _ _ _ _ Hd) as (q & Hq & Hcq). rewrite Ht in Hq. injection Hq as <-. destruct d, d1, p; try done; cbn in *; by subst. }
      destruct (call_effect _ _ _ _ Hmatch) as (E1 & _ & E3). destruct (decide (v = t)) as [->|Hne].
      * exists p'. rewrite list_lookup_insert_eq by done. split; [done|]. rewrite (Hkn (E3 ltac:(by eexists))).
        destruct (E1 _ _ _ _ Hv) as [[b' Hb]|(_ & -> & ->)]; [by destruct (Hmatch _ _ _ Hb) as [-> ->]|done].
      * rewrite list_lookup_insert_ne by done. destruct (E1 _ _ _ _ Hv) as [[b' Hb]|(-> & _)]; [by eapply O1|done].
  - intros u q [[-> [= <-]]|[Hne Hu]]%insert_cases Hz; [|by apply Hf, (O2 u)]. destruct Ho as [Ho|Ho]; [|done]. rewrite Ho in *. by apply Hf, (O2 t).
  - assert (Hsame : own_block p' <> 0 -> own_block p' = own_block p) by (destruct Ho; [done|congruence]).
    intros u v q r [[-> [= <-]]|[Hnu Hu]]%insert_cases [[-> [= <-]]|[Hnv Hv]]%insert_cases E Hz; [done|..|by eapply O3].
    + pose proof (Hsame Hz) as Es. rewrite Es in E, Hz. by eapply O3.
    + rewrite E in Hz. specialize (Hsame Hz). rewrite Hsame in E, Hz. eapply O3; [done..|congruence].
Qed.

Lemma owned_expire g ps (t : nat) p g' p' : owned g ps -> ps !! t = Some (Some p) -> expire g t p = Some (g', p') ->
  exists w k', p = BlockKey w (Wait true) /\ p' = SetTest w /\ g' = set_kernel g k' /\ pending k' = delete t (pending (kernel g)) /\ owned g' (<[t := Some p']> ps).
Proof.
  intros [O1 O2 O3] Ht Hn. destruct p as [| | | | | | | | | | |w [|[]]| |]; try done. cbn [expire] in Hn. destruct (decide (pending (kernel g) !! t = Some (KeyedWait, w, false))) as [E|E].
  2: by rewrite (expire_none _ _ _ E) in Hn.
  destruct (expire_law _ _ _ E) as (k' & Hex & Hk). rewrite Hex in Hn. injection Hn as <- <-. exists w, k'. do 4 (split; [done|]). split; cbn [set_kernel frames kernel]; rewrite ?Hk.
  - intros v d key b [Hne Hv]%lookup_delete_Some. rewrite list_lookup_insert_ne by done. by eapply O1.
  - intros u q [[-> [= <-]]|[Hne Hu]]%insert_cases Hz; [by apply (O2 t _ Ht)|by apply (O2 u)].
  - intros u v q r [[-> [= <-]]|[Hnu Hu]]%insert_cases [[-> [= <-]]|[Hnv Hv]]%insert_cases Eo Hz; [done|..|by eapply O3].
    + by apply (O3 t v _ r Ht Hv).
    + by apply (O3 u t q _ Hu Ht).
Qed.

Lemma owned_step g ps g' ps' : owned g ps -> step SpinCount true (g, ps) (g', ps') -> owned g' ps'.
Proof.
  intros HO Hs. pose proof HO as [O1 O2 O3]. inversion Hs as [? ? t w b Ht Hm Hr Hf|? ? t w Ht|? ? t w timed Spin Ht Htm|? ? t Ht|? ? t o Ht|? ? t p ? p' Ht Hn|? ? t p ? p' Ht Hn]; subst.
  - assert (Hnew : forall u p, ps !! u = Some (Some p) -> own_block p <> 0 -> own_block p <> w) by (intros u p Hu Hz <-; destruct (O2 u p Hu Hz) as [? E]; congruence).
    apply (owned_put g ps t None); try done.
    + intros u p Hne Hu Hz. rewrite lookup_insert_ne by (by apply not_eq_sym, (Hnew u)). by apply (O2 u).
    + intros p' [= <-] Hz. cbn [own_block] in *. split; [rewrite lookup_insert_eq; by eexists|]. intros u p Hne Hu E. apply (Hnew u p Hu); congruence.
  - rewrite <- (set_frames_id g'). apply (owned_put g' ps t (Some (Queued w))); try done; [intros p d key [= <-] Hc; by destruct d|by intros u p _ Hu; apply (O2 u)|].
    intros p' [= <-] Hz. split; [by apply (O2 t _ Ht)|]. intros u p Hne Hu E. cbn [own_block] in *. apply Hne, (O3 u t p (Queued w)); [done..|congruence].
  - rewrite <- (set_frames_id g'). apply (owned_put g' ps t (Some (Queued w))); try done; [intros p d key [= <-] Hc; by destruct d|by intros u p _ Hu; apply (O2 u)|].
    intros p' [= <-] Hz. split; [by apply (O2 t _ Ht)|]. intros u p Hne Hu E. cbn [own_block] in *. apply Hne, (O3 u t p (Queued w)); [done..|congruence].
  - rewrite <- (set_frames_id g'). apply (owned_put g' ps t None); try done; [by intros u p _ Hu; apply (O2 u)|]. by intros p' [= <-].
  - apply (owned_put g ps t (Some (Done o))); try done; [intros p d key [= <-] Hc; by destruct d|].
    intros u p Hne Hu Hz. rewrite lookup_delete_ne; [by apply (O2 u)|]. intros E. cbn [own_block] in *. apply Hne, (O3 u t p (Done o)); [done..|congruence].
  - by eapply owned_next.
  - by destruct (owned_expire _ _ _ _ _ _ HO Ht Hn) as (w & k' & _ & _ & _ & _ & ?).
Qed.

Lemma reachable_owned k n g ps : pending k = ∅ -> reachable SpinCount true k n (g, ps) -> owned g ps.
Proof.
  intros Hk. apply (rtc_ind_r (fun s => owned s.1 s.2)); [|intros [g1 ps1] [g2 ps2] _ Hs IH; by eapply owned_step].
  split; cbn [fst snd PhInitializeWakeEvent PhInitializeQueuedLock kernel]; [by intros u d key b; rewrite Hk|by intros u p [E _]%lookup_replicate|by intros u v p q [E _]%lookup_replicate].
Qed.

(** A step of another thread. *)
Lemma own_release_other g ps t w nextw g' ps' : own_release g ps t w nextw -> ps' !! t = ps !! t ->
  (is_Some (frames g' !! w) /\ spin (frames g') w = false) ->
  (pending (kernel g) !! t = None -> pending (kernel g') !! t = None) ->
  (pending (kernel g) !! t = Some (KeyedRelease, w, false) -> pending (kernel g') !! t = Some (KeyedRelease, w, false)) -> own_release g' ps' t w nextw.
Proof. intros (Hw & Hs & Hf & Hp) E [Hf' Hs'] Hnone Hsome. split; [done|]. split; [done|]. split; [done|]. rewrite E. tauto. Qed.

(** A step of the thread itself. *)
Lemma own_release_self g ps t w nextw p g' p' : owned g ps -> own_release g ps t w nextw -> ps !! t = Some (Some p) -> next g t p = Some (Some (g', p')) -> own_release g' (<[t := Some p']> ps) t w nextw.
Proof.
  intros HO (Hw & Hs & [b Hf] & Hp) Ht Hn. assert (Hlt : (t < length ps)%nat) by (by eapply lookup_lt_Some). destruct Hp as [Hp|[Hp Hpend]]; rewrite Ht in Hp; injection Hp as ->; cbn [next] in Hn.
  - unfold set_reset in Hn. rewrite (reset_spinning_Some _ _ _ Hf), Hs in Hn. injection Hn as <- <-. unfold own_release. cbn [set_frames frames kernel]. split; [done|]. split; [by apply spin_cleared|]. split; [rewrite lookup_insert_eq; by eexists|].
    right. rewrite list_lookup_insert_eq by done. split; [done|]. left. destruct (pending (kernel g) !! t) as [[[d key] b']|] eqn:E; [|done].
    destruct (ow_calls _ _ HO _ _ _ _ E) as (q & Hq & Hc). rewrite Ht in Hq. injection Hq as <-. by destruct d.
  - unfold set_key in Hn. change (NtReleaseKeyedEvent (kernel g) w t) with (keyed_call KeyedRelease (kernel g) w t) in Hn. destruct Hpend as [Hpend|Hpend].
    + destruct (enter_law KeyedRelease (kernel g) w t Hpend) as [(t' & Ht' & _)|(_ & Hst & Hk)].
      * exfalso. destruct (ow_calls _ _ HO _ _ _ _ Ht') as (q & Hq & Hc). destruct q; try done. cbn in Hc. subst w0. assert (t' = t) as -> by (by apply (ow_apart _ _ HO t' t _ _ Hq Ht)). congruence.
      * destruct (keyed_call _ _ _ _) as [k' st]. cbn [fst snd] in *. subst st. injection Hn as <- <-. unfold own_release. cbn [set_kernel frames kernel]. split; [done|]. split; [done|]. split; [by eexists|].
        right. rewrite list_lookup_insert_eq by done. split; [done|]. right. by rewrite Hk, lookup_insert_eq.
    + rewrite (blocked_law _ _ _ _ Hpend), set_kernel_id in Hn. injection Hn as <- <-. rewrite list_insert_id by done. split; [done|]. split; [done|]. split; [by eexists|]. auto.
Qed.

Lemma own_release_step g ps t w nextw g' ps' : owned g ps -> own_release g ps t w nextw -> step SpinCount true (g, ps) (g', ps') -> own_release g' ps' t w nextw.
Proof.
  intros HO Hr Hs. pose proof Hr as (Hw & Hsp & Hf & Hp). pose proof HO as [O1 O2 O3].
  assert (Hown : exists q, ps !! t = Some (Some q) /\ own_block q = w) by (destruct Hp as [Hp|[Hp _]]; by eexists). destruct Hown as (q & Hq & Eq).
  assert (Hpq : q = SetReset w w nextw \/ q = SetKey w w nextw) by (destruct Hp as [Hp|[Hp _]]; rewrite Hq in Hp; injection Hp as ->; auto).
  assert (Hoth : forall u p, u <> t -> ps !! u = Some (Some p) -> own_block p <> w) by (intros u p Hne Hu E; apply Hne, (O3 u t p q); congruence).
  inversion Hs as [? ? u x b Hu Hm Hx Hfx|? ? u x Hu|? ? u x timed Spin Hu Htm|? ? u Hu|? ? u o Hu|? ? u p ? p' Hu Hn|? ? u p ? p' Hu Hn]; subst.
  1-5: assert (Hut : u <> t) by (intros ->; rewrite Hq in Hu; destruct Hpq; congruence); (eapply own_release_other; [exact Hr|by rewrite list_lookup_insert_ne| |done|done]); cbn [enter_frame leave_frame set_frames frames].
  - assert (x <> own_block q) by (intros ->; rewrite Hfx in Hf; by destruct Hf). rewrite lookup_insert_ne by done. split; [done|]. rewrite <- Hsp. apply spin_eq. by rewrite lookup_insert_ne.
  - done.
  - done.
  - done.
  - assert (o <> own_block q) by (apply (Hoth u (Done o)); done). rewrite lookup_delete_ne by done. split; [done|]. rewrite <- Hsp. apply spin_eq. by rewrite lookup_delete_ne.
  - destruct (decide (u = t)) as [->|Hut]; [rewrite Hq in Hu; injection Hu as <-; by eapply own_release_self|]. destruct (next_effect _ _ _ _ _ Hn) as (_ & Hfr & Hk). destruct (Hfr _ Hf) as [Hf' Hs'].
    eapply own_release_other; [exact Hr|by rewrite list_lookup_insert_ne|split; [done|apply Hs'; [|done]; by apply not_eq_sym, (Hoth u)]|..].
    all: destruct Hk as [[-> _]|(d & key & Hcall & -> & _)]; [done|].
    all: assert (Hmatch : forall d' key' b, pending (kernel g) !! u = Some (d', key', b) -> d' = d /\ key' = key) by
      (intros d1 key1 b1 Hd; destruct (O1 _ _ _ _ Hd) as (r & Hr1 & Hcr); rewrite Hu in Hr1; injection Hr1 as <-; destruct d, d1, p; try done; cbn in *; by subst).
    all: destruct (call_effect _ _ _ _ Hmatch) as (E1 & E2 & _); intros Hpn.
    + destruct (pending (keyed_call d (kernel g) key u).1 !! t) as [[[d' key'] b']|] eqn:E; [|done]. destruct (E1 _ _ _ _ E) as [[b1 Hb]|(-> & _)]; [congruence|done].
    + apply E2; [done|done|]. intros -> ->. destruct p; try done. cbn in Hcall. subst w. by apply (Hoth u _ Hut Hu).
  - destruct (owned_expire _ _ _ _ _ _ HO Hu Hn) as (x & k' & -> & -> & -> & Hk & _). assert (Hut : u <> t) by (intros ->; rewrite Hq in Hu; destruct Hpq; congruence).
    eapply own_release_other; [exact Hr|by rewrite list_lookup_insert_ne|done|..]; cbn [set_kernel kernel]; rewrite Hk, lookup_delete_ne; done.
Qed.

Lemma own_release_run g ps t w nextw g' ps' : owned g ps -> own_release g ps t w nextw -> rtc (step SpinCount true) (g, ps) (g', ps') -> owned g' ps' /\ own_release g' ps' t w nextw.
Proof.
  intros HO Hr. apply (rtc_ind_r (fun s => owned s.1 s.2 /\ own_release s.1 s.2 t w nextw)); [done|]. intros [g1 ps1] [g2 ps2] _ Hs [IH1 IH2]. cbn [fst snd] in *. split; [by eapply owned_step|by eapply own_release_step].
Qed.

Lemma run_next {timeouts} g ps (t : nat) p g' p' : (t < length ps)%nat -> next g t p = Some (Some (g', p')) ->
  step SpinCount timeouts (g, <[t := Some p]> ps) (g', <[t := Some p']> ps).
Proof.
  intros Hlt Hn. pose proof (step_next SpinCount timeouts g (<[t := Some p]> ps) t p g' p') as Hs. rewrite list_insert_insert_eq in Hs.
  apply Hs; [by rewrite list_lookup_insert_eq|done].
Qed.

(** A call of the kernel while nobody else is in one blocks. *)
Lemma call_alone d (k : K) key t : pending k = ∅ -> exists k', keyed_call d k key t = (k', None) /\ pending k' = {[t := (d, key, false)]}.
Proof.
  intros Hk. destruct (enter_law d k key t) as [(t' & Ht' & _)|(_ & Hn & Hp)]; [by rewrite Hk|by rewrite Hk in Ht'|].
  destruct (keyed_call d k key t) as [k' st]. cbn [fst snd] in *. subst st. exists k'. by rewrite Hp, Hk.
Qed.

(** C18: A wait on a wake event that times out can stall. In every interleaving: a thread that sets the event and has
    come to its own wait block, whose SPINNING bit is reset (by the thread itself, before it began the wait that
    timed out), never returns: it releases the key of the block and sleeps until somebody waits for that key,
    which only it could do, whatever the other threads do. And a wait that times out comes to that: there is
    a run in which a thread queues its block, waits until the timeout, and takes its own block off the
    chain. *)
Theorem timed_wait_stalls (k : K) (n : nat) : pending k = ∅ ->
  (forall g ps t w nextw, reachable SpinCount true k n (g, ps) -> ps !! t = Some (Some (SetReset w w nextw)) -> w <> 0 -> spin (frames g) w = false ->
     forall g' ps', rtc (step SpinCount true) (g, ps) (g', ps') ->
       ps' !! t = Some (Some (SetReset w w nextw)) \/ ps' !! t = Some (Some (SetKey w w nextw))) /\
  ((0 < n)%nat -> exists g0 ps0 g1 ps1 g2 ps2 t w nextw, reachable SpinCount true k n (g0, ps0) /\ ps0 !! t = Some (Some (BlockKey w (Wait true))) /\
     step SpinCount true (g0, ps0) (g1, ps1) /\ expire g0 t (BlockKey w (Wait true)) = Some (g1, SetTest w) /\ ps1 !! t = Some (Some (SetTest w)) /\
     rtc (step SpinCount true) (g1, ps1) (g2, ps2) /\ ps2 !! t = Some (Some (SetReset w w nextw)) /\ w <> 0 /\ spin (frames g2) w = false).
Proof.
  intros Hk. split.
  { intros g ps t w nextw Hr Ht Hw Hs g' ps' Hrun. pose proof (reachable_owned _ _ _ _ Hk Hr) as HO.
    assert (Hend : owned g' ps' /\ own_release g' ps' t w nextw) by (eapply own_release_run; [exact HO|split; [done|split; [done|split; [by apply (ow_block _ _ HO t _ Ht)|by left]]]|exact Hrun]).
    destruct Hend as (_ & _ & _ & _ & [?|[? _]]); auto. }
  intros Hn. set (ps := replicate n (@None pc)). assert (Hlt : (0 < length ps)%nat) by (unfold ps; by rewrite length_replicate).
  set (b := fun next flags => {| Next := next; Previous := 0; Last := 0; SharedOwners := 0; Flags := flags |}).
  set (at_ := fun v f (k' : K) => {| Value := v; frames := {[16 := b 0 f]}; kernel := k' |}).
  destruct (call_alone KeyedWait k 16 0%nat Hk) as (k1 & Hc1 & Hp1).
  destruct (expire_law k1 16 0%nat) as (k2 & He2 & Hp2); [by rewrite Hp1, lookup_singleton_eq|].
  assert (Hex : expire (at_ 16 0 k1) 0%nat (BlockKey 16 (Wait true)) = Some (at_ 16 0 k2, SetTest 16)) by (cbn [expire kernel at_]; by rewrite He2).
  exists (at_ 16 0 k1), (<[0%nat := Some (BlockKey 16 (Wait true))]> ps), (at_ 16 0 k2), (<[0%nat := Some (SetTest 16)]> ps), (at_ 0 0 k2), (<[0%nat := Some (SetReset 16 16 0)]> ps), 0%nat, 16, 0.
  rewrite !list_lookup_insert_eq by done. do 8 try (split; [|try done]); try done.
  - unfold reachable. fold ps. eapply rtc_l. { apply (step_queue SpinCount true _ ps 0%nat 16 (b 0 0)); [|done|done|done]. unfold ps. by apply lookup_replicate. }
    eapply rtc_l; [by apply (run_next _ _ _ _ (at_ 0 2 k) (QueueTry 16 0))|].
    eapply rtc_l; [by apply (run_next _ _ _ _ (at_ 16 2 k) (Queued 16))|].
    eapply rtc_l. { apply (step_wait SpinCount true _ _ 0%nat 16 true false); [by rewrite list_lookup_insert_eq|done]. } rewrite list_insert_insert_eq.
    eapply rtc_l; [by apply (run_next _ _ _ _ (at_ 16 2 k) (BlockReset 16 (Wait true)))|].
    eapply rtc_l; [by apply (run_next _ _ _ _ (at_ 16 0 k) (BlockKey 16 (Wait true)))|].
    apply rtc_once. apply run_next; [done|]. cbn [next]. unfold block_key. cbn [keyed_call] in Hc1. cbn [at_ kernel]. by rewrite Hc1.
  - pose proof (step_expire SpinCount true (at_ 16 0 k1) (<[0%nat := Some (BlockKey 16 (Wait true))]> ps) 0%nat _ _ _ ltac:(by rewrite list_lookup_insert_eq) Hex) as Hs. by rewrite list_insert_insert_eq in Hs.
  - eapply rtc_l; [by apply (run_next _ _ _ _ (at_ 16 0 k2) (SetPop 16))|].
    eapply rtc_l; [by apply (run_next _ _ _ _ (at_ 0 0 k2) (SetNext 16 16))|].
    apply rtc_once. by apply run_next.
Qed.
End clients.

(** ** The kernel of [QueuedLockProof], with timeouts *)

#[local] Existing Instance QueuedLockProof.TableEvents.
#[local] Existing Instance QueuedLockProof.TableEventLaws.

#[export] Instance TableTimeouts : KeyedTimeouts (gmap nat (keyed * Z * bool)) :=
  {| ExpireKeyedWait := fun k key t => if decide (k !! t = Some (KeyedWait, key, false)) then Some (delete t k) else None |}.

#[export] Program Instance TableTimeoutLaws : KeyedTimeoutLaws (gmap nat (keyed * Z * bool)).
Next Obligation. intros k key t E. exists (delete t k). split; [|done]. unfold ExpireKeyedWait, TableTimeouts. by rewrite decide_True. Qed.
Next Obligation. intros k key t E. unfold ExpireKeyedWait, TableTimeouts. by rewrite decide_False. Qed.

(** A thread that waits: its block is on the chain. *)
Lemma wake_event_sound_witness : exists (g : QueuedLock.PH_QUEUED_LOCK (gmap nat (keyed * Z * bool))) ps, reachable 0 false (∅ : gmap nat (keyed * Z * bool)) 1 (g, ps) /\
  ps !! 0%nat = Some (Some (BlockKey 16 (Wait false))) /\ exists L, links 0 (nxt (frames g)) (Value g) L /\ 16 ∈ L.
Proof.
  set (b := fun flags => {| Next := 0; Previous := 0; Last := 0; SharedOwners := 0; Flags := flags |}).
  set (at_ := fun v f (k : gmap nat (keyed * Z * bool)) => {| Value := v; frames := {[16 := b f]}; kernel := k |}). set (k := {[0%nat := (KeyedWait, 16, false)]} : gmap nat (keyed * Z * bool)).
  assert (Hr : reachable 0 false (∅ : gmap nat (keyed * Z * bool)) 1 (at_ 16 0 k, <[0%nat := Some (BlockKey 16 (Wait false))]> [None])).
  { unfold reachable. eapply rtc_l; [by apply (step_queue 0 false _ [None] 0%nat 16 (b 0))|].
    eapply rtc_l; [apply (run_next 0 _ [None] 0%nat _ (at_ 0 2 ∅) (QueueTry 16 0)); [simpl; lia|by vm_compute]|].
    eapply rtc_l; [apply (run_next 0 _ [None] 0%nat _ (at_ 16 2 ∅) (Queued 16)); [simpl; lia|by vm_compute]|].
    eapply rtc_l; [by apply (step_wait 0 false _ _ 0%nat 16 false false)|].
    eapply rtc_l; [apply (run_next 0 _ [None] 0%nat _ (at_ 16 2 ∅) (BlockReset 16 (Wait false))); [simpl; lia|by vm_compute]|].
    eapply rtc_l; [apply (run_next 0 _ [None] 0%nat _ (at_ 16 0 ∅) (BlockKey 16 (Wait false))); [simpl; lia|by vm_compute]|].
    apply rtc_once. apply (run_next 0 _ [None] 0%nat _ (at_ 16 0 k) (BlockKey 16 (Wait false))); [simpl; lia|by vm_compute]. }
  eexists _, _. split; [exact Hr|]. split; [done|].
  destruct (proj2 (wake_event_sound 0 (∅ : gmap nat (keyed * Z * bool)) 1 _ _ ltac:(done) Hr)) with (t := 0%nat) (p := BlockKey 16 (Wait false)) as (w & L & E & HL); [|done|injection E as <-; by exists L].
  intros [|t] p Ht; [injection Ht as <-; by vm_compute|by destruct t].
Defined.

(** A thread whose timed wait expires, and stalls. *)
Lemma timed_wait_stalls_witness : pending (∅ : gmap nat (keyed * Z * bool)) = ∅ /\
  exists g ps t w nextw, reachable 0 true (∅ : gmap nat (keyed * Z * bool)) 1 (g, ps) /\
    forall g' ps', rtc (step 0 true) (g, ps) (g', ps') -> ps' !! t = Some (Some (SetReset w w nextw)) \/ ps' !! t = Some (Some (SetKey w w nextw)).
Proof.
  split; [done|]. destruct (timed_wait_stalls 0 (∅ : gmap nat (keyed * Z * bool)) 1 ltac:(done)) as [Hall Hrun].
  destruct (Hrun ltac:(lia)) as (g0 & ps0 & g1 & ps1 & g2 & ps2 & t & w & nextw & Hr & _ & Hs & _ & _ & Hr' & Ht & Hw & Hsp).
  assert (Hr2 : reachable 0 true ∅ 1 (g2, ps2)) by (unfold reachable; etrans; [exact Hr|eapply rtc_l; [exact Hs|exact Hr']]).
  exists g2, ps2, t, w, nextw. split; [exact Hr2|]. exact (Hall g2 ps2 t w nextw Hr2 Ht Hw Hsp).
Defined.

End WakeEvent.
