(* ===== verification/Barrier.v ===== *)
(** * Barriers: [phlib/sync.c]

    A barrier lets a group of threads wait for each other, again and again. One word holds the number of
    threads the barrier is for, how many have arrived, and whether the ones of the last phase are being
    woken: the last to arrive (the master) wakes the others (the slaves), and waits until all of them
    have left before it opens the barrier again for the threads that have come too early (observers).
    All three sleep on one wake event, that of [WakeEvent], whose invariant the proofs use. A thread is a
    program counter with its locals, a step is one access to shared memory or one call of the kernel,
    and the theorems hold for every interleaving. *)

From S2P Require Import Prelude QueuedLock QueuedLockProof WakeEvent.

Module Barrier.

Definition PH_BARRIER_COUNT_SHIFT : Z := 0.
Definition PH_BARRIER_COUNT_MASK : Z := Z.shiftl 1 31 - 1.
Definition PH_BARRIER_COUNT_INC : Z := Z.shiftl 1 PH_BARRIER_COUNT_SHIFT.
Definition PH_BARRIER_TARGET_SHIFT : Z := 32.
Definition PH_BARRIER_TARGET_MASK : Z := Z.shiftl 1 31 - 1.
Definition PH_BARRIER_WAKING : Z := Z.shiftl 1 63.

(** PH_BARRIER_MASTER, PH_BARRIER_SLAVE, PH_BARRIER_OBSERVER. *)
Inductive role := MASTER | SLAVE | OBSERVER.

(** The fields of the word. *)
Definition count_of (value : Z) : Z := Z.land (Z.shiftr value PH_BARRIER_COUNT_SHIFT) PH_BARRIER_COUNT_MASK.
Definition target_of (value : Z) : Z := Z.land (Z.shiftr value PH_BARRIER_TARGET_SHIFT) PH_BARRIER_TARGET_MASK.
Definition is_waking (value : Z) : bool := negb (Z.land value PH_BARRIER_WAKING =? 0).

Section barrier.
Context {K : Type} `{KeyedEvents K}.

(** PhQueuedLockSpinCount. *)
Context (SpinCount : nat).

Record PH_BARRIER := { Value : Z; WakeEvent : QueuedLock.PH_QUEUED_LOCK K }.

Definition set_Value (g : PH_BARRIER) (v : Z) : PH_BARRIER := {| Value := v; WakeEvent := WakeEvent g |}.
Definition set_WakeEvent (g : PH_BARRIER) (e : QueuedLock.PH_QUEUED_LOCK K) : PH_BARRIER := {| Value := Value g; WakeEvent := e |}.

Definition PhfInitializeBarrier (k : K) (Target : Z) : PH_BARRIER :=
  {| Value := u64 (Z.shiftl Target PH_BARRIER_TARGET_SHIFT); WakeEvent := WakeEvent.PhInitializeWakeEvent k |}.

(** What follows a call of PhSetWakeEvent without a wait block. *)
Inductive after := BlockAsMaster | Return (result : bool).

(** Where a thread is in PhfWaitForBarrier: outside; before and in the loop; about to enter
    PhpBlockOnBarrier, and in it, with its place in the call of the wake event; about to give up its
    place in the phase; in a call that wakes others. *)
Inductive pc :=
  | Outside | WaitRead | WaitTry (value : Z)
  | BlockEnter (r : role) | Blocking (r : role) (p : WakeEvent.pc)
  | SlaveLeave | MasterLeave
  | Signalling (a : after) (p : WakeEvent.pc).

(** [Spin] is the argument of the call; [arrivals] counts the calls in which the thread has taken its
    place in a phase, [results] are those it has returned; nothing but the theorems reads the two. *)
Record thread := { place : pc; Spin : bool; arrivals : nat; results : list bool }.

Definition go (th : thread) (p : pc) : thread := {| place := p; Spin := Spin th; arrivals := arrivals th; results := results th |}.
Definition arrive (th : thread) (p : pc) : thread := {| place := p; Spin := Spin th; arrivals := S (arrivals th); results := results th |}.
Definition return_ (th : thread) (b : bool) : thread := {| place := Outside; Spin := Spin th; arrivals := arrivals th; results := results th ++ [b] |}.

Definition continue (th : thread) (a : after) : thread :=
  match a with BlockAsMaster => go th (BlockEnter MASTER) | Return b => return_ th b end.

(** PhpBlockOnBarrier, between the two calls of the wake event. *)
Definition cancel (value : Z) (r : role) : bool :=
  match r with MASTER => count_of value =? 1 | SLAVE => is_waking value | OBSERVER => negb (is_waking value) end.

Definition PhpBlockOnBarrier (g : PH_BARRIER) (th : thread) (r : role) (w : Z) : WakeEvent.pc :=
  if cancel (Value g) r then WakeEvent.SetTest w else WakeEvent.PhpBlockOnQueuedWaitBlock SpinCount w (WakeEvent.Wait false) (Spin th).

(** After PhpBlockOnBarrier: the conditions of the two loops, and the turn of the outer loop for an
    observer. *)
Definition blocked (g : PH_BARRIER) (r : role) : pc :=
  match r with
  | SLAVE => if negb (is_waking (Value g)) then BlockEnter SLAVE else SlaveLeave
  | MASTER => if negb (count_of (Value g) =? 1) then BlockEnter MASTER else MasterLeave
  | OBSERVER => WaitTry (Value g)
  end.

(** [PhSetWakeEvent (&Barrier->WakeEvent, NULL)]. *)
Definition set_wake_event (a : after) : pc := Signalling a (WakeEvent.SetTest 0).

(** The outer loop, with its assertion. *)
Definition PhfWaitForBarrier (g : PH_BARRIER) (th : thread) (value : Z) : ub (PH_BARRIER * thread) :=
  if negb (is_waking value) then
    if count_of value =? target_of value then None
    else
      let last := count_of value +₆₄ 1 =? target_of value in
      let newValue := if last then u64 (value + PH_BARRIER_COUNT_INC + PH_BARRIER_WAKING) else value +₆₄ PH_BARRIER_COUNT_INC in
      if Value g =? value
      then Some (set_Value g newValue, arrive th (if last then set_wake_event BlockAsMaster else BlockEnter SLAVE))
      else Some (g, go th (WaitTry (Value g)))
  else Some (g, go th (BlockEnter OBSERVER)).

(** A slave leaves the phase; the last one wakes the master. *)
Definition slave_leave (g : PH_BARRIER) (th : thread) : PH_BARRIER * thread :=
  let value := Value g in
  (set_Value g (value -₆₄ PH_BARRIER_COUNT_INC),
   if u64 (count_of value - 1) =? 1 then go th (set_wake_event (Return false)) else return_ th false).

(** The master leaves, and the barrier is open again. *)
Definition master_leave (g : PH_BARRIER) (th : thread) : PH_BARRIER * thread :=
  (set_Value g (Value g -₆₄ (PH_BARRIER_WAKING + PH_BARRIER_COUNT_INC)), go th (set_wake_event (Return true))).

(** A step inside a call of the wake event, on behalf of the call [f]. *)
Definition wake_step (g : PH_BARRIER) (t : nat) (th : thread) (p : WakeEvent.pc) (f : WakeEvent.pc -> pc) : ub (option (PH_BARRIER * thread)) :=
  o ← WakeEvent.next (WakeEvent g) t p;
  Some ('(e, p') ← o; Some (set_WakeEvent g e, go th (f p'))).

(** The next step of thread [t]: [None] is undefined, [Some None] a thread that is outside, or about to
    enter a frame. *)
Definition next (g : PH_BARRIER) (t : nat) (th : thread) : ub (option (PH_BARRIER * thread)) :=
  match place th with
  | Outside | BlockEnter _ => Some None
  | WaitRead => Some (Some (g, go th (WaitTry (Value g))))
  | WaitTry value => Some <$> PhfWaitForBarrier g th value
  | Blocking r (WakeEvent.Queued w) => Some (Some (g, go th (Blocking r (PhpBlockOnBarrier g th r w))))
  | Blocking r (WakeEvent.Done w) => Some (Some (set_WakeEvent g (WakeEvent.leave_frame (WakeEvent g) w), go th (blocked g r)))
  | Blocking r p => wake_step g t th p (Blocking r)
  | SlaveLeave => Some (Some (slave_leave g th))
  | MasterLeave => Some (Some (master_leave g th))
  | Signalling a (WakeEvent.Done _) => Some (Some (g, continue th a))
  | Signalling a p => wake_step g t th p (Signalling a)
  end.

Definition state : Type := PH_BARRIER * list thread.

(** A thread calls PhWaitForBarrier; a thread enters PhpBlockOnBarrier, whose frame is where no other is. *)
Inductive step : state -> state -> Prop :=
  | step_call g ts t th Spin : ts !! t = Some th -> place th = Outside ->
      step (g, ts) (g, <[t := {| place := WaitRead; Spin := Spin; arrivals := arrivals th; results := results th |}]> ts)
  | step_frame g ts t th r w b : ts !! t = Some th -> place th = BlockEnter r -> w mod 16 = 0 -> 0 < w < 2 ^ 64 -> QueuedLock.frames (WakeEvent g) !! w = None ->
      step (g, ts) (set_WakeEvent g (WakeEvent.enter_frame (WakeEvent g) w b), <[t := go th (Blocking r (WakeEvent.QueueRead w))]> ts)
  | step_next g ts t th g' th' : ts !! t = Some th -> next g t th = Some (Some (g', th')) -> step (g, ts) (g', <[t := th']> ts).

Definition new_thread : thread := {| place := Outside; Spin := false; arrivals := 0; results := [] |}.

Definition reachable (k : K) (Target : Z) (n : nat) (s : state) : Prop :=
  rtc step (PhfInitializeBarrier k Target, replicate n new_thread) s.

End barrier.
Arguments PH_BARRIER : clear implicits.

(** ** The word *)

Definition word (target count : Z) (waking : bool) : Z := count + target * 2 ^ 32 + Z.b2z waking * 2 ^ 63.

Lemma word_fields T c wk : 0 <= c < 2 ^ 31 -> 0 <= T < 2 ^ 31 ->
  count_of (word T c wk) = c /\ target_of (word T c wk) = T /\ is_waking (word T c wk) = wk /\ 0 <= word T c wk < 2 ^ 64.
Proof.
  intros Hc HT. assert (Hr : 0 <= word T c wk < 2 ^ 64) by (unfold word; destruct wk; cbn [Z.b2z]; lia). unfold count_of, target_of, is_waking.
  change PH_BARRIER_COUNT_MASK with (Z.ones 31). change PH_BARRIER_TARGET_MASK with (Z.ones 31). change PH_BARRIER_WAKING with (2 ^ 63).
  rewrite Z.shiftr_0_r, !Z.land_ones, Z.shiftr_div_pow2, land_bit by done. unfold PH_BARRIER_TARGET_SHIFT. split; [|split; [|split; [|done]]].
  - unfold word. replace (c + T * 2 ^ 32 + Z.b2z wk * 2 ^ 63) with (c + (T * 2 + Z.b2z wk * 2 ^ 32) * 2 ^ 31) by lia. rewrite Z_mod_plus_full. by apply Z.mod_small.
  - unfold word. replace (c + T * 2 ^ 32 + Z.b2z wk * 2 ^ 63) with (c + (T + Z.b2z wk * 2 ^ 31) * 2 ^ 32) by lia.
    rewrite Z.div_add, Z.div_small, Z.add_0_l, Z_mod_plus_full by lia. by apply Z.mod_small.
  - assert (Ht : Z.testbit (word T c wk) 63 = wk).
    { apply Z.b2z_inj. rewrite Z.testbit_spec' by done. unfold word. rewrite Z.div_add, Z.div_small, Z.add_0_l by lia. by destruct wk. }
    rewrite Ht. by destruct wk.
Qed.

(** ** The invariant *)
Section invariant.
Context {K : Type} `{KeyedEventLaws K}.
Context (SpinCount : nat) (Target : Z) (Target_range : 1 <= Target < 2 ^ 31).
Implicit Types (g : PH_BARRIER K) (th : thread) (ts : list thread) (L : list Z) (C : nat -> list Z) (c : Z) (wk : bool).

Definition wpc th : option WakeEvent.pc := match place th with Blocking _ p | Signalling _ p => Some p | _ => None end.

(** Who has a place in the current phase. *)
Definition slave th : Z := match place th with BlockEnter SLAVE | Blocking SLAVE _ | SlaveLeave => 1 | _ => 0 end.
Definition master th : Z := match place th with Signalling BlockAsMaster _ | BlockEnter MASTER | Blocking MASTER _ | MasterLeave => 1 | _ => 0 end.
Definition in_phase th : Z := slave th + master th.

(** The results of the thread's calls, with the one of the call it is in. *)
Definition coming th : list bool :=
  match place th with
  | BlockEnter SLAVE | Blocking SLAVE _ | SlaveLeave => [false]
  | Signalling BlockAsMaster _ | BlockEnter MASTER | Blocking MASTER _ | MasterLeave => [true]
  | Signalling (Return b) _ => [b]
  | _ => []
  end.
Definition outcomes th : list bool := results th ++ coming th.
Definition chosen (j : nat) th : Z := Z.b2z (bool_decide (outcomes th !! j = Some true)).

Definition valid (v : Z) : Prop := exists c wk, v = word Target c wk /\ 0 <= c <= Target /\ (wk = false -> c < Target).

Definition local c wk th : Prop :=
  match place th with
  | WaitTry v => valid v
  | Blocking _ p => WakeEvent.own_block p <> 0
  | Signalling _ p => WakeEvent.own_block p = 0
  | SlaveLeave => wk = true
  | MasterLeave => c = 1
  | _ => True
  end.

(** The counts of the word are those of the threads. *)
Definition counted ts c wk : Prop :=
  if wk then tally master ts = 1 /\ tally slave ts + 1 = c /\ c <= Target
  else tally master ts = 0 /\ tally slave ts = c /\ c < Target.

Definition setter (p : WakeEvent.pc) : Prop := exists own, p = WakeEvent.SetTest own \/ p = WakeEvent.SetPop own.

(** Nobody waits for what has already happened, unless somebody is about to set the event. *)
Definition no_lost ts L (v : Z) : Prop :=
  forall t th r p, ts !! t = Some th -> place th = Blocking r p -> WakeEvent.waiting p = true -> WakeEvent.own_block p ∈ L -> cancel v r = true ->
  exists u thu q, ts !! u = Some thu /\ wpc thu = Some q /\ setter q.

(** When the barrier is for all the threads, phase [f] is open or being woken, the threads that have a
    place in it have come once more than the others, and each phase has one master. *)
Definition phase ts wk (f : nat) : Prop :=
  (forall t th, ts !! t = Some th -> length (outcomes th) = arrivals th /\ Z.of_nat (arrivals th) = Z.of_nat f + (if wk then 1 else in_phase th)) /\
  (forall j, (j < f)%nat -> tally (chosen j) ts = 1) /\ tally (chosen f) ts = Z.b2z wk.

Record inv g ts L C c wk : Prop := {
  inv_wake : WakeEvent.inv (WakeEvent g) (wpc <$> ts) L C;
  inv_value : Value g = word Target c wk;
  inv_counted : counted ts c wk;
  inv_local : forall t th, ts !! t = Some th -> local c wk th;
  inv_no_lost : no_lost ts L (Value g);
  inv_phases : Z.of_nat (length ts) = Target -> exists f, phase ts wk f;
}.

Definition keeps g ts : Prop := exists L C c wk, inv g ts L C c wk.

Lemma slave_range th : 0 <= slave th <= 1.
Proof. unfold slave. repeat case_match; lia. Qed.
Lemma master_range th : 0 <= master th <= 1.
Proof. unfold master. repeat case_match; lia. Qed.
Lemma in_phase_range th : 0 <= in_phase th <= 1.
Proof. unfold in_phase, slave, master. repeat case_match; lia. Qed.

Lemma slave_insert ts t th th' : ts !! t = Some th -> tally slave (<[t := th']> ts) = tally slave ts - slave th + slave th'.
Proof. apply tally_insert. Qed.
Lemma master_insert ts t th th' : ts !! t = Some th -> tally master (<[t := th']> ts) = tally master ts - master th + master th'.
Proof. apply tally_insert. Qed.

Lemma counted_range ts c wk : counted ts c wk -> 0 <= c <= Target /\ (wk = false -> c < Target) /\ (wk = true -> 1 <= c).
Proof.
  pose proof (tally_nonneg slave (fun th => proj1 (slave_range th)) ts) as Hs. unfold counted. destruct wk; intros (Hm & Hsl & Hc); (split; [lia|]); (split; [|done || lia]); done.
Qed.

(** The word of a barrier in the invariant. *)
Lemma inv_word g ts L C c wk : inv g ts L C c wk -> count_of (Value g) = c /\ target_of (Value g) = Target /\ is_waking (Value g) = wk /\ 0 <= c <= Target.
Proof.
  intros HI. destruct (counted_range _ _ _ (inv_counted _ _ _ _ _ _ HI)) as (Hc & _). rewrite (inv_value _ _ _ _ _ _ HI).
  destruct (word_fields Target c wk) as (-> & -> & -> & _); [lia..|]. done.
Qed.

Lemma wpc_insert ts t th' : wpc <$> <[t := th']> ts = <[t := wpc th']> (wpc <$> ts).
Proof. apply list_fmap_insert. Qed.

Lemma wpc_lookup ts t th : ts !! t = Some th -> (wpc <$> ts) !! t = Some (wpc th).
Proof. intros E. by rewrite list_lookup_fmap, E. Qed.

Lemma wpc_same ts t th th' : ts !! t = Some th -> wpc th' = wpc th -> wpc <$> <[t := th']> ts = wpc <$> ts.
Proof. intros Ht E. rewrite wpc_insert, E. by apply list_insert_id, wpc_lookup. Qed.

(** *** No wake-up is lost *)

Lemma no_lost_setter ts t th' q L v : (t < length ts)%nat -> wpc th' = Some q -> setter q -> no_lost (<[t := th']> ts) L v.
Proof. intros Hlt Hq Hs u thu r p _ _ _ _ _. exists t, th', q. by rewrite list_lookup_insert_eq. Qed.

Lemma no_lost_nil ts v : no_lost ts [] v.
Proof. intros t th r p _ _ _ Hp. by apply not_elem_of_nil in Hp. Qed.

Lemma no_lost_keep ts t th th' L L' v v' : no_lost ts L v -> ts !! t = Some th -> (forall q, wpc th = Some q -> ~ setter q) ->
  (forall r p', place th' = Blocking r p' -> WakeEvent.waiting p' = true -> WakeEvent.own_block p' ∈ L' -> cancel v' r = true ->
     exists p, place th = Blocking r p /\ WakeEvent.waiting p = true /\ WakeEvent.own_block p ∈ L /\ cancel v r = true) ->
  (forall u thu r p, u <> t -> ts !! u = Some thu -> place thu = Blocking r p -> WakeEvent.waiting p = true -> WakeEvent.own_block p ∈ L' -> cancel v' r = true ->
     WakeEvent.own_block p ∈ L /\ cancel v r = true) -> no_lost (<[t := th']> ts) L' v'.
Proof.
  intros HN Ht Hns Hself Hother u thu r p [[-> <-]|[Hne Hu]]%lookup_cases Hp Hw Hin Hc.
  - destruct (Hself r p Hp Hw Hin Hc) as (p0 & Hp0 & Hw0 & Hin0 & Hc0). destruct (HN t th r p0 Ht Hp0 Hw0 Hin0 Hc0) as (v0 & thv & q & Hv & Hq & Hs).
    exists v0, thv, q. split; [|done]. rewrite list_lookup_insert_ne; [done|]. intros <-. rewrite Ht in Hv. injection Hv as <-. by destruct (Hns q Hq).
  - destruct (Hother u thu r p Hne Hu Hp Hw Hin Hc) as [Hin0 Hc0]. destruct (HN u thu r p Hu Hp Hw Hin0 Hc0) as (v0 & thv & q & Hv & Hq & Hs).
    exists v0, thv, q. split; [|done]. rewrite list_lookup_insert_ne; [done|]. intros <-. rewrite Ht in Hv. injection Hv as <-. by destruct (Hns q Hq).
Qed.

(** *** Phases *)

Lemma chosen_range j th : 0 <= chosen j th <= 1.
Proof. unfold chosen. case_bool_decide; simpl; lia. Qed.

Lemma phase_same ts t th th' wk f : phase ts wk f -> ts !! t = Some th -> outcomes th' = outcomes th -> arrivals th' = arrivals th -> (wk = false -> in_phase th' = in_phase th) ->
  phase (<[t := th']> ts) wk f.
Proof.
  intros (Ha & Hj & Hf) Ht Ho Har Hin. split_and!.
  - intros u thu [[-> <-]|[Hne Hu]]%lookup_cases; [|by eapply Ha]. destruct (Ha t th Ht) as [H1 H2]. rewrite Ho, Har. split; [done|].
    destruct wk; [done|]. by rewrite Hin.
  - intros j Hlt. rewrite (tally_insert (chosen j) ts t th th' Ht). unfold chosen at 2 3. rewrite Ho. rewrite (Hj j Hlt). lia.
  - rewrite (tally_insert (chosen f) ts t th th' Ht). unfold chosen at 2 3. rewrite Ho, Hf. lia.
Qed.

(** *** Steps *)

Lemma no_lost_quiet ts t th th' L v : no_lost ts L v -> ts !! t = Some th -> (forall q, wpc th = Some q -> ~ setter q) ->
  (forall r p', place th' = Blocking r p' -> WakeEvent.waiting p' = true -> cancel v r = false) -> no_lost (<[t := th']> ts) L v.
Proof.
  intros HN Ht Hns Hw. eapply no_lost_keep; try done. intros r p' Hp Hwp _ Hc. by rewrite (Hw r p' Hp Hwp) in Hc.
Qed.

(** A step that leaves the word and the phases. *)
Lemma inv_move g g' ts t th th' L L' C C' c wk : inv g ts L C c wk -> ts !! t = Some th -> Value g' = Value g ->
  WakeEvent.inv (WakeEvent g') (<[t := wpc th']> (wpc <$> ts)) L' C' -> slave th' = slave th -> master th' = master th ->
  outcomes th' = outcomes th -> arrivals th' = arrivals th -> local c wk th' -> no_lost (<[t := th']> ts) L' (Value g) -> inv g' (<[t := th']> ts) L' C' c wk.
Proof.
  intros HI Ht Hv Hw Hs Hm Ho Ha Hl HN. split; rewrite ?Hv; try apply HI; try done.
  - by rewrite wpc_insert.
  - pose proof (inv_counted _ _ _ _ _ _ HI) as Hc. unfold counted in *. rewrite (slave_insert _ _ _ _ Ht), (master_insert _ _ _ _ Ht), Hs, Hm.
    destruct wk; destruct Hc as (? & ? & ?); split_and!; lia.
  - intros u thu [[-> <-]|[Hne Hu]]%lookup_cases; [done|by eapply inv_local].
  - rewrite length_insert. intros Hlen. destruct (inv_phases _ _ _ _ _ _ HI Hlen) as (f & Hf). exists f. eapply phase_same; try done. intros _. unfold in_phase. lia.
Qed.

(** The same, outside the calls of the wake event. *)
Lemma inv_plain g ts t th th' L C c wk : inv g ts L C c wk -> ts !! t = Some th -> wpc th = None -> wpc th' = None -> slave th' = slave th -> master th' = master th ->
  outcomes th' = outcomes th -> arrivals th' = arrivals th -> local c wk th' -> inv g (<[t := th']> ts) L C c wk.
Proof.
  intros HI Ht Hn Hn' Hs Hm Ho Ha Hl. eapply inv_move; try done.
  - rewrite Hn', <- Hn, list_insert_id by (by apply wpc_lookup). apply HI.
  - eapply no_lost_quiet; [apply HI|done|by rewrite Hn|]. intros r p Hp. unfold wpc in Hn'. by rewrite Hp in Hn'.
Qed.

Definition step_keeps ts (t : nat) (r : PH_BARRIER K * thread) : Prop := keeps r.1 (<[t := r.2]> ts).

Lemma frame_ok g ts t th r w b : keeps g ts -> ts !! t = Some th -> place th = BlockEnter r -> QueuedLock.block_ok w -> QueuedLock.frames (WakeEvent g) !! w = None ->
  keeps (set_WakeEvent g (WakeEvent.enter_frame (WakeEvent g) w b)) (<[t := go th (Blocking r (WakeEvent.QueueRead w))]> ts).
Proof.
  intros (L & C & c & wk & HI) Ht Hp Hw Hf. exists L, C, c, wk. assert (Hn : wpc th = None) by (unfold wpc; by rewrite Hp).
  eapply inv_move; try done; cbn [set_WakeEvent WakeEvent go wpc place].
  - apply WakeEvent.inv_enter; [apply HI|rewrite <- Hn; by apply wpc_lookup|done|done].
  - unfold slave. cbn. by rewrite Hp.
  - unfold master. cbn. by rewrite Hp.
  - unfold outcomes, coming. cbn. by rewrite Hp.
  - unfold local. cbn. destruct Hw. lia.
  - eapply no_lost_quiet; [apply HI|done|by rewrite Hn|]. by intros r' p' [= <- <-].
Qed.

(** A step of the wake event. *)
Lemma wake_step_ok g ts t th p f : keeps g ts -> ts !! t = Some th -> place th = f p -> (f = (fun p => Blocking MASTER p) \/ f = (fun p => Blocking SLAVE p) \/ f = (fun p => Blocking OBSERVER p) \/ exists a, f = Signalling a) ->
  (forall w, p <> WakeEvent.Queued w) -> (forall w, p <> WakeEvent.Done w) ->
  exists r, wake_step g t th p f = Some (Some r) /\ step_keeps ts t r.
Proof.
  intros (L & C & c & wk & HI) Ht Hp Hf Hnq Hnd.
  assert (Hwp : forall th p, place th = f p -> wpc th = Some p) by (intros th0 p0 E; unfold wpc; rewrite E; by destruct Hf as [-> |[-> |[-> |[a ->]]]]).
  pose proof (wpc_lookup _ _ _ Ht) as Hl. rewrite (Hwp th p Hp) in Hl. pose proof (WakeEvent.wake_next_ok _ _ _ _ _ _ (inv_wake _ _ _ _ _ _ HI) Hl) as Hok.
  unfold wake_step. destruct (WakeEvent.next (WakeEvent g) t p) as [[[e p']|]|]; [| |done].
  2: { destruct Hok as [[w ->]|[w ->]]; [by destruct (Hnq w)|by destruct (Hnd w)]. }
  destruct Hok as (L' & C' & HI' & Ho & Hw & Hch). cbn [fst snd] in *. cbn [mbind option_bind]. eexists. split; [done|]. exists L', C', c, wk. cbn [fst snd].
  assert (Hlt : (t < length ts)%nat) by (by eapply lookup_lt_Some).
  eapply inv_move; try done.
  - cbn [set_WakeEvent WakeEvent]. by rewrite (Hwp (go th (f p')) p').
  - unfold slave. cbn [go place]. rewrite Hp. by destruct Hf as [-> |[-> |[-> |[a ->]]]].
  - unfold master. cbn [go place]. rewrite Hp. by destruct Hf as [-> |[-> |[-> |[a ->]]]].
  - unfold outcomes, coming. cbn [go place results]. rewrite Hp. by destruct Hf as [-> |[-> |[-> |[a ->]]]].
  - pose proof (inv_local _ _ _ _ _ _ HI t th Ht) as Hloc. unfold local in *. cbn [go place]. rewrite Hp in Hloc. destruct Hf as [-> |[-> |[-> |[a ->]]]]; congruence.
  - assert (Hsame : L' = L -> ~ setter p -> no_lost (<[t := go th (f p')]> ts) L' (Value g)).
    { intros -> Hns. eapply no_lost_keep; [apply HI|done|by intros q; rewrite (Hwp th p Hp); intros [= <-]| |done].
      intros r q Hq Hwq Hin Hc. exists p. cbn [go place] in Hq. rewrite Hp. destruct Hf as [-> |[-> |[-> |[a ->]]]]; try done; (injection Hq as <- <-; rewrite <- Ho; split_and!; [done|by apply Hw|done|done]). }
    assert (Hpush : forall w, p' = WakeEvent.Queued w -> L' = w :: L -> ~ setter p -> no_lost (<[t := go th (f p')]> ts) L' (Value g)).
    { intros w -> -> Hns. eapply no_lost_keep; [apply HI|done|by intros q; rewrite (Hwp th p Hp); intros [= <-]| |].
      - intros r q Hq Hwq _ _. cbn [go place] in Hq. destruct Hf as [-> |[-> |[-> |[a ->]]]]; try done; by injection Hq as <- <-.
      - intros u thu r q Hne Hu Hq Hwq [E|Hin]%elem_of_cons Hc; [|done]. exfalso. apply Hne.
        apply (WakeEvent.inv_own _ _ _ _ (inv_wake _ _ _ _ _ _ HI) u t q p); [|done|rewrite <- Ho; done|].
        + pose proof (wpc_lookup _ _ _ Hu) as Hx. unfold wpc at 2 in Hx. by rewrite Hq in Hx.
        + rewrite E. intros ->. by apply (WakeEvent.zero_not_queued _ _ _ _ HI'); left. }
    destruct p; try (by apply Hsame; [|intros [? [?|?]]]); try done.
    + destruct Hch as [[-> ->]|E]; [by eapply Hpush; [..|intros [? [?|?]]]|by apply Hsame; [|intros [? [?|?]]]].
    + destruct Hch as [-> [-> | ->]]; [|apply no_lost_nil]. eapply no_lost_setter; [done|by apply Hwp|]. eexists. by right.
    + rewrite Hch. apply no_lost_nil.
Qed.

(** The decision between the two calls of the wake event. *)
Lemma decide_ok g ts t th r w : keeps g ts -> ts !! t = Some th -> place th = Blocking r (WakeEvent.Queued w) ->
  step_keeps ts t (g, go th (Blocking r (PhpBlockOnBarrier SpinCount g th r w))).
Proof.
  intros (L & C & c & wk & HI) Ht Hp. exists L, C, c, wk. cbn [fst snd]. pose proof (wpc_lookup _ _ _ Ht) as Hl. unfold wpc at 2 in Hl. rewrite Hp in Hl.
  pose proof (inv_local _ _ _ _ _ _ HI t th Ht) as Hloc. unfold local in Hloc. rewrite Hp in Hloc. cbn [WakeEvent.own_block] in Hloc.
  assert (Hlt : (t < length ts)%nat) by (by eapply lookup_lt_Some).
  eapply inv_move; try done; cbn [go wpc place].
  - unfold PhpBlockOnBarrier. destruct (cancel _ _); [eapply WakeEvent.inv_cancel|apply WakeEvent.inv_wait]; by try apply HI.
  - unfold slave. cbn. by rewrite Hp.
  - unfold master. cbn. by rewrite Hp.
  - unfold outcomes, coming. cbn. by rewrite Hp.
  - unfold local, PhpBlockOnBarrier. cbn. by destruct (cancel _ _).
  - unfold PhpBlockOnBarrier. destruct (cancel (Value g) r) eqn:Ec.
    + eapply no_lost_setter; [done|done|]. eexists. by left.
    + eapply no_lost_quiet; [apply HI|done| |intros r' p' [= <- _] _; done]. intros q. unfold wpc. rewrite Hp. intros [= <-] [? [?|?]]; done.
Qed.

Lemma done_not_setter th own : wpc th = Some (WakeEvent.Done own) -> forall q, wpc th = Some q -> ~ setter q.
Proof. intros -> q [= <-] [? [?|?]]; done. Qed.

(** The return from PhpBlockOnBarrier. *)
Lemma leave_ok g ts t th r w : keeps g ts -> ts !! t = Some th -> place th = Blocking r (WakeEvent.Done w) ->
  step_keeps ts t (set_WakeEvent g (WakeEvent.leave_frame (WakeEvent g) w), go th (blocked g r)).
Proof.
  intros (L & C & c & wk & HI) Ht Hp. exists L, C, c, wk. cbn [fst snd]. pose proof (wpc_lookup _ _ _ Ht) as Hl.
  assert (Hwp : wpc th = Some (WakeEvent.Done w)) by (unfold wpc; by rewrite Hp). rewrite Hwp in Hl.
  destruct (inv_word _ _ _ _ _ _ HI) as (Ec & _ & Ew & Hc).
  assert (Hmaster : master th = 1 -> wk = true).
  { intros E. pose proof (tally_lookup master (fun th => proj1 (master_range th)) ts t th Ht). pose proof (inv_counted _ _ _ _ _ _ HI) as Hct. unfold counted in Hct. destruct wk; [done|lia]. }
  assert (Hnone : wpc (go th (blocked g r)) = None) by (unfold wpc, blocked; cbn; destruct r; by repeat case_match).
  eapply inv_move; try done; cbn [set_WakeEvent WakeEvent].
  - rewrite Hnone. eapply WakeEvent.inv_leave; [apply HI|done|]. intros a Ha. by rewrite lookup_delete_ne.
  - unfold slave, blocked. cbn. rewrite Hp. destruct r; by repeat case_match.
  - unfold master, blocked. cbn. rewrite Hp. destruct r; by repeat case_match.
  - unfold outcomes, coming, blocked. cbn. rewrite Hp. destruct r; by repeat case_match.
  - unfold local, blocked. cbn [go place]. destruct r.
    + rewrite Ec. by destruct (Z.eqb_spec c 1).
    + rewrite Ew. by destruct wk.
    + exists c, wk. destruct (counted_range _ _ _ (inv_counted _ _ _ _ _ _ HI)) as (? & ? & _). split_and!; [apply HI|lia..|done].
  - eapply no_lost_quiet; [apply HI|done|by eapply done_not_setter|]. intros r' p' E. unfold wpc in Hnone. by rewrite E in Hnone.
Qed.

Lemma continue_ok g ts t th a w : keeps g ts -> ts !! t = Some th -> place th = Signalling a (WakeEvent.Done w) -> step_keeps ts t (g, continue th a).
Proof.
  intros (L & C & c & wk & HI) Ht Hp. exists L, C, c, wk. cbn [fst snd]. pose proof (wpc_lookup _ _ _ Ht) as Hl.
  assert (Hwp : wpc th = Some (WakeEvent.Done w)) by (unfold wpc; by rewrite Hp). rewrite Hwp in Hl.
  assert (Hnone : wpc (continue th a) = None) by (by destruct a).
  eapply inv_move; try done.
  - rewrite Hnone. rewrite <- (WakeEvent.set_frames_id (WakeEvent g)). eapply WakeEvent.inv_leave; [apply HI|done|done].
  - unfold slave. rewrite Hp. by destruct a.
  - unfold master. rewrite Hp. by destruct a.
  - unfold outcomes, coming. rewrite Hp. destruct a; [done|]. cbn. by rewrite app_nil_r.
  - by destruct a.
  - by destruct a.
  - eapply no_lost_quiet; [apply HI|done|by eapply done_not_setter|]. intros r' p' E. unfold wpc in Hnone. by rewrite E in Hnone.
Qed.

(** All have a place in the phase but one. *)
Lemma tally_full (f : thread -> Z) ts t th : (forall th, 0 <= f th <= 1) -> ts !! t = Some th -> f th = 0 -> tally f ts + 1 = Z.of_nat (length ts) ->
  forall u thu, u <> t -> ts !! u = Some thu -> f thu = 1.
Proof.
  intros Hf Ht H0' Hs u thu Hne Hu. pose proof (Hf thu). destruct (decide (f thu = 0)) as [E|]; [|lia].
  pose proof (tally_two (fun th => 1 - f th) (fun th => ltac:(specialize (Hf th); lia)) ts t u th thu (not_eq_sym Hne) Ht Hu) as H2.
  assert (Hc : tally (fun th => 1 - f th) ts + tally f ts = Z.of_nat (length ts)) by (clear; induction ts as [|x l IH]; cbn [tally length]; lia). cbv beta in H2. lia.
Qed.

Lemma in_phase_tally ts : tally in_phase ts = tally slave ts + tally master ts.
Proof. induction ts as [|x l IH]; cbn [tally]; [done|]. unfold in_phase at 1. lia. Qed.

(** A thread takes its place in the phase. *)
Lemma arrive_phase ts t th th' last f : phase ts false f -> ts !! t = Some th -> in_phase th = 0 -> coming th = [] ->
  results th' = results th -> arrivals th' = S (arrivals th) -> coming th' = [last] -> in_phase th' = 1 ->
  (last = true -> tally in_phase ts + 1 = Z.of_nat (length ts)) -> phase (<[t := th']> ts) last f.
Proof.
  intros (Ha & Hj & Hf) Ht Hin Hco Hr Har Hco' Hin' Hlast. destruct (Ha t th Ht) as [H1 H2]. unfold outcomes in H1. rewrite Hco, app_nil_r in H1.
  assert (Ef : arrivals th = f) by lia. split_and!.
  - intros u thu [[-> <-]|[Hne Hu]]%lookup_cases.
    + unfold outcomes. rewrite Hr, Hco', length_app, Har, H1. cbn [length]. split; [lia|]. destruct last; lia.
    + destruct (Ha u thu Hu) as [H3 H4]. split; [done|]. destruct last; [|done].
      pose proof (tally_full in_phase ts t th in_phase_range Ht Hin (Hlast eq_refl) u thu Hne Hu). lia.
  - intros j Hlt. rewrite (tally_insert (chosen j) ts t th th' Ht), (Hj j Hlt). unfold chosen, outcomes. rewrite Hco, Hco', Hr, app_nil_r, lookup_app_l by lia. lia.
  - rewrite (tally_insert (chosen f) ts t th th' Ht), Hf. unfold chosen, outcomes. rewrite Hco, Hco', Hr, app_nil_r.
    rewrite (proj2 (lookup_ge_None (results th) f)) by lia. rewrite lookup_app_r by lia. replace (f - length (results th))%nat with 0%nat by lia. by destruct last.
Qed.

Lemma word_add c wk d wk' : 0 <= c + d < 2 ^ 31 -> u64 (word Target c wk + d + (Z.b2z wk' - Z.b2z wk) * 2 ^ 63) = word Target (c + d) wk'.
Proof.
  intros Hc. replace (word Target c wk + d + _) with (word Target (c + d) wk') by (unfold word; lia). apply u64_id. unfold in_width.
  by destruct (word_fields Target (c + d) wk') as (_ & _ & _ & ?); [lia..|].
Qed.

Lemma arrive_ok g ts t th value : keeps g ts -> ts !! t = Some th -> place th = WaitTry value ->
  exists r, PhfWaitForBarrier g th value = Some r /\ step_keeps ts t r.
Proof.
  intros (L & C & c & wk & HI) Ht Hp. pose proof (inv_local _ _ _ _ _ _ HI t th Ht) as Hloc. unfold local in Hloc. rewrite Hp in Hloc.
  assert (Hn : wpc th = None) by (unfold wpc; by rewrite Hp). assert (Hs : slave th = 0) by (unfold slave; by rewrite Hp). assert (Hm : master th = 0) by (unfold master; by rewrite Hp).
  assert (Hco : coming th = []) by (unfold coming; by rewrite Hp). assert (Hlt : (t < length ts)%nat) by (by eapply lookup_lt_Some).
  assert (Hplain : forall p, wpc (go th p) = None -> slave (go th p) = 0 -> master (go th p) = 0 -> coming (go th p) = [] -> local c wk (go th p) -> keeps g (<[t := go th p]> ts)).
  { intros p ? ? ? Hco' ?. exists L, C, c, wk. eapply inv_plain; try done; [congruence..|]. unfold outcomes. by rewrite Hco, Hco'. }
  destruct (counted_range _ _ _ (inv_counted _ _ _ _ _ _ HI)) as (Hc & Hcw & _).
  destruct Hloc as (c0 & wk0 & Ev & Hc0 & Hw0). destruct (word_fields Target c0 wk0) as (Ec & ET & Ew & _); [lia..|]. rewrite <- Ev in Ec, ET, Ew.
  unfold PhfWaitForBarrier. rewrite Ew. destruct wk0; cbn [negb]; [eexists; split; [done|]; by apply Hplain|].
  specialize (Hw0 eq_refl). rewrite Ec, ET. replace (c0 =? Target) with false by lia. rewrite (u64_id (c0 + 1)) by (unfold in_width; lia).
  destruct (Z.eqb_spec (Value g) value) as [E|]; (eexists; split; [done|]).
  2: { apply Hplain; try done. exists c, wk. split_and!; [apply HI|lia..|done]. }
  assert (c0 = c /\ wk = false) as [-> ->].
  { destruct (inv_word _ _ _ _ _ _ HI) as (E1 & _ & E2 & _). rewrite E in E1, E2. split; congruence. }
  unfold step_keeps. cbn [fst snd]. pose proof (inv_counted _ _ _ _ _ _ HI) as (Hm0 & Hs0 & _).
  destruct (Z.eqb_spec (c + 1) Target) as [El|El].
  - exists L, C, (c + 1), true. set (th' := arrive th (set_wake_event BlockAsMaster)).
    assert (Es' : slave th' = 0) by done. assert (Em' : master th' = 1) by done.
    assert (Eval : u64 (value + PH_BARRIER_COUNT_INC + PH_BARRIER_WAKING) = word Target (c + 1) true).
    { rewrite <- (word_add c false 1 true) by lia. by rewrite Ev. }
    split; cbn [set_Value Value WakeEvent]; rewrite ?Eval; try done.
    + rewrite wpc_insert. apply WakeEvent.inv_begin_set; [apply HI|]. rewrite (wpc_lookup _ _ _ Ht). by rewrite Hn.
    + cbn. rewrite (slave_insert _ _ _ _ Ht), (master_insert _ _ _ _ Ht). lia.
    + intros u thu [[-> <-]|[Hne Hu]]%lookup_cases; [done|]. pose proof (inv_local _ _ _ _ _ _ HI u thu Hu) as Hl. unfold local in *. destruct (place thu) eqn:Eu; try done.
      pose proof (tally_lookup master (fun th => proj1 (master_range th)) ts u thu Hu) as Hx. unfold master at 1 in Hx. rewrite Eu in Hx. lia.
    + eapply no_lost_setter; [done|done|]. eexists. by left.
    + rewrite length_insert. intros Hlen. destruct (inv_phases _ _ _ _ _ _ HI Hlen) as (f & Hf). exists f.
      eapply arrive_phase; try done; [unfold in_phase; lia|]. intros _. rewrite in_phase_tally. lia.
  - exists L, C, (c + 1), false. set (th' := arrive th (BlockEnter SLAVE)).
    assert (Es' : slave th' = 1) by done. assert (Em' : master th' = 0) by done.
    assert (Eval : value +₆₄ PH_BARRIER_COUNT_INC = word Target (c + 1) false).
    { rewrite <- (word_add c false 1 false) by lia. rewrite Ev. f_equal. change PH_BARRIER_COUNT_INC with 1. cbn [Z.b2z]. lia. }
    split; cbn [set_Value Value WakeEvent]; rewrite ?Eval; try done.
    + rewrite (wpc_same _ _ _ _ Ht) by done. apply HI.
    + cbn. rewrite (slave_insert _ _ _ _ Ht), (master_insert _ _ _ _ Ht). lia.
    + intros u thu [[-> <-]|[Hne Hu]]%lookup_cases; [done|]. pose proof (inv_local _ _ _ _ _ _ HI u thu Hu) as Hl. unfold local in *. destruct (place thu) eqn:Eu; try done.
      pose proof (tally_lookup master (fun th => proj1 (master_range th)) ts u thu Hu) as Hx. unfold master at 1 in Hx. rewrite Eu in Hx. lia.
    + destruct (word_fields Target (c + 1) false) as (Ec1 & _ & Ew1 & _); [lia..|]. destruct (word_fields Target c false) as (Ec2 & _ & Ew2 & _); [lia..|].
      eapply no_lost_keep; [apply HI|done|by rewrite Hn|done|]. intros u thu r p Hne Hu Hpu Hw Hin Hcan. split; [done|].
      rewrite (inv_value _ _ _ _ _ _ HI). destruct r; cbn [cancel] in *; rewrite ?Ew1, ?Ew2 in *; try done.
      pose proof (tally_lookup master (fun th => proj1 (master_range th)) ts u thu Hu) as Hx. unfold master at 1 in Hx. rewrite Hpu in Hx. lia.
    + rewrite length_insert. intros Hlen. destruct (inv_phases _ _ _ _ _ _ HI Hlen) as (f & Hf). exists f.
      eapply arrive_phase; try done; unfold in_phase; lia.
Qed.

Lemma slave_leave_ok g ts t th : keeps g ts -> ts !! t = Some th -> place th = SlaveLeave -> step_keeps ts t (slave_leave g th).
Proof.
  intros (L & C & c & wk & HI) Ht Hp. pose proof (inv_local _ _ _ _ _ _ HI t th Ht) as Hloc. unfold local in Hloc. rewrite Hp in Hloc. subst wk.
  assert (Hn : wpc th = None) by (unfold wpc; by rewrite Hp). assert (Hs : slave th = 1) by (unfold slave; by rewrite Hp). assert (Hm : master th = 0) by (unfold master; by rewrite Hp).
  assert (Hco : coming th = [false]) by (unfold coming; by rewrite Hp). assert (Hlt : (t < length ts)%nat) by (by eapply lookup_lt_Some).
  pose proof (inv_counted _ _ _ _ _ _ HI) as (Hm0 & Hs0 & Hc0). pose proof (tally_lookup slave (fun th => proj1 (slave_range th)) ts t th Ht) as Hge.
  destruct (inv_word _ _ _ _ _ _ HI) as (Ec & _ & Ew & Hc). assert (Hc2 : 2 <= c) by lia. unfold slave_leave. rewrite Ec, (u64_id (c - 1)) by (unfold in_width; lia).
  assert (Eval : Value g -₆₄ PH_BARRIER_COUNT_INC = word Target (c - 1) true).
  { rewrite (inv_value _ _ _ _ _ _ HI). replace (c - 1) with (c + -1) by lia. rewrite <- (word_add c true (-1) true) by lia. f_equal. change PH_BARRIER_COUNT_INC with 1. cbn [Z.b2z]. lia. }
  set (th' := if c - 1 =? 1 then go th (set_wake_event (Return false)) else return_ th false).
  assert (Hth' : slave th' = 0 /\ master th' = 0 /\ outcomes th' = outcomes th /\ arrivals th' = arrivals th /\ forall c wk, local c wk th').
  { unfold outcomes. rewrite Hco. unfold th'. destruct (c - 1 =? 1); split_and!; try done. cbn. by rewrite app_nil_r. }
  destruct Hth' as (Es' & Em' & Eo' & Ea' & Hl'). exists L, C, (c - 1), true. cbn [fst snd]. split; cbn [set_Value Value WakeEvent]; rewrite ?Eval; try done.
  - destruct (Z.eqb_spec (c - 1) 1); unfold th'.
    + rewrite wpc_insert. apply WakeEvent.inv_begin_set; [apply HI|]. rewrite (wpc_lookup _ _ _ Ht). by rewrite Hn.
    + rewrite (wpc_same _ _ _ _ Ht) by done. apply HI.
  - cbn. rewrite (slave_insert _ _ _ _ Ht), (master_insert _ _ _ _ Ht). lia.
  - intros u thu [[-> <-]|[Hne Hu]]%lookup_cases; [apply Hl'|]. pose proof (inv_local _ _ _ _ _ _ HI u thu Hu) as Hl. unfold local in *. destruct (place thu); try done. lia.
  - destruct (word_fields Target (c - 1) true) as (Ec1 & _ & Ew1 & _); [lia..|]. unfold th'. destruct (Z.eqb_spec (c - 1) 1) as [E1|E1].
    + eapply no_lost_setter; [done|done|]. eexists. by left.
    + eapply no_lost_keep; [apply HI|done|by rewrite Hn|done|]. intros u thu r p Hne Hu Hpu Hw Hin Hcan. split; [done|].
      destruct r; cbn [cancel] in *; rewrite ?Ew, ?Ew1, ?Ec1 in *; try done. lia.
  - rewrite length_insert. intros Hlen. destruct (inv_phases _ _ _ _ _ _ HI Hlen) as (f & Hf). exists f. by eapply phase_same.
Qed.

Lemma tally_zero (f : thread -> Z) ts : (forall t th, ts !! t = Some th -> f th = 0) -> tally f ts = 0.
Proof.
  intros Hf. induction ts as [|x l IH]; [done|]. cbn [tally]. rewrite (Hf 0%nat x eq_refl), IH; [done|]. intros t th Ht. by apply (Hf (S t)).
Qed.

Lemma master_leave_ok g ts t th : keeps g ts -> ts !! t = Some th -> place th = MasterLeave -> step_keeps ts t (master_leave g th).
Proof.
  intros (L & C & c & wk & HI) Ht Hp. pose proof (inv_local _ _ _ _ _ _ HI t th Ht) as Hloc. unfold local in Hloc. rewrite Hp in Hloc. subst c.
  assert (Hn : wpc th = None) by (unfold wpc; by rewrite Hp). assert (Hs : slave th = 0) by (unfold slave; by rewrite Hp). assert (Hm : master th = 1) by (unfold master; by rewrite Hp).
  assert (Hco : coming th = [true]) by (unfold coming; by rewrite Hp). assert (Hlt : (t < length ts)%nat) by (by eapply lookup_lt_Some).
  pose proof (tally_lookup master (fun th => proj1 (master_range th)) ts t th Ht) as Hge. pose proof (inv_counted _ _ _ _ _ _ HI) as Hct.
  destruct wk; [|unfold counted in Hct; lia]. destruct Hct as (Hm0 & Hs0 & Hc0).
  assert (Hother : forall u thu, u <> t -> ts !! u = Some thu -> master thu = 0 /\ slave thu = 0).
  { intros u thu Hne Hu. pose proof (tally_two master (fun th => proj1 (master_range th)) ts t u th thu (not_eq_sym Hne) Ht Hu). pose proof (master_range thu).
    pose proof (tally_lookup slave (fun th => proj1 (slave_range th)) ts u thu Hu). pose proof (slave_range thu). lia. }
  assert (Eval : Value g -₆₄ (PH_BARRIER_WAKING + PH_BARRIER_COUNT_INC) = word Target 0 false).
  { rewrite (inv_value _ _ _ _ _ _ HI). change (word Target 0 false) with (word Target (1 + -1) false). rewrite <- (word_add 1 true (-1) false) by lia. f_equal. change PH_BARRIER_COUNT_INC with 1. change PH_BARRIER_WAKING with (2 ^ 63). cbn [Z.b2z]. lia. }
  set (th' := go th (set_wake_event (Return true))).
  assert (Eo : outcomes th' = outcomes th) by (unfold outcomes; by rewrite Hco).
  exists L, C, 0, false. unfold master_leave. cbn [fst snd]. fold th'. split; cbn [set_Value Value WakeEvent]; rewrite ?Eval; try done.
  - rewrite wpc_insert. apply WakeEvent.inv_begin_set; [apply HI|]. rewrite (wpc_lookup _ _ _ Ht). by rewrite Hn.
  - cbn. rewrite (slave_insert _ _ _ _ Ht), (master_insert _ _ _ _ Ht). cbn. lia.
  - intros u thu [[-> <-]|[Hne Hu]]%lookup_cases; [done|]. pose proof (inv_local _ _ _ _ _ _ HI u thu Hu) as Hl. destruct (Hother u thu Hne Hu) as [E1 E2].
    unfold local, master, slave in *. destruct (place thu); done.
  - eapply no_lost_setter; [done|done|]. eexists. by left.
  - rewrite length_insert. intros Hlen. destruct (inv_phases _ _ _ _ _ _ HI Hlen) as (f & Ha & Hj & Hf). exists (S f).
    assert (Hsame : forall j, tally (chosen j) (<[t := th']> ts) = tally (chosen j) ts) by (intros j; rewrite (tally_insert (chosen j) ts t th th' Ht); unfold chosen at 2 3; rewrite Eo; lia).
    assert (Ha' : forall u thu, <[t := th']> ts !! u = Some thu -> length (outcomes thu) = arrivals thu /\ Z.of_nat (arrivals thu) = Z.of_nat f + 1 /\ in_phase thu = 0).
    { intros u thu [[-> <-]|[Hne Hu]]%lookup_cases; [rewrite Eo; destruct (Ha t th Ht); done|]. destruct (Ha u thu Hu), (Hother u thu Hne Hu). unfold in_phase. split_and!; [done|done|lia]. }
    split_and!.
    + intros u thu Hu. destruct (Ha' u thu Hu) as (H1 & H2 & H3). split; [done|]. lia.
    + intros j Hjf. rewrite Hsame. destruct (decide (j = f)) as [->|]; [done|]. apply Hj. lia.
    + apply tally_zero. intros u thu Hu. destruct (Ha' u thu Hu) as (H1 & H2 & _). unfold chosen. rewrite (proj2 (lookup_ge_None (outcomes thu) (S f))) by lia. done.
Qed.

(** Every step is defined and keeps the invariant. *)
Lemma barrier_next_ok g ts t th : keeps g ts -> ts !! t = Some th ->
  match next SpinCount g t th with
  | None => False
  | Some None => place th = Outside \/ exists r, place th = BlockEnter r
  | Some (Some r) => step_keeps ts t r
  end.
Proof.
  intros HK Ht. unfold next. destruct (place th) as [| |value|r|r p| | |a p] eqn:Hp.
  - by left.
  - destruct HK as (L & C & c & wk & HI). exists L, C, c, wk. eapply inv_plain; try done.
    + unfold wpc. by rewrite Hp.
    + unfold slave. by rewrite Hp.
    + unfold master. by rewrite Hp.
    + unfold outcomes, coming. by rewrite Hp.
    + exists c, wk. destruct (counted_range _ _ _ (inv_counted _ _ _ _ _ _ HI)) as (? & ? & _). split_and!; [apply HI|lia..|done].
  - destruct (arrive_ok g ts t th value HK Ht Hp) as (x & -> & Hx). done.
  - right. by exists r.
  - assert (Hw : (forall w, p <> WakeEvent.Queued w) -> (forall w, p <> WakeEvent.Done w) -> exists x, wake_step g t th p (Blocking r) = Some (Some x) /\ step_keeps ts t x).
    { intros Hq Hd. apply (wake_step_ok g ts t th p (Blocking r) HK Ht Hp); [|done|done]. destruct r; [by left|by right; left|by right; right; left]. }
    destruct p; try (destruct Hw as (x & -> & Hx); [done|done|exact Hx]); [by apply decide_ok|by apply leave_ok].
  - by apply slave_leave_ok.
  - by apply master_leave_ok.
  - assert (Hnq : forall w, p <> WakeEvent.Queued w).
    { intros w ->. destruct HK as (L & C & c & wk & HI). pose proof (inv_local _ _ _ _ _ _ HI t th Ht) as Hl. unfold local in Hl. rewrite Hp in Hl.
      pose proof (wpc_lookup _ _ _ Ht) as Hx. unfold wpc at 2 in Hx. rewrite Hp in Hx. destruct (WakeEvent.inv_local _ _ _ _ (inv_wake _ _ _ _ _ _ HI) t _ Hx) as [_ Hz]. done. }
    assert (Hw : (forall w, p <> WakeEvent.Done w) -> exists x, wake_step g t th p (Signalling a) = Some (Some x) /\ step_keeps ts t x).
    { intros Hd. apply (wake_step_ok g ts t th p (Signalling a) HK Ht Hp); [|done|done]. right; right; right. by exists a. }
    destruct p; try (destruct Hw as (x & -> & Hx); [done|exact Hx]). by eapply continue_ok.
Qed.

Lemma step_ok g ts g' ts' : keeps g ts -> step SpinCount (g, ts) (g', ts') -> keeps g' ts'.
Proof.
  intros HK Hs. inversion Hs as [? ? t th Spin Ht Hp|? ? t th r w b Ht Hp Hm Hr Hf|? ? t th ? th' Ht Hn]; subst.
  - destruct HK as (L & C & c & wk & HI). exists L, C, c, wk. eapply inv_plain; try done.
    + unfold wpc. by rewrite Hp.
    + unfold slave. by rewrite Hp.
    + unfold master. by rewrite Hp.
    + unfold outcomes, coming. by rewrite Hp.
  - by apply frame_ok.
  - pose proof (barrier_next_ok g ts t th HK Ht) as Hok. by rewrite Hn in Hok.
Qed.

Lemma inv_start k n : pending k = ∅ -> keeps (PhfInitializeBarrier k Target) (replicate n new_thread).
Proof.
  intros Hk. assert (Hn : forall t th, replicate n new_thread !! t = Some th -> th = new_thread) by (by intros t th [-> _]%lookup_replicate).
  exists [], (fun _ => []), 0, false. split.
  - cbn [PhfInitializeBarrier WakeEvent]. rewrite fmap_replicate. by apply WakeEvent.wake_inv_initial.
  - cbn [PhfInitializeBarrier Value]. rewrite Z.shiftl_mul_pow2 by done. unfold word. cbn [Z.b2z]. rewrite u64_id; unfold in_width, PH_BARRIER_TARGET_SHIFT; lia.
  - unfold counted. rewrite !tally_replicate by done. lia.
  - by intros t th ->%Hn.
  - apply no_lost_nil.
  - intros Hlen. exists 0%nat. split_and!; [by intros t th ->%Hn|intros j Hj; lia|]. by rewrite tally_replicate.
Qed.

Lemma barrier_reachable_keeps k n g ts : pending k = ∅ -> reachable SpinCount k Target n (g, ts) -> keeps g ts.
Proof.
  intros Hk. apply (rtc_ind_r (fun s => keeps s.1 s.2)); [by apply inv_start|]. intros [g1 ts1] [g2 ts2] _ Hs IH. by eapply step_ok.
Qed.

Lemma reachable_length k n g ts : reachable SpinCount k Target n (g, ts) -> length ts = n.
Proof.
  apply (rtc_ind_r (fun s => length s.2 = n)); [apply length_replicate|]. intros [g1 ts1] [g2 ts2] _ Hs IH. cbn in *. inversion Hs; subst; by rewrite length_insert.
Qed.

End invariant.

(** ** The theorems *)
Section theorems.
Context {K : Type} `{KeyedEventLaws K}.
Context (SpinCount : nat).
Implicit Types (g : PH_BARRIER K) (th : thread) (ts : list thread).

(** No call of PhWaitForBarrier is ever undefined, for any number of threads: no step touches a wait
    block whose frame is gone, the assertion that the barrier is not full holds, and no exception is
    raised. *)
Theorem barrier_calls_defined k Target n g ts : pending k = ∅ -> 1 <= Target < 2 ^ 31 -> reachable SpinCount k Target n (g, ts) ->
  forall t th, ts !! t = Some th -> next SpinCount g t th <> None /\ wpc th <> Some WakeEvent.Raised.
Proof.
  intros Hk HT Hr t th Ht. pose proof (barrier_reachable_keeps SpinCount Target HT k n g ts Hk Hr) as HK. split.
  - intros E. pose proof (barrier_next_ok SpinCount Target HT g ts t th HK Ht) as Hok. by rewrite E in Hok.
  - intros E. destruct HK as (L & C & c & wk & HI). pose proof (wpc_lookup _ _ _ Ht) as Hl. rewrite E in Hl.
    by destruct (WakeEvent.inv_local _ _ _ _ (inv_wake _ _ _ _ _ _ _ HI) t _ Hl).
Qed.

Lemma coming_in_phase th : (length (coming th) <= 1)%nat /\ (in_phase th = 1 -> length (coming th) = 1%nat).
Proof. unfold in_phase, slave, master, coming. repeat case_match; simpl; split; lia. Qed.

(** C15: The barrier separates phases. With as many threads as the barrier is for, a thread that has
    returned from its j-th call has waited until every thread had come to its j-th call; and of the
    results of all the j-th calls exactly one is TRUE. *)
Theorem barrier_separates_phases k Target g ts : pending k = ∅ -> 1 <= Target < 2 ^ 31 -> reachable SpinCount k Target (Z.to_nat Target) (g, ts) ->
  (forall t u th thu, ts !! t = Some th -> ts !! u = Some thu -> (length (results th) <= arrivals thu)%nat) /\
  (forall j, (forall t th, ts !! t = Some th -> (j < length (results th))%nat) ->
     exists t th, ts !! t = Some th /\ results th !! j = Some true /\ forall u thu, u <> t -> ts !! u = Some thu -> results thu !! j = Some false).
Proof.
  intros Hk HT Hr. pose proof (reachable_length _ _ _ _ _ _ Hr) as Hlen. destruct (barrier_reachable_keeps SpinCount Target HT _ _ _ _ Hk Hr) as (L & C & c & wk & HI).
  destruct (inv_phases _ _ _ _ _ _ _ HI ltac:(lia)) as (f & Ha & Hj & Hf).
  assert (Hres : forall t th, ts !! t = Some th -> (length (results th) <= f + (if wk then 1 else 0))%nat).
  { intros t th Ht. destruct (Ha t th Ht) as [H1 H2]. unfold outcomes in H1. rewrite length_app in H1. destruct (coming_in_phase th) as [_ Hc]. pose proof (in_phase_range th).
    destruct wk; [lia|]. destruct (decide (in_phase th = 1)) as [E|]; [rewrite (Hc E) in H1|]; lia. }
  split.
  - intros t u th thu Ht Hu. specialize (Hres t th Ht). destruct (Ha u thu Hu) as [_ H2]. pose proof (in_phase_range thu). destruct wk; lia.
  - intros j Hall. assert (Hone : tally (chosen j) ts = 1).
    { destruct (decide (j < f)%nat) as [Hlt|Hge]; [by apply Hj|]. destruct (ts !! 0%nat) as [th|] eqn:E0; [|apply lookup_ge_None in E0; lia].
      pose proof (Hall _ _ E0). pose proof (Hres _ _ E0). destruct wk; [|lia]. by replace j with f by lia. }
    assert (Hout : forall t th, ts !! t = Some th -> chosen j th = Z.b2z (bool_decide (results th !! j = Some true))).
    { intros t th Ht. unfold chosen, outcomes. rewrite lookup_app_l; [done|by eapply Hall]. }
    destruct (tally_pos (chosen j) (fun th => proj1 (chosen_range j th)) ts) as (t & th & Ht & Hp); [lia|].
    exists t, th. split; [done|]. split; [rewrite (Hout t th Ht) in Hp; by case_bool_decide|]. intros u thu Hne Hu.
    pose proof (tally_two (chosen j) (fun th => proj1 (chosen_range j th)) ts t u th thu (not_eq_sym Hne) Ht Hu) as H2. rewrite (Hout u thu Hu) in H2.
    destruct (lookup_lt_is_Some_2 (results thu) j (Hall u thu Hu)) as [b Hb]. rewrite Hb in *. destruct b; [|done]. rewrite bool_decide_true in H2 by done. cbn in H2. lia.
Qed.

(** A thread that does not act: it is outside, or in a call of the kernel that does not return. *)
Definition rests g (t : nat) th : Prop :=
  place th = Outside \/ exists p, wpc th = Some p /\ WakeEvent.asleep (WakeEvent g) t p.

Definition inside th : Z := match place th with Outside => 0 | _ => 1 end.

Lemma tally_mono (f f' : thread -> Z) ts : (forall t th, ts !! t = Some th -> f th <= f' th) -> tally f ts <= tally f' ts.
Proof.
  intros Hf. induction ts as [|x l IH]; [done|]. cbn [tally]. pose proof (Hf 0%nat x eq_refl). assert (tally f l <= tally f' l); [|lia]. apply IH. intros t th Ht. by apply (Hf (S t)).
Qed.

(** When all rest, those inside sleep on the event and nobody is late to wake them. *)
Lemma resting_blocked g ts Target L C c wk : inv Target g ts L C c wk -> (forall t th, ts !! t = Some th -> rests g t th) ->
  forall t th, ts !! t = Some th -> place th = Outside \/ exists r p, place th = Blocking r p /\ cancel (Value g) r = false.
Proof.
  intros HI Hrest. pose proof (inv_wake _ _ _ _ _ _ _ HI) as HW.
  assert (Hsleep : forall t p, (wpc <$> ts) !! t = Some (Some p) -> exists w, p = WakeEvent.BlockKey w (WakeEvent.Wait false) /\ w ∈ L).
  { apply (WakeEvent.resting_queued _ _ _ _ HW). intros t p Hp. apply list_lookup_fmap_Some in Hp as (th & E & Ht). destruct (Hrest t th Ht) as [Ho|(q & Hq & Ha)]; [unfold wpc in E; by rewrite Ho in E|].
    rewrite Hq in E. by injection E as ->. }
  intros t th Ht. destruct (Hrest t th Ht) as [Ho|(p & Hp & _)]; [by left|right]. pose proof (wpc_lookup _ _ _ Ht) as Hl. rewrite Hp in Hl. destruct (Hsleep t p Hl) as (w & -> & Hw).
  pose proof (inv_local _ _ _ _ _ _ _ HI t th Ht) as Hloc. destruct (WakeEvent.inv_local _ _ _ _ HW t _ Hl) as [_ (Hz & _)].
  unfold wpc in Hp. unfold local in Hloc. destruct (place th) as [| | |r|r q| | |a q] eqn:Ep; try done; injection Hp as ->; [|by destruct Hz].
  exists r. eexists. split; [done|]. destruct (cancel (Value g) r) eqn:Ec; [|done]. exfalso.
  destruct (inv_no_lost _ _ _ _ _ _ _ HI t th r _ Ht Ep eq_refl Hw Ec) as (u & thu & q & Hu & Hq & Hs). pose proof (wpc_lookup _ _ _ Hu) as Hlu. rewrite Hq in Hlu.
  destruct (Hsleep u q Hlu) as (w' & -> & _). destruct Hs as [? [?|?]]; done.
Qed.

(** C16: No deadlock. When every thread is outside or asleep in the kernel, fewer threads are inside than
    the barrier is for, and the barrier is open: the master does not sleep on when the slaves have left,
    no slave sleeps through the wake-up of its phase, and no thread that came too early is forgotten. So
    once as many threads have come as the barrier is for, somebody can go on. *)
Theorem barrier_no_deadlock k Target n g ts : pending k = ∅ -> 1 <= Target < 2 ^ 31 -> reachable SpinCount k Target n (g, ts) ->
  (forall t th, ts !! t = Some th -> rests g t th) -> tally inside ts < Target /\ is_waking (Value g) = false.
Proof.
  intros Hk HT Hr Hrest. destruct (barrier_reachable_keeps SpinCount Target HT _ _ _ _ Hk Hr) as (L & C & c & wk & HI).
  pose proof (resting_blocked _ _ _ _ _ _ _ HI Hrest) as Hb. destruct (inv_word Target HT _ _ _ _ _ _ HI) as (Ec & _ & Ew & Hc). pose proof (inv_counted _ _ _ _ _ _ _ HI) as Hct.
  destruct wk; destruct Hct as (Hm & Hs & Hlt).
  - exfalso. destruct (tally_pos master (fun th => proj1 (master_range th)) ts) as (t & th & Ht & Hpos); [lia|].
    destruct (Hb t th Ht) as [Ho|(r & p & Hp & Hcan)]; [unfold master in Hpos; by rewrite Ho in Hpos|]. unfold master in Hpos. rewrite Hp in Hpos. destruct r; try done.
    cbn [cancel] in Hcan. rewrite Ec in Hcan. destruct (tally_pos slave (fun th => proj1 (slave_range th)) ts) as (u & thu & Hu & Hpos'); [pose proof (tally_nonneg slave (fun th => proj1 (slave_range th)) ts); lia|].
    destruct (Hb u thu Hu) as [Ho|(r & q & Hq & Hcan')]; [unfold slave in Hpos'; by rewrite Ho in Hpos'|]. unfold slave in Hpos'. rewrite Hq in Hpos'. destruct r; try done.
    cbn [cancel] in Hcan'. by rewrite Ew in Hcan'.
  - split; [|done]. assert (tally inside ts <= tally slave ts); [|lia]. apply tally_mono. intros t th Ht. destruct (Hb t th Ht) as [Ho|(r & p & Hp & Hcan)]; [unfold inside, slave; by rewrite Ho|].
    unfold inside, slave. rewrite Hp. destruct r; [|done|].
    + pose proof (tally_lookup master (fun th => proj1 (master_range th)) ts t th Ht) as Hx. unfold master at 1 in Hx. rewrite Hp in Hx. lia.
    + cbn [cancel] in Hcan. by rewrite Ew in Hcan.
Qed.
End theorems.

(** ** Runs *)

Inductive choice := Call (t : nat) (Spin : bool) | Frame (t : nat) (w : Z) | Go (t : nat).

Section runs.
Context {K : Type} `{KeyedEvents K}.

Definition empty_block : QueuedLock.PH_QUEUED_WAIT_BLOCK := {| QueuedLock.Next := 0; QueuedLock.Previous := 0; QueuedLock.Last := 0; QueuedLock.SharedOwners := 0; QueuedLock.Flags := 0 |}.

Definition move (SpinCount : nat) (s : @state K) (x : choice) : option (@state K) :=
  let '(g, ts) := s in
  match x with
  | Call t Spin => th ← ts !! t;
      match place th with
      | Outside => Some (g, <[t := {| place := WaitRead; Spin := Spin; arrivals := arrivals th; results := results th |}]> ts)
      | _ => None
      end
  | Frame t w => th ← ts !! t;
      match place th with
      | BlockEnter r =>
          if decide (w mod 16 = 0 /\ 0 < w < 2 ^ 64 /\ QueuedLock.frames (WakeEvent g) !! w = None)
          then Some (set_WakeEvent g (WakeEvent.enter_frame (WakeEvent g) w empty_block), <[t := go th (Blocking r (WakeEvent.QueueRead w))]> ts) else None
      | _ => None
      end
  | Go t => th ← ts !! t; o ← next SpinCount g t th; '(g', th') ← o; Some (g', <[t := th']> ts)
  end.

Fixpoint play (SpinCount : nat) (s : @state K) (l : list choice) : option (@state K) :=
  match l with [] => Some s | x :: l => s ← move SpinCount s x; play SpinCount s l end.

Lemma move_step SpinCount s x s' : move SpinCount s x = Some s' -> step SpinCount s s'.
Proof.
  destruct s as [g ts]. destruct x as [t Spin|t w|t]; cbn [move]; destruct (ts !! t) as [th|] eqn:Ht; cbn [mbind option_bind]; try done.
  - destruct (place th) eqn:Hp; try done. intros [= <-]. by apply step_call.
  - destruct (place th) eqn:Hp; try done. destruct (decide _) as [(Hm & Hr & Hf)|]; [|done]. intros [= <-]. by apply step_frame.
  - destruct (next SpinCount g t th) as [[[g' th']|]|] eqn:Hn; cbn [mbind option_bind]; try done. intros [= <-]. by eapply step_next.
Qed.

Lemma play_steps SpinCount l s s' : play SpinCount s l = Some s' -> rtc (step SpinCount) s s'.
Proof.
  revert s. induction l as [|x l IH]; intros s; cbn [play]; [intros [= ->]; apply rtc_refl|].
  destruct (move SpinCount s x) as [s1|] eqn:E; [|done]. cbn [mbind option_bind]. intros Hp. eapply rtc_l; [by eapply move_step|by apply IH].
Qed.
End runs.


(** ** Two threads, with the kernel of [QueuedLockProof] *)

#[local] Existing Instance QueuedLockProof.TableEvents.
#[local] Existing Instance QueuedLockProof.TableEventLaws.
Abbreviation ktable := (gmap nat (keyed * Z * bool)) (only parsing).

Definition pair_of_threads : @state ktable := (PhfInitializeBarrier ∅ 2, replicate 2 new_thread).

(** The first thread arrives and falls asleep. *)
Definition first_arrives : list choice := [Call 0 false; Go 0; Go 0; Frame 0 16] ++ replicate 6 (Go 0).

(** The second arrives, wakes it, and sleeps as the master; the first leaves and wakes the master. *)
Definition second_arrives : list choice :=
  first_arrives ++ [Call 1 false] ++ replicate 8 (Go 1) ++ [Frame 1 32] ++ replicate 6 (Go 1) ++ replicate 9 (Go 0) ++ replicate 5 (Go 1).

Definition played (l : list choice) : @state ktable := default pair_of_threads (play 0 pair_of_threads l).

Lemma barrier_played l : is_Some (play 0 pair_of_threads l) -> reachable 0 (∅ : ktable) 2 2 ((played l).1, (played l).2).
Proof. intros [[g ts] Hs]. unfold played. rewrite Hs. by apply (play_steps 0 l). Qed.

(** The witnesses: the first asleep in the phase; both returned from it. *)
Lemma barrier_calls_defined_witness : pending (∅ : ktable) = ∅ /\ 1 <= 2 < 2 ^ 31 /\
  forall t th, (played first_arrives).2 !! t = Some th -> next 0 (played first_arrives).1 t th <> None /\ wpc th <> Some WakeEvent.Raised.
Proof.
  split; [done|]. split; [lia|]. apply (barrier_calls_defined 0 (∅ : ktable) 2 2); [done|lia|].
  apply barrier_played. eexists. vm_compute. reflexivity.
Defined.

Lemma barrier_separates_phases_witness : (results <$> (played second_arrives).2) = [[false]; [true]] /\
  exists t th, (played second_arrives).2 !! t = Some th /\ results th !! 0%nat = Some true /\
    forall u thu, u <> t -> (played second_arrives).2 !! u = Some thu -> results thu !! 0%nat = Some false.
Proof.
  split; [vm_compute; reflexivity|]. apply (barrier_separates_phases 0 (∅ : ktable) 2 (played second_arrives).1); [done|lia| |].
  - change (Z.to_nat 2) with 2%nat. apply barrier_played. eexists. vm_compute. reflexivity.
  - intros t th Ht. assert (Hr : (results <$> (played second_arrives).2) !! t = Some (results th)) by (by rewrite list_lookup_fmap, Ht).
    replace (results <$> (played second_arrives).2) with [[false]; [true]] in Hr by (vm_compute; reflexivity).
    destruct t as [|[|t]]; [by injection Hr as <-; simpl; lia..|done].
Defined.

Lemma barrier_no_deadlock_witness : tally inside (played first_arrives).2 = 1 /\ tally inside (played first_arrives).2 < 2 /\ is_waking (Value (played first_arrives).1) = false.
Proof.
  split; [vm_compute; reflexivity|]. apply (barrier_no_deadlock 0 (∅ : ktable) 2 2); [done|lia| |].
  - apply barrier_played. eexists. vm_compute. reflexivity.
  - intros t th Ht. destruct t as [|[|t]]; [| |by vm_compute in Ht]; vm_compute in Ht; injection Ht as <-; [right|by left].
    eexists. split; [reflexivity|]. vm_compute. reflexivity.
Defined.

End Barrier.
