(* ===== verification/CidTable.v ===== *)
(** * The CID table: [KSystemInformer/cid_table.c]

    A sparse array of up to 2^24 object references, indexed by process or thread id: one block of
    entries, then a table of blocks, then a table of tables, the level kept in the low bits of the
    root word. Lookups take no lock; expansion and migration to the next level happen under one.
    The pool is the kernel's: [Pool] is the interface, [PoolLaws] its documented behaviour. *)

From S2P Require Import Prelude.

(** ** Kernel pool *)

Abbreviation words := (gmap Z (list Z)).

(** [ExAllocatePoolZero]: the address of a new block of that many bytes, or NULL. The answer may
    depend on the blocks in use and on the time of the call. *)
Class Pool := ExAllocatePoolZero : nat -> words -> Z -> option Z.

Class PoolLaws `{Pool} := {
  pool_fresh : forall t h n a, ExAllocatePoolZero t h n = Some a -> h !! a = None;
  pool_aligned : forall t h n a, ExAllocatePoolZero t h n = Some a -> a <> 0 /\ a mod 16 = 0;
}.

Module CidTable.

Definition PAGE_SIZE : Z := 0x1000.
(** Both an entry, which is one [KPH_ATOMIC_OBJECT_REF], and a pointer are one 64-bit word. *)
Definition sizeof_word : Z := 8.

Definition KPH_CID_TABLE_LEVEL_MASK : Z := 3.
Definition KPH_CID_TABLE_L0 : Z := 0.
Definition KPH_CID_TABLE_L1 : Z := 1.
Definition KPH_CID_TABLE_L2 : Z := 2.

Definition KPH_CID_LIMIT : Z := 0x1000000.
Definition KPH_CID_L0_COUNT : Z := Eval cbv in PAGE_SIZE / sizeof_word.
Definition KPH_CID_L1_COUNT : Z := Eval cbv in PAGE_SIZE / sizeof_word.
Definition KPH_CID_L2_COUNT : Z := Eval cbv in KPH_CID_LIMIT / (KPH_CID_L0_COUNT * KPH_CID_L1_COUNT).
Definition KPH_CID_MAX_L0 : Z := Eval cbv in KPH_CID_L0_COUNT.
Definition KPH_CID_MAX_L1 : Z := Eval cbv in KPH_CID_L1_COUNT * KPH_CID_L0_COUNT.
Definition KPH_CID_MAX_L2 : Z := Eval cbv in KPH_CID_L2_COUNT * KPH_CID_L1_COUNT * KPH_CID_L0_COUNT.
Definition KPH_CID_MAX : Z := KPH_CID_MAX_L2.

(** The static assertion of the source. *)
Example KPH_CID_MAX_LIMIT : KPH_CID_MAX = KPH_CID_LIMIT.
Proof. reflexivity. Qed.

Definition KphpCidToId (Cid : Z) : Z := Cid / 4.

(** [table & KPH_CID_TABLE_LEVEL_MASK] and [table & KPH_CID_TABLE_POINTER_MASK]. *)
Definition level_of (table : Z) : Z := Z.land table KPH_CID_TABLE_LEVEL_MASK.
Definition pointer_of (table : Z) : Z := Z.ldiff table KPH_CID_TABLE_LEVEL_MASK.

(** ** Memory *)

(** Blocks of words by address, the pointer counts of objects, and the time. *)
Record mem := { heap : words; counts : gmap Z Z; clock : nat }.

Definition set_heap (m : mem) (h : words) : mem :=
  {| heap := h; counts := counts m; clock := clock m |}.
Definition set_counts (m : mem) (c : gmap Z Z) : mem :=
  {| heap := heap m; counts := c; clock := clock m |}.

(** [base[i]], and [base[i] = w]. *)
Definition load (m : mem) (base i : Z) : ub Z := l ← heap m !! base; l !! Z.to_nat i.
Definition store (m : mem) (base i w : Z) : ub mem :=
  l ← heap m !! base;
  if decide (Z.to_nat i < length l)%nat then
    Some (set_heap m (<[base := <[Z.to_nat i := w]> l]> (heap m)))
  else None.

(** The address of an entry: its block and its index. *)
Abbreviation entry := (Z * Z)%type.

Section table.
Context `{Pool}.

Definition KphAllocateNPaged (m : mem) (NumberOfBytes : Z) : mem * Z :=
  let clock' := S (clock m) in
  match ExAllocatePoolZero (clock m) (heap m) NumberOfBytes with
  | Some a =>
      ({| heap := <[a := replicate (Z.to_nat (NumberOfBytes / sizeof_word)) 0]> (heap m);
          counts := counts m; clock := clock' |}, a)
  | None => ({| heap := heap m; counts := counts m; clock := clock' |}, 0)
  end.

(** Freeing what is not allocated is undefined. *)
Definition KphFree (m : mem) (a : Z) : ub mem :=
  _ ← heap m !! a; Some (set_heap m (delete a (heap m))).

Definition KphpCidAllocateTable (m : mem) (Level : Z) : mem * Z :=
  if Level =? KPH_CID_TABLE_L0 then KphAllocateNPaged m (KPH_CID_L0_COUNT * sizeof_word)
  else if Level =? KPH_CID_TABLE_L1 then KphAllocateNPaged m (KPH_CID_L1_COUNT * sizeof_word)
  else if Level =? KPH_CID_TABLE_L2 then KphAllocateNPaged m (KPH_CID_L2_COUNT * sizeof_word)
  else (m, 0).

Definition KphCidTableCreate (m : mem) : mem * Z * Z :=
  let '(m, Table) := KphpCidAllocateTable m KPH_CID_TABLE_L0 in
  (m, Table, if Table =? 0 then STATUS_INSUFFICIENT_RESOURCES else STATUS_SUCCESS).

(** ** Lookup *)

(** [None] inside is NULL. *)
Definition KphpCidLookupEntry (m : mem) (Cid table : Z) : ub (option entry) :=
  let id := KphpCidToId Cid in
  let level := level_of table in
  if level =? KPH_CID_TABLE_L0 then
    if KPH_CID_MAX_L0 <=? id then Some None
    else Some (Some (pointer_of table, id))
  else if level =? KPH_CID_TABLE_L1 then
    if KPH_CID_MAX_L1 <=? id then Some None
    else
      tableL0 ← load m (pointer_of table) (id / KPH_CID_MAX_L0);
      if tableL0 =? 0 then Some None
      else Some (Some (tableL0, id mod KPH_CID_MAX_L0))
  else if level =? KPH_CID_TABLE_L2 then
    if KPH_CID_MAX_L2 <=? id then Some None
    else
      tableL1 ← load m (pointer_of table) (id / KPH_CID_MAX_L1);
      if tableL1 =? 0 then Some None
      else
        tableL0 ← load m tableL1 ((id mod KPH_CID_MAX_L1) / KPH_CID_MAX_L0);
        if tableL0 =? 0 then Some None
        else Some (Some (tableL0, (id mod KPH_CID_MAX_L1) mod KPH_CID_MAX_L0))
  else Some None.

(** ** Expansion *)

(** [base[i] = KphpCidAllocateTable(Level)], and the pointer read back. *)
Definition allocate_into (m : mem) (base i Level : Z) : ub (mem * Z) :=
  let '(m, a) := KphpCidAllocateTable m Level in
  m ← store m base i a;
  p ← load m base i;
  Some (m, p).

(** The step from one level to the next: the old root becomes the first slot of the new one.
    NULL when the allocation fails. *)
Definition migrate (m : mem) (table Level : Z) : ub (mem * option Z) :=
  let '(m, a) := KphpCidAllocateTable m Level in
  if a =? 0 then Some (m, None)
  else
    m ← store m a 0 (pointer_of table);
    Some (m, Some (Z.lor a Level)).

(** A new block under a level 1 table. *)
Definition expand_level1 (m : mem) (tableL1 slot index : Z) : ub (mem * option entry) :=
  '(m, tableL0) ← allocate_into m tableL1 slot KPH_CID_TABLE_L0;
  Some (m, if tableL0 =? 0 then None else Some (tableL0, index)).

(** New blocks under a level 2 table. *)
Definition expand_level2 (m : mem) (table id : Z) : ub (mem * option entry) :=
  let tableL2 := pointer_of table in
  tableL1 ← load m tableL2 (id / KPH_CID_MAX_L1);
  '(m, tableL1) ←
    (if tableL1 =? 0 then allocate_into m tableL2 (id / KPH_CID_MAX_L1) KPH_CID_TABLE_L1
     else Some (m, tableL1));
  if tableL1 =? 0 then Some (m, None)
  else expand_level1 m tableL1 ((id mod KPH_CID_MAX_L1) / KPH_CID_MAX_L0)
         ((id mod KPH_CID_MAX_L1) mod KPH_CID_MAX_L0).

(** The memory, the root word and the entry; the caller holds no lock, the function takes and
    releases the table's. *)
Definition KphpCidExpandTableFor (m : mem) (Cid Table : Z) : ub (mem * Z * option entry) :=
  let id := KphpCidToId Cid in
  if KPH_CID_MAX <=? id then Some (m, Table, None)
  else
    found ← KphpCidLookupEntry m Cid Table;
    match found with
    | Some e => Some (m, Table, Some e)
    | None =>
        '(m, table) ←
          (if level_of Table =? KPH_CID_TABLE_L0 then migrate m Table KPH_CID_TABLE_L1
           else Some (m, Some Table));
        match table with
        | None => Some (m, Table, None)
        | Some table =>
            if (level_of table =? KPH_CID_TABLE_L1) && (id <? KPH_CID_MAX_L1) then
              '(m, e) ← expand_level1 m (pointer_of table) (id / KPH_CID_MAX_L0) (id mod KPH_CID_MAX_L0);
              Some (m, table, e)
            else
              '(m, table2) ←
                (if level_of table =? KPH_CID_TABLE_L1 then migrate m table KPH_CID_TABLE_L2
                 else Some (m, Some table));
              match table2 with
              | None => Some (m, table, None)
              | Some table2 => '(m, e) ← expand_level2 m table2 id; Some (m, table2, e)
              end
        end
    end.

Definition KphCidGetEntry (m : mem) (Cid Table : Z) : ub (mem * Z * option entry) :=
  entry ← KphpCidLookupEntry m Cid Table;
  match entry with
  | Some e => Some (m, Table, Some e)
  | None => KphpCidExpandTableFor m Cid Table
  end.

(** ** Object references

    The lock bits of a reference are taken and given back inside each operation, which is atomic
    here. *)
Definition KphReferenceObject (m : mem) (Object : Z) : mem :=
  set_counts m (alter (fun n => n + 1) Object (counts m)).

(** The object is deleted with its last reference. *)
Definition KphDereferenceObject (m : mem) (Object : Z) : mem :=
  match counts m !! Object with
  | Some n => if 0 <? n - 1 then set_counts m (<[Object := n - 1]> (counts m))
              else set_counts m (delete Object (counts m))
  | None => m
  end.

Definition KphAtomicReferenceObject (m : mem) (e : entry) : ub (mem * Z) :=
  object ← load m e.1 e.2;
  Some (if negb (object =? 0) then KphReferenceObject m object else m, object).

Definition KphAtomicMoveObjectReference (m : mem) (e : entry) (Object : Z) : ub (mem * Z) :=
  previous ← load m e.1 e.2;
  m ← store m e.1 e.2 Object;
  Some (m, previous).

Definition KphAtomicAssignObjectReference (m : mem) (e : entry) (Object : Z) : ub mem :=
  let m := if negb (Object =? 0) then KphReferenceObject m Object else m in
  '(m, previous) ← KphAtomicMoveObjectReference m e Object;
  Some (if negb (previous =? 0) then KphDereferenceObject m previous else m).

Definition KphCidAssignObject (m : mem) (Entry : entry) (Object : Z) : ub mem :=
  KphAtomicAssignObjectReference m Entry Object.
Definition KphCidReferenceObject (m : mem) (Entry : entry) : ub (mem * Z) :=
  KphAtomicReferenceObject m Entry.

(** ** Enumeration *)

(** A loop over indices that a TRUE ends. *)
Fixpoint for_each {A S : Type} (f : A -> S -> ub (S * bool)) (indices : list A) (s : S) : ub (S * bool) :=
  match indices with
  | [] => Some (s, false)
  | i :: indices => '(s, stop) ← f i s; if (stop : bool) then Some (s, true) else for_each f indices s
  end.

Definition upto (n : Z) : list Z := Z.of_nat <$> seq 0 (Z.to_nat n).

Section enumerate.
Context {St : Type}.

(** A callback, with a state of its own, is told an object; the rundown one answers nothing. *)
Inductive callback :=
  | Callback (f : Z -> St -> St * bool)
  | Rundown (f : Z -> St -> St).

Definition KphpCidEnumerateInvokeCallback (cb : callback) (Entry : entry) (s : mem * St)
    : ub (mem * St * bool) :=
  let '(m, st) := s in
  match cb with
  | Callback f =>
      '(m, object) ← KphAtomicReferenceObject m Entry;
      if negb (object =? 0) then
        let '(st, res) := f object st in Some (KphDereferenceObject m object, st, res)
      else Some (m, st, false)
  | Rundown f =>
      '(m, object) ← KphAtomicMoveObjectReference m Entry 0;
      if negb (object =? 0) then Some (KphDereferenceObject m object, f object st, false)
      else Some (m, st, false)
  end.

Definition enumerate_block (cb : callback) (tableL0 : Z) : mem * St -> ub (mem * St * bool) :=
  for_each (fun i => KphpCidEnumerateInvokeCallback cb (tableL0, i)) (upto KPH_CID_L0_COUNT).

(** A loop over the slots of a table that skips the NULL ones. *)
Definition enumerate_slots (table count : Z) (body : Z -> mem * St -> ub (mem * St * bool))
    : mem * St -> ub (mem * St * bool) :=
  for_each (fun i s => p ← load s.1 table i; if p =? 0 then Some (s, false) else body p s)
    (upto count).

Definition KphpCidEnumerate (cb : callback) (table : Z) (s : mem * St) : ub (mem * St) :=
  if table =? 0 then Some s
  else
    let level := level_of table in
    let p := pointer_of table in
    '(s, _) ←
      (if level =? KPH_CID_TABLE_L0 then enumerate_block cb p s
       else if level =? KPH_CID_TABLE_L1 then enumerate_slots p KPH_CID_L1_COUNT (enumerate_block cb) s
       else if level =? KPH_CID_TABLE_L2 then
         enumerate_slots p KPH_CID_L2_COUNT
           (fun tableL1 => enumerate_slots tableL1 KPH_CID_L1_COUNT (enumerate_block cb)) s
       else Some (s, false));
    Some s.

Definition KphCidEnumerate (f : Z -> St -> St * bool) (table : Z) (s : mem * St) : ub (mem * St) :=
  KphpCidEnumerate (Callback f) table s.
Definition KphCidRundown (f : Z -> St -> St) (table : Z) (s : mem * St) : ub (mem * St) :=
  KphpCidEnumerate (Rundown f) table s.

End enumerate.

(** ** Deletion *)

Definition free_slots (table count : Z) (body : mem -> Z -> ub mem) (m : mem) : ub mem :=
  '(m, _) ← for_each (fun i m =>
      p ← load m table i;
      if p =? 0 then Some (m, false) else m ← body m p; Some (m, false)) (upto count) m;
  KphFree m table.

Definition KphCidTableDelete (m : mem) (Table : Z) : ub mem :=
  if Table =? 0 then Some m
  else
    let level := level_of Table in
    let p := pointer_of Table in
    if level =? KPH_CID_TABLE_L0 then KphFree m p
    else if level =? KPH_CID_TABLE_L1 then free_slots p KPH_CID_L1_COUNT KphFree m
    else if level =? KPH_CID_TABLE_L2 then
      free_slots p KPH_CID_L2_COUNT (fun m tableL1 => free_slots tableL1 KPH_CID_L1_COUNT KphFree m) m
    else Some m.

End table.
Arguments callback : clear implicits.

(** ** The root word *)

Lemma root_word a l :
  a mod 16 = 0 -> 0 <= l <= 3 -> level_of (Z.lor a l) = l /\ pointer_of (Z.lor a l) = a.
Proof.
  intros Ha Hl.
  assert (Hd : Z.land a 3 = 0).
  { change 3 with (Z.ones 2). rewrite Z.land_ones by lia. change (2 ^ 2) with 4.
    rewrite (Z.div_mod a 16), Ha by lia. rewrite Z.add_0_r.
    replace (16 * (a / 16)) with ((4 * (a / 16)) * 4) by lia. by apply Z.mod_mul. }
  assert (Hl3 : Z.land l 3 = l).
  { change 3 with (Z.ones 2). rewrite Z.land_ones by lia. apply Z.mod_small. change (2 ^ 2) with 4. lia. }
  unfold level_of, pointer_of, KPH_CID_TABLE_LEVEL_MASK. split.
  - by rewrite Z.land_lor_distr_l, Hd, Hl3.
  - apply Z.bits_inj'. intros n Hn. rewrite Z.ldiff_spec, Z.lor_spec.
    apply (f_equal (fun z => Z.testbit z n)) in Hd, Hl3. rewrite Z.land_spec in Hd, Hl3.
    rewrite Z.bits_0 in Hd. destruct (Z.testbit a n), (Z.testbit l n), (Z.testbit 3 n); simpl in *; congruence.
Qed.

Lemma root_word_0 a : a mod 16 = 0 -> level_of a = 0 /\ pointer_of a = a.
Proof. intros Ha. destruct (root_word a 0) as [? ?]; [done|lia|]. by rewrite Z.lor_0_r in *. Qed.

(** ** Roles

    Every block the table owns has one role for its whole life: the table of tables, the [j]th
    table of blocks, or the block of the entries from [512 * i]. A migration gives a new block the
    next role up and changes no other, so entries never move. *)
Inductive role := Top | Mid (j : Z) | Leaf (i : Z).
#[global] Instance role_eq_dec : EqDecision role.
Proof. solve_decision. Defined.

Definition role_size (r : role) : Z :=
  match r with Top => KPH_CID_L2_COUNT | Mid _ => KPH_CID_L1_COUNT | Leaf _ => KPH_CID_L0_COUNT end.

Ltac sizes := cbv [role_size KPH_CID_L0_COUNT KPH_CID_L1_COUNT KPH_CID_L2_COUNT] in *; lia.

(** The level whose root has the role. *)
Definition role_level (r : role) : option Z :=
  match r with
  | Top => Some KPH_CID_TABLE_L2
  | Mid 0 => Some KPH_CID_TABLE_L1
  | Leaf 0 => Some KPH_CID_TABLE_L0
  | _ => None
  end.

(** The role of the block in slot [k]. *)
Definition child_role (r : role) (k : Z) : role :=
  match r with Top => Mid k | Mid j => Leaf (KPH_CID_L1_COUNT * j + k) | Leaf i => Leaf i end.

Definition word (m : mem) (a k : Z) : Z := default 0 (load m a k).

(** What a root word leads to: the [j]th table of blocks, the [i]th block, or NULL. *)
Definition mid (m : mem) (table j : Z) : Z :=
  if level_of table =? KPH_CID_TABLE_L1 then if j =? 0 then pointer_of table else 0
  else if level_of table =? KPH_CID_TABLE_L2 then word m (pointer_of table) j
  else 0.
Definition leaf (m : mem) (table i : Z) : Z :=
  if level_of table =? KPH_CID_TABLE_L0 then if i =? 0 then pointer_of table else 0
  else
    let t := mid m table (i / KPH_CID_L1_COUNT) in
    if t =? 0 then 0 else word m t (i mod KPH_CID_L1_COUNT).

(** Blocks have the size of their role, and slots lead to blocks of the right role. *)
Record sound (m : mem) (roles : gmap Z role) : Prop := {
  sound_block : forall a r, roles !! a = Some r ->
    exists l, heap m !! a = Some l /\ Z.of_nat (length l) = role_size r;
  sound_addr : forall a r, roles !! a = Some r -> a <> 0 /\ a mod 16 = 0;
  sound_slot : forall a r k, roles !! a = Some r -> (forall i, r <> Leaf i) ->
    0 <= k < role_size r -> word m a k <> 0 -> roles !! word m a k = Some (child_role r k);
}.

Definition valid_root (roles : gmap Z role) (table : Z) : Prop :=
  exists r, roles !! pointer_of table = Some r /\ role_level r = Some (level_of table).

(** The root leads to every block. *)
Record complete (m : mem) (roles : gmap Z role) (table : Z) : Prop := {
  complete_leaf : forall a i, roles !! a = Some (Leaf i) -> 0 <= i < 32768 /\ leaf m table i = a;
  complete_mid : forall a j, roles !! a = Some (Mid j) -> 0 <= j < 64 /\ mid m table j = a;
  complete_top : forall a, roles !! a = Some Top ->
    level_of table = KPH_CID_TABLE_L2 /\ pointer_of table = a;
}.

Record cid_inv_for (m : mem) (roles : gmap Z role) (table : Z) : Prop := {
  inv_sound : sound m roles;
  inv_root : valid_root roles table;
  inv_complete : complete m roles table;
}.

Lemma load_in m roles a r k :
  sound m roles -> roles !! a = Some r -> 0 <= k < role_size r -> load m a k = Some (word m a k).
Proof.
  intros Hs Ha Hk. destruct (sound_block m roles Hs a r Ha) as (l & Hl & Hlen).
  unfold word, load. rewrite Hl. cbn [mbind option_bind].
  destruct (lookup_lt_is_Some_2 l (Z.to_nat k)) as [w ->]; [lia|done].
Qed.

Lemma valid_root_cases m roles table :
  sound m roles -> valid_root roles table ->
  level_of table = 0 /\ roles !! pointer_of table = Some (Leaf 0) \/
  level_of table = 1 /\ roles !! pointer_of table = Some (Mid 0) \/
  level_of table = 2 /\ roles !! pointer_of table = Some Top.
Proof.
  intros Hs (r & Hr & Hl). destruct r as [|[]|[]]; simpl in Hl; simplify_eq; rewrite <- Hl; auto.
Qed.

(** The two ways of splitting an id. *)
Lemma id_split id :
  id / 512 / 512 = id / 262144 /\ id mod 262144 / 512 = (id / 512) mod 512 /\
  (id mod 262144) mod 512 = id mod 512.
Proof.
  split; [by rewrite Z.div_div|]. change 262144 with (512 * 512).
  rewrite Z.rem_mul_r, (Z.mul_comm 512 ((id / 512) mod 512)) by done. split.
  - rewrite Z_div_plus_full by done.
    rewrite (Z.div_small (id mod 512)) by (apply Z.mod_pos_bound; done). done.
  - by rewrite Z_mod_plus_full, Z.mod_mod.
Qed.

Section lookup.
Context (m : mem) (roles : gmap Z role) (table : Z) (Hs : sound m roles) (Hv : valid_root roles table).

Lemma mid_role j : 0 <= j < 64 -> mid m table j <> 0 -> roles !! mid m table j = Some (Mid j).
Proof.
  intros Hj. unfold mid.
  destruct (valid_root_cases m roles table Hs Hv) as [[Hl Hp]|[[Hl Hp]|[Hl Hp]]]; rewrite Hl; simpl; [done| |].
  - destruct (Z.eqb_spec j 0) as [->|]; [by rewrite Hp|done].
  - intros Hw. by apply (sound_slot m roles Hs _ Top j Hp).
Qed.

Lemma leaf_role i : 0 <= i < 32768 -> leaf m table i <> 0 -> roles !! leaf m table i = Some (Leaf i).
Proof.
  intros Hi. unfold leaf. pose proof (Z.div_mod i 512 ltac:(done)) as Hdm.
  pose proof (Z.mod_pos_bound i 512 ltac:(done)).
  destruct (Z.eqb_spec (level_of table) KPH_CID_TABLE_L0) as [Hl|Hl].
  - destruct (valid_root_cases m roles table Hs Hv) as [[_ Hp]|[[Hl' _]|[Hl' _]]]; try (by rewrite Hl in Hl').
    destruct (Z.eqb_spec i 0) as [->|]; [by rewrite Hp|done].
  - cbv zeta. destruct (Z.eqb_spec (mid m table (i / KPH_CID_L1_COUNT)) 0) as [|Hm]; [done|].
    pose proof (mid_role (i / 512) ltac:(lia) Hm) as Hr. intros Hw.
    rewrite (sound_slot m roles Hs _ _ _ Hr) by (done || sizes). simpl. do 2 f_equal. unfold KPH_CID_L1_COUNT. lia.
Qed.

(** A lookup never leaves a block, and finds what the root leads to. *)
Lemma lookup_leaf Cid :
  0 <= Cid ->
  KphpCidLookupEntry m Cid table =
    Some (let id := KphpCidToId Cid in
          if KPH_CID_MAX <=? id then None
          else let a := leaf m table (id / KPH_CID_L0_COUNT) in
               if a =? 0 then None else Some (a, id mod KPH_CID_L0_COUNT)).
Proof.
  intros HCid. unfold KphpCidLookupEntry. cbv zeta.
  assert (Hid : 0 <= KphpCidToId Cid) by (unfold KphpCidToId; apply Z.div_pos; lia).
  generalize dependent (KphpCidToId Cid). intros id Hid.
  destruct (id_split id) as (Hd & Hm1 & Hm2).
  pose proof (Z.mod_pos_bound (id / 512) 512 ltac:(done)).
  unfold leaf, mid, KPH_CID_MAX, KPH_CID_MAX_L0, KPH_CID_MAX_L1, KPH_CID_MAX_L2, KPH_CID_L0_COUNT,
    KPH_CID_L1_COUNT in *.
  destruct (valid_root_cases m roles table Hs Hv) as [[Hl Hp]|[[Hl Hp]|[Hl Hp]]]; rewrite Hl; simpl.
  - destruct (Z.leb_spec 512 id) as [Hbig|Hsmall].
    + destruct (16777216 <=? id); [done|].
      replace (id / 512 =? 0) with false; [done|]. symmetry. apply Z.eqb_neq.
      pose proof (Z.div_le_mono 512 id 512 ltac:(done) Hbig). change (512 / 512) with 1 in *. lia.
    + replace (16777216 <=? id) with false by lia. rewrite (Z.div_small id), (Z.mod_small id) by lia. simpl.
      destruct (sound_addr m roles Hs _ _ Hp) as [Hne _].
      by rewrite (proj2 (Z.eqb_neq (pointer_of table) 0)).
  - destruct (Z.leb_spec 262144 id) as [Hbig|Hsmall].
    + destruct (16777216 <=? id); [done|]. rewrite Hd.
      replace (id / 262144 =? 0) with false; [done|]. symmetry. apply Z.eqb_neq.
      pose proof (Z.div_le_mono 262144 id 262144 ltac:(done) Hbig). change (262144 / 262144) with 1 in *. lia.
    + replace (16777216 <=? id) with false by lia. rewrite Hd, (Z.div_small id 262144) by lia. simpl.
      destruct (sound_addr m roles Hs _ _ Hp) as [Hne _].
      rewrite (proj2 (Z.eqb_neq (pointer_of table) 0)) by done.
      assert (id / 512 < 512) by (apply Z.div_lt_upper_bound; lia).
      assert (0 <= id / 512) by (apply Z.div_pos; lia).
      rewrite (load_in m roles _ _ _ Hs Hp) by sizes. simpl.
      rewrite (Z.mod_small (id / 512)) by lia.
      by destruct (word m (pointer_of table) (id / 512) =? 0).
  - destruct (Z.leb_spec 16777216 id) as [Hbig|Hsmall]; [done|].
    rewrite Hd, Hm1, Hm2. assert (0 <= id / 262144 < 64).
    { split; [apply Z.div_pos; lia|apply Z.div_lt_upper_bound; lia]. }
    rewrite (load_in m roles _ _ _ Hs Hp) by sizes. simpl.
    destruct (Z.eqb_spec (word m (pointer_of table) (id / 262144)) 0) as [|Hw]; [done|].
    pose proof (sound_slot m roles Hs _ Top (id / 262144) Hp ltac:(done) ltac:(sizes) Hw) as Hr. simpl in Hr.
    rewrite (load_in m roles _ _ _ Hs Hr) by sizes. simpl.
    by destruct (word m _ _ =? 0).
Qed.

End lookup.

(** ** Growth *)

(** [m'] is [m] with word [k] of block [p] set to [w] and a new zero block [a]; nothing else. *)
Definition grown (m m' : mem) (a : Z) (p k w : Z) : Prop :=
  (forall b j, 0 <= j -> word m' b j =
    if decide (b = p /\ j = k) then w else if decide (b = a) then 0 else word m b j).

Lemma sound_grow m m' roles a r p k w rp :
  sound m roles -> roles !! a = None -> a <> 0 -> a mod 16 = 0 -> 0 <= k ->
  (forall b r', <[a := r]> roles !! b = Some r' ->
    exists l, heap m' !! b = Some l /\ Z.of_nat (length l) = role_size r') ->
  grown m m' a p k w ->
  <[a := r]> roles !! p = Some rp -> <[a := r]> roles !! w = Some (child_role rp k) ->
  sound m' (<[a := r]> roles).
Proof.
  intros Hs Hfresh Ha Hal Hk Hblocks Hg Hp Hw. split; [exact Hblocks| |].
  - intros b r' [[<- _]|[_ Hb]]%lookup_insert_Some; [done|by apply (sound_addr m roles Hs b r')].
  - intros b r' j Hb Hl Hj. rewrite (Hg b j) by lia. case_decide as Hbj.
    { destruct Hbj as [-> ->]. by simplify_eq. }
    apply lookup_insert_Some in Hb as [[<- _]|[Hne Hb]]; [by rewrite decide_True|].
    rewrite decide_False by done. intros Hnz.
    pose proof (sound_slot m roles Hs b r' j Hb Hl Hj Hnz) as Hr.
    rewrite lookup_insert_ne; [done|]. intros ->. congruence.
Qed.

(** What one call may do to the blocks and their roles: add zero blocks, of which at most the one
    of the entries from [512 * i] holds entries. *)
Record grows (m : mem) (roles : gmap Z role) (m' : mem) (roles' : gmap Z role) (i : Z) : Prop := {
  grows_roles : roles ⊆ roles';
  grows_old : forall a j, roles !! a = Some (Leaf j) -> heap m' !! a = heap m !! a;
  grows_new : forall a j, roles' !! a = Some (Leaf j) -> roles !! a = None ->
    j = i /\ heap m' !! a = Some (replicate (Z.to_nat KPH_CID_L0_COUNT) 0);
  grows_counts : counts m' = counts m;
}.

Lemma grows_refl m m' roles i :
  heap m' = heap m -> counts m' = counts m -> grows m roles m' roles i.
Proof. intros Hh Hc. split; [done|by rewrite Hh| |done]. intros. congruence. Qed.

Lemma grows_trans m1 r1 m2 r2 m3 r3 i : grows m1 r1 m2 r2 i -> grows m2 r2 m3 r3 i -> grows m1 r1 m3 r3 i.
Proof.
  intros [Hr1 Ho1 Hn1 Hc1] [Hr2 Ho2 Hn2 Hc2]. split.
  - by etrans.
  - intros a j Ha. rewrite (Ho2 a j); [by eapply Ho1|by eapply lookup_weaken].
  - intros a j Ha3 Ha1. destruct (r2 !! a) as [r|] eqn:Ha2.
    + assert (r = Leaf j) as -> by (eapply lookup_weaken in Ha2; [|exact Hr2]; congruence).
      destruct (Hn1 a j Ha2 Ha1) as [-> Hz]. split; [done|]. by rewrite (Ho2 a i).
    + by apply Hn2.
  - congruence.
Qed.

Section grow.
Context `{PoolLaws}.

Lemma allocate_spec m Level r :
  role_level r = Some Level \/ (exists i, r = Leaf i /\ Level = 0) \/ (exists j, r = Mid j /\ Level = 1) ->
  exists m' a, KphpCidAllocateTable m Level = (m', a) /\ counts m' = counts m /\
    (a = 0 /\ heap m' = heap m /\ ExAllocatePoolZero (clock m) (heap m) (role_size r * sizeof_word) = None \/
     a <> 0 /\ a mod 16 = 0 /\ heap m !! a = None /\
     heap m' = <[a := replicate (Z.to_nat (role_size r)) 0]> (heap m)).
Proof.
  intros Hr. assert (E : KphpCidAllocateTable m Level = KphAllocateNPaged m (role_size r * sizeof_word)).
  { destruct Hr as [Hr|[(i & -> & ->)|(j & -> & ->)]]; [|done|done].
    destruct r as [|[]|[]]; simpl in Hr; by simplify_eq. }
  rewrite E. unfold KphAllocateNPaged.
  destruct (ExAllocatePoolZero _ _ _) as [a|] eqn:Hp; (eexists _, _; split; [reflexivity|]).
  - split; [done|]. right. destruct (pool_aligned _ _ _ _ Hp). split; [done|]. split; [done|].
    split; [by eapply pool_fresh|]. simpl. by rewrite Z.div_mul.
  - split; [done|]. by left.
Qed.

Lemma store_spec m p k w l :
  heap m !! p = Some l -> 0 <= k < Z.of_nat (length l) ->
  exists m', store m p k w = Some m' /\ counts m' = counts m /\
    heap m' = <[p := <[Z.to_nat k := w]> l]> (heap m) /\
    forall b j, 0 <= j -> word m' b j = if decide (b = p /\ j = k) then w else word m b j.
Proof.
  intros Hl Hk. unfold store. rewrite Hl. cbn [mbind option_bind]. rewrite decide_True by lia.
  eexists. split; [reflexivity|]. split; [done|]. split; [done|]. intros b j Hj.
  unfold word, load. simpl. destruct (decide (b = p)) as [->|Hb].
  - rewrite lookup_insert_eq, Hl. cbn [mbind option_bind]. case_decide as Hjk.
    + destruct Hjk as [_ ->]. rewrite list_lookup_insert_eq by lia. done.
    + rewrite list_lookup_insert_ne by (intros E; apply Hjk; split; [done|lia]). done.
  - rewrite lookup_insert_ne by done. rewrite decide_False by tauto. done.
Qed.

Lemma word_new m m' a n b j :
  heap m !! a = None -> heap m' = <[a := replicate n 0]> (heap m) ->
  word m' b j = if decide (b = a) then 0 else word m b j.
Proof.
  intros Hn Hh. unfold word, load. rewrite Hh. case_decide as Hb.
  - subst b. rewrite lookup_insert_eq. cbn [mbind option_bind].
    destruct (replicate n 0 !! Z.to_nat j) as [z|] eqn:Hz; [|done].
    by apply lookup_replicate in Hz as [-> _].
  - by rewrite lookup_insert_ne.
Qed.

(** A block allocated and linked from slot [k] of [p]; for a migration the new block is [p]. *)
Lemma grow_spec m m1 roles a r p k w rp :
  sound m roles -> a <> 0 -> a mod 16 = 0 -> heap m !! a = None ->
  heap m1 = <[a := replicate (Z.to_nat (role_size r)) 0]> (heap m) ->
  <[a := r]> roles !! p = Some rp -> 0 <= k < role_size rp -> (forall i, rp <> Leaf i) ->
  <[a := r]> roles !! w = Some (child_role rp k) ->
  exists m2, store m1 p k w = Some m2 /\ counts m2 = counts m1 /\ load m2 p k = Some w /\
    sound m2 (<[a := r]> roles) /\ grown m m2 a p k w /\ roles !! a = None /\
    (forall i, (forall j, r = Leaf j -> j = i) -> counts m1 = counts m -> grows m roles m2 (<[a := r]> roles) i).
Proof.
  intros Hs Ha Hal Hn Hh Hp Hk Hrp Hw.
  assert (Hfresh : roles !! a = None).
  { destruct (roles !! a) as [r'|] eqn:E; [|done].
    destruct (sound_block m roles Hs a r' E) as (l & Hl & _). congruence. }
  assert (Hb1 : forall b r', <[a := r]> roles !! b = Some r' ->
    exists l, heap m1 !! b = Some l /\ Z.of_nat (length l) = role_size r').
  { intros b r' [[<- <-]|[Hne Hb]]%lookup_insert_Some; rewrite Hh.
    - rewrite lookup_insert_eq. eexists. split; [reflexivity|]. rewrite length_replicate.
      destruct r; simpl; sizes.
    - rewrite lookup_insert_ne by done. by apply (sound_block m roles Hs). }
  destruct (Hb1 p rp Hp) as (l & Hl & Hlen).
  destruct (store_spec m1 p k w l Hl ltac:(lia)) as (m2 & Hst & Hc & Hh2 & Hw2).
  assert (Hg : grown m m2 a p k w).
  { intros b j Hj. rewrite Hw2 by done. case_decide; [done|]. by rewrite (word_new m m1 a _ b j Hn Hh). }
  exists m2. split; [done|]. split; [done|].
  split; [|split; [|split; [done|split; [done|]]]].
  - unfold load. rewrite Hh2, lookup_insert_eq. cbn [mbind option_bind].
    apply list_lookup_insert_eq. lia.
  - apply (sound_grow m m2 roles a r p k w rp); try done; [lia|].
    intros b r' Hb. rewrite Hh2. destruct (decide (b = p)) as [->|Hne].
    + rewrite lookup_insert_eq. eexists. split; [reflexivity|]. rewrite length_insert.
      assert (r' = rp) as -> by congruence. done.
    + rewrite lookup_insert_ne by done. by apply Hb1.
  - intros i Hi Hcm. split.
    + by apply insert_subseteq.
    + intros b j Hb. rewrite Hh2, lookup_insert_ne.
      * rewrite Hh. apply lookup_insert_ne. intros ->. congruence.
      * intros ->. assert (b <> a) by (intros ->; congruence).
        rewrite lookup_insert_ne in Hp by done. rewrite Hp in Hb. injection Hb as ->. by apply (Hrp j).
    + intros b j [[<- ->]|[_ Hb]]%lookup_insert_Some Hnb; [|congruence]. split; [by apply Hi|].
      rewrite Hh2, lookup_insert_ne.
      * by rewrite Hh, lookup_insert_eq.
      * intros ->. rewrite lookup_insert_eq in Hp. injection Hp as <-. by apply (Hrp j).
    + congruence.
Qed.

Lemma valid_root_mono (roles roles' : gmap Z role) table :
  roles ⊆ roles' -> valid_root roles table -> valid_root roles' table.
Proof. intros Hsub (r & Hr & Hl). exists r. split; [by eapply lookup_weaken|done]. Qed.

(** Migration: the new root leads where the old one did. *)
Lemma migrate_spec m roles table Level r i :
  cid_inv_for m roles table -> 0 < Level -> Level <= 2 -> role_level r = Some Level ->
  Level = level_of table + 1 ->
  exists m' table', migrate m table Level = Some (m', table') /\
    match table' with
    | None => heap m' = heap m /\ counts m' = counts m /\ (exists t h n, ExAllocatePoolZero t h n = None)
    | Some table' => exists roles', cid_inv_for m' roles' table' /\ grows m roles m' roles' i /\
        level_of table' = Level /\ (forall j, leaf m' table' j = leaf m table j \/ ~ 0 <= j < 32768)
    end.
Proof.
  intros [Hs Hv Hcomp] Hl0 Hl2 Hr Hlev. unfold migrate.
  destruct (allocate_spec m Level r) as (m1 & a & -> & Hc1 & Hcase); [by left|].
  destruct Hcase as [(-> & Hh & Hnone)|(Ha & Hal & Hn & Hh)].
  { exists m1, None. split; [done|]. split; [done|]. split; [done|]. eauto. }
  destruct (Z.eqb_spec a 0) as [|_]; [done|].
  destruct Hv as (r0 & Hr0 & Hrl0).
  assert (Hpa : pointer_of table <> a).
  { intros <-. destruct (sound_block m roles Hs _ _ Hr0) as (l & Hl & _). congruence. }
  assert (Hchild : child_role r 0 = r0 /\ forall j, r <> Leaf j).
  { assert (Level = 1 \/ Level = 2) as [-> | ->] by lia;
      destruct r as [|[]|[]]; simpl in Hr; simplify_eq;
      destruct r0 as [|[]|[]]; simpl in Hrl0; try done; injection Hrl0 as Hrl0; rewrite <- Hrl0 in Hlev;
      try (by vm_compute in Hlev); done. }
  destruct Hchild as [Hchild Hnl].
  destruct (grow_spec m m1 roles a r a 0 (pointer_of table) r) as
    (m2 & Hst & Hc2 & _ & Hs2 & Hg & Hfresh & Hgrows); try done.
  { by rewrite lookup_insert_eq. }
  { destruct r; simpl; sizes. }
  { by rewrite lookup_insert_ne, Hchild. }
  rewrite Hst. cbn [mbind option_bind]. exists m2, (Some (Z.lor a Level)). split; [done|].
  exists (<[a := r]> roles).
  destruct (root_word a Level Hal ltac:(lia)) as [Hlv Hpt].
  assert (Hleaf : forall j, leaf m2 (Z.lor a Level) j = leaf m table j \/ ~ 0 <= j < 32768).
  { intros j. destruct (decide (0 <= j < 32768)) as [Hj|]; [left|by right].
    pose proof (Z.mod_pos_bound j 512 ltac:(done)). pose proof (Z.div_mod j 512 ltac:(done)).
    unfold leaf, mid. rewrite Hlv, Hpt. unfold KPH_CID_L1_COUNT in *.
    assert (Level = 1 \/ Level = 2) as [HL|HL] by lia; rewrite HL in *; simpl.
    - replace (level_of table) with 0 by lia. simpl.
      destruct (Z.eqb_spec (j / 512) 0) as [Hz|Hz]; simpl.
      + rewrite (proj2 (Z.eqb_neq a 0)), (Hg a) by (done || lia). rewrite (decide_True (P := a = a)) by done.
        destruct (Z.eqb_spec j 0) as [->|]; [by rewrite decide_True|rewrite decide_False; [done|lia]].
      + destruct (Z.eqb_spec j 0) as [->|]; done.
    - replace (level_of table) with 1 by lia. simpl. rewrite (Hg a) by lia.
      rewrite (decide_True (P := a = a)) by done.
      destruct (Z.eqb_spec (j / 512) 0) as [Hz|Hz]; simpl.
      + rewrite decide_True by done. destruct (Z.eqb_spec (pointer_of table) 0); [done|].
        rewrite Hg by lia. rewrite !decide_False; [done|done|by intros []].
      + by rewrite decide_False by (by intros []). }
  split; [|split; [|split; [done|done]]].
  - split; [done| |].
    + exists r. rewrite Hpt, lookup_insert_eq, Hlv. done.
    + destruct Hcomp as [Hcl Hcm Hct]. split.
      * intros b j [[<- ->]|[_ Hb]]%lookup_insert_Some; [by destruct (Hnl j)|].
        destruct (Hcl b j Hb) as [Hj Hlf]. split; [done|].
        destruct (Hleaf j) as [->|]; [done|contradiction].
      * intros b j [[<- ->]|[_ Hb]]%lookup_insert_Some.
        { assert (j = 0 /\ Level = 1) as [-> ->] by (destruct j; simpl in Hr; by simplify_eq).
          split; [lia|]. unfold mid. by rewrite Hlv, Hpt. }
        destruct (Hcm b j Hb) as [Hj Hmd]. split; [done|].
        destruct (sound_addr m roles Hs b _ Hb) as [Hb0 _].
        unfold mid in Hmd |- *. rewrite Hlv, Hpt.
        assert (level_of table = 1 /\ Level = 2) as [Hl1 ->].
        { assert (Level = 1 \/ Level = 2) as [HL|HL] by lia; [|lia].
          replace (level_of table) with 0 in Hmd by lia. simpl in Hmd. by destruct Hb0. }
        rewrite Hl1 in Hmd. simpl in *. destruct (Z.eqb_spec j 0) as [->|]; [|by destruct Hb0].
        rewrite (Hg a) by lia. by rewrite decide_True.
      * intros b [[<- ->]|[_ Hb]]%lookup_insert_Some; [rewrite Hlv, Hpt; simpl in Hr; by simplify_eq|].
        destruct (Hct b Hb) as [Ht _]. unfold KPH_CID_TABLE_L2 in Ht. lia.
  - apply Hgrows; [|done]. intros j ->. by destruct (Hnl j).
Qed.

Lemma inv_same_heap m m' roles table :
  heap m' = heap m -> cid_inv_for m roles table -> cid_inv_for m' roles table.
Proof.
  intros Heq [[Hsb Hsa Hss] Hv [Hcl Hcm Hct]].
  assert (Hword : forall b i, word m' b i = word m b i) by (intros; unfold word, load; by rewrite Heq).
  assert (Hmid : forall i, mid m' table i = mid m table i) by (intros; unfold mid; by rewrite Hword).
  assert (Hleaf : forall i, leaf m' table i = leaf m table i)
    by (intros; unfold leaf; by rewrite Hmid, Hword).
  split; [|done|].
  - split; [by setoid_rewrite Heq|done|]. intros b r i. rewrite Hword. apply Hss.
  - split; [|by setoid_rewrite Hmid|done]. intros b i. rewrite Hleaf. apply Hcl.
Qed.

(** A failed allocation stores NULL over NULL. *)
Lemma allocate_into_spec m roles table p rp k Level r :
  cid_inv_for m roles table -> roles !! p = Some rp -> (forall i, rp <> Leaf i) ->
  0 <= k < role_size rp -> word m p k = 0 -> child_role rp k = r ->
  (exists i, r = Leaf i /\ Level = 0) \/ (exists j, r = Mid j /\ Level = 1) ->
  exists m' a, allocate_into m p k Level = Some (m', a) /\
    (a = 0 /\ heap m' = heap m /\ counts m' = counts m /\ (exists t h n, ExAllocatePoolZero t h n = None) \/
     a <> 0 /\ roles !! a = None /\ sound m' (<[a := r]> roles) /\ grown m m' a p k a /\
     (forall i, (forall j, r = Leaf j -> j = i) -> grows m roles m' (<[a := r]> roles) i)).
Proof.
  intros [Hs Hv Hcomp] Hp Hrp Hk Hz Hr Hlev. unfold allocate_into.
  destruct (allocate_spec m Level r) as (m1 & a & -> & Hc1 & Hcase); [tauto|].
  destruct Hcase as [(-> & Hh & Hnone)|(Ha & Hal & Hn & Hh)].
  - destruct (sound_block m roles Hs p _ Hp) as (l & Hl & Hlen).
    destruct (store_spec m1 p k 0 l) as (m2 & -> & Hc2 & Hh2 & Hw2); [by rewrite Hh|by rewrite Hlen|].
    assert (Hld : load m2 p k = Some 0).
    { unfold load. rewrite Hh2, lookup_insert_eq. cbn [mbind option_bind].
      apply list_lookup_insert_eq. lia. }
    cbn [mbind option_bind]. rewrite Hld. eexists _, _. split; [reflexivity|]. left.
    split; [done|]. split; [|split; [congruence|eauto]].
    rewrite Hh2, Hh. apply insert_id. rewrite Hl. f_equal. symmetry. apply list_insert_id.
    unfold word, load in Hz. rewrite Hl in Hz. cbn [mbind option_bind] in Hz.
    destruct (lookup_lt_is_Some_2 l (Z.to_nat k)) as [w Hw]; [lia|]. rewrite Hw in Hz |- *.
    simpl in Hz. by subst.
  - destruct (grow_spec m m1 roles a r p k a rp) as
      (m2 & -> & Hc2 & Hld & Hs2 & Hg & Hfresh & Hgrows); try done.
    { rewrite lookup_insert_ne; [done|]. intros <-.
      destruct (sound_block m roles Hs _ _ Hp) as (l & Hl & _). congruence. }
    { by rewrite lookup_insert_eq, Hr. }
    cbn [mbind option_bind]. rewrite Hld. eexists _, _. split; [reflexivity|]. right.
    repeat (split; [done|]). intros i Hi. by apply Hgrows.
Qed.

(** A new block of entries in slot [k] of the [j]th table of blocks. *)
Lemma expand_level1_spec m roles table p j k index :
  cid_inv_for m roles table -> roles !! p = Some (Mid j) -> 0 <= k < 512 -> word m p k = 0 ->
  exists m' e, expand_level1 m p k index = Some (m', e) /\
    exists roles', cid_inv_for m' roles' table /\ grows m roles m' roles' (512 * j + k) /\
    match e with
    | None => exists t h n, ExAllocatePoolZero t h n = None
    | Some e => roles' !! e.1 = Some (Leaf (512 * j + k)) /\ e.2 = index
    end.
Proof.
  intros Hinv Hp Hk Hz. unfold expand_level1.
  destruct (allocate_into_spec m roles table p (Mid j) k KPH_CID_TABLE_L0 (Leaf (512 * j + k))) as
    (m2 & a & -> & Hcase); try done; [left; eauto|].
  cbn [mbind option_bind].
  destruct Hcase as [(-> & Hh & Hc & Hnone)|(Ha & Hfresh & Hs2 & Hg & Hgrows)].
  { exists m2, None. split; [done|]. exists roles. split; [by apply inv_same_heap with m|].
    split; [by apply grows_refl|done]. }
  destruct (Z.eqb_spec a 0) as [|_]; [done|].
  eexists m2, (Some (a, index)). split; [reflexivity|]. exists (<[a := Leaf (512 * j + k)]> roles).
  split; [|split; [apply Hgrows; by intros ? [= <-]|by rewrite lookup_insert_eq]].
  destruct Hinv as [Hs Hv Hcomp]. destruct (complete_mid m roles table Hcomp p j Hp) as [Hj Hmid].
  destruct (sound_addr m roles Hs p _ Hp) as [Hp0 _].
  assert (Hpa : p <> a) by (intros ->; congruence).
  assert (Hmid2 : forall i, 0 <= i < 64 -> mid m2 table i = mid m table i).
  { intros i Hi. unfold mid. destruct (level_of table =? KPH_CID_TABLE_L1); [done|].
    destruct (Z.eqb_spec (level_of table) KPH_CID_TABLE_L2) as [Hl|]; [|done].
    destruct (valid_root_cases m roles table Hs Hv) as [[Hl' _]|[[Hl' _]|[_ Hroot]]];
      try (by rewrite Hl in Hl').
    rewrite Hg by lia. rewrite !decide_False; [done|intros E|intros [E _]]; rewrite E in Hroot; congruence. }
  assert (Hleaf2 : forall i, 0 <= i < 32768 -> leaf m2 table i =
    if decide (i = 512 * j + k) then a else leaf m table i).
  { intros i Hi. unfold leaf. cbv zeta. change KPH_CID_L1_COUNT with 512.
    pose proof (Z.mod_pos_bound i 512 ltac:(done)). pose proof (Z.div_mod i 512 ltac:(done)).
    destruct (Z.eqb_spec (level_of table) KPH_CID_TABLE_L0) as [Hl|Hl].
    { exfalso. unfold mid in Hmid. rewrite Hl in Hmid. simpl in Hmid. by apply Hp0. }
    rewrite Hmid2 by lia.
    destruct (Z.eqb_spec (mid m table (i / 512)) 0) as [Hm0|Hm0].
    { rewrite decide_False; [done|]. intros ->.
      assert (Hq : (512 * j + k) / 512 = j) by lia. rewrite Hq, Hmid in Hm0. done. }
    rewrite Hg by lia. pose proof (mid_role m roles table Hs Hv (i / 512) ltac:(lia) Hm0) as Hr.
    destruct (decide (i = 512 * j + k)) as [Hi2|Hi2].
    - assert (i / 512 = j /\ i mod 512 = k) as [-> ->] by lia.
      by rewrite decide_True.
    - rewrite !decide_False; [done| |].
      + intros E. rewrite E in Hr. congruence.
      + intros [E Hmk]. rewrite E, Hp in Hr. injection Hr as Hr. lia. }
  split; [done| |].
  - eapply valid_root_mono; [|exact Hv]. by apply insert_subseteq.
  - destruct Hcomp as [Hcl Hcm Hct]. split.
    + intros b i [[<- [= <-]]|[_ Hb]]%lookup_insert_Some.
      { split; [lia|]. rewrite Hleaf2 by lia. by rewrite decide_True. }
      destruct (Hcl b i Hb) as [Hi Hlf]. split; [done|]. rewrite Hleaf2 by done.
      rewrite decide_False; [done|]. intros ->.
      destruct (sound_addr m roles Hs b _ Hb) as [Hb0 _].
      unfold leaf in Hlf. cbv zeta in Hlf. change KPH_CID_L1_COUNT with 512 in Hlf.
      destruct (Z.eqb_spec (level_of table) KPH_CID_TABLE_L0) as [Hl|Hl].
      { unfold mid in Hmid. rewrite Hl in Hmid. simpl in Hmid. by apply Hp0. }
      assert ((512 * j + k) / 512 = j /\ (512 * j + k) mod 512 = k) as [E1 E2].
      { pose proof (Z.div_mod (512 * j + k) 512 ltac:(done)).
        pose proof (Z.mod_pos_bound (512 * j + k) 512 ltac:(done)). lia. }
      rewrite E1, E2, Hmid, Hz in Hlf. by destruct (p =? 0).
    + intros b i [[_ ?]|[_ Hb]]%lookup_insert_Some; [done|].
      destruct (Hcm b i Hb) as [Hi Hm]. split; [done|]. by rewrite Hmid2.
    + intros b [[_ ?]|[_ Hb]]%lookup_insert_Some; [done|]. by apply Hct.
Qed.

(** A new table of blocks in slot [j] of the table of tables: it leads to nothing yet. *)
Lemma link_mid_inv m m2 roles table a j :
  cid_inv_for m roles table -> level_of table = KPH_CID_TABLE_L2 -> 0 <= j < 64 ->
  word m (pointer_of table) j = 0 -> roles !! a = None -> a <> 0 ->
  sound m2 (<[a := Mid j]> roles) -> grown m m2 a (pointer_of table) j a ->
  cid_inv_for m2 (<[a := Mid j]> roles) table.
Proof.
  intros [Hs Hv Hcomp] Hl Hj Hz Hfresh Ha Hs2 Hg.
  assert (Hroot : roles !! pointer_of table = Some Top).
  { destruct (valid_root_cases m roles table Hs Hv) as [[Hl' _]|[[Hl' _]|[_ Hroot]]]; [| |done]; by rewrite Hl in Hl'. }
  assert (Hpa : pointer_of table <> a) by (intros E; rewrite E in Hroot; congruence).
  assert (Hmid : forall i, 0 <= i < 64 -> mid m2 table i = if decide (i = j) then a else mid m table i).
  { intros i Hi. unfold mid. rewrite Hl. simpl. rewrite Hg by lia.
    destruct (decide (i = j)) as [->|]; [by rewrite decide_True|]. by rewrite !decide_False by tauto. }
  assert (Hmj : mid m table j = 0) by (unfold mid; by rewrite Hl).
  assert (Hleaf : forall i, 0 <= i < 32768 -> leaf m2 table i = leaf m table i).
  { intros i Hi. unfold leaf. rewrite Hl. simpl. change KPH_CID_L1_COUNT with 512.
    pose proof (Z.mod_pos_bound i 512 ltac:(done)). pose proof (Z.div_mod i 512 ltac:(done)).
    rewrite Hmid by lia. destruct (decide (i / 512 = j)) as [->|].
    - rewrite Hmj. simpl. destruct (Z.eqb_spec a 0) as [|_]; [done|].
      rewrite Hg by lia. rewrite (decide_False (P := a = _ /\ _)) by (intros [E _]; by destruct Hpa).
      by rewrite decide_True.
    - destruct (Z.eqb_spec (mid m table (i / 512)) 0) as [|Hne]; [done|].
      pose proof (mid_role m roles table Hs Hv (i / 512) ltac:(lia) Hne) as Hr.
      rewrite Hg by lia. rewrite !decide_False; [done|intros E|intros [E _]]; rewrite E in Hr; congruence. }
  split; [done| |].
  - eapply valid_root_mono; [|exact Hv]. by apply insert_subseteq.
  - destruct Hcomp as [Hcl Hcm Hct]. split.
    + intros b i [[_ ?]|[_ Hb]]%lookup_insert_Some; [done|].
      destruct (Hcl b i Hb) as [Hi ?]. split; [done|]. by rewrite Hleaf.
    + intros b i [[<- [= <-]]|[_ Hb]]%lookup_insert_Some.
      { split; [done|]. rewrite Hmid by done. by rewrite decide_True. }
      destruct (Hcm b i Hb) as [Hi Hm]. split; [done|]. rewrite Hmid by done.
      rewrite decide_False; [done|]. intros ->. destruct (sound_addr m roles Hs b _ Hb). congruence.
    + intros b [[_ ?]|[_ Hb]]%lookup_insert_Some; [done|]. by apply Hct.
Qed.

Lemma expand_level2_spec m roles table id :
  cid_inv_for m roles table -> level_of table = KPH_CID_TABLE_L2 -> 0 <= id < 16777216 ->
  leaf m table (id / 512) = 0 ->
  exists m' e, expand_level2 m table id = Some (m', e) /\
    exists roles', cid_inv_for m' roles' table /\ grows m roles m' roles' (id / 512) /\
    match e with
    | None => exists t h n, ExAllocatePoolZero t h n = None
    | Some e => roles' !! e.1 = Some (Leaf (id / 512)) /\ e.2 = id mod 512
    end.
Proof.
  intros Hinv Hl Hid Hz. pose proof Hinv as [Hs Hv Hcomp].
  assert (Hroot : roles !! pointer_of table = Some Top).
  { destruct (valid_root_cases m roles table Hs Hv) as [[Hl' _]|[[Hl' _]|[_ Hroot]]]; [| |done]; by rewrite Hl in Hl'. }
  unfold expand_level2. cbv zeta. unfold KPH_CID_MAX_L1, KPH_CID_MAX_L0.
  destruct (id_split id) as (Hd & Hm1 & Hm2). rewrite Hm1, Hm2.
  pose proof (Z.mod_pos_bound (id / 512) 512 ltac:(done)) as Hmod.
  pose proof (Z.div_mod (id / 512) 512 ltac:(done)) as Hdm. rewrite Hd in Hdm.
  assert (Hj : 0 <= id / 262144 < 64).
  { split; [apply Z.div_pos; lia|apply Z.div_lt_upper_bound; lia]. }
  rewrite (load_in m roles _ _ _ Hs Hroot) by sizes. cbn [mbind option_bind].
  unfold leaf in Hz. cbv zeta in Hz. rewrite Hl in Hz. change KPH_CID_L1_COUNT with 512 in Hz.
  rewrite Hd in Hz. simpl in Hz. unfold mid in Hz. rewrite Hl in Hz. simpl in Hz.
  destruct (Z.eqb_spec (word m (pointer_of table) (id / 262144)) 0) as [Hw|Hw].
  - destruct (allocate_into_spec m roles table (pointer_of table) Top (id / 262144) KPH_CID_TABLE_L1
      (Mid (id / 262144))) as (m2 & a & -> & Hcase); try done; [right; eauto|].
    cbn [mbind option_bind].
    destruct Hcase as [(-> & Hh & Hc & Hnone)|(Ha & Hfresh & Hs2 & Hg & Hgrows)].
    { exists m2, None. split; [done|]. exists roles. split; [by apply inv_same_heap with m|].
      split; [by apply grows_refl|done]. }
    destruct (Z.eqb_spec a 0) as [|_]; [done|].
    pose proof (link_mid_inv m m2 roles table a _ Hinv Hl Hj Hw Hfresh Ha Hs2 Hg) as Hinv2.
    assert (Hpa : pointer_of table <> a) by (intros E; rewrite E in Hroot; congruence).
    destruct (expand_level1_spec m2 _ table a (id / 262144) ((id / 512) mod 512) (id mod 512) Hinv2)
      as (m3 & e & -> & roles3 & Hinv3 & Hg3 & He); [by rewrite lookup_insert_eq|done| |].
    { rewrite Hg by lia. rewrite (decide_False (P := a = _ /\ _)) by (intros [E _]; by destruct Hpa).
      by rewrite decide_True. }
    rewrite <- Hdm in Hg3, He. eexists _, _. split; [reflexivity|]. exists roles3. split; [done|].
    split; [|done]. eapply grows_trans; [|exact Hg3]. by apply Hgrows.
  - destruct (Z.eqb_spec (word m (pointer_of table) (id / 262144)) 0) as [|_]; [done|].
    pose proof (sound_slot m roles Hs _ Top (id / 262144) Hroot ltac:(done) ltac:(sizes) Hw) as Hr.
    cbn [mbind option_bind].
    destruct (Z.eqb_spec (word m (pointer_of table) (id / 262144)) 0) as [|_]; [done|].
    destruct (expand_level1_spec m roles table _ (id / 262144) ((id / 512) mod 512) (id mod 512) Hinv Hr)
      as (m3 & e & -> & roles3 & Hinv3 & Hg3 & He); [done|done|].
    rewrite <- Hdm in Hg3, He. eexists _, _. split; [reflexivity|]. exists roles3. done.
Qed.

(** What getting an entry promises. *)
Definition got (m : mem) (roles : gmap Z role) (id : Z) (m' : mem) (table' : Z) (e : option entry) : Prop :=
  exists roles', cid_inv_for m' roles' table' /\ grows m roles m' roles' (id / 512) /\
    match e with
    | None => KPH_CID_LIMIT <= id \/ exists t h n, ExAllocatePoolZero t h n = None
    | Some e => id < KPH_CID_LIMIT /\ roles' !! e.1 = Some (Leaf (id / 512)) /\ e.2 = id mod 512
    end.

Lemma got_trans m roles id m1 roles1 m' table' e :
  grows m roles m1 roles1 (id / 512) -> got m1 roles1 id m' table' e -> got m roles id m' table' e.
Proof.
  intros Hg (roles' & Hinv & Hg' & He). exists roles'. split; [done|].
  split; [by eapply grows_trans|done].
Qed.

Lemma expand_from_level1 m roles table id :
  cid_inv_for m roles table -> 0 <= id < KPH_CID_LIMIT -> leaf m table (id / 512) = 0 ->
  level_of table = KPH_CID_TABLE_L1 \/ level_of table = KPH_CID_TABLE_L2 ->
  exists m' table' e,
    (if (level_of table =? KPH_CID_TABLE_L1) && (id <? KPH_CID_MAX_L1) then
       '(m, e) ← expand_level1 m (pointer_of table) (id / KPH_CID_MAX_L0) (id mod KPH_CID_MAX_L0);
       Some (m, table, e)
     else
       '(m, table2) ←
         (if level_of table =? KPH_CID_TABLE_L1 then migrate m table KPH_CID_TABLE_L2
          else Some (m, Some table));
       match table2 with
       | None => Some (m, table, None)
       | Some table2 => '(m, e) ← expand_level2 m table2 id; Some (m, table2, e)
       end) = Some (m', table', e) /\ got m roles id m' table' e.
Proof.
  intros Hinv Hid Hz Hlev. unfold KPH_CID_LIMIT, KPH_CID_MAX_L0, KPH_CID_MAX_L1 in *.
  pose proof Hinv as [Hs Hv _].
  assert (Hq : 0 <= id / 512) by (apply Z.div_pos; lia).
  assert (Hlast : forall m1 t1 roles1, cid_inv_for m1 roles1 t1 -> grows m roles m1 roles1 (id / 512) ->
    level_of t1 = KPH_CID_TABLE_L2 -> leaf m1 t1 (id / 512) = 0 ->
    exists m' table' e, ('(m, e) ← expand_level2 m1 t1 id; Some (m, t1, e)) = Some (m', table', e) /\
      got m roles id m' table' e).
  { intros m1 t1 roles1 Hinv1 Hg1 Hl1 Hz1.
    destruct (expand_level2_spec m1 roles1 t1 id Hinv1 Hl1 Hid Hz1) as (m2 & e & -> & roles2 & Hinv2 & Hg2 & He).
    eexists _, _, _. split; [reflexivity|]. eapply got_trans; [exact Hg1|].
    exists roles2. split; [done|]. split; [done|]. destruct e; [|by right]. split; [apply Hid|done]. }
  destruct Hlev as [Hl|Hl]; rewrite Hl; cbn [Z.eqb KPH_CID_TABLE_L1 KPH_CID_TABLE_L2 Pos.eqb andb].
  2:{ cbn [mbind option_bind]. apply (Hlast m table roles); try done. by apply grows_refl. }
  destruct (Z.ltb_spec id 262144) as [Hsmall|Hbig].
  - assert (id / 512 < 512) by (apply Z.div_lt_upper_bound; lia).
    assert (Hroot : roles !! pointer_of table = Some (Mid 0)).
    { destruct (valid_root_cases m roles table Hs Hv) as [[Hl' _]|[[_ Hroot]|[Hl' _]]]; [|done|]; by rewrite Hl in Hl'. }
    unfold leaf, mid in Hz. rewrite Hl in Hz. change KPH_CID_L1_COUNT with 512 in Hz.
    rewrite (Z.div_small (id / 512)), (Z.mod_small (id / 512)) in Hz by lia. simpl in Hz.
    destruct (sound_addr m roles Hs _ _ Hroot) as [Hp0 _].
    rewrite (proj2 (Z.eqb_neq (pointer_of table) 0)) in Hz by done.
    destruct (expand_level1_spec m roles table (pointer_of table) 0 (id / 512) (id mod 512) Hinv Hroot)
      as (m2 & e & -> & roles2 & Hinv2 & Hg2 & He); [lia|done|].
    eexists _, _, _. split; [reflexivity|]. exists roles2. split; [done|].
    split; [by rewrite Z.mul_0_r, Z.add_0_l in Hg2|].
    destruct e; [|by right]. rewrite Z.mul_0_r, Z.add_0_l in He. split; [unfold KPH_CID_LIMIT; lia|done].
  - destruct (migrate_spec m roles table KPH_CID_TABLE_L2 Top (id / 512) Hinv) as
      (m1 & t1 & -> & Hcase); try done; [by rewrite Hl|].
    cbn [mbind option_bind]. destruct t1 as [t1|].
    + destruct Hcase as (roles1 & Hinv1 & Hg1 & Hl1 & Hleaf). eapply Hlast; try done.
      destruct (Hleaf (id / 512)) as [->|Hno]; [done|]. exfalso. apply Hno.
      split; [done|]. apply Z.div_lt_upper_bound; lia.
    + destruct Hcase as (Hh & Hc & Hnone). eexists _, _, _. split; [reflexivity|].
      exists roles. split; [by apply inv_same_heap with m|]. split; [by apply grows_refl|by right].
Qed.

Lemma expand_spec m roles table Cid :
  cid_inv_for m roles table -> 0 <= Cid ->
  exists m' table' e, KphpCidExpandTableFor m Cid table = Some (m', table', e) /\
    got m roles (KphpCidToId Cid) m' table' e.
Proof.
  intros Hinv HCid. pose proof Hinv as [Hs Hv _]. unfold KphpCidExpandTableFor.
  rewrite (lookup_leaf m roles table Hs Hv Cid HCid). cbv zeta.
  assert (Hid0 : 0 <= KphpCidToId Cid) by (unfold KphpCidToId; apply Z.div_pos; lia).
  generalize dependent (KphpCidToId Cid). intros id Hid0.
  destruct (Z.leb_spec KPH_CID_MAX id) as [Hbig|Hsmall].
  { eexists _, _, _. split; [reflexivity|]. exists roles. split; [done|].
    split; [by apply grows_refl|by left]. }
  cbn [mbind option_bind]. change KPH_CID_L0_COUNT with 512.
  assert (Hi : 0 <= id / 512 < 32768).
  { split; [apply Z.div_pos; lia|]. apply Z.div_lt_upper_bound; [done|].
    unfold KPH_CID_MAX, KPH_CID_MAX_L2 in *. lia. }
  destruct (Z.eqb_spec (leaf m table (id / 512)) 0) as [Hz|Hnz].
  2:{ eexists _, _, _. split; [reflexivity|]. exists roles. split; [done|].
    split; [by apply grows_refl|]. split; [done|]. split; [by apply leaf_role|done]. }
  cbn [mbind option_bind].
  destruct (Z.eqb_spec (level_of table) KPH_CID_TABLE_L0) as [Hl|Hl].
  - destruct (migrate_spec m roles table KPH_CID_TABLE_L1 (Mid 0) (id / 512) Hinv) as
      (m1 & t1 & -> & Hcase); try done; [by rewrite Hl|].
    cbn [mbind option_bind]. destruct t1 as [t1|].
    + destruct Hcase as (roles1 & Hinv1 & Hg1 & Hl1 & Hleaf).
      assert (Hz1 : leaf m1 t1 (id / 512) = 0) by (destruct (Hleaf (id / 512)) as [->|Hno]; [done|contradiction]).
      destruct (expand_from_level1 m1 roles1 t1 id Hinv1) as (m2 & t2 & e & -> & Hgot); [done|done|by left|].
      eexists _, _, _. split; [reflexivity|]. by eapply got_trans.
    + destruct Hcase as (Hh & Hc & Hnone). eexists _, _, _. split; [reflexivity|].
      exists roles. split; [by apply inv_same_heap with m|]. split; [by apply grows_refl|by right].
  - cbn [mbind option_bind]. apply expand_from_level1; try done.
    destruct (valid_root_cases m roles table Hs Hv) as [[Hl' _]|[[Hl' _]|[Hl' _]]];
      [by destruct Hl|by left|by right].
Qed.

Lemma get_entry_spec m roles table Cid :
  cid_inv_for m roles table -> 0 <= Cid ->
  exists m' table' e, KphCidGetEntry m Cid table = Some (m', table', e) /\
    got m roles (KphpCidToId Cid) m' table' e.
Proof.
  intros Hinv HCid. pose proof Hinv as [Hs Hv _]. unfold KphCidGetEntry.
  pose proof (expand_spec m roles table Cid Hinv HCid) as Hexp.
  rewrite (lookup_leaf m roles table Hs Hv Cid HCid). cbn [mbind option_bind]. cbv zeta.
  destruct (Z.leb_spec KPH_CID_MAX (KphpCidToId Cid)) as [|Hsmall]; [exact Hexp|].
  change KPH_CID_L0_COUNT with 512.
  destruct (Z.eqb_spec (leaf m table (KphpCidToId Cid / 512)) 0) as [|Hnz]; [exact Hexp|].
  eexists _, _, _. split; [reflexivity|]. exists roles. split; [done|].
  split; [by apply grows_refl|]. split; [done|]. split; [|done]. apply leaf_role; try done.
  unfold KphpCidToId, KPH_CID_MAX, KPH_CID_MAX_L2 in *.
  split; [repeat apply Z.div_pos; lia|]. apply Z.div_lt_upper_bound; lia.
Qed.

End grow.

(** ** The table as clients see it *)

(** The table is well formed. *)
Definition cid_inv (m : mem) (table : Z) : Prop := exists roles, cid_inv_for m roles table.

(** The object a CID's entry holds; 0 when there is no entry. *)
Definition object_of (m : mem) (table Cid : Z) : Z :=
  match KphpCidLookupEntry m Cid table with
  | Some (Some e) => word m e.1 e.2
  | _ => 0
  end.

(** A lookup finds the entry the roles give the id, and only that. *)
Lemma lookup_iff m roles table Cid e :
  cid_inv_for m roles table -> 0 <= Cid ->
  KphpCidLookupEntry m Cid table = Some (Some e) <->
  KphpCidToId Cid < KPH_CID_LIMIT /\ roles !! e.1 = Some (Leaf (KphpCidToId Cid / 512)) /\
  e.2 = KphpCidToId Cid mod 512.
Proof.
  intros [Hs Hv Hcomp] HCid. rewrite (lookup_leaf m roles table Hs Hv Cid HCid). cbv zeta.
  change KPH_CID_L0_COUNT with 512. change KPH_CID_MAX with KPH_CID_LIMIT.
  assert (Hid0 : 0 <= KphpCidToId Cid) by (unfold KphpCidToId; apply Z.div_pos; lia).
  generalize dependent (KphpCidToId Cid). intros id Hid0.
  destruct (Z.leb_spec KPH_CID_LIMIT id) as [Hbig|Hsmall].
  { split; [done|]. intros [? _]. lia. }
  assert (Hi : 0 <= id / 512 < 32768).
  { split; [apply Z.div_pos; lia|]. apply Z.div_lt_upper_bound; unfold KPH_CID_LIMIT in *; lia. }
  destruct (Z.eqb_spec (leaf m table (id / 512)) 0) as [Hz|Hnz].
  - split; [done|]. intros (_ & Hr & _). destruct (complete_leaf m roles table Hcomp _ _ Hr) as [_ He].
    destruct (sound_addr m roles Hs _ _ Hr) as [Hne _]. congruence.
  - split.
    + intros [= <-]. split; [done|]. split; [by apply leaf_role|done].
    + intros (_ & Hr & He). destruct (complete_leaf m roles table Hcomp _ _ Hr) as [_ Hl].
      destruct e; simpl in *; congruence.
Qed.

Lemma lookup_defined m table Cid : cid_inv m table -> 0 <= Cid -> exists e, KphpCidLookupEntry m Cid table = Some e.
Proof. intros (roles & [Hs Hv _]) HCid. rewrite (lookup_leaf m roles table Hs Hv Cid HCid). eauto. Qed.

Section properties.
Context `{PoolLaws}.

Lemma got_lookup m roles m' table table' Cid Cid' e :
  cid_inv_for m roles table -> got m roles (KphpCidToId Cid) m' table' e -> 0 <= Cid' ->
  forall e', KphpCidLookupEntry m Cid' table = Some (Some e') ->
  KphpCidLookupEntry m' Cid' table' = Some (Some e') /\ word m' e'.1 e'.2 = word m e'.1 e'.2.
Proof.
  intros Hinv (roles' & Hinv' & Hg & _) HCid e' Hl.
  apply (lookup_iff m roles table Cid' e' Hinv HCid) in Hl as (Hid & Hr & Hi).
  split.
  - apply (lookup_iff m' roles' table' Cid' e' Hinv' HCid). split; [done|]. split; [|done].
    eapply lookup_weaken; [exact Hr|apply Hg].
  - unfold word, load. by rewrite (grows_old m roles m' roles' _ Hg _ _ Hr).
Qed.

(** C11: [KphCidGetEntry] never leaves a block and keeps the table well formed; the entry it
    returns is the one every later lookup of the id finds; a new entry holds no object; every
    entry another id had is where it was and holds what it held; and NULL is returned only for an
    id over the limit or when the pool refuses a block. *)
Theorem cid_get_entry m table Cid :
  cid_inv m table -> 0 <= Cid ->
  exists m' table' e, KphCidGetEntry m Cid table = Some (m', table', e) /\ cid_inv m' table' /\
    (forall Cid' e', 0 <= Cid' -> KphpCidLookupEntry m Cid' table = Some (Some e') ->
      KphpCidLookupEntry m' Cid' table' = Some (Some e') /\ word m' e'.1 e'.2 = word m e'.1 e'.2) /\
    match e with
    | Some e => KphpCidLookupEntry m' Cid table' = Some (Some e) /\
        (KphpCidLookupEntry m Cid table = Some None -> word m' e.1 e.2 = 0)
    | None => KPH_CID_LIMIT <= KphpCidToId Cid \/ exists t h n, ExAllocatePoolZero t h n = None
    end.
Proof.
  intros [roles Hinv] HCid. destruct (get_entry_spec m roles table Cid Hinv HCid) as (m' & table' & e & Hget & Hgot).
  exists m', table', e. split; [done|]. pose proof Hgot as (roles' & Hinv' & Hg & He).
  split; [by exists roles'|]. split; [intros; by eapply got_lookup|].
  destruct e as [e|]; [|done]. destruct He as (Hid & Hr & Hi). split.
  - by apply (lookup_iff m' roles' table' Cid e Hinv' HCid).
  - intros Hnone. destruct (roles !! e.1) as [r|] eqn:Hold.
    + assert (r = Leaf (KphpCidToId Cid / 512)) as ->.
      { pose proof (lookup_weaken _ _ _ _ Hold (grows_roles _ _ _ _ _ Hg)). congruence. }
      assert (Hl : KphpCidLookupEntry m Cid table = Some (Some e)) by by apply (lookup_iff m roles table Cid e Hinv HCid).
      congruence.
    + destruct (grows_new m roles m' roles' _ Hg _ _ Hr Hold) as [_ Hz].
      unfold word, load. rewrite Hz. cbn [mbind option_bind].
      destruct (replicate _ 0 !! Z.to_nat e.2) as [z|] eqn:Hz'; [|done].
      by apply lookup_replicate in Hz' as [-> _].
Qed.

(** Any number of [KphCidGetEntry] calls. *)
Definition get_entry_step (s s' : mem * Z) : Prop :=
  exists Cid e, 0 <= Cid /\ KphCidGetEntry s.1 Cid s.2 = Some (s'.1, s'.2, e).

Lemma get_entry_steps m roles table m' table' :
  cid_inv_for m roles table -> rtc get_entry_step (m, table) (m', table') ->
  exists roles', cid_inv_for m' roles' table' /\ roles ⊆ roles'.
Proof.
  intros Hinv Hsteps. remember (m, table) as s eqn:Hs. remember (m', table') as s' eqn:Hs'.
  revert m roles table Hinv Hs. induction Hsteps as [s|s [m1 t1] s' (Cid & e & HCid & Hget) _ IH];
    intros m roles table Hinv ->; simplify_eq/=.
  - by exists roles.
  - destruct (get_entry_spec m roles table Cid Hinv HCid) as (m2 & t2 & e2 & Hget2 & roles2 & Hinv2 & Hg & _).
    simplify_eq. destruct (IH eq_refl m1 roles2 t1 Hinv2 eq_refl) as (roles' & Hinv' & Hsub).
    exists roles'. split; [done|]. etrans; [apply Hg|done].
Qed.

(** C30: Lookups need no lock: a root word captured before any number of expansions and migrations
    by others still leads, in the later memory, to the entry a fresh lookup finds or to NULL (on
    which the caller takes the lock and looks again), and never outside a block. *)
Theorem cid_stale_root m table m' table' Cid :
  cid_inv m table -> rtc get_entry_step (m, table) (m', table') -> 0 <= Cid ->
  KphpCidLookupEntry m' Cid table = Some None \/
  KphpCidLookupEntry m' Cid table = KphpCidLookupEntry m' Cid table'.
Proof.
  intros [roles Hinv] Hsteps HCid.
  destruct (get_entry_steps m roles table m' table' Hinv Hsteps) as (roles' & Hinv' & Hsub).
  pose proof Hinv' as [Hs' Hv' _].
  pose proof (valid_root_mono roles roles' table Hsub (inv_root _ _ _ Hinv)) as Hv.
  rewrite (lookup_leaf m' roles' table Hs' Hv Cid HCid). cbv zeta.
  destruct (Z.leb_spec KPH_CID_MAX (KphpCidToId Cid)) as [|Hsmall]; [by left|].
  destruct (Z.eqb_spec (leaf m' table (KphpCidToId Cid / KPH_CID_L0_COUNT)) 0) as [|Hnz]; [by left|].
  right. symmetry. apply (lookup_iff m' roles' table' Cid _ Hinv' HCid). split; [done|].
  split; [|done]. apply leaf_role; try done.
  unfold KphpCidToId, KPH_CID_MAX, KPH_CID_MAX_L2, KPH_CID_L0_COUNT in *.
  split; [repeat apply Z.div_pos; lia|]. apply Z.div_lt_upper_bound; lia.
Qed.

End properties.

Lemma entries_distinct m table Cid1 Cid2 e :
  cid_inv m table -> 0 <= Cid1 -> 0 <= Cid2 ->
  KphpCidLookupEntry m Cid1 table = Some (Some e) -> KphpCidLookupEntry m Cid2 table = Some (Some e) ->
  KphpCidToId Cid1 = KphpCidToId Cid2.
Proof.
  intros [roles Hinv] H1 H2 Hl1 Hl2.
  apply (lookup_iff m roles table Cid1 e Hinv H1) in Hl1 as (_ & Hr1 & Hi1).
  apply (lookup_iff m roles table Cid2 e Hinv H2) in Hl2 as (_ & Hr2 & Hi2).
  assert (Hd : KphpCidToId Cid1 / 512 = KphpCidToId Cid2 / 512) by congruence.
  rewrite (Z.div_mod (KphpCidToId Cid1) 512), (Z.div_mod (KphpCidToId Cid2) 512) by done. congruence.
Qed.

(** Two ids never share an entry. *)
Theorem cid_entries_distinct m table Cid1 Cid2 e :
  cid_inv m table -> 0 <= Cid1 -> 0 <= Cid2 ->
  KphpCidLookupEntry m Cid1 table = Some (Some e) -> KphpCidLookupEntry m Cid2 table = Some (Some e) ->
  KphpCidToId Cid1 = KphpCidToId Cid2.
Proof. apply entries_distinct. Qed.

(** A word written into a block of entries. *)
Lemma leaf_store_inv m m' roles table a i k w :
  cid_inv_for m roles table -> roles !! a = Some (Leaf i) -> 0 <= k < 512 ->
  store m a k w = Some m' ->
  cid_inv_for m' roles table /\
  (forall b j, 0 <= j -> word m' b j = if decide (b = a /\ j = k) then w else word m b j).
Proof.
  intros [Hs Hv Hcomp] Ha Hk Hst.
  destruct (sound_block m roles Hs a _ Ha) as (l & Hl & Hlen).
  destruct (store_spec m a k w l Hl) as (m2 & Hst2 & _ & Hh & Hw); [sizes|].
  rewrite Hst in Hst2. injection Hst2 as <-. split; [|done].
  assert (Hint : forall b r j, roles !! b = Some r -> (forall i, r <> Leaf i) -> 0 <= j -> word m' b j = word m b j).
  { intros b r j Hb Hr Hj. rewrite Hw by done. rewrite decide_False; [done|]. intros [-> _].
    rewrite Ha in Hb. injection Hb as <-. by apply (Hr i). }
  assert (Hmid : forall j, 0 <= j < 64 -> mid m' table j = mid m table j).
  { intros j Hj. unfold mid. destruct (level_of table =? KPH_CID_TABLE_L1); [done|].
    destruct (Z.eqb_spec (level_of table) KPH_CID_TABLE_L2) as [Hl2|]; [|done].
    destruct (valid_root_cases m roles table Hs Hv) as [[Hl' _]|[[Hl' _]|[_ Hroot]]];
      try (by rewrite Hl2 in Hl'). apply (Hint _ Top); [done|done|lia]. }
  assert (Hleaf : forall j, 0 <= j < 32768 -> leaf m' table j = leaf m table j).
  { intros j Hj. unfold leaf. destruct (level_of table =? KPH_CID_TABLE_L0); [done|]. cbv zeta.
    change KPH_CID_L1_COUNT with 512.
    pose proof (Z.mod_pos_bound j 512 ltac:(done)). pose proof (Z.div_mod j 512 ltac:(done)).
    rewrite Hmid by lia. destruct (Z.eqb_spec (mid m table (j / 512)) 0) as [|Hm]; [done|].
    eapply Hint; [eapply mid_role; try done; lia|done|lia]. }
  split; [|done|].
  - destruct Hs as [Hsb Hsa Hss]. split; [|done|].
    + intros b r Hb. rewrite Hh. destruct (decide (b = a)) as [->|Hne].
      * rewrite lookup_insert_eq. eexists. split; [reflexivity|]. rewrite length_insert.
        destruct (Hsb a r Hb) as (l' & Hl' & ?). congruence.
      * rewrite lookup_insert_ne by done. by apply Hsb.
    + intros b r j Hb Hr Hj. rewrite (Hint b r j) by (done || lia). by apply Hss.
  - destruct Hcomp as [Hcl Hcm Hct]. split; [| |done].
    + intros b j Hb. destruct (Hcl b j Hb) as [? <-]. by rewrite Hleaf.
    + intros b j Hb. destruct (Hcm b j Hb) as [? <-]. by rewrite Hmid.
Qed.

Lemma leaf_store_defined m roles table a i k w :
  cid_inv_for m roles table -> roles !! a = Some (Leaf i) -> 0 <= k < 512 ->
  exists m', store m a k w = Some m' /\ counts m' = counts m.
Proof.
  intros [Hs _ _] Ha Hk. destruct (sound_block m roles Hs a _ Ha) as (l & Hl & Hlen).
  destruct (store_spec m a k w l Hl) as (m' & Hst & Hc & _); [sizes|]. by exists m'.
Qed.

Lemma lookup_same_roles m m' roles table Cid :
  cid_inv_for m roles table -> cid_inv_for m' roles table -> 0 <= Cid ->
  KphpCidLookupEntry m' Cid table = KphpCidLookupEntry m Cid table.
Proof.
  intros Hinv Hinv' HCid.
  destruct (lookup_defined m table Cid) as [e He]; [by exists roles|done|].
  destruct (lookup_defined m' table Cid) as [e' He']; [by exists roles|done|].
  destruct e as [e|], e' as [e'|]; try congruence.
  - apply (lookup_iff m roles table Cid e Hinv HCid) in He.
    by rewrite (proj2 (lookup_iff m' roles table Cid e Hinv' HCid) He),
      (proj2 (lookup_iff m roles table Cid e Hinv HCid) He).
  - apply (lookup_iff m roles table Cid e Hinv HCid) in He.
    by rewrite (proj2 (lookup_iff m' roles table Cid e Hinv' HCid) He),
      (proj2 (lookup_iff m roles table Cid e Hinv HCid) He).
  - apply (lookup_iff m' roles table Cid e' Hinv' HCid) in He'.
    by rewrite (proj2 (lookup_iff m' roles table Cid e' Hinv' HCid) He'),
      (proj2 (lookup_iff m roles table Cid e' Hinv HCid) He').
Qed.

Lemma load_leaf m roles table a i k :
  cid_inv_for m roles table -> roles !! a = Some (Leaf i) -> 0 <= k < 512 ->
  load m a k = Some (word m a k).
Proof. intros [Hs _ _] Ha Hk. eapply load_in; [done|done|sizes]. Qed.

(** Storing an object in the entry of [Cid] changes what the table shows for that id only. *)
Lemma store_object m roles table Cid e w :
  cid_inv_for m roles table -> 0 <= Cid -> KphpCidLookupEntry m Cid table = Some (Some e) ->
  exists m', KphAtomicMoveObjectReference m e w = Some (m', object_of m table Cid) /\
    counts m' = counts m /\ cid_inv_for m' roles table /\
    (forall Cid', 0 <= Cid' -> object_of m' table Cid' =
      if decide (KphpCidToId Cid' = KphpCidToId Cid) then w else object_of m table Cid').
Proof.
  intros Hinv HCid Hl. pose proof Hl as Hl'.
  apply (lookup_iff m roles table Cid e Hinv HCid) in Hl' as (Hid & Hr & Hi).
  assert (Hk : 0 <= e.2 < 512) by (rewrite Hi; by apply Z.mod_pos_bound).
  unfold KphAtomicMoveObjectReference. rewrite (load_leaf m roles table _ _ _ Hinv Hr Hk).
  destruct (leaf_store_defined m roles table _ _ _ w Hinv Hr Hk) as (m' & Hst & Hc).
  destruct (leaf_store_inv m m' roles table _ _ _ w Hinv Hr Hk Hst) as [Hinv' Hw].
  cbn [mbind option_bind]. rewrite Hst. cbn [mbind option_bind]. exists m'.
  split; [unfold object_of; by rewrite Hl|]. split; [done|]. split; [done|].
  intros Cid' HCid'. unfold object_of.
  rewrite (lookup_same_roles m m' roles table Cid' Hinv Hinv' HCid').
  destruct (lookup_defined m table Cid') as [e' He']; [by exists roles|done|]. rewrite He'.
  destruct e' as [e'|].
  - pose proof He' as He''.
    apply (lookup_iff m roles table Cid' e' Hinv HCid') in He'' as (Hid' & Hr' & Hi').
    rewrite Hw by (rewrite Hi'; by apply Z.mod_pos_bound).
    destruct (decide (KphpCidToId Cid' = KphpCidToId Cid)) as [E|Hne].
    + assert (e'.1 = e.1) as ->.
      { rewrite E in Hr'. destruct (complete_leaf _ _ _ (inv_complete _ _ _ Hinv) _ _ Hr) as [_ <-].
        by destruct (complete_leaf _ _ _ (inv_complete _ _ _ Hinv) _ _ Hr') as [_ <-]. }
      rewrite decide_True; [done|]. split; [done|congruence].
    + rewrite decide_False; [done|]. intros [E1 E2]. apply Hne.
      eapply (entries_distinct m table Cid' Cid e); [by exists roles|done|done| |done].
      rewrite He'. do 2 f_equal. destruct e, e'. simpl in *. congruence.
  - destruct (decide (KphpCidToId Cid' = KphpCidToId Cid)) as [E|Hne]; [|done]. exfalso.
    assert (Hl2 : KphpCidLookupEntry m Cid' table = Some (Some e)); [|congruence].
    apply (lookup_iff m roles table Cid' e Hinv HCid'). by rewrite E.
Qed.

Lemma object_of_counts m c table Cid : object_of (set_counts m c) table Cid = object_of m table Cid.
Proof. done. Qed.

Lemma inv_counts m c roles table : cid_inv_for m roles table -> cid_inv_for (set_counts m c) roles table.
Proof. by apply inv_same_heap. Qed.

Lemma dereference_counts m o : exists c, KphDereferenceObject m o = set_counts m c.
Proof.
  unfold KphDereferenceObject. destruct (counts m !! o) as [n|]; [case_match; eauto|].
  exists (counts m). by destruct m.
Qed.

(** A reference taken and given back, on an object that is alive. *)
Lemma reference_dereference m o n :
  counts m !! o = Some n -> 0 < n -> KphDereferenceObject (KphReferenceObject m o) o = m.
Proof.
  intros Hn Hpos. unfold KphDereferenceObject, KphReferenceObject. simpl.
  rewrite lookup_alter_eq, Hn. simpl. replace (0 <? n + 1 - 1) with true by lia.
  unfold set_counts. simpl. destruct m as [h c k]; simpl in *. f_equal.
  apply map_eq. intros j. destruct (decide (j = o)) as [->|Hne].
  - rewrite lookup_insert_eq. rewrite Hn. f_equal. lia.
  - by rewrite lookup_insert_ne, lookup_alter_ne.
Qed.

Lemma assign_object m table Cid e Object :
  cid_inv m table -> 0 <= Cid -> KphpCidLookupEntry m Cid table = Some (Some e) ->
  exists m', KphCidAssignObject m e Object = Some m' /\ cid_inv m' table /\
    (forall Cid', 0 <= Cid' -> object_of m' table Cid' =
      if decide (KphpCidToId Cid' = KphpCidToId Cid) then Object else object_of m table Cid') /\
    (forall n, object_of m table Cid = Object -> Object <> 0 -> counts m !! Object = Some n -> 0 < n ->
      counts m' = counts m).
Proof.
  intros [roles Hinv] HCid Hl. unfold KphCidAssignObject, KphAtomicAssignObjectReference.
  set (m1 := if negb (Object =? 0) then _ else _).
  assert (exists c, m1 = set_counts m c) as [c Hm1].
  { subst m1. destruct (Object =? 0); simpl; [by exists (counts m); destruct m|].
    unfold KphReferenceObject. eauto. }
  assert (Hinv1 : cid_inv_for m1 roles table) by (rewrite Hm1; by apply inv_counts).
  destruct (store_object m1 roles table Cid e Object Hinv1 HCid) as (m2 & -> & Hc2 & Hinv2 & Hobj).
  { by rewrite Hm1. }
  cbn [mbind option_bind]. eexists. split; [reflexivity|].
  assert (Ho1 : object_of m1 table Cid = object_of m table Cid) by by rewrite Hm1.
  rewrite Ho1. destruct (dereference_counts m2 (object_of m table Cid)) as [c' Hd].
  split; [|split].
  - exists roles. case_match; [rewrite Hd; by apply inv_counts|done].
  - intros Cid' HCid'. transitivity (object_of m2 table Cid').
    { case_match; [by rewrite Hd|done]. }
    rewrite Hobj by done. rewrite Hm1. by case_decide.
  - intros n Hsame Hnz Hn Hpos. rewrite Hsame.
    destruct (Z.eqb_spec Object 0) as [|_]; [done|]. cbn [negb].
    pose proof (reference_dereference m Object n Hn Hpos) as Hrd.
    apply (f_equal counts) in Hrd. rewrite <- Hrd.
    assert (E : counts m2 = counts (KphReferenceObject m Object)).
    { rewrite Hc2. subst m1. by destruct (Z.eqb_spec Object 0). }
    unfold KphDereferenceObject. rewrite E.
    destruct (counts (KphReferenceObject m Object) !! Object) as [k|]; [|done]. by destruct (0 <? k - 1).
Qed.

(** Assigning an object to an entry changes what the table shows for that id only, and the new
    object is referenced before the old one is released, so that assigning the object an entry
    already holds leaves its pointer count alone and does not delete it. *)
Theorem cid_assign_object m table Cid e Object :
  cid_inv m table -> 0 <= Cid -> KphpCidLookupEntry m Cid table = Some (Some e) ->
  exists m', KphCidAssignObject m e Object = Some m' /\ cid_inv m' table /\
    (forall Cid', 0 <= Cid' -> object_of m' table Cid' =
      if decide (KphpCidToId Cid' = KphpCidToId Cid) then Object else object_of m table Cid') /\
    (forall n, object_of m table Cid = Object -> Object <> 0 -> counts m !! Object = Some n -> 0 < n ->
      counts m' = counts m).
Proof. apply assign_object. Qed.

(** ** Loops *)

Section loops.
Context {A S : Type}.
Implicit Types (f : A -> S -> ub (S * bool)) (s : S).

Lemma for_each_app f l1 l2 s :
  for_each f (l1 ++ l2) s =
    ('(s, stop) ← for_each f l1 s; if (stop : bool) then Some (s, true) else for_each f l2 s).
Proof.
  revert s. induction l1 as [|i l1 IH]; intros s; simpl; [done|].
  destruct (f i s) as [[s' []]|]; simpl; [done|apply IH|done].
Qed.

(** Two bodies that agree wherever an invariant of the loop holds. *)
Lemma for_each_ext (P : S -> Prop) f g l s :
  (forall i s, i ∈ l -> P s -> f i s = g i s) ->
  (forall i s s' b, i ∈ l -> P s -> g i s = Some (s', b) -> P s') ->
  P s -> for_each f l s = for_each g l s.
Proof.
  revert s. induction l as [|i l IH]; intros s Heq Hinv Hs; simpl; [done|].
  rewrite Heq by (done || left). destruct (g i s) as [[s' stop]|] eqn:Hg; simpl; [|done].
  destruct stop; [done|]. apply IH.
  - intros j u Hj. apply Heq. by right.
  - intros j u u' b Hj. apply Hinv. by right.
  - eapply Hinv; [left|exact Hs|exact Hg].
Qed.

Lemma for_each_inv (P : S -> Prop) f l s s' b :
  (forall i s s' b, i ∈ l -> P s -> f i s = Some (s', b) -> P s') ->
  P s -> for_each f l s = Some (s', b) -> P s'.
Proof.
  revert s. induction l as [|i l IH]; intros s Hinv Hs Hf; simpl in Hf; [by simplify_eq|].
  destruct (f i s) as [[s1 stop]|] eqn:Hg; simpl in Hf; [|done].
  assert (P s1) by (eapply Hinv; [left|exact Hs|exact Hg]).
  destruct stop; [by simplify_eq|]. apply (IH s1); try done.
  intros j u u' b' Hj. apply Hinv. by right.
Qed.

End loops.

Lemma for_each_bind {A B S : Type} (h : B -> S -> ub (S * bool)) (L : A -> list B) l s :
  for_each h (l ≫= L) s = for_each (fun i => for_each h (L i)) l s.
Proof.
  revert s. induction l as [|i l IH]; intros s; simpl; [done|].
  rewrite for_each_app. destruct (for_each h (L i) s) as [[s' []]|]; simpl; [done|apply IH|done].
Qed.

Lemma elem_of_upto i n : i ∈ upto n <-> 0 <= i < n.
Proof.
  unfold upto. rewrite list_elem_of_fmap. split.
  - intros (k & -> & Hk%elem_of_seq). lia.
  - intros Hi. exists (Z.to_nat i). split; [lia|]. apply elem_of_seq. lia.
Qed.

Lemma upto_mul a b : 0 <= a -> 0 <= b -> upto (a * b) = upto a ≫= fun i => (fun k => b * i + k) <$> upto b.
Proof.
  intros Ha Hb. unfold upto. rewrite <- (Z2Nat.id a), <- (Z2Nat.id b) by done.
  generalize (Z.to_nat a) as x, (Z.to_nat b) as y. clear. intros x y.
  rewrite <- Nat2Z.inj_mul, !Nat2Z.id. induction x as [|x IH]; [done|].
  rewrite seq_S, fmap_app, bind_app, <- IH. simpl. rewrite app_nil_r.
  replace (y + x * y)%nat with (x * y + y)%nat by lia. rewrite seq_app, fmap_app. f_equal.
  replace (seq (0 + x * y) y) with (Nat.add (x * y) <$> seq 0 y) by (rewrite fmap_add_seq; f_equal; lia).
  rewrite <- !list_fmap_compose.
  apply list_fmap_ext. intros i k _. simpl. lia.
Qed.

Lemma NoDup_upto n : NoDup (upto n).
Proof. unfold upto. apply NoDup_fmap_2; [intros ???; lia|apply NoDup_seq]. Qed.

Lemma bind_upto_head {B} n (L : Z -> list B) :
  0 < n -> (forall i, 0 < i < n -> L i = []) -> upto n ≫= L = L 0.
Proof.
  intros Hn HL. unfold upto. destruct (Z.to_nat n) as [|k] eqn:Hk; [lia|].
  change (seq 0 (S k)) with (0 :: seq 1 k)%nat. rewrite fmap_cons, bind_cons.
  assert (E : (Z.of_nat <$> seq 1 k) ≫= L = []); [|by rewrite E, app_nil_r].
  assert (Hall : forall l, (forall i, i ∈ l -> L i = []) -> l ≫= L = []).
  { induction l as [|i l IH]; intros Hl; simpl; [done|]. rewrite Hl by left. apply IH. intros; apply Hl. by right. }
  apply Hall. intros i (j & -> & Hj%elem_of_seq)%list_elem_of_fmap. apply HL. lia.
Qed.

Lemma omap_bind {A B C} (f : B -> option C) (g : A -> list B) l :
  omap f (l ≫= g) = l ≫= fun x => omap f (g x).
Proof. induction l as [|x l IH]; [done|]. by rewrite !bind_cons, omap_app, IH. Qed.

Lemma bind_bind {A B C} (f : A -> list B) (g : B -> list C) l :
  (l ≫= f) ≫= g = l ≫= fun x => f x ≫= g.
Proof. induction l as [|x l IH]; [done|]. by rewrite !bind_cons, bind_app, IH. Qed.

Lemma bind_ext_in {A B} (f g : A -> list B) l : (forall x, x ∈ l -> f x = g x) -> l ≫= f = l ≫= g.
Proof.
  induction l as [|x l IH]; intros Hfg; simpl; [done|]. rewrite Hfg by left. f_equal. apply IH.
  intros; apply Hfg. by right.
Qed.

Lemma NoDup_omap {A B} (f : A -> option B) l :
  (forall x y z, x ∈ l -> y ∈ l -> f x = Some z -> f y = Some z -> x = y) -> NoDup l -> NoDup (omap f l).
Proof.
  intros Hinj Hnd. induction Hnd as [|x l Hx Hnd IH]; [constructor|].
  assert (NoDup (omap f l)) by (apply IH; intros; eapply Hinj; (by right) || done).
  simpl. destruct (f x) as [z|] eqn:Hz; [|done]. constructor; [|done].
  intros (y & Hy & Hfy)%list_elem_of_omap. apply Hx.
  assert (x = y) as -> by (eapply Hinj; [left|by right|done|done]). done.
Qed.

(** Unfolded last: an enumeration ranges over millions of indices. *)
#[global] Opaque upto.

(** ** What an enumeration visits *)

(** The entries that lookups find, in increasing order of id. *)
Definition entries (m : mem) (table : Z) : list entry :=
  omap (fun id => default None (KphpCidLookupEntry m (4 * id) table)) (upto KPH_CID_LIMIT).

(** The objects they hold. *)
Definition objects (m : mem) (table : Z) : list Z :=
  filter (fun o => o <> 0) ((fun id => object_of m table (4 * id)) <$> upto KPH_CID_LIMIT).

(** The entries of one block. *)
Definition block_entries (m : mem) (table i : Z) : list entry :=
  if leaf m table i =? 0 then [] else (fun k => (leaf m table i, k)) <$> upto 512.

Lemma entries_blocks m roles table :
  cid_inv_for m roles table -> entries m table = upto (64 * 512) ≫= block_entries m table.
Proof.
  intros [Hs Hv _]. unfold entries. change KPH_CID_LIMIT with (64 * 512 * 512).
  rewrite (upto_mul (64 * 512) 512) by lia. rewrite omap_bind.
  apply bind_ext_in. intros i Hi%elem_of_upto. unfold block_entries.
  assert (E : forall l, (forall k, k ∈ l -> 0 <= k < 512) ->
    omap (fun id => default None (KphpCidLookupEntry m (4 * id) table)) ((fun k => 512 * i + k) <$> l) =
    if leaf m table i =? 0 then [] else (fun k => (leaf m table i, k)) <$> l).
  { induction l as [|k l IH]; intros Hl; [by case_match|].
    rewrite fmap_cons. cbn [omap list_omap]. rewrite IH by (intros; apply Hl; by right).
    rewrite (lookup_leaf m roles table Hs Hv) by (specialize (Hl k (list_elem_of_here _ _)); lia).
    cbv zeta. unfold KphpCidToId. rewrite Z.mul_comm, Z.div_mul by done.
    specialize (Hl k (list_elem_of_here _ _)).
    destruct (Z.leb_spec KPH_CID_MAX (512 * i + k)) as [Hbig|_].
    { unfold KPH_CID_MAX, KPH_CID_MAX_L2 in Hbig. lia. }
    change KPH_CID_L0_COUNT with 512.
    rewrite (Z.mul_comm 512 i), Z.div_add_l, (Z.div_small k), Z.add_0_r by lia.
    rewrite Z.add_comm, Z_mod_plus_full, (Z.mod_small k) by lia.
    simpl. by destruct (leaf m table i =? 0). }
  apply E. intros k. by rewrite elem_of_upto.
Qed.

Lemma upto_blocks {B} (L : Z -> list B) :
  upto (64 * 512) ≫= L = upto 64 ≫= fun j => upto 512 ≫= fun k => L (512 * j + k).
Proof.
  rewrite (upto_mul 64 512) by lia. rewrite bind_bind. apply bind_ext_in. intros j _.
  by rewrite list_fmap_bind.
Qed.

Lemma for_each_fmap {A B S : Type} (f : B -> S -> ub (S * bool)) (g : A -> B) l s :
  for_each f (g <$> l) s = for_each (fun i => f (g i)) l s.
Proof.
  revert s. induction l as [|i l IH]; intros s; simpl; [done|].
  destruct (f (g i) s) as [[s' []]|]; simpl; [done|apply IH|done].
Qed.

Section visit.
Context {St : Type} (m : mem) (roles : gmap Z role) (table : Z) (cb : callback St).
Context (Hinv : cid_inv_for m roles table).

(** While the callbacks run, the tables stay as they were. *)
Definition same_tables (s : mem * St) : Prop :=
  forall a r k, roles !! a = Some r -> (forall i, r <> Leaf i) -> 0 <= k -> load s.1 a k = load m a k.

Lemma invoke_same_tables e i s s' b :
  roles !! e.1 = Some (Leaf i) -> same_tables s ->
  KphpCidEnumerateInvokeCallback cb e s = Some (s', b) -> same_tables s'.
Proof.
  intros He Hs Hstep. destruct s as [m1 st]. unfold KphpCidEnumerateInvokeCallback in Hstep.
  assert (Hheap : (forall a r, roles !! a = Some r -> (forall i, r <> Leaf i) -> heap s'.1 !! a = heap m1 !! a) ->
    same_tables s').
  { intros Hh a r k Ha Hr Hk. rewrite <- (Hs a r k Ha Hr Hk). unfold load. simpl. by rewrite (Hh a r). }
  assert (Hd : forall m2 o, heap (KphDereferenceObject m2 o) = heap m2).
  { intros m2 o. destruct (dereference_counts m2 o) as [c ->]. done. }
  apply Hheap. intros a r Ha Hr. destruct cb as [f|f].
  - unfold KphAtomicReferenceObject in Hstep.
    destruct (load m1 e.1 e.2) as [o|]; [|done]. cbn [mbind option_bind] in Hstep.
    destruct (o =? 0); cbn [negb] in Hstep; [by simplify_eq|].
    destruct (f o st) as [st' res]. simplify_eq. simpl. by rewrite Hd.
  - unfold KphAtomicMoveObjectReference in Hstep.
    destruct (load m1 e.1 e.2) as [o|]; [|done]. cbn [mbind option_bind] in Hstep.
    destruct (store m1 e.1 e.2 0) as [m2|] eqn:Hst; [|done]. cbn [mbind option_bind] in Hstep.
    assert (Hm2 : heap m2 !! a = heap m1 !! a).
    { unfold store in Hst. destruct (heap m1 !! e.1) as [l|]; [|done]. cbn [mbind option_bind] in Hst.
      case_decide; simplify_eq. simpl. apply lookup_insert_ne. intros E. rewrite E, Ha in He.
      injection He as ->. by apply (Hr i). }
    destruct (o =? 0); cbn [negb] in Hstep; simplify_eq; simpl; [done|by rewrite Hd].
Qed.

Lemma block_entries_role i e : 0 <= i < 32768 -> e ∈ block_entries m table i -> roles !! e.1 = Some (Leaf i).
Proof.
  intros Hi. unfold block_entries. destruct (Z.eqb_spec (leaf m table i) 0) as [|Hnz]; [by intros ?%elem_of_nil|].
  intros (k & -> & _)%list_elem_of_fmap. destruct Hinv as [Hs Hv _]. by apply leaf_role.
Qed.

Lemma block_same_tables i s s' b :
  0 <= i < 32768 -> same_tables s ->
  for_each (KphpCidEnumerateInvokeCallback cb) (block_entries m table i) s = Some (s', b) -> same_tables s'.
Proof.
  intros Hi. apply for_each_inv. intros e u u' b' He. eapply invoke_same_tables.
  by apply block_entries_role.
Qed.

(** A loop over the slots of the [j]th table of blocks. *)
Lemma enumerate_level1 p j s :
  roles !! p = Some (Mid j) -> same_tables s ->
  enumerate_slots p KPH_CID_L1_COUNT (enumerate_block cb) s =
    for_each (KphpCidEnumerateInvokeCallback cb) (upto 512 ≫= fun k => block_entries m table (512 * j + k)) s.
Proof.
  intros Hp Hs. rewrite for_each_bind. destruct Hinv as [Hsound Hv Hcomp].
  destruct (complete_mid m roles table Hcomp p j Hp) as [Hj Hmid].
  destruct (sound_addr m roles Hsound p _ Hp) as [Hp0 _].
  apply (for_each_ext same_tables); [| |done].
  - intros k u Hk%elem_of_upto Hu. rewrite (Hu p (Mid j) k) by (done || lia).
    rewrite (load_in m roles p (Mid j) k) by (done || sizes). cbn [mbind option_bind].
    assert (Hleaf : leaf m table (512 * j + k) = word m p k).
    { unfold leaf. cbv zeta. change KPH_CID_L1_COUNT with 512.
      rewrite (Z.mul_comm 512 j), Z.div_add_l, (Z.div_small k), Z.add_0_r, Hmid by lia.
      rewrite Z.add_comm, Z_mod_plus_full, (Z.mod_small k) by lia.
      destruct (Z.eqb_spec (level_of table) KPH_CID_TABLE_L0) as [Hl|_].
      - unfold mid in Hmid. rewrite Hl in Hmid. simpl in Hmid. congruence.
      - by destruct (Z.eqb_spec p 0). }
    unfold block_entries. rewrite Hleaf. destruct (word m p k =? 0); [done|].
    by rewrite for_each_fmap.
  - intros k u u' b Hk%elem_of_upto. apply block_same_tables. lia.
Qed.

(** An enumeration visits exactly the entries that lookups find, in the order of their ids. *)
Lemma enumerate_entries st :
  table <> 0 ->
  KphpCidEnumerate cb table (m, st) =
    fst <$> for_each (KphpCidEnumerateInvokeCallback cb) (entries m table) (m, st).
Proof.
  intros Ht. assert (Hm : same_tables (m, st)) by (intros a r k _ _ _; done).
  rewrite (entries_blocks m roles table Hinv). unfold KphpCidEnumerate.
  rewrite (proj2 (Z.eqb_neq table 0) Ht). cbv zeta. pose proof Hinv as [Hs Hv Hcomp].
  assert (Hfst : forall (r r' : ub (mem * St * bool)), r = r' -> ('(s, _) ← r; Some s) = fst <$> r').
  { intros r r' ->. by destruct r' as [[? ?]|]. }
  destruct (valid_root_cases m roles table Hs Hv) as [[Hl Hp]|[[Hl Hp]|[Hl Hp]]];
    rewrite Hl; cbn [Z.eqb KPH_CID_TABLE_L0 KPH_CID_TABLE_L1 KPH_CID_TABLE_L2 Pos.eqb]; apply Hfst.
  - destruct (sound_addr m roles Hs _ _ Hp) as [Hp0 _].
    rewrite bind_upto_head; [|done|].
    + assert (Hlf : leaf m table 0 = pointer_of table) by (unfold leaf; by rewrite Hl).
      unfold block_entries. rewrite Hlf, (proj2 (Z.eqb_neq (pointer_of table) 0)) by done.
      by rewrite for_each_fmap.
    + intros i Hi. unfold block_entries, leaf. rewrite Hl. simpl.
      destruct (Z.eqb_spec i 0); [lia|done].
  - rewrite upto_blocks, bind_upto_head; [by apply enumerate_level1|done|].
    intros j Hj. assert (E : forall l, (forall k, k ∈ l -> 0 <= k < 512) ->
      l ≫= (fun k => block_entries m table (512 * j + k)) = []).
    { induction l as [|k l IH]; intros Hk; [done|]. rewrite bind_cons, IH by (intros; apply Hk; by right).
      rewrite app_nil_r. specialize (Hk k (list_elem_of_here _ _)).
      unfold block_entries, leaf, mid. rewrite Hl. simpl. change KPH_CID_L1_COUNT with 512.
      rewrite (Z.mul_comm 512 j), Z.div_add_l, (Z.div_small k), Z.add_0_r by lia.
      by rewrite (proj2 (Z.eqb_neq j 0)) by lia. }
    apply E. intros k. by rewrite elem_of_upto.
  - rewrite upto_blocks, for_each_bind. unfold enumerate_slots at 1.
    apply (for_each_ext same_tables); [| |done].
    + intros j u Hj%elem_of_upto Hu. rewrite (Hu _ Top j) by (done || lia).
      rewrite (load_in m roles _ Top j) by (done || sizes). cbn [mbind option_bind].
      assert (Hmid : mid m table j = word m (pointer_of table) j) by (unfold mid; by rewrite Hl).
      destruct (Z.eqb_spec (word m (pointer_of table) j) 0) as [Hz|Hnz].
      * rewrite for_each_bind. rewrite (for_each_ext (fun _ => True) _ (fun _ s => Some (s, false))); [|intros k v Hk%elem_of_upto _|done|done].
        { generalize (upto 512). intros l. by induction l as [|k l IH]. }
        unfold block_entries, leaf. rewrite Hl. simpl. change KPH_CID_L1_COUNT with 512.
        rewrite (Z.mul_comm 512 j), Z.div_add_l, (Z.div_small k), Z.add_0_r by lia.
        by rewrite Hmid, Hz.
      * apply enumerate_level1; [|done]. rewrite <- Hmid in Hnz |- *. by apply (mid_role m roles table).
    + intros j u u' b Hj%elem_of_upto. rewrite for_each_bind. apply for_each_inv.
      intros k v v' b' Hk%elem_of_upto. apply block_same_tables.
      change KPH_CID_L2_COUNT with 64 in Hj. lia.
Qed.

End visit.

Lemma objects_entries m table :
  objects m table = filter (fun o => o <> 0) ((fun e => word m e.1 e.2) <$> entries m table).
Proof.
  unfold objects, entries, object_of. generalize (upto KPH_CID_LIMIT). intros l.
  induction l as [|i l IH]; [done|]. rewrite fmap_cons. cbn [omap list_omap].
  destruct (KphpCidLookupEntry m (4 * i) table) as [[e|]|]; cbn [default from_option id].
  - rewrite fmap_cons, !filter_cons. by case_decide; rewrite IH.
  - rewrite filter_cons_False by lia. done.
  - rewrite filter_cons_False by lia. done.
Qed.

Lemma elem_of_entries m roles table e :
  cid_inv_for m roles table -> e ∈ entries m table ->
  exists id, 0 <= id < KPH_CID_LIMIT /\ KphpCidLookupEntry m (4 * id) table = Some (Some e) /\
    (exists i, roles !! e.1 = Some (Leaf i)) /\ 0 <= e.2 < 512.
Proof.
  intros Hinv (id & Hid%elem_of_upto & He)%list_elem_of_omap.
  assert (Hl : KphpCidLookupEntry m (4 * id) table = Some (Some e)).
  { destruct (KphpCidLookupEntry m (4 * id) table) as [[]|]; simpl in He; by simplify_eq. }
  exists id. split; [done|]. split; [done|].
  apply (lookup_iff m roles table (4 * id) e Hinv ltac:(lia)) in Hl as (_ & Hr & Hi).
  split; [eauto|]. rewrite Hi. by apply Z.mod_pos_bound.
Qed.

Lemma to_id_mul id : KphpCidToId (4 * id) = id.
Proof. unfold KphpCidToId. rewrite Z.mul_comm. by apply Z.div_mul. Qed.

Lemma NoDup_entries m roles table : cid_inv_for m roles table -> NoDup (entries m table).
Proof.
  intros Hinv. apply NoDup_omap; [|apply NoDup_upto].
  intros x y e Hx%elem_of_upto Hy%elem_of_upto Hex Hey.
  rewrite <- (to_id_mul x), <- (to_id_mul y).
  apply (entries_distinct m table (4 * x) (4 * y) e); [by exists roles|lia|lia| |].
  - by destruct (KphpCidLookupEntry m (4 * x) table) as [[]|]; simpl in Hex; simplify_eq.
  - by destruct (KphpCidLookupEntry m (4 * y) table) as [[]|]; simpl in Hey; simplify_eq.
Qed.

Lemma table_not_null m roles table : cid_inv_for m roles table -> table <> 0.
Proof.
  intros [Hs (r & Hr & _) _] ->. change (pointer_of 0) with 0 in Hr.
  by destruct (sound_addr m roles Hs 0 r Hr).
Qed.

(** The objects in order, until the callback answers TRUE. *)
Fixpoint visit_until {St} (f : Z -> St -> St * bool) (os : list Z) (st : St) : St :=
  match os with
  | [] => st
  | o :: os => let '(st, stop) := f o st in if stop then st else visit_until f os st
  end.

Lemma callback_entries {St} (f : Z -> St -> St * bool) m roles table es st :
  cid_inv_for m roles table ->
  (forall e, e ∈ es -> (exists i, roles !! e.1 = Some (Leaf i)) /\ 0 <= e.2 < 512) ->
  (forall e, e ∈ es -> word m e.1 e.2 <> 0 -> exists n, counts m !! word m e.1 e.2 = Some n /\ 0 < n) ->
  fst <$> for_each (KphpCidEnumerateInvokeCallback (Callback f)) es (m, st) =
    Some (m, visit_until f (filter (fun o => o <> 0) ((fun e => word m e.1 e.2) <$> es)) st).
Proof.
  intros Hinv. revert st. induction es as [|e es IH]; intros st Hes Hlive; [done|].
  destruct (Hes e (list_elem_of_here _ _)) as [[i Hr] Hk].
  assert (IH' := fun st => IH st (fun x Hx => Hes x (list_elem_of_further _ _ _ Hx))
    (fun x Hx => Hlive x (list_elem_of_further _ _ _ Hx))).
  cbn [for_each KphpCidEnumerateInvokeCallback]. unfold KphAtomicReferenceObject.
  rewrite (load_leaf m roles table _ _ _ Hinv Hr Hk). cbn [mbind option_bind].
  rewrite fmap_cons. destruct (Z.eqb_spec (word m e.1 e.2) 0) as [Hz|Hnz]; cbn [negb].
  - rewrite Hz, filter_cons_False by lia. destruct m. apply IH'.
  - rewrite filter_cons_True by done. cbn [visit_until].
    destruct (Hlive e (list_elem_of_here _ _) Hnz) as (n & Hn & Hpos).
    destruct (f (word m e.1 e.2) st) as [st' stop].
    rewrite (reference_dereference m _ n Hn Hpos). cbn [mbind option_bind].
    destruct stop; [done|apply IH'].
Qed.

(** An enumeration tells the callback the objects in the table in increasing order of their
    ids, each once, until it answers TRUE, and leaves the table and the pointer counts of live
    objects as they were. *)
Theorem cid_enumerate {St} (f : Z -> St -> St * bool) m table st :
  cid_inv m table ->
  (forall o, o ∈ objects m table -> exists n, counts m !! o = Some n /\ 0 < n) ->
  KphCidEnumerate f table (m, st) = Some (m, visit_until f (objects m table) st).
Proof.
  intros [roles Hinv] Hlive. unfold KphCidEnumerate.
  rewrite (enumerate_entries m roles table (Callback f) Hinv st (table_not_null _ _ _ Hinv)), objects_entries.
  apply (callback_entries f m roles table); [done| |].
  - intros e He. by destruct (elem_of_entries m roles table e Hinv He) as (id & _ & _ & ? & ?).
  - intros e He Hnz. apply Hlive. rewrite objects_entries. apply list_elem_of_filter. split; [done|].
    apply list_elem_of_fmap. by exists e.
Qed.

Lemma dereference_congr m1 m2 o : counts m1 = counts m2 ->
  counts (KphDereferenceObject m1 o) = counts (KphDereferenceObject m2 o).
Proof. intros Hc. unfold KphDereferenceObject. rewrite Hc. destruct (counts m2 !! o); [case_match|]; done. Qed.

Lemma dereference_all_congr os m1 m2 : counts m1 = counts m2 ->
  counts (foldl KphDereferenceObject m1 os) = counts (foldl KphDereferenceObject m2 os).
Proof.
  revert m1 m2. induction os as [|o os IH]; intros m1 m2 Hc; [done|]. apply IH. by apply dereference_congr.
Qed.

Lemma rundown_entries {St} (f : Z -> St -> St) roles table es : forall m st,
  cid_inv_for m roles table -> NoDup es ->
  (forall e, e ∈ es -> (exists i, roles !! e.1 = Some (Leaf i)) /\ 0 <= e.2 < 512) ->
  let os := filter (fun o => o <> 0) ((fun e => word m e.1 e.2) <$> es) in
  exists m', for_each (KphpCidEnumerateInvokeCallback (Rundown f)) es (m, st) =
      Some ((m', foldl (fun st o => f o st) st os), false) /\
    cid_inv_for m' roles table /\
    (forall e, e ∈ es -> word m' e.1 e.2 = 0) /\
    counts m' = counts (foldl KphDereferenceObject m os) /\
    (forall b j, 0 <= j -> (b, j) ∉ es -> word m' b j = word m b j).
Proof.
  induction es as [|e es IH]; intros m st Hinv Hnd Hes os.
  { exists m. split; [done|]. split; [done|]. split; [by intros e ?%elem_of_nil|]. done. }
  apply NoDup_cons in Hnd as [Hnin Hnd].
  destruct (Hes e (list_elem_of_here _ _)) as [[i Hr] Hk].
  destruct (leaf_store_defined m roles table _ _ _ 0 Hinv Hr Hk) as (m1 & Hst & Hc1).
  destruct (leaf_store_inv m m1 roles table _ _ _ 0 Hinv Hr Hk Hst) as [Hinv1 Hw1].
  set (m2 := if negb (word m e.1 e.2 =? 0) then KphDereferenceObject m1 (word m e.1 e.2) else m1).
  assert (exists c, m2 = set_counts m1 c) as [c Hm2].
  { subst m2. destruct (word m e.1 e.2 =? 0); simpl; [by exists (counts m1); destruct m1|apply dereference_counts]. }
  assert (Hw2 : forall b j, word m2 b j = word m1 b j) by (intros; by rewrite Hm2).
  assert (Hinv2 : cid_inv_for m2 roles table) by (rewrite Hm2; by apply inv_counts).
  set (st1 := if negb (word m e.1 e.2 =? 0) then f (word m e.1 e.2) st else st).
  destruct (IH m2 st1 Hinv2 Hnd) as (m' & Hrun & Hinv' & Hz' & Hc' & Hsame).
  { intros x Hx. apply Hes. by right. }
  assert (Hos : (fun e => word m2 e.1 e.2) <$> es = (fun e => word m e.1 e.2) <$> es).
  { apply list_fmap_ext. intros n x Hx. rewrite Hw2. rewrite Hw1.
    - rewrite decide_False; [done|]. intros [E1 E2]. apply Hnin.
      apply list_elem_of_lookup_2 in Hx. destruct x, e. simpl in *. by subst.
    - apply list_elem_of_lookup_2 in Hx. pose proof (proj2 (Hes x (list_elem_of_further _ _ _ Hx))). lia. }
  rewrite Hos in Hrun, Hc'. exists m'.
  assert (Hstep : KphpCidEnumerateInvokeCallback (Rundown f) e (m, st) = Some (m2, st1, false)).
  { unfold KphpCidEnumerateInvokeCallback, KphAtomicMoveObjectReference.
    rewrite (load_leaf m roles table _ _ _ Hinv Hr Hk). cbn [mbind option_bind]. rewrite Hst.
    cbn [mbind option_bind]. subst m2 st1. by destruct (word m e.1 e.2 =? 0). }
  split; [|split; [done|split; [|split]]].
  - cbn [for_each]. rewrite Hstep. cbn [mbind option_bind]. rewrite Hrun. subst os.
    rewrite fmap_cons. subst st1. destruct (Z.eqb_spec (word m e.1 e.2) 0) as [Hz|Hnz]; cbn [negb].
    + rewrite filter_cons_False by lia. done.
    + rewrite filter_cons_True by done. done.
  - intros x [->|Hx]%elem_of_cons; [|by apply Hz'].
    assert ((e.1, e.2) ∉ es) by by destruct e.
    rewrite Hsame by (done || lia). rewrite Hw2, Hw1 by lia. by rewrite decide_True.
  - rewrite Hc'. subst os. rewrite fmap_cons. subst m2.
    destruct (Z.eqb_spec (word m e.1 e.2) 0) as [Hz|Hnz]; cbn [negb].
    + rewrite filter_cons_False by lia. by apply dereference_all_congr.
    + rewrite filter_cons_True by done. cbn [foldl]. apply dereference_all_congr.
      by apply dereference_congr.
  - intros b j Hj Hnot. rewrite Hsame by (done || (intros ?; apply Hnot; by right)).
    rewrite Hw2, Hw1 by done. rewrite decide_False; [done|]. intros [-> ->]. apply Hnot.
    destruct e. by left.
Qed.

(** A rundown tells the callback every object in the table once, in the order of the ids,
    gives back the table's reference to each, and leaves every entry empty. *)
Theorem cid_rundown {St} (f : Z -> St -> St) m table st :
  cid_inv m table ->
  exists m', KphCidRundown f table (m, st) = Some (m', foldl (fun st o => f o st) st (objects m table)) /\
    cid_inv m' table /\ (forall Cid, 0 <= Cid -> object_of m' table Cid = 0) /\
    counts m' = counts (foldl KphDereferenceObject m (objects m table)).
Proof.
  intros [roles Hinv]. unfold KphCidRundown.
  rewrite (enumerate_entries m roles table (Rundown f) Hinv st (table_not_null _ _ _ Hinv)).
  destruct (rundown_entries f roles table (entries m table) m st Hinv (NoDup_entries _ _ _ Hinv))
    as (m' & Hrun & Hinv' & Hz & Hc & _).
  { intros e He. by destruct (elem_of_entries m roles table e Hinv He) as (id & _ & _ & ? & ?). }
  rewrite objects_entries, Hrun. exists m'. split; [done|]. split; [by exists roles|]. split; [|done].
  intros Cid HCid. unfold object_of. rewrite (lookup_same_roles m m' roles table Cid Hinv Hinv' HCid).
  destruct (KphpCidLookupEntry m Cid table) as [[e|]|] eqn:Hl; [|done|done]. apply Hz.
  pose proof Hl as Hl'. apply (lookup_iff m roles table Cid e Hinv HCid) in Hl' as (Hid & Hr & Hi).
  apply list_elem_of_omap. exists (KphpCidToId Cid). split.
  { apply elem_of_upto. split; [unfold KphpCidToId; apply Z.div_pos; lia|done]. }
  assert (Hl4 : KphpCidLookupEntry m (4 * KphpCidToId Cid) table = Some (Some e)); [|by rewrite Hl4].
  apply (lookup_iff m roles table _ e Hinv).
  - unfold KphpCidToId. pose proof (Z.div_pos Cid 4). lia.
  - by rewrite to_id_mul.
Qed.

(** ** Deletion frees every block once *)

Definition freed (m m' : mem) (D : Z -> Prop) : Prop :=
  (forall a, D a -> heap m' !! a = None) /\ (forall a, ~ D a -> heap m' !! a = heap m !! a).

Lemma free_one m a l : heap m !! a = Some l -> exists m', KphFree m a = Some m' /\ freed m m' (fun b => b = a).
Proof.
  intros Ha. unfold KphFree. rewrite Ha. cbn [mbind option_bind]. eexists. split; [reflexivity|].
  split; simpl; [intros b ->; apply lookup_delete_eq|intros b Hb; by apply lookup_delete_ne].
Qed.

(** The loop of a table: slot [k] stands for the blocks [D k], freed by its body. *)
Lemma free_slots_spec m p n l (body : mem -> Z -> ub mem) (D : Z -> Z -> Prop) :
  heap m !! p = Some l -> Z.of_nat (length l) = n ->
  (forall k, 0 <= k < n -> ~ D k p) ->
  (forall k k' a, D k a -> D k' a -> k = k') ->
  (forall k a, 0 <= k < n -> word m p k = 0 -> ~ D k a) ->
  (forall k m1, 0 <= k < n -> word m p k <> 0 -> (forall a, D k a -> heap m1 !! a = heap m !! a) ->
    exists m2, body m1 (word m p k) = Some m2 /\ freed m1 m2 (D k)) ->
  exists m', free_slots p n body m = Some m' /\
    freed m m' (fun a => a = p \/ exists k, 0 <= k < n /\ D k a).
Proof.
  intros Hl Hn Hp Hdisj Hnull Hbody. unfold free_slots.
  assert (Hloop : forall ks m1, NoDup ks -> (forall k, k ∈ ks -> 0 <= k < n) ->
    heap m1 !! p = heap m !! p ->
    (forall k a, k ∈ ks -> D k a -> heap m1 !! a = heap m !! a) ->
    exists m2, for_each (fun i m =>
        p ← load m p i;
        if p =? 0 then Some (m, false) else m ← body m p; Some (m, false)) ks m1 = Some (m2, false) /\
      freed m1 m2 (fun a => exists k, k ∈ ks /\ D k a)).
  { induction ks as [|k ks IH]; intros m1 Hnd Hr Hp1 Hd.
    { exists m1. split; [done|]. split; [by intros a (k & ?%elem_of_nil & _)|done]. }
    apply NoDup_cons in Hnd as [Hnin Hnd]. pose proof (Hr k (list_elem_of_here _ _)) as Hk.
    assert (Hw : load m1 p k = Some (word m p k)).
    { unfold word, load. rewrite Hp1, Hl. cbn [mbind option_bind].
      destruct (lookup_lt_is_Some_2 l (Z.to_nat k)) as [w ->]; [lia|done]. }
    assert (Hone : exists m2, (if word m p k =? 0 then Some (m1, false)
        else m ← body m1 (word m p k); Some (m, false)) = Some (m2, false) /\ freed m1 m2 (D k)).
    { destruct (Z.eqb_spec (word m p k) 0) as [Hz|Hnz].
      - exists m1. split; [done|]. split; [|done]. intros a Ha. by destruct (Hnull k a Hk Hz).
      - destruct (Hbody k m1 Hk Hnz) as (m2 & -> & Hf); [intros a; apply Hd; left|]. by exists m2. }
    destruct Hone as (m2 & Hone & Hf1 & Hf2).
    destruct (IH m2 Hnd) as (m3 & Hrest & Hg1 & Hg2).
    - intros j Hj. apply Hr. by right.
    - by rewrite Hf2 by (by apply Hp).
    - intros j a Hj Ha. rewrite Hf2; [apply (Hd j); [by right|done]|].
      intros Hka. apply Hnin. by rewrite (Hdisj k j a Hka Ha).
    - exists m3. split.
      { cbn [for_each]. rewrite Hw. cbn [mbind option_bind]. rewrite Hone. cbn [mbind option_bind]. exact Hrest. }
      split.
      + intros a (j & [->|Hj]%elem_of_cons & Ha); [|by apply Hg1; exists j].
        rewrite Hg2; [by apply Hf1|]. intros (j & Hj & Hja). apply Hnin. by rewrite (Hdisj k j a Ha Hja).
      + intros a Hna. rewrite Hg2, Hf2; [done| |].
        * intros Ha. apply Hna. exists k. split; [left|done].
        * intros (j & Hj & Ha). apply Hna. exists j. split; [by right|done]. }
  destruct (Hloop (upto n) m) as (m1 & -> & Hf1 & Hf2); [apply NoDup_upto| |done|done|].
  { intros k. by rewrite elem_of_upto. }
  cbn [mbind option_bind].
  assert (Hp1 : heap m1 !! p = Some l).
  { rewrite Hf2; [done|]. intros (k & Hk%elem_of_upto & Hkp). by apply (Hp k). }
  destruct (free_one m1 p l Hp1) as (m2 & -> & Hg1 & Hg2). exists m2. split; [done|]. split.
  - intros a [->|(k & Hk & Ha)]; [by apply Hg1|].
    destruct (decide (a = p)) as [->|Hne]; [by apply Hg1|]. rewrite Hg2 by done. apply Hf1.
    exists k. split; [by apply elem_of_upto|done].
  - intros a Hna. rewrite Hg2, Hf2; [done| |]; [|tauto].
    intros (k & Hk%elem_of_upto & Ha). apply Hna. right. by exists k.
Qed.

(** The blocks of the [j]th table of blocks. *)
Definition under (roles : gmap Z role) (j a : Z) : Prop :=
  roles !! a = Some (Mid j) \/ exists k, 0 <= k < 512 /\ roles !! a = Some (Leaf (512 * j + k)).

Lemma free_level1 m roles table p j m1 :
  cid_inv_for m roles table -> roles !! p = Some (Mid j) ->
  (forall a, under roles j a -> heap m1 !! a = heap m !! a) ->
  exists m2, free_slots p KPH_CID_L1_COUNT KphFree m1 = Some m2 /\ freed m1 m2 (under roles j).
Proof.
  intros [Hs Hv Hcomp] Hp Hsame.
  destruct (complete_mid m roles table Hcomp p j Hp) as [Hj Hmid].
  destruct (sound_addr m roles Hs p _ Hp) as [Hp0 _].
  destruct (sound_block m roles Hs p _ Hp) as (l & Hl & Hlen).
  assert (Hp1 : heap m1 !! p = Some l) by (rewrite Hsame by (by left); done).
  assert (Hw : forall k, word m1 p k = word m p k) by (intros; unfold word, load; by rewrite Hp1, Hl).
  assert (Hleaf : forall k, 0 <= k < 512 -> forall a, roles !! a = Some (Leaf (512 * j + k)) -> a = word m p k).
  { intros k Hk a Ha. destruct (complete_leaf m roles table Hcomp a _ Ha) as [_ <-].
    unfold leaf. cbv zeta. change KPH_CID_L1_COUNT with 512.
    rewrite (Z.mul_comm 512 j), Z.div_add_l, (Z.div_small k), Z.add_0_r, Hmid by lia.
    rewrite Z.add_comm, Z_mod_plus_full, (Z.mod_small k) by lia.
    destruct (Z.eqb_spec (level_of table) KPH_CID_TABLE_L0) as [Hl0|_].
    - unfold mid in Hmid. rewrite Hl0 in Hmid. simpl in Hmid. congruence.
    - by destruct (Z.eqb_spec p 0). }
  destruct (free_slots_spec m1 p KPH_CID_L1_COUNT l KphFree
    (fun k a => 0 <= k < 512 /\ roles !! a = Some (Leaf (512 * j + k)))) as (m2 & Hfree & Hf1 & Hf2); try done.
  - intros k _ [_ Ha]. congruence.
  - intros k k' a [Hk Ha] [Hk' Ha']. rewrite Ha in Ha'. injection Ha' as Ha'. lia.
  - intros k a Hk Hz [_ Ha]. rewrite Hw, <- (Hleaf k Hk a Ha) in Hz.
    by destruct (sound_addr m roles Hs a _ Ha).
  - intros k m3 Hk Hnz Hsame3. rewrite Hw in *.
    pose proof (sound_slot m roles Hs p _ k Hp ltac:(done) Hk Hnz) as Hr. simpl in Hr.
    change KPH_CID_L1_COUNT with 512 in Hr, Hk.
    destruct (sound_block m roles Hs _ _ Hr) as (l' & Hl' & _).
    destruct (free_one m3 (word m p k) l') as (m4 & -> & Hg1 & Hg2).
    { rewrite Hsame3, Hsame; [done|right; eauto|done]. }
    exists m4. split; [done|]. split.
    + intros a [_ Ha]. apply Hg1. by apply Hleaf.
    + intros a Hna. apply Hg2. intros ->. by apply Hna.
  - exists m2. split; [done|]. split.
    + intros a [Ha|(k & Hk & Ha)]; apply Hf1.
      * left. destruct (complete_mid m roles table Hcomp a j Ha) as [_ <-]. done.
      * right. exists k. done.
    + intros a Hna. apply Hf2. intros [->|(k & _ & Hk & Ha)]; apply Hna; [by left|right; eauto].
Qed.

(** What a deletion leaves: every block of the table is gone, and nothing else. *)
Definition deleted (m : mem) (roles : gmap Z role) (r : option mem) : Prop :=
  exists m', r = Some m' /\ forall a, heap m' !! a = if roles !! a is Some _ then None else heap m !! a.

Lemma freed_deleted m roles r D : (exists m', r = Some m' /\ freed m m' D) -> (forall a, D a <-> is_Some (roles !! a)) -> deleted m roles r.
Proof.
  intros (m' & -> & Hf1 & Hf2) HD. exists m'. split; [done|]. intros a.
  destruct (roles !! a) eqn:Ha; [apply Hf1, HD; by rewrite Ha|apply Hf2]. rewrite HD, Ha. by intros [].
Qed.

Lemma delete_level0 m roles table :
  cid_inv_for m roles table -> level_of table = 0 -> roles !! pointer_of table = Some (Leaf 0) ->
  deleted m roles (KphFree m (pointer_of table)).
Proof.
  intros Hinv Hl Hp. pose proof Hinv as [Hs Hv Hcomp].
  destruct (sound_block m roles Hs _ _ Hp) as (l & Hbl & _).
  eapply freed_deleted; [by eapply free_one|]. intros a. simpl. split; [intros ->; eauto|].
  intros [[|j|i] Ha].
  + destruct (complete_top m roles table Hcomp a Ha) as [Ht _]. by rewrite Hl in Ht.
  + destruct (complete_mid m roles table Hcomp a j Ha) as [_ Hm]. unfold mid in Hm. rewrite Hl in Hm.
    simpl in Hm. by destruct (sound_addr m roles Hs a _ Ha).
  + destruct (complete_leaf m roles table Hcomp a i Ha) as [_ Hm]. unfold leaf in Hm. rewrite Hl in Hm.
    simpl in Hm. destruct (i =? 0); [done|]. by destruct (sound_addr m roles Hs a _ Ha).
Qed.

Lemma delete_level1 m roles table :
  cid_inv_for m roles table -> level_of table = 1 -> roles !! pointer_of table = Some (Mid 0) ->
  deleted m roles (free_slots (pointer_of table) KPH_CID_L1_COUNT KphFree m).
Proof.
  intros Hinv Hl Hp. pose proof Hinv as [Hs Hv Hcomp].
  eapply freed_deleted; [apply (free_level1 m roles table _ 0 m Hinv Hp); done|].
  intros a. split; [intros [?|(k & _ & ?)]; eauto|]. intros [[|j|i] Ha].
  + destruct (complete_top m roles table Hcomp a Ha) as [Ht _]. by rewrite Hl in Ht.
  + left. destruct (complete_mid m roles table Hcomp a j Ha) as [_ Hm]. unfold mid in Hm. rewrite Hl in Hm.
    simpl in Hm. destruct (Z.eqb_spec j 0) as [->|]; [done|]. by destruct (sound_addr m roles Hs a _ Ha).
  + right. destruct (complete_leaf m roles table Hcomp a i Ha) as [Hi Hm].
    pose proof (Z.mod_pos_bound i 512 ltac:(done)). pose proof (Z.div_mod i 512 ltac:(done)).
    exists (i mod 512). split; [done|]. unfold leaf, mid in Hm. rewrite Hl in Hm. simpl in Hm.
    change KPH_CID_L1_COUNT with 512 in Hm.
    destruct (Z.eqb_spec (i / 512) 0) as [Hz|].
    * rewrite Ha. do 2 f_equal. lia.
    * simpl in Hm. by destruct (sound_addr m roles Hs a _ Ha).
Qed.

Lemma delete_level2 m roles table :
  cid_inv_for m roles table -> level_of table = 2 -> roles !! pointer_of table = Some Top ->
  deleted m roles (free_slots (pointer_of table) KPH_CID_L2_COUNT (fun m tableL1 => free_slots tableL1 KPH_CID_L1_COUNT KphFree m) m).
Proof.
  intros Hinv Hl Hp. pose proof Hinv as [Hs Hv Hcomp].
  destruct (sound_block m roles Hs _ _ Hp) as (l & Hbl & Hlen).
  eapply freed_deleted; [eapply (free_slots_spec m _ _ l _ (fun j a => 0 <= j < 64 /\ under roles j a)); try done|].
  + intros k _ [_ [Ha|(i & _ & Ha)]]; congruence.
  + intros j j' a [Hj [Ha|(k & Hk & Ha)]] [Hj' [Ha'|(k' & Hk' & Ha')]]; rewrite Ha in Ha'; try done;
      injection Ha' as Ha'; lia.
  + intros j a Hj Hz [_ Hu]. assert (Hm0 : mid m table j = 0) by (unfold mid; by rewrite Hl).
    destruct Hu as [Ha|(k & Hk & Ha)]; destruct (sound_addr m roles Hs a _ Ha) as [Hne _]; apply Hne.
    * destruct (complete_mid m roles table Hcomp a j Ha) as [_ <-]. done.
    * destruct (complete_leaf m roles table Hcomp a _ Ha) as [_ <-]. unfold leaf. cbv zeta.
      rewrite Hl. change KPH_CID_L1_COUNT with 512. simpl.
      rewrite (Z.mul_comm 512 j), Z.div_add_l, (Z.div_small k), Z.add_0_r, Hm0 by lia. done.
  + intros j m1 Hj Hnz Hsame. change KPH_CID_L2_COUNT with 64 in Hj.
    pose proof (sound_slot m roles Hs _ Top j Hp ltac:(done) Hj Hnz) as Hr. simpl in Hr.
    destruct (free_level1 m roles table _ j m1 Hinv Hr) as (m2 & Hfree & Hf1 & Hf2).
    { intros a Ha. by apply Hsame. }
    exists m2. split; [done|]. split; [intros a [_ Ha]; by apply Hf1|].
    intros a Ha. apply Hf2. intros Hu. by apply Ha.
  + intros a. simpl. split.
    * intros [->|(j & _ & _ & [?|(k & _ & ?)])]; eauto.
    * change KPH_CID_L2_COUNT with 64. intros [[|j|i] Ha].
      -- left. by destruct (complete_top m roles table Hcomp a Ha).
      -- right. destruct (complete_mid m roles table Hcomp a j Ha) as [Hj _]. exists j.
         split; [done|]. split; [done|by left].
      -- right. destruct (complete_leaf m roles table Hcomp a i Ha) as [Hi _].
         pose proof (Z.mod_pos_bound i 512 ltac:(done)). pose proof (Z.div_mod i 512 ltac:(done)).
         exists (i / 512). split; [lia|]. split; [lia|]. right. exists (i mod 512). split; [done|].
         rewrite Ha. do 2 f_equal. lia.
Qed.

(** Deleting a table frees every block it has, each exactly once, and no other memory. *)
Theorem cid_delete m roles table :
  cid_inv_for m roles table ->
  exists m', KphCidTableDelete m table = Some m' /\
    forall a, heap m' !! a = if roles !! a is Some _ then None else heap m !! a.
Proof.
  intros Hinv. pose proof Hinv as [Hs Hv Hcomp]. unfold KphCidTableDelete.
  rewrite (proj2 (Z.eqb_neq table 0)) by (by eapply table_not_null). cbv zeta.
  destruct (valid_root_cases m roles table Hs Hv) as [[Hl Hp]|[[Hl Hp]|[Hl Hp]]]; rewrite Hl.
  - by apply (delete_level0 m roles table).
  - by apply (delete_level1 m roles table).
  - by apply (delete_level2 m roles table).
Qed.

(** ** Creation *)

Lemma created_inv `{PoolLaws} m :
  let '(m', table, status) := KphCidTableCreate m in
  status = STATUS_SUCCESS -> cid_inv m' table /\ counts m' = counts m /\
    (forall Cid, 0 <= Cid -> object_of m' table Cid = 0) /\
    KphpCidLookupEntry m' 4 table = Some (Some (table, 1)).
Proof.
  unfold KphCidTableCreate.
  destruct (allocate_spec m KPH_CID_TABLE_L0 (Leaf 0)) as (m' & a & -> & Hc & Hcase); [by left|].
  destruct Hcase as [(-> & _)|(Ha & Hal & Hn & Hh)]; [done|].
  intros _. destruct (root_word_0 a Hal) as [Hl Hp].
  assert (Hinv : cid_inv_for m' {[a := Leaf 0]} a).
  { split; [split| |split].
    - intros b r [<- <-]%lookup_singleton_Some. rewrite Hh, lookup_insert_eq.
      eexists. split; [reflexivity|]. rewrite length_replicate. done.
    - intros b r [<- <-]%lookup_singleton_Some. done.
    - intros b r k [<- <-]%lookup_singleton_Some Hr. by destruct (Hr 0).
    - exists (Leaf 0). rewrite Hp, Hl. by rewrite lookup_singleton_eq.
    - intros b i [<- [= <-]]%lookup_singleton_Some. split; [lia|]. unfold leaf. by rewrite Hl.
    - by intros b j [_ ?]%lookup_singleton_Some.
    - by intros b [_ ?]%lookup_singleton_Some. }
  split; [by exists {[a := Leaf 0]}|]. split; [done|]. split.
  - intros Cid HCid. unfold object_of.
    destruct (KphpCidLookupEntry m' Cid a) as [[e|]|] eqn:He; [|done|done].
    apply (lookup_iff _ _ _ _ _ Hinv HCid) in He as (_ & [<- _]%lookup_singleton_Some & _).
    rewrite (word_new m m' a _ a _ Hn Hh). by rewrite decide_True.
  - unfold KphpCidLookupEntry. by rewrite Hl, Hp.
Qed.

(** ** Witnesses *)

(** A pool that never refuses: the first free multiple of 16. *)
#[export] Instance DemoPool : Pool :=
  fun _ h _ => Some (16 * fresh ({[0]} ∪ set_map (fun a => a / 16) (dom h : gset Z) : gset Z)).

#[export] Instance DemoPoolLaws : PoolLaws.
Proof.
  assert (Hf : forall h : words, fresh ({[0]} ∪ set_map (fun a => a / 16) (dom h : gset Z) : gset Z) ∉
    ({[0]} ∪ set_map (fun a => a / 16) (dom h : gset Z) : gset Z)) by (intros h; apply is_fresh).
  split; intros t h n a [= <-]; specialize (Hf h); set (x := fresh _) in *; clearbody x.
  - destruct (h !! (16 * x)) eqn:Hx; [|done]. exfalso. apply Hf, elem_of_union_r.
    apply elem_of_map. exists (16 * x). split; [by rewrite Z.mul_comm, Z.div_mul|].
    apply elem_of_dom. eauto.
  - split; [|by rewrite Z.mul_comm, Z.mod_mul]. intros Hz. apply Hf, elem_of_union_l.
    apply elem_of_singleton. lia.
Qed.

Definition demo : mem * Z := (KphCidTableCreate {| heap := ∅; counts := {[ 0x1000 := 1 ]}; clock := 0 |}).1.

Lemma demo_created :
  cid_inv demo.1 demo.2 /\ counts demo.1 = {[ 0x1000 := 1 ]} /\
  (forall Cid, 0 <= Cid -> object_of demo.1 demo.2 Cid = 0) /\
  KphpCidLookupEntry demo.1 4 demo.2 = Some (Some (demo.2, 1)).
Proof.
  pose proof (created_inv {| heap := ∅; counts := {[ 0x1000 := 1 ]}; clock := 0 |}) as Hc.
  unfold demo. destruct (KphCidTableCreate _) as [[m' table] status] eqn:E.
  apply Hc. change status with (m', table, status).2. rewrite <- E. vm_compute. reflexivity.
Qed.

(** Id 1000 needs a level 1 table. *)
Lemma cid_get_entry_witness :
  exists m' table' e, KphCidGetEntry demo.1 4000 demo.2 = Some (m', table', Some e) /\
    KphpCidLookupEntry m' 4000 table' = Some (Some e) /\
    KphpCidLookupEntry m' 4 table' = Some (Some (demo.2, 1)).
Proof.
  destruct demo_created as (Hinv & _ & _ & H1).
  destruct (cid_get_entry demo.1 demo.2 4000 Hinv ltac:(lia)) as (m' & table' & e & Hget & _ & Hold & He).
  destruct e as [e|].
  - exists m', table', e. split; [exact Hget|]. split; [apply He|]. apply (Hold 4 _); [lia|exact H1].
  - exfalso. destruct He as [He|(t & h & n & [=])]. vm_compute in He. done.
Defined.

Lemma cid_stale_root_witness :
  exists m' table', rtc get_entry_step demo (m', table') /\
    (KphpCidLookupEntry m' 4000 demo.2 = Some None \/
     KphpCidLookupEntry m' 4000 demo.2 = KphpCidLookupEntry m' 4000 table').
Proof.
  destruct demo_created as (Hinv & _).
  assert (exists m' table' e, KphCidGetEntry demo.1 4000 demo.2 = Some (m', table', e)) as (m' & table' & e & Hget).
  { destruct Hinv as [roles Hinv].
    destruct (get_entry_spec demo.1 roles demo.2 4000 Hinv ltac:(lia)) as (m' & table' & e & Hget & _); eauto. }
  assert (Hst : rtc get_entry_step (demo.1, demo.2) (m', table')).
  { apply rtc_once. exists 4000, e. split; [lia|exact Hget]. }
  exists m', table'. split; [exact Hst|].
  exact (cid_stale_root demo.1 demo.2 m' table' 4000 Hinv Hst ltac:(lia)).
Defined.

Lemma cid_entries_distinct_witness : KphpCidToId 4 = KphpCidToId 7.
Proof.
  destruct demo_created as (Hinv & _ & _ & H1).
  apply (cid_entries_distinct demo.1 demo.2 4 7 (demo.2, 1) Hinv); [lia|lia|exact H1|].
  vm_compute. reflexivity.
Defined.

Definition demo_assigned : mem := default demo.1 (KphCidAssignObject demo.1 (demo.2, 1) 0x1000).

Lemma demo_assigned_inv :
  cid_inv demo_assigned demo.2 /\
  forall Cid, 0 <= Cid -> object_of demo_assigned demo.2 Cid = if decide (KphpCidToId Cid = 1) then 0x1000 else 0.
Proof.
  destruct demo_created as (Hinv & Hc & Hz & H1).
  destruct (assign_object demo.1 demo.2 4 (demo.2, 1) 0x1000 Hinv ltac:(lia) H1)
    as (m' & Ha & Hinv' & Hobj & _).
  assert (demo_assigned = m') as -> by (unfold demo_assigned; by rewrite Ha).
  split; [exact Hinv'|]. intros Cid HCid. rewrite (Hobj Cid HCid), (Hz Cid HCid). reflexivity.
Qed.

Lemma cid_assign_object_witness :
  exists m', KphCidAssignObject demo.1 (demo.2, 1) 0x1000 = Some m' /\ object_of m' demo.2 4 = 0x1000.
Proof.
  destruct demo_created as (Hinv & _ & _ & H1).
  destruct (cid_assign_object demo.1 demo.2 4 (demo.2, 1) 0x1000 Hinv ltac:(lia) H1)
    as (m' & Ha & _ & Hobj & _).
  exists m'. split; [exact Ha|]. rewrite (Hobj 4) by lia. reflexivity.
Defined.

(** Collect the objects, last first. *)
Definition collect (o : Z) (st : list Z) : list Z * bool := (o :: st, false).

Lemma cid_enumerate_witness :
  KphCidEnumerate collect demo.2 (demo_assigned, []) =
    Some (demo_assigned, visit_until collect (objects demo_assigned demo.2) []).
Proof.
  destruct demo_assigned_inv as [Hinv Hobj].
  apply (cid_enumerate collect demo_assigned demo.2 [] Hinv).
  intros o [Ho (id & -> & Hid%elem_of_upto)%list_elem_of_fmap]%list_elem_of_filter.
  rewrite Hobj in Ho |- * by lia. destruct (decide (KphpCidToId (4 * id) = 1)) as [_|_].
  - exists 2. split; [vm_compute; reflexivity|lia].
  - done.
Defined.

Lemma cid_rundown_witness :
  exists m', KphCidRundown (fun o st => o :: st) demo.2 (demo_assigned, []) =
      Some (m', foldl (fun st o => o :: st) [] (objects demo_assigned demo.2)) /\
    object_of m' demo.2 4 = 0.
Proof.
  destruct demo_assigned_inv as [Hinv _].
  destruct (cid_rundown (fun o st => o :: st) demo_assigned demo.2 [] Hinv) as (m' & Hrun & _ & Hz & _).
  exists m'. split; [exact Hrun|]. apply Hz. lia.
Defined.

Lemma cid_delete_witness : exists m', KphCidTableDelete demo.1 demo.2 = Some m'.
Proof.
  destruct demo_created as ([roles Hinv] & _).
  destruct (cid_delete demo.1 roles demo.2 Hinv) as (m' & Hd & _). exists m'. exact Hd.
Defined.

End CidTable.
