(* ===== verification/AvlTree.v ===== *)
(** * Balanced search trees: [phlib/avltree.c]

    The links of a tree live in a heap: every element is the address of a [PH_AVL_LINKS], and the
    tree's own [Root] field is one more, the header, whose right child is the root. The operations
    are the code's pointer programs. They are proved against trees of addresses: [rep] says that
    the heap holds a tree, and the theorems are about its in-order sequence and its balance. *)

From Stdlib Require Import Sorted.
From S2P Require Import Prelude.

Module AvlTree.

(** ** Links and the heap *)

Record PH_AVL_LINKS := { Parent : Z; Left : Z; Right : Z; Balance : Z }.

Abbreviation heap := (gmap Z PH_AVL_LINKS).

(** The code comes in mirror pairs; [dir] is the sign of a side in a balance factor. *)
Inductive side := LeftChild | RightChild.
#[global] Instance side_eq_dec : EqDecision side.
Proof. solve_decision. Defined.
Definition opp (s : side) : side := match s with LeftChild => RightChild | RightChild => LeftChild end.
Definition dir (s : side) : Z := match s with LeftChild => -1 | RightChild => 1 end.

Definition child (s : side) (l : PH_AVL_LINKS) : Z :=
  match s with LeftChild => Left l | RightChild => Right l end.
Definition set_child (s : side) (v : Z) (l : PH_AVL_LINKS) : PH_AVL_LINKS :=
  match s with
  | LeftChild => {| Parent := Parent l; Left := v; Right := Right l; Balance := Balance l |}
  | RightChild => {| Parent := Parent l; Left := Left l; Right := v; Balance := Balance l |}
  end.
Definition set_parent (v : Z) (l : PH_AVL_LINKS) : PH_AVL_LINKS :=
  {| Parent := v; Left := Left l; Right := Right l; Balance := Balance l |}.
Definition set_balance (v : Z) (l : PH_AVL_LINKS) : PH_AVL_LINKS :=
  {| Parent := Parent l; Left := Left l; Right := Right l; Balance := v |}.

(** [p->f = ...]: undefined when [p] is not the address of links. *)
Definition put (h : heap) (p : Z) (f : PH_AVL_LINKS -> PH_AVL_LINKS) : ub heap :=
  l ← h !! p; Some (<[p := f l]> h).

(** [if (p) p->Parent = v;] *)
Definition put_parent (h : heap) (p v : Z) : ub heap :=
  if p =? 0 then Some h else put h p (set_parent v).

(** A [PPH_AVL_LINKS *]: the address of a child field. *)
Abbreviation ref := (Z * side)%type.
Definition deref (h : heap) (r : ref) : ub Z := l ← h !! r.1; Some (child r.2 l).
Definition assign (h : heap) (r : ref) (v : Z) : ub heap := put h r.1 (set_child r.2 v).

(** ** Rotations

    [rotate s] moves the child on side [s] up: [PhpRotateRightAvlLinks] for the left child. *)
Definition rotate (s : side) (h : heap) (Root : ref) : ub heap :=
  P ← deref h Root;
  Q ← deref h (P, s);
  h ← assign h Root Q;
  lP ← h !! P;
  h ← put h Q (set_parent (Parent lP));
  B ← deref h (Q, opp s);
  h ← assign h (P, s) B;
  h ← put_parent h B P;
  h ← assign h (Q, opp s) P;
  put h P (set_parent Q).

Definition PhpRotateLeftAvlLinks := rotate RightChild.
Definition PhpRotateRightAvlLinks := rotate LeftChild.

(** [rotate_twice s] moves the inner grandchild on side [s] up. *)
Definition rotate_twice (s : side) (h : heap) (Root : ref) : ub heap :=
  P ← deref h Root;
  Q ← deref h (P, s);
  R ← deref h (Q, opp s);
  h ← assign h Root R;
  lP ← h !! P;
  h ← put h R (set_parent (Parent lP));
  B ← deref h (R, s);
  h ← assign h (Q, opp s) B;
  h ← put_parent h B Q;
  h ← assign h (R, s) Q;
  h ← put h Q (set_parent R);
  C ← deref h (R, opp s);
  h ← assign h (P, s) C;
  h ← put_parent h C P;
  h ← assign h (R, opp s) P;
  put h P (set_parent R).

Definition PhpRotateLeftTwiceAvlLinks := rotate_twice RightChild.
Definition PhpRotateRightTwiceAvlLinks := rotate_twice LeftChild.

(** The half of [PhpRebalanceAvlLinks] for a tree too high on side [s]. *)
Definition rebalance (s : side) (h : heap) (Root : ref) : ub (heap * Z) :=
  P ← deref h Root;
  Q ← deref h (P, s);
  lQ ← h !! Q;
  if Balance lQ =? dir s then
    h ← rotate s h Root;
    h ← put h P (set_balance 0);
    h ← put h Q (set_balance 0);
    Some (h, 1)
  else if Balance lQ =? - dir s then
    R ← deref h (Q, opp s);
    h ← rotate_twice s h Root;
    lR ← h !! R;
    let '(bP, bQ) :=
      if Balance lR =? dir s then (- dir s, 0)
      else if Balance lR =? - dir s then (0, dir s)
      else (0, 0) in
    h ← put h P (set_balance bP);
    h ← put h Q (set_balance bQ);
    h ← put h R (set_balance 0);
    Some (h, 2)
  else
    h ← rotate s h Root;
    h ← put h Q (set_balance (- dir s));
    Some (h, 3).

Definition PhpRebalanceAvlLinks (h : heap) (Root : ref) : ub (heap * Z) :=
  P ← deref h Root;
  lP ← h !! P;
  if Balance lP =? -1 then rebalance LeftChild h Root else rebalance RightChild h Root.

(** ** The tree *)

(** [Root] is the address of the tree's header; its links are in the heap. *)
Record PH_AVL_TREE := { links : heap; Count : Z }.

Section tree.
Context (Root : Z) (CompareFunction : Z -> Z -> Z).

Definition PhInitializeAvlTree (h : heap) : PH_AVL_TREE :=
  {| links := <[Root := {| Parent := 0; Left := 0; Right := 0; Balance := 0 |}]> h; Count := 0 |}.

Definition PhRootElementAvlTree (h : heap) : ub Z := deref h (Root, RightChild).

(** Which child of its parent [P] is: the code tests the left one. *)
Definition side_of (h : heap) (P : Z) : ub ref :=
  lP ← h !! P;
  lParent ← h !! Parent lP;
  Some (Parent lP, if Left lParent =? P then LeftChild else RightChild).

(** The search loop, from [links]. [fuel] bounds its iterations; the size of the heap is enough. *)
Fixpoint find_loop (fuel : nat) (h : heap) (Element links : Z) : ub (Z * Z) :=
  match fuel with
  | O => None
  | S fuel =>
      let result := CompareFunction Element links in
      if result =? 0 then Some (links, 0)
      else
        let s := if result <? 0 then LeftChild else RightChild in
        next ← deref h (links, s);
        if negb (next =? 0) then find_loop fuel h Element next
        else Some (links, dir s)
  end.

Definition PhpFindElementAvlTree (h : heap) (Element : Z) : ub (Z * Z) :=
  links ← PhRootElementAvlTree h;
  if links =? 0 then Some (Root, 1) else find_loop (size h) h Element links.

(** The loop that restores the balance after an insertion below [P]. *)
Fixpoint add_loop (fuel : nat) (h : heap) (P root : Z) : ub heap :=
  match fuel with
  | O => None
  | S fuel =>
      if P =? root then Some h
      else
        '(P, s) ← side_of h P;
        lP ← h !! P;
        if Balance lP =? 0 then
          h ← put h P (set_balance (dir s));
          add_loop fuel h P root
        else if negb (Balance lP =? dir s) then put h P (set_balance 0)
        else
          r ← side_of h P;
          '(h, _) ← PhpRebalanceAvlLinks h r;
          Some h
  end.

(** The new tree, and NULL or the existing element. *)
Definition PhAddElementAvlTree (Tree : PH_AVL_TREE) (Element : Z) : ub (PH_AVL_TREE * Z) :=
  '(P, result) ← PhpFindElementAvlTree (links Tree) Element;
  if result =? 0 then Some (Tree, P)
  else
    h ← assign (links Tree) (P, if result <? 0 then LeftChild else RightChild) Element;
    let h := <[Element := {| Parent := P; Left := 0; Right := 0; Balance := 0 |}]> h in
    root ← PhRootElementAvlTree h;
    h ← add_loop (size h) h Element root;
    Some ({| links := h; Count := Count Tree +₃₂ 1 |}, 0).

(** [while (p->child) p = p->child;] *)
Fixpoint descend (fuel : nat) (s : side) (h : heap) (p : Z) : ub Z :=
  match fuel with
  | O => None
  | S fuel => next ← deref h (p, s); if next =? 0 then Some p else descend fuel s h next
  end.

(** The loop that restores the balance after [P] lost height on the side with sign [balance]. *)
Fixpoint remove_loop (fuel : nat) (h : heap) (P balance : Z) : ub heap :=
  match fuel with
  | O => None
  | S fuel =>
      if P =? Root then Some h
      else
        lP ← h !! P;
        let up h P := '(P, s) ← side_of h P; remove_loop fuel h P (dir s) in
        if Balance lP =? balance then
          h ← put h P (set_balance 0); up h P
        else if Balance lP =? 0 then put h P (set_balance (- balance))
        else
          r ← side_of h P;
          '(h, code) ← PhpRebalanceAvlLinks h r;
          if code =? 3 then Some h
          else lP ← h !! P; up h (Parent lP)
  end.

(** The element that is unlinked: [Element], or its neighbour in the higher subtree. *)
Definition new_element (h : heap) (Element : Z) : ub Z :=
  lE ← h !! Element;
  if (Left lE =? 0) || (Right lE =? 0) then Some Element
  else if 0 <=? Balance lE then descend (size h) LeftChild h (Right lE)
  else descend (size h) RightChild h (Left lE).

(** [newElement] takes the place of [Element]. *)
Definition substitute (h : heap) (Element newElement : Z) : ub heap :=
  lE ← h !! Element;
  _ ← h !! newElement;
  let h := <[newElement := lE]> h in
  r ← side_of h Element;
  h ← assign h r newElement;
  lN ← h !! newElement;
  h ← put_parent h (Left lN) newElement;
  put_parent h (Right lN) newElement.

Definition PhRemoveElementAvlTree (Tree : PH_AVL_TREE) (Element : Z) : ub PH_AVL_TREE :=
  let h := links Tree in
  newElement ← new_element h Element;
  lN ← h !! newElement;
  replace ← side_of h newElement;
  let subtree := if Right lN =? 0 then Left lN else Right lN in
  h ← assign h replace subtree;
  h ← put_parent h subtree (Parent lN);
  lN ← h !! newElement;
  h ← remove_loop (size h) h (Parent lN) (dir replace.2);
  h ← (if negb (newElement =? Element) then substitute h Element newElement else Some h);
  Some {| links := h; Count := Count Tree -₃₂ 1 |}.

(** ** Queries *)

Definition PhFindElementAvlTree (h : heap) (Element : Z) : ub Z :=
  '(links, result) ← PhpFindElementAvlTree h Element;
  Some (if result =? 0 then links else 0).

(** The four bounds differ in the comparison that turns right, and in the side that records the
    closest element so far. *)
Fixpoint bound_loop (fuel : nat) (h : heap) (right : Z -> bool) (record : side)
    (Element links closest : Z) : ub Z :=
  match fuel with
  | O => None
  | S fuel =>
      if links =? 0 then Some closest
      else
        let s := if right (CompareFunction Element links) then RightChild else LeftChild in
        next ← deref h (links, s);
        bound_loop fuel h right record Element next (if decide (s = record) then links else closest)
  end.

Definition bound (right : Z -> bool) (record : side) (h : heap) (Element : Z) : ub Z :=
  links ← PhRootElementAvlTree h; bound_loop (S (size h)) h right record Element links 0.

Definition PhLowerBoundElementAvlTree := bound (fun result => 0 <? result) LeftChild.
Definition PhUpperBoundElementAvlTree := bound (fun result => 0 <=? result) LeftChild.
Definition PhLowerDualBoundElementAvlTree := bound (fun result => 0 <? result) RightChild.
Definition PhUpperDualBoundElementAvlTree := bound (fun result => 0 <=? result) RightChild.

Definition extremum (s : side) (h : heap) : ub Z :=
  links ← PhRootElementAvlTree h; if links =? 0 then Some 0 else descend (size h) s h links.
Definition PhMinimumElementAvlTree := extremum LeftChild.
Definition PhMaximumElementAvlTree := extremum RightChild.

(** The climb of the successor ([s] the right side) and of the predecessor. *)
Fixpoint climb (fuel : nat) (s : side) (h : heap) (Element links : Z) : ub Z :=
  match fuel with
  | O => None
  | S fuel =>
      if links =? 0 then Some 0
      else
        l ← h !! links;
        if child s l =? Element then climb fuel s h links (Parent l) else Some links
  end.

Definition PhSuccessorElementAvlTree (h : heap) (Element : Z) : ub Z :=
  lE ← h !! Element;
  if negb (Right lE =? 0) then descend (size h) LeftChild h (Right lE)
  else climb (S (size h)) RightChild h Element (Parent lE).

Definition PhPredecessorElementAvlTree (h : heap) (Element : Z) : ub Z :=
  lE ← h !! Element;
  if negb (Left lE =? 0) then descend (size h) RightChild h (Left lE)
  else
    links ← climb (S (size h)) LeftChild h Element (Parent lE);
    if links =? 0 then Some 0
    else l ← h !! links; Some (if Parent l =? 0 then 0 else links).

(** ** Enumeration

    [stackBase] has 47 slots; a push beyond them is undefined. *)
Definition STACK_SIZE : nat := 47.

Fixpoint push_spine (fuel : nat) (s : side) (h : heap) (links : Z) (stack : list Z) : ub (list Z) :=
  match fuel with
  | O => None
  | S fuel =>
      if links =? 0 then Some stack
      else if decide (length stack < STACK_SIZE)%nat then
        next ← deref h (links, s); push_spine fuel s h next (links :: stack)
      else None
  end.

Section enumerate.
Context {St : Type} (Callback : Z -> St -> St * bool).

(** The callback answers FALSE to stop; it does not change the tree. *)
Fixpoint enum_loop (fuel : nat) (s : side) (h : heap) (stack : list Z) (st : St) : ub St :=
  match fuel with
  | O => None
  | S fuel =>
      match stack with
      | [] => Some st
      | links :: stack =>
          let '(st, continue) := Callback links st in
          if continue then
            next ← deref h (links, opp s);
            stack ← push_spine (S (size h)) s h next stack;
            enum_loop fuel s h stack st
          else Some st
      end
  end.

(** [TreeEnumerateInOrder] for the left side, [TreeEnumerateInReverseOrder] for the right. *)
Definition PhEnumAvlTree (s : side) (h : heap) (st : St) : ub St :=
  links ← PhRootElementAvlTree h;
  stack ← push_spine (S (size h)) s h links [];
  enum_loop (S (size h)) s h stack st.

End enumerate.

End tree.

(** ** Trees of addresses *)

Inductive tree := Leaf | Node (l : tree) (a b : Z) (r : tree).

(** A node with [x] on side [s] and [y] on the other. *)
Definition mkn (s : side) (x : tree) (a b : Z) (y : tree) : tree :=
  match s with LeftChild => Node x a b y | RightChild => Node y a b x end.
(** The links of such a node. *)
Definition mkl (s : side) (q x y b : Z) : PH_AVL_LINKS :=
  match s with
  | LeftChild => {| Parent := q; Left := x; Right := y; Balance := b |}
  | RightChild => {| Parent := q; Left := y; Right := x; Balance := b |}
  end.
(** Concatenation, with the part on side [s] first. *)
Definition cat {A} (s : side) (u v : list A) : list A :=
  match s with LeftChild => u ++ v | RightChild => v ++ u end.

Definition root (t : tree) : Z := match t with Leaf => 0 | Node _ a _ _ => a end.
Fixpoint inorder (t : tree) : list Z :=
  match t with Leaf => [] | Node l a _ r => inorder l ++ a :: inorder r end.
Fixpoint height (t : tree) : Z :=
  match t with Leaf => 0 | Node l _ _ r => 1 + Z.max (height l) (height r) end.

(** Every balance factor is right height minus left height, and at most 1 in size. *)
Fixpoint avl (t : tree) : Prop :=
  match t with
  | Leaf => True
  | Node l _ b r => avl l /\ avl r /\ b = height r - height l /\ -1 <= b <= 1
  end.

(** The heap holds the tree, its root's parent being [q]. *)
Fixpoint rep (h : heap) (t : tree) (q : Z) : Prop :=
  match t with
  | Leaf => True
  | Node l a b r =>
      h !! a = Some {| Parent := q; Left := root l; Right := root r; Balance := b |} /\
      a <> 0 /\ rep h l a /\ rep h r a
  end.

Lemma opp_opp s : opp (opp s) = s.
Proof. by destruct s. Qed.
Lemma dir_opp s : dir (opp s) = - dir s.
Proof. by destruct s. Qed.

Lemma mkl_fields s q x y b :
  child s (mkl s q x y b) = x /\ child (opp s) (mkl s q x y b) = y /\
  Parent (mkl s q x y b) = q /\ Balance (mkl s q x y b) = b.
Proof. by destruct s. Qed.

Lemma mkl_set s q x y b v :
  set_child s v (mkl s q x y b) = mkl s q v y b /\ set_child (opp s) v (mkl s q x y b) = mkl s q x v b /\
  set_parent v (mkl s q x y b) = mkl s v x y b /\ set_balance v (mkl s q x y b) = mkl s q x y v.
Proof. by destruct s. Qed.

Lemma mkl_opp s q x y b : mkl (opp s) q x y b = mkl s q y x b.
Proof. by destruct s. Qed.
Lemma mkn_opp s x a b y : mkn (opp s) x a b y = mkn s y a b x.
Proof. by destruct s. Qed.

Lemma root_mkn s x a b y : root (mkn s x a b y) = a.
Proof. by destruct s. Qed.

Lemma rep_mkn h s x a b y q :
  rep h (mkn s x a b y) q <->
  h !! a = Some (mkl s q (root x) (root y) b) /\ a <> 0 /\ rep h x a /\ rep h y a.
Proof. destruct s; simpl; tauto. Qed.

Lemma height_mkn s x a b y : height (mkn s x a b y) = 1 + Z.max (height x) (height y).
Proof. destruct s; simpl; lia. Qed.

Lemma height_nonneg t : 0 <= height t.
Proof. induction t; simpl; lia. Qed.

Lemma avl_mkn s x a b y :
  avl (mkn s x a b y) <-> avl x /\ avl y /\ dir s * b = height x - height y /\ -1 <= b <= 1.
Proof. destruct s; cbn [mkn avl dir]; intuition lia. Qed.

Lemma inorder_mkn s x a b y : inorder (mkn s x a b y) = cat s (inorder x) (cat s [a] (inorder y)).
Proof. destruct s; simpl; [done|]. by rewrite <- app_assoc. Qed.

Lemma cat_assoc {A} s (u v w : list A) : cat s (cat s u v) w = cat s u (cat s v w).
Proof. destruct s; simpl; by rewrite app_assoc. Qed.
Lemma cat_opp {A} s (u v : list A) : cat (opp s) u v = cat s v u.
Proof. by destruct s. Qed.

Lemma length_cat {A} s (u v : list A) : length (cat s u v) = (length u + length v)%nat.
Proof. destruct s; simpl; rewrite length_app; lia. Qed.

Lemma elem_of_cat {A} s (u v : list A) x : x ∈ cat s u v <-> x ∈ u \/ x ∈ v.
Proof. destruct s; simpl; rewrite elem_of_app; tauto. Qed.

Lemma NoDup_cat {A} s (u v : list A) : NoDup (cat s u v) <-> NoDup u /\ (forall x, x ∈ u -> x ∉ v) /\ NoDup v.
Proof.
  destruct s; simpl; rewrite NoDup_app; [done|]. split; intros (? & Hd & ?); (split; [done|split; [|done]]);
    intros x Hx Hx'; by apply (Hd x).
Qed.

(** The addresses of a tree are its in-order sequence. *)
Lemma elem_of_mkn z s x a b y :
  z ∈ inorder (mkn s x a b y) <-> z = a \/ z ∈ inorder x \/ z ∈ inorder y.
Proof. rewrite inorder_mkn, !elem_of_cat, list_elem_of_singleton. tauto. Qed.

Lemma NoDup_mkn s x a b y :
  NoDup (inorder (mkn s x a b y)) <->
  NoDup (inorder x) /\ NoDup (inorder y) /\ (a ∉ inorder x) /\ (a ∉ inorder y) /\
  (forall z, z ∈ inorder x -> z ∉ inorder y).
Proof.
  rewrite inorder_mkn, !NoDup_cat. setoid_rewrite elem_of_cat. setoid_rewrite list_elem_of_singleton.
  split.
  - intros (Hx & Hd & _ & Ha & Hy). split_and!; try done.
    + intros Hax. apply (Hd a Hax). by left.
    + by apply Ha.
    + intros z Hz Hzy. apply (Hd z Hz). by right.
  - intros (Hx & Hy & Hax & Hay & Hd). split_and!; try done.
    + intros z Hz [->|Hzy]; [done|by apply (Hd z)].
    + apply NoDup_singleton.
    + by intros z ->.
Qed.

Lemma root_in t : root t <> 0 -> root t ∈ inorder t.
Proof. destruct t; simpl; [done|]. rewrite elem_of_app, elem_of_cons. auto. Qed.

(** ** Separation: a write elsewhere *)

Lemma rep_frame h h' t q : (forall x, x ∈ inorder t -> h' !! x = h !! x) -> rep h t q -> rep h' t q.
Proof.
  revert q. induction t as [|l IHl a b r IHr]; intros q Hf; simpl in *; [done|].
  intros (Ha & Hne & Hl & Hr). split; [|split; [done|split]].
  - rewrite Hf; [done|]. rewrite elem_of_app, elem_of_cons. auto.
  - apply IHl; [|done]. intros x Hx. apply Hf. rewrite elem_of_app. auto.
  - apply IHr; [|done]. intros x Hx. apply Hf. rewrite elem_of_app, elem_of_cons. auto.
Qed.

Lemma rep_insert h x v t q : x ∉ inorder t -> rep h t q -> rep (<[x := v]> h) t q.
Proof. intros Hx. apply rep_frame. intros y Hy. apply lookup_insert_ne. by intros ->. Qed.

Lemma rep_dom h t q : rep h t q -> forall x, x ∈ inorder t -> is_Some (h !! x) /\ x <> 0.
Proof.
  revert q. induction t as [|l IHl a b r IHr]; intros q Hrep x; simpl in *; [by intros ?%elem_of_nil|].
  destruct Hrep as (Ha & Hne & Hl & Hr).
  rewrite elem_of_app, elem_of_cons. intros [Hx|[->|Hx]]; eauto.
Qed.

Lemma rep_root_0 h t q : rep h t q -> root t = 0 -> t = Leaf.
Proof. destruct t; [done|]. simpl. intros (_ & Hne & _) Hz. done. Qed.

(** The writes of the code, on a heap described by facts. *)
Lemma put_eq h p f l : h !! p = Some l -> put h p f = Some (<[p := f l]> h).
Proof. intros Hp. unfold put. by rewrite Hp. Qed.

Lemma put_parent_rep h t q v :
  rep h t q -> NoDup (inorder t) ->
  exists h', put_parent h (root t) v = Some h' /\ rep h' t v /\
    (forall x, x ∉ inorder t -> h' !! x = h !! x).
Proof.
  intros Hrep Hnd. unfold put_parent. destruct t as [|l a b r]; simpl in *; [by exists h|].
  destruct Hrep as (Ha & Hne & Hl & Hr). rewrite (proj2 (Z.eqb_neq a 0) Hne), (put_eq h a _ _ Ha).
  apply (NoDup_mkn LeftChild l a b r) in Hnd as (_ & _ & Hal & Har & _).
  eexists. split; [reflexivity|]. split.
  - split; [by rewrite lookup_insert_eq|]. split; [done|]. split; by apply rep_insert.
  - intros x Hx. apply lookup_insert_ne. intros ->. apply Hx. rewrite elem_of_app, elem_of_cons. auto.
Qed.

(** ** The context of a subtree: a zipper of nodes up to the header *)

Record frame := { fs : side; fa : Z; fb : Z; ft : tree }.
Definition fill1 (f : frame) (t : tree) : tree := mkn (fs f) t (fa f) (fb f) (ft f).
Fixpoint fill (c : list frame) (t : tree) : tree :=
  match c with [] => t | f :: c => fill c (fill1 f t) end.

Section context.
Context (Root : Z).

(** The parent of the hole, and the field that points to it. *)
Definition cparent (c : list frame) : Z := match c with [] => Root | f :: _ => fa f end.
Definition cref (c : list frame) : ref :=
  match c with [] => (Root, RightChild) | f :: _ => (fa f, fs f) end.

(** The addresses of the context. *)
Fixpoint caddrs (c : list frame) : list Z :=
  match c with [] => [Root] | f :: c => fa f :: inorder (ft f) ++ caddrs c end.

(** The heap holds the context, its hole pointing to [p]. *)
Fixpoint rep_ctx (h : heap) (c : list frame) (p : Z) : Prop :=
  match c with
  | [] => h !! Root = Some {| Parent := 0; Left := 0; Right := p; Balance := 0 |}
  | f :: c =>
      h !! fa f = Some (mkl (fs f) (cparent c) p (root (ft f)) (fb f)) /\ fa f <> 0 /\
      rep h (ft f) (fa f) /\ rep_ctx h c (fa f)
  end.

Definition rep_tree (h : heap) (t : tree) : Prop := rep h t Root /\ rep_ctx h [] (root t).

Lemma rep_fill h c t : rep_tree h (fill c t) <-> rep h t (cparent c) /\ rep_ctx h c (root t).
Proof.
  revert t. induction c as [|f c IH]; intros t; simpl; [done|].
  rewrite IH. unfold fill1. rewrite rep_mkn, root_mkn. simpl. tauto.
Qed.

Lemma ctx_frame h h' c p : (forall x, x ∈ caddrs c -> h' !! x = h !! x) -> rep_ctx h c p -> rep_ctx h' c p.
Proof.
  revert p. induction c as [|f c IH]; intros p Hf; simpl in *.
  - rewrite Hf; [done|by left].
  - intros (Ha & Hne & Ht & Hc). split; [rewrite Hf; [done|by left]|]. split; [done|]. split.
    + eapply rep_frame; [|exact Ht]. intros x Hx. apply Hf. right. apply elem_of_app. by left.
    + apply IH; [|done]. intros x Hx. apply Hf. right. apply elem_of_app. by right.
Qed.

Lemma ctx_insert h x v c p : x ∉ caddrs c -> rep_ctx h c p -> rep_ctx (<[x := v]> h) c p.
Proof. intros Hx. apply ctx_frame. intros y Hy. apply lookup_insert_ne. by intros ->. Qed.

(** The addresses of a whole tree with its header. *)
Lemma elem_of_fill c t x : x ∈ Root :: inorder (fill c t) <-> x ∈ inorder t \/ x ∈ caddrs c.
Proof.
  revert t. induction c as [|f c IH]; intros t; simpl.
  - rewrite elem_of_cons, list_elem_of_singleton. tauto.
  - rewrite IH. unfold fill1. rewrite elem_of_mkn, elem_of_cons, elem_of_app. tauto.
Qed.

Lemma NoDup_fill c t :
  NoDup (Root :: inorder (fill c t)) <->
  NoDup (inorder t) /\ NoDup (caddrs c) /\ (forall x, x ∈ inorder t -> x ∉ caddrs c).
Proof.
  revert t. induction c as [|f c IH]; intros t; simpl.
  - rewrite NoDup_cons. setoid_rewrite list_elem_of_singleton. split.
    + intros [Hr Hn]. split; [done|]. split; [apply NoDup_singleton|]. by intros x Hx ->.
    + intros (Hn & _ & Hr). split; [|done]. intros Hx. by apply (Hr Root).
  - rewrite IH. unfold fill1. rewrite NoDup_mkn. rewrite NoDup_cons, NoDup_app.
    setoid_rewrite elem_of_mkn. setoid_rewrite elem_of_cons. setoid_rewrite elem_of_app. split.
    + intros ((Ht & Hft & Hat & Haf & Htf) & Hc & Hd). split; [done|]. split; [split; [|split; [done|split; [|done]]]|].
      * intros [?|?]; [done|]. eapply Hd; [by left|done].
      * intros x Hx. apply Hd. auto.
      * intros x Hx [->|[Hxf|Hxc]]; [done|by eapply Htf|]. eapply Hd; [right; by left|done].
    + intros (Ht & (Haf & Hft & Hfc & Hc) & Hd). split; [split_and!; try done|split; [done|]].
      * intros Ha. apply (Hd (fa f) Ha). by left.
      * intros Ha. apply Haf. by left.
      * intros x Hx Hxf. apply (Hd x Hx). auto.
      * intros x [->|[Hx|Hx]] Hxc; [apply Haf; by right|apply (Hd x Hx); auto|by eapply Hfc].
Qed.

(** The pointer to the hole is written through its reference. *)
Lemma deref_ctx h c p : rep_ctx h c p -> deref h (cref c) = Some p.
Proof.
  destruct c as [|f c]; simpl; unfold deref; simpl; [by intros ->|].
  intros (-> & _). simpl. by destruct (mkl_fields (fs f) (cparent c) p (root (ft f)) (fb f)) as [-> _].
Qed.

Lemma assign_ctx h c p v :
  rep_ctx h c p -> NoDup (caddrs c) ->
  exists h', assign h (cref c) v = Some h' /\ rep_ctx h' c v /\
    (forall x, x ∉ caddrs c -> h' !! x = h !! x).
Proof.
  destruct c as [|f c]; simpl; intros Hc Hnd; unfold assign; simpl.
  - rewrite (put_eq h Root _ _ Hc). eexists. split; [reflexivity|].
    split; [by rewrite lookup_insert_eq|]. intros x Hx. apply lookup_insert_ne. intros ->. apply Hx. by left.
  - destruct Hc as (Ha & Hne & Ht & Hc). rewrite (put_eq h (fa f) _ _ Ha).
    destruct (mkl_set (fs f) (cparent c) p (root (ft f)) (fb f) v) as [-> _].
    apply NoDup_cons in Hnd as [Hnin Hnd]. rewrite elem_of_app in Hnin.
    eexists. split; [reflexivity|]. split.
    + split; [by rewrite lookup_insert_eq|]. split; [done|].
      split; [apply rep_insert; [tauto|done]|apply ctx_insert; [tauto|done]].
    + intros x Hx. apply lookup_insert_ne. intros <-. apply Hx. by left.
Qed.

(** [sep] proves that an address is not another, or not in a part, from the separation facts in
    the context; [carry F] moves the facts about a heap across a step with frame [F]. *)
Ltac sep :=
  first
    [ assumption
    | let E := fresh in intros E; first
        [ contradiction
        | subst; contradiction
        | match goal with
          | Hs : forall z, z ∈ ?X -> z ∉ ?Y, H1 : ?z ∈ ?X |- _ => by apply (Hs z H1)
          | Hs : forall z, z ∈ ?X -> z ∉ ?Y, H1 : ?z ∈ ?Y |- _ => by apply (Hs z E H1)
          end
        | by match goal with Hs : ?x <> ?y |- _ => apply Hs end ] ].

Ltac carry F :=
  repeat match type of F with
  | forall y, _ -> ?h' !! y = ?h !! y =>
      match goal with
      | H : h !! ?y = ?v |- _ => rewrite <- (F y) in H by sep
      | H : rep h ?t ?q |- _ =>
          apply (rep_frame h h' t q) in H; [|let z := fresh in let Hz := fresh in intros z Hz; apply F; sep]
      | H : rep_ctx h ?c ?p |- _ =>
          apply (ctx_frame h h' c p) in H; [|let z := fresh in let Hz := fresh in intros z Hz; apply F; sep]
      end
  end.

(** A write through a known address, and everything carried across it. *)
Lemma put_spec h x f l :
  h !! x = Some l -> exists h', put h x f = Some h' /\ h' !! x = Some (f l) /\
    (forall y, y <> x -> h' !! y = h !! y).
Proof.
  intros Hx. rewrite (put_eq h x f l Hx). eexists. split; [reflexivity|].
  split; [apply lookup_insert_eq|]. intros y Hy. by apply lookup_insert_ne.
Qed.

Ltac write Hx :=
  match type of Hx with
  | ?h !! ?x = Some ?l =>
      match goal with
      | |- context [put h x ?f] =>
          let h' := fresh "h" in let E := fresh in let N := fresh in let F := fresh in
          destruct (put_spec h x f l Hx) as (h' & E & N & F); rewrite E; clear E Hx;
          cbn [mbind option_bind]; carry F; clear F; rename N into Hx;
          rewrite ?(proj1 (mkl_set _ _ _ _ _ _)), ?(proj1 (proj2 (mkl_set _ _ _ _ _ _))),
            ?(proj1 (proj2 (proj2 (mkl_set _ _ _ _ _ _)))),
            ?(proj2 (proj2 (proj2 (mkl_set _ _ _ _ _ _)))) in Hx
      end
  end.

Ltac read Hx :=
  unfold deref, assign; cbn [fst snd]; rewrite Hx; cbn [mbind option_bind];
  rewrite ?(proj1 (mkl_fields _ _ _ _ _)), ?(proj1 (proj2 (mkl_fields _ _ _ _ _))),
    ?(proj1 (proj2 (proj2 (mkl_fields _ _ _ _ _)))), ?(proj2 (proj2 (proj2 (mkl_fields _ _ _ _ _)))).

(** What distinct addresses mean for a node over a node, and for three nodes. *)
Lemma sep_two s s' c A q bq B p bp C :
  NoDup (Root :: inorder (fill c (mkn s (mkn s' A q bq B) p bp C))) ->
  (NoDup (inorder A) /\ NoDup (inorder B) /\ NoDup (inorder C) /\ NoDup (caddrs c)) /\
  (p <> q /\ (p ∉ inorder A) /\ (p ∉ inorder B) /\ (p ∉ inorder C) /\ (p ∉ caddrs c)) /\
  ((q ∉ inorder A) /\ (q ∉ inorder B) /\ (q ∉ inorder C) /\ (q ∉ caddrs c)) /\
  (forall z, z ∈ inorder A -> z ∉ inorder B) /\ (forall z, z ∈ inorder A -> z ∉ inorder C) /\
  (forall z, z ∈ inorder B -> z ∉ inorder C) /\ (forall z, z ∈ inorder A -> z ∉ caddrs c) /\
  (forall z, z ∈ inorder B -> z ∉ caddrs c) /\ (forall z, z ∈ inorder C -> z ∉ caddrs c).
Proof.
  intros (Hnd & Hndc & Hsep)%NoDup_fill.
  apply NoDup_mkn in Hnd as (Hnd & HndC & Hp & HpC & HQC).
  apply NoDup_mkn in Hnd as (HndA & HndB & HqA & HqB & HAB).
  assert (Hp' : p <> q /\ (p ∉ inorder A) /\ (p ∉ inorder B)) by (rewrite elem_of_mkn in Hp; tauto).
  assert (HQC' : forall z, z = q \/ z ∈ inorder A \/ z ∈ inorder B -> z ∉ inorder C)
    by (intros z Hz; apply HQC; by apply elem_of_mkn).
  assert (Hsep' : forall z, z = p \/ z = q \/ z ∈ inorder A \/ z ∈ inorder B \/ z ∈ inorder C -> z ∉ caddrs c).
  { intros z Hz. apply Hsep. rewrite !elem_of_mkn. tauto. }
  split_and!; try tauto; try (intros z Hz; (apply Hsep' || apply HQC' || apply HAB); tauto); (apply Hsep' || apply HQC'); tauto.
Qed.

(** Each step is stated with one address outside the tree, which it leaves alone. *)
Definition elsewhere (z : Z) (t : tree) (c : list frame) : Prop := z ∉ (Root :: inorder (fill c t)).

Lemma elsewhere_node z s A q bq B c :
  elsewhere z (mkn s A q bq B) c -> z <> q /\ (z ∉ inorder A) /\ (z ∉ inorder B) /\ (z ∉ caddrs c).
Proof. unfold elsewhere. rewrite elem_of_fill, elem_of_mkn. tauto. Qed.

Lemma rotate_step z s h c A q bq B p bp C :
  let t := mkn s (mkn s A q bq B) p bp C in
  rep h t (cparent c) -> rep_ctx h c p -> NoDup (Root :: inorder (fill c t)) -> elsewhere z t c ->
  exists h', rotate s h (cref c) = Some h' /\
    rep h' (mkn s A q bq (mkn s B p bp C)) (cparent c) /\ rep_ctx h' c q /\ h' !! z = h !! z.
Proof.
  intros t Ht Hc Hnd Hz. subst t.
  pose proof (sep_two s s c A q bq B p bp C Hnd) as
    ((HndA & HndB & HndC & Hndc) & (Hpq & HpA & HpB & HpC & Hpc) & (HqA & HqB & HqC & Hqc) &
     HAB & HAC & HBC & HAc & HBc & HCc).
  apply elsewhere_node in Hz as (Hzp & HzQ & HzC & Hzc). rewrite elem_of_mkn in HzQ.
  assert (z <> q /\ (z ∉ inorder A) /\ (z ∉ inorder B)) as (Hzq & HzA & HzB) by tauto. clear HzQ Hnd.
  assert (exists oz, h !! z = oz) as [oz Hz] by eauto. rewrite Hz.
  rewrite !rep_mkn, !root_mkn in Ht. destruct Ht as (Hp & Hp0 & (Hq & Hq0 & HA & HB) & HC).
  unfold rotate. rewrite (deref_ctx h c p Hc). cbn [mbind option_bind]. read Hp.
  destruct (assign_ctx h c p q Hc Hndc) as (h1 & E & Hc1 & F). clear Hc.
  unfold assign in E; cbn [fst snd] in E; rewrite E; clear E; cbn [mbind option_bind]; carry F; clear F.
  rewrite Hp; cbn [mbind option_bind]; rewrite (proj1 (proj2 (proj2 (mkl_fields _ _ _ _ _)))).
  write Hq. read Hq. write Hp.
  destruct (put_parent_rep _ B q p HB HndB) as (h4 & E & HB' & F). clear HB.
  rewrite E; clear E; cbn [mbind option_bind]; carry F; clear F.
  write Hq. write Hp.
  eexists. split; [reflexivity|]. by rewrite !rep_mkn, !root_mkn.
Qed.

Lemma sep_three s c A q bq B r br C p bp D :
  NoDup (Root :: inorder (fill c (mkn s (mkn s A q bq (mkn s B r br C)) p bp D))) ->
  (NoDup (inorder B) /\ NoDup (inorder C) /\ NoDup (caddrs c)) /\
  (p <> q /\ p <> r /\ (p ∉ inorder A) /\ (p ∉ inorder B) /\ (p ∉ inorder C) /\ (p ∉ inorder D) /\ (p ∉ caddrs c)) /\
  (q <> r /\ (q ∉ inorder A) /\ (q ∉ inorder B) /\ (q ∉ inorder C) /\ (q ∉ inorder D) /\ (q ∉ caddrs c)) /\
  ((r ∉ inorder A) /\ (r ∉ inorder B) /\ (r ∉ inorder C) /\ (r ∉ inorder D) /\ (r ∉ caddrs c)) /\
  (forall z, z ∈ inorder A -> z ∉ inorder B) /\ (forall z, z ∈ inorder A -> z ∉ inorder C) /\
  (forall z, z ∈ inorder B -> z ∉ inorder C) /\ (forall z, z ∈ inorder B -> z ∉ inorder D) /\
  (forall z, z ∈ inorder C -> z ∉ inorder D) /\ (forall z, z ∈ inorder A -> z ∉ caddrs c) /\
  (forall z, z ∈ inorder B -> z ∉ caddrs c) /\ (forall z, z ∈ inorder C -> z ∉ caddrs c) /\
  (forall z, z ∈ inorder D -> z ∉ caddrs c).
Proof.
  intros ((_ & HndR & _ & Hndc) & (Hpq & HpA & HpR & HpD & Hpc) & (HqA & HqR & HqD & Hqc) &
    HAR & HAD & HRD & HAc & HRc & HDc)%sep_two.
  apply NoDup_mkn in HndR as (HndB & HndC & HrB & HrC & HBC).
  rewrite elem_of_mkn in HpR, HqR.
  assert (HAR' : forall z, z = r \/ z ∈ inorder B \/ z ∈ inorder C -> z ∉ inorder A).
  { intros z Hz HA. apply (HAR z HA). by apply elem_of_mkn. }
  assert (HRD' : forall z, z = r \/ z ∈ inorder B \/ z ∈ inorder C -> (z ∉ inorder D) /\ (z ∉ caddrs c)).
  { intros z Hz. split; [apply HRD|apply HRc]; by apply elem_of_mkn. }
  split_and!; try tauto; try (intros z Hz; first [apply HRD'; tauto|apply HBC; tauto|intros Hz'; apply (HAR' z); tauto]);
    first [apply HAR'; tauto|apply HRD'; tauto].
Qed.

Lemma rotate_twice_step z s h c A q bq B r br C p bp D :
  let t := mkn s (mkn s A q bq (mkn s B r br C)) p bp D in
  rep h t (cparent c) -> rep_ctx h c p -> NoDup (Root :: inorder (fill c t)) -> elsewhere z t c ->
  exists h', rotate_twice s h (cref c) = Some h' /\
    rep h' (mkn s (mkn s A q bq B) r br (mkn s C p bp D)) (cparent c) /\ rep_ctx h' c r /\ h' !! z = h !! z.
Proof.
  intros t Ht Hc Hnd Hz. subst t.
  pose proof (sep_three s c A q bq B r br C p bp D Hnd) as
    ((HndB & HndC & Hndc) & (Hpq & Hpr & HpA & HpB & HpC & HpD & Hpc) & (Hqr & HqA & HqB & HqC & HqD & Hqc) &
     (HrA & HrB & HrC & HrD & Hrc) & HAB & HAC & HBC & HBD & HCD & HAc & HBc & HCc & HDc).
  apply elsewhere_node in Hz as (Hzp & HzQ & HzD & Hzc). rewrite !elem_of_mkn in HzQ.
  assert (z <> q /\ z <> r /\ (z ∉ inorder A) /\ (z ∉ inorder B) /\ (z ∉ inorder C))
    as (Hzq & Hzr & HzA & HzB & HzC) by tauto. clear HzQ Hnd.
  assert (exists oz, h !! z = oz) as [oz Hz] by eauto. rewrite Hz.
  rewrite !rep_mkn, !root_mkn in Ht. destruct Ht as (Hp & Hp0 & (Hq & Hq0 & HA & Hr & Hr0 & HB & HC) & HD).
  unfold rotate_twice. rewrite (deref_ctx h c p Hc). cbn [mbind option_bind]. read Hp. read Hq.
  destruct (assign_ctx h c p r Hc Hndc) as (h1 & E & Hc1 & F). clear Hc.
  unfold assign in E; cbn [fst snd] in E; rewrite E; clear E; cbn [mbind option_bind]; carry F; clear F.
  rewrite Hp; cbn [mbind option_bind]; rewrite (proj1 (proj2 (proj2 (mkl_fields _ _ _ _ _)))).
  write Hr. read Hr. write Hq.
  destruct (put_parent_rep _ B r q HB HndB) as (h4 & E & HB' & F). clear HB.
  rewrite E; clear E; cbn [mbind option_bind]; carry F; clear F.
  write Hr. write Hq. read Hr. write Hp.
  destruct (put_parent_rep _ C r p HC HndC) as (h8 & E & HC' & F). clear HC.
  rewrite E; clear E; cbn [mbind option_bind]; carry F; clear F.
  write Hr. write Hp.
  eexists. split; [reflexivity|]. by rewrite !rep_mkn, !root_mkn.
Qed.

Lemma mkn_inv s t : t <> Leaf -> exists A q bq B, t = mkn s A q bq B.
Proof. destruct t as [|l a b r]; [done|]. intros _. destruct s; [by exists l, a, b, r|by exists r, a, b, l]. Qed.
Lemma height_pos t : 0 < height t -> t <> Leaf.
Proof. by intros ? ->. Qed.

Lemma dir_cases s b : -1 <= b <= 1 -> b = dir s \/ b = - dir s \/ b = 0.
Proof. destruct s; simpl; lia. Qed.
Lemma dir_ne s : dir s <> - dir s /\ dir s <> 0 /\ - dir s <> dir s /\ - dir s <> 0 /\ dir s * dir s = 1.
Proof. destruct s; simpl; lia. Qed.

Ltac eqbs :=
  repeat match goal with
  | |- context [?x =? ?x] => rewrite (Z.eqb_refl x)
  | |- context [?x =? ?y] => rewrite (proj2 (Z.eqb_neq x y)) by first [assumption|apply dir_ne|apply not_eq_sym; apply dir_ne|lia]
  end; cbn [mbind option_bind negb].

Definition tbal (t : tree) : Z := match t with Leaf => 0 | Node _ _ b _ => b end.
Lemma tbal_mkn s x a b y : tbal (mkn s x a b y) = b.
Proof. by destruct s. Qed.

Lemma twice_balances s br h1 h2 hA hD :
  -1 <= br <= 1 -> dir s * br = h1 - h2 -> hA = Z.max h1 h2 /\ hA = hD ->
  exists bP bQ, (if br =? dir s then (- dir s, 0) else if br =? - dir s then (0, dir s) else (0, 0)) = (bP, bQ) /\
    dir s * bP = h2 - hD /\ dir s * bQ = hA - h1 /\ -1 <= bP <= 1 /\ -1 <= bQ <= 1.
Proof.
  intros Hb E [-> EhD].
  destruct (dir_cases s br Hb) as [->|[->| ->]]; eqbs; do 2 eexists; (split; [reflexivity|]); destruct s; cbn [dir] in *; lia.
Qed.

(** What rebalancing a tree that is two levels too high on side [s] produces. *)
Definition rebalanced (h : heap) (z : Z) (c : list frame) (T : tree) (p : Z) (elems : list Z) (h' : heap) (code : Z) : Prop :=
  exists t', rep h' t' (cparent c) /\ rep_ctx h' c (root t') /\ inorder t' = elems /\ avl t' /\
    h' !! z = h !! z /\ (exists l, h' !! p = Some l /\ Parent l = root t') /\
    (code = 3 /\ height t' = height T + 1 /\ tbal T = 0 \/ code <> 3 /\ height t' = height T /\ root t' <> p).

Lemma rebalance_spec z s h c T p D :
  let t := mkn s T p (dir s) D in
  avl T -> avl D -> height T = height D + 2 ->
  rep h t (cparent c) -> rep_ctx h c p -> NoDup (Root :: inorder (fill c t)) -> elsewhere z t c ->
  exists h' code, rebalance s h (cref c) = Some (h', code) /\ rebalanced h z c T p (inorder t) h' code.
Proof.
  intros t HT HD Hh Ht Hc Hnd Hz. pose proof (height_nonneg D).
  destruct (mkn_inv s T) as (A & q & bq & B & ->); [apply height_pos; lia|].
  pose proof Hnd as Hs. apply sep_two in Hs as
    ((HndA & HndB & HndD & Hndc) & (Hpq & HpA & HpB & HpD & Hpc) & (HqA & HqB & HqD & Hqc) &
     HAB & HAD & HBD & HAc & HBc & HDc).
  pose proof Hz as (Hzp & HzQ & HzD & Hzc)%elsewhere_node. rewrite elem_of_mkn in HzQ.
  assert (z <> q /\ (z ∉ inorder A) /\ (z ∉ inorder B)) as (Hzq & HzA & HzB) by tauto. clear HzQ.
  pose proof Ht as Ht'. unfold t in Ht'. rewrite !rep_mkn, !root_mkn in Ht'. destruct Ht' as (Hp & Hp0 & (Hq & Hq0 & HA & HB) & HDr).
  apply avl_mkn in HT as (HavA & HavB & Hbq & Hbq'). rewrite height_mkn in Hh.
  unfold rebalance. rewrite (deref_ctx h c p Hc). cbn [mbind option_bind]. read Hp. rewrite Hq. cbn [mbind option_bind].
  rewrite (proj2 (proj2 (proj2 (mkl_fields _ _ _ _ _)))).
  assert (exists oz, h !! z = oz) as [oz Hoz] by eauto. unfold rebalanced. rewrite Hoz.
  destruct (dir_cases s bq Hbq') as [->|[->| ->]]; eqbs.
  - destruct (rotate_step z s h c A q (dir s) B p (dir s) D Ht Hc Hnd Hz) as (h1 & E & Ht1 & Hc1 & Hz1).
    rewrite E; clear E Hp Hq; cbn [mbind option_bind]. rewrite Hoz in Hz1.
    rewrite !rep_mkn, !root_mkn in Ht1. destruct Ht1 as (Hq & _ & HA1 & Hp & _ & HB1 & HD1).
    write Hp. write Hq. do 2 eexists. split; [reflexivity|].
    exists (mkn s A q 0 (mkn s B p 0 D)). rewrite !rep_mkn, !root_mkn, !avl_mkn, !height_mkn, ?tbal_mkn.
    pose proof (dir_ne s). split_and!; try done; try lia.
    + unfold t. by rewrite !inorder_mkn, !cat_assoc.
    + eexists. split; [exact Hp|]. by rewrite (proj1 (proj2 (proj2 (mkl_fields _ _ _ _ _)))).
  - assert (HbB : height B = height A + 1) by (pose proof (dir_ne s); nia).
    pose proof (height_nonneg A).
    destruct (mkn_inv s B) as (B1 & r & br & B2 & ->); [apply height_pos; lia|]. clear HA HB HDr.
    pose proof (sep_three s c A q (- dir s) B1 r br B2 p (dir s) D Hnd) as
      ((HndB1 & HndB2 & _) & (_ & Hpr & _ & HpB1 & HpB2 & _ & _) & (Hqr & _ & HqB1 & HqB2 & _ & _) &
       (HrA & HrB1 & HrB2 & HrD & Hrc) & HAB1 & HAB2 & HB12 & HB1D & HB2D & _ & HB1c & HB2c & _).
    rewrite !elem_of_mkn in HzB.
    assert (z <> r /\ (z ∉ inorder B1) /\ (z ∉ inorder B2)) as (Hzr & HzB1 & HzB2) by tauto.
    clear HpB HqB HAB HBD HBc HndB HzB.
    destruct (rotate_twice_step z s h c A q (- dir s) B1 r br B2 p (dir s) D Ht Hc Hnd Hz) as (h1 & E & Ht1 & Hc1 & Hz1).
    rewrite !(proj1 (proj2 (mkl_fields _ _ _ _ _))), root_mkn. rewrite E; clear E Hp Hq; cbn [mbind option_bind]. rewrite Hoz in Hz1.
    rewrite !rep_mkn, !root_mkn in Ht1.
    destruct Ht1 as (Hr & Hr0 & (Hq & _ & HA1 & HB1) & Hp & _ & HB2 & HD1).
    rewrite Hr; cbn [mbind option_bind]. rewrite (proj2 (proj2 (proj2 (mkl_fields _ _ _ _ _)))).
    apply avl_mkn in HavB as (HavB1 & HavB2 & Hbr & Hbr'). rewrite height_mkn in HbB, Hh.
    assert (HAB12 : height A = Z.max (height B1) (height B2) /\ height A = height D) by (clear Hbr Hbq; lia). clear Hbq Hh HbB.
    assert (exists bP bQ, (if br =? dir s then (- dir s, 0) else if br =? - dir s then (0, dir s) else (0, 0)) = (bP, bQ) /\
      dir s * bP = height B2 - height D /\ dir s * bQ = height A - height B1 /\ -1 <= bP <= 1 /\ -1 <= bQ <= 1)
      as (bP & bQ & -> & HbP & HbQ & HbP' & HbQ').
    { by apply twice_balances. }
    write Hp. write Hq. write Hr. do 2 eexists. split; [reflexivity|].
    exists (mkn s (mkn s A q bQ B1) r 0 (mkn s B2 p bP D)). rewrite !rep_mkn, !root_mkn, !avl_mkn, !height_mkn, ?tbal_mkn.
    assert (Hbal : Z.max (height B2) (height D) = height D /\ Z.max (height A) (height B1) = height A) by (clear - HAB12; lia).
    split_and!; try done; try apply HbP'; try apply HbQ'.
    + unfold t. by rewrite !inorder_mkn, !cat_assoc.
    + clear - HAB12 Hbal. rewrite Z.mul_0_r. lia.
    + eexists. split; [exact Hp|]. by rewrite (proj1 (proj2 (proj2 (mkl_fields _ _ _ _ _)))).
    + right. split; [done|]. split; [clear - HAB12 Hbal; lia|by apply not_eq_sym].
  - destruct (rotate_step z s h c A q 0 B p (dir s) D Ht Hc Hnd Hz) as (h1 & E & Ht1 & Hc1 & Hz1).
    rewrite E; clear E Hp Hq; cbn [mbind option_bind]. rewrite Hoz in Hz1.
    rewrite !rep_mkn, !root_mkn in Ht1. destruct Ht1 as (Hq & _ & HA1 & Hp & _ & HB1 & HD1).
    write Hq. do 2 eexists. split; [reflexivity|].
    exists (mkn s A q (- dir s) (mkn s B p (dir s) D)). rewrite !rep_mkn, !root_mkn, !avl_mkn, !height_mkn, ?tbal_mkn.
    pose proof (dir_ne s). split_and!; try done; try lia.
    + unfold t. by rewrite !inorder_mkn, !cat_assoc.
    + eexists. split; [exact Hp|]. by rewrite (proj1 (proj2 (proj2 (mkl_fields _ _ _ _ _)))).
Qed.

Lemma PhpRebalanceAvlLinks_spec z s h c T p D :
  let t := mkn s T p (dir s) D in
  avl T -> avl D -> height T = height D + 2 ->
  rep h t (cparent c) -> rep_ctx h c p -> NoDup (Root :: inorder (fill c t)) -> elsewhere z t c ->
  exists h' code, PhpRebalanceAvlLinks h (cref c) = Some (h', code) /\ rebalanced h z c T p (inorder t) h' code.
Proof.
  intros t HT HD Hh Ht Hc Hnd Hz. unfold PhpRebalanceAvlLinks.
  destruct (rebalance_spec z s h c T p D HT HD Hh Ht Hc Hnd Hz) as (h' & code & E & HR).
  exists h', code. split; [|done]. rewrite (deref_ctx h c p Hc). cbn [mbind option_bind].
  unfold t in Ht. apply rep_mkn in Ht as (Hp & _). rewrite Hp. cbn [mbind option_bind].
  rewrite (proj2 (proj2 (proj2 (mkl_fields _ _ _ _ _)))). by destruct s.
Qed.

(** The code recognises which child of its parent an element is. *)
Lemma side_of_spec h c p l :
  h !! p = Some l -> Parent l = cparent c -> rep_ctx h c p -> p <> 0 -> p ∉ caddrs c ->
  side_of h p = Some (cref c).
Proof.
  intros Hp Hpar Hc Hp0 Hnin. unfold side_of. rewrite Hp. cbn [mbind option_bind]. rewrite Hpar.
  destruct c as [|f c]; simpl in *.
  - rewrite Hc. cbn [mbind option_bind Left]. by rewrite (proj2 (Z.eqb_neq 0 p)) by done.
  - destruct Hc as (-> & _ & Hft & _). cbn [mbind option_bind].
    destruct (fs f) eqn:Ef; cbn [mkl Left]; [by rewrite Z.eqb_refl|].
    destruct (Z.eqb_spec (root (ft f)) p) as [E|_]; [|done].
    exfalso. apply Hnin. right. apply elem_of_app. left. rewrite <- E. apply root_in. by rewrite E.
Qed.

(** Balance factors of a context whose hole has height [n]. *)
Fixpoint ctx_avl (c : list frame) (n : Z) : Prop :=
  match c with
  | [] => True
  | f :: c =>
      avl (ft f) /\ dir (fs f) * fb f = n - height (ft f) /\ -1 <= fb f <= 1 /\
      ctx_avl c (1 + Z.max n (height (ft f)))
  end.

Lemma avl_fill c t : avl (fill c t) <-> avl t /\ ctx_avl c (height t).
Proof.
  revert t. induction c as [|f c IH]; intros t; simpl; [tauto|].
  rewrite IH. unfold fill1. rewrite avl_mkn, height_mkn. tauto.
Qed.

Lemma inorder_fill c t t' : inorder t = inorder t' -> inorder (fill c t) = inorder (fill c t').
Proof.
  revert t t'. induction c as [|f c IH]; intros t t' E; simpl; [done|].
  apply IH. unfold fill1. by rewrite !inorder_mkn, E.
Qed.

Lemma root_fill f c t : root (fill (f :: c) t) ∈ caddrs (f :: c).
Proof.
  revert f t. induction c as [|g c IH]; intros f t.
  - simpl. unfold fill1. rewrite root_mkn. by left.
  - change (fill (f :: g :: c) t) with (fill (g :: c) (fill1 f t)). simpl. right.
    apply elem_of_app. right. apply (IH g).
Qed.

Lemma root_fill_eq c t t' : root t = root t' -> root (fill c t) = root (fill c t').
Proof.
  revert t t'. induction c as [|f c IH]; intros t t' E; simpl; [done|].
  apply IH. unfold fill1. by rewrite !root_mkn.
Qed.

(** One balance factor is stored. *)
Lemma set_balance_step z s h c T p b D v :
  let t := mkn s T p b D in
  rep h t (cparent c) -> rep_ctx h c p -> NoDup (Root :: inorder (fill c t)) -> elsewhere z t c ->
  exists h', put h p (set_balance v) = Some h' /\
    rep h' (mkn s T p v D) (cparent c) /\ rep_ctx h' c p /\ h' !! z = h !! z.
Proof.
  intros t Ht Hc (Hnd & Hndc & Hsep)%NoDup_fill Hz. unfold t in *.
  apply elsewhere_node in Hz as (Hzp & HzT & HzD & Hzc).
  apply NoDup_mkn in Hnd as (HndT & HndD & HpT & HpD & HTD).
  assert (Hpc : p ∉ caddrs c) by (apply Hsep; rewrite elem_of_mkn; auto).
  apply rep_mkn in Ht as (Hp & Hp0 & HT & HD).
  assert (exists oz, h !! z = oz) as [oz Hoz] by eauto. rewrite Hoz.
  assert (HTc : forall y, y ∈ inorder T -> y ∉ caddrs c) by (intros y Hy; apply Hsep; rewrite elem_of_mkn; auto).
  write Hp. eexists. split; [reflexivity|]. by rewrite rep_mkn.
Qed.

Lemma add_loop_spec z c : forall fuel h t,
  rep h t (cparent c) -> rep_ctx h c (root t) -> NoDup (Root :: inorder (fill c t)) -> elsewhere z t c ->
  avl t -> ctx_avl c (height t - 1) -> root t <> 0 -> tbal t <> 0 \/ height t = 1 -> (length c < fuel)%nat ->
  exists h' t', add_loop fuel h (root t) (root (fill c t)) = Some h' /\
    rep_tree h' t' /\ inorder t' = inorder (fill c t) /\ avl t' /\ h' !! z = h !! z.
Proof.
  induction c as [|f c IH]; intros fuel h t Ht Hc Hnd Hz Hav Hcav Hr Hb Hfuel;
    (destruct fuel as [|fuel]; [simpl in Hfuel; lia|]); cbn [add_loop].
  - simpl. rewrite Z.eqb_refl. exists h, t. done.
  - pose proof Hnd as (_ & Hndc & Hsep)%NoDup_fill. pose proof (Hsep _ (root_in t Hr)) as Hrc.
    rewrite (proj2 (Z.eqb_neq (root t) (root (fill (f :: c) t)))) by (intros E; apply Hrc; rewrite E; apply root_fill).
    assert (exists l, h !! root t = Some l /\ Parent l = cparent (f :: c)) as (l & Hl & Hpar).
    { destruct t; [done|]. simpl in Ht |- *. destruct Ht as (-> & _). by eexists. }
    rewrite (side_of_spec h (f :: c) (root t) l Hl Hpar Hc Hr Hrc). cbn [mbind option_bind cref].
    destruct Hc as (Hf & Hf0 & Hft & Hc). rewrite Hf. cbn [mbind option_bind].
    rewrite (proj2 (proj2 (proj2 (mkl_fields _ _ _ _ _)))).
    assert (HT : rep h (fill1 f t) (cparent c)) by (unfold fill1; rewrite rep_mkn; auto).
    destruct Hcav as (Hfav & Hfb & Hfb' & Hcav).
    pose proof (height_nonneg (ft f)) as Hh. cbn [fill] in Hnd |- *. change (elsewhere z (fill1 f t) c) in Hz.
    destruct (dir_cases (fs f) (fb f) Hfb') as [Eb|[Eb|Eb]]; rewrite Eb in *; eqbs.
    + (* two levels too high *)
      rewrite (side_of_spec h c (fa f) _ Hf (proj1 (proj2 (proj2 (mkl_fields _ _ _ _ _)))) Hc Hf0).
      2: { apply NoDup_cons in Hndc as [Hn _]. intros Hx. apply Hn. apply elem_of_app. by right. }
      cbn [mbind option_bind]. unfold fill1 in *. rewrite Eb in *.
      assert (Hht : height t = height (ft f) + 2) by (pose proof (dir_ne (fs f)); lia).
      destruct (PhpRebalanceAvlLinks_spec z (fs f) h c t (fa f) (ft f) Hav Hfav Hht HT Hc Hnd Hz)
        as (h' & code & -> & t' & Ht' & Hc' & Hin & Hav' & Hz' & _ & Hcode).
      cbn [mbind option_bind]. exists h', (fill c t').
      split; [done|]. split; [by apply rep_fill|]. split; [by apply inorder_fill|]. split; [|done].
      apply avl_fill. split; [done|]. destruct Hcode as [(_ & _ & E0)|(_ & E & _)]; [lia|].
      replace (height t') with (1 + Z.max (height t - 1) (height (ft f))) by lia. done.
    + (* balanced *)
      unfold fill1 in *. rewrite Eb in *.
      destruct (set_balance_step z (fs f) h c t (fa f) _ (ft f) 0 HT Hc Hnd Hz) as (h' & -> & Ht' & Hc' & Hz').
      set (t1 := mkn (fs f) t (fa f) (- dir (fs f)) (ft f)) in *. set (t2 := mkn (fs f) t (fa f) 0 (ft f)) in *.
      exists h', (fill c t2). split; [done|]. unfold t2 in *. rewrite rep_fill, root_mkn.
      split; [done|]. split; [apply inorder_fill; unfold t1; by rewrite !inorder_mkn|]. split; [|done].
      apply avl_fill. rewrite avl_mkn, height_mkn. pose proof (dir_ne (fs f)).
      replace (1 + Z.max (height t) (height (ft f))) with (1 + Z.max (height t - 1) (height (ft f))) by lia.
      split_and!; try done; lia.
    + (* one level higher *)
      unfold fill1 in *. rewrite Eb in *.
      destruct (set_balance_step z (fs f) h c t (fa f) _ (ft f) (dir (fs f)) HT Hc Hnd Hz) as (h' & -> & Ht' & Hc' & Hz').
      cbn [mbind option_bind].
      set (t1 := mkn (fs f) t (fa f) 0 (ft f)) in *. set (t2 := mkn (fs f) t (fa f) (dir (fs f)) (ft f)) in *.
      assert (Hin : inorder (fill c t2) = inorder (fill c t1)) by (apply inorder_fill; unfold t1, t2; by rewrite !inorder_mkn).
      assert (Hroot : root (fill c t1) = root (fill c t2)) by (apply root_fill_eq; unfold t1, t2; by rewrite !root_mkn).
      pose proof (dir_ne (fs f)). rewrite Hroot, <- Hin, <- Hz'.
      assert (E2 : root t2 = fa f) by apply root_mkn. rewrite <- E2.
      apply IH; [done|by rewrite E2|by rewrite Hin|by unfold elsewhere; rewrite Hin|..].
      * unfold t2. rewrite avl_mkn. split_and!; try done; lia.
      * unfold t2. rewrite height_mkn. replace (1 + Z.max (height t) (height (ft f)) - 1) with (1 + Z.max (height t - 1) (height (ft f))) by lia. done.
      * by rewrite E2.
      * left. unfold t2. rewrite tbal_mkn. tauto.
      * simpl in Hfuel. lia.
Qed.

(** The elements before and after the hole of a context. *)
Fixpoint before (c : list frame) : list Z :=
  match c with
  | [] => []
  | f :: c => match fs f with LeftChild => before c | RightChild => before c ++ inorder (ft f) ++ [fa f] end
  end.
Fixpoint after (c : list frame) : list Z :=
  match c with
  | [] => []
  | f :: c => match fs f with LeftChild => fa f :: inorder (ft f) ++ after c | RightChild => after c end
  end.

Lemma fill_split c t : inorder (fill c t) = before c ++ inorder t ++ after c.
Proof.
  revert t. induction c as [|f c IH]; intros t; simpl; [by rewrite app_nil_r|].
  rewrite IH. unfold fill1. rewrite inorder_mkn. destruct (fs f); simpl; by rewrite <- ?app_assoc.
Qed.

(** The fuel: no path is longer than the heap is large. *)
Lemma size_bound (h : heap) (l : list Z) : NoDup l -> (forall x, x ∈ l -> is_Some (h !! x)) -> (length l <= size h)%nat.
Proof.
  intros Hnd Hin. rewrite <- (size_list_to_set (C := gset Z)) by done. rewrite <- size_dom.
  apply subseteq_size. intros x Hx. apply elem_of_dom, Hin. by apply elem_of_list_to_set in Hx.
Qed.

Lemma rep_tree_size h t : rep_tree h t -> NoDup (Root :: inorder t) -> (S (length (inorder t)) <= size h)%nat.
Proof.
  intros [Ht HR] Hnd. apply (size_bound h (Root :: inorder t) Hnd).
  intros x [->|Hx]%elem_of_cons; [simpl in HR; rewrite HR; eauto|]. by apply (rep_dom h t Root Ht).
Qed.

Lemma length_fill c t : (length c + length (inorder t) <= length (inorder (fill c t)))%nat.
Proof.
  revert t. induction c as [|f c IH]; intros t; simpl; [lia|].
  etrans; [|apply (IH (fill1 f t))]. unfold fill1. rewrite inorder_mkn.
  destruct (fs f); simpl; rewrite !length_app; simpl; lia.
Qed.

(** A comparison function is a total preorder up to sign. *)
Class CompareLaws (cmp : Z -> Z -> Z) : Prop := {
  cmp_sym x y : Z.sgn (cmp y x) = - Z.sgn (cmp x y);
  cmp_trans x y z : cmp x y <= 0 -> cmp y z <= 0 -> cmp x z <= 0;
}.

Context (cmp : Z -> Z -> Z) `{CompareLaws cmp}.

Lemma cmp_flip x y : cmp x y < 0 <-> 0 < cmp y x.
Proof. pose proof (cmp_sym x y). lia. Qed.

Lemma cmp_lt_trans x y z : cmp x y < 0 -> cmp y z < 0 -> cmp x z < 0.
Proof.
  intros Hxy Hyz. destruct (Z.lt_ge_cases (cmp x z) 0) as [|Hxz]; [done|].
  assert (Hzx : cmp z x <= 0) by (pose proof (cmp_sym x z); lia).
  pose proof (cmp_trans z x y Hzx ltac:(lia)). pose proof (cmp_sym y z). lia.
Qed.

Definition sorted (l : list Z) : Prop := StronglySorted (fun x y => cmp x y < 0) l.

Lemma sorted_app l m : sorted (l ++ m) <-> sorted l /\ sorted m /\ (forall x y, x ∈ l -> y ∈ m -> cmp x y < 0).
Proof.
  unfold sorted. induction l as [|a l IH]; simpl.
  - split; [|tauto]. intros Hm. split; [constructor|]. split; [done|]. by intros x y ?%elem_of_nil.
  - split.
    + intros [Hs Ha]%StronglySorted_inv. apply IH in Hs as (Hl & Hm & Hlm). rewrite Forall_app in Ha.
      destruct Ha as [Hal Ham]. split; [by constructor|]. split; [done|].
      intros x y [->|Hx]%elem_of_cons Hy; [by eapply Forall_forall in Ham|by apply Hlm].
    + intros (Hal & Hm & Hlm). apply StronglySorted_inv in Hal as [Hl Ha]. constructor.
      * apply IH. split; [done|]. split; [done|]. intros x y Hx Hy. apply Hlm; [by right|done].
      * apply Forall_app. split; [done|]. apply Forall_forall. intros y Hy. apply Hlm; [by left|done].
Qed.

Lemma sorted_node l a b r :
  sorted (inorder (Node l a b r)) <->
  sorted (inorder l) /\ sorted (inorder r) /\ (forall x, x ∈ inorder l -> cmp x a < 0) /\
  (forall y, y ∈ inorder r -> cmp a y < 0).
Proof.
  simpl. rewrite (sorted_app (inorder l) (a :: inorder r)). split.
  - intros (Hl & Hr & Hlr). apply StronglySorted_inv in Hr as [Hr Ha]. split_and!; try done.
    + intros x Hx. apply Hlr; [done|by left].
    + intros y Hy. by eapply Forall_forall in Ha.
  - intros (Hl & Hr & Hla & Har). split; [done|]. split; [constructor; [done|]|].
    + by apply Forall_forall.
    + intros x y Hx [->|Hy]%elem_of_cons; [by apply Hla|]. eapply cmp_lt_trans; [by apply Hla|by apply Har].
Qed.

(** The search ends at an equal element, or at the empty place the element belongs to. *)
Definition belongs (E : Z) (c : list frame) : Prop :=
  (forall x, x ∈ before c -> 0 < cmp E x) /\ (forall x, x ∈ after c -> cmp E x < 0).

Definition found (E : Z) (T : tree) (p r : Z) : Prop :=
  (r = 0 /\ p ∈ inorder T /\ cmp E p = 0) \/
  (r <> 0 /\ exists c, T = fill c Leaf /\ belongs E c /\ (p, if r <? 0 then LeftChild else RightChild) = cref c).

Lemma find_loop_spec E : forall fuel h t c,
  rep h t (cparent c) -> t <> Leaf -> sorted (inorder t) -> belongs E c -> (length (inorder t) <= fuel)%nat ->
  exists p r, find_loop cmp fuel h E (root t) = Some (p, r) /\ found E (fill c t) p r.
Proof.
  induction fuel as [|fuel IH]; intros h t c Ht Hne Hs [Hbef Haft] Hfuel;
    (destruct t as [|l a b r]; [done|]); [simpl in Hfuel; rewrite length_app in Hfuel; simpl in Hfuel; lia|].
  apply sorted_node in Hs as (Hsl & Hsr & Hla & Har). simpl in Ht. destruct Ht as (Ha & Ha0 & Hl & Hr).
  simpl in Hfuel. rewrite length_app in Hfuel. simpl in Hfuel.
  cbn [find_loop root]. destruct (Z.eqb_spec (cmp E a) 0) as [E0|E0].
  { exists a, 0. split; [done|]. left. split; [done|]. split; [|done].
    rewrite fill_split, !elem_of_app. right. left. simpl. rewrite elem_of_app, elem_of_cons. auto. }
  unfold deref. cbn [fst snd]. rewrite Ha. cbn [mbind option_bind].
  set (s := if cmp E a <? 0 then LeftChild else RightChild).
  set (u := if cmp E a <? 0 then l else r). set (v := if cmp E a <? 0 then r else l).
  assert (Hfill : fill c (Node l a b r) = fill ({| fs := s; fa := a; fb := b; ft := v |} :: c) u).
  { unfold s, u, v. by destruct (cmp E a <? 0). }
  assert (Hbel : belongs E ({| fs := s; fa := a; fb := b; ft := v |} :: c)).
  { unfold belongs, s, v. destruct (Z.ltb_spec (cmp E a) 0) as [Hlt|Hge]; simpl.
    - split; [done|]. intros x [->|[Hx|Hx]%elem_of_app]%elem_of_cons; [done| |by apply Haft].
      eapply cmp_lt_trans; [exact Hlt|by apply Har].
    - split; [|done]. intros x [Hx|[Hx| ->%list_elem_of_singleton]%elem_of_app]%elem_of_app; [by apply Hbef| |lia].
      apply cmp_flip. apply (cmp_lt_trans x a E); [by apply Hla|]. apply cmp_flip. lia. }
  replace (child s _) with (root u) by (unfold s, u; by destruct (cmp E a <? 0)).
  rewrite Hfill. destruct (Z.eqb_spec (root u) 0) as [Hu|Hu]; simpl.
  - exists a, (dir s). split; [done|]. right. split; [by apply dir_ne|].
    exists ({| fs := s; fa := a; fb := b; ft := v |} :: c). split.
    + assert (u = Leaf) as ->; [|done]. apply (rep_root_0 h u a); [|done]. unfold u. by destruct (cmp E a <? 0).
    + split; [done|]. simpl. f_equal. by destruct s.
  - apply (IH h u ({| fs := s; fa := a; fb := b; ft := v |} :: c)); [..|done|].
    + simpl. unfold u. by destruct (cmp E a <? 0).
    + by intros ->.
    + unfold u. by destruct (cmp E a <? 0).
    + unfold u. destruct (cmp E a <? 0); lia.
Qed.

Lemma root_element h t : rep_tree h t -> PhRootElementAvlTree Root h = Some (root t).
Proof. intros [_ HR]. apply (deref_ctx h [] (root t) HR). Qed.

Lemma PhpFindElementAvlTree_spec E h t :
  rep_tree h t -> NoDup (Root :: inorder t) -> sorted (inorder t) ->
  exists p r, PhpFindElementAvlTree Root cmp h E = Some (p, r) /\ found E t p r.
Proof.
  intros Ht Hnd Hs. unfold PhpFindElementAvlTree. rewrite (root_element h t Ht). cbn [mbind option_bind].
  destruct (Z.eqb_spec (root t) 0) as [H0|H0].
  - apply (rep_root_0 h t Root) in H0 as ->; [|apply Ht]. exists Root, 1. split; [done|]. right.
    split; [done|]. exists []. split; [done|]. split; [|done]. split; intros x ?%elem_of_nil; done.
  - pose proof (rep_tree_size h t Ht Hnd). apply (find_loop_spec E _ h t []); [apply Ht|by intros ->|done| |lia].
    split; intros x ?%elem_of_nil; done.
Qed.

(** A tree in memory: its elements in order, the balance of its links and its count. *)
Definition avl_tree (Tree : PH_AVL_TREE) (xs : list Z) : Prop :=
  exists t, rep_tree (links Tree) t /\ inorder t = xs /\ NoDup (Root :: xs) /\ avl t /\ sorted xs /\
    Count Tree = u32 (Z.of_nat (length xs)).

(** What an operation may write: the header, the elements, and [E]. *)
Definition frame_of (E : Z) (xs : list Z) (h h' : heap) : Prop :=
  forall z, z ∉ (E :: Root :: xs) -> h' !! z = h !! z.

Lemma cref_parent c : (cref c).1 = cparent c.
Proof. by destruct c. Qed.

Lemma exists_elsewhere (l : list Z) : exists z, z ∉ l.
Proof.
  destruct (exist_fresh (list_to_set (C := gset Z) l)) as [z Hz]. exists z. intros Hin. apply Hz.
  by apply elem_of_list_to_set.
Qed.

(** A new element in the empty place it belongs to, before balancing. *)
Lemma attach_spec E h c :
  rep_ctx h c 0 -> NoDup (Root :: inorder (fill c Leaf)) -> E <> 0 -> E ∉ (Root :: inorder (fill c Leaf)) ->
  exists h1, assign h (cref c) E = Some h1 /\
    rep_ctx (<[E := {| Parent := cparent c; Left := 0; Right := 0; Balance := 0 |}]> h1) c E /\
    NoDup (Root :: inorder (fill c (Node Leaf E 0 Leaf))) /\
    (forall z, z ∉ caddrs c -> h1 !! z = h !! z).
Proof.
  intros Hc (_ & Hndc & _)%NoDup_fill HE HEin. rewrite elem_of_fill in HEin.
  assert (HEc : E ∉ caddrs c) by tauto.
  destruct (assign_ctx h c 0 E Hc Hndc) as (h1 & -> & Hc1 & F). exists h1. split; [done|].
  split; [by apply ctx_insert|]. split; [|done].
  apply NoDup_fill. split; [apply NoDup_singleton|]. split; [done|]. by intros x ->%list_elem_of_singleton.
Qed.

Lemma add_spec E Tree xs :
  avl_tree Tree xs -> E <> 0 -> E ∉ (Root :: xs) ->
  (exists y, y ∈ xs /\ cmp E y = 0 /\ PhAddElementAvlTree Root cmp Tree E = Some (Tree, y)) \/
  (exists pre post Tree', xs = pre ++ post /\ PhAddElementAvlTree Root cmp Tree E = Some (Tree', 0) /\
     avl_tree Tree' (pre ++ E :: post) /\ frame_of E xs (links Tree) (links Tree')).
Proof.
  intros (t & Ht & <- & Hnd & Hav & Hs & Hcount) HE HEin. unfold PhAddElementAvlTree.
  destruct (PhpFindElementAvlTree_spec E (links Tree) t Ht Hnd Hs) as (p & r & -> & Hfound).
  cbn [mbind option_bind]. destruct Hfound as [(-> & Hp & Hcmp)|(Hr & c & -> & [Hbef Haft] & Href)].
  { left. exists p. done. }
  right. rewrite (proj2 (Z.eqb_neq r 0)) by done. rewrite Href. pose proof Ht as [_ Hc]%rep_fill. simpl in Hc.
  destruct (attach_spec E (links Tree) c Hc Hnd HE HEin) as (h1 & -> & Hc1 & Hnd1 & F1).
  cbn [mbind option_bind]. replace p with (cparent c) by (rewrite <- cref_parent, <- Href; done).
  set (h2 := <[E := _]> h1) in *. set (t1 := Node Leaf E 0 Leaf) in *.
  assert (Ht1 : rep h2 t1 (cparent c)) by (simpl; unfold h2; by rewrite lookup_insert_eq).
  assert (HT1 : rep_tree h2 (fill c t1)) by by apply rep_fill.
  rewrite (root_element h2 _ HT1). cbn [mbind option_bind].
  apply avl_fill in Hav as [_ Hcav]. simpl in Hcav.
  assert (Hfuel : (length c < size h2)%nat).
  { pose proof (rep_tree_size h2 _ HT1 Hnd1). pose proof (length_fill c t1). simpl in *. lia. }
  assert (Hstep : forall z, elsewhere z t1 c -> exists h' t', add_loop (size h2) h2 E (root (fill c t1)) = Some h' /\
    rep_tree h' t' /\ inorder t' = inorder (fill c t1) /\ avl t' /\ h' !! z = h2 !! z).
  { intros z Hz. apply (add_loop_spec z c (size h2) h2 t1); try done. by right. }
  destruct (exists_elsewhere (Root :: inorder (fill c t1))) as [z Hz].
  destruct (Hstep z Hz) as (h' & t' & E' & Ht' & Hin & Hav' & _). rewrite E'. cbn [mbind option_bind].
  exists (before c), (after c). eexists. rewrite !fill_split in *. simpl in *.
  split; [done|]. split; [reflexivity|]. split.
  - exists t'. split; [done|]. split; [done|]. split; [done|]. split; [done|]. split.
    + apply sorted_app in Hs as (Hsb & Hsa & Hba). apply sorted_app. split; [done|]. split.
      * constructor; [done|]. by apply Forall_forall.
      * intros x y Hx [->|Hy]%elem_of_cons; [apply cmp_flip; by apply Hbef|by apply Hba].
    + rewrite Hcount. unfold u32. rewrite Zplus_mod_idemp_l. rewrite !length_app. simpl. apply (f_equal (fun n => n mod 2 ^ 32)). lia.
  - intros y Hy. rewrite !elem_of_cons, elem_of_app in Hy. cbn [links].
    assert (Hy' : elsewhere y t1 c).
    { unfold elsewhere. rewrite fill_split. simpl. rewrite elem_of_cons, elem_of_app, elem_of_cons. tauto. }
    destruct (Hstep y Hy') as (h'' & _ & E'' & _ & _ & _ & Hyz).
    assert (h'' = h') as -> by congruence. rewrite Hyz. unfold h2. rewrite lookup_insert_ne by (intros ->; tauto).
    apply F1. unfold elsewhere in Hy'. rewrite elem_of_fill in Hy'. tauto.
Qed.

(** ** Removal *)

Lemma tree_at x t : x ∈ inorder t -> exists c l b r, t = fill c (Node l x b r).
Proof.
  assert (Hg : forall t c, x ∈ inorder t -> exists c' l b r, fill c t = fill c' (Node l x b r)).
  { clear t. induction t as [|l IHl a b r IHr]; intros c; simpl; [by intros ?%elem_of_nil|].
    rewrite elem_of_app, elem_of_cons. intros [Hx|[->|Hx]].
    - apply (IHl ({| fs := LeftChild; fa := a; fb := b; ft := r |} :: c) Hx).
    - by exists c, l, b, r.
    - apply (IHr ({| fs := RightChild; fa := a; fb := b; ft := l |} :: c) Hx). }
  apply (Hg t []).
Qed.

(** The elements on one side of the hole. *)
Definition beside (s : side) (c : list frame) : list Z :=
  match s with LeftChild => before c | RightChild => after c end.

Lemma fill_beside s c t : inorder (fill c t) = cat s (beside s c) (cat s (inorder t) (beside (opp s) c)).
Proof. rewrite fill_split. destruct s; simpl; [done|]. by rewrite app_assoc. Qed.

(** Descending on one side ends at the element next to the elements on that side. *)
Lemma descend_spec s : forall fuel h t c,
  rep h t (cparent c) -> t <> Leaf -> (length (inorder t) <= fuel)%nat ->
  exists a c' b v, descend fuel s h (root t) = Some a /\ fill c t = fill c' (mkn s Leaf a b v) /\
    beside s c' = beside s c.
Proof.
  induction fuel as [|fuel IH]; intros h t c Ht Hne Hfuel;
    destruct (mkn_inv s t Hne) as (x & a & b & y & ->); rewrite inorder_mkn in Hfuel.
  { rewrite !length_cat in Hfuel; simpl in Hfuel; lia. }
  assert (Hfuel' : (length (inorder x) <= fuel)%nat) by (rewrite !length_cat in Hfuel; simpl in Hfuel; lia).
  apply rep_mkn in Ht as (Ha & Ha0 & Hx & Hy). cbn [descend]. rewrite root_mkn. read Ha.
  destruct (Z.eqb_spec (root x) 0) as [H0|H0].
  - apply (rep_root_0 h x a Hx) in H0 as ->. by exists a, c, b, y.
  - set (f := {| fs := s; fa := a; fb := b; ft := y |}).
    assert (Hxne : x <> Leaf) by (by intros ->).
    destruct (IH h x (f :: c) Hx Hxne Hfuel') as (a' & c' & b' & v & E & Efill & Hbes).
    exists a', c', b', v. split; [done|]. split; [done|]. rewrite Hbes. unfold f. by destruct s.
Qed.

(** The element to unlink has at most one child, and is [E] or next to it. *)
Definition next_to (E N : Z) (xs : list Z) : Prop :=
  N = E \/ exists pre post, xs = pre ++ E :: N :: post \/ xs = pre ++ N :: E :: post.

Lemma rep_root h t q : rep h t q -> t <> Leaf -> root t <> 0.
Proof. intros Ht Hne H0. apply Hne. by eapply rep_root_0. Qed.

Lemma next_to_side s c E b x y c' N v bN :
  inorder (fill c (mkn s x E b y)) = inorder (fill c' (mkn s Leaf N bN v)) ->
  beside s c' = beside s ({| fs := opp s; fa := E; fb := b; ft := x |} :: c) ->
  next_to E N (inorder (fill c (mkn s x E b y))).
Proof.
  intros HE Hb. rewrite HE, (fill_beside s), Hb, inorder_mkn. right. destruct s; simpl.
  - exists (before c ++ inorder x), (inorder v ++ after c'). left. by rewrite <- !app_assoc.
  - exists (before c' ++ inorder v), (inorder x ++ after c). right. by rewrite app_nil_r, <- !app_assoc.
Qed.

Lemma new_element_spec E h t :
  rep_tree h t -> NoDup (Root :: inorder t) -> E ∈ inorder t ->
  exists N c s b u, new_element h E = Some N /\ t = fill c (mkn s Leaf N b u) /\ next_to E N (inorder t).
Proof.
  intros Ht Hnd (c & l & b & r & ->)%tree_at. pose proof (rep_tree_size h _ Ht Hnd) as Hsize.
  pose proof (length_fill c (Node l E b r)) as Hlen. simpl in Hlen. rewrite length_app in Hlen. simpl in Hlen.
  pose proof Ht as [HE Hc]%rep_fill. simpl in HE. destruct HE as (HE & HE0 & Hl & Hr).
  unfold new_element. rewrite HE. cbn [mbind option_bind Left Right Balance].
  destruct (Z.eqb_spec (root l) 0) as [H0|Hl0]; simpl.
  { apply (rep_root_0 h l E Hl) in H0 as ->. exists E, c, LeftChild, b, r. split; [done|]. split; [done|by left]. }
  destruct (Z.eqb_spec (root r) 0) as [H0|Hr0]; simpl.
  { apply (rep_root_0 h r E Hr) in H0 as ->. exists E, c, RightChild, b, l. split; [done|]. split; [done|by left]. }
  destruct (0 <=? b).
  - assert (Hrne : r <> Leaf) by (by intros ->).
    destruct (descend_spec LeftChild (size h) h r ({| fs := RightChild; fa := E; fb := b; ft := l |} :: c) Hr Hrne ltac:(lia))
      as (N & c' & bN & v & -> & Efill & Hbes).
    exists N, c', LeftChild, bN, v. split; [done|]. split; [exact Efill|].
    apply (next_to_side LeftChild c E b l r c' N v bN); [by rewrite <- Efill|done].
  - assert (Hlne : l <> Leaf) by (by intros ->).
    destruct (descend_spec RightChild (size h) h l ({| fs := LeftChild; fa := E; fb := b; ft := r |} :: c) Hl Hlne ltac:(lia))
      as (N & c' & bN & v & -> & Efill & Hbes).
    exists N, c', RightChild, bN, v. split; [done|]. split; [exact Efill|].
    apply (next_to_side RightChild c E b r l c' N v bN); [by rewrite <- Efill|done].
Qed.

(** One step up, to the parent of the subtree [t] of height one less than before. *)
Lemma remove_loop_spec z c : forall fuel h t,
  rep h t (cparent c) -> rep_ctx h c (root t) -> NoDup (Root :: inorder (fill c t)) -> elsewhere z t c ->
  avl t -> ctx_avl c (height t + 1) -> (length c < fuel)%nat ->
  exists h' t', remove_loop Root fuel h (cparent c) (dir (cref c).2) = Some h' /\
    rep_tree h' t' /\ inorder t' = inorder (fill c t) /\ avl t' /\ h' !! z = h !! z.
Proof.
  induction c as [|f c IH]; intros fuel h t Ht Hc Hnd Hz Hav Hcav Hfuel;
    (destruct fuel as [|fuel]; [simpl in Hfuel; lia|]); cbn [remove_loop cparent].
  - rewrite Z.eqb_refl. by exists h, t.
  - pose proof Hnd as (_ & Hndc & _)%NoDup_fill. destruct Hc as (Hf & Hf0 & Hft & Hc).
    assert (Hfc : fa f ∉ caddrs c) by (apply NoDup_cons in Hndc as [Hn _]; intros Hx; apply Hn; apply elem_of_app; by right).
    assert (HfR : fa f <> Root) by (intros E; apply Hfc; rewrite E; clear; induction c; simpl; [by left|right; apply elem_of_app; by right]).
    rewrite (proj2 (Z.eqb_neq _ _) HfR), Hf. cbn [mbind option_bind cref snd].
    rewrite (proj2 (proj2 (proj2 (mkl_fields _ _ _ _ _)))).
    assert (HT : rep h (fill1 f t) (cparent c)) by (unfold fill1; rewrite rep_mkn; auto).
    destruct Hcav as (Hfav & Hfb & Hfb' & Hcav).
    pose proof (height_nonneg (ft f)) as Hh. cbn [fill] in Hnd |- *. change (elsewhere z (fill1 f t) c) in Hz.
    assert (Hup : forall h' t', rep h' t' (cparent c) -> rep_ctx h' c (root t') -> root t' <> 0 ->
      inorder t' = inorder (fill1 f t) -> avl t' -> height t' + 1 = 1 + Z.max (height t + 1) (height (ft f)) ->
      h' !! z = h !! z ->
      exists h'' t'', ('(P, s) ← side_of h' (root t'); remove_loop Root fuel h' P (dir s)) = Some h'' /\
        rep_tree h'' t'' /\ inorder t'' = inorder (fill c (fill1 f t)) /\ avl t'' /\ h'' !! z = h !! z).
    { intros h' t' Ht' Hc' Hr' Hin Hav' Hht Hz'. apply (inorder_fill c) in Hin.
      assert (exists l, h' !! root t' = Some l /\ Parent l = cparent c) as (l & Hl & Hpar).
      { destruct t'; [done|]. simpl in Ht' |- *. destruct Ht' as (-> & _). by eexists. }
      assert (Hr'c : root t' ∉ caddrs c).
      { rewrite <- Hin in Hnd. apply NoDup_fill in Hnd as (_ & _ & Hs). by apply Hs, root_in. }
      rewrite (side_of_spec h' c (root t') l Hl Hpar Hc' Hr' Hr'c), <- Hin, <- Hz'. cbn [mbind option_bind].
      replace (let '(P, s) := cref c in remove_loop Root fuel h' P (dir s)) with
        (remove_loop Root fuel h' (cparent c) (dir (cref c).2)) by (by destruct c).
      apply IH; try done.
      - by rewrite Hin.
      - unfold elsewhere. by rewrite Hin.
      - by rewrite Hht.
      - simpl in Hfuel. lia. }
    destruct (dir_cases (fs f) (fb f) Hfb') as [Eb|[Eb|Eb]]; rewrite Eb in *; eqbs.
    + unfold fill1 in *. rewrite Eb in *.
      destruct (set_balance_step z (fs f) h c t (fa f) _ (ft f) 0 HT Hc Hnd Hz) as (h' & -> & Ht' & Hc' & Hz').
      cbn [mbind option_bind]. pose proof (dir_ne (fs f)).
      specialize (Hup h' (mkn (fs f) t (fa f) 0 (ft f))). rewrite root_mkn in Hup.
      apply Hup; try done; [by rewrite !inorder_mkn| |].
      * rewrite avl_mkn. split_and!; try done; lia.
      * rewrite height_mkn. lia.
    + destruct (dir_ne (fs f)) as (Hd1 & Hd2 & Hd3 & Hd4 & Hd5).
      rewrite (side_of_spec h c (fa f) _ Hf (proj1 (proj2 (proj2 (mkl_fields _ _ _ _ _)))) Hc Hf0 Hfc).
      cbn [mbind option_bind]. unfold fill1 in *. rewrite Eb in *.
      assert (Em : mkn (fs f) t (fa f) (- dir (fs f)) (ft f) = mkn (opp (fs f)) (ft f) (fa f) (dir (opp (fs f))) t)
        by (by rewrite mkn_opp, dir_opp).
      rewrite Em in HT, Hz, Hnd, Hup |- *.
      destruct (PhpRebalanceAvlLinks_spec z (opp (fs f)) h c (ft f) (fa f) t Hfav Hav ltac:(lia) HT Hc Hnd Hz)
        as (h' & code & -> & t' & Ht' & Hc' & Hin & Hav' & Hz' & (lP & HlP & HlPp) & Hcode).
      cbn [mbind option_bind]. destruct Hcode as [(-> & Hht & _)|(Hne & Hht & _)]; eqbs.
      * exists h', (fill c t'). split; [done|]. split; [by apply rep_fill|]. split; [by apply inorder_fill|].
        split; [|done]. apply avl_fill. split; [done|].
        by replace (height t') with (1 + Z.max (height t + 1) (height (ft f))) by lia.
      * rewrite HlP. cbn [mbind option_bind]. rewrite HlPp. apply Hup; try done; [|lia].
        apply (rep_root h' t' (cparent c) Ht'). apply height_pos. pose proof (height_nonneg t). lia.
    + unfold fill1 in *. rewrite Eb in *.
      destruct (set_balance_step z (fs f) h c t (fa f) _ (ft f) (- dir (fs f)) HT Hc Hnd Hz) as (h' & -> & Ht' & Hc' & Hz').
      exists h'. eexists. split; [done|]. rewrite rep_fill, root_mkn.
      split; [done|]. split; [apply inorder_fill; by rewrite !inorder_mkn|]. split; [|done].
      apply avl_fill. rewrite avl_mkn, height_mkn. destruct (dir_ne (fs f)) as (Hd1 & Hd2 & Hd3 & Hd4 & Hd5).
      replace (1 + Z.max (height t) (height (ft f))) with (1 + Z.max (height t + 1) (height (ft f))) by lia.
      split_and!; try done; lia.
Qed.

Lemma not_elem_node z s u N b c :
  elsewhere z (mkn s Leaf N b u) c <-> z <> N /\ (z ∉ inorder u) /\ (z ∉ caddrs c).
Proof.
  unfold elsewhere. rewrite elem_of_fill, elem_of_mkn. simpl. split; [intros Hn|intros (?&?&?) [[?|[?%elem_of_nil|?]]|?]]; tauto.
Qed.

(** An element with at most one child is unlinked; its own links stay. *)
Lemma unlink_spec h c s N b u lN :
  rep_tree h (fill c (mkn s Leaf N b u)) -> NoDup (Root :: inorder (fill c (mkn s Leaf N b u))) ->
  h !! N = Some lN ->
  Parent lN = cparent c /\ side_of h N = Some (cref c) /\
  (if Right lN =? 0 then Left lN else Right lN) = root u /\
  exists h1 h2, assign h (cref c) (root u) = Some h1 /\ put_parent h1 (root u) (Parent lN) = Some h2 /\
    rep h2 u (cparent c) /\ rep_ctx h2 c (root u) /\
    forall z, (z ∉ inorder u) -> (z ∉ caddrs c) -> h2 !! z = h !! z.
Proof.
  intros [Ht Hc]%rep_fill (Hnd & Hndc & Hsep)%NoDup_fill HlN. rewrite root_mkn in Hc.
  apply rep_mkn in Ht as (HN & HN0 & _ & Hu). rewrite HN in HlN. injection HlN as <-.
  assert (HNc : N ∉ caddrs c) by (apply Hsep; rewrite elem_of_mkn; by left).
  assert (Huc : forall y, y ∈ inorder u -> y ∉ caddrs c) by (intros y Hy; apply Hsep; rewrite elem_of_mkn; auto).
  rewrite (proj1 (proj2 (proj2 (mkl_fields _ _ _ _ _)))).
  split; [done|]. split; [eapply side_of_spec; try done; apply mkl_fields|]. split.
  { destruct s; simpl; [|done]. destruct (Z.eqb_spec (root u) 0); congruence. }
  apply NoDup_mkn in Hnd as (_ & Hndu & _).
  destruct (assign_ctx h c N (root u) Hc Hndc) as (h1 & -> & Hc1 & F1).
  assert (Hu1 : rep h1 u N) by (eapply rep_frame; [|exact Hu]; intros x Hx; by apply F1, Huc).
  destruct (put_parent_rep h1 u N (cparent c) Hu1 Hndu) as (h2 & E2 & Hu2 & F2).
  exists h1, h2. split; [done|]. split; [done|]. split; [done|]. split.
  - eapply ctx_frame; [|exact Hc1]. intros x Hx. apply F2. intros Hxu. by apply (Huc x).
  - intros z Hzu Hzc. rewrite F2, F1; done.
Qed.

(** [N] takes the place of [E]. *)
Lemma substitute_spec h c l E b r N :
  rep_tree h (fill c (Node l E b r)) -> NoDup (Root :: inorder (fill c (Node l E b r))) ->
  elsewhere N (Node l E b r) c -> N <> 0 -> is_Some (h !! N) ->
  exists h', substitute h E N = Some h' /\ rep_tree h' (fill c (Node l N b r)) /\
    forall z, z <> N -> elsewhere z (Node l E b r) c -> h' !! z = h !! z.
Proof.
  intros Ht Hnd HN HN0 [lN0 HlN0]. pose proof Ht as [HE Hc]%rep_fill. simpl in HE, Hc.
  destruct HE as (HE & HE0 & Hl & Hr).
  apply NoDup_fill in Hnd as (Hnd & Hndc & Hsep). apply (NoDup_mkn LeftChild) in Hnd as (Hndl & Hndr & HEl & HEr & Hlr).
  apply (elsewhere_node N LeftChild l E b r c) in HN as (HNE & HNl & HNr & HNc).
  assert (HEc : E ∉ caddrs c) by (apply Hsep, (elem_of_mkn E LeftChild); by left).
  assert (Hlc : forall y, y ∈ inorder l -> y ∉ caddrs c) by (intros y Hy; apply Hsep, (elem_of_mkn y LeftChild); auto).
  assert (Hrc : forall y, y ∈ inorder r -> y ∉ caddrs c) by (intros y Hy; apply Hsep, (elem_of_mkn y LeftChild); auto).
  unfold substitute. rewrite HE, HlN0. cbn [mbind option_bind]. set (lE := {| Parent := _ |}) in *.
  set (h0 := <[N := lE]> h).
  assert (F0 : forall y, y <> N -> h0 !! y = h !! y) by (intros y Hy; by apply lookup_insert_ne).
  assert (HN' : h0 !! N = Some lE) by apply lookup_insert_eq.
  assert (HE' : h0 !! E = Some lE) by (rewrite F0; [done|by apply not_eq_sym]).
  apply (rep_insert h N lE l E HNl) in Hl. apply (rep_insert h N lE r E HNr) in Hr.
  apply (ctx_insert h N lE c E HNc) in Hc. fold h0 in Hl, Hr, Hc.
  rewrite (side_of_spec h0 c E lE HE' eq_refl Hc HE0 HEc). cbn [mbind option_bind].
  destruct (assign_ctx h0 c E N Hc Hndc) as (h1 & -> & Hc1 & F1). cbn [mbind option_bind].
  rewrite <- (F1 N HNc) in HN'. rewrite HN'. cbn [mbind option_bind Left Right lE].
  apply (rep_frame h0 h1) in Hl; [|intros x Hx; by apply F1, Hlc].
  apply (rep_frame h0 h1) in Hr; [|intros x Hx; by apply F1, Hrc].
  destruct (put_parent_rep h1 l E N Hl Hndl) as (h2 & -> & Hl2 & F2). cbn [mbind option_bind].
  apply (rep_frame h1 h2) in Hr; [|intros x Hx; apply F2; intros Hx'; by apply (Hlr x)].
  apply (ctx_frame h1 h2) in Hc1; [|intros x Hx; apply F2; intros Hx'; by apply (Hlc x)].
  rewrite <- (F2 N HNl) in HN'.
  destruct (put_parent_rep h2 r E N Hr Hndr) as (h3 & -> & Hr3 & F3).
  apply (rep_frame h2 h3) in Hl2; [|intros x Hx; apply F3; intros Hx'; by apply (Hlr x)].
  apply (ctx_frame h2 h3) in Hc1; [|intros x Hx; apply F3; intros Hx'; by apply (Hrc x)].
  rewrite <- (F3 N HNr) in HN'.
  exists h3. split; [done|]. split; [apply rep_fill; simpl; done|].
  intros z HzN (HzE & Hzl & Hzr & Hzc)%(elsewhere_node z LeftChild l E b r c). by rewrite F3, F2, F1, F0.
Qed.

Lemma NoDup_split_unique {A} (x : A) a b a' b' :
  NoDup (a ++ x :: b) -> a ++ x :: b = a' ++ x :: b' -> a = a' /\ b = b'.
Proof.
  revert a'. induction a as [|y a IH]; intros [|y' a'] Hnd E; simpl in *.
  - injection E as ->. done.
  - injection E as <- ->. apply NoDup_cons in Hnd as [Hn _]. exfalso. apply Hn. apply elem_of_app. right. by left.
  - injection E as -> <-. apply NoDup_cons in Hnd as [Hn _]. exfalso. apply Hn. apply elem_of_app. right. by left.
  - injection E as <- E. apply NoDup_cons in Hnd as [_ Hnd]. by destruct (IH a' Hnd E) as [-> ->].
Qed.

Lemma sorted_remove pre x post : sorted (pre ++ x :: post) -> sorted (pre ++ post).
Proof.
  intros (Hpre & Hpost & Hd)%sorted_app. apply StronglySorted_inv in Hpost as [Hpost _].
  apply sorted_app. split; [done|]. split; [done|]. intros a b Ha Hb. apply Hd; [done|by right].
Qed.

Lemma NoDup_remove_mid (pre : list Z) x post : NoDup (Root :: pre ++ x :: post) -> NoDup (Root :: pre ++ post) /\ x ∉ (Root :: pre ++ post).
Proof.
  rewrite !NoDup_cons, !NoDup_app, NoDup_cons, elem_of_cons, !elem_of_app, elem_of_cons.
  intros (HR & Hpre & Hd & Hx & Hpost). split_and!; try done.
  - tauto.
  - intros y Hy Hy'. apply (Hd y Hy). by right.
  - intros [->|[Hxp|Hxp]]; [tauto| |done]. apply (Hd x Hxp). by left.
Qed.

Lemma split_node s c N b u :
  exists p q, inorder (fill c (mkn s Leaf N b u)) = p ++ N :: q /\ inorder (fill c u) = p ++ q.
Proof.
  rewrite !fill_split, inorder_mkn. destruct s; simpl.
  - exists (before c), (inorder u ++ after c). done.
  - exists (before c ++ inorder u), (after c). by rewrite <- !app_assoc.
Qed.

(** Once [N] is out of the tree and the balance restored, [N] replaces [E] unless it is [E]. *)
Lemma replace_spec pre E post N h t p q :
  rep_tree h t -> avl t -> inorder t = p ++ q -> pre ++ E :: post = p ++ N :: q ->
  next_to E N (pre ++ E :: post) -> NoDup (Root :: pre ++ E :: post) -> N <> 0 -> is_Some (h !! N) ->
  exists h' t', (if negb (N =? E) then substitute h E N else Some h) = Some h' /\
    rep_tree h' t' /\ inorder t' = pre ++ post /\ avl t' /\
    forall z, z ∉ (Root :: pre ++ E :: post) -> h' !! z = h !! z.
Proof.
  intros Ht Hav Hin HE Hnext Hnd HN0 HN. assert (Hnd' := Hnd). apply NoDup_cons in Hnd' as [HR Hnd'].
  destruct (Z.eqb_spec N E) as [->|HNE]; simpl.
  { destruct (NoDup_split_unique E pre post p q Hnd' HE) as [<- <-]. by exists h, t. }
  destruct Hnext as [->|(a & d & Hnext)]; [done|].
  assert (Hpq : exists p1 q1, p ++ q = p1 ++ E :: q1 /\ p1 ++ N :: q1 = pre ++ post).
  { destruct Hnext as [Ha|Ha].
    - destruct (NoDup_split_unique E pre post a (N :: d) Hnd' Ha) as [-> ->].
      rewrite HE in Hnd'. destruct (NoDup_split_unique N p q (a ++ [E]) d Hnd') as [-> ->].
      { by rewrite <- HE, <- app_assoc. }
      exists a, d. by rewrite <- app_assoc.
    - destruct (NoDup_split_unique E pre post (a ++ [N]) d Hnd') as [-> ->]; [by rewrite Ha, <- app_assoc|].
      rewrite <- app_assoc in HE, Hnd' |- *. simpl in *.
      destruct (NoDup_split_unique N a (E :: d) p q Hnd' HE) as [<- <-]. by exists a, d. }
  destruct Hpq as (p1 & q1 & Epq & <-).
  assert (HNx : NoDup (Root :: p ++ q) /\ N ∉ (Root :: p ++ q)) by (apply NoDup_remove_mid; by rewrite <- HE).
  destruct HNx as [Hndpq HNpq]. rewrite Epq in Hin, Hndpq, HNpq.
  assert (HEt : E ∈ inorder t) by (rewrite Hin; apply elem_of_app; right; by left).
  apply tree_at in HEt as (c & l & b & r & ->).
  destruct (substitute_spec h c l E b r N Ht) as (h' & E' & Ht' & F); [by rewrite Hin|by unfold elsewhere; rewrite Hin|done|done|].
  rewrite E'. exists h', (fill c (Node l N b r)). split; [done|]. split; [done|].
  rewrite fill_split in Hin. simpl in Hin. rewrite <- app_assoc, app_assoc in Hin. simpl in Hin.
  apply NoDup_cons in Hndpq as [_ Hndpq]. rewrite <- Hin in Hndpq.
  destruct (NoDup_split_unique E _ _ _ _ Hndpq Hin) as [Ep Eq].
  split; [rewrite fill_split; simpl; rewrite <- app_assoc, app_assoc; simpl; by rewrite Ep, Eq|].
  split; [by apply avl_fill in Hav; apply avl_fill|].
  intros z Hz. rewrite elem_of_cons, HE, elem_of_app, elem_of_cons in Hz. apply F; [tauto|].
  unfold elsewhere. rewrite fill_split. simpl. rewrite <- app_assoc, app_assoc. simpl.
  rewrite Ep, Eq, <- Epq, elem_of_cons, elem_of_app. tauto.
Qed.

Lemma remove_spec pre E post Tree :
  avl_tree Tree (pre ++ E :: post) ->
  exists Tree', PhRemoveElementAvlTree Root Tree E = Some Tree' /\ avl_tree Tree' (pre ++ post) /\
    frame_of E (pre ++ E :: post) (links Tree) (links Tree').
Proof.
  intros (t & Ht & Hin & Hnd & Hav & Hs & Hcount). unfold PhRemoveElementAvlTree.
  destruct (new_element_spec E (links Tree) t Ht) as (N & c & s & b & u & -> & -> & Hnext);
    [by rewrite Hin|rewrite Hin; apply elem_of_app; right; by left|].
  cbn [mbind option_bind]. pose proof Ht as [HtN _]%rep_fill.
  assert (exists lN, links Tree !! N = Some lN /\ N <> 0) as (lN & HlN & HN0) by (apply rep_mkn in HtN as (? & ? & _); eauto).
  rewrite <- Hin in Hnd.
  destruct (unlink_spec (links Tree) c s N b u lN Ht Hnd HlN) as (Hpar & -> & Hsub & h1 & h2 & E1 & E2 & Hu & Hc & F).
  rewrite HlN. cbn [mbind option_bind]. rewrite Hsub, E1. cbn [mbind option_bind]. rewrite E2. cbn [mbind option_bind].
  destruct (split_node s c N b u) as (p & q & Epq & Epq'). rewrite Epq in Hin, Hnd, Hnext.
  destruct (NoDup_remove_mid p N q Hnd) as [Hndu HNu]. rewrite <- Epq' in Hndu, HNu.
  assert (HN2 : h2 !! N = Some lN) by (rewrite elem_of_fill in HNu; rewrite F; tauto).
  rewrite HN2. cbn [mbind option_bind]. rewrite Hpar.
  assert (Hfuel : (length c < size h2)%nat).
  { pose proof (rep_tree_size h2 (fill c u) (proj2 (rep_fill h2 c u) (conj Hu Hc)) Hndu). pose proof (length_fill c u). lia. }
  apply avl_fill in Hav as [HavN Hcav]. apply avl_mkn in HavN as (_ & Havu & _ & _).
  rewrite height_mkn in Hcav. replace (1 + Z.max (height Leaf) (height u)) with (height u + 1) in Hcav
    by (pose proof (height_nonneg u); simpl; lia).
  pose proof (fun z Hz => remove_loop_spec z c (size h2) h2 u Hu Hc Hndu Hz Havu Hcav Hfuel) as Hloop.
  destruct (Hloop N HNu) as (h3 & t3 & E3 & Ht3 & Hin3 & Hav3 & HN3). rewrite E3. cbn [mbind option_bind].
  rewrite Epq' in Hin3. rewrite HN2 in HN3. rewrite Hin in Hnext, Hnd.
  destruct (replace_spec pre E post N h3 t3 p q Ht3 Hav3 Hin3 (eq_sym Hin) Hnext Hnd HN0 ltac:(eauto))
    as (h4 & t4 & -> & Ht4 & Hin4 & Hav4 & F4).
  cbn [mbind option_bind]. eexists. split; [reflexivity|]. split.
  - exists t4. split; [done|]. split; [done|]. split; [by apply NoDup_remove_mid in Hnd as [Hnd _]|].
    split; [done|]. split; [by eapply sorted_remove|]. cbn [Count]. rewrite Hcount. unfold u32.
    rewrite Zminus_mod_idemp_l, !length_app. simpl. apply (f_equal (fun n => n mod 2 ^ 32)). lia.
  - intros z Hz. rewrite elem_of_cons in Hz. cbn [links]. rewrite F4 by tauto.
    assert (Hz' : elsewhere z u c).
    { unfold elsewhere. rewrite Epq', elem_of_cons, elem_of_app. rewrite <- Hin, elem_of_cons, elem_of_app, elem_of_cons in Hz. tauto. }
    destruct (Hloop z Hz') as (h3' & _ & E3' & _ & _ & _ & Hz3). assert (h3' = h3) as -> by congruence.
    unfold elsewhere in Hz'. rewrite elem_of_fill in Hz'. rewrite Hz3. apply F; tauto.
Qed.

(** ** Queries *)

Lemma bound_loop_spec right record E : (forall x a, cmp x a < 0 -> right (cmp E a) = true -> right (cmp E x) = true) ->
  forall fuel h t c,
  rep h t (cparent c) -> sorted (inorder t) -> (length (inorder t) < fuel)%nat ->
  (forall x, x ∈ before c -> right (cmp E x) = true) -> (forall x, x ∈ after c -> right (cmp E x) = false) ->
  exists pre post, inorder (fill c t) = pre ++ post /\
    (forall x, x ∈ pre -> right (cmp E x) = true) /\ (forall x, x ∈ post -> right (cmp E x) = false) /\
    bound_loop cmp fuel h right record E (root t) (match record with LeftChild => hd 0 (after c) | RightChild => List.last (before c) 0 end) =
      Some (match record with LeftChild => hd 0 post | RightChild => List.last pre 0 end).
Proof.
  intros Hmono. induction fuel as [|fuel IH]; intros h t c Ht Hs Hfuel Hbef Haft; [lia|]. cbn [bound_loop].
  destruct t as [|l a b r].
  { simpl. exists (before c), (after c). by rewrite fill_split. }
  apply sorted_node in Hs as (Hsl & Hsr & Hla & Har).
  apply (rep_mkn h LeftChild) in Ht as (Ha & Ha0 & Hl & Hr). simpl in Hfuel. rewrite length_app in Hfuel. simpl in Hfuel.
  cbn [root]. rewrite (proj2 (Z.eqb_neq a 0)) by done. unfold deref. cbn [fst snd]. rewrite Ha. cbn [mbind option_bind mkl].
  destruct (right (cmp E a)) eqn:Hra; simpl.
  - destruct (IH h r ({| fs := RightChild; fa := a; fb := b; ft := l |} :: c) Hr Hsr ltac:(lia)) as (pre & post & Hin & Hpre & Hpost & Eq).
    + simpl. intros x. rewrite !elem_of_app, list_elem_of_singleton. intros [Hx|[Hx| ->]]; [auto| |done]. apply (Hmono x a); auto.
    + done.
    + exists pre, post. split; [done|]. split; [done|]. split; [done|]. rewrite <- Eq. f_equal.
      simpl. destruct record; simpl; [done|]. by rewrite app_assoc, last_last.
  - destruct (IH h l ({| fs := LeftChild; fa := a; fb := b; ft := r |} :: c) Hl Hsl ltac:(lia)) as (pre & post & Hin & Hpre & Hpost & Eq).
    + done.
    + simpl. intros x. rewrite elem_of_cons, elem_of_app. intros [->|[Hx|Hx]]; [done| |auto].
      destruct (right (cmp E x)) eqn:Hrx; [|done]. rewrite <- Hra. symmetry. apply (Hmono a x); auto.
    + exists pre, post. split; [done|]. split; [done|]. split; [done|]. rewrite <- Eq. f_equal.
      simpl. by destruct record.
Qed.

Lemma bound_spec right record E Tree xs :
  (forall x a, cmp x a < 0 -> right (cmp E a) = true -> right (cmp E x) = true) -> avl_tree Tree xs ->
  exists pre post, xs = pre ++ post /\
    (forall x, x ∈ pre -> right (cmp E x) = true) /\ (forall x, x ∈ post -> right (cmp E x) = false) /\
    bound Root cmp right record (links Tree) E =
      Some (match record with LeftChild => hd 0 post | RightChild => List.last pre 0 end).
Proof.
  intros Hmono (t & Ht & <- & Hnd & _ & Hs & _). unfold bound. rewrite (root_element _ t Ht). cbn [mbind option_bind].
  pose proof (rep_tree_size _ t Ht Hnd). destruct Ht as [Ht _].
  destruct (bound_loop_spec right record E Hmono (S (size (links Tree))) (links Tree) t [] Ht Hs ltac:(lia))
    as (pre & post & Hin & Hpre & Hpost & Eq); [by intros x ?%elem_of_nil..|].
  exists pre, post. split; [done|]. split; [done|]. split; [done|]. rewrite <- Eq. by destruct record.
Qed.

(** Both bounds of a comparison share the split. *)
Lemma bounds_spec right E Tree xs :
  (forall x a, cmp x a < 0 -> right (cmp E a) = true -> right (cmp E x) = true) -> avl_tree Tree xs ->
  exists pre post, xs = pre ++ post /\
    (forall x, x ∈ pre -> right (cmp E x) = true) /\ (forall x, x ∈ post -> right (cmp E x) = false) /\
    bound Root cmp right LeftChild (links Tree) E = Some (hd 0 post) /\
    bound Root cmp right RightChild (links Tree) E = Some (List.last pre 0).
Proof.
  intros Hmono HT.
  destruct (bound_spec right LeftChild E Tree xs Hmono HT) as (pre & post & Hxs & Hpre & Hpost & Hl).
  destruct (bound_spec right RightChild E Tree xs Hmono HT) as (pre' & post' & Hxs' & Hpre' & Hpost' & Hr).
  assert (Hsame : forall p q p' q' : list Z, p ++ q = p' ++ q' ->
    (forall x, x ∈ p -> right (cmp E x) = true) -> (forall x, x ∈ q -> right (cmp E x) = false) ->
    (forall x, x ∈ p' -> right (cmp E x) = true) -> (forall x, x ∈ q' -> right (cmp E x) = false) -> p = p').
  { induction p as [|x p IH]; intros q [|y p'] q' Heq Hp Hq Hp' Hq'; simpl in Heq; [done|..].
    - exfalso. subst q. pose proof (Hq y ltac:(by left)). pose proof (Hp' y ltac:(by left)). congruence.
    - exfalso. subst q'. pose proof (Hp x ltac:(by left)). pose proof (Hq' x ltac:(by left)). congruence.
    - injection Heq as -> Heq. f_equal. apply (IH q p' q' Heq); [|done| |done]; intros z Hz; [apply Hp|apply Hp']; by right. }
  rewrite <- (Hsame pre post pre' post') in Hr by (done || congruence). exists pre, post. done.
Qed.

Lemma goes_right_pos E x a : cmp x a < 0 -> (0 <? cmp E a) = true -> (0 <? cmp E x) = true.
Proof. rewrite !Z.ltb_lt, <- !cmp_flip. apply cmp_lt_trans. Qed.

Lemma goes_right_nonneg E x a : cmp x a < 0 -> (0 <=? cmp E a) = true -> (0 <=? cmp E x) = true.
Proof.
  rewrite !Z.leb_le. intros Hxa HEa. pose proof (cmp_sym a E) as H1. pose proof (cmp_sym x E) as H2.
  assert (H3 : cmp a E <= 0) by lia. assert (H4 : cmp x a <= 0) by lia.
  pose proof (cmp_trans x a E H4 H3). lia.
Qed.

(** The first element on a side. *)
Definition first (s : side) (xs : list Z) : Z :=
  match s with LeftChild => hd 0 xs | RightChild => List.last xs 0 end.

Lemma first_cat s a xs : first s (cat s [a] xs) = a.
Proof. destruct s; simpl; [done|apply last_last]. Qed.

Lemma extremum_spec s Tree xs : avl_tree Tree xs -> extremum Root s (links Tree) = Some (first s xs).
Proof.
  intros (t & Ht & <- & Hnd & _). unfold extremum. rewrite (root_element _ t Ht). cbn [mbind option_bind].
  pose proof (rep_tree_size _ t Ht Hnd) as Hsize. destruct Ht as [Ht _].
  destruct (Z.eqb_spec (root t) 0) as [H0|H0].
  - apply (rep_root_0 _ t Root Ht) in H0 as ->. by destruct s.
  - assert (Hne : t <> Leaf) by (by intros ->).
    destruct (descend_spec s (size (links Tree)) (links Tree) t [] Ht Hne ltac:(lia)) as (a & c' & b & v & -> & Efill & Hb).
    simpl in Efill. rewrite Efill, (fill_beside s), Hb, inorder_mkn.
    replace (beside s []) with (@nil Z) by (by destruct s). rewrite !cat_assoc.
    destruct s; simpl; rewrite ?app_nil_r; [done|]. by rewrite last_last.
Qed.

(** The closest ancestor on the far side. *)
Definition nearest (s : side) (c : list frame) : Z :=
  match s with
  | RightChild => hd 0 (after c)
  | LeftChild => match before c with [] => Root | _ => List.last (before c) 0 end
  end.

Lemma climb_spec s c : forall fuel h p,
  rep_ctx h c p -> p <> 0 -> Root <> 0 -> p ∉ caddrs c -> NoDup (caddrs c) -> (S (length c) < fuel)%nat ->
  climb fuel s h p (cparent c) = Some (nearest s c).
Proof.
  induction c as [|f c IH]; intros fuel h p Hc Hp HR Hpc Hnd Hfuel; (destruct fuel as [|fuel]; [lia|]); cbn [climb cparent].
  - rewrite (proj2 (Z.eqb_neq Root 0)) by done. simpl in Hc. rewrite Hc. cbn [mbind option_bind].
    destruct s; cbn [child Left Right Parent]; [by rewrite (proj2 (Z.eqb_neq 0 p)) by done|].
    rewrite Z.eqb_refl. simpl in Hfuel. destruct fuel; [lia|]. done.
  - destruct Hc as (Hf & Hf0 & Hft & Hc). apply NoDup_cons in Hnd as [Hfn Hnd]. rewrite elem_of_app in Hfn.
    rewrite (proj2 (Z.eqb_neq (fa f) 0)), Hf by done. cbn [mbind option_bind].
    apply NoDup_app in Hnd as (_ & _ & Hnd). simpl in Hpc, Hfuel. rewrite elem_of_cons, elem_of_app in Hpc.
    assert (Hpf : root (ft f) <> p).
    { intros E. apply Hpc. right. left. rewrite <- E. apply root_in. by rewrite E. }
    destruct (decide (s = fs f)) as [->|Hs].
    + rewrite (proj1 (mkl_fields _ _ _ _ _)), Z.eqb_refl, (proj1 (proj2 (proj2 (mkl_fields _ _ _ _ _)))).
      rewrite IH; try done; [|tauto|lia]. unfold nearest. simpl. by destruct (fs f).
    + assert (Eo : s = opp (fs f)) by (destruct s, (fs f); done). rewrite Eo.
      rewrite (proj1 (proj2 (mkl_fields _ _ _ _ _))), (proj2 (Z.eqb_neq _ _) Hpf). unfold nearest. simpl.
      destruct (fs f); simpl; [done|]. rewrite app_assoc, last_last. by destruct (before c ++ inorder (ft f)).
Qed.

Lemma parent_ne_0 h t x : rep_tree h t -> Root <> 0 -> x ∈ inorder t -> exists l, h !! x = Some l /\ Parent l <> 0.
Proof.
  intros Ht HR (c & l & b & r & ->)%tree_at. apply rep_fill in Ht as [(Hx & _) Hc]. eexists. split; [exact Hx|].
  simpl. destruct c as [|f c]; simpl in *; [done|]. tauto.
Qed.

Lemma successor_spec pre E post Tree :
  Root <> 0 -> avl_tree Tree (pre ++ E :: post) ->
  PhSuccessorElementAvlTree (links Tree) E = Some (hd 0 post).
Proof.
  intros HR (t & Ht & Hin & Hnd & _). unfold PhSuccessorElementAvlTree. rewrite <- Hin in Hnd.
  pose proof (rep_tree_size _ t Ht Hnd) as Hsize.
  assert (HE : E ∈ inorder t) by (rewrite Hin; apply elem_of_app; right; by left).
  apply tree_at in HE as (c & l & b & r & ->).
  assert (Hpost : post = inorder r ++ after c).
  { rewrite fill_split in Hin. simpl in Hin. rewrite <- app_assoc, app_assoc in Hin. simpl in Hin. symmetry in Hin.
    apply NoDup_cons in Hnd as [_ Hnd]. rewrite fill_split in Hnd. simpl in Hnd. rewrite <- app_assoc, app_assoc in Hnd. simpl in Hnd.
    symmetry in Hin. by destruct (NoDup_split_unique E _ _ _ _ Hnd Hin) as [_ <-]. }
  pose proof (length_fill c (Node l E b r)) as Hlen. simpl in Hlen. rewrite length_app in Hlen. simpl in Hlen.
  apply rep_fill in Ht as [(HE & HE0 & Hl & Hr) Hc]. rewrite HE. cbn [mbind option_bind Right Parent].
  destruct (Z.eqb_spec (root r) 0) as [H0|H0]; cbn [negb].
  - apply (rep_root_0 _ r E Hr) in H0 as ->. rewrite Hpost. apply NoDup_fill in Hnd as (_ & Hndc & Hsep).
    apply (climb_spec RightChild c _ _ E Hc HE0 HR); [apply Hsep; simpl; rewrite elem_of_app; right; by left|done|lia].
  - assert (Hne : r <> Leaf) by (by intros ->).
    destruct (descend_spec LeftChild (size (links Tree)) _ r ({| fs := RightChild; fa := E; fb := b; ft := l |} :: c) Hr Hne ltac:(lia))
      as (a & c' & b' & v & -> & Efill & Hb).
    assert (Hin' : inorder (fill c (Node l E b r)) = inorder (fill c' (mkn LeftChild Leaf a b' v))) by (by rewrite <- Efill).
    rewrite !fill_split in Hin'. simpl in Hin', Hb. rewrite Hb, <- !app_assoc in Hin'. simpl in Hin'.
    do 2 apply app_inv_head in Hin'. injection Hin' as Hin'. by rewrite Hpost, Hin'.
Qed.

Lemma predecessor_spec pre E post Tree :
  Root <> 0 -> avl_tree Tree (pre ++ E :: post) ->
  PhPredecessorElementAvlTree (links Tree) E = Some (List.last pre 0).
Proof.
  intros HR (t & Ht & Hin & Hnd & _). unfold PhPredecessorElementAvlTree. rewrite <- Hin in Hnd.
  pose proof (rep_tree_size _ t Ht Hnd) as Hsize. pose proof (fun x => parent_ne_0 (links Tree) t x Ht HR) as Hpar.
  pose proof (proj2 Ht) as HRoot. simpl in HRoot. pose proof (rep_dom _ t Root (proj1 Ht)) as Hdom.
  assert (HE : E ∈ inorder t) by (rewrite Hin; apply elem_of_app; right; by left).
  apply tree_at in HE as (c & l & b & r & ->).
  assert (Hpre : pre = before c ++ inorder l).
  { rewrite fill_split in Hin. simpl in Hin. rewrite <- app_assoc, app_assoc in Hin. simpl in Hin.
    apply NoDup_cons in Hnd as [_ Hnd]. rewrite fill_split in Hnd. simpl in Hnd. rewrite <- app_assoc, app_assoc in Hnd. simpl in Hnd.
    by destruct (NoDup_split_unique E _ _ _ _ Hnd Hin) as [<- _]. }
  pose proof (length_fill c (Node l E b r)) as Hlen. simpl in Hlen. rewrite length_app in Hlen. simpl in Hlen.
  apply rep_fill in Ht as [(HE & HE0 & Hl & Hr) Hc]. rewrite HE. cbn [mbind option_bind Left Parent].
  destruct (Z.eqb_spec (root l) 0) as [H0|H0]; cbn [negb].
  - apply (rep_root_0 _ l E Hl) in H0 as ->. rewrite Hpre, app_nil_r. pose proof Hnd as (_ & Hndc & Hsep)%NoDup_fill.
    rewrite (climb_spec LeftChild c _ _ E Hc HE0 HR); [|apply Hsep; simpl; by left|done|lia].
    cbn [mbind option_bind]. unfold nearest. destruct (before c) as [|y ys] eqn:Eb.
    + rewrite (proj2 (Z.eqb_neq Root 0)), HRoot by done. done.
    + assert (Hlast : List.last (y :: ys) 0 ∈ inorder (fill c (Node Leaf E b r))).
      { rewrite fill_split, Eb, elem_of_app. left. rewrite (app_removelast_last (l := y :: ys) 0) at 2 by done.
        apply elem_of_app. right. by left. }
      destruct (Hpar _ Hlast) as (ll & Hll & Hllp).
      assert (Hl0 : List.last (y :: ys) 0 <> 0) by apply (Hdom _ Hlast).
      rewrite (proj2 (Z.eqb_neq _ 0) Hl0), Hll. cbn [mbind option_bind]. by rewrite (proj2 (Z.eqb_neq _ 0) Hllp).
  - assert (Hne : l <> Leaf) by (by intros ->).
    destruct (descend_spec RightChild (size (links Tree)) _ l ({| fs := LeftChild; fa := E; fb := b; ft := r |} :: c) Hl Hne ltac:(lia))
      as (a & c' & b' & v & -> & Efill & Hb).
    assert (Hin' : inorder (fill c (Node l E b r)) = inorder (fill c' (mkn RightChild Leaf a b' v))) by (by rewrite <- Efill).
    rewrite !fill_split in Hin'. simpl in Hin', Hb. rewrite Hb, <- !app_assoc in Hin'. simpl in Hin'.
    assert (Heq : (before c ++ inorder l) ++ E :: inorder r ++ after c = (before c' ++ inorder v ++ [a]) ++ E :: inorder r ++ after c)
      by (rewrite <- !app_assoc; exact Hin').
    apply app_inv_tail in Heq. by rewrite Hpre, Heq, app_assoc, last_last.
Qed.

(** ** Enumeration *)

(** The fewest elements of a balanced tree of height [n]. *)
Definition minsize (n : nat) : Z := fst (Nat.iter n (fun '(a, b) => (b, a + b + 1)) (0, 1)).

Lemma minsize_step n : minsize (S (S n)) = minsize n + minsize (S n) + 1.
Proof. unfold minsize. simpl. by destruct (Nat.iter n _ _). Qed.

Lemma minsize_mono_1 n : 0 <= minsize n < minsize (S n).
Proof. induction n as [|n IH]; [done|]. rewrite minsize_step. lia. Qed.

Lemma minsize_mono n m : (n <= m)%nat -> minsize n <= minsize m.
Proof. induction 1 as [|m _ IH]; [done|]. pose proof (minsize_mono_1 m). lia. Qed.

Lemma avl_minsize t : avl t -> minsize (Z.to_nat (height t)) <= Z.of_nat (length (inorder t)).
Proof.
  induction t as [|l IHl a b r IHr]; [done|]. intros (Hl & Hr & -> & Hb). simpl. rewrite length_app. simpl.
  specialize (IHl Hl). specialize (IHr Hr). pose proof (height_nonneg l). pose proof (height_nonneg r).
  assert (Hmax : exists n, Z.to_nat (1 + Z.max (height l) (height r)) = S n /\
    ((n = Z.to_nat (height l) /\ (n <= S (Z.to_nat (height r)))%nat) \/ (n = Z.to_nat (height r) /\ (n <= S (Z.to_nat (height l)))%nat))).
  { exists (Z.to_nat (Z.max (height l) (height r))). lia. }
  destruct Hmax as (n & -> & Hn). destruct n as [|n].
  { change (minsize 1) with 1. lia. }
  rewrite minsize_step. destruct Hn as [[E Hn]|[E Hn]]; rewrite <- E in *.
  - pose proof (minsize_mono n (Z.to_nat (height r)) ltac:(lia)). lia.
  - pose proof (minsize_mono n (Z.to_nat (height l)) ltac:(lia)). lia.
Qed.

(** Up to [2^32] elements, no path is longer than the stack. *)
Lemma height_bound t : avl t -> Z.of_nat (length (inorder t)) <= 2 ^ 32 -> height t <= 45.
Proof.
  intros Hav%avl_minsize Hlen. destruct (Z.le_gt_cases (height t) 45) as [|Hgt]; [done|].
  pose proof (minsize_mono 46 (Z.to_nat (height t)) ltac:(lia)) as Hm.
  assert (E : minsize 46 = 4807526975) by (by vm_compute). lia.
Qed.

Lemma height_fill c t : Z.of_nat (length c) + height t <= height (fill c t).
Proof.
  revert t. induction c as [|f c IH]; intros t; simpl; [lia|].
  pose proof (IH (fill1 f t)) as Hi. unfold fill1 in *. rewrite height_mkn in Hi. lia.
Qed.

(** The ancestors waiting on the stack, the nearest on top. *)
Fixpoint pending (s : side) (c : list frame) : list Z :=
  match c with
  | [] => []
  | f :: c => if decide (fs f = s) then fa f :: pending s c else pending s c
  end.

Lemma length_pending s c : (length (pending s c) <= length c)%nat.
Proof. induction c as [|f c IH]; simpl; [done|]. case_decide; simpl; lia. Qed.

Lemma push_spine_spec s : forall fuel h t c,
  rep h t (cparent c) -> (length (inorder t) < fuel)%nat -> height (fill c t) <= 46 ->
  exists c', push_spine fuel s h (root t) (pending s c) = Some (pending s c') /\
    fill c t = fill c' Leaf /\ beside s c' = beside s c.
Proof.
  induction fuel as [|fuel IH]; intros h t c Ht Hfuel Hh; [lia|]. cbn [push_spine].
  assert (t = Leaf \/ t <> Leaf) as [->|Hne] by (destruct t; auto); [by exists c|].
  rewrite (proj2 (Z.eqb_neq (root t) 0)) by (by eapply rep_root).
  destruct (mkn_inv s t Hne) as (x & a & b & y & ->). rewrite root_mkn. rewrite inorder_mkn in Hfuel.
  pose proof (height_fill c (mkn s x a b y)) as Hh'. rewrite height_mkn in Hh'.
  pose proof (height_nonneg x). pose proof (height_nonneg y). pose proof (length_pending s c).
  rewrite decide_True by (unfold STACK_SIZE; lia).
  apply rep_mkn in Ht as (Ha & Ha0 & Hx & Hy). read Ha.
  set (f := {| fs := s; fa := a; fb := b; ft := y |}).
  destruct (IH h x (f :: c)) as (c' & Epush & Efill & Hb); [done|..|done|].
  - rewrite !length_cat in Hfuel; simpl in Hfuel; lia.
  - exists c'. simpl in Epush. rewrite decide_True in Epush by done. split; [done|]. split; [done|].
    rewrite Hb. unfold f. by destruct s.
Qed.

(** The elements in enumeration order, and the calls of the callback until it answers FALSE. *)
Definition order (s : side) (xs : list Z) : list Z := match s with LeftChild => xs | RightChild => rev xs end.

Fixpoint visit {St : Type} (Callback : Z -> St -> St * bool) (xs : list Z) (st : St) : St :=
  match xs with
  | [] => st
  | x :: xs => let '(st, continue) := Callback x st in if continue then visit Callback xs st else st
  end.

Lemma order_cat s u v : order s (cat s u v) = order s u ++ order s v.
Proof. destruct s; simpl; [done|apply rev_app_distr]. Qed.

Lemma beside_inv s c c' t : fill c t = fill c' Leaf -> beside s c' = beside s c ->
  beside (opp s) c' = cat s (inorder t) (beside (opp s) c).
Proof.
  intros Efill Hb. assert (E : inorder (fill c t) = inorder (fill c' Leaf)) by (by rewrite Efill).
  rewrite !(fill_beside s), Hb in E. destruct s; simpl in *; [by apply app_inv_head in E|].
  rewrite app_nil_r in E. by apply app_inv_tail in E.
Qed.

Lemma beside_same s f c : fs f = s -> beside (opp s) (f :: c) = cat s [fa f] (cat s (inorder (ft f)) (beside (opp s) c)).
Proof. intros <-. simpl. destruct (fs f) eqn:E; simpl; rewrite E; [done|]. by rewrite <- app_assoc. Qed.

Lemma enum_loop_spec {St : Type} (Callback : Z -> St -> St * bool) s h T :
  rep_tree h T -> (S (length (inorder T)) <= size h)%nat -> height T <= 46 -> forall fuel c t st,
  T = fill c t -> (length (beside (opp s) c) < fuel)%nat ->
  enum_loop Callback fuel s h (pending s c) st = Some (visit Callback (order s (beside (opp s) c)) st).
Proof.
  intros HT Hsize Hh. induction fuel as [|fuel IHf]; intros c t st; [lia|]. cbn [enum_loop].
  revert t st. induction c as [|f c IHc]; intros t st E Hfuel.
  { by destruct s. }
  cbn [pending]. case_decide as Hs.
  - rewrite (beside_same s f c Hs) in Hfuel |- *. rewrite order_cat. replace (order s [fa f]) with [fa f] by (by destruct s).
    cbn [app visit]. destruct (Callback (fa f) st) as [st' [|]]; [|done].
    pose proof HT as HT'. rewrite E, rep_fill in HT'. destruct HT' as [Ht (Hf & Hf0 & Hft & _)].
    rewrite Hs in Hf. read Hf.
    set (c1 := {| fs := opp s; fa := fa f; fb := fb f; ft := t |} :: c).
    assert (E1 : T = fill c1 (ft f)) by (rewrite E; unfold c1; cbn [fill]; unfold fill1; cbn [fs fa fb ft]; by rewrite Hs, mkn_opp).
    assert (Ep : pending s c1 = pending s c) by (unfold c1; simpl; rewrite decide_False; [done|by destruct s]).
    rewrite <- Ep. destruct (push_spine_spec s (S (size h)) h (ft f) c1 Hft) as (c' & -> & Efill & Hb).
    { rewrite E1 in Hsize. pose proof (length_fill c1 (ft f)). lia. }
    { by rewrite <- E1. }
    cbn [mbind option_bind].
    assert (Ec1 : beside (opp s) c1 = beside (opp s) c) by (unfold c1; by destruct s).
    pose proof (beside_inv s c1 c' (ft f) Efill Hb) as Eb. rewrite Ec1 in Eb. rewrite <- Eb.
    apply (IHf c' Leaf); [by rewrite <- Efill|]. rewrite Eb.
    rewrite !length_cat in *. simpl in Hfuel. lia.
  - assert (Eb : beside (opp s) (f :: c) = beside (opp s) c) by (simpl; destruct s; simpl; by destruct (fs f)).
    rewrite Eb in Hfuel |- *. by apply (IHc (fill1 f t)).
Qed.

Lemma enum_spec {St : Type} (Callback : Z -> St -> St * bool) s Tree xs st :
  avl_tree Tree xs -> Z.of_nat (length xs) <= 2 ^ 32 ->
  PhEnumAvlTree Root Callback s (links Tree) st = Some (visit Callback (order s xs) st).
Proof.
  intros (t & Ht & <- & Hnd & Hav & _) Hlen. pose proof (height_bound t Hav Hlen) as Hh.
  pose proof (rep_tree_size _ t Ht Hnd) as Hsize. unfold PhEnumAvlTree. rewrite (root_element _ t Ht). cbn [mbind option_bind].
  destruct (push_spine_spec s (S (size (links Tree))) (links Tree) t [] (proj1 Ht) ltac:(lia)) as (c' & E & Efill & Hb); [simpl; lia|].
  cbn [pending] in E. rewrite E. cbn [mbind option_bind]. pose proof (beside_inv s [] c' t Efill Hb) as Eb.
  replace (cat s (inorder t) (beside (opp s) [])) with (inorder t) in Eb by (destruct s; simpl; by rewrite ?app_nil_r).
  rewrite <- Eb. apply (enum_loop_spec Callback s (links Tree) t Ht Hsize ltac:(lia) _ c' Leaf); [by rewrite <- Efill|].
  rewrite Eb. lia.
Qed.

(** ** The sorted list a tree stands for *)

Fixpoint insert_sorted (E : Z) (xs : list Z) : list Z :=
  match xs with
  | [] => [E]
  | x :: xs' => if cmp E x =? 0 then xs else if cmp E x <? 0 then E :: xs else x :: insert_sorted E xs'
  end.

Lemma insert_sorted_found E xs y : sorted xs -> y ∈ xs -> cmp E y = 0 -> insert_sorted E xs = xs.
Proof.
  induction xs as [|x xs IH]; [by intros _ ?%elem_of_nil|]. intros [Hs Hx]%StronglySorted_inv Hy HE. simpl.
  destruct (Z.eqb_spec (cmp E x) 0) as [|Hne]; [done|]. apply elem_of_cons in Hy as [->|Hy]; [done|].
  assert (Hxy : cmp x y < 0) by (by eapply Forall_forall in Hx).
  pose proof (cmp_sym E y) as Hsym. pose proof (cmp_sym E x) as Hsym'.
  assert (HxE : cmp x E <= 0) by (apply (cmp_trans x y E); lia).
  rewrite (proj2 (Z.ltb_ge (cmp E x) 0)) by lia. by rewrite IH.
Qed.

Lemma insert_sorted_new E pre post :
  (forall x, x ∈ pre -> cmp x E < 0) -> (forall y, y ∈ post -> cmp E y < 0) ->
  insert_sorted E (pre ++ post) = pre ++ E :: post.
Proof.
  intros Hpre Hpost. induction pre as [|x pre IH]; simpl.
  - destruct post as [|y post]; [done|]. simpl. pose proof (Hpost y ltac:(by left)).
    rewrite (proj2 (Z.eqb_neq (cmp E y) 0)) by lia. by rewrite (proj2 (Z.ltb_lt (cmp E y) 0)).
  - pose proof (proj1 (cmp_flip x E) (Hpre x ltac:(by left))).
    rewrite (proj2 (Z.eqb_neq (cmp E x) 0)), (proj2 (Z.ltb_ge (cmp E x) 0)) by lia.
    f_equal. apply IH. intros z Hz. apply Hpre. by right.
Qed.

(** A client's calls, on the list and on the tree. An element is added while it is not in the tree,
    and removed while it is. *)
Inductive call := Add (E : Z) | Remove (E : Z).

Definition list_step (xs : list Z) (op : call) : option (list Z) :=
  match op with
  | Add E => if decide (E <> 0 /\ E ∉ (Root :: xs)) then Some (insert_sorted E xs) else None
  | Remove E => if decide (E ∈ xs) then Some (filter (fun x => x <> E) xs) else None
  end.

Definition tree_step (Tree : PH_AVL_TREE) (op : call) : ub PH_AVL_TREE :=
  match op with
  | Add E => '(Tree, _) ← PhAddElementAvlTree Root cmp Tree E; Some Tree
  | Remove E => PhRemoveElementAvlTree Root Tree E
  end.

Fixpoint run {S : Type} (step : S -> call -> option S) (s : S) (ops : list call) : option S :=
  match ops with [] => Some s | op :: ops => s ← step s op; run step s ops end.

Lemma filter_remove (E : Z) pre post : NoDup (pre ++ E :: post) -> filter (fun x => x <> E) (pre ++ E :: post) = pre ++ post.
Proof.
  intros Hnd. apply NoDup_app in Hnd as (_ & Hd & HE). apply NoDup_cons in HE as [HE _].
  assert (Hall : forall l : list Z, E ∉ l -> filter (fun x => x <> E) l = l).
  { induction l as [|x l IH]; [done|]. rewrite not_elem_of_cons. intros [Hx Hl].
    rewrite filter_cons_True by (by apply not_eq_sym). by rewrite IH. }
  rewrite filter_app, filter_cons_False, !Hall; [done|done| |].
  - intros Hp. apply (Hd E Hp). by left.
  - by intros Hne.
Qed.

Lemma step_spec op Tree xs xs' : avl_tree Tree xs -> list_step xs op = Some xs' ->
  exists Tree', tree_step Tree op = Some Tree' /\ avl_tree Tree' xs'.
Proof.
  intros HT Hstep. destruct op as [E|E]; simpl in Hstep; case_decide as Hd; [|done| |done]; injection Hstep as <-; simpl.
  - destruct Hd as [HE HEin]. assert (Hs : sorted xs) by (by destruct HT as (? & _ & _ & _ & _ & ? & _)).
    destruct (add_spec E Tree xs HT HE HEin) as [(y & Hy & Hcmp & ->)|(pre & post & Tree' & -> & -> & HT' & _)];
      cbn [mbind option_bind].
    + exists Tree. split; [done|]. by rewrite (insert_sorted_found E xs y).
    + exists Tree'. split; [done|]. assert (Hs' : sorted (pre ++ E :: post)) by (by destruct HT' as (? & _ & _ & _ & _ & ? & _)).
      apply sorted_app in Hs' as (_ & HEp & Hlt). apply StronglySorted_inv in HEp as [_ HEp].
      rewrite insert_sorted_new; [done|..].
      * intros x Hx. apply Hlt; [done|by left].
      * intros y Hy. by eapply Forall_forall in HEp.
  - apply list_elem_of_split in Hd as (pre & post & ->).
    destruct (remove_spec pre E post Tree HT) as (Tree' & -> & HT' & _). exists Tree'. split; [done|].
    rewrite filter_remove; [done|]. destruct HT as (? & _ & _ & Hnd & _). by apply NoDup_cons in Hnd as [_ Hnd].
Qed.

Lemma initialize_spec h : avl_tree (PhInitializeAvlTree Root h) [].
Proof.
  exists Leaf. split; [split; [done|apply lookup_insert_eq]|]. split; [done|]. split; [apply NoDup_singleton|].
  split; [done|]. split; [constructor|done].
Qed.

(** ** Properties *)

(** C7: From an initialised tree, every sequence of additions of elements not in the tree and
    removals of elements in it runs without undefined behaviour, and ends in a balanced tree in
    memory that holds exactly the sorted list the same sequence makes of the empty list. *)
Theorem avl_refines_sorted_list h ops xs :
  run list_step [] ops = Some xs ->
  exists Tree, run tree_step (PhInitializeAvlTree Root h) ops = Some Tree /\ avl_tree Tree xs.
Proof.
  assert (Hrun : forall Tree ys, avl_tree Tree ys -> run list_step ys ops = Some xs ->
    exists Tree', run tree_step Tree ops = Some Tree' /\ avl_tree Tree' xs).
  { induction ops as [|op ops IH]; intros Tree ys HT Hrun; simpl in *; [exists Tree; by injection Hrun as <-|].
    apply bind_Some in Hrun as (ys' & Hstep & Hrun). destruct (step_spec op Tree ys ys' HT Hstep) as (Tree' & -> & HT').
    by apply (IH Tree' ys'). }
  apply Hrun, initialize_spec.
Qed.

(** [PhAddElementAvlTree] returns an equal element and changes nothing when the tree has one;
    otherwise it links the new element at its place in the order, restores the balance, counts it,
    and writes to nothing but the header, the elements and the new element. *)
Theorem avl_add E Tree xs :
  avl_tree Tree xs -> E <> 0 -> E ∉ (Root :: xs) ->
  (exists y, y ∈ xs /\ cmp E y = 0 /\ PhAddElementAvlTree Root cmp Tree E = Some (Tree, y)) \/
  (exists pre post Tree', xs = pre ++ post /\ PhAddElementAvlTree Root cmp Tree E = Some (Tree', 0) /\
     avl_tree Tree' (pre ++ E :: post) /\ frame_of E xs (links Tree) (links Tree')).
Proof. apply add_spec. Qed.

(** [PhRemoveElementAvlTree] takes exactly the given element out of the order, leaves a
    balanced tree of the others, and writes to nothing but the header and the elements. *)
Theorem avl_remove pre E post Tree :
  avl_tree Tree (pre ++ E :: post) ->
  exists Tree', PhRemoveElementAvlTree Root Tree E = Some Tree' /\ avl_tree Tree' (pre ++ post) /\
    frame_of E (pre ++ E :: post) (links Tree) (links Tree').
Proof. apply remove_spec. Qed.

(** [PhFindElementAvlTree] returns an element of the tree that compares equal, and NULL only
    when there is none. *)
Theorem avl_find E Tree xs :
  avl_tree Tree xs ->
  exists p, PhFindElementAvlTree Root cmp (links Tree) E = Some p /\
    (p <> 0 -> p ∈ xs /\ cmp E p = 0) /\ (p = 0 -> forall y, y ∈ xs -> cmp E y <> 0).
Proof.
  intros (t & Ht & <- & Hnd & _ & Hs & _). unfold PhFindElementAvlTree.
  destruct (PhpFindElementAvlTree_spec E _ t Ht Hnd Hs) as (p & r & -> & Hf). cbn [mbind option_bind].
  destruct Hf as [(-> & Hp & Hcmp)|(Hr & c & -> & [Hbef Haft] & _)].
  - exists p. split; [done|]. split; [done|]. intros ->. by destruct (rep_dom _ t Root (proj1 Ht) 0 Hp).
  - rewrite (proj2 (Z.eqb_neq r 0)) by done. exists 0. split; [done|]. split; [done|]. intros _ y.
    rewrite fill_split. simpl. intros [Hy|Hy]%elem_of_app; [pose proof (Hbef y Hy)|pose proof (Haft y Hy)]; lia.
Qed.

(** the bounds are the elements on either side of the place the given element would take:
    the lower bound is the first element not below it and the lower dual bound the last one below
    it; the upper bound is the first element above it and the upper dual bound the last one not
    above it. A bound that does not exist is NULL. *)
Theorem avl_bounds E Tree xs :
  avl_tree Tree xs ->
  (exists pre post, xs = pre ++ post /\ (forall x, x ∈ pre -> 0 < cmp E x) /\ (forall x, x ∈ post -> cmp E x <= 0) /\
     PhLowerBoundElementAvlTree Root cmp (links Tree) E = Some (hd 0 post) /\
     PhLowerDualBoundElementAvlTree Root cmp (links Tree) E = Some (List.last pre 0)) /\
  (exists pre post, xs = pre ++ post /\ (forall x, x ∈ pre -> 0 <= cmp E x) /\ (forall x, x ∈ post -> cmp E x < 0) /\
     PhUpperBoundElementAvlTree Root cmp (links Tree) E = Some (hd 0 post) /\
     PhUpperDualBoundElementAvlTree Root cmp (links Tree) E = Some (List.last pre 0)).
Proof.
  intros HT. split.
  - destruct (bounds_spec (fun result => 0 <? result) E Tree xs (goes_right_pos E) HT) as (pre & post & -> & Hpre & Hpost & Hl & Hr).
    exists pre, post. split; [done|]. split; [|split; [|done]]; intros x Hx; [apply Z.ltb_lt|apply Z.ltb_ge]; auto.
  - destruct (bounds_spec (fun result => 0 <=? result) E Tree xs (goes_right_nonneg E) HT) as (pre & post & -> & Hpre & Hpost & Hl & Hr).
    exists pre, post. split; [done|]. split; [|split; [|done]]; intros x Hx; [apply Z.leb_le|apply Z.leb_gt]; auto.
Qed.

(** the minimum and maximum are the ends of the order, and the successor and predecessor of an
    element its neighbours, NULL at the ends. *)
Theorem avl_neighbours pre E post Tree :
  Root <> 0 -> avl_tree Tree (pre ++ E :: post) ->
  PhMinimumElementAvlTree Root (links Tree) = Some (hd 0 (pre ++ E :: post)) /\
  PhMaximumElementAvlTree Root (links Tree) = Some (List.last (pre ++ E :: post) 0) /\
  PhSuccessorElementAvlTree (links Tree) E = Some (hd 0 post) /\
  PhPredecessorElementAvlTree (links Tree) E = Some (List.last pre 0).
Proof.
  intros HR HT. split; [apply (extremum_spec LeftChild _ _ HT)|]. split; [apply (extremum_spec RightChild _ _ HT)|].
  split; [by apply (successor_spec pre E post)|by apply (predecessor_spec pre E post)].
Qed.

(** [PhEnumAvlTree] calls the callback on the elements in order, or in reverse order, until it
    answers FALSE, and its 47-slot stack never overflows in a tree of at most 2^32 elements. *)
Theorem avl_enumerate {St : Type} (Callback : Z -> St -> St * bool) s Tree xs st :
  avl_tree Tree xs -> Z.of_nat (length xs) <= 2 ^ 32 ->
  PhEnumAvlTree Root Callback s (links Tree) st = Some (visit Callback (order s xs) st).
Proof. apply enum_spec. Qed.

End context.

(** ** A tree of keys *)

Definition demo_cmp (x y : Z) : Z := x - y.
#[global] Instance demo_laws : CompareLaws demo_cmp.
Proof. split; intros; unfold demo_cmp in *; lia. Qed.

(** A header at address 7 and six elements, whose addresses are their keys. *)
Definition demo_ops : list call := [Add 30; Add 20; Add 10; Add 50; Add 40; Remove 20; Add 60; Add 35].
Definition demo_xs : list Z := [10; 30; 35; 40; 50; 60].
Definition demo : PH_AVL_TREE :=
  default {| links := ∅; Count := 0 |} (run (tree_step 7 demo_cmp) (PhInitializeAvlTree 7 ∅) demo_ops).

Lemma demo_tree : avl_tree 7 demo_cmp demo demo_xs.
Proof.
  exists (Node (Node (Node Leaf 10 0 Leaf) 30 0 (Node Leaf 35 0 Leaf)) 40 0 (Node Leaf 50 1 (Node Leaf 60 0 Leaf))).
  split; [vm_compute; repeat split; discriminate|].
  split; [reflexivity|]. split; [by apply (bool_decide_unpack _)|]. split; [vm_compute; repeat split; discriminate|].
  split; [|reflexivity]. unfold demo_xs, sorted, demo_cmp. repeat (constructor; try lia).
Qed.

Lemma avl_refines_sorted_list_witness :
  exists Tree, run (tree_step 7 demo_cmp) (PhInitializeAvlTree 7 ∅) demo_ops = Some Tree /\ avl_tree 7 demo_cmp Tree demo_xs.
Proof. apply (avl_refines_sorted_list 7 demo_cmp). by vm_compute. Defined.

Lemma avl_add_witness :
  (exists y, y ∈ demo_xs /\ demo_cmp 45 y = 0 /\ PhAddElementAvlTree 7 demo_cmp demo 45 = Some (demo, y)) \/
  (exists pre post Tree', demo_xs = pre ++ post /\ PhAddElementAvlTree 7 demo_cmp demo 45 = Some (Tree', 0) /\
     avl_tree 7 demo_cmp Tree' (pre ++ 45 :: post) /\ frame_of 7 45 demo_xs (links demo) (links Tree')).
Proof. apply (avl_add 7 demo_cmp 45 demo demo_xs demo_tree); [done|by apply (bool_decide_unpack _)]. Defined.

Lemma avl_remove_witness :
  exists Tree', PhRemoveElementAvlTree 7 demo 40 = Some Tree' /\ avl_tree 7 demo_cmp Tree' [10; 30; 35; 50; 60] /\
    frame_of 7 40 demo_xs (links demo) (links Tree').
Proof. apply (avl_remove 7 demo_cmp [10; 30; 35] 40 [50; 60] demo demo_tree). Defined.

Lemma avl_find_witness :
  exists p, PhFindElementAvlTree 7 demo_cmp (links demo) 35 = Some p /\
    (p <> 0 -> p ∈ demo_xs /\ demo_cmp 35 p = 0) /\ (p = 0 -> forall y, y ∈ demo_xs -> demo_cmp 35 y <> 0).
Proof. apply (avl_find 7 demo_cmp 35 demo demo_xs demo_tree). Defined.

Lemma avl_bounds_witness :
  (exists pre post, demo_xs = pre ++ post /\ (forall x, x ∈ pre -> 0 < demo_cmp 45 x) /\ (forall x, x ∈ post -> demo_cmp 45 x <= 0) /\
     PhLowerBoundElementAvlTree 7 demo_cmp (links demo) 45 = Some (hd 0 post) /\
     PhLowerDualBoundElementAvlTree 7 demo_cmp (links demo) 45 = Some (List.last pre 0)) /\
  (exists pre post, demo_xs = pre ++ post /\ (forall x, x ∈ pre -> 0 <= demo_cmp 45 x) /\ (forall x, x ∈ post -> demo_cmp 45 x < 0) /\
     PhUpperBoundElementAvlTree 7 demo_cmp (links demo) 45 = Some (hd 0 post) /\
     PhUpperDualBoundElementAvlTree 7 demo_cmp (links demo) 45 = Some (List.last pre 0)).
Proof. apply (avl_bounds 7 demo_cmp 45 demo demo_xs demo_tree). Defined.

Lemma avl_neighbours_witness :
  PhMinimumElementAvlTree 7 (links demo) = Some 10 /\ PhMaximumElementAvlTree 7 (links demo) = Some 60 /\
  PhSuccessorElementAvlTree (links demo) 35 = Some 40 /\ PhPredecessorElementAvlTree (links demo) 35 = Some 30.
Proof. apply (avl_neighbours 7 demo_cmp [10; 30] 35 [40; 50; 60] demo); [done|apply demo_tree]. Defined.

(** The callback collects what it is given and stops at 40. *)
Definition demo_callback (x : Z) (seen : list Z) : list Z * bool := (seen ++ [x], negb (x =? 40)).

Lemma avl_enumerate_witness :
  PhEnumAvlTree 7 demo_callback RightChild (links demo) [] = Some [60; 50; 40].
Proof. apply (avl_enumerate 7 demo_cmp demo_callback RightChild demo demo_xs [] demo_tree); by vm_compute. Defined.

End AvlTree.
