(* ===== verification/Hashtable.v ===== *)
(** * Hash tables: [phlib/basesup.c]

    Chained buckets over an array of entries. Bucket words and [Next] fields are entry indices, with
    [ULONG_MAX] for none; a removed entry joins a free list through its [Next] field. The table is
    proved against the list of the bodies it holds, in no particular order. *)

From S2P Require Import Prelude.

Module Hashtable.

Definition ULONG_MAX : Z := 0xFFFFFFFF.
Definition MAXLONG : Z := 0x7FFFFFFF.

(** The bits of [Number - 1] are smeared to the right, in 32 bits. *)
Definition PhRoundUpToPowerOfTwo (Number : Z) : Z :=
  let Number := Number -₃₂ 1 in
  let Number := Z.lor Number (Z.shiftr Number 1) in
  let Number := Z.lor Number (Z.shiftr Number 2) in
  let Number := Z.lor Number (Z.shiftr Number 4) in
  let Number := Z.lor Number (Z.shiftr Number 8) in
  let Number := Z.lor Number (Z.shiftr Number 16) in
  Number +₃₂ 1.

(** The build defines PH_HASHTABLE_POWER_OF_TWO_SIZE. *)
Definition PhpValidateHash (Hash : Z) : Z := Z.land Hash MAXLONG.
Definition PhpGetNumberOfBuckets (Capacity : Z) : Z := PhRoundUpToPowerOfTwo Capacity.

Record PH_HASHTABLE_ENTRY {T : Type} := { HashCode : Z; Next : Z; Body : T }.
Arguments PH_HASHTABLE_ENTRY : clear implicits.

(** [Entries] holds the entries written so far; those that [PhAllocate] returned and nobody wrote
    are not in it. *)
Record PH_HASHTABLE {T : Type} := {
  AllocatedBuckets : Z; Buckets : list Z;
  AllocatedEntries : Z; Entries : gmap Z (PH_HASHTABLE_ENTRY T);
  Count : Z; FreeEntry : Z; NextEntry : Z;
}.
Arguments PH_HASHTABLE : clear implicits.

Section table.
Context {T : Type} (EqualFunction : T -> T -> bool) (HashFunction : T -> Z).
Abbreviation ENTRY := (PH_HASHTABLE_ENTRY T).
Abbreviation TABLE := (PH_HASHTABLE T).

Definition PhpIndexFromHash (AllocatedBuckets Hash : Z) : Z := Z.land Hash (AllocatedBuckets -₃₂ 1).

(** Accesses to the two arrays, undefined outside their allocation. *)
Definition bucket (t : TABLE) (index : Z) : ub Z := Buckets t !! Z.to_nat index.
Definition entry (t : TABLE) (i : Z) : ub ENTRY :=
  if (0 <=? i) && (i <? AllocatedEntries t) then Entries t !! i else None.

Definition set_bucket (t : TABLE) (index i : Z) : ub TABLE :=
  _ ← bucket t index;
  Some {| AllocatedBuckets := AllocatedBuckets t; Buckets := <[Z.to_nat index := i]> (Buckets t);
          AllocatedEntries := AllocatedEntries t; Entries := Entries t;
          Count := Count t; FreeEntry := FreeEntry t; NextEntry := NextEntry t |}.
Definition set_entry (t : TABLE) (i : Z) (e : ENTRY) : ub TABLE :=
  if (0 <=? i) && (i <? AllocatedEntries t) then
    Some {| AllocatedBuckets := AllocatedBuckets t; Buckets := Buckets t;
            AllocatedEntries := AllocatedEntries t; Entries := <[i := e]> (Entries t);
            Count := Count t; FreeEntry := FreeEntry t; NextEntry := NextEntry t |}
  else None.
Definition set_counts (t : TABLE) (count free next : Z) : TABLE :=
  {| AllocatedBuckets := AllocatedBuckets t; Buckets := Buckets t;
     AllocatedEntries := AllocatedEntries t; Entries := Entries t;
     Count := count; FreeEntry := free; NextEntry := next |}.
Definition set_next (e : ENTRY) (next : Z) : ENTRY :=
  {| HashCode := HashCode e; Next := next; Body := Body e |}.

(** [memset(Buckets, 0xff, ...)] *)
Definition no_buckets (n : Z) : list Z := replicate (Z.to_nat n) ULONG_MAX.

Definition PhCreateHashtable (InitialCapacity : Z) : TABLE :=
  let InitialCapacity := if InitialCapacity =? 0 then 1 else InitialCapacity in
  let n := PhpGetNumberOfBuckets InitialCapacity in
  {| AllocatedBuckets := n; Buckets := no_buckets n; AllocatedEntries := n; Entries := ∅;
     Count := 0; FreeEntry := ULONG_MAX; NextEntry := 0 |}.

(** The loop that puts the entries from [i] on in their new buckets. *)
Fixpoint redistribute (n : nat) (i : Z) (t : TABLE) : ub TABLE :=
  match n with
  | O => Some t
  | S n =>
      e ← entry t i;
      if HashCode e =? ULONG_MAX then redistribute n (i + 1) t
      else
        let index := PhpIndexFromHash (AllocatedBuckets t) (HashCode e) in
        b ← bucket t index;
        t ← set_entry t i (set_next e b);
        t ← set_bucket t index i;
        redistribute n (i + 1) t
  end.

Definition PhpResizeHashtable (t : TABLE) (NewCapacity : Z) : ub TABLE :=
  let n := PhpGetNumberOfBuckets NewCapacity in
  redistribute (Z.to_nat (NextEntry t)) 0
    {| AllocatedBuckets := n; Buckets := no_buckets n; AllocatedEntries := n; Entries := Entries t;
       Count := Count t; FreeEntry := FreeEntry t; NextEntry := NextEntry t |}.

(** The search along a bucket from [i]: the entry before and the entry found. [fuel] bounds it; the
    number of entries is enough. *)
Fixpoint search (fuel : nat) (t : TABLE) (hashCode : Z) (Entry : T) (previousIndex i : Z) : ub (option (Z * Z)) :=
  match fuel with
  | O => None
  | S fuel =>
      if i =? ULONG_MAX then Some None
      else
        e ← entry t i;
        if (HashCode e =? hashCode) && EqualFunction (Body e) Entry then Some (Some (previousIndex, i))
        else search fuel t hashCode Entry i (Next e)
  end.

Definition search_bucket (t : TABLE) (Entry : T) : ub (option (Z * Z)) :=
  let hashCode := PhpValidateHash (HashFunction Entry) in
  i ← bucket t (PhpIndexFromHash (AllocatedBuckets t) hashCode);
  search (S (Z.to_nat (NextEntry t))) t hashCode Entry ULONG_MAX i.

(** The index of the entry, and [*Added]. *)
Definition PhpAddEntryHashtable (t : TABLE) (Entry : T) (CheckForDuplicate : bool) : ub (TABLE * Z * bool) :=
  let hashCode := PhpValidateHash (HashFunction Entry) in
  existing ← (if CheckForDuplicate then search_bucket t Entry else Some None);
  match existing with
  | Some (_, i) => Some (t, i, false)
  | None =>
      '(t, freeEntry) ←
        (if negb (FreeEntry t =? ULONG_MAX) then
           e ← entry t (FreeEntry t); Some (set_counts t (Count t) (Next e) (NextEntry t), FreeEntry t)
         else
           t ← (if NextEntry t =? AllocatedEntries t then PhpResizeHashtable t (u32 (AllocatedBuckets t * 2)) else Some t);
           Some (set_counts t (Count t) (FreeEntry t) (NextEntry t +₃₂ 1), NextEntry t));
      let index := PhpIndexFromHash (AllocatedBuckets t) hashCode in
      b ← bucket t index;
      t ← set_entry t freeEntry {| HashCode := hashCode; Next := b; Body := Entry |};
      t ← set_bucket t index freeEntry;
      Some (set_counts t (Count t +₃₂ 1) (FreeEntry t) (NextEntry t), freeEntry, true)
  end.

(** The entry, or NULL for an equal one. *)
Definition PhAddEntryHashtable (t : TABLE) (Entry : T) : ub (TABLE * option Z) :=
  '(t, i, added) ← PhpAddEntryHashtable t Entry true; Some (t, if (added : bool) then Some i else None).
Definition PhAddEntryHashtableEx (t : TABLE) (Entry : T) : ub (TABLE * Z * bool) := PhpAddEntryHashtable t Entry true.

Definition PhClearHashtable (t : TABLE) : TABLE :=
  if 0 <? Count t then
    {| AllocatedBuckets := AllocatedBuckets t; Buckets := no_buckets (AllocatedBuckets t);
       AllocatedEntries := AllocatedEntries t; Entries := Entries t;
       Count := 0; FreeEntry := ULONG_MAX; NextEntry := 0 |}
  else t.

Definition PhFindEntryHashtable (t : TABLE) (Entry : T) : ub (option Z) :=
  found ← search_bucket t Entry; Some (option_map snd found).

Definition PhRemoveEntryHashtable (t : TABLE) (Entry : T) : ub (TABLE * bool) :=
  let index := PhpIndexFromHash (AllocatedBuckets t) (PhpValidateHash (HashFunction Entry)) in
  found ← search_bucket t Entry;
  match found with
  | None => Some (t, false)
  | Some (previousIndex, i) =>
      e ← entry t i;
      t ← (if previousIndex =? ULONG_MAX then set_bucket t index (Next e)
           else p ← entry t previousIndex; set_entry t previousIndex (set_next p (Next e)));
      t ← set_entry t i {| HashCode := ULONG_MAX; Next := FreeEntry t; Body := Body e |};
      Some (set_counts t (Count t -₃₂ 1) i (NextEntry t), true)
  end.

(** One call: the entry found and the new key, or FALSE. *)
Fixpoint enum_from (fuel : nat) (t : TABLE) (EnumerationKey : Z) : ub (option (Z * Z)) :=
  match fuel with
  | O => None
  | S fuel =>
      if EnumerationKey <? NextEntry t then
        e ← entry t EnumerationKey;
        if negb (HashCode e =? ULONG_MAX) then Some (Some (EnumerationKey, EnumerationKey +₃₂ 1))
        else enum_from fuel t (EnumerationKey +₃₂ 1)
      else Some None
  end.

Definition PhEnumHashtable (t : TABLE) (EnumerationKey : Z) : ub (option (Z * Z)) :=
  enum_from (S (Z.to_nat (NextEntry t))) t EnumerationKey.

(** ** Rounding up *)

(** Each step doubles the window of bits that a bit of the result collects. *)
Definition window (x y s : Z) : Prop :=
  forall n, 0 <= n -> Z.testbit y n = true <-> exists m, n <= m < n + s /\ Z.testbit x m = true.

Lemma window_step x y s : 0 <= s -> window x y s -> window x (Z.lor y (Z.shiftr y s)) (2 * s).
Proof.
  intros Hs Hy n Hn. rewrite Z.lor_spec, Z.shiftr_spec, orb_true_iff, (Hy n Hn), (Hy (n + s) ltac:(lia)) by done.
  split.
  - intros [(m & ? & ?)|(m & ? & ?)]; exists m; (split; [lia|done]).
  - intros (m & Hm & Hb). destruct (Z.lt_ge_cases m (n + s)); [left|right]; exists m; (split; [lia|done]).
Qed.

Lemma window_ones x y : 0 < x < 2 ^ 32 -> window x y 32 -> 0 <= y -> y = Z.ones (Z.log2 x + 1).
Proof.
  intros Hx Hy Hy0. pose proof (Z.log2_nonneg x). apply Z.bits_inj'. intros n Hn.
  rewrite Z.testbit_ones_nonneg by lia. apply eq_true_iff_eq. rewrite (Hy n Hn), Z.ltb_lt. split.
  - intros (m & Hm & Hb). destruct (Z.lt_ge_cases (Z.log2 x) m) as [Hlt|]; [|lia].
    rewrite Z.bits_above_log2 in Hb; [done|lia..].
  - intros Hn'. exists (Z.log2 x). split; [|apply Z.bit_log2; lia].
    pose proof (proj1 (Z.log2_lt_pow2 x 32 ltac:(lia)) ltac:(lia)). lia.
Qed.

Lemma round_up_eq N : 0 <= N < 2 ^ 32 ->
  PhRoundUpToPowerOfTwo N = if N =? 0 then 0 else u32 (2 ^ Z.log2_up N).
Proof.
  intros HN. destruct (Z.eqb_spec N 0) as [->|HN0]; [done|].
  destruct (decide (N = 1)) as [->|HN1]; [done|].
  unfold PhRoundUpToPowerOfTwo. cbv zeta. rewrite (u32_id (N - 1)) by (unfold in_width; lia).
  set (x := N - 1). assert (Hx : 0 < x < 2 ^ 32) by (unfold x; lia).
  set (y := Z.lor _ (Z.shiftr _ 16)).
  assert (Hw : window x y 32).
  { change 32 with (2 * (2 * (2 * (2 * (2 * 1))))). unfold y.
    do 5 (apply window_step; [lia|]). intros n Hn. split.
    - intros Hb. exists n. split; [lia|done].
    - intros (m & Hm & Hb). by replace n with m by lia. }
  assert (Hy : 0 <= y) by (unfold y; repeat first [apply Z.lor_nonneg; split | apply Z.shiftr_nonneg]; lia).
  rewrite (window_ones x y Hx Hw Hy), Z.log2_up_eqn by lia.
  rewrite Z.ones_equiv, <- Z.sub_1_r. unfold x. rewrite <- Z.add_1_r, <- (Z.sub_1_r N). f_equal. lia.
Qed.

Lemma round_up_le N : 0 < N <= 2 ^ 31 ->
  exists k, 0 <= k <= 31 /\ PhRoundUpToPowerOfTwo N = 2 ^ k /\ N <= 2 ^ k.
Proof.
  intros HN. rewrite round_up_eq by lia. rewrite (proj2 (Z.eqb_neq N 0)) by lia.
  exists (Z.log2_up N). pose proof (Z.log2_up_nonneg N).
  assert (Hk : Z.log2_up N <= 31) by (apply Z.log2_up_le_pow2; lia).
  split; [lia|]. split; [|apply Z.log2_log2_up_spec; lia].
  apply u32_id. split; [apply Z.pow_nonneg; lia|]. apply Z.pow_lt_mono_r; lia.
Qed.

(** ** Chains of indices *)

Implicit Types (Es : gmap Z ENTRY) (Bs : list Z) (l : list Z).

Fixpoint chain Es (i : Z) (l : list Z) : Prop :=
  match l with
  | [] => i = ULONG_MAX
  | j :: l => i = j /\ j <> ULONG_MAX /\ exists e, Es !! j = Some e /\ chain Es (Next e) l
  end.

Lemma chain_frame Es Es' i l : (forall j, j ∈ l -> Es' !! j = Es !! j) -> chain Es i l -> chain Es' i l.
Proof.
  revert i. induction l as [|j l IH]; intros i Hf; simpl; [done|].
  intros (-> & Hj & e & He & Hl). split; [done|]. split; [done|]. exists e.
  split; [rewrite Hf; [done|by left]|]. apply IH; [|done]. intros x Hx. apply Hf. by right.
Qed.

Lemma chain_insert Es i l x e : x ∉ l -> chain Es i l -> chain (<[x := e]> Es) i l.
Proof. intros Hx. apply chain_frame. intros j Hj. apply lookup_insert_ne. by intros ->. Qed.

(** A node leaves the middle of a chain. *)
Lemma chain_skip Es i l1 x p l2 ex ep : NoDup (l1 ++ p :: x :: l2) ->
  chain Es i (l1 ++ p :: x :: l2) -> Es !! p = Some ep -> Es !! x = Some ex ->
  chain (<[p := set_next ep (Next ex)]> Es) i (l1 ++ p :: l2).
Proof.
  revert i. induction l1 as [|y l1 IH]; intros i; simpl.
  - intros [Hp Hnd]%NoDup_cons (-> & HpM & e & He & Hnx & HxM & e' & He' & Hl) Hep Hex.
    assert (e' = ex) as -> by congruence. split; [done|]. split; [done|].
    exists (set_next ep (Next ex)). split; [apply lookup_insert_eq|]. apply chain_insert; [|done].
    intros Hin. apply Hp. by right.
  - intros [Hy Hnd]%NoDup_cons (-> & HyM & e & He & Hl) Hep Hex. split; [done|]. split; [done|]. exists e.
    split; [|by apply IH]. rewrite lookup_insert_ne; [done|]. intros ->. apply Hy. apply elem_of_app. right. by left.
Qed.

Lemma chain_head Es i l : chain Es i l -> i = ULONG_MAX -> l = [].
Proof. destruct l as [|j l]; [done|]. intros (-> & Hj & _) ->. done. Qed.

(** ** Buckets

    Every bucket chains, without repetition, the entries with its index among those with [P]. *)
Definition indexed (nb : Z) Es (b j : Z) : Prop :=
  exists e, Es !! j = Some e /\ PhpIndexFromHash nb (HashCode e) = b.

Definition linked (nb : Z) Bs Es (P : Z -> Prop) : Prop :=
  length Bs = Z.to_nat nb /\
  forall b, 0 <= b < nb -> exists i l, Bs !! Z.to_nat b = Some i /\ chain Es i l /\ NoDup l /\
    forall j, j ∈ l <-> P j /\ indexed nb Es b j.

Lemma linked_no_buckets nb Es : linked nb (no_buckets nb) Es (fun _ => False).
Proof.
  split; [apply length_replicate|]. intros b Hb. exists ULONG_MAX, []. split.
  - apply lookup_replicate. split; [done|lia].
  - split; [done|]. split; [constructor|]. intros j. split; [by intros ?%elem_of_nil|tauto].
Qed.

Lemma linked_iff nb Bs Es P Q : (forall j, P j <-> Q j) -> linked nb Bs Es P -> linked nb Bs Es Q.
Proof.
  intros HPQ [Hlen HL]. split; [done|]. intros b Hb. destruct (HL b Hb) as (i & l & Hi & Hc & Hnd & Hin).
  exists i, l. split; [done|]. split; [done|]. split; [done|]. intros j. by rewrite Hin, HPQ.
Qed.

(** A new entry at the head of its bucket. *)
Lemma linked_link nb Bs Es P i e b n :
  linked nb Bs Es P -> ~ P i -> i <> ULONG_MAX -> PhpIndexFromHash nb (HashCode e) = b -> 0 <= b < nb ->
  Bs !! Z.to_nat b = Some n -> Next e = n ->
  linked nb (<[Z.to_nat b := i]> Bs) (<[i := e]> Es) (fun j => P j \/ j = i).
Proof.
  intros [Hlen HL] HPi Hi Hb Hbr Hn HNext. split; [by rewrite length_insert|]. intros b' Hb'.
  destruct (HL b' Hb') as (i' & l & Hi' & Hc & Hnd & Hin).
  assert (Hil : i ∉ l) by (rewrite Hin; tauto).
  assert (Hidx : forall j, j <> i -> indexed nb (<[i := e]> Es) b' j <-> indexed nb Es b' j).
  { intros j Hj. unfold indexed. by rewrite lookup_insert_ne by congruence. }
  assert (Hself : indexed nb (<[i := e]> Es) b' i <-> b' = b).
  { unfold indexed. rewrite lookup_insert_eq. split; [intros (e' & [= <-] & <-); done|intros ->; by exists e]. }
  destruct (decide (b' = b)) as [->|Hne].
  - exists i, (i :: l). rewrite list_lookup_insert_eq by lia. assert (i' = n) as -> by congruence.
    split; [done|]. split; [|split; [by constructor|]].
    + split; [done|]. split; [done|]. exists e. split; [apply lookup_insert_eq|]. rewrite HNext. by apply chain_insert.
    + intros j. rewrite elem_of_cons, Hin. destruct (decide (j = i)) as [->|Hj]; [tauto|]. rewrite (Hidx j Hj). tauto.
  - exists i', l. rewrite list_lookup_insert_ne by lia. split; [done|]. split; [by apply chain_insert|]. split; [done|].
    intros j. rewrite Hin. destruct (decide (j = i)) as [->|Hj]; [|rewrite (Hidx j Hj); tauto].
    rewrite Hself. tauto.
Qed.

(** An entry that is not linked may be written. *)
Lemma linked_insert nb Bs Es P i e : linked nb Bs Es P -> ~ P i -> linked nb Bs (<[i := e]> Es) P.
Proof.
  intros [Hlen HL] HPi. split; [done|]. intros b Hb. destruct (HL b Hb) as (i' & l & Hi' & Hc & Hnd & Hin).
  exists i', l. split; [done|]. split; [apply chain_insert; [rewrite Hin; tauto|done]|]. split; [done|].
  intros j. rewrite Hin. destruct (decide (j = i)) as [->|Hj]; [tauto|]. unfold indexed.
  by rewrite lookup_insert_ne by congruence.
Qed.

(** What removing [x] from the bucket list [l] makes of the two arrays. *)
Lemma linked_unlink nb Bs Es P b i l1 x l2 ex :
  linked nb Bs Es P -> 0 <= b < nb -> Bs !! Z.to_nat b = Some i -> chain Es i (l1 ++ x :: l2) -> NoDup (l1 ++ x :: l2) ->
  (forall j, j ∈ l1 ++ x :: l2 <-> P j /\ indexed nb Es b j) -> Es !! x = Some ex ->
  (l1 = [] /\ linked nb (<[Z.to_nat b := Next ex]> Bs) Es (fun j => P j /\ j <> x)) \/
  (exists l1' p ep, l1 = l1' ++ [p] /\ p <> ULONG_MAX /\ Es !! p = Some ep /\
     linked nb Bs (<[p := set_next ep (Next ex)]> Es) (fun j => P j /\ j <> x)).
Proof.
  intros [Hlen HL] Hb Hi Hc Hnd Hin Hex. apply NoDup_app in Hnd as Hnd'. destruct Hnd' as (_ & Hd & [Hx2 _]%NoDup_cons).
  assert (Hx1 : x ∉ l1) by (intros Hx1; apply (Hd x Hx1); by left).
  assert (Hin' : forall j, j ∈ l1 ++ l2 <-> (P j /\ j <> x) /\ indexed nb Es b j).
  { intros j. specialize (Hin j). rewrite elem_of_app, elem_of_cons in Hin. rewrite elem_of_app.
    destruct (decide (j = x)) as [->|]; tauto. }
  assert (Hnd' : NoDup (l1 ++ l2)).
  { eapply sublist_NoDup; [exact Hnd|]. apply sublist_app; [done|]. by apply sublist_cons. }
  destruct l1 as [|p l1' _] using rev_ind.
  - left. split; [done|]. split; [by rewrite length_insert|]. intros b' Hb'. destruct (decide (b' = b)) as [->|Hne].
    + exists (Next ex), l2. rewrite list_lookup_insert_eq by lia. simpl in Hc. destruct Hc as (-> & HxM & e & He & Hc).
      assert (e = ex) as -> by congruence. done.
    + destruct (HL b' Hb') as (i' & l & Hi' & Hc' & Hnd'' & Hin''). exists i', l.
      rewrite list_lookup_insert_ne by lia. split; [done|]. split; [done|]. split; [done|]. intros j. rewrite Hin''.
      split; [|tauto]. intros [HP Hj]. split; [split; [done|]|done]. intros ->. apply Hne.
      assert (Hjb : x ∈ [] ++ x :: l2) by by left. apply Hin in Hjb as [_ (e1 & He1 & <-)].
      destruct Hj as (e2 & He2 & <-). congruence.
  - right. rewrite <- app_assoc in Hc, Hnd, Hin', Hnd'. simpl in *.
    assert (exists ep, Es !! p = Some ep /\ p <> ULONG_MAX) as (ep & Hep & HpM).
    { clear -Hc. revert i Hc. induction l1' as [|y l1 IH]; intros i; simpl; [intros (_ & ? & e & ? & _); eauto|].
      intros (_ & _ & e & _ & Hc). by eapply IH. }
    exists l1', p, ep. split; [done|]. split; [done|]. split; [done|]. split; [done|].
    assert (Hidx : forall b' j, indexed nb (<[p := set_next ep (Next ex)]> Es) b' j <-> indexed nb Es b' j).
    { intros b' j. unfold indexed. destruct (decide (p = j)) as [<-|Hj]; [|by rewrite lookup_insert_ne].
      rewrite lookup_insert_eq, Hep. split; intros (e & [= <-] & ?); eexists; done. }
    intros b' Hb'. destruct (decide (b' = b)) as [->|Hne].
    + exists i, (l1' ++ p :: l2). split; [done|]. split; [by apply (chain_skip _ _ _ x)|]. split; [done|].
      intros j. by rewrite Hidx, <- Hin'.
    + destruct (HL b' Hb') as (i' & l & Hi' & Hc' & Hnd'' & Hin''). exists i', l. split; [done|].
      assert (Hother : forall y, indexed nb Es b y -> y ∉ l).
      { intros y (e1 & He1 & <-) Hy. apply Hin'' in Hy as [_ (e2 & He2 & <-)]. apply Hne. congruence. }
      assert (Hpl : p ∉ l) by (apply Hother, (Hin' p); apply elem_of_app; right; by left).
      split; [by apply chain_insert|]. split; [done|]. intros j. rewrite Hidx, Hin''. split; [|tauto].
      intros [HP Hj]. split; [split; [done|]|done]. intros ->. apply (Hother x); [|by apply Hin''].
      apply (Hin x). rewrite <- app_assoc. apply elem_of_app. right. right. by left.
Qed.

(** ** The search along a bucket *)

Definition matches (Es : gmap Z ENTRY) (hashCode : Z) (Entry : T) (j : Z) : Prop :=
  exists e, Es !! j = Some e /\ HashCode e = hashCode /\ EqualFunction (Body e) Entry = true.

Lemma entry_eq (t : TABLE) i : 0 <= i < AllocatedEntries t -> entry t i = Entries t !! i.
Proof. intros Hi. unfold entry. by rewrite (proj2 (Z.leb_le 0 i)), (proj2 (Z.ltb_lt i _)) by lia. Qed.

Lemma last_default (x d : Z) l : List.last (x :: l) d = List.last l x.
Proof. revert x d. induction l as [|y l IH]; intros x d; [done|]. change (List.last (y :: l) d = List.last (y :: l) x). by rewrite !IH. Qed.

Lemma search_spec (t : TABLE) (h : Z) (E : T) : forall l fuel (prev i : Z),
  chain (Entries t) i l -> (forall j, j ∈ l -> 0 <= j < AllocatedEntries t) -> (length l < fuel)%nat ->
  (search fuel t h E prev i = Some None /\ forall j, j ∈ l -> ~ matches (Entries t) h E j) \/
  (exists l1 j l2, l = l1 ++ j :: l2 /\ search fuel t h E prev i = Some (Some (List.last l1 prev, j)) /\
     matches (Entries t) h E j).
Proof.
  induction l as [|j l IH]; intros fuel prev i Hc Hr Hfuel; (destruct fuel as [|fuel]; [simpl in Hfuel; lia|]); cbn [search].
  - simpl in Hc. rewrite Hc, Z.eqb_refl. left. split; [done|]. by intros j ?%elem_of_nil.
  - destruct Hc as (-> & Hj & e & He & Hc). rewrite (proj2 (Z.eqb_neq j ULONG_MAX)) by done.
    rewrite entry_eq, He by (apply Hr; by left). cbn [mbind option_bind].
    destruct ((HashCode e =? h) && EqualFunction (Body e) E) eqn:Em.
    + right. exists [], j, l. split; [done|]. split; [done|]. apply andb_true_iff in Em as [Em1 Em2].
      exists e. split; [done|]. split; [by apply Z.eqb_eq|done].
    + destruct (IH fuel j (Next e) Hc) as [[-> Hno]|(l1 & x & l2 & -> & -> & Hx)].
      * intros x Hx. apply Hr. by right.
      * simpl in Hfuel. lia.
      * left. split; [done|]. intros x [->|Hx]%elem_of_cons; [|by apply Hno]. intros (e' & He' & <- & Heq).
        assert (e' = e) as -> by congruence. by rewrite Z.eqb_refl, Heq in Em.
      * right. exists (j :: l1), x, l2. split; [done|]. split; [|done]. by rewrite last_default.
Qed.

(** ** The well-formed table *)

(** The hash and the body of an entry, [None] when it is free. *)
Definition live_body (Es : gmap Z ENTRY) (j : Z) : option T :=
  e ← Es !! j; if HashCode e =? ULONG_MAX then None else Some (Body e).
Definition elements (t : TABLE) : list T := omap (live_body (Entries t)) (seqZ 0 (NextEntry t)).

Definition in_use Es (n j : Z) : Prop := 0 <= j < n /\ exists e, Es !! j = Some e /\ HashCode e <> ULONG_MAX.
Definition unused Es (n j : Z) : Prop := 0 <= j < n /\ exists e, Es !! j = Some e /\ HashCode e = ULONG_MAX.

Record wf (t : TABLE) : Prop := {
  wf_size : exists k, 0 <= k <= 31 /\ AllocatedBuckets t = 2 ^ k;
  wf_alloc : AllocatedEntries t = AllocatedBuckets t;
  wf_next : 0 <= NextEntry t <= AllocatedEntries t;
  wf_init : forall j, 0 <= j < NextEntry t -> is_Some (Entries t !! j);
  wf_hash : forall j e, 0 <= j < NextEntry t -> Entries t !! j = Some e -> HashCode e <> ULONG_MAX ->
    HashCode e = PhpValidateHash (HashFunction (Body e));
  wf_buckets : linked (AllocatedBuckets t) (Buckets t) (Entries t) (in_use (Entries t) (NextEntry t));
  wf_free : exists l, chain (Entries t) (FreeEntry t) l /\ NoDup l /\ forall j, j ∈ l <-> unused (Entries t) (NextEntry t) j;
  wf_unique : forall i j a b, 0 <= i < NextEntry t -> 0 <= j < NextEntry t ->
    live_body (Entries t) i = Some a -> live_body (Entries t) j = Some b -> EqualFunction a b = true -> i = j;
  wf_count : Count t = Z.of_nat (length (elements t));
}.

(** The functions the user of a table supplies: an equality, and a hash that respects it. *)
Class HashLaws : Prop := {
  equal_sym a b : EqualFunction a b = true -> EqualFunction b a = true;
  equal_trans a b c : EqualFunction a b = true -> EqualFunction b c = true -> EqualFunction a c = true;
  equal_hash a b : EqualFunction a b = true -> HashFunction a = HashFunction b;
}.

Lemma index_range nb h : (exists k, 0 <= k <= 31 /\ nb = 2 ^ k) -> 0 <= PhpIndexFromHash nb h < nb.
Proof.
  intros (k & Hk & ->). unfold PhpIndexFromHash. rewrite u32_id.
  - rewrite Z.sub_1_r, <- Z.ones_equiv, Z.land_ones by lia. apply Z.mod_pos_bound. lia.
  - assert (1 <= 2 ^ k <= 2 ^ 31) by (split; [|apply Z.pow_le_mono_r]; lia). unfold in_width. lia.
Qed.

Lemma hash_range h : PhpValidateHash h <> ULONG_MAX.
Proof.
  unfold PhpValidateHash, MAXLONG. change 0x7FFFFFFF with (Z.ones 31). rewrite Z.land_ones by lia.
  pose proof (Z.mod_pos_bound h (2 ^ 31) ltac:(lia)). unfold ULONG_MAX. lia.
Qed.

Lemma live_body_Some Es j a : live_body Es j = Some a <-> exists e, Es !! j = Some e /\ HashCode e <> ULONG_MAX /\ Body e = a.
Proof.
  unfold live_body. destruct (Es !! j) as [e|]; simpl; [|split; [done|by intros (? & ? & _)]].
  destruct (Z.eqb_spec (HashCode e) ULONG_MAX) as [E|E]; split; try done.
  - by intros (? & [= <-] & ? & _).
  - intros [= <-]. by exists e.
  - by intros (? & [= <-] & _ & <-).
Qed.

Lemma elem_of_elements t a : a ∈ elements t <-> exists j, 0 <= j < NextEntry t /\ live_body (Entries t) j = Some a.
Proof.
  unfold elements. rewrite list_elem_of_omap. split; intros (j & Hj & Ha); exists j; (split; [|done]).
  - apply elem_of_seqZ in Hj. lia.
  - apply elem_of_seqZ. lia.
Qed.

Lemma length_omap_le {A B} (f : A -> option B) (l : list A) : (length (omap f l) <= length l)%nat.
Proof. induction l as [|x l IH]; [done|]. csimpl. destruct (f x); simpl; lia. Qed.

(** Two tables that differ at one index. *)
Lemma omap_at (f g : Z -> option T) n i : 0 <= i < n -> (forall j, j <> i -> f j = g j) ->
  exists rest, omap f (seqZ 0 n) ≡ₚ option_list (f i) ++ rest /\ omap g (seqZ 0 n) ≡ₚ option_list (g i) ++ rest.
Proof.
  intros Hi Hfg. assert (Hin : i ∈ seqZ 0 n) by (apply elem_of_seqZ; lia).
  apply list_elem_of_split in Hin as (l1 & l2 & E). pose proof (NoDup_seqZ 0 n) as Hnd. rewrite E in Hnd |- *.
  apply NoDup_app in Hnd as (_ & Hd & [Hl2 _]%NoDup_cons).
  assert (Hsame : forall l, i ∉ l -> omap g l = omap f l).
  { induction l as [|j l IH]; [done|]. rewrite not_elem_of_cons. intros [Hj Hl]. csimpl. rewrite (Hfg j), (IH Hl); [done|by apply not_eq_sym]. }
  assert (Hsplit : forall h : Z -> option T, omap h (l1 ++ i :: l2) ≡ₚ option_list (h i) ++ omap h l1 ++ omap h l2).
  { intros h. rewrite omap_app. csimpl. destruct (h i); csimpl; [|done]. by rewrite <- Permutation_middle. }
  exists (omap f l1 ++ omap f l2). split; [apply Hsplit|]. rewrite Hsplit, !Hsame; [done|done|].
  intros Hx. apply (Hd i Hx). by left.
Qed.

Context `{!HashLaws}.

Definition index_of (t : TABLE) (E : T) : Z := PhpIndexFromHash (AllocatedBuckets t) (PhpValidateHash (HashFunction E)).

Lemma chain_length (t : TABLE) l : NoDup l -> (forall j, j ∈ l -> 0 <= j < NextEntry t) ->
  (length l <= Z.to_nat (NextEntry t))%nat.
Proof.
  intros Hnd Hr. rewrite <- (length_seqZ 0 (NextEntry t)). apply submseteq_length, NoDup_submseteq; [done|].
  intros j Hj. apply elem_of_seqZ. pose proof (Hr j Hj). lia.
Qed.

(** A bucket is searched to its end, or to the only equal entry of the table. *)
Lemma search_bucket_spec t E : wf t ->
  (search_bucket t E = Some None /\ forall a, a ∈ elements t -> EqualFunction a E = false) \/
  (exists i l1 j l2 e, Buckets t !! Z.to_nat (index_of t E) = Some i /\ chain (Entries t) i (l1 ++ j :: l2) /\
     NoDup (l1 ++ j :: l2) /\
     (forall x, x ∈ l1 ++ j :: l2 <-> in_use (Entries t) (NextEntry t) x /\ indexed (AllocatedBuckets t) (Entries t) (index_of t E) x) /\
     search_bucket t E = Some (Some (List.last l1 ULONG_MAX, j)) /\
     Entries t !! j = Some e /\ 0 <= j < NextEntry t /\ HashCode e <> ULONG_MAX /\ EqualFunction (Body e) E = true).
Proof.
  intros Hwf. destruct (wf_buckets t Hwf) as [Hlen HL].
  pose proof (index_range (AllocatedBuckets t) (PhpValidateHash (HashFunction E)) (wf_size t Hwf)) as Hidx.
  fold (index_of t E) in Hidx. destruct (HL (index_of t E) Hidx) as (i & l & Hi & Hc & Hnd & Hin).
  assert (Hr : forall j, j ∈ l -> 0 <= j < NextEntry t) by (intros j Hj; apply Hin in Hj as [[Hj _] _]; done).
  pose proof (wf_next t Hwf). pose proof (chain_length t l Hnd Hr).
  unfold search_bucket, bucket. fold (index_of t E). rewrite Hi. cbn [mbind option_bind].
  destruct (search_spec t (PhpValidateHash (HashFunction E)) E l (S (Z.to_nat (NextEntry t))) ULONG_MAX i Hc)
    as [[-> Hno]|(l1 & j & l2 & -> & -> & (e & He & Hh & Heq))].
  - intros j Hj. pose proof (Hr j Hj). lia.
  - lia.
  - left. split; [done|]. intros a (j & Hj & (e & He & HM & <-)%live_body_Some)%elem_of_elements.
    destruct (EqualFunction (Body e) E) eqn:Heq; [|done]. exfalso.
    pose proof (wf_hash t Hwf j e Hj He HM) as Hh. rewrite (equal_hash _ _ Heq) in Hh.
    apply (Hno j); [|by exists e]. apply Hin. split; [split; [done|by exists e]|]. exists e. split; [done|].
    unfold index_of. by rewrite Hh.
  - right. exists i, l1, j, l2, e. split_and!; try done; try (apply Hr; apply elem_of_app; right; by left).
    assert (Hj : j ∈ l1 ++ j :: l2) by (apply elem_of_app; right; by left).
    apply Hin in Hj as [[_ (e' & He' & HM)] _]. congruence.
Qed.

(** Equal entries are the same entry. *)
Lemma elements_unique t a b : wf t -> a ∈ elements t -> b ∈ elements t -> EqualFunction a b = true -> a = b.
Proof.
  intros Hwf (i & Hi & Ha)%elem_of_elements (j & Hj & Hb)%elem_of_elements Heq.
  assert (i = j) as -> by (by apply (wf_unique t Hwf i j a b)). congruence.
Qed.

Lemma create_wf n : 0 <= n <= 2 ^ 31 -> wf (PhCreateHashtable n) /\ elements (PhCreateHashtable n : TABLE) = [].
Proof.
  intros Hn. unfold PhCreateHashtable. set (m := if n =? 0 then 1 else n).
  assert (Hm : 0 < m <= 2 ^ 31) by (unfold m; destruct (Z.eqb_spec n 0); lia).
  destruct (round_up_le m Hm) as (k & Hk & E & _). unfold PhpGetNumberOfBuckets. rewrite E.
  split; [|done]. constructor; cbn [AllocatedBuckets Buckets AllocatedEntries Entries Count FreeEntry NextEntry]; try done.
  - by exists k.
  - lia.
  - intros j Hj. lia.
  - eapply linked_iff; [|apply linked_no_buckets]. intros j. split; [done|]. intros [Hj _]. lia.
  - exists []. split; [done|]. split; [constructor|]. intros j. split; [by intros ?%elem_of_nil|]. intros [Hj _]. lia.
Qed.

Lemma table_clear_wf t : wf t -> wf (PhClearHashtable t) /\ elements (PhClearHashtable t) = [].
Proof.
  intros Hwf. unfold PhClearHashtable. destruct (Z.ltb_spec 0 (Count t)) as [Hc|Hc].
  - split; [|done]. destruct Hwf as [Hsize Halloc Hnext _ _ _ _ _ _].
    constructor; cbn [AllocatedBuckets Buckets AllocatedEntries Entries Count FreeEntry NextEntry]; try done.
    + lia.
    + intros j Hj. lia.
    + intros j e Hj. lia.
    + eapply linked_iff; [|apply linked_no_buckets]. intros j. split; [done|]. intros [Hj _]. lia.
    + exists []. split; [done|]. split; [constructor|]. intros j. split; [by intros ?%elem_of_nil|]. intros [Hj _]. lia.
    + intros i j a b Hi. lia.
  - split; [done|]. pose proof (wf_count t Hwf). destruct (elements t); [done|]. simpl in *. lia.
Qed.

(** ** Growing *)

(** The entries are the same up to the links of those in use. *)
Definition same_entries Es Es' : Prop :=
  forall j, match Es !! j with
  | None => Es' !! j = None
  | Some e => exists n, Es' !! j = Some (set_next e n) /\ (HashCode e = ULONG_MAX -> n = Next e)
  end.

Lemma same_entries_refl Es : same_entries Es Es.
Proof. intros j. destruct (Es !! j) as [e|]; [|done]. exists (Next e). by destruct e. Qed.

Lemma same_entries_trans Es1 Es2 Es3 : same_entries Es1 Es2 -> same_entries Es2 Es3 -> same_entries Es1 Es3.
Proof.
  intros H12 H23 j. specialize (H12 j). specialize (H23 j). destruct (Es1 !! j) as [e|].
  - destruct H12 as (n & E & Hn). rewrite E in H23. destruct H23 as (n' & E' & Hn'). exists n'. split; [done|].
    intros HM. rewrite (Hn' HM). simpl. auto.
  - by rewrite H12 in H23.
Qed.

Lemma same_entries_relink Es j e n : Es !! j = Some e -> HashCode e <> ULONG_MAX -> same_entries Es (<[j := set_next e n]> Es).
Proof.
  intros He HM x. destruct (decide (j = x)) as [<-|Hx].
  - rewrite He, lookup_insert_eq. exists n. done.
  - rewrite lookup_insert_ne by done. by apply same_entries_refl.
Qed.

Lemma same_live_body Es Es' j : same_entries Es Es' -> live_body Es' j = live_body Es j.
Proof.
  intros Hs. specialize (Hs j). unfold live_body. destruct (Es !! j) as [e|]; [destruct Hs as (n & -> & _)|rewrite Hs]; done.
Qed.

Lemma same_state Es Es' n j : same_entries Es Es' ->
  (in_use Es' n j <-> in_use Es n j) /\ (unused Es' n j <-> unused Es n j) /\ (forall nb b, indexed nb Es' b j <-> indexed nb Es b j).
Proof.
  intros Hs.
  assert (Hex : forall R : ENTRY -> Prop, (forall e m, R (set_next e m) <-> R e) ->
    (exists e, Es' !! j = Some e /\ R e) <-> (exists e, Es !! j = Some e /\ R e)).
  { intros R HR. specialize (Hs j). destruct (Es !! j) as [e|]; [destruct Hs as (m & -> & _)|rewrite Hs; done].
    split; intros (e' & [= <-] & He); eexists; (split; [done|]); first [by apply HR|by apply (HR e m)]. }
  unfold in_use, unused, indexed. split_and!; intros; rewrite Hex; done.
Qed.

Lemma redistribute_spec n : forall i (t : TABLE),
  (exists k, 0 <= k <= 31 /\ AllocatedBuckets t = 2 ^ k) -> AllocatedEntries t = AllocatedBuckets t ->
  0 <= i -> i + Z.of_nat n = NextEntry t -> NextEntry t <= AllocatedEntries t ->
  (forall j, 0 <= j < NextEntry t -> is_Some (Entries t !! j)) ->
  linked (AllocatedBuckets t) (Buckets t) (Entries t) (fun j => in_use (Entries t) (NextEntry t) j /\ j < i) ->
  exists Bs Es, redistribute n i t =
      Some {| AllocatedBuckets := AllocatedBuckets t; Buckets := Bs; AllocatedEntries := AllocatedEntries t;
              Entries := Es; Count := Count t; FreeEntry := FreeEntry t; NextEntry := NextEntry t |} /\
    same_entries (Entries t) Es /\ linked (AllocatedBuckets t) Bs Es (in_use Es (NextEntry t)).
Proof.
  induction n as [|n IH]; intros i t Hsize Halloc Hi Hn Hnext Hinit HL; cbn [redistribute].
  { exists (Buckets t), (Entries t). split; [by destruct t|]. split; [apply same_entries_refl|].
    eapply linked_iff; [|exact HL]. intros j. split; [tauto|]. intros Hj. split; [done|]. destruct Hj as [Hj _]. lia. }
  rewrite entry_eq by lia. destruct (Hinit i ltac:(lia)) as [e He]. rewrite He. cbn [mbind option_bind].
  destruct (Z.eqb_spec (HashCode e) ULONG_MAX) as [HM|HM].
  { apply IH; try done; try lia. eapply linked_iff; [|exact HL]. intros j. split; intros [Hj ?]; (split; [done|]); [lia|].
    destruct (decide (j = i)) as [->|]; [|lia]. destruct Hj as (_ & e' & He' & HM'). congruence. }
  pose proof (index_range (AllocatedBuckets t) (HashCode e) Hsize) as Hidx.
  destruct HL as [Hlen HL']. destruct (HL' _ Hidx) as (b & l & Hb & _). pose proof (conj Hlen HL') as HL.
  unfold bucket at 1. rewrite Hb. cbn [mbind option_bind]. unfold set_entry at 1.
  rewrite (proj2 (Z.leb_le 0 i)), (proj2 (Z.ltb_lt i _)) by lia. cbn [andb mbind option_bind].
  unfold set_bucket, bucket. cbn [AllocatedBuckets Buckets AllocatedEntries Entries Count FreeEntry NextEntry].
  rewrite Hb. cbn [mbind option_bind].
  set (t' := {| AllocatedBuckets := _ |}).
  pose proof (same_entries_relink (Entries t) i e b He HM) as Hsame.
  destruct (IH (i + 1) t') as (Bs & Es & -> & Hs & HL2); unfold t'; cbn [AllocatedBuckets Buckets AllocatedEntries Entries Count FreeEntry NextEntry] in *; try done; try lia.
  - intros j Hj. destruct (decide (j = i)) as [->|Hne]; [rewrite lookup_insert_eq; eauto|].
    rewrite lookup_insert_ne by congruence. by apply Hinit.
  - eapply linked_iff; [|apply (linked_link _ _ _ _ i (set_next e b) (PhpIndexFromHash (AllocatedBuckets t) (HashCode e)) b HL)]; try done; try lia.
    + intros j. rewrite (proj1 (same_state _ _ (NextEntry t) j Hsame)). split.
      * intros [[Hj ?]| ->]; [split; [done|lia]|]. split; [|lia]. split; [lia|]. by exists e.
      * intros [Hj ?]. destruct (decide (j = i)); [by right|left]. split; [done|lia].
    + assert (i < 2 ^ 31); [|unfold ULONG_MAX; lia]. destruct Hsize as (k & Hk & E).
      assert (2 ^ k <= 2 ^ 31) by (apply Z.pow_le_mono_r; lia). lia.
  - exists Bs, Es. split; [done|]. split; [|done]. by eapply same_entries_trans.
Qed.

Lemma same_elements Es Es' n : same_entries Es Es' -> omap (live_body Es') (seqZ 0 n) = omap (live_body Es) (seqZ 0 n).
Proof. intros Hs. induction (seqZ 0 n) as [|j l IH]; [done|]. csimpl. by rewrite (same_live_body Es Es' j Hs), IH. Qed.

Lemma resize_wf t : wf t -> AllocatedBuckets t * 2 <= 2 ^ 31 ->
  exists t', PhpResizeHashtable t (u32 (AllocatedBuckets t * 2)) = Some t' /\ wf t' /\ elements t' = elements t /\
    AllocatedEntries t' = AllocatedEntries t * 2 /\ FreeEntry t' = FreeEntry t /\ NextEntry t' = NextEntry t /\ Count t' = Count t.
Proof.
  intros [Hsize Halloc Hnext Hinit Hhash HL Hfree Huniq Hcount] Hmax. destruct Hsize as (k & Hk & E).
  assert (Hpos : 0 < 2 ^ k) by (apply Z.pow_pos_nonneg; lia).
  rewrite u32_id by (unfold in_width; lia). unfold PhpResizeHashtable, PhpGetNumberOfBuckets.
  assert (E2 : AllocatedBuckets t * 2 = 2 ^ (k + 1)) by (rewrite E, Z.pow_add_r by lia; lia).
  assert (Hk31 : k + 1 <= 31).
  { rewrite E2 in Hmax. apply (Z.pow_le_mono_r_iff 2); lia. }
  assert (Eup : PhRoundUpToPowerOfTwo (AllocatedBuckets t * 2) = 2 ^ (k + 1)).
  { rewrite round_up_eq by lia. rewrite (proj2 (Z.eqb_neq _ 0)), E2, Z.log2_up_pow2 by lia. apply u32_id. unfold in_width. lia. }
  rewrite Eup. destruct (redistribute_spec (Z.to_nat (NextEntry t)) 0
    {| AllocatedBuckets := 2 ^ (k + 1); Buckets := no_buckets (2 ^ (k + 1)); AllocatedEntries := 2 ^ (k + 1);
       Entries := Entries t; Count := Count t; FreeEntry := FreeEntry t; NextEntry := NextEntry t |})
    as (Bs & Es & -> & Hs & HL'); cbn [AllocatedBuckets Buckets AllocatedEntries Entries Count FreeEntry NextEntry] in *; try done; try lia.
  - exists (k + 1). split; [lia|done].
  - eapply linked_iff; [|apply linked_no_buckets]. intros j. split; [done|]. intros [[Hj _] ?]. lia.
  - eexists. split; [reflexivity|]. split; [|split; [by apply same_elements|]];
      cbn [AllocatedBuckets Buckets AllocatedEntries Entries Count FreeEntry NextEntry]; [|split_and!; try done; lia].
    constructor; cbn [AllocatedBuckets Buckets AllocatedEntries Entries Count FreeEntry NextEntry]; try done.
    + exists (k + 1). split; [lia|done].
    + lia.
    + intros j Hj. destruct (Hinit j Hj) as [e He]. specialize (Hs j). rewrite He in Hs. destruct Hs as (n & -> & _). eauto.
    + intros j e' Hj He' HM. destruct (Hinit j Hj) as [e He]. specialize (Hs j). rewrite He in Hs. destruct Hs as (n & Hn & _).
      rewrite Hn in He'. injection He' as <-. exact (Hhash j e Hj He HM).
    + destruct Hfree as (l & Hc & Hnd & Hin). exists l. split; [|split; [done|]].
      * eapply chain_frame; [|exact Hc]. intros j Hj. apply Hin in Hj as (_ & e & He & HM). specialize (Hs j). rewrite He in Hs.
        destruct Hs as (n & -> & Hn). rewrite (Hn HM), He. by destruct e.
      * intros j. rewrite Hin. by destruct (same_state _ _ (NextEntry t) j Hs) as (_ & -> & _).
    + intros i j a b Hi Hj. rewrite !(same_live_body _ _ _ Hs). by apply Huniq.
    + unfold elements in *. cbn [Entries NextEntry]. by rewrite (same_elements _ _ _ Hs).
Qed.

(** ** Adding *)

Definition attached (t : TABLE) (E : T) (i n free next : Z) : TABLE :=
  {| AllocatedBuckets := AllocatedBuckets t; Buckets := <[Z.to_nat (index_of t E) := i]> (Buckets t);
     AllocatedEntries := AllocatedEntries t;
     Entries := <[i := {| HashCode := PhpValidateHash (HashFunction E); Next := n; Body := E |}]> (Entries t);
     Count := Count t +₃₂ 1; FreeEntry := free; NextEntry := next |}.

(** The slot: an unused entry, or the next one. *)
Definition slot (t : TABLE) (i next : Z) : Prop :=
  (next = NextEntry t /\ unused (Entries t) (NextEntry t) i) \/ (next = NextEntry t + 1 /\ i = NextEntry t /\ i < AllocatedEntries t).

Lemma attached_elements t E i n free next : wf t -> slot t i next ->
  elements (attached t E i n free next) ≡ₚ E :: elements t.
Proof.
  intros Hwf Hslot. unfold elements, attached. cbn [Entries NextEntry].
  set (e := {| HashCode := _ |}). assert (Hnew : live_body (<[i := e]> (Entries t)) i = Some E).
  { apply live_body_Some. exists e. rewrite lookup_insert_eq. split; [done|]. split; [apply hash_range|done]. }
  assert (Hother : forall j, j <> i -> live_body (<[i := e]> (Entries t)) j = live_body (Entries t) j).
  { intros j Hj. unfold live_body. by rewrite lookup_insert_ne by congruence. }
  pose proof (wf_next t Hwf). destruct Hslot as [(-> & Hi & e0 & He0 & HM)|(-> & -> & Hi)].
  - destruct (omap_at _ _ (NextEntry t) i Hi Hother) as (rest & -> & ->). rewrite Hnew.
    assert (live_body (Entries t) i = None) as ->; [|done]. unfold live_body. rewrite He0. simpl. by rewrite HM.
  - rewrite seqZ_app by lia. rewrite omap_app. replace (seqZ (0 + NextEntry t) 1) with [NextEntry t] by (unfold seqZ; simpl; f_equal; lia). csimpl. rewrite Hnew.
    assert (Hsame : forall l, NextEntry t ∉ l -> omap (live_body (<[NextEntry t := e]> (Entries t))) l = omap (live_body (Entries t)) l).
    { induction l as [|j l IH]; [done|]. rewrite not_elem_of_cons. intros [Hj Hl]. csimpl. rewrite (Hother j) by congruence. by rewrite (IH Hl). }
    rewrite Hsame; [by rewrite <- Permutation_cons_append|]. rewrite elem_of_seqZ. lia.
Qed.

Lemma attached_wf t E i n free next : wf t -> slot t i next ->
  Buckets t !! Z.to_nat (index_of t E) = Some n ->
  (exists l, chain (Entries t) free l /\ NoDup l /\ forall j, j ∈ l <-> unused (Entries t) (NextEntry t) j /\ j <> i) ->
  (forall a, a ∈ elements t -> EqualFunction a E = false) ->
  wf (attached t E i n free next).
Proof.
  intros Hwf Hslot Hn Hfree Hnew. pose proof (attached_elements t E i n free next Hwf Hslot) as Hperm.
  destruct Hwf as [Hsize Halloc Hnext Hinit Hhash HL _ Huniq Hcount].
  pose proof (index_range (AllocatedBuckets t) (PhpValidateHash (HashFunction E)) Hsize) as Hidx. fold (index_of t E) in Hidx.
  assert (Hb31 : AllocatedBuckets t <= 2 ^ 31) by (destruct Hsize as (k & Hk & ->); apply Z.pow_le_mono_r; lia).
  assert (Hrange : 0 <= i < next /\ NextEntry t <= next <= AllocatedEntries t /\ forall j, 0 <= j < next <-> 0 <= j < NextEntry t \/ j = i).
  { destruct Hslot as [(-> & Hi & _)|(-> & -> & Hi)]; (split; [lia|split; [lia|intros j; lia]]). }
  destruct Hrange as (Hi & Hn' & Hrange).
  assert (Hnot : ~ in_use (Entries t) (NextEntry t) i).
  { intros (Hi' & e & He & HM). destruct Hslot as [(_ & _ & e' & He' & HM')|(_ & -> & _)]; [congruence|lia]. }
  constructor; unfold attached; cbn [AllocatedBuckets Buckets AllocatedEntries Entries Count FreeEntry NextEntry]; try done; try lia.
  - intros j Hj. destruct (decide (j = i)) as [->|Hne]; [rewrite lookup_insert_eq; eauto|].
    rewrite lookup_insert_ne by congruence. apply Hinit. apply Hrange in Hj. tauto.
  - intros j e Hj. destruct (decide (j = i)) as [->|Hne]; [rewrite lookup_insert_eq; by intros [= <-]|].
    rewrite lookup_insert_ne by congruence. apply Hhash. apply Hrange in Hj. tauto.
  - eapply linked_iff; [|eapply (linked_link _ _ _ _ i _ (index_of t E) n HL); try done].
    + intros j. unfold in_use. rewrite Hrange. destruct (decide (j = i)) as [->|Hne].
      * rewrite lookup_insert_eq. split; [intros _|by right]. split; [by right|]. eexists. split; [done|]. apply hash_range.
      * rewrite lookup_insert_ne by congruence. tauto.
    + unfold ULONG_MAX. lia.
  - destruct Hfree as (l & Hc & Hnd & Hin). exists l. split; [|split; [done|]].
    + apply chain_insert; [|done]. rewrite Hin. tauto.
    + intros j. rewrite Hin. unfold unused. rewrite Hrange. destruct (decide (j = i)) as [->|Hne].
      * rewrite lookup_insert_eq. split; [tauto|]. intros (_ & e & [= <-] & HM). by apply hash_range in HM.
      * rewrite lookup_insert_ne by congruence. tauto.
  - assert (Hlb : forall j, live_body (<[i:={| HashCode := PhpValidateHash (HashFunction E); Next := n; Body := E |}]> (Entries t)) j =
      if decide (j = i) then Some E else live_body (Entries t) j).
    { intros j. case_decide as Hj; [subst j|unfold live_body; by rewrite lookup_insert_ne by congruence].
      apply live_body_Some. rewrite lookup_insert_eq. eexists. split; [done|]. split; [apply hash_range|done]. }
    assert (Hold : forall j a, 0 <= j < next -> j <> i -> live_body (Entries t) j = Some a -> EqualFunction a E = false).
    { intros j a Hj Hne Ha. apply Hnew, elem_of_elements. exists j. split; [|done]. apply Hrange in Hj. tauto. }
    intros x y a b Hx Hy. rewrite !Hlb. repeat case_decide; subst; try done.
    + intros [= <-] Hb Heq. apply equal_sym in Heq. by rewrite (Hold y b) in Heq.
    + intros Ha [= <-] Heq. by rewrite (Hold x a) in Heq.
    + apply Hrange in Hx, Hy. apply Huniq; tauto.
  - unfold attached in Hperm. rewrite Hperm, Hcount. simpl.
    assert (Hlen : (length (elements t) <= Z.to_nat (NextEntry t))%nat).
    { unfold elements. etrans; [apply length_omap_le|]. by rewrite length_seqZ. }
    rewrite u32_id by (unfold in_width; lia). lia.
Qed.

(** A table with no free entry is full up to [NextEntry]. *)
Lemma full_count t : wf t -> FreeEntry t = ULONG_MAX -> Z.of_nat (length (elements t)) = NextEntry t.
Proof.
  intros Hwf HF. pose proof (wf_next t Hwf). destruct (wf_free t Hwf) as (l & Hc & _ & Hin).
  apply chain_head in Hc as ->; [|done].
  assert (Hall : forall xs, (forall j, j ∈ xs -> 0 <= j < NextEntry t) -> length (omap (live_body (Entries t)) xs) = length xs).
  { induction xs as [|j xs IH]; [done|]. intros Hr. csimpl.
    assert (Hj : 0 <= j < NextEntry t) by (apply Hr; by left). destruct (wf_init t Hwf j Hj) as [e He].
    unfold live_body at 1. rewrite He. simpl. destruct (Z.eqb_spec (HashCode e) ULONG_MAX) as [HM|HM].
    - exfalso. apply (not_elem_of_nil (A := Z) j), Hin. split; [done|]. by exists e.
    - simpl. f_equal. apply IH. intros x Hx. apply Hr. by right. }
  unfold elements. rewrite Hall, length_seqZ; [lia|]. intros j Hj. apply elem_of_seqZ in Hj. lia.
Qed.

Lemma pop_chain (t : TABLE) l i : chain (Entries t) i l -> i <> ULONG_MAX ->
  exists e l', l = i :: l' /\ Entries t !! i = Some e /\ chain (Entries t) (Next e) l'.
Proof. destruct l as [|j l]; [done|]. intros (-> & _ & e & He & Hl) _. by exists e, l. Qed.

(** The common end of both branches. *)
Lemma attach_eq t E i n free next : wf t -> slot t i next ->
  Buckets t !! Z.to_nat (index_of t E) = Some n ->
  (b ← bucket (set_counts t (Count t) free next) (index_of t E);
   t' ← set_entry (set_counts t (Count t) free next) i {| HashCode := PhpValidateHash (HashFunction E); Next := b; Body := E |};
   t' ← set_bucket t' (index_of t E) i;
   Some (set_counts t' (Count t' +₃₂ 1) (FreeEntry t') (NextEntry t'), i, true)) = Some (attached t E i n free next, i, true).
Proof.
  intros Hwf Hslot Hn. pose proof (wf_next t Hwf). pose proof (wf_alloc t Hwf).
  assert (Hi : 0 <= i < AllocatedEntries t) by (destruct Hslot as [(_ & Hi & _)|(_ & -> & ?)]; lia).
  unfold bucket at 1. cbn [set_counts Buckets]. rewrite Hn. cbn [mbind option_bind].
  unfold set_entry. cbn [set_counts AllocatedEntries]. rewrite (proj2 (Z.leb_le 0 i)), (proj2 (Z.ltb_lt i _)) by lia.
  cbn [andb mbind option_bind]. unfold set_bucket, bucket.
  cbn [set_counts AllocatedBuckets Buckets AllocatedEntries Entries Count FreeEntry NextEntry]. by rewrite Hn.
Qed.

Lemma table_add_spec t E : wf t -> Z.of_nat (length (elements t)) < 2 ^ 31 ->
  (exists i a, PhpAddEntryHashtable t E true = Some (t, i, false) /\ a ∈ elements t /\ EqualFunction a E = true /\
     live_body (Entries t) i = Some a) \/
  (exists t' i, PhpAddEntryHashtable t E true = Some (t', i, true) /\ wf t' /\ elements t' ≡ₚ E :: elements t /\
     (forall a, a ∈ elements t -> EqualFunction a E = false) /\ live_body (Entries t') i = Some E).
Proof.
  intros Hwf Hlen. unfold PhpAddEntryHashtable.
  destruct (search_bucket_spec t E Hwf) as [[-> Hnew]|(i & l1 & j & l2 & e & _ & _ & _ & _ & -> & He & Hj & HM & Heq)];
    cbn [mbind option_bind].
  2: { left. exists j, (Body e). assert (Hb : live_body (Entries t) j = Some (Body e)) by (apply live_body_Some; by exists e).
    split; [done|]. split; [apply elem_of_elements; by exists j|done]. }
  right.
  assert (Hgo : forall t1 i free next, wf t1 -> elements t1 = elements t -> slot t1 i next ->
    (exists l, chain (Entries t1) free l /\ NoDup l /\ forall j, j ∈ l <-> unused (Entries t1) (NextEntry t1) j /\ j <> i) ->
    exists t' i', (b ← bucket (set_counts t1 (Count t1) free next) (index_of t1 E);
     t' ← set_entry (set_counts t1 (Count t1) free next) i {| HashCode := PhpValidateHash (HashFunction E); Next := b; Body := E |};
     t' ← set_bucket t' (index_of t1 E) i;
     Some (set_counts t' (Count t' +₃₂ 1) (FreeEntry t') (NextEntry t'), i, true)) = Some (t', i', true) /\ wf t' /\
     elements t' ≡ₚ E :: elements t /\ (forall a, a ∈ elements t -> EqualFunction a E = false) /\ live_body (Entries t') i' = Some E).
  { intros t1 i free next Hwf1 Hel Hslot Hfree. rewrite <- Hel in Hnew |- *.
    destruct (wf_buckets t1 Hwf1) as [_ HL].
    destruct (HL _ (index_range (AllocatedBuckets t1) (PhpValidateHash (HashFunction E)) (wf_size t1 Hwf1))) as (n & _ & Hn & _).
    rewrite (attach_eq t1 E i n free next Hwf1 Hslot Hn). do 2 eexists. split; [done|].
    split; [by apply attached_wf|]. split; [by apply attached_elements|]. split; [done|].
    apply live_body_Some. eexists. split; [apply lookup_insert_eq|]. split; [apply hash_range|done]. }
  pose proof (wf_next t Hwf) as Hnext. pose proof (wf_alloc t Hwf) as Halloc. destruct (wf_size t Hwf) as (k & Hk & Ek).
  destruct (Z.eqb_spec (FreeEntry t) ULONG_MAX) as [HF|HF]; cbn [negb].
  - pose proof (full_count t Hwf HF) as Hfull.
    assert (Hempty : forall t1, FreeEntry t1 = ULONG_MAX -> wf t1 ->
      exists l, chain (Entries t1) (FreeEntry t1) l /\ NoDup l /\ forall j, j ∈ l <-> unused (Entries t1) (NextEntry t1) j /\ j <> NextEntry t1).
    { intros t1 HF1 Hwf1. destruct (wf_free t1 Hwf1) as (l & Hc & Hnd & Hin). exists l. split; [done|]. split; [done|].
      intros j. rewrite Hin. split; [|tauto]. intros Hu. split; [done|]. destruct Hu as [Hj _]. lia. }
    assert (Hnp : NextEntry t +₃₂ 1 = NextEntry t + 1) by (apply u32_id; unfold in_width; lia).
    destruct (Z.eqb_spec (NextEntry t) (AllocatedEntries t)) as [Hcap|Hcap].
    + assert (Hmax : AllocatedBuckets t * 2 <= 2 ^ 31).
      { assert (k < 31) by (apply (Z.pow_lt_mono_r_iff 2); lia). rewrite Ek.
        replace (2 ^ k * 2) with (2 ^ (k + 1)) by (rewrite Z.pow_add_r by lia; lia). apply Z.pow_le_mono_r; lia. }
      destruct (resize_wf t Hwf Hmax) as (t1 & -> & Hwf1 & Hel & HA & HF1 & HN1 & HC1). cbn [mbind option_bind].
      rewrite HN1, Hnp. rewrite <- HN1. apply (Hgo t1 (NextEntry t1) (FreeEntry t1) (NextEntry t1 + 1) Hwf1 Hel).
      * right. split; [done|]. split; [done|]. assert (0 < AllocatedEntries t) by (rewrite Halloc, Ek; apply Z.pow_pos_nonneg; lia). lia.
      * apply Hempty; [by rewrite HF1|done].
    + cbn [mbind option_bind]. rewrite Hnp. apply (Hgo t (NextEntry t) (FreeEntry t) (NextEntry t + 1) Hwf eq_refl).
      * right. split; [done|]. split; [done|]. lia.
      * by apply Hempty.
  - destruct (wf_free t Hwf) as (l & Hc & Hnd & Hin).
    destruct (pop_chain t l (FreeEntry t) Hc HF) as (e & l' & -> & He & Hl').
    assert (Hu : unused (Entries t) (NextEntry t) (FreeEntry t)) by (apply Hin; by left).
    rewrite entry_eq, He by (destruct Hu as [? _]; lia). cbn [mbind option_bind].
    apply (Hgo t (FreeEntry t) (Next e) (NextEntry t) Hwf eq_refl).
    + by left.
    + apply NoDup_cons in Hnd as [Hni Hnd]. exists l'. split; [done|]. split; [done|]. intros j.
      specialize (Hin j). rewrite elem_of_cons in Hin. destruct (decide (j = FreeEntry t)) as [->|]; tauto.
Qed.

(** ** Removing *)

Definition freed (t : TABLE) (Bs : list Z) (Es : gmap Z ENTRY) (j : Z) (e : ENTRY) : TABLE :=
  {| AllocatedBuckets := AllocatedBuckets t; Buckets := Bs; AllocatedEntries := AllocatedEntries t;
     Entries := <[j := {| HashCode := ULONG_MAX; Next := FreeEntry t; Body := Body e |}]> Es;
     Count := Count t -₃₂ 1; FreeEntry := j; NextEntry := NextEntry t |}.

Lemma freed_live_body t Bs Es j e x : same_entries (Entries t) Es ->
  live_body (Entries (freed t Bs Es j e)) x = if decide (x = j) then None else live_body (Entries t) x.
Proof.
  intros Hs. unfold freed. cbn [Entries]. case_decide as Hx.
  - subst x. unfold live_body. by rewrite lookup_insert_eq.
  - rewrite <- (same_live_body _ _ x Hs). unfold live_body. by rewrite lookup_insert_ne by congruence.
Qed.

Lemma freed_elements t Bs Es j e : same_entries (Entries t) Es -> 0 <= j < NextEntry t ->
  Entries t !! j = Some e -> HashCode e <> ULONG_MAX ->
  elements t ≡ₚ Body e :: elements (freed t Bs Es j e).
Proof.
  intros Hs Hj He HM. unfold elements. change (NextEntry (freed t Bs Es j e)) with (NextEntry t).
  destruct (omap_at (live_body (Entries t)) (live_body (Entries (freed t Bs Es j e))) (NextEntry t) j Hj) as (rest & -> & ->).
  { intros x Hx. by rewrite (freed_live_body t Bs Es j e x Hs), decide_False. }
  rewrite (freed_live_body t Bs Es j e j Hs), decide_True by done.
  assert (live_body (Entries t) j = Some (Body e)) as -> by (apply live_body_Some; by exists e). done.
Qed.

Lemma freed_wf t Bs Es j e : wf t -> same_entries (Entries t) Es -> 0 <= j < NextEntry t ->
  Entries t !! j = Some e -> HashCode e <> ULONG_MAX -> j <> ULONG_MAX ->
  linked (AllocatedBuckets t) Bs Es (fun x => in_use (Entries t) (NextEntry t) x /\ x <> j) ->
  wf (freed t Bs Es j e).
Proof.
  intros Hwf Hs Hj He HM HjM HL. pose proof (freed_elements t Bs Es j e Hs Hj He HM) as Hperm.
  pose proof (fun x => freed_live_body t Bs Es j e x Hs) as Hlive.
  destruct Hwf as [Hsize Halloc Hnext Hinit Hhash _ Hfree Huniq Hcount].
  constructor; try done; unfold freed; cbn [AllocatedBuckets Buckets AllocatedEntries Entries Count FreeEntry NextEntry].
  - intros x Hx. destruct (decide (x = j)) as [->|Hne]; [rewrite lookup_insert_eq; eauto|].
    rewrite lookup_insert_ne by congruence. destruct (Hinit x Hx) as [e' He']. specialize (Hs x). rewrite He' in Hs.
    destruct Hs as (n & -> & _). eauto.
  - intros x e' Hx. destruct (decide (x = j)) as [->|Hne]; [rewrite lookup_insert_eq; by intros [= <-]|].
    rewrite lookup_insert_ne by congruence. specialize (Hs x). destruct (Hinit x Hx) as [e0 He0]. rewrite He0 in Hs.
    destruct Hs as (n & -> & _). intros [= <-] HM'. exact (Hhash x e0 Hx He0 HM').
  - eapply linked_iff; [|apply linked_insert; [exact HL|tauto]]. intros x. unfold in_use.
    destruct (decide (x = j)) as [->|Hne].
    + rewrite lookup_insert_eq. split; [tauto|]. by intros (_ & e' & [= <-] & ?).
    + rewrite lookup_insert_ne by congruence. pose proof (proj1 (same_state _ _ (NextEntry t) x Hs)) as Hx. unfold in_use in Hx. tauto.
  - destruct Hfree as (l & Hc & Hnd & Hin).
    assert (Hjl : j ∉ l) by (rewrite Hin; intros (_ & e' & He' & ?); congruence).
    exists (j :: l). split; [|split; [by constructor|]].
    + split; [done|]. split; [done|]. eexists. split; [apply lookup_insert_eq|]. cbn [Next]. apply chain_insert; [done|].
      eapply chain_frame; [|exact Hc]. intros x Hx. apply Hin in Hx as (_ & e' & He' & HM'). specialize (Hs x). rewrite He' in Hs.
      destruct Hs as (n & -> & Hn). rewrite (Hn HM'), He'. by destruct e'.
    + intros x. rewrite elem_of_cons, Hin. unfold unused. destruct (decide (x = j)) as [->|Hne].
      * rewrite lookup_insert_eq. split; [intros _|by left]. split; [done|]. by eexists.
      * rewrite lookup_insert_ne by congruence. pose proof (proj1 (proj2 (same_state _ _ (NextEntry t) x Hs))) as Hx. unfold unused in Hx. tauto.
  - intros x y a b Hx Hy. unfold freed in Hlive. cbn [Entries] in Hlive. rewrite !Hlive.
    repeat case_decide; try done. by apply Huniq.
  - pose proof (Permutation_length Hperm) as Hl. simpl in Hl.
    change (Count t -₃₂ 1 = Z.of_nat (length (elements (freed t Bs Es j e)))).
    rewrite Hcount. rewrite u32_id; [lia|]. unfold in_width.
    assert (Hb : AllocatedBuckets t <= 2 ^ 31) by (destruct Hsize as (k & Hk & ->); apply Z.pow_le_mono_r; lia).
    assert (Hlen : (length (elements t) <= Z.to_nat (NextEntry t))%nat).
    { unfold elements. etrans; [apply length_omap_le|]. by rewrite length_seqZ. }
    lia.
Qed.

Lemma table_remove_spec t E : wf t ->
  (PhRemoveEntryHashtable t E = Some (t, false) /\ forall a, a ∈ elements t -> EqualFunction a E = false) \/
  (exists t' a, PhRemoveEntryHashtable t E = Some (t', true) /\ wf t' /\ EqualFunction a E = true /\
     elements t ≡ₚ a :: elements t' /\ forall b, b ∈ elements t' -> EqualFunction b E = false).
Proof.
  intros Hwf. unfold PhRemoveEntryHashtable. fold (index_of t E).
  destruct (search_bucket_spec t E Hwf) as [[-> Hno]|(i & l1 & j & l2 & e & Hi & Hc & Hnd & Hin & -> & He & Hj & HM & Heq)];
    cbn [mbind option_bind]; [by left|]. right.
  pose proof (wf_next t Hwf) as Hnext. pose proof (wf_alloc t Hwf) as Halloc.
  pose proof (index_range (AllocatedBuckets t) (PhpValidateHash (HashFunction E)) (wf_size t Hwf)) as Hidx. fold (index_of t E) in Hidx.
  assert (HjM : j <> ULONG_MAX).
  { destruct (wf_size t Hwf) as (k & Hk & Ek). assert (2 ^ k <= 2 ^ 31) by (apply Z.pow_le_mono_r; lia). unfold ULONG_MAX. lia. }
  rewrite (entry_eq t j), He by lia. cbn [mbind option_bind].
  assert (Hgo : forall Bs Es, same_entries (Entries t) Es ->
    linked (AllocatedBuckets t) Bs Es (fun x => in_use (Entries t) (NextEntry t) x /\ x <> j) ->
    exists t' a, Some (freed t Bs Es j e, true) = Some (t', true) /\ wf t' /\ EqualFunction a E = true /\
      elements t ≡ₚ a :: elements t' /\ forall b, b ∈ elements t' -> EqualFunction b E = false).
  { intros Bs Es Hs HL. exists (freed t Bs Es j e), (Body e). split; [done|]. split; [by apply freed_wf|]. split; [done|].
    split; [by apply freed_elements|]. intros b (x & Hx & Hb)%elem_of_elements.
    rewrite (freed_live_body t Bs Es j e x Hs) in Hb. case_decide as Hne; [done|].
    destruct (EqualFunction b E) eqn:HbE; [|done]. exfalso. apply Hne.
    apply (wf_unique t Hwf x j b (Body e)); try done; [apply live_body_Some; by exists e|].
    eapply equal_trans; [exact HbE|by apply equal_sym]. }
  destruct (linked_unlink _ _ _ _ (index_of t E) i l1 j l2 e (wf_buckets t Hwf) Hidx Hi Hc Hnd Hin He)
    as [(-> & HL)|(l1' & p & ep & -> & HpM & Hep & HL)].
  - simpl. unfold set_bucket, bucket. rewrite Hi. cbn [mbind option_bind]. unfold set_entry. cbn [AllocatedEntries].
    rewrite (proj2 (Z.leb_le 0 j)), (proj2 (Z.ltb_lt j _)) by lia. cbn [andb mbind option_bind].
    apply Hgo; [apply same_entries_refl|done].
  - rewrite last_last, (proj2 (Z.eqb_neq p ULONG_MAX)) by done.
    assert (Hpin : in_use (Entries t) (NextEntry t) p).
    { apply Hin. rewrite <- app_assoc. apply elem_of_app. right. by left. }
    destruct Hpin as (Hp & ep' & Hep' & HMp). assert (ep' = ep) as -> by congruence.
    rewrite (entry_eq t p), Hep by lia. cbn [mbind option_bind]. unfold set_entry.
    rewrite (proj2 (Z.leb_le 0 p)), (proj2 (Z.ltb_lt p (AllocatedEntries t))) by lia.
    cbn [andb mbind option_bind AllocatedEntries]. rewrite (proj2 (Z.leb_le 0 j)), (proj2 (Z.ltb_lt j _)) by lia. cbn [andb mbind option_bind].
    apply (Hgo (Buckets t) (<[p := set_next ep (Next e)]> (Entries t))); [by apply same_entries_relink|done].
Qed.

Lemma table_find_spec t E : wf t ->
  (PhFindEntryHashtable t E = Some None /\ forall a, a ∈ elements t -> EqualFunction a E = false) \/
  (exists j a, PhFindEntryHashtable t E = Some (Some j) /\ 0 <= j < NextEntry t /\ live_body (Entries t) j = Some a /\
     a ∈ elements t /\ EqualFunction a E = true).
Proof.
  intros Hwf. unfold PhFindEntryHashtable.
  destruct (search_bucket_spec t E Hwf) as [[-> Hno]|(i & l1 & j & l2 & e & _ & _ & _ & _ & -> & He & Hj & HM & Heq)];
    cbn [mbind option_bind option_map]; [by left|]. right. exists j, (Body e).
  assert (Hb : live_body (Entries t) j = Some (Body e)) by (apply live_body_Some; by exists e).
  split; [done|]. split; [done|]. split; [done|]. split; [|done]. apply elem_of_elements. by exists j.
Qed.

(** ** Enumeration *)

(** A caller's loop: calls with the same key variable until FALSE. *)
Fixpoint enum_all (fuel : nat) (t : TABLE) (EnumerationKey : Z) : ub (list T) :=
  match fuel with
  | O => None
  | S fuel =>
      found ← PhEnumHashtable t EnumerationKey;
      match found with
      | None => Some []
      | Some (i, EnumerationKey) => e ← entry t i; rest ← enum_all fuel t EnumerationKey; Some (Body e :: rest)
      end
  end.

Definition elements_from (t : TABLE) (k : Z) : list T := omap (live_body (Entries t)) (seqZ k (NextEntry t - k)).

Lemma elements_from_step t k : k < NextEntry t ->
  elements_from t k = option_list (live_body (Entries t) k) ++ elements_from t (k + 1).
Proof.
  intros Hk. unfold elements_from. replace (NextEntry t - k) with (Z.succ (NextEntry t - (k + 1))) by lia.
  rewrite seqZ_cons by lia. csimpl. rewrite <- Z.add_1_r, Z.pred_succ. by destruct (live_body _ _).
Qed.

Lemma enum_from_spec t : wf t -> forall fuel k, 0 <= k -> (Z.to_nat (NextEntry t - k) < fuel)%nat ->
  (enum_from fuel t k = Some None /\ elements_from t k = []) \/
  (exists i e, enum_from fuel t k = Some (Some (i, i + 1)) /\ k <= i < NextEntry t /\ Entries t !! i = Some e /\
     elements_from t k = Body e :: elements_from t (i + 1)).
Proof.
  intros Hwf. pose proof (wf_next t Hwf) as Hnext. pose proof (wf_alloc t Hwf) as Halloc.
  assert (H31 : AllocatedBuckets t <= 2 ^ 31) by (destruct (wf_size t Hwf) as (k & Hk & ->); apply Z.pow_le_mono_r; lia).
  induction fuel as [|fuel IH]; intros k Hk Hfuel; [lia|]. cbn [enum_from].
  destruct (Z.ltb_spec k (NextEntry t)) as [Hlt|Hge].
  - destruct (wf_init t Hwf k ltac:(lia)) as [e He]. rewrite (entry_eq t k), He by lia. cbn [mbind option_bind].
    rewrite (u32_id (k + 1)) by (unfold in_width; lia). rewrite (elements_from_step t k Hlt). unfold live_body. rewrite He. simpl.
    destruct (HashCode e =? ULONG_MAX); simpl.
    + destruct (IH (k + 1)) as [[-> E]|(i & e' & -> & Hi & He' & E)]; [lia|lia|by left|].
      right. exists i, e'. split; [done|]. split; [lia|done].
    + right. exists k, e. split; [done|]. split; [lia|done].
  - left. split; [done|]. unfold elements_from. by rewrite seqZ_nil by lia.
Qed.

Lemma enum_all_spec t : wf t -> forall fuel k, 0 <= k -> (length (elements_from t k) < fuel)%nat ->
  enum_all fuel t k = Some (elements_from t k).
Proof.
  intros Hwf. pose proof (wf_next t Hwf) as Hnext.
  induction fuel as [|fuel IH]; intros k Hk Hfuel; [lia|]. cbn [enum_all]. unfold PhEnumHashtable.
  destruct (enum_from_spec t Hwf (S (Z.to_nat (NextEntry t))) k Hk ltac:(lia)) as [[-> E]|(i & e & -> & Hi & He & E)];
    rewrite E in *; cbn [mbind option_bind]; [done|].
  rewrite (entry_eq t i), He by lia. cbn [mbind option_bind]. simpl in Hfuel. rewrite IH by lia. done.
Qed.

(** ** The list a table stands for *)

Inductive call := Add (E : T) | Remove (E : T) | Find (E : T) | Clear.
Inductive answer := Added (b : bool) | Removed (b : bool) | Found (a : option T) | Cleared.

Definition list_step (xs : list T) (op : call) : option (list T * answer) :=
  match op with
  | Add E =>
      if decide (Z.of_nat (length xs) < 2 ^ 31) then
        Some (if existsb (fun a => EqualFunction a E) xs then (xs, Added false) else (E :: xs, Added true))
      else None
  | Remove E => Some (List.filter (fun a => negb (EqualFunction a E)) xs, Removed (existsb (fun a => EqualFunction a E) xs))
  | Find E => Some (xs, Found (List.find (fun a => EqualFunction a E) xs))
  | Clear => Some ([], Cleared)
  end.

Definition table_step (t : TABLE) (op : call) : ub (TABLE * answer) :=
  match op with
  | Add E => '(t, i) ← PhAddEntryHashtable t E; Some (t, Added (bool_decide (is_Some i)))
  | Remove E => '(t, b) ← PhRemoveEntryHashtable t E; Some (t, Removed b)
  | Find E =>
      i ← PhFindEntryHashtable t E;
      match i with None => Some (t, Found None) | Some i => e ← entry t i; Some (t, Found (Some (Body e))) end
  | Clear => Some (PhClearHashtable t, Cleared)
  end.

Fixpoint run {S : Type} (step : S -> call -> option (S * answer)) (s : S) (ops : list call) : option (S * list answer) :=
  match ops with
  | [] => Some (s, [])
  | op :: ops => '(s, a) ← step s op; '(s, answers) ← run step s ops; Some (s, a :: answers)
  end.

Definition holds (t : TABLE) (xs : list T) : Prop := wf t /\ elements t ≡ₚ xs.

Lemma holds_unique t xs a b : holds t xs -> a ∈ xs -> b ∈ xs -> EqualFunction a b = true -> a = b.
Proof. intros [Hwf Hp] Ha Hb. rewrite <- Hp in Ha, Hb. by apply (elements_unique t a b). Qed.

Lemma existsb_no xs E : (forall a, a ∈ xs -> EqualFunction a E = false) -> existsb (fun a => EqualFunction a E) xs = false.
Proof.
  induction xs as [|x xs IH]; [done|]. intros Hno. simpl. rewrite (Hno x) by (by left). apply IH. intros a Ha. apply Hno. by right.
Qed.
Lemma existsb_yes xs E a : a ∈ xs -> EqualFunction a E = true -> existsb (fun a => EqualFunction a E) xs = true.
Proof.
  intros Ha Heq. apply existsb_exists. exists a. split; [|done]. by apply list_elem_of_In.
Qed.
Lemma filter_no xs E : (forall a, a ∈ xs -> EqualFunction a E = false) -> List.filter (fun a => negb (EqualFunction a E)) xs = xs.
Proof.
  induction xs as [|x xs IH]; [done|]. intros Hno. simpl. rewrite (Hno x) by (by left). simpl. f_equal. apply IH.
  intros a Ha. apply Hno. by right.
Qed.
Lemma filter_perm (f : T -> bool) xs ys : xs ≡ₚ ys -> List.filter f xs ≡ₚ List.filter f ys.
Proof.
  induction 1 as [|x xs ys _ IH|x y xs|xs ys zs _ IH1 _ IH2]; simpl; [done| | |by etrans].
  - destruct (f x); [by constructor|done].
  - destruct (f x), (f y); try done. by constructor.
Qed.
Lemma find_no xs E : (forall a, a ∈ xs -> EqualFunction a E = false) -> List.find (fun a => EqualFunction a E) xs = None.
Proof.
  induction xs as [|x xs IH]; [done|]. intros Hno. simpl. rewrite (Hno x) by (by left). apply IH. intros a Ha. apply Hno. by right.
Qed.

Lemma table_step_spec op t xs xs' a : holds t xs -> list_step xs op = Some (xs', a) ->
  exists t', table_step t op = Some (t', a) /\ holds t' xs'.
Proof.
  intros [Hwf Hp] Hstep. destruct op as [E|E|E|]; cbn [list_step table_step] in *.
  - case_decide as Hlen; [|done]. rewrite <- Hp in Hlen.
    unfold PhAddEntryHashtable. destruct (table_add_spec t E Hwf Hlen) as [(i & b & -> & Hb & Heq & _)|(t' & i & -> & Hwf' & Hp' & Hno & _)];
      cbn [mbind option_bind].
    + rewrite Hp in Hb. rewrite (existsb_yes xs E b Hb Heq) in Hstep. injection Hstep as <- <-. by exists t.
    + rewrite existsb_no in Hstep by (intros b Hb; rewrite <- Hp in Hb; by apply Hno). injection Hstep as <- <-.
      exists t'. rewrite bool_decide_true by eauto. split; [done|]. split; [done|]. by rewrite Hp', Hp.
  - injection Hstep as <- <-. destruct (table_remove_spec t E Hwf) as [[-> Hno]|(t' & b & -> & Hwf' & Heq & Hp' & Hno)]; cbn [mbind option_bind].
    + assert (Hno' : forall b, b ∈ xs -> EqualFunction b E = false) by (intros b Hb; rewrite <- Hp in Hb; by apply Hno).
      rewrite filter_no, existsb_no by done. by exists t.
    + exists t'. rewrite (existsb_yes xs E b); [|rewrite <- Hp, Hp'; by left|done]. split; [done|]. split; [done|].
      rewrite <- (filter_perm _ _ _ Hp), (filter_perm _ _ _ Hp'). simpl. rewrite Heq. simpl. by rewrite filter_no.
  - injection Hstep as <- <-. destruct (table_find_spec t E Hwf) as [[-> Hno]|(i & b & -> & Hi & Hlive & Hb & Heq)]; cbn [mbind option_bind].
    + exists t. rewrite find_no; [done|]. intros b Hb. rewrite <- Hp in Hb. by apply Hno.
    + rewrite (entry_eq t i) by (pose proof (wf_next t Hwf); lia). apply live_body_Some in Hlive as (e & He & HM & <-). rewrite He.
      cbn [mbind option_bind]. exists t. split; [|done]. do 3 f_equal.
      destruct (List.find (fun a => EqualFunction a E) xs) as [c|] eqn:Hf.
      * apply find_some in Hf as [Hc HcE]. f_equal. rewrite <- list_elem_of_In, <- Hp in Hc.
        apply (elements_unique t _ _ Hwf Hb Hc). eapply equal_trans; [exact Heq|by apply equal_sym].
      * rewrite Hp, list_elem_of_In in Hb. by rewrite (find_none _ _ Hf _ Hb) in Heq.
  - injection Hstep as <- <-. destruct (table_clear_wf t Hwf) as [Hwf' Hel]. eexists. split; [done|]. split; [done|]. by rewrite Hel.
Qed.

Lemma run_spec ops : forall t ys xs answers, holds t ys -> run list_step ys ops = Some (xs, answers) ->
  exists t', run table_step t ops = Some (t', answers) /\ holds t' xs.
Proof.
  induction ops as [|op ops IH]; intros t ys xs answers Ht Hrun; simpl in *.
  { injection Hrun as <- <-. by exists t. }
  apply bind_Some in Hrun as ([ys' a] & Hstep & Hrun). apply bind_Some in Hrun as ([zs as'] & Hrun & [= <- <-]).
  destruct (table_step_spec op t ys ys' a Ht Hstep) as (t' & -> & Ht'). cbn [mbind option_bind].
  destruct (IH t' ys' zs as' Ht' Hrun) as (t'' & -> & Ht''). by exists t''.
Qed.

(** ** Properties *)

(** C8: a table created for up to 2^31 entries answers every sequence of additions, removals,
    searches and clearings exactly as a list of distinct entries would, without undefined behaviour
    and with every search of a bucket ending, while it holds fewer than 2^31 entries; it is left
    well formed, holding the entries of the list. *)
Theorem hashtable_refines_list InitialCapacity ops xs answers :
  0 <= InitialCapacity <= 2 ^ 31 -> run list_step [] ops = Some (xs, answers) ->
  exists t, run table_step (PhCreateHashtable InitialCapacity) ops = Some (t, answers) /\ holds t xs.
Proof.
  intros HIC. destruct (create_wf InitialCapacity HIC) as [Hwf Hel].
  apply (run_spec ops (PhCreateHashtable InitialCapacity) [] xs answers). split; [done|by rewrite Hel].
Qed.

(** a caller's [PhEnumHashtable] loop terminates: with one call per entry and one more for the
    final FALSE it is given every entry of the table once, and stepping over removed entries never
    leaves the array. *)
Theorem hashtable_enumeration_terminates t :
  wf t -> enum_all (S (Z.to_nat (Count t))) t 0 = Some (elements t).
Proof.
  intros Hwf. assert (E : elements_from t 0 = elements t) by (unfold elements_from, elements; by rewrite Z.sub_0_r).
  rewrite <- E. apply enum_all_spec; [done|done|]. rewrite E, (wf_count t Hwf). lia.
Qed.

End table.

(** ** Rounding up, against a doubling loop *)

Fixpoint first_power (fuel : nat) (p N : Z) : Z :=
  match fuel with
  | O => p
  | S fuel => if N <=? p then p else first_power fuel (2 * p) N
  end.

(** The first of 1, 2, 4, ... not below [N], as 32 bits hold it. *)
Definition next_power_of_two (N : Z) : Z := if N =? 0 then 0 else u32 (first_power 33 1 N).

Lemma first_power_eq N : 0 < N -> forall fuel k, 0 <= k -> k <= Z.log2_up N -> Z.log2_up N < k + Z.of_nat fuel ->
  first_power fuel (2 ^ k) N = 2 ^ Z.log2_up N.
Proof.
  intros HN. induction fuel as [|fuel IH]; intros k Hk Hle Hlt; [lia|]. cbn [first_power].
  destruct (Z.leb_spec N (2 ^ k)) as [H|H].
  - assert (Z.log2_up N <= k) by (apply Z.log2_up_le_pow2; lia). f_equal. lia.
  - rewrite <- Z.pow_succ_r by lia. assert (k < Z.log2_up N).
    { destruct (decide (k = Z.log2_up N)) as [->|]; [|lia]. pose proof (Z.log2_log2_up_spec N HN). lia. }
    apply IH; lia.
Qed.

(** the shift-and-or rounding of [PhRoundUpToPowerOfTwo] computes, for every 32-bit argument,
    what the doubling loop computes: the least power of two not below the argument, which wraps to
    0 above 2^31, and 0 for 0. *)
Theorem round_up_is_next_power Number :
  0 <= Number < 2 ^ 32 -> PhRoundUpToPowerOfTwo Number = next_power_of_two Number.
Proof.
  intros HN. rewrite round_up_eq by done. unfold next_power_of_two. destruct (Z.eqb_spec Number 0); [done|].
  change (first_power 33 1 Number) with (first_power 33 (2 ^ 0) Number). rewrite first_power_eq; [done|lia|done|apply Z.log2_up_nonneg|].
  assert (Z.log2_up Number <= 32) by (apply Z.log2_up_le_pow2; lia). lia.
Qed.

Lemma round_up_is_next_power_witness : PhRoundUpToPowerOfTwo 0x80000001 = 0.
Proof. apply (round_up_is_next_power 0x80000001). lia. Defined.

(** ** Tables of pointers by pointer *)

Record PH_KEY_VALUE_PAIR := { Key : Z; Value : Z }.

Definition PhHashInt64 (Value : Z) : Z :=
  let Value := Z.lnot Value +₆₄ Z.shiftl Value 18 in
  let Value := Z.lxor Value (Z.shiftr Value 31) in
  let Value := u64 (Value * 21) in
  let Value := Z.lxor Value (Z.shiftr Value 11) in
  let Value := Value +₆₄ Z.shiftl Value 6 in
  let Value := Z.lxor Value (Z.shiftr Value 22) in
  u32 Value.

Definition PhpSimpleHashtableEqualFunction (Entry1 Entry2 : PH_KEY_VALUE_PAIR) : bool := Key Entry1 =? Key Entry2.
Definition PhpSimpleHashtableHashFunction (Entry : PH_KEY_VALUE_PAIR) : Z := PhHashInt64 (Key Entry).

Abbreviation SIMPLE := (PH_HASHTABLE PH_KEY_VALUE_PAIR).

Definition PhCreateSimpleHashtable (InitialCapacity : Z) : SIMPLE := PhCreateHashtable InitialCapacity.

(** The value added, or NULL. *)
Definition PhAddItemSimpleHashtable (t : SIMPLE) (key value : Z) : ub (SIMPLE * Z) :=
  '(t, i) ← PhAddEntryHashtable PhpSimpleHashtableEqualFunction PhpSimpleHashtableHashFunction t {| Key := key; Value := value |};
  Some (t, match i with Some _ => value | None => 0 end).

(** The entry whose value is pointed to. The value of the lookup entry is not initialised; no
    function reads it. *)
Definition PhFindItemSimpleHashtable (t : SIMPLE) (key : Z) : ub (option Z) :=
  PhFindEntryHashtable PhpSimpleHashtableEqualFunction PhpSimpleHashtableHashFunction t {| Key := key; Value := 0 |}.

Definition PhRemoveItemSimpleHashtable (t : SIMPLE) (key : Z) : ub (SIMPLE * bool) :=
  PhRemoveEntryHashtable PhpSimpleHashtableEqualFunction PhpSimpleHashtableHashFunction t {| Key := key; Value := 0 |}.

#[global] Instance simple_laws : HashLaws PhpSimpleHashtableEqualFunction PhpSimpleHashtableHashFunction.
Proof.
  split; unfold PhpSimpleHashtableEqualFunction, PhpSimpleHashtableHashFunction.
  - intros a b H%Z.eqb_eq. by rewrite H, Z.eqb_refl.
  - intros a b c H1%Z.eqb_eq H2%Z.eqb_eq. by rewrite H1, H2, Z.eqb_refl.
  - intros a b H%Z.eqb_eq. by rewrite H.
Qed.

(** The map from keys to values a table of pairs stands for. *)
Definition represents (t : SIMPLE) (m : gmap Z Z) : Prop :=
  wf PhpSimpleHashtableEqualFunction PhpSimpleHashtableHashFunction t /\
  forall k v, m !! k = Some v <-> {| Key := k; Value := v |} ∈ elements t.

Lemma represents_no t m k : represents t m ->
  (forall a, a ∈ elements t -> PhpSimpleHashtableEqualFunction a {| Key := k; Value := 0 |} = false) <-> m !! k = None.
Proof.
  intros [_ Hm]. unfold PhpSimpleHashtableEqualFunction. cbn [Key]. split.
  - intros Hno. destruct (m !! k) as [v|] eqn:E; [|done]. apply Hm, Hno in E. cbn [Key] in E. by rewrite Z.eqb_refl in E.
  - intros E [k' v'] Ha. cbn [Key]. apply Z.eqb_neq. intros ->. apply Hm in Ha. congruence.
Qed.

Lemma simple_find t m k : represents t m ->
  exists i, PhFindItemSimpleHashtable t k = Some i /\
    match i with
    | Some i => exists v, m !! k = Some v /\ live_body (Entries t) i = Some {| Key := k; Value := v |}
    | None => m !! k = None
    end.
Proof.
  intros Ht. pose proof Ht as [Hwf Hm]. unfold PhFindItemSimpleHashtable.
  destruct (table_find_spec _ _ t {| Key := k; Value := 0 |} Hwf) as [[-> Hno]|(i & [k' v] & -> & Hi & Hl & Ha & Heq)].
  - exists None. split; [done|]. by apply (represents_no t m k Ht).
  - apply Z.eqb_eq in Heq. cbn [Key] in Heq. subst k'. exists (Some i). split; [done|]. exists v. split; [by apply Hm|done].
Qed.

Lemma simple_add t m k v : represents t m -> Z.of_nat (length (elements t)) < 2 ^ 31 ->
  exists t', PhAddItemSimpleHashtable t k v = Some (t', if decide (m !! k = None) then v else 0) /\
    represents t' (if decide (m !! k = None) then <[k := v]> m else m).
Proof.
  intros Ht Hlen. pose proof Ht as [Hwf Hm]. unfold PhAddItemSimpleHashtable, PhAddEntryHashtable.
  destruct (table_add_spec _ _ t {| Key := k; Value := v |} Hwf Hlen) as [(i & [k' v'] & -> & Ha & Heq & _)|(t' & i & -> & Hwf' & Hp & Hno & _)];
    cbn [mbind option_bind].
  - apply Z.eqb_eq in Heq. cbn [Key] in Heq. subst k'. exists t.
    rewrite !decide_False by (intros E; apply Hm in Ha; congruence). done.
  - exists t'. assert (E : m !! k = None) by (apply (represents_no t m k Ht); exact Hno). rewrite !decide_True by done.
    split; [done|]. split; [done|]. intros x w. rewrite Hp, elem_of_cons.
    destruct (decide (x = k)) as [->|Hx].
    + rewrite lookup_insert_eq. split; [by intros [= <-]; left|]. intros [[= <-]|Hin]; [done|]. apply Hm in Hin. congruence.
    + rewrite lookup_insert_ne by congruence. rewrite Hm. split; [by right|]. intros [[= -> ->]|Hin]; done.
Qed.

Lemma simple_remove t m k : represents t m ->
  exists t', PhRemoveItemSimpleHashtable t k = Some (t', bool_decide (is_Some (m !! k))) /\ represents t' (delete k m).
Proof.
  intros Ht. pose proof Ht as [Hwf Hm]. unfold PhRemoveItemSimpleHashtable.
  destruct (table_remove_spec _ _ t {| Key := k; Value := 0 |} Hwf) as [[-> Hno]|(t' & [k' v] & -> & Hwf' & Heq & Hp & Hno)].
  - apply (represents_no t m k Ht) in Hno. exists t. rewrite bool_decide_false by (rewrite Hno; by intros []).
    rewrite delete_id by done. done.
  - apply Z.eqb_eq in Heq. cbn [Key] in Heq. subst k'.
    assert (E : m !! k = Some v) by (apply Hm; rewrite Hp; by left).
    exists t'. rewrite bool_decide_true by eauto. split; [done|]. split; [done|]. intros x w.
    destruct (decide (x = k)) as [->|Hx].
    + rewrite lookup_delete_eq. split; [done|]. intros Hin%Hno. unfold PhpSimpleHashtableEqualFunction in Hin. cbn [Key] in Hin. by rewrite Z.eqb_refl in Hin.
    + rewrite lookup_delete_ne by congruence. rewrite Hm, Hp, elem_of_cons. split; [|by right]. intros [[= -> ->]|Hin]; done.
Qed.

(** ** Capacities beyond 2^31

    The rounding wraps to 0: the table has no buckets, and the first addition reads past them. *)
Lemma capacity_overflow InitialCapacity E :
  2 ^ 31 < InitialCapacity < 2 ^ 32 -> PhAddItemSimpleHashtable (PhCreateSimpleHashtable InitialCapacity) E E = None.
Proof.
  intros HIC. unfold PhCreateSimpleHashtable, PhCreateHashtable, PhpGetNumberOfBuckets.
  rewrite (proj2 (Z.eqb_neq InitialCapacity 0)), round_up_eq, (proj2 (Z.eqb_neq InitialCapacity 0)) by lia.
  replace (Z.log2_up InitialCapacity) with 32; [by destruct E|].
  assert (31 < Z.log2_up InitialCapacity) by (apply Z.log2_up_lt_pow2; lia).
  assert (Z.log2_up InitialCapacity <= 32) by (apply Z.log2_up_le_pow2; lia). lia.
Qed.

(** ** Concrete tables *)

(** Small keys that share buckets, a full table that grows, reuse of a removed entry, a duplicate. *)
Definition demo_pair (k : Z) : PH_KEY_VALUE_PAIR := {| Key := k; Value := 10 * k |}.
Definition demo_ops : list call :=
  [Add (demo_pair 1); Add (demo_pair 2); Add (demo_pair 3); Remove (demo_pair 2); Add (demo_pair 4); Add (demo_pair 1); Find (demo_pair 3); Find (demo_pair 2)].
Definition demo_answers : list answer :=
  [Added true; Added true; Added true; Removed true; Added true; Added false; Found (Some (demo_pair 3)); Found None].
Definition demo_list : list PH_KEY_VALUE_PAIR := [demo_pair 4; demo_pair 3; demo_pair 1].

Definition demo : SIMPLE :=
  default (PhCreateSimpleHashtable 2)
    (fst <$> run (table_step PhpSimpleHashtableEqualFunction PhpSimpleHashtableHashFunction) (PhCreateSimpleHashtable 2) demo_ops).

Lemma hashtable_refines_list_witness :
  exists t, run (table_step PhpSimpleHashtableEqualFunction PhpSimpleHashtableHashFunction) (PhCreateHashtable 2) demo_ops = Some (t, demo_answers) /\
    holds PhpSimpleHashtableEqualFunction PhpSimpleHashtableHashFunction t demo_list.
Proof. apply (hashtable_refines_list _ _ 2); [lia|by vm_compute]. Defined.

Lemma demo_holds : holds PhpSimpleHashtableEqualFunction PhpSimpleHashtableHashFunction demo demo_list.
Proof.
  destruct (create_wf PhpSimpleHashtableEqualFunction PhpSimpleHashtableHashFunction 2 ltac:(lia)) as [Hwf Hel].
  destruct (run_spec PhpSimpleHashtableEqualFunction PhpSimpleHashtableHashFunction demo_ops (PhCreateHashtable 2) [] demo_list demo_answers)
    as (t & E & Ht); [by split; [|rewrite Hel]|by vm_compute|].
  unfold demo, PhCreateSimpleHashtable. by rewrite E.
Qed.

Lemma hashtable_enumeration_terminates_witness :
  enum_all 4 demo 0 = Some [demo_pair 1; demo_pair 4; demo_pair 3].
Proof.
  apply (hashtable_enumeration_terminates PhpSimpleHashtableEqualFunction PhpSimpleHashtableHashFunction demo), demo_holds.
Defined.

End Hashtable.
