(* ===== verification/CircBuf.v ===== *)
(** * Circular buffers: [phlib/include/circbuf_h.h], [phlib/circbuf_i.h]

    The newest item is at [Index] and older ones follow it, around the end of the block. The code is
    a template over the item type, compiled with [PH_CIRCULAR_BUFFER_POWER_OF_TWO_SIZE]; here the
    item type is a parameter, and a slot never written holds [None]. A buffer is proved against the
    list of its items, newest first, of which it keeps the first [Size].

    Growing a buffer assumes that its items reach the end of the block or wrap around it. A buffer
    that is empty, or has been grown and not filled since, may break this; the number of items after
    the wrap is then negative and the copy overruns both blocks ([grow_keeps_or_overruns]). No caller in the
    repository resizes a buffer. *)

From S2P Require Import Prelude Hashtable.

Module CircBuf.

Section items.
Context {T : Type}.

Record buffer := {
  Size : Z;
  SizeMinusOne : Z;
  Count : Z;
  Index : Z;
  Data : list (option T);
}.

Implicit Types (b : buffer) (l : list T).

(** [memcpy] of [n] items between two blocks. *)
Definition copy_items (dst : list (option T)) (d : Z) (src : list (option T)) (s n : Z) : ub (list (option T)) :=
  items ← load_block src (Z.to_nat s) (Z.to_nat n); store_block dst (Z.to_nat d) items.

Definition PhInitializeCircularBuffer (n : Z) : buffer :=
  let size := Hashtable.PhRoundUpToPowerOfTwo n in
  {| Size := size; SizeMinusOne := size -₃₂ 1; Count := 0; Index := 0; Data := replicate (Z.to_nat size) None |}.

Definition PhResizeCircularBuffer (b : buffer) (n : Z) : ub buffer :=
  let NewSize := Hashtable.PhRoundUpToPowerOfTwo n in
  if NewSize =? Size b then Some b else
  let newData := replicate (Z.to_nat NewSize) None in
  let tailSize := Size b -₃₂ Index b in
  let headSize := Count b -₃₂ tailSize in
  if Size b <? NewSize then
    d ← copy_items newData 0 (Data b) (Index b) tailSize;
    d ← copy_items d tailSize (Data b) 0 headSize;
    Some {| Size := NewSize; SizeMinusOne := NewSize -₃₂ 1; Count := Count b; Index := 0; Data := d |}
  else
    d ← (if NewSize <=? tailSize then copy_items newData 0 (Data b) (Index b) NewSize
         else d ← copy_items newData 0 (Data b) (Index b) tailSize;
              copy_items d tailSize (Data b) 0 (NewSize -₃₂ tailSize));
    Some {| Size := NewSize; SizeMinusOne := NewSize -₃₂ 1;
            Count := if NewSize <? Count b then NewSize else Count b; Index := 0; Data := d |}.

Definition PhClearCircularBuffer (b : buffer) : buffer :=
  {| Size := Size b; SizeMinusOne := SizeMinusOne b; Count := 0; Index := 0; Data := Data b |}.

(** What is written to [Destination]. *)
Definition PhCopyCircularBuffer (b : buffer) (Destination : list (option T)) (n : Z) : ub (list (option T)) :=
  let tailSize := Size b -₃₂ Index b in
  let n := if Count b <? n then Count b else n in
  if n <=? tailSize then copy_items Destination 0 (Data b) (Index b) n
  else d ← copy_items Destination 0 (Data b) (Index b) tailSize;
       copy_items d tailSize (Data b) 0 (n -₃₂ tailSize).

(** [(Buffer->Index + i) & Buffer->SizeMinusOne]: the sum is a LONG, which must not overflow; the
    conjunction is of ULONGs. *)
Definition slot (b : buffer) (i : Z) : ub Z :=
  let sum := Index b + i in
  if (- 2 ^ 31 <=? sum) && (sum <? 2 ^ 31) then Some (Z.land (u32 sum) (SizeMinusOne b)) else None.

Definition write (b : buffer) (j : Z) (v : T) : ub (list (option T)) :=
  if decide (Z.to_nat j < length (Data b))%nat then Some (<[Z.to_nat j := Some v]> (Data b)) else None.

(** The item read, [None] in a slot never written. *)
Definition PhGetItemCircularBuffer (b : buffer) (i : Z) : ub (option T) :=
  j ← slot b i; Data b !! Z.to_nat j.

Definition PhSetItemCircularBuffer (b : buffer) (i : Z) (v : T) : ub buffer :=
  j ← slot b i; d ← write b j v;
  Some {| Size := Size b; SizeMinusOne := SizeMinusOne b; Count := Count b; Index := Index b; Data := d |}.

Definition PhAddItemCircularBuffer (b : buffer) (v : T) : ub buffer :=
  j ← slot b (-1); d ← write b j v;
  Some {| Size := Size b; SizeMinusOne := SizeMinusOne b;
          Count := if Count b <? Size b then Count b +₃₂ 1 else Count b; Index := signed 32 j; Data := d |}.

(** The buffer and the previous contents of the slot. *)
Definition PhAddItemCircularBuffer2 (b : buffer) (v : T) : ub (buffer * option T) :=
  j ← slot b (-1);
  let index := signed 32 j in
  old ← Data b !! Z.to_nat index; d ← write b index v;
  Some ({| Size := Size b; SizeMinusOne := SizeMinusOne b;
           Count := if Count b <? Size b then Count b +₃₂ 1 else Count b; Index := index; Data := d |}, old).

(** ** Contents *)

Definition wf b : Prop :=
  (exists k, 0 <= k <= 30 /\ Size b = 2 ^ k) /\ SizeMinusOne b = Size b - 1 /\
  0 <= Count b <= Size b /\ 0 <= Index b < Size b /\ length (Data b) = Z.to_nat (Size b).

(** The block read from [Index] on, around its end. *)
Definition rotation b : list (option T) :=
  drop (Z.to_nat (Index b)) (Data b) ++ take (Z.to_nat (Index b)) (Data b).

Definition holds b l : Prop := wf b /\ take (Z.to_nat (Count b)) (rotation b) = Some <$> l.

Lemma wf_bounds b : wf b -> 0 < Size b <= 2 ^ 30.
Proof.
  intros ((k & Hk & ->) & _). split; [apply Z.pow_pos_nonneg; lia|]. apply Z.pow_le_mono_r; lia.
Qed.

Lemma length_rotation b : wf b -> length (rotation b) = Z.to_nat (Size b).
Proof. intros (_ & _ & _ & ? & Hl). unfold rotation. lens. Qed.

Lemma holds_count b l : holds b l -> Z.of_nat (length l) = Count b.
Proof.
  intros (Hwf & Ht). pose proof (length_rotation b Hwf). destruct Hwf as (_ & _ & ? & _).
  apply (f_equal length) in Ht. rewrite length_fmap, length_take in Ht. lia.
Qed.

Lemma rotation_lookup b i : wf b -> 0 <= i < Size b ->
  rotation b !! Z.to_nat i = Data b !! Z.to_nat ((Index b + i) mod Size b).
Proof.
  intros (_ & _ & _ & HI & Hl) Hi. unfold rotation.
  destruct (decide (Index b + i < Size b)) as [Hlt|Hge].
  - rewrite Z.mod_small, lookup_app_l, lookup_drop by (lens; lia). f_equal. lia.
  - replace ((Index b + i) mod Size b) with (Index b + i - Size b).
    + rewrite lookup_app_r, length_drop, lookup_take_lt by (lens; lia). f_equal. lia.
    + apply (Z.mod_unique_pos _ _ 1); lia.
Qed.

Lemma holds_lookup b l i x : holds b l -> l !! i = Some x ->
  Data b !! Z.to_nat ((Index b + Z.of_nat i) mod Size b) = Some (Some x).
Proof.
  intros Hh Hi. pose proof (holds_count b l Hh). destruct Hh as (Hwf & Ht).
  pose proof (lookup_lt_Some _ _ _ Hi). pose proof Hwf as (_ & _ & ? & _).
  rewrite <- rotation_lookup, Nat2Z.id by (done || lia).
  rewrite <- (lookup_take_lt _ (Z.to_nat (Count b))), Ht, list_lookup_fmap, Hi by lia. done.
Qed.

Lemma holds_intro b l : wf b -> Count b = Z.of_nat (length l) ->
  (forall i x, l !! i = Some x -> Data b !! Z.to_nat ((Index b + Z.of_nat i) mod Size b) = Some (Some x)) -> holds b l.
Proof.
  intros Hwf Hc Hl. split; [done|]. pose proof Hwf as (_ & _ & ? & _). pose proof (length_rotation b Hwf).
  rewrite Hc, Nat2Z.id. apply list_eq. intros i. rewrite list_lookup_fmap.
  destruct (l !! i) as [x|] eqn:Hi; simpl.
  - pose proof (lookup_lt_Some _ _ _ Hi). rewrite lookup_take_lt by lia. rewrite <- (Nat2Z.id i), rotation_lookup by (done || lia). auto.
  - apply lookup_ge_None in Hi. apply lookup_take_ge. lia.
Qed.

(** Different positions are different slots. *)
Lemma slots_differ s a i j : 0 < s -> 0 <= i < s -> 0 <= j < s -> (a + i) mod s = (a + j) mod s -> i = j.
Proof.
  intros Hs Hi Hj E. assert (Hd : (i - j) mod s = 0).
  { replace (i - j) with ((a + i) - (a + j)) by lia. by rewrite Zminus_mod, E, Z.sub_diag. }
  pose proof (Z.div_mod (i - j) s ltac:(lia)). assert (-1 < (i - j) / s < 1) by nia. nia.
Qed.

Lemma slot_eq b i : wf b -> -1 <= i < Size b -> slot b i = Some ((Index b + i) mod Size b).
Proof.
  intros Hwf Hi. pose proof (wf_bounds b Hwf) as Hs. destruct Hwf as ((k & Hk & Ek) & Em & _ & HI & _).
  unfold slot. cbv zeta. replace ((- 2 ^ 31 <=? Index b + i) && (Index b + i <? 2 ^ 31)) with true by lia.
  f_equal. rewrite Em, Ek, Z.sub_1_r, <- Z.ones_equiv, Z.land_ones by lia. unfold u32.
  rewrite Z.mod_mod_divide; [done|]. exists (2 ^ (32 - k)). rewrite <- Z.pow_add_r by lia. f_equal. lia.
Qed.

Lemma slot_range b i : wf b -> 0 <= (Index b + i) mod Size b < Size b.
Proof. intros Hwf. pose proof (wf_bounds b Hwf). apply Z.mod_pos_bound. lia. Qed.

Lemma write_eq b i v : wf b -> write b ((Index b + i) mod Size b) v = Some (<[Z.to_nat ((Index b + i) mod Size b) := Some v]> (Data b)).
Proof.
  intros Hwf. pose proof (slot_range b i Hwf). destruct Hwf as (_ & _ & _ & _ & Hl). unfold write. by rewrite decide_True by lia.
Qed.

(** ** Adding, reading, writing *)

Lemma round_up_small n : 1 <= n <= 2 ^ 30 ->
  exists k, 0 <= k <= 30 /\ Hashtable.PhRoundUpToPowerOfTwo n = 2 ^ k /\ n <= 2 ^ k < 2 * n.
Proof.
  intros Hn. exists (Z.log2_up n). pose proof (Z.log2_up_nonneg n).
  assert (Hk : Z.log2_up n <= 30) by (apply Z.log2_up_le_pow2; lia).
  assert (H2 : 2 ^ Z.log2_up n < 2 * n).
  { destruct (decide (n = 1)) as [->|Hne]; [done|]. pose proof (Z.log2_up_spec n ltac:(lia)) as (Hlt & _).
    rewrite <- (Z.succ_pred (Z.log2_up n)), Z.pow_succ_r; [lia|]. pose proof (Z.log2_up_pos n ltac:(lia)). lia. }
  split; [lia|]. split; [|split; [apply Z.log2_log2_up_spec; lia|done]].
  rewrite Hashtable.round_up_eq by lia. rewrite (proj2 (Z.eqb_neq n 0)) by lia. apply u32_id. split; [apply Z.pow_nonneg; lia|]. lia.
Qed.

(** A block of a power-of-two size with its items at its start. *)
Lemma fresh_wf b n : 1 <= n <= 2 ^ 30 -> Size b = Hashtable.PhRoundUpToPowerOfTwo n -> SizeMinusOne b = Size b -₃₂ 1 ->
  Index b = 0 -> 0 <= Count b <= Size b -> length (Data b) = Z.to_nat (Size b) -> wf b.
Proof.
  intros Hn Es Em Ei Hc Hl. destruct (round_up_small n Hn) as (k & Hk & Ek & Hle & _). rewrite Ek in Es.
  assert (2 ^ k <= 2 ^ 30) by (apply Z.pow_le_mono_r; lia).
  split; [by exists k|]. split; [rewrite Em; width; lia|]. split; [done|]. split; [lia|done].
Qed.

Lemma new_holds n : 1 <= n <= 2 ^ 30 -> holds (PhInitializeCircularBuffer n) [].
Proof.
  intros Hn. destruct (round_up_small n Hn) as (k & Hk & Ek & Hle & _).
  split; [|done]. apply (fresh_wf _ n); simpl; try done; [lia|by rewrite length_replicate].
Qed.

Lemma get_holds b l i x : holds b l -> l !! i = Some x -> PhGetItemCircularBuffer b (Z.of_nat i) = Some (Some x).
Proof.
  intros Hh Hi. pose proof (holds_count b l Hh). pose proof (lookup_lt_Some _ _ _ Hi). destruct Hh as (Hwf & Ht).
  unfold PhGetItemCircularBuffer. rewrite slot_eq by (done || (destruct Hwf as (_ & _ & ? & _); lia)). by apply (holds_lookup b l).
Qed.

Lemma set_holds b l i v : holds b l -> (i < length l)%nat ->
  exists b', PhSetItemCircularBuffer b (Z.of_nat i) v = Some b' /\ holds b' (<[i := v]> l) /\ Size b' = Size b.
Proof.
  intros Hh Hi. pose proof (holds_count b l Hh) as Hc. pose proof Hh as (Hwf & _). pose proof (wf_bounds b Hwf).
  pose proof Hwf as (Hs & Hm & Hcb & HI & Hl). unfold PhSetItemCircularBuffer.
  rewrite slot_eq by (done || lia). simpl. rewrite write_eq by done. simpl. eexists. split; [done|]. split; [|done].
  apply holds_intro; simpl; [split_and!; simpl; try done; try lia; by rewrite length_insert|by rewrite length_insert, Hc|].
  intros j y [(-> & -> & _)|(Hne & Hy)]%list_lookup_insert_Some.
  - apply list_lookup_insert_eq. pose proof (slot_range b (Z.of_nat j) Hwf). lia.
  - rewrite list_lookup_insert_ne; [by apply (holds_lookup b l)|]. intros E. apply Hne.
    pose proof (lookup_lt_Some _ _ _ Hy). pose proof (slot_range b (Z.of_nat j) Hwf). pose proof (slot_range b (Z.of_nat i) Hwf).
    assert (Z.of_nat i = Z.of_nat j) by (apply (slots_differ (Size b) (Index b)); lia). lia.
Qed.

(** The new item is put before the newest; when the buffer is full the oldest gives way. *)
Definition pushed b (v : T) : buffer :=
  let j := (Index b - 1) mod Size b in
  {| Size := Size b; SizeMinusOne := SizeMinusOne b; Count := Z.min (Count b + 1) (Size b); Index := j;
     Data := <[Z.to_nat j := Some v]> (Data b) |}.

Lemma add_eq b v : wf b -> PhAddItemCircularBuffer b v = Some (pushed b v).
Proof.
  intros Hwf. pose proof (wf_bounds b Hwf). pose proof (slot_range b (-1) Hwf). unfold PhAddItemCircularBuffer.
  rewrite slot_eq by (done || lia). simpl. rewrite write_eq by done. simpl. unfold pushed. destruct Hwf as (_ & _ & Hc & _). f_equal. f_equal.
  - destruct (Z.ltb_spec (Count b) (Size b)); width; lia.
  - rewrite signed_id by lia. done.
Qed.

Lemma add2_eq b v : wf b ->
  exists old, Data b !! Z.to_nat ((Index b - 1) mod Size b) = Some old /\ PhAddItemCircularBuffer2 b v = Some (pushed b v, old).
Proof.
  intros Hwf. pose proof (wf_bounds b Hwf). pose proof (slot_range b (-1) Hwf) as Hr. pose proof Hwf as (_ & _ & Hc & _ & Hl).
  destruct (lookup_lt_is_Some_2 (Data b) (Z.to_nat ((Index b + -1) mod Size b)) ltac:(lia)) as (old & Ho).
  exists old. split; [done|]. unfold PhAddItemCircularBuffer2.
  rewrite slot_eq by (done || lia). simpl. rewrite signed_id by lia. rewrite Ho. simpl. rewrite write_eq by done. simpl.
  unfold pushed. do 3 f_equal. destruct (Z.ltb_spec (Count b) (Size b)); width; lia.
Qed.

Lemma pushed_holds b l v : holds b l -> holds (pushed b v) (take (Z.to_nat (Size b)) (v :: l)).
Proof.
  intros Hh. pose proof (holds_count b l Hh) as Hc. pose proof Hh as (Hwf & _). pose proof (wf_bounds b Hwf).
  pose proof Hwf as (Hs & Hm & Hcb & HI & Hl). pose proof (slot_range b (-1) Hwf) as Hr. change (Index b + -1) with (Index b - 1) in Hr.
  apply holds_intro; simpl.
  - split_and!; simpl; try done; try lia. by rewrite length_insert.
  - rewrite length_take. simpl. lia.
  - intros i x Hi. destruct (decide (i < Z.to_nat (Size b))%nat) as [Hlt|]; [|by rewrite lookup_take_ge in Hi by lia].
    rewrite lookup_take_lt in Hi by done.
    rewrite Z.add_mod_idemp_l by lia. destruct i as [|i]; simpl in Hi.
    + rewrite Z.add_0_r. simplify_eq. apply list_lookup_insert_eq. lia.
    + replace (Index b - 1 + Z.of_nat (S i)) with (Index b + Z.of_nat i) by lia.
      rewrite list_lookup_insert_ne; [by apply (holds_lookup b l)|]. intros E.
      pose proof (slot_range b (Z.of_nat i) Hwf).
      assert (E' : (Index b + (Size b - 1)) mod Size b = (Index b + Z.of_nat i) mod Size b).
      { replace (Index b + (Size b - 1)) with (Index b - 1 + 1 * Size b) by lia. rewrite Z_mod_plus_full. lia. }
      apply slots_differ in E'; lia.
Qed.

Lemma clear_holds b : wf b -> holds (PhClearCircularBuffer b) [].
Proof.
  intros Hwf. pose proof (wf_bounds b Hwf). destruct Hwf as (Hs & Hm & Hc & HI & Hl). split; [|done]. split_and!; simpl; try done; lia.
Qed.

(** ** Copying and resizing *)

Lemma copy_items_eq dst d src s n : (Z.to_nat d + Z.to_nat n <= length dst)%nat -> (Z.to_nat s + Z.to_nat n <= length src)%nat ->
  copy_items dst d src s n = Some (write_at dst (Z.to_nat d) (read_at src (Z.to_nat s) (Z.to_nat n))).
Proof.
  intros Hd Hs. unfold copy_items. rewrite load_block_Some by done. simpl. apply store_block_Some. by rewrite length_read_at.
Qed.

Lemma copy_items_none dst d src s n : (length src < Z.to_nat n)%nat -> copy_items dst d src s n = None.
Proof. intros Hs. unfold copy_items, load_block. rewrite decide_False by lia. done. Qed.

(** The block from [Index] to its end, then from its start: [n] items of the rotation. *)
Lemma copy_two b dst n : wf b -> 0 <= n <= Size b -> (Z.to_nat n <= length dst)%nat ->
  (if n <=? Size b -₃₂ Index b then copy_items dst 0 (Data b) (Index b) n
   else d ← copy_items dst 0 (Data b) (Index b) (Size b -₃₂ Index b);
        copy_items d (Size b -₃₂ Index b) (Data b) 0 (n -₃₂ (Size b -₃₂ Index b)))
  = Some (take (Z.to_nat n) (rotation b) ++ drop (Z.to_nat n) dst).
Proof.
  intros Hwf Hn Hd. pose proof (wf_bounds b Hwf). destruct Hwf as (_ & _ & _ & HI & Hl).
  rewrite (u32_id (Size b - Index b)) by (unfold in_width; lia). unfold rotation. destruct (Z.leb_spec n (Size b - Index b)).
  - rewrite copy_items_eq by lia. unfold write_at. change (Z.to_nat 0) with 0%nat. rewrite length_read_at by lia. simpl.
    rewrite take_app_le by (lens; lia). done.
  - rewrite u32_id by (unfold in_width; lia). rewrite copy_items_eq by lia. simpl.
    rewrite copy_items_eq by (rewrite ?length_write_at; rewrite ?length_read_at; lia).
    unfold write_at. change (Z.to_nat 0) with 0%nat. simpl. rewrite !length_read_at by lia.
    assert (Hr : length (read_at (Data b) (Z.to_nat (Index b)) (Z.to_nat (Size b - Index b))) = Z.to_nat (Size b - Index b)) by (apply length_read_at; lia).
    rewrite take_app_le, take_ge, drop_app_ge, drop_drop, Hr by lia.
    rewrite take_app_ge by (lens; lia). unfold read_at. rewrite drop_0, take_ge, <- app_assoc by (lens; lia).
    rewrite length_drop, take_take. repeat f_equal; lia.
Qed.

Lemma copy_eq b l dst n : holds b l -> 0 <= n < 2 ^ 32 -> (Z.to_nat n `min` length l <= length dst)%nat ->
  PhCopyCircularBuffer b dst n = Some ((Some <$> take (Z.to_nat n) l) ++ drop (length (take (Z.to_nat n) l)) dst).
Proof.
  intros Hh Hn Hd. pose proof (holds_count b l Hh). pose proof Hh as (Hwf & Ht). pose proof Hwf as (_ & _ & Hc & _).
  unfold PhCopyCircularBuffer. cbv zeta. set (m := if Count b <? n then Count b else n).
  assert (Hm : m = Z.min n (Count b)) by (unfold m; destruct (Z.ltb_spec (Count b) n); lia).
  rewrite copy_two by (done || lia). f_equal. rewrite length_take. f_equal; [|f_equal; lia].
  rewrite fmap_take, <- Ht, take_take. f_equal. lia.
Qed.

Definition resized b (s c : Z) (d : list (option T)) : buffer :=
  {| Size := s; SizeMinusOne := s -₃₂ 1; Count := c; Index := 0; Data := d |}.

Lemma resized_holds b n c l d : 1 <= n <= 2 ^ 30 -> length d = Z.to_nat (Hashtable.PhRoundUpToPowerOfTwo n) ->
  0 <= c <= Hashtable.PhRoundUpToPowerOfTwo n -> take (Z.to_nat c) d = Some <$> l ->
  holds (resized b (Hashtable.PhRoundUpToPowerOfTwo n) c d) l.
Proof.
  intros Hn Hl Hc Hd. split; [by apply (fresh_wf _ n)|]. unfold rotation. simpl. by rewrite drop_0, app_nil_r.
Qed.

Lemma shrink_holds b l n : holds b l -> 1 <= n <= 2 ^ 30 -> Hashtable.PhRoundUpToPowerOfTwo n <= Size b ->
  exists b', PhResizeCircularBuffer b n = Some b' /\ Size b' = Hashtable.PhRoundUpToPowerOfTwo n /\
    holds b' (take (Z.to_nat (Size b')) l).
Proof.
  intros Hh Hn Hle. destruct (round_up_small n Hn) as (k & Hk & Ek & Hk2 & _). pose proof (holds_count b l Hh) as Hc.
  pose proof Hh as (Hwf & Ht). pose proof (length_rotation b Hwf) as Hr. pose proof Hwf as (_ & _ & Hcb & _).
  unfold PhResizeCircularBuffer. cbv zeta. destruct (Z.eqb_spec (Hashtable.PhRoundUpToPowerOfTwo n) (Size b)) as [E|Hne].
  { exists b. split; [done|]. split; [done|]. rewrite take_ge by lia. done. }
  replace (Size b <? Hashtable.PhRoundUpToPowerOfTwo n) with false by lia.
  set (s := Hashtable.PhRoundUpToPowerOfTwo n) in *. rewrite copy_two by (done || rewrite ?length_replicate; lia). simpl.
  rewrite (drop_ge (replicate _ _)), app_nil_r by (rewrite length_replicate; lia).
  eexists. split; [done|]. simpl. split; [done|]. apply (resized_holds b); [done|rewrite length_take; fold s; lia|..]; fold s.
  - destruct (Z.ltb_spec s (Count b)); lia.
  - rewrite fmap_take, <- Ht, !take_take. f_equal. destruct (Z.ltb_spec s (Count b)); lia.
Qed.

(** Growing: the code takes [Count - (Size - Index)] items from the start of the block. *)
Lemma grow_holds b l n : holds b l -> 1 <= n <= 2 ^ 30 -> Size b < Hashtable.PhRoundUpToPowerOfTwo n -> Size b - Index b <= Count b ->
  exists b', PhResizeCircularBuffer b n = Some b' /\ Size b' = Hashtable.PhRoundUpToPowerOfTwo n /\ holds b' l.
Proof.
  intros Hh Hn Hlt Hg. destruct (round_up_small n Hn) as (k & Hk & Ek & Hk2 & _). pose proof (holds_count b l Hh) as Hc.
  pose proof Hh as (Hwf & Ht). pose proof (wf_bounds b Hwf) as Hs. pose proof (length_rotation b Hwf) as Hr. pose proof Hwf as (_ & _ & Hcb & HI & Hl).
  unfold PhResizeCircularBuffer. cbv zeta. set (s := Hashtable.PhRoundUpToPowerOfTwo n) in *.
  replace (s =? Size b) with false by lia. replace (Size b <? s) with true by lia.
  rewrite (u32_id (Size b - Index b)) by (unfold in_width; lia). rewrite (u32_id (Count b - _)) by (unfold in_width; lia).
  rewrite copy_items_eq by (rewrite ?length_replicate; lia). simpl.
  assert (Hr1 : length (read_at (Data b) (Z.to_nat (Index b)) (Z.to_nat (Size b - Index b))) = Z.to_nat (Size b - Index b)) by (apply length_read_at; lia).
  rewrite copy_items_eq; [|rewrite length_write_at, length_replicate by (rewrite ?Hr1, ?length_replicate; lia); lia|lia].
  simpl. eexists. split; [done|]. split; [done|]. apply (resized_holds b); fold s; [done| |lia|].
  - rewrite !length_write_at; rewrite ?length_read_at, ?length_write_at, ?length_replicate by (rewrite ?length_read_at, ?length_replicate; lia); lia.
  - rewrite <- Ht. unfold write_at at 1. change (Z.to_nat 0) with 0%nat. unfold write_at. simpl. rewrite Hr1.
    rewrite (take_app_le (read_at _ _ _) (drop _ _)), (take_ge (read_at _ _ _)) by lia.
    rewrite app_assoc, take_app_le by (rewrite length_app, Hr1, length_read_at; lia).
    unfold rotation, read_at. rewrite drop_0, (take_ge (drop _ _)) by (lens; lia).
    rewrite !take_app, !take_take, length_drop. f_equal. f_equal. lia.
Qed.

Lemma grow_overruns b n : wf b -> 1 <= n <= 2 ^ 30 -> Size b < Hashtable.PhRoundUpToPowerOfTwo n ->
  Count b < Size b - Index b -> PhResizeCircularBuffer b n = None.
Proof.
  intros Hwf Hn Hlt Hg. destruct (round_up_small n Hn) as (k & Hk & Ek & Hk2 & _). pose proof (wf_bounds b Hwf) as Hs. destruct Hwf as (_ & _ & Hcb & HI & Hl).
  unfold PhResizeCircularBuffer. cbv zeta. set (s := Hashtable.PhRoundUpToPowerOfTwo n) in *.
  replace (s =? Size b) with false by lia. replace (Size b <? s) with true by lia.
  rewrite (u32_id (Size b - Index b)) by (unfold in_width; lia).
  assert (Hu : u32 (Count b - (Size b - Index b)) = Count b - (Size b - Index b) + 2 ^ 32).
  { unfold u32. symmetry. apply (Z.mod_unique_pos _ _ (-1)); lia. }
  rewrite Hu. destruct (copy_items _ 0 _ _ _) as [d|]; [|done]. simpl. by rewrite copy_items_none by lia.
Qed.
(** The item that gives way when the buffer is full. *)
Lemma oldest b l : holds b l -> Count b = Size b -> Data b !! Z.to_nat ((Index b - 1) mod Size b) = last (Some <$> l).
Proof.
  intros Hh Hf. pose proof (holds_count b l Hh). pose proof Hh as (Hwf & _). pose proof (wf_bounds b Hwf).
  destruct (lookup_lt_is_Some_2 l (pred (length l)) ltac:(lia)) as (x & Hx).
  rewrite last_lookup, length_fmap, list_lookup_fmap, Hx. simpl. rewrite <- (holds_lookup b l _ x Hh Hx). do 2 f_equal.
  replace (Index b + Z.of_nat (pred (length l))) with (Index b - 1 + 1 * Size b) by lia. by rewrite Z_mod_plus_full.
Qed.

(** ** Sequences of calls *)

Inductive call :=
| Add (v : T)
| Add2 (v : T)
| Set_ (i : nat) (v : T)
| Get (i : nat)
| Clear
| Copy (n : Z)
| Resize (n : Z).

Definition exec b (c : call) : ub (buffer * list (option T)) :=
  match c with
  | Add v => b' ← PhAddItemCircularBuffer b v; Some (b', [])
  | Add2 v => '(b', old) ← PhAddItemCircularBuffer2 b v; Some (b', [old])
  | Set_ i v => b' ← PhSetItemCircularBuffer b (Z.of_nat i) v; Some (b', [])
  | Get i => x ← PhGetItemCircularBuffer b (Z.of_nat i); Some (b, [x])
  | Clear => Some (PhClearCircularBuffer b, [])
  | Copy n => d ← PhCopyCircularBuffer b (replicate (Z.to_nat (Z.min n (Count b))) None) n; Some (b, d)
  | Resize n => b' ← PhResizeCircularBuffer b n; Some (b', [])
  end.

Fixpoint exec_all b (cs : list call) : ub (buffer * list (list (option T))) :=
  match cs with
  | [] => Some (b, [])
  | c :: cs => '(b, r) ← exec b c; '(b, rs) ← exec_all b cs; Some (b, r :: rs)
  end.

(** A bounded history: at most [s] items, newest first. Growing is only asked of a full one. *)
Definition permitted (s : Z) l (c : call) : Prop :=
  match c with
  | Set_ i _ | Get i => (i < length l)%nat
  | Copy n => 0 <= n < 2 ^ 32
  | Resize n => 1 <= n <= 2 ^ 30 /\ (s < Hashtable.PhRoundUpToPowerOfTwo n -> Z.of_nat (length l) = s)
  | _ => True
  end.

Definition size_after (s : Z) (c : call) : Z := match c with Resize n => Hashtable.PhRoundUpToPowerOfTwo n | _ => s end.

Definition items_after (s : Z) l (c : call) : list T :=
  match c with
  | Add v | Add2 v => take (Z.to_nat s) (v :: l)
  | Set_ i v => <[i := v]> l
  | Clear => []
  | Resize n => take (Z.to_nat (size_after s c)) l
  | _ => l
  end.

Definition answered (s : Z) l (c : call) (r : list (option T)) : Prop :=
  match c with
  | Get i => r = [l !! i]
  | Copy n => r = Some <$> take (Z.to_nat n) l
  | Add2 _ => exists old, r = [old] /\ (Z.of_nat (length l) = s -> Some old = last (Some <$> l))
  | _ => r = []
  end.

Fixpoint history (s : Z) l (cs : list call) (rs : list (list (option T))) (s' : Z) (l' : list T) : Prop :=
  match cs, rs with
  | [], [] => s' = s /\ l' = l
  | c :: cs, r :: rs => answered s l c r /\ history (size_after s c) (items_after s l c) cs rs s' l'
  | _, _ => False
  end.

Fixpoint all_permitted (s : Z) l (cs : list call) : Prop :=
  match cs with
  | [] => True
  | c :: cs => permitted s l c /\ all_permitted (size_after s c) (items_after s l c) cs
  end.

Lemma resize_holds b l n : holds b l -> permitted (Size b) l (Resize n) ->
  exists b', PhResizeCircularBuffer b n = Some b' /\ Size b' = Hashtable.PhRoundUpToPowerOfTwo n /\ holds b' (take (Z.to_nat (Size b')) l).
Proof.
  intros Hh (Hn & Hg). pose proof (holds_count b l Hh) as Hc. destruct (Z.le_gt_cases (Hashtable.PhRoundUpToPowerOfTwo n) (Size b)) as [Hle|Hlt]; [by apply shrink_holds|].
  destruct (grow_holds b l n Hh Hn Hlt) as (b' & E & Es & Hh'); [destruct Hh as ((_ & _ & _ & ? & _) & _); lia|].
  exists b'. split; [done|]. split; [done|]. rewrite take_ge; [done|]. pose proof (holds_count b' l Hh'). destruct Hh' as ((_ & _ & ? & _) & _). lia.
Qed.

Lemma exec_holds b l c : holds b l -> permitted (Size b) l c ->
  exists b' r, exec b c = Some (b', r) /\ answered (Size b) l c r /\ Size b' = size_after (Size b) c /\ holds b' (items_after (Size b) l c).
Proof.
  intros Hh Hp. pose proof (holds_count b l Hh) as Hc. pose proof Hh as (Hwf & _). destruct c as [v|v|i v|i| |n|n]; simpl in *.
  - rewrite add_eq by done. simpl. do 2 eexists. split; [done|]. split; [done|]. split; [done|]. by apply pushed_holds.
  - destruct (add2_eq b v Hwf) as (old & Ho & E). rewrite E. simpl. do 2 eexists. split; [done|].
    split; [|split; [done|by apply pushed_holds]]. exists old. split; [done|]. intros Hf. rewrite <- Ho. apply oldest; [done|lia].
  - destruct (set_holds b l i v Hh Hp) as (b' & E & Hh' & Es). rewrite E. simpl. eauto 10.
  - destruct (lookup_lt_is_Some_2 l i Hp) as (x & Hx). rewrite (get_holds b l i x Hh Hx). simpl. exists b, [Some x]. by rewrite Hx.
  - do 2 eexists. split; [done|]. split; [done|]. split; [done|]. by apply clear_holds.
  - rewrite (copy_eq b l _ n Hh Hp) by (rewrite length_replicate; lia). simpl. do 2 eexists. split; [done|]. split; [|done].
    rewrite drop_ge, app_nil_r; [done|]. rewrite length_replicate, length_take. lia.
  - destruct (resize_holds b l n Hh Hp) as (b' & E & Es & Hh'). rewrite E. simpl. rewrite <- Es. eauto 10.
Qed.

Lemma exec_all_history cs : forall b l, holds b l -> all_permitted (Size b) l cs ->
  exists b' rs l', exec_all b cs = Some (b', rs) /\ history (Size b) l cs rs (Size b') l' /\ holds b' l'.
Proof.
  induction cs as [|c cs IH]; intros b l Hh Hp; simpl; [by exists b, [], l|]. destruct Hp as (Hc & Hp).
  destruct (exec_holds b l c Hh Hc) as (b1 & r & E & Ha & Es & Hh1). rewrite E. simpl.
  destruct (IH b1 _ Hh1 ltac:(by rewrite Es)) as (b2 & rs & l2 & E2 & H2 & Hh2). rewrite E2. simpl.
  exists b2, (r :: rs), l2. split; [done|]. by rewrite Es in H2.
Qed.

End items.

Arguments buffer : clear implicits.

(** ** The properties *)

(** C29: a circular buffer made for [n] items (1 to 2^30) is a bounded history. Whatever items are
    added, with either function, overwritten, read, copied out, or dropped by [PhClearCircularBuffer]
    and by resizing to a smaller size or, when the buffer is full, to a larger one, every access is
    inside the block and no index computation overflows; item [i] read is the [i]-th newest, a copy
    is the newest items in order, an addition to a full buffer drops the oldest item, which
    [PhAddItemCircularBuffer2] returns, and a smaller buffer keeps the newest items. *)
Theorem circular_buffer_refines_history {T} (n : Z) (cs : list (call (T := T))) :
  1 <= n <= 2 ^ 30 ->
  all_permitted (Size (T := T) (PhInitializeCircularBuffer n)) [] cs ->
  exists b rs l,
    exec_all (PhInitializeCircularBuffer n) cs = Some (b, rs) /\
    history (Size (T := T) (PhInitializeCircularBuffer n)) [] cs rs (Size b) l /\ holds b l.
Proof. intros Hn Hp. apply exec_all_history; [by apply new_holds|done]. Qed.

Definition sample : list (call (T := Z)) :=
  [Add 1; Add 2; Add2 3; Set_ 1 20; Get 1; Add 4; Copy 9; Resize 5; Add 5; Copy 3; Add2 6; Resize 2; Copy 9; Clear].

Lemma circular_buffer_refines_history_witness :
  (exists b, exec_all (PhInitializeCircularBuffer 3) sample =
    Some (b, [[]; []; [None]; []; [Some 20]; []; [Some 4; Some 3; Some 20; Some 1]; []; []; [Some 5; Some 4; Some 3]; [None]; [];
      [Some 6; Some 5]; []])) /\
  exists b rs l, exec_all (PhInitializeCircularBuffer 3) sample = Some (b, rs) /\
    history 4 [] sample rs (Size b) l /\ holds b l.
Proof.
  split; [eexists; vm_compute; reflexivity|]. apply (circular_buffer_refines_history 3 sample); [lia|].
  vm_compute. repeat split; try discriminate; try lia.
Defined.

(** resizing a buffer to a larger size keeps its items when they reach the end of the block
    (at least [Size - Index] of them, so always when the buffer is full or only additions were made
    since it was made and there was one); when they do not, as in an empty buffer or one grown
    before, the number of items after the wrap is computed as a negative number and the second copy
    leaves both blocks. *)
Theorem grow_keeps_or_overruns {T} (b : buffer T) l n :
  holds b l -> 1 <= n <= 2 ^ 30 -> Size b < Hashtable.PhRoundUpToPowerOfTwo n ->
  if Size b - Index b <=? Count b
  then exists b', PhResizeCircularBuffer b n = Some b' /\ Size b' = Hashtable.PhRoundUpToPowerOfTwo n /\ holds b' l
  else PhResizeCircularBuffer b n = None.
Proof.
  intros Hh Hn Hlt. destruct (Z.leb_spec (Size b - Index b) (Count b)); [by apply grow_holds|].
  destruct Hh as (Hwf & _). by apply grow_overruns.
Qed.

Lemma grow_keeps_or_overruns_witness : PhResizeCircularBuffer (PhInitializeCircularBuffer (T := Z) 4) 8 = None.
Proof.
  assert (Hh : holds (PhInitializeCircularBuffer (T := Z) 4) []) by (apply new_holds; lia).
  exact (grow_keeps_or_overruns (PhInitializeCircularBuffer (T := Z) 4) [] 8 Hh ltac:(lia) ltac:(by vm_compute)).
Defined.

End CircBuf.
