(* ===== verification/StringRef.v ===== *)
(** * Counted strings: [phlib/basesup.c]

    Searching, comparing, splitting and trimming strings of 16-bit units. A [PH_STRINGREF] is the
    list of its units ([Length] is twice their number), a cursor an index; an access outside the
    string is undefined. Where the code has a variant for processors with 128-bit instructions both
    variants are modelled ([PhHasIntrinsics]) and proved to be one plain reference function.

    [PhTrimStringRef] looks a unit up in a table by its low byte, and when the set has no unit above
    255 takes the answer as it is: trimming spaces and tabs also trims U+0120 ([trim_by_low_byte]).

    The variant without those instructions of the two character searches also calls [wcschr] and
    [wcsrchr] of the C library and discards the result. They read the memory from Buffer, or
    from the end of the string, up to a null unit: [after] is that memory, and when there is no
    null unit the call leaves it ([searches_are_reference]). *)

From S2P Require Import Prelude.

Module StringRef.

Definition SIZE_MAX : Z := 2 ^ 64 - 1.

(** ** 128-bit instructions on blocks of eight units *)

(** Equal lanes, for [PhCompareEqINT128by16] with a pattern of one unit. *)
Definition PhCompareEqINT128by16 (block : list Z) (c : Z) : list bool := (fun x => x =? c) <$> block.

(** Lanes of two units. *)
Fixpoint PhCompareEqINT128by32 (b1 b2 : list Z) : list bool :=
  match b1, b2 with
  | x1 :: y1 :: b1, x2 :: y2 :: b2 =>
      let e := (x1 =? x2) && (y1 =? y2) in e :: e :: PhCompareEqINT128by32 b1 b2
  | _, _ => []
  end.

(** One bit for each byte: two for each unit. *)
Fixpoint PhMoveMaskINT128by8 (lanes : list bool) : Z :=
  match lanes with
  | [] => 0
  | e :: lanes => (if e then 3 else 0) + 4 * PhMoveMaskINT128by8 lanes
  end.

Definition BitScanForward (mask : Z) : option Z :=
  if mask =? 0 then None else Some (Z.log2 (Z.land mask (- mask))).

Definition BitScanReverse (mask : Z) : option Z :=
  if mask =? 0 then None else Some (Z.log2 mask).

(** ** The C library's searches

    In the memory from the pointer on: up to the unit or a null unit; and up to the null unit. *)
Fixpoint wcschr (memory : list Z) (c : Z) : ub (option nat) :=
  match memory with
  | [] => None
  | x :: memory => if x =? c then Some (Some O) else if x =? 0 then Some None else i ← wcschr memory c; Some (option_map S i)
  end.

Fixpoint wcsrchr (memory : list Z) (c : Z) : ub (option nat) :=
  match memory with
  | [] => None
  | x :: memory =>
      let here := if x =? c then Some O else None in
      if x =? 0 then Some here else i ← wcsrchr memory c; Some (match i with Some i => Some (S i) | None => here end)
  end.

Section strings.
(** [RtlUpcaseUnicodeChar] is the system's; [PhHasIntrinsics] is set from the processor. [after] is the
    readable memory after the string that is searched for a character; [None] if its Buffer is NULL. *)
Context (PhUpcaseUnicodeChar : Z -> Z) (PhHasIntrinsics : bool) (after : option (list Z)).
Implicit Types (s t : list Z) (c : Z) (ic : bool).

Definition Length s : Z := 2 * Z.of_nat (length s).

(** ** Searching *)

(** The loop over whole blocks: the index returned, or the cursor and count it ends with. *)
Fixpoint find_block s c (pos length16 : nat) : ub (Z + nat) :=
  match length16 with
  | O => Some (inr pos)
  | S n =>
      block ← load_block s pos 8;
      match BitScanForward (PhMoveMaskINT128by8 (PhCompareEqINT128by16 block c)) with
      | Some index => Some (inl ((Length s - Z.of_nat length16 * 16) / 2 - Z.land (Length s / 2) 7 + index / 2))
      | None => find_block s c (pos + 8) n
      end
  end.

Fixpoint find_unit s (p : Z -> bool) (pos len : nat) : ub Z :=
  match len with
  | O => Some SIZE_MAX
  | S n => c ← s !! pos; if p c then Some (Length s / 2 - Z.of_nat len) else find_unit s p (pos + 1) n
  end.

Definition PhFindCharInStringRef s c ic : ub Z :=
  let len := Z.to_nat (Length s / 2) in
  if negb ic then
    if PhHasIntrinsics then
      r ← find_block s c 0 (Z.to_nat (Length s / 16));
      match r with
      | inl index => Some index
      | inr pos => find_unit s (fun x => x =? c) pos (Z.to_nat (Z.land (Z.of_nat len) 7))
      end
    else
      _ ← match after with Some memory => wcschr (s ++ memory) c | None => Some None end;
      find_unit s (fun x => x =? c) 0 len
  else find_unit s (fun x => PhUpcaseUnicodeChar x =? PhUpcaseUnicodeChar c) 0 len.

(** Backwards: the cursor is one past the units not yet looked at. *)
Fixpoint find_last_block s c (pos length16 : nat) : ub (Z + nat) :=
  match length16 with
  | O => Some (inr pos)
  | S n =>
      block ← (if (pos <? 8)%nat then None else load_block s (pos - 8) 8);
      match BitScanReverse (PhMoveMaskINT128by8 (PhCompareEqINT128by16 block c)) with
      | Some index => Some (inl ((Z.of_nat length16 - 1) * 16 / 2 + Z.land (Length s / 2) 7 + index / 2))
      | None => find_last_block s c (pos - 8) n
      end
  end.

Fixpoint find_last_unit s (p : Z -> bool) (pos len : nat) : ub Z :=
  match len with
  | O => Some SIZE_MAX
  | S n =>
      c ← (if (pos <? 1)%nat then None else s !! (pos - 1)%nat);
      if p c then Some (Z.of_nat len - 1) else find_last_unit s p (pos - 1) n
  end.

Definition PhFindLastCharInStringRef s c ic : ub Z :=
  let len := Z.to_nat (Length s / 2) in
  if negb ic then
    if PhHasIntrinsics then
      r ← find_last_block s c (length s) (Z.to_nat (Length s / 16));
      match r with
      | inl index => Some index
      | inr pos => find_last_unit s (fun x => x =? c) pos (Z.to_nat (Z.land (Z.of_nat len) 7))
      end
    else
      _ ← match after with Some memory => wcsrchr memory c | None => Some None end;
      find_last_unit s (fun x => x =? c) (length s) len
  else find_last_unit s (fun x => PhUpcaseUnicodeChar x =? PhUpcaseUnicodeChar c) (length s) len.

(** ** Comparing *)

Definition same ic c1 c2 : bool :=
  (c1 =? c2) || (ic && (PhUpcaseUnicodeChar c1 =? PhUpcaseUnicodeChar c2)).

Fixpoint compare_units s1 s2 ic (pos len : nat) : ub (option Z) :=
  match len with
  | O => Some None
  | S n =>
      c1 ← s1 !! pos; c2 ← s2 !! pos;
      if same ic c1 c2 then compare_units s1 s2 ic (pos + 1) n
      else Some (Some (if ic then PhUpcaseUnicodeChar c1 - PhUpcaseUnicodeChar c2 else c1 - c2))
  end.

(** The lengths are in bytes; the difference is cast to a LONG. *)
Definition PhCompareStringRef s1 s2 ic : ub Z :=
  r ← compare_units s1 s2 ic 0 (Z.to_nat (Z.min (Length s1) (Length s2) / 2));
  Some (match r with Some d => d | None => signed 32 (Length s1 - Length s2) end).

(** Blocks of [w] units, told apart by [eq]: the cursor of the first that differs with the number
    of blocks left, or the cursor at the end. *)
Fixpoint equal_block (eq : list Z -> list Z -> bool) (w : nat) s1 s2 (pos n : nat) : ub (nat * nat + nat) :=
  match n with
  | O => Some (inr pos)
  | S m =>
      b1 ← load_block s1 pos w; b2 ← load_block s2 pos w;
      if eq b1 b2 then equal_block eq w s1 s2 (pos + w) m else Some (inl (pos, n))
  end.

Fixpoint equal_units s1 s2 ic (pos len : nat) : ub bool :=
  match len with
  | O => Some true
  | S n => c1 ← s1 !! pos; c2 ← s2 !! pos; if same ic c1 c2 then equal_units s1 s2 ic (pos + 1) n else Some false
  end.

Definition PhEqualStringRef s1 s2 ic : ub bool :=
  let l1 := Length s1 in
  if negb (l1 =? Length s2) then Some false else
  let '(w, eq) :=
    if PhHasIntrinsics
    then (8%nat, fun b1 b2 => PhMoveMaskINT128by8 (PhCompareEqINT128by32 b1 b2) =? 0xffff)
    else (4%nat, fun b1 b2 => bool_decide (b1 = b2)) in
  let bytes := 2 * Z.of_nat w in
  r ← equal_block eq w s1 s2 0 (Z.to_nat (l1 / bytes));
  match r with
  | inl (pos, n) =>
      if negb ic then Some false
      else equal_units s1 s2 ic pos (Z.to_nat ((Z.of_nat n * bytes + Z.land l1 (bytes - 1)) / 2))
  | inr pos => equal_units s1 s2 ic pos (Z.to_nat (Z.land l1 (bytes - 1) / 2))
  end.

(** [sr1] is at the cursor; [i] starts are left. *)
Fixpoint find_string s sub ic c (pos i : nat) : ub Z :=
  match i with
  | O => Some SIZE_MAX
  | S n =>
      x ← s !! pos;
      found ← (if (if ic then PhUpcaseUnicodeChar x =? c else x =? c) then
                 sr1 ← load_block s (pos + 1) (length sub); PhEqualStringRef sr1 sub ic
               else Some false);
      if found : bool then Some (Z.of_nat (pos + 1) - 1) else find_string s sub ic c (pos + 1) n
  end.

Definition PhFindStringInStringRef s sub ic : ub Z :=
  let length1 := Length s / 2 in
  let length2 := Length sub / 2 in
  if length1 <? length2 then Some SIZE_MAX
  else match sub with
       | [] => Some 0
       | c :: rest =>
           find_string s rest ic (if ic then PhUpcaseUnicodeChar c else c) 0 (Z.to_nat (length1 - length2 + 1))
       end.

(** ** Splitting

    A result is whether the separator was found, the part before it and the part after it. *)

Definition PhSkipStringRef s (bytes : Z) : ub (list Z) :=
  if Length s <? bytes then None else Some (drop (Z.to_nat (bytes / 2)) s).

(** The parts around [n] units at [index]. *)
Definition parts s (index n : Z) : ub (bool * list Z * list Z) :=
  if Length s / 2 <? index + n then None
  else Some (true, take (Z.to_nat index) s, drop (Z.to_nat (index + n)) s).

Definition PhSplitStringRefAtChar s c : ub (bool * list Z * list Z) :=
  index ← PhFindCharInStringRef s c false;
  if index =? SIZE_MAX then Some (false, s, []) else parts s index 1.

Definition PhSplitStringRefAtLastChar s c : ub (bool * list Z * list Z) :=
  index ← PhFindLastCharInStringRef s c false;
  if index =? SIZE_MAX then Some (false, s, []) else parts s index 1.

Definition PhSplitStringRefAtString s sep ic : ub (bool * list Z * list Z) :=
  index ← PhFindStringInStringRef s sep ic;
  if index =? SIZE_MAX then Some (false, s, []) else parts s index (Length sep / 2).

Definition PH_SPLIT_AT_STRING : Z := 0x1.
Definition PH_SPLIT_AT_RANGE : Z := 0x2.
Definition PH_SPLIT_CASE_INSENSITIVE : Z := 0x1000.
Definition PH_SPLIT_COMPLEMENT_CHAR_SET : Z := 0x2000.
Definition PH_SPLIT_START_AT_END : Z := 0x4000.
Definition PH_SPLIT_CHAR_SET_IS_UPPERCASE : Z := 0x8000.
Definition PH_TRIM_START_ONLY : Z := 0x1.
Definition PH_TRIM_END_ONLY : Z := 0x2.

Definition has (Flags flag : Z) : bool := negb (Z.land Flags flag =? 0).

(** [charSetTable] and [charSetTableComplete], the units put through [f] first. *)
Fixpoint char_set_table (f : Z -> Z) (charSet : list Z) (table : list bool) : list bool :=
  match charSet with
  | [] => table
  | c :: charSet => char_set_table f charSet (<[Z.to_nat (Z.land (f c) 0xff) := true]> table)
  end.

Fixpoint char_set_complete (f : Z -> Z) (charSet : list Z) (complete : bool) : bool :=
  match charSet with
  | [] => complete
  | c :: charSet => char_set_complete f charSet (if 256 <=? f c then false else complete)
  end.

(** The loops over [charSet]: whether one of its units, put through [f], is [c]. *)
Definition in_char_set (f : Z -> Z) (charSet : list Z) c : bool := existsb (fun x => f x =? c) charSet.

(** The body of the loop of [PhSplitStringRefEx]: [CharFound] or not. *)
Definition char_found (charSet : list Z) (table : list bool) (complete : bool) (Flags c : Z) : ub bool :=
  let c := if has Flags PH_SPLIT_CASE_INSENSITIVE then PhUpcaseUnicodeChar c else c in
  let complement := has Flags PH_SPLIT_COMPLEMENT_CHAR_SET in
  if (c <? 256) && complete then
    e ← table !! Z.to_nat c; Some (if negb complement then e else negb e)
  else
    let f := if negb (has Flags PH_SPLIT_CASE_INSENSITIVE) || has Flags PH_SPLIT_CHAR_SET_IS_UPPERCASE
             then id else PhUpcaseUnicodeChar in
    e ← table !! Z.to_nat (Z.land c 0xff);
    Some (if negb complement then e && in_char_set f charSet c
          else if e : bool then negb (in_char_set f charSet c) else true).

(** The search loop, forward from a cursor or backward to one. *)
Fixpoint search_forward (found : Z -> ub bool) s (pos i : nat) : ub Z :=
  match i with
  | O => Some SIZE_MAX
  | S n => c ← s !! pos; b ← found c; if b : bool then Some (Z.of_nat pos) else search_forward found s (pos + 1) n
  end.

Fixpoint search_backward (found : Z -> ub bool) s (i : nat) : ub Z :=
  match i with
  | O => Some SIZE_MAX
  | S n => c ← s !! n; b ← found c; if b : bool then Some (Z.of_nat n) else search_backward found s n
  end.

(** The index and the length of the separator, in units; [range] holds the [Buffer] field of
    [Separator], read as an index, and its [Length] in bytes, which must be even. *)
Definition separator s sep (range : Z * Z) (Flags : Z) : ub (Z * Z) :=
  let ic := has Flags PH_SPLIT_CASE_INSENSITIVE in
  if has Flags PH_SPLIT_AT_RANGE then Some (range.1, range.2 / 2)
  else if has Flags PH_SPLIT_AT_STRING then
    if has Flags PH_SPLIT_START_AT_END then Some (SIZE_MAX, 0)
    else index ← PhFindStringInStringRef s sep ic; Some (index, Length sep / 2)
  else if negb (has Flags PH_SPLIT_COMPLEMENT_CHAR_SET) && (Length sep =? 2) then
    c ← sep !! 0%nat;
    index ← (if negb (has Flags PH_SPLIT_START_AT_END) then PhFindCharInStringRef s c ic
             else PhFindLastCharInStringRef s c ic);
    Some (index, 1)
  else if Length s =? 0 then Some (SIZE_MAX, 0)
  else
    let f := if ic then PhUpcaseUnicodeChar else id in
    let found := char_found sep (char_set_table f sep (replicate 256 false)) (char_set_complete f sep true) Flags in
    index ← (if negb (has Flags PH_SPLIT_START_AT_END) then search_forward found s 0 (length s)
             else search_backward found s (length s));
    Some (index, 1).

(** With the separator itself. *)
Definition PhSplitStringRefEx s sep range Flags : ub (bool * list Z * list Z * list Z) :=
  '(index, n) ← separator s sep range Flags;
  if index =? SIZE_MAX then Some (false, s, [], [])
  else '(found, first, second) ← parts s index n;
       Some (found, first, second, read_at s (Z.to_nat index) (Z.to_nat n)).

(** ** Trimming *)

(** How many units at the start of the list are trimmed. *)
Fixpoint trim_count (drops : Z -> ub bool) (s : list Z) : ub nat :=
  match s with
  | [] => Some O
  | c :: s => b ← drops c; if b : bool then n ← trim_count drops s; Some (S n) else Some O
  end.

(** The two trimming steps; [s--] from the end is a loop over the reversed string. *)
Definition trim (drops : Z -> ub bool) s (Flags : Z) : ub (list Z) :=
  s ← (if negb (has Flags PH_TRIM_END_ONLY) then n ← trim_count drops s; PhSkipStringRef s (2 * Z.of_nat n) else Some s);
  if negb (has Flags PH_TRIM_START_ONLY) then n ← trim_count drops (reverse s); Some (take (length s - n) s) else Some s.

Definition PhTrimStringRef s (CharSet : list Z) (Flags : Z) : ub (list Z) :=
  if (Length s =? 0) || (Length CharSet =? 0) then Some s
  else match CharSet with
  | [c] => trim (fun x => Some (x =? c)) s Flags
  | _ =>
      let table := char_set_table id CharSet (replicate 256 false) in
      let complete := char_set_complete id CharSet true in
      trim (fun c => e ← table !! Z.to_nat (Z.land c 0xff);
                     Some (e && (complete || in_char_set id CharSet c))) s Flags
  end.

(** ** Reference functions *)

(** Index of the first, and of the last, unit with [p], [SIZE_MAX] if there is none. *)
Fixpoint first_from (p : Z -> bool) (i : Z) s : Z :=
  match s with [] => SIZE_MAX | x :: s => if p x then i else first_from p (i + 1) s end.

Fixpoint last_from (p : Z -> bool) (i : Z) s (found : Z) : Z :=
  match s with [] => found | x :: s => last_from p (i + 1) s (if p x then i else found) end.

Definition unit_is ic c x : bool := if ic then PhUpcaseUnicodeChar x =? PhUpcaseUnicodeChar c else x =? c.

Definition index_of ic c s : Z := first_from (unit_is ic c) 0 s.
Definition last_index_of ic c s : Z := last_from (unit_is ic c) 0 s SIZE_MAX.

(** A string as it counts in a comparison. *)
Definition folded ic s : list Z := if ic then PhUpcaseUnicodeChar <$> s else s.

(** Index of the first place where [sub] starts. *)
Fixpoint occurrence_from ic sub (i : Z) s : Z :=
  if bool_decide (folded ic sub = folded ic (take (length sub) s)) then i
  else match s with [] => SIZE_MAX | _ :: s => occurrence_from ic sub (i + 1) s end.

(** ** Searching *)

Lemma length_units s : Length s / 2 = Z.of_nat (length s).
Proof. unfold Length. by rewrite Z.mul_comm, Z.div_mul by lia. Qed.

Lemma length_blocks s : Length s / 16 = Z.of_nat (length s / 8).
Proof. unfold Length. change 16 with (2 * 8). rewrite Z.div_mul_cancel_l by lia. by rewrite Nat2Z.inj_div. Qed.

Lemma length_rest s : Z.land (Length s / 2) 7 = Z.of_nat (length s mod 8).
Proof. rewrite length_units. change 7 with (Z.ones 3). rewrite Z.land_ones by lia. by rewrite Nat2Z.inj_mod. Qed.

Lemma load_block_split s pos n : (pos + n <= length s)%nat ->
  load_block s pos n = Some (read_at s pos n) /\ drop pos s = read_at s pos n ++ drop (pos + n) s /\ length (read_at s pos n) = n.
Proof.
  intros H. split; [by apply load_block_Some|]. split; [|by apply length_read_at].
  unfold read_at. by rewrite <- drop_drop, take_drop.
Qed.

Lemma drop_cons s pos : (pos < length s)%nat -> exists c, s !! pos = Some c /\ drop pos s = c :: drop (pos + 1) s.
Proof.
  intros [c Hc]%lookup_lt_is_Some_2. exists c. split; [done|]. rewrite (drop_S s c pos Hc). by rewrite Nat.add_1_r.
Qed.

(** A block of eight: the lowest set bit of the mask is in the first unit that equals [c]. *)
Ltac eight block := destruct block as [|x0 [|x1 [|x2 [|x3 [|x4 [|x5 [|x6 [|x7 [|? ?]]]]]]]]]; try discriminate.
Ltac eval_mask :=
  match goal with
  | |- context [BitScanForward ?m] => let v := eval vm_compute in (BitScanForward m) in change (BitScanForward m) with v
  | |- context [BitScanReverse ?m] => let v := eval vm_compute in (BitScanReverse m) in change (BitScanReverse m) with v
  end; cbv beta iota;
  repeat match goal with |- context [Z.div ?n 2] => let v := eval vm_compute in (n / 2) in change (n / 2) with v end.

Lemma block_first c block i rest : length block = 8%nat ->
  match BitScanForward (PhMoveMaskINT128by8 (PhCompareEqINT128by16 block c)) with
  | Some index => first_from (fun x => x =? c) i (block ++ rest) = i + index / 2
  | None => first_from (fun x => x =? c) i (block ++ rest) = first_from (fun x => x =? c) (i + 8) rest
  end.
Proof.
  intros Hl. eight block. unfold PhCompareEqINT128by16. simpl fmap. simpl app. cbn [first_from].
  destruct (x0 =? c), (x1 =? c), (x2 =? c), (x3 =? c), (x4 =? c), (x5 =? c), (x6 =? c), (x7 =? c);
    eval_mask; first [lia | f_equal; lia].
Qed.

Lemma block_last c block i found : length block = 8%nat ->
  last_from (fun x => x =? c) i block found =
  match BitScanReverse (PhMoveMaskINT128by8 (PhCompareEqINT128by16 block c)) with Some index => i + index / 2 | None => found end.
Proof.
  intros Hl. eight block. unfold PhCompareEqINT128by16. simpl fmap. cbn [last_from].
  destruct (x0 =? c), (x1 =? c), (x2 =? c), (x3 =? c), (x4 =? c), (x5 =? c), (x6 =? c), (x7 =? c);
    eval_mask; first [lia | done].
Qed.

Lemma find_block_eq s c n : forall pos, (pos + 8 * n + length s mod 8 = length s)%nat ->
  match find_block s c pos n with
  | Some (inl i) => first_from (fun x => x =? c) (Z.of_nat pos) (drop pos s) = i
  | Some (inr pos') => (pos' + length s mod 8 = length s)%nat /\
      first_from (fun x => x =? c) (Z.of_nat pos) (drop pos s) = first_from (fun x => x =? c) (Z.of_nat pos') (drop pos' s)
  | None => False
  end.
Proof.
  induction n as [|n IH]; intros pos Hpos; [split; [lia|done]|]. cbn [find_block].
  destruct (load_block_split s pos 8 ltac:(lia)) as (-> & Ed & Hl). cbn [mbind option_bind].
  pose proof (block_first c (read_at s pos 8) (Z.of_nat pos) (drop (pos + 8) s) Hl) as Hb. rewrite <- Ed in Hb.
  destruct (BitScanForward _) as [index|].
  - rewrite Hb, length_rest. unfold Length. f_equal.
    replace (2 * Z.of_nat (length s) - Z.of_nat (S n) * 16) with ((Z.of_nat (length s) - 8 * Z.of_nat (S n)) * 2) by lia. rewrite Z.div_mul; lia.
  - specialize (IH (pos + 8)%nat ltac:(lia)). rewrite Hb. replace (Z.of_nat pos + 8) with (Z.of_nat (pos + 8)) by lia. done.
Qed.

Lemma find_unit_eq s p len : forall pos, (pos + len = length s)%nat -> find_unit s p pos len = Some (first_from p (Z.of_nat pos) (drop pos s)).
Proof.
  induction len as [|len IH]; intros pos Hpos; cbn [find_unit]; [by rewrite drop_ge by lia|].
  destruct (drop_cons s pos ltac:(lia)) as (c & -> & ->). cbn [mbind option_bind first_from]. destruct (p c).
  - f_equal. rewrite length_units. lia.
  - rewrite IH by lia. do 2 f_equal. lia.
Qed.

(** Where the C library's searches stay within the memory. *)
Lemma wcschr_defined m c : is_Some (wcschr m c) <-> existsb (fun x => (x =? c) || (x =? 0)) m = true.
Proof.
  induction m as [|x m IH]; cbn [wcschr existsb]; [by split; [intros [? ?]|]|]. destruct (x =? c), (x =? 0); cbn [orb]; try (by split; eauto).
  rewrite <- IH. destruct (wcschr m c) as [i|]; cbn [mbind option_bind]; split; eauto; by intros [? ?].
Qed.

Lemma wcsrchr_defined m c : is_Some (wcsrchr m c) <-> existsb (fun x => x =? 0) m = true.
Proof.
  induction m as [|x m IH]; cbn [wcsrchr existsb]; [by split; [intros [? ?]|]|]. destruct (x =? 0); cbn [orb]; [by split; eauto|].
  rewrite <- IH. destruct (wcsrchr m c) as [i|]; cbn [mbind option_bind]; split; eauto; by intros [? ?].
Qed.

(** A result that is discarded matters if there is none. *)
Lemma discard {A B} (o : ub A) (b : bool) (k : ub B) : (is_Some o <-> b = true) -> (_ ← o; k) = if b then k else None.
Proof. intros Ho. destruct o as [a|], b; cbn [mbind option_bind]; try done; [by discriminate (proj1 Ho (mk_is_Some _ a eq_refl))|by destruct (proj2 Ho eq_refl)]. Qed.

(** Whether the searches are defined: with 128-bit instructions, without regard to case, or if the C
    library's search stops within the memory. *)
Definition find_char_stops s c ic : bool :=
  PhHasIntrinsics || ic || match after with Some memory => existsb (fun x => (x =? c) || (x =? 0)) (s ++ memory) | None => true end.
Definition find_last_char_stops ic : bool :=
  PhHasIntrinsics || ic || match after with Some memory => existsb (fun x => x =? 0) memory | None => true end.

Lemma find_char_eq s c ic : PhFindCharInStringRef s c ic = if find_char_stops s c ic then Some (index_of ic c s) else None.
Proof.
  unfold PhFindCharInStringRef, index_of, find_char_stops. cbv zeta. rewrite length_units, Nat2Z.id. destruct ic; simpl negb; cbv iota.
  - rewrite orb_true_r. by rewrite find_unit_eq.
  - rewrite orb_false_r. destruct PhHasIntrinsics; cbn [orb]; [|destruct after as [m|]; [rewrite (discard _ _ _ (wcschr_defined (s ++ m) c))|cbn [mbind option_bind]]; by rewrite find_unit_eq].
    rewrite length_blocks, Nat2Z.id. rewrite <- length_units, length_rest, Nat2Z.id.
    pose proof (find_block_eq s c (length s / 8) 0 ltac:(pose proof (Nat.div_mod_eq (length s) 8); lia)) as Hf.
    destruct (find_block _ _ _ _) as [[i|pos]|]; [|destruct Hf as (Hp & Hf)|done]; cbn [mbind option_bind].
    + f_equal. by rewrite <- Hf.
    + rewrite find_unit_eq by done. f_equal. by rewrite <- Hf.
Qed.

Lemma last_from_app p s t i found : last_from p i (s ++ t) found = last_from p (i + Z.of_nat (length s)) t (last_from p i s found).
Proof.
  revert i found. induction s as [|x s IH]; intros i found; simpl; [by rewrite Z.add_0_r|]. rewrite IH. f_equal. lia.
Qed.

Lemma find_last_block_eq s c n : forall pos, (pos = 8 * n + length s mod 8)%nat -> (pos <= length s)%nat ->
  match find_last_block s c pos n with
  | Some (inl i) => last_from (fun x => x =? c) 0 (take pos s) SIZE_MAX = i
  | Some (inr pos') => pos' = (length s mod 8)%nat /\
      last_from (fun x => x =? c) 0 (take pos s) SIZE_MAX = last_from (fun x => x =? c) 0 (take pos' s) SIZE_MAX
  | None => False
  end.
Proof.
  induction n as [|n IH]; intros pos Hpos Hle; [split; [lia|done]|]. cbn [find_last_block].
  replace (pos <? 8)%nat with false by (symmetry; apply Nat.ltb_ge; lia).
  destruct (load_block_split s (pos - 8) 8 ltac:(lia)) as (-> & _ & Hl). cbn [mbind option_bind].
  assert (Et : take pos s = take (pos - 8) s ++ read_at s (pos - 8) 8).
  { unfold read_at. rewrite take_take_drop. f_equal. lia. }
  rewrite Et, last_from_app, block_last, length_take by done.
  destruct (BitScanReverse _) as [index|].
  - rewrite length_rest. f_equal. replace ((Z.of_nat (S n) - 1) * 16 / 2) with (8 * Z.of_nat n); [lia|].
    replace ((Z.of_nat (S n) - 1) * 16) with (8 * Z.of_nat n * 2) by lia. by rewrite Z.div_mul by lia.
  - apply (IH (pos - 8)%nat); lia.
Qed.

Lemma find_last_unit_eq s p len : (len <= length s)%nat -> find_last_unit s p len len = Some (last_from p 0 (take len s) SIZE_MAX).
Proof.
  induction len as [|len IH]; intros Hle; cbn [find_last_unit]; [done|]. replace (S len <? 1)%nat with false by done.
  replace (S len - 1)%nat with len by lia. destruct (lookup_lt_is_Some_2 s len ltac:(lia)) as (c & Hc).
  rewrite Hc. cbn [mbind option_bind]. rewrite (take_S_r s len c Hc), last_from_app, length_take. cbn [last_from].
  destruct (p c); [f_equal; lia|]. apply IH. lia.
Qed.

Lemma find_last_unit_all s p : find_last_unit s p (length s) (length s) = Some (last_from p 0 s SIZE_MAX).
Proof. rewrite find_last_unit_eq by done. by rewrite firstn_all. Qed.

Lemma find_last_char_eq s c ic : PhFindLastCharInStringRef s c ic = if find_last_char_stops ic then Some (last_index_of ic c s) else None.
Proof.
  unfold PhFindLastCharInStringRef, last_index_of, find_last_char_stops. cbv zeta. rewrite length_units, Nat2Z.id. destruct ic; simpl negb; cbv iota; [rewrite orb_true_r; apply find_last_unit_all|].
  rewrite orb_false_r. destruct PhHasIntrinsics; cbn [orb]; [|destruct after as [m|]; [rewrite (discard _ _ _ (wcsrchr_defined m c))|cbn [mbind option_bind]]; by rewrite find_last_unit_all].
  rewrite length_blocks, Nat2Z.id, <- length_units, length_rest, Nat2Z.id.
  pose proof (find_last_block_eq s c (length s / 8) (length s) ltac:(pose proof (Nat.div_mod_eq (length s) 8); lia) ltac:(lia)) as Hf.
  rewrite firstn_all in Hf. destruct (find_last_block _ _ _ _) as [[i|pos]|]; [|destruct Hf as (-> & Hf)|done]; cbn [mbind option_bind].
  - f_equal. by rewrite <- Hf.
  - rewrite find_last_unit_eq; [f_equal; by rewrite <- Hf|]. pose proof (Nat.div_mod_eq (length s) 8). lia.
Qed.

(** ** Comparing *)

Lemma same_folded ic c1 c2 : same ic c1 c2 = bool_decide (folded ic [c1] = folded ic [c2]).
Proof.
  unfold same, folded. destruct ic; simpl.
  - destruct (Z.eqb_spec c1 c2) as [->|Hne]; simpl; [by rewrite bool_decide_true|].
    destruct (Z.eqb_spec (PhUpcaseUnicodeChar c1) (PhUpcaseUnicodeChar c2)) as [->|Hne']; [by rewrite bool_decide_true|].
    rewrite bool_decide_false; [done|]. congruence.
  - rewrite orb_false_r. destruct (Z.eqb_spec c1 c2) as [->|Hne]; [by rewrite bool_decide_true|]. rewrite bool_decide_false; [done|]. congruence.
Qed.

Lemma folded_cons ic c s : folded ic (c :: s) = folded ic [c] ++ folded ic s.
Proof. by destruct ic. Qed.

Lemma folded_app ic s t : folded ic (s ++ t) = folded ic s ++ folded ic t.
Proof. unfold folded. destruct ic; [apply fmap_app|done]. Qed.

Lemma length_folded ic s : length (folded ic s) = length s.
Proof. unfold folded. destruct ic; [apply length_fmap|done]. Qed.

Lemma folded_app_eq ic s1 t1 s2 t2 : length s1 = length s2 ->
  folded ic (s1 ++ t1) = folded ic (s2 ++ t2) <-> folded ic s1 = folded ic s2 /\ folded ic t1 = folded ic t2.
Proof.
  intros Hl. rewrite !folded_app. split; [|by intros [-> ->]]. apply app_inj_1. by rewrite !length_folded.
Qed.

Lemma equal_units_eq s1 s2 ic len : forall pos, length s1 = length s2 -> (pos + len = length s1)%nat ->
  equal_units s1 s2 ic pos len = Some (bool_decide (folded ic (drop pos s1) = folded ic (drop pos s2))).
Proof.
  induction len as [|len IH]; intros pos Hl Hpos; cbn [equal_units].
  - rewrite !drop_ge by lia. by rewrite bool_decide_true.
  - destruct (drop_cons s1 pos ltac:(lia)) as (c1 & -> & ->). destruct (drop_cons s2 pos ltac:(lia)) as (c2 & -> & ->).
    cbn [mbind option_bind]. rewrite same_folded.
    assert (He : folded ic (c1 :: drop (pos + 1) s1) = folded ic (c2 :: drop (pos + 1) s2) <->
      folded ic [c1] = folded ic [c2] /\ folded ic (drop (pos + 1) s1) = folded ic (drop (pos + 1) s2)).
    { change (c1 :: drop (pos + 1) s1) with ([c1] ++ drop (pos + 1) s1). change (c2 :: drop (pos + 1) s2) with ([c2] ++ drop (pos + 1) s2). by apply folded_app_eq. }
    rewrite (bool_decide_ext _ _ He). case_bool_decide as Hc.
    + rewrite IH by lia. f_equal. apply bool_decide_ext. tauto.
    + rewrite bool_decide_false; [done|tauto].
Qed.

Lemma by32_eq b1 b2 : length b1 = 8%nat -> length b2 = 8%nat ->
  (PhMoveMaskINT128by8 (PhCompareEqINT128by32 b1 b2) =? 0xffff) = bool_decide (b1 = b2).
Proof.
  intros H1 H2. eight b1. destruct b2 as [|y0 [|y1 [|y2 [|y3 [|y4 [|y5 [|y6 [|y7 [|? ?]]]]]]]]]; try discriminate. cbn [PhCompareEqINT128by32].
  assert (Hp : forall a b c d : Z, (a =? b) && (c =? d) = bool_decide (a = b /\ c = d)).
  { intros. destruct (Z.eqb_spec a b), (Z.eqb_spec c d); simpl; symmetry; first [apply bool_decide_true; tauto|apply bool_decide_false; tauto]. }
  rewrite !Hp. repeat case_bool_decide; destruct_and?; simplify_eq; try done; tauto.
Qed.

Lemma equal_block_eq eq w s1 s2 n : (forall b1 b2, length b1 = w -> length b2 = w -> eq b1 b2 = bool_decide (b1 = b2)) ->
  length s1 = length s2 -> forall pos, (pos + w * n <= length s1)%nat -> forall ic,
  match equal_block eq w s1 s2 pos n with
  | Some (inl (pos', m)) => (pos' + w * m = pos + w * n)%nat /\ (pos' <= length s1)%nat /\ drop pos s1 <> drop pos s2 /\
      (folded ic (drop pos s1) = folded ic (drop pos s2) <-> folded ic (drop pos' s1) = folded ic (drop pos' s2))
  | Some (inr pos') => (pos' = pos + w * n)%nat /\
      (folded ic (drop pos s1) = folded ic (drop pos s2) <-> folded ic (drop pos' s1) = folded ic (drop pos' s2))
  | None => False
  end.
Proof.
  intros Heq Hl. induction n as [|n IH]; intros pos Hpos ic; cbn [equal_block]; [split; [lia|done]|].
  destruct (load_block_split s1 pos w ltac:(lia)) as (-> & E1 & L1). destruct (load_block_split s2 pos w ltac:(lia)) as (-> & E2 & L2).
  cbn [mbind option_bind]. rewrite Heq by done. case_bool_decide as Hb.
  - specialize (IH (pos + w)%nat ltac:(lia) ic). destruct (equal_block _ _ _ _ _ _) as [[[pos' m]|pos']|]; [| |done].
    + destruct IH as (Hm & Hp' & Hd & IH). split; [lia|]. split; [done|]. rewrite <- IH, E1, E2, Hb. split; [by intros ?%app_inv_head|]. rewrite folded_app_eq by done. tauto.
    + destruct IH as (Hm & IH). split; [lia|]. rewrite <- IH, E1, E2, Hb. rewrite folded_app_eq by done. tauto.
  - split; [lia|]. split; [lia|]. split; [|done]. rewrite E1, E2. intros E. apply Hb. by apply app_inj_1 in E as (? & _); [|lia].
Qed.

Lemma equal_string_eq s1 s2 ic : PhEqualStringRef s1 s2 ic = Some (bool_decide (folded ic s1 = folded ic s2)).
Proof.
  unfold PhEqualStringRef. cbv zeta. destruct (Z.eqb_spec (Length s1) (Length s2)) as [Hl|Hl]; simpl negb; cbv iota.
  2:{ rewrite bool_decide_false; [done|]. intros E%(f_equal length). rewrite !length_folded in E. unfold Length in Hl. lia. }
  assert (Hn : length s1 = length s2) by (unfold Length in Hl; lia).
  set (blocks := if PhHasIntrinsics then _ else _).
  assert (Hw : exists w eq, blocks = (w, eq) /\ (w = 8 \/ w = 4)%nat /\ (forall b1 b2, length b1 = w -> length b2 = w -> eq b1 b2 = bool_decide (b1 = b2))).
  { unfold blocks. destruct PhHasIntrinsics; do 2 eexists; (split; [done|]); (split; [by auto|]); [apply by32_eq|done]. }
  destruct Hw as (w & eq & -> & Hw & Heq).
  assert (Hwn : (w <> 0)%nat) by lia.
  assert (Hdiv : Z.to_nat (Length s1 / (2 * Z.of_nat w)) = (length s1 / w)%nat).
  { unfold Length. rewrite Z.div_mul_cancel_l by lia. by rewrite <- Nat2Z.inj_div, Nat2Z.id. }
  assert (Hmod : Z.land (Length s1) (2 * Z.of_nat w - 1) = 2 * Z.of_nat (length s1 mod w)).
  { unfold Length. rewrite Nat2Z.inj_mod. destruct Hw as [-> | ->].
    - change (2 * Z.of_nat 8 - 1) with (Z.ones 4). rewrite Z.land_ones by lia. change (2 ^ 4) with (2 * 8). by rewrite Zmult_mod_distr_l.
    - change (2 * Z.of_nat 4 - 1) with (Z.ones 3). rewrite Z.land_ones by lia. change (2 ^ 3) with (2 * 4). by rewrite Zmult_mod_distr_l. }
  rewrite Hdiv, Hmod. pose proof (Nat.div_mod_eq (length s1) w) as Hdm.
  pose proof (equal_block_eq eq w s1 s2 (length s1 / w) Heq Hn 0 ltac:(lia) ic) as Hb. rewrite !drop_0 in Hb.
  destruct (equal_block _ _ _ _ _ _) as [[[pos m]|pos]|]; [| |done]; cbn [mbind option_bind].
  - destruct Hb as (Hm & Hp & Hd & Hb). destruct ic; simpl negb; cbv iota; [|by rewrite bool_decide_false].
    replace ((Z.of_nat m * (2 * Z.of_nat w) + 2 * Z.of_nat (length s1 mod w)) / 2) with (Z.of_nat (w * m + length s1 mod w)).
    + rewrite Nat2Z.id, equal_units_eq by lia. f_equal. apply bool_decide_ext. tauto.
    + symmetry. rewrite <- (Z.div_mul (Z.of_nat (w * m + length s1 mod w)) 2) by lia. f_equal. lia.
  - destruct Hb as (-> & Hb). rewrite (Z.mul_comm 2), Z.div_mul, Nat2Z.id, equal_units_eq by lia. f_equal. apply bool_decide_ext. tauto.
Qed.

(** The order of strings: unit by unit, a prefix before what it is a prefix of. *)
Fixpoint lex s t : comparison :=
  match s, t with
  | [], [] => Eq
  | [], _ => Lt
  | _, [] => Gt
  | x :: s, y :: t => match x ?= y with Eq => lex s t | r => r end
  end.

Lemma compare_units_eq s1 s2 ic len : forall pos, (pos + len = length s1 `min` length s2)%nat ->
  match compare_units s1 s2 ic pos len with
  | Some (Some d) => d <> 0 /\ (d ?= 0) = lex (folded ic (drop pos s1)) (folded ic (drop pos s2))
  | Some None => lex (folded ic (drop pos s1)) (folded ic (drop pos s2)) = (Length s1 - Length s2 ?= 0)
  | None => False
  end.
Proof.
  induction len as [|len IH]; intros pos Hpos; cbn [compare_units].
  - unfold Length. destruct (drop pos s1) as [|x t1] eqn:E1, (drop pos s2) as [|y t2] eqn:E2;
      apply (f_equal length) in E1, E2; rewrite length_drop in E1, E2; simpl in E1, E2; try lia; destruct ic; simpl; symmetry;
      first [apply Z.compare_eq_iff; lia | apply Z.compare_lt_iff; lia | apply Z.compare_gt_iff; lia].
  - destruct (drop_cons s1 pos ltac:(lia)) as (c1 & -> & ->). destruct (drop_cons s2 pos ltac:(lia)) as (c2 & -> & ->).
    cbn [mbind option_bind]. rewrite (folded_cons ic c1), (folded_cons ic c2), same_folded. specialize (IH (pos + 1)%nat ltac:(lia)).
    case_bool_decide as Hc.
    + rewrite Hc. destruct (compare_units _ _ _ _ _) as [[d|]|]; [| |done]; destruct ic; simpl; by rewrite Z.compare_refl.
    + unfold folded in *. destruct ic; simpl in *; (split; [intros E; apply Hc; f_equal; lia|]).
      * destruct (Z.compare_spec (PhUpcaseUnicodeChar c1) (PhUpcaseUnicodeChar c2)); [congruence|apply Z.compare_lt_iff; lia|apply Z.compare_gt_iff; lia].
      * destruct (Z.compare_spec c1 c2); [congruence|apply Z.compare_lt_iff; lia|apply Z.compare_gt_iff; lia].
Qed.

Lemma compare_string_sign s1 s2 ic : - 2 ^ 31 <= Length s1 - Length s2 < 2 ^ 31 ->
  exists d, PhCompareStringRef s1 s2 ic = Some d /\ (d ?= 0) = lex (folded ic s1) (folded ic s2).
Proof.
  intros Hd. unfold PhCompareStringRef.
  replace (Z.to_nat (Z.min (Length s1) (Length s2) / 2)) with (length s1 `min` length s2)%nat.
  2:{ replace (Z.min (Length s1) (Length s2)) with (Z.of_nat (length s1 `min` length s2) * 2) by (unfold Length; lia). rewrite Z.div_mul, Nat2Z.id; lia. }
  pose proof (compare_units_eq s1 s2 ic (length s1 `min` length s2) 0 ltac:(lia)) as Hc. rewrite !drop_0 in Hc.
  destruct (compare_units _ _ _ _ _) as [[d|]|]; [|rewrite Hc|done]; cbn [mbind option_bind]; [by exists d; destruct Hc|].
  eexists. split; [done|]. f_equal. unfold signed. cbv zeta. set (x := Length s1 - Length s2) in *.
  destruct (Z.le_gt_cases 0 x).
  - rewrite Z.mod_small by lia. by replace (x <? 2 ^ (32 - 1)) with true by lia.
  - replace (x mod 2 ^ 32) with (x + 2 ^ 32) by (apply (Z.mod_unique_pos _ _ (-1)); lia).
    replace (x + 2 ^ 32 <? 2 ^ (32 - 1)) with false by lia. lia.
Qed.

(** ** Substrings *)

Lemma occurrence_short ic sub i s : (length s < length sub)%nat -> occurrence_from ic sub i s = SIZE_MAX.
Proof.
  revert i. induction s as [|x s IH]; intros i Hl; cbn [occurrence_from]; (rewrite bool_decide_false; [|intros E%(f_equal length); rewrite !length_folded, length_take in E; simpl in E, Hl; lia]); [done|].
  apply IH. simpl in Hl. lia.
Qed.

Lemma find_string_loop s ic c rest i : forall pos, (pos + i + length rest = length s)%nat ->
  find_string s rest ic (if ic then PhUpcaseUnicodeChar c else c) pos i = Some (occurrence_from ic (c :: rest) (Z.of_nat pos) (drop pos s)).
Proof.
  induction i as [|i IH]; intros pos Hpos; cbn [find_string].
  - rewrite occurrence_short; [done|]. rewrite length_drop. simpl. lia.
  - destruct (drop_cons s pos ltac:(lia)) as (x & -> & ->). cbn [mbind option_bind occurrence_from].
    change (take (length (c :: rest)) (x :: drop (pos + 1) s)) with ([x] ++ take (length rest) (drop (pos + 1) s)).
    change (c :: rest) with ([c] ++ rest) at 1. rewrite (bool_decide_ext _ _ (folded_app_eq ic [c] rest [x] _ eq_refl)).
    assert (Hx : (if ic then PhUpcaseUnicodeChar x =? (if ic then PhUpcaseUnicodeChar c else c) else x =? (if ic then PhUpcaseUnicodeChar c else c)) = bool_decide (folded ic [c] = folded ic [x])).
    { unfold folded. destruct ic; simpl; [destruct (Z.eqb_spec (PhUpcaseUnicodeChar x) (PhUpcaseUnicodeChar c)) as [E|E]|destruct (Z.eqb_spec x c) as [E|E]];
        [rewrite bool_decide_true; congruence|rewrite bool_decide_false; congruence|rewrite bool_decide_true; congruence|rewrite bool_decide_false; congruence]. }
    rewrite Hx. case_bool_decide as Hc.
    + rewrite load_block_Some by lia. cbn [mbind option_bind]. rewrite equal_string_eq. cbn [mbind option_bind].
      change (read_at s (pos + 1) (length rest)) with (take (length rest) (drop (pos + 1) s)). case_bool_decide as Hr.
      * rewrite bool_decide_true by (split; congruence). f_equal. lia.
      * rewrite bool_decide_false by (intros [_ ?]; congruence). rewrite IH by lia. do 2 f_equal. lia.
    + cbn [mbind option_bind]. rewrite bool_decide_false by tauto. rewrite IH by lia. do 2 f_equal. lia.
Qed.

Lemma find_string_eq s sub ic : PhFindStringInStringRef s sub ic = Some (occurrence_from ic sub 0 s).
Proof.
  unfold PhFindStringInStringRef. cbv zeta. rewrite !length_units. destruct (Z.ltb_spec (Z.of_nat (length s)) (Z.of_nat (length sub))) as [Hl|Hl].
  - rewrite occurrence_short by lia. done.
  - destruct sub as [|c rest].
    + destruct s; cbn [occurrence_from]; by rewrite bool_decide_true by (by destruct ic).
    + simpl in Hl. rewrite find_string_loop; [done|]. simpl. lia.
Qed.

(** ** What an index means *)

Lemma first_from_spec p i s : 0 <= i -> i + Z.of_nat (length s) <= SIZE_MAX ->
  (first_from p i s = SIZE_MAX /\ Forall (fun x => p x = false) s) \/
  (exists a x b, s = a ++ x :: b /\ first_from p i s = i + Z.of_nat (length a) /\ p x = true /\ Forall (fun x => p x = false) a).
Proof.
  revert i. induction s as [|y s IH]; intros i Hi Hm; [by left|]. simpl in Hm. cbn [first_from]. destruct (p y) eqn:Hp.
  - right. exists [], y, s. split_and!; simpl; [done|lia|done|done].
  - destruct (IH (i + 1) ltac:(lia) ltac:(lia)) as [(E & Hf)|(a & x & b & -> & E & Hx & Ha)]; [left; split; [done|by constructor]|].
    right. exists (y :: a), x, b. split_and!; simpl; [done|rewrite E; lia|done|by constructor].
Qed.

Lemma last_from_spec p s :
  (last_from p 0 s SIZE_MAX = SIZE_MAX /\ Forall (fun x => p x = false) s) \/
  (exists a x b, s = a ++ x :: b /\ last_from p 0 s SIZE_MAX = Z.of_nat (length a) /\ p x = true /\ Forall (fun x => p x = false) b).
Proof.
  induction s as [|y s IH] using rev_ind; [by left|]. rewrite last_from_app. cbn [last_from]. destruct (p y) eqn:Hp.
  - right. exists s, y, []. by split_and!.
  - destruct IH as [(-> & Hf)|(a & x & b & -> & -> & Hx & Ha)].
    + left. split; [done|]. apply Forall_app; auto.
    + right. exists a, x, (b ++ [y]). split_and!; [by rewrite <- app_assoc|done|done|apply Forall_app; auto].
Qed.

Lemma occurrence_spec ic sub i s : 0 <= i -> i + Z.of_nat (length s) < SIZE_MAX ->
  (occurrence_from ic sub i s = SIZE_MAX /\ forall a u b, s = a ++ u ++ b -> folded ic u <> folded ic sub) \/
  (exists a u b, s = a ++ u ++ b /\ occurrence_from ic sub i s = i + Z.of_nat (length a) /\ folded ic u = folded ic sub /\
     forall a' u' b', s = a' ++ u' ++ b' -> (length a' < length a)%nat -> folded ic u' <> folded ic sub).
Proof.
  revert i. induction s as [|y s IH]; intros i Hi Hm; cbn [occurrence_from]; case_bool_decide as Hb.
  - right. exists [], [], []. rewrite take_nil in Hb. split_and!; simpl; [done|lia|done|lia].
  - left. split; [done|]. intros a u b E Hu. symmetry in E. apply app_nil in E as (-> & (-> & ->)%app_nil). rewrite take_nil in Hb. congruence.
  - right. exists [], (take (length sub) (y :: s)), (drop (length sub) (y :: s)). split_and!; [by rewrite app_nil_l, take_drop|simpl; lia|done|simpl; lia].
  - assert (Hhere : forall u b, y :: s = u ++ b -> folded ic u <> folded ic sub).
    { intros u b E Hu. apply Hb. rewrite E, <- Hu, take_app_length'; [done|]. apply (f_equal length) in Hu. by rewrite !length_folded in Hu. }
    simpl in Hm. destruct (IH (i + 1) ltac:(lia) ltac:(lia)) as [(E & Hf)|(a & u & b & E0 & E & Hu & Ha)].
    + left. split; [done|]. intros [|z a] u b E'; simpl in E'; [by apply (Hhere u b)|]. simplify_eq. by eapply Hf.
    + right. exists (y :: a), u, b. split_and!; [by rewrite E0|rewrite E; simpl; lia|done|].
      intros [|z a'] u' b' E' Hlt; simpl in E'; [by apply (Hhere u' b')|]. simplify_eq. eapply Ha; [done|]. simpl in Hlt. lia.
Qed.

(** ** Splitting *)

Lemma parts_at a u b : parts (a ++ u ++ b) (Z.of_nat (length a)) (Z.of_nat (length u)) = Some (true, a, b).
Proof.
  unfold parts. rewrite length_units, !length_app. destruct (Z.ltb_spec (Z.of_nat (length a + (length u + length b))) (Z.of_nat (length a) + Z.of_nat (length u))); [lia|].
  rewrite Nat2Z.id, take_app_length. replace (Z.to_nat (Z.of_nat (length a) + Z.of_nat (length u))) with (length (a ++ u)) by (rewrite length_app; lia).
  by rewrite app_assoc, drop_app_length.
Qed.

(** The splits need searches that are defined: a null unit after the string is enough. *)
Definition ended : Prop := PhHasIntrinsics = true \/ after = None \/ exists memory, after = Some memory /\ 0 ∈ memory.

Lemma ended_stops s c ic : ended -> find_char_stops s c ic = true /\ find_last_char_stops ic = true.
Proof.
  unfold find_char_stops, find_last_char_stops. intros [-> |[-> |(m & -> & Hm%list_elem_of_In)]]; [done|by rewrite !orb_true_r|].
  split; apply orb_true_intro; right; apply existsb_exists; exists 0; (split; [|by rewrite ?orb_true_r]); [by apply in_or_app; right|done].
Qed.

Lemma find_char_ended s c ic : ended -> PhFindCharInStringRef s c ic = Some (index_of ic c s).
Proof. intros He. rewrite find_char_eq. by destruct (ended_stops s c ic He) as [-> _]. Qed.

Lemma find_last_char_ended s c ic : ended -> PhFindLastCharInStringRef s c ic = Some (last_index_of ic c s).
Proof. intros He. rewrite find_last_char_eq. by destruct (ended_stops s c ic He) as [_ ->]. Qed.

Lemma not_unit_is c s : Forall (fun x => unit_is false c x = false) s -> c ∉ s.
Proof. intros Hf Hc. rewrite Forall_forall in Hf. specialize (Hf c Hc). unfold unit_is in Hf. lia. Qed.

Lemma split_char s c : ended -> Z.of_nat (length s) < SIZE_MAX ->
  exists found first second, PhSplitStringRefAtChar s c = Some (found, first, second) /\ (c ∉ first) /\
    if found : bool then s = first ++ c :: second else first = s /\ second = [].
Proof.
  intros He Hs. unfold PhSplitStringRefAtChar. rewrite find_char_ended by done. cbn [mbind option_bind].
  destruct (first_from_spec (unit_is false c) 0 s ltac:(lia) ltac:(lia)) as [(E & Hf)|(a & x & b & -> & E & Hx & Ha)]; unfold index_of; rewrite E.
  - exists false, s, []. split; [by rewrite Z.eqb_refl|]. split; [by apply not_unit_is|done].
  - rewrite length_app in Hs. replace (0 + Z.of_nat (length a) =? SIZE_MAX) with false by lia. rewrite Z.add_0_l.
    exists true, a, b. split; [apply (parts_at a [x] b)|]. split; [by apply not_unit_is|]. unfold unit_is in Hx. apply Z.eqb_eq in Hx. by subst x.
Qed.

Lemma split_last_char s c : ended -> Z.of_nat (length s) < SIZE_MAX ->
  exists found first second, PhSplitStringRefAtLastChar s c = Some (found, first, second) /\ (c ∉ second) /\
    if found : bool then s = first ++ c :: second else first = s /\ second = [] /\ (c ∉ s).
Proof.
  intros He Hs. unfold PhSplitStringRefAtLastChar. rewrite find_last_char_ended by done. cbn [mbind option_bind].
  destruct (last_from_spec (unit_is false c) s) as [(E & Hf)|(a & x & b & -> & E & Hx & Ha)]; unfold last_index_of; rewrite E.
  - exists false, s, []. split; [by rewrite Z.eqb_refl|]. split; [by apply not_elem_of_nil|]. split_and!; [done|done|by apply not_unit_is].
  - rewrite length_app in Hs. replace (Z.of_nat (length a) =? SIZE_MAX) with false by lia.
    exists true, a, b. split; [apply (parts_at a [x] b)|]. split; [by apply not_unit_is|]. unfold unit_is in Hx. apply Z.eqb_eq in Hx. by subst x.
Qed.

Lemma split_string s sep ic : Z.of_nat (length s) < SIZE_MAX ->
  exists found first second, PhSplitStringRefAtString s sep ic = Some (found, first, second) /\
    if found : bool
    then exists u, s = first ++ u ++ second /\ folded ic u = folded ic sep /\
           forall a' u' b', s = a' ++ u' ++ b' -> (length a' < length first)%nat -> folded ic u' <> folded ic sep
    else first = s /\ second = [] /\ forall a u b, s = a ++ u ++ b -> folded ic u <> folded ic sep.
Proof.
  intros Hs. unfold PhSplitStringRefAtString. rewrite find_string_eq. cbn [mbind option_bind].
  destruct (occurrence_spec ic sep 0 s ltac:(lia) ltac:(lia)) as [(E & Hf)|(a & u & b & -> & E & Hu & Ha)]; rewrite E.
  - exists false, s, []. split; [by rewrite Z.eqb_refl|]. done.
  - rewrite length_app in Hs. replace (0 + Z.of_nat (length a) =? SIZE_MAX) with false by lia. rewrite Z.add_0_l, length_units.
    exists true, a, b. split; [|by exists u]. replace (length sep) with (length u); [apply parts_at|].
    apply (f_equal length) in Hu. by rewrite !length_folded in Hu.
Qed.

(** *** Character sets *)

Lemma table_lookup f cs : forall table i, (i < length table)%nat ->
  char_set_table f cs table !! i = (fun e => existsb (fun x => Z.to_nat (Z.land (f x) 0xff) =? i)%nat cs || e) <$> table !! i.
Proof.
  induction cs as [|c cs IH]; intros table i Hi; cbn [char_set_table existsb]; [by destruct (table !! i)|].
  rewrite IH by (by rewrite length_insert). destruct (Nat.eqb_spec (Z.to_nat (Z.land (f c) 0xff)) i) as [<-|Hne].
  - rewrite list_lookup_insert_eq by done. destruct (lookup_lt_is_Some_2 _ _ Hi) as (e & ->). simpl. by rewrite orb_true_r.
  - rewrite list_lookup_insert_ne by done. done.
Qed.

Lemma low_byte c : Z.land c 0xff = c mod 256.
Proof. change 0xff with (Z.ones 8). by rewrite Z.land_ones. Qed.

Lemma table_low f cs c : char_set_table f cs (replicate 256 false) !! Z.to_nat (Z.land c 0xff) =
  Some (existsb (fun x => f x mod 256 =? c mod 256) cs).
Proof.
  rewrite low_byte. pose proof (Z.mod_pos_bound c 256 ltac:(lia)). rewrite table_lookup by (rewrite length_replicate; lia).
  rewrite lookup_replicate_2 by lia. simpl. f_equal. rewrite orb_false_r. induction cs as [|x cs IH]; [done|]. simpl. f_equal; [|done].
  rewrite low_byte. pose proof (Z.mod_pos_bound (f x) 256 ltac:(lia)). destruct (Nat.eqb_spec (Z.to_nat (f x mod 256)) (Z.to_nat (c mod 256))); lia.
Qed.

Lemma complete_eq f cs complete : char_set_complete f cs complete = complete && forallb (fun x => f x <? 256) cs.
Proof.
  revert complete. induction cs as [|c cs IH]; intros complete; cbn [char_set_complete forallb]; [by rewrite andb_true_r|].
  rewrite IH. destruct (Z.leb_spec 256 (f c)).
  - replace (f c <? 256) with false by lia. by rewrite andb_false_r.
  - by replace (f c <? 256) with true by lia.
Qed.

Lemma low_of_member (f : Z -> Z) cs c : existsb (fun x => f x =? c) cs = true -> existsb (fun x => f x mod 256 =? c mod 256) cs = true.
Proof. rewrite !existsb_exists. intros (x & Hx & E). exists x. split; [done|]. apply Z.eqb_eq in E. rewrite E. apply Z.eqb_refl. Qed.

(** Whether a unit belongs to a set. *)
Definition member ic (cs : list Z) c : bool :=
  let f := if ic then PhUpcaseUnicodeChar else id in existsb (fun x => f x =? f c) cs.

Lemma existsb_ext' (p q : Z -> bool) cs : (forall x, x ∈ cs -> p x = q x) -> existsb p cs = existsb q cs.
Proof.
  induction cs as [|x cs IH]; intros H; [done|]. simpl. f_equal; [apply H; by left|]. apply IH. intros y Hy. apply H. by right.
Qed.

Lemma char_found_eq cs Flags c :
  let ic := has Flags PH_SPLIT_CASE_INSENSITIVE in
  let f := if ic then PhUpcaseUnicodeChar else id in
  0 <= f c -> Forall (fun x => 0 <= f x) cs ->
  (has Flags PH_SPLIT_CHAR_SET_IS_UPPERCASE = true -> Forall (fun x => f x = x) cs) ->
  char_found cs (char_set_table f cs (replicate 256 false)) (char_set_complete f cs true) Flags c =
  Some (if has Flags PH_SPLIT_COMPLEMENT_CHAR_SET then negb (member ic cs c) else member ic cs c).
Proof.
  intros ic f Hc Hf Hup. unfold char_found. cbv zeta. fold ic.
  replace (if ic then PhUpcaseUnicodeChar c else c) with (f c) by (unfold f; by destruct ic).
  set (g := if negb ic || _ then id else PhUpcaseUnicodeChar).
  assert (Hin : in_char_set g cs (f c) = member ic cs c).
  { unfold in_char_set, member. cbv zeta. fold f. apply existsb_ext'. intros x Hx. f_equal. unfold g. unfold f in *. destruct ic; simpl; [|done].
    destruct (has Flags PH_SPLIT_CHAR_SET_IS_UPPERCASE); [|done]. specialize (Hup eq_refl). rewrite Forall_forall in Hup. by rewrite Hup. }
  rewrite complete_eq. simpl. destruct ((f c <? 256) && forallb (fun x => f x <? 256) cs) eqn:Hcase.
  - to_prop. rewrite forallb_forall in H0.
    replace (Z.to_nat (f c)) with (Z.to_nat (Z.land (f c) 0xff)) by (rewrite low_byte, Z.mod_small by lia; done).
    rewrite table_low. cbn [mbind option_bind].
    assert (E : existsb (fun x => f x mod 256 =? f c mod 256) cs = member ic cs c).
    { apply existsb_ext'. intros x Hx. rewrite Forall_forall in Hf. specialize (Hf x Hx).
      assert (Hx' : In x cs) by (by apply list_elem_of_In). specialize (H0 x Hx'). apply Z.ltb_lt in H0. by rewrite !Z.mod_small by lia. }
    rewrite E. by destruct (has Flags PH_SPLIT_COMPLEMENT_CHAR_SET).
  - rewrite table_low. cbn [mbind option_bind]. rewrite Hin.
    assert (E : member ic cs c = true -> existsb (fun x => f x mod 256 =? f c mod 256) cs = true) by apply low_of_member.
    destruct (existsb _ cs), (has Flags PH_SPLIT_COMPLEMENT_CHAR_SET), (member ic cs c); simpl; try done; by specialize (E eq_refl).
Qed.

Lemma search_forward_eq found p s i : (forall c, c ∈ s -> found c = Some (p c)) -> forall pos, (pos + i = length s)%nat ->
  search_forward found s pos i = Some (first_from p (Z.of_nat pos) (drop pos s)).
Proof.
  intros Hf. induction i as [|i IH]; intros pos Hpos; cbn [search_forward]; [by rewrite drop_ge by lia|].
  destruct (drop_cons s pos ltac:(lia)) as (c & Hc & ->). rewrite Hc. cbn [mbind option_bind first_from].
  rewrite (Hf c) by (by eapply list_elem_of_lookup_2). cbn [mbind option_bind]. destruct (p c); [done|]. rewrite IH by lia. do 2 f_equal. lia.
Qed.

Lemma search_backward_eq found p s i : (forall c, c ∈ s -> found c = Some (p c)) -> (i <= length s)%nat ->
  search_backward found s i = Some (last_from p 0 (take i s) SIZE_MAX).
Proof.
  intros Hf. induction i as [|i IH]; intros Hle; cbn [search_backward]; [done|].
  destruct (lookup_lt_is_Some_2 s i ltac:(lia)) as (c & Hc). rewrite Hc. cbn [mbind option_bind].
  rewrite (Hf c) by (by eapply list_elem_of_lookup_2). cbn [mbind option_bind].
  rewrite (take_S_r s i c Hc), last_from_app, length_take. cbn [last_from]. destruct (p c); [f_equal; lia|]. apply IH. lia.
Qed.

(** The units at which [PhSplitStringRefEx] splits. *)
Definition splits_at (set : list Z) (Flags c : Z) : bool :=
  if has Flags PH_SPLIT_COMPLEMENT_CHAR_SET then negb (member (has Flags PH_SPLIT_CASE_INSENSITIVE) set c)
  else member (has Flags PH_SPLIT_CASE_INSENSITIVE) set c.

Lemma first_from_ext p q i s : (forall x, p x = q x) -> first_from p i s = first_from q i s.
Proof. intros H. revert i. induction s as [|x s IH]; intros i; simpl; [done|]. by rewrite H, IH. Qed.

Lemma last_from_ext p q i s found : (forall x, p x = q x) -> last_from p i s found = last_from q i s found.
Proof. intros H. revert i found. induction s as [|x s IH]; intros i found; simpl; [done|]. by rewrite H, IH. Qed.

Lemma member_single ic c x : unit_is ic c x = member ic [c] x.
Proof. unfold unit_is, member. simpl. rewrite orb_false_r. destruct ic; apply Z.eqb_sym. Qed.

(** What the code needs of the upper-case function and of a set said to be upper-case. *)
Definition set_ok (s set : list Z) (Flags : Z) : Prop :=
  Forall (fun x => 0 <= x /\ 0 <= PhUpcaseUnicodeChar x) (s ++ set) /\
  (has Flags PH_SPLIT_CHAR_SET_IS_UPPERCASE = true -> Forall (fun x => PhUpcaseUnicodeChar x = x) set).

Lemma separator_set s set range Flags : ended -> set_ok s set Flags ->
  has Flags PH_SPLIT_AT_RANGE = false -> has Flags PH_SPLIT_AT_STRING = false ->
  exists n, separator s set range Flags =
    Some (if has Flags PH_SPLIT_START_AT_END then last_from (splits_at set Flags) 0 s SIZE_MAX else first_from (splits_at set Flags) 0 s, n) /\ (s <> [] -> n = 1).
Proof.
  intros He (Hs & Hup) Hr Ht. apply Forall_app in Hs as (Hs & Hset). unfold separator. cbv zeta. rewrite Hr, Ht.
  destruct (negb (has Flags PH_SPLIT_COMPLEMENT_CHAR_SET) && (Length set =? 2)) eqn:Hone.
  { apply andb_true_iff in Hone as (Hcomp%negb_true_iff & Hl%Z.eqb_eq). unfold Length in Hl. destruct set as [|c [|? ?]]; simpl in Hl; try lia.
    simpl lookup. cbn [mbind option_bind]. exists 1. split; [|done]. rewrite find_char_ended, find_last_char_ended by done.
    assert (E : forall x, unit_is (has Flags PH_SPLIT_CASE_INSENSITIVE) c x = splits_at [c] Flags x) by (intros x; unfold splits_at; rewrite Hcomp; apply member_single).
    unfold index_of, last_index_of. rewrite (first_from_ext _ _ _ _ E), (last_from_ext _ _ _ _ _ E). by destruct (has Flags PH_SPLIT_START_AT_END). }
  destruct (Z.eqb_spec (Length s) 0) as [Hl|Hl].
  { unfold Length in Hl. destruct s; simpl in Hl; [|lia]. exists 0. split; [by destruct (has Flags PH_SPLIT_START_AT_END)|done]. }
  exists 1. split; [|done]. set (f := if has Flags PH_SPLIT_CASE_INSENSITIVE then PhUpcaseUnicodeChar else id).
  assert (Hfound : forall c, c ∈ s -> char_found set (char_set_table f set (replicate 256 false)) (char_set_complete f set true) Flags c = Some (splits_at set Flags c)).
  { intros c Hc. rewrite Forall_forall in Hs. specialize (Hs c Hc). apply char_found_eq; cbv zeta; fold f.
    - unfold f, id. destruct (has Flags PH_SPLIT_CASE_INSENSITIVE); lia.
    - eapply Forall_impl; [done|]. intros x Hx. simpl in Hx. unfold f, id. destruct (has Flags PH_SPLIT_CASE_INSENSITIVE); lia.
    - intros Hu. specialize (Hup Hu). eapply Forall_impl; [done|]. intros x Hx. unfold f. by destruct (has Flags PH_SPLIT_CASE_INSENSITIVE). }
  destruct (has Flags PH_SPLIT_START_AT_END); simpl negb; cbv iota.
  - rewrite (search_backward_eq _ (splits_at set Flags)), firstn_all by done. done.
  - rewrite (search_forward_eq _ (splits_at set Flags)) by done. done.
Qed.

Lemma split_set s set range Flags : ended -> Z.of_nat (length s) < SIZE_MAX -> set_ok s set Flags ->
  has Flags PH_SPLIT_AT_RANGE = false -> has Flags PH_SPLIT_AT_STRING = false ->
  exists found first second sep, PhSplitStringRefEx s set range Flags = Some (found, first, second, sep) /\
    if found : bool
    then exists c, sep = [c] /\ s = first ++ c :: second /\ splits_at set Flags c = true /\
           Forall (fun x => splits_at set Flags x = false) (if has Flags PH_SPLIT_START_AT_END then second else first)
    else first = s /\ second = [] /\ sep = [] /\ Forall (fun x => splits_at set Flags x = false) s.
Proof.
  intros He Hl Hok Hr Ht. unfold PhSplitStringRefEx. destruct (separator_set s set range Flags He Hok Hr Ht) as (n & -> & Hn). cbn [mbind option_bind].
  assert (Hfound : forall a c b, s = a ++ c :: b -> parts s (Z.of_nat (length a)) n = Some (true, a, b) /\ read_at s (Z.to_nat (Z.of_nat (length a))) (Z.to_nat n) = [c]).
  { intros a c b E. rewrite (Hn ltac:(intros ->; by destruct a)), E. split; [apply (parts_at a [c] b)|]. unfold read_at. rewrite Nat2Z.id, drop_app_length. done. }
  destruct (has Flags PH_SPLIT_START_AT_END).
  - destruct (last_from_spec (splits_at set Flags) s) as [(E & Hf)|(a & x & b & Es & E & Hx & Ha)]; rewrite E; [by exists false, s, [], []|].
    destruct (Hfound a x b Es) as (Hp & Hrd). assert (Z.of_nat (length a) < SIZE_MAX) by (rewrite Es, length_app in Hl; lia).
    replace (Z.of_nat (length a) =? SIZE_MAX) with false by lia. rewrite Hp. cbn [mbind option_bind]. rewrite Hrd. exists true, a, b, [x]. split; [done|]. by exists x.
  - destruct (first_from_spec (splits_at set Flags) 0 s ltac:(lia) ltac:(lia)) as [(E & Hf)|(a & x & b & Es & E & Hx & Ha)]; rewrite E; [by exists false, s, [], []|].
    destruct (Hfound a x b Es) as (Hp & Hrd). assert (Z.of_nat (length a) < SIZE_MAX) by (rewrite Es, length_app in Hl; lia).
    rewrite Z.add_0_l. replace (Z.of_nat (length a) =? SIZE_MAX) with false by lia. rewrite Hp. cbn [mbind option_bind]. rewrite Hrd. exists true, a, b, [x]. split; [done|]. by exists x.
Qed.

(** ** Trimming *)

(** The units that [PhTrimStringRef] takes away at the ends. *)
Definition trims (set : list Z) c : bool :=
  match set with
  | [x] => c =? x
  | _ => if forallb (fun x => x <? 256) set then existsb (fun x => x mod 256 =? c mod 256) set else existsb (fun x => x =? c) set
  end.

Fixpoint strip (p : Z -> bool) s : list Z := match s with [] => [] | c :: s' => if p c then strip p s' else s end.

Lemma trim_count_eq p drops s : (forall c, drops c = Some (p c)) ->
  exists n, trim_count drops s = Some n /\ (n <= length s)%nat /\ drop n s = strip p s.
Proof.
  intros Hp. induction s as [|c s (n & E & Hn & IH)]; [by exists O|]. cbn [trim_count strip]. rewrite Hp. cbn [mbind option_bind].
  destruct (p c); [rewrite E; exists (S n); simpl; split; [done|]; split; [lia|done]|exists O; split; [done|]; split; [lia|done]].
Qed.

Lemma trim_eq p drops s Flags : (forall c, drops c = Some (p c)) ->
  trim drops s Flags = Some (let s := if has Flags PH_TRIM_END_ONLY then s else strip p s in
                             if has Flags PH_TRIM_START_ONLY then s else reverse (strip p (reverse s))).
Proof.
  intros Hp. unfold trim. cbv zeta.
  assert (Hend : forall t, (if negb (has Flags PH_TRIM_START_ONLY) then n ← trim_count drops (reverse t); Some (take (length t - n) t) else Some t) =
    Some (if has Flags PH_TRIM_START_ONLY then t else reverse (strip p (reverse t)))).
  { intros t. destruct (has Flags PH_TRIM_START_ONLY); simpl; [done|]. destruct (trim_count_eq p drops (reverse t) Hp) as (n & -> & Hn & <-). simpl.
    rewrite length_reverse in Hn. f_equal. rewrite <- (reverse_involutive t) at 2. set (u := reverse t) in *.
    assert (Hl : length t = length u) by (by rewrite <- (length_reverse t)). rewrite Hl in Hn |- *. rewrite <- (take_drop n u) at 2.
    rewrite reverse_app, take_app_le by (rewrite length_reverse, length_drop; lia). apply take_ge. rewrite length_reverse, length_drop. lia. }
  destruct (has Flags PH_TRIM_END_ONLY); simpl negb; cbv iota; [apply Hend|].
  destruct (trim_count_eq p drops s Hp) as (n & -> & Hn & Ed). cbn [mbind option_bind]. unfold PhSkipStringRef.
  replace (Length s <? 2 * Z.of_nat n) with false by (unfold Length; lia). cbn [mbind option_bind].
  rewrite (Z.mul_comm 2), Z.div_mul, Nat2Z.id, Ed by lia. apply Hend.
Qed.

Lemma trim_string_eq s set Flags : s <> [] -> set <> [] ->
  PhTrimStringRef s set Flags = Some (let s := if has Flags PH_TRIM_END_ONLY then s else strip (trims set) s in
                             if has Flags PH_TRIM_START_ONLY then s else reverse (strip (trims set) (reverse s))).
Proof.
  intros Hs Hset. unfold PhTrimStringRef. assert (Hl : forall t, t <> [] -> (Length t =? 0) = false) by (intros [|? ?] ?; [done|unfold Length; simpl; lia]).
  rewrite !Hl by done. simpl orb. cbv iota. destruct set as [|x [|y set]]; [done|by apply trim_eq|].
  apply trim_eq. intros c. rewrite (table_low id). cbn [mbind option_bind]. f_equal. unfold trims, in_char_set, id. rewrite complete_eq. rewrite andb_true_l.
  change (fun x0 : Z => id x0 <? 256) with (fun x0 : Z => x0 <? 256).
  destruct (forallb _ _); [by rewrite orb_true_l, andb_true_r|]. rewrite orb_false_l.
  pose proof (low_of_member id (x :: y :: set) c) as Hlow. unfold id in Hlow.
  destruct (existsb (fun x0 => x0 =? c) (x :: y :: set)) eqn:E; [by rewrite (Hlow eq_refl)|by rewrite andb_false_r].
Qed.
End strings.

(** ** The properties *)

(** C39: The four searches are their plain definitions, for every string: [PhFindCharInStringRef] and
    [PhFindLastCharInStringRef] give the index of the first and of the last unit that is the
    character (up to case if asked), [PhFindStringInStringRef] the index of the first place where the
    substring starts, each [SIZE_MAX] if there is none, and [PhEqualStringRef] whether all units
    agree. The last two, and all of them with 128-bit instructions or without regard to case, read no
    block, word or unit outside the strings. Without the instructions and with regard to case the
    two searches for a character are defined exactly if the discarded call of wcschr finds the character
    or a null unit in the string or the memory after it, and that of wcsrchr a null unit in the memory
    after it (or Buffer is NULL); otherwise they read past that memory. *)
Theorem searches_are_reference (up : Z -> Z) (intrinsics : bool) (after : option (list Z)) (s sub : list Z) (c : Z) (ic : bool) :
  let or_out_of_bounds (stops : bool) (index : Z) : ub Z := if intrinsics || ic || stops then Some index else None in
  PhFindCharInStringRef up intrinsics after s c ic =
    or_out_of_bounds match after with Some memory => existsb (fun x => (x =? c) || (x =? 0)) (s ++ memory) | None => true end (index_of up ic c s) /\
  PhFindLastCharInStringRef up intrinsics after s c ic =
    or_out_of_bounds match after with Some memory => existsb (fun x => x =? 0) memory | None => true end (last_index_of up ic c s) /\
  PhFindStringInStringRef up intrinsics s sub ic = Some (occurrence_from up ic sub 0 s) /\
  PhEqualStringRef up intrinsics s sub ic = Some (bool_decide (folded up ic s = folded up ic sub)).
Proof. cbv zeta. split_and!; [apply find_char_eq|apply find_last_char_eq|apply find_string_eq|apply equal_string_eq]. Qed.

(** A part of a longer string, and one whose memory ends with it. *)
Example searches_without_instructions :
  PhFindCharInStringRef id false (Some [44; 0]) [49; 50] 44 false = Some SIZE_MAX /\ PhFindCharInStringRef id false (Some []) [49; 50] 44 false = None /\
  PhFindLastCharInStringRef id false (Some []) [49; 44] 44 false = None.
Proof. by vm_compute. Qed.

(** the sign of [PhCompareStringRef] is the lexicographic order of the strings (of their
    upper-case forms if case is ignored), so it is 0 exactly for strings that [PhEqualStringRef]
    calls equal; the lengths in bytes must differ by less than 2^31, as the code notes. *)
Theorem compare_is_lexicographic (up : Z -> Z) (s1 s2 : list Z) (ic : bool) :
  - 2 ^ 31 <= Length s1 - Length s2 < 2 ^ 31 ->
  exists d, PhCompareStringRef up s1 s2 ic = Some d /\ (d ?= 0) = lex (folded up ic s1) (folded up ic s2) /\
    (d = 0 <-> folded up ic s1 = folded up ic s2).
Proof.
  intros Hd. destruct (compare_string_sign up s1 s2 ic Hd) as (d & E & Hs). exists d. split; [done|]. split; [done|].
  rewrite <- Z.compare_eq_iff, Hs. clear. generalize (folded up ic s2). induction (folded up ic s1) as [|x l IH]; intros [|y l']; simpl; try done.
  destruct (Z.compare_spec x y) as [->|?|?]; [rewrite IH; split; congruence|split; [done|intros [= -> _]; lia]..].
Qed.

Definition ascii_upper (c : Z) : Z := if (97 <=? c) && (c <=? 122) then c - 32 else c.

Lemma compare_is_lexicographic_witness :
  exists d, PhCompareStringRef ascii_upper [97; 98] [65; 66; 67] true = Some d /\ (d ?= 0) = Lt /\ (d = 0 <-> [65; 66] = [65; 66; 67]).
Proof. apply (compare_is_lexicographic ascii_upper [97; 98] [65; 66; 67] true). split; [intros [=]|reflexivity]. Defined.

(** splitting. [PhSplitStringRefAtChar], [PhSplitStringRefAtLastChar] and
    [PhSplitStringRefAtString] cut a string around the first, the last, and the first occurrence of
    the separator, and leave it whole, with an empty second part, when the separator does not occur.
    [PhSplitStringRefEx] with a set of characters (or its complement, from either end, with or
    without case) cuts it around the first unit, counted from the end asked for, that the set asks
    for, and returns that unit: its table of low bytes gives the same answer as the set. *)
Theorem splits_at_first_separator (up : Z -> Z) (intrinsics : bool) (after : option (list Z)) (s : list Z) :
  ended intrinsics after -> Z.of_nat (length s) < SIZE_MAX ->
  (forall c, exists found first second, PhSplitStringRefAtChar up intrinsics after s c = Some (found, first, second) /\ (c ∉ first) /\
     if found : bool then s = first ++ c :: second else first = s /\ second = []) /\
  (forall c, exists found first second, PhSplitStringRefAtLastChar up intrinsics after s c = Some (found, first, second) /\ (c ∉ second) /\
     if found : bool then s = first ++ c :: second else first = s /\ second = [] /\ (c ∉ s)) /\
  (forall sep ic, exists found first second, PhSplitStringRefAtString up intrinsics s sep ic = Some (found, first, second) /\
     if found : bool
     then exists u, s = first ++ u ++ second /\ folded up ic u = folded up ic sep /\
            forall a' u' b', s = a' ++ u' ++ b' -> (length a' < length first)%nat -> folded up ic u' <> folded up ic sep
     else first = s /\ second = [] /\ forall a u b, s = a ++ u ++ b -> folded up ic u <> folded up ic sep) /\
  (forall set range Flags, set_ok up s set Flags -> has Flags PH_SPLIT_AT_RANGE = false -> has Flags PH_SPLIT_AT_STRING = false ->
     exists found first second sep, PhSplitStringRefEx up intrinsics after s set range Flags = Some (found, first, second, sep) /\
     if found : bool
     then exists c, sep = [c] /\ s = first ++ c :: second /\ splits_at up set Flags c = true /\
            Forall (fun x => splits_at up set Flags x = false) (if has Flags PH_SPLIT_START_AT_END then second else first)
     else first = s /\ second = [] /\ sep = [] /\ Forall (fun x => splits_at up set Flags x = false) s).
Proof.
  intros He Hs. split_and!.
  - intros c. by apply split_char.
  - intros c. by apply split_last_char.
  - intros sep ic. by apply split_string.
  - intros set range Flags. by apply split_set.
Qed.

Lemma splits_at_first_separator_witness :
  (exists found first second, PhSplitStringRefAtChar ascii_upper true None [49; 44; 50; 44; 51] 44 = Some (found, first, second) /\ (44 ∉ first) /\
     if found : bool then [49; 44; 50; 44; 51] = first ++ 44 :: second else first = [49; 44; 50; 44; 51] /\ second = []) /\
  PhSplitStringRefEx ascii_upper true None [49; 44; 50; 44; 51] [44; 59] (0, 0) PH_SPLIT_START_AT_END = Some (true, [49; 44; 50], [51], [44]).
Proof.
  split; [|by vm_compute]. exact (proj1 (splits_at_first_separator ascii_upper true None [49; 44; 50; 44; 51] (or_introl eq_refl) ltac:(by vm_compute)) 44).
Defined.

(** trimming removes from each end asked for the longest run of units to trim, and nothing
    else. When the set has one character, or a unit above 255, or the string has no unit above 255,
    the units to trim are the characters of the set; otherwise they are all units whose low byte is
    in the set. *)
Theorem trim_strips (s set : list Z) (Flags : Z) :
  s <> [] -> set <> [] ->
  PhTrimStringRef s set Flags =
    Some (let s := if has Flags PH_TRIM_END_ONLY then s else strip (trims set) s in
          if has Flags PH_TRIM_START_ONLY then s else reverse (strip (trims set) (reverse s))) /\
  (Forall (fun x => 0 <= x) (s ++ set) -> (length set = 1%nat \/ Exists (fun x => 256 <= x) set \/ Forall (fun x => x < 256) s) ->
   forall c, c ∈ s -> trims set c = bool_decide (c ∈ set)).
Proof.
  intros Hs Hset. split; [by apply trim_string_eq|]. intros (Hps & Hpset)%Forall_app Hcase c Hc. apply eq_true_iff_eq. rewrite bool_decide_eq_true.
  assert (Hin : existsb (fun x => x =? c) set = true <-> c ∈ set).
  { rewrite existsb_exists. setoid_rewrite list_elem_of_In. setoid_rewrite Z.eqb_eq. split; [by intros (x & ? & <-)|eauto]. }
  destruct set as [|x [|y set]]; [done| |].
  { cbn [trims]. rewrite list_elem_of_singleton. lia. }
  cbn [trims]. destruct (forallb _ _) eqn:Hall; [|exact Hin]. rewrite <- Hin.
  assert (Hlow : Forall (fun x => x < 256) (x :: y :: set)).
  { rewrite Forall_forall. intros z Hz%list_elem_of_In. rewrite forallb_forall in Hall. specialize (Hall z Hz). lia. }
  destruct Hcase as [?|[(z & Hz & Hz')%Exists_exists|Hlows]]; [done| |].
  { rewrite Forall_forall in Hlow. specialize (Hlow z Hz). simpl in Hlow. lia. }
  rewrite (existsb_ext' _ (fun x => x =? c)); [done|]. intros z Hz. rewrite Forall_forall in Hps, Hpset, Hlow, Hlows.
  pose proof (Hps c Hc). pose proof (Hlows c Hc). pose proof (Hlow z Hz). pose proof (Hpset z Hz). simpl in *. by rewrite !Z.mod_small by lia.
Qed.

Lemma trim_strips_witness :
  PhTrimStringRef [32; 9; 97; 32; 98; 32] [32; 9] 0 = Some [97; 32; 98] /\ PhTrimStringRef [32; 97; 288] [32; 9] 0 = Some [97].
Proof.
  split.
  - exact (proj1 (trim_strips [32; 9; 97; 32; 98; 32] [32; 9] 0 ltac:(done) ltac:(done))).
  - exact (proj1 (trim_strips [32; 97; 288] [32; 9] 0 ltac:(done) ltac:(done))).
Defined.

(** U+0120 is trimmed with spaces and tabs. *)
Lemma trim_by_low_byte : PhTrimStringRef [288; 97] [32; 9] 0 = Some [97] /\ (288 ∉ [32; 9]).
Proof. split; [by vm_compute|]. intros H. by apply list_elem_of_In in H as [?|[?|[]]]. Qed.

End StringRef.
