(* ===== verification/Numbers.v ===== *)
(** * Numbers as text: [phlib/basesup.c], [phlib/data.c]

    The digit tables, parsing integers in a base of up to 69, and hexadecimal dumps. Writing integers
    is in [Format].

    Two limits show: a number parsed is taken modulo 2^64 without notice, and
    [PhBufferToHexStringBuffer] does not count its terminator, so that a buffer of exactly the
    length it checks for is written past its end ([hex_buffer_bounds]). *)

From S2P Require Import Prelude StringRef.

Module Numbers.

(** ** Tables *)

Definition range (first : Z) (n : nat) : list Z := (fun i => first + Z.of_nat i) <$> seq 0 n.

Definition ULONG_MAX : Z := 0xFFFFFFFF.

(** Digits: 0-9, then letters of either case, then the other printable characters. *)
Definition PhCharToInteger : list Z :=
  replicate 32 ULONG_MAX ++ range 36 16 ++ range 0 10 ++ range 52 7 ++ range 10 26 ++ range 59 6 ++ range 10 26 ++
  range 65 4 ++ replicate 129 ULONG_MAX.

Definition PhIntegerToChar : list Z :=
  range 48 10 ++ range 97 26 ++ range 32 16 ++ range 58 7 ++ range 91 6 ++ range 123 4.

Definition PhIntegerToCharUpper : list Z :=
  range 48 10 ++ range 65 26 ++ range 32 16 ++ range 58 7 ++ range 91 6 ++ range 123 4.

(** ** Parsing *)

(** The loop: whether all characters are digits of the base, and the number. *)
Fixpoint parse_digits (String : list Z) (Base : Z) (valid : bool) (result : Z) : ub (bool * Z) :=
  match String with
  | [] => Some (valid, result)
  | c :: String =>
      value ← PhCharToInteger !! Z.to_nat (u8 c);
      if value <? Base then parse_digits String Base valid (u64 (result * Base + value))
      else parse_digits String Base false result
  end.

Definition PhpStringToInteger64 (String : list Z) (Base : Z) : ub (bool * Z) := parse_digits String Base true 0.

(** The base a prefix stands for, [x], [o], [b], [t], [q], [w] and [r] in either case. *)
Definition prefix_base (c : Z) : Z :=
  if (c =? 120) || (c =? 88) then 16 else if (c =? 111) || (c =? 79) then 8 else
  if (c =? 98) || (c =? 66) then 2 else if (c =? 116) || (c =? 84) then 3 else
  if (c =? 113) || (c =? 81) then 4 else if (c =? 119) || (c =? 87) then 12 else
  if (c =? 114) || (c =? 82) then 32 else 10.

(** The value returned and what is stored to [Integer]: nothing when the base is refused.
    [-(LONG64)result] overflows for the least LONG64. *)
Definition PhStringToInteger64 (String : list Z) (Base : Z) : ub (bool * option Z) :=
  if 69 <? Base then Some (false, None) else
  let '(string, negative) :=
    match String with
    | c :: rest => if (c =? 45) || (c =? 43) then (rest, c =? 45) else (String, false)
    | [] => (String, false)
    end in
  let '(string, base) :=
    if negb (Base =? 0) then (string, Base)
    else match string with
         | c0 :: c1 :: rest => if c0 =? 48 then let base := prefix_base c1 in (if negb (base =? 10) then rest else string, base) else (string, 10)
         | _ => (string, 10)
         end in
  '(valid, result) ← PhpStringToInteger64 string base;
  integer ← (if negative then if signed 64 result =? - 2 ^ 63 then None else Some (- signed 64 result) else Some (signed 64 result));
  Some (valid, Some integer).

(** ** Hexadecimal dumps *)

(** The loop: bytes from pairs of characters, written to [Buffer] from index [i] on. *)
Fixpoint hex_bytes (String : list Z) (Buffer : list Z) (i : nat) : ub (list Z) :=
  match String with
  | c1 :: c2 :: String =>
      hi ← PhCharToInteger !! Z.to_nat (u8 c1);
      lo ← PhCharToInteger !! Z.to_nat (u8 c2);
      if (i <? length Buffer)%nat then hex_bytes String (<[i := u8 (u8 (Z.shiftl hi 4) + u8 lo)]> Buffer) (i + 1) else None
  | _ => Some Buffer
  end.

Definition PhHexStringToBuffer (String Buffer : list Z) : ub (bool * list Z) :=
  if negb (Z.land (Z.of_nat (length String)) 1 =? 0) then Some (false, Buffer)
  else b ← hex_bytes String Buffer 0; Some (true, b).

(** [BufferLength] is a ULONG and the length of the string is not limited by it otherwise. *)
Definition PhHexStringToBufferEx (String : list Z) (BufferLength : Z) (Buffer : list Z) : ub (bool * list Z) :=
  if negb (Z.land (Z.of_nat (length String)) 1 =? 0) then Some (false, Buffer)
  else if BufferLength <? Z.of_nat (length String) / 2 then Some (false, Buffer)
  else b ← hex_bytes String Buffer 0; Some (true, b).

(** The loop: [Out] is the output, [i] the index of the byte. *)
Fixpoint hex_digits (table : list Z) (Buffer Out : list Z) (i : nat) : ub (list Z) :=
  match Buffer with
  | [] => Some Out
  | b :: Buffer =>
      hi ← table !! Z.to_nat (Z.shiftr b 4);
      lo ← table !! Z.to_nat (Z.land b 0xf);
      out ← store_block Out (2 * i) [hi; lo];
      hex_digits table Buffer out (i + 1)
  end.

Definition hex_table (UpperCase : bool) : list Z := if UpperCase then PhIntegerToCharUpper else PhIntegerToChar.

(** The units of the string object, the terminator [PhCreateStringEx] writes included; the rest of a
    new string is what the allocator left ([garbage]). *)
Definition PhBufferToHexStringEx (garbage : nat -> Z) (Buffer : list Z) (UpperCase : bool) : ub (list Z) :=
  let n := (2 * length Buffer)%nat in
  hex_digits (hex_table UpperCase) Buffer ((garbage <$> seq 0 n) ++ [0]) 0.

Definition PhBufferToHexString (garbage : nat -> Z) (Buffer : list Z) : ub (list Z) := PhBufferToHexStringEx garbage Buffer false.

(** [OutputLength] is in bytes; [OutputBuffer] the units it has room for. The return value, the
    output, and [*ReturnLength]. The index is a ULONG: from 2^32 bytes on the loop never ends. *)
Definition PhBufferToHexStringBuffer (InputBuffer : list Z) (UpperCase : bool) (OutputBuffer : list Z) (OutputLength : Z) : ub (bool * list Z * option Z) :=
  if OutputLength <? Z.of_nat (length InputBuffer) * 2 * 2 then Some (false, OutputBuffer, None)
  else if 2 ^ 32 <=? Z.of_nat (length InputBuffer) then None
  else
    out ← hex_digits (hex_table UpperCase) InputBuffer OutputBuffer 0;
    out ← store_block out (2 * length InputBuffer) [0];
    Some (true, out, Some (Z.of_nat (length InputBuffer) * 2 * 2)).

(** ** Powers and bits *)

(** [while (Exponent)], halving it, at width [w]; [fuel] is its number of bits. *)
Fixpoint exponentiate (w : Z) (fuel : nat) (result Base Exponent : Z) : Z :=
  match fuel with
  | O => result
  | S fuel =>
      if Exponent =? 0 then result else
      exponentiate w fuel (if negb (Z.land Exponent 1 =? 0) then (result * Base) mod 2 ^ w else result)
        ((Base * Base) mod 2 ^ w) (Z.shiftr Exponent 1)
  end.

Definition PhExponentiate (Base Exponent : Z) : Z := exponentiate 32 32 1 Base Exponent.
Definition PhExponentiate64 (Base Exponent : Z) : Z := exponentiate 64 32 1 Base Exponent.

(** The variant without the population count instruction, for 32 bits. *)
Definition PhCountBits (Value : Z) : Z :=
  let Value := Value -₃₂ Z.land (Z.shiftr Value 1) (0xffffffff / 3) in
  let Value := Z.land Value (0xffffffff / 15 * 3) +₃₂ Z.land (Z.shiftr Value 2) (0xffffffff / 15 * 3) in
  let Value := Z.land (Value +₃₂ Z.shiftr Value 4) (0xffffffff / 255 * 15) in
  Z.shiftr (u32 (Value * (0xffffffff / 255))) 24.

(** ** Digits *)

Definition digits_value (base : Z) (ds : list Z) : Z := fold_left (fun a d => a * base + d) ds 0.

(** [c] is a character for the digit [d]. *)
Definition digit_char (c d : Z) : Prop := PhCharToInteger !! Z.to_nat (u8 c) = Some d.

(** Checked for the 69 entries of both tables. *)
Definition entry_ok (upper : bool) (n : nat) : bool :=
  match hex_table upper !! n with
  | Some c => bool_decide (PhCharToInteger !! Z.to_nat (u8 c) = Some (Z.of_nat n)) && (32 <=? c) && (c <? 127) &&
      ((36 <=? Z.of_nat n) || (48 <=? c)) && Bool.eqb (c =? 43) (Z.of_nat n =? 47) && Bool.eqb (c =? 45) (Z.of_nat n =? 49)
  | None => false
  end.

Lemma table_digit (upper : bool) (d : Z) : 0 <= d < 69 ->
  exists c, hex_table upper !! Z.to_nat d = Some c /\ digit_char c d /\ 32 <= c < 127 /\ (d < 36 -> 48 <= c) /\ (c = 43 <-> d = 47) /\ (c = 45 <-> d = 49).
Proof.
  intros Hd. assert (Hall : forallb (entry_ok upper) (seq 0 69) = true) by (by destruct upper; vm_compute).
  rewrite forallb_forall in Hall. specialize (Hall (Z.to_nat d)). rewrite in_seq in Hall. specialize (Hall ltac:(lia)). unfold entry_ok in Hall.
  destruct (hex_table upper !! Z.to_nat d) as [c|]; [|done]. exists c. split; [done|]. rewrite Z2Nat.id in Hall by lia.
  rewrite !andb_true_iff, orb_true_iff, bool_decide_eq_true in Hall. destruct Hall as (((((Hd' & Hc1) & Hc2) & Hc3) & Hp) & Hm).
  apply Bool.eqb_prop in Hp, Hm. split; [done|]. split; [lia|]. split; [destruct Hc3; lia|].
  destruct (Z.eqb_spec c 43), (Z.eqb_spec d 47), (Z.eqb_spec c 45), (Z.eqb_spec d 49); try discriminate; lia.
Qed.

Lemma u64_step a base d : u64 (u64 a * base + d) = u64 (a * base + d).
Proof. unfold u64. by rewrite <- (Zplus_mod_idemp_l (a mod 2 ^ 64 * base)), Zmult_mod_idemp_l, Zplus_mod_idemp_l. Qed.

Lemma parse_digits_eq s ds base : Forall2 digit_char s ds -> Forall (fun d => d < base) ds -> forall valid r,
  parse_digits s base valid (u64 r) = Some (valid, u64 (fold_left (fun a d => a * base + d) ds r)).
Proof.
  induction 1 as [|c d s ds Hc Hs IH]; intros Hlt valid r; [done|]. apply Forall_cons in Hlt as (Hd & Hlt). cbn [parse_digits fold_left].
  unfold digit_char in Hc. rewrite Hc. cbn [mbind option_bind]. replace (d <? base) with true by lia. rewrite u64_step. by apply IH.
Qed.

Lemma parse_string_eq s ds base : Forall2 digit_char s ds -> Forall (fun d => d < base) ds ->
  PhpStringToInteger64 s base = Some (true, u64 (digits_value base ds)).
Proof. intros Hs Hd. exact (parse_digits_eq s ds base Hs Hd true 0). Qed.

(** A sequence of digits, without and with a sign before it. *)
Lemma parse_unsigned s ds base : 1 <= base <= 69 -> Forall2 digit_char s ds -> Forall (fun d => d < base) ds ->
  (forall c, head s = Some c -> c <> 45 /\ c <> 43) ->
  PhStringToInteger64 s base = Some (true, Some (signed 64 (digits_value base ds))).
Proof.
  intros Hb Hs Hd Hh. unfold PhStringToInteger64. replace (69 <? base) with false by lia.
  assert (E : match s with c :: rest => if (c =? 45) || (c =? 43) then (rest, c =? 45) else (s, false) | [] => (s, false) end = (s, false)).
  { destruct s as [|c s]; [done|]. destruct (Hh c eq_refl). by replace ((c =? 45) || (c =? 43)) with false by lia. }
  rewrite E. replace (base =? 0) with false by lia. simpl negb. cbv iota. rewrite (parse_string_eq s ds base Hs Hd). cbn [mbind option_bind].
  unfold signed, u64. by rewrite Zmod_mod.
Qed.

Lemma parse_negative s ds base : 1 <= base <= 69 -> Forall2 digit_char s ds -> Forall (fun d => d < base) ds ->
  0 <= digits_value base ds < 2 ^ 63 ->
  PhStringToInteger64 (45 :: s) base = Some (true, Some (- digits_value base ds)).
Proof.
  intros Hb Hs Hd Hv. unfold PhStringToInteger64. replace (69 <? base) with false by lia. simpl orb. cbv iota.
  replace (base =? 0) with false by lia. simpl negb. cbv iota. rewrite (parse_string_eq s ds base Hs Hd). cbn [mbind option_bind].
  rewrite u64_id by (unfold in_width; lia). rewrite signed_id by lia. replace (digits_value base ds =? - 2 ^ 63) with false by lia. done.
Qed.

(** ** Hexadecimal *)

Definition hex_pair (upper : bool) (b : Z) : list Z :=
  [default 0 (hex_table upper !! Z.to_nat (b / 16)); default 0 (hex_table upper !! Z.to_nat (b mod 16))].

Fixpoint hex_text (upper : bool) (bs : list Z) : list Z :=
  match bs with [] => [] | b :: bs => hex_pair upper b ++ hex_text upper bs end.

Lemma length_hex_text upper bs : length (hex_text upper bs) = (2 * length bs)%nat.
Proof. induction bs as [|b bs IH]; [done|]. cbn [hex_text]. rewrite length_app, IH. simpl. lia. Qed.

Lemma hex_digits_eq upper bs : Forall (in_width 8) bs -> forall Out i, (2 * (i + length bs) <= length Out)%nat ->
  hex_digits (hex_table upper) bs Out i = Some (write_at Out (2 * i) (hex_text upper bs)).
Proof.
  induction 1 as [|b bs Hb Hbs IH]; intros Out i Hl; cbn [hex_digits hex_text]; [by rewrite write_at_nil|]. simpl in Hl. unfold in_width in Hb.
  assert (Hhi : Z.shiftr b 4 = b / 16) by (by rewrite Z.shiftr_div_pow2). assert (Hlo : Z.land b 0xf = b mod 16) by (change 0xf with (Z.ones 4); by rewrite Z.land_ones).
  rewrite Hhi, Hlo. pose proof (Z.mod_pos_bound b 16 ltac:(lia)). assert (0 <= b / 16 < 16) by (split; [apply Z.div_pos; lia|apply Z.div_lt_upper_bound; lia]).
  destruct (table_digit upper (b / 16) ltac:(lia)) as (c1 & E1 & _). destruct (table_digit upper (b mod 16) ltac:(lia)) as (c2 & E2 & _).
  cbn [hex_text]. change (hex_pair upper b) with [default 0 (hex_table upper !! Z.to_nat (b / 16)); default 0 (hex_table upper !! Z.to_nat (b mod 16))].
  rewrite E1, E2. cbn [mbind option_bind default]. rewrite store_block_Some by (simpl; lia). cbn [mbind option_bind].
  rewrite IH by (rewrite length_write_at by (simpl; lia); lia). f_equal.
  replace (2 * (i + 1))%nat with (2 * i + length [c1; c2])%nat by (simpl; lia).
  rewrite write_at_app; [done|]. rewrite length_app, length_hex_text. simpl. lia.
Qed.

Lemma hex_bytes_eq upper bs : Forall (in_width 8) bs -> forall Buffer i, (i + length bs <= length Buffer)%nat ->
  hex_bytes (hex_text upper bs) Buffer i = Some (write_at Buffer i bs).
Proof.
  induction 1 as [|b bs Hb Hbs IH]; intros Buffer i Hl; cbn [hex_text]; [cbn [hex_bytes]; by rewrite write_at_nil|]. simpl in Hl. unfold in_width in Hb.
  pose proof (Z.mod_pos_bound b 16 ltac:(lia)). assert (0 <= b / 16 < 16) by (split; [apply Z.div_pos; lia|apply Z.div_lt_upper_bound; lia]).
  cbn [hex_text]. unfold hex_pair at 1. cbn [app hex_bytes].
  destruct (table_digit upper (b / 16) ltac:(lia)) as (c1 & E1 & D1 & _). destruct (table_digit upper (b mod 16) ltac:(lia)) as (c2 & E2 & D2 & _).
  rewrite E1, E2. cbn [default]. unfold digit_char in D1, D2. simpl (id _). rewrite D1, D2. cbn [mbind option_bind].
  replace (i <? length Buffer)%nat with true by (symmetry; apply Nat.ltb_lt; lia).
  assert (Hv : u8 (u8 (Z.shiftl (b / 16) 4) + u8 (b mod 16)) = b).
  { rewrite Z.shiftl_mul_pow2 by lia. pose proof (Z.div_mod b 16 ltac:(lia)). change (2 ^ 4) with 16. rewrite (u8_id (b / 16 * 16)), (u8_id (b mod 16)), u8_id by (unfold in_width; lia). lia. }
  rewrite Hv. rewrite IH by (rewrite length_insert; lia). f_equal.
  rewrite insert_write_at by lia. change (i + 1)%nat with (i + length [b])%nat. by rewrite write_at_app by (simpl; lia).
Qed.

Lemma even_hex_text upper bs : Z.land (Z.of_nat (length (hex_text upper bs))) 1 = 0.
Proof. rewrite length_hex_text. change 1 with (Z.ones 1). rewrite Z.land_ones by lia. rewrite Nat2Z.inj_mul, (Z.mul_comm _ (Z.of_nat (length bs))). by apply Z.mod_mul. Qed.

Lemma string_to_buffer_eq upper bs Buffer : Forall (in_width 8) bs -> (length bs <= length Buffer)%nat ->
  PhHexStringToBuffer (hex_text upper bs) Buffer = Some (true, bs ++ drop (length bs) Buffer).
Proof.
  intros Hb Hl. unfold PhHexStringToBuffer. rewrite even_hex_text. simpl negb. cbv iota. by rewrite (hex_bytes_eq upper bs Hb) by lia.
Qed.

Lemma buffer_to_string_eq garbage upper bs : Forall (in_width 8) bs ->
  PhBufferToHexStringEx garbage bs upper = Some (hex_text upper bs ++ [0]).
Proof.
  intros Hb. unfold PhBufferToHexStringEx. cbv zeta.
  assert (Hl : length (garbage <$> seq 0 (2 * length bs)) = (2 * length bs)%nat) by (by rewrite length_fmap, length_seq).
  rewrite (hex_digits_eq upper bs Hb) by (rewrite length_app, Hl; simpl; lia). unfold write_at. rewrite Nat.mul_0_r, take_0. simpl app at 1.
  rewrite length_hex_text, drop_app_length' by done. done.
Qed.

(** ** Powers *)

Lemma exponentiate_eq w fuel : 0 < w -> forall r b e, 0 <= e < 2 ^ Z.of_nat fuel -> 0 <= b -> 0 <= r < 2 ^ w ->
  exponentiate w fuel r b e = (r * b ^ e) mod 2 ^ w.
Proof.
  intros Hw. induction fuel as [|fuel IH]; intros r b e He Hb Hr; cbn [exponentiate].
  - change (2 ^ Z.of_nat 0) with 1 in He. replace e with 0 by lia. by rewrite Z.pow_0_r, Z.mul_1_r, Z.mod_small.
  - destruct (Z.eqb_spec e 0) as [->|Hne]; [by rewrite Z.pow_0_r, Z.mul_1_r, Z.mod_small|].
    rewrite Nat2Z.inj_succ, Z.pow_succ_r in He by lia. rewrite Z.shiftr_div_pow2 by lia. change (2 ^ 1) with 2.
    pose proof (Z.pow_pos_nonneg 2 w ltac:(lia) ltac:(lia)) as Hp. pose proof (Z.div_mod e 2 ltac:(lia)) as Hd. pose proof (Z.mod_pos_bound e 2 ltac:(lia)).
    rewrite IH; [|split; [apply Z.div_pos; lia|apply Z.div_lt_upper_bound; lia]|apply Z.mod_pos_bound; lia|destruct (negb _); [apply Z.mod_pos_bound; lia|done]].
    assert (Hpow : (b * b) ^ (e / 2) = b ^ (2 * (e / 2))) by (rewrite Z.pow_mul_r, Z.pow_2_r by (try apply Z.div_pos; lia); done).
    assert (Hsq : forall x, (x * ((b * b) mod 2 ^ w) ^ (e / 2)) mod 2 ^ w = (x * b ^ (2 * (e / 2))) mod 2 ^ w).
    { intros x. rewrite <- Z.mul_mod_idemp_r, Z.mod_pow_l, Z.mul_mod_idemp_r, Hpow by lia. done. }
    rewrite Hsq. change 1 with (Z.ones 1) at 1. rewrite Z.land_ones by lia. change (2 ^ 1) with 2.
    destruct (Z.eqb_spec (e mod 2) 0) as [H0|H0]; simpl negb; cbv iota.
    + do 2 f_equal. f_equal. lia.
    + rewrite Z.mul_mod_idemp_l by lia. f_equal. rewrite <- Z.mul_assoc. f_equal. rewrite Hd at 2. replace (e mod 2) with 1 by lia.
      rewrite Z.pow_add_r, Z.pow_1_r by (try apply Z.mul_nonneg_nonneg; try apply Z.div_pos; lia). lia.
Qed.

(** ** The properties *)

(** hexadecimal dumps round-trip. A dump of any bytes, in either case, has two characters for
    each byte and a terminator, is written inside the string object, and [PhHexStringToBuffer] reads
    it back into a buffer that is large enough: the bytes, and after them what the buffer had. *)
Theorem hex_round_trip (garbage : nat -> Z) (bs Buffer : list Z) (UpperCase : bool) :
  Forall (in_width 8) bs -> (length bs <= length Buffer)%nat ->
  exists text, PhBufferToHexStringEx garbage bs UpperCase = Some (text ++ [0]) /\ length text = (2 * length bs)%nat /\
    PhHexStringToBuffer text Buffer = Some (true, bs ++ drop (length bs) Buffer).
Proof.
  intros Hb Hl. exists (hex_text UpperCase bs). split; [by apply buffer_to_string_eq|]. split; [apply length_hex_text|by apply string_to_buffer_eq].
Qed.

Lemma hex_round_trip_witness :
  exists text, PhBufferToHexStringEx (fun _ => 7) [0x12; 0x9a; 0xff] false = Some (text ++ [0]) /\ length text = 6%nat /\
    PhHexStringToBuffer text [1; 2; 3; 4] = Some (true, [0x12; 0x9a; 0xff] ++ drop 3 [1; 2; 3; 4]).
Proof. apply (hex_round_trip (fun _ => 7) [0x12; 0x9a; 0xff] [1; 2; 3; 4] false); [repeat constructor; intros [=]|simpl; lia]. Defined.

(** [PhBufferToHexStringBuffer] refuses an output buffer without room for the digits, touching
    nothing; it writes the digits and a terminator when there is room for both; and when there is
    room for exactly the digits, which its check lets pass, the terminator is written past the end. *)
Theorem hex_buffer_bounds (bs Out : list Z) (UpperCase : bool) :
  Forall (in_width 8) bs -> Z.of_nat (length bs) < 2 ^ 32 ->
  let r := PhBufferToHexStringBuffer bs UpperCase Out (Z.of_nat (length Out) * 2) in
  ((length Out < 2 * length bs)%nat -> r = Some (false, Out, None)) /\
  (length Out = (2 * length bs)%nat -> r = None) /\
  ((2 * length bs < length Out)%nat ->
     exists text, length text = (2 * length bs)%nat /\ PhBufferToHexStringEx (fun _ => 0) bs UpperCase = Some (text ++ [0]) /\
       r = Some (true, text ++ [0] ++ drop (2 * length bs + 1) Out, Some (Z.of_nat (length bs) * 4))).
Proof.
  intros Hb Hn r. unfold r, PhBufferToHexStringBuffer.
  replace (2 ^ 32 <=? Z.of_nat (length bs)) with false by lia. split_and!; intros Hl.
  - by replace (Z.of_nat (length Out) * 2 <? Z.of_nat (length bs) * 2 * 2) with true by lia.
  - replace (Z.of_nat (length Out) * 2 <? Z.of_nat (length bs) * 2 * 2) with false by lia.
    rewrite (hex_digits_eq UpperCase bs Hb) by lia. cbn [mbind option_bind].
    unfold store_block. by rewrite decide_False by (rewrite length_write_at by (rewrite length_hex_text; lia); simpl; lia).
  - replace (Z.of_nat (length Out) * 2 <? Z.of_nat (length bs) * 2 * 2) with false by lia. exists (hex_text UpperCase bs).
    pose proof (length_hex_text UpperCase bs) as Ht. split; [done|]. split; [by apply buffer_to_string_eq|].
    rewrite (hex_digits_eq UpperCase bs Hb) by lia. cbn [mbind option_bind].
    rewrite store_block_Some by (rewrite length_write_at by lia; simpl; lia). cbn [mbind option_bind]. do 3 f_equal; [|lia].
    replace (2 * length bs)%nat with (2 * 0 + length (hex_text UpperCase bs))%nat at 1 by lia.
    rewrite write_at_app by (rewrite length_app; simpl; lia). unfold write_at. rewrite Nat.mul_0_r, take_0. simpl app at 1.
    rewrite length_app, Ht. simpl length. by rewrite <- app_assoc.
Qed.

Lemma hex_buffer_bounds_witness : PhBufferToHexStringBuffer [0xab] true [9; 9] (2 * 2) = None.
Proof. apply (hex_buffer_bounds [0xab] [9; 9] true); [repeat constructor; intros [=]|reflexivity|reflexivity]. Defined.

(** Any other character is taken for a digit of a larger base, and the rest wraps. *)
Example hex_accepts_anything : PhHexStringToBuffer [122; 33] [0] = Some (true, [85]).
Proof. reflexivity. Qed.

(** the loops of [PhExponentiate] and [PhExponentiate64] end within the 32 bits of the exponent
    with the power modulo 2^32 and 2^64. *)
Theorem exponentiation_correct (Base Exponent : Z) :
  0 <= Base -> 0 <= Exponent < 2 ^ 32 ->
  PhExponentiate Base Exponent = (Base ^ Exponent) mod 2 ^ 32 /\ PhExponentiate64 Base Exponent = (Base ^ Exponent) mod 2 ^ 64.
Proof.
  intros Hb He. unfold PhExponentiate, PhExponentiate64. rewrite !exponentiate_eq by (done || lia). by rewrite !Z.mul_1_l.
Qed.

Lemma exponentiation_correct_witness : PhExponentiate 3 20 = 3486784401 /\ PhExponentiate64 3 41 = (3 ^ 41) mod 2 ^ 64.
Proof. split; [exact (proj1 (exponentiation_correct 3 20 ltac:(lia) ltac:(lia)))|exact (proj2 (exponentiation_correct 3 41 ltac:(lia) ltac:(lia)))]. Defined.

End Numbers.
