(* ===== verification/Format.v ===== *)
(** * Formatting: [phlib/format.c], [phlib/format_i.h]

    [format_i.h] is compiled twice, into [PhFormat] and [PhFormatToBuffer], which define its macros
    [ENSURE_BUFFER] and [OK_BUFFER] differently: the one grows a string object, the other notices
    that a buffer is full. Here the code is a section over the class [Macros]; [MacrosLaws] says
    what it relies on, and each of the two functions is an instance.

    Elements: characters, strings, and integers of either width and sign, with their flags.
    Multi-byte strings go through a system function, and floating-point numbers and sizes through
    [format_std.cpp]; they are left out. The thousands separator is the locale's. *)

From S2P Require Import Prelude StringRef Numbers.

Module Format.

Definition BUFFER_SIZE : nat := 512.
Definition SMALL_BUFFER_LENGTH : Z := 48 - 16 - 2.

Definition FormatUsePad : Z := 0x80.
Definition FormatUseRadix : Z := 0x100.
Definition FormatGroupDigits : Z := 0x10000.
Definition FormatPrefixSign : Z := 0x20000.
Definition FormatPadZeros : Z := 0x40000.
Definition FormatUpperCase : Z := 0x20000000.
Definition FormatRightAlign : Z := 0x40000000.
Definition FormatLeftAlign : Z := 0x80000000.

(** The low bits of [Type] choose the member of the union. A null-terminated string is the memory
    from its first unit on. *)
Inductive PH_FORMAT_VALUE :=
| CharFormatType (Char : Z)
| StringFormatType (String : list Z)
| StringZFormatType (StringZ : list Z)
| Int32FormatType (Int32 : Z)
| Int64FormatType (Int64 : Z)
| IntPtrFormatType (IntPtr : Z)
| UInt32FormatType (UInt32 : Z)
| UInt64FormatType (UInt64 : Z)
| UIntPtrFormatType (UIntPtr : Z).

Record PH_FORMAT := { Type_ : Z; Width : Z; Pad : Z; Radix : Z; u : PH_FORMAT_VALUE }.

Definition plain (v : PH_FORMAT_VALUE) : PH_FORMAT := {| Type_ := 0; Width := 0; Pad := 0; Radix := 0; u := v |}.

Definition PhInitFormatC (Char : Z) : PH_FORMAT := plain (CharFormatType Char).
Definition PhInitFormatSR (String : list Z) : PH_FORMAT := plain (StringFormatType String).
Definition PhInitFormatD (Int32 : Z) : PH_FORMAT := plain (Int32FormatType Int32).
Definition PhInitFormatU (UInt32 : Z) : PH_FORMAT := plain (UInt32FormatType UInt32).
Definition PhInitFormatX (UInt32 : Z) : PH_FORMAT :=
  {| Type_ := FormatUseRadix; Width := 0; Pad := 0; Radix := 16; u := UInt32FormatType UInt32 |}.
Definition PhInitFormatI64D (Int64 : Z) : PH_FORMAT := plain (Int64FormatType Int64).
Definition PhInitFormatI64U (UInt64 : Z) : PH_FORMAT := plain (UInt64FormatType UInt64).
Definition PhInitFormatI64UGroupDigits (UInt64 : Z) : PH_FORMAT :=
  {| Type_ := FormatGroupDigits; Width := 0; Pad := 0; Radix := 0; u := UInt64FormatType UInt64 |}.
Definition PhInitFormatI64UWithWidth (UInt64 Width : Z) : PH_FORMAT :=
  {| Type_ := FormatPadZeros; Width := Width; Pad := 0; Radix := 0; u := UInt64FormatType UInt64 |}.
Definition PhInitFormatI64X (UInt64 : Z) : PH_FORMAT :=
  {| Type_ := FormatUseRadix; Width := 0; Pad := 0; Radix := 16; u := UInt64FormatType UInt64 |}.

(** ** The output *)

(** The variables of the two functions: the units at [string->Buffer] or [Buffer], their limit in
    bytes, the cursor as an index, the bytes used, and [overrun]. *)
Record output := { mem : list Z; cap : Z; buffer : nat; usedLength : Z; overrun : bool }.

Class Macros := { ENSURE_BUFFER : Z -> output -> ub output; OK_BUFFER : output -> bool }.

Definition ADVANCE_BUFFER (Length : Z) (o : output) : output :=
  {| mem := mem o; cap := cap o; buffer := buffer o + Z.to_nat (Length / 2); usedLength := usedLength o +₆₄ Length; overrun := overrun o |}.

(** Units written at an index. *)
Definition poke (i : nat) (units : list Z) (o : output) : ub output :=
  m ← store_block (mem o) i units;
  Some {| mem := m; cap := cap o; buffer := buffer o; usedLength := usedLength o; overrun := overrun o |}.

(** Units written at the cursor, which moves past them. *)
Definition put (units : list Z) (o : output) : ub output :=
  o ← poke (buffer o) units o;
  Some {| mem := mem o; cap := cap o; buffer := buffer o + length units; usedLength := usedLength o; overrun := overrun o |}.

Definition add_used (n : Z) (o : output) : output :=
  {| mem := mem o; cap := cap o; buffer := buffer o; usedLength := usedLength o +₆₄ n; overrun := overrun o |}.

Section format.
Context (PhpFormatThousandSeparator : Z).

(** ** Integers *)

(** [*temp-- = c]: [tempBuffer] is filled from its end. *)
Definition push (c : Z) (temp : list Z) : ub (list Z) :=
  if (length temp <? BUFFER_SIZE)%nat then Some (c :: temp) else None.

Section digits.
Context (radix : Z) (integerToChar : list Z).

(** The two [do] loops over [PROCESS_DIGIT]; a 64-bit number has at most 64 digits. *)
Fixpoint digit_loop (fuel : nat) (Input : Z) (temp : list Z) : ub (list Z) :=
  match fuel with
  | O => None
  | S fuel =>
      c ← integerToChar !! Z.to_nat (Input mod radix);
      temp ← push c temp;
      let Input := Input / radix in
      if Input =? 0 then Some temp else digit_loop fuel Input temp
  end.

Fixpoint group_loop (fuel : nat) (Input needsSep : Z) (temp : list Z) : ub (list Z) :=
  match fuel with
  | O => None
  | S fuel =>
      c ← integerToChar !! Z.to_nat (Input mod radix);
      temp ← push c temp;
      let Input := Input / radix in
      let needsSep := needsSep + 1 in
      if (needsSep =? 3) && negb (Input =? 0) then
        temp ← push PhpFormatThousandSeparator temp; group_loop fuel Input 0 temp
      else if Input =? 0 then Some temp else group_loop fuel Input needsSep temp
  end.
End digits.

Definition radix_of (f : PH_FORMAT) : Z :=
  if StringRef.has (Type_ f) FormatUseRadix && (2 <=? Radix f) && (Radix f <=? 69) then Radix f else 10.

(** The digits in [tempBuffer]. *)
Definition temp_digits (f : PH_FORMAT) (Input : Z) : ub (list Z) :=
  let table := Numbers.hex_table (StringRef.has (Type_ f) FormatUpperCase) in
  if negb (Input =? 0) then
    if StringRef.has (Type_ f) FormatGroupDigits then group_loop (radix_of f) table 64 Input 0 []
    else digit_loop (radix_of f) table 64 Input []
  else push 48 [].

Context `{Macros}.

Definition COMMON_INTEGER_FORMAT (f : PH_FORMAT) (Input : Z) (negative : bool) (o : output) : ub output :=
  temp ← temp_digits f Input;
  let tempCount := Z.of_nat (length temp) in
  let sign := if negative then [45] else if StringRef.has (Type_ f) FormatPrefixSign then [43] else [] in
  let preCount := Z.of_nat (length sign) in
  let padCount :=
    if StringRef.has (Type_ f) FormatPadZeros && negb (StringRef.has (Type_ f) FormatGroupDigits) && (preCount + tempCount <? Width f)
    then Width f - (preCount + tempCount) else 0 in
  let preCount := preCount + padCount in
  o ← ENSURE_BUFFER ((preCount + tempCount) * 2) o;
  o ← (if OK_BUFFER o then
         o ← put sign o; o ← put (replicate (Z.to_nat padCount) 48) o; put temp o
       else Some o);
  Some (add_used ((preCount + tempCount) * 2) o).

(** A signed integer: [-(LONG)int32] and [-(LONG64)int64] overflow for the least value. *)
Definition signed_format (w : Z) (f : PH_FORMAT) (value : Z) (o : output) : ub output :=
  if value <? 0 then
    if value =? - 2 ^ (w - 1) then None else COMMON_INTEGER_FORMAT f (- value) true o
  else COMMON_INTEGER_FORMAT f value false o.

(** ** Elements *)

Definition put_string (s : list Z) (o : output) : ub output :=
  let n := 2 * Z.of_nat (length s) in
  o ← ENSURE_BUFFER n o;
  o ← (if OK_BUFFER o then poke (buffer o) s o else Some o);
  Some (ADVANCE_BUFFER n o).

(** [PhCountStringZ] without the 128-bit instructions, [wcslen]; memory without a terminator is overrun. *)
Fixpoint PhCountStringZ (StringZ : list Z) : ub nat :=
  match StringZ with
  | [] => None
  | c :: StringZ => if c =? 0 then Some O else n ← PhCountStringZ StringZ; Some (S n)
  end.

Definition format_value (f : PH_FORMAT) (o : output) : ub output :=
  match u f with
  | CharFormatType c => put_string [c] o
  | StringFormatType s => put_string s o
  | StringZFormatType z => n ← PhCountStringZ z; put_string (take n z) o
  | Int32FormatType v => signed_format 32 f v o
  | Int64FormatType v | IntPtrFormatType v => signed_format 64 f v o
  | UInt32FormatType v | UInt64FormatType v | UIntPtrFormatType v => COMMON_INTEGER_FORMAT f v false o
  end.

(** The padding after [ContinueLoop]: [add] units at the end, or before the last [part] units, which
    move. *)
Definition pad_part (f : PH_FORMAT) (part add : nat) (o : output) : ub output :=
  let pads := replicate add (if StringRef.has (Type_ f) FormatUsePad then Pad f else 32) in
  if StringRef.has (Type_ f) FormatLeftAlign then poke (buffer o) pads o
  else if (buffer o <? part)%nat then None
  else
    let start := (buffer o - part)%nat in
    text ← load_block (mem o) start part;
    o ← poke (start + add) text o;
    poke start pads o.

Definition align (f : PH_FORMAT) (partLength : Z) (o : output) : ub output :=
  if StringRef.has (Type_ f) FormatLeftAlign || StringRef.has (Type_ f) FormatRightAlign then
    let newLength := Width f * 2 in
    if partLength <? newLength then
      let addLength := newLength - partLength in
      o ← ENSURE_BUFFER addLength o;
      o ← (if OK_BUFFER o then pad_part f (Z.to_nat (partLength / 2)) (Z.to_nat (addLength / 2)) o else Some o);
      Some (ADVANCE_BUFFER addLength o)
    else Some o
  else Some o.

Definition format_item (f : PH_FORMAT) (o : output) : ub output :=
  let partLength := usedLength o in
  o ← format_value f o;
  align f (usedLength o -₆₄ partLength) o.

Fixpoint format_items (fs : list PH_FORMAT) (o : output) : ub output :=
  match fs with
  | [] => Some o
  | f :: fs => o ← format_item f o; format_items fs o
  end.
End format.

(** ** The two functions *)

(** [PhCreateStringEx(NULL, Length)]: what the allocator left, then a terminator. *)
Definition create_string (garbage : nat -> Z) (Length : Z) : ub (list Z) :=
  if Z.odd Length then None else Some ((garbage <$> seq 0 (Z.to_nat (Length / 2))) ++ [0]).

Definition PhpResizeFormatBuffer (garbage : nat -> Z) (String : list Z) (AllocatedLength UsedLength NeededLength : Z) : ub (list Z * Z) :=
  let allocatedLength := u64 (AllocatedLength * 2) in
  let allocatedLength := if allocatedLength <? UsedLength +₆₄ NeededLength then UsedLength +₆₄ NeededLength else allocatedLength in
  newString ← create_string garbage allocatedLength;
  used ← load_block String 0 (Z.to_nat (UsedLength / 2));
  newString ← store_block newString 0 used;
  Some (newString, allocatedLength).

(** The macros of [PhFormat]. *)
Definition growing (garbage : nat -> Z) : Macros := {|
  ENSURE_BUFFER NeededLength o :=
    if cap o <? usedLength o +₆₄ NeededLength then
      '(string, allocatedLength) ← PhpResizeFormatBuffer garbage (mem o) (cap o) (usedLength o) NeededLength;
      Some {| mem := string; cap := allocatedLength; buffer := Z.to_nat (usedLength o / 2); usedLength := usedLength o; overrun := overrun o |}
    else Some o;
  OK_BUFFER _ := true
|}.

(** The length in bytes and the units of the string. *)
Definition PhFormat (sep : Z) (garbage : nat -> Z) (fs : list PH_FORMAT) (InitialCapacity : Z) : ub (Z * list Z) :=
  let InitialCapacity := if InitialCapacity <? SMALL_BUFFER_LENGTH then SMALL_BUFFER_LENGTH else InitialCapacity in
  string ← create_string garbage InitialCapacity;
  let o := {| mem := string; cap := InitialCapacity; buffer := 0; usedLength := 0; overrun := false |} in
  o ← format_items (H := growing garbage) sep fs o;
  o ← poke (Z.to_nat (usedLength o / 2)) [0] o;
  Some (usedLength o, mem o).

(** The macros of [PhFormatToBuffer]. *)
Definition bounded : Macros := {|
  ENSURE_BUFFER NeededLength o :=
    Some (if negb (overrun o) && (cap o <? usedLength o +₆₄ NeededLength)
          then {| mem := mem o; cap := cap o; buffer := buffer o; usedLength := usedLength o; overrun := true |} else o);
  OK_BUFFER o := negb (overrun o)
|}.

(** [Buffer] is [None] for NULL. The result, the buffer, and [*ReturnLength]. *)
Definition PhFormatToBuffer (sep : Z) (fs : list PH_FORMAT) (Buffer : option (list Z)) (BufferLength : Z) : ub (bool * option (list Z) * Z) :=
  let o := {| mem := default [] Buffer; cap := BufferLength; buffer := 0; usedLength := 0;
              overrun := match Buffer with Some _ => false | None => true end |} in
  o ← format_items (H := bounded) sep fs o;
  o ← ENSURE_BUFFER (Macros := bounded) 2 o;
  o ← (if OK_BUFFER (Macros := bounded) o then poke (buffer o) [0] o
       else if bool_decide (Buffer <> None) && negb (BufferLength =? 0) then poke 0 [0] o else Some o);
  let o := ADVANCE_BUFFER 2 o in
  Some (OK_BUFFER (Macros := bounded) o, match Buffer with Some _ => Some (mem o) | None => None end, usedLength o).

Definition PhIntegerToString64 (garbage : nat -> Z) (sep Integer Base : Z) (Signed : bool) : ub (option (Z * list Z)) :=
  if (Base =? 1) || (69 <? Base) then Some None else
  let format := if Signed then PhInitFormatI64D Integer else PhInitFormatI64U (u64 Integer) in
  let format := if negb (Base =? 0)
    then {| Type_ := Z.lor (Type_ format) FormatUseRadix; Width := Width format; Pad := Pad format; Radix := u8 Base; u := u format |}
    else format in
  Some <$> PhFormat sep garbage [format] 0.


(** *** Time spans: [phlib/basesup.c], [phlib/include/phsup.h] *)

Definition PH_TICKS_PER_MS : Z := 10 * 1000.
Definition PH_TICKS_PER_SEC : Z := PH_TICKS_PER_MS * 1000.
Definition PH_TICKS_PER_MIN : Z := PH_TICKS_PER_SEC * 60.
Definition PH_TICKS_PER_HOUR : Z := PH_TICKS_PER_MIN * 60.
Definition PH_TICKS_PER_DAY : Z := PH_TICKS_PER_HOUR * 24.
Definition PH_TICKS_PARTIAL_MS (Ticks : Z) : Z := (Ticks / PH_TICKS_PER_MS) mod 1000.
Definition PH_TICKS_PARTIAL_SEC (Ticks : Z) : Z := (Ticks / PH_TICKS_PER_SEC) mod 60.
Definition PH_TICKS_PARTIAL_MIN (Ticks : Z) : Z := (Ticks / PH_TICKS_PER_MIN) mod 60.
Definition PH_TICKS_PARTIAL_HOURS (Ticks : Z) : Z := (Ticks / PH_TICKS_PER_HOUR) mod 24.
Definition PH_TICKS_PARTIAL_DAYS (Ticks : Z) : Z := Ticks / PH_TICKS_PER_DAY.

Definition PH_TIMESPAN_STR_LEN_1 : Z := 31.

(** The elements for each mode: [PH_TIMESPAN_HMSM], [PH_TIMESPAN_DHMS], [PH_TIMESPAN_DHMSM] and the
    rest. *)
Definition time_span (Ticks Mode : Z) : list PH_FORMAT :=
  let days := PhInitFormatI64U (PH_TICKS_PARTIAL_DAYS Ticks) in
  let hours := PhInitFormatI64UWithWidth (PH_TICKS_PARTIAL_HOURS Ticks) 2 in
  let min := PhInitFormatI64UWithWidth (PH_TICKS_PARTIAL_MIN Ticks) 2 in
  let sec := PhInitFormatI64UWithWidth (PH_TICKS_PARTIAL_SEC Ticks) 2 in
  let ms := PhInitFormatI64UWithWidth (PH_TICKS_PARTIAL_MS Ticks) 3 in
  let colon := PhInitFormatC 58 in
  let point := PhInitFormatC 46 in
  if Mode =? 1 then [hours; colon; min; colon; sec; point; ms]
  else if Mode =? 2 then [days; colon; hours; colon; min; colon; sec]
  else if Mode =? 3 then [days; colon; hours; colon; min; colon; sec; colon; ms]
  else [hours; colon; min; point; sec].

Definition PhPrintTimeSpanToBuffer (sep Ticks Mode : Z) (Buffer : option (list Z)) (BufferLength : Z) : ub (bool * option (list Z) * Z) :=
  PhFormatToBuffer sep (time_span Ticks Mode) Buffer BufferLength.

(** [Destination] has [PH_TIMESPAN_STR_LEN_1] units. *)
Definition PhPrintTimeSpan (sep Ticks Mode : Z) (Destination : list Z) : ub (bool * option (list Z) * Z) :=
  PhPrintTimeSpanToBuffer sep Ticks Mode (Some Destination) (PH_TIMESPAN_STR_LEN_1 * 2).

(** ** The text of an element *)

(** Digits of a number, the most significant first. *)
Fixpoint digits_of (fuel : nat) (base n : Z) : list Z :=
  match fuel with
  | O => []
  | S fuel => (if n / base =? 0 then [] else digits_of fuel base (n / base)) ++ [n mod base]
  end.

Definition digit_text (upper : bool) (ds : list Z) : list Z := (fun d => default 0 (Numbers.hex_table upper !! Z.to_nat d)) <$> ds.

(** A separator after each digit that is followed by a multiple of three digits, not none. *)
Fixpoint grouped (sep : Z) (l : list Z) : list Z :=
  match l with
  | [] => []
  | c :: l => c :: match l with [] => [] | _ => if (length l mod 3 =? 0)%nat then sep :: grouped sep l else grouped sep l end
  end.

Definition digits_text (sep : Z) (f : PH_FORMAT) (n : Z) : list Z :=
  let ds := digit_text (StringRef.has (Type_ f) FormatUpperCase) (digits_of 64 (radix_of f) n) in
  if StringRef.has (Type_ f) FormatGroupDigits then grouped sep ds else ds.

Definition sign_text (f : PH_FORMAT) (negative : bool) : list Z :=
  if negative then [45] else if StringRef.has (Type_ f) FormatPrefixSign then [43] else [].

Definition zeros (f : PH_FORMAT) (n : nat) : list Z :=
  if StringRef.has (Type_ f) FormatPadZeros && negb (StringRef.has (Type_ f) FormatGroupDigits)
  then replicate (Z.to_nat (Width f) - n) 48 else [].

Definition integer_text (sep : Z) (f : PH_FORMAT) (v : Z) : list Z :=
  let sign := sign_text f (v <? 0) in
  let digits := digits_text sep f (Z.abs v) in
  sign ++ zeros f (length sign + length digits) ++ digits.

Fixpoint until_zero (s : list Z) : list Z := match s with [] => [] | c :: s => if c =? 0 then [] else c :: until_zero s end.

Definition value_text (sep : Z) (f : PH_FORMAT) : list Z :=
  match u f with
  | CharFormatType c => [c]
  | StringFormatType s => s
  | StringZFormatType z => until_zero z
  | Int32FormatType v | Int64FormatType v | IntPtrFormatType v
  | UInt32FormatType v | UInt64FormatType v | UIntPtrFormatType v => integer_text sep f v
  end.

Definition padding (f : PH_FORMAT) (n : nat) : list Z :=
  replicate (Z.to_nat (Width f) - n) (if StringRef.has (Type_ f) FormatUsePad then Pad f else 32).

Definition item_text (sep : Z) (f : PH_FORMAT) : list Z :=
  let t := value_text sep f in
  if StringRef.has (Type_ f) FormatLeftAlign then t ++ padding f (length t)
  else if StringRef.has (Type_ f) FormatRightAlign then padding f (length t) ++ t else t.

Fixpoint text (sep : Z) (fs : list PH_FORMAT) : list Z :=
  match fs with [] => [] | f :: fs => item_text sep f ++ text sep fs end.

(** Values of their types, the least signed values apart, and strings with a terminator. *)
Definition valid (f : PH_FORMAT) : Prop :=
  0 <= Width f < 2 ^ 16 /\
  match u f with
  | StringZFormatType z => 0 ∈ z
  | Int32FormatType v => - 2 ^ 31 < v < 2 ^ 31
  | Int64FormatType v | IntPtrFormatType v => - 2 ^ 63 < v < 2 ^ 63
  | UInt32FormatType v => 0 <= v < 2 ^ 32
  | UInt64FormatType v | UIntPtrFormatType v => 0 <= v < 2 ^ 64
  | _ => True
  end.

(** ** Digits *)

Lemma radix_range f : 2 <= radix_of f <= 69.
Proof. unfold radix_of. destruct (StringRef.has _ _ && _ && _) eqn:E; [|lia]. to_prop. lia. Qed.

Lemma digits_of_range fuel base n : 2 <= base -> Forall (fun d => 0 <= d < base) (digits_of fuel base n).
Proof.
  intros Hb. revert n. induction fuel as [|fuel IH]; intros n; [constructor|]. cbn [digits_of]. apply Forall_app. split.
  - destruct (_ =? _); [constructor|apply IH].
  - constructor; [apply Z.mod_pos_bound; lia|constructor].
Qed.

Lemma length_digits_of fuel base n : (length (digits_of fuel base n) <= fuel)%nat.
Proof. revert n. induction fuel as [|fuel IH]; intros n; [done|]. cbn [digits_of]. rewrite length_app. simpl. destruct (_ =? _); [simpl; lia|]. specialize (IH (n / base)). lia. Qed.

Lemma digits_of_value fuel base n : 2 <= base -> 0 <= n < base ^ Z.of_nat fuel -> Numbers.digits_value base (digits_of fuel base n) = n.
Proof.
  intros Hb. revert n. induction fuel as [|fuel IH]; intros n Hn; [change (Z.of_nat 0) with 0 in Hn; rewrite Z.pow_0_r in Hn; cbn; lia|].
  rewrite Nat2Z.inj_succ, Z.pow_succ_r in Hn by lia. cbn [digits_of]. unfold Numbers.digits_value in *. rewrite fold_left_app. cbn [fold_left].
  pose proof (Z.div_mod n base ltac:(lia)). assert (0 <= n / base < base ^ Z.of_nat fuel) by (split; [apply Z.div_pos; lia|apply Z.div_lt_upper_bound; lia]).
  destruct (Z.eqb_spec (n / base) 0) as [E|E]; [cbn [fold_left]; lia|rewrite IH by done; lia].
Qed.

(** No leading zero. *)
Lemma digits_of_head fuel base n : 2 <= base -> 0 < n < base ^ Z.of_nat fuel -> forall d, head (digits_of fuel base n) = Some d -> d <> 0.
Proof.
  intros Hb. revert n. induction fuel as [|fuel IH]; intros n Hn d; [done|]. cbn [digits_of].
  rewrite Nat2Z.inj_succ, Z.pow_succ_r in Hn by lia. pose proof (Z.div_mod n base ltac:(lia)).
  assert (0 <= n / base < base ^ Z.of_nat fuel) by (split; [apply Z.div_pos; lia|apply Z.div_lt_upper_bound; lia]).
  destruct (Z.eqb_spec (n / base) 0) as [E|E]; [simpl; intros [= <-]; lia|].
  specialize (IH (n / base) ltac:(lia)). destruct (digits_of fuel base (n / base)) as [|d' ds] eqn:Ed; [|intros [= <-]; by apply IH].
  exfalso. destruct fuel; [change (Z.of_nat 0) with 0 in *; rewrite Z.pow_0_r in *; lia|cbn [digits_of] in Ed; by apply app_eq_nil in Ed as (_ & ?)].
Qed.

Lemma digit_text_app upper ds ds' : digit_text upper (ds ++ ds') = digit_text upper ds ++ digit_text upper ds'.
Proof. apply fmap_app. Qed.

Lemma push_eq c temp : (length temp < 512)%nat -> push c temp = Some (c :: temp).
Proof. intros H. unfold push. apply Nat.ltb_lt in H. change BUFFER_SIZE with 512%nat. by rewrite H. Qed.

Lemma table_char upper base n : 2 <= base <= 69 -> Numbers.hex_table upper !! Z.to_nat (n mod base) = Some (default 0 (Numbers.hex_table upper !! Z.to_nat (n mod base))).
Proof.
  intros Hb. pose proof (Z.mod_pos_bound n base ltac:(lia)). by destruct (Numbers.table_digit upper (n mod base) ltac:(lia)) as (c & -> & _).
Qed.

Lemma digit_loop_eq upper base fuel : 2 <= base <= 69 -> forall n temp, 0 <= n < base ^ Z.of_nat fuel -> (0 < fuel)%nat -> (length temp + fuel <= 512)%nat ->
  digit_loop base (Numbers.hex_table upper) fuel n temp = Some (digit_text upper (digits_of fuel base n) ++ temp).
Proof.
  intros Hb. induction fuel as [|fuel IH]; intros n temp Hn Hf Hl; [lia|]. cbn [digit_loop digits_of]. rewrite (table_char upper base n Hb). cbn [mbind option_bind].
  rewrite push_eq by lia. cbn [mbind option_bind]. cbv zeta. rewrite digit_text_app, <- app_assoc. change (digit_text upper [n mod base] ++ temp) with (default 0 (Numbers.hex_table upper !! Z.to_nat (n mod base)) :: temp).
  destruct (Z.eqb_spec (n / base) 0) as [E|E]; [done|]. rewrite Nat2Z.inj_succ, Z.pow_succ_r in Hn by lia.
  assert (0 <= n / base < base ^ Z.of_nat fuel) by (split; [apply Z.div_pos; lia|apply Z.div_lt_upper_bound; lia]).
  apply IH; [done|destruct fuel; [change (Z.of_nat 0) with 0 in *; rewrite Z.pow_0_r in *; lia|lia]|simpl; lia].
Qed.

(** The digits so far, with the separator that is before a further digit. *)
Definition separated (sep : Z) (l : list Z) : list Z :=
  match l with [] => [] | _ => if (length l mod 3 =? 0)%nat then sep :: grouped sep l else grouped sep l end.

Lemma length_separated sep l : (length (separated sep l) <= 2 * length l)%nat /\ (length (grouped sep l) <= 2 * length l)%nat.
Proof.
  induction l as [|c l (IH1 & IH2)]; [done|]. assert (Hg : (length (grouped sep (c :: l)) <= S (2 * length l))%nat).
  { cbn [grouped]. change (match l with [] => [] | _ => if (length l mod 3 =? 0)%nat then sep :: grouped sep l else grouped sep l end) with (separated sep l). simpl. lia. }
  split; [|simpl in *; lia]. unfold separated. destruct (_ =? _)%nat; simpl in *; lia.
Qed.

Lemma group_loop_eq sep upper base fuel : 2 <= base <= 69 -> forall n l, 0 <= n < base ^ Z.of_nat fuel -> (0 < fuel)%nat -> (2 * (length l + fuel) <= 512)%nat ->
  group_loop sep base (Numbers.hex_table upper) fuel n (Z.of_nat (length l mod 3)) (separated sep l) = Some (grouped sep (digit_text upper (digits_of fuel base n) ++ l)).
Proof.
  intros Hb. induction fuel as [|fuel IH]; intros n l Hn Hf Hl; [lia|]. cbn [group_loop digits_of]. rewrite (table_char upper base n Hb). cbn [mbind option_bind].
  destruct (length_separated sep l) as (Hs & _). rewrite push_eq by lia. cbn [mbind option_bind]. cbv zeta. rewrite digit_text_app, <- app_assoc.
  set (c := default 0 _). change (digit_text upper [n mod base] ++ l) with (c :: l). change (c :: separated sep l) with (grouped sep (c :: l)).
  assert (Hm : (Z.of_nat (length l mod 3) + 1 =? 3) = (length (c :: l) mod 3 =? 0)%nat /\ ((length (c :: l) mod 3 = 0)%nat \/ Z.of_nat (length l mod 3) + 1 = Z.of_nat (length (c :: l) mod 3))).
  { simpl length. pose proof (Nat.div_mod_eq (length l) 3). pose proof (Nat.mod_upper_bound (length l) 3 ltac:(lia)).
    destruct (decide (length l mod 3 = 2)%nat) as [E|E].
    - assert (Es : (S (length l) mod 3 = 0)%nat) by (symmetry; apply (Nat.mod_unique _ _ (S (length l / 3))); lia). rewrite E, Es. split; [done|by left].
    - assert (Es : (S (length l) mod 3 = S (length l mod 3))%nat) by (symmetry; apply (Nat.mod_unique _ _ (length l / 3)); lia). rewrite Es. split; [|right; lia].
      replace (S (length l mod 3) =? 0)%nat with false by done. lia. }
  destruct Hm as (Hm & Hm'). rewrite Hm. destruct (Z.eqb_spec (n / base) 0) as [E|E]; simpl negb; [by rewrite andb_false_r|]. rewrite andb_true_r.
  rewrite Nat2Z.inj_succ, Z.pow_succ_r in Hn by lia. assert (0 <= n / base < base ^ Z.of_nat fuel) by (split; [apply Z.div_pos; lia|apply Z.div_lt_upper_bound; lia]).
  assert (Hf' : (0 < fuel)%nat) by (destruct fuel; [change (Z.of_nat 0) with 0 in *; rewrite Z.pow_0_r in *; lia|lia]).
  destruct (length_separated sep (c :: l)) as (_ & Hg). specialize (IH (n / base) (c :: l) ltac:(done) Hf' ltac:(simpl; lia)).
  unfold separated in IH at 1. destruct (Nat.eqb_spec (length (c :: l) mod 3) 0) as [E0|E0].
  - rewrite push_eq by (simpl in *; lia). cbn [mbind option_bind]. rewrite E0 in IH. exact IH.
  - destruct Hm' as [?|Hm']; [done|]. rewrite Hm'. exact IH.
Qed.

Lemma temp_digits_eq sep f n : 0 <= n < 2 ^ 64 -> temp_digits sep f n = Some (digits_text sep f n).
Proof.
  intros Hn. pose proof (radix_range f) as Hr. assert (Hb : n < radix_of f ^ Z.of_nat 64) by (pose proof (Z.pow_le_mono_l 2 (radix_of f) 64 ltac:(lia)); change (Z.of_nat 64) with 64; lia).
  unfold temp_digits, digits_text. cbv zeta. destruct (Z.eqb_spec n 0) as [->|Hne]; simpl negb; cbv iota.
  - rewrite push_eq by (simpl; lia). cbn [digits_of]. rewrite Z.div_0_l, Z.mod_0_l by lia. simpl. by destruct (StringRef.has _ _), (StringRef.has _ _).
  - destruct (StringRef.has (Type_ f) FormatGroupDigits).
    + pose proof (group_loop_eq sep (StringRef.has (Type_ f) FormatUpperCase) (radix_of f) 64 ltac:(lia) n [] ltac:(lia) ltac:(lia) ltac:(simpl; lia)) as H.
      rewrite app_nil_r in H. exact H.
    + rewrite digit_loop_eq by (simpl; lia). by rewrite app_nil_r.
Qed.

(** ** The output

    [s] is the text so far, in units; [n] the bytes [ENSURE_BUFFER] has been asked for beyond it. A
    variant of the macros has an invariant of its own over the limit, the size of the block and
    [overrun], says when a number of bytes fits, and may keep [extra] bytes for itself. *)

Section laws.
Context `{Macros} (sound : Z -> nat -> bool -> Prop) (fits : Z -> Z -> bool) (extra : Z).

Definition ready (s : list Z) (n : Z) (o : output) : Prop :=
  usedLength o = 2 * Z.of_nat (length s) /\ sound (cap o) (length (mem o)) (overrun o) /\
  OK_BUFFER o = fits (cap o) (usedLength o + n) /\
  (OK_BUFFER o = true -> buffer o = length s /\ take (length s) (mem o) = s /\
     2 * Z.of_nat (length s) + n + extra <= 2 * Z.of_nat (length (mem o))).
End laws.

Class MacrosLaws `{Macros} (sound : Z -> nat -> bool -> Prop) (fits : Z -> Z -> bool) (extra : Z) := {
  extra_nonneg : 0 <= extra;
  fits_cap : forall c n m, n <= m -> fits c m = true -> fits c n = true;
  ok_overrun : forall o o', overrun o = overrun o' -> OK_BUFFER o = OK_BUFFER o';
  ensure_law : forall s n o, 0 <= n -> Z.even n = true -> 2 * Z.of_nat (length s) + n + extra < 2 ^ 63 -> ready sound fits extra s 0 o ->
    exists o', ENSURE_BUFFER n o = Some o' /\ ready sound fits extra s n o' /\ (forall m, fits (cap o') m = fits (cap o) m);
}.

Section writing.
Context `{HL : MacrosLaws sound fits extra} (sep : Z).
Implicit Types (s t : list Z) (o : output).

Lemma poke_eq i t o : (i + length t <= length (mem o))%nat ->
  poke i t o = Some {| mem := write_at (mem o) i t; cap := cap o; buffer := buffer o; usedLength := usedLength o; overrun := overrun o |}.
Proof. intros Hi. unfold poke. by rewrite store_block_Some. Qed.

Lemma put_units t o : (buffer o + length t <= length (mem o))%nat ->
  put t o = Some {| mem := write_at (mem o) (buffer o) t; cap := cap o; buffer := buffer o + length t; usedLength := usedLength o; overrun := overrun o |}.
Proof. intros Hi. unfold put. by rewrite poke_eq. Qed.

(** Three pieces written one after the other are written at once. *)
Lemma put_three a t c o : (buffer o + length (a ++ t ++ c) <= length (mem o))%nat ->
  (o ← put a o; o ← put t o; put c o) = put (a ++ t ++ c) o.
Proof.
  rewrite !length_app. intros Hi. rewrite put_units by lia. cbn [mbind option_bind]. rewrite put_units by (cbn; rewrite length_write_at by lia; lia). cbn [mbind option_bind mem buffer cap usedLength overrun].
  rewrite put_units by (cbn; rewrite !length_write_at by (rewrite ?length_write_at by lia; lia); lia). rewrite put_units by (rewrite !length_app; lia). cbn [mem buffer cap usedLength overrun].
  rewrite (write_at_app (mem o) a t) by (rewrite length_app; lia). rewrite <- (Nat.add_assoc (buffer o)), <- length_app.
  rewrite (write_at_app (mem o) (a ++ t) c) by (rewrite !length_app; lia). rewrite <- app_assoc, !length_app. do 2 f_equal. lia.
Qed.

(** What an element does to the output: its text is added, in bounds, if it fits. *)
Definition adds (k : output -> ub output) t : Prop := forall s o,
  2 * Z.of_nat (length s + length t) + extra < 2 ^ 63 -> ready sound fits extra s 0 o ->
  exists o', k o = Some o' /\ ready sound fits extra (s ++ t) 0 o' /\ (forall m, fits (cap o') m = fits (cap o) m).

(** After [ENSURE_BUFFER], the memory changed within the bytes asked for. *)
Lemma text_ready s n o s' m' used' buf' : ready sound fits extra s n o ->
  2 * Z.of_nat (length s') = 2 * Z.of_nat (length s) + n -> used' = 2 * Z.of_nat (length s') ->
  (OK_BUFFER o = true -> buf' = length s' /\ length m' = length (mem o) /\ take (length s') m' = s') ->
  ready sound fits extra s' 0
    {| mem := if OK_BUFFER o then m' else mem o; cap := cap o; buffer := buf'; usedLength := used'; overrun := overrun o |}.
Proof using HL.
  intros (Hu & Hs & Hok & Hb) Hn Hu' Hm. set (o' := Build_output _ _ _ _ _).
  assert (Ho : OK_BUFFER o' = OK_BUFFER o) by (by apply ok_overrun).
  unfold ready. rewrite Ho. unfold o'. cbn [mem cap buffer usedLength overrun]. rewrite Hu'.
  split; [done|]. split; [destruct (OK_BUFFER o); [by rewrite (proj1 (proj2 (Hm eq_refl)))|done]|]. split; [rewrite Hok; f_equal; lia|].
  intros E. destruct (Hb E) as (_ & _ & Hr), (Hm E) as (Hm1 & Hm2 & Hm3). rewrite E, Hm2. split; [done|]. split; [done|lia].
Qed.

(** A write of the units asked for. *)
Lemma write_ready s t o used' buf' : ready sound fits extra s (2 * Z.of_nat (length t)) o ->
  used' = 2 * Z.of_nat (length (s ++ t)) -> (OK_BUFFER o = true -> buf' = length (s ++ t)) ->
  ready sound fits extra (s ++ t) 0
    {| mem := if OK_BUFFER o then write_at (mem o) (length s) t else mem o; cap := cap o; buffer := buf'; usedLength := used'; overrun := overrun o |}.
Proof using HL.
  intros Hr Hu' Hb'. apply (text_ready s (2 * Z.of_nat (length t))); [done|rewrite length_app; lia|done|]. intros E. destruct Hr as (_ & _ & _ & Hb).
  destruct (Hb E) as (_ & Ht & Hroom). pose proof extra_nonneg. split; [auto|]. split; [apply length_write_at; lia|].
  unfold write_at. rewrite app_assoc, Ht. apply take_app_length.
Qed.

Lemma even_double n : Z.even (2 * n) = true.
Proof. apply Z.even_spec. by exists n. Qed.

Lemma put_string_adds t : adds (put_string t) t.
Proof using HL.
  intros s o Hlen Hr. unfold put_string. cbv zeta. pose proof extra_nonneg.
  destruct (ensure_law (MacrosLaws := HL) s (2 * Z.of_nat (length t)) o ltac:(lia) (even_double _) ltac:(lia) Hr) as (o1 & -> & Hr1 & Hf). cbn [mbind option_bind].
  assert (E : (if OK_BUFFER o1 then poke (buffer o1) t o1 else Some o1) =
    Some {| mem := if OK_BUFFER o1 then write_at (mem o1) (length s) t else mem o1; cap := cap o1; buffer := buffer o1; usedLength := usedLength o1; overrun := overrun o1 |}).
  { destruct (OK_BUFFER o1) eqn:Hok; [|by destruct o1]. destruct Hr1 as (_ & _ & _ & Hb). destruct (Hb Hok) as (Hb1 & _ & Hroom). rewrite poke_eq by lia. by rewrite Hb1. }
  rewrite E. cbn [mbind option_bind]. eexists. split; [done|]. split; [|done]. pose proof Hr1 as (Hu & _ & _ & Hb).
  unfold ADVANCE_BUFFER. cbn [mem cap buffer usedLength overrun]. apply (write_ready s t o1); [done| |].
  - rewrite Hu, u64_id by (unfold in_width; lia). rewrite length_app. lia.
  - intros Hok. destruct (Hb Hok) as (-> & _). rewrite length_app, (Z.mul_comm 2), Z.div_mul by lia. lia.
Qed.

Lemma integer_adds f v : 0 <= Width f < 2 ^ 16 -> Z.abs v < 2 ^ 64 ->
  adds (COMMON_INTEGER_FORMAT sep f (Z.abs v) (v <? 0)) (integer_text sep f v).
Proof using HL.
  intros Hw Hv s o Hlen Hr. pose proof extra_nonneg. unfold COMMON_INTEGER_FORMAT. rewrite temp_digits_eq by lia. cbn [mbind option_bind]. cbv zeta.
  fold (sign_text f (v <? 0)). unfold integer_text in *. cbv zeta in *. set (sign := sign_text f (v <? 0)) in *. set (ds := digits_text sep f (Z.abs v)) in *.
  set (padCount := if StringRef.has (Type_ f) FormatPadZeros && _ && _ then _ else 0).
  assert (Hz : zeros f (length sign + length ds) = replicate (Z.to_nat padCount) 48 /\ 0 <= padCount).
  { unfold zeros, padCount. destruct (StringRef.has (Type_ f) FormatPadZeros && negb (StringRef.has (Type_ f) FormatGroupDigits)); simpl; [|done].
    destruct (Z.ltb_spec (Z.of_nat (length sign) + Z.of_nat (length ds)) (Width f)); [split; [f_equal; lia|lia]|].
    replace (Z.to_nat (Width f) - (length sign + length ds))%nat with O by lia. done. }
  destruct Hz as (Hz & Hp). rewrite Hz in *. set (zs := replicate (Z.to_nat padCount) 48) in *.
  assert (Hlz : padCount = Z.of_nat (length zs)) by (unfold zs; rewrite length_replicate; lia). clearbody zs padCount.
  set (t := sign ++ zs ++ ds) in *. replace ((Z.of_nat (length sign) + padCount + Z.of_nat (length ds)) * 2) with (2 * Z.of_nat (length t)) by (unfold t; rewrite !length_app; lia).
  destruct (ensure_law (MacrosLaws := HL) s (2 * Z.of_nat (length t)) o ltac:(lia) (even_double _) ltac:(lia) Hr) as (o1 & -> & Hr1 & Hf). cbn [mbind option_bind].
  pose proof Hr1 as (Hu & _ & _ & Hb).
  assert (E : (if OK_BUFFER o1 then o ← put sign o1; o ← put zs o; put ds o else Some o1) =
    Some {| mem := if OK_BUFFER o1 then write_at (mem o1) (length s) t else mem o1; cap := cap o1;
            buffer := if OK_BUFFER o1 then length (s ++ t) else buffer o1; usedLength := usedLength o1; overrun := overrun o1 |}).
  { destruct (OK_BUFFER o1) eqn:Hok; [|by destruct o1]. destruct (Hb eq_refl) as (Hb1 & _ & Hroom). rewrite put_three by (fold t; lia). fold t. rewrite put_units by lia. by rewrite Hb1, length_app. }
  rewrite E. cbn [mbind option_bind]. eexists. split; [done|]. split; [|done].
  unfold add_used. cbn [mem cap buffer usedLength overrun]. apply (write_ready s t o1); [done| |].
  - rewrite Hu, u64_id by (unfold in_width; lia). rewrite length_app. lia.
  - intros Hok. by rewrite Hok.
Qed.

Lemma count_string_eq z : 0 ∈ z -> exists n, PhCountStringZ z = Some n /\ take n z = until_zero z.
Proof.
  induction z as [|c z IH]; intros Hz; [by apply not_elem_of_nil in Hz|]. cbn [PhCountStringZ until_zero].
  destruct (Z.eqb_spec c 0) as [|Hc]; [by exists O|]. apply elem_of_cons in Hz as [?|Hz]; [lia|]. destruct (IH Hz) as (n & -> & <-). by exists (S n).
Qed.

Lemma adds_ext k k' t : (forall o, k o = k' o) -> adds k t -> adds k' t.
Proof. intros E Hk s o Hl Hr. rewrite <- E. by apply Hk. Qed.

Lemma signed_adds w f v : 1 <= w <= 64 -> 0 <= Width f < 2 ^ 16 -> - 2 ^ (w - 1) < v < 2 ^ (w - 1) -> adds (signed_format sep w f v) (integer_text sep f v).
Proof using HL.
  intros Hw Hwd Hv. assert (2 ^ (w - 1) <= 2 ^ 63) by (apply Z.pow_le_mono_r; lia).
  eapply adds_ext; [|apply integer_adds; [done|lia]]. intros o. unfold signed_format. destruct (Z.ltb_spec v 0).
  - replace (v =? - 2 ^ (w - 1)) with false by lia. by rewrite Z.abs_neq by lia.
  - by rewrite Z.abs_eq by lia.
Qed.

Lemma value_adds f : valid f -> adds (format_value sep f) (value_text sep f).
Proof using HL.
  intros (Hw & Hv). unfold format_value, value_text. destruct (u f) as [c|t|z|v|v|v|v|v|v]; simpl in Hv; try (apply put_string_adds).
  - destruct (count_string_eq z Hv) as (n & En & <-). eapply adds_ext; [|apply put_string_adds]. intros o. by rewrite En.
  - apply signed_adds; [lia|done|done].
  - apply signed_adds; [lia|done|done].
  - apply signed_adds; [lia|done|done].
  - pose proof (integer_adds f v Hw ltac:(lia)) as Hi. rewrite Z.abs_eq in Hi by lia. by replace (v <? 0) with false in Hi by lia.
  - pose proof (integer_adds f v Hw ltac:(lia)) as Hi. rewrite Z.abs_eq in Hi by lia. by replace (v <? 0) with false in Hi by lia.
  - pose proof (integer_adds f v Hw ltac:(lia)) as Hi. rewrite Z.abs_eq in Hi by lia. by replace (v <? 0) with false in Hi by lia.
Qed.

(** Moving a text right and writing before it. *)
Lemma write_before (m t p : list Z) i : (i + length p + length t <= length m)%nat ->
  length (write_at (write_at m (i + length p) t) i p) = length m /\
  take (i + length p + length t) (write_at (write_at m (i + length p) t) i p) = take i m ++ p ++ t.
Proof.
  intros Hl. split; [rewrite length_write_at by (rewrite length_write_at by lia; lia); apply length_write_at; lia|].
  unfold write_at at 1. unfold write_at.
  assert (Hp : length (take (i + length p) m) = (i + length p)%nat) by lens.
  rewrite (take_app_le (take (i + length p) m)), take_take, Nat.min_l by lia. rewrite drop_app_length' by done. rewrite !app_assoc. apply take_app_length'.
  rewrite !length_app, length_take. lia.
Qed.

(** The text of an element with its padding. *)
Definition aligned f t : list Z :=
  if StringRef.has (Type_ f) FormatLeftAlign then t ++ padding f (length t)
  else if StringRef.has (Type_ f) FormatRightAlign then padding f (length t) ++ t else t.

Lemma pad_part_eq f s t o : StringRef.has (Type_ f) FormatLeftAlign || StringRef.has (Type_ f) FormatRightAlign = true ->
  buffer o = length (s ++ t) -> take (length (s ++ t)) (mem o) = s ++ t -> (length (s ++ t) + length (padding f (length t)) <= length (mem o))%nat ->
  exists m, pad_part f (length t) (length (padding f (length t))) o =
      Some {| mem := m; cap := cap o; buffer := buffer o; usedLength := usedLength o; overrun := overrun o |} /\
    length m = length (mem o) /\ take (length (s ++ aligned f t)) m = s ++ aligned f t.
Proof.
  intros Hal Hb Ht Hroom. unfold pad_part, aligned. cbv zeta. rewrite Hb, length_app in *.
  assert (Hpads : replicate (length (padding f (length t))) (if StringRef.has (Type_ f) FormatUsePad then Pad f else 32) = padding f (length t)) by (unfold padding; by rewrite length_replicate).
  rewrite Hpads. set (pads := padding f (length t)) in *. destruct (StringRef.has (Type_ f) FormatLeftAlign); [|simpl in Hal; rewrite Hal].
  - rewrite poke_eq by lia. eexists. split; [by rewrite Hb|]. split; [apply length_write_at; lia|].
    unfold write_at. rewrite Ht, !app_assoc. apply take_app_length'. rewrite !length_app. lia.
  - replace (length s + length t <? length t)%nat with false by (symmetry; apply Nat.ltb_ge; lia). replace (length s + length t - length t)%nat with (length s) by lia.
    rewrite load_block_Some by lia. cbn [mbind option_bind].
    assert (Hs : take (length s) (mem o) = s /\ read_at (mem o) (length s) (length t) = t).
    { apply app_inj_1; [rewrite length_take; lia|]. unfold read_at. rewrite take_take_drop. done. }
    destruct Hs as (Hs & ->). rewrite poke_eq by lia. cbn [mbind option_bind]. rewrite poke_eq by (cbn [mem]; rewrite length_write_at by lia; lia). cbn [mem cap buffer usedLength overrun].
    destruct (write_before (mem o) t pads (length s) ltac:(lia)) as (H1 & H2). eexists. split; [by rewrite Hb|]. split; [done|].
    rewrite !length_app, Nat.add_assoc, H2, Hs. done.
Qed.

Lemma double_half n : Z.to_nat (2 * Z.of_nat n / 2) = n.
Proof. rewrite (Z.mul_comm 2), Z.div_mul by lia. apply Nat2Z.id. Qed.

Lemma align_adds f s t o : 0 <= Width f < 2 ^ 16 -> 2 * Z.of_nat (length s + length (aligned f t)) + extra < 2 ^ 63 ->
  ready sound fits extra (s ++ t) 0 o ->
  exists o', align f (2 * Z.of_nat (length t)) o = Some o' /\ ready sound fits extra (s ++ aligned f t) 0 o' /\ (forall m, fits (cap o') m = fits (cap o) m).
Proof using HL.
  intros Hw Hlen Hr. unfold align. cbv zeta. pose proof extra_nonneg.
  destruct (StringRef.has (Type_ f) FormatLeftAlign || StringRef.has (Type_ f) FormatRightAlign) eqn:Hal.
  2:{ unfold aligned. apply orb_false_iff in Hal as (-> & ->). by exists o. }
  assert (Hal' : length (aligned f t) = (length t + length (padding f (length t)))%nat).
  { unfold aligned. destruct (StringRef.has (Type_ f) FormatLeftAlign); [by rewrite length_app|]. simpl in Hal. rewrite Hal, length_app. lia. }
  assert (Hlp : length (padding f (length t)) = (Z.to_nat (Width f) - length t)%nat) by (unfold padding; apply length_replicate).
  destruct (Z.ltb_spec (2 * Z.of_nat (length t)) (Width f * 2)) as [Hlt|Hge].
  2:{ exists o. split; [done|]. split; [|done]. replace (aligned f t) with t; [done|]. unfold aligned. assert (Hp : padding f (length t) = []) by (apply nil_length_inv; lia).
      rewrite Hp, app_nil_r. by destruct (StringRef.has (Type_ f) FormatLeftAlign), (StringRef.has (Type_ f) FormatRightAlign). }
  replace (Width f * 2 - 2 * Z.of_nat (length t)) with (2 * Z.of_nat (length (padding f (length t)))) by lia.
  destruct (ensure_law (MacrosLaws := HL) (s ++ t) (2 * Z.of_nat (length (padding f (length t)))) o ltac:(lia) (even_double _) ltac:(rewrite length_app; lia) Hr) as (o1 & -> & Hr1 & Hf).
  cbn [mbind option_bind]. rewrite !double_half. pose proof Hr1 as (Hu & _ & _ & Hb).
  assert (Hk : exists m, (if OK_BUFFER o1 then pad_part f (length t) (length (padding f (length t))) o1 else Some o1) =
      Some {| mem := if OK_BUFFER o1 then m else mem o1; cap := cap o1; buffer := buffer o1; usedLength := usedLength o1; overrun := overrun o1 |} /\
      (OK_BUFFER o1 = true -> length m = length (mem o1) /\ take (length (s ++ aligned f t)) m = s ++ aligned f t)).
  { destruct (OK_BUFFER o1); [|exists []; by destruct o1]. destruct (Hb eq_refl) as (Hb1 & Ht & Hroom).
    destruct (pad_part_eq f s t o1 Hal Hb1 Ht ltac:(lia)) as (m & E & Hm). by exists m. }
  destruct Hk as (m & -> & Hm). cbn [mbind option_bind]. eexists. split; [done|]. split; [|done].
  unfold ADVANCE_BUFFER. cbn [mem cap buffer usedLength overrun]. apply (text_ready (s ++ t) (2 * Z.of_nat (length (padding f (length t))))); [done|rewrite !length_app; lia| |].
  - rewrite Hu, u64_id by (unfold in_width; rewrite length_app; lia). rewrite !length_app. lia.
  - intros E. destruct (Hb E) as (-> & _). rewrite double_half. split; [rewrite !length_app; lia|]. by apply Hm.
Qed.

Lemma length_aligned f t : (length t <= length (aligned f t))%nat.
Proof. unfold aligned. destruct (StringRef.has (Type_ f) FormatLeftAlign), (StringRef.has (Type_ f) FormatRightAlign); rewrite ?length_app; lia. Qed.

Lemma item_adds f : valid f -> adds (format_item sep f) (item_text sep f).
Proof using HL.
  intros Hv s o Hlen Hr. pose proof Hv as (Hw & _). change (item_text sep f) with (aligned f (value_text sep f)) in *.
  pose proof (length_aligned f (value_text sep f)). pose proof extra_nonneg. unfold format_item. cbv zeta.
  destruct (value_adds f Hv s o ltac:(lia) Hr) as (o1 & -> & Hr1 & Hf1). cbn [mbind option_bind].
  destruct Hr as (Hu & _), (Hr1) as (Hu1 & _). rewrite Hu, Hu1, length_app. rewrite u64_id by (unfold in_width; lia).
  replace (2 * Z.of_nat (length s + length (value_text sep f)) - 2 * Z.of_nat (length s)) with (2 * Z.of_nat (length (value_text sep f))) by lia.
  destruct (align_adds f s (value_text sep f) o1 Hw Hlen Hr1) as (o2 & -> & Hr2 & Hf2). exists o2. split; [done|]. split; [done|]. intros m. by rewrite Hf2.
Qed.

Lemma items_add fs : Forall valid fs -> adds (format_items sep fs) (text sep fs).
Proof using HL.
  induction 1 as [|f fs Hv Hvs IH]; intros s o Hlen Hr; cbn [format_items text] in *.
  - exists o. by rewrite app_nil_r.
  - rewrite length_app in Hlen. destruct (item_adds f Hv s o ltac:(lia) Hr) as (o1 & -> & Hr1 & Hf1). cbn [mbind option_bind].
    destruct (IH (s ++ item_text sep f) o1 ltac:(rewrite length_app; lia) Hr1) as (o2 & -> & Hr2 & Hf2). exists o2. rewrite app_assoc. split; [done|]. split; [done|].
    intros m. by rewrite Hf2.
Qed.
End writing.


(** ** The two variants of the macros *)

Lemma even_half n : Z.even n = true -> n = 2 * (n / 2).
Proof. intros (k & ->)%Z.even_spec. by rewrite (Z.mul_comm 2 k), Z.div_mul, Z.mul_comm by lia. Qed.

Definition string_sound (c : Z) (l : nat) (_ : bool) : Prop := Z.even c = true /\ 0 <= c /\ 2 * Z.of_nat l = c + 2.

Lemma create_string_eq garbage n : Z.even n = true -> 0 <= n ->
  exists string, create_string garbage n = Some string /\ 2 * Z.of_nat (length string) = n + 2.
Proof.
  intros He Hn. unfold create_string. rewrite <- Z.negb_even, He. eexists. split; [done|]. rewrite length_app, length_fmap, length_seq. simpl length.
  apply even_half in He. pose proof (Z.div_pos n 2 ltac:(lia) ltac:(lia)). lia.
Qed.

Lemma resize_eq garbage s old allocated n : Z.even allocated = true -> 0 <= allocated -> Z.even n = true -> 0 <= n ->
  2 * Z.of_nat (length s) + n < 2 ^ 63 -> take (length s) old = s ->
  exists string c, PhpResizeFormatBuffer garbage old allocated (2 * Z.of_nat (length s)) n = Some (string, c) /\
    string_sound c (length string) false /\ 2 * Z.of_nat (length s) + n <= c /\ take (length s) string = s.
Proof.
  intros He Ha Hen Hn Hlen Ht. unfold PhpResizeFormatBuffer. cbv zeta. rewrite (u64_id (2 * Z.of_nat (length s) + n)) by (unfold in_width; lia).
  set (c := if _ <? _ then _ else _).
  assert (Hc : Z.even c = true /\ 0 <= c /\ 2 * Z.of_nat (length s) + n <= c).
  { unfold c. pose proof (u64_range (allocated * 2)). destruct (Z.ltb_spec (u64 (allocated * 2)) (2 * Z.of_nat (length s) + n)).
    - rewrite Z.even_add, Hen, even_double. split; [done|lia].
    - split; [|lia]. unfold u64. change (2 ^ 64) with (2 * 2 ^ 63). rewrite (Z.mul_comm allocated), Zmult_mod_distr_l. apply even_double. }
  destruct Hc as (Hce & Hc0 & Hcl). destruct (create_string_eq garbage c Hce Hc0) as (string & -> & Hl). cbn [mbind option_bind].
  rewrite double_half. assert (Hold : (length s <= length old)%nat) by (apply (f_equal length) in Ht; rewrite length_take in Ht; lia).
  rewrite load_block_Some by lia. cbn [mbind option_bind]. change (read_at old 0 (length s)) with (take (length s) old). rewrite Ht.
  rewrite store_block_Some by lia. cbn [mbind option_bind]. exists (write_at string 0 s), c. split; [done|]. rewrite length_write_at by lia.
  split; [done|]. split; [done|]. unfold write_at. rewrite take_0, app_nil_l. apply take_app_length.
Qed.

#[export] Instance growing_laws garbage : MacrosLaws (H := growing garbage) string_sound (fun _ _ => true) 2.
Proof.
  split; [lia|done|done|]. intros s n o Hn Hen Hlen (Hu & Hs & Hok & Hb). destruct (Hb eq_refl) as (Hb1 & Ht & Hroom). destruct Hs as (Hse & Hs0 & Hsl).
  cbn [ENSURE_BUFFER growing]. rewrite Hu, (u64_id (2 * Z.of_nat (length s) + n)) by (unfold in_width; lia).
  destruct (Z.ltb_spec (cap o) (2 * Z.of_nat (length s) + n)) as [Hlt|Hge].
  - destruct (resize_eq garbage s (mem o) (cap o) n Hse Hs0 Hen Hn ltac:(lia) Ht) as (string & c & -> & Hsnd & Hc & Hts). cbn [mbind option_bind].
    eexists. split; [done|]. split; [|done]. split; [done|]. split; [exact Hsnd|]. split; [done|]. intros _. cbn [buffer mem].
    split; [apply double_half|]. split; [done|]. destruct Hsnd as (_ & _ & Hsl'). lia.
  - exists o. split; [done|]. split; [|done]. split; [done|]. split; [done|]. split; [done|]. intros _. split; [done|]. split; [done|]. lia.
Qed.

Definition buffer_sound (present : bool) (c : Z) (l : nat) (ov : bool) : Prop := if present then Z.of_nat l = c / 2 else ov = true.
Definition buffer_fits (present : bool) (c n : Z) : bool := present && (n <=? c).

#[export] Instance bounded_laws present : MacrosLaws (H := bounded) (buffer_sound present) (buffer_fits present) 0.
Proof.
  split; [lia| | |].
  - intros c n m Hnm. unfold buffer_fits. destruct present; [|done]. simpl. lia.
  - intros o o' E. simpl. by rewrite E.
  - intros s n o Hn Hen Hlen (Hu & Hs & Hok & Hb). cbn [ENSURE_BUFFER OK_BUFFER bounded] in *. rewrite Hu, (u64_id (2 * Z.of_nat (length s) + n)) by (unfold in_width; lia).
    unfold buffer_fits, buffer_sound in *. rewrite Hu in Hok. eexists. split; [done|]. destruct (overrun o) eqn:Ho; simpl negb in *.
    + simpl andb. cbv iota. split; [|done]. unfold ready. cbn [OK_BUFFER bounded]. rewrite Ho, Hu. split; [done|]. split; [done|]. split; [|done]. destruct present; simpl in *; [|done]. lia.
    + destruct (Hb eq_refl) as (Hb1 & Ht & Hroom). destruct present; simpl in Hok, Hs; [|done]. cbn [negb andb].
      destruct (Z.ltb_spec (cap o) (2 * Z.of_nat (length s) + n)) as [Hlt|Hge]; (split; [|done]).
      * cbn [negb andb]. unfold ready. cbn [OK_BUFFER bounded mem cap buffer usedLength overrun]. rewrite ?Hu. split; [done|]. split; [done|]. split; [simpl; lia|done].
      * cbn [negb andb]. unfold ready. cbn [OK_BUFFER bounded]. rewrite Ho, ?Hu. split; [done|]. split; [done|]. split; [simpl; lia|]. intros _. split; [done|]. split; [done|].
        rewrite Hs. apply even_half in Hen. pose proof (Z.div_mod (cap o) 2 ltac:(lia)). pose proof (Z.mod_pos_bound (cap o) 2 ltac:(lia)). lia.
Qed.

Lemma format_string_eq sep garbage fs InitialCapacity :
  Forall valid fs -> 2 * Z.of_nat (length (text sep fs)) + 2 < 2 ^ 63 -> Z.even InitialCapacity = true ->
  exists rest, PhFormat sep garbage fs InitialCapacity = Some (2 * Z.of_nat (length (text sep fs)), text sep fs ++ 0 :: rest).
Proof.
  intros Hv Hlen He. unfold PhFormat. cbv zeta. set (c := if InitialCapacity <? SMALL_BUFFER_LENGTH then SMALL_BUFFER_LENGTH else InitialCapacity).
  assert (Hc : Z.even c = true /\ 0 <= c) by (unfold c; destruct (Z.ltb_spec InitialCapacity SMALL_BUFFER_LENGTH); [done|change SMALL_BUFFER_LENGTH with 30 in *; split; [done|lia]]).
  destruct Hc as (Hce & Hc0). destruct (create_string_eq garbage c Hce Hc0) as (string & -> & Hl). cbn [mbind option_bind].
  set (o := Build_output _ _ _ _ _).
  assert (Hr : ready (H := growing garbage) string_sound (fun _ _ => true) 2 [] 0 o).
  { split; [done|]. split; [done|]. split; [done|]. intros _. split; [done|]. split; [done|]. simpl. lia. }
  destruct (items_add (HL := growing_laws garbage) sep fs Hv [] o ltac:(simpl; lia) Hr) as (o1 & -> & Hr1 & _). cbn [mbind option_bind].
  destruct Hr1 as (Hu & _ & _ & Hb). destruct (Hb eq_refl) as (_ & Ht & Hroom). simpl app in *. rewrite Hu, double_half.
  rewrite poke_eq by (simpl; lia). cbn [mbind option_bind mem usedLength]. rewrite Hu. unfold write_at. rewrite Ht. by eexists.
Qed.

(** The state of the output before the terminator is written. *)
Lemma buffer_items sep fs Buffer BufferLength :
  Forall valid fs -> 2 * Z.of_nat (length (text sep fs)) + 2 < 2 ^ 63 -> 0 <= BufferLength ->
  (forall B, Buffer = Some B -> Z.of_nat (length B) = BufferLength / 2) ->
  let present := match Buffer with Some _ => true | None => false end in
  exists o1 o2,
    format_items (H := bounded) sep fs {| mem := default [] Buffer; cap := BufferLength; buffer := 0; usedLength := 0; overrun := negb present |} = Some o1 /\
    ENSURE_BUFFER (Macros := bounded) 2 o1 = Some o2 /\ ready (H := bounded) (buffer_sound present) (buffer_fits present) 0 (text sep fs) 2 o2 /\
    (present = true -> cap o2 = BufferLength).
Proof.
  intros Hv Hlen Hbl HB present. set (o := Build_output _ _ _ _ _).
  assert (Hr : ready (H := bounded) (buffer_sound present) (buffer_fits present) 0 [] 0 o).
  { unfold ready, o. cbn [mem cap buffer usedLength overrun OK_BUFFER bounded]. rewrite negb_involutive. split; [done|]. unfold present, buffer_sound, buffer_fits.
    destruct Buffer as [B|]; [|done]. simpl. split; [by apply HB|]. split; [lia|]. intros _. split; [done|]. split; [done|]. lia. }
  destruct (items_add (HL := bounded_laws present) sep fs Hv [] o ltac:(simpl; lia) Hr) as (o1 & E1 & Hr1 & Hf1). simpl app in Hr1.
  destruct (ensure_law (MacrosLaws := bounded_laws present) (text sep fs) 2 o1 ltac:(lia) eq_refl ltac:(lia) Hr1) as (o2 & E2 & Hr2 & Hf2).
  exists o1, o2. split; [done|]. split; [done|]. split; [done|]. intros Hp. unfold buffer_fits in *. rewrite Hp in *. simpl in Hf1, Hf2.
  specialize (Hf1 (cap o2)) as A. specialize (Hf2 (cap o2)) as A2. specialize (Hf1 BufferLength) as C. specialize (Hf2 BufferLength) as C2. unfold o in *. cbn [cap] in *. lia.
Qed.

Lemma format_buffer_eq sep fs B BufferLength :
  Forall valid fs -> 2 * Z.of_nat (length (text sep fs)) + 2 < 2 ^ 63 -> Z.of_nat (length B) = BufferLength / 2 -> 0 <= BufferLength -> BufferLength <> 1 ->
  let n := 2 * Z.of_nat (length (text sep fs)) + 2 in
  exists B', PhFormatToBuffer sep fs (Some B) BufferLength = Some (n <=? BufferLength, Some B', n) /\ length B' = length B /\
    if n <=? BufferLength then exists rest, B' = text sep fs ++ 0 :: rest else BufferLength <> 0 -> head B' = Some 0.
Proof.
  intros Hv Hlen HB Hbl H1 n. unfold PhFormatToBuffer. cbv zeta.
  destruct (buffer_items sep fs (Some B) BufferLength Hv Hlen Hbl ltac:(by intros ? [= <-])) as (o1 & o2 & E1 & E2 & (Hu & Hs & Hok & Hb) & Hcap).
  simpl negb in E1. rewrite E1. cbn [mbind option_bind]. rewrite E2. cbn [mbind option_bind]. specialize (Hcap eq_refl). unfold buffer_sound in Hs. unfold buffer_fits in Hok.
  rewrite Hcap, andb_true_l, Hu in Hok. fold n in Hok. rewrite Hcap in Hs. rewrite Hok. pose proof (Z.div_mod BufferLength 2 ltac:(lia)). pose proof (Z.mod_pos_bound BufferLength 2 ltac:(lia)).
  assert (Hadv : forall m, OK_BUFFER (Macros := bounded) (ADVANCE_BUFFER 2 {| mem := m; cap := cap o2; buffer := buffer o2; usedLength := usedLength o2; overrun := overrun o2 |}) = (n <=? BufferLength) /\
    usedLength (ADVANCE_BUFFER 2 {| mem := m; cap := cap o2; buffer := buffer o2; usedLength := usedLength o2; overrun := overrun o2 |}) = n).
  { intros m. split; [exact Hok|]. cbn [usedLength ADVANCE_BUFFER]. rewrite Hu, u64_id by (unfold in_width; lia). done. }
  assert (Hlb : length (mem o2) = length B) by lia.
  destruct (n <=? BufferLength) eqn:Hn.
  - destruct (Hb Hok) as (Hb1 & Ht & Hroom). rewrite poke_eq by (simpl; lia). cbn [mbind option_bind]. destruct (Hadv (write_at (mem o2) (buffer o2) [0])) as (-> & ->).
    eexists. split; [done|]. cbn [mem ADVANCE_BUFFER]. split; [rewrite length_write_at by (simpl; lia); done|]. unfold write_at. rewrite Hb1, Ht. by eexists.
  - rewrite bool_decide_true by done. rewrite andb_true_l. destruct (Z.eqb_spec BufferLength 0) as [Hz|Hz]; simpl negb; cbv iota.
    + cbn [mbind option_bind]. destruct o2 as [m2 c2 b2 u2 v2]. destruct (Hadv m2) as (Hadv1 & Hadv2). cbn [mem cap buffer usedLength overrun] in *. rewrite Hadv1, Hadv2.
      eexists. split; [done|]. split; [done|]. done.
    + rewrite poke_eq by (simpl; lia). cbn [mbind option_bind]. destruct (Hadv (write_at (mem o2) 0 [0])) as (-> & ->). eexists. split; [done|]. cbn [mem ADVANCE_BUFFER].
      split; [rewrite length_write_at by (simpl; lia); done|]. done.
Qed.

(** A buffer of a single byte: the terminator of an empty string does not fit, and is written. *)
Lemma format_buffer_one sep fs :
  Forall valid fs -> 2 * Z.of_nat (length (text sep fs)) + 2 < 2 ^ 63 -> forall B, B = [] -> PhFormatToBuffer sep fs (Some B) 1 = None.
Proof.
  intros Hv Hlen B ->. unfold PhFormatToBuffer. cbv zeta.
  destruct (buffer_items sep fs (Some []) 1 Hv Hlen ltac:(lia) ltac:(by intros ? [= <-])) as (o1 & o2 & E1 & E2 & (Hu & Hs & Hok & Hb) & Hcap).
  simpl negb in E1. rewrite E1. cbn [mbind option_bind]. rewrite E2. cbn [mbind option_bind]. specialize (Hcap eq_refl). unfold buffer_sound in Hs. unfold buffer_fits in Hok.
  rewrite Hcap, andb_true_l, Hu in Hok. rewrite Hcap in Hs. rewrite Hok. replace (_ <=? 1) with false by lia. cbn [andb negb Z.eqb bool_decide].
  rewrite bool_decide_true by done. cbn [andb negb Z.eqb]. unfold poke, store_block. rewrite decide_False; [done|]. simpl. change (1 / 2) with 0 in Hs. lia.
Qed.

Lemma format_null_eq sep fs BufferLength :
  Forall valid fs -> 2 * Z.of_nat (length (text sep fs)) + 2 < 2 ^ 63 -> 0 <= BufferLength ->
  PhFormatToBuffer sep fs None BufferLength = Some (false, None, 2 * Z.of_nat (length (text sep fs)) + 2).
Proof.
  intros Hv Hlen Hbl. unfold PhFormatToBuffer. cbv zeta.
  destruct (buffer_items sep fs None BufferLength Hv Hlen Hbl ltac:(done)) as (o1 & o2 & E1 & E2 & (Hu & Hs & Hok & Hb) & _).
  simpl negb in E1. rewrite E1. cbn [mbind option_bind]. rewrite E2. cbn [mbind option_bind]. unfold buffer_fits in Hok. rewrite Hok. rewrite andb_false_l. cbv iota.
  rewrite bool_decide_false by (intros H; by apply H). rewrite andb_false_l. cbn [mbind option_bind]. do 3 f_equal; [exact Hok|].
  cbn [usedLength ADVANCE_BUFFER]. by rewrite Hu, u64_id by (unfold in_width; lia).
Qed.

(** ** Reading back *)

Arguments digits_of : simpl never.

Lemma digits_of_S fuel base n : digits_of (S fuel) base n = (if n / base =? 0 then [] else digits_of fuel base (n / base)) ++ [n mod base].
Proof. done. Qed.

Lemma digit_text_chars upper ds : Forall (fun d => 0 <= d < 69) ds -> Forall2 Numbers.digit_char (digit_text upper ds) ds.
Proof.
  induction 1 as [|d ds Hd Hds IH]; [constructor|]. constructor; [|done].
  destruct (Numbers.table_digit upper d Hd) as (c & -> & Hc & _). done.
Qed.

Lemma digits_parse base n upper : 2 <= base <= 69 -> 0 <= n < 2 ^ 64 ->
  let ds := digits_of 64 base n in
  Forall2 Numbers.digit_char (digit_text upper ds) ds /\ Forall (fun d => d < base) ds /\ Numbers.digits_value base ds = n.
Proof.
  intros Hb Hn ds. pose proof (digits_of_range 64 base n ltac:(lia)) as Hr. fold ds in Hr.
  split; [apply digit_text_chars; eapply Forall_impl; [done|]; simpl; lia|]. split; [eapply Forall_impl; [done|]; simpl; lia|].
  apply digits_of_value; [lia|]. pose proof (Z.pow_le_mono_l 2 base 64 ltac:(lia)). change (Z.of_nat 64) with 64. lia.
Qed.

(** Digits below 47 are never written as a sign. *)
Lemma digit_not_sign base n upper c : 2 <= base <= 47 -> head (digit_text upper (digits_of 64 base n)) = Some c -> c <> 45 /\ c <> 43.
Proof.
  intros Hb Hc. pose proof (digits_of_range 64 base n ltac:(lia)) as Hr. destruct (digits_of 64 base n) as [|d ds]; [done|].
  apply Forall_cons in Hr as (Hd & _). destruct (Numbers.table_digit upper d ltac:(lia)) as (c' & E & _ & _ & _ & Hp & Hm).
  simpl in Hc. rewrite E in Hc. simpl in Hc. injection Hc as <-. lia.
Qed.

(** A number without a leading zero is read the same way with the base left open. *)
Lemma parse_open s : (forall c, head s = Some c -> c <> 48) \/ (length s <= 1)%nat ->
  (forall c, head s = Some c -> c <> 45 /\ c <> 43) ->
  Numbers.PhStringToInteger64 s 0 = Numbers.PhStringToInteger64 s 10 /\
  Numbers.PhStringToInteger64 (45 :: s) 0 = Numbers.PhStringToInteger64 (45 :: s) 10.
Proof.
  intros Hs Hsign. unfold Numbers.PhStringToInteger64. simpl. destruct s as [|c0 s]; [done|]. destruct (Hsign c0 eq_refl).
  replace ((c0 =? 45) || (c0 =? 43)) with false by lia. destruct s as [|c1 s]; [done|].
  destruct Hs as [Hs|Hs]; [|simpl in Hs; lia]. specialize (Hs c0 eq_refl). by replace (c0 =? 48) with false by lia.
Qed.

Lemma no_leading_zero base n upper : 2 <= base <= 69 -> 0 <= n < 2 ^ 64 ->
  (forall c, head (digit_text upper (digits_of 64 base n)) = Some c -> c <> 48) \/ (length (digit_text upper (digits_of 64 base n)) <= 1)%nat.
Proof.
  intros Hb Hn. assert (Hp : n < base ^ Z.of_nat 64) by (pose proof (Z.pow_le_mono_l 2 base 64 ltac:(lia)); change (Z.of_nat 64) with 64; lia).
  destruct (decide (n = 0)) as [->|Hne]; [right; rewrite digits_of_S, Z.div_0_l by lia; simpl; lia|]. left.
  pose proof (digits_of_head 64 base n ltac:(lia) ltac:(lia)) as Hh. pose proof (digits_of_range 64 base n ltac:(lia)) as Hr.
  destruct (digits_of 64 base n) as [|d ds]; [done|]. apply Forall_cons in Hr as (Hd & _). intros c Hc ->. apply (Hh d eq_refl).
  destruct (Numbers.table_digit upper d ltac:(lia)) as (c' & E & Hc' & _). simpl in Hc. rewrite E in Hc. simpl in Hc. injection Hc as ->.
  unfold Numbers.digit_char in Hc'. vm_compute in Hc'. congruence.
Qed.

(** The text written for an integer is read as the integer. *)
Lemma integer_parse base v upper : 2 <= base <= 47 -> - 2 ^ 63 < v < 2 ^ 64 ->
  let s := (if v <? 0 then [45] else []) ++ digit_text upper (digits_of 64 base (Z.abs v)) in
  Numbers.PhStringToInteger64 s base = Some (true, Some (signed 64 v)) /\
  (base = 10 -> Numbers.PhStringToInteger64 s 0 = Some (true, Some (signed 64 v))).
Proof.
  intros Hb Hv s. destruct (digits_parse base (Z.abs v) upper ltac:(lia) ltac:(lia)) as (Hc & Hd & Hval).
  assert (Hmain : Numbers.PhStringToInteger64 s base = Some (true, Some (signed 64 v))).
  { unfold s. destruct (Z.ltb_spec v 0); cbn [app].
    - rewrite (Numbers.parse_negative _ _ base ltac:(lia) Hc Hd) by lia. rewrite Hval. do 3 f_equal. unfold signed. cbv zeta.
      replace (v mod 2 ^ 64) with (v + 2 ^ 64) by (apply (Z.mod_unique_pos _ _ (-1)); lia). replace (v + 2 ^ 64 <? 2 ^ (64 - 1)) with false by lia. lia.
    - rewrite (Numbers.parse_unsigned _ _ base ltac:(lia) Hc Hd) by (intros c; by apply digit_not_sign). by rewrite Hval, Z.abs_eq by lia. }
  split; [done|]. intros ->. rewrite <- Hmain. unfold s.
  destruct (parse_open _ (no_leading_zero 10 (Z.abs v) upper ltac:(lia) ltac:(lia)) (fun (c : Z) => digit_not_sign 10 (Z.abs v) upper c ltac:(lia))) as (H1 & H2).
  by destruct (v <? 0).
Qed.

Lemma integer_string_eq garbage sep Integer Base (Signed : bool) : Base = 0 \/ 2 <= Base <= 69 -> - 2 ^ 63 < Integer < 2 ^ 63 ->
  let v := if Signed then Integer else u64 Integer in
  let base := if Base =? 0 then 10 else Base in
  let s := (if v <? 0 then [45] else []) ++ digit_text false (digits_of 64 base (Z.abs v)) in
  exists rest, PhIntegerToString64 garbage sep Integer Base Signed = Some (Some (2 * Z.of_nat (length s), s ++ 0 :: rest)).
Proof.
  intros HB HI v base s. unfold PhIntegerToString64. replace ((Base =? 1) || (69 <? Base)) with false by lia. cbv zeta.
  set (f := if negb (Base =? 0) then _ else _).
  assert (Hf : valid f /\ text sep [f] = s).
  { pose proof (u64_range Integer). assert (Hu : u f = if Signed then Int64FormatType Integer else UInt64FormatType (u64 Integer)) by (unfold f; destruct (Base =? 0), Signed; done).
    assert (Hw : Width f = 0) by (unfold f; destruct (Base =? 0), Signed; done).
    assert (Hr : radix_of f = base).
    { unfold f, base, radix_of. destruct (Z.eqb_spec Base 0); simpl negb; cbv iota; [by destruct Signed|]. cbn [Type_ Radix].
      rewrite u8_id by (unfold in_width; lia). destruct Signed; simpl Z.lor; (replace (2 <=? Base) with true by lia); (replace (Base <=? 69) with true by lia); done. }
    assert (Hfl : Type_ f = 0 \/ Type_ f = FormatUseRadix) by (unfold f; destruct (Base =? 0), Signed; auto).
    assert (Hno : forall flag, In flag [FormatUpperCase; FormatGroupDigits; FormatPrefixSign; FormatPadZeros; FormatLeftAlign; FormatRightAlign] -> StringRef.has (Type_ f) flag = false).
    { intros flag Hin. destruct Hfl as [-> | ->]; simpl in Hin; destruct_or?; subst flag; try done. }
    split; [split; [lia|]; rewrite Hu; destruct Signed; lia|]. cbn [text]. rewrite app_nil_r. unfold item_text. cbv zeta.
    rewrite (Hno FormatLeftAlign), (Hno FormatRightAlign) by (simpl; tauto). unfold value_text. rewrite Hu.
    transitivity (integer_text sep f v); [unfold v; by destruct Signed|]. unfold integer_text, s, sign_text, zeros, digits_text. cbv zeta. rewrite Hr.
    rewrite (Hno FormatUpperCase), (Hno FormatGroupDigits), (Hno FormatPrefixSign), (Hno FormatPadZeros) by (simpl; tauto). reflexivity. }
  destruct Hf as (Hv & Ht). assert (Hl : (length s <= 65)%nat).
  { unfold s. rewrite length_app. pose proof (length_digits_of 64 base (Z.abs v)). unfold digit_text. rewrite length_fmap. destruct (v <? 0); simpl; lia. }
  destruct (format_string_eq sep garbage [f] 0 ltac:(by constructor) ltac:(rewrite Ht; lia) eq_refl) as (rest & ->). rewrite Ht. by exists rest.
Qed.

Lemma signed_u64 x : - 2 ^ 63 <= x < 2 ^ 63 -> signed 64 (u64 x) = x.
Proof.
  intros Hx. unfold signed, u64. cbv zeta. rewrite Zmod_mod. destruct (Z.le_gt_cases 0 x).
  - rewrite Z.mod_small by lia. by replace (x <? 2 ^ (64 - 1)) with true by lia.
  - replace (x mod 2 ^ 64) with (x + 2 ^ 64) by (apply (Z.mod_unique_pos _ _ (-1)); lia). replace (x + 2 ^ 64 <? 2 ^ (64 - 1)) with false by lia. lia.
Qed.

(** ** The length of a time span *)

Lemma length_digits_le fuel base n k : 2 <= base -> 0 <= n < base ^ Z.of_nat (S k) -> (length (digits_of fuel base n) <= S k)%nat.
Proof.
  intros Hb. revert n k. induction fuel as [|fuel IH]; intros n k Hn; [change (digits_of 0 base n) with (@nil Z); simpl; lia|]. rewrite digits_of_S, length_app. simpl length.
  destruct (Z.eqb_spec (n / base) 0) as [E|E]; [simpl; lia|]. rewrite Nat2Z.inj_succ, Z.pow_succ_r in Hn by lia.
  assert (0 <= n / base < base ^ Z.of_nat k) by (split; [apply Z.div_pos; lia|apply Z.div_lt_upper_bound; lia]).
  destruct k as [|k]; [change (Z.of_nat 0) with 0 in *; rewrite Z.pow_0_r in *; lia|]. specialize (IH (n / base) k ltac:(done)). lia.
Qed.

Lemma number_item_length sep n width k : 0 <= n < 10 ^ Z.of_nat (S k) -> (Z.to_nat width <= S k)%nat ->
  (length (item_text sep (PhInitFormatI64UWithWidth n width)) <= S k)%nat.
Proof.
  intros Hn Hw. change (item_text sep (PhInitFormatI64UWithWidth n width)) with
    (sign_text (PhInitFormatI64UWithWidth n width) (n <? 0) ++
     replicate (Z.to_nat width - (length (sign_text (PhInitFormatI64UWithWidth n width) (n <? 0)) + length (digit_text false (digits_of 64 10 (Z.abs n))))) 48 ++
     digit_text false (digits_of 64 10 (Z.abs n))).
  rewrite Z.abs_eq by lia. replace (n <? 0) with false by lia. change (sign_text (PhInitFormatI64UWithWidth n width) false) with (@nil Z).
  rewrite app_nil_l, length_app, length_replicate. change (length (@nil Z)) with 0%nat. unfold digit_text. rewrite length_fmap. pose proof (length_digits_le 64 10 n k ltac:(lia) Hn). lia.
Qed.

Lemma days_item_length sep n k : 0 <= n < 10 ^ Z.of_nat (S k) -> (length (item_text sep (PhInitFormatI64U n)) <= S k)%nat.
Proof.
  intros Hn. change (item_text sep (PhInitFormatI64U n)) with (sign_text (PhInitFormatI64U n) (n <? 0) ++ [] ++ digit_text false (digits_of 64 10 (Z.abs n))).
  rewrite Z.abs_eq by lia. replace (n <? 0) with false by lia. change (sign_text (PhInitFormatI64U n) false) with (@nil Z). cbn [app].
  unfold digit_text. rewrite length_fmap. by apply length_digits_le.
Qed.

Lemma time_span_ok sep Ticks Mode : 0 <= Ticks < 2 ^ 64 ->
  Forall valid (time_span Ticks Mode) /\ (length (text sep (time_span Ticks Mode)) <= 30)%nat.
Proof.
  intros Ht. unfold time_span. cbv zeta.
  assert (Hd : 0 <= PH_TICKS_PARTIAL_DAYS Ticks < 10 ^ Z.of_nat 8) by (unfold PH_TICKS_PARTIAL_DAYS; change PH_TICKS_PER_DAY with 864000000000; split; [apply Z.div_pos; lia|apply Z.div_lt_upper_bound; lia]).
  assert (Hh : 0 <= PH_TICKS_PARTIAL_HOURS Ticks < 24) by (apply Z.mod_pos_bound; lia). assert (Hm : 0 <= PH_TICKS_PARTIAL_MIN Ticks < 60) by (apply Z.mod_pos_bound; lia).
  assert (Hs : 0 <= PH_TICKS_PARTIAL_SEC Ticks < 60) by (apply Z.mod_pos_bound; lia). assert (Hms : 0 <= PH_TICKS_PARTIAL_MS Ticks < 1000) by (apply Z.mod_pos_bound; lia).
  pose proof (days_item_length sep _ 7 Hd) as Ld. pose proof (number_item_length sep (PH_TICKS_PARTIAL_HOURS Ticks) 2 1 ltac:(lia) ltac:(lia)) as Lh.
  pose proof (number_item_length sep (PH_TICKS_PARTIAL_MIN Ticks) 2 1 ltac:(lia) ltac:(lia)) as Lm. pose proof (number_item_length sep (PH_TICKS_PARTIAL_SEC Ticks) 2 1 ltac:(lia) ltac:(lia)) as Ls.
  pose proof (number_item_length sep (PH_TICKS_PARTIAL_MS Ticks) 3 2 ltac:(lia) ltac:(lia)) as Lms.
  assert (Hc : forall c, length (item_text sep (PhInitFormatC c)) = 1%nat) by done.
  assert (Vd : valid (PhInitFormatI64U (PH_TICKS_PARTIAL_DAYS Ticks))) by (split; cbn [Width u PhInitFormatI64U plain]; lia).
  assert (Vn : forall n w, 0 <= n < 1000 -> 0 <= w < 10 -> valid (PhInitFormatI64UWithWidth n w)) by (intros n w Hn Hw; split; cbn [Width u PhInitFormatI64UWithWidth]; lia).
  assert (Vc : forall c, valid (PhInitFormatC c)) by (intros c; split; cbn [Width u PhInitFormatC plain]; [lia|done]).
  destruct (Mode =? 1), (Mode =? 2), (Mode =? 3); (split; [repeat apply Forall_cons_2; first [exact Vd|apply Vc|apply Vn; lia|apply Forall_nil_2]|]);
    cbn [text]; rewrite !length_app, !Hc; simpl length; lia.
Qed.

(** ** The properties *)

(** C12: [PhFormat] never leaves its buffers and returns the text of its elements, in order, with a
    terminator and its length in bytes, whatever the initial capacity, growing the string as often
    as needed. The text of an integer is its sign, zeros up to the width if asked for, and its
    digits, with a separator before each three if asked for; then comes the alignment. The elements
    are valid: an integer of its type, not the least one, or a string with a terminator. *)
Theorem format_writes_text (sep : Z) (garbage : nat -> Z) (fs : list PH_FORMAT) (InitialCapacity : Z) :
  Forall valid fs -> 2 * Z.of_nat (length (text sep fs)) + 2 < 2 ^ 63 -> Z.even InitialCapacity = true ->
  exists rest, PhFormat sep garbage fs InitialCapacity = Some (2 * Z.of_nat (length (text sep fs)), text sep fs ++ 0 :: rest).
Proof. apply format_string_eq. Qed.

Definition sample : list PH_FORMAT :=
  [PhInitFormatI64UGroupDigits 1234567; PhInitFormatC 32;
   {| Type_ := Z.lor FormatRightAlign FormatUsePad; Width := 6; Pad := 42; Radix := 0; u := Int32FormatType (-12) |};
   PhInitFormatSR [33; 33; 33; 33; 33]; PhInitFormatI64UWithWidth 5 2].

Lemma valid_sample : Forall valid sample.
Proof. repeat constructor; cbn; lia. Qed.

Lemma format_writes_text_witness :
  text 44 sample = [49; 44; 50; 51; 52; 44; 53; 54; 55; 32; 42; 42; 42; 45; 49; 50; 33; 33; 33; 33; 33; 48; 53] /\
  exists rest, PhFormat 44 (fun _ => 7) sample 0 = Some (2 * Z.of_nat (length (text 44 sample)), text 44 sample ++ 0 :: rest).
Proof. split; [by vm_compute|]. apply (format_writes_text 44 (fun _ => 7) sample 0 valid_sample); [by vm_compute|reflexivity]. Defined.

(** C38: For elements that are characters, strings, integers other than the least and no floating-point
    numbers, sizes or multibyte strings, [PhFormatToBuffer] writes nothing outside a buffer of other than one byte; it returns
    TRUE exactly when the buffer has room for the text of the elements and a terminator, which it then
    holds, and otherwise leaves an empty string if there is room for one; with a NULL buffer it
    returns FALSE. In these cases the length it returns is the one needed. In a buffer of one byte
    the empty string, which takes two, is written past the end. *)
Theorem format_to_buffer_bounded (sep : Z) (fs : list PH_FORMAT) (BufferLength : Z) :
  Forall valid fs -> 2 * Z.of_nat (length (text sep fs)) + 2 < 2 ^ 63 -> 0 <= BufferLength ->
  let n := 2 * Z.of_nat (length (text sep fs)) + 2 in
  (forall B, Z.of_nat (length B) = BufferLength / 2 ->
     if BufferLength =? 1 then PhFormatToBuffer sep fs (Some B) BufferLength = None
     else exists B', PhFormatToBuffer sep fs (Some B) BufferLength = Some (n <=? BufferLength, Some B', n) /\ length B' = length B /\
       if n <=? BufferLength then exists rest, B' = text sep fs ++ 0 :: rest else BufferLength <> 0 -> head B' = Some 0) /\
  PhFormatToBuffer sep fs None BufferLength = Some (false, None, n).
Proof.
  intros Hv Hlen Hb n. split; [|by apply format_null_eq]. intros B HB. destruct (Z.eqb_spec BufferLength 1) as [->|H1]; [|by apply format_buffer_eq].
  apply format_buffer_one; [done..|]. apply length_zero_iff_nil. change (1 / 2) with 0 in HB. lia.
Qed.

Lemma format_to_buffer_bounded_witness :
  (exists B', PhFormatToBuffer 44 sample (Some (replicate 20 1)) 40 = Some (false, Some B', 48) /\ length B' = 20%nat /\ (40 <> 0 -> head B' = Some 0)) /\
  PhFormatToBuffer 44 sample (Some []) 1 = None.
Proof.
  split.
  - exact (proj1 (format_to_buffer_bounded 44 sample 40 valid_sample ltac:(by vm_compute) ltac:(lia)) (replicate 20 1) eq_refl).
  - exact (proj1 (format_to_buffer_bounded 44 sample 1 valid_sample ltac:(by vm_compute) ltac:(lia)) [] eq_refl).
Defined.

(** integers round-trip through text. For a base of 2 to 47, or 0 for 10, and any integer but the
    least, [PhIntegerToString64], signed or not, gives a string that [PhStringToInteger64] accepts in
    that base and reads as the same integer. *)
Theorem integer_round_trip (garbage : nat -> Z) (sep Integer Base : Z) (Signed : bool) :
  Base = 0 \/ 2 <= Base <= 47 -> - 2 ^ 63 < Integer < 2 ^ 63 ->
  exists s rest, PhIntegerToString64 garbage sep Integer Base Signed = Some (Some (2 * Z.of_nat (length s), s ++ 0 :: rest)) /\
    Numbers.PhStringToInteger64 s Base = Some (true, Some Integer).
Proof.
  intros HB HI. destruct (integer_string_eq garbage sep Integer Base Signed ltac:(lia) HI) as (rest & E). eexists _, rest. split; [exact E|].
  pose proof (u64_range Integer). set (v := if Signed then Integer else u64 Integer). assert (Hv : - 2 ^ 63 < v < 2 ^ 64) by (unfold v; destruct Signed; lia).
  assert (Hs : signed 64 v = Integer).
  { unfold v. destruct Signed; [|apply signed_u64; lia]. transitivity (signed 64 (u64 Integer)); [unfold signed, u64; by rewrite Zmod_mod|apply signed_u64; lia]. }
  destruct (Z.eqb_spec Base 0) as [->|Hne].
  - destruct (integer_parse 10 v false ltac:(lia) Hv) as (_ & Hp). rewrite Hs in Hp. by apply Hp.
  - destruct (integer_parse Base v false ltac:(lia) Hv) as (Hp & _). by rewrite Hs in Hp.
Qed.

Lemma integer_round_trip_witness :
  exists s rest, PhIntegerToString64 (fun _ => 7) 44 (-255) 16 true = Some (Some (2 * Z.of_nat (length s), s ++ 0 :: rest)) /\
    Numbers.PhStringToInteger64 s 16 = Some (true, Some (-255)).
Proof. apply (integer_round_trip (fun _ => 7) 44 (-255) 16 true); lia. Defined.

(** In the bases above, the digits 47 and 49 are written with the characters of the signs. *)
Lemma sign_digits :
  (exists rest, PhIntegerToString64 (fun _ => 0) 44 47 48 false = Some (Some (2, [43; 0] ++ rest))) /\
  Numbers.PhStringToInteger64 [43] 48 = Some (true, Some 0).
Proof. split; [eexists|]; by vm_compute. Qed.

(** a time span of any number of ticks, in any mode, fits the buffer of
    [PH_TIMESPAN_STR_LEN_1] units: [PhPrintTimeSpan] always writes it whole, with a terminator. *)
Theorem time_span_fits (sep Ticks Mode : Z) (Destination : list Z) :
  0 <= Ticks < 2 ^ 64 -> Z.of_nat (length Destination) = PH_TIMESPAN_STR_LEN_1 ->
  exists rest, PhPrintTimeSpan sep Ticks Mode Destination =
    Some (true, Some (text sep (time_span Ticks Mode) ++ 0 :: rest), 2 * Z.of_nat (length (text sep (time_span Ticks Mode))) + 2).
Proof.
  intros Ht Hd. destruct (time_span_ok sep Ticks Mode Ht) as (Hv & Hl). change PH_TIMESPAN_STR_LEN_1 with 31 in Hd.
  unfold PhPrintTimeSpan, PhPrintTimeSpanToBuffer. change (PH_TIMESPAN_STR_LEN_1 * 2) with 62.
  destruct (format_buffer_eq sep (time_span Ticks Mode) Destination 62 Hv ltac:(lia) ltac:(rewrite Hd; done) ltac:(lia) ltac:(lia)) as (B' & E & _ & HB).
  rewrite E. replace (_ <=? 62) with true in HB |- * by lia. destruct HB as (rest & ->). by exists rest.
Qed.

Lemma time_span_fits_witness :
  exists rest, PhPrintTimeSpan 44 36610000000 0 (replicate 31 7) =
    Some (true, Some ([48; 49; 58; 48; 49; 46; 48; 49] ++ 0 :: rest), 18).
Proof. destruct (time_span_fits 44 36610000000 0 (replicate 31 7) ltac:(lia) eq_refl) as (rest & E). exists rest. exact E. Defined.

End Format.
