(* ===== verification/Unicode.v ===== *)
(** * Unicode transcoding: [phlib/basesup.c]

    The incremental decoder of UTF-8, UTF-16 and UTF-32, the encoder, and the conversion of UTF-16
    to ASCII built on them. A code unit is written to the decoder, which is then asked for code
    points until it has none; ill-formed units come out one by one. *)

From S2P Require Import Prelude.

Module Unicode.

Definition PH_UNICODE_UTF8 : Z := 0.
Definition PH_UNICODE_UTF16 : Z := 1.
Definition PH_UNICODE_UTF32 : Z := 2.
Definition PH_UNICODE_MAX_CODE_POINT : Z := 0x10ffff.

Definition PH_UNICODE_UTF16_TO_HIGH_SURROGATE (CodePoint : Z) : Z := u16 (u16 (Z.shiftr CodePoint 10) + 0xd7c0).
Definition PH_UNICODE_UTF16_TO_LOW_SURROGATE (CodePoint : Z) : Z := u16 (Z.land CodePoint 0x3ff + 0xdc00).
Definition PH_UNICODE_UTF16_IS_HIGH_SURROGATE (CodeUnit : Z) : bool := (0xd800 <=? CodeUnit) && (CodeUnit <=? 0xdbff).
Definition PH_UNICODE_UTF16_IS_LOW_SURROGATE (CodeUnit : Z) : bool := (0xdc00 <=? CodeUnit) && (CodeUnit <=? 0xdfff).
Definition PH_UNICODE_UTF16_TO_CODE_POINT (High Low : Z) : Z := u32 (Z.shiftl High 10 + Low - 0x35fdc00).

(** A computation that [PhRaiseStatus] may leave: [None] is a raised STATUS_UNSUCCESSFUL. *)
Abbreviation raises A := (option A) (only parsing).

(** [Input] is the array of the encoding's arm of the union: 4, 2 or 1 units, of which the first
    [InputCount] are waiting. *)
Record PH_UNICODE_DECODER := {
  Encoding : Z; State : Z; InputCount : nat; Input : list Z;
  CodeUnit1 : Z; CodeUnit2 : Z; CodeUnit3 : Z; CodeUnit4 : Z; (* u.Utf8 *)
  CodeUnit : Z; (* u.Utf16 *)
}.

Definition capacity (Encoding : Z) : nat :=
  if Encoding =? PH_UNICODE_UTF8 then 4 else if Encoding =? PH_UNICODE_UTF16 then 2 else 1.

Definition PhInitializeUnicodeDecoder (Encoding : Z) : PH_UNICODE_DECODER :=
  {| Encoding := Encoding; State := 0; InputCount := 0; Input := replicate (capacity Encoding) 0;
     CodeUnit1 := 0; CodeUnit2 := 0; CodeUnit3 := 0; CodeUnit4 := 0; CodeUnit := 0 |}.

Definition set_input (d : PH_UNICODE_DECODER) (n : nat) (l : list Z) : PH_UNICODE_DECODER :=
  {| Encoding := Encoding d; State := State d; InputCount := n; Input := l;
     CodeUnit1 := CodeUnit1 d; CodeUnit2 := CodeUnit2 d; CodeUnit3 := CodeUnit3 d; CodeUnit4 := CodeUnit4 d;
     CodeUnit := CodeUnit d |}.
Definition set_state (d : PH_UNICODE_DECODER) (s : Z) : PH_UNICODE_DECODER :=
  {| Encoding := Encoding d; State := s; InputCount := InputCount d; Input := Input d;
     CodeUnit1 := CodeUnit1 d; CodeUnit2 := CodeUnit2 d; CodeUnit3 := CodeUnit3 d; CodeUnit4 := CodeUnit4 d;
     CodeUnit := CodeUnit d |}.
(** [Utf8.CodeUnit<i> = u] *)
Definition set_unit (d : PH_UNICODE_DECODER) (i u : Z) : PH_UNICODE_DECODER :=
  {| Encoding := Encoding d; State := State d; InputCount := InputCount d; Input := Input d;
     CodeUnit1 := if i =? 1 then u else CodeUnit1 d; CodeUnit2 := if i =? 2 then u else CodeUnit2 d;
     CodeUnit3 := if i =? 3 then u else CodeUnit3 d; CodeUnit4 := if i =? 4 then u else CodeUnit4 d;
     CodeUnit := CodeUnit d |}.
Definition set_unit16 (d : PH_UNICODE_DECODER) (u : Z) : PH_UNICODE_DECODER :=
  {| Encoding := Encoding d; State := State d; InputCount := InputCount d; Input := Input d;
     CodeUnit1 := CodeUnit1 d; CodeUnit2 := CodeUnit2 d; CodeUnit3 := CodeUnit3 d; CodeUnit4 := CodeUnit4 d;
     CodeUnit := u |}.

(** The unit as an element of the input array. *)
Definition unit_of (Encoding u : Z) : Z :=
  if Encoding =? PH_UNICODE_UTF8 then u8 u else if Encoding =? PH_UNICODE_UTF16 then u16 u else u.

Definition known (Encoding : Z) : bool := (0 <=? Encoding) && (Encoding <=? 2).

Definition PhWriteUnicodeDecoder (d : PH_UNICODE_DECODER) (u : Z) : raises (PH_UNICODE_DECODER * bool) :=
  if negb (known (Encoding d)) then None
  else if decide (capacity (Encoding d) <= InputCount d)%nat then Some (d, false)
  else Some (set_input d (S (InputCount d)) (<[InputCount d := unit_of (Encoding d) u]> (Input d)), true).

(** The first unit; the array moves down by one, keeping its last element. *)
Definition PhpReadUnicodeDecoder (d : PH_UNICODE_DECODER) : raises (PH_UNICODE_DECODER * option Z) :=
  if negb (known (Encoding d)) then None
  else
    match InputCount d, Input d with
    | S n, u :: l => Some (set_input d n (l ++ [List.last (u :: l) 0]), Some u)
    | _, _ => Some (d, None)
    end.

(** The array moves up by one. *)
Definition PhpUnreadUnicodeDecoder (d : PH_UNICODE_DECODER) (u : Z) : raises PH_UNICODE_DECODER :=
  if negb (known (Encoding d)) then None
  else if decide (capacity (Encoding d) <= InputCount d)%nat then None
  else Some (set_input d (S (InputCount d)) (unit_of (Encoding d) u :: removelast (Input d))).

Definition PhpDecodeUtf8Error (d : PH_UNICODE_DECODER) (Which : Z) : raises (PH_UNICODE_DECODER * option Z) :=
  d ← (if 4 <=? Which then PhpUnreadUnicodeDecoder d (CodeUnit4 d) else Some d);
  d ← (if 3 <=? Which then PhpUnreadUnicodeDecoder d (CodeUnit3 d) else Some d);
  d ← (if 2 <=? Which then PhpUnreadUnicodeDecoder d (CodeUnit2 d) else Some d);
  Some (set_state d 0, Some (u32 (CodeUnit1 d + 0xdc00))).

Definition continuation (u : Z) : bool := Z.land u 0xc0 =? 0x80.

(** The body of the loop once a unit is read: go on with a decoder, or return. *)
Inductive next := Continue (d : PH_UNICODE_DECODER) | Return (r : raises (PH_UNICODE_DECODER * option Z)).

Definition utf8_unit (d : PH_UNICODE_DECODER) (u : Z) : next :=
  let found d cp := Return (Some (set_state d 0, Some (u32 cp))) in
  if State d =? 0 then
    let d := set_unit d 1 u in
    if u <? 0x80 then Return (Some (d, Some u))
    else if u <? 0xc2 then Return (PhpDecodeUtf8Error d 1)
    else if u <? 0xe0 then Continue (set_state d 1)
    else if u <? 0xf0 then Continue (set_state d 2)
    else if u <? 0xf5 then Continue (set_state d 3)
    else Return (PhpDecodeUtf8Error d 1)
  else if State d =? 1 then
    let d := set_unit d 2 u in
    if continuation u then found d (Z.shiftl (CodeUnit1 d) 6 + u - 0x3080)
    else Return (PhpDecodeUtf8Error d 2)
  else if State d =? 2 then
    let d := set_unit d 2 u in
    if continuation u && (negb (CodeUnit1 d =? 0xe0) || (0xa0 <=? u)) then Continue (set_state d 4)
    else Return (PhpDecodeUtf8Error d 2)
  else if State d =? 3 then
    let d := set_unit d 2 u in
    if continuation u && (negb (CodeUnit1 d =? 0xf0) || (0x90 <=? u)) && (negb (CodeUnit1 d =? 0xf4) || (u <? 0x90)) then
      Continue (set_state d 5)
    else Return (PhpDecodeUtf8Error d 2)
  else if State d =? 4 then
    let d := set_unit d 3 u in
    if continuation u then found d (Z.shiftl (CodeUnit1 d) 12 + Z.shiftl (CodeUnit2 d) 6 + u - 0xe2080)
    else Return (PhpDecodeUtf8Error d 3)
  else if State d =? 5 then
    let d := set_unit d 3 u in
    if continuation u then Continue (set_state d 6) else Return (PhpDecodeUtf8Error d 3)
  else if State d =? 6 then
    let d := set_unit d 4 u in
    if continuation u then
      found d (Z.shiftl (CodeUnit1 d) 18 + Z.shiftl (CodeUnit2 d) 12 + Z.shiftl (CodeUnit3 d) 6 + u - 0x3c82080)
    else Return (PhpDecodeUtf8Error d 4)
  else Return (Some (d, None)).

Definition utf16_unit (d : PH_UNICODE_DECODER) (u : Z) : next :=
  if State d =? 0 then
    if PH_UNICODE_UTF16_IS_HIGH_SURROGATE u then Continue (set_state (set_unit16 d u) 1)
    else Return (Some (d, Some u))
  else if State d =? 1 then
    if PH_UNICODE_UTF16_IS_LOW_SURROGATE u then
      Return (Some (set_state d 0, Some (PH_UNICODE_UTF16_TO_CODE_POINT (CodeUnit d) u)))
    else Return (d' ← PhpUnreadUnicodeDecoder d u; Some (set_state d' 0, Some (CodeUnit d)))
  else Return (Some (d, None)).

(** The loop reads a unit in each turn, so the number of waiting units and one more bounds it. *)
Fixpoint decode_loop (fuel : nat) (d : PH_UNICODE_DECODER) : raises (PH_UNICODE_DECODER * option Z) :=
  match fuel with
  | O => None
  | S fuel =>
      if negb (known (Encoding d)) then Some (d, None)
      else
        '(d, read) ← PhpReadUnicodeDecoder d;
        match read with
        | None => Some (d, None)
        | Some u =>
            if Encoding d =? PH_UNICODE_UTF32 then Some (d, Some u)
            else
              match (if Encoding d =? PH_UNICODE_UTF8 then utf8_unit d u else utf16_unit d u) with
              | Continue d => decode_loop fuel d
              | Return r => r
              end
        end
  end.

Definition PhDecodeUnicodeDecoder (d : PH_UNICODE_DECODER) : raises (PH_UNICODE_DECODER * option Z) :=
  decode_loop (S (InputCount d)) d.

(** The code units, or FALSE. With a NULL buffer the caller gets their number only. *)
Definition PhEncodeUnicode (Encoding CodePoint : Z) : option (list Z) :=
  if Encoding =? PH_UNICODE_UTF8 then
    if CodePoint <? 0x80 then Some [u8 CodePoint]
    else if CodePoint <=? 0x7ff then
      Some [u8 (u8 (Z.shiftr CodePoint 6) + 0xc0); u8 (Z.land CodePoint 0x3f + 0x80)]
    else if CodePoint <=? 0xffff then
      Some [u8 (u8 (Z.shiftr CodePoint 12) + 0xe0); u8 (Z.land (Z.shiftr CodePoint 6) 0x3f + 0x80);
            u8 (Z.land CodePoint 0x3f + 0x80)]
    else if CodePoint <=? PH_UNICODE_MAX_CODE_POINT then
      Some [u8 (u8 (Z.shiftr CodePoint 18) + 0xf0); u8 (Z.land (Z.shiftr CodePoint 12) 0x3f + 0x80);
            u8 (Z.land (Z.shiftr CodePoint 6) 0x3f + 0x80); u8 (Z.land CodePoint 0x3f + 0x80)]
    else None
  else if Encoding =? PH_UNICODE_UTF16 then
    if CodePoint <? 0x10000 then Some [u16 CodePoint]
    else if CodePoint <=? PH_UNICODE_MAX_CODE_POINT then
      Some [PH_UNICODE_UTF16_TO_HIGH_SURROGATE CodePoint; PH_UNICODE_UTF16_TO_LOW_SURROGATE CodePoint]
    else None
  else if Encoding =? PH_UNICODE_UTF32 then Some [CodePoint]
  else None.

(** ** Clients *)

(** [while (PhDecodeUnicodeDecoder(&decoder, &codePoint)) ...]: the code points it passes on. *)
Fixpoint drain (fuel : nat) (d : PH_UNICODE_DECODER) : raises (PH_UNICODE_DECODER * list Z) :=
  match fuel with
  | O => None
  | S fuel =>
      '(d, cp) ← PhDecodeUnicodeDecoder d;
      match cp with
      | None => Some (d, [])
      | Some cp => '(d, cps) ← drain fuel d; Some (d, cp :: cps)
      end
  end.

(** One turn of a conversion loop: write a unit, take the code points. No more than 4 can come. *)
Definition feed (d : PH_UNICODE_DECODER) (u : Z) : raises (PH_UNICODE_DECODER * list Z) :=
  '(d, _) ← PhWriteUnicodeDecoder d u; drain 5 d.

Fixpoint decode_stream (d : PH_UNICODE_DECODER) (us : list Z) : raises (PH_UNICODE_DECODER * list Z) :=
  match us with
  | [] => Some (d, [])
  | u :: us => '(d, cps) ← feed d u; '(d, rest) ← decode_stream d us; Some (d, cps ++ rest)
  end.

(** [Replacement] 0 drops what is not ASCII. The bytes before the terminator. *)
Definition to_ascii (Replacement cp : Z) : list Z :=
  if cp <? 0x80 then [cp] else if negb (Replacement =? 0) then [Replacement] else [].

Definition store_all (out : list Z) (size : nat) (bs : list Z) : ub (list Z) :=
  if decide (length out + length bs <= size)%nat then Some (out ++ bs) else None.

(** The loop of [PhConvertUtf16ToAsciiEx]: writes beyond [size] bytes are undefined. *)
Fixpoint ascii_loop (Replacement : Z) (size : nat) (d : PH_UNICODE_DECODER) (us out : list Z) : ub (list Z) :=
  match us with
  | [] => Some out
  | u :: us =>
      '(d, cps) ← feed d u;
      out ← store_all out size (mjoin (to_ascii Replacement <$> cps));
      ascii_loop Replacement size d us out
  end.

(** [Buffer] holds [Length / 2] units; the bytes object has as many bytes, and the terminator. *)
Definition PhConvertUtf16ToAsciiEx (Buffer : list Z) (Replacement : Z) : ub (list Z) :=
  out ← ascii_loop Replacement (length Buffer) (PhInitializeUnicodeDecoder PH_UNICODE_UTF16) Buffer [];
  store_all out (S (length Buffer)) [0].

Definition C_1uTo2 (c : Z) : Z := u8 c.

(** The unrolled copy: [inputLength] is the multiple of 4 below the length; the fuel is the number of blocks. *)
Fixpoint extend_blocks (fuel : nat) (inputLength : Z) (Input Output : list Z) : ub (list Z * list Z) :=
  match fuel, Input with
  | S fuel, a :: b :: c :: d :: Input =>
      let Output := Output ++ [C_1uTo2 a; C_1uTo2 b; C_1uTo2 c; C_1uTo2 d] in
      let inputLength := inputLength - 4 in
      if inputLength =? 0 then Some (Input, Output) else extend_blocks fuel inputLength Input Output
  | _, _ => None
  end.

(** The cases of the switch fall through: [InputLength & 3] units more. *)
Definition PhZeroExtendToUtf16Buffer (Input : list Z) (InputLength : Z) : ub (list Z) :=
  let inputLength := Z.land InputLength (-4) in
  '(Input, Output) ← (if inputLength =? 0 then Some (Input, [])
                      else extend_blocks (Z.to_nat (inputLength / 4)) inputLength Input []);
  match Z.land InputLength 3, Input with
  | 3, a :: b :: c :: _ => Some (Output ++ [C_1uTo2 a; C_1uTo2 b; C_1uTo2 c])
  | 2, a :: b :: _ => Some (Output ++ [C_1uTo2 a; C_1uTo2 b])
  | 1, a :: _ => Some (Output ++ [C_1uTo2 a])
  | 0, _ => Some Output
  | _, _ => None
  end.

(** ** Well-formed UTF-8 *)

Definition tail_byte (u : Z) : Prop := 0x80 <= u < 0xc0.

(** A whole sequence, and the code point it stands for. *)
Definition wf8 (l : list Z) : Prop :=
  match l with
  | [a] => 0 <= a < 0x80
  | [a; b] => 0xc2 <= a < 0xe0 /\ tail_byte b
  | [a; b; c] => 0xe0 <= a < 0xf0 /\ tail_byte b /\ (a = 0xe0 -> 0xa0 <= b) /\ tail_byte c
  | [a; b; c; e] =>
      0xf0 <= a < 0xf5 /\ tail_byte b /\ (a = 0xf0 -> 0x90 <= b) /\ (a = 0xf4 -> b < 0x90) /\ tail_byte c /\ tail_byte e
  | _ => False
  end.
Definition value8 (l : list Z) : Z :=
  match l with
  | [a] => a
  | [a; b] => a * 64 + b - 0x3080
  | [a; b; c] => a * 4096 + b * 64 + c - 0xe2080
  | [a; b; c; e] => a * 262144 + b * 4096 + c * 64 + e - 0x3c82080
  | _ => 0
  end.
(** A proper beginning of a sequence. *)
Definition prefix8 (l : list Z) : Prop :=
  match l with
  | [a] => 0xc2 <= a < 0xf5
  | [a; b] =>
      tail_byte b /\ (0xe0 <= a < 0xf0 /\ (a = 0xe0 -> 0xa0 <= b) \/
                     0xf0 <= a < 0xf5 /\ (a = 0xf0 -> 0x90 <= b) /\ (a = 0xf4 -> b < 0x90))
  | [a; b; c] => 0xf0 <= a < 0xf5 /\ tail_byte b /\ (a = 0xf0 -> 0x90 <= b) /\ (a = 0xf4 -> b < 0x90) /\ tail_byte c
  | _ => False
  end.

Lemma land_low x k : 0 <= k -> Z.land x (2 ^ k - 1) = x mod 2 ^ k.
Proof. intros. by rewrite Z.sub_1_r, <- Z.ones_equiv, Z.land_ones. Qed.

Ltac bits :=
  change 0x3f with (2 ^ 6 - 1); change 0x3ff with (2 ^ 10 - 1); rewrite ?land_low by lia; rewrite ?Z.shiftr_div_pow2 by lia;
  unfold u8, u16; change (2 ^ 6) with 64; change (2 ^ 8) with 256; change (2 ^ 10) with 1024; change (2 ^ 12) with 4096;
  change (2 ^ 16) with 65536; change (2 ^ 18) with 262144.

Lemma encode_wf8 cp l : 0 <= cp -> PhEncodeUnicode PH_UNICODE_UTF8 cp = Some l -> wf8 l /\ value8 l = cp.
Proof.
  intros Hcp. unfold PhEncodeUnicode. cbn [PH_UNICODE_UTF8 Z.eqb].
  destruct (Z.ltb_spec cp 0x80); [|destruct (Z.leb_spec cp 0x7ff); [|destruct (Z.leb_spec cp 0xffff); [|destruct (Z.leb_spec cp PH_UNICODE_MAX_CODE_POINT); [|done]]]];
    intros [= <-]; cbn [wf8 value8]; unfold tail_byte, PH_UNICODE_MAX_CODE_POINT in *; bits; Z.to_euclidean_division_equations; lia.
Qed.

Lemma wf8_encode l : wf8 l -> PhEncodeUnicode PH_UNICODE_UTF8 (value8 l) = Some l /\ 0 <= value8 l <= PH_UNICODE_MAX_CODE_POINT.
Proof.
  intros Hl. assert (Hr : 0 <= value8 l <= PH_UNICODE_MAX_CODE_POINT).
  { unfold PH_UNICODE_MAX_CODE_POINT.
    destruct l as [|a [|b [|c [|e [|? ?]]]]]; cbn [wf8 value8] in *; unfold tail_byte in *; lia. }
  split; [|done]. unfold PhEncodeUnicode. cbn [PH_UNICODE_UTF8 Z.eqb].
  destruct l as [|a [|b [|c [|e [|? ?]]]]]; cbn [wf8 value8] in *; try done; unfold tail_byte, PH_UNICODE_MAX_CODE_POINT in *;
    set (cp := _ - _) || set (cp := a);
    [rewrite (proj2 (Z.ltb_lt cp 0x80)) by lia
    |rewrite (proj2 (Z.ltb_ge cp 0x80)), (proj2 (Z.leb_le cp 0x7ff)) by lia
    |rewrite (proj2 (Z.ltb_ge cp 0x80)), (proj2 (Z.leb_gt cp 0x7ff)), (proj2 (Z.leb_le cp 0xffff)) by lia
    |rewrite (proj2 (Z.ltb_ge cp 0x80)), (proj2 (Z.leb_gt cp 0x7ff)), (proj2 (Z.leb_gt cp 0xffff)), (proj2 (Z.leb_le cp 0x10ffff)) by lia];
    unfold cp in *;
    repeat match goal with |- Some _ = Some _ => f_equal | |- _ :: _ = _ :: _ => f_equal end; bits; Z.to_euclidean_division_equations; lia.
Qed.

(** ** Waiting units *)

Definition waiting (d : PH_UNICODE_DECODER) (q : list Z) : Prop :=
  known (Encoding d) = true /\ length (Input d) = capacity (Encoding d) /\ InputCount d = length q /\ take (length q) (Input d) = q.

(** The same decoder up to its waiting units. *)
Definition same_decoder (d d' : PH_UNICODE_DECODER) : Prop := d' = set_input d (InputCount d') (Input d').

Lemma capacity_pos E : (0 < capacity E <= 4)%nat.
Proof. unfold capacity. destruct (E =? _); [lia|]. destruct (E =? _); lia. Qed.

Lemma waiting_length d q : waiting d q -> (length q <= capacity (Encoding d))%nat.
Proof. intros (_ & Hl & _ & Hq). rewrite <- Hl, <- Hq, length_take. lia. Qed.

Lemma read_nil d : waiting d [] -> PhpReadUnicodeDecoder d = Some (d, None).
Proof. intros (Hk & _ & Hn & _). unfold PhpReadUnicodeDecoder. by rewrite Hk, Hn. Qed.

Lemma read_cons d u q : waiting d (u :: q) ->
  exists d', PhpReadUnicodeDecoder d = Some (d', Some u) /\ waiting d' q /\ same_decoder d d'.
Proof.
  intros (Hk & Hl & Hn & Hq). unfold PhpReadUnicodeDecoder. rewrite Hk, Hn. simpl in *.
  destruct (Input d) as [|x l] eqn:Ei; simpl in Hq; [done|]. injection Hq as -> Hq. eexists. split; [done|]. split; [|done].
  unfold waiting, set_input. cbn [Encoding Input InputCount]. split; [done|]. split; [rewrite length_app; simpl in *; lia|].
  split; [done|]. rewrite take_app_le; [done|]. rewrite <- Hq, length_take. lia.
Qed.

Lemma write_waiting d q u : waiting d q -> (length q < capacity (Encoding d))%nat ->
  exists d', PhWriteUnicodeDecoder d u = Some (d', true) /\ waiting d' (q ++ [unit_of (Encoding d) u]) /\ same_decoder d d'.
Proof.
  intros (Hk & Hl & Hn & Hq) Hlt. unfold PhWriteUnicodeDecoder. rewrite Hk, Hn. simpl. rewrite decide_False by lia.
  eexists. split; [done|]. split; [|done]. unfold waiting, set_input. cbn [Encoding Input InputCount].
  split; [done|]. split; [by rewrite length_insert|]. rewrite length_app. simpl. split; [lia|].
  rewrite Nat.add_1_r. rewrite (take_S_r _ _ (unit_of (Encoding d) u)) by (apply list_lookup_insert_eq; lia).
  f_equal. rewrite take_insert_ge by lia. done.
Qed.

Lemma unread_waiting d q u : waiting d q -> (length q < capacity (Encoding d))%nat ->
  exists d', PhpUnreadUnicodeDecoder d u = Some d' /\ waiting d' (unit_of (Encoding d) u :: q) /\ same_decoder d d'.
Proof.
  intros (Hk & Hl & Hn & Hq) Hlt. unfold PhpUnreadUnicodeDecoder. rewrite Hk, Hn. simpl. rewrite decide_False by lia.
  eexists. split; [done|]. split; [|done]. unfold waiting, set_input. cbn [Encoding Input InputCount].
  assert (Hne : Input d <> []) by (intros E; rewrite E in Hl; simpl in Hl; lia).
  pose proof (app_removelast_last (l := Input d) 0 Hne) as Hrl. split; [done|].
  assert (Hlen : length (Input d) = S (length (removelast (Input d)))).
  { rewrite Hrl at 1. rewrite length_app. simpl. lia. }
  split; [simpl; lia|]. split; [done|]. simpl. f_equal. rewrite <- Hq at 2. rewrite Hrl at 2. by rewrite take_app_le by lia.
Qed.

(** ** What an encoding form provides

    [wf] sequences stand for [value], [prefix] is a proper beginning of one, and an ill-formed unit
    [a] comes out as [bad a]. [vp] relates the state of the decoder to the units it keeps. *)
Class Scheme (E : Z) := {
  is_unit : Z -> Prop;
  wf : list Z -> Prop;
  value : list Z -> Z;
  prefix : list Z -> Prop;
  is_bad : Z -> Prop;
  bad : Z -> Z;
  vp : PH_UNICODE_DECODER -> list Z -> Prop;
}.

(** What the body of the loop may do with the unit that makes the kept ones [l]. *)
Definition unit_outcome (E : Z) `{Scheme E} (l q : list Z) (r : next) : Prop :=
  (prefix l /\ exists d', r = Continue d' /\ vp d' l /\ waiting d' q /\ Encoding d' = E) \/
  (wf l /\ exists d', r = Return (Some (d', Some (value l))) /\ vp d' [] /\ waiting d' q /\ Encoding d' = E) \/
  (~ prefix l /\ ~ wf l /\ exists d' a l', l = a :: l' /\ is_bad a /\
     r = Return (Some (d', Some (bad a))) /\ vp d' [] /\ waiting d' (l' ++ q) /\ Encoding d' = E).

Definition unit_step (d : PH_UNICODE_DECODER) (u : Z) : next :=
  if Encoding d =? PH_UNICODE_UTF8 then utf8_unit d u else utf16_unit d u.

Class SchemeLaws (E : Z) `{Scheme E} : Prop := {
  scheme_units : E = PH_UNICODE_UTF8 \/ E = PH_UNICODE_UTF16;
  unit_fits u : is_unit u -> unit_of E u = u;
  unit_spec d p q u : Encoding d = E -> waiting d q -> vp d p -> is_unit u -> (length p + length q < capacity E)%nat ->
    unit_outcome E (p ++ [u]) q (unit_step d u);
  vp_idle d q : Encoding d = E -> waiting d q -> State d = 0 -> vp d [];
  vp_set d n l p : vp d p -> vp (set_input d n l) p;
  vp_prefix d p : vp d p -> p = [] \/ prefix p;
  prefix_length p : prefix p -> (length p < capacity E)%nat;
  prefix_not_wf l : prefix l -> ~ wf l;
  wf_nonempty l : wf l -> l <> [];
  wf_units l : wf l -> Forall is_unit l;
  wf_prefix p u us : wf (p ++ u :: us) -> us <> [] -> prefix (p ++ [u]);
  prefix_prefix p u us : prefix (p ++ u :: us) -> prefix (p ++ [u]);
}.

Section scheme.
Context (E : Z) `{SchemeLaws E}.

Lemma cut_last {A} (s : list A) : s <> [] -> exists p u, s = p ++ [u].
Proof. intros Hs. destruct (exists_last Hs) as (p & u & ->). eauto. Qed.

Lemma wf_cut s t : wf (s ++ t) -> s <> [] -> t <> [] -> prefix s.
Proof. intros Hw (p & u & ->)%cut_last Ht. rewrite <- app_assoc in Hw. by apply (wf_prefix p u t). Qed.

Lemma prefix_cut s t : prefix (s ++ t) -> s <> [] -> prefix s.
Proof. intros Hp (p & u & ->)%cut_last. rewrite <- app_assoc in Hp. by apply (prefix_prefix p u t). Qed.

(** Units with which no whole sequence begins, though all before the last one may begin one. *)
Definition dead (l : list Z) : Prop :=
  l <> [] /\ ~ prefix l /\ ~ wf l /\ (forall s t, l = s ++ t -> s <> [] -> t <> [] -> prefix s).

(** [us] decodes to [cps], leaving [p]. An ill-formed unit comes out alone. *)
Inductive segments : list Z -> list Z -> list Z -> Prop :=
  | segments_end p : segments p [] p
  | segments_whole l us cps p : wf l -> segments us cps p -> segments (l ++ us) (value l :: cps) p
  | segments_ill a us cps p l t : is_bad a -> a :: us = l ++ t -> dead l -> segments us cps p -> segments (a :: us) (bad a :: cps) p.

(** What a sequence of units stands for: what is left over may only begin a sequence. *)
Definition decoding (us cps : list Z) : Prop := exists p, segments us cps p /\ (p = [] \/ prefix p).

Lemma segments_app us cps p v cps' p' : segments us cps p -> segments (p ++ v) cps' p' -> segments (us ++ v) (cps ++ cps') p'.
Proof.
  intros Hs Hv. induction Hs as [p|l us cps p Hl Hs IH|a us cps p l t Ha Ex Hd Hs IH]; [done| |].
  - rewrite <- app_assoc. simpl. constructor; auto.
  - simpl. apply (segments_ill _ _ _ _ l (t ++ v)); auto. by rewrite app_assoc, <- Ex.
Qed.

Lemma segments_length us cps p : segments us cps p -> (length cps + length p <= length us)%nat.
Proof.
  induction 1 as [p|l us cps p Hl Hs IH|a us cps p l t Ha Ex Hd Hs IH]; simpl; [lia| |lia]. rewrite length_app.
  apply wf_nonempty in Hl. destruct l; [done|simpl; lia].
Qed.

Lemma segments_units us cps p : segments us cps p -> Forall is_unit us -> Forall is_unit p.
Proof.
  induction 1 as [p|l us cps p Hl Hs IH|a us cps p l t Ha Ex Hd Hs IH]; intros Hu; [done|apply Forall_app in Hu as [_ ?]|apply Forall_cons in Hu as [_ ?]]; auto.
Qed.

Lemma prefix_not_whole l t : prefix (l ++ t) -> ~ wf l.
Proof. intros Hp Hw. apply (prefix_not_wf l); [|done]. apply (prefix_cut l t Hp), wf_nonempty, Hw. Qed.

Lemma dead_not_prefix l t : dead l -> ~ prefix (l ++ t).
Proof. intros (Hne & Hd & _) Hp. by apply Hd, (prefix_cut l t). Qed.

Lemma dead_not_whole l t l' us : dead l -> l' ++ us = l ++ t -> ~ wf l'.
Proof.
  intros (Hne & Hp & Hw & Hcut) Ex Hl'. destruct (app_eq_app _ _ _ _ Ex) as (k & [[-> ->]|[-> ->]]).
  - destruct (decide (k = [])) as [->|Hk]; [rewrite app_nil_r in Hl'; done|]. by apply Hp, (wf_cut l k).
  - destruct (decide (k = [])) as [->|Hk]; [rewrite app_nil_r in Hw; done|].
    by apply (prefix_not_wf l'); [apply (Hcut l' k); [|apply wf_nonempty|]|].
Qed.

Lemma whole_unique l us l' us' : wf l -> wf l' -> l ++ us = l' ++ us' -> l = l' /\ us = us'.
Proof.
  intros Hl Hl' Ex. destruct (app_eq_app _ _ _ _ Ex) as (k & [[-> ->]|[-> ->]]);
    (destruct (decide (k = [])) as [->|Hk]; [by rewrite app_nil_r|]); exfalso.
  - apply (prefix_not_wf l'); [|done]. by apply (wf_cut l' k); [|apply wf_nonempty|].
  - apply (prefix_not_wf l); [|done]. by apply (wf_cut l k); [|apply wf_nonempty|].
Qed.

Lemma decoding_unique us cps cps' : decoding us cps -> decoding us cps' -> cps = cps'.
Proof.
  intros (p & Hs & Hp) (p' & Hs' & Hp'). revert cps' p' Hs' Hp'.
  assert (Hend : forall p cps q, segments p cps q -> p = [] \/ prefix p -> cps = []).
  { intros q cs r Hq Hpq. destruct Hq as [q|l us' cs r Hl Hq|a us' cs r l t Ha Ex Hd Hq]; [done| |]; exfalso.
    - destruct Hpq as [Ex|Hpq]; [apply app_nil in Ex as [-> _]; by apply wf_nonempty in Hl|by apply prefix_not_whole in Hpq].
    - destruct Hpq as [?|Hpq]; [done|]. rewrite Ex in Hpq. by apply dead_not_prefix in Hpq. }
  induction Hs as [p|l us cps p Hl Hs IH|a us cps p l t Ha Ex Hd Hs IH]; intros cps' p' Hs' Hp'.
  - by rewrite (Hend _ _ _ Hs' Hp).
  - inversion Hs' as [q Eq|l' us' cs q Hl' Hq Eq|a' us' cs q l' t' Ha' Ex' Hd' Hq Eq]; subst.
    + apply (Hend (l ++ us) _ p); [by constructor|done].
    + destruct (whole_unique l' us' l us Hl' Hl Eq) as [-> ->]. f_equal. eapply IH; eassumption.
    + rewrite Eq in Ex'. by destruct (dead_not_whole l' t' l us Hd' Ex').
  - inversion Hs' as [q Eq|l' us' cs q Hl' Hq Eq|a' us' cs q l' t' Ha' Ex' Hd' Hq Eq]; subst.
    + apply (Hend (a :: us) _ p); [by eapply segments_ill|done].
    + rewrite Ex in Eq. by destruct (dead_not_whole l t l' us' Hd Eq).
    + f_equal. eapply IH; eassumption.
Qed.

Lemma loop_step fuel d u q : Encoding d = E -> waiting d (u :: q) ->
  exists d', waiting d' q /\ same_decoder d d' /\
    decode_loop (S fuel) d = match unit_step d' u with Continue d'' => decode_loop fuel d'' | Return r => r end.
Proof.
  intros HE Hw. destruct (read_cons d u q Hw) as (d' & Er & Hw' & Hs). exists d'. split; [done|]. split; [done|].
  cbn [decode_loop]. destruct Hw as (-> & _). rewrite Er. cbn [negb mbind option_bind].
  assert (HE' : Encoding d' = E) by (rewrite Hs; exact HE). unfold unit_step. rewrite HE'.
  destruct scheme_units as [-> | ->]; done.
Qed.

Lemma dead_spec d p u : vp d p -> ~ prefix (p ++ [u]) -> ~ wf (p ++ [u]) -> dead (p ++ [u]).
Proof.
  intros Hv Hp Hw. split; [by destruct p|]. split; [done|]. split; [done|]. intros s t Ex Hs (q & x & ->)%cut_last.
  rewrite app_assoc in Ex. apply app_inj_tail in Ex as [-> _]. destruct (vp_prefix d _ Hv) as [Ex|Hpre].
  - by apply app_nil in Ex as [-> _].
  - by apply (prefix_cut s q).
Qed.

Lemma loop_spec q : forall fuel d p, Encoding d = E -> waiting d q -> vp d p -> Forall is_unit (p ++ q) ->
  (length p + length q <= capacity E)%nat -> (length q < fuel)%nat ->
  (exists d', decode_loop fuel d = Some (d', None) /\ waiting d' [] /\ vp d' (p ++ q) /\ Encoding d' = E) \/
  (exists d' q' cp, decode_loop fuel d = Some (d', Some cp) /\ (length q' < length (p ++ q))%nat /\ Forall is_unit q' /\
     (forall cps r, segments q' cps r -> segments (p ++ q) (cp :: cps) r) /\
     waiting d' q' /\ vp d' [] /\ Encoding d' = E).
Proof.
  induction q as [|u q IH]; intros fuel d p HE Hw Hv Hu Hlen Hfuel; (destruct fuel as [|fuel]; [simpl in Hfuel; lia|]).
  - left. exists d. cbn [decode_loop]. rewrite (proj1 Hw). cbn [negb]. rewrite (read_nil d Hw). cbn [mbind option_bind].
    by rewrite app_nil_r.
  - destruct (loop_step fuel d u q HE Hw) as (d1 & Hw1 & Hs & ->). simpl in Hlen, Hfuel.
    assert (Happ : p ++ u :: q = (p ++ [u]) ++ q) by (by rewrite <- app_assoc). rewrite Happ in *.
    assert (HE1 : Encoding d1 = E) by (rewrite Hs; exact HE).
    assert (Hv1 : vp d1 p) by (rewrite Hs; by apply vp_set).
    pose proof Hu as [[_ [Hu1 _]%Forall_cons]%Forall_app Hq]%Forall_app.
    destruct (unit_spec d1 p q u HE1 Hw1 Hv1 Hu1 ltac:(lia)) as [(Hp & d2 & -> & Hv2 & Hw2 & HE2)|[(Hwf & d2 & -> & Hv2 & Hw2 & HE2)|(Hnp & Hnw & d2 & a & l' & Hl & Hbad & -> & Hv2 & Hw2 & HE2)]].
    + apply (IH fuel d2 (p ++ [u]) HE2 Hw2 Hv2 Hu); [rewrite length_app; simpl; lia|lia].
    + right. exists d2, q, (value (p ++ [u])). split; [done|]. split; [rewrite !length_app; simpl; lia|]. split; [done|].
      split; [|done]. intros cps r Hr. by constructor.
    + right. exists d2, (l' ++ q), (bad a). pose proof (dead_spec d1 p u Hv1 Hnp Hnw) as Hdead. rewrite Hl in *. split; [done|].
      split; [simpl; lia|]. split; [by apply Forall_cons in Hu as [_ ?]|]. split; [|done]. intros cps r Hr.
      by apply (segments_ill a (l' ++ q) cps r (a :: l') q).
Qed.

Lemma drain_spec : forall fuel d p q, Encoding d = E -> waiting d q -> vp d p -> Forall is_unit (p ++ q) ->
  (length p + length q <= capacity E)%nat -> (length p + length q < fuel)%nat ->
  exists d' cps p', drain fuel d = Some (d', cps) /\ segments (p ++ q) cps p' /\ waiting d' [] /\ vp d' p' /\ Encoding d' = E.
Proof.
  induction fuel as [|fuel IH]; intros d p q HE Hw Hv Hu Hlen Hfuel; [lia|]. cbn [drain]. unfold PhDecodeUnicodeDecoder.
  destruct (loop_spec q (S (InputCount d)) d p HE Hw Hv Hu Hlen) as [(d' & -> & Hd')|(d1 & q1 & cp & -> & Hq1 & Hu1 & Hseg & Hw1 & Hv1 & HE1)].
  - destruct Hw as (_ & _ & -> & _). lia.
  - cbn [mbind option_bind]. exists d', [], (p ++ q). split; [done|]. split; [constructor|done].
  - cbn [mbind option_bind]. rewrite length_app in Hq1.
    destruct (IH d1 [] q1 HE1 Hw1 Hv1 Hu1 ltac:(simpl; lia) ltac:(simpl; lia)) as (d' & cps & p' & -> & Hs & Hd').
    cbn [mbind option_bind]. exists d', (cp :: cps), p'. split; [done|]. split; [by apply Hseg|done].
Qed.

Lemma capacity_fuel : (capacity E < 5)%nat.
Proof. pose proof (capacity_pos E). lia. Qed.

Lemma vp_length d p : vp d p -> (length p < capacity E)%nat.
Proof. intros [->|Hp]%vp_prefix; [pose proof (capacity_pos E); simpl; lia|by apply prefix_length]. Qed.

Lemma write_one d u : Encoding d = E -> waiting d [] -> is_unit u ->
  exists d', PhWriteUnicodeDecoder d u = Some (d', true) /\ waiting d' [u] /\ same_decoder d d'.
Proof.
  intros HE Hw Hu. destruct (write_waiting d [] u Hw) as (d' & Ew & Hw' & Hs).
  { rewrite HE. pose proof (capacity_pos E). simpl. lia. }
  exists d'. split; [done|]. split; [|done]. rewrite HE, (unit_fits u Hu) in Hw'. done.
Qed.

Lemma feed_spec d p u : Encoding d = E -> waiting d [] -> vp d p -> Forall is_unit p -> is_unit u ->
  exists d' cps p', feed d u = Some (d', cps) /\ segments (p ++ [u]) cps p' /\ waiting d' [] /\ vp d' p' /\ Encoding d' = E.
Proof.
  intros HE Hw Hv Hp Hu. unfold feed. destruct (write_one d u HE Hw Hu) as (d1 & -> & Hw1 & Hs). cbn [mbind option_bind].
  pose proof (vp_length d p Hv). pose proof capacity_fuel. apply (drain_spec 5 d1 p [u]).
  - rewrite Hs. exact HE.
  - done.
  - rewrite Hs. by apply vp_set.
  - apply Forall_app. split; [done|by constructor].
  - simpl. lia.
  - simpl. lia.
Qed.

Lemma stream_spec us : forall d p, Encoding d = E -> waiting d [] -> vp d p -> Forall is_unit p -> Forall is_unit us ->
  exists d' cps p', decode_stream d us = Some (d', cps) /\ segments (p ++ us) cps p' /\ vp d' p' /\ InputCount d' = 0%nat.
Proof.
  induction us as [|u us IH]; intros d p HE Hw Hv Hp Hus.
  - exists d, [], p. simpl. rewrite app_nil_r. split; [done|]. split; [constructor|]. split; [done|apply Hw].
  - apply Forall_cons in Hus as [Hu Hus]. cbn [decode_stream].
    destruct (feed_spec d p u HE Hw Hv Hp Hu) as (d1 & cps & p1 & -> & Hseg & Hw1 & Hv1 & HE1). cbn [mbind option_bind].
    assert (Hp1 : Forall is_unit p1).
    { eapply segments_units; [exact Hseg|]. apply Forall_app. split; [done|by constructor]. }
    destruct (IH d1 p1 HE1 Hw1 Hv1 Hp1 Hus) as (d' & cps' & p' & -> & Hseg' & Hd'). cbn [mbind option_bind].
    exists d', (cps ++ cps'), p'. split; [done|]. split; [|done].
    change (p ++ u :: us) with (p ++ [u] ++ us). rewrite app_assoc. by eapply segments_app.
Qed.

(** A whole sequence decodes to its value, its proper beginnings to nothing. *)
Lemma feed_exact d p u : Encoding d = E -> waiting d [] -> vp d p -> is_unit u ->
  (prefix (p ++ [u]) -> exists d', feed d u = Some (d', []) /\ waiting d' [] /\ vp d' (p ++ [u]) /\ Encoding d' = E) /\
  (wf (p ++ [u]) -> exists d', feed d u = Some (d', [value (p ++ [u])]) /\ waiting d' [] /\ vp d' [] /\ Encoding d' = E).
Proof.
  intros HE Hw Hv Hu. pose proof (vp_length d p Hv) as Hlen.
  unfold feed. destruct (write_one d u HE Hw Hu) as (d1 & -> & Hw1 & Hs1). cbn [mbind option_bind].
  assert (HE1 : Encoding d1 = E) by (rewrite Hs1; exact HE). assert (Hv1 : vp d1 p) by (rewrite Hs1; by apply vp_set).
  assert (Hdrain : forall n d2, waiting d2 [] -> drain (S n) d2 = Some (d2, [])).
  { intros n d2 Hw2. cbn [drain]. unfold PhDecodeUnicodeDecoder. cbn [decode_loop]. rewrite (proj1 Hw2). cbn [negb].
    by rewrite (read_nil d2 Hw2). }
  change (drain 5 d1) with ('(d, cp) ← PhDecodeUnicodeDecoder d1;
      match cp with None => Some (d, []) | Some cp => '(d, cps) ← drain 4 d; Some (d, cp :: cps) end).
  unfold PhDecodeUnicodeDecoder. destruct Hw1 as (Hk & Hl & Hn & Ht). pose proof (conj Hk (conj Hl (conj Hn Ht))) as Hw1. rewrite Hn.
  destruct (loop_step (length [u]) d1 u [] HE1 Hw1) as (d2 & Hw2 & Hs2 & ->).
  assert (HE2 : Encoding d2 = E) by (rewrite Hs2; exact HE1). assert (Hv2 : vp d2 p) by (rewrite Hs2; by apply vp_set).
  split; intros Hpu;
    (destruct (unit_spec d2 p [] u HE2 Hw2 Hv2 Hu ltac:(simpl; lia)) as [(Hp & d3 & -> & Hv3 & Hw3 & HE3)|[(Hwf & d3 & -> & Hv3 & Hw3 & HE3)|(Hnp & Hnw & _)]]);
    try done; try (by apply prefix_not_wf in Hpu); try (by apply prefix_not_wf in Hp).
  - exists d3. simpl. rewrite (proj1 Hw3). simpl. rewrite (read_nil d3 Hw3). done.
  - exists d3. cbn [mbind option_bind]. rewrite (Hdrain 3%nat d3 Hw3). done.
Qed.

Lemma stream_app us vs : forall d, decode_stream d (us ++ vs) =
  ('(d, a) ← decode_stream d us; '(d, b) ← decode_stream d vs; Some (d, a ++ b)).
Proof.
  induction us as [|u us IH]; intros d; simpl; [by destruct (decode_stream d vs) as [[? ?]|]|].
  destruct (feed d u) as [[d1 cps]|]; [|done]. simpl. rewrite IH.
  destruct (decode_stream d1 us) as [[d2 a]|]; [|done]. simpl. destruct (decode_stream d2 vs) as [[d3 b]|]; [|done]. simpl.
  by rewrite app_assoc.
Qed.

Lemma stream_wf us : forall d p, Encoding d = E -> waiting d [] -> vp d p -> us <> [] -> Forall is_unit us -> wf (p ++ us) ->
  exists d', decode_stream d us = Some (d', [value (p ++ us)]) /\ waiting d' [] /\ vp d' [] /\ Encoding d' = E.
Proof.
  induction us as [|u us IH]; intros d p HE Hw Hv Hne Hu Hwf; [done|]. apply Forall_cons in Hu as [Hu Hus]. cbn [decode_stream].
  destruct (feed_exact d p u HE Hw Hv Hu) as [Hpre Hfull]. destruct us as [|u' us].
  - destruct (Hfull Hwf) as (d' & -> & Hd'). simpl. by exists d'.
  - assert (Hp : prefix (p ++ [u])) by (by eapply wf_prefix).
    destruct (Hpre Hp) as (d1 & -> & Hw1 & Hv1 & HE1). cbn [mbind option_bind].
    destruct (IH d1 (p ++ [u]) HE1 Hw1 Hv1) as (d' & -> & Hd'); [done|done|by rewrite <- app_assoc|]. cbn [mbind option_bind].
    exists d'. by rewrite <- app_assoc in *.
Qed.

Lemma stream_all ls : forall d, Encoding d = E -> waiting d [] -> vp d [] -> Forall wf ls ->
  exists d', decode_stream d (mjoin ls) = Some (d', value <$> ls) /\ waiting d' [] /\ vp d' [] /\ Encoding d' = E.
Proof.
  induction ls as [|l ls IH]; intros d HE Hw Hv Hls; [by exists d|]. apply Forall_cons in Hls as [Hl Hls].
  simpl. rewrite stream_app.
  destruct (stream_wf l d [] HE Hw Hv (wf_nonempty l Hl) (wf_units l Hl) Hl) as (d1 & -> & Hw1 & Hv1 & HE1). cbn [mbind option_bind].
  destruct (IH d1 HE1 Hw1 Hv1 Hls) as (d' & -> & Hd'). cbn [mbind option_bind]. by exists d'.
Qed.

Lemma init_spec : waiting (PhInitializeUnicodeDecoder E) [] /\ vp (PhInitializeUnicodeDecoder E) [].
Proof.
  assert (Hw : waiting (PhInitializeUnicodeDecoder E) []).
  { split; [by destruct scheme_units as [-> | ->]|]. split; [apply length_replicate|done]. }
  split; [done|]. by eapply vp_idle.
Qed.

End scheme.

(** ** One unit of UTF-8 *)

Definition is_byte (u : Z) : Prop := 0 <= u < 256.

(** The state and the units kept for the beginning [p] of a sequence. *)
Definition vp8 (d : PH_UNICODE_DECODER) (p : list Z) : Prop :=
  match p with
  | [] => State d = 0
  | [a] => CodeUnit1 d = a /\ State d = (if a <? 0xe0 then 1 else if a <? 0xf0 then 2 else 3)
  | [a; b] => CodeUnit1 d = a /\ CodeUnit2 d = b /\ State d = (if a <? 0xf0 then 4 else 5)
  | [a; b; c] => CodeUnit1 d = a /\ CodeUnit2 d = b /\ CodeUnit3 d = c /\ State d = 6
  | _ => False
  end /\ (p <> [] -> prefix8 p).

Lemma continuation_spec u : is_byte u -> continuation u = (0x80 <=? u) && (u <? 0xc0).
Proof.
  intros Hu. assert (Hall : forallb (fun u => Bool.eqb (continuation u) ((0x80 <=? u) && (u <? 0xc0))) (seqZ 0 256) = true) by (by vm_compute).
  rewrite forallb_forall in Hall. apply eqb_prop, Hall, list_elem_of_In, elem_of_seqZ. unfold is_byte in Hu. lia.
Qed.

Lemma waiting_set d d' q : waiting d q -> Encoding d' = Encoding d -> InputCount d' = InputCount d -> Input d' = Input d -> waiting d' q.
Proof. unfold waiting. by intros ? -> -> ->. Qed.

(** The units after the first go back in front of the waiting ones. *)
Lemma utf8_error d q a l :
  Encoding d = PH_UNICODE_UTF8 -> waiting d q -> CodeUnit1 d = a -> is_byte a -> Forall is_byte l ->
  (length l + length q <= 4)%nat ->
  match l with
  | [] => True
  | [b] => CodeUnit2 d = b
  | [b; c] => CodeUnit2 d = b /\ CodeUnit3 d = c
  | [b; c; e] => CodeUnit2 d = b /\ CodeUnit3 d = c /\ CodeUnit4 d = e
  | _ => False
  end ->
  exists d', PhpDecodeUtf8Error d (Z.of_nat (S (length l))) = Some (d', Some (a + 0xdc00)) /\
    waiting d' (l ++ q) /\ vp8 d' [] /\ Encoding d' = PH_UNICODE_UTF8.
Proof.
  intros HE Hw Ha Hab Hl Hlen Hu.
  assert (Hstep : forall d1 q1 u, Encoding d1 = PH_UNICODE_UTF8 -> waiting d1 q1 -> is_byte u -> (length q1 < 4)%nat ->
    exists d2, PhpUnreadUnicodeDecoder d1 u = Some d2 /\ waiting d2 (u :: q1) /\ Encoding d2 = PH_UNICODE_UTF8 /\
      CodeUnit1 d2 = CodeUnit1 d1 /\ CodeUnit2 d2 = CodeUnit2 d1 /\ CodeUnit3 d2 = CodeUnit3 d1).
  { intros d1 q1 u HE1 Hw1 Hub Hq1. destruct (unread_waiting d1 q1 u Hw1) as (d2 & E & Hw2 & Hs); [by rewrite HE1|].
    exists d2. split; [done|]. rewrite HE1 in Hw2. unfold unit_of in Hw2. simpl in Hw2. rewrite u8_id in Hw2 by (unfold in_width, is_byte in *; lia).
    rewrite Hs. unfold set_input. cbn [Encoding CodeUnit1 CodeUnit2 CodeUnit3]. rewrite Hs in Hw2. done. }
  assert (Hend : forall d1, Encoding d1 = PH_UNICODE_UTF8 -> waiting d1 (l ++ q) -> CodeUnit1 d1 = a ->
    exists d', Some (set_state d1 0, Some (u32 (CodeUnit1 d1 + 0xdc00))) = Some (d', Some (a + 0xdc00)) /\
    waiting d' (l ++ q) /\ vp8 d' [] /\ Encoding d' = PH_UNICODE_UTF8).
  { intros d1 HE1 Hw1 Ha1. eexists. rewrite Ha1, u32_id by (unfold in_width, is_byte in *; lia). split; [done|].
    split; [by eapply waiting_set|]. split; [|done]. split; [done|]. done. }
  unfold PhpDecodeUtf8Error.
  destruct l as [|b [|c [|e [|? ?]]]]; cbn [length] in *; try done;
    repeat match goal with |- context [?a <=? ?b] => let r := eval vm_compute in (a <=? b) in change (a <=? b) with r end;
    cbn [mbind option_bind].
  - by apply Hend.
  - apply Forall_cons in Hl as [Hb _]. subst b.
    destruct (Hstep d q (CodeUnit2 d) HE Hw Hb ltac:(lia)) as (d1 & -> & Hw1 & HE1 & Hu1 & _). cbn [mbind option_bind].
    apply Hend; [done|done|congruence].
  - apply Forall_cons in Hl as [Hb [Hc _]%Forall_cons]. destruct Hu as [<- <-].
    destruct (Hstep d q (CodeUnit3 d) HE Hw Hc ltac:(lia)) as (d1 & -> & Hw1 & HE1 & Hu1 & Hu2 & _). cbn [mbind option_bind].
    destruct (Hstep d1 _ (CodeUnit2 d1) HE1 Hw1 ltac:(congruence) ltac:(simpl; lia)) as (d2 & -> & Hw2 & HE2 & Hv1 & _). cbn [mbind option_bind].
    apply Hend; [done|by rewrite Hu2 in Hw2|congruence].
  - apply Forall_cons in Hl as [Hb [Hc [He _]%Forall_cons]%Forall_cons]. destruct Hu as (<- & <- & <-).
    destruct (Hstep d q (CodeUnit4 d) HE Hw He ltac:(lia)) as (d1 & -> & Hw1 & HE1 & Hu1 & Hu2 & Hu3). cbn [mbind option_bind].
    destruct (Hstep d1 _ (CodeUnit3 d1) HE1 Hw1 ltac:(congruence) ltac:(simpl; lia)) as (d2 & -> & Hw2 & HE2 & Hv1 & Hv2 & _). cbn [mbind option_bind].
    destruct (Hstep d2 _ (CodeUnit2 d2) HE2 Hw2 ltac:(congruence) ltac:(simpl; lia)) as (d3 & -> & Hw3 & HE3 & Hx1 & _). cbn [mbind option_bind].
    apply Hend; [done| |congruence]. rewrite Hu3, Hv2, Hu2 in Hw3. done.
Qed.

#[global] Instance utf8 : Scheme PH_UNICODE_UTF8 := {|
  is_unit := is_byte; wf := wf8; value := value8; prefix := prefix8;
  is_bad := fun a => 0x80 <= a < 0x100; bad := fun a => a + 0xdc00; vp := vp8;
|}.

Ltac z_tests := repeat (match goal with
  | |- context [?a =? ?b] => destruct (Z.eqb_spec a b)
  | |- context [?a <? ?b] => destruct (Z.ltb_spec a b)
  | |- context [?a <=? ?b] => destruct (Z.leb_spec a b)
  end; try lia).

Ltac bytes := repeat (apply Forall_cons_2 || apply Forall_nil_2); unfold is_byte in *; lia.

Lemma unit_found d0 l q cp : Encoding d0 = PH_UNICODE_UTF8 -> waiting d0 q -> wf8 l -> cp = value8 l ->
  unit_outcome PH_UNICODE_UTF8 l q (Return (Some (set_state d0 0, Some (u32 cp)))).
Proof.
  intros HE Hw Hl ->. right. left. split; [done|]. eexists. destruct (wf8_encode l Hl) as [_ Hr].
  rewrite u32_id by (unfold in_width, PH_UNICODE_MAX_CODE_POINT in *; lia). split; [done|].
  split; [by split|]. split; [by eapply waiting_set|done].
Qed.

Lemma unit_continue d0 l q s : Encoding d0 = PH_UNICODE_UTF8 -> waiting d0 q -> prefix8 l -> vp8 (set_state d0 s) l ->
  unit_outcome PH_UNICODE_UTF8 l q (Continue (set_state d0 s)).
Proof. intros HE Hw Hl Hv. left. split; [done|]. eexists. split; [done|]. split; [done|]. split; [by eapply waiting_set|done]. Qed.

Lemma unit_error d0 q a l' :
  Encoding d0 = PH_UNICODE_UTF8 -> waiting d0 q -> CodeUnit1 d0 = a -> 0x80 <= a < 0x100 -> Forall is_byte l' ->
  (length l' + length q <= 4)%nat ->
  match l' with
  | [] => True
  | [b] => CodeUnit2 d0 = b
  | [b; c] => CodeUnit2 d0 = b /\ CodeUnit3 d0 = c
  | [b; c; e] => CodeUnit2 d0 = b /\ CodeUnit3 d0 = c /\ CodeUnit4 d0 = e
  | _ => False
  end -> ~ prefix8 (a :: l') -> ~ wf8 (a :: l') ->
  unit_outcome PH_UNICODE_UTF8 (a :: l') q (Return (PhpDecodeUtf8Error d0 (Z.of_nat (S (length l'))))).
Proof.
  intros HE Hw Ha Har Hl Hlen Hu Hnp Hnw. right. right. split; [done|]. split; [done|].
  destruct (utf8_error d0 q a l' HE Hw Ha) as (d' & -> & Hw' & Hv' & HE'); [unfold is_byte; lia|done|done|done|].
  exists d', a, l'. done.
Qed.

Lemma utf8_unit_spec d p q u :
  Encoding d = PH_UNICODE_UTF8 -> waiting d q -> vp8 d p -> is_byte u -> (length p + length q < 4)%nat ->
  unit_outcome PH_UNICODE_UTF8 (p ++ [u]) q (utf8_unit d u).
Proof.
  intros HE Hw [Hv Hp] Hu Hlen. unfold utf8_unit.
  destruct p as [|a [|b [|c [|? ?]]]]; simpl app; [| | | |by destruct Hv].
  - rewrite Hv. simpl.
    destruct (Z.ltb_spec u 0x80).
    { right. left. split; [unfold is_byte in Hu; simpl; lia|]. eexists. split; [done|]. split; [by split|].
      split; [by eapply waiting_set|done]. }
    destruct (Z.ltb_spec u 0xc2); [|destruct (Z.ltb_spec u 0xe0); [|destruct (Z.ltb_spec u 0xf0); [|destruct (Z.ltb_spec u 0xf5)]]];
      try (apply unit_continue; [done|by eapply waiting_set|simpl; lia|split; [|simpl; lia]; split; [done|simpl; z_tests; done]]);
      apply (unit_error (set_unit d 1 u) q u []); try done; try (by eapply waiting_set); try (simpl; lia); try (unfold is_byte in Hu; lia).
  - specialize (Hp ltac:(done)). destruct Hv as [Ha HS]. rewrite HS, (continuation_spec u Hu). simpl in Hp.
    assert (Herr : ~ prefix8 [a; u] -> ~ wf8 [a; u] -> unit_outcome PH_UNICODE_UTF8 [a; u] q (Return (PhpDecodeUtf8Error (set_unit d 2 u) 2))).
    { intros. apply (unit_error (set_unit d 2 u) q a [u]); try done; try (by eapply waiting_set); [lia|bytes|simpl in *; lia]. }
    unfold is_byte in Hu. cbn [CodeUnit1 CodeUnit2 CodeUnit3 set_unit Z.eqb Pos.eqb]. rewrite Ha.
    destruct (Z.ltb_spec a 0xe0); [|destruct (Z.ltb_spec a 0xf0)]; cbn [Z.eqb Pos.eqb]; z_tests; cbn [andb orb negb];
      try (apply Herr; simpl; unfold tail_byte; lia);
      try (apply unit_found; [done|by eapply waiting_set|simpl; unfold tail_byte; lia|simpl; rewrite Z.shiftl_mul_pow2; lia]);
      (apply unit_continue; [done|by eapply waiting_set|simpl; unfold tail_byte; lia|split; [|simpl; unfold tail_byte; lia]; simpl; split; [done|]; split; [done|]; z_tests; done]).
  - specialize (Hp ltac:(done)). destruct Hv as (Ha & Hb & HS). rewrite HS, (continuation_spec u Hu). simpl in Hp. unfold tail_byte in Hp.
    assert (Herr : ~ prefix8 [a; b; u] -> ~ wf8 [a; b; u] -> unit_outcome PH_UNICODE_UTF8 [a; b; u] q (Return (PhpDecodeUtf8Error (set_unit d 3 u) 3))).
    { intros. apply (unit_error (set_unit d 3 u) q a [b; u]); try done; try (by eapply waiting_set); [lia|bytes|simpl in *; lia]. }
    unfold is_byte in Hu. cbn [CodeUnit1 CodeUnit2 CodeUnit3 set_unit Z.eqb Pos.eqb]. rewrite Ha, Hb.
    destruct (Z.ltb_spec a 0xf0); cbn [Z.eqb Pos.eqb]; z_tests; cbn [andb orb negb];
      try (apply Herr; simpl; unfold tail_byte; lia);
      try (apply unit_found; [done|by eapply waiting_set|simpl; unfold tail_byte; lia|simpl; rewrite !Z.shiftl_mul_pow2; lia]);
      (apply unit_continue; [done|by eapply waiting_set|simpl; unfold tail_byte; lia|split; [|simpl; unfold tail_byte; lia]; simpl; done]).
  - specialize (Hp ltac:(done)). destruct Hv as (Ha & Hb & Hc & HS). rewrite HS, (continuation_spec u Hu). simpl in Hp. unfold tail_byte in Hp.
    unfold is_byte in Hu. cbn [CodeUnit1 CodeUnit2 CodeUnit3 set_unit Z.eqb Pos.eqb]. rewrite Ha, Hb, Hc.
    assert (Herr : ~ wf8 [a; b; c; u] -> unit_outcome PH_UNICODE_UTF8 [a; b; c; u] q (Return (PhpDecodeUtf8Error (set_unit d 4 u) 4))).
    { intros. apply (unit_error (set_unit d 4 u) q a [b; c; u]); try done; try (by eapply waiting_set); [lia|bytes|simpl in *; lia|simpl; tauto]. }
    z_tests; cbn [andb]; try (apply Herr; simpl; unfold tail_byte; lia).
    apply unit_found; [done|by eapply waiting_set|simpl; unfold tail_byte; lia|simpl; rewrite !Z.shiftl_mul_pow2; lia].
Qed.

Lemma utf8_lists l : wf8 l -> Forall is_byte l.
Proof. destruct l as [|a [|b [|c [|e [|? ?]]]]]; simpl; unfold tail_byte; intros; try done; bytes. Qed.

#[global] Instance utf8_laws : SchemeLaws PH_UNICODE_UTF8.
Proof.
  split; cbn [is_unit wf value prefix is_bad bad vp utf8].
  - by left.
  - intros u Hu. unfold unit_of. simpl. by apply u8_id.
  - intros d p q u HE Hw Hv Hu Hlen. unfold unit_step. rewrite HE. by apply utf8_unit_spec.
  - by intros d q HE Hw HS.
  - by intros d n l p.
  - intros d p [Hv Hp]. destruct p; [by left|]. right. by apply Hp.
  - intros [|a [|b [|c [|? ?]]]]; simpl; intros; try done; unfold capacity; simpl; lia.
  - intros [|a [|b [|c [|e [|? ?]]]]]; simpl; unfold tail_byte; try done; lia.
  - by intros [|? ?].
  - apply utf8_lists.
  - intros [|a [|b [|c [|e p]]]] u us Hwf Hne; simpl in *.
    + destruct us as [|b [|c [|e [|? ?]]]]; simpl in *; unfold tail_byte in *; try done; lia.
    + destruct us as [|c [|e [|? ?]]]; simpl in *; unfold tail_byte in *; try done; lia.
    + destruct us as [|e [|? ?]]; simpl in *; unfold tail_byte in *; try done; lia.
    + destruct us; [done|]. simpl in Hwf. done.
    + by destruct p.
  - intros [|a [|b [|c [|e p]]]] u us Hp; simpl in *; try done.
    + destruct us as [|b [|c [|? ?]]]; simpl in *; unfold tail_byte in *; try done; lia.
    + destruct us as [|c [|? ?]]; simpl in *; unfold tail_byte in *; try done; lia.
    + by destruct us.
Qed.

(** ** UTF-16 *)

Definition is_wchar (u : Z) : Prop := 0 <= u < 2 ^ 16.
Definition high_surrogate (u : Z) : Prop := 0xd800 <= u <= 0xdbff.
Definition low_surrogate (u : Z) : Prop := 0xdc00 <= u <= 0xdfff.

(** A lone low surrogate passes as itself. *)
Definition wf16 (l : list Z) : Prop :=
  match l with
  | [a] => is_wchar a /\ ~ high_surrogate a
  | [a; b] => high_surrogate a /\ low_surrogate b
  | _ => False
  end.
Definition value16 (l : list Z) : Z :=
  match l with
  | [a] => a
  | [a; b] => (a - 0xd800) * 1024 + (b - 0xdc00) + 0x10000
  | _ => 0
  end.
Definition prefix16 (l : list Z) : Prop := match l with [a] => high_surrogate a | _ => False end.
Definition vp16 (d : PH_UNICODE_DECODER) (p : list Z) : Prop :=
  match p with
  | [] => State d = 0
  | [a] => State d = 1 /\ CodeUnit d = a /\ high_surrogate a
  | _ => False
  end.

#[global] Instance utf16 : Scheme PH_UNICODE_UTF16 := {|
  is_unit := is_wchar; wf := wf16; value := value16; prefix := prefix16;
  is_bad := high_surrogate; bad := fun a => a; vp := vp16;
|}.

Lemma encode_wf16 cp l : 0 <= cp -> ~ high_surrogate cp -> PhEncodeUnicode PH_UNICODE_UTF16 cp = Some l ->
  wf16 l /\ value16 l = cp.
Proof.
  unfold high_surrogate, PhEncodeUnicode. cbn [PH_UNICODE_UTF16 PH_UNICODE_UTF8 Z.eqb Pos.eqb]. intros Hcp Hh.
  destruct (Z.ltb_spec cp 0x10000).
  { intros [= <-]. simpl. rewrite u16_id by (unfold in_width; lia). unfold is_wchar, high_surrogate. lia. }
  destruct (Z.leb_spec cp PH_UNICODE_MAX_CODE_POINT); [|done]. intros [= <-]. simpl.
  unfold high_surrogate, low_surrogate, PH_UNICODE_MAX_CODE_POINT, PH_UNICODE_UTF16_TO_HIGH_SURROGATE, PH_UNICODE_UTF16_TO_LOW_SURROGATE in *.
  bits. Z.to_euclidean_division_equations; lia.
Qed.

Lemma wf16_value l : wf16 l -> 0 <= value16 l <= PH_UNICODE_MAX_CODE_POINT.
Proof.
  unfold PH_UNICODE_MAX_CODE_POINT. destruct l as [|a [|b [|? ?]]]; simpl; unfold is_wchar, high_surrogate, low_surrogate; lia.
Qed.

Lemma utf16_unit_spec d p q u :
  Encoding d = PH_UNICODE_UTF16 -> waiting d q -> vp16 d p -> is_wchar u -> (length p + length q < 2)%nat ->
  unit_outcome PH_UNICODE_UTF16 (p ++ [u]) q (utf16_unit d u).
Proof.
  intros HE Hw Hv Hu Hlen. unfold utf16_unit, PH_UNICODE_UTF16_IS_HIGH_SURROGATE, PH_UNICODE_UTF16_IS_LOW_SURROGATE.
  destruct p as [|a [|? ?]]; simpl app; [| |by destruct Hv].
  - simpl in Hv. rewrite Hv. cbn [Z.eqb]. destruct (decide (high_surrogate u)) as [Hh|Hh]; unfold high_surrogate in Hh.
    + rewrite (proj2 (Z.leb_le _ _)), (proj2 (Z.leb_le _ _)) by lia. left. split; [done|]. eexists. split; [done|].
      split; [done|]. split; [by eapply waiting_set|done].
    + assert (((0xd800 <=? u) && (u <=? 0xdbff)) = false) as -> by lia. right. left.
      split; [done|]. eexists. split; [done|]. done.
  - destruct Hv as (HS & Hc & Ha). rewrite HS. cbn [Z.eqb Pos.eqb]. destruct (decide (low_surrogate u)) as [Hl|Hl]; unfold low_surrogate in Hl.
    + rewrite (proj2 (Z.leb_le _ _)), (proj2 (Z.leb_le _ _)) by lia. right. left. split; [done|]. exists (set_state d 0).
      split; [|split; [done|split; [by eapply waiting_set|done]]]. rewrite Hc. unfold PH_UNICODE_UTF16_TO_CODE_POINT, high_surrogate in *.
      rewrite Z.shiftl_mul_pow2 by lia. rewrite u32_id by (unfold in_width; lia).
      cbn [value utf16 value16]. repeat f_equal. lia.
    + assert (((0xdc00 <=? u) && (u <=? 0xdfff)) = false) as -> by lia. right. right.
      split; [by intros ?|]. split; [by intros [_ ?]|].
      destruct (unread_waiting d q u Hw) as (d' & -> & Hw' & Hs); [rewrite HE; change (capacity _) with 2%nat; simpl in Hlen; lia|]. cbn [mbind option_bind].
      exists (set_state d' 0), a, [u]. split; [done|]. split; [done|]. split; [by rewrite Hs, <- Hc|]. split; [done|].
      rewrite HE in Hw'. unfold unit_of in Hw'. simpl in Hw'. rewrite u16_id in Hw' by done.
      split; [by eapply waiting_set|by rewrite Hs].
Qed.

#[global] Instance utf16_laws : SchemeLaws PH_UNICODE_UTF16.
Proof.
  split; cbn [is_unit wf value prefix is_bad bad vp utf16].
  - by right.
  - intros u Hu. unfold unit_of. simpl. by apply u16_id.
  - intros d p q u HE Hw Hv Hu Hlen. unfold unit_step. rewrite HE. by apply utf16_unit_spec.
  - by intros d q HE Hw HS.
  - by intros d n l p.
  - intros d [|a [|? ?]] Hv; simpl in Hv; [by left|right; by destruct Hv as (_ & _ & Hv)|done].
  - intros [|a [|? ?]]; simpl; try done. unfold capacity; simpl; lia.
  - intros [|a [|? ?]]; simpl; try done. tauto.
  - by intros [|? ?].
  - intros [|a [|b [|? ?]]]; simpl; unfold high_surrogate, low_surrogate; try done; intros; repeat (apply Forall_cons_2 || apply Forall_nil_2); unfold is_wchar in *; lia.
  - intros [|a p] u us Hwf Hne; simpl in *.
    + destruct us as [|b [|? ?]]; [done| |done]. simpl in Hwf. tauto.
    + destruct us; [done|]. by destruct p as [|? [|? ?]].
  - intros [|a [|? ?]] u us Hp; simpl in *; [by destruct us|done|done].
Qed.

(** ** UTF-32: every unit is its code point *)

Lemma utf32_stream us : forall d, Encoding d = PH_UNICODE_UTF32 -> waiting d [] ->
  exists d', decode_stream d us = Some (d', us) /\ State d' = State d /\ InputCount d' = 0%nat.
Proof.
  induction us as [|u us IH]; intros d HE Hw; [exists d; split; [done|]; split; [done|]; by destruct Hw as (_ & _ & -> & _)|].
  cbn [decode_stream]. unfold feed.
  destruct (write_waiting d [] u Hw) as (d1 & -> & Hw1 & Hs1); [rewrite HE; change (capacity _) with 1%nat; simpl; lia|]. cbn [mbind option_bind app] in *.
  rewrite HE in Hw1. change (unit_of PH_UNICODE_UTF32 u) with u in Hw1.
  assert (HE1 : Encoding d1 = PH_UNICODE_UTF32) by (rewrite Hs1; exact HE).
  destruct (read_cons d1 u [] Hw1) as (d2 & Hr & Hw2 & Hs2).
  assert (HE2 : Encoding d2 = PH_UNICODE_UTF32) by (rewrite Hs2; exact HE1).
  assert (Hdec : PhDecodeUnicodeDecoder d1 = Some (d2, Some u)).
  { unfold PhDecodeUnicodeDecoder. cbn [decode_loop]. rewrite (proj1 Hw1). cbn [negb]. rewrite Hr. cbn [mbind option_bind]. by rewrite HE2. }
  assert (Hstop : PhDecodeUnicodeDecoder d2 = Some (d2, None)).
  { unfold PhDecodeUnicodeDecoder. cbn [decode_loop]. rewrite (proj1 Hw2). cbn [negb]. by rewrite (read_nil d2 Hw2). }
  cbn [drain]. rewrite Hdec. cbn [mbind option_bind]. rewrite Hstop. cbn [mbind option_bind].
  destruct (IH d2 HE2 Hw2) as (d' & -> & HS & Hn). cbn [mbind option_bind]. exists d'. split; [done|]. split; [|done].
  by rewrite HS, Hs2, Hs1.
Qed.

(** ** Properties *)

Lemma encode_all_wf `{SchemeLaws E} cps : Forall (fun cp => exists l, PhEncodeUnicode E cp = Some l /\ wf l /\ value l = cp) cps ->
  exists ls, mapM (PhEncodeUnicode E) cps = Some ls /\ Forall wf ls /\ value <$> ls = cps.
Proof.
  induction 1 as [|cp cps (l & El & Hl & Hv) _ (ls & Els & Hls & Hvs)]; [by exists []|].
  exists (l :: ls). cbn [mapM]. rewrite El. cbn [mbind option_bind]. rewrite Els. split; [done|]. split; [by constructor|].
  by rewrite fmap_cons, Hv, Hvs.
Qed.

Lemma encode_all_stream `{SchemeLaws E} cps ls : mapM (PhEncodeUnicode E) cps = Some ls -> Forall wf ls -> value <$> ls = cps ->
  (forall d, vp d [] -> State d = 0) ->
  exists d, decode_stream (PhInitializeUnicodeDecoder E) (mjoin ls) = Some (d, cps) /\ State d = 0 /\ InputCount d = 0%nat.
Proof.
  intros Hls Hwf Hv Hidle. destruct (init_spec E) as [Hw Hvp].
  destruct (stream_all E ls (PhInitializeUnicodeDecoder E)) as (d & -> & Hwd & Hvd & _); [done..|].
  exists d. rewrite Hv. split; [done|]. split; [by apply Hidle|apply Hwd].
Qed.

Lemma encode_defined cp : 0 <= cp <= PH_UNICODE_MAX_CODE_POINT ->
  is_Some (PhEncodeUnicode PH_UNICODE_UTF8 cp) /\ is_Some (PhEncodeUnicode PH_UNICODE_UTF16 cp).
Proof.
  intros Hcp. unfold PhEncodeUnicode. cbn [PH_UNICODE_UTF16 PH_UNICODE_UTF8 Z.eqb Pos.eqb].
  rewrite (proj2 (Z.leb_le cp PH_UNICODE_MAX_CODE_POINT)) by lia.
  split; repeat case_match; eauto.
Qed.

(** C31: encoding then decoding gives back the text: every sequence of code points up to 0x10ffff has
    an encoding in each of the three forms (in UTF-16, when none is a high surrogate), and feeding its
    units one by one to a fresh decoder yields exactly those code points and leaves it empty and in
    its initial state. *)
Theorem unicode_roundtrip (Encoding : Z) (cps : list Z)
  (HE : known Encoding = true)
  (Hcps : Forall (fun cp => 0 <= cp <= PH_UNICODE_MAX_CODE_POINT) cps)
  (Hsur : Encoding = PH_UNICODE_UTF16 -> Forall (fun cp => PH_UNICODE_UTF16_IS_HIGH_SURROGATE cp = false) cps) :
  exists ls d, mapM (PhEncodeUnicode Encoding) cps = Some ls /\
    decode_stream (PhInitializeUnicodeDecoder Encoding) (mjoin ls) = Some (d, cps) /\ State d = 0 /\ InputCount d = 0%nat.
Proof.
  assert (Encoding = PH_UNICODE_UTF8 \/ Encoding = PH_UNICODE_UTF16 \/ Encoding = PH_UNICODE_UTF32) as [->|[->| ->]]
    by (unfold known, PH_UNICODE_UTF8, PH_UNICODE_UTF16, PH_UNICODE_UTF32 in *; lia); clear HE.
  - destruct (encode_all_wf (E := PH_UNICODE_UTF8) cps) as (ls & Els & Hwf & Hv).
    { eapply Forall_impl; [exact Hcps|]. intros cp Hcp. cbv beta in Hcp. destruct (encode_defined cp Hcp) as [[l El] _].
      exists l. split; [done|]. apply encode_wf8; [lia|done]. }
    destruct (encode_all_stream (E := PH_UNICODE_UTF8) cps ls Els Hwf Hv) as (d & Hd); [by intros d [? _]|]. by exists ls, d.
  - specialize (Hsur eq_refl). destruct (encode_all_wf (E := PH_UNICODE_UTF16) cps) as (ls & Els & Hwf & Hv).
    { apply Forall_forall. intros cp Hin. rewrite Forall_forall in Hcps, Hsur. specialize (Hcps cp Hin). specialize (Hsur cp Hin). cbv beta in *.
      destruct (encode_defined cp Hcps) as [_ [l El]]. exists l. split; [done|]. apply encode_wf16; [lia| |done].
      unfold PH_UNICODE_UTF16_IS_HIGH_SURROGATE, high_surrogate in *. lia. }
    destruct (encode_all_stream (E := PH_UNICODE_UTF16) cps ls Els Hwf Hv) as (d & Hd); [by intros d ?|]. by exists ls, d.
  - destruct (utf32_stream cps (PhInitializeUnicodeDecoder PH_UNICODE_UTF32)) as (d & Ed & HS & Hn); [done|by split|].
    assert (Hls : mapM (PhEncodeUnicode PH_UNICODE_UTF32) cps = Some ((fun cp => [cp]) <$> cps)).
    { clear. induction cps as [|cp cps IH]; [done|]. cbn [mapM]. by rewrite IH. }
    assert (Hj : mjoin ((fun cp => [cp]) <$> cps) = cps).
    { clear. induction cps as [|cp cps IH]; [done|]. rewrite fmap_cons. change (cp :: mjoin ((fun cp => [cp]) <$> cps) = cp :: cps). by rewrite IH. }
    exists ((fun cp => [cp]) <$> cps), d. split; [done|]. rewrite Hj. split; [done|]. by rewrite HS.
Qed.

Lemma unicode_roundtrip_witness : exists ls d, mapM (PhEncodeUnicode PH_UNICODE_UTF16) [0x41; 0x1f600; 0xffff] = Some ls /\
    decode_stream (PhInitializeUnicodeDecoder PH_UNICODE_UTF16) (mjoin ls) = Some (d, [0x41; 0x1f600; 0xffff]) /\ State d = 0 /\ InputCount d = 0%nat.
Proof.
  apply (unicode_roundtrip PH_UNICODE_UTF16); [reflexivity|repeat constructor; unfold PH_UNICODE_MAX_CODE_POINT; lia|].
  intros _. repeat constructor.
Defined.

Lemma stream_decodes E `{SchemeLaws E} us : Forall is_unit us ->
  exists d cps, decode_stream (PhInitializeUnicodeDecoder E) us = Some (d, cps) /\ decoding E us cps /\ InputCount d = 0%nat.
Proof.
  intros Hu. destruct (init_spec E) as [Hw Hv].
  destruct (stream_spec E us (PhInitializeUnicodeDecoder E) [] eq_refl Hw Hv (Forall_nil_2 _) Hu) as (d & cps & p & Ed & Hs & Hp & Hn).
  exists d, cps. split; [done|]. split; [|done]. exists p. split; [done|by eapply vp_prefix].
Qed.

(** C32: A caller that writes one unit at a time to a fresh decoder and takes all code points that are
    there before it writes the next one, as the conversion loops do, can decode arbitrary UTF-8 bytes or UTF-16
    units, well formed or not: no call raises, every loop ends, and the outcome is
    the one decoding of the input: whole sequences give their code points, a unit
    with which no whole sequence can begin comes out alone (a byte [b] as [0xdc00 + b], a lone high
    surrogate as itself), and only the beginning of a sequence may be left over. UTF-32 units come out
    as they are. (A caller that writes several units before it reads can make the decoder raise:
    [decoder_raises_when_full].) *)
Theorem decoder_total :
  (forall us, Forall is_byte us -> exists d cps,
     decode_stream (PhInitializeUnicodeDecoder PH_UNICODE_UTF8) us = Some (d, cps) /\ InputCount d = 0%nat /\
     forall cps', decoding PH_UNICODE_UTF8 us cps' <-> cps' = cps) /\
  (forall us, Forall is_wchar us -> exists d cps,
     decode_stream (PhInitializeUnicodeDecoder PH_UNICODE_UTF16) us = Some (d, cps) /\ InputCount d = 0%nat /\
     forall cps', decoding PH_UNICODE_UTF16 us cps' <-> cps' = cps) /\
  (forall us, exists d, decode_stream (PhInitializeUnicodeDecoder PH_UNICODE_UTF32) us = Some (d, us) /\ InputCount d = 0%nat).
Proof.
  assert (Hall : forall E `{SchemeLaws E} us, Forall is_unit us -> exists d cps,
     decode_stream (PhInitializeUnicodeDecoder E) us = Some (d, cps) /\ InputCount d = 0%nat /\ forall cps', decoding E us cps' <-> cps' = cps).
  { intros E S L us Hu. destruct (stream_decodes E us Hu) as (d & cps & Ed & Hd & Hn). exists d, cps. split; [done|]. split; [done|].
    intros cps'. split; [intros Hd'; by apply (decoding_unique E us)|by intros ->]. }
  split; [|split]; [intros us Hu; exact (Hall PH_UNICODE_UTF8 _ _ us Hu)|intros us Hu; exact (Hall PH_UNICODE_UTF16 _ _ us Hu)|].
  intros us. destruct (utf32_stream us (PhInitializeUnicodeDecoder PH_UNICODE_UTF32)) as (d & Ed & _ & Hn); [done|by split|by exists d].
Qed.

Lemma decoder_total_witness : exists d cps,
  decode_stream (PhInitializeUnicodeDecoder PH_UNICODE_UTF8) [0xe1; 0x80; 0x41; 0xc3; 0xa9; 0xf0] = Some (d, cps) /\ InputCount d = 0%nat /\
  forall cps', decoding PH_UNICODE_UTF8 [0xe1; 0x80; 0x41; 0xc3; 0xa9; 0xf0] cps' <-> cps' = cps.
Proof. apply (proj1 decoder_total). repeat (apply Forall_cons_2 || apply Forall_nil_2); unfold is_byte; lia. Defined.

(** Filling the decoder before asking again: after a failed read two units are waiting inside the
    machine, four more fit in the array, and the error path cannot put them back. *)
Example decoder_raises_when_full :
  (d ← fst <$> PhWriteUnicodeDecoder (PhInitializeUnicodeDecoder PH_UNICODE_UTF8) 0xe1;
   d ← fst <$> PhDecodeUnicodeDecoder d;
   d ← fst <$> PhWriteUnicodeDecoder d 0x80;
   d ← fst <$> PhDecodeUnicodeDecoder d;
   d ← fst <$> PhWriteUnicodeDecoder d 0x41;
   d ← fst <$> PhWriteUnicodeDecoder d 0x41;
   d ← fst <$> PhWriteUnicodeDecoder d 0x41;
   d ← fst <$> PhWriteUnicodeDecoder d 0x41;
   PhDecodeUnicodeDecoder d) = None.
Proof. reflexivity. Qed.

(** *** ASCII *)

Lemma to_ascii_length Replacement cps : (length (mjoin (to_ascii Replacement <$> cps)) <= length cps)%nat.
Proof.
  induction cps as [|cp cps IH]; [done|]. rewrite fmap_cons. change (mjoin (?x :: ?y)) with (x ++ mjoin y). rewrite length_app.
  cbn [length]. unfold to_ascii at 1. destruct (cp <? 0x80); [simpl; lia|]. destruct (negb _); simpl; lia.
Qed.

Lemma ascii_loop_stream Replacement size us : forall d out cps d',
  decode_stream d us = Some (d', cps) -> (length out + length cps <= size)%nat ->
  ascii_loop Replacement size d us out = Some (out ++ mjoin (to_ascii Replacement <$> cps)).
Proof.
  induction us as [|u us IH]; intros d out cps d' Hs Hsize; cbn [decode_stream ascii_loop] in *.
  - injection Hs as -> <-. by rewrite app_nil_r.
  - destruct (feed d u) as [[d1 cps1]|]; [|done]. cbn [mbind option_bind] in *.
    destruct (decode_stream d1 us) as [[d2 rest]|] eqn:Er; [|done]. injection Hs as -> <-. rewrite length_app in Hsize.
    pose proof (to_ascii_length Replacement cps1). unfold store_all. rewrite decide_True by lia. cbn [mbind option_bind].
    rewrite (IH d1 _ rest d' Er) by (rewrite length_app; lia). by rewrite fmap_app, join_app, app_assoc.
Qed.

Lemma decoding_length E `{SchemeLaws E} us cps : decoding E us cps -> (length cps <= length us)%nat.
Proof. intros (p & Hs & _). pose proof (segments_length E us cps p Hs). lia. Qed.

Lemma to_ascii_ascii Replacement cps : Forall (fun cp => 0 <= cp < 0x80) cps -> mjoin (to_ascii Replacement <$> cps) = cps.
Proof.
  induction 1 as [|cp cps Hcp _ IH]; [done|]. rewrite fmap_cons. change (mjoin (?x :: ?y)) with (x ++ mjoin y). rewrite IH.
  unfold to_ascii. by rewrite (proj2 (Z.ltb_lt _ _)) by lia.
Qed.

Lemma ascii_decoding us : Forall (fun u => 0 <= u < 0x80) us -> decoding PH_UNICODE_UTF16 us us.
Proof.
  intros Hus. exists []. split; [|by left]. induction Hus as [|u us Hu _ IH]; [constructor|].
  change (segments PH_UNICODE_UTF16 ([u] ++ us) (value [u] :: us) []). constructor; [|done]. simpl. unfold is_wchar, high_surrogate. lia.
Qed.

Lemma extend_blocks_S fuel inputLength a b c d l out :
  extend_blocks (S fuel) inputLength (a :: b :: c :: d :: l) out =
  (let Output := out ++ [C_1uTo2 a; C_1uTo2 b; C_1uTo2 c; C_1uTo2 d] in
   if inputLength - 4 =? 0 then Some (l, Output) else extend_blocks fuel (inputLength - 4) l Output).
Proof. done. Qed.

Lemma extend_blocks_spec n : forall l t out, length l = (4 * S n)%nat ->
  extend_blocks (S n) (4 * Z.of_nat (S n)) (l ++ t) out = Some (t, out ++ (C_1uTo2 <$> l)).
Proof.
  induction n as [|n IH]; intros [|a [|b [|c [|d l]]]] t out Hl; simpl in Hl; try lia.
  - destruct l; [done|simpl in Hl; lia].
  - cbn [app]. rewrite extend_blocks_S. cbv zeta. rewrite (proj2 (Z.eqb_neq _ _)) by lia.
    replace (4 * Z.of_nat (S (S n)) - 4) with (4 * Z.of_nat (S n)) by lia. rewrite IH by lia.
    by rewrite <- app_assoc.
Qed.

Lemma zero_extend_map Input : PhZeroExtendToUtf16Buffer Input (Z.of_nat (length Input)) = Some (C_1uTo2 <$> Input).
Proof.
  unfold PhZeroExtendToUtf16Buffer. set (L := Z.of_nat (length Input)).
  assert (H3 : Z.land L 3 = L mod 4) by (change 3 with (Z.ones 2); by rewrite Z.land_ones).
  assert (H4 : Z.land L (-4) = 4 * (L / 4)).
  { change (-4) with (Z.lnot (Z.ones 2)). rewrite <- Z.ldiff_land, Z.ldiff_ones_r, Z.shiftr_div_pow2, Z.shiftl_mul_pow2 by lia. change (2 ^ 2) with 4. lia. }
  rewrite H3, H4. set (n := Z.to_nat (L / 4)).
  assert (Hn : L = 4 * Z.of_nat n + L mod 4) by (unfold n; Z.to_euclidean_division_equations; lia).
  assert (Hq : L / 4 = Z.of_nat n) by (unfold n; rewrite Z2Nat.id; [done|apply Z.div_pos; lia]). clearbody n.
  assert (Hr : 0 <= L mod 4 < 4) by (by apply Z.mod_pos_bound). assert (HL : Z.of_nat (length Input) = L) by done.
  assert (Hb : (if 4 * (L / 4) =? 0 then Some (Input, []) else extend_blocks (Z.to_nat (4 * (L / 4) / 4)) (4 * (L / 4)) Input []) =
               Some (drop (4 * n) Input, C_1uTo2 <$> take (4 * n) Input)).
  { rewrite Hq. destruct (Z.eqb_spec (4 * Z.of_nat n) 0) as [E|E]; [by assert (n = 0%nat) as -> by lia|].
    assert (4 * Z.of_nat n / 4 = Z.of_nat n) as -> by (rewrite Z.mul_comm; by apply Z.div_mul).
    rewrite Nat2Z.id. destruct n as [|k]; [lia|]. rewrite <- (take_drop (4 * S k) Input) at 1. rewrite extend_blocks_spec; [done|]. rewrite length_take. lia. }
  rewrite Hb. cbn [mbind option_bind].
  assert ((C_1uTo2 <$> Input) = (C_1uTo2 <$> take (4 * n) Input) ++ (C_1uTo2 <$> drop (4 * n) Input)) as ->
    by (by rewrite <- fmap_app, take_drop).
  assert (Hd : length (drop (4 * n) Input) = Z.to_nat (L mod 4)) by (rewrite length_drop; lia).
  destruct (drop (4 * n) Input) as [|a [|b [|c [|d l]]]]; simpl in Hd.
  - replace (L mod 4) with 0 by lia. by rewrite app_nil_r.
  - by replace (L mod 4) with 1 by lia.
  - by replace (L mod 4) with 2 by lia.
  - by replace (L mod 4) with 3 by lia.
  - lia.
Qed.

(** [PhConvertUtf16ToAsciiEx] never writes outside the bytes object it allocates, whatever the units:
    the bytes are those of the code points the input stands for, each below 0x80 as it is and each
    other one replaced (or dropped, for replacement 0), followed by the terminator; so there are at
    most as many as units, and ASCII bytes widened by [PhZeroExtendToUtf16Buffer] come back unchanged. *)
Theorem convert_ascii (Buffer : list Z) (Replacement : Z) (Hu : Forall is_wchar Buffer) :
  exists cps, decoding PH_UNICODE_UTF16 Buffer cps /\
    PhConvertUtf16ToAsciiEx Buffer Replacement = Some (mjoin (to_ascii Replacement <$> cps) ++ [0]) /\
    (length (mjoin (to_ascii Replacement <$> cps)) <= length Buffer)%nat /\
    (Forall (fun u => 0 <= u < 0x80) Buffer ->
       PhZeroExtendToUtf16Buffer Buffer (Z.of_nat (length Buffer)) = Some Buffer /\
       PhConvertUtf16ToAsciiEx Buffer Replacement = Some (Buffer ++ [0])).
Proof.
  destruct (stream_decodes PH_UNICODE_UTF16 Buffer) as (d & cps & Ed & Hd & _); [exact Hu|]. exists cps.
  pose proof (decoding_length _ _ _ Hd) as Hlen. pose proof (to_ascii_length Replacement cps) as Hout.
  assert (Hc : PhConvertUtf16ToAsciiEx Buffer Replacement = Some (mjoin (to_ascii Replacement <$> cps) ++ [0])).
  { unfold PhConvertUtf16ToAsciiEx. rewrite (ascii_loop_stream _ _ _ _ [] cps d Ed) by (simpl; lia). cbn [mbind option_bind app].
    unfold store_all. rewrite decide_True by (simpl; lia). done. }
  split; [done|]. split; [done|]. split; [lia|]. intros Ha. rewrite Hc, zero_extend_map. split.
  { f_equal. rewrite <- (list_fmap_id Buffer) at 2. apply list_fmap_ext. intros i u Hi. change (u8 u = u). apply u8_id.
    assert (0 <= u < 0x80) by (rewrite Forall_lookup in Ha; by apply (Ha i)). unfold in_width. lia. }
  rewrite (decoding_unique _ _ _ _ Hd (ascii_decoding Buffer Ha)) in *. by rewrite to_ascii_ascii.
Qed.

Lemma convert_ascii_witness : exists cps, decoding PH_UNICODE_UTF16 [0x48; 0xd83d; 0xde00; 0x69] cps /\
    PhConvertUtf16ToAsciiEx [0x48; 0xd83d; 0xde00; 0x69] 0x3f = Some (mjoin (to_ascii 0x3f <$> cps) ++ [0]) /\
    Nat.le (length (mjoin (to_ascii 0x3f <$> cps))) 4 /\
    (Forall (fun u => 0 <= u < 0x80) [0x48; 0xd83d; 0xde00; 0x69] ->
       PhZeroExtendToUtf16Buffer [0x48; 0xd83d; 0xde00; 0x69] 4 = Some [0x48; 0xd83d; 0xde00; 0x69] /\
       PhConvertUtf16ToAsciiEx [0x48; 0xd83d; 0xde00; 0x69] 0x3f = Some ([0x48; 0xd83d; 0xde00; 0x69] ++ [0])).
Proof. apply (convert_ascii [0x48; 0xd83d; 0xde00; 0x69] 0x3f). repeat (apply Forall_cons_2 || apply Forall_nil_2); unfold is_wchar; lia. Defined.

End Unicode.
