(* ===== verification/FreeList.v ===== *)
(** * Free lists: [phlib/basesup.c]

    A cache of blocks of one size in front of the process heap, and the interface [Allocator] that
    states what a client of several free lists and of the heap may rely on. The heap is the
    system's: [Heap] is the interface, [HeapLaws] its documented behaviour. *)

From S2P Require Import Prelude.

(** [RtlAllocateHeap]: the address of a new block, or NULL; without HEAP_GENERATE_EXCEPTIONS. The
    answer may depend on the time of the call and on the blocks in use, by address and size. *)
Class Heap := RtlAllocateHeap : nat -> gmap Z Z -> Z -> option Z.

Class HeapLaws `{Heap} := {
  heap_fresh : forall t h n a, RtlAllocateHeap t h n = Some a -> h !! a = None;
  heap_aligned : forall t h n a, RtlAllocateHeap t h n = Some a -> 0 < a /\ a mod 16 = 0;
}.

(** What a component that owns blocks of several kinds needs: a block obtained was not owned
    before, and only owned blocks are given back. *)
Class Allocator (S K : Type) := {
  obtain : K -> S -> S * option Z;
  give_back : K -> Z -> S -> ub S;
  owned : K -> S -> gset Z;
  alloc_wf : S -> Prop;
}.

Class AllocatorLaws (S K : Type) `{Allocator S K} := {
  obtain_some : forall k s s' a, alloc_wf s -> obtain k s = (s', Some a) ->
    (a ∉ owned k s) /\ owned k s' = {[a]} ∪ owned k s /\ 0 < a /\ a mod 16 = 0 /\
    alloc_wf s' /\ forall k', k' <> k -> owned k' s' = owned k' s;
  obtain_none : forall k s s', alloc_wf s -> obtain k s = (s', None) ->
    alloc_wf s' /\ forall k', owned k' s' = owned k' s;
  give_back_owned : forall k a s, alloc_wf s -> a ∈ owned k s ->
    exists s', give_back k a s = Some s' /\ owned k s' = owned k s ∖ {[a]} /\
      alloc_wf s' /\ forall k', k' <> k -> owned k' s' = owned k' s;
}.

Module FreeList.

(** The blocks in use, and the time. *)
Record heap := { blocks : gmap Z Z; clock : nat }.

Section heap.
Context `{Heap}.

Definition PhAllocateSafe (h : heap) (Size : Z) : heap * option Z :=
  match RtlAllocateHeap (clock h) (blocks h) Size with
  | Some a => ({| blocks := <[a := Size]> (blocks h); clock := S (clock h) |}, Some a)
  | None => ({| blocks := blocks h; clock := S (clock h) |}, None)
  end.

(** [None] is a raised STATUS_NO_MEMORY: the heap generates exceptions here. *)
Definition PhAllocate (h : heap) (Size : Z) : heap * option Z := PhAllocateSafe h Size.

(** Freeing what is not allocated is undefined. *)
Definition PhFree (h : heap) (Memory : Z) : ub heap :=
  _ ← blocks h !! Memory; Some {| blocks := delete Memory (blocks h); clock := clock h |}.

(** [ListHead] is the list of entries, the last freed first. *)
Record PH_FREE_LIST := { ListHead : list Z; Count : Z; MaximumCount : Z; Size : Z }.

(** UFIELD_OFFSET(PH_FREE_LIST_ENTRY, Body) *)
Definition Body_offset : Z := 16.

Definition PhInitializeFreeList (Size MaximumCount : Z) : PH_FREE_LIST :=
  {| ListHead := []; Count := 0; MaximumCount := MaximumCount; Size := Size |}.

Definition set_list (f : PH_FREE_LIST) (l : list Z) (n : Z) : PH_FREE_LIST :=
  {| ListHead := l; Count := n; MaximumCount := MaximumCount f; Size := Size f |}.

Definition PhAllocateFromFreeList (h : heap) (FreeList : PH_FREE_LIST) : heap * PH_FREE_LIST * option Z :=
  match ListHead FreeList with
  | entry :: l => (h, set_list FreeList l (Count FreeList -₃₂ 1), Some (entry + Body_offset))
  | [] => let '(h, entry) := PhAllocate h (Body_offset + Size FreeList) in
          (h, FreeList, option_map (fun entry => entry + Body_offset) entry)
  end.

Definition PhFreeToFreeList (h : heap) (FreeList : PH_FREE_LIST) (Memory : Z) : ub (heap * PH_FREE_LIST) :=
  let entry := Memory - Body_offset in
  if Count FreeList <? MaximumCount FreeList then
    Some (h, set_list FreeList (entry :: ListHead FreeList) (Count FreeList +₃₂ 1))
  else h ← PhFree h entry; Some (h, FreeList).

Fixpoint free_entries (h : heap) (l : list Z) : ub heap :=
  match l with [] => Some h | entry :: l => h ← PhFree h entry; free_entries h l end.
Definition PhDeleteFreeList (h : heap) (FreeList : PH_FREE_LIST) : ub (heap * PH_FREE_LIST) :=
  h ← free_entries h (ListHead FreeList); Some (h, set_list FreeList [] (Count FreeList)).

End heap.

(** ** The blocks of a free list

    [out] are the blocks the list has handed out and not got back: with the cached ones they are
    its share of the heap. *)
Record list_wf (h : heap) (f : PH_FREE_LIST) (out : gset Z) : Prop := {
  list_count : Count f = Z.of_nat (length (ListHead f));
  list_maximum : Count f <= MaximumCount f < 2 ^ 32;
  list_distinct : NoDup (ListHead f);
  list_cached : forall e, e ∈ ListHead f -> e + Body_offset ∉ out;
  list_heap : forall e, e ∈ ListHead f \/ e + Body_offset ∈ out ->
    blocks h !! e = Some (Body_offset + Size f) /\ 0 < e /\ e mod 16 = 0;
}.

(** Blocks of other clients. *)
Definition disjoint_share (f : PH_FREE_LIST) (out : gset Z) (e : Z) : Prop := (e ∉ ListHead f) /\ e + Body_offset ∉ out.

Lemma list_wf_heap h h' f out :
  (forall e, ~ disjoint_share f out e -> blocks h' !! e = blocks h !! e) -> list_wf h f out -> list_wf h' f out.
Proof.
  intros Hh [Hc Hm Hd Hn Hb]. split; [done..|]. intros e He. rewrite Hh; [by apply Hb|]. unfold disjoint_share. tauto.
Qed.

Section lists.
Context `{HeapLaws}.

Lemma allocate_new h n h' r : PhAllocateSafe h n = (h', r) ->
  match r with
  | Some a => blocks h !! a = None /\ blocks h' = <[a := n]> (blocks h) /\ 0 < a /\ a mod 16 = 0
  | None => blocks h' = blocks h
  end.
Proof.
  unfold PhAllocateSafe. destruct (RtlAllocateHeap (clock h) (blocks h) n) as [a|] eqn:E; intros [= <- <-]; [|done].
  split; [by eapply heap_fresh|]. split; [done|]. by eapply heap_aligned.
Qed.

(** A block from the list was not out; the rest of the heap only grows. *)
Lemma free_list_allocate h f out h' f' r : list_wf h f out -> PhAllocateFromFreeList h f = (h', f', r) ->
  match r with
  | Some a => (a ∉ out) /\ 0 < a /\ a mod 16 = 0 /\ list_wf h' f' ({[a]} ∪ out) /\
      (forall e, disjoint_share f' ({[a]} ∪ out) e -> disjoint_share f out e /\ blocks h' !! e = blocks h !! e)
  | None => f' = f /\ list_wf h' f out /\ blocks h' = blocks h
  end /\ blocks h ⊆ blocks h' /\ Size f' = Size f.
Proof.
  intros Hwf. unfold PhAllocateFromFreeList. destruct (ListHead f) as [|e l] eqn:El.
  - destruct (PhAllocate h (Body_offset + Size f)) as [h1 r1] eqn:Ea. pose proof (allocate_new _ _ _ _ Ea) as Hnew.
    destruct r1 as [a|]; intros [= <- <- <-]; simpl in *.
    + destruct Hnew as (Hfr & Hh & Hpos & Hal). unfold Body_offset in *.
      assert (Hnot : a + 16 ∉ out).
      { intros Ho. destruct (list_heap h f out Hwf a) as (Hb & _); [by right|]. congruence. }
      split; [|split; [rewrite Hh; by apply insert_subseteq|done]]. split; [done|]. split; [lia|].
      split; [rewrite Zplus_mod, Hal; reflexivity|]. split.
      * destruct Hwf as [Hc Hm Hd Hn Hb]. split; [done..| |]; rewrite El in *; [by intros ? ?%elem_of_nil|].
        intros e [?%elem_of_nil|He]; [done|]. rewrite Hh. unfold Body_offset in *.
        destruct (decide (e = a)) as [->|Hea]; [by rewrite lookup_insert_eq|]. rewrite lookup_insert_ne by done.
        apply Hb. right. apply elem_of_union in He as [?%elem_of_singleton|?]; [lia|done].
      * intros e [He1 He2]. unfold Body_offset in *. apply not_elem_of_union in He2 as [He2 He3]. rewrite not_elem_of_singleton in He2.
        split; [by split|]. rewrite Hh. apply lookup_insert_ne. lia.
    + split; [|split; [by rewrite Hnew|done]]. split; [done|]. split; [|done].
      apply (list_wf_heap h); [|done]. intros. by rewrite Hnew.
  - intros [= <- <- <-]. destruct Hwf as [Hc Hm Hd Hn Hb]. rewrite El in *. simpl in Hc. apply NoDup_cons in Hd as [He Hd].
    destruct (Hb e) as (Hbe & Hpos & Hal); [left; by left|]. unfold Body_offset in *. split; [|split; [done|done]].
    split; [apply Hn; by left|]. split; [lia|]. split; [rewrite Zplus_mod, Hal; reflexivity|]. split.
    + split; unfold set_list; simpl; [rewrite u32_id; unfold in_width; lia|rewrite u32_id; unfold in_width; lia|done| |].
      * intros e' He'. apply not_elem_of_union. split; [|apply Hn; by right]. rewrite not_elem_of_singleton. unfold Body_offset.
        intros E. assert (e' = e) as -> by lia. done.
      * intros e' [He'|[?%elem_of_singleton|?]%elem_of_union]; apply Hb; unfold Body_offset in *; [left; by right| |by right].
        left. assert (e' = e) as -> by lia. by left.
    + intros e' [He1 He2]. unfold Body_offset in *. apply not_elem_of_union in He2 as [He2 He3]. rewrite not_elem_of_singleton in He2.
      split; [|done]. split; [|done]. rewrite El. intros [->|?]%elem_of_cons; [lia|]. done.
Qed.

(** A block given back is not out, and the list still holds every other one. *)
Lemma free_list_free h f out a : list_wf h f out -> a ∈ out ->
  exists h' f', PhFreeToFreeList h f a = Some (h', f') /\ list_wf h' f' (out ∖ {[a]}) /\ Size f' = Size f /\
    (forall e, disjoint_share f out e -> disjoint_share f' (out ∖ {[a]}) e /\ blocks h' !! e = blocks h !! e).
Proof.
  intros [Hc Hm Hd Hn Hb] Ha. unfold PhFreeToFreeList, PhFree.
  assert (Ha' : a - Body_offset + Body_offset = a) by lia.
  destruct (Hb (a - Body_offset)) as (Hba & Hpos & Hal); [right; by rewrite Ha'|].
  destruct (Z.ltb_spec (Count f) (MaximumCount f)).
  - eexists _, _. split; [done|]. unfold set_list. split; [split; simpl|split; [done|]].
    + rewrite u32_id by (unfold in_width; lia). lia.
    + rewrite u32_id by (unfold in_width; lia). lia.
    + constructor; [|done]. intros He%Hn. by rewrite Ha' in He.
    + intros e [->|He%Hn]%elem_of_cons; [rewrite Ha'; set_solver|set_solver].
    + intros e [[->|He]%elem_of_cons|He]; [done|apply Hb; by left|apply Hb; right; set_solver].
    + intros e [He1 He2]. split; [|done]. split; [|set_solver]. simpl. intros [->|?]%elem_of_cons; [|done]. by rewrite Ha' in He2.
  - rewrite Hba. simpl. eexists _, _. split; [done|]. split; [split; try done|split; [done|]].
    + intros e He%Hn. set_solver.
    + intros e He. simpl. rewrite lookup_delete_ne; [apply Hb; destruct He; [by left|right; set_solver]|].
      intros <-. destruct He as [He%Hn|He]; [by rewrite Ha' in He|]. rewrite Ha' in He. set_solver.
    + intros e [He1 He2]. split; [split; [done|set_solver]|]. simpl. apply lookup_delete_ne. intros <-. by rewrite Ha' in He2.
Qed.

End lists.

End FreeList.
