(* ===== verification/RefObject.v ===== *)
(** * Reference-counted objects: [phlib/ref.c], [phlib/include/refp.h]

    An object is a block with a header: type index, flags, reference count. The last reference to go
    frees it, after its type's delete procedure has run, at once or through a list that a work item
    empties; on that list the header holds the link, and the count the type index and flags that the
    link overwrites, with its sign bit set so that nobody takes a reference any more.

    Threads are stacks of calls, since a delete procedure may call everything again; a step is one
    access to shared memory, and the theorems hold for every interleaving. What the client owns is a
    number of references to each object, and weak pointers ([published]) that the delete procedure
    takes back under a lock that a user of PhReferenceObjectSafe holds. The blocks come from the heap
    and the free lists, whose promise ([Allocator] in [FreeList]) is that a new block is not in use;
    giving a block back to another list than its own is undefined here.

    The test for an empty list in [PhpDeferDeleteObject] is made before the push and not by it. If the
    list is emptied in between, the object waits for a work item that nobody queues, and all later
    ones with it ([deferred_delete_stalls]). *)

From S2P Require Import Prelude.

Module RefObject.

(** ** Headers *)

(** Bit field [s], [k] of [x] becomes [v]. *)
Definition set_field (s k v x : Z) : Z := Z.lor (Z.ldiff x (Z.shiftl (Z.ones k) s)) (Z.shiftl (Z.land v (Z.ones k)) s).
Arguments set_field : simpl never.

(** The first eight bytes, which are [TypeIndex] and [Flags] or the link [DeferDeleteListEntry], and the
    four of [RefCount], which are also [SavedTypeIndex], [SavedFlags] and [DeferDelete]. *)
Record PH_OBJECT_HEADER := { DeferDeleteListEntry : Z; RefCount : Z }.

Definition TypeIndex (h : PH_OBJECT_HEADER) : Z := bit_field 0 16 (DeferDeleteListEntry h).
Definition Flags (h : PH_OBJECT_HEADER) : Z := bit_field 16 8 (DeferDeleteListEntry h).
Definition SavedTypeIndex (h : PH_OBJECT_HEADER) : Z := bit_field 0 16 (RefCount h).
Definition SavedFlags (h : PH_OBJECT_HEADER) : Z := bit_field 16 8 (RefCount h).
Definition set_link (h : PH_OBJECT_HEADER) (v : Z) : PH_OBJECT_HEADER := {| DeferDeleteListEntry := v; RefCount := RefCount h |}.
Definition set_RefCount (h : PH_OBJECT_HEADER) (v : Z) : PH_OBJECT_HEADER := {| DeferDeleteListEntry := DeferDeleteListEntry h; RefCount := v |}.
Definition set_TypeIndex (h : PH_OBJECT_HEADER) (v : Z) : PH_OBJECT_HEADER := set_link h (set_field 0 16 v (DeferDeleteListEntry h)).
Definition set_Flags (h : PH_OBJECT_HEADER) (v : Z) : PH_OBJECT_HEADER := set_link h (set_field 16 8 v (DeferDeleteListEntry h)).
Definition set_SavedTypeIndex (h : PH_OBJECT_HEADER) (v : Z) : PH_OBJECT_HEADER := set_RefCount h (set_field 0 16 v (RefCount h)).
Definition set_SavedFlags (h : PH_OBJECT_HEADER) (v : Z) : PH_OBJECT_HEADER := set_RefCount h (set_field 16 8 v (RefCount h)).
Definition set_DeferDelete (h : PH_OBJECT_HEADER) (v : Z) : PH_OBJECT_HEADER := set_RefCount h (set_field 31 1 v (RefCount h)).

Definition PH_OBJECT_SMALL_OBJECT_SIZE : Z := 48.
Definition PH_OBJECT_TYPE_USE_FREE_LIST : Z := 1.
Definition PH_OBJECT_TYPE_VALID_FLAGS : Z := 1.
Definition PH_OBJECT_TYPE_TABLE_SIZE : Z := 256.
Definition PH_OBJECT_FROM_SMALL_FREE_LIST : Z := 1.
Definition PH_OBJECT_FROM_TYPE_FREE_LIST : Z := 2.
Definition PhAddObjectHeaderSize (Size : Z) : Z := Size + 16.
(** sizeof(PH_OBJECT_TYPE) *)
Definition sizeof_PH_OBJECT_TYPE : Z := 64.

(** [DeleteProcedure]: whether there is one; [FreeList] is the [Size] of the free list. *)
Record PH_OBJECT_TYPE := {
  TypeFlags : Z; Index : Z; NumberOfObjects : Z; DeleteProcedure : bool; FreeList : Z;
}.

Definition set_number (T : PH_OBJECT_TYPE) (n : Z) : PH_OBJECT_TYPE :=
  {| TypeFlags := TypeFlags T; Index := Index T; NumberOfObjects := n; DeleteProcedure := DeleteProcedure T; FreeList := FreeList T |}.

Inductive source := Heap | SmallFreeList | TypeFreeList (ObjectType : Z).
#[export] Instance source_eq_dec : EqDecision source. Proof. solve_decision. Defined.

(** A block in use: where it is from; and, for the theorems only, the type of its object, and whether
    the type counts it. *)
Record block := { From : source; Of : Z; Counted : bool }.

(** Objects by the address of their header, types by their address; [work] is the number of items of
    the global work queue that will call [PhpDeferDeleteObjectRoutine]; the last two fields are what
    the client owns. *)
Record memory := {
  objects : gmap Z PH_OBJECT_HEADER;
  types : gmap Z PH_OBJECT_TYPE;
  PhObjectTypeTable : gmap Z Z;
  PhObjectTypeCount : Z;
  PhObjectDeferDeleteListHead : Z;
  work : Z;
  storage : gmap Z block;
  references : gmap Z Z;
  published : gset Z;
}.

Definition set_objects (g : memory) (x : gmap Z PH_OBJECT_HEADER) : memory :=
  {| objects := x; types := types g; PhObjectTypeTable := PhObjectTypeTable g; PhObjectTypeCount := PhObjectTypeCount g; PhObjectDeferDeleteListHead := PhObjectDeferDeleteListHead g; work := work g; storage := storage g; references := references g; published := published g |}.
Definition set_types (g : memory) (x : gmap Z PH_OBJECT_TYPE) : memory :=
  {| objects := objects g; types := x; PhObjectTypeTable := PhObjectTypeTable g; PhObjectTypeCount := PhObjectTypeCount g; PhObjectDeferDeleteListHead := PhObjectDeferDeleteListHead g; work := work g; storage := storage g; references := references g; published := published g |}.
Definition set_table (g : memory) (x : gmap Z Z) (n : Z) : memory :=
  {| objects := objects g; types := types g; PhObjectTypeTable := x; PhObjectTypeCount := n; PhObjectDeferDeleteListHead := PhObjectDeferDeleteListHead g; work := work g; storage := storage g; references := references g; published := published g |}.
Definition set_head (g : memory) (x : Z) : memory :=
  {| objects := objects g; types := types g; PhObjectTypeTable := PhObjectTypeTable g; PhObjectTypeCount := PhObjectTypeCount g; PhObjectDeferDeleteListHead := x; work := work g; storage := storage g; references := references g; published := published g |}.
Definition set_work (g : memory) (x : Z) : memory :=
  {| objects := objects g; types := types g; PhObjectTypeTable := PhObjectTypeTable g; PhObjectTypeCount := PhObjectTypeCount g; PhObjectDeferDeleteListHead := PhObjectDeferDeleteListHead g; work := x; storage := storage g; references := references g; published := published g |}.
Definition set_storage (g : memory) (x : gmap Z block) : memory :=
  {| objects := objects g; types := types g; PhObjectTypeTable := PhObjectTypeTable g; PhObjectTypeCount := PhObjectTypeCount g; PhObjectDeferDeleteListHead := PhObjectDeferDeleteListHead g; work := work g; storage := x; references := references g; published := published g |}.
Definition set_references (g : memory) (x : gmap Z Z) : memory :=
  {| objects := objects g; types := types g; PhObjectTypeTable := PhObjectTypeTable g; PhObjectTypeCount := PhObjectTypeCount g; PhObjectDeferDeleteListHead := PhObjectDeferDeleteListHead g; work := work g; storage := storage g; references := x; published := published g |}.
Definition set_published (g : memory) (x : gset Z) : memory :=
  {| objects := objects g; types := types g; PhObjectTypeTable := PhObjectTypeTable g; PhObjectTypeCount := PhObjectTypeCount g; PhObjectDeferDeleteListHead := PhObjectDeferDeleteListHead g; work := work g; storage := storage g; references := references g; published := x |}.

(** An access to a header; outside a block in use it is undefined. *)
Definition update (g : memory) (a : Z) (f : PH_OBJECT_HEADER -> PH_OBJECT_HEADER) : ub memory :=
  h ← objects g !! a; Some (set_objects g (<[a := f h]> (objects g))).

(** The client's references to an object. *)
Definition owned (g : memory) (a : Z) : Z := default 0 (references g !! a).
Definition own (g : memory) (a n : Z) : memory := set_references g (<[a := n]> (references g)).

(** Whether the type counts an object; for the theorems. *)
Definition mark (g : memory) (a : Z) (counted : bool) : memory :=
  set_storage g (alter (fun b => {| From := From b; Of := Of b; Counted := counted |}) a (storage g)).

(** ** Calls

    Where a call is: in PhCreateObject, PhReferenceObjectSafe, PhpFreeObject (with the delete procedure
    running at [Deleting]), PhpDeferDeleteObject, and the work item. *)
Inductive frame :=
  | Allocated (a ObjectType : Z) | Initializing (a ObjectType : Z)
  | SafeRead (a : Z) | SafeTry (a value : Z)
  | Freeing (a : Z) | FreeDelete (a ObjectType : Z) | Deleting (a ObjectType : Z) | FreeStorage (a ObjectType : Z)
  | DeferMark (a : Z) | DeferSaveType (a : Z) | DeferSaveFlags (a : Z) | DeferPeek (a : Z) | DeferPush (a oldFirstEntry : Z) | DeferQueue
  | DrainFlush | DrainNext (listEntry : Z).

(** [PhpAllocateObject]: the block, and the flag that says where it is from. [a] is the address the
    allocator gives, [h] what the block holds. *)
Definition allocation_source (T : PH_OBJECT_TYPE) (ObjectType ObjectSize : Z) : ub source :=
  if negb (Z.land (TypeFlags T) PH_OBJECT_TYPE_USE_FREE_LIST =? 0) then
    if FreeList T =? PhAddObjectHeaderSize ObjectSize then Some (TypeFreeList ObjectType) else None
  else Some (if ObjectSize <=? PH_OBJECT_SMALL_OBJECT_SIZE then SmallFreeList else Heap).

Definition source_flag (s : source) : Z :=
  match s with TypeFreeList _ => PH_OBJECT_FROM_TYPE_FREE_LIST | SmallFreeList => PH_OBJECT_FROM_SMALL_FREE_LIST | Heap => 0 end.

Definition PhpAllocateObject (g : memory) (a : Z) (h : PH_OBJECT_HEADER) (ObjectType ObjectSize : Z) : ub memory :=
  T ← types g !! ObjectType;
  s ← allocation_source T ObjectType ObjectSize;
  Some (set_storage (set_objects g (<[a := set_Flags h (source_flag s)]> (objects g)))
          (<[a := {| From := s; Of := ObjectType; Counted := false |}]> (storage g))).

(** [_InterlockedIncrement] and [_InterlockedDecrement] of [NumberOfObjects]. *)
Definition count_object (g : memory) (ObjectType d : Z) : ub memory :=
  T ← types g !! ObjectType; Some (set_types g (<[ObjectType := set_number T (NumberOfObjects T +₃₂ d)]> (types g))).

(** The rest of [PhCreateObject]. *)
Definition initialize (g : memory) (a ObjectType : Z) : ub memory :=
  T ← types g !! ObjectType; update g a (fun h => set_TypeIndex (set_RefCount h 1) (Index T)).

Definition PhReferenceObject (g : memory) (a : Z) : ub memory := update g a (fun h => set_RefCount h (RefCount h +₃₂ 1)).

Definition PhReferenceObjectEx (g : memory) (a n : Z) : ub memory :=
  if n <? 0 then None else update g a (fun h => set_RefCount h (RefCount h +₃₂ n)).

(** [_InterlockedIncrementPositive], which [PhReferenceObjectSafe] is: from the value read, and whether
    the exchange takes place. *)
Definition increment_positive (g : memory) (a value : Z) : ub (memory * bool * list frame) :=
  if signed 32 value <=? 0 then Some (g, false, [])
  else
    h ← objects g !! a;
    if RefCount h =? value then Some (set_objects g (<[a := set_RefCount h (value +₃₂ 1)]> (objects g)), true, [])
    else Some (g, false, [SafeTry a (RefCount h)]).

Definition PhDereferenceObject (g : memory) (a : Z) : ub (memory * list frame) :=
  h ← objects g !! a;
  let newRefCount := signed 32 (RefCount h - 1) in
  g ← update g a (fun h => set_RefCount h (RefCount h -₃₂ 1));
  if newRefCount <? 0 then None else Some (g, if newRefCount =? 0 then [Freeing a] else []).

(** [None] stands for the exception as well. *)
Definition PhDereferenceObjectEx (g : memory) (a n : Z) (DeferDelete : bool) : ub (memory * list frame) :=
  if n <? 0 then None else
  h ← objects g !! a;
  let newRefCount := signed 32 (RefCount h) - n in
  g ← update g a (fun h => set_RefCount h (RefCount h -₃₂ n));
  if newRefCount =? 0 then Some (g, if DeferDelete then [DeferMark a] else [Freeing a])
  else if newRefCount <? 0 then None else Some (g, []).

Definition PhDereferenceObjectDeferDelete (g : memory) (a : Z) : ub (memory * list frame) := PhDereferenceObjectEx g a 1 true.

Definition PhGetObjectType (g : memory) (a : Z) : ub Z := h ← objects g !! a; PhObjectTypeTable g !! TypeIndex h.

(** [PhpFreeObject]: the type and its count; the call of the delete procedure; the block. *)
Definition PhpFreeObject (g : memory) (a : Z) : ub (memory * list frame) :=
  ObjectType ← PhGetObjectType g a; g ← count_object g ObjectType (-1); Some (g, [FreeDelete a ObjectType]).

Definition free_delete (g : memory) (a ObjectType : Z) : ub (list frame) :=
  T ← types g !! ObjectType; Some (if DeleteProcedure T then [Deleting a ObjectType] else [FreeStorage a ObjectType]).

Definition free_source (h : PH_OBJECT_HEADER) (ObjectType : Z) : source :=
  if negb (Z.land (Flags h) PH_OBJECT_FROM_TYPE_FREE_LIST =? 0) then TypeFreeList ObjectType
  else if negb (Z.land (Flags h) PH_OBJECT_FROM_SMALL_FREE_LIST =? 0) then SmallFreeList else Heap.

Definition free_storage (g : memory) (a ObjectType : Z) : ub memory :=
  h ← objects g !! a; b ← storage g !! a;
  if decide (From b = free_source h ObjectType) then Some (set_storage (set_objects g (delete a (objects g))) (delete a (storage g)))
  else None.

(** [PhpDeferDeleteObject], a step for each access. *)
Definition PhpDeferDeleteObject (g : memory) (fr : frame) : ub (memory * list frame) :=
  match fr with
  | DeferMark a => g ← update g a (fun h => set_DeferDelete h 1); Some (g, [DeferSaveType a])
  | DeferSaveType a => g ← update g a (fun h => set_SavedTypeIndex h (TypeIndex h)); Some (g, [DeferSaveFlags a])
  | DeferSaveFlags a => g ← update g a (fun h => set_SavedFlags h (Flags h)); Some (g, [DeferPeek a])
  | DeferPeek a => Some (g, [DeferPush a (PhObjectDeferDeleteListHead g)])
  | DeferPush a oldFirstEntry =>
      g' ← update g a (fun h => set_link h (PhObjectDeferDeleteListHead g));
      Some (set_head g' a, if oldFirstEntry =? 0 then [DeferQueue] else [])
  | DeferQueue => Some (set_work g (work g + 1), [])
  | _ => None
  end.

(** [PhpDeferDeleteObjectRoutine]. *)
Definition PhpDeferDeleteObjectRoutine (g : memory) (fr : frame) : ub (memory * list frame) :=
  match fr with
  | DrainFlush => Some (set_head g 0, [DrainNext (PhObjectDeferDeleteListHead g)])
  | DrainNext listEntry =>
      if listEntry =? 0 then Some (g, [])
      else
        h ← objects g !! listEntry;
        g ← update g listEntry (fun h => set_Flags (set_TypeIndex h (SavedTypeIndex h)) (SavedFlags h));
        Some (g, [Freeing listEntry; DrainNext (DeferDeleteListEntry h)])
  | _ => None
  end.

(** The next step of the innermost call: the frames that take its place. [None] at [Deleting], where
    the client is to go on. *)
Definition next (g : memory) (fr : frame) : ub (memory * list frame) :=
  match fr with
  | Allocated a ObjectType => g ← count_object g ObjectType 1; Some (mark g a true, [Initializing a ObjectType])
  | Initializing a ObjectType => g ← initialize g a ObjectType; Some (own g a 1, [])
  | SafeRead a => h ← objects g !! a; Some (g, [SafeTry a (RefCount h)])
  | SafeTry a value =>
      '(g, referenced, frs) ← increment_positive g a value;
      Some (if referenced : bool then own g a (owned g a + 1) else g, frs)
  | Freeing a => '(g, frs) ← PhpFreeObject g a; Some (mark g a false, frs)
  | FreeDelete a ObjectType => frs ← free_delete g a ObjectType; Some (g, frs)
  | Deleting _ _ => None
  | FreeStorage a ObjectType => g ← free_storage g a ObjectType; Some (g, [])
  | DeferMark _ | DeferSaveType _ | DeferSaveFlags _ | DeferPeek _ | DeferPush _ _ | DeferQueue => PhpDeferDeleteObject g fr
  | DrainFlush | DrainNext _ => PhpDeferDeleteObjectRoutine g fr
  end.

(** What the client does, in a delete procedure or outside all calls: the functions, the changes to
    its weak pointers, the return of a delete procedure, and a work item. *)
Inductive call :=
  | Create (ObjectType ObjectSize a : Z) (h : PH_OBJECT_HEADER)
  | Reference (a : Z) | ReferenceEx (a n : Z) | ReferenceSafe (a : Z)
  | Dereference (a : Z) | DereferenceEx (a n : Z) (DeferDelete : bool)
  | Publish (a : Z) | Unpublish (a : Z) | Return | Work.

Definition perform (g : memory) (stack : list frame) (c : call) : ub (memory * list frame) :=
  match c with
  | Create ObjectType ObjectSize a h => g ← PhpAllocateObject g a h ObjectType ObjectSize; Some (g, Allocated a ObjectType :: stack)
  | Reference a => g ← PhReferenceObject g a; Some (own g a (owned g a + 1), stack)
  | ReferenceEx a n => g ← PhReferenceObjectEx g a n; Some (own g a (owned g a + n), stack)
  | ReferenceSafe a => Some (g, SafeRead a :: stack)
  | Dereference a => '(g, frs) ← PhDereferenceObject g a; Some (own g a (owned g a - 1), frs ++ stack)
  | DereferenceEx a n DeferDelete => '(g, frs) ← PhDereferenceObjectEx g a n DeferDelete; Some (own g a (owned g a - n), frs ++ stack)
  | Publish a => Some (set_published g ({[a]} ∪ published g), stack)
  | Unpublish a => Some (set_published g (published g ∖ {[a]}), stack)
  | Return => match stack with Deleting a ObjectType :: stack => Some (g, FreeStorage a ObjectType :: stack) | _ => None end
  | Work => Some (set_work g (work g - 1), [DrainFlush])
  end.

(** ** Types and start-up *)

(** [PhCreateObject] without other threads: what its steps do one after another. *)
Definition PhCreateObject (g : memory) (a : Z) (h : PH_OBJECT_HEADER) (ObjectType ObjectSize : Z) : ub memory :=
  g ← PhpAllocateObject g a h ObjectType ObjectSize;
  g ← count_object g ObjectType 1;
  g ← initialize (mark g a true) a ObjectType;
  Some (own g a 1).

(** [_InterlockedIncrement (&PhObjectTypeCount) - 1], cut to the width of [TypeIndex]. *)
Definition new_index (g : memory) : Z := u8 (u16 (PhObjectTypeCount g +₃₂ 1) - 1).

(** [Parameters] is [FreeListSize]; [None] stands for an exception or a failed assertion as well. The
    memory and the type. *)
Definition PhCreateObjectTypeEx (g : memory) (PhObjectTypeObject a : Z) (h : PH_OBJECT_HEADER) (Flags : Z) (DeleteProcedure : bool) (Parameters : option Z) : ub (memory * Z) :=
  if negb (Z.land Flags PH_OBJECT_TYPE_VALID_FLAGS =? Flags) then None
  else if negb (Z.land Flags PH_OBJECT_TYPE_USE_FREE_LIST =? 0) && bool_decide (Parameters = None) then None
  else
    g ← PhCreateObject g a h PhObjectTypeObject sizeof_PH_OBJECT_TYPE;
    let objectType := PhAddObjectHeaderSize a in
    let index := new_index g in
    let count := PhObjectTypeCount g +₃₂ 1 in
    if PH_OBJECT_TYPE_TABLE_SIZE <=? count then None
    else
      let T := {| TypeFlags := u16 Flags; Index := index; NumberOfObjects := 0; DeleteProcedure := DeleteProcedure;
                  FreeList := if negb (Z.land Flags PH_OBJECT_TYPE_USE_FREE_LIST =? 0) then PhAddObjectHeaderSize (default 0 Parameters) else 0 |} in
      Some (set_table (set_types g (<[objectType := T]> (types g))) (<[index := objectType]> (PhObjectTypeTable g)) count, objectType).

Definition PhCreateObjectType (g : memory) (PhObjectTypeObject a : Z) (h : PH_OBJECT_HEADER) (Flags : Z) (DeleteProcedure : bool) : ub (memory * Z) :=
  PhCreateObjectTypeEx g PhObjectTypeObject a h Flags DeleteProcedure None.

(** [PhAllocType] is an argument. *)
Definition PhCreateAlloc (g : memory) (PhAllocType a : Z) (h : PH_OBJECT_HEADER) (Size : Z) : ub memory := PhCreateObject g a h PhAllocType Size.

(** The fields but for [Name], which types have not here. *)
Record PH_OBJECT_TYPE_INFORMATION := { InfoNumberOfObjects : Z; InfoFlags : Z; InfoTypeIndex : Z }.
Definition PhGetObjectTypeInformation (g : memory) (ObjectType : Z) : ub PH_OBJECT_TYPE_INFORMATION :=
  T ← types g !! ObjectType; Some {| InfoNumberOfObjects := NumberOfObjects T; InfoFlags := TypeFlags T; InfoTypeIndex := Index T |}.

(** Nothing but the type on the stack of [PhRefInitialization], at [dummy]. *)
Definition at_start (dummy : Z) : memory := {|
  objects := ∅; PhObjectTypeCount := 0; PhObjectDeferDeleteListHead := 0; work := 0; storage := ∅; references := ∅; published := ∅;
  types := {[ dummy := {| TypeFlags := 0; Index := 0; NumberOfObjects := 0; DeleteProcedure := false; FreeList := 0 |} ]};
  PhObjectTypeTable := {[ 0 := dummy ]};
|}.

(** The fundamental type, which becomes its own, and the type of memory blocks. The addresses and
    headers are what the allocator gives. The memory and the two types. *)
Definition PhRefInitialization (dummy a : Z) (h : PH_OBJECT_HEADER) (a' : Z) (h' : PH_OBJECT_HEADER) : ub (memory * Z * Z) :=
  '(g, PhObjectTypeObject) ← PhCreateObjectType (at_start dummy) dummy a h 0 false;
  T ← types g !! PhObjectTypeObject;
  g ← update g a (fun h => set_TypeIndex h (Index T));
  let g := set_types g (delete dummy (<[PhObjectTypeObject := set_number T 1]> (types g))) in
  let g := set_storage g {[ a := {| From := Heap; Of := PhObjectTypeObject; Counted := true |} ]} in
  '(g, PhAllocType) ← PhCreateObjectType g PhObjectTypeObject a' h' 0 false;
  Some (g, PhObjectTypeObject, PhAllocType).

(** ** Executions *)

Definition state : Type := memory * list (list frame).

(** A new block: not in use, and aligned; what it holds is arbitrary. *)
Definition fresh (g : memory) (a : Z) (h : PH_OBJECT_HEADER) : Prop :=
  a <> 0 /\ objects g !! a = None /\ types g !! PhAddObjectHeaderSize a = None /\ in_width 64 (DeferDeleteListEntry h) /\ in_width 32 (RefCount h) /\ in_width 64 a.

(** The client is running: outside all calls or in a delete procedure. *)
Definition client (stack : list frame) : Prop := match stack with [] | Deleting _ _ :: _ => True | _ => False end.

(** An object the client may reference and dereference: not a type. *)
Definition usable (g : memory) (a : Z) : Prop := types g !! PhAddObjectHeaderSize a = None /\ 0 < owned g a.

(** A thread is between reading and incrementing the count of a published object, with the lock held. *)
Definition guards (a : Z) (fr : frame) : Prop := fr = SafeRead a \/ exists value, fr = SafeTry a value.

(** What the client may do: it references and dereferences what it has references to, fewer than 2^31
    to each object, one for each thread to spare; takes a reference through a weak pointer that is there, and does not take the
    pointer away meanwhile; and a delete procedure takes it away. *)
Definition permitted (s : state) (stack : list frame) (c : call) : Prop :=
  let g := s.1 in
  match c with
  | Create ObjectType ObjectSize a h => fresh g a h /\ 0 <= ObjectSize /\ exists T, types g !! ObjectType = Some T /\
      (Z.land (TypeFlags T) PH_OBJECT_TYPE_USE_FREE_LIST <> 0 -> FreeList T = PhAddObjectHeaderSize ObjectSize)
  | Reference a => usable g a /\ owned g a + 1 + Z.of_nat (length s.2) < 2 ^ 31
  | ReferenceEx a n => usable g a /\ 0 <= n /\ owned g a + n + Z.of_nat (length s.2) < 2 ^ 31
  | ReferenceSafe a => a ∈ published g /\ owned g a + Z.of_nat (length s.2) < 2 ^ 31
  | Dereference a => usable g a
  | DereferenceEx a n DeferDelete => usable g a /\ 0 <= n <= owned g a
  | Publish a => usable g a /\ exists b T, storage g !! a = Some b /\ types g !! Of b = Some T /\ DeleteProcedure T = true
  | Unpublish a => forall stack', stack' ∈ s.2 -> Forall (fun fr => ~ guards a fr) stack'
  | Return => match stack with Deleting a _ :: _ => a ∉ published g | _ => False end
  | Work => stack = [] /\ 0 < work g
  end.

(** After start-up and the creation of types: [PhObjectTypeObject] is the fundamental type. *)
Inductive configured (PhObjectTypeObject : Z) : memory -> Prop :=
  | configured_start dummy a h a' h' g PhAllocType :
      fresh (at_start dummy) a h -> PhObjectTypeObject = PhAddObjectHeaderSize a ->
      fresh (at_start dummy) a' h' -> a' <> a ->
      PhRefInitialization dummy a h a' h' = Some (g, PhObjectTypeObject, PhAllocType) -> configured PhObjectTypeObject g
  | configured_type g a h Flags DeleteProcedure Parameters g' objectType :
      configured PhObjectTypeObject g -> fresh g a h ->
      PhCreateObjectTypeEx g PhObjectTypeObject a h Flags DeleteProcedure Parameters = Some (g', objectType) -> configured PhObjectTypeObject g'.

Inductive step : state -> state -> Prop :=
  | step_next g ts t fr stack g' frs : ts !! t = Some (fr :: stack) -> next g fr = Some (g', frs) -> step (g, ts) (g', <[t := frs ++ stack]> ts)
  | step_call g ts t stack c g' stack' : ts !! t = Some stack -> client stack -> permitted (g, ts) stack c ->
      perform g stack c = Some (g', stack') -> step (g, ts) (g', <[t := stack']> ts).

(** With [n] threads, from any configuration. *)
Definition reachable (n : nat) (s : state) : Prop := exists ot g, configured ot g /\ rtc step (g, replicate n []) s.

(** ** Bit fields *)

Lemma testbit_set_field s k v x n : 0 <= s -> 0 <= k -> 0 <= n ->
  Z.testbit (set_field s k v x) n = if (s <=? n) && (n <? s + k) then Z.testbit v (n - s) else Z.testbit x n.
Proof.
  intros Hs Hk Hn. unfold set_field. rewrite Z.lor_spec, Z.ldiff_spec, !Z.shiftl_spec, Z.land_spec by done. destruct (Z.leb_spec s n); simpl.
  - rewrite Z.testbit_ones by lia. replace (0 <=? n - s) with true by lia. simpl. replace (n - s <? k) with (n <? s + k) by lia.
    destruct (n <? s + k); simpl; [by rewrite andb_false_r, andb_true_r|by rewrite andb_true_r, andb_false_r, orb_false_r].
  - rewrite !(Z.testbit_neg_r _ (n - s)) by lia. simpl. by rewrite andb_true_r, orb_false_r.
Qed.

Lemma testbit_field s k x n : 0 <= s -> 0 <= k -> 0 <= n -> Z.testbit (bit_field s k x) n = (n <? k) && Z.testbit x (n + s).
Proof. intros. unfold bit_field. rewrite Z.land_spec, Z.shiftr_spec, Z.testbit_ones by lia. replace (0 <=? n) with true by lia. simpl. by rewrite andb_comm. Qed.

Lemma field_of_set s k v x : 0 <= s -> 0 <= k -> 0 <= v < 2 ^ k -> bit_field s k (set_field s k v x) = v.
Proof.
  intros Hs Hk Hv. apply Z.bits_inj'. intros n Hn. rewrite testbit_field, testbit_set_field by lia.
  replace (s <=? n + s) with true by lia. replace (n + s <? s + k) with (n <? k) by lia. replace (n + s - s) with n by lia.
  destruct (Z.ltb_spec n k); simpl; [done|]. rewrite <- (Z.mod_small v (2 ^ k)) by done. by rewrite Z.mod_pow2_bits_high by lia.
Qed.

Lemma field_of_other s k s' k' v x : 0 <= s -> 0 <= k -> 0 <= s' -> 0 <= k' -> s + k <= s' \/ s' + k' <= s ->
  bit_field s k (set_field s' k' v x) = bit_field s k x.
Proof.
  intros Hs Hk Hs' Hk' Hd. apply Z.bits_inj'. intros n Hn. rewrite !testbit_field, testbit_set_field by lia.
  destruct (Z.ltb_spec n k); simpl; [|done]. by replace ((s' <=? n + s) && (n + s <? s' + k')) with false by lia.
Qed.

Lemma set_field_width w s k v x : 0 <= s -> 0 <= k -> s + k <= w -> in_width w x -> in_width w (set_field s k v x).
Proof.
  intros Hs Hk Hw Hx. unfold in_width in *. apply Z.bounded_iff_bits_nonneg'; [lia| |].
  - unfold set_field. apply Z.lor_nonneg. split; [apply Z.ldiff_nonneg; lia|]. apply Z.shiftl_nonneg. apply Z.land_nonneg. right. rewrite Z.ones_equiv. pose proof (Z.pow_pos_nonneg 2 k). lia.
  - intros l Hl. rewrite testbit_set_field by lia. replace (l <? s + k) with false by lia. rewrite andb_false_r. rewrite <- (Z.mod_small x (2 ^ w)) by done. by rewrite Z.mod_pow2_bits_high by lia.
Qed.

Lemma field_width s k x : 0 <= k -> in_width k (bit_field s k x).
Proof. intros. unfold in_width, bit_field. rewrite Z.land_ones by done. apply Z.mod_pos_bound. lia. Qed.

(** The sign bit. *)
Lemma signed_negative x : in_width 32 x -> Z.testbit x 31 = true -> signed 32 x < 0.
Proof.
  intros Hx Hb. unfold in_width in Hx. unfold signed. cbv zeta. rewrite Z.mod_small by lia. change (2 ^ (32 - 1)) with (2 ^ 31). destruct (Z.ltb_spec x (2 ^ 31)); [|lia].
  rewrite <- (Z.mod_small x (2 ^ 31)), Z.mod_pow2_bits_high in Hb by lia. done.
Qed.

Lemma signed_small x : 0 <= x < 2 ^ 31 -> signed 32 x = x.
Proof. intros. by apply signed_id. Qed.

(** ** The number of objects of a type *)

Definition counts (ty : Z) (b : block) : bool := (Of b =? ty) && Counted b.
Definition number (ty : Z) (m : gmap Z block) : Z := Z.of_nat (size (filter (fun ab => counts ty ab.2 = true) m)).
Definition weight (ty : Z) (o : option block) : Z := match o with Some b => if counts ty b then 1 else 0 | None => 0 end.

Lemma number_delete ty m a : number ty (delete a m) = number ty m - weight ty (m !! a).
Proof.
  unfold number. rewrite map_filter_delete. set (f := filter _ m).
  assert (Hf : f !! a = match m !! a with Some b => if counts ty b then Some b else None | None => None end).
  { unfold f. destruct (m !! a) as [b|] eqn:E; [destruct (counts ty b) eqn:Ec|].
    - by apply map_lookup_filter_Some_2.
    - apply map_lookup_filter_None_2. right. intros b' Hb'. simpl. congruence.
    - apply map_lookup_filter_None_2. by left. }
  rewrite map_size_delete, Hf. unfold weight. destruct (m !! a) as [b|]; simpl; [|lia]. destruct (counts ty b); simpl; [|lia].
  destruct (size f) eqn:Es; [|simpl; lia]. apply map_size_empty_inv in Es. by rewrite Es, lookup_empty in Hf.
Qed.

Lemma number_insert ty m a b : number ty (<[a := b]> m) = number ty m - weight ty (m !! a) + weight ty (Some b).
Proof.
  rewrite <- number_delete. unfold number, weight. rewrite <- insert_delete_eq. destruct (counts ty b) eqn:Ec.
  - rewrite map_filter_insert_True by done. rewrite map_size_insert_None by (rewrite map_lookup_filter, lookup_delete_eq; done). lia.
  - rewrite map_filter_insert_False by (simpl; congruence). rewrite delete_delete_eq. lia.
Qed.

Lemma number_none ty m : (forall a b, m !! a = Some b -> Of b <> ty) -> number ty m = 0.
Proof.
  intros Hno. unfold number. assert (E : filter (fun ab : Z * block => counts ty ab.2 = true) m = ∅); [|by rewrite E, map_size_empty].
  apply map_empty_filter. intros a b Hb Hc. simpl in Hc. unfold counts in Hc. apply andb_true_iff in Hc as [Hc%Z.eqb_eq _]. by apply (Hno a b).
Qed.

(** ** The invariant *)

(** What a type is, but for its count. *)
Definition kind (T : PH_OBJECT_TYPE) : PH_OBJECT_TYPE := set_number T 0.
Definition same_types (g g' : memory) : Prop := forall ty, kind <$> types g' !! ty = kind <$> types g !! ty.

Definition described (g : memory) (h : PH_OBJECT_HEADER) (b : block) : Prop :=
  exists T, types g !! Of b = Some T /\ TypeIndex h = Index T /\ Flags h = source_flag (From b).
(** As the two words are on the list. *)
Definition saved (g : memory) (h : PH_OBJECT_HEADER) (b : block) : Prop :=
  exists T, types g !! Of b = Some T /\ SavedTypeIndex h = Index T /\ SavedFlags h = source_flag (From b).
Definition marked (h : PH_OBJECT_HEADER) : Prop := Z.testbit (RefCount h) 31 = true.
Definition dead (h : PH_OBJECT_HEADER) : Prop := signed 32 (RefCount h) <= 0.

Definition holds (g : memory) (a : Z) (P : PH_OBJECT_HEADER -> block -> Prop) : Prop :=
  exists h b, objects g !! a = Some h /\ storage g !! a = Some b /\ P h b.
Definition on_list (g : memory) (a : Z) : Prop := holds g a (fun h b => saved g h b /\ marked h /\ Counted b = true).
Definition link (g : memory) (a : Z) : option Z := DeferDeleteListEntry <$> objects g !! a.

(** A frame is in charge of the objects [l]; no other is, and nobody has a reference to them. *)
Definition frame_ok (g : memory) (fr : frame) (l : list Z) : Prop :=
  match fr with
  | Allocated a ty => l = [a] /\ holds g a (fun h b => Of b = ty /\ Flags h = source_flag (From b) /\ Counted b = false) /\ a ∉ published g
  | Initializing a ty => l = [a] /\ holds g a (fun h b => Of b = ty /\ Flags h = source_flag (From b) /\ Counted b = true) /\ a ∉ published g
  | SafeRead a | SafeTry a _ => l = [] /\ a ∈ published g
  | Freeing a => l = [a] /\ holds g a (fun h b => described g h b /\ dead h /\ Counted b = true)
  | FreeDelete a ty | Deleting a ty => l = [a] /\ holds g a (fun h b => Of b = ty /\ described g h b /\ dead h /\ Counted b = false)
  | FreeStorage a ty => l = [a] /\ holds g a (fun h b => Of b = ty /\ described g h b /\ dead h /\ Counted b = false) /\ a ∉ published g
  | DeferMark a => l = [a] /\ holds g a (fun h b => described g h b /\ RefCount h = 0 /\ Counted b = true)
  | DeferSaveType a => l = [a] /\ holds g a (fun h b => described g h b /\ marked h /\ Counted b = true)
  | DeferSaveFlags a => l = [a] /\ holds g a (fun h b => described g h b /\ marked h /\ SavedTypeIndex h = TypeIndex h /\ Counted b = true)
  | DeferPeek a | DeferPush a _ => l = [a] /\ on_list g a
  | DeferQueue | DrainFlush => l = []
  | DrainNext e => links 0 (link g) e l /\ forall x, x ∈ l -> on_list g x
  end.

Fixpoint stack_ok (g : memory) (stack : list frame) (l : list Z) : Prop :=
  match stack with
  | [] => l = []
  | fr :: stack => exists l1 l2, l = l1 ++ l2 /\ frame_ok g fr l1 /\ stack_ok g stack l2
  end.

Definition live (g : memory) (a : Z) : Prop :=
  holds g a (fun h b => described g h b /\ Counted b = true /\ RefCount h = owned g a).

(** The parts of the invariant that only depend on the memory. *)
Record base (g : memory) : Prop := {
  base_types : forall ty T, types g !! ty = Some T -> PhObjectTypeTable g !! Index T = Some ty /\ 0 <= Index T < 256;
  base_header : forall a h, objects g !! a = Some h -> in_width 64 (DeferDeleteListEntry h) /\ in_width 32 (RefCount h) /\ in_width 64 a /\ a <> 0;
  base_storage : forall a b, storage g !! a = Some b -> is_Some (types g !! Of b) /\ forall ty, From b = TypeFreeList ty -> ty = Of b;
  base_blocks : forall a, is_Some (objects g !! a) <-> is_Some (storage g !! a);
  base_published : forall a, a ∈ published g -> exists b T, storage g !! a = Some b /\ types g !! Of b = Some T /\ DeleteProcedure T = true;
  base_number : forall ty T, types g !! ty = Some T -> NumberOfObjects T = u32 (number ty (storage g));
}.

(** The memory, with [dl] on the list and [L] in charge of calls. *)
Record core (g : memory) (dl L : list Z) : Prop := {
  core_base : base g;
  core_list : links 0 (link g) (PhObjectDeferDeleteListHead g) dl /\ forall x, x ∈ dl -> on_list g x;
  core_distinct : NoDup (dl ++ L);
  core_dead : forall a, a ∈ dl ++ L -> owned g a = 0;
  core_live : forall a, owned g a <> 0 -> live g a /\ 0 < owned g a < 2 ^ 31;
  core_all : forall a, is_Some (objects g !! a) <-> owned g a <> 0 \/ a ∈ dl ++ L;
  core_weak : forall a h, a ∈ L -> a ∈ published g -> objects g !! a = Some h -> dead h;
}.

(** Threads that may still add a reference to [a] through a weak pointer. *)
Definition pending (a : Z) (stack : list frame) : Z :=
  match stack with SafeRead x :: _ | SafeTry x _ :: _ => if x =? a then 1 else 0 | _ => 0 end.
Definition unguarded (stack : list frame) : Prop := Forall (fun fr => forall a, ~ guards a fr) stack.

Record threads_ok (g : memory) (ts : list (list frame)) (cs : list (list Z)) : Prop := {
  threads_few : Z.of_nat (length ts) < 2 ^ 31 - 1;
  threads_stacks : Forall2 (stack_ok g) ts cs;
  threads_pending : forall a, 0 < owned g a -> owned g a + tally (pending a) ts < 2 ^ 31;
  threads_shape : Forall (fun stack => unguarded (tail stack)) ts;
}.

(** With [dl] on the list. *)
Definition inv (dl : list Z) (s : state) : Prop := exists cs, core s.1 dl (concat cs) /\ threads_ok s.1 s.2 cs.

(** ** Steps and the rest of the state *)

(** What a step that is in charge of other objects than [Q] leaves alone. *)
Definition extends (g g' : memory) (Q : list Z) : Prop :=
  same_types g g' /\
  forall x, x ∈ Q -> objects g' !! x = objects g !! x /\ storage g' !! x = storage g !! x /\ (x ∈ published g' -> x ∈ published g).

Lemma same_types_refl g : same_types g g.
Proof. done. Qed.

Lemma extends_refl g Q : extends g g Q.
Proof. done. Qed.
#[local] Hint Resolve same_types_refl extends_refl : core.

Lemma same_type g g' ty T : same_types g g' -> types g !! ty = Some T -> exists T', types g' !! ty = Some T' /\ kind T' = kind T.
Proof. intros Hs HT. specialize (Hs ty). rewrite HT in Hs. destruct (types g' !! ty) as [T'|]; [exists T'; split; [done|by apply (inj Some) in Hs]|done]. Qed.

Lemma kind_index T T' : kind T' = kind T -> Index T' = Index T.
Proof. destruct T, T'. unfold kind, set_number. simpl. congruence. Qed.
Lemma kind_delete T T' : kind T' = kind T -> DeleteProcedure T' = DeleteProcedure T.
Proof. destruct T, T'. unfold kind, set_number. simpl. congruence. Qed.

Lemma described_same g g' h b : same_types g g' -> described g h b -> described g' h b.
Proof. intros Hs (T & HT & Hi & Hf). destruct (same_type g g' _ _ Hs HT) as (T' & HT' & E). exists T'. by rewrite (kind_index _ _ E). Qed.
Lemma saved_same g g' h b : same_types g g' -> saved g h b -> saved g' h b.
Proof. intros Hs (T & HT & Hi & Hf). destruct (same_type g g' _ _ Hs HT) as (T' & HT' & E). exists T'. by rewrite (kind_index _ _ E). Qed.
#[local] Hint Resolve described_same saved_same : core.

Lemma holds_same g g' a (P P' : PH_OBJECT_HEADER -> block -> Prop) :
  objects g' !! a = objects g !! a -> storage g' !! a = storage g !! a -> (forall h b, P h b -> P' h b) -> holds g a P -> holds g' a P'.
Proof. intros Ho Hs HP (h & b & Hh & Hb & H). exists h, b. rewrite Ho, Hs. auto. Qed.

Lemma on_list_same g g' a : same_types g g' -> objects g' !! a = objects g !! a -> storage g' !! a = storage g !! a -> on_list g a -> on_list g' a.
Proof. intros Hs Ho Hst. apply holds_same; [done..|]. intros h b (? & ? & ?). eauto. Qed.

Lemma frame_ok_same g g' fr l : extends g g' l -> (forall a, guards a fr -> a ∈ published g -> a ∈ published g') ->
  frame_ok g fr l -> frame_ok g' fr l.
Proof.
  intros (Hs & Hl) Hg.
  assert (Hh : forall a (P P' : PH_OBJECT_HEADER -> block -> Prop), l = [a] -> (forall h b, P h b -> P' h b) -> holds g a P -> holds g' a P').
  { intros a P P' -> HP. destruct (Hl a ltac:(by left)) as (Ho & Hb & _). by apply holds_same. }
  assert (Hp : forall a, l = [a] -> (a ∉ published g) -> (a ∉ published g')).
  { intros a -> Ha H. by apply Ha, (Hl a ltac:(by left)). }
  assert (Hon : forall a, l = [a] -> on_list g a -> on_list g' a).
  { intros a -> Ha. destruct (Hl a ltac:(by left)) as (Ho & Hb & _). by apply (on_list_same g). }
  destruct fr; simpl; try done; try (intros (-> & Hfr); split; [done|]); try (destruct Hfr as (Hfr & Hout); split; [|by apply Hp]);
    try (eapply Hh; [done| |exact Hfr]; intros ? ? H; repeat (destruct H as (? & H)); by eauto 7); try (by apply Hon); try (by eapply Hg; [|done]; (by left) || (right; eauto)).
  intros (Hlk & Hall). split.
  - eapply links_frame; [|done]. intros j Hj. unfold link. by rewrite (proj1 (Hl j Hj)).
  - intros x Hx. destruct (Hl x Hx) as (? & ? & _). eapply on_list_same; eauto.
Qed.

Lemma stack_ok_same g g' stack l : extends g g' l -> (forall fr a, fr ∈ stack -> guards a fr -> a ∈ published g -> a ∈ published g') ->
  stack_ok g stack l -> stack_ok g' stack l.
Proof.
  revert l. induction stack as [|fr stack IH]; intros l He Hg; simpl; [done|]. intros (l1 & l2 & -> & Hfr & Hst). destruct He as [Hs He].
  exists l1, l2. split; [done|]. split.
  - eapply frame_ok_same; [|intros a; apply Hg; by left|done]. split; [done|]. intros x Hx. apply He. apply elem_of_app. by left.
  - apply IH; [|intros; eapply Hg; [by right|done..]|done]. split; [done|]. intros x Hx. apply He. apply elem_of_app. by right.
Qed.

Lemma stack_ok_app g pre stack l : stack_ok g (pre ++ stack) l <-> exists l1 l2, l = l1 ++ l2 /\ stack_ok g pre l1 /\ stack_ok g stack l2.
Proof.
  revert l. induction pre as [|fr pre IH]; intros l; simpl.
  - split; [intros H; by exists [], l|by intros (l1 & l2 & -> & -> & H)].
  - split.
    + intros (l1 & l2 & -> & Hfr & (l3 & l4 & -> & Hp & Hs)%IH). exists (l1 ++ l3), l4. split; [by rewrite app_assoc|]. split; [by exists l1, l3|done].
    + intros (l1 & l2 & -> & (l3 & l4 & -> & Hfr & Hp) & Hs). exists l3, (l4 ++ l2). split; [by rewrite app_assoc|]. split; [done|]. apply IH. by exists l4, l2.
Qed.

Lemma core_perm g dl L L' : L ≡ₚ L' -> core g dl L -> core g dl L'.
Proof.
  intros HP [H1 H2 H3 H4 H5 H6 H7]. split; try done.
  - by rewrite <- HP.
  - intros a. rewrite <- HP. apply H4.
  - intros a. rewrite <- HP. apply H6.
  - intros a h. rewrite <- HP. apply H7.
Qed.

Lemma concat_split {A} (cs : list (list A)) t l : cs !! t = Some l -> exists R, concat cs ≡ₚ l ++ R /\ (forall l', concat (<[t := l']> cs) ≡ₚ l' ++ R) /\
  forall u l', u <> t -> cs !! u = Some l' -> forall x, x ∈ l' -> x ∈ R.
Proof.
  intros Ht. pose proof (lookup_lt_Some _ _ _ Ht) as Hlt. exists (concat (take t cs) ++ concat (drop (S t) cs)). split_and!.
  - rewrite <- (take_drop_middle cs t l Ht) at 1. rewrite concat_app. simpl. by rewrite !app_assoc, (Permutation_app_comm (concat _) l).
  - intros l'. rewrite insert_take_drop by done. rewrite concat_app. simpl. by rewrite !app_assoc, (Permutation_app_comm (concat _) l').
  - intros u l' Hne Hu x Hx. apply elem_of_app. destruct (decide (u < t)%nat); [left|right]; apply list_elem_of_In, in_concat; exists l'; split; try (by apply list_elem_of_In).
    + eapply list_elem_of_In, list_elem_of_lookup_2. by rewrite lookup_take_lt.
    + eapply list_elem_of_In, list_elem_of_lookup_2 with (i := (u - S t)%nat). rewrite lookup_drop. replace (S t + (u - S t))%nat with u by lia. done.
Qed.

(** A step of thread [t] that replaces the calls [pre]: what it may assume, and what it must show. *)
Lemma inv_step dl g ts t pre stack : inv dl (g, ts) -> ts !! t = Some (pre ++ stack) -> unguarded stack ->
  exists l Q, core g dl (l ++ Q) /\ stack_ok g pre l /\ (forall a, 0 < owned g a -> owned g a + tally (pending a) ts < 2 ^ 31) /\
  forall g' dl' pre' l', core g' dl' (l' ++ Q) -> stack_ok g' pre' l' -> extends g g' Q ->
    (forall a u st fr, u <> t -> ts !! u = Some st -> fr ∈ st -> guards a fr -> a ∈ published g -> a ∈ published g') ->
    (forall a, 0 < owned g' a -> owned g' a + tally (pending a) ts - pending a (pre ++ stack) + pending a (pre' ++ stack) < 2 ^ 31) ->
    unguarded (tail (pre' ++ stack)) -> inv dl' (g', <[t := pre' ++ stack]> ts).
Proof.
  intros (cs & Hcore & [Hfew Hst Hpend Hshape]) Ht Hun. cbn [fst snd] in *.
  destruct (Forall2_lookup_l _ _ _ _ _ Hst Ht) as (lt & Hct & Hlt). apply stack_ok_app in Hlt as (l & l2 & -> & Hpre & Hstack).
  destruct (concat_split cs t _ Hct) as (R & HR & HR' & Hother). exists l, (l2 ++ R). split_and!; [|done|done|].
  { eapply core_perm; [|done]. by rewrite HR, app_assoc. }
  intros g' dl' pre' l' Hcore' Hpre' (Hs & Hext) Hguard Hpend' Hshape'. exists (<[t := l' ++ l2]> cs). cbn [fst snd]. split; [eapply core_perm; [|done]; by rewrite HR', app_assoc|]. split.
  - by rewrite length_insert.
  - apply Forall2_same_length_lookup_2; [rewrite !length_insert; by eapply Forall2_length|].
    intros u st lu [[-> <-]|[Hne Hu]]%lookup_cases.
    + intros Hlu. rewrite list_lookup_insert_eq in Hlu by (by eapply lookup_lt_Some). injection Hlu as <-.
      apply stack_ok_app. exists l', l2. split; [done|]. split; [done|]. eapply stack_ok_same; [|intros fr a Hfr Hga; by destruct (proj1 (Forall_forall _ _) Hun fr Hfr a)|done].
      split; [done|]. intros x Hx. apply Hext. apply elem_of_app. by left.
    + rewrite list_lookup_insert_ne by done. intros Hlu. destruct (Forall2_lookup_l _ _ _ _ _ Hst Hu) as (lu' & Hlu' & Hok). replace lu with lu' by congruence.
      eapply stack_ok_same; [|intros fr a Hfr Hga; by eapply Hguard|done]. split; [done|]. intros x Hx. apply Hext. apply elem_of_app. right. by eapply Hother.
  - intros a Ha. rewrite (tally_insert (pending a) ts t _ _ Ht). specialize (Hpend' a Ha). lia.
  - apply Forall_insert; [done|done].
Qed.

(** What a client, and what the rest of a stack, does not hold. *)
Lemma client_unguarded dl g ts t stack : inv dl (g, ts) -> ts !! t = Some stack -> client stack -> unguarded stack.
Proof.
  intros (cs & _ & [_ _ _ Hshape]) Ht Hc. apply (Forall_lookup_1 _ _ _ _ Hshape) in Ht. destruct stack as [|fr stack]; [constructor|].
  constructor; [|exact Ht]. destruct fr; try done. by intros x [?|(? & ?)].
Qed.

Lemma tail_unguarded dl g ts t fr stack : inv dl (g, ts) -> ts !! t = Some (fr :: stack) -> unguarded stack.
Proof. intros (cs & _ & [_ _ _ Hshape]) Ht. by apply (Forall_lookup_1 _ _ _ _ Hshape) in Ht. Qed.

Lemma pending_range a stack : 0 <= pending a stack <= 1.
Proof. destruct stack as [|[] stack]; simpl; repeat case_match; lia. Qed.

(** ** What the steps do to the memory *)

Definition good_header (h : PH_OBJECT_HEADER) : Prop := in_width 64 (DeferDeleteListEntry h) /\ in_width 32 (RefCount h).

Lemma link_same g g' l x : links 0 (link g) x l -> (forall y, y ∈ l -> objects g' !! y = objects g !! y) -> links 0 (link g') x l.
Proof. intros Hl Hs. eapply links_frame; [|done]. intros j Hj. unfold link. by rewrite Hs. Qed.

Lemma type_back g g' ty T' : same_types g g' -> types g' !! ty = Some T' -> exists T, types g !! ty = Some T /\ kind T' = kind T.
Proof. intros Hs HT. destruct (same_type g' g ty T' ltac:(by intros x; rewrite Hs) HT) as (T & HT' & E). eauto. Qed.

(** A change of the objects [l] and of the numbers of objects. *)
Lemma base_change g g' (l : list Z) : base g -> same_types g g' -> PhObjectTypeTable g' = PhObjectTypeTable g -> published g' = published g ->
  (forall x, x ∉ l -> objects g' !! x = objects g !! x /\ storage g' !! x = storage g !! x) ->
  (forall x, x ∈ l -> exists h h' b b', objects g !! x = Some h /\ objects g' !! x = Some h' /\ good_header h' /\
     storage g !! x = Some b /\ storage g' !! x = Some b' /\ From b' = From b /\ Of b' = Of b) ->
  (forall ty T, types g' !! ty = Some T -> NumberOfObjects T = u32 (number ty (storage g'))) -> base g'.
Proof.
  intros [Hty Hh Hst Hbl Hpub Hnum] Hs Htab Hp Hout Hin Hnum'.
  assert (Hsome : forall ty, is_Some (types g !! ty) -> is_Some (types g' !! ty)).
  { intros ty (T & HT). destruct (same_type g g' ty T Hs HT) as (T' & HT' & _). eauto. }
  split; [| | | | |done].
  - intros ty T HT. destruct (type_back g g' ty T Hs HT) as (T0 & HT0 & E). rewrite Htab, (kind_index _ _ E). by apply Hty.
  - intros a h Ha. destruct (decide (a ∈ l)) as [Hl|Hl].
    + destruct (Hin a Hl) as (h0 & h' & b & b' & Hh0 & Hh' & [? ?] & _). replace h with h' by congruence. by destruct (Hh a h0 Hh0) as (_ & _ & ?).
    + rewrite (proj1 (Hout a Hl)) in Ha. by apply Hh.
  - intros a b Ha. destruct (decide (a ∈ l)) as [Hl|Hl].
    + destruct (Hin a Hl) as (h0 & h' & b0 & b' & _ & _ & _ & Hb0 & Hb' & Ef & Eo). replace b with b' by congruence. rewrite Ef, Eo.
      destruct (Hst a b0 Hb0) as [H1 H2]. split; [by apply Hsome|done].
    + rewrite (proj2 (Hout a Hl)) in Ha. destruct (Hst a b Ha) as [H1 H2]. split; [by apply Hsome|done].
  - intros a. destruct (decide (a ∈ l)) as [Hl|Hl].
    + destruct (Hin a Hl) as (h0 & h' & b0 & b' & _ & -> & _ & _ & -> & _). split; eauto.
    + destruct (Hout a Hl) as [-> ->]. apply Hbl.
  - intros a. rewrite Hp. intros Ha. destruct (Hpub a Ha) as (b & T & Hb & HT & Hd). destruct (same_type g g' _ T Hs HT) as (T' & HT' & E).
    destruct (decide (a ∈ l)) as [Hl|Hl].
    + destruct (Hin a Hl) as (h0 & h' & b0 & b' & _ & _ & _ & Hb0 & Hb' & Ef & Eo). exists b', T'. split; [done|]. replace b0 with b in * by congruence.
      rewrite Eo. split; [done|]. by rewrite (kind_delete _ _ E).
    + exists b, T'. rewrite (proj2 (Hout a Hl)). split; [done|]. split; [done|]. by rewrite (kind_delete _ _ E).
Qed.

(** The objects that a step leaves alone. *)
Definition kept (g g' : memory) (x : Z) : Prop := objects g' !! x = objects g !! x /\ storage g' !! x = storage g !! x.

Lemma on_list_kept g g' x : same_types g g' -> kept g g' x -> on_list g x -> on_list g' x.
Proof. intros Hs [? ?]. by apply on_list_same. Qed.

Lemma live_kept g g' x : same_types g g' -> kept g g' x -> owned g' x = owned g x -> live g x -> live g' x.
Proof. intros Hs [? ?] Ho. apply holds_same; [done..|]. intros h b (? & ? & ?). rewrite Ho. eauto. Qed.

Lemma listed_kept g g' head dl : same_types g g' -> (forall x, x ∈ dl -> kept g g' x) ->
  links 0 (link g) head dl /\ (forall x, x ∈ dl -> on_list g x) -> links 0 (link g') head dl /\ (forall x, x ∈ dl -> on_list g' x).
Proof.
  intros Hs Hk [Hl Ho]. split; [eapply link_same; [done|]; intros y Hy; by apply Hk|]. intros x Hx. by eapply on_list_kept; [..|apply Ho]; try apply Hk.
Qed.

Lemma distinct_out (dl l Q : list Z) x : NoDup (dl ++ l ++ Q) -> x ∈ l -> (x ∉ dl) /\ (x ∉ Q).
Proof.
  intros (H1 & H2 & (H3 & H4 & H5)%NoDup_app)%NoDup_app Hx. split; [|by apply H4]. intros Hd. apply (H2 x Hd). apply elem_of_app. by left.
Qed.

(** A change of the headers [l] that calls are in charge of. *)
Definition charged (g g' : memory) (l : list Z) : Prop := forall x, x ∈ l -> exists h h' b b',
  objects g !! x = Some h /\ objects g' !! x = Some h' /\ good_header h' /\
  storage g !! x = Some b /\ storage g' !! x = Some b' /\ From b' = From b /\ Of b' = Of b /\ (x ∈ published g -> dead h').

Lemma core_quiet g g' dl l Q : core g dl (l ++ Q) -> same_types g g' -> PhObjectTypeTable g' = PhObjectTypeTable g ->
  PhObjectDeferDeleteListHead g' = PhObjectDeferDeleteListHead g -> references g' = references g -> published g' = published g ->
  (forall x, x ∉ l -> kept g g' x) -> charged g g' l ->
  (forall ty T, types g' !! ty = Some T -> NumberOfObjects T = u32 (number ty (storage g'))) ->
  core g' dl (l ++ Q) /\ extends g g' Q.
Proof.
  intros [Hb Hl Hnd Hdead Hlive Hall Hweak] Hs Htab Hhead Href Hp Hout Hin Hnum.
  assert (Eo : forall a, owned g' a = owned g a) by (intros a; unfold owned; by rewrite Href).
  assert (Hdl : forall x, x ∈ dl ++ l ++ Q -> x ∈ dl \/ x ∈ Q -> kept g g' x).
  { intros x _ Hx. apply Hout. intros Hxl. destruct (distinct_out dl l Q x Hnd Hxl). tauto. }
  split; [|split; [done|]].
  - split; [| |done| | | |].
    + apply (base_change g g' l); [done..| |done]. intros x Hx. destruct (Hin x Hx) as (h & h' & b & b' & ? & ? & ? & ? & ? & ? & ? & _). by exists h, h', b, b'.
    + rewrite Hhead. apply (listed_kept g); [done| |done]. intros x Hx. apply Hdl; [apply elem_of_app|]; by left.
    + intros a Ha. rewrite Eo. by apply Hdead.
    + intros a. rewrite Eo. intros Ha. destruct (Hlive a Ha) as [Hla Hr]. split; [|done]. apply (live_kept g); [done| |done|done].
      apply Hout. intros Hal. apply Ha, Hdead. rewrite !elem_of_app. auto.
    + intros a. rewrite Eo, <- Hall. destruct (decide (a ∈ l)) as [Hal|Hal].
      * destruct (Hin a Hal) as (h & h' & b & b' & -> & -> & _). split; eauto.
      * by rewrite (proj1 (Hout a Hal)).
    + intros a h. rewrite Hp. intros Ha Hpa Hh. destruct (decide (a ∈ l)) as [Hal|Hal].
      * destruct (Hin a Hal) as (h0 & h' & b & b' & _ & Hh' & _ & _ & _ & _ & _ & Hd). replace h with h' by congruence. by apply Hd.
      * apply (Hweak a); [done..|]. by rewrite <- (proj1 (Hout a Hal)).
  - intros x Hx. rewrite Hp. destruct (Hdl x) as [? ?]; [rewrite !elem_of_app; auto|by right|done].
Qed.

Lemma u32_u32_add x y : u32 (u32 x + y) = u32 (x + y).
Proof. unfold u32. apply Zplus_mod_idemp_l. Qed.

Definition with_count (b : block) (c : bool) : block := {| From := From b; Of := Of b; Counted := c |}.

Lemma mark_storage g a b c : storage g !! a = Some b -> storage (mark g a c) = <[a := with_count b c]> (storage g).
Proof.
  intros Hb. cbn [mark set_storage storage]. apply map_eq. intros x. destruct (decide (x = a)) as [->|].
  - by rewrite lookup_alter_eq, Hb, lookup_insert_eq.
  - by rewrite lookup_alter_ne, lookup_insert_ne by done.
Qed.

(** An object is counted, or is not counted any more. *)
Lemma count_mark g a b c d ty : base g -> storage g !! a = Some b -> Of b = ty -> Counted b = negb c -> d = (if c then 1 else -1) ->
  exists g1, count_object g ty d = Some g1 /\ same_types g (mark g1 a c) /\ objects (mark g1 a c) = objects g /\
    storage (mark g1 a c) = <[a := with_count b c]> (storage g) /\ PhObjectTypeTable (mark g1 a c) = PhObjectTypeTable g /\
    PhObjectDeferDeleteListHead (mark g1 a c) = PhObjectDeferDeleteListHead g /\ references (mark g1 a c) = references g /\ published (mark g1 a c) = published g /\
    forall t T, types (mark g1 a c) !! t = Some T -> NumberOfObjects T = u32 (number t (<[a := with_count b c]> (storage g))).
Proof.
  intros Hbase Hb Hty Hc Hd. destruct (base_storage g Hbase a b Hb) as ((T & HT) & _). rewrite Hty in HT. unfold count_object. rewrite HT. cbn [mbind option_bind].
  eexists. split; [reflexivity|]. split; [|split; [done|split; [by rewrite (mark_storage _ a b)|]]].
  - intros t. simpl. destruct (decide (t = ty)) as [->|]; [by rewrite lookup_insert_eq, HT|by rewrite lookup_insert_ne].
  - do 4 (split; [done|]). simpl. intros t T' HT'. rewrite number_insert, Hb. simpl. unfold counts, with_count. cbn [Of Counted]. rewrite Hty, Hc.
    destruct (decide (t = ty)) as [->|Hne].
    + rewrite lookup_insert_eq in HT'. injection HT' as <-. cbn [NumberOfObjects set_number]. rewrite (base_number g Hbase ty T HT), u32_u32_add, Z.eqb_refl.
      f_equal. destruct c; simpl; lia.
    + rewrite lookup_insert_ne in HT' by done. rewrite (base_number g Hbase t T' HT'). replace (ty =? t) with false by lia. simpl. f_equal. lia.
Qed.

(** [core_quiet] for a single object. *)
Lemma charge_one g g' dl a Q h h' b b' : core g dl (a :: Q) -> same_types g g' -> PhObjectTypeTable g' = PhObjectTypeTable g ->
  PhObjectDeferDeleteListHead g' = PhObjectDeferDeleteListHead g -> references g' = references g -> published g' = published g ->
  objects g !! a = Some h -> objects g' = <[a := h']> (objects g) -> good_header h' ->
  storage g !! a = Some b -> storage g' = <[a := b']> (storage g) -> From b' = From b -> Of b' = Of b -> (a ∈ published g -> dead h') ->
  (forall ty T, types g' !! ty = Some T -> NumberOfObjects T = u32 (number ty (storage g'))) ->
  core g' dl (a :: Q) /\ extends g g' Q.
Proof.
  intros Hc Hs Htab Hhead Href Hp Hh Eo Hgood Hb Es Ef Eof Hd Hnum. apply (core_quiet g g' dl [a] Q); try done.
  - intros x Hx. unfold kept. rewrite Eo, Es, !lookup_insert_ne; [done|..]; intros ->; apply Hx; by left.
  - intros x ->%list_elem_of_singleton. exists h, h', b, b'. rewrite Eo, Es, !lookup_insert_eq. done.
Qed.

(** A change of one header only. *)
Lemma update_one g dl a Q f h : core g dl (a :: Q) -> objects g !! a = Some h -> good_header (f h) -> (a ∈ published g -> dead (f h)) ->
  exists g' b, update g a f = Some g' /\ objects g' = <[a := f h]> (objects g) /\ storage g !! a = Some b /\ storage g' = storage g /\
    core g' dl (a :: Q) /\ extends g g' Q /\ same_types g g' /\ references g' = references g /\ published g' = published g /\
    PhObjectDeferDeleteListHead g' = PhObjectDeferDeleteListHead g.
Proof.
  intros Hc Hh Hgood Hd. destruct (proj1 (base_blocks g (core_base g dl _ Hc) a) ltac:(eauto)) as (b & Hb). unfold update. rewrite Hh. cbn [mbind option_bind].
  eexists _, b. split; [reflexivity|]. split; [done|]. split; [done|]. split; [done|].
  match goal with |- core ?g' _ _ /\ _ => assert (H : core g' dl (a :: Q) /\ extends g g' Q) end; [|by destruct H].
  eapply (charge_one g _ dl a Q h (f h) b b); try done.
  - symmetry. by apply insert_id.
  - intros ty T HT. by apply (base_number g (core_base g dl _ Hc)).
Qed.

Lemma core_good g dl L a h : core g dl L -> objects g !! a = Some h -> good_header h.
Proof. intros Hc Hh. by destruct (base_header g (core_base g dl L Hc) a h Hh) as (? & ? & _). Qed.

(** ** References *)

Lemma owned_own g a n x : owned (own g a n) x = if decide (x = a) then n else owned g x.
Proof. unfold owned. simpl. destruct (decide (x = a)) as [->|]; [by rewrite lookup_insert_eq|by rewrite lookup_insert_ne]. Qed.

Lemma holds_own g a n x P : holds g x P -> holds (own g a n) x P.
Proof. done. Qed.

(** The count of an object with references. *)
Definition recount (g : memory) (a n : Z) (h : PH_OBJECT_HEADER) : memory := own (set_objects g (<[a := set_RefCount h n]> (objects g))) a n.

Lemma base_recount g a n h : base g -> objects g !! a = Some h -> in_width 32 n -> base (recount g a n h).
Proof.
  intros Hb Hh Hn. destruct (base_header g Hb a h Hh) as (? & _). destruct (proj1 (base_blocks g Hb a) ltac:(eauto)) as (b & Hbl).
  apply (base_change g _ [a]); try done.
  - intros x Hx. simpl. rewrite lookup_insert_ne; [done|]. intros ->. apply Hx. by left.
  - intros x ->%list_elem_of_singleton. exists h, (set_RefCount h n), b, b. simpl. by rewrite lookup_insert_eq.
  - intros ty T HT. by apply (base_number g Hb).
Qed.

Lemma live_out g dl L a : core g dl L -> owned g a <> 0 -> a ∉ dl ++ L.
Proof. intros Hc Ho Ha. by apply Ho, (core_dead g dl L Hc). Qed.

Lemma kept_recount g a n h x : x <> a -> kept g (recount g a n h) x.
Proof. intros Hne. split; [|done]. simpl. by rewrite lookup_insert_ne. Qed.

Lemma recount_extends g dl L a n h : core g dl L -> owned g a <> 0 -> extends g (recount g a n h) L.
Proof.
  intros Hc Ho. split; [done|]. intros x Hx. destruct (kept_recount g a n h x) as [-> ->]; [|done]. intros ->.
  apply (live_out g dl L a Hc Ho), elem_of_app. by right.
Qed.

Lemma recount_list g dl L a n h : core g dl L -> owned g a <> 0 ->
  links 0 (link (recount g a n h)) (PhObjectDeferDeleteListHead g) dl /\ forall x, x ∈ dl -> on_list (recount g a n h) x.
Proof.
  intros Hc Ho. apply (listed_kept g); [done| |by eapply core_list]. intros x Hx. apply kept_recount. intros ->.
  apply (live_out g dl L a Hc Ho), elem_of_app. by left.
Qed.

(** [a] has [n] references now, and still has some. *)
Lemma core_recount g dl L a n h : core g dl L -> objects g !! a = Some h -> owned g a <> 0 -> 0 < n < 2 ^ 31 -> core (recount g a n h) dl L.
Proof.
  intros Hc Hh Ho Hn. pose proof (live_out g dl L a Hc Ho) as Hout. pose proof Hc as [Hb Hl Hnd Hdead Hlive Hall Hweak]. split; [|by apply (recount_list g dl L)|done|..].
  - apply base_recount; [done..|]. unfold in_width. lia.
  - intros x Hx. unfold recount. rewrite owned_own. destruct (decide (x = a)) as [->|]; [done|]. by apply Hdead.
  - intros x. unfold recount at 1. rewrite owned_own. destruct (decide (x = a)) as [->|Hne].
    + intros _. destruct (Hlive a Ho) as [(h' & b & Hh' & Hbl & Hd & Hcnt & _) _]. replace h' with h in * by congruence. split; [|unfold recount; rewrite owned_own, decide_True by done; lia].
      exists (set_RefCount h n), b. simpl. rewrite lookup_insert_eq. split; [done|]. split; [done|]. split; [exact Hd|]. split; [done|].
      change (RefCount (set_RefCount h n)) with n. unfold recount. by rewrite owned_own, decide_True.
    + intros Hx. destruct (Hlive x Hx) as [Hlv Hr]. assert (E : owned (recount g a n h) x = owned g x) by (unfold recount; by rewrite owned_own, decide_False).
      split; [|by rewrite E]. apply (live_kept g); [done|by apply kept_recount|done|done].
  - intros x. unfold recount at 2. rewrite owned_own. simpl. destruct (decide (x = a)) as [->|Hne]; [rewrite lookup_insert_eq; split; [left; lia|eauto]|].
    rewrite lookup_insert_ne by done. apply Hall.
  - intros x h' Hx Hp. simpl. rewrite lookup_insert_ne; [by apply Hweak|]. intros <-. apply Hout, elem_of_app. by right.
Qed.

(** [a] has lost its last reference, and a call is in charge of it. *)
Lemma core_drop g dl L a h : core g dl L -> objects g !! a = Some h -> owned g a <> 0 -> core (recount g a 0 h) dl (a :: L).
Proof.
  intros Hc Hh Ho. pose proof (live_out g dl L a Hc Ho) as Hout. pose proof Hc as [Hb Hl Hnd Hdead Hlive Hall Hweak]. split; [|by apply (recount_list g dl L)|..].
  - by apply base_recount.
  - rewrite <- Permutation_middle. by constructor.
  - intros x. rewrite <- Permutation_middle. intros Hx. unfold recount. rewrite owned_own. destruct (decide (x = a)) as [->|]; [done|].
    apply Hdead. by apply elem_of_cons in Hx as [?|?].
  - intros x. unfold recount at 1. rewrite owned_own. destruct (decide (x = a)) as [->|Hne]; [done|].
    intros Hx. destruct (Hlive x Hx) as [Hlv Hr]. assert (E : owned (recount g a 0 h) x = owned g x) by (unfold recount; by rewrite owned_own, decide_False).
    split; [|by rewrite E]. apply (live_kept g); [done|by apply kept_recount|done|done].
  - intros x. rewrite <- Permutation_middle. unfold recount at 2. rewrite owned_own. simpl. destruct (decide (x = a)) as [->|Hne].
    + rewrite lookup_insert_eq. split; [right; by left|eauto].
    + rewrite lookup_insert_ne, Hall by done. rewrite elem_of_cons. tauto.
  - intros x h' [->|Hx]%elem_of_cons Hp; simpl.
    + rewrite lookup_insert_eq. by intros [= <-].
    + rewrite lookup_insert_ne; [by apply Hweak|]. intros <-. apply Hout, elem_of_app. by right.
Qed.

(** The creator of [a] gives it to the client. *)
Lemma core_created g dl a Q h b : core g dl (a :: Q) -> objects g !! a = Some h -> storage g !! a = Some b -> described g h b -> Counted b = true -> RefCount h = 1 ->
  core (own g a 1) dl Q.
Proof.
  intros Hc Hh Hbl Hd Hcnt Hr. destruct (distinct_out dl [a] Q a (core_distinct _ _ _ Hc)) as [Hadl HaQ]; [by left|].
  pose proof Hc as [Hb Hl Hnd Hdead Hlive Hall Hweak]. rewrite <- Permutation_middle in Hnd. apply NoDup_cons in Hnd as [_ Hnd].
  split; [by destruct Hb; split|done|done|..].
  - intros x Hx. rewrite owned_own. destruct (decide (x = a)) as [->|]; [by apply elem_of_app in Hx as [?|?]|]. apply Hdead. rewrite elem_of_app, elem_of_cons. rewrite elem_of_app in Hx. tauto.
  - intros x. unfold live. rewrite owned_own. destruct (decide (x = a)) as [->|Hne]; [|by apply Hlive]. intros _. split; [|lia]. by exists h, b.
  - intros x. rewrite owned_own. destruct (decide (x = a)) as [->|Hne].
    + split; [left; lia|]. intros _. eauto.
    + rewrite Hall, !elem_of_app, elem_of_cons. tauto.
  - intros x h' Hx. apply Hweak. by right.
Qed.

(** ** Blocks and the list *)

Lemma core_out g dl L a : core g dl L -> objects g !! a = None -> owned g a = 0 /\ (a ∉ dl ++ L).
Proof.
  intros Hc Hn. assert (H : ~ (owned g a <> 0 \/ a ∈ dl ++ L)) by (rewrite <- (core_all g dl L Hc), Hn; by intros []).
  split; [lia|tauto].
Qed.

Lemma unused_unpublished g a : base g -> objects g !! a = None -> (a ∉ published g) /\ storage g !! a = None.
Proof.
  intros Hb Hn. assert (Hs : storage g !! a = None) by (apply eq_None_not_Some; rewrite <- (base_blocks g Hb), Hn; by intros []).
  split; [|done]. intros Hp. destruct (base_published g Hb a Hp) as (b & T & Hst & _). congruence.
Qed.

Definition allocated (g : memory) (a : Z) (h : PH_OBJECT_HEADER) (b : block) : memory :=
  set_storage (set_objects g (<[a := h]> (objects g))) (<[a := b]> (storage g)).

Lemma core_allocated g dl L a h b : core g dl L -> objects g !! a = None -> good_header h -> in_width 64 a -> a <> 0 ->
  is_Some (types g !! Of b) -> (forall ty, From b = TypeFreeList ty -> ty = Of b) -> Counted b = false ->
  core (allocated g a h b) dl (a :: L) /\ extends g (allocated g a h b) L.
Proof.
  intros Hc Hn [Hg1 Hg2] Ha Ha0 HT Hf Hcnt. destruct (core_out g dl L a Hc Hn) as [Ho Hout]. pose proof Hc as [Hb Hl Hnd Hdead Hlive Hall Hweak].
  destruct (unused_unpublished g a Hb Hn) as [Hp Hs].
  assert (Hk : forall x, x <> a -> kept g (allocated g a h b) x) by (intros x Hx; split; simpl; by rewrite lookup_insert_ne).
  assert (Hno : forall x, x ∈ dl ++ L -> x <> a) by (intros x Hx ->; done). split; [split|split; [done|]].
  - pose proof Hb as [Hty Hh Hst Hbl Hpub Hnum]. split; simpl; [done| | | | |].
    + intros x h' [[<- <-]|[Hx Hxh]]%lookup_insert_Some; [done|by apply Hh].
    + intros x b' [[<- <-]|[Hx Hxb]]%lookup_insert_Some; [done|by eapply Hst].
    + intros x. destruct (decide (x = a)) as [->|]; [rewrite !lookup_insert_eq; split; eauto|rewrite !lookup_insert_ne by done; apply Hbl].
    + intros x Hx. destruct (Hpub x Hx) as (b' & T & Hb' & ?). exists b', T. rewrite lookup_insert_ne; [done|]. intros ->. congruence.
    + intros ty T HT'. rewrite number_insert, Hs, (Hnum ty T HT'). simpl. unfold counts. rewrite Hcnt, andb_false_r. f_equal. lia.
  - apply (listed_kept g); [done| |done]. intros x Hx. apply Hk, Hno, elem_of_app. by left.
  - rewrite <- Permutation_middle. by constructor.
  - intros x. rewrite <- Permutation_middle. intros [->|Hx]%elem_of_cons; [done|by apply Hdead].
  - intros x Hx. destruct (Hlive x Hx) as [Hlv Hr]. split; [|done]. apply (live_kept g); [done| |done|done]. apply Hk. intros ->. by apply Hx.
  - intros x. rewrite <- Permutation_middle. simpl. destruct (decide (x = a)) as [->|Hne].
    + rewrite lookup_insert_eq. split; [right; by left|eauto].
    + rewrite lookup_insert_ne, Hall, elem_of_cons by done. tauto.
  - intros x h' [->|Hx]%elem_of_cons Hxp; [done|]. simpl. rewrite lookup_insert_ne; [by apply Hweak|]. intros <-. apply Hout, elem_of_app. by right.
  - intros x Hx. assert (Hne : x <> a) by (apply Hno, elem_of_app; by right). by destruct (Hk x Hne) as [-> ->].
Qed.

Definition released (g : memory) (a : Z) : memory := set_storage (set_objects g (delete a (objects g))) (delete a (storage g)).

Lemma core_freed g dl a Q b : core g dl (a :: Q) -> storage g !! a = Some b -> Counted b = false -> (a ∉ published g) ->
  core (released g a) dl Q /\ extends g (released g a) Q.
Proof.
  intros Hc Hs Hcnt Hp. destruct (distinct_out dl [a] Q a (core_distinct _ _ _ Hc)) as [Hadl HaQ]; [by left|].
  assert (Ho : owned g a = 0) by (apply (core_dead _ _ _ Hc), elem_of_app; right; by left).
  pose proof Hc as [Hb Hl Hnd Hdead Hlive Hall Hweak]. rewrite <- Permutation_middle in Hnd. apply NoDup_cons in Hnd as [_ Hnd].
  assert (Hk : forall x, x <> a -> kept g (released g a) x) by (intros x Hx; split; simpl; by rewrite lookup_delete_ne).
  assert (Hno : forall x, x ∈ dl ++ Q -> x <> a) by (intros x [?|?]%elem_of_app ->; done). split; [split|split; [done|]].
  - pose proof Hb as [Hty Hh Hst Hbl Hpub Hnum]. split; simpl; [done| | | | |].
    + intros x h' [Hx Hxh]%lookup_delete_Some. by apply Hh.
    + intros x b' [Hx Hxb]%lookup_delete_Some. by eapply Hst.
    + intros x. destruct (decide (x = a)) as [->|]; [rewrite !lookup_delete_eq; split; by intros []|rewrite !lookup_delete_ne by done; apply Hbl].
    + intros x Hx. destruct (Hpub x Hx) as (b' & T & Hb' & ?). exists b', T. rewrite lookup_delete_ne; [done|]. by intros ->.
    + intros ty T HT'. rewrite number_delete, Hs, (Hnum ty T HT'). simpl. unfold counts. rewrite Hcnt, andb_false_r. f_equal. lia.
  - apply (listed_kept g); [done| |done]. intros x Hx. apply Hk, Hno, elem_of_app. by left.
  - done.
  - intros x Hx. apply Hdead. rewrite elem_of_app, elem_of_cons. rewrite elem_of_app in Hx. tauto.
  - intros x Hx. destruct (Hlive x Hx) as [Hlv Hr]. split; [|done]. apply (live_kept g); [done| |done|done]. apply Hk. intros ->. by apply Hx.
  - intros x. simpl. destruct (decide (x = a)) as [->|Hne].
    + rewrite lookup_delete_eq. split; [by intros []|]. intros [?|Hx]; [done|]. by destruct (Hno a Hx).
    + rewrite lookup_delete_ne, Hall, !elem_of_app, elem_of_cons by done. assert (owned (released g a) x = owned g x) by done. tauto.
  - intros x h' Hx Hxp. simpl. rewrite lookup_delete_ne by (by intros <-). apply Hweak; [by right|done].
  - intros x Hx. assert (Hne : x <> a) by (apply Hno, elem_of_app; by right). by destruct (Hk x Hne) as [-> ->].
Qed.

Lemma on_list_dead g a h : base g -> on_list g a -> objects g !! a = Some h -> dead h.
Proof.
  intros Hb (h' & b & Hh' & _ & _ & Hm & _) Hh. replace h with h' by congruence. unfold dead.
  destruct (base_header g Hb a h' Hh') as (_ & Hw & _). pose proof (signed_negative _ Hw Hm). lia.
Qed.

(** An object is pushed onto the list. *)
Lemma core_pushed g dl a Q : core g dl (a :: Q) -> on_list g a ->
  exists g', update g a (fun h => set_link h (PhObjectDeferDeleteListHead g)) = Some g' /\
    core (set_head g' a) (a :: dl) Q /\ extends g (set_head g' a) Q /\ published g' = published g /\ references g' = references g.
Proof.
  intros Hc Hon. pose proof (core_list g dl _ Hc) as [Hl Hall]. pose proof Hon as (h & b & Hh & Hb & Hsv & Hm & Hcnt).
  assert (Hhead : in_width 64 (PhObjectDeferDeleteListHead g)).
  { destruct dl as [|x dl']; simpl in Hl; [rewrite Hl; by vm_compute|]. destruct Hl as (-> & _). destruct (Hall x ltac:(by left)) as (hx & _ & Hx & _).
    by destruct (base_header g (core_base g _ _ Hc) x hx Hx) as (_ & _ & ? & _). }
  destruct (core_good g _ _ a h Hc Hh) as [_ Hg2].
  destruct (update_one g dl a Q (fun h => set_link h (PhObjectDeferDeleteListHead g)) h Hc Hh) as (g' & b' & E & Eo & _ & Es & Hc' & Hext & Hty & Eref & Ep & Eh).
  { done. }
  { intros _. eapply (on_list_dead g a h); [apply Hc|done|done]. }
  exists g'. split; [done|]. split; [|done].
  destruct (base_header g (core_base g _ _ Hc) a h Hh) as (_ & _ & _ & Ha0).
  pose proof Hc' as [Hb' Hl' Hnd Hdead Hlive Hall' Hweak]. split; [by destruct Hb'; split| | | |done| |].
  - split.
    + split; [done|]. split; [done|]. exists (PhObjectDeferDeleteListHead g). split; [unfold link; simpl; by rewrite Eo, lookup_insert_eq|].
      rewrite <- Eh. apply Hl'.
    + intros x [->|Hx]%elem_of_cons; [|by apply Hl']. exists (set_link h (PhObjectDeferDeleteListHead g)), b. simpl. rewrite Eo, Es, lookup_insert_eq.
      split; [done|]. split; [done|]. split; [|done]. by apply (saved_same g (set_head g' a) h b).
  - by rewrite <- Permutation_middle in Hnd.
  - intros x Hx. apply Hdead. rewrite elem_of_app, elem_of_cons. simpl in Hx. rewrite elem_of_cons, elem_of_app in Hx. tauto.
  - intros x. simpl. change (owned (set_head g' a) x) with (owned g' x). rewrite Hall', elem_of_cons, !elem_of_app, elem_of_cons. tauto.
  - intros x h' Hx. apply Hweak. by right.
Qed.

(** The list is taken as a whole. *)
Lemma core_flushed g dl Q : core g dl Q -> core (set_head g 0) [] (dl ++ Q) /\ extends g (set_head g 0) Q.
Proof.
  intros Hc. pose proof Hc as [Hb Hl Hnd Hdead Hlive Hall Hweak]. split; [|done]. split; try done.
  - by destruct Hb; split.
  - split; [done|]. intros x Hx. by apply elem_of_nil in Hx.
  - intros x h [Hx|Hx]%elem_of_app Hp Hh; [|by eapply Hweak]. eapply (on_list_dead g x); [done| |done]. by apply Hl.
Qed.

Lemma core_work g dl L n : core g dl L -> core (set_work g n) dl L.
Proof. intros [Hb Hl Hnd Hdead Hlive Hall Hweak]. split; try done. by destruct Hb; split. Qed.

Lemma core_published_add g dl L a b T : core g dl L -> owned g a <> 0 -> storage g !! a = Some b -> types g !! Of b = Some T -> DeleteProcedure T = true ->
  core (set_published g ({[a]} ∪ published g)) dl L.
Proof.
  intros Hc Ho Hb HT Hd. pose proof (live_out g dl L a Hc Ho) as Hout. destruct Hc as [[B1 B2 B3 B4 B5 B6] Hl Hnd Hdead Hlive Hall Hweak]. split; try done.
  - split; try done. intros x. simpl. intros [->%elem_of_singleton|Hx]%elem_of_union; [by exists b, T|by apply B5].
  - intros x h Hx. simpl. intros [->%elem_of_singleton|Hp]%elem_of_union; [|by apply Hweak]. exfalso. apply Hout, elem_of_app. by right.
Qed.

Lemma core_published_remove g dl L a : core g dl L -> core (set_published g (published g ∖ {[a]})) dl L.
Proof.
  intros [[B1 B2 B3 B4 B5 B6] Hl Hnd Hdead Hlive Hall Hweak]. split; try done.
  - split; try done. intros x. simpl. intros [Hx _]%elem_of_difference. by apply B5.
  - intros x h Hx. simpl. intros [Hp _]%elem_of_difference. by apply Hweak.
Qed.

(** ** Headers after a step *)

Lemma good_link h v : good_header h -> in_width 64 v -> good_header (set_link h v).
Proof. by intros [? ?] ?. Qed.
Lemma good_count h v : good_header h -> in_width 32 v -> good_header (set_RefCount h v).
Proof. by intros [? ?] ?. Qed.
Lemma good_type h v : good_header h -> good_header (set_TypeIndex h v).
Proof. intros Hh. apply good_link; [done|]. apply set_field_width; [lia..|apply Hh]. Qed.
Lemma good_flags h v : good_header h -> good_header (set_Flags h v).
Proof. intros Hh. apply good_link; [done|]. apply set_field_width; [lia..|apply Hh]. Qed.
Lemma good_saved s k h v : 0 <= s -> 0 <= k -> s + k <= 32 -> good_header h -> good_header (set_RefCount h (set_field s k v (RefCount h))).
Proof. intros Hs Hk Hw Hh. apply good_count; [done|]. apply set_field_width; [done..|apply Hh]. Qed.
#[local] Hint Resolve good_type good_flags good_count good_link : core.

Lemma marked_defer h : marked (set_DeferDelete h 1).
Proof. unfold marked, set_DeferDelete. cbn [set_RefCount RefCount]. by rewrite testbit_set_field. Qed.
Lemma marked_saved s k h v : 0 <= s -> 0 <= k -> s + k <= 31 -> marked h -> marked (set_RefCount h (set_field s k v (RefCount h))).
Proof. intros Hs Hk Hw Hm. unfold marked in *. cbn [set_RefCount RefCount]. rewrite testbit_set_field by lia. replace (31 <? s + k) with false by lia. by rewrite andb_false_r. Qed.
Lemma marked_dead h : good_header h -> marked h -> dead h.
Proof. intros [_ Hw] Hm. unfold dead. pose proof (signed_negative _ Hw Hm). lia. Qed.

Lemma source_flag_range s : 0 <= source_flag s < 2 ^ 8.
Proof. destruct s; by vm_compute. Qed.

Lemma flags_set h s : Flags (set_Flags h (source_flag s)) = source_flag s.
Proof. unfold Flags. simpl. apply field_of_set; [lia..|apply source_flag_range]. Qed.

Lemma restored g h b : saved g h b -> described g (set_Flags (set_TypeIndex h (SavedTypeIndex h)) (SavedFlags h)) b.
Proof.
  intros (T & HT & Hi & Hf). exists T. split; [done|]. unfold TypeIndex, Flags. simpl. rewrite <- Hi, <- Hf. split.
  - rewrite field_of_other by lia. apply field_of_set; [lia..|]. apply (field_width 0 16). lia.
  - apply field_of_set; [lia..|]. apply (field_width 16 8). lia.
Qed.

Lemma described_index g dl L h b : core g dl L -> described g h b -> PhObjectTypeTable g !! TypeIndex h = Some (Of b).
Proof. intros Hc (T & HT & -> & _). by apply (base_types g (core_base _ _ _ Hc)). Qed.

(** ** The steps of a call *)

(** But for the flush, a step only adds to the list. *)
Definition grew (fr : frame) (dl dl' : list Z) : Prop := fr = DrainFlush \/ exists x, dl' = x ++ dl.
Lemma grew_refl fr dl : grew fr dl dl.
Proof. right. by exists []. Qed.
Lemma grew_cons fr a dl : grew fr dl (a :: dl).
Proof. right. by exists [a]. Qed.
Lemma grew_flush dl dl' : grew DrainFlush dl dl'.
Proof. by left. Qed.
#[local] Hint Resolve grew_refl grew_cons grew_flush : core.

(** The next step of [fr] is defined and keeps what there is to keep. *)
Definition advances (g : memory) (dl Q : list Z) (fr : frame) : Prop := exists g' frs dl' l',
  next g fr = Some (g', frs) /\ core g' dl' (l' ++ Q) /\ stack_ok g' frs l' /\ extends g g' Q /\ (published g' = published g /\ grew fr dl dl') /\ unguarded (tail frs) /\
  forall a, 0 < owned g' a -> 0 < owned g a /\ owned g' a + pending a frs <= owned g a + pending a [fr] \/ owned g' a = 1 /\ pending a frs = 0.

Lemma counts_quiet g g' fr frs : references g' = references g -> (forall a, pending a frs = 0) ->
  forall a, 0 < owned g' a -> 0 < owned g a /\ owned g' a + pending a frs <= owned g a + pending a [fr] \/ owned g' a = 1 /\ pending a frs = 0.
Proof. intros E Hp a. unfold owned. rewrite E, Hp. intros Ha. left. pose proof (pending_range a [fr]). lia. Qed.

Lemma stack_ok_one g fr l : frame_ok g fr l -> stack_ok g [fr] l.
Proof. intros H. exists l, []. by rewrite app_nil_r. Qed.

Lemma unguarded_nil : unguarded [].
Proof. constructor. Qed.
#[local] Hint Resolve unguarded_nil : core.

Lemma advance_allocated g dl l Q a ty : core g dl (l ++ Q) -> frame_ok g (Allocated a ty) l -> advances g dl Q (Allocated a ty).
Proof.
  intros Hc (-> & (h & b & Hh & Hb & Hty & Hf & Hcnt) & Hp).
  destruct (count_mark g a b true 1 ty (core_base _ _ _ Hc) Hb Hty) as (g1 & E & Hs & Eo & Es & Et & Ehd & Er & Ep & Hnum); [by rewrite Hcnt|done|].
  destruct (charge_one g (mark g1 a true) dl a Q h h b (with_count b true)) as [Hc' Hext]; try done.
  { by rewrite Eo, insert_id. }
  { by eapply core_good. }
  { by rewrite Es. }
  eexists _, _, dl, [a]. cbn [next]. rewrite E. cbn [mbind option_bind]. split; [done|]. split; [done|]. split; [|split; [done|split; [done|split; [done|by apply counts_quiet]]]].
  apply stack_ok_one. split; [done|]. rewrite Ep. split; [|done]. exists h, (with_count b true). by rewrite Eo, Es, lookup_insert_eq.
Qed.

Lemma advance_initializing g dl l Q a ty : core g dl (l ++ Q) -> frame_ok g (Initializing a ty) l -> advances g dl Q (Initializing a ty).
Proof.
  intros Hc (-> & (h & b & Hh & Hb & Hty & Hf & Hcnt) & Hp). destruct (base_storage g (core_base _ _ _ Hc) a b Hb) as ((T & HT) & _). rewrite Hty in HT.
  destruct (base_types g (core_base _ _ _ Hc) ty T HT) as [_ Hidx].
  destruct (update_one g dl a Q (fun h => set_TypeIndex (set_RefCount h 1) (Index T)) h Hc Hh) as (g' & b' & E & Eo & Hb' & Es & Hc' & Hext & Hs & Er & Ep & _); [|done|].
  { apply good_type, good_count; [by eapply core_good|by vm_compute]. }
  replace b' with b in * by congruence. eexists _, _, dl, []. cbn [next]. unfold initialize. rewrite HT. cbn [mbind option_bind]. rewrite E. cbn [mbind option_bind].
  split; [done|]. split; [|split; [done|split; [done|split; [done|split; [done|]]]]].
  - eapply (core_created g' dl a Q _ b Hc'); [by rewrite Eo, lookup_insert_eq|by rewrite Es| |done|done].
    apply (described_same g g'); [done|]. exists T. rewrite Hty. split; [done|]. unfold TypeIndex, Flags. simpl. split.
    + apply field_of_set; lia.
    + rewrite field_of_other by lia. exact Hf.
  - intros x. rewrite owned_own. destruct (decide (x = a)); [by right|]. intros Hx. left. unfold owned in *. rewrite Er in Hx |- *. simpl. lia.
Qed.

Lemma advance_freeing g dl l Q a : core g dl (l ++ Q) -> frame_ok g (Freeing a) l -> advances g dl Q (Freeing a).
Proof.
  intros Hc (-> & (h & b & Hh & Hb & Hd & Hdead & Hcnt)). pose proof (described_index g dl _ h b Hc Hd) as Hidx.
  destruct (count_mark g a b false (-1) (Of b) (core_base _ _ _ Hc) Hb) as (g1 & E & Hs & Eo & Es & Et & Ehd & Er & Ep & Hnum); [done..|].
  destruct (charge_one g (mark g1 a false) dl a Q h h b (with_count b false)) as [Hc' Hext]; try done.
  { by rewrite Eo, insert_id. }
  { by eapply core_good. }
  { by rewrite Es. }
  eexists _, _, dl, [a]. cbn [next]. unfold PhpFreeObject, PhGetObjectType. rewrite Hh. cbn [mbind option_bind]. rewrite Hidx. cbn [mbind option_bind]. rewrite E. cbn [mbind option_bind].
  split; [done|]. split; [done|]. split; [|split; [done|split; [done|split; [done|by apply counts_quiet]]]].
  apply stack_ok_one. split; [done|]. exists h, (with_count b false). rewrite Eo, Es, lookup_insert_eq. split; [done|]. split; [done|]. split; [done|]. split; [|done].
  by apply (described_same g _ h b).
Qed.

Lemma advance_free_delete g dl l Q a ty : core g dl (l ++ Q) -> frame_ok g (FreeDelete a ty) l -> advances g dl Q (FreeDelete a ty).
Proof.
  intros Hc (-> & (h & b & Hh & Hb & Hty & Hd & Hdead & Hcnt)). destruct (base_storage g (core_base _ _ _ Hc) a b Hb) as ((T & HT) & _).
  eexists g, _, dl, [a]. cbn [next]. unfold free_delete. rewrite <- Hty, HT. cbn [mbind option_bind]. split; [done|]. split; [done|].
  split; [|split; [done|split; [done|split; [by destruct (DeleteProcedure T)|apply counts_quiet; [done|by destruct (DeleteProcedure T)]]]]].
  destruct (DeleteProcedure T) eqn:Ed; apply stack_ok_one; (split; [done|]); [by exists h, b|]. split; [by exists h, b|].
  intros Hp. destruct (base_published g (core_base _ _ _ Hc) a Hp) as (b' & T' & ? & ? & ?). congruence.
Qed.

Lemma free_source_eq g h b : described g h b -> (forall ty, From b = TypeFreeList ty -> ty = Of b) -> free_source h (Of b) = From b.
Proof. intros (T & _ & _ & Hf) Hty. unfold free_source. rewrite Hf. destruct (From b) as [| |ty] eqn:E; [done|done|]. by rewrite (Hty ty eq_refl). Qed.

Lemma advance_free_storage g dl l Q a ty : core g dl (l ++ Q) -> frame_ok g (FreeStorage a ty) l -> advances g dl Q (FreeStorage a ty).
Proof.
  intros Hc (-> & (h & b & Hh & Hb & Hty & Hd & Hdead & Hcnt) & Hp). destruct (base_storage g (core_base _ _ _ Hc) a b Hb) as (_ & Hsrc).
  destruct (core_freed g dl a Q b Hc Hb Hcnt Hp) as [Hc' Hext].
  eexists (released g a), [], dl, []. cbn [next]. unfold free_storage. rewrite Hh, Hb. cbn [mbind option_bind]. rewrite <- Hty, (free_source_eq g h b Hd Hsrc), decide_True by done.
  split; [done|]. split; [done|]. split; [done|]. split; [done|]. split; [done|]. split; [done|]. by apply counts_quiet.
Qed.

(** A step of [PhpDeferDeleteObject] on one header. *)
Lemma advance_header g dl Q a fr fr' f h b : core g dl (a :: Q) -> objects g !! a = Some h -> storage g !! a = Some b -> good_header (f h) -> (a ∈ published g -> dead (f h)) ->
  next g fr = (g ← update g a f; Some (g, [fr'])) -> pending a [fr'] = 0 -> (forall x, pending x [fr'] = 0) ->
  (forall g', same_types g g' -> objects g' !! a = Some (f h) -> storage g' !! a = Some b -> frame_ok g' fr' [a]) -> advances g dl Q fr.
Proof.
  intros Hc Hh Hb Hgood Hdead Hnext _ Hpend Hok.
  destruct (update_one g dl a Q f h Hc Hh Hgood Hdead) as (g' & b' & E & Eo & Hb' & Es & Hc' & Hext & Hs & Er & Ep & _).
  eexists g', [fr'], dl, [a]. rewrite Hnext, E. cbn [mbind option_bind]. split; [done|]. split; [done|]. split; [|split; [done|split; [done|split; [done|by apply counts_quiet]]]].
  apply stack_ok_one, Hok; [done|by rewrite Eo, lookup_insert_eq|by rewrite Es].
Qed.

Lemma advance_defer_mark g dl l Q a : core g dl (l ++ Q) -> frame_ok g (DeferMark a) l -> advances g dl Q (DeferMark a).
Proof.
  intros Hc (-> & (h & b & Hh & Hb & Hd & Hz & Hcnt)). pose proof (core_good g _ _ a h Hc Hh) as Hgood.
  assert (Hg' : good_header (set_DeferDelete h 1)) by (apply good_saved; [lia..|done]).
  apply (advance_header g dl Q a _ (DeferSaveType a) (fun h => set_DeferDelete h 1) h b); try done.
  - intros _. apply marked_dead; [done|apply marked_defer].
  - intros g' Hs Hh' Hb'. split; [done|]. exists (set_DeferDelete h 1), b. split; [done|]. split; [done|]. split; [by apply (described_same g g' h b)|]. split; [apply marked_defer|done].
Qed.

Lemma advance_defer_save_type g dl l Q a : core g dl (l ++ Q) -> frame_ok g (DeferSaveType a) l -> advances g dl Q (DeferSaveType a).
Proof.
  intros Hc (-> & (h & b & Hh & Hb & Hd & Hm & Hcnt)). pose proof (core_good g _ _ a h Hc Hh) as Hgood.
  set (f := fun h => set_SavedTypeIndex h (TypeIndex h)). assert (Hg' : good_header (f h)) by (apply good_saved; [lia..|done]).
  assert (Hm' : marked (f h)) by (apply marked_saved; [lia..|done]).
  apply (advance_header g dl Q a _ (DeferSaveFlags a) f h b); try done.
  - intros _. by apply marked_dead.
  - intros g' Hs Hh' Hb'. split; [done|]. exists (f h), b. split; [done|]. split; [done|]. split; [by apply (described_same g g' h b)|]. split; [done|]. split; [|done].
    unfold SavedTypeIndex. apply field_of_set; [lia..|]. apply (field_width 0 16). lia.
Qed.

Lemma advance_defer_save_flags g dl l Q a : core g dl (l ++ Q) -> frame_ok g (DeferSaveFlags a) l -> advances g dl Q (DeferSaveFlags a).
Proof.
  intros Hc (-> & (h & b & Hh & Hb & Hd & Hm & Hsv & Hcnt)). pose proof (core_good g _ _ a h Hc Hh) as Hgood.
  set (f := fun h => set_SavedFlags h (Flags h)). assert (Hg' : good_header (f h)) by (apply good_saved; [lia..|done]).
  assert (Hm' : marked (f h)) by (apply marked_saved; [lia..|done]).
  apply (advance_header g dl Q a _ (DeferPeek a) f h b); try done.
  - intros _. by apply marked_dead.
  - intros g' Hs Hh' Hb'. split; [done|]. exists (f h), b. split; [done|]. split; [done|]. split; [|done].
    apply (saved_same g g'); [done|]. destruct Hd as (T & HT & Hi & Hf). exists T. split; [done|]. split.
    + rewrite <- Hi, <- Hsv. unfold SavedTypeIndex. apply field_of_other; lia.
    + rewrite <- Hf. unfold SavedFlags. apply field_of_set; [lia..|]. apply (field_width 16 8). lia.
Qed.

Lemma advance_defer_peek g dl l Q a : core g dl (l ++ Q) -> frame_ok g (DeferPeek a) l -> advances g dl Q (DeferPeek a).
Proof.
  intros Hc (-> & Hon). eexists g, [_], dl, [a]. split; [done|]. split; [done|]. split; [by apply stack_ok_one|]. split; [done|]. split; [done|]. split; [done|].
  by apply counts_quiet.
Qed.

Lemma advance_defer_push g dl l Q a old : core g dl (l ++ Q) -> frame_ok g (DeferPush a old) l -> advances g dl Q (DeferPush a old).
Proof.
  intros Hc (-> & Hon). destruct (core_pushed g dl a Q Hc Hon) as (g' & E & Hc' & Hext & Ep & Er).
  eexists (set_head g' a), _, (a :: dl), []. cbn [next PhpDeferDeleteObject]. rewrite E. cbn [mbind option_bind]. split; [done|]. split; [done|].
  destruct (old =? 0); (split; [by (exists [], []) || done|]); (split; [done|]); (split; [done|]); (split; [done|]); by apply counts_quiet.
Qed.

Lemma advance_defer_queue g dl l Q : core g dl (l ++ Q) -> frame_ok g DeferQueue l -> advances g dl Q DeferQueue.
Proof.
  intros Hc ->. eexists _, [], dl, []. split; [done|]. split; [by apply core_work|]. split; [done|]. split; [done|]. split; [done|]. split; [done|]. by apply counts_quiet.
Qed.

Lemma advance_drain_flush g dl l Q : core g dl (l ++ Q) -> frame_ok g DrainFlush l -> advances g dl Q DrainFlush.
Proof.
  intros Hc ->. simpl in Hc. destruct (core_flushed g dl Q Hc) as [Hc' Hext]. eexists _, [_], [], dl. split; [done|]. split; [done|].
  split; [apply stack_ok_one; apply (core_list g dl Q Hc)|]. split; [done|]. split; [done|]. split; [done|]. by apply counts_quiet.
Qed.

Lemma advance_drain_next g dl l Q e : core g dl (l ++ Q) -> frame_ok g (DrainNext e) l -> advances g dl Q (DrainNext e).
Proof.
  intros Hc [Hl Hon]. destruct l as [|x l].
  { simpl in Hl. subst e. eexists g, [], dl, []. split; [done|]. split; [done|]. split; [done|]. split; [done|]. split; [done|]. split; [done|]. by apply counts_quiet. }
  destruct Hl as (-> & Hx & n & Hn & Hl). destruct (Hon x ltac:(by left)) as (h & b & Hh & Hb & Hsv & Hm & Hcnt). unfold link in Hn. rewrite Hh in Hn. injection Hn as <-.
  pose proof (core_good g _ _ x h Hc Hh) as Hgood. set (f := fun h => set_Flags (set_TypeIndex h (SavedTypeIndex h)) (SavedFlags h)).
  destruct (update_one g dl x (l ++ Q) f h Hc Hh) as (g' & b' & E & Eo & Hb' & Es & Hc' & Hext & Hs & Er & Ep & _); [by apply good_flags, good_type|intros _; by apply (marked_dead h)|].
  eexists g', _, dl, (x :: l). cbn [next PhpDeferDeleteObjectRoutine]. replace (x =? 0) with false by lia. rewrite Hh. cbn [mbind option_bind]. fold f. rewrite E. cbn [mbind option_bind].
  split; [done|]. split; [done|]. split; [|split; [|split; [done|split; [by repeat constructor; intros y [?|(? & ?)]|by apply counts_quiet]]]].
  - exists [x], l. split; [done|]. split.
    + split; [done|]. exists (f h), b. rewrite Eo, Es, lookup_insert_eq. split; [done|]. split; [done|]. split; [|split; [by apply (marked_dead h)|done]].
      apply (described_same g g'); [done|]. by apply restored.
    + apply stack_ok_one. destruct Hext as [_ Hext]. split.
      * eapply link_same; [done|]. intros y Hy. apply Hext, elem_of_app. by left.
      * intros y Hy. destruct (Hext y) as (? & ? & _); [apply elem_of_app; by left|]. apply (on_list_same g); [done..|]. apply Hon. by right.
  - split; [done|]. intros y Hy. apply Hext, elem_of_app. by right.
Qed.

(** Only a live object has a positive count behind a weak pointer. *)
Lemma weak_positive g dl L a h : core g dl L -> a ∈ published g -> objects g !! a = Some h -> 0 < signed 32 (RefCount h) -> 0 < owned g a /\ RefCount h = owned g a.
Proof.
  intros Hc Hp Hh Hpos. destruct (proj1 (core_all g dl L Hc a) ltac:(eauto)) as [Ho|[Hd|Hl]%elem_of_app].
  - destruct (core_live g dl L Hc a Ho) as [(h' & b & Hh' & _ & _ & _ & Hr) ?]. split; [lia|congruence].
  - pose proof (on_list_dead g a h (core_base _ _ _ Hc) (proj2 (core_list _ _ _ Hc) a Hd) Hh). unfold dead in *. lia.
  - pose proof (core_weak g dl L Hc a h Hl Hp Hh). unfold dead in *. lia.
Qed.

Lemma published_block g dl L a : core g dl L -> a ∈ published g -> exists h, objects g !! a = Some h.
Proof. intros Hc Hp. destruct (base_published g (core_base _ _ _ Hc) a Hp) as (b & T & Hb & _). apply (base_blocks g (core_base _ _ _ Hc)). eauto. Qed.

Lemma advance_safe_read g dl l Q a : core g dl (l ++ Q) -> frame_ok g (SafeRead a) l -> advances g dl Q (SafeRead a).
Proof.
  intros Hc [-> Hp]. destruct (published_block g dl _ a Hc Hp) as (h & Hh). eexists g, [_], dl, []. cbn [next]. rewrite Hh. cbn [mbind option_bind].
  split; [done|]. split; [done|]. split; [by apply stack_ok_one|]. split; [done|]. split; [done|]. split; [done|]. intros x Hx. left. split; [done|]. simpl. lia.
Qed.

Lemma advance_safe_try g dl l Q a value : core g dl (l ++ Q) -> frame_ok g (SafeTry a value) l -> (0 < owned g a -> owned g a + 1 < 2 ^ 31) -> advances g dl Q (SafeTry a value).
Proof.
  intros Hc [-> Hp] Hbound. destruct (published_block g dl _ a Hc Hp) as (h & Hh). unfold advances. cbn [next]. unfold increment_positive.
  destruct (Z.leb_spec (signed 32 value) 0).
  { eexists g, [], dl, []. split; [done|]. split; [done|]. split; [done|]. split; [done|]. split; [done|]. split; [done|]. by apply counts_quiet. }
  rewrite Hh. cbn [mbind option_bind]. destruct (Z.eqb_spec (RefCount h) value) as [<-|Hne].
  - destruct (weak_positive g dl _ a h Hc Hp Hh) as [Ho Hr]; [done|]. specialize (Hbound Ho). rewrite Hr.
    rewrite u32_id by (unfold in_width; lia).
    eexists (recount g a (owned g a + 1) h), [], dl, []. split; [done|]. split; [apply core_recount; [done|done|lia|lia]|]. split; [done|].
    split; [by apply (recount_extends g dl); [|lia]|]. split; [done|]. split; [done|]. intros x. unfold recount. rewrite owned_own. destruct (decide (x = a)) as [->|].
    + intros _. left. split; [done|]. simpl. rewrite Z.eqb_refl. lia.
    + intros Hx. left. split; [done|]. change (owned (set_objects _ _) x) with (owned g x). simpl. pose proof (pending_range x [SafeTry a (owned g a)]). simpl in *. lia.
  - eexists g, [_], dl, []. split; [done|]. split; [done|]. split; [by apply stack_ok_one|]. split; [done|]. split; [done|]. split; [done|]. intros x Hx. left. split; [done|]. simpl. lia.
Qed.

(** Every step of a call is defined. *)
Lemma advance g dl l Q fr : core g dl (l ++ Q) -> frame_ok g fr l -> (forall a, 0 < owned g a -> owned g a + pending a [fr] < 2 ^ 31) ->
  (forall a ty, fr <> Deleting a ty) -> advances g dl Q fr.
Proof.
  intros Hc Hok Hbound Hnd. destruct fr.
  - by eapply advance_allocated.
  - by eapply advance_initializing.
  - by eapply advance_safe_read.
  - eapply advance_safe_try; [done..|]. intros Ho. specialize (Hbound a Ho). simpl in Hbound. by rewrite Z.eqb_refl in Hbound.
  - by eapply advance_freeing.
  - by eapply advance_free_delete.
  - by destruct (Hnd a ObjectType).
  - by eapply advance_free_storage.
  - by eapply advance_defer_mark.
  - by eapply advance_defer_save_type.
  - by eapply advance_defer_save_flags.
  - by eapply advance_defer_peek.
  - by eapply advance_defer_push.
  - by eapply advance_defer_queue.
  - by eapply advance_drain_flush.
  - by eapply advance_drain_next.
Qed.

(** ** Preservation *)

Lemma pending_unguarded a stack : unguarded stack -> pending a stack = 0.
Proof.
  destruct stack as [|fr stack]; [done|]. intros [Hfr _]%Forall_cons. destruct fr; simpl; try done; exfalso; eapply Hfr; [by left|right; eauto].
Qed.

Lemma pending_app a pre stack : unguarded stack -> pending a (pre ++ stack) = pending a pre.
Proof. destruct pre; [apply pending_unguarded|done]. Qed.

Lemma unguarded_tail_app pre stack : unguarded stack -> unguarded (tail pre) -> unguarded (tail (pre ++ stack)).
Proof. intros Hs Hp. destruct pre; simpl; [by destruct stack; [|by apply Forall_cons in Hs as [_ ?]]|by apply Forall_app]. Qed.

Lemma inv_few dl g ts a : inv dl (g, ts) -> 0 <= tally (pending a) ts <= Z.of_nat (length ts) /\ Z.of_nat (length ts) < 2 ^ 31 - 1.
Proof.
  intros (cs & _ & [Hfew _ _ _]). split; [|exact Hfew]. split; [apply tally_nonneg|apply tally_le]; intros p; apply pending_range.
Qed.

(** A call that is not the client's has a next step, which keeps the invariant. *)
Lemma inv_next dl g ts t fr stack : inv dl (g, ts) -> ts !! t = Some (fr :: stack) -> (forall a ty, fr <> Deleting a ty) ->
  exists g' frs dl', next g fr = Some (g', frs) /\ inv dl' (g', <[t := frs ++ stack]> ts) /\ grew fr dl dl'.
Proof.
  intros Hinv Ht Hnd. pose proof (tail_unguarded dl g ts t fr stack Hinv Ht) as Hun.
  destruct (inv_step dl g ts t [fr] stack Hinv Ht Hun) as (l & Q & Hc & Hst & Hpend & Hput).
  destruct Hst as (l1 & l2 & -> & Hok & ->). rewrite app_nil_r in Hc.
  assert (Hle : forall a, pending a [fr] <= tally (pending a) ts).
  { intros a. rewrite <- (pending_app a [fr] stack Hun). apply (tally_lookup (pending a)) with (t := t); [intros p; apply pending_range|done]. }
  destruct (advance g dl l1 Q fr Hc Hok) as (g' & frs & dl' & l' & E & Hc' & Hst' & Hext & [Ep Hgrew] & Hshape & Hown); [|done|].
  { intros a Ha. specialize (Hpend a Ha). specialize (Hle a). lia. }
  exists g', frs, dl'. split; [done|]. split; [|done]. apply (Hput g' dl' frs l'); [done..| | |by apply unguarded_tail_app].
  - intros a u st fr' _ _ _ _. by rewrite Ep.
  - intros a Ha. rewrite !pending_app by done. specialize (Hle a). pose proof (pending_range a [fr]). destruct (inv_few dl g ts a Hinv) as [? ?].
    destruct (Hown a Ha) as [[Ho ?]|[? ?]]; [specialize (Hpend a Ho)|]; lia.
Qed.

(** A client's call that puts [frs] in front of its stack. *)
Lemma inv_call_step dl g ts t stack g' frs : inv dl (g, ts) -> ts !! t = Some stack -> unguarded stack ->
  (forall Q, core g dl Q -> exists l', core g' dl (l' ++ Q) /\ stack_ok g' frs l' /\ extends g g' Q) ->
  (forall a u st fr, u <> t -> ts !! u = Some st -> fr ∈ st -> guards a fr -> a ∈ published g -> a ∈ published g') ->
  (forall a, 0 < owned g' a -> owned g' a <= owned g a \/ owned g' a + Z.of_nat (length ts) < 2 ^ 31) -> (forall a, 0 < pending a frs -> owned g a + Z.of_nat (length ts) < 2 ^ 31 /\ owned g' a = owned g a) ->
  unguarded (tail frs) -> inv dl (g', <[t := frs ++ stack]> ts).
Proof.
  intros Hinv Ht Hun Hcore Hguard Hown Hpf Hshape.
  destruct (inv_step dl g ts t [] stack Hinv Ht Hun) as (l & Q & Hc & Hst & Hpend & Hput). simpl in Hst. subst l.
  destruct (Hcore Q Hc) as (l' & Hc' & Hst' & Hext).
  apply (Hput g' dl frs l'); [done..| |by apply unguarded_tail_app].
  intros a Ha. rewrite !pending_app by done. change (pending a []) with 0. destruct (inv_few dl g ts a Hinv) as [? ?].
  assert (Hin : tally (pending a) ts + pending a frs <= Z.of_nat (length ts)).
  { pose proof (tally_insert (pending a) ts t stack frs Ht) as Hi. rewrite (pending_unguarded a stack) in Hi by done.
    pose proof (tally_le (pending a) (<[t := frs]> ts) ltac:(intros p; apply pending_range)) as Hl. rewrite length_insert in Hl. lia. }
  pose proof (pending_range a frs). destruct (decide (0 < pending a frs)) as [Hp|Hp]; [destruct (Hpf a Hp); lia|].
  destruct (Hown a Ha) as [Hle|?]; [|lia]. specialize (Hpend a ltac:(lia)). lia.
Qed.

(** Adding and taking away references. *)
Lemma usable_header g dl L a : core g dl L -> usable g a ->
  exists h b, objects g !! a = Some h /\ storage g !! a = Some b /\ described g h b /\ Counted b = true /\ RefCount h = owned g a /\ 0 < owned g a < 2 ^ 31.
Proof.
  intros Hc [_ Ho]. destruct (core_live g dl L Hc a ltac:(lia)) as [(h & b & ? & ? & ? & ? & ?) ?]. by exists h, b.
Qed.

Lemma inv_recount dl g ts t stack a n h frs : inv dl (g, ts) -> ts !! t = Some stack -> unguarded stack -> usable g a -> objects g !! a = Some h ->
  0 < n < 2 ^ 31 -> n <= owned g a \/ n + Z.of_nat (length ts) < 2 ^ 31 -> frs = [] -> inv dl (recount g a n h, <[t := frs ++ stack]> ts).
Proof.
  intros Hinv Ht Hun [_ Ho] Hh Hn Hle ->. apply (inv_call_step dl g); [done..| | | |done|done].
  - intros Q Hc. exists []. split; [apply core_recount; [done|done|lia|done]|]. split; [done|]. by apply (recount_extends g dl); [|lia].
  - done.
  - intros x. unfold recount. rewrite owned_own. destruct (decide (x = a)) as [->|]; [lia|]. intros _. left. change (owned (set_objects _ _) x) with (owned g x). lia.
Qed.

Lemma inv_drop dl g ts t stack a h (fr : frame) : inv dl (g, ts) -> ts !! t = Some stack -> unguarded stack -> usable g a -> objects g !! a = Some h ->
  fr = Freeing a \/ fr = DeferMark a -> inv dl (recount g a 0 h, <[t := [fr] ++ stack]> ts).
Proof.
  intros Hinv Ht Hun Hu Hh Hfr. apply (inv_call_step dl g); [done..| | | | |done].
  - intros Q Hc. destruct (usable_header g dl Q a Hc Hu) as (h' & b & Hh' & Hb & Hd & Hcnt & Hr & Ho). replace h' with h in * by congruence.
    exists [a]. split; [apply core_drop; [done|done|lia]|]. split; [|apply (recount_extends g dl); [done|lia]].
    apply stack_ok_one. assert (Hh2 : objects (recount g a 0 h) !! a = Some (set_RefCount h 0)) by (simpl; by rewrite lookup_insert_eq).
    destruct Hfr as [-> | ->]; (split; [done|]); exists (set_RefCount h 0), b; (split; [done|]); (split; [done|]); (split; [exact Hd|]); done.
  - done.
  - intros x. unfold recount. rewrite owned_own. destruct (decide (x = a)) as [->|]; [lia|]. intros _. left. change (owned (set_objects _ _) x) with (owned g x). lia.
  - intros x. destruct Hfr as [-> | ->]; simpl; lia.
Qed.

Lemma call_create dl g ts t stack ty n a h : inv dl (g, ts) -> ts !! t = Some stack -> unguarded stack -> permitted (g, ts) stack (Create ty n a h) ->
  exists g' stack', perform g stack (Create ty n a h) = Some (g', stack') /\ inv dl (g', <[t := stack']> ts).
Proof.
  intros Hinv Ht Hun ((Ha0 & Hn & _ & Hw1 & Hw2 & Ha) & Hsize & T & HT & Hfl). cbn [fst] in *. unfold perform, PhpAllocateObject. rewrite HT. cbn [mbind option_bind].
  assert (Hsrc : exists s, allocation_source T ty n = Some s /\ forall ty', s = TypeFreeList ty' -> ty' = ty).
  { unfold allocation_source. destruct (Z.eqb_spec (Z.land (TypeFlags T) PH_OBJECT_TYPE_USE_FREE_LIST) 0); simpl.
    - eexists. split; [done|]. intros ty'. by destruct (n <=? PH_OBJECT_SMALL_OBJECT_SIZE).
    - rewrite Hfl, Z.eqb_refl by done. eexists. split; [done|]. by intros ty' [= ->]. }
  destruct Hsrc as (s & -> & Hs). cbn [mbind option_bind]. eexists _, _. split; [done|]. set (b := {| From := s; Of := ty; Counted := false |}).
  apply (inv_call_step dl g _ t stack (allocated g a (set_Flags h (source_flag s)) b) [Allocated a ty]); [done..| | | | |done].
  - intros Q Hc. exists [a]. destruct (core_allocated g dl Q a (set_Flags h (source_flag s)) b Hc Hn) as [Hc' Hext]; [by apply good_flags|done|done|by exists T|done|done|].
    split; [done|]. split; [|done]. apply stack_ok_one. split; [done|]. split.
    + exists (set_Flags h (source_flag s)), b. simpl. rewrite !lookup_insert_eq. split; [done|]. split; [done|]. split; [done|]. split; [apply flags_set|done].
    + destruct (unused_unpublished g a (core_base _ _ _ Hc) Hn) as [Hp _]. exact Hp.
  - done.
  - intros x Hx. left. done.
  - simpl. lia.
Qed.

(** Every call the client may make is defined and keeps the invariant. *)
Lemma inv_call dl g ts t stack c : inv dl (g, ts) -> ts !! t = Some stack -> client stack -> permitted (g, ts) stack c ->
  exists g' stack', perform g stack c = Some (g', stack') /\ inv dl (g', <[t := stack']> ts).
Proof.
  intros Hinv Ht Hcl Hp. pose proof (client_unguarded dl g ts t stack Hinv Ht Hcl) as Hun. pose proof Hinv as (cs0 & Hc0 & _). cbn [fst] in Hc0.
  destruct c as [ty n a h|a|a n|a|a|a n DeferDelete|a|a| |].
  - by apply call_create.
  - destruct Hp as [Hu Hb]. cbn [fst snd] in *. destruct (usable_header g _ _ a Hc0 Hu) as (h & b & Hh & Hbl & Hd & Hcnt & Hr & Ho). unfold perform, PhReferenceObject, update. rewrite Hh.
    cbn [mbind option_bind]. rewrite Hr, u32_id by (unfold in_width; lia). eexists _, _. split; [done|].
    apply (inv_recount dl g ts t stack a (owned g a + 1) h []); [done|done|done|done|done|lia|lia|done].
  - destruct Hp as (Hu & Hn & Hb). cbn [fst snd] in *. destruct (usable_header g _ _ a Hc0 Hu) as (h & b & Hh & Hbl & Hd & Hcnt & Hr & Ho). unfold perform, PhReferenceObjectEx, update.
    replace (n <? 0) with false by lia. rewrite Hh. cbn [mbind option_bind]. rewrite Hr, u32_id by (unfold in_width; lia). eexists _, _. split; [done|].
    apply (inv_recount dl g ts t stack a (owned g a + n) h []); [done|done|done|done|done|lia|lia|done].
  - destruct Hp as [Hpub Hb]. cbn [fst snd] in *. eexists _, _. split; [done|]. apply (inv_call_step dl g ts t stack g [SafeRead a]); [done..| | | | |done].
    + intros Q Hc. exists []. split; [done|]. split; [by apply stack_ok_one|done].
    + done.
    + intros x Hx. left. lia.
    + intros x. simpl. destruct (Z.eqb_spec a x) as [->|]; [done|lia].
  - destruct Hp as [Hty Ho']. cbn [fst snd] in *. destruct (usable_header g _ _ a Hc0 (conj Hty Ho')) as (h & b & Hh & Hbl & Hd & Hcnt & Hr & Ho). unfold perform, PhDereferenceObject, update. rewrite Hh.
    cbn [mbind option_bind]. rewrite Hr, signed_small, u32_id by (unfold in_width; lia). replace (owned g a - 1 <? 0) with false by lia. cbn [mbind option_bind]. eexists _, _. split; [done|].
    destruct (Z.eqb_spec (owned g a - 1) 0) as [E|E].
    + change (owned (set_objects _ _) a) with (owned g a). rewrite E. apply (inv_drop dl g ts t stack a h (Freeing a)); [done|done|done|done|done|by left].
    + apply (inv_recount dl g ts t stack a (owned g a - 1) h []); [done|done|done|done|done|lia|lia|done].
  - destruct Hp as ([Hty Ho'] & Hn). cbn [fst snd] in *. destruct (usable_header g _ _ a Hc0 (conj Hty Ho')) as (h & b & Hh & Hbl & Hd & Hcnt & Hr & Ho). unfold perform, PhDereferenceObjectEx, update.
    replace (n <? 0) with false by lia. rewrite Hh. cbn [mbind option_bind]. rewrite Hr, signed_small, u32_id by (unfold in_width; lia). replace (owned g a - n <? 0) with false by lia.
    destruct (Z.eqb_spec (owned g a - n) 0) as [E|E]; cbn [mbind option_bind]; eexists _, _; (split; [done|]).
    + change (owned (set_objects _ _) a) with (owned g a). rewrite E. destruct DeferDelete; (apply inv_drop; [done|done|done|done|done|]); [by right|by left].
    + apply (inv_recount dl g ts t stack a (owned g a - n) h []); [done|done|done|done|done|lia|lia|done].
  - destruct Hp as ([Hty Ho] & b & T & Hb & HT & Hd). cbn [fst snd] in *. eexists _, _. split; [done|]. apply (inv_call_step dl g ts t stack _ []); [done..| | | |done|done].
    + intros Q Hc. exists []. split; [eapply core_published_add; [done|lia|done..]|]. split; [done|]. split; [done|]. intros x Hx. split; [done|]. split; [done|].
      simpl. intros [->%elem_of_singleton|?]%elem_of_union; [|done]. exfalso. apply (live_out g dl Q a Hc); [lia|]. apply elem_of_app. by right.
    + intros x u st fr _ _ _ _ Hx. simpl. set_solver.
    + intros x Hx. left. done.
  - cbn [permitted fst snd] in *. eexists _, _. split; [done|]. apply (inv_call_step dl g ts t stack _ []); [done..| | | |done|done].
    + intros Q Hc. exists []. split; [by apply core_published_remove|]. split; [done|]. split; [done|]. intros x Hx. split; [done|]. split; [done|]. simpl. set_solver.
    + intros x u st fr _ Hu Hfr Hg Hx. simpl. apply elem_of_difference. split; [done|]. intros ->%elem_of_singleton.
      eapply (proj1 (Forall_forall _ _) (Hp st ltac:(by eapply list_elem_of_lookup_2))); done.
    + intros x Hx. left. done.
  - cbn [permitted] in Hp. destruct stack as [|[] stack]; try done. cbn [fst] in Hp. eexists _, _. split; [done|].
    destruct (inv_step dl g ts t [Deleting a ObjectType] stack Hinv Ht) as (l & Q & Hc & Hst & Hpend & Hput); [by apply Forall_cons in Hun as [_ ?]|].
    destruct Hst as (l1 & l2 & -> & (-> & Hh) & ->). apply Forall_cons in Hun as [_ Hun]. apply (Hput g dl [FreeStorage a ObjectType] [a]); [done| |done|done| |].
    + apply stack_ok_one. split; [done|]. by split.
    + intros x Hx. specialize (Hpend x Hx). simpl. lia.
    + done.
  - destruct Hp as [-> Hw]. cbn [fst snd] in *. eexists _, _. split; [done|]. apply (inv_call_step dl g ts t [] _ [DrainFlush]); [done..| | | | |done].
    + intros Q Hc. exists []. split; [by apply core_work|]. split; [by apply stack_ok_one|done].
    + done.
    + intros x Hx. left. done.
    + simpl. lia.
Qed.

Lemma inv_preserved dl s s' : inv dl s -> step s s' -> exists dl', inv dl' s'.
Proof.
  intros Hinv Hs. revert Hinv. destruct Hs as [g ts t fr stack g' frs Ht Hn|g ts t stack c g' stack' Ht Hcl Hp Hc]; intros Hinv.
  - destruct (inv_next dl g ts t fr stack Hinv Ht) as (g1 & frs1 & dl' & E & Hinv' & _); [by intros a ty ->|]. rewrite Hn in E. injection E as <- <-. eauto.
  - destruct (inv_call dl g ts t stack c Hinv Ht Hcl Hp) as (g1 & stack1 & E & Hinv'). rewrite Hc in E. injection E as <- <-. eauto.
Qed.

(** ** Start-up *)

Lemma create_steps g a h ty n g' : PhCreateObject g a h ty n = Some g' ->
  exists g1 g2, PhpAllocateObject g a h ty n = Some g1 /\ next g1 (Allocated a ty) = Some (g2, [Initializing a ty]) /\ next g2 (Initializing a ty) = Some (g', []).
Proof.
  unfold PhCreateObject. intros H. destruct (PhpAllocateObject g a h ty n) as [g1|]; [|done]. simpl in H. destruct (count_object g1 ty 1) as [g2|] eqn:E2; [|done]. simpl in H.
  destruct (initialize (mark g2 a true) a ty) as [g3|] eqn:E3; [|done]. simpl in H. injection H as <-. exists g1, (mark g2 a true). cbn [next]. by rewrite E2, E3.
Qed.

Lemma created_rest g a h ty n g' : PhCreateObject g a h ty n = Some g' ->
  PhObjectTypeCount g' = PhObjectTypeCount g /\ PhObjectTypeTable g' = PhObjectTypeTable g /\ work g' = work g /\ published g' = published g /\
  PhObjectDeferDeleteListHead g' = PhObjectDeferDeleteListHead g /\ forall t, types g' !! t = None <-> types g !! t = None.
Proof.
  unfold PhCreateObject, PhpAllocateObject, count_object, initialize, update. intros H. destruct (types g !! ty) as [T|] eqn:HT; [|done]. simpl in H. destruct (allocation_source T ty n) as [s|]; [|done]. simpl in H.
  rewrite HT in H. simpl in H. rewrite !lookup_insert_eq in H. simpl in H. injection H as <-. do 5 (split; [done|]). intros t. simpl.
  destruct (decide (t = ty)) as [->|]; [by rewrite lookup_insert_eq, HT|by rewrite lookup_insert_ne].
Qed.

(** No call is under way. *)
Lemma core_idle g dl n : core g dl [] -> Z.of_nat n < 2 ^ 31 - 1 -> inv dl (g, replicate n []).
Proof.
  intros Hc Hn. exists (replicate n []). simpl. assert (E : forall m, concat (replicate m ([] : list Z)) = []) by (induction m; done). rewrite E. split; [done|]. split.
  - by rewrite length_replicate.
  - apply Forall2_replicate. done.
  - intros a Ha. rewrite tally_replicate by done. destruct (core_live g dl [] Hc a ltac:(lia)) as [_ ?]. lia.
  - by apply Forall_replicate.
Qed.

Lemma idle_core g dl ts : inv dl (g, ts) -> Forall (fun stack => stack = []) ts -> core g dl [].
Proof.
  intros (cs & Hc & [_ Hst _ _]) Hts. cbn [fst snd] in *. assert (E : concat cs = []); [|by rewrite E in Hc]. clear Hc.
  induction Hst as [|stack l ts cs Hs Hst IH]; [done|]. apply Forall_cons in Hts as [-> Hts]. simpl in Hs. subst l. by apply IH.
Qed.

Lemma core_create g a h ty n g' : core g [] [] -> fresh g a h -> 0 <= n -> PhCreateObject g a h ty n = Some g' -> core g' [] [].
Proof.
  intros Hc Hf Hn Hg. destruct (create_steps g a h ty n g' Hg) as (g1 & g2 & E1 & E2 & E3). pose proof (core_idle g [] 1 Hc ltac:(done)) as Hinv.
  destruct (inv_call [] g [[]] 0 [] (Create ty n a h) Hinv) as (g1' & st & E & Hinv1); [done|done| |].
  { split; [done|]. split; [done|]. unfold PhpAllocateObject in E1. cbn [fst]. destruct (types g !! ty) as [T|]; [|done]. exists T. split; [done|]. intros Hfl.
    simpl in E1. unfold allocation_source in E1. apply Z.eqb_neq in Hfl. rewrite Hfl in E1. simpl in E1. by destruct (Z.eqb_spec (FreeList T) (PhAddObjectHeaderSize n)). }
  cbn [perform] in E. rewrite E1 in E. simpl in E. injection E as <- <-.
  destruct (inv_next [] g1 [[Allocated a ty]] 0 (Allocated a ty) [] Hinv1) as (g2' & frs & dl2 & E & Hinv2 & _); [done|done|]. rewrite E2 in E. injection E as <- <-.
  destruct (inv_next dl2 g2 [[Initializing a ty]] 0 (Initializing a ty) [] Hinv2) as (g3' & frs & dl3 & E & Hinv3 & _); [done|done|]. rewrite E3 in E. injection E as <- <-.
  pose proof (idle_core g' dl3 [[]] Hinv3 ltac:(by repeat constructor)) as Hc3. destruct (created_rest g a h ty n g' Hg) as (_ & _ & _ & _ & Eh & _).
  pose proof (proj1 (core_list g [] [] Hc)) as H0. simpl in H0. pose proof (proj1 (core_list g' dl3 [] Hc3)) as H3. rewrite Eh in H3. by rewrite (proj1 (links_head 0 _ _ _ H3) H0) in Hc3.
Qed.

(** A new type, which nothing belongs to. *)
Lemma core_add_type g ty T i n : core g [] [] -> types g !! ty = None -> Index T = i -> 0 <= i < 256 -> NumberOfObjects T = 0 ->
  (forall ty' T', types g !! ty' = Some T' -> Index T' <> i) ->
  core (set_table (set_types g (<[ty := T]> (types g))) (<[i := ty]> (PhObjectTypeTable g)) n) [] [].
Proof.
  intros [[B1 B2 B3 B4 B5 B6] Hl Hnd Hdead Hlive Hall Hweak] Hty Hi Hr Hz Hfresh.
  assert (Hsub : forall t, is_Some (types g !! t) -> <[ty := T]> (types g) !! t = types g !! t) by (intros t [T' HT]; rewrite lookup_insert_ne; [done|]; intros ->; congruence).
  assert (Hd : forall h b, described g h b -> described (set_table (set_types g (<[ty := T]> (types g))) (<[i := ty]> (PhObjectTypeTable g)) n) h b).
  { intros h b (T' & HT' & ?). exists T'. split; [|done]. simpl. rewrite Hsub by eauto. done. }
  split; [split| | | | | |]; try done; simpl.
  - intros t T' [[<- <-]|[Hne HT']]%lookup_insert_Some; [by rewrite Hi, lookup_insert_eq|]. rewrite lookup_insert_ne; [by apply B1|]. intros ->. by eapply Hfresh.
  - intros a b Hb. destruct (B3 a b Hb) as [HT Hsrc]. split; [|done]. by rewrite Hsub.
  - intros a Ha. destruct (B5 a Ha) as (b & T' & Hb & HT' & Hdel). exists b, T'. split; [done|]. split; [|done]. rewrite Hsub; eauto.
  - intros t T' [[<- <-]|[Hne HT']]%lookup_insert_Some; [|by apply B6]. rewrite Hz. cut (number ty (storage g) = 0); [by intros ->|].
    apply number_none. intros a b Hb E. destruct (B3 a b Hb) as [[T' HT] _]. congruence.
  - split; [apply Hl|]. intros x Hx. by apply elem_of_nil in Hx.
  - intros a Ha. destruct (Hlive a Ha) as [(h & b & ? & ? & ? & ? & ?) ?]. split; [|done]. exists h, b. split; [done|]. split; [done|]. split; [by apply Hd|done].
Qed.

(** A memory with no call under way, nothing on the list and no weak pointers. *)
Record quiet (g : memory) : Prop := {
  quiet_core : core g [] [];
  quiet_index : forall ty T, types g !! ty = Some T -> 0 <= Index T < PhObjectTypeCount g;
  quiet_count : 0 < PhObjectTypeCount g < 256;
  quiet_work : work g = 0;
}.

Lemma created_types g a h ty n g' : PhCreateObject g a h ty n = Some g' -> same_types g g'.
Proof.
  unfold PhCreateObject, PhpAllocateObject, count_object, initialize, update. intros H. destruct (types g !! ty) as [T|] eqn:HT; [|done]. simpl in H. destruct (allocation_source T ty n) as [s|]; [|done]. simpl in H.
  rewrite HT in H. simpl in H. rewrite !lookup_insert_eq in H. simpl in H. injection H as <-. intros t. simpl.
  destruct (decide (t = ty)) as [->|]; [by rewrite lookup_insert_eq, HT|by rewrite lookup_insert_ne].
Qed.

Lemma quiet_new_type g ot a h Fl d P g' ty : quiet g -> fresh g a h -> PhCreateObjectTypeEx g ot a h Fl d P = Some (g', ty) -> quiet g'.
Proof.
  intros [Hc Hi Hn Hw] Hf. unfold PhCreateObjectTypeEx. destruct (negb _); [done|]. destruct (_ && _); [done|].
  destruct (PhCreateObject g a h ot sizeof_PH_OBJECT_TYPE) as [g1|] eqn:E; [|done]. cbn [mbind option_bind].
  pose proof (core_create g a h ot sizeof_PH_OBJECT_TYPE g1 Hc Hf ltac:(done) E) as Hc1. pose proof (created_types g a h ot _ g1 E) as Hs.
  destruct (created_rest g a h ot _ g1 E) as (En & Et & Ew & _ & _ & Hty). cbv zeta. rewrite En, u32_id by (unfold in_width; lia).
  destruct (Z.leb_spec PH_OBJECT_TYPE_TABLE_SIZE (PhObjectTypeCount g + 1)) as [|Hlt]; [done|]. unfold PH_OBJECT_TYPE_TABLE_SIZE in Hlt. intros [= <- <-].
  assert (Hidx : new_index g1 = PhObjectTypeCount g).
  { unfold new_index. rewrite En, u32_id by (unfold in_width; lia). rewrite u16_id by (unfold in_width; lia). rewrite u8_id by (unfold in_width; lia). lia. }
  assert (Hno : types g1 !! PhAddObjectHeaderSize a = None) by (apply Hty, Hf).
  assert (Hold : forall ty' T', types g1 !! ty' = Some T' -> 0 <= Index T' < PhObjectTypeCount g).
  { intros ty' T' HT'. destruct (type_back g g1 ty' T' Hs HT') as (T & HT & EK). rewrite (kind_index _ _ EK). by eapply Hi. }
  split; simpl; [|intros t T' [[<- <-]|[_ HT']]%lookup_insert_Some|lia|congruence].
  - apply core_add_type; [done|done|done|lia|done|]. intros ty' T' HT'. specialize (Hold ty' T' HT'). lia.
  - simpl. lia.
  - specialize (Hold t T' HT'). lia.
Qed.

Definition first_header (h : PH_OBJECT_HEADER) : PH_OBJECT_HEADER := set_TypeIndex (set_RefCount (set_Flags h 0) 1) 0.
Definition first_type (n : Z) : PH_OBJECT_TYPE := {| TypeFlags := 0; Index := 0; NumberOfObjects := n; DeleteProcedure := false; FreeList := 0 |}.

(** The state of [PhRefInitialization] once the fundamental type is its own type. *)
Definition fundamental (a : Z) (h : PH_OBJECT_HEADER) : memory :=
  let ot := PhAddObjectHeaderSize a in {|
  objects := {[ a := set_TypeIndex (first_header h) 0 ]};
  types := {[ ot := first_type 1 ]}; PhObjectTypeTable := {[ 0 := ot ]}; PhObjectTypeCount := 1; PhObjectDeferDeleteListHead := 0; work := 0;
  storage := {[ a := {| From := Heap; Of := ot; Counted := true |} ]}; references := {[ a := 1 ]}; published := ∅;
|}.

Lemma alloc_first dummy a h : PhpAllocateObject (at_start dummy) a h dummy sizeof_PH_OBJECT_TYPE =
  Some (set_storage (set_objects (at_start dummy) {[ a := set_Flags h 0 ]}) {[ a := {| From := Heap; Of := dummy; Counted := false |} ]}).
Proof. unfold PhpAllocateObject. cbn [types at_start]. rewrite lookup_singleton_eq. reflexivity. Qed.

Lemma create_first dummy a h : PhCreateObject (at_start dummy) a h dummy sizeof_PH_OBJECT_TYPE =
  Some {| objects := {[ a := first_header h ]}; types := {[ dummy := first_type 1 ]}; PhObjectTypeTable := {[ 0 := dummy ]}; PhObjectTypeCount := 0;
          PhObjectDeferDeleteListHead := 0; work := 0; storage := {[ a := {| From := Heap; Of := dummy; Counted := true |} ]}; references := {[ a := 1 ]}; published := ∅ |}.
Proof.
  unfold PhCreateObject. rewrite alloc_first. cbn [mbind option_bind]. unfold count_object. cbn [types set_storage set_objects at_start].
  rewrite lookup_singleton_eq. cbn [mbind option_bind]. rewrite insert_singleton_eq. unfold initialize, mark.
  cbn [types objects set_types set_storage set_objects storage].
  rewrite lookup_singleton_eq. cbn [mbind option_bind]. unfold update. cbn [objects set_types set_storage set_objects]. rewrite lookup_singleton_eq. cbn [mbind option_bind].
  unfold own, set_references. cbn [objects types PhObjectTypeTable PhObjectTypeCount PhObjectDeferDeleteListHead work storage references published set_objects].
  rewrite insert_singleton_eq, alter_singleton_eq. reflexivity.
Qed.

Lemma start_fundamental dummy a h a' h' : PhAddObjectHeaderSize a <> dummy -> PhRefInitialization dummy a h a' h' =
  '(g, PhAllocType) ← PhCreateObjectType (fundamental a h) (PhAddObjectHeaderSize a) a' h' 0 false; Some (g, PhAddObjectHeaderSize a, PhAllocType).
Proof.
  intros Hd. unfold PhRefInitialization. assert (E : PhCreateObjectType (at_start dummy) dummy a h 0 false =
    Some ({| objects := {[ a := first_header h ]}; types := <[PhAddObjectHeaderSize a := first_type 0]> {[ dummy := first_type 1 ]}; PhObjectTypeTable := {[ 0 := PhAddObjectHeaderSize a ]}; PhObjectTypeCount := 1;
          PhObjectDeferDeleteListHead := 0; work := 0; storage := {[ a := {| From := Heap; Of := dummy; Counted := true |} ]}; references := {[ a := 1 ]}; published := ∅ |}, PhAddObjectHeaderSize a)).
  { unfold PhCreateObjectType, PhCreateObjectTypeEx. change (negb _ && _) with false. change (negb (Z.land 0 _ =? 0)) with false. cbn [andb]. rewrite create_first. cbn [mbind option_bind].
    cbv zeta. change (new_index _) with 0. cbn [PhObjectTypeCount]. change (PH_OBJECT_TYPE_TABLE_SIZE <=? _) with false. unfold set_table, set_types.
    cbn [objects types PhObjectTypeTable PhObjectTypeCount PhObjectDeferDeleteListHead work storage references published]. by rewrite insert_singleton_eq. }
  rewrite E. cbn [mbind option_bind types]. rewrite lookup_insert_eq. cbn [mbind option_bind]. unfold update. cbn [objects]. rewrite lookup_singleton_eq. cbn [mbind option_bind]. cbv zeta.
  unfold set_storage, set_types, set_objects. cbn [objects types PhObjectTypeTable PhObjectTypeCount PhObjectDeferDeleteListHead work storage references published].
  rewrite insert_insert_eq, insert_singleton_eq, delete_insert_ne, delete_singleton_eq by done. reflexivity.
Qed.

Lemma quiet_fundamental a h : a <> 0 -> in_width 64 a -> good_header h -> quiet (fundamental a h).
Proof.
  intros Ha0 Ha Hh. assert (Hg : good_header (set_TypeIndex (first_header h) 0)) by (apply good_type, good_type, good_count; [by apply good_flags|done]).
  assert (Hown : forall x, owned (fundamental a h) x = if decide (x = a) then 1 else 0).
  { intros x. unfold owned. cbn [references fundamental]. destruct (decide (x = a)) as [->|]; [by rewrite lookup_singleton_eq|by rewrite lookup_singleton_ne]. }
  assert (Hd : described (fundamental a h) (set_TypeIndex (first_header h) 0) {| From := Heap; Of := PhAddObjectHeaderSize a; Counted := true |}).
  { exists (first_type 1). split; [apply lookup_singleton_eq|]. split; [by apply field_of_set|]. unfold Flags, first_header, set_TypeIndex, set_link, set_RefCount, set_Flags.
    cbn [DeferDeleteListEntry]. rewrite !(field_of_other 16 8 0 16) by lia. by apply field_of_set. }
  split; [| | |done].
  - split; [split| | | | | |].
    + intros ty T H; cbn [types fundamental] in H; apply lookup_singleton_Some in H as [<- <-]. split; [apply lookup_singleton_eq|done].
    + intros x hx H; cbn [objects fundamental] in H; apply lookup_singleton_Some in H as [<- <-]. destruct Hg. done.
    + intros x b H; cbn [storage fundamental] in H; apply lookup_singleton_Some in H as [<- <-]. split; [|done]. eexists. apply lookup_singleton_eq.
    + intros x. cbn [objects storage fundamental]. destruct (decide (x = a)) as [->|]; [by rewrite !lookup_singleton_eq|by rewrite !lookup_singleton_ne].
    + intros x Hx. by apply not_elem_of_empty in Hx.
    + intros ty T H; cbn [types fundamental] in H; apply lookup_singleton_Some in H as [<- <-]. cbn [storage fundamental]. unfold number. 
      rewrite <- insert_empty, map_filter_insert_True, map_filter_empty by (simpl; unfold counts; simpl; by rewrite Z.eqb_refl). by rewrite insert_empty, map_size_singleton.
    + split; [done|]. intros x Hx. by apply elem_of_nil in Hx.
    + apply NoDup_nil_2.
    + intros x Hx. by apply elem_of_nil in Hx.
    + intros x. rewrite Hown. destruct (decide (x = a)) as [->|]; [|done]. intros _. split; [|lia]. exists (set_TypeIndex (first_header h) 0). eexists. split; [apply lookup_singleton_eq|]. split; [apply lookup_singleton_eq|].
      split; [done|]. split; [done|]. rewrite Hown, decide_True by done. done.
    + intros x. rewrite Hown. cbn [objects fundamental]. destruct (decide (x = a)) as [->|].
      * rewrite lookup_singleton_eq. split; [by left|by eauto].
      * rewrite lookup_singleton_ne by done. split; [by intros [? ?]|intros [?|H]; [done|by apply elem_of_nil in H]].
    + intros x hx Hx. by apply elem_of_nil in Hx.
  - intros ty T H; cbn [types fundamental] in H; apply lookup_singleton_Some in H as [<- <-]. done.
  - done.
Qed.

Lemma configured_quiet ot g : configured ot g -> quiet g.
Proof.
  induction 1 as [dummy a h a' h' g t (Ha0 & _ & Hd & Hh1 & Hh2 & Ha) -> (Ha0' & _ & _ & Hh1' & Hh2' & Ha') Hne Hg|g a h Fl d P g' ty _ IH Hf Hg]; [|by eapply quiet_new_type].
  rewrite start_fundamental in Hg by (intros E; rewrite E in Hd; cbn [types at_start] in Hd; by apply lookup_singleton_None in Hd).
  destruct (PhCreateObjectType _ _ _ _ _ _) as [[g1 t1]|] eqn:E; [|done]. injection Hg as <- <-.
  apply (quiet_new_type (fundamental a h) (PhAddObjectHeaderSize a) a' h' 0 false None g1 t1); [by apply quiet_fundamental| |exact E]. split; [done|]. cbn [objects types fundamental]. rewrite lookup_singleton_ne by done. rewrite lookup_singleton_ne by (unfold PhAddObjectHeaderSize; lia). done.
Qed.

(** Every reachable state is in the invariant, with something on the list. *)
Lemma object_reachable_inv n s : Z.of_nat n < 2 ^ 31 - 1 -> reachable n s -> exists dl, inv dl s.
Proof.
  intros Hn (ot & g & Hg & Hr). apply configured_quiet in Hg. assert (H0 : exists dl, inv dl (g, replicate n [])) by (exists []; by apply core_idle; [apply Hg|]).
  induction Hr as [|s1 s2 s3 Hs _ IH]; [done|]. apply IH. destruct H0 as [dl H0]. by eapply inv_preserved.
Qed.

(** ** Safety *)

Lemma stacks_concat g ts cs : Forall2 (stack_ok g) ts cs -> stack_ok g (concat ts) (concat cs).
Proof. induction 1 as [|stack l ts cs Hs _ IH]; [done|]. simpl. apply stack_ok_app. by exists l, (concat cs). Qed.

Lemma stack_ok_frame g st l i fr : stack_ok g st l -> st !! i = Some fr ->
  exists l1 l2 l3, l = l1 ++ l2 ++ l3 /\ stack_ok g (take i st) l1 /\ frame_ok g fr l2 /\ stack_ok g (drop (S i) st) l3.
Proof.
  intros Hs Hi. rewrite <- (take_drop_middle st i fr Hi) in Hs. apply stack_ok_app in Hs as (l1 & l' & -> & H1 & l2 & l3 & -> & Hf & H3). by exists l1, l2, l3.
Qed.

(** Two frames in charge of an object are the same frame. *)
Lemma charge_unique g st l i j a fr fr' : stack_ok g st l -> NoDup l -> st !! i = Some fr -> st !! j = Some fr' ->
  (forall k, frame_ok g fr k -> a ∈ k) -> (forall k, frame_ok g fr' k -> a ∈ k) -> i = j.
Proof.
  assert (Hlt : forall i j fr fr' l, (i < j)%nat -> stack_ok g st l -> NoDup l -> st !! i = Some fr -> st !! j = Some fr' ->
    (forall k, frame_ok g fr k -> a ∈ k) -> (forall k, frame_ok g fr' k -> a ∈ k) -> False).
  { clear. intros i j fr fr' l Hlt Hs Hnd Hi Hj Hf Hf'. destruct (stack_ok_frame g st l i fr Hs Hi) as (l1 & l2 & l3 & -> & _ & H2 & H3).
    destruct (stack_ok_frame g (drop (S i) st) l3 (j - S i) fr' H3) as (m1 & m2 & m3 & -> & _ & H4 & _); [rewrite lookup_drop; by replace (S i + (j - S i))%nat with j by lia|].
    apply NoDup_app in Hnd as (_ & _ & Hnd). apply NoDup_app in Hnd as (_ & Hd & _). apply (Hd a (Hf l2 H2)). set_solver. }
  intros Hs Hnd Hi Hj Hf Hf'. destruct (Nat.lt_trichotomy i j) as [?|[?|?]]; [exfalso; by eapply (Hlt i j)|done|exfalso; by eapply (Hlt j i)].
Qed.

(** C4: No step of the library is undefined: in every state that any number of threads can reach by any interleaving
    of the steps of their calls, every call under way has a next step, which uses no freed block, finds the type of
    the object in the table, and gives a block back to the list that it came from; and every call that the client
    may make can be made. *)
Theorem object_calls_defined n s : Z.of_nat n < 2 ^ 31 - 1 -> reachable n s ->
  (forall fr stack, fr :: stack ∈ s.2 -> ~ client (fr :: stack) -> is_Some (next s.1 fr)) /\
  (forall stack c, stack ∈ s.2 -> client stack -> permitted s stack c -> is_Some (perform s.1 stack c)).
Proof.
  intros Hn Hr. destruct (object_reachable_inv n s Hn Hr) as [dl Hinv]. destruct s as [g ts]. cbn [fst snd] in *. split.
  - intros fr stack [t Ht]%list_elem_of_lookup_1 Hcl. destruct (inv_next dl g ts t fr stack Hinv Ht) as (g' & frs & dl' & E & _); [by intros a ty ->|by eauto].
  - intros stack c [t Ht]%list_elem_of_lookup_1 Hcl Hp. destruct (inv_call dl g ts t stack c Hinv Ht Hcl Hp) as (g' & stack' & E & _). by eauto.
Qed.

(** C5: The count of an object is the number of references that there are to it, at any moment of any interleaving: an
    object that anybody has a reference to is in use, its reference count is the number of references, and
    PhGetObjectType is the type it was created with. A delete procedure that runs for an object is the one of its
    type, it runs once, and nobody has a reference to the object. *)
Theorem object_references_counted n s : Z.of_nat n < 2 ^ 31 - 1 -> reachable n s ->
  (forall a, 0 < owned s.1 a -> exists h b, objects s.1 !! a = Some h /\ storage s.1 !! a = Some b /\ RefCount h = owned s.1 a /\ PhGetObjectType s.1 a = Some (Of b)) /\
  (forall a ty i, concat s.2 !! i = Some (Deleting a ty) -> owned s.1 a = 0 /\ PhGetObjectType s.1 a = Some ty /\
    forall ty' j, concat s.2 !! j = Some (Deleting a ty') -> j = i).
Proof.
  intros Hn Hr. destruct (object_reachable_inv n s Hn Hr) as (dl & cs & Hc & [_ Hst _ _]). destruct s as [g ts]. cbn [fst snd] in *. split.
  - intros a Ha. destruct (core_live g dl _ Hc a ltac:(lia)) as [(h & b & Hh & Hb & Hd & _ & Ho) _]. exists h, b. split; [done|]. split; [done|]. split; [done|].
    unfold PhGetObjectType. rewrite Hh. simpl. by apply (described_index g dl (concat cs)).
  - apply stacks_concat in Hst. intros a ty i Hi. destruct (stack_ok_frame g _ _ i _ Hst Hi) as (l1 & l2 & l3 & E & _ & [-> (h & b & Hh & Hb & <- & Hd & _)] & _).
    split; [|split].
    + apply (core_dead g dl _ Hc). rewrite E. set_solver.
    + unfold PhGetObjectType. rewrite Hh. simpl. by apply (described_index g dl (concat cs)).
    + intros ty' j Hj. pose proof (core_distinct g dl _ Hc) as Hnd. apply NoDup_app in Hnd as (_ & _ & Hnd). apply (charge_unique g _ _ j i a _ _ Hst Hnd Hj Hi); intros k [-> _]; set_solver.
Qed.

(** ** Executions that compute *)

(** Enough of [permitted] for the examples. *)
Definition allowed (s : state) (stack : list frame) (c : call) : bool :=
  let g := s.1 in let usable a := bool_decide (types g !! PhAddObjectHeaderSize a = None) && (0 <? owned g a) in
  match c with
  | Create ObjectType ObjectSize a h =>
      negb (a =? 0) && bool_decide (objects g !! a = None) && bool_decide (types g !! PhAddObjectHeaderSize a = None) &&
      bool_decide (0 <= DeferDeleteListEntry h < 2 ^ 64) && bool_decide (0 <= RefCount h < 2 ^ 32) && bool_decide (0 <= a < 2 ^ 64) && (0 <=? ObjectSize) &&
      match types g !! ObjectType with Some T => (Z.land (TypeFlags T) PH_OBJECT_TYPE_USE_FREE_LIST =? 0) || (FreeList T =? PhAddObjectHeaderSize ObjectSize) | None => false end
  | Reference a => usable a && (owned g a + 1 + Z.of_nat (length s.2) <? 2 ^ 31)
  | ReferenceEx a n => usable a && (0 <=? n) && (owned g a + n + Z.of_nat (length s.2) <? 2 ^ 31)
  | Dereference a => usable a
  | DereferenceEx a n DeferDelete => usable a && (0 <=? n) && (n <=? owned g a)
  | Return => match stack with Deleting a _ :: _ => bool_decide (a ∉ published g) | _ => false end
  | Work => bool_decide (stack = []) && (0 <? work g)
  | _ => false
  end.

Definition is_client (stack : list frame) : bool := match stack with [] | Deleting _ _ :: _ => true | _ => false end.

(** Thread [t] makes a call, or goes on with the one under way. *)
Definition play (s : state) (m : nat * option call) : option state :=
  let '(t, c) := m in
  stack ← s.2 !! t;
  match c with
  | Some c => if is_client stack && allowed s stack c then '(g, stack) ← perform s.1 stack c; Some (g, <[t := stack]> s.2) else None
  | None => match stack with fr :: stack => '(g, frs) ← next s.1 fr; Some (g, <[t := frs ++ stack]> s.2) | [] => None end
  end.

Fixpoint plays (s : state) (ms : list (nat * option call)) : option state :=
  match ms with [] => Some s | m :: ms => s ← play s m; plays s ms end.

Lemma allowed_permitted s stack c : allowed s stack c = true -> permitted s stack c.
Proof.
  unfold allowed, permitted, usable, fresh, in_width. destruct c; try done; rewrite ?andb_true_iff, ?bool_decide_eq_true, ?Z.ltb_lt, ?Z.leb_le.
  - rewrite negb_true_iff, Z.eqb_neq. intros [[[[[[[? ?] ?] ?] ?] ?] ?] HT]. split; [done|]. split; [done|]. destruct (types s.1 !! ObjectType) as [T|]; [|done]. exists T. split; [done|]. intros Hf.
    by apply orb_true_iff in HT as [?%Z.eqb_eq|?%Z.eqb_eq].
  - done.
  - tauto.
  - done.
  - tauto.
  - destruct stack as [|[] ?]; try done. by rewrite bool_decide_eq_true.
  - done.
Qed.

Lemma play_step s m s' : play s m = Some s' -> step s s'.
Proof.
  destruct s as [g ts], m as [t [c|]]; unfold play; cbn [fst snd]; destruct (ts !! t) as [stack|] eqn:Ht; try done; simpl.
  - destruct (is_client stack && _) eqn:E; [|done]. apply andb_true_iff in E as [E1 E2%allowed_permitted]. destruct (perform g stack c) as [[g' stack']|] eqn:Ep; [|done]. intros [= <-].
    eapply step_call; [done| |done|done]. by destruct stack as [|[] ?].
  - destruct stack as [|fr stack]; [done|]. destruct (next g fr) as [[g' frs]|] eqn:En; [|done]. intros [= <-]. by eapply step_next.
Qed.

Lemma plays_steps s ms s' : plays s ms = Some s' -> rtc step s s'.
Proof.
  revert s. induction ms as [|m ms IH]; intros s; simpl; [by intros [= <-]|]. destruct (play s m) as [s1|] eqn:E; [|done]. simpl. intros H. eapply rtc_l; [by apply (play_step s m)|by apply IH].
Qed.

(** A memory after start-up, with the type of memory blocks at 2016 and one with a delete procedure at 3016. *)
Definition sample : option memory :=
  '(g, PhObjectTypeObject, _) ← PhRefInitialization 8 1000 {| DeferDeleteListEntry := 0; RefCount := 0 |} 2000 {| DeferDeleteListEntry := 7; RefCount := 9 |};
  '(g, _) ← PhCreateObjectTypeEx g PhObjectTypeObject 3000 {| DeferDeleteListEntry := 0; RefCount := 0 |} PH_OBJECT_TYPE_USE_FREE_LIST true (Some 24);
  Some g.

Lemma fresh_small g a h : objects g !! a = None -> types g !! PhAddObjectHeaderSize a = None -> 0 < a < 2 ^ 64 ->
  0 <= DeferDeleteListEntry h < 2 ^ 64 -> 0 <= RefCount h < 2 ^ 32 -> fresh g a h.
Proof. intros Ho Ht Ha H1 H2. unfold fresh, in_width. split; [lia|]. split; [exact Ho|]. split; [exact Ht|]. lia. Qed.

Lemma sample_start : match PhRefInitialization 8 1000 {| DeferDeleteListEntry := 0; RefCount := 0 |} 2000 {| DeferDeleteListEntry := 7; RefCount := 9 |} with
  | Some (g, ot, _) => ot = 1016 /\ objects g !! 3000 = None /\ types g !! PhAddObjectHeaderSize 3000 = None | None => True end.
Proof. vm_compute. done. Qed.

Lemma sample_first g t : PhRefInitialization 8 1000 {| DeferDeleteListEntry := 0; RefCount := 0 |} 2000 {| DeferDeleteListEntry := 7; RefCount := 9 |} = Some (g, 1016, t) -> configured 1016 g.
Proof.
  intros E. eapply configured_start; [| | | |exact E]; clear E; [| reflexivity| |lia]; by apply fresh_small.
Qed.

Lemma sample_configured g : sample = Some g -> configured 1016 g.
Proof.
  unfold sample. pose proof sample_start as H0. pose proof sample_first as H1. destruct (PhRefInitialization _ _ _ _ _) as [[[g1 ot] t1]|]; [|intros ?; discriminate].
  cbn [mbind option_bind]. destruct H0 as (-> & Ho & Ht). specialize (H1 g1 t1 eq_refl).
  destruct (PhCreateObjectTypeEx _ _ _ _ _ _ _) as [[g2 ty]|] eqn:E2; [|intros ?; discriminate]. cbn [mbind option_bind]. intros E. injection E as <-.
  eapply configured_type; [exact H1| |exact E2]. clear E2. by apply fresh_small.
Qed.

Definition after (n : nat) (ms : list (nat * option call)) : option state := g ← sample; plays (g, replicate n []) ms.

Lemma played_reachable n ms s : after n ms = Some s -> reachable n s.
Proof.
  unfold after. destruct sample as [g|] eqn:E; [|done]. simpl. intros H. exists 1016, g. split; [by apply sample_configured|by apply (plays_steps _ ms)].
Qed.

(** [n] steps of the calls of thread [t]. *)
Definition steps (t n : nat) : list (nat * option call) := replicate n (t, None).
Definition calls (t : nat) (c : call) (n : nat) : list (nat * option call) := (t, Some c) :: steps t n.

Example create_and_delete : exists s,
  after 1 (calls 0 (Create 3016 24 4000 {| DeferDeleteListEntry := 5; RefCount := 6 |}) 2 ++ calls 0 (Reference 4000) 0 ++ calls 0 (Dereference 4000) 0 ++
           calls 0 (Dereference 4000) 2 ++ calls 0 Return 1) = Some s /\ objects s.1 !! 4000 = None /\ s.2 = [[]].
Proof. vm_compute. eauto. Qed.

(** ** The list of objects to delete *)

(** Frames that come and go in a step of a thread. *)
Definition somewhere (ts : list (list frame)) (fr : frame) : Prop := exists stack, stack ∈ ts /\ fr ∈ stack.

Lemma somewhere_put ts t old new fr : ts !! t = Some old -> somewhere (<[t := new]> ts) fr -> fr ∈ new \/ somewhere ts fr.
Proof.
  intros Ht (stack & [u Hu]%list_elem_of_lookup_1 & Hfr). apply list_lookup_insert_Some in Hu as [(<- & <- & _)|[_ Hu]]; [by left|]. right. exists stack. split; [by eapply list_elem_of_lookup_2|done].
Qed.

Lemma somewhere_at ts t stack fr : ts !! t = Some stack -> fr ∈ stack -> somewhere ts fr.
Proof. intros Ht Hfr. exists stack. split; [by eapply list_elem_of_lookup_2|done]. Qed.

Lemma somewhere_kept ts t old new fr : ts !! t = Some old -> (fr ∈ old -> fr ∈ new) -> somewhere ts fr -> somewhere (<[t := new]> ts) fr.
Proof.
  intros Ht Hkeep (stack & [u Hu]%list_elem_of_lookup_1 & Hfr). pose proof (lookup_lt_Some _ _ _ Ht). destruct (decide (u = t)) as [->|Hne].
  - exists new. split; [|apply Hkeep; congruence]. eapply list_elem_of_lookup_2. by rewrite list_lookup_insert_eq.
  - exists stack. split; [|done]. eapply list_elem_of_lookup_2. by rewrite list_lookup_insert_ne.
Qed.

(** What the steps do to the head of the list and the work items. *)
(** Takes a definition that returned apart. *)
Ltac returned H := unfold mbind, option_bind in H; simpl in H;
  repeat (match type of H with context[match ?x with _ => _ end] =>
    lazymatch x with context[match _ with _ => _ end] => fail | _ => destruct x eqn:?; simpl in H end end; try discriminate H); try discriminate H.

Lemma next_list g fr g' frs : next g fr = Some (g', frs) ->
  match fr with
  | DeferPeek a => PhObjectDeferDeleteListHead g' = PhObjectDeferDeleteListHead g /\ work g' = work g /\ frs = [DeferPush a (PhObjectDeferDeleteListHead g)]
  | DeferPush a old => PhObjectDeferDeleteListHead g' = a /\ work g' = work g /\ frs = if old =? 0 then [DeferQueue] else []
  | DeferQueue => PhObjectDeferDeleteListHead g' = PhObjectDeferDeleteListHead g /\ work g' = work g + 1 /\ frs = []
  | DrainFlush => PhObjectDeferDeleteListHead g' = 0 /\ work g' = work g /\ frs = [DrainNext (PhObjectDeferDeleteListHead g)]
  | _ => PhObjectDeferDeleteListHead g' = PhObjectDeferDeleteListHead g /\ work g' = work g /\
      forall fr', fr' ∈ frs -> fr' <> DeferQueue /\ fr' <> DrainFlush /\ forall a old, fr' <> DeferPush a old
  end.
Proof.
  intros H. destruct fr; cbn [next PhpDeferDeleteObject PhpDeferDeleteObjectRoutine] in H;
    unfold initialize, PhpFreeObject, PhGetObjectType, free_delete, free_storage, increment_positive, count_object, update in H; returned H;
    injection H as <- <-; simpl; try done; (split; [done|split; [done|]]); intros fr' Hin; set_solver.
Qed.

Lemma next_frames g fr g' frs fr' : next g fr = Some (g', frs) -> fr' ∈ frs ->
  fr' <> DrainFlush /\ (fr' = DeferQueue -> exists a, fr = DeferPush a 0) /\ forall a old, fr' = DeferPush a old -> fr = DeferPeek a /\ old = PhObjectDeferDeleteListHead g.
Proof.
  intros Hn Hin. pose proof (next_list g fr g' frs Hn) as Hl. clear Hn. destruct fr; destruct Hl as (_ & _ & Hl);
    try (destruct (Hl fr' Hin) as (? & ? & Hno); split; [done|]; split; [done|]; intros x old ->; exfalso; by apply (Hno x old)).
  - rewrite Hl, list_elem_of_singleton in Hin. subst fr'. split; [done|]. split; [done|]. by intros ? ? [= <- <-].
  - destruct (Z.eqb_spec oldFirstEntry 0) as [->|]; subst frs; [|by apply elem_of_nil in Hin]. apply list_elem_of_singleton in Hin as ->. split; [done|]. split; [eauto|done].
  - subst frs. by apply elem_of_nil in Hin.
  - rewrite Hl, list_elem_of_singleton in Hin. by subst fr'.
Qed.

Lemma perform_list g stack c g' stack' : client stack -> perform g stack c = Some (g', stack') ->
  PhObjectDeferDeleteListHead g' = PhObjectDeferDeleteListHead g /\
  ((work g' = work g /\ forall fr, fr = DeferQueue \/ fr = DrainFlush \/ (exists a old, fr = DeferPush a old) -> fr ∈ stack' <-> fr ∈ stack) \/
  (c = Work /\ work g' = work g - 1 /\ stack' = [DrainFlush])).
Proof.
  intros Hcl H. destruct c; cbn [perform] in H;
    unfold PhpAllocateObject, PhReferenceObject, PhReferenceObjectEx, PhDereferenceObject, PhDereferenceObjectEx, update in H; returned H;
    injection H as <- <-; simpl; (split; [done|]); try (by right); left; (split; [done|]); intros fr Hfr; set_solver.
Qed.

(** The head is not empty, and there is nobody to empty the list and nobody to call for it. *)
Definition stalled (s : state) : Prop :=
  PhObjectDeferDeleteListHead s.1 <> 0 /\ work s.1 = 0 /\
  forall fr, somewhere s.2 fr -> fr <> DeferQueue /\ fr <> DrainFlush /\ forall a, fr <> DeferPush a 0.

Lemma inv_head dl s : inv dl s -> PhObjectDeferDeleteListHead s.1 = 0 <-> dl = [].
Proof. intros (cs & Hc & _). eapply (links_head 0). apply (core_list _ _ _ Hc). Qed.

Lemma stalled_step dl s s' : inv dl s -> stalled s -> step s s' -> stalled s' /\ exists x, inv (x ++ dl) s'.
Proof.
  intros Hinv (Hh & Hw & Hno) Hs. rewrite (inv_head dl s Hinv) in Hh. revert Hinv Hw Hno. destruct Hs as [g ts t fr stack g' frs Ht Hn|g ts t stack c g' stack' Ht Hcl Hp Hc]; cbn [fst snd]; intros Hinv Hw Hno.
  - destruct (inv_next dl g ts t fr stack Hinv Ht) as (g1 & frs1 & dl' & E & Hinv' & Hgrew); [by intros a ty ->|]. rewrite Hn in E. injection E as <- <-.
    pose proof (Hno fr ltac:(eapply somewhere_at; [done|left])) as (Hq & Hf & Hp). destruct Hgrew as [->|[x ->]]; [done|]. split; [|by exists x].
    pose proof (next_list g fr g' frs Hn) as Hl. split; [|split].
    + rewrite (inv_head (x ++ dl) _ Hinv'). by destruct x.
    + destruct fr; destruct Hl as (_ & ? & _); try done; cbn [fst]; congruence.
    + intros fr' Hfr'. cbn [snd] in Hfr'. destruct (somewhere_put _ t _ _ fr' Ht Hfr') as [Hin|?]; [|by apply Hno].
      apply elem_of_app in Hin as [Hin|Hin]; [|apply Hno; eapply somewhere_at; [exact Ht|by right]].
      assert (Hhd : PhObjectDeferDeleteListHead g <> 0) by (intros E; by apply (inv_head dl (g, ts) Hinv) in E).
      destruct (next_frames g fr g' frs fr' Hn Hin) as (? & Hq' & Hp'). split; [intros E; destruct (Hq' E) as [a ->]; by apply (Hp a)|]. split; [done|]. intros a E. destruct (Hp' a 0 E) as [_ E0]. by apply Hhd.
  - destruct (inv_call dl g ts t stack c Hinv Ht Hcl Hp) as (g1 & stack1 & E & Hinv'). rewrite Hc in E. injection E as <- <-. split; [|by exists []].
    destruct (perform_list g stack c g' stack' Hcl Hc) as (Eh & [[Ew Hfr]|(-> & _)]); [|destruct Hp as [_ ?]; cbn [fst] in *; lia].
    split; [by rewrite (inv_head dl _ Hinv')|]. split; [cbn [fst]; congruence|]. intros fr' Hfr'. cbn [snd] in Hfr'. destruct (somewhere_put _ t _ _ fr' Ht Hfr') as [Hin|?]; [|by apply Hno].
    assert (Hback : fr' ∈ stack -> fr' <> DeferQueue /\ fr' <> DrainFlush /\ forall a, fr' <> DeferPush a 0) by (intros; apply Hno; by eapply somewhere_at). naive_solver.
Qed.

Lemma stalled_steps dl s s' : inv dl s -> stalled s -> rtc step s s' -> stalled s' /\ exists x, inv (x ++ dl) s'.
Proof.
  intros Hinv Hst Hr. revert dl Hinv Hst. induction Hr as [s|s1 s2 s3 Hs _ IH]; intros dl Hinv Hst; [split; [done|by exists []]|].
  destruct (stalled_step dl s1 s2 Hinv Hst Hs) as [Hst' [x Hinv']]. destruct (IH _ Hinv' Hst') as [? [y ?]]. split; [done|]. exists (y ++ x). by rewrite <- app_assoc.
Qed.

(** What is on the list is in use, and nobody's. *)
Lemma listed dl s a : inv dl s -> a ∈ dl -> is_Some (objects s.1 !! a) /\ owned s.1 a = 0 /\ forall ty, ~ somewhere s.2 (Deleting a ty).
Proof.
  intros (cs & Hc & [_ Hst _ _]) Ha. split; [|split].
  - apply (core_all _ _ _ Hc). right. set_solver.
  - apply (core_dead _ _ _ Hc). set_solver.
  - intros ty (stack & Hin & Hd). apply stacks_concat in Hst. assert (H : Deleting a ty ∈ concat s.2) by (apply list_elem_of_In, in_concat; exists stack; by rewrite <- !list_elem_of_In).
    apply list_elem_of_lookup_1 in H as [i Hi]. destruct (stack_ok_frame _ _ _ i _ Hst Hi) as (l1 & l2 & l3 & E & _ & [-> _] & _).
    pose proof (core_distinct _ _ _ Hc) as Hnd. apply NoDup_app in Hnd as (_ & Hd' & _). apply (Hd' a Ha). rewrite E. set_solver.
Qed.

(** The work item empties the list between the test for an empty list and the push of the second object. *)
Definition stalling : list (nat * option call) :=
  calls 0 (Create 2016 32 4000 {| DeferDeleteListEntry := 5; RefCount := 6 |}) 2 ++ calls 0 (Create 2016 32 5000 {| DeferDeleteListEntry := 0; RefCount := 0 |}) 2 ++
  calls 0 (DereferenceEx 4000 1 true) 6 ++ calls 0 (DereferenceEx 5000 1 true) 4 ++ calls 1 Work 6 ++ steps 0 1.

Lemma stalling_after : exists s, after 2 stalling = Some s /\ s.2 = [[]; []] /\ work s.1 = 0 /\ PhObjectDeferDeleteListHead s.1 = 5000.
Proof. vm_compute. eauto. Qed.

(** C14: A deferred deletion can be forgotten for good. PhpDeferDeleteObject looks whether the list is empty before it
    pushes; if a work item empties the list in between, the object is pushed onto an empty list and no work item is
    queued. The execution shown ends with both threads idle; and from there on, whatever the threads do, no work item
    is ever queued, and the object, which nobody has a reference to, is never deleted. The same holds for all objects
    that are deferred afterwards, since they find the list not empty. *)
Theorem deferred_delete_stalls : exists s a, reachable 2 s /\ Forall (fun stack => stack = []) s.2 /\
  forall s', rtc step s s' -> work s'.1 = 0 /\ is_Some (objects s'.1 !! a) /\ owned s'.1 a = 0 /\ forall ty, ~ somewhere s'.2 (Deleting a ty).
Proof.
  destruct stalling_after as (s & E & Ets & Ew & Eh). pose proof (played_reachable 2 _ s E) as Hr. clear E. exists s, 5000. split; [done|]. split; [rewrite Ets; by repeat constructor|].
  destruct (object_reachable_inv 2 s ltac:(done) Hr) as [dl Hinv]. intros s' Hs. assert (Hst : stalled s).
  { split; [by rewrite Eh|]. split; [done|]. intros fr (stack & Hin & Hfr). rewrite Ets, !elem_of_cons, elem_of_nil in Hin. destruct Hin as [->|[->|[]]]; by apply elem_of_nil in Hfr. }
  assert (Hdl : 5000 ∈ dl).
  { destruct Hinv as (cs & Hc & _). destruct (core_list _ _ _ Hc) as [Hl _]. rewrite Eh in Hl. destruct dl as [|x dl]; [done|]. simpl in Hl. destruct Hl as [<- _]. left. }
  destruct (stalled_steps dl s s' Hinv Hst Hs) as [(_ & Hw & _) [x Hinv']]. split; [done|]. apply (listed (x ++ dl)); [done|]. apply elem_of_app. by right.
Qed.

(** Steps but for those that empty the list while a thread is between the test and the push. *)
Definition orderly (s s' : state) : Prop := step s s' /\
  (PhObjectDeferDeleteListHead s.1 <> 0 -> PhObjectDeferDeleteListHead s'.1 = 0 -> forall a old, ~ somewhere s.2 (DeferPush a old)).

(** If the list is not empty somebody will call for it, or has. *)
Definition promised (s : state) : Prop :=
  (PhObjectDeferDeleteListHead s.1 <> 0 -> 0 < work s.1 \/ exists fr, (fr = DeferQueue \/ fr = DrainFlush) /\ somewhere s.2 fr) /\
  (forall a old, somewhere s.2 (DeferPush a old) -> old <> 0 -> PhObjectDeferDeleteListHead s.1 <> 0) /\ 0 <= work s.1.

Lemma promised_put (g g' : memory) ts t old new : ts !! t = Some old -> promised (g, ts) -> 0 <= work g' ->
  (PhObjectDeferDeleteListHead g' <> 0 -> PhObjectDeferDeleteListHead g <> 0) -> (PhObjectDeferDeleteListHead g <> 0 -> PhObjectDeferDeleteListHead g' <> 0) -> work g <= work g' ->
  (forall fr, fr = DeferQueue \/ fr = DrainFlush -> fr ∈ old -> fr ∈ new) ->
  (forall a x, DeferPush a x ∈ new -> DeferPush a x ∈ old \/ x = PhObjectDeferDeleteListHead g) -> promised (g', <[t := new]> ts).
Proof.
  intros Ht (P1 & P2 & _) Hw H1 H2 Hle Hkeep Hnew. cbn [fst snd] in *. split; [|split; [|done]]; cbn [fst snd].
  - intros Hh. destruct (P1 (H1 Hh)) as [?|(fr & Hfr & Hs)]; [left; lia|]. right. exists fr. split; [done|]. eapply somewhere_kept; [done|by apply Hkeep|done].
  - intros a x Hs Hx. apply H2. destruct (somewhere_put _ _ _ _ _ Ht Hs) as [Hin|]; [|by eapply P2]. destruct (Hnew a x Hin) as [?| ->]; [|done]. eapply P2; [by eapply somewhere_at|done].
Qed.

Lemma inv_pushing dl g ts t a old stack : inv dl (g, ts) -> ts !! t = Some (DeferPush a old :: stack) -> a <> 0.
Proof.
  intros (cs & Hc & [_ Hst _ _]) Ht. cbn [fst snd] in *. destruct (Forall2_lookup_l _ _ _ _ _ Hst Ht) as (l & _ & l1 & l2 & _ & (_ & h & b & Hh & _) & _).
  apply (base_header g (core_base _ _ _ Hc) a h Hh).
Qed.

Lemma promised_next dl g ts t fr stack g' frs : inv dl (g, ts) -> promised (g, ts) -> ts !! t = Some (fr :: stack) -> next g fr = Some (g', frs) ->
  (PhObjectDeferDeleteListHead g <> 0 -> PhObjectDeferDeleteListHead g' = 0 -> forall a old, ~ somewhere ts (DeferPush a old)) -> promised (g', <[t := frs ++ stack]> ts).
Proof.
  intros Hinv Hp Ht Hn Ho. pose proof (next_list g fr g' frs Hn) as Hl. pose proof Hp as (P1 & P2 & P3). cbn [fst snd] in *.
  assert (Hplain : PhObjectDeferDeleteListHead g' = PhObjectDeferDeleteListHead g -> work g' = work g -> fr <> DeferQueue -> fr <> DrainFlush -> promised (g', <[t := frs ++ stack]> ts)).
  { intros Eh Ew Hq Hf. apply (promised_put g g' ts t (fr :: stack)); [done|done|lia|by rewrite Eh|by rewrite Eh|lia| |].
    - intros x Hx Hin. apply elem_of_cons in Hin as [->|Hin]; [by destruct Hx|]. apply elem_of_app. by right.
    - intros a x Hin. apply elem_of_app in Hin as [Hin|?]; [|left; by right]. right. destruct (next_frames g fr g' frs (DeferPush a x) Hn Hin) as (_ & _ & Hx). by apply (Hx a x eq_refl). }
  destruct fr; try (destruct Hl as (? & ? & _); by apply Hplain); clear Hplain.
  - destruct Hl as (Eh & Ew & ->). split; [|split; [|cbn [fst]; lia]]; cbn [fst snd].
    + intros _. destruct (Z.eqb_spec oldFirstEntry 0) as [->|Hne].
      * right. exists DeferQueue. split; [by left|]. exists ([DeferQueue] ++ stack). split; [|left]. eapply list_elem_of_lookup_2. rewrite list_lookup_insert_eq; [done|by eapply lookup_lt_Some].
      * destruct (P1 (P2 a oldFirstEntry ltac:(eapply somewhere_at; [exact Ht|left]) Hne)) as [?|(fr & Hfr & Hs)]; [left; lia|]. right. exists fr. split; [done|].
        eapply somewhere_kept; [done| |done]. intros Hin. apply elem_of_cons in Hin as [->|Hin]; [by destruct Hfr|done].
    + intros a' old _ _. rewrite Eh. by apply (inv_pushing dl g ts t a oldFirstEntry stack).
  - destruct Hl as (Eh & Ew & ->). split; [|split; [|cbn [fst]; lia]]; cbn [fst snd]; [intros _; left; lia|]. intros a x Hs. rewrite Eh. apply (P2 a). destruct (somewhere_put _ _ _ _ _ Ht Hs) as [Hin|]; [|done]. eapply somewhere_at; [exact Ht|by right].
  - destruct Hl as (Eh & Ew & ->). split; [cbn [fst]; by rewrite Eh|split; [|cbn [fst]; lia]]; cbn [fst snd]. intros a x Hs Hx. exfalso.
    assert (Hs' : somewhere ts (DeferPush a x)) by (destruct (somewhere_put _ _ _ _ _ Ht Hs) as [Hin|]; [|done]; apply elem_of_cons in Hin as [?|?]; [done|]; eapply somewhere_at; [exact Ht|by right]). by apply (Ho (P2 a x Hs' Hx) Eh a x).
Qed.

Lemma promised_step dl s s' : inv dl s -> promised s -> orderly s s' -> promised s'.
Proof.
  intros Hinv Hp [Hs Ho]. revert Hinv Hp Ho. destruct Hs as [g ts t fr stack g' frs Ht Hn|g ts t stack c g' stack' Ht Hcl Hpc Hc]; cbn [fst snd]; intros Hinv Hp Ho; [by eapply promised_next|].
  destruct (perform_list g stack c g' stack' Hcl Hc) as (Eh & [[Ew Hfr]|(-> & Ew & ->)]).
  - apply (promised_put g g' ts t stack); [done|done|rewrite Ew; apply Hp|by rewrite Eh|by rewrite Eh|lia| |].
    + intros fr [-> | ->] ?; apply Hfr; auto.
    + intros a x Hin. left. apply Hfr; eauto.
  - destruct Hpc as [-> Hpos], Hp as (_ & P2 & _). cbn [fst snd] in *. pose proof (lookup_lt_Some _ _ _ Ht). split; [|split; [|cbn [fst]; lia]]; cbn [fst snd].
    + intros _. right. exists DrainFlush. split; [by right|]. exists [DrainFlush]. split; [|left]. eapply list_elem_of_lookup_2. by rewrite list_lookup_insert_eq.
    + intros a old Hs. rewrite Eh. apply (P2 a). destruct (somewhere_put _ _ _ _ _ Ht Hs) as [Hin|]; [|done]. by apply list_elem_of_singleton in Hin.
Qed.

(** By orderly steps, from any configuration. *)
Definition orderly_reachable (n : nat) (s : state) : Prop := exists ot g, configured ot g /\ rtc orderly (g, replicate n []) s.

Lemma orderly_inv n s : Z.of_nat n < 2 ^ 31 - 1 -> orderly_reachable n s -> promised s /\ exists dl, inv dl s.
Proof.
  intros Hn (ot & g & Hg & Hr). apply configured_quiet in Hg. pose proof (core_idle g [] n (quiet_core g Hg) Hn) as H0.
  assert (H : promised (g, replicate n []) /\ exists dl, inv dl (g, replicate n [])).
  { split; [|by eauto]. pose proof (proj2 (inv_head _ _ H0) eq_refl) as E0. cbn [fst] in E0. split; [done|]. split; [|cbn [fst]; by rewrite (quiet_work g Hg)].
    intros a old (stack & Hin & Hfr). apply elem_of_replicate_inv in Hin as ->. by apply elem_of_nil in Hfr. }
  clear H0. induction Hr as [|s1 s2 s3 Hs _ IH]; [done|]. apply IH. destruct H as [Hp [dl Hi]]. split; [by eapply promised_step|]. destruct Hs as [Hs _]. by eapply inv_preserved.
Qed.

(** The number of blocks of a type, if all are counted. *)
Lemma number_typed g ty : (forall a b, storage g !! a = Some b -> Counted b = true /\ PhGetObjectType g a = Some (Of b)) -> (forall a, is_Some (objects g !! a) <-> is_Some (storage g !! a)) ->
  number ty (storage g) = Z.of_nat (size (filter (fun a => PhGetObjectType g a = Some ty) (dom (objects g)))).
Proof.
  intros Hall Hdom. unfold number. rewrite <- size_dom. do 2 f_equal. apply set_eq. intros a. rewrite elem_of_dom, elem_of_filter, elem_of_dom, Hdom. split.
  - intros [b Hb]. apply map_lookup_filter_Some in Hb as [Hb Hc]. unfold counts in Hc. cbn [snd] in Hc. apply andb_true_iff in Hc as [Ho%Z.eqb_eq _]. destruct (Hall a b Hb) as [_ ->]. rewrite Ho. split; [done|by eexists].
  - intros [Ht [b Hb]]. destruct (Hall a b Hb) as [Hc E]. exists b. apply map_lookup_filter_Some. split; [done|]. unfold counts. cbn [snd]. rewrite Hc, andb_true_r. apply Z.eqb_eq. congruence.
Qed.

(** C13: No object is leaked by an execution in which no work item empties the list between the test and the push of
    PhpDeferDeleteObject: whenever no call is under way and no work item is queued, the list of objects to delete is
    empty, the objects in use are exactly those that somebody has a reference to, and PhGetObjectTypeInformation
    tells how many objects there are that PhGetObjectType says are of the type. *)
Theorem deferred_deletes_complete n s : Z.of_nat n < 2 ^ 31 - 1 -> orderly_reachable n s -> Forall (fun stack => stack = []) s.2 -> work s.1 = 0 ->
  PhObjectDeferDeleteListHead s.1 = 0 /\ (forall a, is_Some (objects s.1 !! a) <-> 0 < owned s.1 a) /\
  forall ty I, PhGetObjectTypeInformation s.1 ty = Some I -> InfoNumberOfObjects I = u32 (Z.of_nat (size (filter (fun a => PhGetObjectType s.1 a = Some ty) (dom (objects s.1))))).
Proof.
  intros Hn Hr Hidle Hw. destruct (orderly_inv n s Hn Hr) as [(P1 & _) [dl Hinv]].
  assert (Hh : PhObjectDeferDeleteListHead s.1 = 0).
  { destruct (decide (PhObjectDeferDeleteListHead s.1 = 0)) as [|Hne]; [done|]. destruct (P1 Hne) as [?|(fr & _ & stack & Hin & Hfr)]; [lia|].
    rewrite Forall_forall in Hidle. rewrite (Hidle stack Hin) in Hfr. by apply elem_of_nil in Hfr. }
  split; [done|]. apply (inv_head dl s Hinv) in Hh as ->. destruct s as [g ts]. pose proof (idle_core g [] ts Hinv Hidle) as Hc. cbn [fst snd] in *.
  assert (Hlive : forall a, is_Some (objects g !! a) <-> owned g a <> 0) by (intros a; rewrite (core_all _ _ _ Hc a), elem_of_nil; tauto). split.
  - intros a. rewrite Hlive. split; [apply (core_live _ _ _ Hc)|lia].
  - intros ty I HI. unfold PhGetObjectTypeInformation in HI. destruct (types g !! ty) as [T|] eqn:HT; [|done]. injection HI as <-. cbn [InfoNumberOfObjects]. rewrite (base_number g (core_base _ _ _ Hc) ty T HT). f_equal. apply number_typed; [|apply (core_base _ _ _ Hc)].
    intros a b Hb. assert (Ho : owned g a <> 0) by (apply Hlive, (base_blocks g (core_base _ _ _ Hc)); eauto). destruct (core_live _ _ _ Hc a Ho) as [(h & b' & Hh & Hb' & Hd & Hcnt & _) _].
    assert (b' = b) as -> by congruence. split; [done|]. unfold PhGetObjectType. rewrite Hh. simpl. by apply (described_index g [] []).
Qed.

(** ** One thread alone

    A dereference to its end, with delete procedures that do nothing. *)

Fixpoint finish (n : nat) (g : memory) (stack : list frame) : ub memory :=
  match stack, n with
  | [], _ => Some g
  | _, O => None
  | Deleting a ObjectType :: stack, S n => finish n g (FreeStorage a ObjectType :: stack)
  | fr :: stack, S n => '(g, frs) ← next g fr; finish n g (frs ++ stack)
  end.

(** Four steps are those of a deletion. *)
Definition dereference_alone (g : memory) (a : Z) : ub memory := '(g, stack) ← perform g [] (Dereference a); finish 4 g stack.

(** Idle, with no weak pointers. *)
Definition idle (g : memory) : Prop := (exists dl, core g dl []) /\ published g = ∅.

(** A type is nobody's to give back. *)
Definition held (g : memory) (a : Z) : Z := if decide (types g !! PhAddObjectHeaderSize a = None) then owned g a else 0.

Lemma held_nonneg g a : idle g -> 0 <= held g a.
Proof. intros [[dl Hc] _]. unfold held. destruct (decide _); [|done]. destruct (decide (owned g a = 0)) as [->|Hne]; [done|]. pose proof (core_live g dl [] Hc a Hne). lia. Qed.

(** What the steps of a deletion leave alone. *)
Definition leaves (g g' : memory) : Prop := references g' = references g /\ published g' = published g /\ forall t, types g' !! t = None <-> types g !! t = None.

Lemma leaves_trans g1 g2 g3 : leaves g1 g2 -> leaves g2 g3 -> leaves g1 g3.
Proof. intros (E1 & E2 & E3) (F1 & F2 & F3). split; [congruence|]. split; [congruence|]. intros t. by rewrite F3. Qed.

Lemma next_freeing g a g' frs : next g (Freeing a) = Some (g', frs) -> leaves g g' /\ exists ty, frs = [FreeDelete a ty].
Proof.
  intros H. cbn [next] in H. unfold PhpFreeObject, PhGetObjectType, count_object in H. returned H. injection H as <- <-. split; [|eauto]. split; [done|]. split; [done|]. intros t. cbn [types mark set_types set_storage].
  match goal with |- <[?z := _]> _ !! _ = _ <-> _ => destruct (decide (t = z)) as [->|] end; [rewrite lookup_insert_eq; split; congruence|by rewrite lookup_insert_ne].
Qed.

Lemma next_free_delete g a ty g' frs : next g (FreeDelete a ty) = Some (g', frs) -> g' = g /\ (frs = [Deleting a ty] \/ frs = [FreeStorage a ty]).
Proof. intros H. cbn [next] in H. unfold free_delete in H. returned H; injection H as <- <-; auto. Qed.

Lemma next_free_storage g a ty g' frs : next g (FreeStorage a ty) = Some (g', frs) -> leaves g g' /\ frs = [].
Proof. intros H. cbn [next] in H. unfold free_storage in H. returned H; injection H as <- <-; done. Qed.

(** The rest of a deletion with no other thread. *)
Lemma finish_freeing dl g a : inv dl (g, [[Freeing a]]) -> published g = ∅ -> exists g' dl', finish 4 g [Freeing a] = Some g' /\ core g' dl' [] /\ leaves g g'.
Proof.
  intros Hinv Hp. destruct (inv_next dl g _ 0 _ [] Hinv eq_refl ltac:(done)) as (g1 & frs & dl1 & E1 & Hinv1 & _). destruct (next_freeing g a g1 frs E1) as [L1 [ty ->]]. cbn [app list_insert] in Hinv1.
  destruct (inv_next dl1 g1 _ 0 _ [] Hinv1 eq_refl ltac:(done)) as (g2 & frs & dl2 & E2 & Hinv2 & _). destruct (next_free_delete g1 a ty g2 frs E2) as [-> Hfrs].
  assert (H3 : exists dl3, inv dl3 (g1, [[FreeStorage a ty]])).
  { destruct Hfrs as [-> | ->]; [|by eexists]. destruct (inv_call dl2 g1 _ 0 _ Return Hinv2 eq_refl I) as (g3 & st & E & Hinv3); [|cbn [perform] in E; injection E as <- <-; by eexists].
    cbn. destruct L1 as (_ & -> & _). rewrite Hp. apply not_elem_of_empty. }
  destruct H3 as [dl3 Hinv3]. destruct (inv_next dl3 g1 _ 0 _ [] Hinv3 eq_refl ltac:(done)) as (g4 & frs4 & dl4 & E4 & Hinv4 & _). destruct (next_free_storage g1 a ty g4 frs4 E4) as [L4 ->].
  exists g4, dl4. split; [|split; [by apply (idle_core g4 dl4 [[]] Hinv4); repeat constructor|by eapply leaves_trans]].
  cbn [finish]. rewrite E1. cbn [mbind option_bind app]. rewrite E2. cbn [mbind option_bind]. destruct Hfrs as [-> | ->]; cbn [app]; by rewrite E4.
Qed.

Lemma perform_dereference g a g1 st : perform g [] (Dereference a) = Some (g1, st) ->
  (st = [] \/ st = [Freeing a]) /\ published g1 = published g /\ types g1 = types g /\ forall x, owned g1 x = owned g x - (if decide (x = a) then 1 else 0).
Proof.
  intros H. cbn [perform] in H. unfold PhDereferenceObject, update in H. returned H; injection H as <- <-; (split; [auto|]); (split; [done|]); (split; [done|]); intros x; rewrite owned_own; destruct (decide (x = a)) as [->|]; unfold owned; cbn [references set_objects]; lia.
Qed.

(** Giving a reference back. *)
Lemma dereference_alone_held g a : idle g -> 0 < held g a ->
  exists g', dereference_alone g a = Some g' /\ idle g' /\ forall x, held g' x = held g x - (if decide (x = a) then 1 else 0).
Proof.
  intros [[dl Hc] Hp] Ha. unfold held in Ha. destruct (decide (types g !! PhAddObjectHeaderSize a = None)) as [Ht|]; [|lia].
  pose proof (core_idle g dl 1 Hc ltac:(done)) as Hinv. destruct (inv_call dl g [[]] 0 [] (Dereference a) Hinv eq_refl I) as (g1 & st & E & Hinv1); [by split|].
  destruct (perform_dereference g a g1 st E) as (Hst & Ep & Et & Eo). unfold dereference_alone. rewrite E. cbn [mbind option_bind].
  assert (H2 : exists g2 dl2, finish 4 g1 st = Some g2 /\ core g2 dl2 [] /\ leaves g1 g2).
  { destruct Hst as [-> | ->]; [|apply (finish_freeing dl); [done|congruence]]. exists g1, dl. split; [done|]. split; [apply (idle_core g1 dl [[]] Hinv1); by repeat constructor|done]. }
  destruct H2 as (g2 & dl2 & E2 & Hc2 & L1 & L2 & L3). exists g2. split; [done|]. split; [split; [by eexists|congruence]|].
  intros x. unfold held, owned. rewrite L1. specialize (L3 (PhAddObjectHeaderSize x)). specialize (Eo x). unfold owned in Eo. rewrite Eo. rewrite Et in L3.
  destruct (decide (types g2 !! _ = None)), (decide (types g !! _ = None)); try tauto. destruct (decide (x = a)); [|lia]. subst x. done.
Qed.

(** PhReferenceObject by a thread alone, for an object that the client has a reference to. *)
Definition reference_alone (g : memory) (a : Z) : ub memory := '(g, _) ← perform g [] (Reference a); Some g.

Lemma reference_alone_held g a : idle g -> 0 < held g a -> held g a + 2 < 2 ^ 31 ->
  exists g', reference_alone g a = Some g' /\ idle g' /\ forall x, held g' x = held g x + (if decide (x = a) then 1 else 0).
Proof.
  intros [[dl Hc] Hp] Ha Hlt. unfold held in Ha, Hlt. destruct (decide (types g !! PhAddObjectHeaderSize a = None)) as [Ht|]; [|lia].
  pose proof (core_idle g dl 1 Hc ltac:(done)) as Hinv. destruct (inv_call dl g [[]] 0 [] (Reference a) Hinv eq_refl I) as (g1 & st & E & Hinv1); [split; [by split|cbn [fst snd length]; lia]|].
  unfold reference_alone. rewrite E. cbn [perform] in E. unfold PhReferenceObject, update in E. returned E. injection E as <- <-. cbn [mbind option_bind]. eexists. split; [done|].
  split; [split; [exists dl; apply (idle_core _ dl [[]] Hinv1); by repeat constructor|done]|].
  intros x. unfold held. rewrite owned_own. cbn [types own set_references set_objects]. destruct (decide (types g !! _ = None)), (decide (x = a)) as [->|]; unfold owned; cbn [references set_objects]; try done; try lia.
Qed.

(** ** Examples *)

(** A second thread between the test and the push. *)
Lemma pushing_after : exists s, after 2 (take 18 stalling) = Some s /\ s.2 = [[DeferPush 5000 4000]; []].
Proof. vm_compute. eauto. Qed.

Lemma object_calls_defined_witness : exists s, after 2 (take 18 stalling) = Some s /\ is_Some (next s.1 (DeferPush 5000 4000)).
Proof.
  destruct pushing_after as (s & E & Ets). exists s. split; [exact E|].
  refine (proj1 (object_calls_defined 2 s _ (played_reachable 2 _ s E)) (DeferPush 5000 4000) [] _ _); [reflexivity| |exact (fun H => H)]. rewrite Ets. left.
Defined.

Lemma referenced_after : exists s, after 1 (calls 0 (Create 3016 24 4000 {| DeferDeleteListEntry := 5; RefCount := 6 |}) 2 ++ calls 0 (Reference 4000) 0) = Some s /\ owned s.1 4000 = 2.
Proof. vm_compute. eauto. Qed.

Lemma object_references_counted_witness : exists s, reachable 1 s /\ exists h b, objects s.1 !! 4000 = Some h /\ storage s.1 !! 4000 = Some b /\ RefCount h = 2 /\ PhGetObjectType s.1 4000 = Some (Of b).
Proof.
  destruct referenced_after as (s & E & Eo). exists s. split; [exact (played_reachable 1 _ s E)|]. rewrite <- Eo.
  apply (proj1 (object_references_counted 1 s ltac:(reflexivity) (played_reachable 1 _ s E))). rewrite Eo. reflexivity.
Defined.

(** [play] as an orderly step. *)
Definition pushes (fr : frame) : bool := match fr with DeferPush _ _ => true | _ => false end.
Definition orderly_play (s : state) (m : nat * option call) : option state :=
  s' ← play s m;
  if negb (PhObjectDeferDeleteListHead s.1 =? 0) && (PhObjectDeferDeleteListHead s'.1 =? 0) && existsb (existsb pushes) s.2 then None else Some s'.
Fixpoint orderly_plays (s : state) (ms : list (nat * option call)) : option state :=
  match ms with [] => Some s | m :: ms => s ← orderly_play s m; orderly_plays s ms end.

Lemma orderly_play_step s m s' : orderly_play s m = Some s' -> orderly s s'.
Proof.
  unfold orderly_play. destruct (play s m) as [s1|] eqn:E; [|done]. simpl. destruct (_ && _) eqn:Eb; [done|]. intros [= <-]. split; [by apply (play_step s m)|].
  intros H1 H2 a old (stack & Hin & Hfr). apply Z.eqb_neq in H1. apply Z.eqb_eq in H2. rewrite H1, H2 in Eb. simpl in Eb. rewrite <- not_true_iff_false in Eb. apply Eb.
  apply existsb_exists. exists stack. split; [by apply list_elem_of_In|]. apply existsb_exists. exists (DeferPush a old). split; [by apply list_elem_of_In|done].
Qed.

Lemma orderly_plays_steps s ms s' : orderly_plays s ms = Some s' -> rtc orderly s s'.
Proof.
  revert s. induction ms as [|m ms IH]; intros s; simpl; [by intros [= <-]|]. destruct (orderly_play s m) as [s1|] eqn:E; [|done]. simpl. intros H. eapply rtc_l; [by apply (orderly_play_step s m)|by apply IH].
Qed.

Definition orderly_after (n : nat) (ms : list (nat * option call)) : option state := g ← sample; orderly_plays (g, replicate n []) ms.

Lemma orderly_after_reachable n ms s : orderly_after n ms = Some s -> orderly_reachable n s.
Proof.
  unfold orderly_after. destruct sample as [g|] eqn:E; [|done]. simpl. intros H. exists 1016, g. split; [by apply sample_configured|by apply (orderly_plays_steps _ ms)].
Qed.

(** Created, deferred and deleted by a work item. *)
Lemma deferred_after : exists s, orderly_after 2 (calls 0 (Create 3016 24 4000 {| DeferDeleteListEntry := 5; RefCount := 6 |}) 2 ++
  calls 0 (DereferenceEx 4000 1 true) 6 ++ calls 1 Work 4 ++ calls 1 Return 2) = Some s /\ s.2 = [[]; []] /\ work s.1 = 0.
Proof. vm_compute. eauto. Qed.

Lemma deferred_deletes_complete_witness : exists s, orderly_reachable 2 s /\ (forall a, is_Some (objects s.1 !! a) <-> 0 < owned s.1 a).
Proof.
  destruct deferred_after as (s & E & Ets & Ew). exists s. pose proof (orderly_after_reachable 2 _ s E) as Hr. split; [exact Hr|].
  apply (deferred_deletes_complete 2 s ltac:(reflexivity) Hr); [rewrite Ets; repeat constructor|exact Ew].
Defined.

End RefObject.
