(* ===== verification/AutoPool.v ===== *)
(** * Auto-dereference pools: [phlib/ref.c], [phlib/include/ref.h]

    A pool collects references to give back later: 64 in the pool, the others in an array that doubles.
    The pools of a thread are a stack, whose top is in thread-local storage. The model is one thread:
    pools and arrays by their addresses, the thread-local slot, and the objects as an arbitrary state
    of which only PhDereferenceObject is used, which may do anything to the pools
    since it runs delete procedures. [auto_pool_releases] is about the usual case, in which those leave
    the pools alone, [drain_drops] about what happens otherwise. *)

From S2P Require Import Prelude RefObject.

Module AutoPool.

Definition PH_AUTO_POOL_STATIC_SIZE : Z := 64.
Definition PH_AUTO_POOL_DYNAMIC_BIG_SIZE : Z := 256.

Record PH_AUTO_POOL := {
  StaticCount : Z; StaticObjects : list Z;
  DynamicCount : Z; DynamicAllocated : Z; DynamicObjects : Z;
  NextPool : Z;
}.

(** What pools need of objects: references that can be given back one after another. *)
Class References (H : Type) := {
  held : H -> Z -> Z;
  release : H -> Z -> ub H;
  valid : H -> Prop;
  release_held h a : valid h -> 0 < held h a ->
    exists h', release h a = Some h' /\ valid h' /\ forall x, held h' x = held h x - (if decide (x = a) then 1 else 0);
  acquire : H -> Z -> ub H;
  acquire_held h a : valid h -> 0 < held h a -> held h a + 2 < 2 ^ 31 ->
    exists h', acquire h a = Some h' /\ valid h' /\ forall x, held h' x = held h x + (if decide (x = a) then 1 else 0);
}.

(** How often [a] is in a list. *)
Definition occurrences (a : Z) (l : list Z) : Z := Z.of_nat (count_occ Z.eq_dec l a).

Section pools.
Context `{References H}.

(** [current] is the thread-local slot; [arrays] the blocks that PhAllocate has given. *)
Record world := { objects : H; pools : gmap Z PH_AUTO_POOL; arrays : gmap Z (list Z); current : Z }.

Definition set_objects (w : world) (h : H) : world := {| objects := h; pools := pools w; arrays := arrays w; current := current w |}.
Definition set_pools (w : world) (x : gmap Z PH_AUTO_POOL) : world := {| objects := objects w; pools := x; arrays := arrays w; current := current w |}.
Definition set_arrays (w : world) (x : gmap Z (list Z)) : world := {| objects := objects w; pools := pools w; arrays := x; current := current w |}.
Definition set_current (w : world) (x : Z) : world := {| objects := objects w; pools := pools w; arrays := arrays w; current := x |}.
Definition put (w : world) (p : Z) (P : PH_AUTO_POOL) : world := set_pools w (<[p := P]> (pools w)).

(** The address of a new block, what it holds, and PhDereferenceObject. *)
Context (place : gmap Z (list Z) -> Z) (junk : Z) (PhDereferenceObject : world -> Z -> ub world).

Definition PhpGetCurrentAutoPool (w : world) : Z := current w.
Definition PhpSetCurrentAutoPool (w : world) (AutoPool : Z) : world := set_current w AutoPool.

(** [StaticObjects] is what it was before. *)
Definition PhInitializeAutoPool (w : world) (p : Z) : ub world :=
  P ← pools w !! p;
  Some (PhpSetCurrentAutoPool (put w p {| StaticCount := 0; StaticObjects := StaticObjects P; DynamicCount := 0; DynamicAllocated := 0; DynamicObjects := 0; NextPool := PhpGetCurrentAutoPool w |}) p).

(** PhDereferenceObjects over an array that the callbacks may change meanwhile: [read] is the array. *)
Fixpoint dereference_from (read : world -> nat -> ub Z) (i n : nat) (w : world) : ub world :=
  match n with
  | O => Some w
  | S n => a ← read w i; w ← PhDereferenceObject w a; dereference_from read (S i) n w
  end.

Definition PhDereferenceObjects (read : world -> nat -> ub Z) (NumberOfObjects : Z) (w : world) : ub world :=
  dereference_from read 0 (Z.to_nat NumberOfObjects) w.

Definition read_static (p : Z) (w : world) (i : nat) : ub Z := P ← pools w !! p; StaticObjects P !! i.
Definition read_array (b : Z) (w : world) (i : nat) : ub Z := l ← arrays w !! b; l !! i.

Definition with_static (P : PH_AUTO_POOL) (n : Z) (l : list Z) : PH_AUTO_POOL :=
  {| StaticCount := n; StaticObjects := l; DynamicCount := DynamicCount P; DynamicAllocated := DynamicAllocated P; DynamicObjects := DynamicObjects P; NextPool := NextPool P |}.
Definition with_dynamic (P : PH_AUTO_POOL) (n allocated b : Z) : PH_AUTO_POOL :=
  {| StaticCount := StaticCount P; StaticObjects := StaticObjects P; DynamicCount := n; DynamicAllocated := allocated; DynamicObjects := b; NextPool := NextPool P |}.

Definition free_array (w : world) (b : Z) : ub world := l ← arrays w !! b; Some (set_arrays w (delete b (arrays w))).

Definition PhDrainAutoPool (w : world) (p : Z) : ub world :=
  P ← pools w !! p;
  w ← PhDereferenceObjects (read_static p) (StaticCount P) w;
  P ← pools w !! p;
  let w := put w p (with_static P 0 (StaticObjects P)) in
  P ← pools w !! p;
  if DynamicObjects P =? 0 then Some w
  else
    w ← PhDereferenceObjects (read_array (DynamicObjects P)) (DynamicCount P) w;
    P ← pools w !! p;
    let P := with_dynamic P 0 (DynamicAllocated P) (DynamicObjects P) in
    if PH_AUTO_POOL_DYNAMIC_BIG_SIZE <? DynamicAllocated P then
      w ← free_array w (DynamicObjects P); Some (put w p (with_dynamic P 0 0 0))
    else Some (put w p P).

(** [None] stands for the exception as well. *)
Definition PhDeleteAutoPool (w : world) (p : Z) : ub world :=
  w ← PhDrainAutoPool w p;
  if negb (PhpGetCurrentAutoPool w =? p) then None
  else
    P ← pools w !! p;
    let w := PhpSetCurrentAutoPool w (NextPool P) in
    if DynamicObjects P =? 0 then Some w else free_array w (DynamicObjects P).

(** The array: allocated with 64 places, then doubled when it is full. *)
Definition allocate_dynamic (w : world) (P : PH_AUTO_POOL) : world * PH_AUTO_POOL :=
  if DynamicObjects P =? 0 then
    let b := place (arrays w) in (set_arrays w (<[b := replicate 64 junk]> (arrays w)), with_dynamic P (DynamicCount P) 64 b)
  else (w, P).

Definition grow_dynamic (w : world) (P : PH_AUTO_POOL) : ub (world * PH_AUTO_POOL) :=
  if DynamicCount P =? DynamicAllocated P then
    let allocated := u32 (DynamicAllocated P * 2) in
    l ← arrays w !! DynamicObjects P;
    let w := set_arrays w (delete (DynamicObjects P) (arrays w)) in
    let b := place (arrays w) in
    Some (set_arrays w (<[b := take (Z.to_nat allocated) (l ++ replicate (Z.to_nat allocated) junk)]> (arrays w)), with_dynamic P (DynamicCount P) allocated b)
  else Some (w, P).

(** A null object is 0. *)
Definition PhAutoDereferenceObject (w : world) (Object : Z) : ub world :=
  let p := PhpGetCurrentAutoPool w in
  if Object =? 0 then Some w
  else
    P ← pools w !! p;
    if StaticCount P <? PH_AUTO_POOL_STATIC_SIZE then
      l ← store_block (StaticObjects P) (Z.to_nat (StaticCount P)) [Object]; Some (put w p (with_static P (StaticCount P +₃₂ 1) l))
    else
      let '(w, P) := allocate_dynamic w P in
      '(w, P) ← grow_dynamic w P;
      l ← arrays w !! DynamicObjects P;
      l ← store_block l (Z.to_nat (DynamicCount P)) [Object];
      Some (put (set_arrays w (<[DynamicObjects P := l]> (arrays w))) p (with_dynamic P (DynamicCount P +₃₂ 1) (DynamicAllocated P) (DynamicObjects P))).

(** ** What a pool holds *)

Inductive command := Add (Object : Z) | Drain.
Definition run1 (w : world) (c : command) : ub world :=
  match c with Add a => PhAutoDereferenceObject w a | Drain => PhDrainAutoPool w (PhpGetCurrentAutoPool w) end.
Fixpoint run (w : world) (cs : list command) : ub world := match cs with [] => Some w | c :: cs => w ← run1 w c; run w cs end.
Definition added (cs : list command) : list Z := omap (fun c => match c with Add a => if a =? 0 then None else Some a | Drain => None end) cs.

Fixpoint drop_all (h : H) (l : list Z) : ub H := match l with [] => Some h | a :: l => h ← release h a; drop_all h l end.

(** The array of a pool among the blocks [bs] that are not the pool's. *)
Definition array_of (P : PH_AUTO_POOL) (bs : gmap Z (list Z)) (arr : list Z) : gmap Z (list Z) := if DynamicObjects P =? 0 then bs else <[DynamicObjects P := arr]> bs.

(** The pool [P] holds [l]; a part of it in its array [arr]. *)
Record holding (P : PH_AUTO_POOL) (arr l : list Z) : Prop := {
  holding_static : length (StaticObjects P) = 64%nat /\ 0 <= StaticCount P <= 64;
  holding_array : if DynamicObjects P =? 0 then DynamicCount P = 0 else 0 <= DynamicCount P <= DynamicAllocated P /\ 0 < DynamicAllocated P < 2 ^ 32 /\ length arr = Z.to_nat (DynamicAllocated P);
  holding_order : DynamicCount P <> 0 -> StaticCount P = 64;
  holding_contents : l = take (Z.to_nat (StaticCount P)) (StaticObjects P) ++ take (Z.to_nat (DynamicCount P)) arr;
}.

(** The current pool is at [p], on the pool [next]; [ps] and [bs] are the other pools and blocks. *)
Definition pool_state (w : world) (p next : Z) (ps : gmap Z PH_AUTO_POOL) (bs : gmap Z (list Z)) (l : list Z) : Prop := exists P arr,
  pools w = <[p := P]> ps /\ arrays w = array_of P bs arr /\ (DynamicObjects P <> 0 -> bs !! DynamicObjects P = None) /\ current w = p /\ NextPool P = next /\ holding P arr l.

Hypothesis place_fresh : forall bs : gmap Z (list Z), place bs <> 0 /\ bs !! place bs = None.
(** Delete procedures leave the pools alone. *)
Hypothesis dereference_quiet : forall w a, PhDereferenceObject w a = (h ← release (objects w) a; Some (set_objects w h)).

Lemma dereference_array read i n w l h : (forall h, read (set_objects w h) = read w) -> (forall j, (j < n)%nat -> read w (i + j)%nat = l !! j) -> length l = n ->
  drop_all (objects w) l = Some h -> dereference_from read i n w = Some (set_objects w h).
Proof.
  revert i l w. induction n as [|n IH]; intros i l w Hread Hl Hlen Hd.
  - destruct l; [|done]. simpl in Hd. injection Hd as <-. by destruct w.
  - destruct l as [|a l]; [done|]. simpl in *. assert (Ha : read w i = Some a) by (rewrite <- (Nat.add_0_r i); by rewrite (Hl 0%nat) by lia).
    rewrite Ha. cbn [mbind option_bind]. rewrite dereference_quiet.
    destruct (release (objects w) a) as [h1|]; [|done]. simpl in *. rewrite (IH _ l); [by destruct w| | |by injection Hlen|done].
    + intros h'. rewrite (Hread h1). apply (Hread h').
    + intros j Hj. rewrite Hread. replace (S i + j)%nat with (i + S j)%nat by lia. by rewrite (Hl (S j)) by lia.
Qed.

Lemma init_state w p P : pools w !! p = Some P -> length (StaticObjects P) = 64%nat ->
  exists w', PhInitializeAutoPool w p = Some w' /\ objects w' = objects w /\ pool_state w' p (current w) (pools w) (arrays w) [].
Proof.
  intros HP Hl. unfold PhInitializeAutoPool. rewrite HP. cbn [mbind option_bind]. eexists. split; [done|]. split; [done|].
  eexists _, []. split; [done|]. split; [done|]. split; [done|]. split; [done|]. split; [done|]. by split.
Qed.

Lemma drop_all_app h l1 l2 : drop_all h (l1 ++ l2) = (h1 ← drop_all h l1; drop_all h1 l2).
Proof. revert h. induction l1 as [|a l1 IH]; intros h; simpl; [done|]. destruct (release h a); simpl; [apply IH|done]. Qed.

Lemma take_S_app {A} (n : nat) (l : list A) x : (n < length l)%nat -> take (S n) (write_at l n [x]) = take n l ++ [x].
Proof.
  intros Hn. unfold write_at. rewrite take_app. rewrite length_take, Nat.min_l by lia. rewrite take_take, Nat.min_r by lia. replace (S n - n)%nat with 1%nat by lia. done.
Qed.

Lemma store_one {A} (l : list A) n x : (n < length l)%nat -> store_block l n [x] = Some (write_at l n [x]).
Proof. intros. unfold store_block. rewrite decide_True; [done|]. simpl. lia. Qed.

Lemma add_static w p next ps bs l a P arr : pools w = <[p := P]> ps -> arrays w = array_of P bs arr -> (DynamicObjects P <> 0 -> bs !! DynamicObjects P = None) -> current w = p -> NextPool P = next ->
  holding P arr l -> a <> 0 -> StaticCount P < 64 -> exists w', PhAutoDereferenceObject w a = Some w' /\ objects w' = objects w /\ pool_state w' p next ps bs (l ++ [a]).
Proof.
  intros Ep Ea Hf Ec En [[H1 H2] H3 H4 H5] Ha Hlt. unfold PhAutoDereferenceObject, PhpGetCurrentAutoPool. destruct (Z.eqb_spec a 0) as [|_]; [done|]. rewrite Ec, Ep, lookup_insert_eq. cbn [mbind option_bind].
  unfold PH_AUTO_POOL_STATIC_SIZE. destruct (Z.ltb_spec (StaticCount P) 64) as [_|]; [|lia]. rewrite store_one by lia. cbn [mbind option_bind]. eexists. split; [done|]. split; [done|].
  assert (E0 : DynamicCount P = 0) by (destruct (decide (DynamicCount P = 0)) as [|Hne]; [done|specialize (H4 Hne); lia]).
  eexists _, arr. cbn [pools arrays current put set_pools]. split; [by rewrite Ep, insert_insert_eq|]. split; [exact Ea|]. split; [exact Hf|]. split; [exact Ec|]. split; [exact En|].
  rewrite u32_id by (unfold in_width; lia). split; cbn [StaticCount StaticObjects DynamicCount DynamicAllocated DynamicObjects with_static].
  - rewrite length_write_at by (simpl; lia). lia.
  - exact H3.
  - done.
  - rewrite H5, E0, Z.add_1_r, Z2Nat.inj_succ by lia. rewrite take_S_app by lia. by rewrite !take_0, !app_nil_r.
Qed.

(** The pool [P1], whose array has been allocated. *)
Definition with_array (w : world) (P P1 : PH_AUTO_POOL) (p next : Z) (ps : gmap Z PH_AUTO_POOL) (bs : gmap Z (list Z)) (l : list Z) : Prop := exists arr,
  pools w = <[p := P]> ps /\ arrays w = <[DynamicObjects P1 := arr]> bs /\ current w = p /\ NextPool P1 = next /\ DynamicObjects P1 <> 0 /\
  bs !! DynamicObjects P1 = None /\ holding P1 arr l /\ StaticCount P1 = 64.

Lemma allocate_array w p ps bs l P arr : pools w = <[p := P]> ps -> arrays w = array_of P bs arr -> (DynamicObjects P <> 0 -> bs !! DynamicObjects P = None) -> current w = p ->
  holding P arr l -> StaticCount P = 64 ->
  exists w1 P1, allocate_dynamic w P = (w1, P1) /\ objects w1 = objects w /\ with_array w1 P P1 p (NextPool P) ps bs l /\ DynamicCount P1 = DynamicCount P.
Proof.
  intros Ep Ea Hf Ec [[H1 H2] H3 H4 H5] Hs. unfold allocate_dynamic. unfold array_of in Ea. destruct (Z.eqb_spec (DynamicObjects P) 0) as [E0|E0].
  - destruct (place_fresh (arrays w)) as [Hp0 Hp]. rewrite Ea in *. eexists _, _. do 2 (split; [done|]). split; [|done]. eexists. do 6 (split; [done|]). split; [|done].
    split; cbn [StaticCount StaticObjects DynamicCount DynamicAllocated DynamicObjects with_dynamic]; [lia| |lia|].
    + apply Z.eqb_neq in Hp0. rewrite Hp0, length_replicate. lia.
    + rewrite H5, H3. done.
  - eexists w, P. do 2 (split; [done|]). split; [|done]. exists arr. do 5 (split; [done|]). split; [auto|]. split; [|done]. split; [done| |done|done]. apply Z.eqb_neq in E0. by rewrite E0.
Qed.

Lemma grow_array w P P1 p next ps bs l : with_array w P P1 p next ps bs l -> DynamicCount P1 < 2 ^ 31 ->
  exists w2 P2, grow_dynamic w P1 = Some (w2, P2) /\ objects w2 = objects w /\ with_array w2 P P2 p next ps bs l /\ DynamicCount P2 = DynamicCount P1 /\ DynamicCount P2 < DynamicAllocated P2.
Proof.
  intros (arr & Ep & Ea & Ec & En & Hd0 & Hf & [[H1 H2] H3 H4 H5] & Hs) Hsmall. apply Z.eqb_neq in Hd0 as E0. rewrite E0 in H3. unfold grow_dynamic.
  destruct (Z.eqb_spec (DynamicCount P1) (DynamicAllocated P1)) as [Efull|Efull].
  - rewrite u32_id by (unfold in_width; lia). rewrite Ea, lookup_insert_eq. cbn [mbind option_bind]. cbn [arrays set_arrays]. rewrite delete_insert_id by done.
    destruct (place_fresh bs) as [Hp0 Hp]. eexists _, _. do 2 (split; [done|]). split; [|cbn; lia]. eexists. do 6 (split; [done|]). split; [|done].
    apply Z.eqb_neq in Hp0. split; cbn [StaticCount StaticObjects DynamicCount DynamicAllocated DynamicObjects with_dynamic]; [lia| |lia|].
    + rewrite Hp0. split; [lia|]. split; [lia|]. rewrite length_take, length_app, length_replicate. lia.
    + rewrite H5. f_equal. rewrite take_take, Nat.min_l by lia. by rewrite take_app_le by lia.
  - eexists w, P1. do 2 (split; [done|]). split; [|lia]. exists arr. do 6 (split; [done|]). split; [|done]. split; [done|by rewrite E0|done|done].
Qed.

Lemma add_state w p next ps bs l a : pool_state w p next ps bs l -> Z.of_nat (length l) < 2 ^ 31 -> a <> 0 ->
  exists w', PhAutoDereferenceObject w a = Some w' /\ objects w' = objects w /\ pool_state w' p next ps bs (l ++ [a]).
Proof.
  intros (P & arr & Ep & Ea & Hf & Ec & <- & Hh) Hlen Ha. destruct (decide (StaticCount P < 64)) as [Hlt|Hge]; [by eapply add_static|].
  assert (Hsmall : DynamicCount P < 2 ^ 31).
  { destruct Hh as [[H1 H2] H3 H4 H5]. rewrite H5, length_app, length_take in Hlen. destruct (Z.eqb_spec (DynamicObjects P) 0); [lia|]. rewrite length_take in Hlen. lia. }
  unfold PhAutoDereferenceObject, PhpGetCurrentAutoPool. destruct (Z.eqb_spec a 0) as [|_]; [done|]. rewrite Ec, Ep, lookup_insert_eq. cbn [mbind option_bind].
  unfold PH_AUTO_POOL_STATIC_SIZE. destruct (Z.ltb_spec (StaticCount P) 64) as [|_]; [lia|].
  destruct (allocate_array w p ps bs l P arr Ep Ea Hf Ec Hh ltac:(destruct Hh; lia)) as (w1 & P1 & -> & <- & H1 & E1). rewrite <- E1 in Hsmall.
  destruct (grow_array w1 P P1 p _ ps bs l H1 Hsmall) as (w2 & P2 & -> & <- & H2 & E2 & Hroom). cbn [mbind option_bind]. clear Ep Ea Hf Ec Hh arr H1 E1.
  destruct H2 as (arr & Ep & Ea & Ec & En & Hd0 & Hf & [[H1 H2] H3 H4 H5] & Hs). apply Z.eqb_neq in Hd0 as E0. rewrite E0 in H3.
  rewrite Ea, lookup_insert_eq. cbn [mbind option_bind]. rewrite store_one by lia. cbn [mbind option_bind]. eexists. do 2 (split; [done|]).
  eexists _, (write_at arr (Z.to_nat (DynamicCount P2)) [a]). cbn [pools arrays current put set_pools set_arrays]. split; [by rewrite Ep, insert_insert_eq|]. unfold array_of.
  cbn [DynamicObjects with_dynamic NextPool]. rewrite E0. split; [by rewrite insert_insert_eq|]. do 3 (split; [done|]). rewrite u32_id by (unfold in_width; lia).
  split; cbn [StaticCount StaticObjects DynamicCount DynamicAllocated DynamicObjects with_dynamic]; [done| |lia|].
  - rewrite E0, length_write_at by (simpl; lia). lia.
  - rewrite H5, Z.add_1_r, Z2Nat.inj_succ, take_S_app by lia. by rewrite app_assoc.
Qed.

Lemma drain_state w p next ps bs l h : pool_state w p next ps bs l -> drop_all (objects w) l = Some h ->
  exists w', PhDrainAutoPool w p = Some w' /\ objects w' = h /\ pool_state w' p next ps bs [].
Proof.
  intros (P & arr & Ep & Ea & Hf & Ec & En & [[H1 H2] H3 H4 H5]) Hd. rewrite H5, drop_all_app in Hd. destruct (drop_all (objects w) _) as [h1|] eqn:Hd1; [|done]. cbn [mbind option_bind] in Hd.
  unfold PhDrainAutoPool. rewrite Ep, lookup_insert_eq. cbn [mbind option_bind]. unfold PhDereferenceObjects.
  rewrite (dereference_array (read_static p) 0 (Z.to_nat (StaticCount P)) w (take (Z.to_nat (StaticCount P)) (StaticObjects P)) h1 (fun _ => eq_refl)); [|intros j Hj|rewrite length_take; lia|done].
  2:{ unfold read_static. rewrite Ep, lookup_insert_eq. cbn [mbind option_bind]. by rewrite lookup_take_lt by lia. }
  cbn [mbind option_bind pools set_objects]. rewrite Ep, lookup_insert_eq. cbn [mbind option_bind put set_pools pools]. rewrite lookup_insert_eq. cbn [mbind option_bind]. cbn [DynamicObjects DynamicCount with_static].
  unfold array_of in Ea. destruct (Z.eqb_spec (DynamicObjects P) 0) as [E0|E0].
  - rewrite H3 in Hd. simpl in Hd. injection Hd as <-. eexists. split; [done|]. split; [done|]. eexists _, []. split; [cbn [pools put set_pools set_objects]; by rewrite Ep, insert_insert_eq|].
    unfold array_of. cbn [arrays DynamicObjects with_static set_objects set_pools current NextPool]. rewrite E0. cbn [Z.eqb]. split; [done|]. split; [done|]. split; [done|]. split; [done|].
    split; cbn [StaticCount StaticObjects DynamicCount DynamicAllocated DynamicObjects with_static]; [lia|by rewrite E0|done|]. rewrite H3. done.
  - destruct H3 as (H3 & H6 & H7).
    rewrite (dereference_array (read_array (DynamicObjects P)) 0 (Z.to_nat (DynamicCount P)) (put (set_objects w h1) p (with_static P 0 (StaticObjects P))) (take (Z.to_nat (DynamicCount P)) arr) h (fun _ => eq_refl)); [|intros j Hj|rewrite length_take; lia|exact Hd].
    2:{ unfold read_array. cbn [arrays put set_pools set_objects]. rewrite Ea, lookup_insert_eq. cbn [mbind option_bind]. by rewrite lookup_take_lt by lia. }
    cbn [mbind option_bind pools put set_objects set_pools]. rewrite lookup_insert_eq. cbn [mbind option_bind DynamicAllocated with_dynamic with_static DynamicObjects].
    destruct (PH_AUTO_POOL_DYNAMIC_BIG_SIZE <? DynamicAllocated P).
    + unfold free_array. cbn [arrays put set_pools set_objects]. rewrite Ea, lookup_insert_eq. cbn [mbind option_bind]. eexists. split; [done|]. split; [done|]. eexists _, [].
      cbn [pools set_arrays set_objects set_pools put arrays current]. split; [by rewrite Ep, !insert_insert_eq|]. split; [rewrite delete_insert_id by auto; done|]. split; [done|]. split; [done|]. split; [done|]. split; cbn; [lia|done..].
    + eexists. split; [done|]. split; [done|]. eexists _, arr. cbn [pools set_arrays set_objects set_pools put arrays current]. split; [by rewrite Ep, !insert_insert_eq|].
      unfold array_of. cbn [DynamicObjects with_dynamic with_static NextPool]. apply Z.eqb_neq in E0 as E1. rewrite E1. split; [done|]. split; [done|]. split; [done|]. split; [done|].
      split; cbn [StaticCount StaticObjects DynamicCount DynamicAllocated DynamicObjects with_static with_dynamic]; [lia|rewrite E1; lia|done|done].
Qed.

Lemma delete_state w p next ps bs l h : pool_state w p next ps bs l -> drop_all (objects w) l = Some h ->
  exists w', PhDeleteAutoPool w p = Some w' /\ objects w' = h /\ current w' = next /\ arrays w' = bs /\ forall q, q <> p -> pools w' !! q = ps !! q.
Proof.
  intros Hs Hd. destruct (drain_state w p next ps bs l h Hs Hd) as (w1 & E & Eh & P & arr & Ep & Ea & Hf & Ec & En & Hh).
  unfold PhDeleteAutoPool. rewrite E. cbn [mbind option_bind]. unfold PhpGetCurrentAutoPool. rewrite Ec, Z.eqb_refl. cbn [negb]. rewrite Ep, lookup_insert_eq. cbn [mbind option_bind].
  assert (Hps : forall q, q <> p -> pools w1 !! q = ps !! q) by (intros q Hq; by rewrite Ep, lookup_insert_ne).
  unfold array_of in Ea. destruct (Z.eqb_spec (DynamicObjects P) 0) as [E0|E0]; [by eexists|].
  unfold free_array. cbn [arrays PhpSetCurrentAutoPool set_current]. rewrite Ea, lookup_insert_eq. cbn [mbind option_bind]. eexists. split; [done|]. cbn [objects current arrays pools set_arrays PhpSetCurrentAutoPool set_current].
  rewrite delete_insert_id by auto. done.
Qed.

Lemma added_app cs c : added (c :: cs) = added [c] ++ added cs.
Proof. unfold added. simpl. destruct c as [a|]; [|done]. by destruct (a =? 0). Qed.

Lemma run_state cs w p next ps bs l h : pool_state w p next ps bs l -> Z.of_nat (length (l ++ added cs)) < 2 ^ 31 -> drop_all (objects w) (l ++ added cs) = Some h ->
  exists w' l', run w cs = Some w' /\ pool_state w' p next ps bs l' /\ drop_all (objects w') l' = Some h.
Proof.
  revert w l. induction cs as [|c cs IH]; intros w l Hs Hlen Hd; [rewrite app_nil_r in Hd; by exists w, l|].
  assert (Ec : current w = p) by (by destruct Hs as (? & ? & _ & _ & _ & ? & _)). simpl run. rewrite added_app in Hlen, Hd. destruct c as [a|]; simpl run1.
  - unfold PhAutoDereferenceObject at 1. destruct (Z.eqb_spec a 0) as [->|Ha]; simpl in Hlen, Hd; [by apply (IH w l)|]. fold (PhAutoDereferenceObject w a).
    assert (E : added [Add a] = [a]) by (unfold added; simpl; apply Z.eqb_neq in Ha; by rewrite Ha). apply Z.eqb_neq in Ha as Ha'. rewrite Ha' in Hlen, Hd. rewrite length_app in Hlen. simpl in Hlen.
    destruct (add_state w p next ps bs l a Hs ltac:(lia) Ha) as (w1 & E1 & Eo & Hs1). unfold PhAutoDereferenceObject in E1 |- *. rewrite Ha' in E1. rewrite E1. cbn [mbind option_bind].
    apply (IH w1 (l ++ [a])); [done|rewrite !length_app; simpl; lia|]. rewrite Eo, <- app_assoc. exact Hd.
  - simpl in Hlen, Hd. rewrite drop_all_app in Hd. destruct (drop_all (objects w) l) as [h1|] eqn:Hd1; [|done]. simpl in Hd. unfold PhpGetCurrentAutoPool. rewrite Ec.
    destruct (drain_state w p next ps bs l h1 Hs Hd1) as (w1 & -> & Eo & Hs1). cbn [mbind option_bind]. apply (IH w1 []); [done| |by rewrite Eo]. rewrite length_app in Hlen. simpl. lia.
Qed.

Lemma drop_all_held h l : valid h -> (forall a, occurrences a l <= held h a) ->
  exists h', drop_all h l = Some h' /\ valid h' /\ forall a, held h' a = held h a - occurrences a l.
Proof.
  revert h. induction l as [|a l IH]; intros h Hv Hl; simpl; [exists h; split; [done|]; split; [done|]; intros a; unfold occurrences; simpl; lia|].
  assert (Hocc : forall x, occurrences x (a :: l) = occurrences x l + (if decide (x = a) then 1 else 0)) by (intros x; unfold occurrences; simpl; destruct (Z.eq_dec a x), (decide (x = a)); subst; try done; lia).
  assert (Hnn : forall x, 0 <= occurrences x l) by (intros x; unfold occurrences; lia).
  destruct (release_held h a Hv) as (h1 & -> & Hv1 & H1). { specialize (Hl a). rewrite Hocc, decide_True in Hl by done. specialize (Hnn a). lia. }
  cbn [mbind option_bind]. destruct (IH h1 Hv1) as (h' & -> & Hv' & H'). { intros x. specialize (Hl x). rewrite Hocc in Hl. rewrite H1. lia. }
  exists h'. split; [done|]. split; [done|]. intros x. rewrite H', H1, Hocc. lia.
Qed.

(** C37: If releasing an object leaves the pools of the thread alone ([dereference_quiet]: no delete procedure adds to
    a pool or drains one), every object that is added to a pool loses exactly the references that were added, whatever the order of
    additions and drains and however many arrays they take, when the pool is deleted at the latest. No access
    leaves the pool or its array, and afterwards the thread has its former pool, the other pools are untouched and no
    array is left behind. (A delete procedure that adds to the pool that is being drained loses the object it added:
    [drain_drops].) *)
Theorem auto_pool_releases w p P cs : pools w !! p = Some P -> length (StaticObjects P) = 64%nat -> Z.of_nat (length (added cs)) < 2 ^ 31 ->
  valid (objects w) -> (forall a, occurrences a (added cs) <= held (objects w) a) ->
  exists w', (w ← PhInitializeAutoPool w p; w ← run w cs; PhDeleteAutoPool w p) = Some w' /\
    valid (objects w') /\ (forall a, held (objects w') a = held (objects w) a - occurrences a (added cs)) /\
    current w' = current w /\ arrays w' = arrays w /\ forall q, q <> p -> pools w' !! q = pools w !! q.
Proof.
  intros HP Hlen Hsmall Hv Hheld. destruct (drop_all_held (objects w) (added cs) Hv Hheld) as (h & Hd & Hv' & Hh).
  destruct (init_state w p P HP Hlen) as (w1 & -> & Eo & Hs1). cbn [mbind option_bind]. rewrite <- Eo in Hd.
  destruct (run_state cs w1 p _ _ _ [] h Hs1 Hsmall Hd) as (w2 & l & -> & Hs2 & Hd2). cbn [mbind option_bind].
  destruct (delete_state w2 p _ _ _ l h Hs2 Hd2) as (w3 & -> & <- & Ec & Ea & Hp). exists w3. done.
Qed.
End pools.

(** ** Reference variables

    [vars] are the variables of a thread that hold references. *)
Section variables.
Context `{References H}.
Definition store : Type := H * gmap Z Z.

Definition referenced (h : H) (a : Z) : ub H := if a =? 0 then Some h else acquire h a.
Definition released (h : H) (a : Z) : ub H := if a =? 0 then Some h else release h a.

Definition PhSwapReference (s : store) (v NewObject : Z) : ub store :=
  oldObject ← s.2 !! v; h ← referenced s.1 NewObject; h ← released h oldObject; Some (h, <[v := NewObject]> s.2).
Definition PhMoveReference (s : store) (v NewObject : Z) : ub store :=
  oldObject ← s.2 !! v; h ← released s.1 oldObject; Some (h, <[v := NewObject]> s.2).
Definition PhSetReference (s : store) (v NewObject : Z) : ub store :=
  _ ← s.2 !! v; h ← referenced s.1 NewObject; Some (h, <[v := NewObject]> s.2).
Definition PhClearReference (s : store) (v : Z) : ub store := PhMoveReference s v 0.

(** How many variables hold an object, and how many references to it are not those of a variable. *)
Definition holders (vars : gmap Z Z) (a : Z) : Z := Z.of_nat (size (filter (fun va => va.2 = a) vars)).
Definition loose (s : store) (a : Z) : Z := held s.1 a - holders s.2 a.

(** Every variable has a reference to its object. *)
Definition balanced (s : store) : Prop := valid s.1 /\ forall a, a <> 0 -> 0 <= loose s a.

Lemma holders_put vars v old new a : vars !! v = Some old -> holders (<[v := new]> vars) a = holders vars a - (if decide (a = old) then 1 else 0) + (if decide (a = new) then 1 else 0).
Proof.
  intros Hv. unfold holders. assert (E : forall b (m : gmap Z Z), m !! v = None -> Z.of_nat (size (filter (fun va => va.2 = a) (<[v := b]> m))) = Z.of_nat (size (filter (fun va => va.2 = a) m)) + (if decide (a = b) then 1 else 0)).
  { intros b m Hm. destruct (decide (a = b)) as [->|Hne].
    - rewrite map_filter_insert_True by done. rewrite map_size_insert_None by (rewrite map_lookup_filter, Hm; done). lia.
    - rewrite map_filter_insert_False by (simpl; congruence). rewrite delete_id by done. lia. }
  pose proof (E new (delete v vars) (lookup_delete_eq vars v)) as En. rewrite insert_delete_eq in En. rewrite En.
  pose proof (E old (delete v vars) (lookup_delete_eq vars v)) as Eo. rewrite insert_delete_id in Eo by done. rewrite Eo. lia.
Qed.

Lemma holders_pos vars v a : vars !! v = Some a -> 0 < holders vars a.
Proof.
  intros Hv. unfold holders. destruct (size _) eqn:E; [|lia]. apply map_size_empty_inv in E. exfalso. eapply map_empty in E. erewrite (map_lookup_filter_Some_2 _ _ v a) in E; done.
Qed.

Lemma released_held h a : valid h -> (a <> 0 -> 0 < held h a) -> exists h', released h a = Some h' /\ valid h' /\ forall x, x <> 0 -> held h' x = held h x - (if decide (x = a) then 1 else 0).
Proof.
  intros Hv Ha. unfold released. destruct (Z.eqb_spec a 0) as [->|Hne].
  - exists h. split; [done|]. split; [done|]. intros x Hx. rewrite decide_False by done. lia.
  - destruct (release_held h a Hv (Ha Hne)) as (h' & E & Hv' & Hh). exists h'. auto.
Qed.

Lemma referenced_held h a : valid h -> (a <> 0 -> 0 < held h a /\ held h a + 2 < 2 ^ 31) -> exists h', referenced h a = Some h' /\ valid h' /\ forall x, x <> 0 -> held h' x = held h x + (if decide (x = a) then 1 else 0).
Proof.
  intros Hv Ha. unfold referenced. destruct (Z.eqb_spec a 0) as [->|Hne].
  - exists h. split; [done|]. split; [done|]. intros x Hx. rewrite decide_False by done. lia.
  - destruct (Ha Hne) as [H1 H2]. destruct (acquire_held h a Hv H1 H2) as (h' & E & Hv' & Hh). exists h'. auto.
Qed.

(** A swap keeps every other reference: the variable gets one to the new object and gives up the one to the old,
    which may be the same object. *)
Lemma swap_reference s v old new : balanced s -> s.2 !! v = Some old -> (new <> 0 -> 0 < held s.1 new /\ held s.1 new + 2 < 2 ^ 31) ->
  exists s', PhSwapReference s v new = Some s' /\ balanced s' /\ s'.2 = <[v := new]> s.2 /\ forall a, a <> 0 -> loose s' a = loose s a.
Proof.
  intros [Hv Hb] Ho Hn. unfold PhSwapReference. rewrite Ho. cbn [mbind option_bind]. destruct (referenced_held s.1 new Hv Hn) as (h1 & -> & Hv1 & H1). cbn [mbind option_bind].
  destruct (released_held h1 old Hv1) as (h2 & -> & Hv2 & H2). { intros Hne. rewrite H1 by done. specialize (Hb old Hne). unfold loose in Hb. pose proof (holders_pos _ _ _ Ho). destruct (decide _); lia. }
  cbn [mbind option_bind]. assert (Hl : forall a, a <> 0 -> loose (h2, <[v := new]> s.2) a = loose s a).
  { intros a Ha. unfold loose. cbn [fst snd]. rewrite (holders_put _ _ old) by done. rewrite H2, H1 by done. lia. }
  eexists. split; [done|]. split; [|done]. split; [done|]. intros a Ha. rewrite Hl by done. by apply Hb.
Qed.

(** A move takes over a reference that is not yet a variable's. *)
Lemma move_reference s v old new : balanced s -> s.2 !! v = Some old -> (new <> 0 -> 0 < loose s new) ->
  exists s', PhMoveReference s v new = Some s' /\ balanced s' /\ s'.2 = <[v := new]> s.2 /\ forall a, a <> 0 -> loose s' a = loose s a - (if decide (a = new) then 1 else 0).
Proof.
  intros [Hv Hb] Ho Hn. unfold PhMoveReference. rewrite Ho. cbn [mbind option_bind].
  destruct (released_held s.1 old Hv) as (h2 & -> & Hv2 & H2). { intros Hne. specialize (Hb old Hne). unfold loose in Hb. pose proof (holders_pos _ _ _ Ho). lia. }
  cbn [mbind option_bind]. assert (Hl : forall a, a <> 0 -> loose (h2, <[v := new]> s.2) a = loose s a - (if decide (a = new) then 1 else 0)).
  { intros a Ha. unfold loose. cbn [fst snd]. rewrite (holders_put _ _ old) by done. rewrite H2 by done. lia. }
  eexists. split; [done|]. split; [|done]. split; [done|]. intros a Ha. rewrite Hl by done. specialize (Hb a Ha). destruct (decide (a = new)) as [->|]; [|lia]. specialize (Hn Ha). lia.
Qed.

(** An assignment to a variable that holds an object leaves its reference behind. *)
Lemma set_reference s v old new : balanced s -> s.2 !! v = Some old -> (new <> 0 -> 0 < held s.1 new /\ held s.1 new + 2 < 2 ^ 31) ->
  exists s', PhSetReference s v new = Some s' /\ balanced s' /\ s'.2 = <[v := new]> s.2 /\ forall a, a <> 0 -> loose s' a = loose s a + (if decide (a = old) then 1 else 0).
Proof.
  intros [Hv Hb] Ho Hn. unfold PhSetReference. rewrite Ho. cbn [mbind option_bind]. destruct (referenced_held s.1 new Hv Hn) as (h1 & -> & Hv1 & H1). cbn [mbind option_bind].
  assert (Hl : forall a, a <> 0 -> loose (h1, <[v := new]> s.2) a = loose s a + (if decide (a = old) then 1 else 0)).
  { intros a Ha. unfold loose. cbn [fst snd]. rewrite (holders_put _ _ old) by done. rewrite H1 by done. lia. }
  eexists. split; [done|]. split; [|done]. split; [done|]. intros a Ha. rewrite Hl by done. specialize (Hb a Ha). destruct (decide _); lia.
Qed.
End variables.

(** What a delete procedure adds to the pool that is being drained is dropped: the count is reset after the loop,
    which only goes as far as the count was before. Here deleting [a] adds [b] to the pool, and afterwards the pool
    is empty and [b] has not been given back. *)
Theorem drain_drops `{References H} (place : gmap Z (list Z) -> Z) (junk : Z) (PhDereferenceObject : world -> Z -> ub world) (w : world) (P : PH_AUTO_POOL) (a b : Z) (rest : list Z) (h : H) :
  pools w !! current w = Some P -> StaticCount P = 1 -> StaticObjects P = a :: rest -> length rest = 63%nat -> DynamicCount P = 0 -> DynamicObjects P = 0 -> b <> 0 ->
  release (objects w) a = Some h -> PhDereferenceObject w a = PhAutoDereferenceObject place junk (set_objects w h) b ->
  exists w' P', PhDrainAutoPool PhDereferenceObject w (current w) = Some w' /\ objects w' = h /\ pools w' !! current w = Some P' /\ StaticCount P' = 0 /\ DynamicCount P' = 0.
Proof.
  intros HP Hs Ho Hl Hdc Hd Hb Hr Hda. unfold PhDrainAutoPool. rewrite HP. cbn [mbind option_bind]. rewrite Hs. unfold PhDereferenceObjects. change (Z.to_nat 1) with 1%nat. cbn [dereference_from].
  unfold read_static at 1. rewrite HP. cbn [mbind option_bind]. rewrite Ho. cbn [lookup list_lookup mbind option_bind]. rewrite Hda. unfold PhAutoDereferenceObject, PhpGetCurrentAutoPool.
  destruct (Z.eqb_spec b 0) as [|_]; [done|]. cbn [pools current set_objects]. rewrite HP. cbn [mbind option_bind]. rewrite Hs. cbn [Z.ltb PH_AUTO_POOL_STATIC_SIZE Z.compare Pos.compare Pos.compare_cont].
  rewrite store_one by (rewrite Ho; simpl; lia). cbn [mbind option_bind put set_pools pools]. rewrite lookup_insert_eq. cbn [mbind option_bind]. rewrite lookup_insert_eq. cbn [mbind option_bind DynamicObjects with_static]. rewrite Hd.
  cbn [Z.eqb]. eexists _, _. split; [done|]. split; [done|]. cbn [pools put set_pools set_objects]. split; [by rewrite lookup_insert_eq|]. split; [done|]. exact Hdc.
Qed.

(** ** Objects

    The objects of [RefObject] by the addresses of their bodies, which is what pools hold, when their
    delete procedures do nothing. *)

Definition PhObjectToObjectHeader (Object : Z) : Z := Object - 16.

Lemma release_object g a : RefObject.idle g -> 0 < RefObject.held g (PhObjectToObjectHeader a) ->
  exists g', RefObject.dereference_alone g (PhObjectToObjectHeader a) = Some g' /\ RefObject.idle g' /\
    forall x, RefObject.held g' (PhObjectToObjectHeader x) = RefObject.held g (PhObjectToObjectHeader x) - (if decide (x = a) then 1 else 0).
Proof.
  intros Hi Ha. destruct (RefObject.dereference_alone_held g _ Hi Ha) as (g' & E & Hi' & Hh). exists g'. split; [done|]. split; [done|]. intros x. rewrite Hh. unfold PhObjectToObjectHeader.
  destruct (decide (x = a)), (decide (x - 16 = a - 16)); lia.
Qed.

Lemma acquire_object g a : RefObject.idle g -> 0 < RefObject.held g (PhObjectToObjectHeader a) -> RefObject.held g (PhObjectToObjectHeader a) + 2 < 2 ^ 31 ->
  exists g', RefObject.reference_alone g (PhObjectToObjectHeader a) = Some g' /\ RefObject.idle g' /\
    forall x, RefObject.held g' (PhObjectToObjectHeader x) = RefObject.held g (PhObjectToObjectHeader x) + (if decide (x = a) then 1 else 0).
Proof.
  intros Hi Ha Hlt. destruct (RefObject.reference_alone_held g _ Hi Ha Hlt) as (g' & E & Hi' & Hh). exists g'. split; [done|]. split; [done|]. intros x. rewrite Hh. unfold PhObjectToObjectHeader.
  destruct (decide (x = a)), (decide (x - 16 = a - 16)); lia.
Qed.

#[export] Instance objects_references : References RefObject.memory := {
  held g a := RefObject.held g (PhObjectToObjectHeader a);
  release g a := RefObject.dereference_alone g (PhObjectToObjectHeader a);
  valid := RefObject.idle;
  release_held := release_object;
  acquire g a := RefObject.reference_alone g (PhObjectToObjectHeader a);
  acquire_held := acquire_object;
}.

(** ** Examples *)

(** The first address above all others. *)
Definition above (bs : gmap Z (list Z)) : Z := 1 + map_fold (fun b _ m => Z.max b m) 0 bs.

Lemma above_fresh bs : above bs <> 0 /\ bs !! above bs = None.
Proof.
  unfold above. assert (H : 0 <= map_fold (fun b (_ : list Z) m => Z.max b m) 0 bs /\ forall b l, bs !! b = Some l -> b <= map_fold (fun b (_ : list Z) m => Z.max b m) 0 bs).
  { apply (map_fold_weak_ind (fun m bs => 0 <= m /\ forall b l, bs !! b = Some l -> b <= m)).
    - split; [done|]. intros b l Hb. by rewrite lookup_empty in Hb.
    - intros b l bs' m Hb [H0 H1]. split; [lia|]. intros b' l' [[<- _]|[_ Hb']]%lookup_insert_Some; [lia|]. specialize (H1 b' l' Hb'). lia. }
  destruct H as [H0 H1]. split; [lia|]. destruct (bs !! _) as [l|] eqn:E; [|done]. specialize (H1 _ _ E). lia.
Qed.

(** PhDereferenceObject when delete procedures leave the pools alone. *)
Definition dereference `{References H} (w : world) (a : Z) : ub world := h ← release (objects w) a; Some (set_objects w h).

(** A pool on a thread's stack before it is initialized. *)
Definition stack_pool : PH_AUTO_POOL := {| StaticCount := 5; StaticObjects := replicate 64 7; DynamicCount := 9; DynamicAllocated := 1; DynamicObjects := 3; NextPool := 2 |}.

(** An object with a hundred references. *)
Lemma shared_after : exists s, RefObject.after 1 (RefObject.calls 0 (RefObject.Create 3016 24 4000 {| RefObject.DeferDeleteListEntry := 5; RefObject.RefCount := 6 |}) 2 ++
  RefObject.calls 0 (RefObject.ReferenceEx 4000 99) 0) = Some s /\ s.2 = [[]] /\ RefObject.published s.1 = ∅ /\ RefObject.held s.1 4000 = 100.
Proof. vm_compute. eauto. Qed.

Lemma shared_object : exists g : RefObject.memory, valid g /\ held g 4016 = 100.
Proof.
  destruct shared_after as ([g ts] & E & Ets & Ep & Eh). cbn [fst snd] in *. subst ts. exists g. split; [|done]. split; [|done].
  destruct (RefObject.object_reachable_inv 1 (g, [[]]) ltac:(done) (RefObject.played_reachable 1 _ _ E)) as [dl Hinv]. exists dl. apply (RefObject.idle_core g dl [[]] Hinv). by repeat constructor.
Qed.

(** A drain after thirty additions; a hundred in all, of which the array takes some. *)
Definition a_hundred : list command := replicate 30 (Add 4016) ++ [Drain; Add 0] ++ replicate 70 (Add 4016).

Lemma auto_pool_releases_witness : exists (w w' : world (H := RefObject.memory)), held (objects w) 4016 = 100 /\
  (w1 ← PhInitializeAutoPool w 500; w2 ← run above 0 dereference w1 a_hundred; PhDeleteAutoPool dereference w2 500) = Some w' /\ held (objects w') 4016 = 0 /\ current w' = current w.
Proof.
  destruct shared_object as (g & Hv & Hg). pose (w := {| objects := g; pools := {[ 500 := stack_pool ]}; arrays := {[ 3 := [] ]}; current := 2 |}).
  destruct (auto_pool_releases above 0 dereference above_fresh (fun w a => eq_refl) w 500 stack_pool a_hundred) as (w' & E & _ & Hh & Ec & _); [reflexivity..|exact Hv| |].
  - intros a. cbn [objects w]. destruct (decide (a = 4016)) as [->|Hne]; [rewrite Hg; vm_compute; discriminate|].
    change (added a_hundred) with (replicate 100 4016). unfold occurrences. rewrite (proj1 (count_occ_not_In _ _ _)); [apply (RefObject.held_nonneg g _ Hv)|].
    intros Hin. apply list_elem_of_In, elem_of_replicate_inv in Hin. exact (Hne Hin).
  - exists w, w'. split; [exact Hg|]. split; [exact E|]. split; [|exact Ec]. rewrite Hh. cbn [objects w]. rewrite Hg. reflexivity.
Defined.

End AutoPool.
