(* ===== verification/WorkQueue.v ===== *)
(** * Work queues: [phlib/workqueue.c]

    Items wait in a list under a lock; a semaphore counts them; threads that are started on demand take
    them off and run them, and leave when they have waited long enough. The model is a step relation:
    clients that queue, wait for and delete the queue, and the worker threads that they start. A step is
    one access to shared memory, or a critical section of QueueLock, in which only the list is used; the
    creation of a thread holds StateLock over several steps, since CurrentThreads is read without it.
    What an item does is outside: a call that it makes is that of a client.

    The items of a queue that may fall to no threads at all can be left behind:
    a caller that counts on waiting threads does not see that they have stopped to wait
    ([work_item_stranded]). With a minimum of one thread, or if the last thread only leaves when there is
    nothing queued, no item is left ([work_queue_drains]). *)

From S2P Require Import Prelude.

Module WorkQueue.

(** ** Items *)

Record PH_WORK_QUEUE_ENVIRONMENT := { BasePriority : Z; IoPriority : Z; PagePriority : Z; ForceUpdate : bool }.
#[export] Instance environment_eq_dec : EqDecision PH_WORK_QUEUE_ENVIRONMENT. Proof. solve_decision. Defined.

(** [Function] stands for the function and its context; [DeleteFunction] is whether there is one. *)
Record PH_WORK_QUEUE_ITEM := { Function : Z; DeleteFunction : bool; Environment : PH_WORK_QUEUE_ENVIRONMENT }.
#[export] Instance item_eq_dec : EqDecision PH_WORK_QUEUE_ITEM. Proof. solve_decision. Defined.

(** THREAD_PRIORITY_NORMAL, IoPriorityNormal, MEMORY_PRIORITY_NORMAL *)
Definition PhpGetDefaultWorkQueueEnvironment : PH_WORK_QUEUE_ENVIRONMENT := {| BasePriority := 0; IoPriority := 2; PagePriority := 5; ForceUpdate := false |}.
Definition PhInitializeWorkQueueEnvironment : PH_WORK_QUEUE_ENVIRONMENT := PhpGetDefaultWorkQueueEnvironment.

Definition PhpCreateWorkQueueItem (f : Z) (d : bool) (E : option PH_WORK_QUEUE_ENVIRONMENT) : PH_WORK_QUEUE_ITEM :=
  {| Function := f; DeleteFunction := d; Environment := default PhpGetDefaultWorkQueueEnvironment E |}.

Inductive priority := Base | Io | Page.

(** ** The queue *)

(** [SemaphoreHandle] is the count of the semaphore once there is one; [RundownProtect] the references
    to the queue, and [RundownActive] whether no more are given. The last four fields are for the theorems: the items ever queued, those that a thread
    began to run, those destroyed after that, and those destroyed with the queue. *)
Record PH_WORK_QUEUE := {
  RundownProtect : Z; RundownActive : bool; Terminating : bool;
  Items : list PH_WORK_QUEUE_ITEM;
  MaximumThreads : Z; MinimumThreads : Z;
  StateLock : bool; SemaphoreHandle : option Z; CurrentThreads : Z; BusyCount : Z;
  queued : list PH_WORK_QUEUE_ITEM; started : list PH_WORK_QUEUE_ITEM; freed : list PH_WORK_QUEUE_ITEM; discarded : list PH_WORK_QUEUE_ITEM;
}.

Definition PhInitializeWorkQueue (Minimum Maximum : Z) : PH_WORK_QUEUE :=
  {| RundownProtect := 0; RundownActive := false; Terminating := false; Items := []; MaximumThreads := Maximum; MinimumThreads := Minimum; StateLock := false; SemaphoreHandle := None;
     CurrentThreads := 0; BusyCount := 0; queued := []; started := []; freed := []; discarded := [] |}.

(** What PhGetGlobalWorkQueue initializes. *)
Definition PhGetGlobalWorkQueue : PH_WORK_QUEUE := PhInitializeWorkQueue 0 3.

Definition set_protect (q : PH_WORK_QUEUE) (n : Z) (active : bool) : PH_WORK_QUEUE :=
  {| RundownProtect := n; RundownActive := active; Terminating := Terminating q; Items := Items q; MaximumThreads := MaximumThreads q; MinimumThreads := MinimumThreads q; StateLock := StateLock q; SemaphoreHandle := SemaphoreHandle q;
     CurrentThreads := CurrentThreads q; BusyCount := BusyCount q; queued := queued q; started := started q; freed := freed q; discarded := discarded q |}.
Definition set_terminating (q : PH_WORK_QUEUE) : PH_WORK_QUEUE :=
  {| RundownProtect := RundownProtect q; RundownActive := RundownActive q; Terminating := true; Items := Items q; MaximumThreads := MaximumThreads q; MinimumThreads := MinimumThreads q; StateLock := StateLock q; SemaphoreHandle := SemaphoreHandle q;
     CurrentThreads := CurrentThreads q; BusyCount := BusyCount q; queued := queued q; started := started q; freed := freed q; discarded := discarded q |}.
Definition set_state (q : PH_WORK_QUEUE) (lock : bool) (n : Z) : PH_WORK_QUEUE :=
  {| RundownProtect := RundownProtect q; RundownActive := RundownActive q; Terminating := Terminating q; Items := Items q; MaximumThreads := MaximumThreads q; MinimumThreads := MinimumThreads q; StateLock := lock; SemaphoreHandle := SemaphoreHandle q;
     CurrentThreads := n; BusyCount := BusyCount q; queued := queued q; started := started q; freed := freed q; discarded := discarded q |}.
Definition set_semaphore (q : PH_WORK_QUEUE) (n : Z) : PH_WORK_QUEUE :=
  {| RundownProtect := RundownProtect q; RundownActive := RundownActive q; Terminating := Terminating q; Items := Items q; MaximumThreads := MaximumThreads q; MinimumThreads := MinimumThreads q; StateLock := StateLock q; SemaphoreHandle := Some n;
     CurrentThreads := CurrentThreads q; BusyCount := BusyCount q; queued := queued q; started := started q; freed := freed q; discarded := discarded q |}.

(** InsertTailList and the increment of BusyCount, under the lock. *)
Definition enqueue (q : PH_WORK_QUEUE) (i : PH_WORK_QUEUE_ITEM) : PH_WORK_QUEUE :=
  {| RundownProtect := RundownProtect q; RundownActive := RundownActive q; Terminating := Terminating q; Items := Items q ++ [i]; MaximumThreads := MaximumThreads q; MinimumThreads := MinimumThreads q; StateLock := StateLock q; SemaphoreHandle := SemaphoreHandle q;
     CurrentThreads := CurrentThreads q; BusyCount := BusyCount q +₃₂ 1; queued := queued q ++ [i]; started := started q; freed := freed q; discarded := discarded q |}.

(** RemoveHeadList of a list that is not empty. *)
Definition dequeue (q : PH_WORK_QUEUE) (i : PH_WORK_QUEUE_ITEM) (l : list PH_WORK_QUEUE_ITEM) : PH_WORK_QUEUE :=
  {| RundownProtect := RundownProtect q; RundownActive := RundownActive q; Terminating := Terminating q; Items := l; MaximumThreads := MaximumThreads q; MinimumThreads := MinimumThreads q; StateLock := StateLock q; SemaphoreHandle := SemaphoreHandle q;
     CurrentThreads := CurrentThreads q; BusyCount := BusyCount q; queued := queued q; started := started q ++ [i]; freed := freed q; discarded := discarded q |}.

Definition set_busy (q : PH_WORK_QUEUE) (n : Z) : PH_WORK_QUEUE :=
  {| RundownProtect := RundownProtect q; RundownActive := RundownActive q; Terminating := Terminating q; Items := Items q; MaximumThreads := MaximumThreads q; MinimumThreads := MinimumThreads q; StateLock := StateLock q; SemaphoreHandle := SemaphoreHandle q;
     CurrentThreads := CurrentThreads q; BusyCount := n; queued := queued q; started := started q; freed := freed q; discarded := discarded q |}.

(** [PhpDestroyWorkQueueItem]: the delete function and the free list; of one item, and of all that are left. *)
Definition PhpDestroyWorkQueueItem (q : PH_WORK_QUEUE) (i : PH_WORK_QUEUE_ITEM) : PH_WORK_QUEUE :=
  {| RundownProtect := RundownProtect q; RundownActive := RundownActive q; Terminating := Terminating q; Items := Items q; MaximumThreads := MaximumThreads q; MinimumThreads := MinimumThreads q; StateLock := StateLock q; SemaphoreHandle := SemaphoreHandle q;
     CurrentThreads := CurrentThreads q; BusyCount := BusyCount q; queued := queued q; started := started q; freed := freed q ++ [i]; discarded := discarded q |}.
Definition destroy_items (q : PH_WORK_QUEUE) : PH_WORK_QUEUE :=
  {| RundownProtect := RundownProtect q; RundownActive := RundownActive q; Terminating := Terminating q; Items := []; MaximumThreads := MaximumThreads q; MinimumThreads := MinimumThreads q; StateLock := StateLock q; SemaphoreHandle := SemaphoreHandle q;
     CurrentThreads := CurrentThreads q; BusyCount := BusyCount q; queued := queued q; started := started q; freed := freed q; discarded := Items q |}.

(** NtReleaseSemaphore: nothing is released over MAXLONG, and a release of 0 is refused. *)
Definition release_semaphore (count n : Z) : Z := if (0 <? n) && (count + n <? 2 ^ 31) then count + n else count.

(** ** Threads

    A client: idle; in PhQueueItemWorkQueueEx once the item is in the list; in PhWaitForWorkQueue; in
    PhDeleteWorkQueue; after it. *)
Inductive client :=
  | CIdle
  | CSemaphore | CSemaphoreCreate | CRelease | CBusy | CThreads (busy : Z) | CMaximum | CLock | CCreate | CCount
  | CWaitCheck | CWaiting
  | CDeleteRelease | CRundown | CRundownWait | CFree | CDeleted.
#[export] Instance client_eq_dec : EqDecision client. Proof. solve_decision. Defined.

(** A worker, along [PhpWorkQueueThreadStart]; [WLeave] is the section that decides whether it ends. *)
Inductive worker :=
  | WTop | WOver | WSemaphore | WSemaphoreCreate | WTerminating | WWait | WWoken | WDequeue
  | WExecute (i : PH_WORK_QUEUE_ITEM) | WBusy (i : PH_WORK_QUEUE_ITEM) | WDestroy (i : PH_WORK_QUEUE_ITEM)
  | WLeave | WRundown | WGone.

(** A worker has the environment that it runs under. *)
Inductive thread := Client (c : client) | Worker (E : PH_WORK_QUEUE_ENVIRONMENT) (w : worker).

Section queue.
(** Whether the system lets a thread have a priority. *)
Context (settable : priority -> Z -> bool).

Definition update_field (k : priority) (force : bool) (current new : Z) : Z :=
  if negb (current =? new) || force then if settable k new then new else current else current.

Definition PhpUpdateWorkQueueEnvironment (Current New : PH_WORK_QUEUE_ENVIRONMENT) : PH_WORK_QUEUE_ENVIRONMENT := {|
  BasePriority := update_field Base (ForceUpdate New) (BasePriority Current) (BasePriority New);
  IoPriority := update_field Io (ForceUpdate New) (IoPriority Current) (IoPriority New);
  PagePriority := update_field Page (ForceUpdate New) (PagePriority Current) (PagePriority New);
  ForceUpdate := ForceUpdate Current;
|}.

(** [PhpGetSemaphoreWorkQueue] after the handle was read as NULL: the exchange, which another thread's
    semaphore wins over. *)
Definition create_semaphore (q : PH_WORK_QUEUE) : PH_WORK_QUEUE := match SemaphoreHandle q with None => set_semaphore q 0 | Some _ => q end.

(** [PhpCreateWorkQueueThread], with StateLock held: no thread after rundown has begun. *)
Definition PhpCreateWorkQueueThread (q : PH_WORK_QUEUE) : PH_WORK_QUEUE * client * list thread :=
  if RundownActive q then (set_state q false (CurrentThreads q), CIdle, [])
  else (set_protect q (RundownProtect q + 1) false, CCount, [Worker PhpGetDefaultWorkQueueEnvironment WTop]).

(** The next step of a client: its state and the threads that it starts. *)
Definition client_next (q : PH_WORK_QUEUE) (c : client) : option (PH_WORK_QUEUE * client * list thread) :=
  match c with
  | CIdle | CWaiting | CDeleted => None
  | CSemaphore => Some (q, match SemaphoreHandle q with Some _ => CRelease | None => CSemaphoreCreate end, [])
  | CSemaphoreCreate => Some (create_semaphore q, CRelease, [])
  | CRelease => n ← SemaphoreHandle q; Some (set_semaphore q (release_semaphore n 1), CBusy, [])
  | CBusy => Some (q, CThreads (BusyCount q), [])
  | CThreads busy => Some (q, if CurrentThreads q <=? busy then CMaximum else CIdle, [])
  | CMaximum => Some (q, if CurrentThreads q <? MaximumThreads q then CLock else CIdle, [])
  | CLock =>
      if StateLock q then None
      else if CurrentThreads q <? MaximumThreads q then Some (set_state q true (CurrentThreads q), CCreate, []) else Some (q, CIdle, [])
  | CCreate => Some (PhpCreateWorkQueueThread q)
  | CCount => Some (set_state q false (CurrentThreads q +₃₂ 1), CIdle, [])
  | CWaitCheck => Some (q, match Items q with [] => CIdle | _ => CWaiting end, [])
  | CDeleteRelease => Some (match SemaphoreHandle q with Some n => set_semaphore q (release_semaphore n (CurrentThreads q)) | None => q end, CRundown, [])
  | CRundown => Some (set_protect q (RundownProtect q) true, CRundownWait, [])
  | CRundownWait => if RundownProtect q =? 0 then Some (q, CFree, []) else None
  | CFree => Some (destroy_items q, CDeleted, [])
  end.

(** The next step of a worker, and whether it pulses QueueEmptyCondition. *)
Definition worker_next (q : PH_WORK_QUEUE) (E : PH_WORK_QUEUE_ENVIRONMENT) (w : worker) : option (PH_WORK_QUEUE * thread * bool) :=
  match w with
  | WTop => Some (q, Worker E (if MaximumThreads q <? CurrentThreads q then WOver else WSemaphore), false)
  | WOver =>
      if StateLock q then None
      else if (MaximumThreads q <? CurrentThreads q) && (MinimumThreads q <? CurrentThreads q) then Some (set_state q false (CurrentThreads q -₃₂ 1), Worker E WRundown, false)
      else Some (q, Worker E WSemaphore, false)
  | WSemaphore => Some (q, Worker E match SemaphoreHandle q with Some _ => WTerminating | None => WSemaphoreCreate end, false)
  | WSemaphoreCreate => Some (create_semaphore q, Worker E WTerminating, false)
  | WTerminating => Some (q, Worker E (if Terminating q then WLeave else WWait), false)
  | WWait => n ← SemaphoreHandle q; if 0 <? n then Some (set_semaphore q (n - 1), Worker E WWoken, false) else None
  | WWoken => Some (q, Worker E (if Terminating q then WLeave else WDequeue), false)
  | WDequeue =>
      match Items q with
      | [] => Some (q, Worker E WTop, true)
      | i :: l => Some (dequeue q i l, Worker (PhpUpdateWorkQueueEnvironment E (Environment i)) (WExecute i), bool_decide (l = []))
      end
  | WExecute i => Some (q, Worker E (WBusy i), false)
  | WBusy i => Some (set_busy q (BusyCount q -₃₂ 1), Worker E (WDestroy i), false)
  | WDestroy i => Some (PhpDestroyWorkQueueItem q i, Worker E WTop, false)
  | WLeave =>
      if StateLock q then None
      else if Terminating q || (MinimumThreads q <? CurrentThreads q) then Some (set_state q false (CurrentThreads q -₃₂ 1), Worker E WRundown, false)
      else Some (q, Worker E WTop, false)
  | WRundown => Some (set_protect q (RundownProtect q - 1) (RundownActive q), Worker E WGone, false)
  | WGone => None
  end.

(** PhPulseCondition: those who wait look again. *)
Definition wake (th : thread) : thread := match th with Client CWaiting => Client CWaitCheck | _ => th end.

(** A step of any thread: its state, the threads it starts, whether it pulses. *)
Definition next (q : PH_WORK_QUEUE) (th : thread) : option (PH_WORK_QUEUE * thread * list thread * bool) :=
  match th with
  | Client c => '(q, c, new) ← client_next q c; Some (q, Client c, new, false)
  | Worker E w => '(q, th, pulse) ← worker_next q E w; Some (q, th, [], pulse)
  end.

(** ** Executions *)

Inductive call := Queue (f : Z) (d : bool) (E : option PH_WORK_QUEUE_ENVIRONMENT) | Wait | Delete.

Definition PhQueueItemWorkQueueEx (q : PH_WORK_QUEUE) (f : Z) (d : bool) (E : option PH_WORK_QUEUE_ENVIRONMENT) : PH_WORK_QUEUE * client :=
  (enqueue q (PhpCreateWorkQueueItem f d E), CSemaphore).
Definition PhQueueItemWorkQueue (q : PH_WORK_QUEUE) (f : Z) : PH_WORK_QUEUE * client := PhQueueItemWorkQueueEx q f false None.

Definition perform (q : PH_WORK_QUEUE) (c : call) : PH_WORK_QUEUE * client :=
  match c with
  | Queue f d E => PhQueueItemWorkQueueEx q f d E
  | Wait => (q, CWaitCheck)
  | Delete => (set_terminating q, CDeleteRelease)
  end.

Definition state : Type := PH_WORK_QUEUE * list thread.

(** No call begins once the queue is to be deleted, and it is to be deleted when there are no other
    calls; fewer than 2^31 items wait. *)
Definition idle (th : thread) : bool := match th with Client CIdle | Worker _ _ => true | _ => false end.
Definition permitted (s : state) (c : call) : bool :=
  negb (Terminating s.1) &&
  match c with
  | Queue _ _ _ => Z.of_nat (length (Items s.1)) + MaximumThreads s.1 + 1 <? 2 ^ 31
  | Wait => true
  | Delete => forallb idle s.2
  end.

Definition put (s : state) (t : nat) (q : PH_WORK_QUEUE) (th : thread) (new : list thread) (pulse : bool) : state :=
  (q, (if pulse : bool then wake <$> <[t := th]> s.2 else <[t := th]> s.2) ++ new).

(** Besides the next steps and the calls: a wait for the semaphore that times out, and the failure to create a thread. *)
Inductive move := Next (t : nat) | Call (t : nat) (c : call) | Timeout (t : nat) | NoThread (t : nat).

Definition play (s : state) (m : move) : option state :=
  match m with
  | Next t => th ← s.2 !! t; '(q, th, new, pulse) ← next s.1 th; Some (put s t q th new pulse)
  | Call t c => th ← s.2 !! t;
      match th with
      | Client CIdle => if permitted s c then let '(q, c) := perform s.1 c in Some (put s t q (Client c) [] false) else None
      | _ => None
      end
  | Timeout t => th ← s.2 !! t; match th with Worker E WWait => Some (put s t s.1 (Worker E WLeave) [] false) | _ => None end
  | NoThread t => th ← s.2 !! t; match th with Client CCreate => Some (put s t (set_state s.1 false (CurrentThreads s.1)) (Client CIdle) [] false) | _ => None end
  end.

Definition step (s s' : state) : Prop := exists m, play s m = Some s'.

(** With [n] clients. *)
Definition initial (n : nat) (Minimum Maximum : Z) : state := (PhInitializeWorkQueue Minimum Maximum, replicate n (Client CIdle)).

(** ** Counting threads *)

Definition tally_of (P : thread -> bool) (ts : list thread) : Z := tally (fun th => Z.b2z (P th)) ts.

Definition alive (th : thread) : bool := match th with Worker _ (WRundown | WGone) | Client _ => false | Worker _ _ => true end.
Definition present (th : thread) : bool := match th with Worker _ WGone | Client _ => false | Worker _ _ => true end.
Definition token (th : thread) : bool := match th with Worker _ (WWoken | WDequeue) => true | _ => false end.
Definition dequeuing (th : thread) : bool := match th with Worker _ WDequeue => true | _ => false end.
Definition waits (th : thread) : bool := match th with Worker _ WWait => true | _ => false end.
Definition releasing (th : thread) : bool := match th with Client (CSemaphore | CSemaphoreCreate | CRelease) => true | _ => false end.
Definition counting (th : thread) : bool := match th with Client CCount => true | _ => false end.
Definition creating (th : thread) : bool := match th with Client (CCreate | CCount) => true | _ => false end.
Definition handled (th : thread) : bool := match th with Client CRelease | Worker _ (WTerminating | WWait) => true | _ => false end.
Definition pausing (th : thread) : bool := match th with Client CWaiting => true | _ => false end.
Definition calling (th : thread) : bool := match th with Client (CSemaphore | CSemaphoreCreate | CRelease | CBusy | CThreads _ | CMaximum | CLock | CCreate | CCount) => true | _ => false end.
Definition other (th : thread) : bool := match th with Client (CIdle | CDeleteRelease | CRundown | CRundownWait | CFree | CDeleted) | Worker _ _ => false | Client _ => true end.
Definition deleting (th : thread) : bool := match th with Client (CDeleteRelease | CRundown | CRundownWait | CFree | CDeleted) => true | _ => false end.
Definition released (th : thread) : bool := match th with Client (CRundown | CRundownWait | CFree | CDeleted) => true | _ => false end.
Definition freeing (th : thread) : bool := match th with Client (CFree | CDeleted) => true | _ => false end.
Definition deleted (th : thread) : bool := match th with Client CDeleted => true | _ => false end.

Definition hand (th : thread) : list PH_WORK_QUEUE_ITEM := match th with Worker _ (WExecute i | WBusy i | WDestroy i) => [i] | _ => [] end.
Definition in_hand (ts : list thread) : list PH_WORK_QUEUE_ITEM := concat (hand <$> ts).
Definition semaphore (q : PH_WORK_QUEUE) : Z := default 0 (SemaphoreHandle q).

Definition waiting_items (q : PH_WORK_QUEUE) : Z := Z.of_nat (length (Items q)).
Definition semaphores (q : PH_WORK_QUEUE) : Z := match SemaphoreHandle q with Some _ => 1 | None => 0 end.

(** How the counts agree. *)
Record counts (q : PH_WORK_QUEUE) (ts : list thread) : Prop := {
  counts_handle : semaphores q = 0 -> tally_of handled ts = 0;
  counts_semaphore : 0 <= semaphore q;
  counts_tokens : Z.b2z (Terminating q) = 0 -> semaphore q + tally_of token ts + tally_of releasing ts = waiting_items q;
  counts_dequeuing : tally_of dequeuing ts <= waiting_items q;
  counts_small : waiting_items q + MaximumThreads q < 2 ^ 31;
  counts_threads : CurrentThreads q + tally_of counting ts = tally_of alive ts;
  counts_limits : 0 <= CurrentThreads q <= MaximumThreads q;
  counts_lock : tally_of creating ts = Z.b2z (StateLock q);
  counts_room : Z.b2z (StateLock q) = 1 -> CurrentThreads q < MaximumThreads q;
  counts_rundown : RundownProtect q = tally_of present ts;
  counts_pausing : waiting_items q = 0 -> tally_of pausing ts = 0;
  counts_deleting : tally_of deleting ts = Z.b2z (Terminating q);
  counts_other : Z.b2z (Terminating q) = 1 -> tally_of other ts = 0;
  counts_active : Z.b2z (RundownActive q) = 1 -> 0 < tally_of released ts;
  counts_unreleased : Z.b2z (Terminating q) = 1 -> tally_of released ts = 0 -> semaphore q + CurrentThreads q < 2 ^ 31;
  counts_released : 0 < tally_of released ts -> tally_of waits ts <= semaphore q;
  counts_freeing : 0 < tally_of freeing ts -> RundownProtect q = 0;
  counts_deleted : 0 < tally_of deleted ts -> waiting_items q = 0;
  counts_discarded : tally_of deleted ts = 0 -> Z.of_nat (length (discarded q)) = 0;
}.

(** Every item ever queued is somewhere, in order. *)
Record orders (q : PH_WORK_QUEUE) (ts : list thread) : Prop := {
  orders_queued : queued q = started q ++ Items q ++ discarded q;
  orders_hand : started q ≡ₚ freed q ++ in_hand ts;
}.

Lemma b2z_nonneg b : 0 <= Z.b2z b.
Proof. by destruct b. Qed.

Lemma tally_of_nonneg P ts : 0 <= tally_of P ts.
Proof. apply tally_nonneg. intros p. apply b2z_nonneg. Qed.

Lemma tally_of_app P ts ts' : tally_of P (ts ++ ts') = tally_of P ts + tally_of P ts'.
Proof. unfold tally_of. induction ts as [|th ts IH]; simpl; [done|]. rewrite IH. lia. Qed.

Lemma tally_of_insert P ts t th th' : ts !! t = Some th -> tally_of P (<[t := th']> ts) = tally_of P ts - Z.b2z (P th) + Z.b2z (P th').
Proof. intros Ht. unfold tally_of. by rewrite (tally_insert _ ts t th th' Ht). Qed.

Lemma tally_of_wake P ts : (forall th, P (wake th) = P th) -> tally_of P (wake <$> ts) = tally_of P ts.
Proof. intros HP. unfold tally_of. induction ts as [|th ts IH]; csimpl; [done|]. by rewrite HP, IH. Qed.

Lemma tally_of_paused ts : tally_of pausing (wake <$> ts) = 0.
Proof. unfold tally_of. induction ts as [|th ts IH]; csimpl; [done|]. rewrite IH. by destruct th as [[]|]. Qed.

Lemma tally_of_at P ts t th : ts !! t = Some th -> Z.b2z (P th) <= tally_of P ts.
Proof. apply (tally_lookup (fun th => Z.b2z (P th))). intros p. apply b2z_nonneg. Qed.

Lemma tally_of_le P P' ts : (forall th, P th = true -> P' th = true) -> tally_of P ts <= tally_of P' ts.
Proof.
  intros HP. unfold tally_of. induction ts as [|th ts IH]; simpl; [done|]. specialize (HP th). destruct (P th), (P' th); simpl; try lia; by specialize (HP eq_refl).
Qed.

Lemma tally_of_lt P P' ts t th : (forall th, P th = true -> P' th = true) -> ts !! t = Some th -> P th = false -> P' th = true -> tally_of P ts < tally_of P' ts.
Proof.
  intros HP. unfold tally_of. revert t. induction ts as [|u ts IH]; intros [|t] Ht Hf Hf'; simpl in *; simplify_eq.
  - rewrite Hf, Hf'. simpl. pose proof (tally_of_le P P' ts HP) as Hle. unfold tally_of in Hle. lia.
  - specialize (IH t Ht Hf Hf'). specialize (HP u). destruct (P u), (P' u); simpl; try lia; by specialize (HP eq_refl).
Qed.

(** The items in the hands of workers. *)
Lemma in_hand_insert ts t th th' : ts !! t = Some th -> hand th ++ in_hand (<[t := th']> ts) ≡ₚ hand th' ++ in_hand ts.
Proof.
  unfold in_hand. revert t. induction ts as [|u ts IH]; intros [|t] Ht; simpl in *; simplify_eq; [apply Permutation_app_swap_app|].
  rewrite (Permutation_app_swap_app (hand th)), (IH t Ht). apply Permutation_app_swap_app.
Qed.

Lemma in_hand_app ts ts' : in_hand (ts ++ ts') = in_hand ts ++ in_hand ts'.
Proof. unfold in_hand. by rewrite fmap_app, concat_app. Qed.

Lemma in_hand_wake ts : in_hand (wake <$> ts) = in_hand ts.
Proof. unfold in_hand. rewrite <- list_fmap_compose. f_equal. apply list_fmap_ext. intros _ th _. by destruct th as [[]|]. Qed.

(** The counts before a step of thread [t], and what the step does to them. *)
Ltac known Ht ts th :=
  pose proof (tally_of_at handled ts _ th Ht); pose proof (tally_of_at token ts _ th Ht); pose proof (tally_of_at releasing ts _ th Ht);
  pose proof (tally_of_at dequeuing ts _ th Ht); pose proof (tally_of_at counting ts _ th Ht); pose proof (tally_of_at alive ts _ th Ht);
  pose proof (tally_of_at creating ts _ th Ht); pose proof (tally_of_at present ts _ th Ht); pose proof (tally_of_at pausing ts _ th Ht);
  pose proof (tally_of_at deleting ts _ th Ht); pose proof (tally_of_at other ts _ th Ht); pose proof (tally_of_at released ts _ th Ht);
  pose proof (tally_of_at waits ts _ th Ht); pose proof (tally_of_at freeing ts _ th Ht); pose proof (tally_of_at deleted ts _ th Ht).

Ltac recount Ht :=
  rewrite ?tally_of_app; rewrite ?(tally_of_insert _ _ _ _ _ Ht);
  cbn [tally_of tally Z.b2z handled token releasing dequeuing counting alive creating present pausing deleting other released waits freeing deleted Z.add] in *.

Ltac fields := cbn [RundownProtect RundownActive Terminating Items MaximumThreads MinimumThreads StateLock SemaphoreHandle CurrentThreads BusyCount queued started freed discarded
  set_protect set_terminating set_state set_semaphore enqueue dequeue set_busy PhpDestroyWorkQueueItem destroy_items length default is_Some from_option] in *.

Ltac no_implications := repeat match goal with H : ?A -> ?B |- _ => lazymatch type of A with Prop => clear H end end.
Ltac use_implications := repeat match goal with H : ?A -> ?B |- _ => lazymatch type of A with Prop => specialize (H ltac:(no_implications; lia)) end end; no_implications.
Ltac settle := rewrite ?Z.sub_0_r, ?Z.add_0_r, ?Z.sub_add; unfold semaphores, semaphore, waiting_items in *; fields;
  repeat match goal with E : SemaphoreHandle _ = _ |- _ => rewrite E in *; clear E | E : StateLock _ = _ |- _ => rewrite E in *; clear E | E : Terminating _ = _ |- _ => rewrite E in *; clear E end; cbn [default from_option id Z.b2z] in *;
  first [assumption | intros; use_implications; try lia].

Lemma release_all n k : 0 <= k -> n + k < 2 ^ 31 -> release_semaphore n k = n + k.
Proof. intros. unfold release_semaphore. destruct (Z.ltb_spec 0 k), (Z.ltb_spec (n + k) (2 ^ 31)); simpl; lia. Qed.

(** A call other than a deletion is only under way while the queue is not to be deleted. *)
Lemma other_running q ts : counts q ts -> 1 <= tally_of other ts -> Terminating q = false.
Proof. intros [] H. destruct (Terminating q); [|done]. specialize (counts_other0 eq_refl). lia. Qed.

Lemma b2z_range b : 0 <= Z.b2z b <= 1.
Proof. by destruct b. Qed.

(** Which threads are among which. *)
Lemma included ts : tally_of deleted ts <= tally_of freeing ts /\ tally_of freeing ts <= tally_of released ts /\ tally_of released ts <= tally_of deleting ts /\
  tally_of waits ts <= tally_of alive ts /\ tally_of alive ts <= tally_of present ts /\ tally_of dequeuing ts <= tally_of token ts /\ tally_of counting ts <= tally_of creating ts /\ tally_of waits ts <= tally_of handled ts /\
  tally_of creating ts <= tally_of other ts /\ tally_of dequeuing ts <= tally_of alive ts /\ tally_of pausing ts <= tally_of other ts.
Proof. repeat split; apply tally_of_le; by intros [[]|? []]. Qed.

Lemma items_pos q i l : Items q = i :: l -> waiting_items q = Z.of_nat (length l) + 1.
Proof. intros E. unfold waiting_items. rewrite E. simpl. lia. Qed.

Lemma client_counts q ts t c q' c' new : counts q ts -> ts !! t = Some (Client c) -> client_next q c = Some (q', c', new) -> counts q' (<[t := Client c']> ts ++ new).
Proof.
  intros Hc Ht Hn. pose proof (other_running q ts Hc) as Ho. destruct Hc. known Ht ts (Client c). pose proof (included ts) as (? & ? & ? & ? & ? & ? & ? & ? & ? & ? & ?). pose proof (b2z_range (StateLock q)). pose proof (b2z_range (Terminating q)). destruct c; cbn in * |-;
    try (assert (HT : Z.b2z (Terminating q) = 0) by (rewrite Ho by lia; done)); clear Ho; simplify_eq.
  - destruct (SemaphoreHandle q') eqn:E; split; recount Ht; settle.
  - unfold create_semaphore. destruct (SemaphoreHandle q) eqn:E; split; recount Ht; settle.
  - destruct (SemaphoreHandle q) eqn:E; simpl in Hn; simplify_eq. rewrite release_all by (unfold semaphore, waiting_items in *; rewrite E in *; simpl in *; lia). split; recount Ht; settle.
  - split; recount Ht; settle.
  - destruct (_ <=? _); split; recount Ht; settle.
  - destruct (_ <? _); split; recount Ht; settle.
  - destruct (StateLock q) eqn:El; simplify_eq. destruct (Z.ltb_spec (CurrentThreads q) (MaximumThreads q)); simplify_eq; split; recount Ht; try rewrite El; settle.
  - unfold PhpCreateWorkQueueThread in Hn. destruct (RundownActive q) eqn:Ea; simplify_eq; split; recount Ht; settle.
  - rewrite u32_id by (unfold in_width; lia). split; recount Ht; settle.
  - destruct (Items q') as [|i l] eqn:Ei; [|pose proof (items_pos q' i l Ei)]; split; recount Ht; settle.
  - assert (Hr : tally_of released ts < tally_of deleting ts) by (eapply tally_of_lt; [|done..]; by intros [[]|]).
    destruct (SemaphoreHandle q) eqn:E; [rewrite release_all by (unfold semaphore in *; rewrite E in *; cbn [default from_option id] in *; (lia || apply counts_unreleased0; lia))|]; split; recount Ht; settle.
  - split; recount Ht; settle.
  - destruct (Z.eqb_spec (RundownProtect q) 0); simplify_eq. split; recount Ht; settle.
  - split; recount Ht; settle.
Qed.

Ltac repaused := rewrite ?tally_of_paused, ?(tally_of_wake handled), ?(tally_of_wake token), ?(tally_of_wake releasing), ?(tally_of_wake dequeuing), ?(tally_of_wake counting),
  ?(tally_of_wake alive), ?(tally_of_wake creating), ?(tally_of_wake present), ?(tally_of_wake deleting), ?(tally_of_wake released), ?(tally_of_wake waits),
  ?(tally_of_wake freeing), ?(tally_of_wake deleted) by (by intros [[]|]).

(** Those who are woken are other callers as before. *)
Lemma woken_other ts : tally_of other (wake <$> ts) = tally_of other ts.
Proof. apply tally_of_wake. by intros [[]|]. Qed.

Lemma worker_counts q ts t E w q' th' pulse : counts q ts -> ts !! t = Some (Worker E w) -> worker_next q E w = Some (q', th', pulse) ->
  counts q' ((if pulse : bool then wake <$> <[t := th']> ts else <[t := th']> ts) ++ []).
Proof.
  intros Hc Ht Hn. destruct Hc. known Ht ts (Worker E w). pose proof (included ts) as (? & ? & ? & ? & ? & ? & ? & ? & ? & ? & ?). pose proof (b2z_range (StateLock q)). pose proof (b2z_range (Terminating q)).
  destruct w; cbn in * |-; simplify_eq.
  - destruct (_ <? _); split; recount Ht; settle.
  - destruct (StateLock q) eqn:El; simplify_eq. destruct (Z.ltb_spec (MaximumThreads q) (CurrentThreads q)); [lia|]. simpl in Hn. simplify_eq. split; recount Ht; settle.
  - destruct (SemaphoreHandle q') eqn:Es; split; recount Ht; settle.
  - unfold create_semaphore. destruct (SemaphoreHandle q) eqn:Es; split; recount Ht; settle.
  - destruct (Terminating q') eqn:Et; split; recount Ht; settle.
  - destruct (SemaphoreHandle q) as [n|] eqn:Es; simpl in Hn; [|done]. destruct (Z.ltb_spec 0 n); simplify_eq. split; recount Ht; settle.
  - assert (Hd : tally_of dequeuing ts < tally_of token ts) by (eapply tally_of_lt; [|done..]; by intros [|? []]).
    destruct (Terminating q') eqn:Et; split; recount Ht; settle.
  - destruct (Items q) as [|i l] eqn:Ei; simplify_eq; [split; recount Ht; unfold waiting_items in *; rewrite Ei in *; settle|].
    pose proof (items_pos q i l Ei). destruct (bool_decide_reflect (l = [])) as [->|Hl]; [|assert (0 < Z.of_nat (length l)) by (destruct l; [done|simpl; lia])]; split; rewrite ?tally_of_app; repaused; rewrite ?woken_other; recount Ht; settle.
  - split; recount Ht; settle.
  - split; recount Ht; settle.
  - split; recount Ht; settle.
  - destruct (StateLock q) eqn:El; simplify_eq. destruct (Terminating q || _) eqn:Et; simplify_eq; [rewrite u32_id by (unfold in_width, waiting_items in *; cbn [Z.b2z] in *; lia)|]; split; recount Ht; settle.
  - split; recount Ht; settle.
Qed.

(** The call of a client, the wait that times out and the thread that is not created. *)
Lemma call_counts q ts t c q' c' : counts q ts -> ts !! t = Some (Client CIdle) -> permitted (q, ts) c = true -> perform q c = (q', c') -> counts q' (<[t := Client c']> ts ++ []).
Proof.
  intros Hc Ht Hp Hq. apply andb_true_iff in Hp as [HT Hp]. cbn [fst snd] in *. apply negb_true_iff in HT. destruct Hc. known Ht ts (Client CIdle). pose proof (included ts) as (? & ? & ? & ? & ? & ? & ? & ? & ? & ? & ?).
  pose proof (b2z_range (StateLock q)). destruct c; cbn in * |-; unfold PhQueueItemWorkQueueEx in *; simplify_eq.
  - apply Z.ltb_lt in Hp. assert (El : waiting_items (enqueue q (PhpCreateWorkQueueItem f d E)) = waiting_items q + 1) by (unfold waiting_items, enqueue; cbn [Items]; rewrite length_app; simpl; lia).
    split; rewrite ?El; recount Ht; settle.
  - split; recount Ht; settle.
  - assert (Ho : tally_of other ts = 0).
    { unfold tally_of. clear -Hp. induction ts as [|th ts IH]; [done|]. simpl in *. apply andb_true_iff in Hp as [Hth Hp]. rewrite IH by done. by destruct th as [[]|]. }
    split; recount Ht; settle.
Qed.

Lemma timeout_counts q ts t E : counts q ts -> ts !! t = Some (Worker E WWait) -> counts q (<[t := Worker E WLeave]> ts ++ []).
Proof. intros [] Ht. known Ht ts (Worker E WWait). split; recount Ht; settle. Qed.

Lemma failure_counts q ts t : counts q ts -> ts !! t = Some (Client CCreate) -> counts (set_state q false (CurrentThreads q)) (<[t := Client CIdle]> ts ++ []).
Proof.
  intros Hc Ht. pose proof (other_running q ts Hc) as Ho. destruct Hc. known Ht ts (Client CCreate). pose proof (b2z_range (StateLock q)). cbn in * |-.
  assert (HT : Z.b2z (Terminating q) = 0) by (rewrite Ho by lia; done). split; recount Ht; settle.
Qed.

End queue.

End WorkQueue.
