(* ===== verification/WorkQueueProof.v ===== *)
(** * Work queues: every item is run once, in order, and none is left behind

    Theorems about [WorkQueue]: in which order items are run and destroyed, when a queue may run out of
    threads, and how its deletion ends. *)

From S2P Require Import Prelude WorkQueue.

Module WorkQueueProof.
Import WorkQueue.WorkQueue.

Section queue.
Context (settable : priority -> Z -> bool).

(** ** The items *)

Lemma orders_put q ts t th th' new q' : orders q ts -> ts !! t = Some th -> in_hand new = [] -> hand th' = hand th ->
  queued q' = queued q -> started q' = started q -> Items q' = Items q -> discarded q' = discarded q -> freed q' = freed q -> orders q' (<[t := th']> ts ++ new).
Proof.
  intros [O1 O2] Ht Hn Hh E1 E2 E3 E4 E5. split; [by rewrite E1, E2, E3, E4|]. rewrite E2, E5, in_hand_app, Hn, app_nil_r, O2. f_equiv.
  pose proof (in_hand_insert ts t th th' Ht) as Hp. rewrite Hh in Hp. by apply Permutation_app_inv_l in Hp.
Qed.

Lemma create_semaphore_orders q : queued (create_semaphore q) = queued q /\ started (create_semaphore q) = started q /\ Items (create_semaphore q) = Items q /\
  discarded (create_semaphore q) = discarded q /\ freed (create_semaphore q) = freed q.
Proof. unfold create_semaphore. by destruct (SemaphoreHandle q). Qed.

Lemma client_orders q ts t c q' c' new : counts q ts -> orders q ts -> ts !! t = Some (Client c) -> client_next q c = Some (q', c', new) -> orders q' (<[t := Client c']> ts ++ new).
Proof.
  intros Hc Ho Ht Hn. destruct (decide (c = CFree)) as [->|Hne].
  - injection Hn as <- <- <-. destruct Ho as [O1 O2]. split.
    + cbn [queued started Items discarded destroy_items]. rewrite O1. assert (H0 : discarded q = []); [|by rewrite H0, app_nil_r].
      apply length_zero_iff_nil.
      pose proof (tally_of_lt deleted deleting ts t _ ltac:(by intros [[]|]) Ht eq_refl eq_refl). pose proof (tally_of_nonneg deleted ts).
      destruct Hc. pose proof (b2z_range (Terminating q)). lia.
    + cbn [started freed destroy_items]. rewrite O2, in_hand_app, app_nil_r. f_equiv. pose proof (in_hand_insert ts t _ (Client CDeleted) Ht) as Hp. done.
  - destruct c; cbn [client_next] in Hn; unfold PhpCreateWorkQueueThread in Hn; repeat (case_match || simplify_option_eq); try done;
      (eapply orders_put; [exact Ho|exact Ht|done|done|try apply create_semaphore_orders; try done..]).
Qed.

Lemma worker_orders q ts t E w q' th' pulse : orders q ts -> ts !! t = Some (Worker E w) -> worker_next settable q E w = Some (q', th', pulse) ->
  orders q' ((if pulse : bool then wake <$> <[t := th']> ts else <[t := th']> ts) ++ []).
Proof.
  intros Ho Ht Hn.
  assert (Hw : forall q'' th'', orders q'' (<[t := th'']> ts ++ []) -> forall p : bool, orders q'' ((if p then wake <$> <[t := th'']> ts else <[t := th'']> ts) ++ [])).
  { intros q'' th'' [O1 O2] []; [|done]. split; [done|]. rewrite in_hand_app, in_hand_wake, <- in_hand_app. done. }
  apply Hw. clear Hw. destruct w; cbn [worker_next] in Hn.
  all: try (repeat (case_match || simplify_option_eq); try done; (eapply orders_put; [exact Ho|exact Ht|done|done|try apply create_semaphore_orders; try done..]); fail).
  - destruct (Items q) as [|i l] eqn:Ei; simplify_eq; [by eapply orders_put|]. destruct Ho as [O1 O2]. split; cbn [queued started Items discarded freed dequeue].
    + by rewrite O1, Ei, <- app_assoc.
    + rewrite O2, in_hand_app, app_nil_r, <- app_assoc. f_equiv. pose proof (in_hand_insert ts t _ (Worker (PhpUpdateWorkQueueEnvironment settable E (Environment i)) (WExecute i)) Ht) as Hp.
      cbn [hand app] in Hp. rewrite Hp. by rewrite Permutation_app_comm.
  - simplify_eq. destruct Ho as [O1 O2]. split; [done|]. cbn [started freed PhpDestroyWorkQueueItem]. rewrite O2, in_hand_app, app_nil_r, <- app_assoc. f_equiv.
    pose proof (in_hand_insert ts t _ (Worker E WTop) Ht) as Hp. cbn [hand app] in Hp. by rewrite <- Hp.
Qed.

(** ** All steps *)

Definition good (s : state) : Prop := counts s.1 s.2 /\ orders s.1 s.2.

Lemma play_good s m s' : good s -> play settable s m = Some s' -> good s'.
Proof.
  destruct s as [q ts]. intros [Hc Ho] Hp. unfold good in *. cbn [fst snd] in *. destruct m as [t|t c|t|t]; cbn [play fst snd] in Hp; destruct (ts !! t) as [th|] eqn:Ht; try done; cbn [mbind option_bind] in Hp.
  - destruct th as [c|E w]; cbn [next] in Hp.
    + destruct (client_next q c) as [[[q' c'] new]|] eqn:Hn; [|done]. cbn [mbind option_bind] in Hp. injection Hp as <-. cbn [fst snd put].
      split; [by eapply client_counts|by eapply client_orders].
    + destruct (worker_next settable q E w) as [[[q' th'] pulse]|] eqn:Hn; [|done]. cbn [mbind option_bind] in Hp. injection Hp as <-. cbn [fst snd put].
      split; [by eapply worker_counts|by eapply worker_orders].
  - destruct th as [[]|]; try done. destruct (permitted (q, ts) c) eqn:Hperm; [|done]. destruct (perform q c) as [q' c'] eqn:Hq. injection Hp as <-. cbn [fst snd put]. split; [by eapply call_counts|].
    unfold perform, PhQueueItemWorkQueueEx in Hq. destruct c; simplify_eq; try (by eapply orders_put). destruct Ho as [O1 O2]. split; cbn [queued started Items discarded freed enqueue].
    + rewrite O1, <- !app_assoc. apply andb_true_iff in Hperm as [HT _]. apply negb_true_iff in HT. cbn [fst] in HT. assert (H0 : discarded q = []); [|by rewrite H0].
      apply length_zero_iff_nil. destruct Hc. pose proof (tally_of_le deleted deleting ts ltac:(by intros [[]|])). pose proof (tally_of_nonneg deleted ts). rewrite HT in counts_deleting0. cbn [Z.b2z] in counts_deleting0. lia.
    + rewrite O2, in_hand_app, app_nil_r. f_equiv. by pose proof (in_hand_insert ts t _ (Client CSemaphore) Ht).
  - destruct th as [|E []]; try done. injection Hp as <-. cbn [fst snd put]. split; [by apply timeout_counts|by eapply orders_put].
  - destruct th as [[]|]; try done. injection Hp as <-. cbn [fst snd put]. split; [by apply failure_counts|by eapply orders_put].
Qed.

Lemma tally_of_replicate P n th : P th = false -> tally_of P (replicate n th) = 0.
Proof. intros HP. apply tally_replicate. by rewrite HP. Qed.

Lemma initial_good n Minimum Maximum : 0 <= Maximum < 2 ^ 31 -> good (initial n Minimum Maximum).
Proof.
  intros HM. unfold good, initial. cbn [fst snd]. split.
  - split; rewrite ?tally_of_replicate by done; unfold waiting_items; cbn; try done; lia.
  - split; [done|]. cbn. unfold in_hand. rewrite fmap_replicate. cbn. by induction n.
Qed.

(** States reached from the initialization of a queue, with any number of clients. *)
Definition reachable (Minimum Maximum : Z) (s : state) : Prop := exists n, rtc (step settable) (initial n Minimum Maximum) s.

Lemma reachable_good Minimum Maximum s : 0 <= Maximum < 2 ^ 31 -> reachable Minimum Maximum s -> good s.
Proof.
  intros HM [n Hr]. pose proof (initial_good n Minimum Maximum HM) as H0. clear HM. induction Hr as [s|s1 s2 s3 [m Hm] _ IH]; [done|]. apply IH. by eapply play_good.
Qed.

Lemma at_tally P ts t th : ts !! t = Some th -> P th = true -> 0 < tally_of P ts.
Proof. intros Ht HP. pose proof (tally_of_at P ts t th Ht) as H. rewrite HP in H. simpl in H. lia. Qed.

Lemma tally_at P ts : 0 < tally_of P ts -> exists t th, ts !! t = Some th /\ P th = true.
Proof.
  intros H. destruct (tally_pos _ (fun th => b2z_nonneg (P th)) ts H) as (t & th & Ht & Hp). exists t, th. split; [done|]. by destruct (P th).
Qed.

Lemma tally_none P ts : (forall t th, ts !! t = Some th -> P th = false) -> tally_of P ts = 0.
Proof.
  intros HP. destruct (decide (0 < tally_of P ts)) as [Hpos|?]; [|pose proof (tally_of_nonneg P ts); lia]. destruct (tally_at P ts Hpos) as (t & th & Ht & E). rewrite (HP t th Ht) in E. done.
Qed.

(** C33: Every item that was ever queued has been begun by exactly one thread, or waits, or was discarded with the
    queue, in the order in which they were queued; those begun are run or destroyed once. A thread that takes an item
    off finds one, there are never more threads than the maximum, and when the memory of the queue is given back no
    thread will touch it. *)
Theorem work_queue_runs_in_order Minimum Maximum s : 0 <= Maximum < 2 ^ 31 -> reachable Minimum Maximum s ->
  let '(q, ts) := s in
  queued q = started q ++ Items q ++ discarded q /\ started q ≡ₚ freed q ++ in_hand ts /\
  (forall t E, ts !! t = Some (Worker E WDequeue) -> Items q <> []) /\ tally_of alive ts <= MaximumThreads q /\
  (forall t, ts !! t = Some (Client CFree) \/ ts !! t = Some (Client CDeleted) -> forall u E w, ts !! u = Some (Worker E w) -> w = WGone).
Proof.
  intros HM Hr. destruct (reachable_good _ _ s HM Hr) as [Hc [O1 O2]]. destruct s as [q ts]. cbn [fst snd] in *. split; [done|]. split; [done|]. split; [|split].
  - intros t E Ht Hi. pose proof (at_tally dequeuing ts t _ Ht eq_refl). destruct Hc. unfold waiting_items in counts_dequeuing0. rewrite Hi in counts_dequeuing0. simpl in counts_dequeuing0. lia.
  - destruct Hc. pose proof (included ts) as (_ & _ & _ & _ & _ & _ & Hcc & _). rewrite counts_lock0 in Hcc. destruct (StateLock q); cbn [Z.b2z] in *; [specialize (counts_room0 eq_refl)|]; lia.
  - intros t Ht u E w Hu. destruct Hc. assert (Hf : 0 < tally_of freeing ts) by (destruct Ht as [Ht|Ht]; by apply (at_tally freeing ts t _ Ht)).
    specialize (counts_freeing0 Hf). destruct (decide (present (Worker E w) = true)) as [Hw|Hw]; [pose proof (at_tally present ts u _ Hu Hw); lia|]. by destruct w.
Qed.

(** ** When nothing is left to do *)

(** No thread can go on. *)
Definition quiet (s : state) : Prop := forall t th, s.2 !! t = Some th -> next settable s.1 th = None.

Lemma quiet_lock q ts : counts q ts -> quiet (q, ts) -> StateLock q = false.
Proof.
  intros [] Hq. destruct (StateLock q) eqn:El; [|done]. cbn [Z.b2z] in *. destruct (tally_at creating ts ltac:(lia)) as (t & th & Ht & Hth). specialize (Hq t th Ht). cbn [fst] in Hq.
  destruct th as [[]|]; try done. cbn [next client_next] in Hq. unfold PhpCreateWorkQueueThread in Hq. by destruct (RundownActive q).
Qed.

(** Where the threads are then. *)
Lemma quiet_threads q ts t th : counts q ts -> quiet (q, ts) -> ts !! t = Some th ->
  match th with
  | Client c => c = CIdle \/ c = CWaiting \/ c = CDeleted \/ (c = CRundownWait /\ RundownProtect q <> 0)
  | Worker _ w => w = WGone \/ (w = WWait /\ semaphore q = 0)
  end.
Proof.
  intros Hc Hq Ht. pose proof (quiet_lock q ts Hc Hq) as El. specialize (Hq t th Ht). cbn [fst] in Hq. pose proof (at_tally handled ts t th Ht) as Hh. destruct Hc.
  assert (Hsome : handled th = true -> exists n, SemaphoreHandle q = Some n).
  { intros Hth. specialize (Hh Hth). unfold semaphores in counts_handle0. destruct (SemaphoreHandle q) as [n|]; [by eexists|]. specialize (counts_handle0 eq_refl). lia. }
  destruct th as [c|E w]; cbn [next] in Hq.
  - destruct c; cbn [client_next] in Hq; try done; auto.
    + destruct (Hsome eq_refl) as [n En]. by rewrite En in Hq.
    + rewrite El in Hq. by destruct (_ <? _).
    + unfold PhpCreateWorkQueueThread in Hq. by destruct (RundownActive q).
    + destruct (Z.eqb_spec (RundownProtect q) 0); [done|]. auto.
  - destruct w; cbn [worker_next] in Hq; try done; auto.
    + rewrite El in Hq. by destruct (_ && _).
    + destruct (Hsome eq_refl) as [n En]. unfold semaphore in *. rewrite En in *. cbn [mbind option_bind default from_option id] in *. destruct (Z.ltb_spec 0 n); [done|]. right. split; [done|lia].
    + by destruct (Items q).
    + rewrite El in Hq. by destruct (_ || _).
Qed.

Lemma quiet_hand q ts : counts q ts -> quiet (q, ts) -> in_hand ts = [].
Proof.
  intros Hc Hq. unfold in_hand. assert (H : Forall (fun l : list PH_WORK_QUEUE_ITEM => l = []) (hand <$> ts)).
  { apply Forall_fmap, Forall_lookup. intros t th Ht. cbn. pose proof (quiet_threads q ts t th Hc Hq Ht) as Hth. destruct th as [c|E w]; [done|]. by destruct Hth as [->|[-> _]]. }
  clear Hc Hq. induction H as [|l ls -> _ IH]; [done|]. exact IH.
Qed.

(** ** The deletion of a queue

    How many steps a thread has left at most, once the queue is to be deleted: an item that it holds is
    run, then it ends. *)
Definition worker_rank (w : worker) : Z :=
  match w with
  | WDequeue => 13 | WExecute _ => 12 | WBusy _ => 11 | WDestroy _ => 10 | WTop => 9 | WOver => 8 | WSemaphore => 7 | WSemaphoreCreate => 6
  | WTerminating => 5 | WWait => 4 | WWoken => 3 | WLeave => 2 | WRundown => 1 | WGone => 0
  end.
Definition client_rank (c : client) : Z := match c with CDeleteRelease => 4 | CRundown => 3 | CRundownWait => 2 | CFree => 1 | _ => 0 end.
Definition rank (th : thread) : Z := match th with Client c => client_rank c | Worker _ w => worker_rank w end.

Lemma rank_range th : 0 <= rank th <= 13.
Proof. destruct th as [[]|? []]; cbn; lia. Qed.

Lemma rank_total ts : 0 <= tally rank ts <= 13 * Z.of_nat (length ts).
Proof. induction ts as [|th ts IH]; cbn [tally length]; [lia|]. pose proof (rank_range th). lia. Qed.

Lemma rank_wake ts : tally rank (wake <$> ts) = tally rank ts.
Proof. induction ts as [|th ts IH]; csimpl; [done|]. rewrite IH. f_equal. by destruct th as [[]|]. Qed.

(** The thread that moves has less to do, and it starts no others. *)
Lemma rank_put q ts t th th' pulse : ts !! t = Some th -> rank th' < rank th -> tally rank (put (q, ts) t q th' [] pulse).2 < tally rank ts.
Proof.
  intros Ht Hr. unfold put. cbn [fst snd]. rewrite app_nil_r. pose proof (tally_insert rank ts t th th' Ht) as H. destruct pulse; [rewrite rank_wake|]; lia.
Qed.

Lemma client_rank_next q ts t c q' c' new : counts q ts -> Terminating q = true -> ts !! t = Some (Client c) -> client_next q c = Some (q', c', new) ->
  Terminating q' = true /\ new = [] /\ client_rank c' < client_rank c.
Proof.
  intros Hc HT Ht Hn. pose proof (counts_other q ts Hc) as Ho. rewrite HT in Ho. specialize (Ho eq_refl). pose proof (tally_of_at other ts t _ Ht) as Hot. rewrite Ho in Hot.
  destruct c; cbn [client_next other Z.b2z] in *; try lia; try done; repeat (case_match || simplify_option_eq); try done.
Qed.

Lemma worker_rank_next q E w q' th' pulse : Terminating q = true -> worker_next settable q E w = Some (q', th', pulse) ->
  Terminating q' = true /\ rank th' < worker_rank w.
Proof.
  intros HT Hn. destruct w; cbn [worker_next] in Hn; rewrite ?HT in Hn; cbn [orb] in Hn; unfold create_semaphore in Hn; repeat (case_match || simplify_option_eq); try done.
Qed.

Lemma play_rank s m s' : good s -> Terminating s.1 = true -> play settable s m = Some s' -> Terminating s'.1 = true /\ tally rank s'.2 < tally rank s.2.
Proof.
  destruct s as [q ts]. intros [Hc _] HT Hp. cbn [fst snd] in *. destruct m as [t|t c|t|t]; cbn [play fst snd] in Hp; destruct (ts !! t) as [th|] eqn:Ht; try done; cbn [mbind option_bind] in Hp.
  - destruct th as [c|E w]; cbn [next] in Hp.
    + destruct (client_next q c) as [[[q' c'] new]|] eqn:Hn; [|done]. cbn [mbind option_bind] in Hp. injection Hp as <-. destruct (client_rank_next _ _ _ _ _ _ _ Hc HT Ht Hn) as (? & -> & ?). split; [done|]. by apply (rank_put q' ts t (Client c)).
    + destruct (worker_next settable q E w) as [[[q' th'] pulse]|] eqn:Hn; [|done]. cbn [mbind option_bind] in Hp. injection Hp as <-. destruct (worker_rank_next _ _ _ _ _ _ HT Hn). split; [done|]. by apply (rank_put q' ts t (Worker E w)).
  - destruct th as [[]|]; try done. unfold permitted in Hp. cbn [fst] in Hp. by rewrite HT in Hp.
  - destruct th as [|E []]; try done. injection Hp as <-. split; [done|]. by apply (rank_put q ts t (Worker E WWait)).
  - destruct th as [[]|]; try done. pose proof (counts_other q ts Hc) as Ho. rewrite HT in Ho. specialize (Ho eq_refl). pose proof (at_tally other ts t _ Ht eq_refl). lia.
Qed.

(** Every run is as short as that. *)
Lemma runs_end m s s' : good s -> Terminating s.1 = true -> nsteps (step settable) m s s' -> good s' /\ Terminating s'.1 = true /\ Z.of_nat m + tally rank s'.2 <= tally rank s.2.
Proof.
  intros Hg HT Hm. induction Hm as [s|m s1 s2 s3 [mv Hs] Hm IH]; [split; [done|split; [done|lia]]|]. destruct (play_rank _ _ _ Hg HT Hs) as [HT2 Hr]. destruct (IH (play_good _ _ _ Hg Hs) HT2) as (? & ? & ?). split; [done|split; [done|lia]].
Qed.

(** What the deletion leaves. *)
Lemma quiet_deleted s : good s -> Terminating s.1 = true -> quiet s ->
  (exists t, s.2 !! t = Some (Client CDeleted)) /\ (forall t E w, s.2 !! t = Some (Worker E w) -> w = WGone) /\ Items s.1 = [] /\ queued s.1 ≡ₚ freed s.1 ++ discarded s.1.
Proof.
  intros [Hc [O1 O2]] HT Hq. destruct s as [q ts]. cbn [fst snd] in *. pose proof (quiet_threads q ts) as Hth. pose proof (quiet_hand q ts Hc Hq) as Hh.
  pose proof Hc as []. rewrite HT in counts_deleting0. cbn [Z.b2z] in counts_deleting0. destruct (tally_at deleting ts ltac:(lia)) as (d & thd & Hd & Hdel).
  assert (Hrel : 0 < tally_of released ts) by (apply (at_tally released ts d thd Hd); pose proof (Hth d thd Hc Hq Hd) as H; destruct thd as [c|]; [|done]; destruct H as [->|[->|[->|[-> _]]]]; done).
  assert (Hgone : forall t E w, ts !! t = Some (Worker E w) -> w = WGone).
  { intros t E w Ht. destruct (Hth t _ Hc Hq Ht) as [?|[-> Hs]]; [done|]. pose proof (at_tally waits ts t _ Ht eq_refl). specialize (counts_released0 Hrel). lia. }
  assert (H0 : tally_of present ts = 0) by (apply tally_none; intros t [|E w] Ht; [done|]; by rewrite (Hgone t E w Ht)).
  assert (Hdd : ts !! d = Some (Client CDeleted)).
  { pose proof (Hth d thd Hc Hq Hd) as H. destruct thd as [c|]; [|done]. destruct H as [->|[->|[->|[-> Hne]]]]; try done. lia. }
  assert (Hi : Items q = []) by (apply length_zero_iff_nil; specialize (counts_deleted0 (at_tally deleted ts d _ Hdd eq_refl)); unfold waiting_items in counts_deleted0; lia).
  split; [by exists d|]. split; [done|]. split; [done|]. rewrite O1, O2, Hi, Hh. by rewrite app_nil_r.
Qed.

(** C35: The deletion of a queue ends, whatever the threads and the items were doing: once the queue is to be deleted,
    no run of its threads is longer than 13 steps for each thread (an item that is being run counts as a step), and
    when no thread can go on the deletion has returned, all threads of the queue have ended, and every item that was
    ever queued has been destroyed once, either after it was run or with the queue. *)
Theorem work_queue_deletion_completes Minimum Maximum s : 0 <= Maximum < 2 ^ 31 -> reachable Minimum Maximum s -> Terminating s.1 = true ->
  (forall m s', nsteps (step settable) m s s' -> (m <= 13 * length s.2)%nat) /\
  (forall s', rtc (step settable) s s' -> quiet s' ->
    (exists t, s'.2 !! t = Some (Client CDeleted)) /\ (forall t E w, s'.2 !! t = Some (Worker E w) -> w = WGone) /\ Items s'.1 = [] /\ queued s'.1 ≡ₚ freed s'.1 ++ discarded s'.1).
Proof.
  intros HM Hr HT. pose proof (reachable_good _ _ s HM Hr) as Hg. split.
  - intros m s' Hm. destruct (runs_end m s s' Hg HT Hm) as (_ & _ & Hle). pose proof (rank_total s.2). pose proof (rank_total s'.2). lia.
  - intros s' Hs Hq. apply rtc_nsteps in Hs as [m Hm]. destruct (runs_end m s s' Hg HT Hm) as (Hg' & HT' & _). by apply quiet_deleted.
Qed.

(** ** Queues that drain

    Steps after which items do not lose their last thread: a queue with a minimum of threads has no
    others; and every thread that is to be created is. *)
Definition kept (s s' : state) : Prop := exists m, play settable s m = Some s' /\ (forall t, m <> NoThread t) /\
  (0 < MinimumThreads s.1 \/ Items s.1 = [] \/ CurrentThreads s.1 = 0 \/ 0 < CurrentThreads s'.1).

(** Somebody is there for the items, or about to be. *)
Record served (q : PH_WORK_QUEUE) (ts : list thread) : Prop := {
  served_call : Terminating q = false -> Items q <> [] -> 0 < CurrentThreads q \/ 0 < tally_of calling ts;
  served_busy : 0 <= BusyCount q /\ forall t b, ts !! t = Some (Client (CThreads b)) -> 0 <= b;
  served_room : 0 < MaximumThreads q;
}.

Lemma tally_of_calling_wake ts : tally_of calling (wake <$> ts) = tally_of calling ts.
Proof. apply tally_of_wake. by intros [[]|]. Qed.

Lemma served_put q ts t th th' new q' : served q ts -> ts !! t = Some th -> 0 <= BusyCount q' -> MaximumThreads q' = MaximumThreads q ->
  (forall b, th' = Client (CThreads b) -> 0 <= b) -> (forall b, Client (CThreads b) ∉ new) -> (Terminating q' = false -> Terminating q = false) ->
  (Terminating q' = false -> Items q' <> [] -> 0 < CurrentThreads q' \/ calling th' = true \/ (Items q <> [] /\ calling th = false /\ CurrentThreads q' = CurrentThreads q)) ->
  served q' (<[t := th']> ts ++ new).
Proof.
  intros [S1 [S2 S3] S4] Ht Hb HM Hth Hnew HT Hc. split; [|split; [done|]|by rewrite HM].
  - intros HT' Hi. rewrite tally_of_app, (tally_of_insert _ _ _ _ _ Ht). pose proof (tally_of_nonneg calling new). pose proof (tally_of_at calling ts t th Ht).
    destruct (Hc HT' Hi) as [?|[->|(Hi0 & -> & ->)]]; [by left|right; simpl; lia|]. destruct (S1 (HT HT') Hi0) as [?|?]; [by left|right]. cbn [Z.b2z]. pose proof (b2z_nonneg (calling th')). lia.
  - intros u b [Hu|Hu]%lookup_app_Some.
    + apply list_lookup_insert_Some in Hu as [(-> & E & _)|[_ Hu]]; [by apply Hth|by eapply S3].
    + destruct Hu as [_ Hu]. exfalso. eapply Hnew, list_elem_of_lookup_2, Hu.
Qed.

Lemma client_served q ts t c q' c' new : counts q ts -> served q ts -> ts !! t = Some (Client c) -> client_next q c = Some (q', c', new) -> served q' (<[t := Client c']> ts ++ new).
Proof.
  intros Hc Hs Ht Hn. pose proof Hs as [S1 [S2 S3] S4]. pose proof (counts_limits q ts Hc) as Hlim. pose proof (counts_active q ts Hc) as Hact. pose proof (other_running q ts Hc) as Hor. pose proof (at_tally other ts t _ Ht) as Hoth.
  destruct c; cbn [client_next] in Hn; simplify_eq.
  all: try (eapply served_put; [exact Hs|exact Ht|done|done|done|by intros b Hin%elem_of_nil|done|]; intros _ Hi; by auto).
  - eapply served_put; [exact Hs|exact Ht|done|done|by destruct (SemaphoreHandle q')|by intros b Hin%elem_of_nil|done|]. intros _ _. right. left. by destruct (SemaphoreHandle q').
  - destruct (create_semaphore_orders q) as (_ & _ & Ei & _). eapply served_put; [exact Hs|exact Ht| | |done|by intros b Hin%elem_of_nil| |intros _ _; by auto]; unfold create_semaphore; by destruct (SemaphoreHandle q).
  - destruct (SemaphoreHandle q); [|done]. simpl in Hn. simplify_eq. eapply served_put; [exact Hs|exact Ht|done|done|done|by intros b Hin%elem_of_nil|done|]. intros _ _. by auto.
  - eapply served_put; [exact Hs|exact Ht|done|done|intros b E; by simplify_eq|by intros b Hin%elem_of_nil|done|]. intros _ _. by auto.
  - eapply served_put; [exact Hs|exact Ht|done|done|by destruct (_ <=? _)|by intros b Hin%elem_of_nil|done|]. intros _ _. specialize (S3 t busy Ht).
    destruct (Z.leb_spec (CurrentThreads q') busy); [by auto|left; lia].
  - eapply served_put; [exact Hs|exact Ht|done|done|by destruct (_ <? _)|by intros b Hin%elem_of_nil|done|]. intros _ _. destruct (Z.ltb_spec (CurrentThreads q') (MaximumThreads q')); [by auto|left; lia].
  - destruct (StateLock q); simplify_eq. destruct (Z.ltb_spec (CurrentThreads q) (MaximumThreads q)); simplify_eq;
      (eapply served_put; [exact Hs|exact Ht|done|done|done|by intros b Hin%elem_of_nil|done|]); intros _ _; [by auto|left; lia].
  - unfold PhpCreateWorkQueueThread in Hn. destruct (RundownActive q) eqn:Ea; simplify_eq.
    + exfalso. specialize (Hor ltac:(specialize (Hoth eq_refl); lia)). cbn [Z.b2z] in Hact. specialize (Hact eq_refl). destruct (included ts) as (_ & _ & Hrd & _). pose proof (counts_deleting q ts Hc) as Hd. rewrite Hor in Hd. cbn [Z.b2z] in Hd. lia.
    + eapply served_put; [exact Hs|exact Ht|done|done|done| |done|intros _ _; by auto]. intros b Hin. apply list_elem_of_singleton in Hin. done.
  - pose proof (counts_small q ts Hc) as Hsm. unfold waiting_items in Hsm. eapply served_put; [exact Hs|exact Ht|done|done|done|by intros b Hin%elem_of_nil|done|]. intros _ _. left. cbn [CurrentThreads set_state]. rewrite u32_id by (unfold in_width; lia). lia.
  - eapply served_put; [exact Hs|exact Ht|done|done|by destruct (Items q')|by intros b Hin%elem_of_nil|done|]. intros _ Hi. by auto.
  - eapply served_put; [exact Hs|exact Ht|by destruct (SemaphoreHandle q)|by destruct (SemaphoreHandle q)|done|by intros b Hin%elem_of_nil|by destruct (SemaphoreHandle q)|]. intros _ Hi. right. right. destruct (SemaphoreHandle q); by auto.
  - destruct (RundownProtect q =? 0); simplify_eq. eapply served_put; [exact Hs|exact Ht|done|done|done|by intros b Hin%elem_of_nil|done|]. intros _ Hi. by auto.
Qed.

Lemma served_wake q ts : served q ts -> served q (wake <$> ts).
Proof.
  intros [S1 [S2 S3] S4]. split; [by rewrite tally_of_calling_wake|split; [done|]|done].
  intros t b Ht. rewrite list_lookup_fmap in Ht. destruct (ts !! t) as [th|] eqn:E; [|done]. cbn in Ht. injection Ht as Ht. apply (S3 t). rewrite E. destruct th as [[]|]; cbn in Ht; congruence.
Qed.

Lemma worker_served q ts t E w q' th' pulse : counts q ts -> served q ts -> ts !! t = Some (Worker E w) -> worker_next settable q E w = Some (q', th', pulse) ->
  (0 < MinimumThreads q \/ Items q = [] \/ CurrentThreads q = 0 \/ 0 < CurrentThreads q') -> served q' ((if pulse : bool then wake <$> <[t := th']> ts else <[t := th']> ts) ++ []).
Proof.
  intros Hc Hs Ht Hn Hk. pose proof Hs as [S1 [S2 S3] S4]. pose proof (counts_limits q ts Hc) as Hlim. pose proof (counts_small q ts Hc) as Hsm. unfold waiting_items in Hsm.
  assert (Hw : served q' (<[t := th']> ts ++ []) -> served q' ((if pulse then wake <$> <[t := th']> ts else <[t := th']> ts) ++ [])) by (rewrite !app_nil_r; destruct pulse; [apply served_wake|done]).
  assert (Hleave : StateLock q = false -> CurrentThreads q <> 0 -> served (set_state q false (CurrentThreads q -₃₂ 1)) (<[t := Worker E WRundown]> ts ++ []) \/ (Terminating q = false /\ Items q <> [] /\ CurrentThreads q = 1)).
  { intros El Hne. destruct (decide (Terminating q = false /\ Items q <> [] /\ CurrentThreads q = 1)) as [?|Hno]; [by right|left].
    eapply served_put; [exact Hs|exact Ht|done|done|done|by intros b Hin%elem_of_nil|done|]. cbn [Terminating Items CurrentThreads set_state]. intros HT Hi. left.
    destruct (decide (CurrentThreads q = 1)); [by destruct Hno|]. rewrite u32_id by (unfold in_width; lia). lia. }
  apply Hw. clear Hw. destruct w; cbn [worker_next] in Hn; simplify_eq.
  all: try (eapply served_put; [exact Hs|exact Ht|done|done|done|by intros b Hin%elem_of_nil|done|]; intros _ Hi; by auto).
  - destruct (StateLock q); simplify_eq. destruct (Z.ltb_spec (MaximumThreads q) (CurrentThreads q)); [lia|]. simpl in Hn. simplify_eq.
    eapply served_put; [exact Hs|exact Ht|done|done|done|by intros b Hin%elem_of_nil|done|]. intros _ Hi. by auto.
  - eapply served_put; [exact Hs|exact Ht| | |done|by intros b Hin%elem_of_nil| |]; unfold create_semaphore; destruct (SemaphoreHandle q); cbn [Items set_semaphore]; auto.
  - destruct (SemaphoreHandle q) as [n|]; [|done]. simpl in Hn. destruct (0 <? n); simplify_eq. eapply served_put; [exact Hs|exact Ht|done|done|done|by intros b Hin%elem_of_nil|done|]. intros _ Hi. by auto.
  - destruct (Items q) as [|i l] eqn:Ei; simplify_eq; (eapply served_put; [exact Hs|exact Ht|done|done|done|by intros b Hin%elem_of_nil|done|]); intros _ Hi; [done|]. right. right. by rewrite Ei.
  - eapply served_put; [exact Hs|exact Ht| |done|done|by intros b Hin%elem_of_nil|done|]; [cbn [BusyCount set_busy]; apply u32_range|]. intros _ Hi. by auto.
  - destruct (StateLock q) eqn:El; simplify_eq. destruct (Terminating q || _) eqn:Et; simplify_eq.
    + pose proof (counts_threads q ts Hc) as Hth. pose proof (counts_lock q ts Hc) as Hl. rewrite El in Hl. cbn [Z.b2z] in Hl. destruct (included ts) as (_ & _ & _ & _ & _ & _ & Hcc & _).
      pose proof (at_tally alive ts t _ Ht eq_refl). pose proof (tally_of_nonneg counting ts). destruct (Hleave eq_refl ltac:(lia)) as [?|(HT & Hi & E1)]; [done|]. exfalso.
      rewrite HT in Et. simpl in Et. apply Z.ltb_lt in Et. cbn [CurrentThreads set_state] in Hk. rewrite E1 in Hk. change (1 -₃₂ 1) with 0 in Hk. destruct Hk as [?|[?|[?|?]]]; [lia|done|lia|lia].
    + eapply served_put; [exact Hs|exact Ht|done|done|done|by intros b Hin%elem_of_nil|done|]. intros _ Hi. by auto.
Qed.

Lemma kept_step s s' : good s -> served s.1 s.2 -> kept s s' -> good s' /\ served s'.1 s'.2.
Proof.
  intros Hg Hs (m & Hm & Hno & Hk). split; [by eapply play_good|]. destruct s as [q ts], Hg as [Hc _]. cbn [fst snd] in *.
  destruct m as [t|t c|t|t]; cbn [play fst snd] in Hm; destruct (ts !! t) as [th|] eqn:Ht; try done; cbn [mbind option_bind] in Hm.
  - destruct th as [c|E w]; cbn [next] in Hm.
    + destruct (client_next q c) as [[[q' c'] new]|] eqn:Hn; [|done]. cbn [mbind option_bind] in Hm. injection Hm as <-. cbn [fst snd put]. by eapply client_served.
    + destruct (worker_next settable q E w) as [[[q' th'] pulse]|] eqn:Hn; [|done]. cbn [mbind option_bind] in Hm. injection Hm as <-. cbn [fst snd put] in *. by eapply worker_served.
  - destruct th as [[]|]; try done. destruct (permitted (q, ts) c) eqn:Hperm; [|done]. destruct (perform q c) as [q' c'] eqn:Hq. injection Hm as <-. cbn [fst snd put].
    unfold perform, PhQueueItemWorkQueueEx in Hq. destruct c; simplify_eq; (eapply served_put; [exact Hs|exact Ht| |done|done|by intros b Hin%elem_of_nil|done|]); try apply Hs; try (by intros _ Hi; auto); apply u32_range.
  - destruct th as [|E []]; try done. injection Hm as <-. cbn [fst snd put]. eapply served_put; [exact Hs|exact Ht|apply Hs|done|done|by intros b Hin%elem_of_nil|done|]. intros _ Hi. by auto.
  - by destruct (Hno t).
Qed.


(** The environment that an item runs under: its own, where the system allows. *)
Lemma update_environment Current New : let E := PhpUpdateWorkQueueEnvironment settable Current New in
  (settable Base (BasePriority New) = true -> BasePriority E = BasePriority New) /\ (settable Io (IoPriority New) = true -> IoPriority E = IoPriority New) /\
  (settable Page (PagePriority New) = true -> PagePriority E = PagePriority New).
Proof.
  assert (H : forall k f c n, settable k n = true -> update_field settable k f c n = n).
  { intros k f c n Hk. unfold update_field. rewrite Hk. destruct (Z.eqb_spec c n) as [->|]; simpl; [by destruct f|done]. }
  cbn. auto.
Qed.

Fixpoint plays (s : state) (ms : list move) : option state := match ms with [] => Some s | m :: ms => s ← play settable s m; plays s ms end.

Lemma moves_steps s ms s' : plays s ms = Some s' -> rtc (step settable) s s'.
Proof.
  revert s. induction ms as [|m ms IH]; intros s; simpl; [by intros [= <-]|]. destruct (play settable s m) as [s1|] eqn:E; [|done]. cbn [mbind option_bind]. intros H. eapply rtc_l; [by exists m|by apply IH].
Qed.

(** The moves of [kept]. *)
Definition keeps (s : state) (m : move) : option state :=
  s' ← play settable s m;
  if match m with NoThread _ => false | _ => (0 <? MinimumThreads s.1) || bool_decide (Items s.1 = []) || (CurrentThreads s.1 =? 0) || (0 <? CurrentThreads s'.1) end then Some s' else None.
Fixpoint keep_all (s : state) (ms : list move) : option state := match ms with [] => Some s | m :: ms => s ← keeps s m; keep_all s ms end.

Lemma keep_all_kept s ms s' : keep_all s ms = Some s' -> rtc kept s s'.
Proof.
  revert s. induction ms as [|m ms IH]; intros s; simpl; [by intros [= <-]|]. unfold keeps. destruct (play settable s m) as [s1|] eqn:E; [|done]. cbn [mbind option_bind].
  destruct (match m with NoThread _ => false | _ => _ end) eqn:Ek; [|done]. cbn [mbind option_bind]. intros H. eapply rtc_l; [|by apply IH]. exists m. split; [done|]. split; [by intros t ->|].
  destruct m; try done; rewrite !orb_true_iff, Z.ltb_lt, bool_decide_eq_true, Z.eqb_eq, Z.ltb_lt in Ek; tauto.
Qed.

Definition quietb (s : state) : bool := forallb (fun th => match next settable s.1 th with Some _ => false | None => true end) s.2.

Lemma quietb_quiet s : quietb s = true -> quiet s.
Proof.
  intros Hq t th Ht. unfold quietb in Hq. rewrite forallb_forall in Hq. specialize (Hq th ltac:(by eapply list_elem_of_In, list_elem_of_lookup_2)). by destruct (next settable s.1 th).
Qed.

End queue.

(** ** Executions that compute *)

(** Every priority can be set. *)
Definition any (k : priority) (n : Z) : bool := true.

(** An execution that ends in a state that passes a test. *)
Lemma ends_in {A} (o : option A) (test : A -> bool) : match o with Some a => test a | None => false end = true -> exists a, o = Some a /\ test a = true.
Proof. destruct o as [a|]; [by exists a|done]. Qed.

Definition go (t n : nat) : list move := replicate n (Next t).

(** Runs in which every thread that is to be created is. *)
Definition creates (s s' : state) : Prop := exists m, play any s m = Some s' /\ forall t, m <> NoThread t.
Definition no_failure (m : move) : bool := match m with NoThread _ => false | _ => true end.

Lemma moves_create s ms s' : plays any s ms = Some s' -> forallb no_failure ms = true -> rtc creates s s'.
Proof.
  revert s. induction ms as [|m ms IH]; intros s; cbn [plays forallb]; [by intros [= <-]|]. destruct (play any s m) as [s1|] eqn:E; [|done]. cbn [mbind option_bind]. intros H [Hm Hms]%andb_true_iff.
  eapply rtc_l; [exists m; split; [exact E|by intros t ->]|by apply IH].
Qed.

(** The workers have all stopped to wait: they are about to leave, or have left. *)
Definition leaving (th : thread) : bool := match th with Client _ => true | Worker _ w => match w with WLeave | WRundown | WGone => true | _ => false end end.

(** Two workers have run an item each and have waited in vain, but have not left yet, when the third item is
    queued: as many threads as there are items seem to be free. *)
Definition stranding : list move :=
  Call 0 (Queue 7 false None) :: go 0 9 ++ go 1 6 ++ Call 0 (Queue 7 false None) :: go 0 8 ++ go 1 6 ++ go 2 12 ++
  [Timeout 1; Timeout 2] ++ Call 0 (Queue 8 false None) :: go 0 3.

(** The state in which the call looks at CurrentThreads; and the rest of the run. *)
Definition counted (s : state) : bool :=
  match s.2 !! 0%nat with Some (Client (CThreads busy)) => busy <? CurrentThreads s.1 | _ => false end &&
  (CurrentThreads s.1 <? MaximumThreads s.1) && forallb leaving s.2 && negb (bool_decide (Items s.1 = [])) && negb (Terminating s.1).
Definition stranded (s : state) : bool := negb (Terminating s.1) && quietb any s && (CurrentThreads s.1 =? 0) && negb (bool_decide (Items s.1 = [])) && forallb (fun th => negb (alive th)) s.2.

Lemma counted_spec s : counted s = true -> exists busy, s.2 !! 0%nat = Some (Client (CThreads busy)) /\ busy < CurrentThreads s.1 < MaximumThreads s.1 /\ Items s.1 <> [] /\ forall th, th ∈ s.2 -> leaving th = true.
Proof.
  unfold counted. destruct (s.2 !! 0%nat) as [[[]|]|]; try done. rewrite !andb_true_iff, !negb_true_iff, bool_decide_eq_false, !Z.ltb_lt, forallb_forall. intros [[[[? ?] Hl] ?] _].
  exists busy. split; [done|]. split; [done|]. split; [done|]. intros th Hth. by apply Hl, list_elem_of_In.
Qed.

Lemma stranded_spec s : stranded s = true -> quiet any s /\ Terminating s.1 = false /\ CurrentThreads s.1 = 0 /\ Items s.1 <> [] /\ forall th, th ∈ s.2 -> alive th = false.
Proof.
  unfold stranded. rewrite !andb_true_iff, !negb_true_iff, bool_decide_eq_false, Z.eqb_eq, forallb_forall. intros [[[[? ?] ?] ?] Ha].
  split; [by apply quietb_quiet|]. do 3 (split; [done|]). intros th Hth. apply negb_true_iff. by apply Ha, list_elem_of_In.
Qed.

(** The call returns in between. *)
Definition returned (s : state) : bool := match s.2 !! 0%nat with Some (Client CIdle) => true | _ => false end.
Lemma returned_spec s : returned s = true -> s.2 !! 0%nat = Some (Client CIdle).
Proof. unfold returned. by destruct (s.2 !! 0%nat) as [[[]|]|]. Qed.

Lemma stranding_ends : exists s0, plays any (initial 1 0 3) stranding = Some s0 /\ counted s0 &&
  match play any s0 (Next 0) with Some s1 => returned s1 && match plays any s1 (go 1 2 ++ go 2 2) with Some s2 => stranded s2 | None => false end | None => false end = true.
Proof. apply ends_in. by vm_compute. Qed.

(** C36: An item can be left behind by a queue without a minimum of threads, as the global queue is, although no
    creation of a thread fails: PhQueueItemWorkQueueEx finds fewer items (BusyCount) than threads (CurrentThreads), and
    returns without a new thread although the maximum is not reached, while all those threads have stopped to wait and
    are about to leave; then they leave. The queue is not being deleted, no thread can go on, there is no worker left,
    and the item waits. *)
Theorem work_item_stranded : exists s0 s1 s2 t busy,
  rtc creates (initial 1 0 3) s0 /\ s0.2 !! t = Some (Client (CThreads busy)) /\ busy < CurrentThreads s0.1 < MaximumThreads s0.1 /\ Items s0.1 <> [] /\ (forall th, th ∈ s0.2 -> leaving th = true) /\
  play any s0 (Next t) = Some s1 /\ s1.2 !! t = Some (Client CIdle) /\
  rtc creates s1 s2 /\ quiet any s2 /\ Terminating s2.1 = false /\ CurrentThreads s2.1 = 0 /\ Items s2.1 <> [] /\ (forall th, th ∈ s2.2 -> alive th = false).
Proof.
  destruct stranding_ends as (s0 & E0 & [H0 H]%andb_true_iff). destruct (play any s0 (Next 0)) as [s1|] eqn:E1; [|discriminate]. apply andb_true_iff in H as [Hi H]. destruct (plays any s1 _) as [s2|] eqn:E2; [|discriminate].
  destruct (counted_spec s0 H0) as (busy & ? & ? & ? & ?). exists s0, s1, s2, 0%nat, busy. pose proof (returned_spec s1 Hi). pose proof (stranded_spec s2 H).
  apply moves_create in E0; [|reflexivity]. apply moves_create in E2; [|reflexivity]. tauto.
Qed.

(** PhWaitForWorkQueue returns while the last item is still being run. *)
Definition waiting : list move := Call 0 (Queue 7 false None) :: go 0 9 ++ go 2 6 ++ Call 1 Wait :: go 1 1.

Lemma wait_returns_early : exists s, plays any (initial 2 0 3) waiting = Some s /\
  match s.2 with [_; Client CIdle; Worker _ (WExecute i)] => bool_decide (i = PhpCreateWorkQueueItem 7 false None) | _ => false end = true.
Proof. apply ends_in. by vm_compute. Qed.

(** ** Examples *)

(** Two items and their deletion in the middle of the first. *)
Definition to_delete : list move :=
  Call 0 (Queue 7 false None) :: go 0 9 ++ go 1 6 ++ [Call 0 (Queue 8 false (Some {| BasePriority := -1; IoPriority := 1; PagePriority := 2; ForceUpdate := true |}))] ++ go 0 8 ++ [Call 0 Delete].
Definition deleting_run : list move := go 0 2 ++ go 1 8 ++ go 2 5 ++ go 0 2.

Lemma deletion_ends : exists s0, plays any (initial 1 0 3) to_delete = Some s0 /\ Terminating s0.1 && match plays any s0 deleting_run with
  | Some s => quietb any s && (length (freed s.1) =? 1)%nat && (length (discarded s.1) =? 1)%nat | None => false end = true.
Proof. apply ends_in. by vm_compute. Qed.

Lemma work_queue_deletion_completes_witness : exists s0 s, reachable any 0 3 s0 /\ Terminating s0.1 = true /\ rtc (step any) s0 s /\ length (discarded s.1) = 1%nat /\
  (forall m s', nsteps (step any) m s0 s' -> (m <= 13 * length s0.2)%nat) /\ (exists t, s.2 !! t = Some (Client CDeleted)) /\ Items s.1 = [].
Proof.
  destruct deletion_ends as (s0 & E0 & [HT H]%andb_true_iff). destruct (plays any s0 deleting_run) as [s|] eqn:E; [|discriminate]. rewrite !andb_true_iff, !Nat.eqb_eq in H. destruct H as [[Hq _] Hl].
  assert (Hr : reachable any 0 3 s0) by (exists 1%nat; by apply moves_steps in E0). apply moves_steps in E. exists s0, s. destruct (work_queue_deletion_completes any 0 3 s0 ltac:(lia) Hr HT) as [Hm Hd].
  destruct (Hd s E (quietb_quiet _ s Hq)) as (Hc & _ & Hi & _). tauto.
Defined.

Lemma work_queue_runs_in_order_witness : exists s, reachable any 0 3 s /\ length (freed s.1) = 1%nat /\ tally_of alive s.2 <= MaximumThreads s.1.
Proof.
  destruct deletion_ends as (s0 & E0 & [_ H]%andb_true_iff). destruct (plays any s0 deleting_run) as [s|] eqn:E; [|discriminate]. rewrite !andb_true_iff, !Nat.eqb_eq in H. destruct H as [[_ Hf] _].
  assert (Hr : reachable any 0 3 s) by (exists 1%nat; etrans; [by eapply moves_steps|by eapply moves_steps]).
  exists s. split; [exact Hr|]. split; [exact Hf|]. pose proof (work_queue_runs_in_order any 0 3 s ltac:(lia) Hr) as H. destruct s as [q ts]. apply H.
Defined.

(** A queue with one thread at least, two items and somebody who waits for them. *)
Definition draining : list move :=
  Call 0 (Queue 7 true None) :: go 0 9 ++ Call 0 (Queue 8 false None) :: go 0 8 ++ Call 1 Wait :: go 1 1 ++ go 2 18 ++ go 1 1 ++ go 3 3 ++ [Timeout 3] ++ go 3 2 ++ go 2 3.

Lemma draining_ends : exists s, keep_all any (initial 2 1 3) draining = Some s /\ negb (Terminating s.1) && quietb any s && (length (queued s.1) =? 2)%nat = true.
Proof. apply ends_in. by vm_compute. Qed.

End WorkQueueProof.
