(* ===== verification/HandleTable.v ===== *)
(** * Handle tables: [phlib/handle.c]

    A growing table of entries of one, two or three levels, with a free list through the unused
    entries and a second one for entries that may not go to the first. This file is about calls
    that run one after another; the answer of the try-lock that chooses between the free lists is
    left open, so that it covers both. Blocks come from an [Allocator]; the two free lists of
    [handle.c] and the process heap implement it in [HandleHeap]. *)

From S2P Require Import Prelude FreeList.

Module HandleTable.

Definition PH_HANDLE_TABLE_ENTRY_TYPE : Z := 1.
Definition PH_HANDLE_TABLE_ENTRY_IN_USE : Z := 0.
Definition PH_HANDLE_TABLE_ENTRY_FREE : Z := 1.
Definition PH_HANDLE_TABLE_ENTRY_LOCKED : Z := 2.
Definition PH_HANDLE_TABLE_ENTRY_LOCKED_SHIFT : Z := 1.
Definition PH_HANDLE_TABLE_LEVEL_ENTRIES : Z := 256.
Definition PH_HANDLE_TABLE_LEVEL_MASK : Z := 3.
Definition PH_HANDLE_TABLE_STRICT_FIFO : Z := 1.
Definition PH_HANDLE_TABLE_VALID_FLAGS : Z := 1.
Definition PH_HANDLE_TABLE_FREE_COUNT : Z := 64.
Definition PH_HANDLE_VALUE_INVALID : Z := 0xFFFFFFFF.
Definition PH_HANDLE_VALUE_SHIFT : Z := 2.
Definition PH_HANDLE_VALUE_BIAS : Z := 4.

Definition PH_HANDLE_VALUE_LEVEL0 (HandleValue : Z) : Z := Z.land HandleValue 0xff.
Definition PH_HANDLE_VALUE_LEVEL1_U (HandleValue : Z) : Z := Z.shiftr HandleValue 8.
Definition PH_HANDLE_VALUE_LEVEL1 (HandleValue : Z) : Z := Z.land (PH_HANDLE_VALUE_LEVEL1_U HandleValue) 0xff.
Definition PH_HANDLE_VALUE_LEVEL2_U (HandleValue : Z) : Z := Z.shiftr HandleValue 16.

Definition PhpEncodeHandle (HandleValue : Z) : Z := u32 (Z.shiftl HandleValue PH_HANDLE_VALUE_SHIFT + PH_HANDLE_VALUE_BIAS).
Definition PhpDecodeHandle (Handle : Z) : Z := Z.shiftr (u32 Handle -₃₂ PH_HANDLE_VALUE_BIAS) PH_HANDLE_VALUE_SHIFT.

(** [Value2] is the whole second word, [NextFreeValue] its low half. *)
Record PH_HANDLE_TABLE_ENTRY := { Value : Z; Value2 : Z }.
Definition NextFreeValue (e : PH_HANDLE_TABLE_ENTRY) : Z := u32 (Value2 e).
Definition set_NextFreeValue (e : PH_HANDLE_TABLE_ENTRY) (v : Z) : PH_HANDLE_TABLE_ENTRY :=
  {| Value := Value e; Value2 := Z.lor (Z.shiftl (Z.shiftr (Value2 e) 32) 32) v |}.
Definition set_Value (e : PH_HANDLE_TABLE_ENTRY) (v : Z) : PH_HANDLE_TABLE_ENTRY := {| Value := v; Value2 := Value2 e |}.
(** The bit fields [Type], [Locked] and [Value] of the first word. *)
Definition Type_of (e : PH_HANDLE_TABLE_ENTRY) : Z := Z.land (Value e) PH_HANDLE_TABLE_ENTRY_TYPE.
Definition Locked_of (e : PH_HANDLE_TABLE_ENTRY) : Z := bit_field 1 1 (Value e).
Definition Object_of (e : PH_HANDLE_TABLE_ENTRY) : Z := Z.shiftr (Value e) 2.
Definition fields (Type_ Locked Object : Z) : Z := Z.lor (Z.lor Type_ (Z.shiftl Locked 1)) (Z.shiftl Object 2).

Record PH_HANDLE_TABLE := {
  Count : Z; TableValue : Z; FreeValue : Z; NextValue : Z; FreeValueAlt : Z; Flags : Z;
}.
Abbreviation TABLE := PH_HANDLE_TABLE.

Definition set_Count (t : TABLE) (v : Z) : TABLE :=
  {| Count := v; TableValue := TableValue t; FreeValue := FreeValue t; NextValue := NextValue t; FreeValueAlt := FreeValueAlt t; Flags := Flags t |}.
Definition set_TableValue (t : TABLE) (v : Z) : TABLE :=
  {| Count := Count t; TableValue := v; FreeValue := FreeValue t; NextValue := NextValue t; FreeValueAlt := FreeValueAlt t; Flags := Flags t |}.
Definition set_FreeValue (t : TABLE) (v : Z) : TABLE :=
  {| Count := Count t; TableValue := TableValue t; FreeValue := v; NextValue := NextValue t; FreeValueAlt := FreeValueAlt t; Flags := Flags t |}.
Definition set_NextValue (t : TABLE) (v : Z) : TABLE :=
  {| Count := Count t; TableValue := TableValue t; FreeValue := FreeValue t; NextValue := v; FreeValueAlt := FreeValueAlt t; Flags := Flags t |}.
Definition set_FreeValueAlt (t : TABLE) (v : Z) : TABLE :=
  {| Count := Count t; TableValue := TableValue t; FreeValue := FreeValue t; NextValue := NextValue t; FreeValueAlt := v; Flags := Flags t |}.
Definition set_Flags (t : TABLE) (v : Z) : TABLE :=
  {| Count := Count t; TableValue := TableValue t; FreeValue := FreeValue t; NextValue := NextValue t; FreeValueAlt := FreeValueAlt t; Flags := v |}.

Definition level_of (tableValue : Z) : Z := Z.land tableValue PH_HANDLE_TABLE_LEVEL_MASK.

(** The kinds of block: the three levels and the table structure itself. *)
Inductive kind := Level0 | Level1 | Level2 | Structure.
#[global] Instance kind_eq_dec : EqDecision kind.
Proof. solve_decision. Defined.

(** The address of an entry: its level 0 table and its index. *)
Abbreviation pointer := (Z * Z)%type.

Section table.
Context {S : Type} `{Allocator S kind}.

(** The contents a level 0 block has before anything is written to it. *)
Context (uninitialized : Z -> Z -> PH_HANDLE_TABLE_ENTRY).

(** The allocator, and the contents of the blocks: entries at level 0, pointers above. *)
Record mem := { pool : S; table0 : gmap Z (list PH_HANDLE_TABLE_ENTRY); table1 : gmap Z (list Z); table2 : gmap Z (list Z) }.

Definition get_entry (m : mem) (p : pointer) : ub PH_HANDLE_TABLE_ENTRY := l ← table0 m !! p.1; l !! Z.to_nat p.2.
Definition set_entry (m : mem) (p : pointer) (e : PH_HANDLE_TABLE_ENTRY) : ub mem :=
  l ← table0 m !! p.1; _ ← l !! Z.to_nat p.2;
  Some {| pool := pool m; table0 := <[p.1 := <[Z.to_nat p.2 := e]> l]> (table0 m); table1 := table1 m; table2 := table2 m |}.

(** [base[i]] and [base[i] = w] in a table of pointers. *)
Definition load (words : gmap Z (list Z)) (base i : Z) : ub Z := l ← words !! base; l !! Z.to_nat i.
Definition store (words : gmap Z (list Z)) (base i w : Z) : ub (gmap Z (list Z)) :=
  l ← words !! base; _ ← l !! Z.to_nat i; Some (<[base := <[Z.to_nat i := w]> l]> words).
Definition load1 (m : mem) (base i : Z) : ub Z := load (table1 m) base i.
Definition load2 (m : mem) (base i : Z) : ub Z := load (table2 m) base i.
Definition store1 (m : mem) (base i w : Z) : ub mem :=
  ws ← store (table1 m) base i w; Some {| pool := pool m; table0 := table0 m; table1 := ws; table2 := table2 m |}.
Definition store2 (m : mem) (base i w : Z) : ub mem :=
  ws ← store (table2 m) base i w; Some {| pool := pool m; table0 := table0 m; table1 := table1 m; table2 := ws |}.

(** ** Creating and freeing the levels *)

Definition null_pointers : list Z := replicate (Z.to_nat PH_HANDLE_TABLE_LEVEL_ENTRIES) 0.

(** The loop over [i] that links the new entries; the entry it stops at. *)
Fixpoint init_entries (fuel : nat) (m : mem) (table entry i limit : Z) : ub (mem * Z) :=
  match fuel with
  | O => None
  | Datatypes.S fuel =>
      if i <? limit then
        e ← get_entry m (table, entry);
        m ← set_entry m (table, entry) (set_NextFreeValue (set_Value e PH_HANDLE_TABLE_ENTRY_FREE) i);
        init_entries fuel m table (entry + 1) (i +₃₂ 1) limit
      else Some (m, entry)
  end.

(** NULL when the free list cannot allocate. *)
Definition PhpCreateHandleTableLevel0 (m : mem) (NextValue : Z) (Initialize : bool) : ub (mem * option Z) :=
  match obtain Level0 (pool m) with
  | (s, None) => Some ({| pool := s; table0 := table0 m; table1 := table1 m; table2 := table2 m |}, None)
  | (s, Some table) =>
      let m := {| pool := s; table0 := <[table := uninitialized table <$> seqZ 0 PH_HANDLE_TABLE_LEVEL_ENTRIES]> (table0 m);
                  table1 := table1 m; table2 := table2 m |} in
      if Initialize then
        let baseValue := NextValue in
        '(m, entry) ← init_entries (Z.to_nat PH_HANDLE_TABLE_LEVEL_ENTRIES) m table 0 (baseValue +₃₂ 1) (baseValue +₃₂ PH_HANDLE_TABLE_LEVEL_ENTRIES);
        e ← get_entry m (table, entry);
        m ← set_entry m (table, entry) (set_NextFreeValue (set_Value e PH_HANDLE_TABLE_ENTRY_FREE) PH_HANDLE_VALUE_INVALID);
        Some (m, Some table)
      else Some (m, Some table)
  end.

Definition PhpCreateHandleTableLevel1 (m : mem) : mem * option Z :=
  match obtain Level1 (pool m) with
  | (s, None) => ({| pool := s; table0 := table0 m; table1 := table1 m; table2 := table2 m |}, None)
  | (s, Some table) => ({| pool := s; table0 := table0 m; table1 := <[table := null_pointers]> (table1 m); table2 := table2 m |}, Some table)
  end.

Definition PhpCreateHandleTableLevel2 (m : mem) : mem * option Z :=
  match obtain Level2 (pool m) with
  | (s, None) => ({| pool := s; table0 := table0 m; table1 := table1 m; table2 := table2 m |}, None)
  | (s, Some table) => ({| pool := s; table0 := table0 m; table1 := table1 m; table2 := <[table := null_pointers]> (table2 m) |}, Some table)
  end.

(** Freeing what is no such table is undefined. *)
Definition PhpFreeHandleTableLevel0 (m : mem) (Table : Z) : ub mem :=
  _ ← table0 m !! Table; s ← give_back Level0 Table (pool m);
  Some {| pool := s; table0 := delete Table (table0 m); table1 := table1 m; table2 := table2 m |}.
Definition PhpFreeHandleTableLevel1 (m : mem) (Table : Z) : ub mem :=
  _ ← table1 m !! Table; s ← give_back Level1 Table (pool m);
  Some {| pool := s; table0 := table0 m; table1 := delete Table (table1 m); table2 := table2 m |}.
Definition PhpFreeHandleTableLevel2 (m : mem) (Table : Z) : ub mem :=
  _ ← table2 m !! Table; s ← give_back Level2 Table (pool m);
  Some {| pool := s; table0 := table0 m; table1 := table1 m; table2 := delete Table (table2 m) |}.

(** ** Lookup *)

(** Inside, [None] is NULL. *)
Definition PhpLookupHandleTableEntry (t : TABLE) (m : mem) (HandleValue : Z) : ub (option pointer) :=
  if NextValue t <=? HandleValue then Some None
  else
    let tableLevel := level_of (TableValue t) in
    let tableValue := TableValue t - tableLevel in
    if tableLevel =? 0 then Some (Some (tableValue, HandleValue))
    else if tableLevel =? 1 then
      table0 ← load1 m tableValue (PH_HANDLE_VALUE_LEVEL1_U HandleValue);
      Some (Some (table0, PH_HANDLE_VALUE_LEVEL0 HandleValue))
    else if tableLevel =? 2 then
      table1 ← load2 m tableValue (PH_HANDLE_VALUE_LEVEL2_U HandleValue);
      table0 ← load1 m table1 (PH_HANDLE_VALUE_LEVEL1 HandleValue);
      Some (Some (table0, PH_HANDLE_VALUE_LEVEL0 HandleValue))
    else None (* ASSUME_NO_DEFAULT *).

(** ** Growth *)

(** The cases of the switch on the level: the new [TableValue] and the new level 0 table, or nothing
    when an allocation failed. *)
Definition expand0 (t : TABLE) (m : mem) (tableValue : Z) (Initialize : bool) : ub (mem * option (Z * Z)) :=
  let '(m, table1) := PhpCreateHandleTableLevel1 m in
  match table1 with
  | None => Some (m, None)
  | Some table1 =>
      '(m, table0) ← PhpCreateHandleTableLevel0 m (NextValue t) Initialize;
      match table0 with
      | None => m ← PhpFreeHandleTableLevel1 m table1; Some (m, None)
      | Some table0 =>
          m ← store1 m table1 0 tableValue;
          m ← store1 m table1 1 table0;
          Some (m, Some (Z.lor table1 1, table0))
      end
  end.

Definition expand1 (t : TABLE) (m : mem) (tableValue : Z) (Initialize : bool) : ub (mem * option (Z * Z)) :=
  let i := NextValue t / PH_HANDLE_TABLE_LEVEL_ENTRIES in
  if i <? PH_HANDLE_TABLE_LEVEL_ENTRIES then
    '(m, table0) ← PhpCreateHandleTableLevel0 m (NextValue t) true;
    match table0 with
    | None => Some (m, None)
    | Some table0 => m ← store1 m tableValue i table0; Some (m, Some (TableValue t, table0))
    end
  else
    let '(m, table2) := PhpCreateHandleTableLevel2 m in
    match table2 with
    | None => Some (m, None)
    | Some table2 =>
        let '(m, table1) := PhpCreateHandleTableLevel1 m in
        match table1 with
        | None => m ← PhpFreeHandleTableLevel2 m table2; Some (m, None)
        | Some table1 =>
            '(m, table0) ← PhpCreateHandleTableLevel0 m (NextValue t) Initialize;
            match table0 with
            | None => m ← PhpFreeHandleTableLevel1 m table1; m ← PhpFreeHandleTableLevel2 m table2; Some (m, None)
            | Some table0 =>
                m ← store1 m table1 0 table0;
                m ← store2 m table2 0 tableValue;
                m ← store2 m table2 1 table1;
                Some (m, Some (Z.lor table2 2, table0))
            end
        end
    end.

Definition expand2 (t : TABLE) (m : mem) (tableValue : Z) (Initialize : bool) : ub (mem * option (Z * Z)) :=
  let i := NextValue t / (PH_HANDLE_TABLE_LEVEL_ENTRIES * PH_HANDLE_TABLE_LEVEL_ENTRIES) in
  if PH_HANDLE_TABLE_LEVEL_ENTRIES <=? i then Some (m, None)
  else
    table1 ← load2 m tableValue i;
    if negb (table1 =? 0) then
      '(m, table0) ← PhpCreateHandleTableLevel0 m (NextValue t) Initialize;
      match table0 with
      | None => Some (m, None)
      | Some table0 =>
          let j := (NextValue t -₃₂ i * (PH_HANDLE_TABLE_LEVEL_ENTRIES * PH_HANDLE_TABLE_LEVEL_ENTRIES)) / PH_HANDLE_TABLE_LEVEL_ENTRIES in
          m ← store1 m table1 j table0; Some (m, Some (TableValue t, table0))
      end
    else
      let '(m, table1) := PhpCreateHandleTableLevel1 m in
      match table1 with
      | None => Some (m, None)
      | Some table1 =>
          '(m, table0) ← PhpCreateHandleTableLevel0 m (NextValue t) true;
          match table0 with
          | None => m ← PhpFreeHandleTableLevel1 m table1; Some (m, None)
          | Some table0 =>
              m ← store1 m table1 0 table0;
              m ← store2 m tableValue i table1;
              Some (m, Some (TableValue t, table0))
          end
      end.

Definition PhpAllocateMoreHandleTableEntries (t : TABLE) (m : mem) (Initialize : bool) : ub (TABLE * mem * bool) :=
  let tableLevel := level_of (TableValue t) in
  let tableValue := TableValue t - tableLevel in
  '(m, grown) ←
    (if tableLevel =? 0 then expand0 t m tableValue Initialize
     else if tableLevel =? 1 then expand1 t m tableValue Initialize
     else if tableLevel =? 2 then expand2 t m tableValue Initialize
     else None);
  match grown with
  | None => Some (t, m, false)
  | Some (tableValue, table0) =>
      let oldNextValue := NextValue t in
      let t := set_NextValue (set_TableValue t tableValue) (NextValue t +₃₂ PH_HANDLE_TABLE_LEVEL_ENTRIES) in
      if Initialize then
        let last := (table0, PH_HANDLE_TABLE_LEVEL_ENTRIES - 1) in
        e ← get_entry m last;
        m ← set_entry m last (set_NextFreeValue e (FreeValue t));
        Some (set_FreeValue t oldNextValue, m, true)
      else Some (t, m, true)
  end.

(** ** The free lists *)

(** The reversal of the chain: the last index, the number of entries and the first entry. *)
Fixpoint reverse_chain (fuel : nat) (t : TABLE) (m : mem) (index lastIndex count : Z) (firstEntry : option pointer)
    : ub (mem * Z * Z * option pointer) :=
  match fuel with
  | O => None
  | Datatypes.S fuel =>
      found ← PhpLookupHandleTableEntry t m index;
      entry ← found;
      let count := count +₃₂ 1 in
      let firstEntry := if lastIndex =? PH_HANDLE_VALUE_INVALID then Some entry else firstEntry in
      e ← get_entry m entry;
      let nextIndex := NextFreeValue e in
      m ← set_entry m entry (set_NextFreeValue e lastIndex);
      let lastIndex := index in
      if nextIndex =? PH_HANDLE_VALUE_INVALID then Some (m, index, count, firstEntry)
      else reverse_chain fuel t m nextIndex lastIndex count firstEntry
  end.

Definition strict_fifo (t : TABLE) : bool := negb (Z.land (Flags t) PH_HANDLE_TABLE_STRICT_FIFO =? 0).

(** The traversal, the push, and the index returned. *)
Definition push_reversed (t : TABLE) (m : mem) (freeValueAlt : Z) : ub (TABLE * mem * Z) :=
  '(m, index, count, firstEntry) ← reverse_chain (Z.to_nat (NextValue t)) t m freeValueAlt PH_HANDLE_VALUE_INVALID 0 None;
  firstEntry ← firstEntry;
  e ← get_entry m firstEntry;
  m ← set_entry m firstEntry (set_NextFreeValue e (FreeValue t));
  let t := set_FreeValue t index in
  Some (t, m, if strict_fifo t && (count <? PH_HANDLE_TABLE_FREE_COUNT) then PH_HANDLE_VALUE_INVALID else index).

Definition PhpMoveFreeHandleTableEntries (t : TABLE) (m : mem) : ub (TABLE * mem * Z) :=
  let freeValueAlt := FreeValueAlt t in
  let t := set_FreeValueAlt t PH_HANDLE_VALUE_INVALID in
  if freeValueAlt =? PH_HANDLE_VALUE_INVALID then Some (t, m, PH_HANDLE_VALUE_INVALID)
  else if negb (strict_fifo t) && (FreeValue t =? PH_HANDLE_VALUE_INVALID) then Some (set_FreeValue t freeValueAlt, m, freeValueAlt)
  else push_reversed t m freeValueAlt.

(** The inner loop of [PhpAllocateHandleTableEntry]: a free value, or nothing for [return NULL]. Each
    turn that goes on leaves a free value behind, so two turns are enough. *)
Fixpoint find_free (fuel : nat) (t : TABLE) (m : mem) (freeValue : Z) : ub (TABLE * mem * option Z) :=
  match fuel with
  | O => None
  | Datatypes.S fuel =>
      if negb (freeValue =? PH_HANDLE_VALUE_INVALID) then Some (t, m, Some freeValue)
      else
        let freeValue := FreeValue t in
        if negb (freeValue =? PH_HANDLE_VALUE_INVALID) then Some (t, m, Some freeValue)
        else
          '(t, m, freeValue) ← PhpMoveFreeHandleTableEntries t m;
          if negb (freeValue =? PH_HANDLE_VALUE_INVALID) then Some (t, m, Some freeValue)
          else
            '(t, m, result) ← PhpAllocateMoreHandleTableEntries t m true;
            let freeValue := FreeValue t in
            if negb (result : bool) && (freeValue =? PH_HANDLE_VALUE_INVALID) then Some (t, m, None)
            else find_free fuel t m freeValue
  end.

(** The outer loop; nothing runs between its reads of [FreeValue] and its exchange. *)
Fixpoint allocate_loop (fuel : nat) (t : TABLE) (m : mem) : ub (TABLE * mem * option (Z * pointer)) :=
  match fuel with
  | O => None
  | Datatypes.S fuel =>
      '(t, m, freeValue) ← find_free 2 t m (FreeValue t);
      match freeValue with
      | None => Some (t, m, None)
      | Some freeValue =>
          found ← PhpLookupHandleTableEntry t m freeValue;
          if negb (FreeValue t =? freeValue) then allocate_loop fuel t m
          else
            entry ← found;
            e ← get_entry m entry;
            let t := set_FreeValue t (NextFreeValue e) in
            Some (set_Count t (Count t +₃₂ 1), m, Some (freeValue, entry))
      end
  end.

Definition PhpAllocateHandleTableEntry (t : TABLE) (m : mem) : ub (TABLE * mem * option (Z * pointer)) := allocate_loop 1 t m.

(** [acquired] is the answer of PhTryAcquireReleaseQueuedLockExclusive. *)
Definition PhpFreeHandleTableEntry (t : TABLE) (m : mem) (HandleValue : Z) (HandleTableEntry : pointer) (acquired : bool) : ub (TABLE * mem) :=
  let t := set_Count t (Count t -₃₂ 1) in
  e ← get_entry m HandleTableEntry;
  if negb (strict_fifo t) && acquired then
    m ← set_entry m HandleTableEntry (set_NextFreeValue e (FreeValue t));
    Some (set_FreeValue t HandleValue, m)
  else
    m ← set_entry m HandleTableEntry (set_NextFreeValue e (FreeValueAlt t));
    Some (set_FreeValueAlt t HandleValue, m).

(** ** Locking an entry *)

(** A locked entry makes the caller wait for its owner, another thread. *)
Inductive lock_answer := Locked | NotInUse | Waits.

Definition PhLockHandleTableEntry (m : mem) (HandleTableEntry : pointer) : ub (mem * lock_answer) :=
  e ← get_entry m HandleTableEntry;
  let value := Value e in
  if negb (Z.land value PH_HANDLE_TABLE_ENTRY_TYPE =? PH_HANDLE_TABLE_ENTRY_IN_USE) then Some (m, NotInUse)
  else if negb (Z.land value PH_HANDLE_TABLE_ENTRY_LOCKED =? 0) then
    m ← set_entry m HandleTableEntry (set_Value e (value - PH_HANDLE_TABLE_ENTRY_LOCKED)); Some (m, Locked)
  else Some (m, Waits).

Definition PhUnlockHandleTableEntry (m : mem) (HandleTableEntry : pointer) : ub mem :=
  e ← get_entry m HandleTableEntry;
  set_entry m HandleTableEntry (set_Value e (Z.setbit (Value e) PH_HANDLE_TABLE_ENTRY_LOCKED_SHIFT)).

(** ** Handles *)

Definition PhCreateHandle (t : TABLE) (m : mem) (HandleTableEntry : PH_HANDLE_TABLE_ENTRY) : ub (TABLE * mem * option Z) :=
  '(t, m, allocated) ← PhpAllocateHandleTableEntry t m;
  match allocated with
  | None => Some (t, m, None)
  | Some (handleValue, entry) =>
      e ← get_entry m entry;
      let e := set_Value e (fields PH_HANDLE_TABLE_ENTRY_IN_USE (Locked_of e) (Object_of e)) in
      let e := set_Value e (fields (Type_of e) (Locked_of e) (Object_of HandleTableEntry)) in
      m ← set_entry m entry {| Value := Value e; Value2 := Value2 HandleTableEntry |};
      m ← PhUnlockHandleTableEntry m entry;
      Some (t, m, Some (PhpEncodeHandle handleValue))
  end.

(** [None] inside: the call waits for another thread. *)
Definition PhDestroyHandle (t : TABLE) (m : mem) (Handle : Z) (HandleTableEntry : option pointer) (acquired : bool)
    : ub (option (TABLE * mem * bool)) :=
  let handleValue := PhpDecodeHandle Handle in
  '(m, locked) ←
    (match HandleTableEntry with
     | Some entry => Some (m, Some (Locked, entry))
     | None =>
         found ← PhpLookupHandleTableEntry t m handleValue;
         match found with
         | None => Some (m, None)
         | Some entry => '(m, answer) ← PhLockHandleTableEntry m entry; Some (m, Some (answer, entry))
         end
     end);
  match locked with
  | None | Some (NotInUse, _) => Some (Some (t, m, false))
  | Some (Waits, _) => Some None
  | Some (Locked, entry) =>
      e ← get_entry m entry;
      m ← set_entry m entry (set_Value e PH_HANDLE_TABLE_ENTRY_FREE);
      '(t, m) ← PhpFreeHandleTableEntry t m handleValue entry acquired;
      Some (Some (t, m, true))
  end.

Definition PhLookupHandleTableEntry (t : TABLE) (m : mem) (Handle : Z) : ub (option (mem * option pointer)) :=
  found ← PhpLookupHandleTableEntry t m (PhpDecodeHandle Handle);
  match found with
  | None => Some (Some (m, None))
  | Some entry =>
      '(m, answer) ← PhLockHandleTableEntry m entry;
      Some (match answer with Locked => Some (m, Some entry) | NotInUse => Some (m, None) | Waits => None end)
  end.

(** ** Enumeration

    The callback is told the handle and the entry, has a state of its own and answers whether to go
    on; it leaves the table alone. *)
Fixpoint enum_handles {St} (fuel : nat) (Callback : Z -> PH_HANDLE_TABLE_ENTRY -> St -> St * bool) (t : TABLE) (m : mem) (handleValue : Z) (st : St)
    : ub (option (mem * St)) :=
  match fuel with
  | O => None
  | Datatypes.S fuel =>
      found ← PhpLookupHandleTableEntry t m handleValue;
      match found with
      | None => Some (Some (m, st))
      | Some entry =>
          '(m, answer) ← PhLockHandleTableEntry m entry;
          match answer with
          | Waits => Some None
          | NotInUse => enum_handles fuel Callback t m (handleValue +₃₂ 1) st
          | Locked =>
              e ← get_entry m entry;
              let '(st, cont) := Callback (PhpEncodeHandle handleValue) e st in
              m ← PhUnlockHandleTableEntry m entry;
              if negb (cont : bool) then Some (Some (m, st)) else enum_handles fuel Callback t m (handleValue +₃₂ 1) st
          end
      end
  end.
Definition PhEnumHandleTable {St} (Callback : Z -> PH_HANDLE_TABLE_ENTRY -> St -> St * bool) (t : TABLE) (m : mem) (st : St) : ub (option (mem * St)) :=
  enum_handles (Datatypes.S (Z.to_nat (NextValue t))) Callback t m 0 st.

(** Entries are not locked here. *)
Fixpoint sweep_loop {St} (fuel : nat) (Callback : Z -> PH_HANDLE_TABLE_ENTRY -> St -> St * bool) (t : TABLE) (m : mem) (handleValue : Z) (st : St) : ub St :=
  match fuel with
  | O => None
  | Datatypes.S fuel =>
      found ← PhpLookupHandleTableEntry t m handleValue;
      match found with
      | None => Some st
      | Some entry =>
          e ← get_entry m entry;
          if Type_of e =? PH_HANDLE_TABLE_ENTRY_IN_USE then
            let '(st, cont) := Callback (PhpEncodeHandle handleValue) e st in
            if negb (cont : bool) then Some st else sweep_loop fuel Callback t m (handleValue +₃₂ 1) st
          else sweep_loop fuel Callback t m (handleValue +₃₂ 1) st
      end
  end.
Definition PhSweepHandleTable {St} (Callback : Z -> PH_HANDLE_TABLE_ENTRY -> St -> St * bool) (t : TABLE) (m : mem) (st : St) : ub St :=
  sweep_loop (Datatypes.S (Z.to_nat (NextValue t))) Callback t m 0 st.

(** ** Creation, deletion, information *)

(** The structure's address and contents. *)
Definition PhCreateHandleTable (m : mem) : ub (mem * option (Z * TABLE)) :=
  match obtain Structure (pool m) with
  | (s, None) => Some ({| pool := s; table0 := table0 m; table1 := table1 m; table2 := table2 m |}, None)
  | (s, Some handleTable) =>
      let m := {| pool := s; table0 := table0 m; table1 := table1 m; table2 := table2 m |} in
      '(m, table) ← PhpCreateHandleTableLevel0 m 0 true;
      match table with
      | None =>
          s ← give_back Structure handleTable (pool m);
          Some ({| pool := s; table0 := table0 m; table1 := table1 m; table2 := table2 m |}, None)
      | Some table =>
          Some (m, Some (handleTable,
            {| Count := 0; TableValue := table; FreeValue := 0; NextValue := PH_HANDLE_TABLE_LEVEL_ENTRIES;
               FreeValueAlt := PH_HANDLE_VALUE_INVALID; Flags := 0 |}))
      end
  end.

(** The loops over slots that stop at the first NULL. *)
Fixpoint free_children (n : nat) (read : mem -> Z -> ub Z) (free : mem -> Z -> ub mem) (i : Z) (m : mem) : ub mem :=
  match n with
  | O => Some m
  | Datatypes.S n =>
      p ← read m i;
      if p =? 0 then Some m else m ← free m p; free_children n read free (i + 1) m
  end.

Definition free_level1 (m : mem) (table1 : Z) : ub mem :=
  m ← free_children (Z.to_nat PH_HANDLE_TABLE_LEVEL_ENTRIES) (fun m i => load1 m table1 i) PhpFreeHandleTableLevel0 0 m;
  PhpFreeHandleTableLevel1 m table1.

Definition PhDestroyHandleTable (handleTable : Z) (t : TABLE) (m : mem) : ub mem :=
  let tableLevel := level_of (TableValue t) in
  let tableValue := TableValue t - tableLevel in
  m ← (if tableLevel =? 0 then PhpFreeHandleTableLevel0 m tableValue
       else if tableLevel =? 1 then free_level1 m tableValue
       else if tableLevel =? 2 then
         m ← free_children (Z.to_nat PH_HANDLE_TABLE_LEVEL_ENTRIES) (fun m i => load2 m tableValue i) free_level1 0 m;
         PhpFreeHandleTableLevel2 m tableValue
       else None);
  s ← give_back Structure handleTable (pool m);
  Some {| pool := s; table0 := table0 m; table1 := table1 m; table2 := table2 m |}.

Definition HandleTableBasicInformation : Z := 0.
Definition HandleTableFlagsInformation : Z := 1.
Definition sizeof_BASIC_INFORMATION : Z := 12.
Definition sizeof_FLAGS_INFORMATION : Z := 4.

(** What is written to the buffer, the status and the length returned. *)
Definition PhQueryInformationHandleTable (t : TABLE) (InformationClass BufferLength : Z) : list Z * Z * Z :=
  if InformationClass =? HandleTableBasicInformation then
    if BufferLength =? sizeof_BASIC_INFORMATION then
      ([Count t; Flags t; u32 (level_of (TableValue t))], STATUS_SUCCESS, sizeof_BASIC_INFORMATION)
    else ([], STATUS_INFO_LENGTH_MISMATCH, sizeof_BASIC_INFORMATION)
  else if InformationClass =? HandleTableFlagsInformation then
    if BufferLength =? sizeof_FLAGS_INFORMATION then ([Flags t], STATUS_SUCCESS, sizeof_FLAGS_INFORMATION)
    else ([], STATUS_INFO_LENGTH_MISMATCH, sizeof_FLAGS_INFORMATION)
  else ([], STATUS_INVALID_INFO_CLASS, 0).

Definition PhSetInformationHandleTable (t : TABLE) (InformationClass flags BufferLength : Z) : TABLE * Z :=
  if InformationClass =? HandleTableFlagsInformation then
    if BufferLength =? sizeof_FLAGS_INFORMATION then
      if Z.land flags PH_HANDLE_TABLE_VALID_FLAGS =? flags then (set_Flags t flags, STATUS_SUCCESS)
      else (t, STATUS_INVALID_PARAMETER)
    else (t, STATUS_INFO_LENGTH_MISMATCH)
  else (t, STATUS_INVALID_INFO_CLASS).

End table.

(** ** Words and handles *)

Lemma tagged a l : a mod 16 = 0 -> 0 <= l <= 3 -> level_of (Z.lor a l) = l /\ Z.lor a l - l = a.
Proof.
  intros Ha Hl. assert (E : Z.lor a l = a + l).
  { rewrite <- Z.add_lor_land. assert (Z.land a l = 0) as ->; [|lia]. apply Z.bits_inj'. intros n Hn. rewrite Z.land_spec, Z.bits_0.
    destruct (Z.ltb_spec n 4) as [Hlt|Hge].
    - rewrite <- (Z.mod_pow2_bits_low a 4 n) by lia. change (2 ^ 4) with 16. by rewrite Ha, Z.bits_0.
    - rewrite (Z.bits_above_log2 l n), andb_false_r; [done|lia|]. destruct (decide (l = 0)) as [->|]; [simpl; lia|].
      apply Z.log2_lt_pow2; [lia|]. apply Z.lt_le_trans with (2 ^ 4); [simpl; lia|by apply Z.pow_le_mono_r]. }
  rewrite E. split; [|lia]. unfold level_of, PH_HANDLE_TABLE_LEVEL_MASK. change 3 with (Z.ones 2).
  rewrite Z.land_ones by lia. change (2 ^ 2) with 4. Z.to_euclidean_division_equations; lia.
Qed.

Lemma tagged_0 a : a mod 16 = 0 -> level_of a = 0 /\ a - 0 = a.
Proof. intros Ha. destruct (tagged a 0 Ha ltac:(lia)) as [? ?]. by rewrite Z.lor_0_r in *. Qed.

Lemma encode_decode v : 0 <= v < 2 ^ 24 -> PhpDecodeHandle (PhpEncodeHandle v) = v /\ PhpEncodeHandle v <> 0.
Proof.
  intros Hv. unfold PhpDecodeHandle, PhpEncodeHandle, PH_HANDLE_VALUE_SHIFT, PH_HANDLE_VALUE_BIAS.
  rewrite Z.shiftl_mul_pow2 by lia. change (2 ^ 2) with 4.
  assert (u32 (v * 4 + 4) = v * 4 + 4) as -> by (apply u32_id; unfold in_width; lia).
  rewrite (u32_id (v * 4 + 4)), (u32_id (v * 4 + 4 - 4)), Z.shiftr_div_pow2 by (unfold in_width; lia).
  split; [|lia]. change (2 ^ 2) with 4. Z.to_euclidean_division_equations; lia.
Qed.

Lemma next_set e v : 0 <= v < 2 ^ 32 -> NextFreeValue (set_NextFreeValue e v) = v.
Proof.
  intros Hv. unfold NextFreeValue, set_NextFreeValue, u32. cbn [Value2]. rewrite <- Z.land_ones by lia.
  apply Z.bits_inj'. intros n Hn. rewrite Z.land_spec, Z.lor_spec. destruct (Z.ltb_spec n 32).
  - rewrite Z.shiftl_spec_low, Z.ones_spec_low by lia. simpl. by rewrite andb_true_r.
  - rewrite Z.ones_spec_high, andb_false_r by lia. symmetry.
    rewrite <- (Z.mod_small v (2 ^ 32)) by done. by apply Z.mod_pow2_bits_high.
Qed.

(** ** Splitting a handle value *)

Lemma level0_mod v : PH_HANDLE_VALUE_LEVEL0 v = v mod 256.
Proof. unfold PH_HANDLE_VALUE_LEVEL0. change 0xff with (Z.ones 8). by rewrite Z.land_ones. Qed.
Lemma level1_u_div v : PH_HANDLE_VALUE_LEVEL1_U v = v / 256.
Proof. unfold PH_HANDLE_VALUE_LEVEL1_U. by rewrite Z.shiftr_div_pow2. Qed.
Lemma level1_div v : PH_HANDLE_VALUE_LEVEL1 v = (v / 256) mod 256.
Proof. unfold PH_HANDLE_VALUE_LEVEL1. rewrite level1_u_div. change 0xff with (Z.ones 8). by rewrite Z.land_ones. Qed.
Lemma level2_u_div v : PH_HANDLE_VALUE_LEVEL2_U v = v / 256 / 256.
Proof. unfold PH_HANDLE_VALUE_LEVEL2_U. by rewrite Z.shiftr_div_pow2, Z.div_div. Qed.

(** ** Slots

    A table of pointers is filled from the front. *)
Definition pad_slots (l : list Z) : list Z := l ++ replicate (256 - length l) 0.
Definition chunk {A} (i : nat) (l : list A) : list A := take 256 (drop (256 * i) l).

Lemma pad_lookup l i x : l !! i = Some x -> pad_slots l !! i = Some x.
Proof. apply lookup_app_l_Some. Qed.

Lemma pad_lookup_null l i : (length l <= i < 256)%nat -> pad_slots l !! i = Some 0.
Proof. intros Hi. unfold pad_slots. rewrite lookup_app_r by lia. apply lookup_replicate. split; [done|lia]. Qed.

Lemma pad_length l : (length l <= 256)%nat -> length (pad_slots l) = 256%nat.
Proof. intros. unfold pad_slots. rewrite length_app, length_replicate. lia. Qed.

Lemma pad_store l a : (length l < 256)%nat -> <[length l := a]> (pad_slots l) = pad_slots (l ++ [a]).
Proof.
  intros Hl. unfold pad_slots. rewrite insert_app_r_alt, Nat.sub_diag by lia. rewrite length_app. simpl.
  replace (256 - length l)%nat with (S (256 - (length l + 1))) by lia. simpl. by rewrite <- app_assoc.
Qed.

Lemma chunk_lookup {A} (l : list A) v : l !! v = chunk (v / 256) l !! (v mod 256)%nat.
Proof.
  unfold chunk. rewrite lookup_take_lt by (apply Nat.mod_upper_bound; lia). rewrite lookup_drop. f_equal. apply Nat.div_mod. lia.
Qed.

Lemma chunk_length {A} i (l : list A) : length (chunk i l) = (256 `min` (length l - 256 * i))%nat.
Proof. unfold chunk. by rewrite length_take, length_drop. Qed.

Lemma chunk_app_old {A} (l l' : list A) i : (256 * S i <= length l)%nat -> chunk i (l ++ l') = chunk i l.
Proof. intros Hi. unfold chunk. rewrite drop_app_le by lia. apply take_app_le. rewrite length_drop. lia. Qed.

Lemma chunk_app_new {A} (l l' : list A) i : (256 * i <= length l)%nat -> (length l + length l' <= 256 * S i)%nat ->
  chunk i (l ++ l') = chunk i l ++ l'.
Proof.
  intros Hi Hl. unfold chunk. rewrite drop_app_le by lia. rewrite !take_ge; [done|rewrite length_drop; lia|].
  rewrite length_app, length_drop. lia.
Qed.

Lemma chunk_insert {A} (l : list A) v (e : A) i : (v < length l)%nat ->
  chunk i (<[v := e]> l) = if decide (i = v / 256)%nat then <[(v mod 256)%nat := e]> (chunk i l) else chunk i l.
Proof.
  intros Hv. pose proof (Nat.div_mod v 256 ltac:(lia)). pose proof (Nat.mod_upper_bound v 256 ltac:(lia)). unfold chunk.
  case_decide as Hi.
  - rewrite drop_insert_ge by lia. rewrite take_insert_lt by lia. f_equal. lia.
  - destruct (decide (v < 256 * i)%nat); [by rewrite drop_insert_lt by lia|].
    rewrite drop_insert_ge by lia. apply take_insert_ge. lia.
Qed.

(** ** What a table owns

    The level 0 tables in the order of their handle values, the level 1 tables in theirs, and the
    level 2 table if there is one. *)
Record shape := { tables0 : list Z; tables1 : list Z; tables2 : list Z }.

Section proofs.
Context {S : Type} `{AllocatorLaws S kind}.
Context (uninitialized : Z -> Z -> PH_HANDLE_TABLE_ENTRY).
Abbreviation mem := (@mem S).
Implicit Types (m : mem) (t : TABLE) (s : shape).

(** Exactly the blocks obtained have contents. *)
Record mem_wf (m : mem) : Prop := {
  mem_alloc : alloc_wf (pool m);
  mem_table0 : dom (table0 m) = owned Level0 (pool m);
  mem_table1 : dom (table1 m) = owned Level1 (pool m);
  mem_table2 : dom (table2 m) = owned Level2 (pool m);
}.

(** [tableValue] leads to the blocks of [s]. *)
Definition level1_rep m (a : Z) (bs : list Z) : Prop := table1 m !! a = Some (pad_slots bs).
Inductive tree (tableValue : Z) m : shape -> Prop :=
  | tree0 : tableValue mod 16 = 0 -> tree tableValue m {| tables0 := [tableValue]; tables1 := []; tables2 := [] |}
  | tree1 a bs : a mod 16 = 0 -> tableValue = Z.lor a 1 -> (1 < length bs <= 256)%nat -> level1_rep m a bs ->
      tree tableValue m {| tables0 := bs; tables1 := [a]; tables2 := [] |}
  | tree2 a ts bs : a mod 16 = 0 -> tableValue = Z.lor a 2 ->
      (256 < length bs)%nat -> (256 * length ts < length bs + 256)%nat -> (length bs <= 256 * length ts)%nat -> (length ts <= 256)%nat ->
      table2 m !! a = Some (pad_slots ts) -> (forall i b, ts !! i = Some b -> level1_rep m b (chunk i bs)) ->
      tree tableValue m {| tables0 := bs; tables1 := ts; tables2 := [a] |}.

(** The entries of the level 0 tables, one after the other. *)
Definition view m (bs : list Z) (E : list PH_HANDLE_TABLE_ENTRY) : Prop :=
  length E = (256 * length bs)%nat /\ forall i b, bs !! i = Some b -> table0 m !! b = Some (chunk i E).

(** Where the entry of a handle value is. *)
Definition place (bs : list Z) (v : Z) (p : pointer) : Prop := bs !! Z.to_nat (v / 256) = Some p.1 /\ p.2 = v mod 256.

Lemma place_exists bs v : 0 <= v < 256 * Z.of_nat (length bs) -> exists p, place bs v p.
Proof.
  intros Hv. destruct (lookup_lt_is_Some_2 bs (Z.to_nat (v / 256))) as [b Hb].
  { apply Nat2Z.inj_lt. rewrite Z2Nat.id by (apply Z.div_pos; lia). apply Z.div_lt_upper_bound; lia. }
  by exists (b, v mod 256).
Qed.

(** A lookup finds the place of every value below [NextValue]. *)
Lemma handle_lookup_spec t m s v p :
  tree (TableValue t) m s -> NextValue t = 256 * Z.of_nat (length (tables0 s)) -> 0 <= v < NextValue t -> place (tables0 s) v p ->
  PhpLookupHandleTableEntry t m v = Some (Some p).
Proof.
  intros Htree Hnext Hv [Hb Hi]. unfold PhpLookupHandleTableEntry. rewrite (proj2 (Z.leb_gt _ _)) by lia. cbv zeta.
  rewrite level0_mod, level1_u_div, level1_div, level2_u_div. destruct p as [b i]. simpl in Hb, Hi. subst i.
  assert (Hq : 0 <= v / 256) by (apply Z.div_pos; lia).
  destruct Htree as [Hal|a bs Hal -> Hlen Hrep|a ts bs Hal -> Hlen Hl1 Hl2 Hl3 Ht2 Hrep]; cbn [tables0] in *.
  - destruct (tagged_0 _ Hal) as [-> ->]. simpl in Hnext. rewrite Hnext in Hv.
    rewrite (Z.div_small v 256) in Hb by lia. injection Hb as <-. by rewrite Z.mod_small by lia.
  - destruct (tagged a 1 Hal ltac:(lia)) as [-> ->]. cbn [Z.eqb Pos.eqb].
    unfold load1, load. rewrite Hrep. cbn [mbind option_bind]. by rewrite (pad_lookup _ _ _ Hb).
  - destruct (tagged a 2 Hal ltac:(lia)) as [-> ->]. cbn [Z.eqb Pos.eqb]. unfold load1, load2, load. rewrite Ht2. cbn [mbind option_bind].
    apply lookup_lt_Some in Hb as Hblt.
    rewrite (chunk_lookup bs) in Hb. set (n := Z.to_nat (v / 256)) in *.
    assert (Hdiv : Z.to_nat (v / 256 / 256) = (n / 256)%nat) by (unfold n; rewrite Z2Nat.inj_div by lia; done).
    assert (Hmod : Z.to_nat ((v / 256) mod 256) = (n mod 256)%nat) by (unfold n; rewrite Z2Nat.inj_mod by lia; done).
    rewrite Hdiv, Hmod. destruct (lookup_lt_is_Some_2 ts (n / 256)%nat) as [t1 Ht1]; [apply Nat.Div0.div_lt_upper_bound; lia|].
    rewrite (pad_lookup _ _ _ Ht1). cbn [mbind option_bind]. rewrite (Hrep _ _ Ht1). cbn [mbind option_bind]. by rewrite (pad_lookup _ _ _ Hb).
Qed.

Lemma lookup_beyond t m v : NextValue t <= v -> PhpLookupHandleTableEntry t m v = Some None.
Proof. intros Hv. unfold PhpLookupHandleTableEntry. by rewrite (proj2 (Z.leb_le _ _)). Qed.

(** Entries are read and written at their places. *)
Lemma get_view m bs E v p : view m bs E -> 0 <= v -> place bs v p -> get_entry m p = E !! Z.to_nat v.
Proof.
  intros [Hlen HE] Hv [Hb Hi]. unfold get_entry. rewrite (HE _ _ Hb), Hi. cbn [mbind option_bind].
  rewrite (chunk_lookup E (Z.to_nat v)). f_equal; [by rewrite Z2Nat.inj_mod by lia|]. f_equal. by rewrite Z2Nat.inj_div by lia.
Qed.

(** The same blocks, with another level 0 contents. *)
Definition with_table0 m (T : gmap Z (list PH_HANDLE_TABLE_ENTRY)) : mem :=
  {| pool := pool m; table0 := T; table1 := table1 m; table2 := table2 m |}.
(** [m'] is [m] with other entries in the blocks [bs], which now hold [E]. *)
Definition rewritten m (bs : list Z) (E : list PH_HANDLE_TABLE_ENTRY) m' : Prop :=
  view m' bs E /\ exists T, m' = with_table0 m T /\ dom T = dom (table0 m) /\ (forall b, b ∉ bs -> T !! b = table0 m !! b).

Lemma rewritten_refl m bs E : view m bs E -> rewritten m bs E m.
Proof. intros HE. split; [done|]. exists (table0 m). split; [by destruct m|done]. Qed.

Lemma rewritten_trans m1 m2 m3 bs E2 E3 : rewritten m1 bs E2 m2 -> rewritten m2 bs E3 m3 -> rewritten m1 bs E3 m3.
Proof.
  intros [_ (T2 & -> & Hd2 & Hf2)] [HE3 (T3 & -> & Hd3 & Hf3)]. split; [done|]. exists T3. split; [done|]. split; [by rewrite Hd3|].
  intros b Hb. rewrite Hf3 by done. by apply Hf2.
Qed.

Lemma set_view m bs E v p e : view m bs E -> NoDup bs -> 0 <= v < 256 * Z.of_nat (length bs) -> place bs v p ->
  exists m', set_entry m p e = Some m' /\ rewritten m bs (<[Z.to_nat v := e]> E) m'.
Proof.
  intros [Hlen HE] Hnd Hv Hp. pose proof (get_view m bs E v p (conj Hlen HE) ltac:(lia) Hp) as Hget.
  destruct Hp as [Hb Hi]. unfold get_entry in Hget. unfold set_entry. rewrite (HE _ _ Hb) in *. cbn [mbind option_bind] in *. rewrite Hget.
  destruct (lookup_lt_is_Some_2 E (Z.to_nat v)) as [e0 ->]; [lia|]. cbn [mbind option_bind]. eexists. split; [done|].
  assert (Hdiv : Z.to_nat (v / 256) = (Z.to_nat v / 256)%nat) by (rewrite Z2Nat.inj_div by lia; done).
  assert (Hmod : Z.to_nat p.2 = (Z.to_nat v mod 256)%nat) by (rewrite Hi, Z2Nat.inj_mod by lia; done).
  split.
  - split; [by rewrite length_insert|]. intros i b Hib. cbn [table0]. rewrite chunk_insert by lia. rewrite Hdiv in *. case_decide as Hi'.
    + subst i. assert (b = p.1) as -> by congruence. by rewrite lookup_insert_eq, Hmod.
    + rewrite lookup_insert_ne; [by apply HE|]. intros <-. apply Hi'. by eapply NoDup_lookup.
  - eexists. split; [done|]. split.
    + rewrite dom_insert_L. apply set_eq. intros x. rewrite elem_of_union, elem_of_singleton.
      split; [intros [->|?]; [|done]|by right]. apply elem_of_dom. by rewrite (HE _ _ Hb).
    + intros b Hnb. apply lookup_insert_ne. intros <-. apply Hnb. by eapply list_elem_of_lookup_2.
Qed.

(** ** New level 0 tables *)

(** Some allocation fails. *)
Definition out_of_memory : Prop := exists (k : kind) (q : S), snd (obtain k q) = None.

Definition fresh_entry (e : PH_HANDLE_TABLE_ENTRY) (next : Z) : PH_HANDLE_TABLE_ENTRY :=
  set_NextFreeValue (set_Value e PH_HANDLE_TABLE_ENTRY_FREE) next.

(** [l'] is a level 0 table whose entries are linked as the handle values from [base] on. *)
Definition fresh_table (base : Z) (l' : list PH_HANDLE_TABLE_ENTRY) : Prop :=
  length l' = 256%nat /\ forall j e, l' !! j = Some e ->
    Value e = PH_HANDLE_TABLE_ENTRY_FREE /\ NextFreeValue e = if decide (j = 255%nat) then PH_HANDLE_VALUE_INVALID else base + Z.of_nat j + 1.

Lemma init_step m b l k e f : table0 m !! b = Some l -> 0 <= k -> l !! Z.to_nat k = Some e ->
  get_entry m (b, k) = Some e /\ set_entry m (b, k) f = Some (with_table0 m (<[b := <[Z.to_nat k := f]> l]> (table0 m))).
Proof. intros Hl Hk He. unfold get_entry, set_entry. cbn [fst snd]. rewrite Hl. cbn [mbind option_bind]. by rewrite He. Qed.

Lemma init_entries_S fuel m b k i limit :
  init_entries (Datatypes.S fuel) m b k i limit =
  if i <? limit then
    e ← get_entry m (b, k);
    m ← set_entry m (b, k) (set_NextFreeValue (set_Value e PH_HANDLE_TABLE_ENTRY_FREE) i);
    init_entries fuel m b (k + 1) (i +₃₂ 1) limit
  else Some (m, k).
Proof. done. Qed.

Lemma init_entries_spec b base n : 0 <= base -> base + 256 < 2 ^ 32 -> forall k m l, table0 m !! b = Some l -> length l = 256%nat -> (k + n = 255)%nat ->
  exists l', init_entries (Datatypes.S n) m b (Z.of_nat k) (base + Z.of_nat k + 1) (base + 256) = Some (with_table0 m (<[b := l']> (table0 m)), 255) /\
    length l' = 256%nat /\
    forall j, l' !! j = if decide (k <= j < 255)%nat then (fun e => fresh_entry e (base + Z.of_nat j + 1)) <$> l !! j else l !! j.
Proof.
  intros Hb0 Hb1. induction n as [|n IH]; intros k m l Hl Hlen Hk; rewrite init_entries_S.
  - rewrite (proj2 (Z.ltb_ge _ _)) by lia. exists l. split; [|split; [done|]].
    + f_equal. f_equal; [|lia]. unfold with_table0. rewrite insert_id by done. by destruct m.
    + intros j. rewrite decide_False; [done|lia].
  - rewrite (proj2 (Z.ltb_lt _ _)) by lia.
    destruct (lookup_lt_is_Some_2 l k) as [e He]; [lia|].
    destruct (init_step m b l (Z.of_nat k) e (set_NextFreeValue (set_Value e PH_HANDLE_TABLE_ENTRY_FREE) (base + Z.of_nat k + 1)) Hl) as [-> Hset];
      [lia|by rewrite Nat2Z.id|]. cbn [mbind option_bind]. rewrite Hset. cbn [mbind option_bind]. rewrite Nat2Z.id.
    rewrite u32_id by (unfold in_width; lia).
    set (m1 := with_table0 m _). destruct (IH (Datatypes.S k) m1 (<[k := fresh_entry e (base + Z.of_nat k + 1)]> l)) as (l' & Hi & Hl' & Hent).
    { unfold m1. cbn [table0 with_table0]. by rewrite lookup_insert_eq. }
    { by rewrite length_insert. }
    { lia. }
    exists l'. split; [|split; [done|]].
    + replace (Z.of_nat k + 1) with (Z.of_nat (Datatypes.S k)) by lia. replace (base + Z.of_nat k + 1 + 1) with (base + Z.of_nat (Datatypes.S k) + 1) by lia.
      rewrite Hi. unfold m1, with_table0. cbn [pool table0 table1 table2]. by rewrite insert_insert_eq.
    + intros j. rewrite Hent. destruct (decide (j = k)) as [->|Hjk].
      * rewrite decide_False, decide_True by lia. rewrite list_lookup_insert_eq by lia. by rewrite He.
      * rewrite list_lookup_insert_ne by done. repeat case_decide; try lia; done.
Qed.

Lemma mem_wf_insert0 m (q : S) b l : mem_wf m -> owned Level0 q = {[b]} ∪ owned Level0 (pool m) -> alloc_wf q ->
  (forall k, k <> Level0 -> owned k q = owned k (pool m)) ->
  mem_wf {| pool := q; table0 := <[b := l]> (table0 m); table1 := table1 m; table2 := table2 m |}.
Proof.
  intros [Ha Hd0 Hd1 Hd2] Ho Hs Hk. split; cbn [pool table0 table1 table2]; [done| | |].
  - by rewrite dom_insert_L, Ho, Hd0.
  - by rewrite Hk.
  - by rewrite Hk.
Qed.

Lemma mem_wf_dom m m' : mem_wf m -> pool m' = pool m -> dom (table0 m') = dom (table0 m) -> dom (table1 m') = dom (table1 m) -> dom (table2 m') = dom (table2 m) -> mem_wf m'.
Proof. intros [Ha Hd0 Hd1 Hd2] Hp E0 E1 E2. split; rewrite Hp; [done|by rewrite E0|by rewrite E1|by rewrite E2]. Qed.

(** The contents after some calls; the structures in use are the same. *)
Definition becomes m m' (T0 : gmap Z (list PH_HANDLE_TABLE_ENTRY)) (T1 T2 : gmap Z (list Z)) : Prop :=
  mem_wf m' /\ table0 m' = T0 /\ table1 m' = T1 /\ table2 m' = T2 /\ owned Structure (pool m') = owned Structure (pool m).

(** Nothing but what the allocator remembers has changed. *)
Definition same_blocks m m' : Prop := becomes m m' (table0 m) (table1 m) (table2 m).

Lemma same_blocks_refl m : mem_wf m -> same_blocks m m.
Proof. done. Qed.

(** A new level 0 table, linked from [base] on, or NULL. *)
Lemma create0_spec m base : mem_wf m -> 0 <= base -> base + 256 < 2 ^ 32 ->
  exists m' r, PhpCreateHandleTableLevel0 uninitialized m base true = Some (m', r) /\
    match r with
    | None => same_blocks m m' /\ out_of_memory
    | Some b => exists l, table0 m !! b = None /\ b mod 16 = 0 /\ 0 < b /\ fresh_table base l /\
        becomes m m' (<[b := l]> (table0 m)) (table1 m) (table2 m)
    end.
Proof.
  intros Hm Hb0 Hb1. unfold PhpCreateHandleTableLevel0. pose proof Hm as [Ha Hd0 Hd1 Hd2].
  destruct (obtain Level0 (pool m)) as [q [b|]] eqn:Eo.
  - destruct (obtain_some _ _ _ _ Ha Eo) as (Hfr & Hown & Hpos & Hal & Hs & Hk).
    set (l0 := uninitialized b <$> seqZ 0 PH_HANDLE_TABLE_LEVEL_ENTRIES). cbv zeta.
    set (m1 := {| pool := q; table0 := <[b := l0]> (table0 m); table1 := table1 m; table2 := table2 m |}).
    assert (Hl0 : length l0 = 256%nat) by (unfold l0; by rewrite length_fmap, length_seqZ).
    destruct (init_entries_spec b base 255 Hb0 Hb1 0 m1 l0) as (l & Hi & Hll & Hent); [cbn [table0 m1]; apply lookup_insert_eq|done|lia|].
    rewrite !u32_id by (unfold in_width, PH_HANDLE_TABLE_LEVEL_ENTRIES; lia).
    change (Z.to_nat PH_HANDLE_TABLE_LEVEL_ENTRIES) with 256%nat. rewrite Z.add_0_r in Hi.
    change (base + PH_HANDLE_TABLE_LEVEL_ENTRIES) with (base + 256). change (Z.of_nat 0) with 0 in Hi. rewrite Hi. cbn [mbind option_bind].
    set (m2 := with_table0 m1 _). destruct (lookup_lt_is_Some_2 l 255%nat) as [e He]; [lia|].
    destruct (init_step m2 b l 255 e (fresh_entry e PH_HANDLE_VALUE_INVALID)) as [-> Hset]; [cbn [table0 m2 with_table0]; apply lookup_insert_eq|lia|done|].
    cbn [mbind option_bind]. unfold fresh_entry in Hset. rewrite Hset. cbn [mbind option_bind]. eexists _, _. split; [done|].
    change (Z.to_nat 255) with 255%nat. eexists. unfold m2, m1, with_table0, becomes. cbn [pool table0 table1 table2]. rewrite !insert_insert_eq.
    split; [apply not_elem_of_dom; by rewrite Hd0|]. split; [done|]. split; [done|].
    split; [|split; [by apply mem_wf_insert0|]; split; [done|]; split; [done|]; split; [done|by apply Hk]].
    split; [by rewrite length_insert|]. intros j f Hf.
    assert (Hj : (j < 256)%nat) by (apply lookup_lt_Some in Hf; rewrite length_insert in Hf; lia).
    case_decide as Hj2.
    + subst j. rewrite list_lookup_insert_eq in Hf by lia. injection Hf as <-. by rewrite next_set.
    + rewrite list_lookup_insert_ne in Hf by done. rewrite Hent, decide_True in Hf by lia.
      destruct (l0 !! j); [|done]. injection Hf as <-. unfold fresh_entry. split; [done|]. apply next_set. lia.
  - destruct (obtain_none _ _ _ Ha Eo) as [Hs Hk]. eexists _, _. split; [done|]. split; [|exists Level0, (pool m); by rewrite Eo].
    split; [split; cbn [pool table0 table1 table2]; [done|by rewrite Hk..]|]. by rewrite Hk.
Qed.

Lemma create1_spec m : mem_wf m -> exists m' r, PhpCreateHandleTableLevel1 m = (m', r) /\
  match r with
  | None => same_blocks m m' /\ out_of_memory
  | Some a => table1 m !! a = None /\ a mod 16 = 0 /\ 0 < a /\ becomes m m' (table0 m) (<[a := pad_slots []]> (table1 m)) (table2 m)
  end.
Proof.
  intros [Ha Hd0 Hd1 Hd2]. unfold PhpCreateHandleTableLevel1. destruct (obtain Level1 (pool m)) as [q [a|]] eqn:Eo; (eexists _, _; split; [done|]).
  - destruct (obtain_some _ _ _ _ Ha Eo) as (Hfr & Hown & Hpos & Hal & Hs & Hk). split; [apply not_elem_of_dom; by rewrite Hd1|]. split; [done|]. split; [done|].
    split; [|split; [done|]; split; [done|]; split; [done|by apply Hk]].
    split; cbn [pool table0 table1 table2]; [done|by rewrite Hk|by rewrite dom_insert_L, Hown, Hd1|by rewrite Hk].
  - destruct (obtain_none _ _ _ Ha Eo) as [Hs Hk]. split; [|exists Level1, (pool m); by rewrite Eo].
    split; [split; cbn [pool table0 table1 table2]; [done|by rewrite Hk..]|]. by rewrite Hk.
Qed.

Lemma create2_spec m : mem_wf m -> exists m' r, PhpCreateHandleTableLevel2 m = (m', r) /\
  match r with
  | None => same_blocks m m' /\ out_of_memory
  | Some a => table2 m !! a = None /\ a mod 16 = 0 /\ 0 < a /\ becomes m m' (table0 m) (table1 m) (<[a := pad_slots []]> (table2 m))
  end.
Proof.
  intros [Ha Hd0 Hd1 Hd2]. unfold PhpCreateHandleTableLevel2. destruct (obtain Level2 (pool m)) as [q [a|]] eqn:Eo; (eexists _, _; split; [done|]).
  - destruct (obtain_some _ _ _ _ Ha Eo) as (Hfr & Hown & Hpos & Hal & Hs & Hk). split; [apply not_elem_of_dom; by rewrite Hd2|]. split; [done|]. split; [done|].
    split; [|split; [done|]; split; [done|]; split; [done|by apply Hk]].
    split; cbn [pool table0 table1 table2]; [done|by rewrite Hk|by rewrite Hk|by rewrite dom_insert_L, Hown, Hd2].
  - destruct (obtain_none _ _ _ Ha Eo) as [Hs Hk]. split; [|exists Level2, (pool m); by rewrite Eo].
    split; [split; cbn [pool table0 table1 table2]; [done|by rewrite Hk..]|]. by rewrite Hk.
Qed.

(** A table given back. *)
Lemma free0_spec m a l : mem_wf m -> table0 m !! a = Some l ->
  exists m', PhpFreeHandleTableLevel0 m a = Some m' /\ becomes m m' (delete a (table0 m)) (table1 m) (table2 m).
Proof.
  intros [Ha Hd0 Hd1 Hd2] Hl. unfold PhpFreeHandleTableLevel0. rewrite Hl. cbn [mbind option_bind].
  destruct (give_back_owned Level0 a (pool m) Ha) as (q & -> & Hown & Hq & Hk); [rewrite <- Hd0; by eapply elem_of_dom_2|].
  cbn [mbind option_bind]. eexists. split; [done|]. split; [|split; [done|]; split; [done|]; split; [done|by apply Hk]].
  split; cbn [pool table0 table1 table2]; [done|by rewrite dom_delete_L, Hown, Hd0|by rewrite Hk|by rewrite Hk].
Qed.
Lemma free1_spec m a l : mem_wf m -> table1 m !! a = Some l ->
  exists m', PhpFreeHandleTableLevel1 m a = Some m' /\ becomes m m' (table0 m) (delete a (table1 m)) (table2 m).
Proof.
  intros [Ha Hd0 Hd1 Hd2] Hl. unfold PhpFreeHandleTableLevel1. rewrite Hl. cbn [mbind option_bind].
  destruct (give_back_owned Level1 a (pool m) Ha) as (q & -> & Hown & Hq & Hk); [rewrite <- Hd1; by eapply elem_of_dom_2|].
  cbn [mbind option_bind]. eexists. split; [done|]. split; [|split; [done|]; split; [done|]; split; [done|by apply Hk]].
  split; cbn [pool table0 table1 table2]; [done|by rewrite Hk|by rewrite dom_delete_L, Hown, Hd1|by rewrite Hk].
Qed.
Lemma free2_spec m a l : mem_wf m -> table2 m !! a = Some l ->
  exists m', PhpFreeHandleTableLevel2 m a = Some m' /\ becomes m m' (table0 m) (table1 m) (delete a (table2 m)).
Proof.
  intros [Ha Hd0 Hd1 Hd2] Hl. unfold PhpFreeHandleTableLevel2. rewrite Hl. cbn [mbind option_bind].
  destruct (give_back_owned Level2 a (pool m) Ha) as (q & -> & Hown & Hq & Hk); [rewrite <- Hd2; by eapply elem_of_dom_2|].
  cbn [mbind option_bind]. eexists. split; [done|]. split; [|split; [done|]; split; [done|]; split; [done|by apply Hk]].
  split; cbn [pool table0 table1 table2]; [done|by rewrite Hk|by rewrite Hk|by rewrite dom_delete_L, Hown, Hd2].
Qed.

(** A pointer appended to a table that is not full. *)
Lemma store_append words a l w : words !! a = Some (pad_slots l) -> (length l < 256)%nat ->
  store words a (Z.of_nat (length l)) w = Some (<[a := pad_slots (l ++ [w])]> words).
Proof.
  intros Hl Hlen. unfold store. rewrite Hl. cbn [mbind option_bind]. rewrite Nat2Z.id.
  rewrite (pad_lookup_null l (length l)) by lia. cbn [mbind option_bind]. by rewrite pad_store.
Qed.

Lemma store1_append m a l w i : mem_wf m -> table1 m !! a = Some (pad_slots l) -> (length l < 256)%nat -> i = Z.of_nat (length l) ->
  exists m', store1 m a i w = Some m' /\ becomes m m' (table0 m) (<[a := pad_slots (l ++ [w])]> (table1 m)) (table2 m).
Proof.
  intros Hm Hl Hlen ->. unfold store1. rewrite (store_append _ a l w Hl Hlen). cbn [mbind option_bind]. eexists. split; [done|].
  split; [|done]. apply (mem_wf_dom m); try done. cbn [table1]. apply dom_insert_lookup_L. by eexists.
Qed.
Lemma store2_append m a l w i : mem_wf m -> table2 m !! a = Some (pad_slots l) -> (length l < 256)%nat -> i = Z.of_nat (length l) ->
  exists m', store2 m a i w = Some m' /\ becomes m m' (table0 m) (table1 m) (<[a := pad_slots (l ++ [w])]> (table2 m)).
Proof.
  intros Hm Hl Hlen ->. unfold store2. rewrite (store_append _ a l w Hl Hlen). cbn [mbind option_bind]. eexists. split; [done|].
  split; [|done]. apply (mem_wf_dom m); try done. cbn [table2]. apply dom_insert_lookup_L. by eexists.
Qed.

(** ** Growing *)

Record shape_ok s : Prop := {
  ok_nodup0 : NoDup (tables0 s); ok_nodup1 : NoDup (tables1 s);
  ok_null0 : 0 ∉ tables0 s; ok_null1 : 0 ∉ tables1 s;
}.

(** Compared to [T0], the map [T] has the new blocks [bs], and all others as they were. *)
Definition out {A} (T0 T : gmap Z A) (bs : list Z) : Prop :=
  (forall b, b ∉ bs -> T !! b = T0 !! b) /\ (forall b, b ∈ bs -> T0 !! b = None).

Lemma out_nil {A} (T : gmap Z A) : out T T [].
Proof. split; [done|by intros ? ?%elem_of_nil]. Qed.

Lemma out_new {A} (T0 T : gmap Z A) bs b x : out T0 T bs -> b ∉ bs -> T !! b = None -> out T0 (<[b := x]> T) (bs ++ [b]).
Proof.
  intros [Ho Hn] Hb Hf. split.
  - intros c [Hc Hcb%not_elem_of_cons]%not_elem_of_app. rewrite lookup_insert_ne by (intros ->; by destruct Hcb). by apply Ho.
  - intros c [Hc|Hc%list_elem_of_singleton]%elem_of_app; [by apply Hn|]. subst c. by rewrite <- Ho.
Qed.

Lemma out_update {A} (T0 T : gmap Z A) bs b x : out T0 T bs -> b ∈ bs -> out T0 (<[b := x]> T) bs.
Proof. intros [Ho Hn] Hb. split; [|done]. intros c Hc. rewrite lookup_insert_ne by (intros ->; done). by apply Ho. Qed.

Definition outside m0 m s : Prop :=
  out (table0 m0) (table0 m) (tables0 s) /\ out (table1 m0) (table1 m) (tables1 s) /\ out (table2 m0) (table2 m) (tables2 s) /\
  owned Structure (pool m) = owned Structure (pool m0).

Lemma not_in_None {A} (T : gmap Z A) (bs : list Z) b : (forall c, c ∈ bs -> is_Some (T !! c)) -> T !! b = None -> b ∉ bs.
Proof. intros Hb Hn Hin. destruct (Hb b Hin). congruence. Qed.

Lemma NoDup_snoc (bs : list Z) b : NoDup bs -> b ∉ bs -> NoDup (bs ++ [b]).
Proof. intros Hn Hb. apply NoDup_app. split; [done|]. split; [intros x Hx ->%list_elem_of_singleton; done|]. apply NoDup_singleton. Qed.

Lemma not_elem_snoc (bs : list Z) a b : a ∉ bs -> a <> b -> a ∉ bs ++ [b].
Proof. intros Ha Hb [?|?%list_elem_of_singleton]%elem_of_app; done. Qed.

(** What an expansion does: one more level 0 table, at the end, linked from [NextValue] on. *)
Definition one_more m0 t m s m' tv b : Prop :=
  exists s' l, tables0 s' = tables0 s ++ [b] /\ table0 m !! b = None /\ fresh_table (NextValue t) l /\
    table0 m' = <[b := l]> (table0 m) /\ mem_wf m' /\ tree tv m' s' /\ shape_ok s' /\ outside m0 m' s'.

Section expand.
Context (m0 : mem) (t : TABLE) (m : mem) (s : shape).
Context (Hm : mem_wf m) (Hok : shape_ok s) (Hout : outside m0 m s).
Context (Hlive : forall b, b ∈ tables0 s -> is_Some (table0 m !! b)).
Context (Hnext : NextValue t = 256 * Z.of_nat (length (tables0 s))) (Hsize : Z.of_nat (length (tables0 s)) <= 65536).

Lemma expand0_spec tv : s = {| tables0 := [tv]; tables1 := []; tables2 := [] |} ->
  exists m' r, expand0 uninitialized t m tv true = Some (m', r) /\
    match r with None => same_blocks m m' /\ out_of_memory | Some (tv', b) => one_more m0 t m s m' tv' b end.
Proof.
  intros Hs. unfold expand0. destruct Hok as [Hn0 Hn1 Hz0 Hz1], Hout as (Ho0 & Ho1 & Ho2 & Hst).
  rewrite Hs in Hn0, Hn1, Hz0, Hz1, Ho0, Ho1, Ho2, Hlive, Hnext; cbn [tables0 tables1 tables2 length] in *.
  destruct (create1_spec m Hm) as (m1 & [a|] & -> & H1); [|by exists m1, None].
  destruct H1 as (Hfa & Hal & Hpa & Hm1 & E0 & E1 & E2 & Est).
  destruct (create0_spec m1 (NextValue t) Hm1) as (m2 & [b|] & -> & H2); [lia|lia| |]; cbn [mbind option_bind].
  - destruct H2 as (l & Hfb & Hbl & Hpb & Hfresh & Hm2 & F0 & F1 & F2 & Fst). rewrite E0 in *. rewrite E1, E2 in *.
    destruct (store1_append m2 a [] tv 0 Hm2) as (m3 & -> & Hm3 & G0 & G1 & G2 & Gst); [by rewrite F1, lookup_insert_eq|simpl; lia|done|]. cbn [mbind option_bind].
    destruct (store1_append m3 a [tv] b 1 Hm3) as (m4 & -> & Hm4 & K0 & K1 & K2 & Kst); [by rewrite G1, lookup_insert_eq|simpl; lia|done|]. cbn [mbind option_bind].
    exists m4, (Some (Z.lor a 1, b)). split; [done|].
    rewrite G1, F1, !insert_insert_eq in K1. rewrite G0, F0 in K0. rewrite G2, F2 in K2.
    exists {| tables0 := [tv; b]; tables1 := [a]; tables2 := [] |}, l. rewrite Hs. split; [done|]. split; [done|]. split; [done|]. split; [done|]. split; [done|].
    assert (Hbtv : b ∉ [tv]) by (by apply (not_in_None (table0 m))).
    split; [|split].
    + apply (tree1 _ _ a); [done|done|simpl; lia|]. unfold level1_rep. by rewrite K1, lookup_insert_eq.
    + split; cbn [tables0 tables1]; [by apply (NoDup_snoc [tv])|apply NoDup_singleton|apply (not_elem_snoc [tv]); [done|lia]|].
      intros Ez%list_elem_of_singleton. lia.
    + split; [rewrite K0; by apply (out_new _ _ [tv])|]. split; [rewrite K1; apply (out_new _ _ []); [done|apply not_elem_of_nil|done]|].
      split; [by rewrite K2|congruence].
  - destruct H2 as [(Hm2 & F0 & F1 & F2 & Fst) Hoom]. destruct (free1_spec m2 a (pad_slots []) Hm2) as (m3 & -> & Hm3 & G0 & G1 & G2 & Gst); [by rewrite F1, E1, lookup_insert_eq|].
    cbn [mbind option_bind]. exists m3, None. split; [done|]. split; [|done]. rewrite F1, E1, delete_insert_id in G1 by done.
    split; [done|]. split; [congruence|]. split; [done|]. split; congruence.
Qed.

Lemma expand1_spec a bs : s = {| tables0 := bs; tables1 := [a]; tables2 := [] |} ->
  a mod 16 = 0 -> TableValue t = Z.lor a 1 -> (1 < length bs < 256)%nat -> level1_rep m a bs ->
  exists m' r, expand1 uninitialized t m a true = Some (m', r) /\
    match r with None => same_blocks m m' /\ out_of_memory | Some (tv', b) => one_more m0 t m s m' tv' b end.
Proof.
  intros Hs Hal Htv Hlen Hrep. unfold expand1, PH_HANDLE_TABLE_LEVEL_ENTRIES. destruct Hok as [Hn0 Hn1 Hz0 Hz1], Hout as (Ho0 & Ho1 & Ho2 & Hst).
  rewrite Hs in Hn0, Hn1, Hz0, Hz1, Ho0, Ho1, Ho2, Hlive, Hnext; cbn [tables0 tables1 tables2] in *.
  assert (NextValue t / 256 = Z.of_nat (length bs)) as -> by (rewrite Hnext, Z.mul_comm; by apply Z.div_mul).
  rewrite (proj2 (Z.ltb_lt _ _)) by lia.
  destruct (create0_spec m (NextValue t) Hm) as (m1 & [b|] & -> & H1); [lia|lia| |]; cbn [mbind option_bind]; [|by exists m1, None].
  destruct H1 as (l & Hfb & Hbl & Hpb & Hfresh & Hm1 & E0 & E1 & E2 & Est).
  destruct (store1_append m1 a bs b (Z.of_nat (length bs)) Hm1) as (m2 & -> & Hm2 & F0 & F1 & F2 & Fst); [by rewrite E1|lia|done|]. cbn [mbind option_bind].
  exists m2, (Some (TableValue t, b)). split; [done|]. rewrite E1 in F1. rewrite E0 in F0. rewrite E2 in F2.
  exists {| tables0 := bs ++ [b]; tables1 := [a]; tables2 := [] |}, l. rewrite Hs. do 5 (split; [done|]).
  assert (Hbs : b ∉ bs) by (by apply (not_in_None (table0 m))). split; [|split].
  - apply (tree1 _ _ a); [done|done|rewrite length_app; simpl; lia|]. unfold level1_rep. by rewrite F1, lookup_insert_eq.
  - split; cbn [tables0 tables1]; [by apply NoDup_snoc|done|apply not_elem_snoc; [done|lia]|done].
  - split; [rewrite F0; by apply out_new|]. split; [rewrite F1; apply out_update; [done|by apply list_elem_of_singleton]|].
    split; [by rewrite F2|congruence].
Qed.

(** A new level 1 table and a new level 0 table in its first slot; nothing when either is refused. *)
Lemma new_level1 m1 : mem_wf m1 ->
  (exists m2, PhpCreateHandleTableLevel1 m1 = (m2, None) /\ same_blocks m1 m2 /\ out_of_memory) \/
  (exists m2 a m3 m4, PhpCreateHandleTableLevel1 m1 = (m2, Some a) /\ PhpCreateHandleTableLevel0 uninitialized m2 (NextValue t) true = Some (m3, None) /\
     PhpFreeHandleTableLevel1 m3 a = Some m4 /\ same_blocks m1 m4 /\ out_of_memory) \/
  (exists m2 a m3 b m4 l, PhpCreateHandleTableLevel1 m1 = (m2, Some a) /\ PhpCreateHandleTableLevel0 uninitialized m2 (NextValue t) true = Some (m3, Some b) /\
     store1 m3 a 0 b = Some m4 /\ table0 m1 !! b = None /\ 0 < b /\ fresh_table (NextValue t) l /\ table1 m1 !! a = None /\ 0 < a /\
     becomes m1 m4 (<[b := l]> (table0 m1)) (<[a := pad_slots [b]]> (table1 m1)) (table2 m1)).
Proof.
  intros Hm1. destruct (create1_spec m1 Hm1) as (m2 & [a|] & E & H1); [right|left; by exists m2].
  destruct H1 as (Hfa & Hal & Hpa & Hm2 & E0 & E1 & E2 & Est).
  destruct (create0_spec m2 (NextValue t) Hm2) as (m3 & [b|] & F & H2); [lia|lia|right|left].
  - destruct H2 as (l & Hfb & Hbl & Hpb & Hfresh & Hm3 & F0 & F1 & F2 & Fst).
    destruct (store1_append m3 a [] b 0 Hm3) as (m4 & G & Hm4 & G0 & G1 & G2 & Gst); [by rewrite F1, E1, lookup_insert_eq|simpl; lia|done|].
    exists m2, a, m3, b, m4, l. rewrite E0 in *. do 8 (split; [done|]).
    split; [done|]. split; [by rewrite G0, F0|]. split; [by rewrite G1, F1, E1, insert_insert_eq|]. split; congruence.
  - destruct H2 as [(Hm3 & F0 & F1 & F2 & Fst) Hoom]. destruct (free1_spec m3 a (pad_slots []) Hm3) as (m4 & G & Hm4 & G0 & G1 & G2 & Gst); [by rewrite F1, E1, lookup_insert_eq|].
    exists m2, a, m3, m4. do 3 (split; [done|]). split; [|done]. rewrite F1, E1, delete_insert_id in G1 by done.
    split; [done|]. split; [congruence|]. split; [done|]. split; congruence.
Qed.

Lemma chunk_full {A} (l : list A) : length l = 256%nat -> chunk 0 l = l /\ chunk 1 l = [].
Proof. intros Hl. unfold chunk. simpl drop at 1. split; [by apply take_ge; lia|]. by rewrite drop_ge by lia. Qed.

Lemma expand1_full a bs : s = {| tables0 := bs; tables1 := [a]; tables2 := [] |} ->
  a mod 16 = 0 -> length bs = 256%nat -> level1_rep m a bs ->
  exists m' r, expand1 uninitialized t m a true = Some (m', r) /\
    match r with None => same_blocks m m' /\ out_of_memory | Some (tv', b) => one_more m0 t m s m' tv' b end.
Proof.
  intros Hs Hal Hlen Hrep. pose proof new_level1 as Hnew.
  unfold expand1, PH_HANDLE_TABLE_LEVEL_ENTRIES. destruct Hok as [Hn0 Hn1 Hz0 Hz1], Hout as (Ho0 & Ho1 & Ho2 & Hst).
  rewrite Hs in Hn0, Hn1, Hz0, Hz1, Ho0, Ho1, Ho2, Hlive, Hnext; cbn [tables0 tables1 tables2] in *.
  assert (NextValue t / 256 = 256) as -> by (rewrite Hnext, Hlen; done). rewrite (proj2 (Z.ltb_ge 256 256)) by lia.
  destruct (create2_spec m Hm) as (m1 & [a2|] & -> & H1); [|by exists m1, None].
  destruct H1 as (Hf2 & Hal2 & Hp2 & Hm1 & E0 & E1 & E2 & Est).
  assert (Hfree2 : forall m4, same_blocks m1 m4 -> exists m5, PhpFreeHandleTableLevel2 m4 a2 = Some m5 /\ same_blocks m m5).
  { intros m4 (Hm4 & F0 & F1 & F2 & Fst). destruct (free2_spec m4 a2 (pad_slots []) Hm4) as (m5 & E & Hm5 & G0 & G1 & G2 & Gst); [by rewrite F2, E2, lookup_insert_eq|].
    exists m5. split; [done|]. rewrite F2, E2, delete_insert_id in G2 by done. split; [done|]. split; [congruence|]. split; [congruence|]. split; congruence. }
  destruct (Hnew m1 Hm1) as [(m2 & -> & Hsame & Hoom)|[(m2 & t1 & m3 & m4 & -> & -> & Hf1 & Hsame & Hoom)|(m2 & t1 & m3 & b & m4 & l & -> & -> & Hst1 & Hfb & Hpb & Hfresh & Hf1 & Hp1 & Hm4 & F0 & F1 & F2 & Fst)]]; cbn [mbind option_bind].
  - destruct (Hfree2 m2 Hsame) as (m5 & -> & Hs5). cbn [mbind option_bind]. by exists m5, None.
  - rewrite Hf1. cbn [mbind option_bind]. destruct (Hfree2 m4 Hsame) as (m5 & -> & Hs5). cbn [mbind option_bind]. by exists m5, None.
  - rewrite Hst1. cbn [mbind option_bind]. rewrite E0 in *. rewrite E1 in *. rewrite E2 in *.
    destruct (store2_append m4 a2 [] a 0 Hm4) as (m5 & -> & Hm5 & G0 & G1 & G2 & Gst); [by rewrite F2, lookup_insert_eq|simpl; lia|done|]. cbn [mbind option_bind].
    destruct (store2_append m5 a2 [a] t1 1 Hm5) as (m6 & -> & Hm6 & K0 & K1 & K2 & Kst); [by rewrite G2, lookup_insert_eq|simpl; lia|done|]. cbn [mbind option_bind].
    rewrite G2, F2, !insert_insert_eq in K2. rewrite G1, F1 in K1. rewrite G0, F0 in K0.
    exists m6, (Some (Z.lor a2 2, b)). split; [done|].
    exists {| tables0 := bs ++ [b]; tables1 := [a; t1]; tables2 := [a2] |}, l. rewrite Hs. do 5 (split; [done|]).
    assert (Hbs : b ∉ bs) by (by apply (not_in_None (table0 m))).
    assert (Hat : a <> t1) by (intros ->; unfold level1_rep in Hrep; congruence).
    destruct (chunk_full bs Hlen) as [Hc0 Hc1]. split; [|split].
    + apply (tree2 _ _ a2); try (rewrite ?length_app; simpl; lia); try done; [by rewrite K2, lookup_insert_eq|].
      intros [|[|i]] c Hc; [| |done]; injection Hc as <-; unfold level1_rep; rewrite K1.
      * rewrite lookup_insert_ne by done. rewrite chunk_app_old by lia. by rewrite Hc0.
      * rewrite lookup_insert_eq. rewrite chunk_app_new by (simpl; lia). by rewrite Hc1.
    + split; cbn [tables0 tables1]; [by apply NoDup_snoc| |apply not_elem_snoc; [done|lia]|apply (not_elem_snoc [a]); [done|lia]].
      apply (NoDup_snoc [a]); [done|]. intros Ez%list_elem_of_singleton. done.
    + split; [rewrite K0; by apply out_new|]. split; [rewrite K1; apply (out_new _ _ [a]); [done| |done]|].
      { intros Ez%list_elem_of_singleton. done. }
      split; [rewrite K2; apply (out_new _ _ []); [done|apply not_elem_of_nil|done]|]. congruence.
Qed.

Section level2.
Context (a2 : Z) (ts bs : list Z) (Hs : s = {| tables0 := bs; tables1 := ts; tables2 := [a2] |}).
Context (Hal : a2 mod 16 = 0) (Htv : TableValue t = Z.lor a2 2) (Hlen : (256 < length bs)%nat).
Context (Hl1 : (256 * length ts < length bs + 256)%nat) (Hl2 : (length bs <= 256 * length ts)%nat) (Hl3 : (length ts <= 256)%nat).
Context (Ht2 : table2 m !! a2 = Some (pad_slots ts)) (Hrep : forall i b, ts !! i = Some b -> level1_rep m b (chunk i bs)).

Lemma level2_index : NextValue t / (256 * 256) = Z.of_nat (length bs / 256).
Proof. rewrite Hnext, Hs, Nat2Z.inj_div. cbn [tables0]. change (256 * 256) with (256 * (256)). rewrite Z.div_mul_cancel_l by lia. done. Qed.

(** The last level 1 table has room. *)
Lemma expand2_room c1 i : ts !! i = Some c1 -> (length bs / 256 = i)%nat ->
  exists m' r, expand2 uninitialized t m a2 true = Some (m', r) /\
    match r with None => same_blocks m m' /\ out_of_memory | Some (tv', b) => one_more m0 t m s m' tv' b end.
Proof.
  intros Ht1 Hi. unfold expand2, PH_HANDLE_TABLE_LEVEL_ENTRIES. rewrite level2_index, Hi. pose proof (Nat.div_mod (length bs) 256 ltac:(lia)) as Hdm.
  pose proof (Nat.mod_upper_bound (length bs) 256 ltac:(lia)) as Hub. rewrite Hi in Hdm. apply lookup_lt_Some in Ht1 as Hit.
  rewrite (proj2 (Z.leb_gt _ _)) by lia. unfold load2, load. rewrite Ht2. cbn [mbind option_bind]. rewrite Nat2Z.id, (pad_lookup _ _ _ Ht1). cbn [mbind option_bind].
  destruct Hok as [Hn0 Hn1 Hz0 Hz1], Hout as (Ho0 & Ho1 & Ho2 & Hst). pose proof Hnext as Hnv.
  rewrite Hs in Hn0, Hn1, Hz0, Hz1, Ho0, Ho1, Ho2, Hlive, Hnv, Hsize; cbn [tables0 tables1 tables2] in *.
  assert (Hnz : c1 <> 0) by (intros ->; apply Hz1; by eapply list_elem_of_lookup_2). rewrite (proj2 (Z.eqb_neq _ _) Hnz). cbn [negb].
  destruct (create0_spec m (NextValue t) Hm) as (m1 & [b|] & -> & H1); [lia|lia| |]; cbn [mbind option_bind]; [|by exists m1, None].
  destruct H1 as (l & Hfb & Hbl & Hpb & Hfresh & Hm1 & E0 & E1 & E2 & Est).
  assert (Hj : (NextValue t -₃₂ Z.of_nat i * (256 * 256)) / 256 = Z.of_nat (length (chunk i bs))).
  { rewrite chunk_length, Hnv, u32_id by (unfold in_width; lia). replace (256 * Z.of_nat (length bs) - Z.of_nat i * (256 * 256)) with ((Z.of_nat (length bs) - 256 * Z.of_nat i) * 256) by lia.
    rewrite Z.div_mul by lia. lia. }
  rewrite Hj. destruct (store1_append m1 c1 (chunk i bs) b (Z.of_nat (length (chunk i bs))) Hm1) as (m2 & -> & Hm2 & F0 & F1 & F2 & Fst);
    [rewrite E1; by apply Hrep|rewrite chunk_length; lia|done|]. cbn [mbind option_bind].
  exists m2, (Some (TableValue t, b)). split; [done|]. rewrite E1 in F1. rewrite E0 in F0. rewrite E2 in F2.
  exists {| tables0 := bs ++ [b]; tables1 := ts; tables2 := [a2] |}, l. rewrite Hs. do 5 (split; [done|]).
  assert (Hbs : b ∉ bs) by (by apply (not_in_None (table0 m))). split; [|split].
  - apply (tree2 _ _ a2); try (rewrite ?length_app; simpl; lia); try done; [by rewrite F2|].
    intros k c Hc. unfold level1_rep. rewrite F1. apply lookup_lt_Some in Hc as Hkt. destruct (decide (k = i)) as [->|Hki].
    + assert (c = c1) as -> by congruence. rewrite lookup_insert_eq. by rewrite chunk_app_new by (simpl; lia).
    + rewrite lookup_insert_ne by (intros ->; by apply Hki; eapply NoDup_lookup).
      rewrite chunk_app_old by lia. by apply Hrep.
  - split; cbn [tables0 tables1]; [by apply NoDup_snoc|done|apply not_elem_snoc; [done|lia]|done].
  - split; [rewrite F0; by apply out_new|]. split; [rewrite F1; apply out_update; [done|by eapply list_elem_of_lookup_2]|].
    split; [by rewrite F2|congruence].
Qed.

(** Every level 1 table is full, and the level 2 table is not. *)
Lemma expand2_new : (length bs = 256 * length ts)%nat -> (length ts < 256)%nat ->
  exists m' r, expand2 uninitialized t m a2 true = Some (m', r) /\
    match r with None => same_blocks m m' /\ out_of_memory | Some (tv', b) => one_more m0 t m s m' tv' b end.
Proof.
  intros Hfull Hroom. pose proof new_level1 as Hnew. unfold expand2, PH_HANDLE_TABLE_LEVEL_ENTRIES. rewrite level2_index.
  assert ((length bs / 256)%nat = length ts) as -> by (rewrite Hfull, Nat.mul_comm; by apply Nat.div_mul).
  rewrite (proj2 (Z.leb_gt _ _)) by lia. unfold load2, load. rewrite Ht2. cbn [mbind option_bind]. rewrite Nat2Z.id, (pad_lookup_null ts (length ts)) by lia.
  cbn [mbind option_bind Z.eqb negb]. destruct Hok as [Hn0 Hn1 Hz0 Hz1], Hout as (Ho0 & Ho1 & Ho2 & Hst).
  rewrite Hs in Hn0, Hn1, Hz0, Hz1, Ho0, Ho1, Ho2, Hlive; cbn [tables0 tables1 tables2] in *.
  destruct (Hnew m Hm) as [(m2 & -> & Hsame & Hoom)|[(m2 & t1 & m3 & m4 & -> & -> & Hf1 & Hsame & Hoom)|(m2 & t1 & m3 & b & m4 & l & -> & -> & Hst1 & Hfb & Hpb & Hfresh & Hf1 & Hp1 & Hm4 & F0 & F1 & F2 & Fst)]]; cbn [mbind option_bind].
  - by exists m2, None.
  - rewrite Hf1. cbn [mbind option_bind]. by exists m4, None.
  - rewrite Hst1. cbn [mbind option_bind].
    destruct (store2_append m4 a2 ts t1 (Z.of_nat (length ts)) Hm4) as (m5 & -> & Hm5 & G0 & G1 & G2 & Gst); [by rewrite F2|done|done|]. cbn [mbind option_bind].
    rewrite F2 in G2. rewrite F1 in G1. rewrite F0 in G0.
    exists m5, (Some (TableValue t, b)). split; [done|].
    exists {| tables0 := bs ++ [b]; tables1 := ts ++ [t1]; tables2 := [a2] |}, l. rewrite Hs. do 5 (split; [done|]).
    assert (Hbs : b ∉ bs) by (by apply (not_in_None (table0 m))).
    assert (Hts : t1 ∉ ts). { intros [i Hi]%list_elem_of_lookup. pose proof (Hrep i t1 Hi) as Hr. unfold level1_rep in Hr. congruence. }
    split; [|split].
    + apply (tree2 _ _ a2); try (rewrite ?length_app; simpl; lia); try done; [by rewrite G2, lookup_insert_eq|].
      intros k c Hc. unfold level1_rep. rewrite G1. destruct (decide (k = length ts)) as [->|Hk].
      * rewrite list_lookup_middle in Hc by done. injection Hc as <-. rewrite lookup_insert_eq. rewrite chunk_app_new by (simpl; lia).
        unfold chunk. by rewrite drop_ge by lia.
      * rewrite lookup_app_l in Hc by (apply lookup_lt_Some in Hc; rewrite length_app in Hc; simpl in Hc; lia). apply lookup_lt_Some in Hc as Hkt.
        rewrite lookup_insert_ne by (intros ->; apply Hts; by eapply list_elem_of_lookup_2). rewrite chunk_app_old by lia. by apply Hrep.
    + split; cbn [tables0 tables1]; [by apply NoDup_snoc|by apply NoDup_snoc|apply not_elem_snoc; [done|lia]|apply not_elem_snoc; [done|lia]].
    + split; [rewrite G0; by apply out_new|]. split; [rewrite G1; by apply out_new|].
      split; [rewrite G2; apply out_update; [done|by apply list_elem_of_singleton]|congruence].
Qed.

Lemma expand2_spec : exists m' r, expand2 uninitialized t m a2 true = Some (m', r) /\
    match r with
    | None => same_blocks m m' /\ (out_of_memory \/ length (tables0 s) = Z.to_nat 65536)
    | Some (tv', b) => one_more m0 t m s m' tv' b
    end.
Proof.
  pose proof (Nat.div_mod (length bs) 256 ltac:(lia)) as Hdm. pose proof (Nat.mod_upper_bound (length bs) 256 ltac:(lia)) as Hmod.
  destruct (ts !! (length bs / 256)%nat) as [c1|] eqn:Ht1.
  - destruct (expand2_room c1 _ Ht1 eq_refl) as (m' & r & E & Hr). exists m', r. split; [done|]. destruct r as [[? ?]|]; [done|]. destruct Hr. tauto.
  - apply lookup_ge_None in Ht1 as Hge.
    assert (Hfull : (length bs = 256 * length ts)%nat) by lia.
    destruct (decide (length ts < 256)%nat) as [Hlt|Hgt].
    + destruct (expand2_new Hfull Hlt) as (m' & r & E & Hr). exists m', r. split; [done|]. destruct r as [[? ?]|]; [done|]. destruct Hr. tauto.
    + exists m, None. split; [|split; [by apply same_blocks_refl|right; rewrite Hs; cbn [tables0]; lia]].
      unfold expand2, PH_HANDLE_TABLE_LEVEL_ENTRIES. rewrite level2_index. by rewrite (proj2 (Z.leb_le _ _)) by lia.
Qed.

End level2.

End expand.

(** ** The layout of a table

    [E] are the entries by handle value; [m0] is a memory the table is not part of. *)
Record layout m0 t m s (E : list PH_HANDLE_TABLE_ENTRY) : Prop := {
  layout_mem : mem_wf m;
  layout_tree : tree (TableValue t) m s;
  layout_shape : shape_ok s;
  layout_out : outside m0 m s;
  layout_view : view m (tables0 s) E;
  layout_next : NextValue t = 256 * Z.of_nat (length (tables0 s));
  layout_size : Z.of_nat (length (tables0 s)) <= 65536;
}.

Lemma tree_same tv m m' s : table1 m' = table1 m -> table2 m' = table2 m -> tree tv m s -> tree tv m' s.
Proof.
  intros E1 E2 [Hal|a bs Hal Htv Hlen Hrep|a ts bs Hal Htv Hlen Hl1 Hl2 Hl3 Ht2 Hrep].
  - by constructor.
  - apply (tree1 _ _ a); [done..|]. unfold level1_rep. by rewrite E1.
  - apply (tree2 _ _ a); [done..|by rewrite E2|]. intros i b Hb. unfold level1_rep. rewrite E1. by apply Hrep.
Qed.

Lemma layout_fields m0 t t' m s E : TableValue t' = TableValue t -> NextValue t' = NextValue t -> layout m0 t m s E -> layout m0 t' m s E.
Proof. intros Et En [Hm Ht Hsh Ho Hv Hn Hs]. split; [done|by rewrite Et|done|done|done|by rewrite En|done]. Qed.

Lemma layout_same_blocks m0 t m m' s E : same_blocks m m' -> layout m0 t m s E -> layout m0 t m' s E.
Proof.
  intros (Hm' & E0 & E1 & E2 & Est) [Hm Ht Hsh (Ho0 & Ho1 & Ho2 & Ho3) [Hl Hv] Hn Hs].
  split; [done|by apply (tree_same _ m)|done| | |done|done].
  - unfold outside. rewrite E0, E1, E2, Est. done.
  - split; [done|]. rewrite E0. done.
Qed.

Lemma layout_rewritten m0 t m m' s E E' : layout m0 t m s E -> rewritten m (tables0 s) E' m' -> layout m0 t m' s E'.
Proof.
  intros [Hm Ht Hsh (Ho0 & Ho1 & Ho2 & Ho3) Hv Hn Hs] [Hv' (T & -> & Hdom & Hfr)].
  split; [by apply (mem_wf_dom m)|by apply (tree_same _ m)|done| |done|done|done].
  split; [|done]. cbn [with_table0 table0]. destruct Ho0 as [Ho Hnone]. split; [|done]. intros b Hb. rewrite Hfr by done. by apply Ho.
Qed.

Lemma layout_length m0 t m s E : layout m0 t m s E -> Z.of_nat (length E) = NextValue t.
Proof. intros [Hm Ht Hsh Ho [Hl Hv] Hn Hs]. rewrite Hl, Hn. lia. Qed.

(** Every handle value has its entry, which a lookup finds and which is read and written alone. *)
Lemma layout_entry m0 t m s E v : layout m0 t m s E -> 0 <= v < NextValue t ->
  exists p e, PhpLookupHandleTableEntry t m v = Some (Some p) /\ place (tables0 s) v p /\ E !! Z.to_nat v = Some e /\ get_entry m p = Some e.
Proof.
  intros HL Hv. pose proof (layout_length _ _ _ _ _ HL). destruct HL as [Hm Ht Hsh Ho Hvw Hn Hs].
  destruct (place_exists (tables0 s) v) as [p Hp]; [lia|]. destruct (lookup_lt_is_Some_2 E (Z.to_nat v)) as [e He]; [lia|].
  exists p, e. split; [by apply (handle_lookup_spec t m s)|]. split; [done|]. split; [done|]. rewrite <- He. apply (get_view m (tables0 s)); [done|lia|done].
Qed.

Lemma layout_set m0 t m s E v p e : layout m0 t m s E -> 0 <= v < NextValue t -> place (tables0 s) v p ->
  exists m', set_entry m p e = Some m' /\ layout m0 t m' s (<[Z.to_nat v := e]> E) /\ get_entry m' p = Some e.
Proof.
  intros HL Hv Hp. pose proof (layout_length _ _ _ _ _ HL).
  destruct (set_view m (tables0 s) E v p e) as (m' & Es & Hr); [apply HL|apply HL|rewrite <- (layout_next _ _ _ _ _ HL); lia|done|].
  assert (HL' : layout m0 t m' s (<[Z.to_nat v := e]> E)) by (by eapply layout_rewritten).
  exists m'. split; [done|]. split; [done|]. rewrite (get_view m' (tables0 s) (<[Z.to_nat v := e]> E) v p); [apply list_lookup_insert_eq; lia|apply HL'|lia|done].
Qed.

(** The lookup of a value below [NextValue] whose place is known. *)
Lemma layout_lookup m0 t m s E v p : layout m0 t m s E -> 0 <= v < NextValue t -> place (tables0 s) v p ->
  PhpLookupHandleTableEntry t m v = Some (Some p) /\ get_entry m p = E !! Z.to_nat v.
Proof.
  intros HL Hv Hp. destruct (layout_entry m0 t m s E v HL Hv) as (p' & e & Hlk & [Hb Hi] & He & Hg). destruct Hp as [Hb' Hi'].
  assert (p' = p) as -> by (destruct p, p'; simpl in *; congruence). by rewrite He.
Qed.

(** ** The free lists *)

Definition next_of (E : list PH_HANDLE_TABLE_ENTRY) (v : Z) : option Z := if 0 <=? v then NextFreeValue <$> E !! Z.to_nat v else None.

Record free_lists t (E : list PH_HANDLE_TABLE_ENTRY) (free alt : list Z) : Prop := {
  lists_free : links PH_HANDLE_VALUE_INVALID (next_of E) (FreeValue t) free;
  lists_alt : links PH_HANDLE_VALUE_INVALID (next_of E) (FreeValueAlt t) alt;
  lists_nodup : NoDup (free ++ alt);
  lists_range : forall v, v ∈ free ++ alt -> 0 <= v < Z.of_nat (length E);
  lists_unused : forall v e, v ∈ free ++ alt -> E !! Z.to_nat v = Some e -> Value e = PH_HANDLE_TABLE_ENTRY_FREE;
  lists_used : forall v e, 0 <= v -> v ∉ free ++ alt -> E !! Z.to_nat v = Some e -> Type_of e = PH_HANDLE_TABLE_ENTRY_IN_USE;
  lists_count : Count t = Z.of_nat (length E) - Z.of_nat (length (free ++ alt));
}.

(** A table in memory, not part of [m0], with its entries and its free lists. *)
Definition table_wf m0 t m s E free alt : Prop := layout m0 t m s E /\ free_lists t E free alt.

Lemma next_of_set E v w e : 0 <= v -> v <> w -> next_of (<[Z.to_nat v := e]> E) w = next_of E w.
Proof. intros Hv Hw. unfold next_of. destruct (Z.leb_spec 0 w); [|done]. rewrite list_lookup_insert_ne; [done|lia]. Qed.

Lemma next_of_app E E' w : 0 <= w < Z.of_nat (length E) -> next_of (E ++ E') w = next_of E w.
Proof. intros Hw. unfold next_of. destruct (Z.leb_spec 0 w); [|done]. rewrite lookup_app_l by lia. done. Qed.

(** ** More entries *)

Lemma tree_size tv m s : tree tv m s -> Z.of_nat (length (tables0 s)) <= 65536.
Proof. intros [|? ? ? ? Hl|? ? ? ? ? Hl ? ? ?]; cbn [tables0]; simpl; lia. Qed.

Lemma layout_live m0 t m s E b : layout m0 t m s E -> b ∈ tables0 s -> is_Some (table0 m !! b).
Proof. intros HL [i Hi]%list_elem_of_lookup. destruct HL as [_ _ _ _ [_ Hv] _ _]. rewrite (Hv i b Hi). by eexists. Qed.

Lemma handle_expand_spec m0 t m s E : layout m0 t m s E ->
  let level := level_of (TableValue t) in let tableValue := TableValue t - level in
  exists m' r,
    (if level =? 0 then expand0 uninitialized t m tableValue true
     else if level =? 1 then expand1 uninitialized t m tableValue true
     else if level =? 2 then expand2 uninitialized t m tableValue true else None) = Some (m', r) /\
    match r with
    | None => same_blocks m m' /\ (out_of_memory \/ length (tables0 s) = Z.to_nat 65536)
    | Some (tv', b) => one_more m0 t m s m' tv' b
    end.
Proof.
  intros HL level tableValue. subst level tableValue. pose proof (fun b => layout_live m0 t m s E b HL) as Hlive.
  assert (Hweak : forall m' r, match r with None => same_blocks m m' /\ out_of_memory | Some (tv', b) => one_more m0 t m s m' tv' b end ->
    match r with None => same_blocks m m' /\ (out_of_memory \/ length (tables0 s) = Z.to_nat 65536) | Some (tv', b) => one_more m0 t m s m' tv' b end)
    by (intros m' [[? ?]|]; tauto).
  destruct HL as [Hm Htree Hsh Ho Hv Hn Hs].
  destruct Htree as [Hal|a bs Hal Htv Hlen Hrep|a ts bs Hal Htv Hlen Hl1 Hl2 Hl3 Ht2 Hrep].
  - destruct (tagged_0 _ Hal) as [-> ->]. cbn [Z.eqb].
    destruct (expand0_spec m0 t m _ Hm Hsh Ho Hlive Hn (TableValue t) eq_refl) as (m' & r & Ee & Hr). exists m', r. split; [exact Ee|by apply Hweak].
  - rewrite Htv. destruct (tagged a 1 Hal ltac:(lia)) as [-> ->]. cbn [Z.eqb Pos.eqb].
    destruct (decide (length bs = 256%nat)) as [Hfull|Hnf].
    + destruct (expand1_full m0 t m _ Hm Hsh Ho Hlive Hn Hs a bs eq_refl Hal Hfull Hrep) as (m' & r & Ee & Hr). exists m', r. split; [exact Ee|by apply Hweak].
    + destruct (expand1_spec m0 t m _ Hm Hsh Ho Hlive Hn a bs eq_refl Hal Htv ltac:(lia) Hrep) as (m' & r & Ee & Hr). exists m', r. split; [exact Ee|by apply Hweak].
  - rewrite Htv. destruct (tagged a 2 Hal ltac:(lia)) as [-> ->]. cbn [Z.eqb Pos.eqb].
    by apply (expand2_spec m0 t m _ Hm Hsh Ho Hlive Hn Hs a ts bs eq_refl Hal Htv Hlen Hl1 Hl2 Hl3 Ht2 Hrep).
Qed.

Lemma one_more_layout m0 t m s E m' tv b : layout m0 t m s E -> one_more m0 t m s m' tv b ->
  exists s' l, layout m0 (set_NextValue (set_TableValue t tv) (NextValue t +₃₂ 256)) m' s' (E ++ l) /\ fresh_table (NextValue t) l /\
    place (tables0 s') (NextValue t + 255) (b, 255).
Proof.
  intros HL (s' & l & Hs' & Hfb & Hl & E0 & Hm' & Ht' & Hsh' & Ho'). pose proof (tree_size _ _ _ Ht') as Hsz.
  destruct HL as [Hm Ht Hsh Ho [Hlen Hv] Hn Hs]. rewrite Hs', length_app in Hsz. simpl in Hsz. exists s', l.
  split; [split; try done|split; [done|]].
  - split; [rewrite Hs', !length_app, (proj1 Hl); simpl; lia|]. intros i c Hc. rewrite Hs' in Hc. rewrite E0.
    destruct (decide (i < length (tables0 s))%nat) as [Hi|Hi].
    + rewrite lookup_app_l in Hc by done. rewrite lookup_insert_ne.
      * rewrite chunk_app_old by lia. by apply Hv.
      * intros <-. rewrite (Hv i b Hc) in Hfb. done.
    + apply lookup_lt_Some in Hc as Hlt. rewrite length_app in Hlt. simpl in Hlt. assert (i = length (tables0 s)) as -> by lia.
      rewrite list_lookup_middle in Hc by done. injection Hc as <-. rewrite lookup_insert_eq. f_equal.
      rewrite chunk_app_new by (rewrite ?(proj1 Hl); lia). unfold chunk. by rewrite drop_ge by lia.
  - cbn [NextValue set_NextValue set_TableValue]. rewrite u32_id by (unfold in_width; lia). rewrite Hs', length_app. simpl. lia.
  - rewrite Hs', length_app. simpl. lia.
  - assert (Hq : (NextValue t + 255) / 256 = Z.of_nat (length (tables0 s)) /\ (NextValue t + 255) mod 256 = 255)
      by (rewrite Hn; Z.to_euclidean_division_equations; lia).
    unfold place. rewrite (proj1 Hq), (proj2 Hq), Hs', Nat2Z.id, list_lookup_middle by done. done.
Qed.

(** New entries chain to each other and then to the old list. *)
Lemma links_fresh E n f free : 0 <= n -> n + 256 < 2 ^ 32 -> f <= PH_HANDLE_VALUE_INVALID ->
  (forall j, 0 <= j < 256 -> next_of E (n + j) = Some (if j =? 255 then f else n + j + 1)) ->
  links PH_HANDLE_VALUE_INVALID (next_of E) f free -> links PH_HANDLE_VALUE_INVALID (next_of E) n (seqZ n 256 ++ free).
Proof.
  intros Hn Hn2 Hf Hnext Hfree.
  assert (Hall : forall k, (k <= 256)%nat -> links PH_HANDLE_VALUE_INVALID (next_of E) (if decide (k = 0%nat) then f else n + 256 - Z.of_nat k) (seqZ (n + 256 - Z.of_nat k) (Z.of_nat k) ++ free)).
  { induction k as [|k IH]; intros Hk; [done|]. rewrite decide_False by lia. rewrite seqZ_cons by lia. simpl app.
    split; [done|]. split; [unfold PH_HANDLE_VALUE_INVALID in *; lia|]. eexists. split.
    - replace (n + 256 - Z.of_nat (Datatypes.S k)) with (n + (255 - Z.of_nat k)) by lia. apply Hnext. lia.
    - specialize (IH ltac:(lia)). replace (Z.succ (n + 256 - Z.of_nat (Datatypes.S k))) with (n + 256 - Z.of_nat k) by lia.
      replace (Z.pred (Z.of_nat (Datatypes.S k))) with (Z.of_nat k) by lia.
      destruct (Z.eqb_spec (255 - Z.of_nat k) 255) as [Hz|Hz].
      + rewrite decide_True in IH by lia. done.
      + rewrite decide_False in IH by lia. replace (n + (255 - Z.of_nat k) + 1) with (n + 256 - Z.of_nat k) by lia. done. }
  specialize (Hall 256%nat (le_n _)). rewrite decide_False in Hall by lia.
  replace (n + 256 - Z.of_nat 256) with n in Hall by lia. done.
Qed.

(** The list part after the growth: the new values are in front. *)
Lemma grow_lists t t' E l e free alt : free_lists t E free alt -> fresh_table (Z.of_nat (length E)) l ->
  Z.of_nat (length E) + 256 < 2 ^ 32 -> l !! 255%nat = Some e ->
  FreeValue t' = Z.of_nat (length E) -> FreeValueAlt t' = FreeValueAlt t -> Count t' = Count t -> 0 <= FreeValue t <= PH_HANDLE_VALUE_INVALID ->
  free_lists t' (<[Z.to_nat (Z.of_nat (length E) + 255) := set_NextFreeValue e (FreeValue t)]> (E ++ l)) (seqZ (Z.of_nat (length E)) 256 ++ free) alt.
Proof.
  intros [Hfree Halt Hnd Hrange Hun Hus Hct] [Hll Hent] Hlt He Ef Ea Ec Hf.
  set (n := Z.of_nat (length E)) in *. set (E' := <[Z.to_nat (n + 255) := _]> (E ++ l)).
  assert (Hn0 : 0 <= n) by lia. assert (HlE' : length E' = (length E + 256)%nat) by (unfold E'; by rewrite length_insert, length_app, Hll).
  assert (Hold : forall v, 0 <= v < n -> E' !! Z.to_nat v = E !! Z.to_nat v).
  { intros v Hv. unfold E'. rewrite list_lookup_insert_ne by lia. apply lookup_app_l. lia. }
  assert (Hnext_old : forall v, v ∈ free ++ alt -> next_of E' v = next_of E v).
  { intros v Hv%Hrange. unfold next_of. destruct (0 <=? v); [|done]. by rewrite Hold. }
  assert (Hnew : forall j, 0 <= j < 256 -> exists f, E' !! Z.to_nat (n + j) = Some f /\ Value f = PH_HANDLE_TABLE_ENTRY_FREE /\
    NextFreeValue f = if j =? 255 then FreeValue t else n + j + 1).
  { intros j Hj. unfold E'. destruct (Z.eqb_spec j 255) as [->|Hne].
    - rewrite list_lookup_insert_eq by (rewrite length_app; lia). eexists. split; [done|]. split; [apply (Hent 255%nat e He)|].
      apply next_set. unfold PH_HANDLE_VALUE_INVALID in Hf. lia.
    - rewrite list_lookup_insert_ne by lia. rewrite lookup_app_r by lia. replace (Z.to_nat (n + j) - length E)%nat with (Z.to_nat j) by lia.
      destruct (lookup_lt_is_Some_2 l (Z.to_nat j)) as [f Hfj]; [lia|]. destruct (Hent _ _ Hfj) as [Hv Hnx]. rewrite decide_False in Hnx by lia.
      exists f. split; [done|]. split; [done|]. rewrite Hnx. lia. }
  assert (Hin : forall v, v ∈ seqZ n 256 ++ free ++ alt <-> n <= v < n + 256 \/ v ∈ free ++ alt) by (intros v; rewrite elem_of_app, elem_of_seqZ; done).
  split; rewrite <- ?app_assoc.
  - rewrite Ef. apply (links_fresh E' n (FreeValue t)); [done|done|lia| |].
    + intros j Hj. destruct (Hnew j Hj) as (f & Hf1 & _ & Hf2). unfold next_of. rewrite (proj2 (Z.leb_le 0 (n + j))) by lia. rewrite Hf1. simpl. by rewrite Hf2.
    + eapply links_frame; [|exact Hfree]. intros v Hv. apply Hnext_old. apply elem_of_app. by left.
  - rewrite Ea. eapply links_frame; [|exact Halt]. intros v Hv. apply Hnext_old. apply elem_of_app. by right.
  - apply NoDup_app. split; [apply NoDup_seqZ|]. split; [|done]. intros v Hv%elem_of_seqZ Hv2%Hrange. lia.
  - intros v [Hv|Hv%Hrange]%Hin; lia.
  - intros v f [Hv|Hv]%Hin Hf1.
    + destruct (Hnew (v - n) ltac:(lia)) as (f' & Hf2 & Hval & _). replace (n + (v - n)) with v in Hf2 by lia. congruence.
    + pose proof (Hrange v Hv). rewrite Hold in Hf1 by lia. by apply (Hun v).
  - intros v f Hv Hni Hf1. assert (~ (n <= v < n + 256) /\ v ∉ free ++ alt) as [Hnn Hno] by (split; intros Hx; apply Hni, Hin; [by left|by right]).
    apply lookup_lt_Some in Hf1 as Hlen. rewrite HlE' in Hlen. rewrite Hold in Hf1 by lia. by apply (Hus v).
  - rewrite Ec, Hct, HlE', !length_app, length_seqZ. lia.
Qed.

Lemma layout_bound m0 t m s E : layout m0 t m s E -> 0 <= NextValue t <= 2 ^ 24 /\ Z.of_nat (length E) = NextValue t.
Proof. intros HL. split; [destruct HL; lia|by eapply layout_length]. Qed.

Lemma list_word nxt (E : list PH_HANDLE_TABLE_ENTRY) i l : links PH_HANDLE_VALUE_INVALID nxt i l -> (forall v, v ∈ l -> 0 <= v < Z.of_nat (length E)) ->
  Z.of_nat (length E) <= 2 ^ 24 -> 0 <= i <= PH_HANDLE_VALUE_INVALID.
Proof.
  unfold PH_HANDLE_VALUE_INVALID. destruct l as [|v l]; intros Hl Hr Hb; [simpl in Hl; lia|]. destruct Hl as (-> & _). specialize (Hr v ltac:(by left)). lia.
Qed.

Lemma free_value_word t E free alt : free_lists t E free alt -> Z.of_nat (length E) <= 2 ^ 24 ->
  0 <= FreeValue t <= PH_HANDLE_VALUE_INVALID /\ 0 <= FreeValueAlt t <= PH_HANDLE_VALUE_INVALID.
Proof.
  intros HF Hb. split; eapply (list_word _ E); try apply HF; try done; intros v Hv; apply (lists_range _ _ _ _ HF), elem_of_app; auto.
Qed.

(** 256 more handle values, in front of the free list; or nothing changes. *)
Lemma more_spec m0 t m s E free alt : table_wf m0 t m s E free alt ->
  exists t' m' r, PhpAllocateMoreHandleTableEntries uninitialized t m true = Some (t', m', r) /\ Flags t' = Flags t /\
  if (r : bool) then exists s' E', table_wf m0 t' m' s' E' (seqZ (NextValue t) 256 ++ free) alt /\ length E' = (length E + 256)%nat /\
    (forall v, (v < length E)%nat -> E' !! v = E !! v) /\ NextValue t' = NextValue t + 256
  else t' = t /\ same_blocks m m' /\ (out_of_memory \/ NextValue t = 2 ^ 24).
Proof.
  intros [HL HF]. unfold PhpAllocateMoreHandleTableEntries.
  destruct (handle_expand_spec m0 t m s E HL) as (m' & r & -> & Hr). cbn [mbind option_bind].
  destruct (layout_bound _ _ _ _ _ HL) as [Hb HlE]. destruct r as [[tv b]|].
  - destruct (one_more_layout m0 t m s E m' tv b HL Hr) as (s' & l & HL' & Hfresh & Hplace). cbv zeta.
    set (t1 := set_NextValue (set_TableValue t tv) (NextValue t +₃₂ 256)) in *.
    change (set_NextValue (set_TableValue t tv) (NextValue t +₃₂ PH_HANDLE_TABLE_LEVEL_ENTRIES)) with t1. change (PH_HANDLE_TABLE_LEVEL_ENTRIES - 1) with 255.
    destruct (layout_bound _ _ _ _ _ HL') as [Hb' HlE']. rewrite length_app, (proj1 Hfresh) in HlE'.
    assert (Hv : 0 <= NextValue t + 255 < NextValue t1) by lia.
    destruct (layout_lookup _ _ _ _ _ _ _ HL' Hv Hplace) as [_ ->].
    destruct (lookup_lt_is_Some_2 l 255%nat) as [e He]; [rewrite (proj1 Hfresh); lia|].
    rewrite lookup_app_r by lia. replace (Z.to_nat (NextValue t + 255) - length E)%nat with 255%nat by lia. rewrite He. cbn [mbind option_bind].
    destruct (layout_set _ _ _ _ _ _ _ (set_NextFreeValue e (FreeValue t1)) HL' Hv Hplace) as (m2 & -> & HL2 & _). cbn [mbind option_bind].
    eexists _, m2, true. split; [done|]. split; [done|]. exists s'. eexists. split; [split|split; [|split]].
    + eapply layout_fields; [| |exact HL2]; done.
    + rewrite <- HlE. apply (grow_lists t); try done; [by rewrite HlE|lia|]. apply (free_value_word t E free alt HF). lia.
    + by rewrite length_insert, length_app, (proj1 Hfresh).
    + intros v Hlt. rewrite list_lookup_insert_ne by lia. by apply lookup_app_l.
    + cbn [NextValue set_FreeValue]. lia.
  - destruct Hr as [Hsame Hwhy]. exists t, m', false. split; [done|]. split; [done|]. split; [done|]. split; [done|].
    destruct Hwhy as [|Hfull]; [by left|right]. destruct HL. lia.
Qed.

(** ** Moving the second list to the first *)

(** The links of [E'] may differ from those of [E], the first words do not. *)
Definition same_values (E E' : list PH_HANDLE_TABLE_ENTRY) : Prop := length E' = length E /\ forall v, Value <$> E' !! v = Value <$> E !! v.

Lemma same_values_refl E : same_values E E.
Proof. done. Qed.
Lemma same_values_trans E1 E2 E3 : same_values E1 E2 -> same_values E2 E3 -> same_values E1 E3.
Proof. intros [L1 V1] [L2 V2]. split; [congruence|]. intros v. by rewrite V2. Qed.
Lemma same_values_set E v e f : E !! v = Some e -> Value f = Value e -> same_values E (<[v := f]> E).
Proof.
  intros He Hf. split; [apply length_insert|]. intros w. destruct (decide (w = v)) as [->|Hw].
  - rewrite list_lookup_insert_eq by (by eapply lookup_lt_Some). rewrite He. simpl. by rewrite Hf.
  - by rewrite list_lookup_insert_ne.
Qed.

(** Free lists with the same members. *)
Lemma free_lists_again t t' E E' free alt free' alt' : free_lists t E free alt ->
  links PH_HANDLE_VALUE_INVALID (next_of E') (FreeValue t') free' -> links PH_HANDLE_VALUE_INVALID (next_of E') (FreeValueAlt t') alt' ->
  free' ++ alt' ≡ₚ free ++ alt -> same_values E E' -> Count t' = Count t -> free_lists t' E' free' alt'.
Proof.
  intros [Hfree Halt Hnd Hrange Hun Hus Hct] Hf' Ha' Hp [Hlen Hval] Hc. split; [done|done| | | | |].
  - by rewrite Hp.
  - intros v. rewrite Hp, Hlen. apply Hrange.
  - intros v e. rewrite Hp. intros Hv He. pose proof (Hval (Z.to_nat v)) as Hw. rewrite He in Hw. destruct (E !! Z.to_nat v) as [e0|] eqn:E0; [|done].
    injection Hw as ->. by apply (Hun v).
  - intros v e Hv. rewrite Hp. intros Hni He. pose proof (Hval (Z.to_nat v)) as Hw. rewrite He in Hw. destruct (E !! Z.to_nat v) as [e0|] eqn:E0; [|done].
    injection Hw as Hw. unfold Type_of. rewrite Hw. by apply (Hus v).
  - by rewrite Hc, Hlen, Hp.
Qed.

(** The loop: [rest] is to be reversed in front of [acc], whose last entry is [first]. *)
Lemma reverse_spec m0 t s rest : forall fuel m E index last acc count first,
  layout m0 t m s E -> links PH_HANDLE_VALUE_INVALID (next_of E) index rest -> links PH_HANDLE_VALUE_INVALID (next_of E) last acc ->
  NoDup (rest ++ acc) -> (forall v, v ∈ rest ++ acc -> 0 <= v < NextValue t) -> rest <> [] -> (length rest <= fuel)%nat ->
  count = Z.of_nat (length acc) ->
  (acc = [] \/ exists ys x p, acc = ys ++ [x] /\ first = Some p /\ place (tables0 s) x p) ->
  exists m' E' index' first' ys x p, reverse_chain fuel t m index last count first = Some (m', index', Z.of_nat (length (rest ++ acc)), first') /\
    layout m0 t m' s E' /\ links PH_HANDLE_VALUE_INVALID (next_of E') index' (rev rest ++ acc) /\
    rev rest ++ acc = ys ++ [x] /\ first' = Some p /\ place (tables0 s) x p /\
    same_values E E' /\ (forall v, v ∉ rest -> 0 <= v -> E' !! Z.to_nat v = E !! Z.to_nat v).
Proof.
  induction rest as [|i rest IH]; intros fuel m E index last acc count first HL Hrest Hacc Hnd Hrange Hne Hfuel Hcount Hfirst; [done|].
  destruct fuel as [|fuel]; [simpl in Hfuel; lia|]. cbn [reverse_chain]. destruct Hrest as (-> & Hi & nx & Hnx & Hrest).
  destruct (layout_bound _ _ _ _ _ HL) as [Hb HlE].
  assert (Hir : 0 <= i < NextValue t) by (apply Hrange; by left).
  destruct (layout_entry m0 t m s E i HL Hir) as (p & e & -> & Hp & He & Hg). cbn [mbind option_bind]. rewrite Hg. cbn [mbind option_bind].
  assert (Hnxe : NextFreeValue e = nx) by (unfold next_of in Hnx; rewrite (proj2 (Z.leb_le 0 i)), He in Hnx by lia; by injection Hnx). rewrite Hnxe.
  destruct (layout_set m0 t m s E i p (set_NextFreeValue e last) HL Hir Hp) as (m1 & -> & HL1 & _). cbn [mbind option_bind].
  set (E1 := <[Z.to_nat i := set_NextFreeValue e last]> E) in *.
  simpl app in Hnd. apply NoDup_cons in Hnd as [Hini Hnd].
  assert (Hsame1 : same_values E E1) by (by eapply same_values_set).
  assert (Hlast : 0 <= last <= PH_HANDLE_VALUE_INVALID).
  { eapply (list_word _ E); [exact Hacc| |lia]. intros v Hv. rewrite HlE. apply Hrange. right. apply elem_of_app. by right. }
  assert (Hframe : forall v, v ∈ rest ++ acc -> next_of E1 v = next_of E v).
  { intros v Hv. apply next_of_set; [lia|]. by intros ->. }
  assert (Hnexti : next_of E1 i = Some last).
  { unfold next_of, E1. rewrite (proj2 (Z.leb_le 0 i)), list_lookup_insert_eq by lia. simpl. by rewrite next_set by (unfold PH_HANDLE_VALUE_INVALID in Hlast; lia). }
  assert (Hacc1 : links PH_HANDLE_VALUE_INVALID (next_of E1) i (i :: acc)).
  { split; [done|]. split; [done|]. exists last. split; [done|]. eapply links_frame; [|exact Hacc]. intros v Hv. apply Hframe, elem_of_app. by right. }
  assert (Hrest1 : links PH_HANDLE_VALUE_INVALID (next_of E1) nx rest).
  { eapply links_frame; [|exact Hrest]. intros v Hv. apply Hframe, elem_of_app. by left. }
  assert (Hcount1 : count +₃₂ 1 = Z.of_nat (length (i :: acc))).
  { assert (Hsz : (length (i :: rest ++ acc) <= Z.to_nat (NextValue t))%nat).
    { rewrite <- (length_seqZ 0 (NextValue t)). apply submseteq_length, NoDup_submseteq; [by constructor|]. intros v Hv. apply elem_of_seqZ. pose proof (Hrange v Hv). lia. }
    simpl in Hsz |- *. rewrite length_app in Hsz. rewrite u32_id by (unfold in_width; lia). lia. }
  rewrite Hcount1.
  assert (Hfirst1 : exists ys x p', i :: acc = ys ++ [x] /\ (if last =? PH_HANDLE_VALUE_INVALID then Some p else first) = Some p' /\ place (tables0 s) x p').
  { destruct (Z.eqb_spec last PH_HANDLE_VALUE_INVALID) as [El|El].
    - apply (links_head _ _ _ _ Hacc) in El as ->. by exists [], i, p.
    - destruct Hfirst as [->|(ys & x & p' & -> & -> & Hp')]; [by simpl in Hacc|]. by exists (i :: ys), x, p'. }
  destruct (Z.eqb_spec nx PH_HANDLE_VALUE_INVALID) as [En|En].
  - apply (links_head _ _ _ _ Hrest) in En as ->. destruct Hfirst1 as (ys & x & p' & Ey & -> & Hp').
    exists m1, E1, i, (Some p'), ys, x, p'. cbn [rev app]. split; [done|]. split; [done|]. split; [done|]. split; [done|]. split; [done|]. split; [done|]. split; [done|].
    intros v Hv Hv0. unfold E1. apply list_lookup_insert_ne. intros Ev. apply Hv. apply elem_of_cons. left. lia.
  - assert (Hrne : rest <> []) by (intros ->; by apply En).
    destruct (IH fuel m1 E1 nx i (i :: acc) (Z.of_nat (length (i :: acc))) (if last =? PH_HANDLE_VALUE_INVALID then Some p else first) HL1 Hrest1 Hacc1)
      as (m' & E' & index' & first' & ys & x & p' & Er & HL' & Hl' & Ey & Ef & Hp' & Hsame & Hfr).
    + rewrite Permutation_app_comm. simpl. constructor; [rewrite elem_of_app in *; tauto|]. by rewrite Permutation_app_comm.
    + intros v Hv. apply Hrange. rewrite elem_of_app, elem_of_cons in Hv. simpl app. rewrite elem_of_cons, elem_of_app. tauto.
    + done.
    + simpl in Hfuel. lia.
    + done.
    + by right.
    + replace (length (rest ++ i :: acc)) with (length ((i :: rest) ++ acc)) in Er by (rewrite !length_app; simpl; lia).
      exists m', E', index', first', ys, x, p'. split; [exact Er|]. split; [done|].
      simpl rev. rewrite <- app_assoc. split; [done|]. split; [done|]. split; [done|]. split; [done|]. split; [by eapply same_values_trans|].
      intros v Hv Hv0. rewrite Hfr; [|by intros ?; apply Hv; right|done]. unfold E1. apply list_lookup_insert_ne. intros Ev. apply Hv. apply elem_of_cons. left. lia.
Qed.

(** The list that the second one is added to: reversed, so that the first freed comes first, unless the
    shortcut takes it as it is. *)
Definition moved (fifo : bool) (free alt : list Z) : list Z :=
  if decide (alt = []) then free else if negb fifo && bool_decide (free = []) then alt else rev alt ++ free.

(** The index returned asks for more entries when few were moved and the order is strict. *)
Definition moved_answer (fifo : bool) (alt : list Z) (FreeValue : Z) : Z :=
  if bool_decide (alt = []) || fifo && (Z.of_nat (length alt) <? PH_HANDLE_TABLE_FREE_COUNT) then PH_HANDLE_VALUE_INVALID else FreeValue.

Definition moves_to m0 t s (E : list PH_HANDLE_TABLE_ENTRY) (alt free' : list Z) t' m' (E' : list PH_HANDLE_TABLE_ENTRY) : Prop :=
  table_wf m0 t' m' s E' free' [] /\ Flags t' = Flags t /\ NextValue t' = NextValue t /\ length E' = length E /\
  (forall w, w ∉ alt -> 0 <= w -> E' !! Z.to_nat w = E !! Z.to_nat w).

Lemma push_reversed_spec m0 t m s E free alt : table_wf m0 t m s E free alt -> alt <> [] ->
  exists t' m' E', push_reversed (set_FreeValueAlt t PH_HANDLE_VALUE_INVALID) m (FreeValueAlt t) =
      Some (t', m', if strict_fifo t && (Z.of_nat (length alt) <? PH_HANDLE_TABLE_FREE_COUNT) then PH_HANDLE_VALUE_INVALID else FreeValue t') /\
    moves_to m0 t s E alt (rev alt ++ free) t' m' E'.
Proof.
  intros [HL HF] Hane. destruct (layout_bound _ _ _ _ _ HL) as [Hb HlE]. pose proof HF as [Hfree Halt Hnd Hrange Hun Hus Hct].
  set (t1 := set_FreeValueAlt t PH_HANDLE_VALUE_INVALID). assert (HL1 : layout m0 t1 m s E) by (by eapply layout_fields; [..|exact HL]).
  assert (Hlen : (length alt <= Z.to_nat (NextValue t1))%nat).
  { change (NextValue t1) with (NextValue t). rewrite <- (length_seqZ 0 (NextValue t)). apply submseteq_length, NoDup_submseteq; [by apply NoDup_app in Hnd as (_ & _ & ?)|].
    intros v Hv. apply elem_of_seqZ. pose proof (Hrange v ltac:(apply elem_of_app; by right)). lia. }
  unfold push_reversed.
  destruct (reverse_spec m0 t1 s alt (Z.to_nat (NextValue t1)) m E (FreeValueAlt t) PH_HANDLE_VALUE_INVALID [] 0 None HL1 Halt eq_refl)
    as (m1 & E1 & index & first & ys & x & p & -> & HL2 & Hl1 & Ey & -> & Hp & Hsame & Hfr); rewrite ?app_nil_r in *.
  { by apply NoDup_app in Hnd as (_ & _ & ?). }
  { intros v Hv. change (NextValue t1) with (NextValue t). rewrite <- HlE. apply Hrange, elem_of_app. by right. }
  { done. } { done. } { done. } { by left. }
  cbn [mbind option_bind]. assert (Hxa : x ∈ alt) by (rewrite <- (rev_involutive alt), Ey, rev_app_distr; by left).
  assert (Hx : 0 <= x < NextValue t1) by (change (NextValue t1) with (NextValue t); rewrite <- HlE; apply Hrange, elem_of_app; by right).
  destruct (layout_lookup _ _ _ _ _ _ _ HL2 Hx Hp) as [_ ->]. destruct (lookup_lt_is_Some_2 E1 (Z.to_nat x)) as [e He].
  { rewrite (proj1 Hsame). change (NextValue t1) with (NextValue t) in Hx. lia. }
  rewrite He. cbn [mbind option_bind].
  destruct (layout_set _ _ _ _ _ _ _ (set_NextFreeValue e (FreeValue t1)) HL2 Hx Hp) as (m2 & -> & HL3 & _). cbn [mbind option_bind].
  set (E2 := <[Z.to_nat x := _]> E1) in *. exists (set_FreeValue t1 index), m2, E2. split; [by rewrite ?app_nil_r|].
  assert (Hsame2 : same_values E E2) by (eapply same_values_trans; [exact Hsame|]; by eapply same_values_set).
  assert (Hperm : rev alt ++ free ≡ₚ free ++ alt) by (rewrite <- (Permutation_rev alt); apply Permutation_app_comm).
  split; [split|split; [done|split; [done|split; [by destruct Hsame2|]]]].
  - by eapply layout_fields; [..|exact HL3].
  - eapply (free_lists_again t _ E E2 free alt); [exact HF| |done|by rewrite app_nil_r|done|done].
    cbn [FreeValue set_FreeValue]. rewrite Ey, <- app_assoc. eapply (links_join _ _ _ _ _ _ (FreeValue t)); [by rewrite <- Ey| | |].
    + intros v Hv. apply next_of_set; [lia|]. intros <-.
      assert (Hnda : NoDup (rev alt)) by (rewrite <- (Permutation_rev alt); by apply NoDup_app in Hnd as (_ & _ & ?)). rewrite Ey in Hnda.
      apply NoDup_app in Hnda as (_ & Hd & _). apply (Hd x Hv). by left.
    + unfold next_of, E2. rewrite (proj2 (Z.leb_le 0 x)), list_lookup_insert_eq by (lia || (rewrite (proj1 Hsame); change (NextValue t1) with (NextValue t) in Hx; lia)).
      simpl. f_equal. apply next_set. change (FreeValue t1) with (FreeValue t). destruct (free_value_word _ _ _ _ HF) as [Hw _]; [lia|]. unfold PH_HANDLE_VALUE_INVALID in Hw. lia.
    + change (FreeValue t1) with (FreeValue t). eapply links_frame; [|exact Hfree]. intros v Hv. apply NoDup_app in Hnd as (_ & Hd & _).
      assert (Hva : v ∉ alt) by (by apply Hd). pose proof (Hrange v ltac:(apply elem_of_app; by left)). unfold E2.
      rewrite next_of_set; [|lia|by intros ->]. unfold next_of. destruct (0 <=? v); [|done]. by rewrite Hfr by (done || lia).
  - intros w Hw Hw0. unfold E2. rewrite list_lookup_insert_ne; [by apply Hfr|]. intros Ew. apply Hw. replace w with x by lia. done.
Qed.

Lemma move_spec m0 t m s E free alt : table_wf m0 t m s E free alt ->
  exists t' m' E', PhpMoveFreeHandleTableEntries t m = Some (t', m', moved_answer (strict_fifo t) alt (FreeValue t')) /\
    moves_to m0 t s E alt (moved (strict_fifo t) free alt) t' m' E'.
Proof.
  intros Hwf. pose proof Hwf as [HL HF]. pose proof HF as [Hfree Halt _ _ _ _ _].
  unfold PhpMoveFreeHandleTableEntries, moved, moved_answer. cbv zeta. change (strict_fifo (set_FreeValueAlt t PH_HANDLE_VALUE_INVALID)) with (strict_fifo t).
  change (FreeValue (set_FreeValueAlt t PH_HANDLE_VALUE_INVALID)) with (FreeValue t).
  destruct (Z.eqb_spec (FreeValueAlt t) PH_HANDLE_VALUE_INVALID) as [Ea|Ea].
  { apply (links_head _ _ _ _ Halt) in Ea as ->. exists (set_FreeValueAlt t PH_HANDLE_VALUE_INVALID), m, E. split; [done|].
    split; [|done]. split; [by eapply layout_fields; [..|exact HL]|]. eapply (free_lists_again _ _ _ _ _ _ _ _ HF); done || apply same_values_refl. }
  assert (Hane : alt <> []) by (intros ->; by apply Ea, (links_head _ _ _ _ Halt)).
  rewrite (decide_False (P := alt = [])) by done. rewrite (bool_decide_eq_false_2 (alt = [])) by done. cbn [orb].
  destruct (bool_decide_reflect (free = [])) as [->|Hfne].
  - rewrite (proj2 (Z.eqb_eq _ _)) by (by apply (links_head _ _ _ _ Hfree)). destruct (strict_fifo t) eqn:Efifo; cbn [negb andb].
    + pose proof (push_reversed_spec m0 t m s E [] alt Hwf Hane) as Hpush. by rewrite Efifo in Hpush.
    + exists (set_FreeValue (set_FreeValueAlt t PH_HANDLE_VALUE_INVALID) (FreeValueAlt t)), m, E. split; [done|].
      split; [|done]. split; [by eapply layout_fields; [..|exact HL]|].
      eapply (free_lists_again _ _ _ _ _ _ _ _ HF); done || (by rewrite app_nil_r) || apply same_values_refl.
  - rewrite (proj2 (Z.eqb_neq _ _)) by (by rewrite (links_head _ _ _ _ Hfree)). rewrite !andb_false_r. by apply push_reversed_spec.
Qed.

(** ** Allocating an entry *)

(** Entries outside the new free lists are as before, and entries do not leave the free lists. *)
Record kept (E : list PH_HANDLE_TABLE_ENTRY) (F : list Z) (E' : list PH_HANDLE_TABLE_ENTRY) (F' : list Z) : Prop := {
  kept_free : forall v, v ∈ F -> v ∈ F';
  kept_same : forall v, v ∉ F' -> 0 <= v -> E' !! Z.to_nat v = E !! Z.to_nat v;
  kept_new : forall v, v ∈ F' -> 0 <= v -> v ∈ F \/ E !! Z.to_nat v = None;
}.

Lemma kept_refl E F : kept E F E F.
Proof. split; auto. Qed.
Lemma kept_trans E1 F1 E2 F2 E3 F3 : kept E1 F1 E2 F2 -> kept E2 F2 E3 F3 -> kept E1 F1 E3 F3.
Proof.
  intros [A1 B1 C1] [A2 B2 C2]. split; [auto| |].
  - intros v Hv Hv0. rewrite B2 by done. apply B1; [|done]. intros Hin. by apply Hv, A2.
  - intros v Hv Hv0. destruct (decide (v ∈ F2)) as [H2|H2]; [by apply C1|]. destruct (C2 v Hv Hv0) as [?|Hn]; [done|right]. by rewrite <- B1.
Qed.

Lemma elem_of_moved fifo free alt v : v ∈ moved fifo free alt <-> v ∈ free ++ alt.
Proof.
  unfold moved. case_decide as Ha; [subst; by rewrite app_nil_r|].
  destruct fifo; cbn [negb andb]; [|destruct (bool_decide_reflect (free = [])) as [->|]; [done|]];
    rewrite !elem_of_app, <- (Permutation_rev alt); tauto.
Qed.

Lemma moves_kept m0 t s E free alt t' m' E' : moves_to m0 t s E alt (moved (strict_fifo t) free alt) t' m' E' ->
  kept E (free ++ alt) E' (moved (strict_fifo t) free alt ++ []).
Proof.
  intros (_ & _ & _ & _ & Hfr). rewrite app_nil_r. split.
  - intros v Hv. by apply elem_of_moved.
  - intros v Hv Hv0. rewrite elem_of_moved in Hv. apply Hfr; [|done]. intros Ha. apply Hv, elem_of_app. by right.
  - intros v Hv%elem_of_moved _. by left.
Qed.

(** The lists after the inner loop found the first one empty; [more] tells whether the table grew. *)
Definition refilled (fifo : bool) (alt : list Z) (n : Z) (more : bool) : list Z :=
  let free := moved fifo [] alt in
  if (bool_decide (alt = []) || fifo && (Z.of_nat (length alt) <? PH_HANDLE_TABLE_FREE_COUNT)) && more then seqZ n 256 ++ free else free.

Lemma layout_free_lists_same_blocks m0 t m m' s E free alt : same_blocks m m' -> table_wf m0 t m s E free alt -> table_wf m0 t m' s E free alt.
Proof. intros Hs [HL HF]. split; [|done]. by eapply layout_same_blocks. Qed.

Lemma find_free_some fuel t m v : v <> PH_HANDLE_VALUE_INVALID -> find_free uninitialized (Datatypes.S fuel) t m v = Some (t, m, Some v).
Proof. intros Hv. cbn [find_free]. by rewrite (proj2 (Z.eqb_neq _ _) Hv). Qed.

Lemma find_free_spec m0 t m s E free alt : table_wf m0 t m s E free alt ->
  exists t' m' r s' E' free' alt', find_free uninitialized 2 t m (FreeValue t) = Some (t', m', r) /\
    table_wf m0 t' m' s' E' free' alt' /\ Flags t' = Flags t /\ kept E (free ++ alt) E' (free' ++ alt') /\
    match r with
    | Some v => FreeValue t' = v /\ v <> PH_HANDLE_VALUE_INVALID /\
        (free <> [] /\ free' = free /\ alt' = alt \/ free = [] /\ alt' = [] /\ exists more, free' = refilled (strict_fifo t) alt (NextValue t) more)
    | None => free = [] /\ alt = [] /\ free' = [] /\ alt' = [] /\ (out_of_memory \/ NextValue t = 2 ^ 24) /\ NextValue t' = NextValue t
    end.
Proof.
  intros Hwf. pose proof Hwf as [HL HF]. pose proof (lists_free _ _ _ _ HF) as Hfree.
  destruct (Z.eqb_spec (FreeValue t) PH_HANDLE_VALUE_INVALID) as [Ef|Ef].
  2: { rewrite find_free_some by done. exists t, m, (Some (FreeValue t)), s, E, free, alt. split; [done|]. split; [done|]. split; [done|].
       split; [apply kept_refl|]. split; [done|]. split; [done|]. left. split; [|done]. intros ->. by apply Ef, (links_head _ _ _ _ Hfree). }
  apply (links_head _ _ _ _ Hfree) in Ef as Enil. subst free.
  change (find_free uninitialized 2 t m (FreeValue t)) with
    (if negb (FreeValue t =? PH_HANDLE_VALUE_INVALID) then Some (t, m, Some (FreeValue t))
     else if negb (FreeValue t =? PH_HANDLE_VALUE_INVALID) then Some (t, m, Some (FreeValue t))
     else '(t, m, freeValue) ← PhpMoveFreeHandleTableEntries t m;
          if negb (freeValue =? PH_HANDLE_VALUE_INVALID) then Some (t, m, Some freeValue)
          else '(t, m, result) ← PhpAllocateMoreHandleTableEntries uninitialized t m true;
               if negb result && (FreeValue t =? PH_HANDLE_VALUE_INVALID) then Some (t, m, None) else find_free uninitialized 1 t m (FreeValue t)).
  rewrite (proj2 (Z.eqb_eq _ _) Ef). cbn [negb].
  destruct (move_spec m0 t m s E [] alt Hwf) as (t1 & m1 & E1 & -> & Hmove). cbn [mbind option_bind].
  pose proof (moves_kept _ _ _ _ _ _ _ _ _ Hmove) as Hkept. destruct Hmove as (Hwf1 & Hfl1 & Hn1 & Hl1 & Hfr1).
  pose proof Hwf1 as [HL1 HF1]. pose proof (lists_free _ _ _ _ HF1) as Hfree1.
  unfold moved_answer. unfold refilled. set (ask := bool_decide (alt = []) || _) in *.
  set (f1 := moved (strict_fifo t) [] alt) in *.
  destruct (Z.eqb_spec (if ask then PH_HANDLE_VALUE_INVALID else FreeValue t1) PH_HANDLE_VALUE_INVALID) as [Ea|Ea]; cbn [negb].
  - assert (Hask : ask = true).
    { destruct ask eqn:Eask; [done|]. apply (links_head _ _ _ _ Hfree1) in Ea. unfold ask in Eask. destruct (bool_decide_reflect (alt = [])) as [|Hane]; [done|].
      exfalso. unfold f1, moved in Ea. rewrite decide_False in Ea by done. rewrite bool_decide_eq_true_2, andb_true_r in Ea by done.
      destruct (strict_fifo t); cbn [negb] in Ea; [|done]. apply app_nil in Ea as [Ea _]. apply Hane. rewrite <- (rev_involutive alt), Ea. done. }
    rewrite Hask. destruct (more_spec m0 t1 m1 s E1 f1 [] Hwf1) as (t2 & m2 & r & -> & Hfl2 & Hr). cbn [mbind option_bind]. destruct r; cbn [negb andb].
    + destruct Hr as (s2 & E2 & Hwf2 & Hl2 & Hold & Hn2). rewrite Hn1 in *. pose proof (lists_free _ _ _ _ (proj2 Hwf2)) as Hfree2.
      destruct (layout_bound _ _ _ _ _ HL1) as [Hb1 HlE1]. rewrite Hn1 in *.
      assert (Hv2 : FreeValue t2 <> PH_HANDLE_VALUE_INVALID).
      { intros Ei%(links_head _ _ _ _ Hfree2). rewrite seqZ_cons in Ei by lia. done. }
      rewrite find_free_some by done. exists t2, m2, (Some (FreeValue t2)), s2, E2, (seqZ (NextValue t) 256 ++ f1), []. split; [done|]. split; [done|].
      split; [by rewrite Hfl2|]. split; [|split; [done|split; [done|right; split; [done|split; [done|by exists true]]]]].
      eapply kept_trans; [exact Hkept|]. rewrite !app_nil_r. split; [intros v Hv; apply elem_of_app; by right| |].
      2: { intros v [Hv%elem_of_seqZ|Hv]%elem_of_app Hv0; [|by left]. right. apply lookup_ge_None_2. lia. }
      intros v [Hv1 Hv2']%not_elem_of_app Hv0. rewrite elem_of_seqZ in Hv1. destruct (decide (Z.to_nat v < length E1)%nat) as [Hlt|Hge]; [by apply Hold|].
      rewrite !lookup_ge_None_2 by lia. done.
    + destruct Hr as (-> & Hsame & Hwhy). apply (layout_free_lists_same_blocks _ _ _ _ _ _ _ _ Hsame) in Hwf1 as Hwf2. rewrite Hn1 in Hwhy.
      destruct (Z.eqb_spec (FreeValue t1) PH_HANDLE_VALUE_INVALID) as [E1i|E1i].
      * apply (links_head _ _ _ _ Hfree1) in E1i as Ef1. rewrite Ef1 in *. exists t1, m2, None, s, E1, [], []. split; [done|]. split; [done|]. split; [done|].
        split; [done|]. split; [done|]. split; [|done]. destruct alt as [|v alt]; [done|]. exfalso.
        assert (Hin : v ∈ f1) by (apply elem_of_moved; by left). rewrite Ef1 in Hin. by apply elem_of_nil in Hin.
      * rewrite find_free_some by done. exists t1, m2, (Some (FreeValue t1)), s, E1, f1, []. split; [done|]. split; [done|]. split; [done|]. split; [done|].
        split; [done|]. split; [done|]. right. split; [done|]. split; [done|]. by exists false.
  - destruct ask eqn:Eask; [done|]. exists t1, m1, (Some (FreeValue t1)), s, E1, f1, []. split; [done|]. split; [done|]. split; [done|]. split; [done|].
    split; [done|]. split; [done|]. right. split; [done|]. split; [done|]. by exists false.
Qed.

(** ** What an entry shows *)

(** The object, the second word, and whether the entry is locked; nothing for a free one. *)
Definition shown (e : PH_HANDLE_TABLE_ENTRY) : option (Z * Z * bool) :=
  if Type_of e =? PH_HANDLE_TABLE_ENTRY_IN_USE then Some (Object_of e, Value2 e, Z.land (Value e) PH_HANDLE_TABLE_ENTRY_LOCKED =? 0) else None.

Lemma land_2 v : (Z.land v 2 =? 0) = ((v / 2) mod 2 =? 0).
Proof.
  assert (Hb : Z.land v 2 = if Z.testbit v 1 then 2 else 0).
  { apply Z.bits_inj'. intros n Hn. rewrite Z.land_spec. change 2 with (2 ^ 1). rewrite Z.pow2_bits_eqb by lia.
    destruct (Z.eqb_spec 1 n) as [<-|Hne]; [by destruct (Z.testbit v 1)|]. rewrite andb_false_r. destruct (Z.testbit v 1); [|by rewrite Z.bits_0].
    by rewrite Z.pow2_bits_false by lia. }
  rewrite Hb, Z.testbit_odd, Z.shiftr_div_pow2 by lia. change (2 ^ 1) with 2. rewrite Zmod_odd. by destruct (Z.odd (v / 2)).
Qed.

Lemma shown_eq v v2 : shown {| Value := v; Value2 := v2 |} = if v mod 2 =? 0 then Some (v / 4, v2, (v / 2) mod 2 =? 0) else None.
Proof.
  unfold shown, Type_of, Object_of, PH_HANDLE_TABLE_ENTRY_TYPE, PH_HANDLE_TABLE_ENTRY_IN_USE, PH_HANDLE_TABLE_ENTRY_LOCKED. cbn [Value Value2].
  change 1 with (Z.ones 1). rewrite Z.land_ones, Z.shiftr_div_pow2, land_2 by lia. done.
Qed.

Lemma shown_unlocked o v2 : shown {| Value := 4 * o + 2; Value2 := v2 |} = Some (o, v2, false).
Proof.
  rewrite shown_eq. rewrite (proj2 (Z.eqb_eq _ 0)) by (Z.to_euclidean_division_equations; lia). f_equal. f_equal; [f_equal; Z.to_euclidean_division_equations; lia|].
  apply Z.eqb_neq. Z.to_euclidean_division_equations; lia.
Qed.
Lemma shown_locked o v2 : shown {| Value := 4 * o; Value2 := v2 |} = Some (o, v2, true).
Proof.
  rewrite shown_eq. rewrite (proj2 (Z.eqb_eq _ 0)) by (Z.to_euclidean_division_equations; lia). f_equal. f_equal; [f_equal; Z.to_euclidean_division_equations; lia|].
  apply Z.eqb_eq. Z.to_euclidean_division_equations; lia.
Qed.

(** The first word of an entry that shows something. *)
Lemma shown_Some e o v2 b : shown e = Some (o, v2, b) -> e = {| Value := 4 * o + (if b then 0 else 2); Value2 := v2 |}.
Proof.
  destruct e as [v w]. rewrite shown_eq. destruct (Z.eqb_spec (v mod 2) 0) as [Hv|]; [|done]. intros [= <- <- Hb]. f_equal.
  destruct b; [apply Z.eqb_eq in Hb|apply Z.eqb_neq in Hb]; Z.to_euclidean_division_equations; lia.
Qed.

Lemma shown_free e : Value e = PH_HANDLE_TABLE_ENTRY_FREE -> shown e = None.
Proof. intros Hv. unfold shown, Type_of. by rewrite Hv. Qed.

Lemma shown_used e : Type_of e = PH_HANDLE_TABLE_ENTRY_IN_USE <-> is_Some (shown e).
Proof. unfold shown. destruct (Z.eqb_spec (Type_of e) PH_HANDLE_TABLE_ENTRY_IN_USE); [|by split; [|intros []]]. by split; [eexists|]. Qed.

Lemma setbit_1 o b : Z.setbit (4 * o + (if (b : bool) then 0 else 2)) 1 = 4 * o + 2.
Proof.
  assert (H2 : forall x, Z.testbit (2 * x) 1 = Z.testbit x 0) by (intros x; apply (Z.testbit_even_succ x 0); lia).
  rewrite Z.setbit_spec'. change (2 ^ 1) with 2. destruct b.
  - rewrite Z.add_0_r, <- Z.add_lor_land. assert (Z.land (4 * o) 2 = 0) as ->; [|lia].
    apply Z.eqb_eq. rewrite land_2. apply Z.eqb_eq. Z.to_euclidean_division_equations; lia.
  - apply Z.bits_inj'. intros n Hn. rewrite Z.lor_spec. change 2 with (2 ^ 1) at 2. rewrite Z.pow2_bits_eqb by lia.
    destruct (Z.eqb_spec 1 n) as [<-|]; [|by rewrite orb_false_r]. rewrite orb_true_r. symmetry.
    replace (4 * o + 2) with (2 * (2 * o + 1)) by lia. rewrite H2. apply Z.testbit_odd_0.
Qed.

(** The map of the handle values in use. *)
Definition shows (E : list PH_HANDLE_TABLE_ENTRY) (M : gmap Z (Z * Z * bool)) : Prop :=
  forall v, M !! v = if 0 <=? v then E !! Z.to_nat v ≫= shown else None.

Lemma shows_lookup E M v e : shows E M -> 0 <= v -> E !! Z.to_nat v = Some e -> M !! v = shown e.
Proof. intros HM Hv He. rewrite HM, (proj2 (Z.leb_le 0 v)), He by done. done. Qed.

Lemma shows_set E M v e x : shows E M -> 0 <= v < Z.of_nat (length E) -> shown e = Some x -> shows (<[Z.to_nat v := e]> E) (<[v := x]> M).
Proof.
  intros HM Hv He w. destruct (decide (w = v)) as [->|Hw].
  - rewrite lookup_insert_eq, (proj2 (Z.leb_le 0 v)) by lia. rewrite list_lookup_insert_eq by lia. simpl. by rewrite He.
  - rewrite lookup_insert_ne by done. rewrite HM. destruct (Z.leb_spec 0 w); [|done]. by rewrite list_lookup_insert_ne by lia.
Qed.

Lemma shows_delete E M v e : shows E M -> 0 <= v < Z.of_nat (length E) -> shown e = None -> shows (<[Z.to_nat v := e]> E) (delete v M).
Proof.
  intros HM Hv He w. destruct (decide (w = v)) as [->|Hw].
  - rewrite lookup_delete_eq, (proj2 (Z.leb_le 0 v)) by lia. rewrite list_lookup_insert_eq by lia. simpl. by rewrite He.
  - rewrite lookup_delete_ne by done. rewrite HM. destruct (Z.leb_spec 0 w); [|done]. by rewrite list_lookup_insert_ne by lia.
Qed.

Lemma shows_free t E M free alt v : shows E M -> free_lists t E free alt -> v ∈ free ++ alt -> M !! v = None.
Proof.
  intros HM HF Hv. rewrite HM. destruct (0 <=? v); [|done]. destruct (E !! Z.to_nat v) as [e|] eqn:He; [|done].
  simpl. apply shown_free. by apply (lists_unused _ _ _ _ HF v).
Qed.

Lemma shows_kept t t' E E' M free alt free' alt' : shows E M -> free_lists t E free alt -> free_lists t' E' free' alt' ->
  kept E (free ++ alt) E' (free' ++ alt') -> shows E' M.
Proof.
  intros HM HF HF' [Hin Hsame Hnew] v. destruct (Z.leb_spec 0 v) as [Hv0|Hv0]; [|by rewrite HM, (proj2 (Z.leb_gt 0 v))].
  destruct (decide (v ∈ free' ++ alt')) as [Hv|Hv].
  - assert (M !! v = None) as ->.
    { destruct (Hnew v Hv Hv0) as [Hf|Hn]; [by eapply shows_free|]. by rewrite HM, (proj2 (Z.leb_le 0 v)), Hn by done. }
    destruct (E' !! Z.to_nat v) as [e'|] eqn:He'; [|done]. simpl. symmetry. apply shown_free. by apply (lists_unused _ _ _ _ HF' v).
  - rewrite (Hsame v Hv Hv0), HM. by rewrite (proj2 (Z.leb_le 0 v)).
Qed.

(** ** Changes to the lists *)

(** The head of the first list is taken and its entry put in use. *)
Lemma pop_lists t E v free alt e e' : free_lists t E (v :: free) alt -> Z.of_nat (length E) <= 2 ^ 24 -> E !! Z.to_nat v = Some e -> is_Some (shown e') ->
  free_lists (set_Count (set_FreeValue t (NextFreeValue e)) (Count t +₃₂ 1)) (<[Z.to_nat v := e']> E) free alt.
Proof.
  intros [Hfree Halt Hnd Hrange Hun Hus Hct] Hb He He'. simpl app in *. apply NoDup_cons in Hnd as [Hv Hnd].
  assert (Hvr : 0 <= v < Z.of_nat (length E)) by (apply Hrange; by left).
  assert (Hframe : forall w, w ∈ free ++ alt -> next_of (<[Z.to_nat v := e']> E) w = next_of E w) by (intros w Hw; apply next_of_set; [lia|by intros ->]).
  destruct Hfree as (_ & _ & nx & Hnx & Hfree).
  assert (nx = NextFreeValue e) as -> by (unfold next_of in Hnx; rewrite (proj2 (Z.leb_le 0 v)), He in Hnx by lia; by injection Hnx).
  split; cbn [FreeValue FreeValueAlt Count set_Count set_FreeValue].
  - eapply links_frame; [|exact Hfree]. intros w Hw. apply Hframe, elem_of_app. by left.
  - eapply links_frame; [|exact Halt]. intros w Hw. apply Hframe, elem_of_app. by right.
  - done.
  - intros w Hw. rewrite length_insert. apply Hrange. by right.
  - intros w f Hw Hf. destruct (decide (w = v)) as [->|Hwv]; [done|].
    pose proof (Hrange w ltac:(by right)). rewrite list_lookup_insert_ne in Hf by lia. apply (Hun w); [by right|done].
  - intros w f Hw0 Hw Hf. destruct (decide (w = v)) as [->|Hwv].
    + rewrite list_lookup_insert_eq in Hf by lia. injection Hf as <-. by apply shown_used.
    + rewrite list_lookup_insert_ne in Hf by lia. apply (Hus w); [done|by intros [->|?]%elem_of_cons|done].
  - rewrite Hct, length_insert. simpl length. assert (Hle : (length (v :: free ++ alt) <= length E)%nat).
    { transitivity (length (seqZ 0 (Z.of_nat (length E)))); [|rewrite length_seqZ; lia].
      apply submseteq_length, NoDup_submseteq; [by constructor|]. intros w Hw. apply elem_of_seqZ. pose proof (Hrange w Hw). lia. }
    simpl in Hle. rewrite u32_id by (unfold in_width; lia). lia.
Qed.

(** An entry in use changes, and stays in use. *)
Lemma set_lists t E v free alt e' : free_lists t E free alt -> 0 <= v < Z.of_nat (length E) -> v ∉ free ++ alt -> is_Some (shown e') ->
  free_lists t (<[Z.to_nat v := e']> E) free alt.
Proof.
  intros [Hfree Halt Hnd Hrange Hun Hus Hct] Hv Hni He'.
  assert (Hframe : forall w, w ∈ free ++ alt -> next_of (<[Z.to_nat v := e']> E) w = next_of E w) by (intros w Hw; apply next_of_set; [lia|by intros ->]).
  split; rewrite ?length_insert; try done.
  - eapply links_frame; [|exact Hfree]. intros w Hw. apply Hframe, elem_of_app. by left.
  - eapply links_frame; [|exact Halt]. intros w Hw. apply Hframe, elem_of_app. by right.
  - intros w f Hw Hf. pose proof (Hrange w Hw). rewrite list_lookup_insert_ne in Hf by (intros Ew; apply Hni; by replace v with w by lia). by apply (Hun w).
  - intros w f Hw0 Hw Hf. destruct (decide (w = v)) as [->|Hwv].
    + rewrite list_lookup_insert_eq in Hf by lia. injection Hf as <-. by apply shown_used.
    + rewrite list_lookup_insert_ne in Hf by lia. by apply (Hus w).
Qed.

(** An entry in use is freed to the first list or to the second. *)
Lemma push_lists t E v free alt e' (main : bool) : free_lists t E free alt -> Z.of_nat (length E) <= 2 ^ 24 -> 0 <= v < Z.of_nat (length E) -> v ∉ free ++ alt ->
  Value e' = PH_HANDLE_TABLE_ENTRY_FREE -> NextFreeValue e' = (if main then FreeValue t else FreeValueAlt t) ->
  let t' := set_Count t (Count t -₃₂ 1) in
  free_lists (if main then set_FreeValue t' v else set_FreeValueAlt t' v) (<[Z.to_nat v := e']> E) (if main then v :: free else free) (if main then alt else v :: alt).
Proof.
  intros [Hfree Halt Hnd Hrange Hun Hus Hct] Hb Hv Hni He' Hnx t'.
  assert (Hframe : forall w, w ∈ free ++ alt -> next_of (<[Z.to_nat v := e']> E) w = next_of E w) by (intros w Hw; apply next_of_set; [lia|by intros ->]).
  assert (Hf' : links PH_HANDLE_VALUE_INVALID (next_of (<[Z.to_nat v := e']> E)) (FreeValue t) free) by (eapply links_frame; [|exact Hfree]; intros w Hw; apply Hframe, elem_of_app; by left).
  assert (Ha' : links PH_HANDLE_VALUE_INVALID (next_of (<[Z.to_nat v := e']> E)) (FreeValueAlt t) alt) by (eapply links_frame; [|exact Halt]; intros w Hw; apply Hframe, elem_of_app; by right).
  assert (Hcons : forall i l, NextFreeValue e' = i -> links PH_HANDLE_VALUE_INVALID (next_of (<[Z.to_nat v := e']> E)) i l -> links PH_HANDLE_VALUE_INVALID (next_of (<[Z.to_nat v := e']> E)) v (v :: l)).
  { intros i l Hi Hl. split; [done|]. split; [unfold PH_HANDLE_VALUE_INVALID; lia|]. exists i. split; [|done].
    unfold next_of. rewrite (proj2 (Z.leb_le 0 v)), list_lookup_insert_eq by lia. simpl. by rewrite Hi. }
  set (F := (if main then v :: free else free) ++ (if main then alt else v :: alt)).
  assert (HF : F ≡ₚ v :: free ++ alt) by (unfold F; destruct main; [done|]; by rewrite Permutation_middle).
  assert (Hct' : Count t' = Z.of_nat (length E) - Z.of_nat (length (v :: free ++ alt))).
  { unfold t'. cbn [Count set_Count]. rewrite Hct. assert (Hle : (length (v :: free ++ alt) <= length E)%nat).
    { transitivity (length (seqZ 0 (Z.of_nat (length E)))); [|rewrite length_seqZ; lia].
      apply submseteq_length, NoDup_submseteq; [by constructor|]. intros w [->|Hw]%elem_of_cons; apply elem_of_seqZ; [lia|]. pose proof (Hrange w Hw). lia. }
    simpl length in Hle |- *. rewrite u32_id by (unfold in_width; lia). lia. }
  split; rewrite ?length_insert.
  - destruct main; cbn [FreeValue set_FreeValue set_FreeValueAlt]; [by apply (Hcons _ _ Hnx)|done].
  - destruct main; cbn [FreeValueAlt set_FreeValue set_FreeValueAlt]; [done|by apply (Hcons _ _ Hnx)].
  - fold F. rewrite HF. by constructor.
  - fold F. intros w. rewrite HF. intros [->|Hw]%elem_of_cons; [lia|by apply Hrange].
  - fold F. intros w f. rewrite HF. intros Hw Hf. destruct (decide (w = v)) as [->|Hwv].
    + rewrite list_lookup_insert_eq in Hf by lia. by injection Hf as <-.
    + apply elem_of_cons in Hw as [?|Hw]; [done|]. pose proof (Hrange w Hw). rewrite list_lookup_insert_ne in Hf by lia. by apply (Hun w).
  - fold F. intros w f Hw0. rewrite HF. intros [Hwv Hw]%not_elem_of_cons Hf. rewrite list_lookup_insert_ne in Hf by lia. by apply (Hus w).
  - fold F. rewrite HF. by destruct main.
Qed.

(** ** Handles *)

Definition represents m0 t m (M : gmap Z (Z * Z * bool)) : Prop := exists s E free alt, table_wf m0 t m s E free alt /\ shows E M.

Lemma created_word e0 e : Value e0 = PH_HANDLE_TABLE_ENTRY_FREE ->
  let e1 := set_Value e0 (fields PH_HANDLE_TABLE_ENTRY_IN_USE (Locked_of e0) (Object_of e0)) in
  fields (Type_of e1) (Locked_of e1) (Object_of e) = 4 * Object_of e + 0.
Proof.
  intros Hv e1. assert (Hz : Value e1 = 0) by (unfold e1, set_Value, Locked_of, Object_of; cbn [Value]; by rewrite Hv).
  unfold Type_of, Locked_of. rewrite Hz. unfold fields. change (Z.land 0 PH_HANDLE_TABLE_ENTRY_TYPE) with 0. change (bit_field 1 1 0) with 0.
  change (Z.lor 0 (Z.shiftl 0 1)) with 0. rewrite Z.lor_0_l, Z.shiftl_mul_pow2 by lia. lia.
Qed.

(** How the lists of the table change when a handle [v] is created. *)
Definition taken t (free alt : list Z) (v : Z) (free' alt' : list Z) : Prop :=
  free = v :: free' /\ alt' = alt \/ free = [] /\ alt' = [] /\ exists more, v :: free' = refilled (strict_fifo t) alt (NextValue t) more.

Lemma create_spec m0 t m s E free alt M e : table_wf m0 t m s E free alt -> shows E M ->
  exists t' m' r, PhCreateHandle uninitialized t m e = Some (t', m', r) /\ Flags t' = Flags t /\
  match r with
  | Some h => exists v s' E' free' alt', h = PhpEncodeHandle v /\ 0 <= v < 2 ^ 24 /\ M !! v = None /\ table_wf m0 t' m' s' E' free' alt' /\
      shows E' (<[v := (Object_of e, Value2 e, false)]> M) /\ taken t free alt v free' alt'
  | None => free = [] /\ alt = [] /\ (out_of_memory \/ NextValue t = 2 ^ 24) /\ exists s' E', table_wf m0 t' m' s' E' [] [] /\ shows E' M
  end.
Proof.
  intros Hwf HM. unfold PhCreateHandle, PhpAllocateHandleTableEntry. cbn [allocate_loop].
  destruct (find_free_spec m0 t m s E free alt Hwf) as (t1 & m1 & r & s1 & E1 & free1 & alt1 & -> & Hwf1 & Hfl & Hkept & Hr). cbn [mbind option_bind].
  pose proof (shows_kept _ _ _ _ _ _ _ _ _ HM (proj2 Hwf) (proj2 Hwf1) Hkept) as HM1. pose proof Hwf1 as [HL1 HF1].
  destruct (layout_bound _ _ _ _ _ HL1) as [Hb1 HlE1]. destruct r as [v|].
  - destruct Hr as (Hv & Hvi & Hlists). cbn [mbind option_bind].
    destruct free1 as [|v' free1]; [exfalso; apply Hvi; rewrite <- Hv; by apply (links_head _ _ _ _ (lists_free _ _ _ _ HF1))|].
    assert (v' = v) as -> by (pose proof (lists_free _ _ _ _ HF1) as (Hh & _); congruence).
    assert (Hvr : 0 <= v < NextValue t1) by (rewrite <- HlE1; apply (lists_range _ _ _ _ HF1); by left).
    destruct (layout_entry _ _ _ _ _ v HL1 Hvr) as (p & e0 & -> & Hp & He0 & Hg). cbn [mbind option_bind].
    rewrite (proj2 (Z.eqb_eq _ _) Hv). cbn [negb]. rewrite !Hg. cbn [mbind option_bind]. rewrite Hg. cbn [mbind option_bind].
    assert (Hv0 : Value e0 = PH_HANDLE_TABLE_ENTRY_FREE) by (apply (lists_unused _ _ _ _ HF1 v); [by left|done]).
    pose proof (created_word e0 e Hv0) as Hw. cbv zeta in Hw. cbn [Value set_Value] in Hw |- *. rewrite Hw.
    destruct (layout_set _ _ _ _ _ _ _ {| Value := 4 * Object_of e + 0; Value2 := Value2 e |} HL1 Hvr Hp) as (m2 & -> & HL2 & Hg2). cbn [mbind option_bind].
    unfold PhUnlockHandleTableEntry. rewrite Hg2. cbn [mbind option_bind]. unfold set_Value. cbn [Value Value2]. change PH_HANDLE_TABLE_ENTRY_LOCKED_SHIFT with 1.
    rewrite (setbit_1 (Object_of e) true).
    destruct (layout_set _ _ _ _ _ _ _ {| Value := 4 * Object_of e + 2; Value2 := Value2 e |} HL2 Hvr Hp) as (m3 & -> & HL3 & _). cbn [mbind option_bind].
    rewrite list_insert_insert_eq in HL3. change (Count (set_FreeValue t1 (NextFreeValue e0))) with (Count t1). eexists _, m3, (Some (PhpEncodeHandle v)). split; [done|]. split; [done|].
    exists v, s1. eexists. exists free1, alt1. split; [done|]. split; [lia|]. split; [by apply (shows_free _ _ _ _ _ v HM1 HF1); left|].
    split; [split|split].
    + eapply layout_fields; [| |exact HL3]; done.
    + apply pop_lists; [done|lia|done|]. rewrite shown_unlocked. by eexists.
    + apply shows_set; [done|lia|apply shown_unlocked].
    + destruct Hlists as [(_ & Hf & Ha)|(Hf & Ha & more & Hm)]; [by left|right]. split; [done|]. split; [done|]. by exists more.
  - destruct Hr as (-> & -> & -> & -> & Hwhy & Hn). exists t1, m1, None. split; [done|]. split; [done|]. split; [done|]. split; [done|]. split; [done|]. by exists s1, E1.
Qed.

Lemma decode_range h : 0 <= PhpDecodeHandle h < 2 ^ 30.
Proof.
  unfold PhpDecodeHandle, PH_HANDLE_VALUE_SHIFT. rewrite Z.shiftr_div_pow2 by lia. change (2 ^ 2) with 4.
  pose proof (u32_range (u32 h - PH_HANDLE_VALUE_BIAS)). Z.to_euclidean_division_equations; lia.
Qed.

Lemma shows_beyond m0 t m s E M v : layout m0 t m s E -> shows E M -> NextValue t <= v -> M !! v = None.
Proof.
  intros HL HM Hv. destruct (layout_bound _ _ _ _ _ HL) as [Hb HlE]. rewrite HM. destruct (0 <=? v); [|done]. by rewrite lookup_ge_None_2 by lia.
Qed.

Lemma used_not_free t E free alt v e : free_lists t E free alt -> E !! Z.to_nat v = Some e -> is_Some (shown e) -> v ∉ free ++ alt.
Proof. intros HF He [x Hx] Hin. by rewrite (shown_free e) in Hx by (by apply (lists_unused _ _ _ _ HF v)). Qed.

(** Locking, for an entry in each of its states. *)
Lemma lock_spec m p e : get_entry m p = Some e ->
  PhLockHandleTableEntry m p =
    match shown e with
    | None => Some (m, NotInUse)
    | Some (_, _, true) => Some (m, Waits)
    | Some (_, _, false) => m ← set_entry m p (set_Value e (Value e - 2)); Some (m, Locked)
    end.
Proof.
  intros Hg. unfold PhLockHandleTableEntry. rewrite Hg. cbn [mbind option_bind]. unfold shown, Type_of.
  destruct (Z.land (Value e) PH_HANDLE_TABLE_ENTRY_TYPE =? PH_HANDLE_TABLE_ENTRY_IN_USE); [|done]. cbn [negb].
  by destruct (Z.land (Value e) PH_HANDLE_TABLE_ENTRY_LOCKED =? 0).
Qed.

(** An entry in use gets another first word. *)
Lemma rewrite_used m0 t m s E free alt M v p e x : table_wf m0 t m s E free alt -> shows E M -> 0 <= v < NextValue t -> place (tables0 s) v p ->
  is_Some (M !! v) -> shown e = Some x ->
  exists m', set_entry m p e = Some m' /\ get_entry m' p = Some e /\ table_wf m0 t m' s (<[Z.to_nat v := e]> E) free alt /\
    shows (<[Z.to_nat v := e]> E) (<[v := x]> M).
Proof.
  intros [HL HF] HM Hv Hp HMv Hx. destruct (layout_bound _ _ _ _ _ HL) as [Hb HlE].
  destruct (layout_set _ _ _ _ _ _ _ e HL Hv Hp) as (m' & Hs & HL' & Hg). exists m'. split; [done|]. split; [done|].
  split; [split; [done|]|by apply shows_set; [|lia|]]. apply set_lists; [done|lia| |by rewrite Hx].
  intros Hin. rewrite (shows_free _ _ _ _ _ _ HM HF Hin) in HMv. by destruct HMv.
Qed.

(** A handle value: its entry, or none beyond the last. *)
Lemma handle_cases m0 t m s E free alt M v : table_wf m0 t m s E free alt -> shows E M -> 0 <= v ->
  (PhpLookupHandleTableEntry t m v = Some None /\ M !! v = None) \/
  (exists p e, 0 <= v < NextValue t /\ PhpLookupHandleTableEntry t m v = Some (Some p) /\ place (tables0 s) v p /\ E !! Z.to_nat v = Some e /\
     get_entry m p = Some e /\ M !! v = shown e).
Proof.
  intros [HL HF] HM Hv. destruct (Z.ltb_spec v (NextValue t)) as [Hlt|Hge].
  - right. destruct (layout_entry _ _ _ _ _ v HL (conj Hv Hlt)) as (p & e & Hlk & Hp & He & Hg). exists p, e. do 5 (split; [done|]). by apply (shows_lookup E).
  - left. split; [by apply lookup_beyond|by eapply shows_beyond].
Qed.

Lemma lock_word o v2 : set_Value {| Value := 4 * o + 2; Value2 := v2 |} (Value {| Value := 4 * o + 2; Value2 := v2 |} - 2) = {| Value := 4 * o; Value2 := v2 |}.
Proof. unfold set_Value. cbn [Value Value2]. f_equal. lia. Qed.

Lemma lookup_handle_spec m0 t m s E free alt M h : table_wf m0 t m s E free alt -> shows E M ->
  exists r, PhLookupHandleTableEntry t m h = Some r /\
    match M !! PhpDecodeHandle h with
    | None => r = Some (m, None)
    | Some (o, v2, true) => r = None
    | Some (o, v2, false) => exists m' p E', r = Some (m', Some p) /\ table_wf m0 t m' s E' free alt /\ shows E' (<[PhpDecodeHandle h := (o, v2, true)]> M) /\
        get_entry m' p = Some {| Value := 4 * o; Value2 := v2 |}
    end.
Proof.
  intros Hwf HM. unfold PhLookupHandleTableEntry. pose proof (decode_range h) as Hd. set (v := PhpDecodeHandle h) in *.
  destruct (handle_cases _ _ _ _ _ _ _ _ v Hwf HM ltac:(lia)) as [(-> & ->)|(p & e & Hv & -> & Hp & He & Hg & HMv)]; cbn [mbind option_bind]; [by eexists|].
  rewrite (lock_spec m p e Hg), HMv. destruct (shown e) as [[[o v2] []]|] eqn:Es; cbn [mbind option_bind]; [by eexists| |by eexists].
  apply shown_Some in Es as ->. rewrite lock_word.
  destruct (rewrite_used _ _ _ _ _ _ _ _ v p {| Value := 4 * o; Value2 := v2 |} (o, v2, true) Hwf HM Hv Hp) as (m' & -> & Hg' & Hwf' & HM'); [by rewrite HMv|apply shown_locked|].
  cbn [mbind option_bind]. eexists. split; [done|]. by eexists m', p, _.
Qed.

Lemma unlock_spec m0 t m s E free alt M v o v2 b : table_wf m0 t m s E free alt -> shows E M -> 0 <= v -> M !! v = Some (o, v2, b) ->
  exists p m' E', PhpLookupHandleTableEntry t m v = Some (Some p) /\ PhUnlockHandleTableEntry m p = Some m' /\
    table_wf m0 t m' s E' free alt /\ shows E' (<[v := (o, v2, false)]> M).
Proof.
  intros Hwf HM Hv HMv. destruct (handle_cases _ _ _ _ _ _ _ _ v Hwf HM Hv) as [(_ & ?)|(p & e & Hv' & Hlk & Hp & He & Hg & HMe)]; [congruence|]. exists p.
  unfold PhUnlockHandleTableEntry. rewrite Hg. cbn [mbind option_bind]. rewrite HMv in HMe. symmetry in HMe. apply shown_Some in HMe as ->.
  unfold set_Value. cbn [Value Value2]. change PH_HANDLE_TABLE_ENTRY_LOCKED_SHIFT with 1. rewrite setbit_1.
  destruct (rewrite_used _ _ _ _ _ _ _ _ v p {| Value := 4 * o + 2; Value2 := v2 |} (o, v2, false) Hwf HM Hv' Hp) as (m' & Hs & Hg' & Hwf' & HM'); [by rewrite HMv|apply shown_unlocked|].
  by eexists m', _.
Qed.

(** Which list a destroyed handle goes to. *)
Definition to_first t (acquired : bool) : bool := negb (strict_fifo t) && acquired.

(** The rest of [PhDestroyHandle] once the entry is locked. *)
Lemma free_spec m0 t m s E free alt M v p e acquired : table_wf m0 t m s E free alt -> shows E M -> 0 <= v < NextValue t -> place (tables0 s) v p ->
  E !! Z.to_nat v = Some e -> is_Some (shown e) ->
  exists t' m' E', (m ← set_entry m p (set_Value e PH_HANDLE_TABLE_ENTRY_FREE); PhpFreeHandleTableEntry t m v p acquired) = Some (t', m') /\
    table_wf m0 t' m' s E' (if to_first t acquired then v :: free else free) (if to_first t acquired then alt else v :: alt) /\
    shows E' (delete v M) /\ Flags t' = Flags t.
Proof.
  intros [HL HF] HM Hv Hp He Hshown. destruct (layout_bound _ _ _ _ _ HL) as [Hb HlE].
  pose proof (used_not_free _ _ _ _ _ _ HF He Hshown) as Hni. destruct (free_value_word _ _ _ _ HF) as [Hw1 Hw2]; [lia|]. unfold PH_HANDLE_VALUE_INVALID in Hw1, Hw2.
  destruct (layout_set _ _ _ _ _ _ _ (set_Value e PH_HANDLE_TABLE_ENTRY_FREE) HL Hv Hp) as (m1 & -> & HL1 & Hg1). cbn [mbind option_bind].
  unfold PhpFreeHandleTableEntry. rewrite Hg1. cbn [mbind option_bind]. cbv zeta. change (strict_fifo (set_Count t _)) with (strict_fifo t). fold (to_first t acquired).
  cbn [FreeValue FreeValueAlt set_Count].
  assert (Hpush := push_lists t E v free alt (set_NextFreeValue (set_Value e PH_HANDLE_TABLE_ENTRY_FREE) (if to_first t acquired then FreeValue t else FreeValueAlt t))
    (to_first t acquired) HF ltac:(lia) ltac:(lia) Hni eq_refl ltac:(apply next_set; destruct (to_first t acquired); lia)). cbv zeta in Hpush.
  destruct (layout_set _ _ _ _ _ _ _ (set_NextFreeValue (set_Value e PH_HANDLE_TABLE_ENTRY_FREE) (if to_first t acquired then FreeValue t else FreeValueAlt t)) HL1 Hv Hp) as (m2 & Hs2 & HL2 & _).
  rewrite list_insert_insert_eq in HL2.
  destruct (to_first t acquired); rewrite Hs2; cbn [mbind option_bind];
    (eexists _, m2, _; split; [done|]; split; [split; [eapply layout_fields; [..|exact HL2]; done|exact Hpush]|split; [|done]]; apply shows_delete; [done|lia|by apply shown_free]).
Qed.

Lemma destroy_spec m0 t m s E free alt M h acquired : table_wf m0 t m s E free alt -> shows E M ->
  exists r, PhDestroyHandle t m h None acquired = Some r /\
    match M !! PhpDecodeHandle h with
    | None => r = Some (t, m, false)
    | Some (_, _, true) => r = None
    | Some (_, _, false) => exists t' m' E', r = Some (t', m', true) /\
        table_wf m0 t' m' s E' (if to_first t acquired then PhpDecodeHandle h :: free else free) (if to_first t acquired then alt else PhpDecodeHandle h :: alt) /\
        shows E' (delete (PhpDecodeHandle h) M) /\ Flags t' = Flags t
    end.
Proof.
  intros Hwf HM. unfold PhDestroyHandle. cbv zeta. pose proof (decode_range h) as Hd. set (v := PhpDecodeHandle h) in *.
  destruct (handle_cases _ _ _ _ _ _ _ _ v Hwf HM ltac:(lia)) as [(-> & ->)|(p & e & Hv & -> & Hp & He & Hg & HMv)]; cbn [mbind option_bind]; [by eexists|].
  rewrite (lock_spec m p e Hg), HMv. destruct (shown e) as [[[o v2] []]|] eqn:Es; cbn [mbind option_bind]; [by eexists| |by eexists].
  apply shown_Some in Es as ->. rewrite lock_word.
  destruct (rewrite_used _ _ _ _ _ _ _ _ v p {| Value := 4 * o; Value2 := v2 |} (o, v2, true) Hwf HM Hv Hp) as (m1 & -> & Hg1 & Hwf1 & HM1); [by rewrite HMv|apply shown_locked|].
  cbn [mbind option_bind]. rewrite Hg1. cbn [mbind option_bind]. destruct (layout_bound _ _ _ _ _ (proj1 Hwf)) as [Hb HlE].
  destruct (free_spec m0 t m1 s _ free alt _ v p {| Value := 4 * o; Value2 := v2 |} acquired Hwf1 HM1 Hv Hp) as (t' & m' & E' & Hf & Hwf' & HM' & Hfl);
    [apply list_lookup_insert_eq; lia|rewrite shown_locked; by eexists|].
  destruct (set_entry m1 p _) as [m2|]; [|done]. cbn [mbind option_bind] in Hf |- *. rewrite Hf. cbn [mbind option_bind]. eexists. split; [done|].
  exists t', m', E'. split; [done|]. split; [done|]. split; [|done]. by rewrite delete_insert_eq in HM'.
Qed.

(** The same for a caller that has locked the entry. *)
Lemma destroy_locked_spec m0 t m s E free alt M h o v2 acquired : table_wf m0 t m s E free alt -> shows E M -> M !! PhpDecodeHandle h = Some (o, v2, true) ->
  exists p t' m' E', PhpLookupHandleTableEntry t m (PhpDecodeHandle h) = Some (Some p) /\ PhDestroyHandle t m h (Some p) acquired = Some (Some (t', m', true)) /\ table_wf m0 t' m' s E' (if to_first t acquired then PhpDecodeHandle h :: free else free) (if to_first t acquired then alt else PhpDecodeHandle h :: alt) /\
    shows E' (delete (PhpDecodeHandle h) M) /\ Flags t' = Flags t.
Proof.
  intros Hwf HM HMv. pose proof (decode_range h) as Hd. unfold PhDestroyHandle. cbv zeta. set (v := PhpDecodeHandle h) in *.
  destruct (handle_cases _ _ _ _ _ _ _ _ v Hwf HM ltac:(lia)) as [(_ & ?)|(p & e & Hv & Hlk & Hp & He & Hg & HMe)]; [congruence|]. exists p.
  cbn [mbind option_bind]. rewrite Hg. cbn [mbind option_bind].
  destruct (free_spec m0 t m s E free alt M v p e acquired Hwf HM Hv Hp He) as (t' & m' & E' & Hf & Hwf' & HM' & Hfl); [rewrite <- HMe, HMv; by eexists|].
  destruct (set_entry m p _) as [m2|]; [|done]. cbn [mbind option_bind] in Hf |- *. rewrite Hf. cbn [mbind option_bind]. by exists t', m', E'.
Qed.

(** ** Creating and destroying a table *)

Lemma create_table_spec m : mem_wf m ->
  exists m' r, PhCreateHandleTable uninitialized m = Some (m', r) /\
  match r with
  | None => same_blocks m m' /\ out_of_memory
  | Some (a, t) => exists m0 s E, table_wf m0 t m' s E (seqZ 0 256) [] /\ shows E ∅ /\ Flags t = 0 /\
      (a ∉ owned Structure (pool m)) /\ owned Structure (pool m0) = {[a]} ∪ owned Structure (pool m) /\
      table0 m0 = table0 m /\ table1 m0 = table1 m /\ table2 m0 = table2 m
  end.
Proof.
  intros [Ha Hd0 Hd1 Hd2]. unfold PhCreateHandleTable. destruct (obtain Structure (pool m)) as [q [a|]] eqn:Eo.
  - destruct (obtain_some _ _ _ _ Ha Eo) as (Hfr & Hown & Hpos & Hal & Hq & Hk). cbv zeta.
    set (m0 := {| pool := q; table0 := table0 m; table1 := table1 m; table2 := table2 m |}).
    assert (Hm0 : mem_wf m0) by (split; cbn [pool table0 table1 table2 m0]; [done|by rewrite Hk..]).
    destruct (create0_spec m0 0 Hm0 ltac:(lia) ltac:(lia)) as (m1 & [b|] & -> & H1); cbn [mbind option_bind].
    + destruct H1 as (l & Hfb & Hbl & Hpb & [Hll Hfresh] & Hm1 & E0 & E1 & E2 & Est).
      eexists _, _. split; [done|]. exists m0, {| tables0 := [b]; tables1 := []; tables2 := [] |}, l.
      set (t := {| Count := 0; TableValue := b; FreeValue := 0; NextValue := PH_HANDLE_TABLE_LEVEL_ENTRIES; FreeValueAlt := PH_HANDLE_VALUE_INVALID; Flags := 0 |}).
      assert (Hent : forall v, 0 <= v < 256 -> exists e, l !! Z.to_nat v = Some e /\ Value e = PH_HANDLE_TABLE_ENTRY_FREE /\ NextFreeValue e = if v =? 255 then PH_HANDLE_VALUE_INVALID else v + 1).
      { intros v Hv. destruct (lookup_lt_is_Some_2 l (Z.to_nat v)) as [e He]; [lia|]. destruct (Hfresh _ _ He) as [Hval Hnx]. exists e. split; [done|]. split; [done|]. rewrite Hnx.
        destruct (Z.eqb_spec v 255); [by rewrite decide_True by lia|rewrite decide_False by lia; lia]. }
      assert (Hin : forall v, v ∈ seqZ 0 256 ++ [] <-> 0 <= v < 256) by (intros v; rewrite app_nil_r, elem_of_seqZ; lia).
      split; [split|split; [|split; [done|split; [done|split; [done|done]]]]].
      * split; [done|by constructor|split; cbn [tables0 tables1]| |split; cbn [tables0 length]|done|done].
        -- apply NoDup_singleton. -- constructor. -- intros ?%list_elem_of_singleton. lia. -- apply not_elem_of_nil.
        -- split; [cbn [tables0]; rewrite E0; apply (out_new _ _ []); [apply out_nil|apply not_elem_of_nil|done]|]. rewrite E1, E2. split; [apply out_nil|]. split; [apply out_nil|done].
        -- lia.
        -- intros [|i] c Hc; [|done]. injection Hc as <-. rewrite E0, lookup_insert_eq. f_equal. unfold chunk. rewrite Nat.mul_0_r, drop_0, take_ge; [done|by rewrite Hll].
      * split; cbn [FreeValue FreeValueAlt Count t].
        -- apply (links_fresh l 0 PH_HANDLE_VALUE_INVALID []); [done|done|done| |done]. intros j Hj. destruct (Hent j Hj) as (e & He & _ & Hnx).
           unfold next_of. rewrite Z.add_0_l, (proj2 (Z.leb_le 0 j)), He by lia. simpl. by rewrite Hnx.
        -- done.
        -- rewrite app_nil_r. apply NoDup_seqZ.
        -- intros v Hv%Hin. lia.
        -- intros v e Hv%Hin He. destruct (Hent v Hv) as (e' & He' & Hval & _). congruence.
        -- intros v e Hv0 Hv He. destruct Hv. apply Hin. apply lookup_lt_Some in He. lia.
        -- rewrite Hll. by rewrite app_nil_r, length_seqZ.
      * intros v. rewrite lookup_empty. destruct (Z.leb_spec 0 v); [|done]. destruct (l !! Z.to_nat v) as [e|] eqn:He; [|done]. simpl.
        symmetry. apply shown_free. by destruct (Hfresh _ _ He).
    + destruct H1 as [(Hm1 & E0 & E1 & E2 & Est) Hoom]. pose proof Hm1 as [Ha1 Hc0 Hc1 Hc2].
      destruct (give_back_owned Structure a (pool m1) Ha1) as (q' & -> & Hown' & Hq' & Hk'); [rewrite Est; cbn [pool m0]; rewrite Hown; set_solver|]. cbn [mbind option_bind].
      eexists _, None. split; [done|]. split; [|done]. split; [split; cbn [pool table0 table1 table2]; [done|by rewrite Hk'..]|].
      cbn [pool table0 table1 table2]. do 3 (split; [done|]). rewrite Hown', Est. cbn [pool m0]. rewrite Hown. set_solver.
  - destruct (obtain_none _ _ _ Ha Eo) as [Hq Hk]. eexists _, None. split; [done|]. split; [|exists Structure, (pool m); by rewrite Eo].
    split; [split; cbn [pool table0 table1 table2]; [done|by rewrite Hk..]|]. by rewrite Hk.
Qed.

(** [T'] is [T] without the keys [bs]. *)
Definition removed {A} (T T' : gmap Z A) (bs : list Z) : Prop := forall b, T' !! b = if decide (b ∈ bs) then None else T !! b.

Lemma removed_nil {A} (T : gmap Z A) : removed T T [].
Proof. intros b. rewrite decide_False; [done|apply not_elem_of_nil]. Qed.
Lemma removed_app {A} (T T' T'' : gmap Z A) bs cs : removed T T' bs -> removed T' T'' cs -> removed T T'' (bs ++ cs).
Proof. intros H1' H2' b. rewrite H2', H1'. repeat case_decide; rewrite ?elem_of_app in *; tauto || done. Qed.
Lemma removed_delete {A} (T : gmap Z A) b : removed T (delete b T) [b].
Proof.
  intros c. destruct (decide (c = b)) as [->|Hc]; [rewrite decide_True by (by apply list_elem_of_singleton); apply lookup_delete_eq|].
  rewrite decide_False by (by intros ?%list_elem_of_singleton). by apply lookup_delete_ne.
Qed.
Lemma removed_out {A} (T0 T T' : gmap Z A) bs : out T0 T bs -> removed T T' bs -> T' = T0.
Proof. intros [Ho Hn] Hr. apply map_eq. intros b. rewrite Hr. case_decide; [by rewrite Hn|by apply Ho]. Qed.
Lemma removed_lookup {A} (T T' : gmap Z A) bs b : removed T T' bs -> b ∉ bs -> T' !! b = T !! b.
Proof. intros Hr Hb. rewrite Hr. by rewrite decide_False. Qed.

Definition emptied m m' (bs0 bs1 bs2 : list Z) : Prop :=
  mem_wf m' /\ removed (table0 m) (table0 m') bs0 /\ removed (table1 m) (table1 m') bs1 /\ removed (table2 m) (table2 m') bs2 /\
  owned Structure (pool m') = owned Structure (pool m).

Lemma emptied_refl m : mem_wf m -> emptied m m [] [] [].
Proof. intros Hm. split; [done|]. do 3 (split; [apply removed_nil|]). done. Qed.
Lemma emptied_app m m' m'' a0 a1 a2 b0 b1 b2 : emptied m m' a0 a1 a2 -> emptied m' m'' b0 b1 b2 -> emptied m m'' (a0 ++ b0) (a1 ++ b1) (a2 ++ b2).
Proof.
  intros (_ & A0 & A1 & A2 & A3) (Hm & B0 & B1 & B2 & B3). split; [done|]. split; [by eapply removed_app|]. split; [by eapply removed_app|].
  split; [by eapply removed_app|congruence].
Qed.

(** A loop over the slots of a table, up to the first NULL. *)
Lemma free_children_spec (read : mem -> Z -> ub Z) (free : mem -> Z -> ub mem) (l : list Z) (P : nat -> mem -> Prop) :
  (forall k m, P k m -> (k < 256)%nat -> read m (Z.of_nat k) = pad_slots l !! k) ->
  (forall k m p, l !! k = Some p -> P k m -> exists m', free m p = Some m' /\ P (Datatypes.S k) m') ->
  0 ∉ l -> (length l <= 256)%nat ->
  forall n k m, (n + k = 256)%nat -> (k <= length l)%nat -> P k m -> exists m', free_children n read free (Z.of_nat k) m = Some m' /\ P (length l) m'.
Proof.
  intros Hread Hfree Hz Hlen. induction n as [|n IH]; intros k m Hn Hk HP; cbn [free_children].
  - exists m. split; [done|]. by replace (length l) with k by lia.
  - rewrite (Hread k m HP) by lia. destruct (decide (k = length l)) as [->|Hne].
    + rewrite (pad_lookup_null l (length l)) by lia. cbn [mbind option_bind]. by exists m.
    + destruct (lookup_lt_is_Some_2 l k) as [p Hp]; [lia|]. rewrite (pad_lookup _ _ _ Hp). cbn [mbind option_bind].
      assert (Hp0 : p <> 0) by (intros ->; apply Hz; by eapply list_elem_of_lookup_2). rewrite (proj2 (Z.eqb_neq _ _) Hp0).
      destruct (Hfree k m p Hp HP) as (m1 & -> & HP1). cbn [mbind option_bind].
      replace (Z.of_nat k + 1) with (Z.of_nat (Datatypes.S k)) by lia. apply IH; [lia|lia|done].
Qed.

Lemma NoDup_take_lookup (bs : list Z) k b : NoDup bs -> bs !! k = Some b -> b ∉ take k bs.
Proof.
  intros Hnd Hb [j Hj]%list_elem_of_lookup. apply lookup_take_Some in Hj as [Hj Hlt]. pose proof (NoDup_lookup _ _ _ _ Hnd Hj Hb). lia.
Qed.

Lemma free_level1_spec m a bs : mem_wf m -> level1_rep m a bs -> NoDup bs -> 0 ∉ bs -> (length bs <= 256)%nat ->
  (forall b, b ∈ bs -> is_Some (table0 m !! b)) -> exists m', free_level1 m a = Some m' /\ emptied m m' bs [a] [].
Proof.
  intros Hm Hrep Hnd Hz Hlen Hlive. unfold free_level1. change (Z.to_nat PH_HANDLE_TABLE_LEVEL_ENTRIES) with 256%nat. change 0 with (Z.of_nat 0).
  destruct (free_children_spec (fun m i => load1 m a i) PhpFreeHandleTableLevel0 bs (fun k m' => emptied m m' (take k bs) [] [])) with (n := 256%nat) (k := 0%nat) (m := m)
    as (m1 & -> & He); [| |done|done|lia|lia|by apply emptied_refl|].
  - intros k m' (_ & _ & H1' & _) Hk. unfold load1, load. rewrite (removed_lookup _ _ _ _ H1' (not_elem_of_nil a)), Hrep. cbn [mbind option_bind]. by rewrite Nat2Z.id.
  - intros k m' b Hb He. pose proof He as (Hm' & H0' & _). destruct (Hlive b) as [l Hl]; [by eapply list_elem_of_lookup_2|].
    destruct (free0_spec m' b l Hm') as (m2 & -> & Hm2 & F0 & F1 & F2 & Fst); [by rewrite (removed_lookup _ _ _ _ H0' (NoDup_take_lookup _ _ _ Hnd Hb))|].
    exists m2. split; [done|]. rewrite (take_S_r _ _ _ Hb). apply (emptied_app m m' m2 _ [] [] [b] [] []); [done|].
    split; [done|]. split; [rewrite F0; apply removed_delete|]. split; [rewrite F1; apply removed_nil|]. split; [rewrite F2; apply removed_nil|done].
  - cbn [mbind option_bind]. rewrite take_ge in He by lia. pose proof He as (Hm1 & _ & H1' & _).
    destruct (free1_spec m1 a (pad_slots bs) Hm1) as (m2 & -> & Hm2 & F0 & F1 & F2 & Fst); [by rewrite (removed_lookup _ _ _ _ H1' (not_elem_of_nil a))|].
    exists m2. split; [done|]. rewrite <- (app_nil_r bs). apply (emptied_app m m1 m2 bs [] [] [] [a] []); [done|].
    split; [done|]. split; [rewrite F0; apply removed_nil|]. split; [rewrite F1; apply removed_delete|]. split; [rewrite F2; apply removed_nil|done].
Qed.

Lemma NoDup_chunk (bs : list Z) k : NoDup bs -> NoDup (chunk k bs).
Proof. intros Hnd. unfold chunk. eapply sublist_NoDup; [exact Hnd|]. etrans; [apply sublist_take|apply sublist_drop]. Qed.
Lemma elem_of_chunk (bs : list Z) k b : b ∈ chunk k bs -> b ∈ bs.
Proof.
  unfold chunk. intros [j [Hj _]%lookup_take_Some]%list_elem_of_lookup. rewrite lookup_drop in Hj. by eapply list_elem_of_lookup_2.
Qed.

Lemma take_chunk {A} (l : list A) k : take (256 * Datatypes.S k) l = take (256 * k) l ++ chunk k l.
Proof. unfold chunk. rewrite take_take_drop. f_equal. lia. Qed.

Lemma chunk_not_taken (bs : list Z) k b : NoDup bs -> b ∈ chunk k bs -> b ∉ take (256 * k) bs.
Proof.
  intros Hnd Hb Ht. assert (Hnd2 : NoDup (take (256 * Datatypes.S k) bs)) by (eapply sublist_NoDup; [exact Hnd|apply sublist_take]).
  rewrite take_chunk in Hnd2. apply NoDup_app in Hnd2 as (_ & Hd & _). by apply (Hd b).
Qed.

(** The third level. *)
Lemma free_level2_spec m a ts bs : mem_wf m -> table2 m !! a = Some (pad_slots ts) -> (forall i b, ts !! i = Some b -> level1_rep m b (chunk i bs)) ->
  NoDup bs -> NoDup ts -> 0 ∉ bs -> 0 ∉ ts -> (length ts <= 256)%nat -> (length bs <= 256 * length ts)%nat -> (forall b, b ∈ bs -> is_Some (table0 m !! b)) ->
  exists m', (m ← free_children (Z.to_nat PH_HANDLE_TABLE_LEVEL_ENTRIES) (fun m i => load2 m a i) free_level1 0 m; PhpFreeHandleTableLevel2 m a) = Some m' /\
    emptied m m' bs ts [a].
Proof.
  intros Hm Hrep Hsub Hnd Hnd1 Hz Hz1 Hlen Hlb Hlive. change (Z.to_nat PH_HANDLE_TABLE_LEVEL_ENTRIES) with 256%nat. change 0 with (Z.of_nat 0).
  destruct (free_children_spec (fun m i => load2 m a i) free_level1 ts (fun k m' => emptied m m' (take (256 * k) bs) (take k ts) [])) with (n := 256%nat) (k := 0%nat) (m := m)
    as (m1 & -> & He); [| |done|done|lia|lia|by apply emptied_refl|].
  - intros k m' (_ & _ & _ & H2' & _) Hk. unfold load2, load. rewrite (removed_lookup _ _ _ _ H2' (not_elem_of_nil a)), Hrep. cbn [mbind option_bind]. by rewrite Nat2Z.id.
  - intros k m' b Hb He. pose proof He as (Hm' & H0' & H1' & _).
    destruct (free_level1_spec m' b (chunk k bs)) as (m2 & -> & He2); [done| |by apply NoDup_chunk|intros ?%elem_of_chunk; done|rewrite chunk_length; lia| |].
    + unfold level1_rep. rewrite (removed_lookup _ _ _ _ H1' (NoDup_take_lookup _ _ _ Hnd1 Hb)). by apply Hsub.
    + intros c Hc. rewrite (removed_lookup _ _ _ _ H0') by (by apply chunk_not_taken). apply Hlive. by eapply elem_of_chunk.
    + exists m2. split; [done|]. rewrite take_chunk, (take_S_r _ _ _ Hb). by apply (emptied_app m m' m2 _ _ [] _ _ []).
  - cbn [mbind option_bind]. rewrite !take_ge in He by lia. pose proof He as (Hm1 & _ & _ & H2' & _).
    destruct (free2_spec m1 a (pad_slots ts) Hm1) as (m2 & -> & Hm2 & F0 & F1 & F2 & Fst); [by rewrite (removed_lookup _ _ _ _ H2' (not_elem_of_nil a))|].
    exists m2. split; [done|]. rewrite <- (app_nil_r bs), <- (app_nil_r ts). apply (emptied_app m m1 m2 bs ts [] [] [] [a]); [done|].
    split; [done|]. split; [rewrite F0; apply removed_nil|]. split; [rewrite F1; apply removed_nil|]. split; [rewrite F2; apply removed_delete|done].
Qed.

(** Destruction gives back every block of the table, and the structure [a]. *)
Lemma destroy_table_spec m0 t m s E a : layout m0 t m s E -> a ∈ owned Structure (pool m0) ->
  exists m', PhDestroyHandleTable a t m = Some m' /\ mem_wf m' /\
    table0 m' = table0 m0 /\ table1 m' = table1 m0 /\ table2 m' = table2 m0 /\ owned Structure (pool m') = owned Structure (pool m0) ∖ {[a]}.
Proof.
  intros HL Ha. pose proof HL as [Hm Htree [Hn0 Hn1 Hz0 Hz1] (Ho0 & Ho1 & Ho2 & Ho3) Hview Hn Hs]. unfold PhDestroyHandleTable. cbv zeta.
  pose proof (fun b => layout_live _ _ _ _ _ b HL) as Hlive.
  assert (He : exists m1, (if level_of (TableValue t) =? 0 then PhpFreeHandleTableLevel0 m (TableValue t - level_of (TableValue t))
     else if level_of (TableValue t) =? 1 then free_level1 m (TableValue t - level_of (TableValue t))
     else if level_of (TableValue t) =? 2 then m ← free_children (Z.to_nat PH_HANDLE_TABLE_LEVEL_ENTRIES) (fun m i => load2 m (TableValue t - level_of (TableValue t)) i) free_level1 0 m;
       PhpFreeHandleTableLevel2 m (TableValue t - level_of (TableValue t)) else None) = Some m1 /\ emptied m m1 (tables0 s) (tables1 s) (tables2 s)).
  { destruct Htree as [Hal|b bs Hal Htv Hlen Hrep|b ts bs Hal Htv Hlen Hl1 Hl2 Hl3 Ht2 Hrep]; cbn [tables0 tables1 tables2] in *.
    - destruct (tagged_0 _ Hal) as [-> ->]. cbn [Z.eqb]. destruct (Hlive (TableValue t)) as [l Hl]; [by apply list_elem_of_singleton|].
      destruct (free0_spec m _ l Hm Hl) as (m2 & -> & Hm2 & F0 & F1 & F2 & Fst). exists m2. split; [done|].
      split; [done|]. split; [rewrite F0; apply removed_delete|]. split; [rewrite F1; apply removed_nil|]. split; [rewrite F2; apply removed_nil|done].
    - rewrite Htv. destruct (tagged b 1 Hal ltac:(lia)) as [-> ->]. cbn [Z.eqb Pos.eqb]. apply free_level1_spec; [done..|lia|done].
    - rewrite Htv. destruct (tagged b 2 Hal ltac:(lia)) as [-> ->]. cbn [Z.eqb Pos.eqb]. by apply free_level2_spec. }
  destruct He as (m1 & -> & Hm1 & R0 & R1 & R2 & Rst). cbn [mbind option_bind]. pose proof Hm1 as [Ha1 Hc0 Hc1 Hc2].
  destruct (give_back_owned Structure a (pool m1) Ha1) as (q & -> & Hown & Hq & Hk); [by rewrite Rst, Ho3|]. cbn [mbind option_bind].
  eexists. split; [done|]. cbn [pool table0 table1 table2]. split; [split; cbn [pool table0 table1 table2]; [done|by rewrite Hk..]|].
  split; [by eapply removed_out|]. split; [by eapply removed_out|]. split; [by eapply removed_out|]. by rewrite Hown, Rst, Ho3.
Qed.


(** ** Enumeration

    The handles in use from [v] on, in increasing order. *)
Definition in_use (M : gmap Z (Z * Z * bool)) (v n : Z) : list (Z * (Z * Z * bool)) :=
  omap (fun v => x ← M !! v; Some (v, x)) (seqZ v (n - v)).

Lemma in_use_cons M v n : v < n -> in_use M v n = match M !! v with Some x => (v, x) :: in_use M (v + 1) n | None => in_use M (v + 1) n end.
Proof.
  intros Hv. unfold in_use. rewrite seqZ_cons by lia. simpl omap. destruct (M !! v) as [x|]; simpl; by replace (Z.pred (n - v)) with (n - (v + 1)) by lia.
Qed.

(** One callback after another, until one answers FALSE or a locked entry makes the caller wait. *)
Fixpoint enum_calls {St} (Callback : Z -> PH_HANDLE_TABLE_ENTRY -> St -> St * bool) (l : list (Z * (Z * Z * bool))) (st : St) : option St :=
  match l with
  | [] => Some st
  | (_, (_, _, true)) :: _ => None
  | (v, (o, v2, false)) :: l =>
      let '(st, cont) := Callback (PhpEncodeHandle v) {| Value := 4 * o; Value2 := v2 |} st in
      if cont : bool then enum_calls Callback l st else Some st
  end.

Fixpoint sweep_calls {St} (Callback : Z -> PH_HANDLE_TABLE_ENTRY -> St -> St * bool) (l : list (Z * (Z * Z * bool))) (st : St) : St :=
  match l with
  | [] => st
  | (v, (o, v2, locked)) :: l =>
      let '(st, cont) := Callback (PhpEncodeHandle v) {| Value := 4 * o + (if locked : bool then 0 else 2); Value2 := v2 |} st in
      if cont : bool then sweep_calls Callback l st else st
  end.


Lemma set_entry_twice m m' p e e' e0 : get_entry m p = Some e0 -> set_entry m p e = Some m' ->
  get_entry m' p = Some e /\ set_entry m' p e' = set_entry m p e' /\ set_entry m p e0 = Some m.
Proof.
  unfold get_entry, set_entry. destruct (table0 m !! p.1) as [l|] eqn:El; [|done]. cbn [mbind option_bind]. intros He. rewrite He. cbn [mbind option_bind].
  intros [= <-]. cbn [table0 pool table1 table2]. rewrite lookup_insert_eq. cbn [mbind option_bind].
  pose proof (lookup_lt_Some _ _ _ He) as Hlt. rewrite list_lookup_insert_eq by done. cbn [mbind option_bind].
  split; [done|]. split; [by rewrite list_insert_insert_eq, insert_insert_eq|]. rewrite list_insert_id, insert_id by done. by destruct m.
Qed.

(** Locking and unlocking leaves the memory as it was. *)
Lemma lock_unlock m p o v2 : get_entry m p = Some {| Value := 4 * o + 2; Value2 := v2 |} ->
  exists m1, PhLockHandleTableEntry m p = Some (m1, Locked) /\ get_entry m1 p = Some {| Value := 4 * o; Value2 := v2 |} /\
    PhUnlockHandleTableEntry m1 p = Some m.
Proof.
  intros Hg. rewrite (lock_spec m p _ Hg), shown_unlocked, lock_word.
  destruct (set_entry m p {| Value := 4 * o; Value2 := v2 |}) as [m1|] eqn:Es.
  - cbn [mbind option_bind]. destruct (set_entry_twice m m1 p _ {| Value := 4 * o + 2; Value2 := v2 |} _ Hg Es) as (Hg1 & Heq & Hid).
    exists m1. split; [done|]. split; [done|]. unfold PhUnlockHandleTableEntry. rewrite Hg1. cbn [mbind option_bind]. unfold set_Value. cbn [Value Value2].
    change PH_HANDLE_TABLE_ENTRY_LOCKED_SHIFT with 1. replace (4 * o) with (4 * o + 0) by lia. rewrite (setbit_1 o true). congruence.
  - exfalso. unfold get_entry, set_entry in *. destruct (table0 m !! p.1); [|done]. cbn [mbind option_bind] in *. by rewrite Hg in Es.
Qed.

Lemma handle_enum_loop {St} (Callback : Z -> PH_HANDLE_TABLE_ENTRY -> St -> St * bool) m0 t m s E free alt M : table_wf m0 t m s E free alt -> shows E M ->
  forall fuel v st, 0 <= v <= NextValue t -> (Z.to_nat (NextValue t - v) < fuel)%nat ->
  enum_handles fuel Callback t m v st = Some (option_map (pair m) (enum_calls Callback (in_use M v (NextValue t)) st)).
Proof.
  intros Hwf HM. destruct (layout_bound _ _ _ _ _ (proj1 Hwf)) as [Hb HlE].
  induction fuel as [|fuel IH]; intros v st Hv Hfuel; [lia|]. cbn [enum_handles].
  destruct (Z.eq_dec v (NextValue t)) as [->|Hne].
  - rewrite (lookup_beyond t m _ (Z.le_refl _)). cbn [mbind option_bind]. unfold in_use. by rewrite Z.sub_diag.
  - rewrite in_use_cons by lia. assert (Hnx : v +₃₂ 1 = v + 1) by (apply u32_id; unfold in_width; lia). rewrite Hnx.
    destruct (layout_entry _ _ _ _ _ v (proj1 Hwf) ltac:(lia)) as (p & e & -> & Hp & He & Hg). cbn [mbind option_bind].
    rewrite (shows_lookup E M v e HM ltac:(lia) He). destruct (shown e) as [[[o v2] []]|] eqn:Es.
    + rewrite (lock_spec m p e Hg), Es. done.
    + apply shown_Some in Es as ->. destruct (lock_unlock m p o v2 Hg) as (m1 & -> & Hg1 & Hu). cbn [mbind option_bind]. rewrite Hg1. cbn [mbind option_bind enum_calls].
      destruct (Callback _ _ st) as [st' cont]. rewrite Hu. cbn [mbind option_bind]. destruct cont; [|done]. cbn [negb]. apply IH; lia.
    + rewrite (lock_spec m p e Hg), Es. cbn [mbind option_bind]. apply IH; lia.
Qed.

Lemma sweep_loop_spec {St} (Callback : Z -> PH_HANDLE_TABLE_ENTRY -> St -> St * bool) m0 t m s E free alt M : table_wf m0 t m s E free alt -> shows E M ->
  forall fuel v st, 0 <= v <= NextValue t -> (Z.to_nat (NextValue t - v) < fuel)%nat ->
  sweep_loop fuel Callback t m v st = Some (sweep_calls Callback (in_use M v (NextValue t)) st).
Proof.
  intros Hwf HM. destruct (layout_bound _ _ _ _ _ (proj1 Hwf)) as [Hb HlE].
  induction fuel as [|fuel IH]; intros v st Hv Hfuel; [lia|]. cbn [sweep_loop].
  destruct (Z.eq_dec v (NextValue t)) as [->|Hne].
  - rewrite (lookup_beyond t m _ (Z.le_refl _)). cbn [mbind option_bind]. unfold in_use. by rewrite Z.sub_diag.
  - rewrite in_use_cons by lia. assert (Hnx : v +₃₂ 1 = v + 1) by (apply u32_id; unfold in_width; lia). rewrite Hnx.
    destruct (layout_entry _ _ _ _ _ v (proj1 Hwf) ltac:(lia)) as (p & e & -> & Hp & He & Hg). cbn [mbind option_bind]. rewrite Hg. cbn [mbind option_bind].
    rewrite (shows_lookup E M v e HM ltac:(lia) He). destruct (shown e) as [[[o v2] b]|] eqn:Es.
    + assert (Hty : (Type_of e =? PH_HANDLE_TABLE_ENTRY_IN_USE) = true) by (unfold shown in Es; by destruct (Type_of e =? _)). rewrite Hty.
      apply shown_Some in Es. cbn [sweep_calls]. rewrite <- Es. destruct (Callback _ _ st) as [st' []]; cbn [negb]; [|done]. apply IH; lia.
    + assert (Hty : (Type_of e =? PH_HANDLE_TABLE_ENTRY_IN_USE) = false) by (unfold shown in Es; by destruct (Type_of e =? _)). rewrite Hty. apply IH; lia.
Qed.


End proofs.

End HandleTable.
