(* ===== verification/HandleHeap.v ===== *)
(** * The memory of handle tables

    The two free lists of [phlib/handle.c] and the process heap, as an [Allocator] for the blocks of
    a handle table. The lists are the ones of [FreeList]; the blocks of the four kinds differ in
    size, which keeps them apart in the heap. *)

From S2P Require Import Prelude FreeList HandleTable.

Module HandleHeap.

(** The sizes on a 64-bit system. *)
Definition sizeof_LEVEL0 : Z := 16 * HandleTable.PH_HANDLE_TABLE_LEVEL_ENTRIES.
Definition sizeof_LEVEL1 : Z := 8 * HandleTable.PH_HANDLE_TABLE_LEVEL_ENTRIES.
Definition sizeof_LEVEL2 : Z := 8 * HandleTable.PH_HANDLE_TABLE_LEVEL_ENTRIES.
Definition sizeof_PH_HANDLE_TABLE : Z := 112.

(** The heap and the two static lists, and which blocks [handle.c] has in use: the last part is only
    recorded for the theorems, no operation reads it. *)
Record pools := {
  process_heap : FreeList.heap;
  PhHandleTableLevel0FreeList : FreeList.PH_FREE_LIST;
  PhHandleTableLevel1FreeList : FreeList.PH_FREE_LIST;
  used : HandleTable.kind -> gset Z;
}.

Definition mark (u : HandleTable.kind -> gset Z) (k : HandleTable.kind) (s : gset Z) : HandleTable.kind -> gset Z :=
  fun k' => if decide (k' = k) then s else u k'.

Lemma mark_eq u k s : mark u k s k = s.
Proof. unfold mark. by rewrite decide_True. Qed.
Lemma mark_ne u k s k' : k' <> k -> mark u k s k' = u k'.
Proof. intros Hk. unfold mark. by rewrite decide_False. Qed.

(** The lists as PhCreateHandleTable initializes them the first time. *)
Definition initial_pools (h : FreeList.heap) : pools := {|
  process_heap := h;
  PhHandleTableLevel0FreeList := FreeList.PhInitializeFreeList sizeof_LEVEL0 64;
  PhHandleTableLevel1FreeList := FreeList.PhInitializeFreeList sizeof_LEVEL1 64;
  used := fun _ => ∅;
|}.

Section heap.
Context `{Heap}.

(** The calls of [handle.c]; an exception of the free lists' allocation is caught and becomes NULL. *)
Definition take_block (k : HandleTable.kind) (s : pools) : pools * option Z :=
  let add a := mark (used s) k ({[a]} ∪ used s k) in
  match k with
  | HandleTable.Level0 =>
      let '(h, f, r) := FreeList.PhAllocateFromFreeList (process_heap s) (PhHandleTableLevel0FreeList s) in
      ({| process_heap := h; PhHandleTableLevel0FreeList := f; PhHandleTableLevel1FreeList := PhHandleTableLevel1FreeList s;
          used := match r with Some a => add a | None => used s end |}, r)
  | HandleTable.Level1 =>
      let '(h, f, r) := FreeList.PhAllocateFromFreeList (process_heap s) (PhHandleTableLevel1FreeList s) in
      ({| process_heap := h; PhHandleTableLevel0FreeList := PhHandleTableLevel0FreeList s; PhHandleTableLevel1FreeList := f;
          used := match r with Some a => add a | None => used s end |}, r)
  | HandleTable.Level2 | HandleTable.Structure =>
      let '(h, r) := FreeList.PhAllocateSafe (process_heap s) (if decide (k = HandleTable.Level2) then sizeof_LEVEL2 else sizeof_PH_HANDLE_TABLE) in
      ({| process_heap := h; PhHandleTableLevel0FreeList := PhHandleTableLevel0FreeList s; PhHandleTableLevel1FreeList := PhHandleTableLevel1FreeList s;
          used := match r with Some a => add a | None => used s end |}, r)
  end.

Definition drop_block (k : HandleTable.kind) (a : Z) (s : pools) : ub pools :=
  let rest := mark (used s) k (used s k ∖ {[a]}) in
  match k with
  | HandleTable.Level0 =>
      '(h, f) ← FreeList.PhFreeToFreeList (process_heap s) (PhHandleTableLevel0FreeList s) a;
      Some {| process_heap := h; PhHandleTableLevel0FreeList := f; PhHandleTableLevel1FreeList := PhHandleTableLevel1FreeList s; used := rest |}
  | HandleTable.Level1 =>
      '(h, f) ← FreeList.PhFreeToFreeList (process_heap s) (PhHandleTableLevel1FreeList s) a;
      Some {| process_heap := h; PhHandleTableLevel0FreeList := PhHandleTableLevel0FreeList s; PhHandleTableLevel1FreeList := f; used := rest |}
  | HandleTable.Level2 | HandleTable.Structure =>
      h ← FreeList.PhFree (process_heap s) a;
      Some {| process_heap := h; PhHandleTableLevel0FreeList := PhHandleTableLevel0FreeList s;
              PhHandleTableLevel1FreeList := PhHandleTableLevel1FreeList s; used := rest |}
  end.

(** Blocks of the heap itself, in use, of size [n]. *)
Definition direct_wf (h : FreeList.heap) (n : Z) (out : gset Z) : Prop :=
  forall a, a ∈ out -> FreeList.blocks h !! a = Some n /\ 0 < a /\ a mod 16 = 0.

Record pools_wf (s : pools) : Prop := {
  wf_size0 : FreeList.Size (PhHandleTableLevel0FreeList s) = sizeof_LEVEL0;
  wf_size1 : FreeList.Size (PhHandleTableLevel1FreeList s) = sizeof_LEVEL1;
  wf_list0 : FreeList.list_wf (process_heap s) (PhHandleTableLevel0FreeList s) (used s HandleTable.Level0);
  wf_list1 : FreeList.list_wf (process_heap s) (PhHandleTableLevel1FreeList s) (used s HandleTable.Level1);
  wf_direct2 : direct_wf (process_heap s) sizeof_LEVEL2 (used s HandleTable.Level2);
  wf_structure : direct_wf (process_heap s) sizeof_PH_HANDLE_TABLE (used s HandleTable.Structure);
}.

#[global] Instance pools_allocator : Allocator pools HandleTable.kind := {
  obtain := take_block; give_back := drop_block; owned := fun k s => used s k; alloc_wf := pools_wf;
}.

(** [h'] has the blocks of [h] whose size is not [n]. *)
Definition others_kept (n : Z) (h h' : FreeList.heap) : Prop :=
  forall a x, x <> n -> FreeList.blocks h !! a = Some x -> FreeList.blocks h' !! a = Some x.

Lemma subset_kept n h h' : FreeList.blocks h ⊆ FreeList.blocks h' -> others_kept n h h'.
Proof. intros Hs a x _ Ha. by eapply lookup_weaken. Qed.
Lemma delete_kept n h h' a : FreeList.blocks h !! a = Some n -> FreeList.blocks h' = delete a (FreeList.blocks h) -> others_kept n h h'.
Proof. intros Ha E b x Hx Hb. rewrite E. rewrite lookup_delete_ne; [done|]. intros ->. congruence. Qed.

Lemma list_kept n h h' f out : others_kept n h h' -> FreeList.Body_offset + FreeList.Size f <> n ->
  FreeList.list_wf h f out -> FreeList.list_wf h' f out.
Proof.
  intros Hk Hn [Hc Hm Hd Hca Hb]. split; [done..|]. intros e He. destruct (Hb e He) as (Hbe & Hpos & Hal). split; [|done]. by eapply Hk.
Qed.
Lemma direct_kept n h h' k out : others_kept n h h' -> k <> n -> direct_wf h k out -> direct_wf h' k out.
Proof. intros Hk Hn Hd a Ha. destruct (Hd a Ha) as (Hb & Hpos & Hal). split; [|done]. by eapply Hk. Qed.

Lemma list_wf_initial h n k : 0 <= k < 2 ^ 32 -> FreeList.list_wf h (FreeList.PhInitializeFreeList n k) ∅.
Proof.
  intros Hk. split; cbn [FreeList.PhInitializeFreeList FreeList.Count FreeList.ListHead FreeList.MaximumCount length]; [done|lia|by apply NoDup_nil| |].
  - by intros e ?%elem_of_nil.
  - by intros e [?%elem_of_nil|?%elem_of_empty].
Qed.

Lemma pools_wf_initial h : pools_wf (initial_pools h).
Proof. split; [done|done|by apply list_wf_initial|by apply list_wf_initial|by intros a ?%elem_of_empty|by intros a ?%elem_of_empty]. Qed.

(** Three of the four shares do not notice an operation on the fourth. *)
Lemma pools_wf_step k s s' n :
  n = match k with HandleTable.Level0 => FreeList.Body_offset + sizeof_LEVEL0 | HandleTable.Level1 => FreeList.Body_offset + sizeof_LEVEL1
              | HandleTable.Level2 => sizeof_LEVEL2 | HandleTable.Structure => sizeof_PH_HANDLE_TABLE end ->
  pools_wf s -> others_kept n (process_heap s) (process_heap s') -> (forall k', k' <> k -> used s' k' = used s k') ->
  match k with
  | HandleTable.Level0 => PhHandleTableLevel1FreeList s' = PhHandleTableLevel1FreeList s /\ FreeList.Size (PhHandleTableLevel0FreeList s') = sizeof_LEVEL0 /\ FreeList.list_wf (process_heap s') (PhHandleTableLevel0FreeList s') (used s' k)
  | HandleTable.Level1 => PhHandleTableLevel0FreeList s' = PhHandleTableLevel0FreeList s /\ FreeList.Size (PhHandleTableLevel1FreeList s') = sizeof_LEVEL1 /\ FreeList.list_wf (process_heap s') (PhHandleTableLevel1FreeList s') (used s' k)
  | _ => PhHandleTableLevel0FreeList s' = PhHandleTableLevel0FreeList s /\ PhHandleTableLevel1FreeList s' = PhHandleTableLevel1FreeList s /\ direct_wf (process_heap s') n (used s' k)
  end -> pools_wf s'.
Proof.
  intros Hn [W0 W1 L0 L1 D2 D3] Hk Hu Hown.
  destruct k; destruct Hown as (E1 & E2 & Hown); (split; [congruence|congruence|..]); rewrite ?E1, ?E2, ?Hu by done; subst n;
    (done || (eapply list_kept; [exact Hk| |done]; rewrite ?W0, ?W1; done) || (eapply direct_kept; [exact Hk| |done]; done)).
Qed.

Context `{!HeapLaws}.

Lemma take_block_some k s s' a : pools_wf s -> take_block k s = (s', Some a) ->
  (a ∉ used s k) /\ used s' k = {[a]} ∪ used s k /\ 0 < a /\ a mod 16 = 0 /\ pools_wf s' /\ forall k', k' <> k -> used s' k' = used s k'.
Proof.
  intros Hwf. pose proof Hwf as [W0 W1 L0 L1 D2 D3].
  assert (Hlist : forall f h' f' r, FreeList.list_wf (process_heap s) f (used s k) -> FreeList.PhAllocateFromFreeList (process_heap s) f = (h', f', Some r) ->
    (r ∉ used s k) /\ 0 < r /\ r mod 16 = 0 /\ FreeList.list_wf h' f' ({[r]} ∪ used s k) /\ (forall n, others_kept n (process_heap s) h') /\ FreeList.Size f' = FreeList.Size f).
  { intros f h' f' r Hf Hr. destruct (FreeList.free_list_allocate _ _ _ _ _ _ Hf Hr) as ((H1' & H2' & H3' & H4' & _) & Hs & Hz). do 4 (split; [done|]).
    split; [intros n; by apply subset_kept|done]. }
  assert (Hdirect : forall n h' r, direct_wf (process_heap s) n (used s k) -> FreeList.PhAllocateSafe (process_heap s) n = (h', Some r) ->
    (r ∉ used s k) /\ 0 < r /\ r mod 16 = 0 /\ direct_wf h' n ({[r]} ∪ used s k) /\ (forall n, others_kept n (process_heap s) h')).
  { intros n h' r Hd Hr. destruct (FreeList.allocate_new _ _ _ _ Hr) as (Hf & Hb & Hpos & Hal).
    split; [intros Hin; destruct (Hd r Hin) as (? & _); congruence|]. split; [done|]. split; [done|].
    split; [|intros n'; apply subset_kept; rewrite Hb; by apply insert_subseteq].
    intros a' [->%elem_of_singleton|Ha']%elem_of_union; rewrite Hb; [by rewrite lookup_insert_eq|].
    destruct (Hd a' Ha') as (Hb' & ? & ?). rewrite lookup_insert_ne by (intros ->; congruence). done. }
  destruct k; unfold take_block; cbv zeta;
    [destruct (FreeList.PhAllocateFromFreeList _ _) as [[h f] r] eqn:Er|destruct (FreeList.PhAllocateFromFreeList _ _) as [[h f] r] eqn:Er
    |destruct (FreeList.PhAllocateSafe _ _) as [h r] eqn:Er|destruct (FreeList.PhAllocateSafe _ _) as [h r] eqn:Er]; intros [= <- ->]; cbn [used].
  all: rewrite mark_eq.
  - destruct (Hlist _ _ _ _ L0 Er) as (Hn & Hpos & Hal & Hl & Hk & Hz). do 4 (split; [done|]). split; [|by intros; apply mark_ne].
    eapply (pools_wf_step HandleTable.Level0); [reflexivity|done|apply Hk|by intros; apply mark_ne|]. cbn. rewrite mark_eq. split; [done|]. split; [congruence|done].
  - destruct (Hlist _ _ _ _ L1 Er) as (Hn & Hpos & Hal & Hl & Hk & Hz). do 4 (split; [done|]). split; [|by intros; apply mark_ne].
    eapply (pools_wf_step HandleTable.Level1); [reflexivity|done|apply Hk|by intros; apply mark_ne|]. cbn. rewrite mark_eq. split; [done|]. split; [congruence|done].
  - destruct (Hdirect _ _ _ D2 Er) as (Hn & Hpos & Hal & Hl & Hk). do 4 (split; [done|]). split; [|by intros; apply mark_ne].
    eapply (pools_wf_step HandleTable.Level2); [reflexivity|done|apply Hk|by intros; apply mark_ne|]. cbn. rewrite mark_eq. split; [done|]. split; [done|exact Hl].
  - destruct (Hdirect _ _ _ D3 Er) as (Hn & Hpos & Hal & Hl & Hk). do 4 (split; [done|]). split; [|by intros; apply mark_ne].
    eapply (pools_wf_step HandleTable.Structure); [reflexivity|done|apply Hk|by intros; apply mark_ne|]. cbn. rewrite mark_eq. split; [done|]. split; [done|exact Hl].
Qed.

Lemma take_block_none k s s' : pools_wf s -> take_block k s = (s', None) -> pools_wf s' /\ forall k', used s' k' = used s k'.
Proof.
  intros Hwf. pose proof Hwf as [W0 W1 L0 L1 D2 D3].
  assert (Hstep : forall h, FreeList.blocks h = FreeList.blocks (process_heap s) ->
    pools_wf {| process_heap := h; PhHandleTableLevel0FreeList := PhHandleTableLevel0FreeList s; PhHandleTableLevel1FreeList := PhHandleTableLevel1FreeList s; used := used s |}).
  { intros h Hh. assert (Hk : forall n, others_kept n (process_heap s) h) by (intros n; apply subset_kept; by rewrite Hh).
    split; cbn [process_heap PhHandleTableLevel0FreeList PhHandleTableLevel1FreeList used]; [done|done|..].
    - eapply (list_kept 0); [apply Hk|by rewrite W0|done].
    - eapply (list_kept 0); [apply Hk|by rewrite W1|done].
    - by eapply (direct_kept 0); [apply Hk|..].
    - by eapply (direct_kept 0); [apply Hk|..]. }
  destruct k; unfold take_block; cbv zeta;
    [destruct (FreeList.PhAllocateFromFreeList _ _) as [[h f] r] eqn:Er|destruct (FreeList.PhAllocateFromFreeList _ _) as [[h f] r] eqn:Er
    |destruct (FreeList.PhAllocateSafe _ _) as [h r] eqn:Er|destruct (FreeList.PhAllocateSafe _ _) as [h r] eqn:Er]; intros [= <- ->]; (split; [|done]).
  - destruct (FreeList.free_list_allocate _ _ _ _ _ _ L0 Er) as ((-> & _ & Hb) & _). by apply Hstep.
  - destruct (FreeList.free_list_allocate _ _ _ _ _ _ L1 Er) as ((-> & _ & Hb) & _). by apply Hstep.
  - apply Hstep. by pose proof (FreeList.allocate_new _ _ _ _ Er).
  - apply Hstep. by pose proof (FreeList.allocate_new _ _ _ _ Er).
Qed.

Lemma free_to_list_kept h f out a h' f' : FreeList.list_wf h f out -> a ∈ out -> FreeList.PhFreeToFreeList h f a = Some (h', f') ->
  others_kept (FreeList.Body_offset + FreeList.Size f) h h'.
Proof.
  intros Hwf Ha. unfold FreeList.PhFreeToFreeList. destruct (_ <? _); [intros Hf; injection Hf as -> _; by apply subset_kept|]. unfold FreeList.PhFree.
  destruct (FreeList.list_heap _ _ _ Hwf (a - FreeList.Body_offset)) as (Hb & _); [right; by replace (a - FreeList.Body_offset + FreeList.Body_offset) with a by lia|].
  rewrite Hb. cbn [mbind option_bind]. intros [= <- _]. by eapply delete_kept.
Qed.

Lemma free_direct h n out a : direct_wf h n out -> a ∈ out ->
  exists h', FreeList.PhFree h a = Some h' /\ direct_wf h' n (out ∖ {[a]}) /\ others_kept n h h'.
Proof.
  intros Hd Ha. destruct (Hd a Ha) as (Hb & _). unfold FreeList.PhFree. rewrite Hb. cbn [mbind option_bind]. eexists. split; [done|]. split.
  - intros b [Hbo Hne%not_elem_of_singleton]%elem_of_difference. cbn [FreeList.blocks]. rewrite lookup_delete_ne by done. by apply Hd.
  - by eapply delete_kept.
Qed.

Lemma drop_block_owned k a s : pools_wf s -> a ∈ used s k ->
  exists s', drop_block k a s = Some s' /\ used s' k = used s k ∖ {[a]} /\ pools_wf s' /\ forall k', k' <> k -> used s' k' = used s k'.
Proof.
  intros Hwf Ha. pose proof Hwf as [W0 W1 L0 L1 D2 D3]. destruct k; unfold drop_block; cbv zeta.
  - destruct (FreeList.free_list_free _ _ _ _ L0 Ha) as (h & f & Hf & Hl & Hz & _). rewrite Hf. cbn [mbind option_bind]. eexists. split; [done|]. cbn [used]. rewrite mark_eq.
    split; [done|]. split; [|by intros; apply mark_ne].
    eapply (pools_wf_step HandleTable.Level0); [reflexivity|done|rewrite <- W0; by eapply free_to_list_kept|by intros; apply mark_ne|]. cbn. rewrite mark_eq. split; [done|]. split; [congruence|done].
  - destruct (FreeList.free_list_free _ _ _ _ L1 Ha) as (h & f & Hf & Hl & Hz & _). rewrite Hf. cbn [mbind option_bind]. eexists. split; [done|]. cbn [used]. rewrite mark_eq.
    split; [done|]. split; [|by intros; apply mark_ne].
    eapply (pools_wf_step HandleTable.Level1); [reflexivity|done|rewrite <- W1; by eapply free_to_list_kept|by intros; apply mark_ne|]. cbn. rewrite mark_eq. split; [done|]. split; [congruence|done].
  - destruct (free_direct _ _ _ _ D2 Ha) as (h & -> & Hl & Hk). cbn [mbind option_bind]. eexists. split; [done|]. cbn [used]. rewrite mark_eq.
    split; [done|]. split; [|by intros; apply mark_ne].
    eapply (pools_wf_step HandleTable.Level2); [reflexivity|done|exact Hk|by intros; apply mark_ne|]. cbn. rewrite mark_eq. split; [done|]. split; [done|exact Hl].
  - destruct (free_direct _ _ _ _ D3 Ha) as (h & -> & Hl & Hk). cbn [mbind option_bind]. eexists. split; [done|]. cbn [used]. rewrite mark_eq.
    split; [done|]. split; [|by intros; apply mark_ne].
    eapply (pools_wf_step HandleTable.Structure); [reflexivity|done|exact Hk|by intros; apply mark_ne|]. cbn. rewrite mark_eq. split; [done|]. split; [done|exact Hl].
Qed.

#[global] Instance pools_laws : AllocatorLaws pools HandleTable.kind.
Proof.
  split; [exact take_block_some|exact take_block_none|].
  intros k a s Hwf Ha. destruct (drop_block_owned k a s Hwf Ha) as (s' & Hd & Hu & Hw & Ho). by exists s'.
Qed.

End heap.

End HandleHeap.
