(* ===== verification/HandleSpec.v ===== *)
(** * What a handle table promises

    The calls of [HandleTable] against a map from the handle values in use to their entries, along
    every sequence of calls on a table; the order in which handles are used again; and the memory
    after the table's destruction. *)

From S2P Require Import Prelude FreeList HandleTable HandleHeap.

Module HandleSpec.
Import HandleTable.

(** A call on a handle table. [UnlockEntry] and [DestroyLocked] are made with the entry that a lookup
    of the handle returned. *)
Inductive call :=
  | Create (e : PH_HANDLE_TABLE_ENTRY)
  | Lookup (h : Z)
  | UnlockEntry (h : Z)
  | Destroy (h : Z) (acquired : bool)
  | DestroyLocked (h : Z) (acquired : bool)
  | SetFlags (flags : Z).

Inductive answer :=
  | Created (h : Z)
  | NoHandle
  | Entry (e : PH_HANDLE_TABLE_ENTRY)
  | NoEntry
  | Unlocked
  | Destroyed
  | NotDestroyed
  | Status (status : Z).

(** An object, the second word, and whether the entry is locked. *)
Abbreviation content := (Z * Z * bool)%type.
Abbreviation contents := (gmap Z (Z * Z * bool)).

(** What a caller must respect: it unlocks and destroys by entry what it has locked. *)
Definition permitted (M : contents) (c : call) : Prop :=
  match c with
  | UnlockEntry h | DestroyLocked h _ => exists o v2, M !! PhpDecodeHandle h = Some (o, v2, true)
  | _ => True
  end.

(** When a call waits for the thread that has the entry locked. *)
Definition must_wait (M : contents) (c : call) : Prop :=
  match c with Lookup h | Destroy h _ => exists o v2, M !! PhpDecodeHandle h = Some (o, v2, true) | _ => False end.

(** The specification of a call: its answer and the map after it. [nomem] says that an allocation can
    fail. *)
Inductive promises (nomem : Prop) (M : contents) : call -> answer -> contents -> Prop :=
  | promise_created e v : 0 <= v < 2 ^ 24 -> M !! v = None ->
      promises nomem M (Create e) (Created (PhpEncodeHandle v)) (<[v := (Object_of e, Value2 e, false)]> M)
  | promise_full e : nomem \/ (forall v, 0 <= v < 2 ^ 24 -> is_Some (M !! v)) -> promises nomem M (Create e) NoHandle M
  | promise_entry h o v2 : M !! PhpDecodeHandle h = Some (o, v2, false) ->
      promises nomem M (Lookup h) (Entry {| Value := 4 * o; Value2 := v2 |}) (<[PhpDecodeHandle h := (o, v2, true)]> M)
  | promise_no_entry h : M !! PhpDecodeHandle h = None -> promises nomem M (Lookup h) NoEntry M
  | promise_unlocked h o v2 : M !! PhpDecodeHandle h = Some (o, v2, true) ->
      promises nomem M (UnlockEntry h) Unlocked (<[PhpDecodeHandle h := (o, v2, false)]> M)
  | promise_destroyed h acquired o v2 : M !! PhpDecodeHandle h = Some (o, v2, false) ->
      promises nomem M (Destroy h acquired) Destroyed (delete (PhpDecodeHandle h) M)
  | promise_not_destroyed h acquired : M !! PhpDecodeHandle h = None -> promises nomem M (Destroy h acquired) NotDestroyed M
  | promise_destroyed_locked h acquired o v2 : M !! PhpDecodeHandle h = Some (o, v2, true) ->
      promises nomem M (DestroyLocked h acquired) Destroyed (delete (PhpDecodeHandle h) M)
  | promise_flags flags : promises nomem M (SetFlags flags)
      (Status (if (Z.land flags PH_HANDLE_TABLE_VALID_FLAGS =? flags) then STATUS_SUCCESS else STATUS_INVALID_PARAMETER)) M.

Section spec.
Context {S : Type} `{AllocatorLaws S kind}.
Context (uninitialized : Z -> Z -> PH_HANDLE_TABLE_ENTRY).
Abbreviation mem := (@mem S).
Implicit Types (m : mem) (t : TABLE) (M : contents) (c : call).

(** The call as the program makes it; [None] inside when it waits. *)
Definition perform c t m : ub (option (TABLE * mem * answer)) :=
  match c with
  | Create e =>
      '(t, m, h) ← PhCreateHandle uninitialized t m e;
      Some (Some (t, m, match h with Some h => Created h | None => NoHandle end))
  | Lookup h =>
      r ← PhLookupHandleTableEntry t m h;
      match r with
      | None => Some None
      | Some (m, None) => Some (Some (t, m, NoEntry))
      | Some (m, Some p) => e ← get_entry m p; Some (Some (t, m, Entry e))
      end
  | UnlockEntry h =>
      p ← PhpLookupHandleTableEntry t m (PhpDecodeHandle h); p ← p;
      m ← PhUnlockHandleTableEntry m p; Some (Some (t, m, Unlocked))
  | Destroy h acquired =>
      r ← PhDestroyHandle t m h None acquired;
      Some (match r with Some (t, m, done) => Some (t, m, if done : bool then Destroyed else NotDestroyed) | None => None end)
  | DestroyLocked h acquired =>
      p ← PhpLookupHandleTableEntry t m (PhpDecodeHandle h); p ← p;
      r ← PhDestroyHandle t m h (Some p) acquired;
      Some (match r with Some (t, m, done) => Some (t, m, if done : bool then Destroyed else NotDestroyed) | None => None end)
  | SetFlags flags =>
      let '(t, status) := PhSetInformationHandleTable t HandleTableFlagsInformation flags sizeof_FLAGS_INFORMATION in
      Some (Some (t, m, Status status))
  end.

(** The states of a table created in [before], and the contents its callers know of. *)
Inductive reaches (before : mem) (a : Z) : TABLE -> mem -> contents -> Prop :=
  | reach_created m t : PhCreateHandleTable uninitialized before = Some (m, Some (a, t)) -> reaches before a t m ∅
  | reach_call t m M c t' m' r M' : reaches before a t m M -> permitted M c ->
      perform c t m = Some (Some (t', m', r)) -> promises (@out_of_memory S _) M c r M' -> reaches before a t' m' M'.

(** ** The calls keep the promises *)

Lemma all_in_use m0 t m s E M : table_wf m0 t m s E [] [] -> shows E M -> NextValue t = 2 ^ 24 -> forall v, 0 <= v < 2 ^ 24 -> is_Some (M !! v).
Proof.
  intros [HL HF] HM Hn v Hv. destruct (layout_bound _ _ _ _ _ HL) as [_ HlE]. destruct (lookup_lt_is_Some_2 E (Z.to_nat v)) as [e He]; [lia|].
  rewrite (shows_lookup E M v e HM ltac:(lia) He). apply shown_used. eapply (lists_used _ _ _ _ HF v); [|exact (not_elem_of_nil v)|exact He]; lia.
Qed.

Lemma table_wf_flags m0 t m s E free alt f : table_wf m0 t m s E free alt -> table_wf m0 (set_Flags t f) m s E free alt.
Proof. intros [HL [Hf Ha Hnd Hr Hun Hus Hc]]. split; [by eapply layout_fields; [..|exact HL]|]. by split. Qed.

Lemma perform_spec m0 t m M c : represents m0 t m M -> permitted M c ->
  exists r, perform c t m = Some r /\
    match r with
    | None => must_wait M c
    | Some (t', m', a) => exists M', promises (@out_of_memory S _) M c a M' /\ represents m0 t' m' M'
    end.
Proof.
  intros (s & E & free & alt & Hwf & HM) Hp. destruct c as [e|h|h|h q|h q|f]; cbn [perform permitted must_wait] in *.
  - destruct (create_spec uninitialized m0 t m s E free alt M e Hwf HM) as (t' & m' & [h|] & -> & _ & Hr); cbn [mbind option_bind]; eexists; (split; [done|]).
    + destruct Hr as (v & s' & E' & free' & alt' & -> & Hv & Hnone & Hwf' & HM' & _). eexists. split; [by apply promise_created|]. by exists s', E', free', alt'.
    + destruct Hr as (-> & -> & Hfull & s' & E' & Hwf' & HM'). exists M. split; [|by exists s', E', [], []].
      apply promise_full. destruct Hfull as [?|Hn]; [by left|right]. by eapply (all_in_use m0 t m s E).
  - destruct (lookup_handle_spec uninitialized m0 t m s E free alt M h Hwf HM) as (r & -> & Hr). cbn [mbind option_bind].
    destruct (M !! PhpDecodeHandle h) as [[[o v2] []]|] eqn:EM.
    + subst r. eexists. split; [done|]. by exists o, v2.
    + destruct Hr as (m' & p & E' & -> & Hwf' & HM' & Hg). rewrite Hg. cbn [mbind option_bind]. eexists. split; [done|].
      eexists. split; [by eapply promise_entry|]. by exists s, E', free, alt.
    + subst r. eexists. split; [done|]. exists M. split; [by apply promise_no_entry|]. by exists s, E, free, alt.
  - destruct Hp as (o & v2 & HMh). destruct (unlock_spec uninitialized m0 t m s E free alt M (PhpDecodeHandle h) o v2 true Hwf HM (proj1 (decode_range uninitialized h)) HMh) as (p & m' & E' & -> & Hu & Hwf' & HM').
    cbn [mbind option_bind]. rewrite Hu. cbn [mbind option_bind]. eexists. split; [done|].
    eexists. split; [by eapply promise_unlocked|]. by exists s, E', free, alt.
  - destruct (destroy_spec uninitialized m0 t m s E free alt M h q Hwf HM) as (r & -> & Hr). cbn [mbind option_bind].
    destruct (M !! PhpDecodeHandle h) as [[[o v2] []]|] eqn:EM.
    + subst r. eexists. split; [done|]. by exists o, v2.
    + destruct Hr as (t' & m' & E' & -> & Hwf' & HM' & _). eexists. split; [done|].
      eexists. split; [by eapply promise_destroyed|]. eexists s, E', _, _. split; [exact Hwf'|done].
    + subst r. eexists. split; [done|]. exists M. split; [by apply promise_not_destroyed|]. by exists s, E, free, alt.
  - destruct Hp as (o & v2 & HMh). destruct (destroy_locked_spec uninitialized m0 t m s E free alt M h o v2 q Hwf HM HMh) as (p & t' & m' & E' & -> & Hd & Hwf' & HM' & _).
    cbn [mbind option_bind]. rewrite Hd. cbn [mbind option_bind]. eexists. split; [done|].
    eexists. split; [by eapply promise_destroyed_locked|]. eexists s, E', _, _. split; [exact Hwf'|done].
  - change (PhSetInformationHandleTable t HandleTableFlagsInformation f sizeof_FLAGS_INFORMATION)
      with (if (Z.land f PH_HANDLE_TABLE_VALID_FLAGS =? f) then (set_Flags t f, STATUS_SUCCESS) else (t, STATUS_INVALID_PARAMETER)).
    pose proof (promise_flags (@out_of_memory S _) M f) as Hpr. destruct (Z.land f PH_HANDLE_TABLE_VALID_FLAGS =? f); (eexists; split; [done|]; exists M; split; [exact Hpr|]).
    + exists s, E, free, alt. split; [by apply table_wf_flags|done].
    + by exists s, E, free, alt.
Qed.

(** The answer determines the contents. *)
Lemma promises_functional (nomem : Prop) M c r M1 M2 : promises nomem M c r M1 -> promises nomem M c r M2 -> M1 = M2.
Proof.
  intros P1 P2. destruct P1; inversion P2; subst; try done; try congruence.
  match goal with E : PhpEncodeHandle _ = PhpEncodeHandle _ |- _ => apply (f_equal PhpDecodeHandle) in E; rewrite !(fun v Hv => proj1 (encode_decode v Hv)) in E by done; by subst end.
Qed.

(** What is known along a sequence of calls. *)
Lemma reaches_represents before a t m M : mem_wf before -> reaches before a t m M -> exists m0, represents m0 t m M /\
  (a ∉ owned Structure (pool before)) /\ owned Structure (pool m0) = {[a]} ∪ owned Structure (pool before) /\
  table0 m0 = table0 before /\ table1 m0 = table1 before /\ table2 m0 = table2 before.
Proof.
  intros Hb. induction 1 as [m t Hc|t m M c t' m' r M' _ IH Hp Hc HP].
  - destruct (create_table_spec uninitialized before Hb) as (m' & r & Hr & Hspec). rewrite Hc in Hr. injection Hr as <- <-.
    destruct Hspec as (m0 & s & E & Hwf & HM & _ & Hrest). exists m0. split; [by exists s, E, (seqZ 0 256), []|done].
  - destruct IH as (m0 & Hrep & Hrest). exists m0. split; [|done]. destruct (perform_spec m0 t m M c Hrep Hp) as (r' & Hr' & Hspec).
    rewrite Hc in Hr'. injection Hr' as <-. destruct Hspec as (M2 & HP2 & Hrep2). by rewrite (promises_functional _ _ _ _ _ _ HP HP2).
Qed.

(** ** The order in which handles are used again

    The unused handle values in the order a table with strict FIFO hands them out. *)
Definition queued m0 t m M (q : list Z) : Prop := exists s E free alt, table_wf m0 t m s E free alt /\ shows E M /\ q = free ++ rev alt.

Lemma fresh_queued before m a t : mem_wf before -> PhCreateHandleTable uninitialized before = Some (m, Some (a, t)) ->
  Flags t = 0 /\ exists m0, queued m0 t m ∅ (seqZ 0 256).
Proof.
  intros Hb Hc. destruct (create_table_spec uninitialized before Hb) as (m' & r & Hr & Hspec). rewrite Hc in Hr. injection Hr as <- <-.
  destruct Hspec as (m0 & s & E & Hwf & HM & Hfl & _). split; [done|]. exists m0, s, E, (seqZ 0 256), []. split; [done|]. split; [done|]. by rewrite app_nil_r.
Qed.

Lemma queued_flags m0 t m M q f : queued m0 t m M q -> queued m0 (set_Flags t f) m M q.
Proof. intros (s & E & free & alt & Hwf & HM & Hq). exists s, E, free, alt. split; [by apply table_wf_flags|done]. Qed.

Lemma strict_same t t' : Flags t' = Flags t -> strict_fifo t' = strict_fifo t.
Proof. intros Ef. unfold strict_fifo. by rewrite Ef. Qed.

(** With strict FIFO the lists work as one queue. *)
Lemma taken_queue t free alt v free' alt' : strict_fifo t = true -> taken t free alt v free' alt' ->
  v :: (free' ++ rev alt') = free ++ rev alt \/
  (Z.of_nat (length (free ++ rev alt)) < PH_HANDLE_TABLE_FREE_COUNT /\ v :: (free' ++ rev alt') = seqZ (NextValue t) 256 ++ (free ++ rev alt)).
Proof.
  intros Hs [[-> ->]|(-> & -> & more & Hm)]; [by left|]. rewrite Hs in Hm. unfold refilled, moved in Hm. cbn [negb andb app rev] in *. rewrite app_nil_r.
  rewrite app_nil_r in Hm. destruct (decide (alt = [])) as [->|Hne].
  - cbn [bool_decide orb andb rev length] in *. rewrite bool_decide_true in Hm by done. cbn [orb andb] in Hm. destruct more; [|done]. right. split; [done|exact Hm].
  - rewrite bool_decide_false in Hm by done. cbn [orb] in Hm. destruct (Z.ltb_spec (Z.of_nat (length alt)) PH_HANDLE_TABLE_FREE_COUNT); [|by left].
    destruct more; [|by left]. right. split; [by rewrite length_rev|exact Hm].
Qed.

(** With the strict FIFO flag, handle values are used again in the order they were freed: a
    destroyed handle's value goes to the end of the queue, and a new handle takes the front; only when
    fewer than 64 values wait does the table grow, and then the new values come first, in order. *)
Theorem handle_reuse_fifo m0 t m M q : queued m0 t m M q -> strict_fifo t = true ->
  (forall h acquired o v2, M !! PhpDecodeHandle h = Some (o, v2, false) ->
     exists t' m', PhDestroyHandle t m h None acquired = Some (Some (t', m', true)) /\ strict_fifo t' = true /\
       queued m0 t' m' (delete (PhpDecodeHandle h) M) (q ++ [PhpDecodeHandle h])) /\
  (forall e t' m' h, PhCreateHandle uninitialized t m e = Some (t', m', Some h) ->
     exists v q', h = PhpEncodeHandle v /\ strict_fifo t' = true /\ queued m0 t' m' (<[v := (Object_of e, Value2 e, false)]> M) q' /\
       (v :: q' = q \/ Z.of_nat (length q) < PH_HANDLE_TABLE_FREE_COUNT /\ v :: q' = seqZ (NextValue t) 256 ++ q)).
Proof.
  intros (s & E & free & alt & Hwf & HM & ->) Hs. split.
  - intros h acquired o v2 HMh. destruct (destroy_spec uninitialized m0 t m s E free alt M h acquired Hwf HM) as (r & -> & Hr). rewrite HMh in Hr.
    destruct Hr as (t' & m' & E' & -> & Hwf' & HM' & Hfl). exists t', m'. split; [done|]. split; [by rewrite (strict_same _ _ Hfl)|].
    unfold to_first in Hwf'. rewrite Hs in Hwf'. cbn [negb andb] in Hwf'. eexists s, E', _, _. split; [exact Hwf'|]. split; [done|]. cbn [rev]. by rewrite app_assoc.
  - intros e t' m' h Hc. destruct (create_spec uninitialized m0 t m s E free alt M e Hwf HM) as (t1 & m1 & r & Hc' & Hfl & Hr). rewrite Hc in Hc'. injection Hc' as <- <- <-.
    destruct Hr as (v & s' & E' & free' & alt' & -> & Hv & Hnone & Hwf' & HM' & Htaken). exists v, (free' ++ rev alt'). split; [done|]. split; [by rewrite (strict_same _ _ Hfl)|].
    split; [by exists s', E', free', alt'|]. by apply taken_queue.
Qed.


(** ** The theorems about sequences of calls *)

(** Without that flag, and when no other thread is about to take the value, a destroyed handle is the
    next one created, and that creation cannot fail. *)
Theorem handle_reuse_lifo before a t m M h e o v2 : mem_wf before -> reaches before a t m M -> strict_fifo t = false ->
  M !! PhpDecodeHandle h = Some (o, v2, false) ->
  exists t1 m1 t2 m2, perform (Destroy h true) t m = Some (Some (t1, m1, Destroyed)) /\
    perform (Create e) t1 m1 = Some (Some (t2, m2, Created (PhpEncodeHandle (PhpDecodeHandle h)))) /\
    reaches before a t2 m2 (<[PhpDecodeHandle h := (Object_of e, Value2 e, false)]> M).
Proof.
  intros Hb Hreach Hs HMh. destruct (reaches_represents before a t m M Hb Hreach) as (m0 & (s & E & free & alt & Hwf & HM) & _).
  destruct (destroy_spec uninitialized m0 t m s E free alt M h true Hwf HM) as (r & Hd & Hr). rewrite HMh in Hr.
  destruct Hr as (t1 & m1 & E1 & -> & Hwf1 & HM1 & Hfl). unfold to_first in Hwf1. rewrite Hs in Hwf1. cbn [negb andb] in Hwf1.
  destruct (create_spec uninitialized m0 t1 m1 s E1 _ alt _ e Hwf1 HM1) as (t2 & m2 & [h'|] & Hc & _ & Hr); [|by destruct Hr as (? & _)].
  destruct Hr as (v & s2 & E2 & free2 & alt2 & -> & Hv & Hnone & Hwf2 & HM2 & [[[= <- <-] _]|(? & _)]); [|done].
  assert (Hp1 : perform (Destroy h true) t m = Some (Some (t1, m1, Destroyed))) by (cbn [perform]; by rewrite Hd).
  assert (Hp2 : perform (Create e) t1 m1 = Some (Some (t2, m2, Created (PhpEncodeHandle (PhpDecodeHandle h))))) by (cbn [perform]; by rewrite Hc).
  exists t1, m1, t2, m2. split; [done|]. split; [done|]. rewrite <- insert_delete_eq.
  assert (Hreach1 : reaches before a t1 m1 (delete (PhpDecodeHandle h) M)).
  { apply (reach_call before a t m M (Destroy h true) t1 m1 Destroyed); [exact Hreach|exact I|exact Hp1|by eapply promise_destroyed]. }
  eapply (reach_call before a t1 m1 _ (Create e)); [exact Hreach1|exact I|exact Hp2|by apply promise_created].
Qed.

(** C6: A handle table is a map from handles to entries. Whatever calls were made since its creation,
    every call is defined and answers what the map says: a creation returns a handle that was not in
    use, or none because an allocation can fail or all 2^24 values are in use; a lookup returns the
    entry created for the handle, locked; a destroyed handle is gone; and a call waits only for an
    entry that is locked. *)
Theorem handle_table_refines_map before a t m M c : mem_wf before -> reaches before a t m M -> permitted M c ->
  exists r, perform c t m = Some r /\
    match r with
    | None => must_wait M c
    | Some (t', m', answer) => exists M', promises (@out_of_memory S _) M c answer M' /\ reaches before a t' m' M'
    end.
Proof.
  intros Hb Hr Hp. destruct (reaches_represents before a t m M Hb Hr) as (m0 & Hrep & _).
  destruct (perform_spec m0 t m M c Hrep Hp) as (r & Hperf & Hspec). exists r. split; [done|]. destruct r as [[[t' m'] ans]|]; [|done].
  destruct Hspec as (M' & HP & _). exists M'. split; [done|]. by eapply reach_call.
Qed.

(** C23: Destroying a table, whatever was done with it and whatever handles are still in use, gives back
    all the memory it has taken: every block of the three levels and the structure, and nothing else
    is touched. *)
Theorem handle_table_destroy_frees_all before a t m M : mem_wf before -> reaches before a t m M ->
  exists m', PhDestroyHandleTable a t m = Some m' /\
    table0 m' = table0 before /\ table1 m' = table1 before /\ table2 m' = table2 before /\ forall k, owned k (pool m') = owned k (pool before).
Proof.
  intros Hb Hr. destruct (reaches_represents before a t m M Hb Hr) as (m0 & (s & E & free & alt & [HL _] & _) & Ha & Hst & E0 & E1 & E2).
  destruct (destroy_table_spec uninitialized m0 t m s E a HL) as (m' & Hd & Hm' & F0 & F1 & F2 & Fst); [rewrite Hst; set_solver|]. exists m'. split; [done|].
  split; [congruence|]. split; [congruence|]. split; [congruence|]. destruct Hm' as [_ D0 D1 D2], Hb as [_ B0 B1 B2].
  intros []; [congruence|congruence|congruence|]. rewrite Fst, Hst. set_solver.
Qed.

(** Enumeration calls back for exactly the handles in use, in increasing order, with the entry
    locked, until the callback answers FALSE or it comes to a locked entry, and leaves the table as it
    was; the sweep does the same without the locks. Both end. *)
Theorem handle_table_enumerates {St} before a t m M (Callback : Z -> PH_HANDLE_TABLE_ENTRY -> St -> St * bool) st : mem_wf before -> reaches before a t m M ->
  PhEnumHandleTable Callback t m st = Some (option_map (pair m) (enum_calls Callback (in_use M 0 (NextValue t)) st)) /\
  PhSweepHandleTable Callback t m st = Some (sweep_calls Callback (in_use M 0 (NextValue t)) st) /\
  forall v x, (v, x) ∈ in_use M 0 (NextValue t) <-> M !! v = Some x.
Proof.
  intros Hb Hr. destruct (reaches_represents before a t m M Hb Hr) as (m0 & (s & E & free & alt & Hwf & HM) & _).
  destruct (layout_bound _ _ _ _ _ (proj1 Hwf)) as [Hn HlE].
  split; [eapply (handle_enum_loop uninitialized); [exact Hwf|exact HM|lia|lia]|]. split; [eapply (sweep_loop_spec uninitialized); [exact Hwf|exact HM|lia|lia]|].
  intros v x. unfold in_use. rewrite list_elem_of_omap. split.
  - intros (w & _ & Hw). destruct (M !! w) eqn:Ew; [|done]. by injection Hw as <- <-.
  - intros Hx. exists v. split; [|by rewrite Hx]. apply elem_of_seqZ. destruct (Z.ltb_spec v (NextValue t)) as [|Hge].
    + destruct (Z.leb_spec 0 v) as [|Hneg]; [lia|]. rewrite HM, (proj2 (Z.leb_gt 0 v)) in Hx by done. done.
    + erewrite shows_beyond in Hx; [done|exact (proj1 Hwf)|exact HM|done].
Qed.


End spec.

(** ** A run

    A heap that answers with a new block at each call, and an entry for the object 5. *)
Definition demo_allocate (t : nat) (h : gmap Z Z) (n : Z) : option Z :=
  let a := 16000 * (Z.of_nat t + 1) in match h !! a with None => Some a | Some _ => None end.
#[global] Instance demo_heap : Heap := demo_allocate.
#[global] Instance demo_heap_laws : HeapLaws.
Proof.
  split; intros t h n a; unfold RtlAllocateHeap, demo_heap, demo_allocate; cbv zeta; destruct (h !! (16000 * (Z.of_nat t + 1))) eqn:E; try done; intros [= <-]; [done|].
  split; [lia|]. Z.to_euclidean_division_equations; lia.
Qed.

Definition demo_before : @mem HandleHeap.pools :=
  {| pool := HandleHeap.initial_pools {| FreeList.blocks := ∅; FreeList.clock := 0 |}; table0 := ∅; table1 := ∅; table2 := ∅ |}.
Definition demo_junk (table i : Z) : PH_HANDLE_TABLE_ENTRY := {| Value := 0xCDCDCDCD; Value2 := table + i |}.
Definition demo_entry : PH_HANDLE_TABLE_ENTRY := {| Value := 4 * 5; Value2 := 7 |}.

Lemma demo_before_wf : mem_wf demo_before.
Proof. split; [apply HandleHeap.pools_wf_initial|done..]. Qed.

Definition demo_run : option (Z * TABLE * @mem HandleHeap.pools * TABLE * @mem HandleHeap.pools * answer) :=
  '(m, r) ← PhCreateHandleTable demo_junk demo_before; '(a, t) ← r; r ← perform demo_junk (Create demo_entry) t m; '(t', m', ans) ← r; Some (a, t, m, t', m', ans).

Lemma demo_run_answers : snd <$> demo_run = Some (Created 4).
Proof. by vm_compute. Qed.

Lemma demo_promise nomem : promises nomem ∅ (Create demo_entry) (Created 4) {[0 := (5, 7, false)]}.
Proof.
  assert (H0 : 0 <= 0 < 2 ^ 24) by lia. pose proof (promise_created nomem ∅ demo_entry 0 H0 (lookup_empty 0)) as HP. by rewrite insert_empty in HP.
Qed.

Lemma demo_states : exists a t m t' m', PhCreateHandleTable demo_junk demo_before = Some (m, Some (a, t)) /\
  reaches demo_junk demo_before a t' m' {[0 := (5, 7, false)]} /\ Flags t' = 0 /\ reaches demo_junk demo_before a t m ∅.
Proof.
  pose proof demo_run_answers as Hr. unfold demo_run in Hr. destruct (PhCreateHandleTable demo_junk demo_before) as [[m [[a t]|]]|] eqn:Ec; [|done|done].
  cbn [mbind option_bind] in Hr. destruct (perform demo_junk (Create demo_entry) t m) as [[[[t' m'] ans]|]|] eqn:Ep; [|done|done].
  cbn [mbind option_bind fmap option_fmap option_map snd] in Hr. injection Hr as ->.
  exists a, t, m, t', m'. pose proof (reach_created demo_junk demo_before a m t Ec) as H0. split; [done|]. split; [|split; [|done]].
  - apply (reach_call demo_junk demo_before a t m ∅ (Create demo_entry) t' m' (Created 4) _ H0 I Ep). apply demo_promise.
  - destruct (fresh_queued demo_junk demo_before m a t demo_before_wf Ec) as (Hf & m0 & s & E & free & alt & Hwf & HM & _).
    destruct (create_spec demo_junk m0 t m s E free alt ∅ demo_entry Hwf HM) as (t1 & m1 & r & Hc & Hfl & _). unfold perform in Ep. rewrite Hc in Ep.
    cbn [mbind option_bind] in Ep. injection Ep as <- <- _. congruence.
Qed.

Lemma handle_table_refines_map_witness : exists a t m, reaches demo_junk demo_before a t m {[0 := (5, 7, false)]} /\
  exists r, perform demo_junk (Lookup 4) t m = Some r /\
    match r with
    | None => must_wait {[0 := (5, 7, false)]} (Lookup 4)
    | Some (t', m', answer) => exists M', promises (@out_of_memory HandleHeap.pools _) {[0 := (5, 7, false)]} (Lookup 4) answer M' /\ reaches demo_junk demo_before a t' m' M'
    end.
Proof.
  destruct demo_states as (a & t & m & t' & m' & _ & Hr & _). exists a, t', m'. split; [exact Hr|].
  apply (handle_table_refines_map demo_junk demo_before a t' m'); [exact demo_before_wf|exact Hr|exact I].
Defined.

Lemma handle_table_destroy_frees_all_witness : exists a t m, reaches demo_junk demo_before a t m {[0 := (5, 7, false)]} /\
  exists m', PhDestroyHandleTable a t m = Some m' /\
    table0 m' = table0 demo_before /\ table1 m' = table1 demo_before /\ table2 m' = table2 demo_before /\ forall k, owned k (pool m') = owned k (pool demo_before).
Proof.
  destruct demo_states as (a & t & m & t' & m' & _ & Hr & _). exists a, t', m'. split; [exact Hr|].
  apply (handle_table_destroy_frees_all demo_junk demo_before a t' m' {[0 := (5, 7, false)]}); [exact demo_before_wf|exact Hr].
Defined.

(** The callback keeps the handles it is told, and never stops. *)
Definition demo_callback (h : Z) (e : PH_HANDLE_TABLE_ENTRY) (st : list Z) : list Z * bool := (h :: st, true).

Lemma handle_table_enumerates_witness : exists a t m, reaches demo_junk demo_before a t m {[0 := (5, 7, false)]} /\
  (PhEnumHandleTable demo_callback t m [] = Some (option_map (pair m) (enum_calls demo_callback (in_use {[0 := (5, 7, false)]} 0 (NextValue t)) [])) /\
  PhSweepHandleTable demo_callback t m [] = Some (sweep_calls demo_callback (in_use {[0 := (5, 7, false)]} 0 (NextValue t)) []) /\
  forall v x, (v, x) ∈ in_use {[0 := (5, 7, false)]} 0 (NextValue t) <-> ({[0 := (5, 7, false)]} : contents) !! v = Some x).
Proof.
  destruct demo_states as (a & t & m & t' & m' & _ & Hr & _). exists a, t', m'. split; [exact Hr|].
  apply (handle_table_enumerates demo_junk demo_before a t' m' {[0 := (5, 7, false)]} demo_callback []); [exact demo_before_wf|exact Hr].
Defined.

Lemma handle_reuse_lifo_witness : exists a t m, reaches demo_junk demo_before a t m {[0 := (5, 7, false)]} /\
  exists t1 m1 t2 m2, perform demo_junk (Destroy 4 true) t m = Some (Some (t1, m1, Destroyed)) /\
    perform demo_junk (Create demo_entry) t1 m1 = Some (Some (t2, m2, Created (PhpEncodeHandle (PhpDecodeHandle 4)))) /\
    reaches demo_junk demo_before a t2 m2 (<[PhpDecodeHandle 4 := (Object_of demo_entry, Value2 demo_entry, false)]> {[0 := (5, 7, false)]}).
Proof.
  destruct demo_states as (a & t & m & t' & m' & _ & Hr & Hf & _). exists a, t', m'. split; [exact Hr|].
  apply (handle_reuse_lifo demo_junk demo_before a t' m' {[0 := (5, 7, false)]} 4 demo_entry 5 7);
    [exact demo_before_wf|exact Hr|unfold strict_fifo; rewrite Hf; reflexivity|reflexivity].
Defined.

Lemma handle_reuse_fifo_witness : exists m0 t m, queued m0 t m ∅ (seqZ 0 256) /\ strict_fifo t = true /\
  ((forall h acquired o v2, (∅ : contents) !! PhpDecodeHandle h = Some (o, v2, false) ->
     exists t' m', PhDestroyHandle t m h None acquired = Some (Some (t', m', true)) /\ strict_fifo t' = true /\
       queued m0 t' m' (delete (PhpDecodeHandle h) ∅) (seqZ 0 256 ++ [PhpDecodeHandle h])) /\
  (forall e t' m' h, PhCreateHandle demo_junk t m e = Some (t', m', Some h) ->
     exists v q', h = PhpEncodeHandle v /\ strict_fifo t' = true /\ queued m0 t' m' (<[v := (Object_of e, Value2 e, false)]> ∅) q' /\
       (v :: q' = seqZ 0 256 \/ Z.of_nat (length (seqZ 0 256)) < PH_HANDLE_TABLE_FREE_COUNT /\ v :: q' = seqZ (NextValue t) 256 ++ seqZ 0 256))).
Proof.
  destruct demo_states as (a & t & m & t' & m' & Hc & _). destruct (fresh_queued demo_junk demo_before m a t demo_before_wf Hc) as (_ & m0 & Hq).
  pose proof (queued_flags m0 t m ∅ (seqZ 0 256) PH_HANDLE_TABLE_STRICT_FIFO Hq) as Hq'.
  exists m0, (set_Flags t PH_HANDLE_TABLE_STRICT_FIFO), m. split; [exact Hq'|]. split; [reflexivity|].
  apply (handle_reuse_fifo demo_junk m0 (set_Flags t PH_HANDLE_TABLE_STRICT_FIFO) m ∅ (seqZ 0 256)); [exact Hq'|reflexivity].
Defined.


End HandleSpec.
